(* ===== verification/_CoqProject ===== *)
-Q . S2P
Prelude.v
Crc32c.v
Page.v
SsTable.v
BufferPool.v
Clock.v
DurableLog.v
Wal.v
Memory.v
Coordinators.v
Bits.v
Bsi.v
Nulls.v
NullPacked.v
TriBool.v
Bitmap.v
Catalog.v
Result.v
Sorting.v
SnapshotTxn.v
Mvcc.v
Lexer.v
DateTime.v
JoinHash.v
Bloom.v
FmIndex.v
StringColumn.v
Leapfrog.v
Recovery.v
Parser.v
Printer.v
Dml.v
Window.v
Temporal.v
Vectorized.v
Parallel.v
ScanKernels.v
Dispatch.v
IndexManager.v
Where.v
Select.v
GroupBy.v
HashJoin.v
Joins.v
ExprEval.v
Executor.v
Statements.v
Ddl.v
Changes.v
Inserts.v
Transactions.v
Filters.v
Engine.v
Indexed.v
Sketches.v
ZoneMaps.v
FixedAgg.v
Merge.v
Pivot.v
Cte.v
Views.v
Auth.v
Pgwire.v
Tpch.v
TpchPrint.v
TpchEval.v
TpchWhere.v
Csv.v
TpchTable.v
TpchJoin.v
Json.v
