(* ===== verification/Prelude.v ===== *)
(** * turboGP: a verification development

    turboGP (sources under src/src) is an analytical SQL engine: statements are tokenized
    and parsed, planned, and executed over columns of 64-bit cells held in memory, with
    vectorised kernels, hash joins and search indexes; tables persist in pages and sorted
    tables, and commits are made durable by a write-ahead log and a log of statements.

    ** How the parts interact

    - Storage.  A page (page.rs) carries a CRC32C and a parity word and is the unit of the
      sorted tables (sstable.rs) and of the buffer pool (buffer_pool.rs).  The write-ahead
      log (wal.rs) is appended to by the commit coordinators (protocol/cxl.rs, raft.rs),
      which stamp records with a hybrid logical clock (protocol/clock.rs).  The statement
      log and its replay (recovery.rs, and opening a data directory in engine/mod.rs)
      restore a database after a crash.  Memory regions live in tiers with an LRU queue
      per tier (memory/).
    - Transactions.  BEGIN, COMMIT and ROLLBACK over a copy of the catalog (txn/mod.rs),
      and row versions with snapshots (txn/mvcc.rs).
    - Statements.  dml.rs reads INSERT, UPDATE and DELETE; engine/mod.rs executes them and
      the DDL statements over its state (catalog, indexes, temporal tables, transaction,
      savepoints), on the snapshot of the transaction while there is one.  Indexes
      (index/manager.rs) are tried before a scan; temporal tables (exec/temporal.rs) keep
      the versions of rows.  WITH, UNION ALL, views and MERGE run queries of their own and
      register what they return as tables (engine/mod.rs, exec/merge.rs); PIVOT, CUBE and
      ROLLUP rewrite results (exec/pivot.rs).
    - Columns.  Null bitmaps (types/null_bitmap.rs, types/null.rs), three-valued logic,
      dates (types/datetime.rs), tables and the catalog (datasource/table.rs,
      catalog/mod.rs), string columns with an FM-index (exec/fm_index.rs), the bit-sliced
      index (index/bsi.rs).
    - Queries.  lexer.rs and parser.rs turn text into a [SelectQuery].  The executor
      (engine/executor.rs) chooses a plan (planner/optimizer.rs), joins tables
      (exec/join.rs), and hands the query to the dispatcher (engine/dispatch.rs), which
      classifies it, evaluates WHERE as a mask (exec/vectorized.rs, in parallel through
      exec/parallel.rs), and builds the result (engine/result.rs).  Window functions
      (exec/window.rs) and DISTINCT (engine/mod.rs) are applied to it at the end.  A query
      the executor refuses goes to a second interpreter (engine/tpch.rs), with a syntax
      tree, a parser and an evaluator of its own.
    - Files.  datasource/csv.rs loads comma-separated and TPC-H files as tables.
    - Server.  A connection (server/pgwire.rs, session.rs) reads the messages of a
      PostgreSQL client, authenticates it (auth.rs), keeps its prepared statements and
      portals, and runs its statements on the engine it shares with the others.

    ** Files

    Every file opens with the sources it models; definitions keep the names of the code.
    A component has one file, and its file one Module.

    - Foundations: [Prelude] (machine integers, results, state monad, lists, tactics and
      hint databases), [Bits] (packed words), [Sorting] (the stable [sort_by], with the
      orders it is called with as instances of a class), [DurableLog] (a class: what a log
      promises to the coordinators).
    - Storage: [Crc32c], [Page], [SsTable], [BufferPool], [Wal] (an instance of
      [DurableLog]), [Clock], [Coordinators] (proved against [DurableLog]), [Recovery],
      [Memory].
    - Transactions: [SnapshotTxn], [Mvcc].
    - Columns and indexes: [Nulls], [NullPacked] (refines [Nulls]), [TriBool], [Bitmap],
      [DateTime], [Catalog], [Bsi], [FmIndex], [StringColumn], [Bloom], [JoinHash],
      [Leapfrog] (its iterators are an interface with laws), [ZoneMaps] (and hash columns),
      [Sketches] (Count-Min, HyperLogLog), [FixedAgg].
    - SQL: [Lexer], [Parser], [Printer] (a specification: how to write a query down), [Dml],
      [Ddl]; [Tpch], the parser of the second interpreter, and [TpchPrint], how to write its
      queries down.
    - Execution: [Result], [Vectorized], [Parallel], [ScanKernels], [Dispatch],
      [HashJoin], [ExprEval], [Executor], [Window] model the code; [Where], [Select],
      [GroupBy], [Joins], [Filters] and [Engine] state what queries mean and prove the
      models right.
    - The second interpreter: [TpchEval] models its values and both evaluators of WHERE (by
      rows, by columns), [TpchWhere] proves them equal; [Csv] models the loaders of
      files, [TpchTable] the tables the interpreter makes of them; [TpchJoin] models its
      joins, over [JoinHash] and [Bloom], and proves them nested loops.
    - Statements: [Statements] models their execution, [IndexManager] and [Temporal] the
      structures beside the tables; [Changes] (UPDATE, DELETE), [Inserts], [Transactions]
      and [Indexed] (SELECT through an index) state and prove what they do.  [Merge],
      [Pivot], [Cte] (WITH and UNION ALL), [Views] and [Json] (JSON_VALUE in a select list,
      JSON_MODIFY, OPENJSON) model the statements on top of it, over any engine that runs
      the inner queries.
    - Server: [Auth] (passwords, SCRAM, CREATE USER) and [Pgwire] (one connection: bytes in,
      messages out, over the class [Engine] of what it asks of the engine).

    ** What the theorems show

    The doc comment of each theorem lists the conditions it holds under; where the code
    fails outside of them, a theorem next to it shows how.

    - Durability: no crash, torn write or failed system call loses a synced record of the
      write-ahead log or yields one that was never written (safety of [Wal]), as long as no
      append of 8 KiB or more fails halfway; commits acknowledged by a coordinator are
      read back after a crash, in order; synced statements survive, and replay runs the
      autocommitted ones and then those of the ids that have a commit and no rollback.  The
      buffer pool is
      transparent over the disk, flushes everything, and finds a victim whenever one
      exists; the SSTable reader returns what its writer was given; a page repairs any
      single flipped bit.
    - SQL text: tokenizing rendered tokens and parsing printed queries give them back;
      parsing returns on every input, without a panic and without running out of fuel, and
      so for the queries of the second interpreter.
    - Queries: [Where] gives predicates a meaning of their own and shows the dispatcher's
      mask computes it; [Select], [GroupBy] and [Joins] do the same for projection, order,
      limit, aggregates, groups and joins as lists of rows; [Engine] composes them into
      one theorem on a query from plan to result.  [Filters] proves the executor's two
      evaluators of WHERE equal.  [Window] specifies every window function by rank, offset
      or fold over its ordered partition.  [TpchWhere] shows that filtering whole columns
      leaves the rows on which the row evaluator finds the condition true, and its LIKE the
      strings that match; [TpchTable] that a TPC-H file, loaded and queried, gives back the
      values written in it, dates by the calendar of [DateTime]; [TpchJoin] that both joins of
      the second interpreter give the rows of the nested loop, the Bloom filter, the join
      table, the choice of the side to build on and the chunks notwithstanding.
    - Statements: INSERT adds its rows with cells, NULL flags and strings; UPDATE and DELETE
      change the cells of exactly the rows their condition selects (and leave the strings
      where they were); tables stay well formed; a transaction of such statements, DDL and
      savepoints is all or nothing, and its statements return what they return outside
      (COPY and CHECKPOINT, modelled with EXPLAIN, ANALYZE and VACUUM, go past it);
      ROLLBACK TO restores the tables; a fresh index gives the answer of the scan; a
      temporal table answers AS OF with the rows of that moment; printed statements parse
      back.  [Transactions] does this with frames: a class of what a statement neither
      reads nor writes, solved by instances.
    - Statements over queries: MERGE updates the first matching row and inserts the others,
      exactly; WITH RECURSIVE reaches the least fixpoint of its two parts when the bound on
      the iterations allows; unpivoting a pivot gives the rows back and CUBE computes every
      grouping set; materialising views ends when views do not depend on themselves; the
      columns of JSON_VALUE hold what its path leads to in every document, and JSON_MODIFY
      changes what is at its path and nothing beside it.
    - Server: SCRAM accepts the proof of the stored password, and only messages whose proof
      hashes to the stored key; a client that has to authenticate is told that it is
      exactly when its bytes hold such an exchange, and until then the engine is left alone; Parse and Bind store what the client wrote; Executes of a portal send
      every row once, in order, and run the statement once; every connection ends with the
      bytes it is sent.
    - Equivalences: the vector kernels equal the scalar ones ([Crc32c], [Bitmap],
      [ScanKernels]) and parallel aggregation the sequential one, however the pool splits
      the work ([Parallel]).
    - Structures: the packed null bitmap refines the plain one, the tier queues refine
      recency order, the clock is monotone and causal, and the indexes (FM-index,
      bit-sliced index, join table, Bloom filter, leapfrog join) return what a scan of the
      data would; zone maps never skip a page with a match, a Count-Min sketch never
      underestimates, fixed-array aggregation equals grouping.
    - Error behaviour the code has and a reader would not expect is stated as theorems too
      (comparisons with the literal on the left, keys of several GROUP BY columns, ranges
      over signed cells, OVER clauses read back from text, strings left behind by DELETE,
      indexes that go stale, state that ROLLBACK does not restore, tables dropped by WITH,
      views that mention themselves, joins without an equality of columns, COPY inside a
      transaction, results with fewer NULL flags than rows, a cancel request that gets past
      authentication, negative message lengths).

    ** Integers, panics, fuel

    Integers of [w] bits are [Z] with [mod 2^w] written out; overflow wraps, as in the
    release profile.  A panic (index out of range, failed assertion) is a value: [None],
    [EIndex] or the constructor for it in a file's error type, so a theorem that a result
    is produced excludes panics.  Doubles are IEEE-754 through [SpecFloat], with one NaN.
    Loops that are not structural take fuel: the tokenizer and the parser take the length
    of their input, chains of the join table the number of entries, the leapfrog join the
    number of keys, a connection the number of bytes it is sent, views the depth of their
    references, LIKE the product of the two lengths, a loaded file its length; each file
    proves its fuel enough ([parse_total], [parse_tpch_total], [connection_ends],
    [like_loop_ok], and the statements of the other claims, which say a result is returned).

    ** Parameters

    What is not in the sources is an argument: [xxh3_64], Base64 and serde_json (crates), Unicode
    letter case and classes beyond ASCII, reading and displaying floats, dates of the time
    crate, the order in which a hash map yields its keys, how the thread pool splits work,
    CPU features, wall-clock readings, random values, cryptographic functions and the
    outcomes of system calls.  Laws a theorem
    needs of them are hypotheses of that theorem, and its witness instantiates them.

    ** Not modelled, and why

    The listener and replication streams (sockets), files read by the parquet crate, NUMA
    and bandwidth probes, huge pages: input and output only.  The cost
    model, compression, schema selection, similarity and t-digest: floating-point
    heuristics without an exact contract.  Of the second interpreter (engine/tpch.rs),
    reached when the executor returns an error (which is the result in [Executor]):
    subqueries with their caches and rewritings (a parameter of [TpchEval]), the order of
    joins, grouping, and one hand-written program for each TPC-H query.  The
    recognition of statements by their first words and the cutting of MERGE, WITH, CREATE
    VIEW and PIVOT statements into their parts, by search in the text.

    Next in order of use: these text readers, grouping in the second interpreter,
    integer aggregation kernels (exec/simd_agg.rs, kernel/vnni_agg.rs), string functions,
    procedures, tablets. *)

From Stdlib Require Import ZArith Lia.
From stdpp Require Import prelude gmap list numbers.
Local Open Scope Z_scope.

(** ** Machine integers

    A [w]-bit unsigned integer is a [Z] in [0, 2^w); the casts and the wrapping
    operations of the source are written out with [mod]. *)

Definition in_u (w : Z) (z : Z) : Prop := 0 <= z < 2 ^ w.
Definition wrap_u (w : Z) (z : Z) : Z := z mod 2 ^ w.
Definition as_signed (w : Z) (z : Z) : Z :=
  let r := z mod 2 ^ w in if Z.ltb r (2 ^ (w - 1)) then r else r - 2 ^ w.

#[global] Instance in_u_dec w z : Decision (in_u w z).
Proof. unfold in_u. apply _. Defined.

Definition wrapping_add (a b : Z) : Z := wrap_u 64 (a + b).
Definition wrapping_mul (a b : Z) : Z := wrap_u 64 (a * b).

(** ** Results

    [Result<A, E>] of the source.  A computation that mutates [self] and may
    return early through [?] is a [stM S E A]: it returns the result together
    with the state reached, whatever the result. *)

Inductive result (E A : Type) : Type :=
| Ok (a : A)
| Err (e : E).
Arguments Ok {E A} a.
Arguments Err {E A} e.

Definition is_ok {E A} (r : result E A) : bool :=
  match r with Ok _ => true | Err _ => false end.

Definition ok {E A} (r : result E A) : option A :=
  match r with Ok a => Some a | Err _ => None end.

Definition stM (S E A : Type) : Type := S → result E A * S.

#[global] Instance stM_ret {S E} : MRet (stM S E) := λ A a s, (Ok a, s).
#[global] Instance stM_bind {S E} : MBind (stM S E) := λ A B f m s,
  match m s with
  | (Ok a, s') => f a s'
  | (Err e, s') => (Err e, s')
  end.
Definition st_get {S E} : stM S E S := λ s, (Ok s, s).
Definition st_modify {S E} (f : S → S) : stM S E () := λ s, (Ok tt, f s).
Definition st_fail {S E A} (e : E) : stM S E A := λ s, (Err e, s).

#[global] Instance result_ret {E} : MRet (result E) := λ A a, Ok a.
#[global] Instance result_bind {E} : MBind (result E) := λ A B f m,
  match m with Ok a => f a | Err e => Err e end.

(** The classes of [crate::Error] (src/lib.rs) the modelled code raises; the
    formatted message is not kept. *)
Inductive Error : Type :=
| EIo | EInvalidArg | ECorruption | ENotFound | EUnsupported | EOther
| ETier | EProtocol | EParse.

#[global] Instance Error_eq_dec : EqDecision Error.
Proof. solve_decision. Defined.

(** ** Byte strings *)

Definition byte_ok (b : Z) : Prop := 0 <= b < 256.
Abbreviation bytes_ok := (Forall byte_ok).

#[global] Instance byte_ok_dec b : Decision (byte_ok b).
Proof. unfold byte_ok. apply _. Defined.

(** [to_le_bytes] and [from_le_bytes]. *)
Fixpoint le_bytes (n : nat) (z : Z) : list Z :=
  match n with
  | O => []
  | S n => (z mod 256) :: le_bytes n (z / 256)
  end.

Fixpoint le_decode (l : list Z) : Z :=
  match l with
  | [] => 0
  | b :: l => b + 256 * le_decode l
  end.

(** [l[off .. off + n]] of a slice that is long enough. *)
Definition slice {A} (off n : nat) (l : list A) : list A := take n (drop off l).

(** [dst[off .. off + src.len()].copy_from_slice(src)]. *)
Definition splice {A} (off : nat) (src dst : list A) : list A :=
  take off dst ++ src ++ drop (off + length src) dst.

(** ** Tactics and hint databases *)

Create HintDb bytes discriminated.
Create Rewrite HintDb len.
Create Rewrite HintDb bits.

(** [zbits] proves an equation of integers bit by bit. *)
#[export] Hint Rewrite Z.lxor_spec Z.land_spec Z.lor_spec Z.ldiff_spec Z.bits_0 : bits.
#[export] Hint Rewrite Z.shiftr_spec Z.shiftl_spec Z.lnot_spec using lia : bits.
Ltac zbits :=
  apply Z.bits_inj'; intros ?i ?Hi; autorewrite with bits;
  repeat match goal with
         | |- context [Z.testbit ?a ?j] => destruct (Z.testbit a j) eqn:?
         end; try reflexivity; try congruence.

(** [len] normalises lengths and calls [lia]. *)
#[export] Hint Rewrite @length_app @length_take @length_drop @length_replicate
  @length_insert @length_fmap @length_reverse @length_cons @length_nil : len.
Ltac len := autorewrite with len in *; try lia.

(** [inv_ok] destructs a successful bind. *)
Ltac case_result :=
  match goal with
  | H : context [match ?m with Ok _ => _ | Err _ => _ end] |- _ => destruct m eqn:?
  | |- context [match ?m with Ok _ => _ | Err _ => _ end] => destruct m eqn:?
  end.

(** ** Lemmas on little-endian encodings *)
Lemma length_le_bytes n z : length (le_bytes n z) = n.
Proof. revert z; induction n as [|n IH]; intros z; simpl; [done|by rewrite IH]. Qed.
#[export] Hint Rewrite length_le_bytes : len.

Lemma le_bytes_ok n z : bytes_ok (le_bytes n z).
Proof.
  revert z; induction n as [|n IH]; intros z; simpl; constructor; [|done].
  unfold byte_ok; apply Z.mod_pos_bound; lia.
Qed.
#[export] Hint Resolve le_bytes_ok : bytes.

Lemma pow256_succ n : 256 ^ Z.of_nat (S n) = 256 * 256 ^ Z.of_nat n.
Proof. rewrite Nat2Z.inj_succ, Z.pow_succ_r by lia; lia. Qed.

Lemma le_decode_bytes n z : 0 <= z < 256 ^ Z.of_nat n → le_decode (le_bytes n z) = z.
Proof.
  revert z; induction n as [|n IH]; intros z Hz; [simpl in *; lia|].
  rewrite pow256_succ in Hz. cbn [le_bytes le_decode]. rewrite IH.
  - pose proof (Z.div_mod z 256); lia.
  - split; [apply Z.div_pos; lia|apply Z.div_lt_upper_bound; lia].
Qed.

Lemma le_decode_range l : bytes_ok l → 0 <= le_decode l < 256 ^ Z.of_nat (length l).
Proof.
  induction 1 as [|b l Hb _ IH]; [simpl; lia|].
  cbn [length le_decode]. rewrite pow256_succ. unfold byte_ok in Hb. lia.
Qed.

Lemma le_bytes_decode l : bytes_ok l → le_bytes (length l) (le_decode l) = l.
Proof.
  induction 1 as [|b l Hb _ IH]; [done|]. unfold byte_ok in Hb.
  cbn [length le_decode le_bytes]. rewrite (Z.mul_comm 256). f_equal.
  - rewrite Z_mod_plus_full. apply Z.mod_small; lia.
  - rewrite Z.div_add, Z.div_small by lia. done.
Qed.

Lemma le_decode_app l1 l2 :
  le_decode (l1 ++ l2) = le_decode l1 + 256 ^ Z.of_nat (length l1) * le_decode l2.
Proof.
  induction l1 as [|b l1 IH]; [simpl; lia|].
  cbn [app length le_decode]. rewrite IH, pow256_succ. lia.
Qed.

(** ** Lemmas on slices *)
Lemma slice_app_l {A} off n (l1 l2 : list A) :
  (off + n <= length l1)%nat → slice off n (l1 ++ l2) = slice off n l1.
Proof.
  intros H. unfold slice. rewrite drop_app_le by lia. apply take_app_le. len.
Qed.

Lemma slice_app_r {A} off n (l1 l2 : list A) :
  (length l1 <= off)%nat → slice off n (l1 ++ l2) = slice (off - length l1) n l2.
Proof. intros H. unfold slice. by rewrite drop_app_ge by lia. Qed.

Lemma slice_all {A} n (l : list A) : length l = n → slice 0 n l = l.
Proof. intros <-. unfold slice. rewrite drop_0. by apply take_ge. Qed.

Lemma length_slice {A} off n (l : list A) :
  (off + n <= length l)%nat → length (slice off n l) = n.
Proof. intros H. unfold slice. len. Qed.

Lemma length_splice {A} off (src dst : list A) :
  (off + length src <= length dst)%nat → length (splice off src dst) = length dst.
Proof. intros H. unfold splice. len. Qed.

Lemma slice_splice_eq {A} off (src dst : list A) :
  (off + length src <= length dst)%nat → slice off (length src) (splice off src dst) = src.
Proof.
  intros H. unfold splice. rewrite slice_app_r by len.
  rewrite length_take, Nat.min_l, Nat.sub_diag by lia.
  rewrite slice_app_l by lia. by apply slice_all.
Qed.

Lemma lookup_splice_ne {A} off (src dst : list A) i :
  (off + length src <= length dst)%nat →
  (i < off ∨ off + length src <= i)%nat → splice off src dst !! i = dst !! i.
Proof.
  intros Hl Hi. unfold splice. destruct (decide (i < off)%nat) as [Hlt|Hge].
  - rewrite lookup_app_l by len. by apply lookup_take_lt.
  - rewrite lookup_app_r by len. rewrite length_take, Nat.min_l by lia.
    rewrite lookup_app_r by lia. rewrite lookup_drop. f_equal. lia.
Qed.

Lemma list_eq_slice {A} off n (l1 l2 : list A) :
  (∀ i, (off <= i < off + n)%nat → l1 !! i = l2 !! i) → slice off n l1 = slice off n l2.
Proof.
  intros H. apply list_eq; intros i. unfold slice.
  destruct (decide (i < n)%nat).
  - rewrite !lookup_take_lt, !lookup_drop by done. apply H; lia.
  - by rewrite !lookup_take_ge by lia.
Qed.

Lemma slice_splice_ne {A} off off' n (src dst : list A) :
  (off + length src <= length dst)%nat →
  (off' + n <= off ∨ off + length src <= off')%nat →
  slice off' n (splice off src dst) = slice off' n dst.
Proof.
  intros Hl Hd. apply list_eq_slice; intros i Hi. apply lookup_splice_ne; lia.
Qed.

(** [l[i] = g(l[i])] for an index in range. *)
Lemma alter_Some_insert {A} (g : A → A) i x (l : list A) :
  l !! i = Some x → alter g i l = <[i := g x]> l.
Proof.
  intros H. apply list_eq. intros j. destruct (decide (j = i)) as [->|].
  - rewrite list_lookup_alter_eq, H. symmetry. apply list_lookup_insert_eq. by eapply lookup_lt_Some.
  - by rewrite list_lookup_alter_ne, list_lookup_insert_ne.
Qed.

(** Adjacent slices join. *)
Lemma slice_join {A} off n m (l : list A) :
  slice off n l ++ slice (off + n) m l = slice off (n + m) l.
Proof.
  unfold slice. rewrite <- drop_drop. apply take_take_drop.
Qed.

(** Element [i] of a sequence of equally long blocks. *)
Lemma slice_concat {A} k i (cs : list (list A)) c :
  Forall (λ c, length c = k) cs → cs !! i = Some c → slice (i * k) k (concat cs) = c.
Proof.
  intros Hk. revert i; induction Hk as [|c' cs Hc Hk IH]; intros i; [done|].
  destruct i as [|i]; simpl.
  - intros [= ->]. rewrite slice_app_l by lia. by apply slice_all.
  - intros Hi. rewrite slice_app_r by lia.
    replace (k + i * k - length c')%nat with (i * k)%nat by lia. by apply IH.
Qed.

Lemma length_concat_blocks {A} k (cs : list (list A)) :
  Forall (λ c, length c = k) cs → length (concat cs) = (length cs * k)%nat.
Proof.
  induction 1 as [|c cs Hc _ IH]; [done|]. simpl. rewrite length_app, IH, Hc. done.
Qed.

Lemma bytes_ok_slice off n l : bytes_ok l → bytes_ok (slice off n l).
Proof. intros H. unfold slice. by apply Forall_take, Forall_drop. Qed.
Lemma bytes_ok_splice off src dst :
  bytes_ok src → bytes_ok dst → bytes_ok (splice off src dst).
Proof.
  intros H1 H2. unfold splice.
  apply Forall_app; split; [by apply Forall_take|].
  apply Forall_app; split; [done|by apply Forall_drop].
Qed.
Lemma bytes_ok_replicate n b : byte_ok b → bytes_ok (replicate n b).
Proof. intros; by apply Forall_replicate. Qed.
#[export] Hint Resolve bytes_ok_slice bytes_ok_splice bytes_ok_replicate : bytes.

Lemma le_bytes_decode_slice off n l :
  bytes_ok l → (off + n <= length l)%nat → le_bytes n (le_decode (slice off n l)) = slice off n l.
Proof.
  intros Hb Hl. rewrite <- (length_slice off n l Hl) at 1. by apply le_bytes_decode, bytes_ok_slice.
Qed.

(** ** Lemmas on bit operations *)
Lemma testbit_above w a i : in_u w a → 0 <= w → w <= i → Z.testbit a i = false.
Proof.
  intros [Ha1 Ha2] Hw Hi. destruct (decide (a = 0)) as [->|Hne]; [apply Z.bits_0|].
  apply Z.bits_above_log2; [done|].
  apply Z.log2_lt_pow2; [lia|]. eapply Z.lt_le_trans; [done|apply Z.pow_le_mono_r; lia].
Qed.

Lemma in_u_bits w a :
  0 <= w → 0 <= a → (∀ i, w <= i → Z.testbit a i = false) → in_u w a.
Proof.
  intros Hw Ha H. split; [done|].
  destruct (decide (a = 0)) as [->|Hne]; [apply Z.pow_pos_nonneg; lia|].
  apply Z.log2_lt_pow2; [lia|]. destruct (Z.lt_ge_cases (Z.log2 a) w) as [|Hge]; [done|].
  specialize (H _ Hge). rewrite Z.bit_log2 in H by lia. done.
Qed.

Lemma in_u_lxor w a b : 0 <= w → in_u w a → in_u w b → in_u w (Z.lxor a b).
Proof.
  intros Hw Ha Hb. apply in_u_bits; [done| |].
  - apply Z.lxor_nonneg. unfold in_u in *; lia.
  - intros i Hi. by rewrite Z.lxor_spec, !(testbit_above w) by done.
Qed.

Lemma in_u_lor w a b : 0 <= w → in_u w a → in_u w b → in_u w (Z.lor a b).
Proof.
  intros Hw Ha Hb. apply in_u_bits; [done| |].
  - apply Z.lor_nonneg. unfold in_u in *; lia.
  - intros i Hi. by rewrite Z.lor_spec, !(testbit_above w) by done.
Qed.

Lemma in_u_land w a b : 0 <= w → in_u w a → in_u w b → in_u w (Z.land a b).
Proof.
  intros Hw Ha Hb. apply in_u_bits; [done| |].
  - apply Z.land_nonneg. unfold in_u in *; lia.
  - intros i Hi. by rewrite Z.land_spec, !(testbit_above w) by done.
Qed.

Lemma in_u_pow2 w k : 0 <= k < w → in_u w (2 ^ k).
Proof. intros H. split; [lia|]. apply Z.pow_lt_mono_r; lia. Qed.

Lemma in_u_wrap w z : 0 <= w → in_u w (wrap_u w z).
Proof. intros H. apply Z.mod_pos_bound. apply Z.pow_pos_nonneg; lia. Qed.

Lemma wrap_u_small w z : in_u w z → wrap_u w z = z.
Proof. intros H. by apply Z.mod_small. Qed.

Lemma as_signed_wrap w z : 0 < w → - 2 ^ (w - 1) <= z < 2 ^ (w - 1) → as_signed w (wrap_u w z) = z.
Proof.
  intros Hw Hz. unfold as_signed, wrap_u. rewrite Z.mod_mod by lia.
  assert (E : 2 ^ w = 2 * 2 ^ (w - 1)) by (rewrite <- Z.pow_succ_r by lia; f_equal; lia).
  destruct (Z.ltb_spec z 0).
  - rewrite <- (Z.mod_add z 1) by lia. rewrite (Z.mod_small (z + 1 * 2 ^ w)) by lia.
    destruct (Z.ltb_spec (z + 1 * 2 ^ w) (2 ^ (w - 1))); lia.
  - rewrite (Z.mod_small z) by lia. destruct (Z.ltb_spec z (2 ^ (w - 1))); lia.
Qed.

Lemma byte_ok_in_u b : byte_ok b ↔ in_u 8 b.
Proof. done. Qed.

Lemma byte_ok_lxor a b : byte_ok a → byte_ok b → byte_ok (Z.lxor a b).
Proof. rewrite !byte_ok_in_u. apply in_u_lxor; lia. Qed.

(** The low byte and the rest of a little-endian word occupy disjoint bits. *)
Lemma add_shift_lxor k b w : 0 <= k → in_u k b → b + 2 ^ k * w = Z.lxor b (Z.shiftl w k).
Proof.
  intros Hk Hb. rewrite Z.mul_comm, <- Z.shiftl_mul_pow2 by done.
  rewrite Z.add_nocarry_lxor; [done|]. apply Z.bits_inj'; intros i Hi.
  rewrite Z.land_spec, Z.bits_0, Z.shiftl_spec by lia.
  destruct (Z.lt_ge_cases i k).
  - by rewrite (Z.testbit_neg_r w), andb_false_r by lia.
  - by rewrite (testbit_above k) by done.
Qed.

Lemma in_u_lxor_shiftr z n : 0 <= n → in_u 64 z → in_u 64 (Z.lxor z (Z.shiftr z n)).
Proof.
  intros Hn Hz. apply in_u_lxor; [lia|done|]. rewrite Z.shiftr_div_pow2 by done. unfold in_u in *.
  pose proof (Z.pow_pos_nonneg 2 n ltac:(lia) Hn). split; [apply Z.div_pos; lia|].
  apply Z.div_lt_upper_bound; nia.
Qed.

#[export] Hint Resolve in_u_lxor in_u_lor in_u_land in_u_pow2 in_u_wrap byte_ok_lxor : bytes.

(** ** Iteration *)
Lemma iter_add {A} (f : A → A) m n x : Nat.iter (m + n) f x = Nat.iter m f (Nat.iter n f x).
Proof. induction m as [|m IH]; simpl; [done|by rewrite IH]. Qed.

Lemma iter_inv {A} (P : A → Prop) (f : A → A) n x :
  (∀ y, P y → P (f y)) → P x → P (Nat.iter n f x).
Proof. intros Hf Hx. induction n as [|n IH]; simpl; auto. Qed.

(** A rewriting rule for one step of [fold_left]: steps by conversion would make
    the kernel compare the accumulators, which for a shift register explode. *)
Lemma fold_left_cons {A B} (f : A → B → A) x l a : fold_left f (x :: l) a = fold_left f l (f a x).
Proof. done. Qed.

Lemma concat_cons {A} (c : list A) cs : concat (c :: cs) = c ++ concat cs.
Proof. done. Qed.

Lemma fold_left_inv {A B} (P : A → Prop) (f : A → B → A) (l : list B) x :
  (∀ y b, P y → b ∈ l → P (f y b)) → P x → P (fold_left f l x).
Proof.
  revert x; induction l as [|b l IH]; intros x Hf Hx; simpl; [done|].
  apply IH; [|apply Hf; [done|by left]]. intros y b' Hy Hb; apply Hf; [done|by right].
Qed.

(** [slice.chunks_exact(n)] with its remainder; a slice shorter than the fuel is
    always consumed, so [length l] is enough. *)
Fixpoint chunks_aux {A} (fuel n : nat) (l : list A) : list (list A) * list A :=
  match fuel with
  | O => ([], l)
  | S fuel =>
      if bool_decide (n <= length l)%nat then
        let '(cs, r) := chunks_aux fuel n (drop n l) in (take n l :: cs, r)
      else ([], l)
  end.

Definition chunks_exact {A} (n : nat) (l : list A) : list (list A) * list A :=
  chunks_aux (length l) n l.

Lemma chunks_aux_spec {A} fuel n (l : list A) cs r :
  (0 < n)%nat → (length l <= fuel)%nat → chunks_aux fuel n l = (cs, r) →
  concat cs ++ r = l ∧ Forall (λ c, length c = n) cs ∧ (length r < n)%nat.
Proof.
  intros Hn. revert l cs r; induction fuel as [|fuel IH]; intros l cs r Hl; simpl.
  - intros [= <- <-]. destruct l; simpl in *; [repeat split; [constructor|lia]|lia].
  - case_bool_decide as Hd.
    + destruct (chunks_aux fuel n (drop n l)) as [cs' r'] eqn:E. intros [= <- <-].
      destruct (IH (drop n l) cs' r') as (H1 & H2 & H3); [len|done|].
      split_and!; [|constructor; [len|done]|done].
      simpl. rewrite <- app_assoc, H1. apply take_drop.
    + intros [= <- <-]. split_and!; [done|constructor|lia].
Qed.

Lemma chunks_exact_spec {A} n (l : list A) cs r :
  (0 < n)%nat → chunks_exact n l = (cs, r) →
  concat cs ++ r = l ∧ Forall (λ c, length c = n) cs ∧ (length r < n)%nat.
Proof. intros Hn H. eapply chunks_aux_spec; [done| |exact H]. done. Qed.

(** [count_ones] and [trailing_zeros] of a [w]-bit integer. *)
Fixpoint count_ones (w : nat) (z : Z) : nat :=
  match w with
  | O => 0
  | S w => (if Z.odd z then 1 else 0) + count_ones w (Z.div2 z)
  end.

Fixpoint trailing_zeros (w : nat) (z : Z) : nat :=
  match w with
  | O => 0
  | S w => if Z.odd z then 0 else S (trailing_zeros w (Z.div2 z))
  end.

Lemma seq_forallb (f : nat → bool) n i :
  forallb f (seq 0 n) = true → (i < n)%nat → f i = true.
Proof.
  rewrite forallb_forall. intros H Hi. apply H. apply in_seq. lia.
Qed.

Lemma stM_bind_inv {S E A B} (m : stM S E A) (f : A → stM S E B) s x s' :
  (m ≫= f) s = (x, s') →
  (∃ a s1, m s = (Ok a, s1) ∧ f a s1 = (x, s')) ∨ (∃ e, m s = (Err e, s') ∧ x = Err e).
Proof.
  unfold mbind, stM_bind. destruct (m s) as [[a|e] s1]; [eauto|]. intros [= <- <-]. eauto.
Qed.

Lemma stM_bind_ok {S E A B} (m : stM S E A) (f : A → stM S E B) s a s1 :
  m s = (Ok a, s1) → (m ≫= f) s = f a s1.
Proof. intros H. unfold mbind, stM_bind. by rewrite H. Qed.

Lemma stM_bind_err {S E A B} (m : stM S E A) (f : A → stM S E B) s e s1 :
  m s = (Err e, s1) → (m ≫= f) s = (Err e, s1).
Proof. intros H. unfold mbind, stM_bind. by rewrite H. Qed.

(** A computation that keeps an invariant of the state, whether or not it fails. *)
Definition preserves {S E A} (P : S → Prop) (m : stM S E A) : Prop :=
  ∀ s x s', P s → m s = (x, s') → P s'.

Lemma preserves_ret {S E A} (P : S → Prop) (a : A) : preserves (E := E) P (mret a).
Proof. intros s x s' H [= _ <-]. done. Qed.
Lemma preserves_get {S E} (P : S → Prop) : preserves (E := E) P st_get.
Proof. intros s x s' H [= _ <-]. done. Qed.
Lemma preserves_fail {S E A} (P : S → Prop) (e : E) : preserves (A := A) P (st_fail e).
Proof. intros s x s' H [= _ <-]. done. Qed.
Lemma preserves_modify {S E} (P : S → Prop) f :
  (∀ s, P s → P (f s)) → preserves (E := E) P (st_modify f).
Proof. intros Hf s x s' H [= _ <-]. auto. Qed.
Lemma preserves_bind {S E A B} (P : S → Prop) (m : stM S E A) (f : A → stM S E B) :
  preserves P m → (∀ a, preserves P (f a)) → preserves P (m ≫= f).
Proof.
  intros Hm Hf s x s' H [(a & s1 & H1 & H2)|(e & H1 & ->)]%stM_bind_inv; [|by eapply Hm].
  eapply Hf; [|exact H2]. by eapply Hm.
Qed.

Create HintDb preserves discriminated.
#[export] Hint Resolve preserves_ret preserves_get preserves_fail : preserves.
#[export] Hint Extern 2 (preserves _ (st_modify _)) => apply preserves_modify; intros; done : preserves.

(** [preserves] walks through the binds and cases of a computation. *)
Ltac preserves :=
  repeat match goal with
         | |- preserves _ (mbind _ _) => apply preserves_bind; [|intros]
         | |- preserves _ (match ?x with _ => _ end) => destruct x
         end; eauto with preserves.

(** ** Panics

    [prog E A] is a computation that may panic ([None]) or return a [Result]. *)
Definition prog (E A : Type) : Type := option (result E A).
#[global] Instance prog_ret {E} : MRet (prog E) := λ A a, Some (Ok a).
#[global] Instance prog_bind {E} : MBind (prog E) := λ A B f m,
  match m with
  | Some (Ok a) => f a
  | Some (Err e) => Some (Err e)
  | None => None
  end.
Definition throw {E A} (e : E) : prog E A := Some (Err e).
Definition or_panic {E A} (o : option A) : prog E A := Ok <$> o.

(** [&l[off .. off + n]] at a [usize] offset: a range that leaves the slice panics. *)
Definition zslice {A} (off : Z) (n : nat) (l : list A) : option (list A) :=
  if bool_decide (0 <= off ∧ off + Z.of_nat n <= Z.of_nat (length l))
  then Some (slice (Z.to_nat off) n l) else None.

Lemma zslice_Some {A} off n (l : list A) :
  0 <= off → off + Z.of_nat n <= Z.of_nat (length l) →
  zslice off n l = Some (slice (Z.to_nat off) n l).
Proof. intros H1 H2. unfold zslice. by rewrite bool_decide_true. Qed.

Lemma or_panic_bind {E A B} (a : A) (f : A → prog E B) :
  (or_panic (E := E) (Some a) ≫= f) = f a.
Proof. done. Qed.
Lemma prog_ok_bind {E A B} (a : A) (f : A → prog E B) :
  ((Some (Ok a) : prog E A) ≫= f) = f a.
Proof. done. Qed.

(** [stP S E A]: a method on [&mut self] that may panic ([None]) or return a
    [Result] with the state reached. *)
Definition stP (S E A : Type) : Type := S → option (result E A * S).
#[global] Instance stP_ret {S E} : MRet (stP S E) := λ A a s, Some (Ok a, s).
#[global] Instance stP_bind {S E} : MBind (stP S E) := λ A B f m s,
  match m s with
  | Some (Ok a, s') => f a s'
  | Some (Err e, s') => Some (Err e, s')
  | None => None
  end.
Definition stP_get {S E} : stP S E S := λ s, Some (Ok s, s).
Definition stP_modify {S E} (f : S → S) : stP S E () := λ s, Some (Ok tt, f s).
Definition stP_panic {S E A} : stP S E A := λ _, None.
Definition stP_throw {S E A} (e : E) : stP S E A := λ s, Some (Err e, s).
Definition stP_opt {S E A} (o : option A) : stP S E A := λ s, (λ a, (Ok a, s)) <$> o.

Lemma stP_bind_Some {S E A B} (m : stP S E A) (f : A → stP S E B) s r :
  (m ≫= f) s = Some r →
  (∃ a s', m s = Some (Ok a, s') ∧ f a s' = Some r) ∨
  (∃ e s', m s = Some (Err e, s') ∧ r = (Err e, s')).
Proof.
  unfold mbind, stP_bind. destruct (m s) as [[[a|e] s']|]; [eauto| |done].
  intros [= <-]. eauto.
Qed.

(** ** Filtering lists *)
Lemma filter_ext_elem {A} (P Q : A → Prop) `{!∀ x, Decision (P x), !∀ x, Decision (Q x)} (l : list A) :
  (∀ x, x ∈ l → P x ↔ Q x) → filter P l = filter Q l.
Proof.
  induction l as [|x l IH]; intros Hpq; [done|]. rewrite !filter_cons.
  rewrite IH by (intros y Hy; apply Hpq; by right). pose proof (Hpq x ltac:(by left)). repeat case_decide; naive_solver.
Qed.

Lemma filter_fmap_list {A B} (f : A → B) (P : B → Prop) `{!∀ x, Decision (P x)} (l : list A) :
  filter P (f <$> l) = f <$> filter (λ x, P (f x)) l.
Proof.
  induction l as [|x l IH]; [done|]. rewrite fmap_cons, !filter_cons. case_decide; by rewrite IH.
Qed.

Lemma filter_all {A} (P : A → Prop) `{!∀ x, Decision (P x)} (l : list A) : (∀ x, x ∈ l → P x) → filter P l = l.
Proof.
  induction l as [|x l IH]; intros Hp; [done|]. rewrite filter_cons_True by (apply Hp; by left).
  rewrite IH; [done|]. intros y Hy. apply Hp. by right.
Qed.

Lemma filter_none {A} (P : A → Prop) `{!∀ x, Decision (P x)} (l : list A) : (∀ x, x ∈ l → ¬ P x) → filter P l = [].
Proof.
  induction l as [|x l IH]; intros Hp; [done|]. rewrite filter_cons_False by (apply Hp; by left).
  apply IH. intros y Hy. apply Hp. by right.
Qed.
