(* ===== verification/Crc32c.v ===== *)
(** * Page integrity codes (src/src/storage/page.rs, first half)

    CRC32C by the scalar loop and by the SSE4.2 intrinsics, and the XOR parity
    of the 8-byte words.  The intrinsics are modelled by their documented
    effect: [_mm_crc32_uN(crc, v)] accumulates the [N] bits of [v], least
    significant first, into the CRC register. *)

From Stdlib Require Import ZArith Lia.
From stdpp Require Import prelude list numbers.
From S2P Require Import Prelude.
Local Open Scope Z_scope.

Module Crc.

Definition CRC32C_POLY_REVERSED : Z := 0x82F63B78.

(** One round of the inner loop: [mask = 0.wrapping_sub(crc & 1)] and
    [crc = (crc >> 1) ^ (poly & mask)]. *)
Definition crc_round (crc : Z) : Z :=
  let mask := wrap_u 32 (0 - Z.land crc 1) in
  Z.lxor (Z.shiftr crc 1) (Z.land CRC32C_POLY_REVERSED mask).

Definition crc_byte (crc b : Z) : Z := Nat.iter 8 crc_round (Z.lxor crc b).

Definition crc32c_scalar (cells : list Z) : Z :=
  Z.lxor (fold_left crc_byte cells 0xFFFFFFFF) 0xFFFFFFFF.

(** [_mm_crc32_u8], [_u16], [_u32] and [_u64]: [n] bytes of [v] at once; only
    the low 32 bits of the register argument are read. *)
Definition mm_crc32 (n : nat) (crc v : Z) : Z :=
  Nat.iter (8 * n) crc_round (Z.lxor (wrap_u 32 crc) v).

(** [while tail.len() >= n { crc = _mm_crc32(crc, word); tail = &tail[n..] }] *)
Fixpoint crc_while (fuel n : nat) (crc : Z) (tail : list Z) : Z * list Z :=
  match fuel with
  | O => (crc, tail)
  | S fuel =>
      if bool_decide (n <= length tail)%nat then
        crc_while fuel n (mm_crc32 n crc (le_decode (take n tail))) (drop n tail)
      else (crc, tail)
  end.

Definition crc32c_sse42 (cells : list Z) : Z :=
  let '(chunks, tail) := chunks_exact 8 cells in
  let crc := fold_left (λ crc chunk, mm_crc32 8 crc (le_decode chunk)) chunks 0xFFFFFFFF in
  let crc32 := wrap_u 32 crc in
  let '(crc32, tail) := crc_while (length tail) 4 crc32 tail in
  let '(crc32, tail) := crc_while (length tail) 2 crc32 tail in
  let crc32 := match tail with [] => crc32 | b :: _ => mm_crc32 1 crc32 b end in
  Z.lxor crc32 0xFFFFFFFF.

(** The runtime dispatch: [is_x86_feature_detected!("sse4.2")] is an input. *)
Definition compute_crc32c (sse42 : bool) (cells : list Z) : Z :=
  if sse42 then crc32c_sse42 cells else crc32c_scalar cells.

Definition compute_parity (cells : list Z) : Z :=
  let '(chunks, tail) := chunks_exact 8 cells in
  let parity := fold_left (λ parity chunk, Z.lxor parity (le_decode chunk)) chunks 0 in
  match tail with
  | [] => parity
  | _ => Z.lxor parity (le_decode (tail ++ replicate (8 - length tail) 0))
  end.

(** [cells[i] ^= 1 << k], the step of the correction loop. *)
Definition flip_bit (i k : nat) (cells : list Z) : list Z :=
  alter (λ b, Z.lxor b (Z.shiftl 1 (Z.of_nat k))) i cells.

(** ** The shift register is linear *)
Lemma crc_round_spec x :
  crc_round x = Z.lxor (Z.shiftr x 1) (if Z.odd x then CRC32C_POLY_REVERSED else 0).
Proof.
  unfold crc_round. assert (Z.land x 1 = x mod 2) as -> by (apply (Z.land_ones x 1); lia).
  rewrite Zmod_odd.
  destruct (Z.odd x); reflexivity.
Qed.

Lemma crc_round_lxor x y : crc_round (Z.lxor x y) = Z.lxor (crc_round x) (crc_round y).
Proof.
  rewrite !crc_round_spec, Z.shiftr_lxor, <- !Z.bit0_odd, Z.lxor_spec.
  destruct (Z.testbit x 0), (Z.testbit y 0); cbn [xorb]; zbits.
Qed.

Lemma crc_round_0 : crc_round 0 = 0.
Proof. reflexivity. Qed.

Lemma crc_round_range x : in_u 32 x → in_u 32 (crc_round x).
Proof.
  intros Hx. rewrite crc_round_spec. apply in_u_lxor; [lia| |].
  - rewrite Z.shiftr_div_pow2 by lia. unfold in_u in *. split; [apply Z.div_pos; lia|].
    apply Z.div_lt_upper_bound; lia.
  - destruct (Z.odd x); by vm_compute.
Qed.

Lemma iter_round_lxor n x y :
  Nat.iter n crc_round (Z.lxor x y) = Z.lxor (Nat.iter n crc_round x) (Nat.iter n crc_round y).
Proof. induction n as [|n IH]; simpl; [done|by rewrite IH, crc_round_lxor]. Qed.

Lemma iter_round_range n x : in_u 32 x → in_u 32 (Nat.iter n crc_round x).
Proof. apply iter_inv, crc_round_range. Qed.

(** Bits that have not reached the low end are only shifted. *)
Lemma iter_round_shiftl n k w :
  k = Z.of_nat n → Nat.iter n crc_round (Z.shiftl w k) = w.
Proof.
  intros ->. revert w; induction n as [|n IH]; intros w; [by rewrite Z.shiftl_0_r|].
  rewrite Nat.iter_succ_r, Nat2Z.inj_succ, crc_round_spec, <- Z.bit0_odd.
  rewrite Z.shiftl_spec_low, Z.lxor_0_r by lia.
  rewrite Z.shiftr_shiftl_l by lia. rewrite <- (IH w) at 2. do 2 f_equal. lia.
Qed.

(** No 32-bit register other than zero is shifted to zero. *)
Lemma crc_round_inj0 x : in_u 32 x → crc_round x = 0 → x = 0.
Proof.
  intros Hx. rewrite crc_round_spec. destruct (Z.odd x) eqn:Hodd; intros H.
  - apply (f_equal (λ z, Z.testbit z 31)) in H.
    rewrite Z.lxor_spec, Z.shiftr_spec, (testbit_above 32 x) in H by (done || lia).
    vm_compute in H. done.
  - rewrite Z.lxor_0_r, Z.shiftr_div_pow2 in H by lia.
    apply Z.div_small_iff in H; [|lia]. unfold in_u in Hx.
    assert (x = 0 ∨ x = 1) as [->| ->] by lia; done.
Qed.

Lemma iter_round_inj0 n x : in_u 32 x → Nat.iter n crc_round x = 0 → x = 0.
Proof.
  intros Hx. induction n as [|n IH]; simpl; [done|]. intros H.
  apply IH, crc_round_inj0; [by apply iter_round_range|done].
Qed.

(** ** The word-at-a-time instructions agree with the byte loop *)
Lemma crc_byte_eq crc b : crc_byte crc b = Nat.iter 8 crc_round (Z.lxor crc b).
Proof. done. Qed.

Lemma mm_crc32_eq n crc v :
  in_u 32 crc → mm_crc32 n crc v = Nat.iter (8 * n) crc_round (Z.lxor crc v).
Proof. intros H. unfold mm_crc32. by rewrite wrap_u_small. Qed.

Lemma crc_while_S fuel n crc tail :
  crc_while (S fuel) n crc tail =
  if bool_decide (n <= length tail)%nat then
    crc_while fuel n (mm_crc32 n crc (le_decode (take n tail))) (drop n tail)
  else (crc, tail).
Proof. done. Qed.

Lemma crc_byte_range crc b : in_u 32 crc → byte_ok b → in_u 32 (crc_byte crc b).
Proof.
  intros Hc Hb. apply iter_round_range, in_u_lxor; [lia|done|].
  unfold byte_ok, in_u in *; lia.
Qed.

Lemma crc_fold_range bs crc : in_u 32 crc → bytes_ok bs → in_u 32 (fold_left crc_byte bs crc).
Proof.
  intros Hc Hb. apply fold_left_inv; [|done]. intros y b Hy Hin.
  apply crc_byte_range; [done|]. rewrite list.Forall_forall in Hb. by apply Hb.
Qed.

Lemma mm_crc32_bytes n bs crc :
  length bs = n → bytes_ok bs → in_u 32 crc →
  mm_crc32 n crc (le_decode bs) = fold_left crc_byte bs crc.
Proof.
  intros <- Hbs. revert crc; induction Hbs as [|b bs Hb Hbs IH]; intros crc Hc.
  - rewrite mm_crc32_eq by done. apply Z.lxor_0_r.
  - rewrite fold_left_cons, <- IH by (by apply crc_byte_range).
    rewrite !mm_crc32_eq by (done || by apply crc_byte_range). cbn [length le_decode].
    replace (8 * S (length bs))%nat with (8 * length bs + 8)%nat by lia.
    rewrite iter_add. f_equal. change 256 with (2 ^ 8).
    rewrite add_shift_lxor, <- Z.lxor_assoc, iter_round_lxor by (done || lia).
    by rewrite (iter_round_shiftl 8 8 _ eq_refl), <- crc_byte_eq.
Qed.

Lemma crc_while_spec fuel n crc tail crc' tail' :
  (0 < n)%nat → (length tail <= fuel)%nat → bytes_ok tail → in_u 32 crc →
  crc_while fuel n crc tail = (crc', tail') →
  (length tail' < n)%nat ∧ bytes_ok tail' ∧ in_u 32 crc' ∧
  fold_left crc_byte tail crc = fold_left crc_byte tail' crc'.
Proof.
  intros Hn. revert crc tail; induction fuel as [|fuel IH]; intros crc tail Hl Hb Hc.
  - intros [= <- <-]. destruct tail; simpl in Hl; [|lia]. split_and!; (done || lia).
  - rewrite crc_while_S. case_bool_decide as Hd; [|intros [= <- <-]; split_and!; (done || lia)].
    assert (length (take n tail) = n) as Ht by len.
    rewrite mm_crc32_bytes by (by auto using Forall_take).
    intros E. apply IH in E as (H1 & H2 & H3 & H4); [|len|by apply Forall_drop|].
    + split_and!; try done. rewrite <- H4, <- fold_left_app. by rewrite take_drop.
    + apply crc_fold_range; [done|by apply Forall_take].
Qed.

Lemma crc_chunks_spec cs crc :
  bytes_ok (concat cs) → Forall (λ c, length c = 8%nat) cs → in_u 32 crc →
  fold_left (λ crc chunk, mm_crc32 8 crc (le_decode chunk)) cs crc =
  fold_left crc_byte (concat cs) crc.
Proof.
  intros Hb Hl. revert crc; induction Hl as [|c cs Hc _ IH]; intros crc Hcrc; [done|].
  rewrite concat_cons in *. apply Forall_app in Hb as [Hb1 Hb2].
  rewrite fold_left_app, fold_left_cons, (mm_crc32_bytes 8) by done.
  apply IH; [done|by apply crc_fold_range].
Qed.

Lemma init_range : in_u 32 0xFFFFFFFF.
Proof. by vm_compute. Qed.

Lemma crc32c_sse42_eq (cells : list Z) :
  bytes_ok cells → crc32c_sse42 cells = crc32c_scalar cells.
Proof.
  intros Hb. unfold crc32c_sse42, crc32c_scalar.
  destruct (chunks_exact 8 cells) as [cs tail] eqn:E.
  apply chunks_exact_spec in E as (H1 & H2 & H3); [|lia].
  rewrite <- H1 in Hb. apply Forall_app in Hb as [Hb1 Hb2].
  rewrite crc_chunks_spec by (done || apply init_range).
  pose proof (crc_fold_range _ _ init_range Hb1) as R1.
  rewrite wrap_u_small by done. rewrite <- H1, fold_left_app.
  destruct (crc_while _ 4 _ _) as [c4 t4] eqn:E4.
  apply crc_while_spec in E4 as (? & ? & ? & ->); [|lia|done|done|done].
  destruct (crc_while _ 2 _ _) as [c2 t2] eqn:E2.
  apply crc_while_spec in E2 as (Ht2 & Hb2' & R2 & ->); [|lia|done|done|done].
  f_equal. destruct t2 as [|b t2]; [done|]. destruct t2; [|simpl in Ht2; lia].
  rewrite <- (mm_crc32_bytes 1 [b]) by done. cbn [length le_decode].
  by rewrite Z.mul_0_r, Z.add_0_r.
Qed.


Lemma compute_crc32c_eq sse42 (cells : list Z) :
  bytes_ok cells → compute_crc32c sse42 cells = crc32c_scalar cells.
Proof. intros Hb. destruct sse42; [by apply crc32c_sse42_eq|done]. Qed.

Lemma crc32c_scalar_range (cells : list Z) : bytes_ok cells → in_u 32 (crc32c_scalar cells).
Proof.
  intros Hb. apply in_u_lxor; [lia|apply crc_fold_range; [apply init_range|done]|apply init_range].
Qed.

(** on every byte string the routine chosen at run time, SSE4.2 or not, returns
    the 32-bit value of the scalar reference loop, so a page checksummed on one
    host verifies on another. *)
Theorem compute_crc32c_portable (sse42 : bool) (cells : list Z) (Hb : bytes_ok cells) :
  compute_crc32c sse42 cells = crc32c_scalar cells ∧ in_u 32 (compute_crc32c sse42 cells).
Proof.
  rewrite (compute_crc32c_eq sse42 cells Hb). split; [done|exact (crc32c_scalar_range cells Hb)].
Qed.

Lemma compute_crc32c_portable_witness :
  compute_crc32c true [49; 50; 51; 52; 53; 54; 55; 56; 57] = 0xE3069283.
Proof.
  destruct (compute_crc32c_portable true [49; 50; 51; 52; 53; 54; 55; 56; 57]) as [-> _].
  - repeat constructor; vm_compute; done.
  - vm_compute. reflexivity.
Defined.

(** ** Bit errors *)
Lemma crc_fold_lxor bs c d :
  fold_left crc_byte bs (Z.lxor c d) =
  Z.lxor (fold_left crc_byte bs c) (Nat.iter (8 * length bs) crc_round d).
Proof.
  revert c d; induction bs as [|b bs IH]; intros c d; [done|].
  rewrite !fold_left_cons. cbn [length].
  replace (8 * S (length bs))%nat with (8 * length bs + 8)%nat by lia.
  rewrite iter_add, <- IH. f_equal. rewrite !crc_byte_eq, <- iter_round_lxor. f_equal. zbits.
Qed.

Lemma flip_bit_O k b l : flip_bit 0 k (b :: l) = Z.lxor b (Z.shiftl 1 (Z.of_nat k)) :: l.
Proof. done. Qed.
Lemma flip_bit_S i k b l : flip_bit (S i) k (b :: l) = b :: flip_bit i k l.
Proof. done. Qed.

Lemma iter_round_bit n k :
  (k <= n)%nat →
  Nat.iter n crc_round (Z.shiftl 1 (Z.of_nat k)) = Nat.iter (n - k) crc_round 1.
Proof.
  intros H. remember (n - k)%nat as d eqn:Hd. assert (n = d + k)%nat as -> by lia.
  by rewrite iter_add, (iter_round_shiftl k (Z.of_nat k)).
Qed.

(** A flipped bit at position [k] of byte [i] enters the register as the value 1
    after [8 i + k] rounds. *)
Lemma crc_fold_flip cells c i k :
  (i < length cells)%nat → (k < 8)%nat →
  fold_left crc_byte (flip_bit i k cells) c =
  Z.lxor (fold_left crc_byte cells c)
         (Nat.iter (8 * length cells - (8 * i + k)) crc_round 1).
Proof.
  intros Hi Hk. revert c i Hi.
  induction cells as [|b l IH]; intros c i Hi; [simpl in Hi; lia|].
  destruct i as [|i]; rewrite ?flip_bit_O, ?flip_bit_S.
  - rewrite !fold_left_cons.
    assert (crc_byte c (Z.lxor b (Z.shiftl 1 (Z.of_nat k))) =
            Z.lxor (crc_byte c b) (Nat.iter (8 - k) crc_round 1)) as ->.
    { rewrite !crc_byte_eq, <- Z.lxor_assoc, iter_round_lxor. f_equal.
      apply iter_round_bit. lia. }
    rewrite crc_fold_lxor, <- iter_add. do 2 f_equal. simpl; lia.
  - rewrite !fold_left_cons, IH by (simpl in Hi; lia). do 2 f_equal. simpl; lia.
Qed.

Lemma length_flip_bit i k cells : length (flip_bit i k cells) = length cells.
Proof. apply length_alter. Qed.

Lemma flip_bit_ok i k cells :
  (k < 8)%nat → bytes_ok cells → bytes_ok (flip_bit i k cells).
Proof.
  intros Hk Hb. apply Forall_alter; [done|]. intros b _ Hb'.
  apply byte_ok_lxor; [done|]. rewrite Z.shiftl_1_l, byte_ok_in_u. apply in_u_pow2. lia.
Qed.

Lemma flip_bit_involutive i k cells : flip_bit i k (flip_bit i k cells) = cells.
Proof.
  unfold flip_bit. rewrite list_alter_alter_eq.
  apply list_alter_id. intros b. simpl. rewrite Z.lxor_assoc, Z.lxor_nilpotent.
  apply Z.lxor_0_r.
Qed.

(** The register started at 1 does not come back to 1 within the 504 * 64
    rounds of a page payload. *)
Fixpoint never_one (n : nat) (x : Z) : bool :=
  match n with
  | O => true
  | S n => let x' := crc_round x in negb (Z.eqb x' 1) && never_one n x'
  end.

Lemma never_one_spec n x t :
  never_one n x = true → (1 <= t <= n)%nat → Nat.iter t crc_round x ≠ 1.
Proof.
  revert x t; induction n as [|n IH]; intros x t; cbn [never_one]; [lia|].
  intros [H1 H2]%andb_true_iff Ht. destruct t as [|[|t]]; [lia| |].
  - intros E. change (Nat.iter 1 crc_round x) with (crc_round x) in E.
    rewrite E in H1. done.
  - rewrite Nat.iter_succ_r. apply IH; [done|lia].
Qed.

Lemma never_one_page : never_one (504 * 64) 1 = true.
Proof. vm_compute. reflexivity. Qed.

Lemma one_range : in_u 32 1.
Proof. by vm_compute. Qed.

Lemma lxor_cancel a b : Z.lxor a b = a → b = 0.
Proof.
  intros H. apply (f_equal (Z.lxor a)) in H.
  by rewrite <- Z.lxor_assoc, Z.lxor_nilpotent, Z.lxor_0_l in H.
Qed.

Lemma crc32c_scalar_flip cells i k :
  (i < length cells)%nat → (k < 8)%nat →
  crc32c_scalar (flip_bit i k cells) =
  Z.lxor (crc32c_scalar cells) (Nat.iter (8 * length cells - (8 * i + k)) crc_round 1).
Proof.
  intros Hi Hk. unfold crc32c_scalar. rewrite crc_fold_flip by done.
  rewrite !Z.lxor_assoc. f_equal. apply Z.lxor_comm.
Qed.

Lemma crc_flip1_ne cells i k :
  (i < length cells)%nat → (k < 8)%nat →
  crc32c_scalar (flip_bit i k cells) ≠ crc32c_scalar cells.
Proof.
  intros Hi Hk. rewrite crc32c_scalar_flip by done. intros H%lxor_cancel.
  by apply iter_round_inj0 in H; [|apply one_range].
Qed.

Lemma crc_flip2_ne_lt cells i k j m :
  (length cells <= 4032)%nat → (i < length cells)%nat → (j < length cells)%nat →
  (k < 8)%nat → (m < 8)%nat → (8 * i + k < 8 * j + m)%nat →
  crc32c_scalar (flip_bit i k (flip_bit j m cells)) ≠ crc32c_scalar cells.
Proof.
  intros Hl Hi Hj Hk Hm Hlt.
  rewrite !crc32c_scalar_flip by (rewrite ?length_flip_bit; done). rewrite length_flip_bit.
  rewrite Z.lxor_assoc. intros H%lxor_cancel.
  replace (8 * length cells - (8 * i + k))%nat
    with ((8 * length cells - (8 * j + m)) + (8 * j + m - (8 * i + k)))%nat in H by lia.
  rewrite iter_add, <- iter_round_lxor in H.
  apply iter_round_inj0, Z.lxor_eq in H.
  - symmetry in H. revert H. apply (never_one_spec _ _ _ never_one_page). lia.
  - apply in_u_lxor; [lia|apply one_range|apply iter_round_range, one_range].
Qed.

Lemma flip_bit_comm i k j m cells :
  flip_bit i k (flip_bit j m cells) = flip_bit j m (flip_bit i k cells).
Proof.
  unfold flip_bit. destruct (decide (i = j)) as [->|Hne].
  - rewrite !list_alter_alter_eq. apply list_alter_ext; [|done]. intros b _. simpl. zbits.
  - by apply list_alter_alter_ne.
Qed.

Lemma crc_flip2_ne cells i k j m :
  (length cells <= 4032)%nat → (i < length cells)%nat → (j < length cells)%nat →
  (k < 8)%nat → (m < 8)%nat → (8 * i + k ≠ 8 * j + m)%nat →
  crc32c_scalar (flip_bit i k (flip_bit j m cells)) ≠ crc32c_scalar cells.
Proof.
  intros Hl Hi Hj Hk Hm Hne.
  destruct (Nat.lt_trichotomy (8 * i + k) (8 * j + m)) as [H|[H|H]]; [|lia|].
  - by apply crc_flip2_ne_lt.
  - rewrite flip_bit_comm. by apply crc_flip2_ne_lt.
Qed.

(** in a payload of up to 4032 bytes CRC32C detects every one-bit and every
    two-bit error. *)
Theorem crc32c_detects_two_bits (cells : list Z) (i k j m : nat)
    (Hl : (length cells <= 4032)%nat)
    (Hi : (i < length cells)%nat) (Hj : (j < length cells)%nat)
    (Hk : (k < 8)%nat) (Hm : (m < 8)%nat) :
  crc32c_scalar (flip_bit i k cells) ≠ crc32c_scalar cells ∧
  ((i, k) ≠ (j, m) →
   crc32c_scalar (flip_bit i k (flip_bit j m cells)) ≠ crc32c_scalar cells).
Proof.
  split; [exact (crc_flip1_ne cells i k Hi Hk)|]. intros Hne.
  apply crc_flip2_ne; try done. intros H. apply Hne. f_equal; lia.
Qed.

Lemma crc32c_detects_two_bits_witness :
  crc32c_scalar (flip_bit 3 1 (flip_bit 700 6 (replicate 4032 0))) ≠
  crc32c_scalar (replicate 4032 0).
Proof.
  apply (crc32c_detects_two_bits (replicate 4032 0) 3 1 700 6);
    rewrite ?length_replicate; try lia. congruence.
Defined.

(** ** Parity *)
Lemma chunks_aux_fuel {A} f1 f2 n (l : list A) :
  (0 < n)%nat → (length l <= f1)%nat → (length l <= f2)%nat →
  chunks_aux f1 n l = chunks_aux f2 n l.
Proof.
  intros Hn. revert f2 l; induction f1 as [|f1 IH]; intros f2 l H1 H2.
  - destruct l; [|simpl in H1; lia]. destruct f2; [done|]. simpl.
    rewrite bool_decide_false by lia. done.
  - destruct f2 as [|f2].
    + destruct l; [|simpl in H2; lia]. simpl. by rewrite bool_decide_false by lia.
    + simpl. case_bool_decide; [|done]. rewrite (IH f2); [done|len|len].
Qed.

Lemma chunks_exact_step {A} n (l : list A) :
  (0 < n <= length l)%nat →
  chunks_exact n l =
  let '(cs, r) := chunks_exact n (drop n l) in (take n l :: cs, r).
Proof.
  intros Hn. unfold chunks_exact. destruct (length l) as [|f] eqn:E; [lia|].
  cbn [chunks_aux]. rewrite bool_decide_true by lia.
  rewrite (chunks_aux_fuel f (length (drop n l))); [done|lia|len|done].
Qed.

Lemma parity_fold_acc cs p :
  fold_left (λ parity chunk, Z.lxor parity (le_decode chunk)) cs p =
  Z.lxor p (fold_left (λ parity chunk, Z.lxor parity (le_decode chunk)) cs 0).
Proof.
  revert p; induction cs as [|c cs IH]; intros p; [by rewrite Z.lxor_0_r|].
  rewrite !fold_left_cons, IH, (IH (Z.lxor 0 _)). zbits.
Qed.

Lemma parity_step cells :
  (8 <= length cells)%nat →
  compute_parity cells =
  Z.lxor (le_decode (take 8 cells)) (compute_parity (drop 8 cells)).
Proof.
  intros H. unfold compute_parity. rewrite chunks_exact_step by lia.
  destruct (chunks_exact 8 (drop 8 cells)) as [cs r].
  rewrite fold_left_cons, Z.lxor_0_l, parity_fold_acc.
  destruct r; [done|]. by rewrite Z.lxor_assoc.
Qed.

Lemma le_decode_cons_lxor b l :
  byte_ok b → le_decode (b :: l) = Z.lxor b (Z.shiftl (le_decode l) 8).
Proof. intros Hb. cbn [le_decode]. apply (add_shift_lxor 8); [lia|done]. Qed.

Lemma le_decode_flip l i k :
  bytes_ok l → (i < length l)%nat → (k < 8)%nat →
  le_decode (flip_bit i k l) = Z.lxor (le_decode l) (Z.shiftl 1 (Z.of_nat (8 * i + k))).
Proof.
  intros Hl. revert i; induction Hl as [|b l Hb Hl IH]; intros i Hi Hk; [simpl in Hi; lia|].
  pose proof (flip_bit_ok 0 k [b] Hk (Forall_cons_2 _ _ _ Hb (Forall_nil_2 _))) as Hb'.
  rewrite flip_bit_O in Hb'. apply Forall_cons_1 in Hb' as [Hb' _].
  destruct i as [|i]; rewrite ?flip_bit_O, ?flip_bit_S.
  - rewrite !le_decode_cons_lxor by done. rewrite Nat.mul_0_r, Nat.add_0_l. zbits.
  - rewrite !le_decode_cons_lxor, IH by (done || simpl in Hi; lia).
    rewrite Z.shiftl_lxor, Z.shiftl_shiftl, Z.lxor_assoc by lia. do 3 f_equal. lia.
Qed.

Lemma flip_bit_take_drop_lt n i k (l : list Z) :
  (i < n)%nat →
  take n (flip_bit i k l) = flip_bit i k (take n l) ∧ drop n (flip_bit i k l) = drop n l.
Proof. intros H. split; [by apply take_alter_lt|by apply drop_alter_lt]. Qed.

Lemma flip_bit_take_drop_ge n i k (l : list Z) :
  (n <= i)%nat →
  take n (flip_bit i k l) = take n l ∧ drop n (flip_bit i k l) = flip_bit (i - n) k (drop n l).
Proof. intros H. split; [by apply take_alter_ge|by apply drop_alter_ge]. Qed.

Lemma parity_flip n cells i k :
  length cells = (8 * n)%nat → bytes_ok cells → (i < length cells)%nat → (k < 8)%nat →
  compute_parity (flip_bit i k cells) =
  Z.lxor (compute_parity cells) (Z.shiftl 1 (Z.of_nat (8 * (i mod 8) + k))).
Proof.
  revert cells i; induction n as [|n IH]; intros cells i Hl Hb Hi Hk; [lia|].
  rewrite (parity_step (flip_bit i k cells)) by (rewrite length_flip_bit; lia).
  rewrite (parity_step cells) by lia. destruct (decide (i < 8)%nat) as [H8|H8].
  - destruct (flip_bit_take_drop_lt 8 i k cells H8) as [-> ->].
    rewrite le_decode_flip by (done || len || by apply Forall_take).
    rewrite Nat.mod_small by done. zbits.
  - destruct (flip_bit_take_drop_ge 8 i k cells) as [-> ->]; [lia|].
    rewrite IH by (len || by apply Forall_drop).
    assert (i mod 8 = (i - 8) mod 8)%nat as ->; [|by rewrite Z.lxor_assoc].
    replace i with ((i - 8) + 1 * 8)%nat at 1 by lia. apply Nat.Div0.mod_add.
Qed.

Lemma compute_parity_range cells : bytes_ok cells → in_u 64 (compute_parity cells).
Proof.
  intros Hb. unfold compute_parity. destruct (chunks_exact 8 cells) as [cs r] eqn:E.
  apply chunks_exact_spec in E as (H1 & H2 & H3); [|lia].
  rewrite <- H1 in Hb. apply Forall_app in Hb as [Hb1 Hb2].
  assert (∀ p, in_u 64 p → in_u 64 (fold_left (λ q c, Z.lxor q (le_decode c)) cs p)) as Hf.
  { clear H1. induction H2 as [|c cs Hc _ IH]; intros p Hp; [done|].
    rewrite concat_cons in Hb1. apply Forall_app in Hb1 as [Hc' Hb1]. rewrite fold_left_cons.
    apply IH; [done|]. apply in_u_lxor; [lia|done|].
    pose proof (le_decode_range c Hc') as R. by rewrite Hc in R. }
  specialize (Hf 0 ltac:(done)). destruct r as [|b r]; [done|].
  apply in_u_lxor; [lia|done|]. set (t := b :: r) in *.
  assert (bytes_ok (t ++ replicate (8 - length t) 0)) as Ht.
  { apply Forall_app; split; [done|by apply bytes_ok_replicate]. }
  pose proof (le_decode_range _ Ht) as R. rewrite length_app, length_replicate in R.
  by replace (length t + (8 - length t))%nat with 8%nat in R by lia.
Qed.

End Crc.
