(* ===== verification/Page.v ===== *)
(** * The 4 KB page (src/src/storage/page.rs)

    [PageHeader] and [Page] with the cell accessors, the checksum update, the
    single-bit correction of [verify_and_correct] and the byte serialisation.
    [usize] indices are [nat]; an [assert!] that fails is [None]. *)

From Stdlib Require Import ZArith Lia.
From stdpp Require Import prelude list numbers.
From S2P Require Import Prelude Crc32c.
Local Open Scope Z_scope.
Import Crc.

Module PageM.

Definition PAGE_SIZE : nat := 64 * 64.
Definition HEADER_SIZE : nat := 64.
Definition PAGE_CELLS : nat := (PAGE_SIZE - HEADER_SIZE) / 8.

Record PageHeader := mkHeader {
  page_type : Z;
  tier_hint : Z;
  homogeneity : Z;
  row_count : Z;
  checksum : Z;
  predecessor : Z;
  successor : Z;
  parity : Z
}.

Record Page := mkPage {
  header : PageHeader;
  cells : list Z
}.

Definition header_default : PageHeader := mkHeader 0 0 0 0 0 0 0 0.

Definition page_new : Page := mkPage header_default (replicate (PAGE_SIZE - HEADER_SIZE) 0).

(** [set_checksum] and [set_cells] are field assignments on [&mut self]. *)
Definition set_integrity (crc par : Z) (h : PageHeader) : PageHeader :=
  mkHeader (page_type h) (tier_hint h) (homogeneity h) (row_count h)
           crc (predecessor h) (successor h) par.

Definition set_cells (cs : list Z) (p : Page) : Page := mkPage (header p) cs.

Definition get_cell (index : nat) (p : Page) : option Z :=
  if bool_decide (index < PAGE_CELLS)%nat
  then Some (le_decode (slice (index * 8) 8 (cells p)))
  else None.

Definition set_cell (index : nat) (value : Z) (p : Page) : option Page :=
  if bool_decide (index < PAGE_CELLS)%nat
  then Some (set_cells (splice (index * 8) (le_bytes 8 value) (cells p)) p)
  else None.

(** [as_u64_slice]: the payload reinterpreted as [PAGE_CELLS] native words. *)
Definition as_u64_slice (p : Page) : list Z :=
  (λ i, le_decode (slice (i * 8) 8 (cells p))) <$> seq 0 PAGE_CELLS.

Section integrity.
(** Whether the host has SSE4.2. *)
Context (sse42 : bool).

Definition compute_checksum (cs : list Z) : Z := compute_crc32c sse42 cs.

Definition verify_checksum (p : Page) : bool :=
  Z.eqb (compute_crc32c sse42 (cells p)) (checksum (header p)).

Definition update_checksum (p : Page) : Page :=
  mkPage (set_integrity (compute_crc32c sse42 (cells p)) (compute_parity (cells p)) (header p))
         (cells p).

(** [Err] of [verify_and_correct]: the syndrome has not exactly one bit, or no
    candidate word repairs the CRC. *)
Inductive vac_error : Type :=
| BadSyndrome (syndrome : Z)
| NoWordRepairs (syndrome : Z).

(** The loop over [word_idx in word_idx .. word_idx + n]: flip, test, undo. *)
Fixpoint correct_loop (n word_idx byte_in_word bit_in_byte : nat) (p : Page) : bool * Page :=
  match n with
  | O => (false, p)
  | S n =>
      let byte_idx := (word_idx * 8 + byte_in_word)%nat in
      let p' := set_cells (flip_bit byte_idx bit_in_byte (cells p)) p in
      if verify_checksum p' then (true, p')
      else correct_loop n (S word_idx) byte_in_word bit_in_byte
             (set_cells (flip_bit byte_idx bit_in_byte (cells p')) p')
  end.

Definition verify_and_correct (p : Page) : result vac_error bool * Page :=
  if verify_checksum p then (Ok false, p)
  else
    let syndrome := Z.lxor (parity (header p)) (compute_parity (cells p)) in
    if negb (Nat.eqb (count_ones 64 syndrome) 1) then (Err (BadSyndrome syndrome), p)
    else
      let bit_pos := trailing_zeros 64 syndrome in
      let byte_in_word := (bit_pos / 8)%nat in
      let bit_in_byte := (bit_pos mod 8)%nat in
      let num_words := (length (cells p) / 8)%nat in
      match correct_loop num_words 0 byte_in_word bit_in_byte p with
      | (true, p') => (Ok true, p')
      | (false, p') => (Err (NoWordRepairs syndrome), p')
      end.

End integrity.

(** [bytemuck::bytes_of(&header)]: the [repr(C)] layout of eight [u64] fields on
    a little-endian target. *)
Definition header_bytes (h : PageHeader) : list Z :=
  le_bytes 8 (page_type h) ++ le_bytes 8 (tier_hint h) ++ le_bytes 8 (homogeneity h) ++
  le_bytes 8 (row_count h) ++ le_bytes 8 (checksum h) ++ le_bytes 8 (predecessor h) ++
  le_bytes 8 (successor h) ++ le_bytes 8 (parity h).

Definition header_of_bytes (b : list Z) : PageHeader :=
  let f i := le_decode (slice (8 * i) 8 b) in
  mkHeader (f 0%nat) (f 1%nat) (f 2%nat) (f 3%nat) (f 4%nat) (f 5%nat) (f 6%nat) (f 7%nat).

Definition to_bytes (p : Page) : list Z := header_bytes (header p) ++ cells p.

(** [addr] is the address of the slice: [bytemuck::from_bytes] panics ([None])
    unless it is aligned for a [u64]. *)
Definition from_bytes (addr : Z) (bytes : list Z) : option (result Error Page) :=
  if bool_decide (length bytes < PAGE_SIZE)%nat then Some (Err ECorruption)
  else if negb (Z.eqb (addr mod 8) 0) then None
  else Some (Ok (mkPage (header_of_bytes (take HEADER_SIZE bytes))
                        (slice HEADER_SIZE (PAGE_SIZE - HEADER_SIZE) bytes))).

(** ** Well-formedness *)

Definition header_wf (h : PageHeader) : Prop :=
  in_u 64 (page_type h) ∧ in_u 64 (tier_hint h) ∧ in_u 64 (homogeneity h) ∧
  in_u 64 (row_count h) ∧ in_u 64 (checksum h) ∧ in_u 64 (predecessor h) ∧
  in_u 64 (successor h) ∧ in_u 64 (parity h).

Record page_wf (p : Page) : Prop := {
  wf_header : header_wf (header p);
  wf_length : length (cells p) = (PAGE_SIZE - HEADER_SIZE)%nat;
  wf_bytes : bytes_ok (cells p)
}.

#[global] Instance header_wf_dec h : Decision (header_wf h).
Proof. unfold header_wf, in_u. apply _. Defined.

(** ** Checksum and parity of a well-formed page *)
Lemma verify_checksum_scalar sse42 p :
  bytes_ok (cells p) →
  verify_checksum sse42 p = Z.eqb (crc32c_scalar (cells p)) (checksum (header p)).
Proof. intros H. unfold verify_checksum. by rewrite compute_crc32c_eq. Qed.

Lemma page_wf_num_words p : page_wf p → (length (cells p) / 8)%nat = PAGE_CELLS.
Proof. intros H. rewrite (wf_length _ H). vm_compute. reflexivity. Qed.

Lemma page_wf_length p : page_wf p → length (cells p) = 4032%nat.
Proof. intros H. rewrite (wf_length _ H). vm_compute. reflexivity. Qed.

Lemma update_checksum_wf sse42 p : page_wf p → page_wf (update_checksum sse42 p).
Proof.
  intros [Hh Hl Hb]. split; [|done|done]. unfold header_wf in *. simpl.
  pose proof (crc32c_scalar_range _ Hb) as Hc. rewrite <- (compute_crc32c_eq sse42) in Hc by done.
  pose proof (compute_parity_range _ Hb) as Hp.
  assert (in_u 64 (compute_crc32c sse42 (cells p))) by (unfold in_u in *; lia).
  destruct_and!; split_and!; done.
Qed.

Lemma popcount_pow2 j : (j < 64)%nat → count_ones 64 (Z.shiftl 1 (Z.of_nat j)) = 1%nat.
Proof.
  intros H. apply Nat.eqb_eq.
  apply (seq_forallb (λ j, Nat.eqb (count_ones 64 (Z.shiftl 1 (Z.of_nat j))) 1) 64); [|done].
  vm_compute. reflexivity.
Qed.

Lemma trailing_zeros_bit j : (j < 64)%nat → trailing_zeros 64 (Z.shiftl 1 (Z.of_nat j)) = j.
Proof.
  intros H. apply Nat.eqb_eq.
  apply (seq_forallb (λ j, Nat.eqb (trailing_zeros 64 (Z.shiftl 1 (Z.of_nat j))) j) 64); [|done].
  vm_compute. reflexivity.
Qed.

(** Two bits of distinct positions never look like one. *)
Lemma popcount_two_bits a b :
  (a < 64)%nat → (b < 64)%nat →
  count_ones 64 (Z.lxor (Z.shiftl 1 (Z.of_nat a)) (Z.shiftl 1 (Z.of_nat b))) ≠ 1%nat.
Proof.
  intros Ha Hb.
  assert (forallb (λ a, forallb (λ b, negb (Nat.eqb (count_ones 64
    (Z.lxor (Z.shiftl 1 (Z.of_nat a)) (Z.shiftl 1 (Z.of_nat b)))) 1)) (seq 0 64)) (seq 0 64) = true)
    as H by (vm_compute; reflexivity).
  apply (seq_forallb _ _ a) in H; [|done]. apply (seq_forallb _ _ b) in H; [|done].
  apply negb_true_iff, Nat.eqb_neq in H. done.
Qed.

Lemma flip_undo i k p :
  set_cells (flip_bit i k (cells (set_cells (flip_bit i k (cells p)) p)))
            (set_cells (flip_bit i k (cells p)) p) = p.
Proof. destruct p as [h c]. unfold set_cells. simpl. by rewrite flip_bit_involutive. Qed.

(** The correction loop stops at the first candidate that the CRC accepts. *)
Lemma correct_loop_hit sse42 n w0 w y k p :
  (w0 <= w < w0 + n)%nat →
  (∀ w', (w0 <= w' < w)%nat →
     verify_checksum sse42 (set_cells (flip_bit (w' * 8 + y) k (cells p)) p) = false) →
  verify_checksum sse42 (set_cells (flip_bit (w * 8 + y) k (cells p)) p) = true →
  correct_loop sse42 n w0 y k p = (true, set_cells (flip_bit (w * 8 + y) k (cells p)) p).
Proof.
  revert w0; induction n as [|n IH]; intros w0 Hw Hmiss Hhit; [lia|].
  cbn [correct_loop]. destruct (decide (w0 = w)) as [->|Hne]; [by rewrite Hhit|].
  rewrite Hmiss by lia. rewrite flip_undo. apply IH; [lia| |done].
  intros w' Hw'. apply Hmiss. lia.
Qed.

(** Whatever it finds, the loop leaves the page as it was or with one bit flipped. *)
Lemma correct_loop_sound sse42 n w0 y k p b p' :
  correct_loop sse42 n w0 y k p = (b, p') →
  if b then verify_checksum sse42 p' = true ∧ ∃ i, p' = set_cells (flip_bit i k (cells p)) p
  else p' = p.
Proof.
  revert w0; induction n as [|n IH]; intros w0; cbn [correct_loop].
  - intros H. by simplify_eq.
  - destruct (verify_checksum sse42 (set_cells _ p)) eqn:E.
    + intros H. simplify_eq. eauto.
    + rewrite flip_undo. apply IH.
Qed.

(** ** The correction theorems *)
Lemma verify_updated sse42 p : verify_checksum sse42 (update_checksum sse42 p) = true.
Proof. apply Z.eqb_refl. Qed.

(** A payload that differs from the checksummed one by a detectable error. *)
Lemma verify_error sse42 p cs :
  page_wf p → bytes_ok cs → crc32c_scalar cs ≠ crc32c_scalar (cells p) →
  verify_checksum sse42 (set_cells cs (update_checksum sse42 p)) = false.
Proof.
  intros Hwf Hcs Hne. rewrite verify_checksum_scalar by done. apply Z.eqb_neq. simpl.
  rewrite (compute_crc32c_eq sse42) by apply Hwf. done.
Qed.

Lemma syndrome_flip sse42 p i k :
  page_wf p → (i < 4032)%nat → (k < 8)%nat →
  Z.lxor (parity (header (update_checksum sse42 p))) (compute_parity (flip_bit i k (cells p))) =
  Z.shiftl 1 (Z.of_nat (8 * (i mod 8) + k)).
Proof.
  intros Hwf Hi Hk. pose proof (page_wf_length p Hwf) as Hl. simpl.
  rewrite (parity_flip 504) by (done || lia || apply Hwf).
  by rewrite <- Z.lxor_assoc, Z.lxor_nilpotent, Z.lxor_0_l.
Qed.

(** C32: single-bit correction.  When any one bit of the payload of a checksummed
    page is flipped, [verify_and_correct] returns [Ok(true)] and restores the
    page exactly. *)
Theorem verify_and_correct_single_bit (sse42 : bool) (p : Page) (i k : nat)
    (Hwf : page_wf p) (Hi : (i < 4032)%nat) (Hk : (k < 8)%nat) :
  let good := update_checksum sse42 p in
  verify_and_correct sse42 (set_cells (flip_bit i k (cells p)) good) = (Ok true, good).
Proof.
  intros good; subst good. pose proof (page_wf_length p Hwf) as Hl.
  unfold verify_and_correct.
  rewrite (verify_error sse42 p) by
    (done || (by apply flip_bit_ok, Hwf) || (apply crc_flip1_ne; lia)).
  cbn [header set_cells cells]. rewrite (syndrome_flip sse42 p i k Hwf Hi Hk).
  pose proof (Nat.mod_upper_bound i 8 ltac:(lia)) as Him.
  rewrite popcount_pow2, trailing_zeros_bit by lia. cbn [negb Nat.eqb].
  assert ((8 * (i mod 8) + k) / 8 = i mod 8)%nat as ->
    by (rewrite (Nat.mul_comm 8), Nat.div_add_l, Nat.div_small by lia; lia).
  assert ((8 * (i mod 8) + k) mod 8 = k)%nat as ->
    by (rewrite (Nat.mul_comm 8), Nat.add_comm, Nat.Div0.mod_add, Nat.mod_small by lia; lia).
  pose proof (Nat.div_mod_eq i 8) as Hdm.
  assert (i / 8 < 504)%nat as Hw by (apply Nat.Div0.div_lt_upper_bound; lia).
  assert (length (flip_bit i k (cells p)) / 8 = 504)%nat as ->
    by (rewrite length_flip_bit, Hl; reflexivity).
  rewrite (correct_loop_hit sse42 504 0 (i / 8)); cbn [cells set_cells header].
  - replace (i / 8 * 8 + i mod 8)%nat with i by lia. rewrite flip_bit_involutive. done.
  - lia.
  - intros w' Hw'. apply (verify_error sse42 p); [done| |].
    + by apply flip_bit_ok, flip_bit_ok, Hwf.
    + apply crc_flip2_ne; lia.
  - replace (i / 8 * 8 + i mod 8)%nat with i by lia. rewrite flip_bit_involutive.
    apply verify_updated.
Qed.

Lemma page_new_wf : page_wf page_new.
Proof.
  split; [by vm_compute|apply length_replicate|by apply bytes_ok_replicate].
Qed.

Lemma verify_and_correct_single_bit_witness :
  verify_and_correct true (set_cells (flip_bit 17 3 (cells page_new))
                                     (update_checksum true page_new)) =
  (Ok true, update_checksum true page_new).
Proof.
  apply (verify_and_correct_single_bit true page_new 17 3); [apply page_new_wf|lia|lia].
Defined.

(** a double-bit error in the payload is always reported as uncorrectable and
    never miscorrected: [verify_and_correct] returns [Err] and leaves the page
    as it found it. *)
Theorem verify_and_correct_double_bit (sse42 : bool) (p : Page) (i k j m : nat)
    (Hwf : page_wf p) (Hi : (i < 4032)%nat) (Hj : (j < 4032)%nat)
    (Hk : (k < 8)%nat) (Hm : (m < 8)%nat) (Hne : (i, k) ≠ (j, m)) :
  let bad := set_cells (flip_bit i k (flip_bit j m (cells p))) (update_checksum sse42 p) in
  ∃ syndrome, verify_and_correct sse42 bad = (Err (BadSyndrome syndrome), bad).
Proof.
  intros bad; subst bad. pose proof (page_wf_length p Hwf) as Hl. unfold verify_and_correct.
  assert (8 * i + k ≠ 8 * j + m)%nat as Hne' by (intros H; apply Hne; f_equal; lia).
  rewrite (verify_error sse42 p) by
    (done || (by apply flip_bit_ok, flip_bit_ok, Hwf) || (apply crc_flip2_ne; lia)).
  cbn [header set_cells cells].
  rewrite (parity_flip 504) by
    (rewrite ?length_flip_bit; done || lia || by apply flip_bit_ok, Hwf).
  rewrite <- Z.lxor_assoc, (syndrome_flip sse42 p j m Hwf Hj Hm).
  pose proof (Nat.mod_upper_bound i 8 ltac:(lia)). pose proof (Nat.mod_upper_bound j 8 ltac:(lia)).
  eexists. case_match eqn:E; [done|]. exfalso. apply negb_false_iff, Nat.eqb_eq in E.
  revert E. apply popcount_two_bits; lia.
Qed.

Lemma verify_and_correct_double_bit_witness :
  ∃ syndrome,
    let bad := set_cells (flip_bit 5 2 (flip_bit 13 2 (cells page_new)))
                         (update_checksum false page_new) in
    verify_and_correct false bad = (Err (BadSyndrome syndrome), bad).
Proof.
  apply (verify_and_correct_double_bit false page_new 5 2 13 2);
    [apply page_new_wf|lia|lia|lia|lia|congruence].
Defined.

(** what [verify_and_correct] may do to any page, damaged or not: [Ok(false)]
    and [Err] leave the page untouched, [Ok(true)] flips exactly one payload bit
    of a page whose CRC was wrong and the result passes the CRC; the header is
    never written. *)
Theorem verify_and_correct_sound (sse42 : bool) (p : Page) :
  match verify_and_correct sse42 p with
  | (Ok false, p') => p' = p ∧ verify_checksum sse42 p = true
  | (Ok true, p') =>
      verify_checksum sse42 p = false ∧ verify_checksum sse42 p' = true ∧
      ∃ i k, p' = set_cells (flip_bit i k (cells p)) p
  | (Err _, p') => p' = p ∧ verify_checksum sse42 p = false
  end.
Proof.
  unfold verify_and_correct. destruct (verify_checksum sse42 p) eqn:V; [done|].
  destruct (negb _); [done|].
  destruct (correct_loop _ _ _ _ _ _) as [b p'] eqn:L. apply correct_loop_sound in L.
  destruct b; [|done]. destruct L as [H1 [i H2]]. eauto.
Qed.

(** when only the stored CRC is damaged (payload and parity agree), the page
    is reported uncorrectable and no payload bit is touched. *)
Theorem verify_and_correct_bad_crc_field (sse42 : bool) (p : Page) (crc' : Z)
    (Hcrc : crc' ≠ compute_crc32c sse42 (cells p)) :
  let bad := mkPage (set_integrity crc' (compute_parity (cells p)) (header p)) (cells p) in
  verify_and_correct sse42 bad = (Err (BadSyndrome 0), bad).
Proof.
  intros bad. unfold verify_and_correct.
  assert (verify_checksum sse42 bad = false) as -> by (by apply Z.eqb_neq).
  subst bad; cbn [header cells set_integrity parity]. by rewrite Z.lxor_nilpotent.
Qed.

Lemma verify_and_correct_bad_crc_field_witness :
  let bad := mkPage (set_integrity 7 (compute_parity (cells page_new)) header_default)
                    (cells page_new) in
  verify_and_correct false bad = (Err (BadSyndrome 0), bad).
Proof.
  apply (verify_and_correct_bad_crc_field false page_new 7). vm_compute. done.
Defined.

(** ** Cell access *)
Lemma set_cell_wf i v p p' : page_wf p → set_cell i v p = Some p' → page_wf p'.
Proof.
  intros Hwf. pose proof (page_wf_length p Hwf) as Hl. unfold set_cell.
  case_bool_decide as Hi; [|done]. intros <-%(inj Some).
  assert (PAGE_CELLS = 504%nat) as Hc by reflexivity.
  split; [apply Hwf| |]; cbn [set_cells cells].
  - rewrite length_splice by (rewrite length_le_bytes; lia). apply Hwf.
  - apply bytes_ok_splice; [apply le_bytes_ok|apply Hwf].
Qed.

(** cells behave as an array of 504 words: a write is read back, leaves every
    other cell and the header alone, and preserves well-formedness; an index of
    504 or more panics on both sides. *)
Theorem set_cell_get_cell (i j : nat) (v : Z) (p : Page) (Hwf : page_wf p) (Hv : in_u 64 v) :
  match set_cell i v p with
  | None => (504 <= i)%nat ∧ get_cell i p = None
  | Some p' =>
      page_wf p' ∧ header p' = header p ∧
      get_cell j p' = if bool_decide (i = j) then Some v else get_cell j p
  end.
Proof.
  destruct (set_cell i v p) as [p'|] eqn:E.
  - split; [by eapply set_cell_wf|]. pose proof (page_wf_length p Hwf) as Hl.
    unfold set_cell, get_cell in *. assert (PAGE_CELLS = 504%nat) as Hc by reflexivity.
    destruct (bool_decide_reflect (i < PAGE_CELLS)%nat) as [Hi|]; [|done].
    apply (inj Some) in E as <-. split; [done|]. cbn [set_cells cells].
    destruct (bool_decide_reflect (i = j)) as [<-|Hij].
    + rewrite bool_decide_true by done. f_equal.
      change 8%nat with (length (le_bytes 8 v)) at 2.
      rewrite slice_splice_eq by (rewrite length_le_bytes; lia). by apply le_decode_bytes.
    + case_bool_decide as Hj; [|done]. do 2 f_equal. apply slice_splice_ne; len.
  - unfold set_cell, get_cell in *. case_bool_decide as Hi; [done|]. split; [|done].
    assert (PAGE_CELLS = 504%nat) as Hc by reflexivity. lia.
Qed.

Lemma in_u64_42 : in_u 64 42.
Proof. vm_compute. split; congruence. Qed.

Lemma set_cell_get_cell_witness :
  match set_cell 503 42 page_new with
  | None => (504 <= 503)%nat ∧ get_cell 503 page_new = None
  | Some p' =>
      page_wf p' ∧ header p' = header page_new ∧
      get_cell 503 p' = if bool_decide (503 = 503)%nat then Some 42 else get_cell 503 page_new
  end.
Proof.
  exact (set_cell_get_cell 503 503 42 page_new page_new_wf in_u64_42).
Defined.

(** ** Serialisation *)
Lemma length_header_bytes h : length (header_bytes h) = HEADER_SIZE.
Proof. reflexivity. Qed.

Lemma length_to_bytes p : page_wf p → length (to_bytes p) = PAGE_SIZE.
Proof. intros H. unfold to_bytes. rewrite length_app, (wf_length _ H). reflexivity. Qed.

Lemma to_bytes_ok p : page_wf p → bytes_ok (to_bytes p).
Proof.
  intros H. unfold to_bytes, header_bytes. rewrite <- !app_assoc.
  repeat (apply Forall_app; split; [apply le_bytes_ok|]). apply H.
Qed.

Lemma header_of_header_bytes h : header_wf h → header_of_bytes (header_bytes h) = h.
Proof.
  intros Hwf. unfold header_wf in Hwf. destruct_and! Hwf. destruct h.
  unfold header_of_bytes. f_equal.
  all: match goal with
       | |- le_decode ?l = ?z => change l with (le_bytes 8 z); apply le_decode_bytes; done
       end.
Qed.

Lemma header_bytes_of_bytes b :
  length b = HEADER_SIZE → bytes_ok b → header_bytes (header_of_bytes b) = b.
Proof.
  intros Hl Hb. change HEADER_SIZE with 64%nat in Hl.
  unfold header_bytes, header_of_bytes. cbn [page_type tier_hint homogeneity row_count
    checksum predecessor successor parity].
  rewrite !le_bytes_decode_slice by (done || lia).
  rewrite (slice_join 48 8 8), (slice_join 40 8 16), (slice_join 32 8 24), (slice_join 24 8 32),
    (slice_join 16 8 40), (slice_join 8 8 48), (slice_join 0 8 56). by apply slice_all.
Qed.

(** [SsTableWriter] and [BufferPool] write pages with [to_bytes]; both read them
    back with [from_bytes]. *)
Lemma from_to_bytes addr p :
  page_wf p → addr mod 8 = 0 → from_bytes addr (to_bytes p) = Some (Ok p).
Proof.
  intros Hwf Ha. unfold from_bytes.
  rewrite bool_decide_false by (rewrite length_to_bytes by done; lia).
  rewrite Ha. cbn [negb Z.eqb]. do 2 f_equal. unfold to_bytes.
  rewrite (take_app_length' _ _ HEADER_SIZE) by exact (length_header_bytes (header p)).
  rewrite header_of_header_bytes by apply Hwf. rewrite slice_app_r by done.
  rewrite length_header_bytes, Nat.sub_diag. rewrite slice_all by apply Hwf. by destruct p.
Qed.

(** serialisation round trip.  A well-formed page is read back unchanged from
    an aligned buffer, and every aligned 4096-byte buffer is the serialisation of
    the page read from it; a shorter buffer is [Corruption] at any address. *)
Theorem page_bytes_roundtrip (addr : Z) (p : Page) (b : list Z)
    (Hwf : page_wf p) (Ha : addr mod 8 = 0) (Hb : bytes_ok b) :
  from_bytes addr (to_bytes p) = Some (Ok p) ∧
  match from_bytes addr b with
  | Some (Ok q) => to_bytes q = take PAGE_SIZE b
  | Some (Err e) => e = ECorruption ∧ (length b < PAGE_SIZE)%nat
  | None => False
  end.
Proof.
  split; [by apply from_to_bytes|]. unfold from_bytes.
  case_bool_decide as Hl; [done|]. rewrite Ha. cbn [negb Z.eqb].
  unfold to_bytes. cbn [header cells].
  assert (HEADER_SIZE <= PAGE_SIZE)%nat by (vm_compute; lia).
  rewrite header_bytes_of_bytes by (len || by apply Forall_take).
  exact (slice_join 0 HEADER_SIZE (PAGE_SIZE - HEADER_SIZE) b).
Qed.

Lemma page_bytes_roundtrip_witness :
  from_bytes 16 (to_bytes page_new) = Some (Ok page_new) ∧
  match from_bytes 16 (replicate 4095 1) with
  | Some (Ok q) => to_bytes q = take PAGE_SIZE (replicate 4095 1)
  | Some (Err e) => e = ECorruption ∧ (length (replicate 4095 (1 : Z)) < PAGE_SIZE)%nat
  | None => False
  end.
Proof.
  apply (page_bytes_roundtrip 16 page_new (replicate 4095 1));
    [apply page_new_wf|done|by apply bytes_ok_replicate].
Defined.

End PageM.
