(* ===== verification/SsTable.v ===== *)
(** * Sorted string tables (src/src/storage/sstable.rs)

    The writer appends pages to a byte string and closes it with an index and a
    footer; the reader parses an arbitrary byte string.  A file is the list of
    its bytes; the operating system's own failures are not modelled.  [usize]
    arithmetic wraps modulo 2^64, as in a release build.  The mapping starts at a
    page boundary, so the address of an offset has the alignment of the offset. *)

From Stdlib Require Import ZArith Lia.
From stdpp Require Import prelude list numbers.
From S2P Require Import Prelude Page.
Local Open Scope Z_scope.

Module SsTableM.
Import PageM.

(** ["TVSST001"] *)
Definition SSTABLE_MAGIC : list Z := [84; 86; 83; 83; 84; 48; 48; 49].
Definition HEADER_SIZE_BYTES : Z := 16.
Definition FOOTER_SIZE_BYTES : Z := 24.

Record SsTableWriter := mkWriter {
  file : list Z;
  page_count : Z;
  page_offsets : list Z
}.

Definition create : SsTableWriter := mkWriter (SSTABLE_MAGIC ++ le_bytes 8 0) 0 [].

Definition write_page (p : Page) (w : SsTableWriter) : Z * SsTableWriter :=
  let offset := HEADER_SIZE_BYTES + page_count w * Z.of_nat PAGE_SIZE in
  (offset, mkWriter (file w ++ header_bytes (header p) ++ cells p)
                    (page_count w + 1) (page_offsets w ++ [offset])).

(** [finish] consumes the writer: the total it reports and the file it leaves. *)
Definition finish (w : SsTableWriter) : Z * list Z :=
  let index_offset := HEADER_SIZE_BYTES + page_count w * Z.of_nat PAGE_SIZE in
  let f := fold_left (λ f offset, f ++ le_bytes 8 offset) (page_offsets w) (file w) in
  let f := f ++ SSTABLE_MAGIC in
  let f := f ++ le_bytes 8 (page_count w) in
  let f := f ++ le_bytes 8 index_offset in
  let f := splice 8 (le_bytes 8 (page_count w)) f in
  (index_offset + page_count w * 8 + FOOTER_SIZE_BYTES, f).

Record SsTableReader := mkReader {
  mmap : list Z;
  r_page_count : Z;
  index_offset : Z
}.

Definition mmap_len (l : list Z) : Z := Z.of_nat (length l).

Definition open (mmap : list Z) : prog Error SsTableReader :=
  let len := mmap_len mmap in
  if Z.ltb len (HEADER_SIZE_BYTES + FOOTER_SIZE_BYTES) then throw ECorruption
  else
    magic ← or_panic (zslice 0 8 mmap);
    if negb (bool_decide (magic = SSTABLE_MAGIC)) then throw ECorruption
    else
      let footer_start := len - FOOTER_SIZE_BYTES in
      magic ← or_panic (zslice footer_start 8 mmap);
      if negb (bool_decide (magic = SSTABLE_MAGIC)) then throw ECorruption
      else
        pc ← or_panic (zslice (footer_start + 8) 8 mmap);
        io ← or_panic (zslice (footer_start + 16) 8 mmap);
        let page_count := le_decode pc in
        let index_offset := le_decode io in
        let index_end := wrap_u 64 (index_offset + wrap_u 64 (page_count * 8)) in
        if Z.ltb (len - FOOTER_SIZE_BYTES) index_end then throw ECorruption
        else mret (mkReader mmap page_count index_offset).

Definition page_offset (index : Z) (r : SsTableReader) : prog Error Z :=
  let pos := wrap_u 64 (index_offset r + wrap_u 64 (index * 8)) in
  if Z.ltb (mmap_len (mmap r)) (wrap_u 64 (pos + 8)) then throw ECorruption
  else
    b ← or_panic (zslice pos 8 (mmap r));
    mret (le_decode b).

Definition read_page (index : Z) (r : SsTableReader) : prog Error Page :=
  if Z.leb (r_page_count r) index then throw ENotFound
  else
    offset ← page_offset index r;
    if Z.ltb (mmap_len (mmap r)) (wrap_u 64 (offset + Z.of_nat PAGE_SIZE)) then throw ECorruption
    else
      b ← or_panic (zslice offset PAGE_SIZE (mmap r));
      from_bytes offset b.

(** [first_cell]: [Err tt] is the [None] of the source. *)
Definition first_cell (index : Z) (r : SsTableReader) : prog () Z :=
  match page_offset index r with
  | None => None
  | Some (Err _) => throw tt
  | Some (Ok offset) =>
      let cell_pos := wrap_u 64 (offset + Z.of_nat HEADER_SIZE) in
      if Z.ltb (mmap_len (mmap r)) (wrap_u 64 (cell_pos + 8)) then throw tt
      else
        b ← or_panic (zslice cell_pos 8 (mmap r));
        mret (le_decode b)
  end.

(** The [while lo <= hi] loop.  [hi - lo] shrinks in every round, so a fuel of
    [page_count + 1] is never exhausted; [None] is a panic of [first_cell]. *)
Fixpoint search_loop (first : Z → prog () Z) (fuel : nat) (target_key lo hi : Z)
    (result : option Z) : option (option Z) :=
  match fuel with
  | O => Some result
  | S fuel =>
      if Z.leb lo hi then
        let mid := Z.shiftr (lo + hi) 1 in
        match first mid with
        | None => None
        | Some (Err _) => Some result
        | Some (Ok first_key) =>
            if Z.leb first_key target_key
            then search_loop first fuel target_key (mid + 1) hi (Some mid)
            else search_loop first fuel target_key lo (mid - 1) result
        end
      else Some result
  end.

Definition binary_search (target_key : Z) (r : SsTableReader) : option (option Z) :=
  if Z.eqb (r_page_count r) 0 then Some None
  else search_loop (λ i, first_cell i r) (S (Z.to_nat (r_page_count r)))
         target_key 0 (r_page_count r - 1) None.

(** ** The file a writer leaves *)

Definition write_pages (ps : list Page) (w : SsTableWriter) : SsTableWriter :=
  fold_left (λ w p, snd (write_page p w)) ps w.

Definition sstable_bytes (ps : list Page) : list Z := snd (finish (write_pages ps create)).

Definition offset_of (i : nat) : Z := 16 + Z.of_nat i * 4096.

Lemma PAGE_SIZE_Z : Z.of_nat PAGE_SIZE = 4096.
Proof. reflexivity. Qed.

Lemma write_pages_spec ps w :
  page_count w = Z.of_nat (length (page_offsets w)) →
  file (write_pages ps w) = file w ++ concat (to_bytes <$> ps) ∧
  page_count (write_pages ps w) = page_count w + Z.of_nat (length ps) ∧
  page_offsets (write_pages ps w) =
    page_offsets w ++ (offset_of <$> seq (length (page_offsets w)) (length ps)).
Proof.
  revert w; induction ps as [|p ps IH]; intros w Hw.
  - simpl. rewrite !app_nil_r. split_and!; [done|lia|done].
  - unfold write_pages in *. rewrite fold_left_cons.
    destruct (IH (snd (write_page p w))) as (H1 & H2 & H3).
    { simpl. rewrite length_app. simpl. lia. }
    rewrite H1, H2, H3. simpl. split_and!.
    + by rewrite <- !app_assoc.
    + lia.
    + rewrite length_app, <- app_assoc. simpl. do 2 f_equal; [|do 2 f_equal; lia].
      unfold offset_of. rewrite Hw. reflexivity.
Qed.

Lemma fold_offsets offs f :
  fold_left (λ f offset, f ++ le_bytes 8 offset) offs f = f ++ concat (le_bytes 8 <$> offs).
Proof.
  revert f; induction offs as [|o offs IH]; intros f; [by rewrite app_nil_r|].
  rewrite fold_left_cons, IH. simpl. by rewrite <- app_assoc.
Qed.

(** The layout documented at the head of the source file. *)
Lemma sstable_bytes_eq ps :
  let n := Z.of_nat (length ps) in
  sstable_bytes ps =
  (SSTABLE_MAGIC ++ le_bytes 8 n) ++ concat (to_bytes <$> ps) ++
  concat (le_bytes 8 <$> (offset_of <$> seq 0 (length ps))) ++
  SSTABLE_MAGIC ++ le_bytes 8 n ++ le_bytes 8 (16 + n * 4096).
Proof.
  intros n. unfold sstable_bytes, finish.
  destruct (write_pages_spec ps create) as (H1 & H2 & H3); [done|].
  rewrite H2, H3. cbn [snd page_offsets create length]. rewrite fold_offsets, H1.
  rewrite PAGE_SIZE_Z, <- !app_assoc. reflexivity.
Qed.

(** The largest table considered: its byte length fits in an [isize]. *)
Definition fits (ps : list Page) : Prop := 40 + Z.of_nat (length ps) * 4104 < 2 ^ 63.

Section written.
Context (ps : list Page) (Hwf : Forall page_wf ps) (Hfit : fits ps).
Abbreviation n := (Z.of_nat (length ps)).
Abbreviation F := (sstable_bytes ps).
Abbreviation R := (mkReader (sstable_bytes ps) (Z.of_nat (length ps))
                        (16 + Z.of_nat (length ps) * 4096)).

Lemma pages_blocks : Forall (λ c, length c = PAGE_SIZE) (to_bytes <$> ps).
Proof. apply Forall_fmap. eapply Forall_impl; [|exact Hwf]. intros p. apply length_to_bytes. Qed.

Lemma offsets_blocks : Forall (λ c, length c = 8%nat) (le_bytes 8 <$> (offset_of <$> seq 0 (length ps))).
Proof. apply Forall_fmap, Forall_true. intros o. apply length_le_bytes. Qed.

Lemma length_pages : length (concat (to_bytes <$> ps)) = (length ps * 4096)%nat.
Proof. rewrite (length_concat_blocks _ _ pages_blocks), length_fmap. reflexivity. Qed.

Lemma length_offsets :
  length (concat (le_bytes 8 <$> (offset_of <$> seq 0 (length ps)))) = (length ps * 8)%nat.
Proof. by rewrite (length_concat_blocks _ _ offsets_blocks), !length_fmap, length_seq. Qed.

Lemma length_sstable : mmap_len F = 40 + n * 4104.
Proof.
  unfold mmap_len. rewrite sstable_bytes_eq. rewrite !length_app, length_pages, length_offsets.
  rewrite !length_le_bytes. simpl length. lia.
Qed.

(** Slices of the four parts of the file. *)
Lemma slice_head : zslice 0 8 F = Some SSTABLE_MAGIC.
Proof.
  pose proof length_sstable as Hl. unfold mmap_len in Hl.
  rewrite zslice_Some by lia. rewrite sstable_bytes_eq. reflexivity.
Qed.

Lemma slice_page i p : ps !! i = Some p → zslice (offset_of i) PAGE_SIZE F = Some (to_bytes p).
Proof.
  intros Hi. pose proof (lookup_lt_Some _ _ _ Hi) as Hlt.
  pose proof length_sstable as Hl. unfold mmap_len in Hl. unfold offset_of.
  rewrite zslice_Some by (rewrite ?PAGE_SIZE_Z; lia). f_equal. rewrite sstable_bytes_eq.
  rewrite slice_app_r by (rewrite length_app, length_le_bytes; simpl length; lia).
  rewrite length_app, length_le_bytes. change (length SSTABLE_MAGIC) with 8%nat.
  rewrite slice_app_l by (rewrite length_pages; change PAGE_SIZE with 4096%nat; lia).
  replace (Z.to_nat (16 + Z.of_nat i * 4096) - (8 + 8))%nat with (i * PAGE_SIZE)%nat
    by (change PAGE_SIZE with 4096%nat; lia).
  apply slice_concat; [apply pages_blocks|]. by rewrite list_lookup_fmap, Hi.
Qed.

Lemma slice_offset i : (i < length ps)%nat →
  zslice (16 + n * 4096 + Z.of_nat i * 8) 8 F = Some (le_bytes 8 (offset_of i)).
Proof.
  intros Hi. pose proof length_sstable as Hl. unfold mmap_len in Hl.
  rewrite zslice_Some by lia. f_equal. rewrite sstable_bytes_eq.
  rewrite slice_app_r by (rewrite length_app, length_le_bytes; simpl length; lia).
  rewrite length_app, length_le_bytes. change (length SSTABLE_MAGIC) with 8%nat.
  rewrite slice_app_r by (rewrite length_pages; lia).
  rewrite slice_app_l by (rewrite length_pages, length_offsets; lia). rewrite length_pages.
  match goal with |- slice ?o _ _ = _ => replace o with (i * 8)%nat by lia end.
  apply slice_concat; [apply offsets_blocks|].
  rewrite !list_lookup_fmap, lookup_seq_lt by done. done.
Qed.

Lemma slice_footer k b :
  (k < 3)%nat → [SSTABLE_MAGIC; le_bytes 8 n; le_bytes 8 (16 + n * 4096)] !! k = Some b →
  zslice (16 + n * 4104 + Z.of_nat k * 8) 8 F = Some b.
Proof.
  intros Hk Hb. pose proof length_sstable as Hl. unfold mmap_len in Hl.
  rewrite zslice_Some by lia. f_equal. rewrite sstable_bytes_eq.
  rewrite slice_app_r by (rewrite length_app, length_le_bytes; simpl length; lia).
  rewrite length_app, length_le_bytes. change (length SSTABLE_MAGIC) with 8%nat.
  rewrite slice_app_r by (rewrite length_pages; lia).
  rewrite slice_app_r by (rewrite length_pages, length_offsets; lia).
  rewrite length_pages, length_offsets.
  match goal with |- slice ?o _ _ = _ => replace o with (k * 8)%nat by lia end.
  rewrite <- (app_nil_r (le_bytes 8 (16 + _))).
  apply (slice_concat 8 k [SSTABLE_MAGIC; le_bytes 8 n; le_bytes 8 (16 + n * 4096)]); [|done].
  repeat constructor.
Qed.

Lemma decode_small z : 0 <= z < 2 ^ 64 → le_decode (le_bytes 8 z) = z.
Proof. intros H. by apply le_decode_bytes. Qed.

Lemma wrap_fit z : 0 <= z < 2 ^ 63 → wrap_u 64 z = z.
Proof. intros H. apply wrap_u_small. unfold in_u. lia. Qed.

Lemma open_written : open F = Some (Ok R).
Proof.
  unfold fits in Hfit. unfold open. rewrite length_sstable.
  change HEADER_SIZE_BYTES with 16. change FOOTER_SIZE_BYTES with 24.
  rewrite (proj2 (Z.ltb_ge _ _)) by lia.
  replace (40 + n * 4104 - 24) with (16 + n * 4104 + Z.of_nat 0 * 8) by lia.
  rewrite slice_head, (slice_footer 0 SSTABLE_MAGIC) by (done || lia).
  replace (16 + n * 4104 + Z.of_nat 0 * 8 + 8) with (16 + n * 4104 + Z.of_nat 1 * 8) by lia.
  replace (16 + n * 4104 + Z.of_nat 0 * 8 + 16) with (16 + n * 4104 + Z.of_nat 2 * 8) by lia.
  rewrite (slice_footer 1 (le_bytes 8 n)), (slice_footer 2 (le_bytes 8 (16 + n * 4096)))
    by (done || lia).
  rewrite !or_panic_bind. rewrite bool_decide_true by done. cbn [negb].
  change (2 ^ 63) with 9223372036854775808 in *.
  rewrite !decode_small by lia.
  rewrite (wrap_fit (n * 8)), wrap_fit by lia.
  rewrite (proj2 (Z.ltb_ge _ _)) by lia. done.
Qed.

Lemma page_offset_written i :
  (i < length ps)%nat → page_offset (Z.of_nat i) R = Some (Ok (offset_of i)).
Proof.
  intros Hi. unfold fits in Hfit. unfold page_offset. cbn [mmap r_page_count index_offset].
  rewrite length_sstable. rewrite (wrap_fit (_ * 8)) by lia.
  rewrite (wrap_fit (16 + _ + _)), wrap_fit by lia.
  rewrite (proj2 (Z.ltb_ge _ _)) by lia. rewrite slice_offset, or_panic_bind by done.
  unfold offset_of. by rewrite decode_small by lia.
Qed.

Lemma read_page_written i p :
  ps !! i = Some p → read_page (Z.of_nat i) R = Some (Ok p).
Proof.
  intros Hi. pose proof (lookup_lt_Some _ _ _ Hi) as Hlt. pose proof Hfit as Hf. unfold fits in Hf.
  unfold read_page. cbn [mmap r_page_count].
  rewrite (proj2 (Z.leb_gt _ _)) by lia.
  rewrite page_offset_written, prog_ok_bind by done.
  rewrite length_sstable, PAGE_SIZE_Z, wrap_fit by (unfold offset_of; lia).
  rewrite (proj2 (Z.ltb_ge _ _)) by (unfold offset_of; lia).
  rewrite (slice_page i p), or_panic_bind by done. apply from_to_bytes.
  - rewrite list.Forall_forall in Hwf. apply Hwf. by eapply list_elem_of_lookup_2.
  - unfold offset_of. change 4096 with (512 * 8). rewrite Z.mul_assoc. apply Z_mod_plus_full.
Qed.

Lemma to_bytes_first_cell p :
  page_wf p → get_cell 0 p = Some (le_decode (slice HEADER_SIZE 8 (to_bytes p))).
Proof.
  intros Hp. unfold get_cell. rewrite bool_decide_true by (vm_compute; lia).
  unfold to_bytes. rewrite slice_app_r by done. by rewrite length_header_bytes, Nat.sub_diag.
Qed.

Lemma first_cell_written i p c :
  ps !! i = Some p → get_cell 0 p = Some c → first_cell (Z.of_nat i) R = Some (Ok c).
Proof.
  intros Hi Hc. pose proof (lookup_lt_Some _ _ _ Hi) as Hlt.
  pose proof Hfit as Hf. unfold fits in Hf.
  assert (page_wf p) as Hp.
  { rewrite list.Forall_forall in Hwf. apply Hwf. by eapply list_elem_of_lookup_2. }
  rewrite to_bytes_first_cell in Hc by done. apply (inj Some) in Hc as <-.
  unfold first_cell. rewrite page_offset_written by done. cbn [mmap].
  change (Z.of_nat HEADER_SIZE) with 64. rewrite length_sstable.
  rewrite (wrap_fit (_ + 64)) by (unfold offset_of; lia).
  rewrite wrap_fit by (unfold offset_of; lia).
  rewrite (proj2 (Z.ltb_ge _ _)) by (unfold offset_of; lia).
  pose proof (slice_page i p Hi) as Hs. unfold zslice in Hs.
  case_bool_decide as Hb; [|done]. apply (inj Some) in Hs.
  rewrite zslice_Some by (rewrite PAGE_SIZE_Z in Hb; lia).
  rewrite or_panic_bind. do 3 f_equal. rewrite <- Hs. unfold slice.
  change PAGE_SIZE with (64 + (8 + 4024))%nat. change HEADER_SIZE with 64%nat.
  rewrite <- take_drop_commute, drop_drop, take_take, Nat.min_l by lia.
  replace (Z.to_nat (offset_of i + 64)) with (Z.to_nat (offset_of i) + 64)%nat
    by (unfold offset_of; lia). done.
Qed.

End written.

(** ** Binary search *)

(** The result is the last position whose key is at most the target. *)
Definition is_floor (f : Z → Z) (n target : Z) (r : option Z) : Prop :=
  match r with
  | Some i => 0 <= i < n ∧ f i <= target ∧ ∀ j, i < j < n → target < f j
  | None => ∀ j, 0 <= j < n → target < f j
  end.

Lemma search_loop_floor first f n target fuel lo hi :
  (∀ i, 0 <= i < n → first i = Some (Ok (f i))) →
  (∀ i j, 0 <= i <= j → j < n → f i <= f j) →
  0 <= lo → lo <= hi + 1 → hi < n →
  (∀ i, 0 <= i < lo → f i <= target) → (∀ i, hi < i < n → target < f i) →
  hi - lo + 1 < Z.of_nat fuel →
  ∃ r, search_loop first fuel target lo hi (if Z.eqb lo 0 then None else Some (lo - 1)) = Some r ∧
       is_floor f n target r.
Proof.
  intros Hfirst Hmono. revert lo hi; induction fuel as [|fuel IH];
    intros lo hi Hlo Hle Hhi Hlow Hhigh Hfuel; [lia|]. cbn [search_loop].
  destruct (Z.leb_spec lo hi) as [Hc|Hc].
  - rewrite Z.shiftr_div_pow2 by lia. change (2 ^ 1) with 2.
    set (mid := (lo + hi) / 2).
    assert (lo <= mid <= hi) as Hmid by (subst mid; split;
      [apply Z.div_le_lower_bound; lia|apply Z.div_le_upper_bound; lia]).
    rewrite (Hfirst mid) by lia. destruct (Z.leb_spec (f mid) target) as [Hf|Hf].
    + replace (Some mid) with (if Z.eqb (mid + 1) 0 then None else Some (mid + 1 - 1)).
      2: { rewrite (proj2 (Z.eqb_neq _ _)) by lia. f_equal. lia. }
      apply IH; try lia; [|done]. intros i Hi. transitivity (f mid); [apply Hmono; lia|done].
    + apply IH; try lia; [done|]. intros i Hi.
      eapply Z.lt_le_trans; [exact Hf|]. apply Hmono; lia.
  - eexists. split; [done|]. destruct (Z.eqb_spec lo 0) as [->|Hne].
    + intros j Hj. apply Hhigh. lia.
    + split_and!; [lia|lia|apply Hlow; lia|]. intros j Hj. apply Hhigh. lia.
Qed.

(** C36: write/read round trip.  The file left by [finish] after writing any pages
    opens, reports their number, and returns each page unchanged at its index;
    the reported size is the file's length and any other index is [NotFound]. *)
Theorem sstable_roundtrip (ps : list Page) (i : nat) (Hwf : Forall page_wf ps) (Hfit : fits ps) :
  fst (finish (write_pages ps create)) = mmap_len (sstable_bytes ps) ∧
  ∃ r, open (sstable_bytes ps) = Some (Ok r) ∧ r_page_count r = Z.of_nat (length ps) ∧
       read_page (Z.of_nat i) r =
         match ps !! i with Some p => Some (Ok p) | None => Some (Err ENotFound) end.
Proof.
  split.
  { destruct (write_pages_spec ps create) as (_ & H2 & _); [done|].
    unfold finish. rewrite H2, length_sstable by done. cbn [fst create page_count].
    rewrite PAGE_SIZE_Z. change HEADER_SIZE_BYTES with 16. change FOOTER_SIZE_BYTES with 24. lia. }
  eexists. split; [by apply open_written|]. split; [done|].
  destruct (ps !! i) as [p|] eqn:Hi; [by apply read_page_written|].
  apply lookup_ge_None in Hi. unfold read_page. cbn [r_page_count].
  by rewrite (proj2 (Z.leb_le _ _)) by lia.
Qed.

Lemma one_page_fits : fits [page_new].
Proof. unfold fits. simpl length. lia. Qed.

Lemma one_page_wf : Forall page_wf [page_new].
Proof. exact (Forall_cons_2 _ _ _ page_new_wf (Forall_nil_2 _)). Qed.

Lemma sstable_roundtrip_witness :
  ∃ r, open (sstable_bytes [page_new]) = Some (Ok r) ∧
       r_page_count r = Z.of_nat (length [page_new]) ∧
       read_page (Z.of_nat 0) r =
         match [page_new] !! 0%nat with Some p => Some (Ok p) | None => Some (Err ENotFound) end.
Proof.
  exact (proj2 (sstable_roundtrip [page_new] 0 one_page_wf one_page_fits)).
Defined.

(** on the file of pages sorted by their first cell, [binary_search] returns
    the last page whose first cell does not exceed the key, and [None] exactly
    when the key precedes every page; the loop terminates without a panic. *)
Theorem binary_search_floor (ps : list Page) (f : Z → Z) (key : Z)
    (Hwf : Forall page_wf ps) (Hfit : fits ps)
    (Hkeys : ∀ i p, ps !! i = Some p → get_cell 0 p = Some (f (Z.of_nat i)))
    (Hsorted : ∀ i j, 0 <= i <= j → j < Z.of_nat (length ps) → f i <= f j) :
  ∃ r res, open (sstable_bytes ps) = Some (Ok r) ∧
           binary_search key r = Some res ∧ is_floor f (Z.of_nat (length ps)) key res.
Proof.
  set (r := mkReader (sstable_bytes ps) (Z.of_nat (length ps)) (16 + Z.of_nat (length ps) * 4096)).
  exists r. rewrite open_written by done.
  assert (∀ i, 0 <= i < Z.of_nat (length ps) →
    first_cell i r = Some (Ok (f i))) as Hfirst.
  { intros i Hi. destruct (lookup_lt_is_Some_2 ps (Z.to_nat i)) as [p Hp]; [lia|].
    pose proof (Hkeys _ _ Hp) as Hc. rewrite Z2Nat.id in Hc by lia.
    pose proof (first_cell_written ps Hwf Hfit (Z.to_nat i) p _ Hp Hc) as H.
    by rewrite Z2Nat.id in H by lia. }
  unfold binary_search. change (r_page_count r) with (Z.of_nat (length ps)).
  destruct (Z.eqb_spec (Z.of_nat (length ps)) 0) as [H0|H0].
  - exists None. split; [done|]. split; [done|]. intros j Hj. lia.
  - destruct (search_loop_floor (λ i, first_cell i r) f (Z.of_nat (length ps)) key
      (S (Z.to_nat (Z.of_nat (length ps)))) 0 (Z.of_nat (length ps) - 1))
      as (res & H1 & H2); [done|done|lia..|].
    exists res. split_and!; done.
Qed.

Lemma binary_search_floor_witness :
  ∃ r res, open (sstable_bytes [page_new]) = Some (Ok r) ∧
           binary_search 3 r = Some res ∧
           is_floor (λ _, 0) (Z.of_nat (length [page_new])) 3 res.
Proof.
  apply (binary_search_floor [page_new] (λ _, 0) 3 one_page_wf one_page_fits).
  - intros [|i] p Hp; [|discriminate Hp]. apply (inj Some) in Hp as <-. vm_compute. reflexivity.
  - intros. apply Z.le_refl.
Defined.

(** the range check of [open] is computed modulo 2^64: a footer whose index
    lies far outside the file is accepted instead of being reported as
    [Corruption], and reading the first page then leaves the mapping and
    panics. *)
Theorem open_accepts_wrapped_index :
  let file := SSTABLE_MAGIC ++ le_bytes 8 1 ++
              SSTABLE_MAGIC ++ le_bytes 8 1 ++ le_bytes 8 (2 ^ 64 - 8) in
  ∃ r, open file = Some (Ok r) ∧ mmap_len file < index_offset r ∧ read_page 0 r = None.
Proof.
  eexists. split; [vm_compute; reflexivity|]. split; vm_compute; reflexivity.
Qed.

End SsTableM.
