(* ===== verification/BufferPool.v ===== *)
(** * The buffer pool (src/src/storage/buffer_pool.rs)

    A fixed array of frames over a directory of table files.  The directory is a
    map from table ids to file contents; a table's file is created by its first
    access.  [rd_fail] and [wr_fail] say which pages the operating system refuses
    to read or write.  [buf_addr] is the address of the stack buffer a page is
    read into.  [HashMap] iteration follows [iter], a permutation of the map. *)

From Stdlib Require Import ZArith Lia.
From stdpp Require Import prelude gmap list numbers.
From S2P Require Import Prelude Page.
Local Open Scope Z_scope.

Module BufferPoolM.
Import PageM.

Record PageId := mkPid { table_id : Z; page_num : Z }.

#[global] Instance PageId_eq_dec : EqDecision PageId.
Proof. solve_decision. Defined.
#[global] Instance PageId_countable : Countable PageId.
Proof.
  refine (inj_countable' (λ p, (table_id p, page_num p)) (λ p, mkPid p.1 p.2) _).
  by intros [].
Defined.

Record Frame := mkFrame {
  page : Page;
  pin_count : Z;
  dirty : bool;
  referenced : bool;
  page_id : option PageId
}.

Record BufferPool := mkPool {
  disk : gmap Z (list Z);
  frames : list Frame;
  page_table : gmap PageId nat;
  clock_hand : nat;
  files : gset Z;
  next_page_num : gmap Z Z
}.

Definition set_disk d bp := mkPool d (frames bp) (page_table bp) (clock_hand bp) (files bp) (next_page_num bp).
Definition set_frames f bp := mkPool (disk bp) f (page_table bp) (clock_hand bp) (files bp) (next_page_num bp).
Definition set_table t bp := mkPool (disk bp) (frames bp) t (clock_hand bp) (files bp) (next_page_num bp).
Definition set_hand h bp := mkPool (disk bp) (frames bp) (page_table bp) h (files bp) (next_page_num bp).
Definition set_files f bp := mkPool (disk bp) (frames bp) (page_table bp) (clock_hand bp) f (next_page_num bp).
Definition set_next n bp := mkPool (disk bp) (frames bp) (page_table bp) (clock_hand bp) (files bp) n.

Definition empty_frame : Frame := mkFrame page_new 0 false false None.

(** [BufferPool::new] over an existing data directory. *)
Definition pool_new (data_dir : gmap Z (list Z)) (capacity : nat) : BufferPool :=
  mkPool data_dir (replicate capacity empty_frame) ∅ 0 ∅ ∅.

Abbreviation poolM := (stP BufferPool Error).

(** Opening with [create(true)] brings a missing file into existence. *)
Definition get_file (tid : Z) : poolM () :=
  stP_modify (λ bp,
    let d := match disk bp !! tid with Some _ => disk bp | None => <[tid := []]> (disk bp) end in
    set_disk d (set_files ({[tid]} ∪ files bp) bp)).

(** Writing [bytes] at [off]: a gap beyond the end of the file is zero-filled. *)
Definition write_at (off : nat) (bytes f : list Z) : list Z :=
  take off (f ++ replicate (off - length f) 0) ++ bytes ++ drop (off + length bytes) f.

Definition file_of (d : gmap Z (list Z)) (tid : Z) : list Z := default [] (d !! tid).

Definition page_off (pid : PageId) : nat := Z.to_nat (page_num pid) * PAGE_SIZE.

Section pool.
Context (rd_fail wr_fail : PageId → bool) (buf_addr : Z).
Context (iter : gmap PageId nat → list (PageId * nat)).

Definition read_page_from_disk (pid : PageId) : poolM Page :=
  get_file (table_id pid);;
  bp ← stP_get;
  if rd_fail pid then stP_throw EIo
  else
    let f := file_of (disk bp) (table_id pid) in
    if bool_decide (page_off pid + PAGE_SIZE <= length f)%nat then
      match from_bytes buf_addr (slice (page_off pid) PAGE_SIZE f) with
      | None => stP_panic
      | Some (Ok p) => mret p
      | Some (Err _) => stP_throw EIo
      end
    else mret page_new.

Definition write_page_to_disk (pid : PageId) (p : Page) : poolM () :=
  get_file (table_id pid);;
  if wr_fail pid then stP_throw EIo
  else
    stP_modify (λ bp,
      let f := file_of (disk bp) (table_id pid) in
      set_disk (<[table_id pid := write_at (page_off pid) (to_bytes p) f]> (disk bp)) bp).

Definition set_referenced b fr := mkFrame (page fr) (pin_count fr) (dirty fr) b (page_id fr).
Definition set_dirty b fr := mkFrame (page fr) (pin_count fr) b (referenced fr) (page_id fr).
Definition set_pin n fr := mkFrame (page fr) n (dirty fr) (referenced fr) (page_id fr).
Definition set_page p fr := mkFrame p (pin_count fr) (dirty fr) (referenced fr) (page_id fr).

(** [for _ in 0..k] of the clock; [None] is the final [panic!]. *)
Fixpoint victim_loop (k : nat) (bp : BufferPool) : option (nat * BufferPool) :=
  match k with
  | O => None
  | S k =>
      let n := length (frames bp) in
      let idx := clock_hand bp in
      let bp := set_hand ((clock_hand bp + 1) mod n)%nat bp in
      fr ← frames bp !! idx;
      if Z.eqb (pin_count fr) 0 then
        if referenced fr
        then victim_loop k (set_frames (<[idx := set_referenced false fr]> (frames bp)) bp)
        else Some (idx, bp)
      else victim_loop k bp
  end.

Definition find_victim : poolM nat := λ bp,
  match victim_loop (2 * length (frames bp)) bp with
  | Some (idx, bp') => Some (Ok idx, bp')
  | None => None
  end.

(** [self.frames[idx]] and its update; an index out of range panics. *)
Definition get_frame (idx : nat) : poolM Frame := λ bp, (λ fr, (Ok fr, bp)) <$> frames bp !! idx.
Definition upd_frame (idx : nat) (g : Frame → Frame) : poolM () :=
  stP_modify (λ bp, set_frames (alter g idx (frames bp)) bp).

Definition fetch_page (pid : PageId) : poolM nat :=
  bp ← stP_get;
  match page_table bp !! pid with
  | Some idx =>
      fr ← get_frame idx;
      upd_frame idx (λ fr, set_referenced true (set_pin (wrap_u 32 (pin_count fr + 1)) fr));;
      mret idx
  | None =>
      idx ← find_victim;
      victim ← get_frame idx;
      (if dirty victim then
         match page_id victim with
         | Some vpid => write_page_to_disk vpid (page victim)
         | None => mret tt
         end
       else mret tt);;
      (match page_id victim with
       | Some vpid => stP_modify (λ bp, set_table (delete vpid (page_table bp)) bp)
       | None => mret tt
       end);;
      p ← read_page_from_disk pid;
      upd_frame idx (λ _, mkFrame p 1 false true (Some pid));;
      stP_modify (λ bp, set_table (<[pid := idx]> (page_table bp)) bp);;
      mret idx
  end.

Definition new_page (tid : Z) : poolM PageId :=
  bp ← stP_get;
  let pn := default 0 (next_page_num bp !! tid) in
  let pid := mkPid tid pn in
  stP_modify (set_next (<[tid := wrap_u 32 (pn + 1)]> (next_page_num bp)));;
  idx ← fetch_page pid;
  upd_frame idx (set_dirty true);;
  mret pid.

Definition unpin_page (pid : PageId) (d : bool) : poolM () :=
  bp ← stP_get;
  match page_table bp !! pid with
  | None => mret tt
  | Some idx =>
      fr ← get_frame idx;
      upd_frame idx (λ fr,
        let fr := if Z.ltb 0 (pin_count fr) then set_pin (pin_count fr - 1) fr else fr in
        if d then set_dirty true fr else fr)
  end.

Definition get_page (idx : nat) : poolM Page := fr ← get_frame idx; mret (page fr).

(** The page written through the reference [get_page_mut] returns. *)
Definition get_page_mut (idx : nat) (p : Page) : poolM () :=
  fr ← get_frame idx; upd_frame idx (set_page p).

Fixpoint flush_loop (sel : PageId → bool) (l : list (PageId * nat)) : poolM () :=
  match l with
  | [] => mret tt
  | (pid, idx) :: l =>
      (if sel pid then
         fr ← get_frame idx;
         if dirty fr then
           write_page_to_disk pid (page fr);; upd_frame idx (set_dirty false)
         else mret tt
       else mret tt);;
      flush_loop sel l
  end.

Definition flush_table (tid : Z) : poolM () :=
  bp ← stP_get; flush_loop (λ pid, bool_decide (table_id pid = tid)) (iter (page_table bp)).

Definition flush_all : poolM () :=
  bp ← stP_get; flush_loop (λ _, true) (iter (page_table bp)).

Definition page_count (tid : Z) (bp : BufferPool) : Z :=
  match disk bp !! tid with
  | Some f => wrap_u 32 (Z.of_nat (length f) / Z.of_nat PAGE_SIZE)
  | None => 0
  end.

End pool.

(** ** Pages on disk *)

Definition decode_page (b : list Z) : Page :=
  mkPage (header_of_bytes (take HEADER_SIZE b)) (slice HEADER_SIZE (PAGE_SIZE - HEADER_SIZE) b).

(** The bytes of page [k] of a file, zero where the file has ended. *)
Definition page_bytes (f : list Z) (k : nat) : list Z :=
  (λ i, default 0 (f !! i)) <$> seq (k * PAGE_SIZE) PAGE_SIZE.

Definition disk_page (d : gmap Z (list Z)) (pid : PageId) : Page :=
  decode_page (page_bytes (file_of d (table_id pid)) (Z.to_nat (page_num pid))).

Definition file_wf (f : list Z) : Prop := bytes_ok f ∧ ∃ k, length f = (k * PAGE_SIZE)%nat.
Definition disk_wf (d : gmap Z (list Z)) : Prop := ∀ tid, file_wf (file_of d tid).
Definition pid_wf (pid : PageId) : Prop := in_u 32 (page_num pid).

Lemma length_page_bytes f k : length (page_bytes f k) = PAGE_SIZE.
Proof. unfold page_bytes. by rewrite length_fmap, length_seq. Qed.

Lemma lookup_page_bytes f k i :
  (i < PAGE_SIZE)%nat → page_bytes f k !! i = Some (default 0 (f !! (k * PAGE_SIZE + i)%nat)).
Proof. intros Hi. unfold page_bytes. by rewrite list_lookup_fmap, lookup_seq_lt. Qed.

Lemma page_bytes_ext f f' k :
  (∀ i, (i < PAGE_SIZE)%nat →
     default 0 (f !! (k * PAGE_SIZE + i)%nat) = default 0 (f' !! (k * PAGE_SIZE + i)%nat)) →
  page_bytes f k = page_bytes f' k.
Proof.
  intros H. apply list_eq. intros i. destruct (decide (i < PAGE_SIZE)%nat) as [Hi|Hi].
  - rewrite !lookup_page_bytes by done. f_equal. by apply H.
  - rewrite !lookup_ge_None_2 by (rewrite length_page_bytes; lia). done.
Qed.

Lemma page_bytes_slice f k :
  (k * PAGE_SIZE + PAGE_SIZE <= length f)%nat → page_bytes f k = slice (k * PAGE_SIZE) PAGE_SIZE f.
Proof.
  intros H. apply list_eq. intros i. unfold slice. destruct (decide (i < PAGE_SIZE)%nat) as [Hi|Hi].
  - rewrite lookup_page_bytes, lookup_take_lt, lookup_drop by done.
    destruct (f !! (k * PAGE_SIZE + i)%nat) eqn:E; [done|]. apply lookup_ge_None in E. lia.
  - rewrite lookup_ge_None_2 by (rewrite length_page_bytes; lia). by rewrite lookup_take_ge by lia.
Qed.

Lemma page_bytes_eof f k :
  (length f <= k * PAGE_SIZE)%nat → page_bytes f k = replicate PAGE_SIZE 0.
Proof.
  intros H. apply list_eq. intros i. destruct (decide (i < PAGE_SIZE)%nat) as [Hi|Hi].
  - rewrite lookup_page_bytes, lookup_replicate_2 by done. by rewrite lookup_ge_None_2 by lia.
  - by rewrite !lookup_ge_None_2 by (rewrite ?length_page_bytes, ?length_replicate; lia).
Qed.

Lemma decode_zeros : decode_page (replicate PAGE_SIZE 0) = page_new.
Proof. vm_compute. reflexivity. Qed.

Lemma decode_to_bytes p : page_wf p → decode_page (to_bytes p) = p.
Proof.
  intros Hp. pose proof (from_to_bytes 0 p Hp eq_refl) as H. unfold from_bytes in H.
  rewrite bool_decide_false in H by (rewrite length_to_bytes by done; lia).
  change (negb (0 mod 8 =? 0)) with false in H. by apply (inj Some) in H; injection H.
Qed.

Lemma header_of_bytes_wf b : bytes_ok b → header_wf (header_of_bytes b).
Proof.
  intros Hb. assert (∀ i, in_u 64 (le_decode (slice (8 * i) 8 b))) as H.
  { intros i. pose proof (le_decode_range _ (bytes_ok_slice (8 * i) 8 b Hb)) as [H1 H2].
    split; [done|]. eapply Z.lt_le_trans; [exact H2|]. change (2 ^ 64) with (256 ^ Z.of_nat 8).
    apply Z.pow_le_mono_r; [lia|]. unfold slice. len. }
  unfold header_wf, header_of_bytes.
  cbn [page_type tier_hint homogeneity row_count checksum predecessor successor parity].
  do 7 (split; [apply H|]). apply H.
Qed.

Lemma decode_page_wf b : bytes_ok b → length b = PAGE_SIZE → page_wf (decode_page b).
Proof.
  intros Hb Hl. unfold decode_page. split; cbn [header cells].
  - apply header_of_bytes_wf. by apply Forall_take.
  - apply length_slice. rewrite Hl. vm_compute. lia.
  - by apply bytes_ok_slice.
Qed.

Lemma page_bytes_ok f k : bytes_ok f → bytes_ok (page_bytes f k).
Proof.
  intros Hf. apply Forall_fmap, Forall_true. intros i. simpl.
  destruct (f !! i) eqn:E; [|done]. by eapply Forall_lookup_1.
Qed.

Lemma disk_page_wf d pid : disk_wf d → page_wf (disk_page d pid).
Proof.
  intros Hd. apply decode_page_wf; [|apply length_page_bytes]. apply page_bytes_ok, Hd.
Qed.

Lemma length_write_at off b f :
  length (write_at off b f) = (Nat.max (length f) (off + length b))%nat.
Proof. unfold write_at. len. Qed.

Lemma lookup_write_at off b f i :
  write_at off b f !! i =
  if decide (i < off)%nat then Some (default 0 (f !! i))
  else if decide (i < off + length b)%nat then b !! (i - off)%nat else f !! i.
Proof.
  unfold write_at. case_decide as H1.
  - rewrite lookup_app_l by len. rewrite lookup_take_lt by done.
    destruct (f !! i) eqn:E.
    + by rewrite lookup_app_l by (by eapply lookup_lt_Some).
    + apply lookup_ge_None in E. rewrite lookup_app_r by done.
      rewrite lookup_replicate_2 by lia. done.
  - rewrite lookup_app_r by len.
    replace (length (take off (f ++ replicate (off - length f) 0))) with off by len.
    case_decide as H2; [by rewrite lookup_app_l by lia|].
    rewrite lookup_app_r, lookup_drop by lia. f_equal. lia.
Qed.

Lemma write_at_wf k b f :
  file_wf f → bytes_ok b → length b = PAGE_SIZE → file_wf (write_at (k * PAGE_SIZE) b f).
Proof.
  intros [Hf [m Hm]] Hb Hl. split.
  - unfold write_at. apply Forall_app; split.
    { apply Forall_take, Forall_app. split; [done|by apply bytes_ok_replicate]. }
    apply Forall_app; split; [done|by apply Forall_drop].
  - exists (Nat.max m (k + 1)). rewrite length_write_at, Hl, Hm.
    by rewrite <- Nat.mul_max_distr_r, Nat.mul_add_distr_r, Nat.mul_1_l.
Qed.

(** Writing one page changes that page and no other. *)
Lemma page_bytes_write k k' b f :
  length b = PAGE_SIZE →
  page_bytes (write_at (k * PAGE_SIZE) b f) k' =
  if decide (k' = k) then b else page_bytes f k'.
Proof.
  intros Hl. case_decide as Hk.
  - subst k'. apply list_eq. intros i. destruct (decide (i < PAGE_SIZE)%nat) as [Hi|Hi].
    + rewrite lookup_page_bytes, lookup_write_at by done.
      rewrite decide_False, decide_True by lia.
      replace (k * PAGE_SIZE + i - k * PAGE_SIZE)%nat with i by lia.
      destruct (b !! i) eqn:E; [done|]. apply lookup_ge_None in E. lia.
    + by rewrite !lookup_ge_None_2 by (rewrite ?length_page_bytes; lia).
  - apply page_bytes_ext. intros i Hi. rewrite lookup_write_at, Hl. case_decide; [done|].
    rewrite decide_False; [done|]. intros Hc. apply Hk. nia.
Qed.

Lemma file_of_insert d tid f tid' :
  file_of (<[tid := f]> d) tid' = if decide (tid' = tid) then f else file_of d tid'.
Proof. unfold file_of. rewrite lookup_insert. repeat case_decide; naive_solver. Qed.

Lemma disk_page_insert d pid p pid' :
  page_wf p → pid_wf pid → pid_wf pid' →
  disk_page (<[table_id pid := write_at (page_off pid) (to_bytes p) (file_of d (table_id pid))]> d) pid' =
  if decide (pid' = pid) then p else disk_page d pid'.
Proof.
  intros Hp H1 H2. unfold disk_page, page_off. rewrite file_of_insert.
  pose proof (length_to_bytes p Hp) as Hl. case_decide as Ht.
  - rewrite page_bytes_write by done. destruct (decide (pid' = pid)) as [->|Hne].
    + rewrite decide_True by done. by apply decode_to_bytes.
    + rewrite decide_False; [by rewrite Ht|]. intros Hn. apply Hne.
      destruct pid, pid'; unfold pid_wf, in_u in *; simpl in *. f_equal; [done|lia].
  - rewrite decide_False; [done|]. by intros ->.
Qed.

(** ** The clock *)

(** [f'] is [f] except possibly for its reference bit. *)
Definition frame_sim (f f' : Frame) : Prop :=
  page f' = page f ∧ pin_count f' = pin_count f ∧ dirty f' = dirty f ∧ page_id f' = page_id f.

#[global] Instance frame_sim_refl : Reflexive frame_sim.
Proof. by intros f. Qed.
#[global] Instance frame_sim_trans : Transitive frame_sim.
Proof. intros f g h (?&?&?&?) (?&?&?&?). repeat split; congruence. Qed.

(** What a turn of the clock leaves alone. *)
Record clock_rel (bp bp' : BufferPool) : Prop := {
  cr_disk : disk bp' = disk bp;
  cr_table : page_table bp' = page_table bp;
  cr_next : next_page_num bp' = next_page_num bp;
  cr_frames : Forall2 frame_sim (frames bp) (frames bp');
  cr_hand : (clock_hand bp' < length (frames bp'))%nat
}.

Lemma clock_rel_trans bp1 bp2 bp3 : clock_rel bp1 bp2 → clock_rel bp2 bp3 → clock_rel bp1 bp3.
Proof.
  intros [????] [????]. split; [congruence|congruence|congruence|by etrans|done].
Qed.

Lemma clock_rel_step bp idx fr :
  frames bp !! idx = Some fr → (idx < length (frames bp))%nat →
  clock_rel bp (set_hand ((clock_hand bp + 1) mod length (frames bp)) bp) ∧
  clock_rel bp (set_frames (<[idx := set_referenced false fr]> (frames bp))
                  (set_hand ((clock_hand bp + 1) mod length (frames bp)) bp)).
Proof.
  intros Hfr Hlt. split; (split; [done|done|done|simpl|simpl]).
  - done.
  - apply Nat.mod_upper_bound. lia.
  - rewrite <- (list_insert_id (frames bp) idx fr Hfr) at 1. apply Forall2_insert; [reflexivity|by repeat split].
  - rewrite length_insert. apply Nat.mod_upper_bound. lia.
Qed.

Lemma victim_loop_sound k bp idx bp' :
  (clock_hand bp < length (frames bp))%nat → victim_loop k bp = Some (idx, bp') →
  clock_rel bp bp' ∧ ∃ fr, frames bp' !! idx = Some fr ∧ pin_count fr = 0 ∧ referenced fr = false.
Proof.
  revert bp; induction k as [|k IH]; intros bp Hh; [done|]. cbn [victim_loop].
  intros (fr & Hfr & H)%bind_Some. simpl in Hfr.
  pose proof (clock_rel_step bp _ fr Hfr Hh) as [C1 C2].
  destruct (Z.eqb_spec (pin_count fr) 0) as [Hp|Hp].
  - destruct (referenced fr) eqn:Hr.
    + apply IH in H as [C H]; [|apply C2]. split; [exact (clock_rel_trans _ _ _ C2 C)|done].
    + injection H as <- <-. split; [done|]. eauto.
  - apply IH in H as [C H]; [|apply C1]. split; [exact (clock_rel_trans _ _ _ C1 C)|done].
Qed.

Definition clock_dist (h u n : nat) : nat := if decide (h <= u)%nat then (u - h)%nat else (u + n - h)%nat.

Lemma clock_dist_step h u n :
  (h < n)%nat → (u < n)%nat →
  clock_dist ((h + 1) mod n) u n = if decide (h = u) then (n - 1)%nat else (clock_dist h u n - 1)%nat.
Proof.
  intros Hh Hu. unfold clock_dist. destruct (decide (h + 1 = n)%nat) as [E|E].
  - rewrite E, Nat.Div0.mod_same. repeat case_decide; lia.
  - rewrite Nat.mod_small by lia. repeat case_decide; lia.
Qed.

(** Two turns always reach an unpinned frame: the first clears its reference bit. *)
Lemma victim_loop_complete k bp u fr :
  (clock_hand bp < length (frames bp))%nat → frames bp !! u = Some fr → pin_count fr = 0 →
  (clock_dist (clock_hand bp) u (length (frames bp)) +
     (if referenced fr then length (frames bp) else 0) < k)%nat →
  is_Some (victim_loop k bp).
Proof.
  revert bp fr; induction k as [|k IH]; intros bp fr Hh Hu Hp Hk; [lia|]. cbn [victim_loop].
  set (n := length (frames bp)) in *. pose proof (lookup_lt_Some _ _ _ Hu) as Hul.
  destruct (lookup_lt_is_Some_2 (frames bp) (clock_hand bp) Hh) as [fh Hfh].
  simpl. rewrite Hfh. simpl. pose proof (clock_dist_step (clock_hand bp) u n Hh Hul) as Hd.
  assert ((clock_hand bp + 1) mod n < n)%nat as Hh' by (apply Nat.mod_upper_bound; lia).
  destruct (decide (clock_hand bp = u)) as [Heq|Hne].
  - rewrite Heq in Hfh. rewrite Hfh in Hu. injection Hu as ->. rewrite Hp. simpl.
    destruct (referenced fr) eqn:Hr; [|eauto].
    eapply (IH _ (set_referenced false fr)); simpl.
    + by rewrite length_insert.
    + rewrite Heq. by apply list_lookup_insert_eq.
    + done.
    + rewrite length_insert. fold n. lia.
  - assert (clock_dist (clock_hand bp) u n ≠ 0)%nat by (unfold clock_dist; case_decide; lia).
    destruct (Z.eqb (pin_count fh) 0); [destruct (referenced fh); [|eauto]|].
    + eapply (IH _ fr); simpl.
      * by rewrite length_insert.
      * by rewrite list_lookup_insert_ne.
      * done.
      * rewrite length_insert. fold n. lia.
    + eapply (IH _ fr); simpl; fold n; [done|done|done|lia].
Qed.

Lemma find_victim_some bp u fr :
  (clock_hand bp < length (frames bp))%nat → frames bp !! u = Some fr → pin_count fr = 0 →
  ∃ idx bp' fv, find_victim bp = Some (Ok idx, bp') ∧ clock_rel bp bp' ∧
    frames bp' !! idx = Some fv ∧ pin_count fv = 0.
Proof.
  intros Hh Hu Hp. unfold find_victim.
  destruct (victim_loop_complete (2 * length (frames bp)) bp u fr Hh Hu Hp) as [[idx bp'] E].
  { pose proof (lookup_lt_Some _ _ _ Hu). unfold clock_dist.
    case_decide; destruct (referenced fr); lia. }
  rewrite E. apply victim_loop_sound in E as (C & fv & H1 & H2 & _); [|done]. eauto 10.
Qed.

Lemma victim_loop_all_pinned k bp :
  (clock_hand bp < length (frames bp))%nat → Forall (λ fr, pin_count fr ≠ 0) (frames bp) →
  victim_loop k bp = None.
Proof.
  intros Hh Hall. revert bp Hh Hall; induction k as [|k IH]; intros bp Hh Hall; [done|].
  cbn [victim_loop].
  destruct (lookup_lt_is_Some_2 (frames bp) (clock_hand bp) Hh) as [fh Hfh].
  simpl. rewrite Hfh. simpl. rewrite (proj2 (Z.eqb_neq _ _)).
  - apply IH; [simpl; apply Nat.mod_upper_bound; lia|done].
  - rewrite Forall_lookup in Hall. by eapply Hall.
Qed.

(** C38: the clock algorithm always terminates with a decision: within its two
    turns [find_victim] returns an unpinned frame exactly when one exists, and
    otherwise reaches the documented panic; pages, pin counts and dirty flags are
    untouched. *)
Theorem find_victim_complete (bp : BufferPool)
    (Hh : (clock_hand bp < length (frames bp))%nat) :
  (Exists (λ fr, pin_count fr = 0) (frames bp) →
   ∃ idx bp' fv, find_victim bp = Some (Ok idx, bp') ∧ clock_rel bp bp' ∧
     frames bp' !! idx = Some fv ∧ pin_count fv = 0) ∧
  (Forall (λ fr, pin_count fr ≠ 0) (frames bp) → find_victim bp = None).
Proof.
  split.
  - intros (fr & Hin & Hp)%Exists_exists.
    apply list_elem_of_In, list_elem_of_lookup in Hin as [u Hu]. by eapply find_victim_some.
  - intros Hall. unfold find_victim. by rewrite victim_loop_all_pinned.
Qed.

Lemma find_victim_complete_witness :
  ∃ idx bp' fv, find_victim (pool_new ∅ 3) = Some (Ok idx, bp') ∧ clock_rel (pool_new ∅ 3) bp' ∧
     frames bp' !! idx = Some fv ∧ pin_count fv = 0.
Proof.
  apply (find_victim_complete (pool_new ∅ 3)); [simpl; lia|]. by left.
Defined.

(** ** The pool as a cache of the directory *)

(** What a reader of page [pid] gets: the resident copy, or the one on disk. *)
Definition view (bp : BufferPool) (pid : PageId) : Page :=
  match page_table bp !! pid with
  | Some idx => match frames bp !! idx with Some fr => page fr | None => page_new end
  | None => disk_page (disk bp) pid
  end.

(** The frame-level part of the invariant, against the page table and the disk. *)
Record frame_wf (d : gmap Z (list Z)) (fr : Frame) : Prop := {
  fw_page : page_wf (page fr);
  fw_pin : in_u 32 (pin_count fr);
  fw_pid : ∀ pid, page_id fr = Some pid → pid_wf pid;
  (** an evictable clean frame holds what the disk holds *)
  fw_clean : ∀ pid, page_id fr = Some pid → dirty fr = false → pin_count fr = 0 →
             page fr = disk_page d pid
}.

Record pool_wf (bp : BufferPool) : Prop := {
  pw_disk : disk_wf (disk bp);
  pw_hand : (0 < length (frames bp))%nat → (clock_hand bp < length (frames bp))%nat;
  pw_table : ∀ pid idx, page_table bp !! pid = Some idx ↔
             ∃ fr, frames bp !! idx = Some fr ∧ page_id fr = Some pid;
  pw_frames : Forall (frame_wf (disk bp)) (frames bp)
}.

Lemma disk_wf_insert d tid f : disk_wf d → file_wf f → disk_wf (<[tid := f]> d).
Proof. intros Hd Hf t. rewrite file_of_insert. case_decide; [done|apply Hd]. Qed.

Lemma file_of_create d tid tid' :
  file_of (match d !! tid with Some _ => d | None => <[tid := []]> d end) tid' = file_of d tid'.
Proof.
  destruct (d !! tid) eqn:E; [done|]. rewrite file_of_insert. case_decide as H; [|done].
  subst. unfold file_of. by rewrite E.
Qed.

(** Two pools that differ only in the directory and the open handles. *)
Definition same_core (bp bp' : BufferPool) : Prop :=
  frames bp' = frames bp ∧ page_table bp' = page_table bp ∧
  clock_hand bp' = clock_hand bp ∧ next_page_num bp' = next_page_num bp.

Section no_fault.
Context (buf_addr : Z) (Halign : buf_addr mod 8 = 0).
Abbreviation nofail := (λ _ : PageId, false).

Lemma read_page_ok pid bp :
  disk_wf (disk bp) →
  ∃ bp', read_page_from_disk nofail buf_addr pid bp = Some (Ok (disk_page (disk bp) pid), bp') ∧
         same_core bp bp' ∧ ∀ tid, file_of (disk bp') tid = file_of (disk bp) tid.
Proof.
  intros Hd. unfold read_page_from_disk, mbind, stP_bind, get_file, stP_modify, stP_get. simpl.
  rewrite file_of_create. destruct (Hd (table_id pid)) as [Hb [k Hk]].
  set (f := file_of (disk bp) (table_id pid)) in *. unfold disk_page. fold f.
  match goal with |- context [(if bool_decide _ then _ else _) ?s] => set (s' := s) end.
  exists s'. split; [|split; [by repeat split|intros tid; apply file_of_create]].
  unfold page_off. case_bool_decide as Hl.
  - rewrite <- page_bytes_slice by done. unfold from_bytes.
    rewrite bool_decide_false by (rewrite length_page_bytes; lia). rewrite Halign. simpl. done.
  - rewrite page_bytes_eof, decode_zeros; [done|].
    rewrite Hk in *. apply Nat.mul_le_mono_r. nia.
Qed.

Lemma write_page_ok pid p bp :
  disk_wf (disk bp) → page_wf p → pid_wf pid →
  ∃ bp', write_page_to_disk nofail pid p bp = Some (Ok tt, bp') ∧ same_core bp bp' ∧
         disk_wf (disk bp') ∧
         ∀ pid', pid_wf pid' →
           disk_page (disk bp') pid' = if decide (pid' = pid) then p else disk_page (disk bp) pid'.
Proof.
  intros Hd Hp Hpid. unfold write_page_to_disk, mbind, stP_bind, get_file, stP_modify. simpl.
  set (d := match disk bp !! table_id pid with Some _ => _ | None => _ end).
  assert (∀ t, file_of d t = file_of (disk bp) t) as Hf by (intros t; apply file_of_create).
  eexists. split; [reflexivity|]. split; [by repeat split|]. simpl. split.
  - apply disk_wf_insert; [intros t; rewrite Hf; apply Hd|]. apply write_at_wf.
    + rewrite Hf. apply Hd.
    + by apply to_bytes_ok.
    + by apply length_to_bytes.
  - intros pid' Hpid'. rewrite disk_page_insert by done. unfold disk_page. by rewrite Hf.
Qed.

Lemma disk_page_file_eq d d' pid :
  (∀ tid, file_of d' tid = file_of d tid) → disk_page d' pid = disk_page d pid.
Proof. intros H. unfold disk_page. by rewrite H. Qed.

End no_fault.

Lemma pool_wf_unique bp idx idx' fr fr' pid :
  pool_wf bp → frames bp !! idx = Some fr → frames bp !! idx' = Some fr' →
  page_id fr = Some pid → page_id fr' = Some pid → idx = idx'.
Proof.
  intros Hwf H1 H2 H3 H4.
  assert (page_table bp !! pid = Some idx) as E1 by (apply Hwf; eauto).
  assert (page_table bp !! pid = Some idx') as E2 by (apply Hwf; eauto). congruence.
Qed.

Lemma pool_wf_clock bp bp' : pool_wf bp → clock_rel bp bp' → pool_wf bp'.
Proof.
  intros [Hd Hh Ht Hf] [C1 C2 C3 C4 C5]. split.
  - by rewrite C1.
  - done.
  - intros pid idx. rewrite C2, Ht. split.
    + intros (fr & H1 & H2). destruct (Forall2_lookup_l _ _ _ _ _ C4 H1) as (fr' & H3 & H4).
      exists fr'. split; [done|]. destruct H4 as (_&_&_&->). done.
    + intros (fr' & H1 & H2). destruct (Forall2_lookup_r _ _ _ _ _ C4 H1) as (fr & H3 & H4).
      exists fr. split; [done|]. destruct H4 as (_&_&_&<-). done.
  - rewrite C1. rewrite Forall_lookup in Hf |- *. intros idx fr' H1.
    destruct (Forall2_lookup_r _ _ _ _ _ C4 H1) as (fr & H3 & (P1&P2&P3&P4)).
    destruct (Hf _ _ H3). split; rewrite ?P1, ?P2, ?P3, ?P4; done.
Qed.

Lemma view_clock bp bp' pid : clock_rel bp bp' → view bp' pid = view bp pid.
Proof.
  intros [C1 C2 C3 C4 C5]. unfold view. rewrite C2, C1.
  destruct (page_table bp !! pid) as [idx|]; [|done].
  destruct (frames bp !! idx) as [fr|] eqn:E.
  - destruct (Forall2_lookup_l _ _ _ _ _ C4 E) as (fr' & -> & (P&_)). done.
  - rewrite (lookup_ge_None_2 (frames bp')); [done|].
    rewrite <- (Forall2_length C4). by apply lookup_ge_None.
Qed.

(** Replacing an evictable frame by page [pid], once the victim is on disk. *)
Section install.
Context (bp bp' : BufferPool) (idx : nat) (fv : Frame) (pid : PageId).
Context (Hwf : pool_wf bp) (Hfv : frames bp !! idx = Some fv)
        (Hmiss : page_table bp !! pid = None) (Hpid : pid_wf pid).
Context (Hd : disk_wf (disk bp')).
Context (Hdisk : ∀ pid', pid_wf pid' →
  disk_page (disk bp') pid' =
  if decide (page_id fv = Some pid') then page fv else disk_page (disk bp) pid').
Context (Hhand : clock_hand bp' = clock_hand bp).
Context (Hframes : frames bp' =
  alter (λ _, mkFrame (disk_page (disk bp') pid) 1 false true (Some pid)) idx (frames bp)).
Context (Htable : page_table bp' =
  <[pid := idx]> (match page_id fv with
                  | Some v => delete v (page_table bp) | None => page_table bp end)).

Lemma install_lookup_table pid' :
  page_table bp' !! pid' =
  if decide (pid' = pid) then Some idx
  else if decide (page_id fv = Some pid') then None else page_table bp !! pid'.
Proof.
  rewrite Htable, lookup_insert. destruct (decide (pid' = pid)) as [->|Hne].
  - by rewrite decide_True.
  - rewrite decide_False by done. destruct (page_id fv) as [v|].
    + rewrite lookup_delete. repeat case_decide; naive_solver.
    + by rewrite decide_False.
Qed.

Lemma install_lookup_frame i :
  frames bp' !! i =
  if decide (i = idx) then Some (mkFrame (disk_page (disk bp') pid) 1 false true (Some pid))
  else frames bp !! i.
Proof.
  rewrite Hframes. case_decide as Hi.
  - subst i. by rewrite list_lookup_alter_eq, Hfv.
  - by rewrite list_lookup_alter_ne by done.
Qed.

Lemma install_other_frame i fr pid' :
  i ≠ idx → frames bp !! i = Some fr → page_id fr = Some pid' → page_id fv ≠ Some pid' ∧ pid' ≠ pid.
Proof.
  intros Hi Hfr Hp. split.
  - intros Hc. apply Hi. by eapply (pool_wf_unique bp).
  - intros ->. rewrite (proj2 (pw_table _ Hwf pid i)) in Hmiss; [done|eauto].
Qed.

Lemma install_wf : pool_wf bp'.
Proof.
  split; [done| | |].
  - rewrite Hframes, length_alter, Hhand. apply Hwf.
  - intros pid' i. rewrite install_lookup_table, install_lookup_frame.
    destruct (decide (i = idx)) as [->|Hi].
    + split.
      * destruct (decide (pid' = pid)) as [->|]; [eauto|]. case_decide as Hc; [done|].
        intros (fr & H1 & H2)%(pw_table _ Hwf). naive_solver.
      * intros (fr & [= <-] & [= ->]). by rewrite decide_True.
    + split.
      * destruct (decide (pid' = pid)) as [->|]; [congruence|]. case_decide; [done|]. apply Hwf.
      * intros (fr & H1 & H2). destruct (install_other_frame i fr pid' Hi H1 H2) as [H3 H4].
        rewrite decide_False, decide_False by done. apply Hwf. eauto.
  - apply Forall_lookup. intros i fr. rewrite install_lookup_frame.
    destruct (decide (i = idx)) as [->|Hi].
    + intros [= <-]. split; simpl; [by apply disk_page_wf|done|by intros ? [= <-]|done].
    + intros Hfr. pose proof (proj1 (Forall_lookup _ _) (pw_frames _ Hwf) i fr Hfr) as [F1 F2 F3 F4].
      split; [done|done|done|]. intros pid' H1 H2 H3.
      destruct (install_other_frame i fr pid' Hi Hfr H1) as [H4 _].
      rewrite Hdisk, decide_False by eauto. by apply F4.
Qed.

Lemma install_view pid' : pid_wf pid' → view bp' pid' = view bp pid'.
Proof.
  intros Hpid'. unfold view. rewrite install_lookup_table.
  destruct (decide (pid' = pid)) as [->|Hne].
  - rewrite install_lookup_frame, decide_True, Hmiss by done. cbn [page].
    rewrite Hdisk by done. rewrite decide_False; [done|].
    intros Hc. rewrite (proj2 (pw_table _ Hwf pid idx)) in Hmiss; [done|eauto].
  - destruct (decide (page_id fv = Some pid')) as [Hc|Hc].
    + rewrite Hdisk, decide_True by done.
      rewrite (proj2 (pw_table _ Hwf pid' idx)) by eauto. by rewrite Hfv.
    + destruct (page_table bp !! pid') as [i|] eqn:E.
      * rewrite install_lookup_frame. apply Hwf in E as (fr & H1 & H2).
        rewrite decide_False; [done|]. intros ->. naive_solver.
      * by rewrite Hdisk, decide_False.
Qed.
End install.

Section fetch.
Context (buf_addr : Z) (Halign : buf_addr mod 8 = 0).
Abbreviation nofail := (λ _ : PageId, false).
Abbreviation fetch := (fetch_page nofail nofail buf_addr).

Definition evict_write (fv : Frame) : poolM () :=
  if dirty fv then
    match page_id fv with
    | Some vpid => write_page_to_disk nofail vpid (page fv)
    | None => mret tt
    end
  else mret tt.

Lemma evict_write_ok bp idx fv :
  pool_wf bp → frames bp !! idx = Some fv → pin_count fv = 0 →
  ∃ bp2, evict_write fv bp = Some (Ok tt, bp2) ∧ same_core bp bp2 ∧ disk_wf (disk bp2) ∧
    ∀ pid', pid_wf pid' → disk_page (disk bp2) pid' =
      if decide (page_id fv = Some pid') then page fv else disk_page (disk bp) pid'.
Proof.
  intros Hwf Hfv Hp. unfold evict_write.
  pose proof (proj1 (Forall_lookup _ _) (pw_frames _ Hwf) idx fv Hfv) as [F1 F2 F3 F4].
  destruct (dirty fv) eqn:Hdirty; destruct (page_id fv) as [v|] eqn:Hv.
  - destruct (write_page_ok v (page fv) bp) as (bp2 & E & C & D & P); [apply Hwf|done|by apply F3|].
    exists bp2. split_and!; [done|done|done|]. intros pid' Hpid'. rewrite P by done.
    repeat case_decide; naive_solver.
  - exists bp. split_and!; [done|by repeat split|apply Hwf|]. intros. by rewrite decide_False.
  - exists bp. split_and!; [done|by repeat split|apply Hwf|]. intros pid' Hpid'.
    case_decide as Hc; [|done]. injection Hc as ->. symmetry. by apply F4.
  - exists bp. split_and!; [done|by repeat split|apply Hwf|]. intros. by rewrite decide_False.
Qed.

(** The miss path of [fetch_page]. *)
Lemma fetch_miss_ok bp pid u fu :
  pool_wf bp → pid_wf pid → page_table bp !! pid = None →
  frames bp !! u = Some fu → pin_count fu = 0 →
  ∃ idx bp', fetch pid bp = Some (Ok idx, bp') ∧ pool_wf bp' ∧
    (∀ pid', pid_wf pid' → view bp' pid' = view bp pid') ∧
    (∃ fr, frames bp' !! idx = Some fr ∧ page_id fr = Some pid ∧ pin_count fr = 1) ∧
    (∀ i fr, frames bp !! i = Some fr → pin_count fr ≠ 0 →
       ∃ fr', frames bp' !! i = Some fr' ∧ frame_sim fr fr').
Proof.
  intros Hwf Hpid Hmiss Hu Hpu.
  assert (clock_hand bp < length (frames bp))%nat as Hh.
  { apply Hwf. pose proof (lookup_lt_Some _ _ _ Hu). lia. }
  destruct (find_victim_some bp u fu Hh Hu Hpu) as (idx & bp1 & fv & E1 & C & Hfv & Hpv).
  pose proof (pool_wf_clock _ _ Hwf C) as Hwf1.
  destruct (evict_write_ok bp1 idx fv Hwf1 Hfv Hpv) as (bp2 & E2 & (S1&S2&S3&S4) & D2 & P2).
  set (bp2' := match page_id fv with
               | Some v => set_table (delete v (page_table bp2)) bp2 | None => bp2 end).
  destruct (read_page_ok buf_addr Halign pid bp2') as (bp3 & E3 & (T1&T2&T3&T4) & F3).
  { subst bp2'. by destruct (page_id fv). }
  set (bp4 := set_table (<[pid := idx]> (page_table bp3))
    (set_frames (alter (λ _, mkFrame (disk_page (disk bp2') pid) 1 false true (Some pid)) idx
      (frames bp3)) bp3)).
  exists idx, bp4. split.
  { unfold fetch_page, mbind, stP_bind, stP_get. cbn. rewrite Hmiss, E1. cbn.
    unfold get_frame. rewrite Hfv. cbn. fold (evict_write fv). rewrite E2.
    assert ((match page_id fv with
             | Some vpid => stP_modify (E := Error) (λ bp, set_table (delete vpid (page_table bp)) bp)
             | None => mret tt end) bp2 = Some (Ok tt, bp2')) as ->
      by (subst bp2'; by destruct (page_id fv)).
    rewrite E3. done. }
  assert (disk bp2' = disk bp2) as Hdd by (subst bp2'; by destruct (page_id fv)).
  assert (∀ pid', disk_page (disk bp4) pid' = disk_page (disk bp2) pid') as Hd4.
  { intros pid'. apply disk_page_file_eq. intros tid. simpl. by rewrite F3, Hdd. }
  assert (frames bp3 = frames bp1) as Hf3.
  { rewrite T1. subst bp2'. by destruct (page_id fv). }
  assert (page_table bp1 !! pid = None) as Hmiss1 by (by rewrite (cr_table _ _ C)).
  assert (disk_wf (disk bp4)) as Hdw.
  { intros tid. simpl. rewrite F3, Hdd. apply D2. }
  assert (∀ pid', pid_wf pid' → disk_page (disk bp4) pid' =
    if decide (page_id fv = Some pid') then page fv else disk_page (disk bp1) pid') as Hdisk4.
  { intros pid' Hp'. rewrite Hd4. by apply P2. }
  assert (clock_hand bp4 = clock_hand bp1) as Hh4.
  { simpl. rewrite T3. subst bp2'. by destruct (page_id fv). }
  assert (frames bp4 = alter (λ _, mkFrame (disk_page (disk bp4) pid) 1 false true (Some pid))
                             idx (frames bp1)) as Hf4.
  { cbn [bp4 frames set_table set_frames]. rewrite Hf3.
    by rewrite (disk_page_file_eq (disk bp2') (disk bp4)). }
  assert (page_table bp4 = <[pid := idx]> (match page_id fv with
    | Some v => delete v (page_table bp1) | None => page_table bp1 end)) as Ht4.
  { simpl. rewrite T2. subst bp2'. destruct (page_id fv); simpl; by rewrite S2. }
  split; [by eapply (install_wf bp1)|]. split; [|split].
  - intros pid' Hp'. rewrite (install_view bp1 bp4 idx fv pid) by done. by apply view_clock.
  - eexists. rewrite (install_lookup_frame bp1 bp4 idx fv pid), decide_True by done. eauto.
  - intros i fr Hfr Hnz. destruct (Forall2_lookup_l _ _ _ _ _ (cr_frames _ _ C) Hfr) as (fr' & H1 & H2).
    exists fr'. split; [|done]. rewrite (install_lookup_frame bp1 bp4 idx fv pid Hfv Hf4).
    rewrite decide_False; [done|].
    intros ->. rewrite Hfv in H1. injection H1 as ->. destruct H2 as (_ & H2 & _). congruence.
Qed.

(** Changing the bookkeeping of one resident frame. *)
Lemma upd_frame_wf bp idx fr fr' :
  pool_wf bp → frames bp !! idx = Some fr → page_id fr' = page_id fr →
  frame_wf (disk bp) fr' → pool_wf (set_frames (<[idx := fr']> (frames bp)) bp).
Proof.
  intros [Hd Hh Ht Hf] Hfr Hp Hw. split; simpl.
  - done.
  - by rewrite length_insert.
  - intros pid i. rewrite Ht. destruct (decide (i = idx)) as [->|Hi].
    + rewrite list_lookup_insert_eq by (by eapply lookup_lt_Some).
      split; [intros (f & H1 & H2)|intros (f & [= <-] & H2)]; eexists; (split; [done|congruence]).
    + by rewrite list_lookup_insert_ne by done.
  - by apply Forall_insert.
Qed.

Lemma upd_frame_view bp idx fr fr' pid :
  frames bp !! idx = Some fr → page fr' = page fr →
  view (set_frames (<[idx := fr']> (frames bp)) bp) pid = view bp pid.
Proof.
  intros Hfr Hp. unfold view. simpl. destruct (page_table bp !! pid) as [i|]; [|done].
  destruct (decide (i = idx)) as [->|Hi].
  - rewrite list_lookup_insert_eq by (by eapply lookup_lt_Some). by rewrite Hfr.
  - by rewrite list_lookup_insert_ne by done.
Qed.

(** The hit path of [fetch_page]. *)
Lemma fetch_hit_ok bp pid idx fr :
  pool_wf bp → page_table bp !! pid = Some idx → frames bp !! idx = Some fr →
  pin_count fr + 1 < 2 ^ 32 →
  ∃ bp', fetch pid bp = Some (Ok idx, bp') ∧ pool_wf bp' ∧
    (∀ pid', view bp' pid' = view bp pid') ∧
    frames bp' = <[idx := set_referenced true (set_pin (pin_count fr + 1) fr)]> (frames bp).
Proof.
  intros Hwf Ht Hfr Hpin.
  pose proof (proj1 (Forall_lookup _ _) (pw_frames _ Hwf) idx fr Hfr) as [F1 F2 F3 F4].
  set (fr' := set_referenced true (set_pin (pin_count fr + 1) fr)).
  exists (set_frames (<[idx := fr']> (frames bp)) bp). split_and!.
  - unfold fetch_page, mbind, stP_bind, stP_get, get_frame, upd_frame, stP_modify.
    rewrite Ht, Hfr. simpl. rewrite (alter_Some_insert _ idx fr) by done.
    rewrite wrap_u_small; [done|]. unfold in_u in *. lia.
  - apply (upd_frame_wf _ _ fr); [done|done|done|].
    split; simpl; [done|unfold in_u in *; lia|done|]. unfold in_u in F2. lia.
  - intros pid'. by apply (upd_frame_view _ _ fr).
  - done.
Qed.

(** C25: fetching is transparent. When the page is resident with room in its own pin
    counter, or is not resident and some frame is unpinned, [fetch_page] returns a frame
    that holds exactly what a reader of that page would have seen before, now pinned;
    every page of every table still reads the same (an evicted dirty page has reached
    its file), no pinned frame loses its page, and the pool invariant is kept. This is
    for reads and writes of the files that do not fail, and a page buffer aligned to 8
    bytes (an unaligned one panics). *)
Theorem fetch_page_transparent (bp : BufferPool) (pid : PageId)
    (Hwf : pool_wf bp) (Hpid : pid_wf pid)
    (Hroom : match page_table bp !! pid with
             | Some idx => ∀ fr, frames bp !! idx = Some fr → pin_count fr + 1 < 2 ^ 32
             | None => Exists (λ fr, pin_count fr = 0) (frames bp)
             end) :
  ∃ idx bp' fr, fetch pid bp = Some (Ok idx, bp') ∧ pool_wf bp' ∧
    frames bp' !! idx = Some fr ∧ page_id fr = Some pid ∧ page fr = view bp pid ∧
    0 < pin_count fr ∧
    (∀ pid', pid_wf pid' → view bp' pid' = view bp pid') ∧
    (∀ i f, frames bp !! i = Some f → pin_count f ≠ 0 →
       ∃ f', frames bp' !! i = Some f' ∧ page f' = page f ∧ page_id f' = page_id f).
Proof.
  assert (∀ bp' idx fr, pool_wf bp' → frames bp' !! idx = Some fr → page_id fr = Some pid →
            page fr = view bp' pid) as Hview.
  { intros bp' idx fr H1 H2 H3. unfold view.
    rewrite (proj2 (pw_table _ H1 pid idx)) by eauto. by rewrite H2. }
  destruct (page_table bp !! pid) as [idx|] eqn:E.
  - pose proof E as (fr & Hfr & Hp)%(pw_table _ Hwf).
    destruct (fetch_hit_ok bp pid idx fr Hwf E Hfr (Hroom fr Hfr)) as (bp' & H1 & H2 & H3 & H4).
    pose proof (proj1 (Forall_lookup _ _) (pw_frames _ Hwf) idx fr Hfr) as [_ F2 _ _].
    eexists idx, bp', _. split; [done|]. split; [done|]. rewrite H4.
    rewrite list_lookup_insert_eq by (by eapply lookup_lt_Some). split; [done|].
    split; [done|]. split; [by apply (Hview bp idx fr)|].
    split; [simpl; unfold in_u in F2; lia|]. split; [auto|].
    intros i f Hf _. destruct (decide (i = idx)) as [->|Hi].
    + rewrite Hf in Hfr. injection Hfr as ->.
      rewrite list_lookup_insert_eq by (by eapply lookup_lt_Some). by eexists.
    + rewrite list_lookup_insert_ne by done. eauto.
  - apply Exists_exists in Hroom as (fu & Hin & Hpu).
    apply list_elem_of_In, list_elem_of_lookup in Hin as [u Hu].
    destruct (fetch_miss_ok bp pid u fu Hwf Hpid E Hu Hpu)
      as (idx & bp' & H1 & H2 & H3 & (fr & H4 & H5 & H6) & H7).
    exists idx, bp', fr. split_and!; [done|done|done|done| |lia|done|].
    + rewrite <- (H3 pid) by done. by apply (Hview bp' idx).
    + intros i f Hf Hn. destruct (H7 i f Hf Hn) as (f' & G1 & G2 & _ & _ & G3). eauto.
Qed.

End fetch.

Lemma disk_wf_empty : disk_wf ∅.
Proof. intros t. split; [constructor|]. by exists 0%nat. Qed.

Lemma pool_new_wf d capacity : disk_wf d → pool_wf (pool_new d capacity).
Proof.
  intros Hd. split; simpl.
  - done.
  - by rewrite length_replicate.
  - intros pid idx. rewrite lookup_empty. split; [done|].
    intros (fr & H1 & H2). apply lookup_replicate in H1 as [-> _]. done.
  - apply Forall_replicate. split; [apply page_new_wf|done|done|done].
Qed.

Lemma fetch_page_transparent_witness :
  ∃ idx bp' fr, fetch_page (λ _, false) (λ _, false) 4096 (mkPid 1 7) (pool_new ∅ 2) = Some (Ok idx, bp') ∧
    pool_wf bp' ∧ frames bp' !! idx = Some fr ∧ page_id fr = Some (mkPid 1 7) ∧
    page fr = view (pool_new ∅ 2) (mkPid 1 7) ∧ 0 < pin_count fr ∧
    (∀ pid', pid_wf pid' → view bp' pid' = view (pool_new ∅ 2) pid') ∧
    (∀ i f, frames (pool_new ∅ 2) !! i = Some f → pin_count f ≠ 0 →
       ∃ f', frames bp' !! i = Some f' ∧ page f' = page f ∧ page_id f' = page_id f).
Proof.
  apply (fetch_page_transparent 4096 eq_refl (pool_new ∅ 2) (mkPid 1 7)).
  - apply pool_new_wf, disk_wf_empty.
  - done.
  - by left.
Defined.

(** ** Flushing *)

Section flush.
Context (iter : gmap PageId nat → list (PageId * nat)) (Hiter : ∀ m, iter m ≡ₚ map_to_list m).
Abbreviation nofail := (λ _ : PageId, false).

Definition flush_one (sel : PageId → bool) (pid : PageId) (idx : nat) : poolM () :=
  if sel pid then
    fr ← get_frame idx;
    if dirty fr then
      write_page_to_disk nofail pid (page fr);; upd_frame idx (set_dirty false)
    else mret tt
  else mret tt.

(** What flushing entry [(pid, idx)] does: the file of [pid] catches up with its
    frame, every other page of the directory is left alone. *)
Lemma flush_one_ok sel bp pid idx fr :
  pool_wf bp → page_table bp !! pid = Some idx → frames bp !! idx = Some fr →
  ∃ bp', flush_one sel pid idx bp = Some (Ok tt, bp') ∧ pool_wf bp' ∧
    page_table bp' = page_table bp ∧
    (∀ pid', pid_wf pid' → view bp' pid' = view bp pid') ∧
    (∀ i f, frames bp !! i = Some f →
       frames bp' !! i = Some (if decide (i = idx ∧ sel pid = true) then set_dirty false f else f)) ∧
    (∀ pid', pid_wf pid' → disk_page (disk bp') pid' =
       if decide (pid' = pid ∧ sel pid = true ∧ dirty fr = true) then page fr
       else disk_page (disk bp) pid').
Proof.
  intros Hwf Ht Hfr. unfold flush_one. destruct (sel pid) eqn:Hs.
  2:{ exists bp. split_and!; [done|done|done|done| |]; intros; (rewrite decide_False; [done|naive_solver]). }
  pose proof (proj1 (Forall_lookup _ _) (pw_frames _ Hwf) idx fr Hfr) as [F1 F2 F3 F4].
  pose proof Ht as (fr0 & Hfr0 & Hp)%(pw_table _ Hwf). rewrite Hfr in Hfr0. injection Hfr0 as <-.
  unfold mbind at 1, stP_bind, get_frame. rewrite Hfr. cbn [fmap option_fmap option_map].
  destruct (dirty fr) eqn:Hd.
  - destruct (write_page_ok pid (page fr) bp) as (bp2 & E & (S1&S2&S3&S4) & D & P);
      [apply Hwf|done|by apply F3|].
    exists (set_frames (<[idx := set_dirty false fr]> (frames bp2)) bp2).
    assert (∀ i f, frames bp !! i = Some f → i ≠ idx → page_id f ≠ Some pid) as Hother.
    { intros i f Hi Hne Hc. apply Hne. by eapply (pool_wf_unique bp). }
    split_and!.
    + unfold mbind, stP_bind. rewrite E. unfold upd_frame, stP_modify.
      rewrite (alter_Some_insert _ idx fr) by (by rewrite S1). done.
    + split; simpl; [done|rewrite length_insert, S1, S3; apply Hwf| |].
      * intros pid' i. rewrite S1, S2, (pw_table _ Hwf). destruct (decide (i = idx)) as [->|Hi].
        -- rewrite list_lookup_insert_eq by (by eapply lookup_lt_Some). naive_solver.
        -- by rewrite list_lookup_insert_ne by done.
      * rewrite S1. apply Forall_lookup. intros i f.
        destruct (decide (i = idx)) as [->|Hi].
        -- rewrite list_lookup_insert_eq by (by eapply lookup_lt_Some). intros [= <-].
           split; simpl; [done|done|done|]. intros pid' H1 _ _. rewrite Hp in H1. injection H1 as <-.
           rewrite P by (by apply F3). by rewrite decide_True.
        -- rewrite list_lookup_insert_ne by done. intros Hf.
           pose proof (proj1 (Forall_lookup _ _) (pw_frames _ Hwf) i f Hf) as [G1 G2 G3 G4].
           split; [done|done|done|]. intros pid' H1 H2 H3. rewrite P by eauto.
           rewrite decide_False; [eauto|]. intros ->. by eapply Hother.
    + done.
    + intros pid' Hp'. unfold view. simpl. rewrite S1, S2.
      destruct (page_table bp !! pid') as [i|] eqn:Et.
      * destruct (decide (i = idx)) as [->|Hi].
        -- rewrite list_lookup_insert_eq by (by eapply lookup_lt_Some). by rewrite Hfr.
        -- by rewrite list_lookup_insert_ne by done.
      * rewrite P by done. rewrite decide_False; [done|]. intros ->. congruence.
    + intros i f Hf. simpl. rewrite S1. destruct (decide (i = idx)) as [->|Hi].
      * rewrite list_lookup_insert_eq by (by eapply lookup_lt_Some).
        rewrite decide_True by done. rewrite Hf in Hfr. by injection Hfr as ->.
      * rewrite list_lookup_insert_ne by done. rewrite decide_False by naive_solver. done.
    + intros pid' Hp'. simpl. rewrite P by done. destruct (decide (pid' = pid)) as [->|].
      * by rewrite decide_True.
      * by rewrite decide_False by naive_solver.
  - exists bp. split_and!; [done|done|done|done| |].
    + intros i f Hf. case_decide as Hc; [|done]. destruct Hc as [-> _].
      rewrite Hf in Hfr. injection Hfr as ->. destruct fr; simpl in *. by subst.
    + intros. rewrite decide_False; [done|naive_solver].
Qed.

Lemma flush_loop_cons sel pid idx l :
  flush_loop nofail sel ((pid, idx) :: l) = (flush_one sel pid idx;; flush_loop nofail sel l).
Proof. done. Qed.

Lemma flush_loop_ok sel l bp :
  pool_wf bp → NoDup l.*1 → (∀ pid idx, (pid, idx) ∈ l → page_table bp !! pid = Some idx) →
  ∃ bp', flush_loop nofail sel l bp = Some (Ok tt, bp') ∧ pool_wf bp' ∧
    page_table bp' = page_table bp ∧
    (∀ pid', pid_wf pid' → view bp' pid' = view bp pid') ∧
    (∀ pid', pid_wf pid' → disk_page (disk bp') pid' =
       match page_table bp !! pid' with
       | Some idx =>
           match frames bp !! idx with
           | Some fr => if decide (pid' ∈ l.*1 ∧ sel pid' = true ∧ dirty fr = true) then page fr
                        else disk_page (disk bp) pid'
           | None => disk_page (disk bp) pid'
           end
       | None => disk_page (disk bp) pid'
       end).
Proof.
  revert bp; induction l as [|[pid idx] l IH]; intros bp Hwf Hnd Hl.
  - exists bp. split_and!; [done|done|done|done|]. intros pid' _. repeat case_match; try done.
  - inversion_clear Hnd as [|? ? Hni Hnd']. rename Hnd' into Hnd. simpl in Hni.
    pose proof (Hl pid idx (list_elem_of_here _ _)) as Ht.
    pose proof Ht as (fr & Hfr & Hp)%(pw_table _ Hwf).
    destruct (flush_one_ok sel bp pid idx fr Hwf Ht Hfr) as (bp1 & E1 & W1 & T1 & V1 & R1 & D1).
    destruct (IH bp1 W1 Hnd) as (bp2 & E2 & W2 & T2 & V2 & D2).
    { intros pid' idx' Hin. rewrite T1. apply Hl. by right. }
    exists bp2. split_and!.
    + rewrite flush_loop_cons. unfold mbind, stP_bind. by rewrite E1.
    + done.
    + congruence.
    + intros pid' Hp'. rewrite V2, V1 by done. done.
    + intros pid' Hp'. rewrite D2, D1 by done. rewrite T1.
      destruct (page_table bp !! pid') as [i|] eqn:Et.
      2:{ rewrite decide_False; [done|]. intros [-> _]. congruence. }
      pose proof Et as (f & Hf & Hpf)%(pw_table _ Hwf). rewrite (R1 i f Hf), Hf.
      simpl. destruct (decide (pid' = pid)) as [->|Hne].
      * rewrite Ht in Et. injection Et as <-. rewrite Hf in Hfr. injection Hfr as ->.
        rewrite (decide_False (P := pid ∈ l.*1 ∧ _)) by naive_solver.
        repeat case_decide; try done; set_solver.
      * assert (i ≠ idx) as Hi. { intros ->. congruence. }
        rewrite (decide_False (P := i = idx ∧ _)) by naive_solver.
        rewrite (decide_False (P := pid' = pid ∧ _)) by naive_solver.
        repeat case_decide; try done; set_solver.
Qed.

(** [flush_all] makes the pool durable.  With every clean frame unpinned, it
    returns, and afterwards the directory alone holds every page a reader of the
    pool sees: a fresh pool opened over the same directory after a crash reads the
    same pages.  The running pool still reads the same as before. *)
Theorem flush_all_durable (bp : BufferPool) (capacity : nat)
    (Hwf : pool_wf bp) (Hpin : Forall (λ fr, dirty fr = true ∨ pin_count fr = 0) (frames bp)) :
  ∃ bp', flush_all nofail iter bp = Some (Ok tt, bp') ∧ pool_wf bp' ∧
    (∀ pid, pid_wf pid → view bp' pid = view bp pid) ∧
    (∀ pid, pid_wf pid → view (pool_new (disk bp') capacity) pid = view bp pid).
Proof.
  destruct (flush_loop_ok (λ _, true) (iter (page_table bp)) bp Hwf) as (bp' & E & W & T & V & D).
  - rewrite Hiter. apply NoDup_fst_map_to_list.
  - intros pid idx. rewrite Hiter. apply elem_of_map_to_list.
  - exists bp'. split; [done|]. split; [done|]. split; [done|]. intros pid Hpid.
    unfold view at 1. simpl. rewrite lookup_empty, D by done. unfold view.
    destruct (page_table bp !! pid) as [idx|] eqn:Et; [|done].
    pose proof Et as (fr & Hfr & Hp)%(pw_table _ Hwf). rewrite Hfr.
    destruct (decide (pid ∈ (iter (page_table bp)).*1 ∧ _)) as [Hc|Hc]; [reflexivity|]. rewrite Forall_lookup in Hpin.
    pose proof (proj1 (Forall_lookup _ _) (pw_frames _ Hwf) idx fr Hfr) as [_ _ _ F4].
    assert (dirty fr = false) as Hd.
    { destruct (dirty fr) eqn:Hd; [|done]. destruct Hc. split; [|done].
      rewrite Hiter. apply list_elem_of_fmap. exists (pid, idx). split; [done|].
      by apply elem_of_map_to_list. }
    symmetry. apply F4; [done|done|]. destruct (Hpin _ _ Hfr) as [H|H]; congruence.
Qed.
End flush.

Lemma flush_all_durable_witness :
  ∃ bp', flush_all (λ _, false) map_to_list (pool_new ∅ 2) = Some (Ok tt, bp') ∧ pool_wf bp' ∧
    (∀ pid, pid_wf pid → view bp' pid = view (pool_new ∅ 2) pid) ∧
    (∀ pid, pid_wf pid → view (pool_new (disk bp') 3) pid = view (pool_new ∅ 2) pid).
Proof.
  apply (flush_all_durable map_to_list (λ m, reflexivity _) (pool_new ∅ 2) 3).
  - apply pool_new_wf, disk_wf_empty.
  - by repeat constructor; right.
Defined.

(** ** Allocation *)

(** allocation after a restart.  The page counters live only in memory, so over
    an existing directory the first [new_page] of a table returns page number 0
    however many pages the file holds, and the page handed out as new has the
    contents of the page 0 already stored there. *)
Theorem new_page_after_reopen (d : gmap Z (list Z)) (capacity : nat) (buf_addr tid : Z)
    (Hd : disk_wf d) (Hcap : (0 < capacity)%nat) (Halign : buf_addr mod 8 = 0) :
  ∃ bp', new_page (λ _, false) (λ _, false) buf_addr tid (pool_new d capacity) =
           Some (Ok (mkPid tid 0), bp') ∧
         view bp' (mkPid tid 0) = disk_page d (mkPid tid 0).
Proof.
  set (pid := mkPid tid 0). set (bp0 := set_next (<[tid := 1]> ∅) (pool_new d capacity)).
  assert (pool_wf bp0) as Hwf.
  { destruct (pool_new_wf d capacity Hd) as [W1 W2 W3 W4]. by split. }
  assert (pid_wf pid) as Hpid by done.
  assert (frames bp0 !! 0%nat = Some empty_frame) as Hf.
  { simpl. by apply lookup_replicate_2. }
  destruct (fetch_miss_ok buf_addr Halign bp0 pid 0 empty_frame Hwf Hpid (lookup_empty _) Hf eq_refl)
    as (idx & bp' & E & W & V & (fr & H1 & H2 & H3) & _).
  exists (set_frames (<[idx := set_dirty true fr]> (frames bp')) bp'). split.
  - unfold new_page, mbind, stP_bind, stP_get, stP_modify. simpl. rewrite lookup_empty.
    fold pid. change (default 0 None) with 0. fold pid.
    change (wrap_u 32 (0 + 1)) with 1. fold bp0. rewrite E.
    unfold upd_frame, stP_modify. by rewrite (alter_Some_insert _ idx fr).
  - rewrite (upd_frame_view _ _ fr), V by done. done.
Qed.

Lemma new_page_after_reopen_witness :
  ∃ bp', new_page (λ _, false) (λ _, false) 64 9
           (pool_new {[9 := replicate (PAGE_SIZE * 2) 7]} 4) = Some (Ok (mkPid 9 0), bp') ∧
         view bp' (mkPid 9 0) = disk_page {[9 := replicate (PAGE_SIZE * 2) 7]} (mkPid 9 0).
Proof.
  apply (new_page_after_reopen {[9 := replicate (PAGE_SIZE * 2) 7]} 4 64 9); [|lia|done].
  intros t. unfold file_of. destruct (decide (t = 9)) as [->|Ht].
  - rewrite lookup_singleton_eq. split; [by apply bytes_ok_replicate|].
    exists 2%nat. rewrite Nat.mul_comm. apply length_replicate.
  - rewrite lookup_singleton_ne by done. split; [constructor|by exists 0%nat].
Defined.

End BufferPoolM.
