(* ===== verification/Clock.v ===== *)
(** * The hybrid logical clock (src/src/protocol/clock.rs)

    A timestamp is a pair of 64-bit integers ordered lexicographically.  The
    physical time a call reads is an argument; the logical counter wraps as the
    release build does. *)

From Stdlib Require Import ZArith Lia Sorting.Sorted.
From stdpp Require Import prelude list numbers.
From S2P Require Import Prelude.
Local Open Scope Z_scope.

Module ClockM.

Record HlcTimestamp := mkTs { physical_ns : Z; logical : Z }.

#[global] Instance HlcTimestamp_eq_dec : EqDecision HlcTimestamp.
Proof. solve_decision. Defined.

Definition ZERO : HlcTimestamp := mkTs 0 0.

(** The derived [Ord]: [physical_ns] first, then [logical]. *)
Definition ts_lt (a b : HlcTimestamp) : Prop :=
  physical_ns a < physical_ns b ∨ (physical_ns a = physical_ns b ∧ logical a < logical b).

#[global] Instance ts_lt_dec a b : Decision (ts_lt a b).
Proof. unfold ts_lt. apply _. Defined.

Record HlcClock := mkClock { last : HlcTimestamp }.

Definition clock_new : HlcClock := mkClock ZERO.

(** [physical_now]: the system time in nanoseconds if it is after the epoch; the
    128-bit count is cast to 64 bits. *)
Definition physical_now (since_epoch : option Z) : Z :=
  match since_epoch with
  | Some nanos => wrap_u 64 nanos
  | None => 0
  end.

Definition now (since_epoch : option Z) (c : HlcClock) : HlcTimestamp * HlcClock :=
  let pt := physical_now since_epoch in
  let t :=
    if Z.ltb (physical_ns (last c)) pt then mkTs pt 0
    else mkTs (physical_ns (last c)) (wrap_u 64 (logical (last c) + 1)) in
  (t, mkClock t).

Definition observe (other : HlcTimestamp) (c : HlcClock) : HlcTimestamp * HlcClock :=
  let l := last c in
  let t :=
    if Z.ltb (physical_ns l) (physical_ns other) then
      mkTs (physical_ns other) (wrap_u 64 (logical other + 1))
    else if Z.eqb (physical_ns other) (physical_ns l) then
      mkTs (physical_ns l) (wrap_u 64 (Z.max (logical l) (logical other) + 1))
    else mkTs (physical_ns l) (wrap_u 64 (logical l + 1)) in
  (t, mkClock t).

(** ** Order *)

#[global] Instance ts_lt_strict : StrictOrder ts_lt.
Proof. split; unfold ts_lt; [intros [] | intros [] [] []]; unfold complement; simpl; lia. Qed.

Lemma ts_lt_total a b : ts_lt a b ∨ a = b ∨ ts_lt b a.
Proof.
  destruct a as [p l], b as [p' l']. unfold ts_lt. simpl.
  destruct (decide (p = p' ∧ l = l')) as [[-> ->]|]; [auto|]. lia.
Qed.

(** A counter that one more event does not wrap. *)
Definition ts_room (t : HlcTimestamp) : Prop :=
  in_u 64 (physical_ns t) ∧ 0 <= logical t < 2 ^ 64 - 1.

Lemma now_lt se c : ts_room (last c) → ts_lt (last c) (now se c).1.
Proof.
  intros [_ Hl]. unfold now, ts_lt. simpl. case_match eqn:E; simpl.
  - apply Z.ltb_lt in E. auto.
  - rewrite wrap_u_small by (unfold in_u; lia). lia.
Qed.

Lemma now_last se c : last (now se c).2 = (now se c).1.
Proof. done. Qed.

(** ** Clock histories *)

(** What happens at a node: it issues a timestamp or receives one. *)
Inductive event :=
| ENow (since_epoch : option Z)
| EObserve (other : HlcTimestamp).

Definition step (e : event) (c : HlcClock) : HlcTimestamp * HlcClock :=
  match e with ENow se => now se c | EObserve o => observe o c end.

Fixpoint run (es : list event) (c : HlcClock) : list HlcTimestamp * HlcClock :=
  match es with
  | [] => ([], c)
  | e :: es => let '(t, c1) := step e c in let '(ts, c2) := run es c1 in (t :: ts, c2)
  end.

(** The number of events a node can process before its counter could wrap, given
    what it may receive. *)
Definition event_ok (budget : Z) (e : event) : Prop :=
  match e with
  | ENow _ => True
  | EObserve o => in_u 64 (physical_ns o) ∧ 0 <= logical o < budget
  end.

Lemma step_spec e c b :
  in_u 64 (physical_ns (last c)) → 0 <= logical (last c) < b → b < 2 ^ 64 → event_ok b e →
  let t := (step e c).1 in
  last (step e c).2 = t ∧ ts_lt (last c) t ∧
  (∀ o, e = EObserve o → ts_lt o t) ∧
  in_u 64 (physical_ns t) ∧ 0 <= logical t < b + 1.
Proof.
  intros Hp Hl Hb He. unfold step. destruct e as [se|o]; simpl in *.
  - split; [done|]. split; [apply now_lt; split; [done|lia]|]. split; [done|].
    unfold now. simpl. case_match; simpl.
    + split; [|lia]. destruct se; [apply in_u_wrap; lia|done].
    + split; [done|]. rewrite wrap_u_small by (unfold in_u; lia). lia.
  - destruct He as [Ho1 Ho2]. unfold observe, ts_lt. simpl.
    destruct (Z.ltb_spec (physical_ns (last c)) (physical_ns o));
      [|destruct (Z.eqb_spec (physical_ns o) (physical_ns (last c)))]; simpl;
      rewrite wrap_u_small by (unfold in_u; lia);
      (split; [done|]; split; [lia|]; split; [intros ? [= <-]; lia|]; split; [done|lia]).
Qed.

Lemma run_cons e es c :
  run (e :: es) c =
  ((step e c).1 :: (run es (step e c).2).1, (run es (step e c).2).2).
Proof. simpl. destruct (step e c) as [t c1]. simpl. by destruct (run es c1). Qed.

Lemma run_spec es c b :
  in_u 64 (physical_ns (last c)) → 0 <= logical (last c) < b →
  b + Z.of_nat (length es) <= 2 ^ 64 → Forall (event_ok b) es →
  Sorted ts_lt (last c :: (run es c).1) ∧
  ∀ i o, es !! i = Some (EObserve o) → ∃ t, (run es c).1 !! i = Some t ∧ ts_lt o t.
Proof.
  revert c b; induction es as [|e es IH]; intros c b Hp Hl Hb Hes.
  { split; [repeat constructor|]. intros i o H. by rewrite lookup_nil in H. }
  apply Forall_cons_1 in Hes as [He Hes]. rewrite length_cons in Hb.
  destruct (step_spec e c b Hp Hl) as (H1 & H2 & H3 & H4 & H5); [lia|done|].
  destruct (IH (step e c).2 (b + 1)) as [S1 S2].
  - by rewrite H1.
  - rewrite H1. lia.
  - lia.
  - eapply Forall_impl; [|exact Hes]. intros [|o]; simpl; [done|]. intros [? ?]. split; [done|lia].
  - rewrite run_cons. simpl. rewrite H1 in S1. split.
    + constructor; [done|]. by constructor.
    + intros [|i] o Hi; [|by apply S2]. injection Hi as ->. eauto.
Qed.

(** C37: the clock orders causally.  In every history of a node (any interleaving of
    issued and received timestamps, any behaviour of the system clock, including
    steps backwards), the timestamps are strictly increasing, and the timestamp
    issued on receiving [o] is strictly above [o], as long as the logical counters
    stay below the 64-bit wrap. *)
Theorem hlc_monotone_causal (es : list event) (c : HlcClock) (b : Z)
    (Hp : in_u 64 (physical_ns (last c))) (Hl : 0 <= logical (last c) < b)
    (Hb : b + Z.of_nat (length es) <= 2 ^ 64) (Hes : Forall (event_ok b) es) :
  StronglySorted ts_lt (last c :: (run es c).1) ∧
  ∀ i o, es !! i = Some (EObserve o) → ∃ t, (run es c).1 !! i = Some t ∧ ts_lt o t.
Proof.
  destruct (run_spec es c b Hp Hl Hb Hes) as [S H]. split; [|done].
  apply Sorted_StronglySorted; [|done]. intros x y z. apply transitivity.
Qed.

Lemma hlc_monotone_causal_witness :
  let es := [ENow (Some 100); ENow (Some 90); EObserve (mkTs 500 7); ENow None] in
  StronglySorted ts_lt (last clock_new :: (run es clock_new).1) ∧
  ∀ i o, es !! i = Some (EObserve o) → ∃ t, (run es clock_new).1 !! i = Some t ∧ ts_lt o t.
Proof.
  intros es. apply (hlc_monotone_causal es clock_new 100).
  - done.
  - simpl; lia.
  - simpl; lia.
  - repeat constructor; simpl; lia.
Defined.

End ClockM.
