(* ===== verification/DurableLog.v ===== *)
(** * The interface of a durable log

    What the transaction coordinators of src/src/protocol rely on, as a class: an
    append and a sync on a log state, the images a crash may leave, and how an image
    is read back.  [dl_rep l rs n] says that the log has acknowledged the records
    [rs], in order, and that the first [n] of them are on stable storage. *)

From stdpp Require Import prelude list.
From S2P Require Import Prelude.

Class DurableLog (L R : Type) := {
  dl_append : R → stM L Error ();
  dl_sync : stM L Error ();
  dl_image : Type;
  dl_crash : L → dl_image → Prop;
  dl_read : dl_image → list R;
  dl_record_ok : R → Prop;
  dl_rep : L → list R → nat → Prop;

  dl_append_spec : ∀ l rs n r x l',
    dl_rep l rs n → dl_record_ok r → dl_append r l = (x, l') →
    ∃ n', n ≤ n' ∧ dl_rep l' (if is_ok x then rs ++ [r] else rs) n';
  dl_sync_spec : ∀ l rs n x l',
    dl_rep l rs n → dl_sync l = (x, l') →
    ∃ n', n ≤ n' ∧ dl_rep l' rs n' ∧ (is_ok x = true → n' = length rs);
  dl_crash_spec : ∀ l rs n i,
    dl_rep l rs n → dl_crash l i → ∃ m, n ≤ m ∧ dl_read i = take m rs
}.
