(* ===== verification/Wal.v ===== *)
(** * The write-ahead log (src/src/storage/wal.rs)

    The operating system's side of the log is a byte file, of which the first
    [synced] bytes are on stable storage, and a list [faults] of the outcomes of the
    coming system calls ([None], or an empty list: success; [Some k]: an error, a
    [write] having stored its first [k] bytes).  [BufWriter] is modelled with its
    8 KiB buffer and its three paths.  The hash [xxh3_64] is a parameter. *)

From Stdlib Require Import ZArith Lia.
From stdpp Require Import prelude list numbers.
From S2P Require Import Prelude DurableLog.
Local Open Scope Z_scope.

Module WalM.

Record WalRecord := mkRec { txn_id : Z; record_type : Z; payload : list Z }.

#[global] Instance WalRecord_eq_dec : EqDecision WalRecord.
Proof. solve_decision. Defined.

Inductive WalZoneState := ZEmpty | ZOpen | ZFull | ZFinished.

#[global] Instance WalZoneState_eq_dec : EqDecision WalZoneState.
Proof. solve_decision. Defined.

Record WalZone := mkZone {
  zone_id : Z; capacity : Z; write_offset : Z; state : WalZoneState
}.

Definition zone_new (zid cap : Z) : WalZone := mkZone zid cap 0 ZEmpty.
Definition remaining (z : WalZone) : Z := Z.max 0 (capacity z - write_offset z).

Definition DEFAULT_ZONE_CAPACITY : Z := 2 ^ 30.

(** ** The operating system and [BufWriter] *)

Record Os := mkOs { disk : list Z; synced : nat; faults : list (option nat) }.

Definition next_fault (os : Os) : option nat * Os :=
  match faults os with
  | [] => (None, os)
  | f :: fs => (f, mkOs (disk os) (synced os) fs)
  end.

(** [File::write_all]: the bytes stored, whether all of them were, and the rest. *)
Definition os_write (bs : list Z) (os : Os) : bool * list Z * Os :=
  match next_fault os with
  | (None, os) => (true, [], mkOs (disk os ++ bs) (synced os) (faults os))
  | (Some k, os) => (false, drop k bs, mkOs (disk os ++ take k bs) (synced os) (faults os))
  end.

Definition os_sync (os : Os) : bool * Os :=
  match next_fault os with
  | (None, os) => (true, mkOs (disk os) (length (disk os)) (faults os))
  | (Some _, os) => (false, os)
  end.

Definition os_ioctl (os : Os) : bool * Os :=
  match next_fault os with
  | (None, os) => (true, os)
  | (Some _, os) => (false, os)
  end.

Definition BUF_CAPACITY : nat := Z.to_nat 8192.

Record Wal := mkWal {
  os : Os;
  file : option (list Z);
  bytes_written : Z;
  records_written : Z;
  is_zns : bool;
  zone_capacity : Z;
  current_zone : option WalZone;
  zones_opened : Z;
  zones_finished : Z
}.

Definition set_os o w := mkWal o (file w) (bytes_written w) (records_written w) (is_zns w)
  (zone_capacity w) (current_zone w) (zones_opened w) (zones_finished w).
Definition set_file f w := mkWal (os w) f (bytes_written w) (records_written w) (is_zns w)
  (zone_capacity w) (current_zone w) (zones_opened w) (zones_finished w).
Definition set_counts b r w := mkWal (os w) (file w) b r (is_zns w)
  (zone_capacity w) (current_zone w) (zones_opened w) (zones_finished w).
Definition set_zone z w := mkWal (os w) (file w) (bytes_written w) (records_written w) (is_zns w)
  (zone_capacity w) z (zones_opened w) (zones_finished w).
Definition set_zcounts o f w := mkWal (os w) (file w) (bytes_written w) (records_written w) (is_zns w)
  (zone_capacity w) (current_zone w) o f.

Abbreviation walM := (stM Wal Error).

(** [BufWriter::flush_buf]: an error leaves the unwritten bytes in the buffer. *)
Definition flush_buf : walM () := λ w,
  match file w with
  | None => (Ok tt, w)
  | Some [] => (Ok tt, w)
  | Some b =>
      let '(okk, rest, o) := os_write b (os w) in
      let w := set_file (Some rest) (set_os o w) in
      (if okk then Ok tt else Err EIo, w)
  end.

(** A direct [File::write_all], and [File::sync_all]. *)
Definition write_through (bs : list Z) : walM () := λ w,
  let '(okk, _, o) := os_write bs (os w) in
  (if okk then Ok tt else Err EIo, set_os o w).

Definition sync_all : walM () := λ w,
  let '(okk, o) := os_sync (os w) in (if okk then Ok tt else Err EIo, set_os o w).

(** [BufWriter::write_all]: buffered when it fits, otherwise the buffer is flushed
    first, and a write of at least the buffer's capacity goes straight to the file. *)
Definition write_all (bs : list Z) : walM () :=
  w ← st_get;
  let used := match file w with Some b => length b | None => O end in
  (if bool_decide (BUF_CAPACITY - used < length bs)%nat then flush_buf else mret tt);;
  if bool_decide (BUF_CAPACITY <= length bs)%nat then
    write_through bs
  else st_modify (λ w, set_file ((λ b, b ++ bs) <$> file w) w).

(** ** The log's operations *)

Definition open (content : list Z) (fs : list (option nat)) (zns : bool) : Wal :=
  mkWal (mkOs content (length content) fs) (Some []) 0 0 zns DEFAULT_ZONE_CAPACITY None 0 0.

Definition flush : walM () := flush_buf.

Definition sync : walM () :=
  w ← st_get;
  match file w with
  | None => mret tt
  | Some _ =>
      flush_buf;; sync_all
  end.

(** The [BLKOPENZONE]/[BLKFINISHZONE] call, made on a zoned device with a live file. *)
Definition zone_ioctl : walM () := λ w,
  match is_zns w, file w with
  | true, Some _ =>
      let '(okk, o) := os_ioctl (os w) in
      (if okk then Ok tt else Err EUnsupported, set_os o w)
  | _, _ => (Ok tt, w)
  end.

Definition finish_zone : walM () :=
  w ← st_get;
  st_modify (set_zone None);;
  match current_zone w with
  | None => mret tt
  | Some _ =>
      zone_ioctl;;
      sync;;
      st_modify (λ w, set_zcounts (zones_opened w) (wrap_u 64 (zones_finished w + 1)) w)
  end.

Definition open_zone : walM Z :=
  w ← st_get;
  (match current_zone w with Some _ => finish_zone | None => mret tt end);;
  w ← st_get;
  let zid := zones_opened w in
  st_modify (λ w, set_zcounts (wrap_u 64 (zones_opened w + 1)) (zones_finished w) w);;
  zone_ioctl;;
  st_modify (λ w, set_zone (Some (zone_new zid (zone_capacity w))) w);;
  mret zid.

Definition rotate : walM () := finish_zone;; open_zone;; mret tt.

Section hash.
Context (xxh3_64 : list Z → Z).

Definition MAGIC : list Z := [84; 86; 87; 49].

Definition encode_body (r : WalRecord) : list Z := le_bytes 8 (txn_id r) ++ [record_type r] ++ payload r.

(** The bytes [append] builds: magic, length cast to [u32], body, checksum. *)
Definition encode (r : WalRecord) : list Z :=
  let body := encode_body r in
  let rec_len := Z.of_nat (length body + 8) in
  MAGIC ++ le_bytes 4 (wrap_u 32 rec_len) ++ body ++ le_bytes 8 (xxh3_64 body).

Definition advance_zone (buf_len : Z) (z : WalZone) : WalZone :=
  let off := wrap_u 64 (write_offset z + buf_len) in
  let st := if decide (state z = ZEmpty) then ZOpen else state z in
  mkZone (zone_id z) (capacity z) off (if Z.leb (capacity z) off then ZFull else st).

Definition append (r : WalRecord) : walM () :=
  let buf := encode r in
  let buf_len := Z.of_nat (length buf) in
  w ← st_get;
  let need_rotate := match current_zone w with
                     | None => true | Some z => Z.ltb (remaining z) buf_len end in
  (if need_rotate then rotate else mret tt);;
  st_modify (λ w, set_zone (advance_zone buf_len <$> current_zone w) w);;
  w ← st_get;
  match file w with
  | None => st_fail EOther
  | Some _ =>
      write_all buf;;
      st_modify (λ w, set_counts (wrap_u 64 (bytes_written w + buf_len))
                                 (wrap_u 64 (records_written w + 1)) w)
  end.

(** [simulate_crash]: the buffer is forgotten; what is left is the file. *)
Definition simulate_crash (w : Wal) : Wal := set_file None w.

(** ** The reader *)

(** [next_record] on the bytes not yet read: the record, and the bytes left.  A
    [read_exact] that meets the end of the file has consumed it. *)
Definition next_record (f : list Z) : option WalRecord * list Z :=
  if bool_decide (length f < 8)%nat then (None, [])
  else
    let header := take 8 f in
    let f := drop 8 f in
    if bool_decide (take 4 header = MAGIC) then
      let rec_len := Z.to_nat (le_decode (slice 4 4 header)) in
      if bool_decide (rec_len < 17)%nat then (None, f)
      else if bool_decide (length f < rec_len)%nat then (None, [])
      else
        let body_and_checksum := take rec_len f in
        let f := drop rec_len f in
        let body := take (rec_len - 8) body_and_checksum in
        let stored := le_decode (drop (rec_len - 8) body_and_checksum) in
        if Z.eqb stored (xxh3_64 body) then
          (Some (mkRec (le_decode (take 8 body)) (nth 8 body 0) (drop 9 body)), f)
        else (None, f)
    else (None, f).

(** Iterating the reader until its first [None]; a record takes at least 25 bytes, so
    the length of the file is fuel enough ([read_log_fuel]). *)
Fixpoint read_loop (fuel : nat) (f : list Z) : list WalRecord :=
  match fuel with
  | O => []
  | S fuel =>
      match next_record f with
      | (Some r, f) => r :: read_loop fuel f
      | (None, _) => []
      end
  end.

Definition read_log (f : list Z) : list WalRecord := read_loop (length f) f.

(** ** The record format *)

Context (Hhash : ∀ l, in_u 64 (xxh3_64 l)).

Definition rec_ok (r : WalRecord) : Prop :=
  in_u 64 (txn_id r) ∧ byte_ok (record_type r) ∧ bytes_ok (payload r) ∧
  Z.of_nat (length (payload r)) + 17 < 2 ^ 32.

Definition rec_len (r : WalRecord) : nat := (length (payload r) + 17)%nat.
Definition header (r : WalRecord) : list Z := MAGIC ++ le_bytes 4 (Z.of_nat (rec_len r)).
Definition body_sum (r : WalRecord) : list Z := encode_body r ++ le_bytes 8 (xxh3_64 (encode_body r)).

Lemma length_encode_body r : length (encode_body r) = (length (payload r) + 9)%nat.
Proof. unfold encode_body. len. Qed.
Lemma length_header r : length (header r) = 8%nat.
Proof. done. Qed.
Lemma length_body_sum r : length (body_sum r) = rec_len r.
Proof. unfold body_sum, rec_len. len. rewrite length_encode_body. lia. Qed.

Lemma encode_split r : rec_ok r → encode r = header r ++ body_sum r.
Proof.
  intros (_&_&_&Hl). unfold encode, header, body_sum. rewrite length_encode_body.
  rewrite wrap_u_small by (unfold in_u; lia). rewrite <- app_assoc. unfold rec_len. do 4 f_equal. lia.
Qed.

Lemma length_encode r : rec_ok r → length (encode r) = (length (payload r) + 25)%nat.
Proof.
  intros H. rewrite encode_split, length_app, length_header, length_body_sum by done.
  unfold rec_len. lia.
Qed.

(** Reading behind a header: all of the record, or the end of the file. *)
Lemma next_record_header r x :
  rec_ok r →
  next_record (header r ++ x) =
  if bool_decide (length x < rec_len r)%nat then (None, [])
  else
    let b := take (rec_len r - 8) (take (rec_len r) x) in
    if Z.eqb (le_decode (drop (rec_len r - 8) (take (rec_len r) x))) (xxh3_64 b)
    then (Some (mkRec (le_decode (take 8 b)) (nth 8 b 0) (drop 9 b)), drop (rec_len r) x)
    else (None, drop (rec_len r) x).
Proof.
  intros (_&_&_&Hl). unfold next_record.
  rewrite bool_decide_false by (rewrite length_app, length_header; lia).
  rewrite (take_app_length' (header r)), (drop_app_length' (header r)) by (by rewrite length_header).
  rewrite bool_decide_true by done.
  assert (slice 4 4 (header r) = le_bytes 4 (Z.of_nat (rec_len r))) as -> by done.
  rewrite le_decode_bytes by (unfold rec_len; simpl Z.of_nat; lia). rewrite Nat2Z.id.
  rewrite (bool_decide_false (rec_len r < 17)%nat) by (unfold rec_len; lia). done.
Qed.

Lemma next_record_encode r rest :
  rec_ok r → next_record (encode r ++ rest) = (Some r, rest).
Proof.
  intros Hr. pose proof Hr as (H1&H2&H3&H4).
  rewrite encode_split, <- app_assoc, next_record_header by done.
  pose proof (length_body_sum r) as Hb. pose proof (length_encode_body r) as He.
  rewrite bool_decide_false by (rewrite length_app; lia).
  rewrite (take_app_length' (body_sum r)), (drop_app_length' (body_sum r)) by done.
  assert (take (rec_len r - 8) (body_sum r) = encode_body r) as ->.
  { apply take_app_length'. rewrite He. unfold rec_len. lia. }
  assert (drop (rec_len r - 8) (body_sum r) = le_bytes 8 (xxh3_64 (encode_body r))) as ->.
  { apply drop_app_length'. rewrite He. unfold rec_len. lia. }
  rewrite le_decode_bytes by (pose proof (Hhash (encode_body r)); unfold in_u in *; simpl Z.of_nat; lia).
  cbv zeta. rewrite Z.eqb_refl. destruct r as [t ty p]; unfold encode_body; cbn [txn_id record_type payload] in *.
  rewrite (take_app_length' (le_bytes 8 t)) by done.
  rewrite le_decode_bytes by (unfold in_u in *; simpl Z.of_nat; lia).
  f_equal. 
Qed.

Lemma next_record_torn r n :
  rec_ok r → (n < length (encode r))%nat →
  (next_record (take n (encode r))).1 = None.
Proof.
  intros Hr Hn. rewrite encode_split in * by done.
  destruct (decide (n < 8)%nat) as [H8|H8].
  - unfold next_record. rewrite bool_decide_true; [done|]. rewrite length_take. lia.
  - rewrite take_app_ge by (rewrite length_header; lia). rewrite next_record_header by done.
    rewrite bool_decide_true; [done|].
    rewrite length_app, length_header, length_body_sum in Hn. rewrite length_take, length_header. lia.
Qed.

(** The bytes of a sequence of records. *)
Definition log (rs : list WalRecord) : list Z := concat (encode <$> rs).

Lemma log_app rs1 rs2 : log (rs1 ++ rs2) = log rs1 ++ log rs2.
Proof. unfold log. by rewrite fmap_app, concat_app. Qed.
Lemma log_snoc rs r : log (rs ++ [r]) = log rs ++ encode r.
Proof. rewrite log_app. unfold log. simpl. by rewrite app_nil_r. Qed.

Lemma read_loop_nil fuel : read_loop fuel [] = [].
Proof. by destruct fuel. Qed.

Lemma read_loop_log fuel rs tail :
  Forall rec_ok rs → (next_record tail).1 = None → (length rs < fuel)%nat →
  read_loop fuel (log rs ++ tail) = rs.
Proof.
  intros Hrs Ht. revert fuel; induction Hrs as [|r rs Hr Hrs IH]; intros fuel Hf.
  - destruct fuel; [lia|]. simpl. destruct (next_record tail) as [[]]; done.
  - destruct fuel as [|fuel]; simpl in Hf; [lia|]. cbn [read_loop].
    change (log (r :: rs)) with (encode r ++ log rs). rewrite <- app_assoc.
    rewrite next_record_encode by done. f_equal. apply IH. lia.
Qed.

Lemma next_record_nil : next_record [] = (None, []).
Proof. done. Qed.

Lemma length_log rs : Forall rec_ok rs → (length rs <= length (log rs))%nat.
Proof.
  induction 1 as [|r rs Hr _ IH]; [done|]. change (log (r :: rs)) with (encode r ++ log rs).
  rewrite length_app, length_encode by done. simpl. lia.
Qed.

(** Reading a log whose tail is missing: the whole records that are left, at least
    those that end before the cut. *)
Lemma read_log_cut rs n k :
  Forall rec_ok rs → (length (log (take k rs)) <= n)%nat →
  ∃ m, (k <= m)%nat ∧ read_log (take n (log rs)) = take m rs.
Proof.
  intros Hrs. revert n k.
  assert (∀ n, ∃ m tail, take n (log rs) = log (take m rs) ++ tail ∧ (next_record tail).1 = None ∧
            (∀ k, (length (log (take k rs)) <= n)%nat → (k <= m)%nat ∨ (length rs <= m)%nat)) as H.
  { induction Hrs as [|r rs Hr Hrs IH]; intros n.
    - exists 0%nat, []. split_and!; [by destruct n|done|]. simpl. intros. right. lia.
    - change (log (r :: rs)) with (encode r ++ log rs).
      destruct (decide (n < length (encode r))%nat) as [Hn|Hn].
      + exists 0%nat, (take n (encode r)). rewrite take_app_le by lia.
        split_and!; [done|by apply next_record_torn|]. intros [|k]; [auto|].
        change (log (take (S k) (r :: rs))) with (encode r ++ log (take k rs)).
        rewrite length_app. lia.
      + destruct (IH (n - length (encode r))%nat) as (m & tail & H1 & H2 & H3).
        exists (S m), tail. rewrite take_app_ge, H1, app_assoc by lia.
        split_and!; [done|done|]. intros [|k]; [left; lia|].
        change (log (take (S k) (r :: rs))) with (encode r ++ log (take k rs)).
        rewrite length_app. intros Hk. destruct (H3 k) as [|]; [lia|lia|simpl; lia]. }
  intros n k Hk. destruct (H n) as (m & tail & H1 & H2 & H3).
  exists (Nat.max m k). split; [lia|]. unfold read_log. rewrite H1.
  assert (take (m `max` k) rs = take m rs) as ->.
  { destruct (H3 k Hk); [f_equal; lia|]. by rewrite !take_ge by lia. }
  assert (Forall rec_ok (take m rs)) as Hm by (by apply Forall_take).
  destruct tail as [|b tail].
  - rewrite app_nil_r. pose proof (length_log _ Hm) as Hl.
    destruct (take m rs) as [|r rs'] eqn:E.
    { by rewrite read_loop_nil. }
    rewrite <- (app_nil_r (log (r :: rs'))) at 2. apply read_loop_log; [done|done|].
    change (log (r :: rs')) with (encode r ++ log rs'). rewrite length_app.
    apply Forall_cons_1 in Hm as [Hr Hrs'].
    pose proof (length_log _ Hrs'). rewrite length_encode by done. simpl. lia.
  - apply read_loop_log; [done|done|]. pose proof (length_log _ Hm). rewrite length_app. simpl. lia.
Qed.

Lemma read_log_log rs : Forall rec_ok rs → read_log (log rs) = rs.
Proof.
  intros Hrs. destruct (read_log_cut rs (length (log rs)) (length rs) Hrs) as (m & Hm & H).
  { by rewrite take_ge by lia. }
  rewrite take_ge in H by lia. rewrite H. apply take_ge. lia.
Qed.

(** ** What each operation does to the byte stream *)

(** The log's byte stream is [s] (file, then buffer), its first [k] bytes on stable
    storage. *)
Definition stream (w : Wal) (s : list Z) (k : nat) : Prop :=
  ∃ buf, file w = Some buf ∧ disk (os w) ++ buf = s ∧
         (k <= synced (os w))%nat ∧ (synced (os w) <= length (disk (os w)))%nat.

(** A computation that neither adds to the stream nor loses from it. *)
Definition keeps {A} (m : walM A) : Prop := ∀ s k, preserves (λ w, stream w s k) m.

Lemma keeps_flush_buf : keeps flush_buf.
Proof.
  intros s k w x w' (b & H1 & H2 & H3 & H4). unfold flush_buf. rewrite H1.
  destruct b as [|c b]; [intros [= _ <-]; by exists []|].
  unfold os_write, next_fault. destruct (faults (os w)) as [|[j|] fs]; intros [= _ <-].
  - exists []. simpl in *. rewrite app_nil_r, length_app. split_and!; [done|done|done|lia].
  - exists (drop j (c :: b)). cbn [disk os set_file set_os file synced].
    rewrite <- app_assoc, take_drop, length_app. split_and!; [done|done|done|lia].
  - exists []. simpl in *. rewrite app_nil_r, length_app. split_and!; [done|done|done|lia].
Qed.

Lemma keeps_sync_all : keeps sync_all.
Proof.
  intros s k w x w' (b & H1 & H2 & H3 & H4). unfold sync_all, os_sync, next_fault.
  destruct (faults (os w)) as [|[j|] fs]; intros [= _ <-]; exists b; simpl; split_and!; try done; lia.
Qed.

Lemma keeps_zone_ioctl : keeps zone_ioctl.
Proof.
  intros s k w x w' (b & H1 & H2 & H3 & H4). unfold zone_ioctl, os_ioctl, next_fault. rewrite H1.
  destruct (is_zns w); [|intros [= _ <-]; by exists b].
  destruct (faults (os w)) as [|[j|] fs]; intros [= _ <-]; by exists b.
Qed.
#[local] Hint Extern 1 (preserves _ _) =>
  first [apply keeps_flush_buf|apply keeps_sync_all|apply keeps_zone_ioctl] : preserves.

Lemma keeps_sync : keeps sync.
Proof. intros s k. unfold sync. preserves. Qed.
#[local] Hint Extern 1 (preserves _ sync) => apply keeps_sync : preserves.
Lemma keeps_finish_zone : keeps finish_zone.
Proof. intros s k. unfold finish_zone. preserves. Qed.
#[local] Hint Extern 1 (preserves _ finish_zone) => apply keeps_finish_zone : preserves.
Lemma keeps_open_zone : keeps open_zone.
Proof. intros s k. unfold open_zone. preserves. Qed.
#[local] Hint Extern 1 (preserves _ open_zone) => apply keeps_open_zone : preserves.
Lemma keeps_rotate : keeps rotate.
Proof. intros s k. unfold rotate. preserves. Qed.
#[local] Hint Extern 1 (preserves _ rotate) => apply keeps_rotate : preserves.

(** A successful sync puts the whole stream on stable storage. *)
Lemma sync_ok w s k w' : stream w s k → sync w = (Ok tt, w') → stream w' s (length s).
Proof.
  intros (b & H1 & H2 & H3 & H4). unfold sync, mbind, stM_bind, st_get. rewrite H1.
  destruct (flush_buf w) as [[[]|e] w1] eqn:E; [|done].
  assert (file w1 = Some [] ∧ disk (os w1) = s) as [F1 F2].
  { unfold flush_buf in E. rewrite H1 in E. destruct b as [|c b].
    - injection E as <-. rewrite H1, <- H2, app_nil_r. done.
    - unfold os_write, next_fault in E. destruct (faults (os w)) as [|[j|] fs]; [|done|];
        injection E as <-; simpl; done. }
  unfold sync_all, os_sync, next_fault. destruct (faults (os w1)) as [|[j|] fs]; [|done|];
    intros [= <-]; exists []; simpl; rewrite app_nil_r, F2; done.
Qed.

(** A successful flush empties the buffer. *)
Lemma flush_buf_empty w w' : file w ≠ None → flush_buf w = (Ok tt, w') → file w' = Some [].
Proof.
  unfold flush_buf. destruct (file w) as [[|c b]|] eqn:E; [by intros _ [= <-]|..|done]. intros _.
  unfold os_write, next_fault. destruct (faults (os w)) as [|[j|] fs]; [by intros [= <-]|done|by intros [= <-]].
Qed.
(** Writing fewer bytes than the buffer holds is atomic: all of them join the stream,
    or none does.  More bytes join it when the write succeeds. *)
Lemma write_all_stream bs w s k x w' :
  (length bs < BUF_CAPACITY)%nat ∨ is_ok x = true → stream w s k → write_all bs w = (x, w') →
  stream w' (if is_ok x then s ++ bs else s) k.
Proof.
  intros Hl Hs H. unfold write_all in H.
  apply stM_bind_inv in H as [(w0 & w1 & [= <- <-] & H)|(e & [=] & _)].
  apply stM_bind_inv in H as [([] & w1 & H1 & H)|(e & H1 & ->)].
  - assert (stream w1 s k) as Hs1.
    { revert H1. destruct (bool_decide _) in |- *; intros H1; [by eapply keeps_flush_buf|by injection H1 as <-]. }
    case_bool_decide as Hb.
    + assert (file w1 = Some []) as Ef.
      { destruct Hs as (b & Eb & _). rewrite Eb in H1. case_bool_decide as Hc; [eapply flush_buf_empty; [by rewrite Eb|exact H1]|]. injection H1 as <-. rewrite Eb. destruct b; [done|]. cbn [length] in Hc. assert (0 < BUF_CAPACITY)%nat by (unfold BUF_CAPACITY; lia). lia. }
      destruct Hl as [Hl|Hl]; [lia|]. destruct Hs1 as (b & Eb & <- & Hk & Hd). rewrite Ef in Eb. injection Eb as <-. unfold write_through, os_write, next_fault in H.
      destruct (faults (os w1)) as [|[j|] fs]; injection H as <- <-; [|done|]; exists []; cbn; rewrite !app_nil_r, length_app; (split; [done|]; split; [done|lia]).
    + injection H as <- <-. destruct Hs1 as (b & E & <- & Hk). exists (b ++ bs). simpl. rewrite E, app_assoc. done.
  - revert H1. destruct (bool_decide _); intros H1; [by eapply keeps_flush_buf|done].
Qed.

Lemma append_stream r w s k x w' :
  (length (encode r) < BUF_CAPACITY)%nat ∨ is_ok x = true → stream w s k → append r w = (x, w') →
  stream w' (if is_ok x then s ++ encode r else s) k.
Proof.
  intros Hl Hs H. unfold append in H.
  apply stM_bind_inv in H as [(w0 & w1 & [= <- <-] & H)|(e & [=] & _)].
  set (c := match current_zone w with Some _ => _ | None => _ end) in H. clearbody c.
  assert (keeps (if c then rotate else mret tt)) as Hk by (intros ? ?; preserves).
  apply stM_bind_inv in H as [(u & w1 & H1 & H)|(e & H1 & ->)]; [|by eapply Hk].
  assert (stream w1 s k) as Hs1 by (by eapply Hk).
  apply stM_bind_inv in H as [(u' & w2 & H2 & H)|(e & [=] & _)].
  assert (stream w2 s k) as Hs2 by (injection H2 as _ <-; done).
  apply stM_bind_inv in H as [(w0 & w3 & [= <- <-] & H)|(e & [=] & _)].
  pose proof Hs2 as (b & Hb & _). rewrite Hb in H.
  apply stM_bind_inv in H as [(u2 & w3 & H3 & H)|(e & H3 & ->)].
  - injection H as <- <-. apply (write_all_stream _ w2 s k) in H3; [done|by right|done].
  - by apply (write_all_stream _ w2 s k) in H3.
Qed.

(** ** Crashes *)

(** What a crash may leave of the file: everything the operating system was given (a
    process crash), or any part of it that reaches past the synced prefix (a power
    failure). *)
Definition crash (w : Wal) (f : list Z) : Prop :=
  ∃ m, (synced (os w) <= m)%nat ∧ f = take m (disk (os w)).

(** [n] of the acknowledged records [rs] are on stable storage. *)
Definition wal_rep (w : Wal) (rs : list WalRecord) (n : nat) : Prop :=
  Forall rec_ok rs ∧ ∃ k, stream w (log rs) k ∧ (length (log (take n rs)) <= k)%nat.

Lemma length_log_take rs n : (length (log (take n rs)) <= length (log rs))%nat.
Proof. rewrite <- (take_drop n rs) at 2. rewrite log_app, length_app. lia. Qed.

Lemma wal_rep_crash w rs n f :
  wal_rep w rs n → crash w f → ∃ m, (n <= m)%nat ∧ read_log f = take m rs.
Proof.
  intros (Hrs & k & (b & H1 & H2 & H3 & H4) & Hk) (m & Hm & ->).
  assert (take m (disk (os w)) = take (Nat.min m (length (disk (os w)))) (log rs)) as ->.
  { rewrite <- H2, take_app_le by lia. destruct (decide (m <= length (disk (os w)))%nat).
    - by rewrite Nat.min_l.
    - rewrite Nat.min_r, !take_ge by lia. done. }
  apply read_log_cut; [done|lia].
Qed.

Definition small_ok (r : WalRecord) : Prop := rec_ok r ∧ (length (encode r) < BUF_CAPACITY)%nat.

Lemma wal_rep_append w rs n r x w' :
  wal_rep w rs n → rec_ok r → (length (encode r) < BUF_CAPACITY)%nat ∨ is_ok x = true → append r w = (x, w') →
  wal_rep w' (if is_ok x then rs ++ [r] else rs) (if is_ok x then Nat.min n (length rs) else n).
Proof.
  intros (Hrs & k & Hs & Hk) Hr Hl E. apply (append_stream r w (log rs) k) in E; [|done|done].
  split.
  - case_match; [|done]. apply Forall_app; split; [done|]. constructor; [done|constructor].
  - exists k. destruct (is_ok x).
    + rewrite log_snoc. split; [done|]. rewrite take_app_le by lia.
      destruct (decide (n <= length rs)%nat); [by rewrite Nat.min_l|].
      rewrite Nat.min_r by lia. rewrite (take_ge rs n) in Hk by lia. by rewrite take_ge.
    + done.
Qed.

Lemma wal_rep_keeps {A} (m : walM A) w rs n x w' :
  keeps m → wal_rep w rs n → m w = (x, w') → wal_rep w' rs n.
Proof.
  intros Hm (Hrs & k & Hs & Hk) E. split; [done|]. exists k. split; [by eapply Hm|done].
Qed.

Lemma wal_rep_sync w rs n w' :
  wal_rep w rs n → sync w = (Ok tt, w') → wal_rep w' rs (length rs).
Proof.
  intros (Hrs & k & Hs & Hk) E. split; [done|]. exists (length (log rs)).
  split; [by eapply sync_ok|]. apply length_log_take.
Qed.

(** ** Histories of the log *)

Inductive wal_op :=
| OpAppend (r : WalRecord) | OpFlush | OpSync | OpOpenZone | OpFinishZone | OpRotate.

(** The log with the records it has acknowledged and how many of those were
    acknowledged when a [sync] last succeeded. *)
Record history := mkHist { h_wal : Wal; h_acked : list WalRecord; h_synced : nat }.

Definition do_op (o : wal_op) (h : history) : history :=
  let w := h_wal h in
  match o with
  | OpAppend r =>
      let '(x, w') := append r w in
      mkHist w' (if is_ok x then h_acked h ++ [r] else h_acked h) (h_synced h)
  | OpFlush => mkHist (flush w).2 (h_acked h) (h_synced h)
  | OpSync =>
      let '(x, w') := sync w in
      mkHist w' (h_acked h) (if is_ok x then length (h_acked h) else h_synced h)
  | OpOpenZone => mkHist (open_zone w).2 (h_acked h) (h_synced h)
  | OpFinishZone => mkHist (finish_zone w).2 (h_acked h) (h_synced h)
  | OpRotate => mkHist (rotate w).2 (h_acked h) (h_synced h)
  end.

Definition run_ops (ops : list wal_op) (h : history) : history := fold_left (λ h o, do_op o h) ops h.

(** Records the format can hold. *)
Definition op_ok (o : wal_op) : Prop := match o with OpAppend r => rec_ok r | _ => True end.
(** No append of a record that bypasses the buffer fails. *)
Definition op_untorn (o : wal_op) (h : history) : Prop :=
  match o with OpAppend r => (length (encode r) < BUF_CAPACITY)%nat ∨ is_ok (append r (h_wal h)).1 = true | _ => True end.
Fixpoint untorn (ops : list wal_op) (h : history) : Prop :=
  match ops with [] => True | o :: ops => op_untorn o h ∧ untorn ops (do_op o h) end.

Lemma do_op_rep o h :
  op_ok o → op_untorn o h → wal_rep (h_wal h) (h_acked h) (h_synced h) ∧ (h_synced h <= length (h_acked h))%nat →
  let h' := do_op o h in
  wal_rep (h_wal h') (h_acked h') (h_synced h') ∧ (h_synced h' <= length (h_acked h'))%nat.
Proof.
  intros Ho Hu [Hrep Hle]. destruct o as [r| | | | |]; simpl.
  - unfold op_untorn in Hu. destruct (append r (h_wal h)) as [x w'] eqn:E. cbn [fst] in Hu. apply (wal_rep_append _ _ _ _ _ _ Hrep Ho Hu) in E.
    simpl. destruct (is_ok x); [|done]. rewrite Nat.min_l in E by done. split; [done|]. len.
  - split; [|done]. destruct (flush (h_wal h)) as [x w'] eqn:E. simpl.
    by eapply (wal_rep_keeps flush); [apply keeps_flush_buf| |].
  - destruct (sync (h_wal h)) as [x w'] eqn:E. simpl. destruct x as [[]|e]; simpl.
    + split; [by eapply wal_rep_sync|done].
    + split; [|done]. by eapply (wal_rep_keeps sync); [apply keeps_sync| |].
  - split; [|done]. destruct (open_zone (h_wal h)) as [x w'] eqn:E. simpl.
    by eapply (wal_rep_keeps open_zone); [apply keeps_open_zone| |].
  - split; [|done]. destruct (finish_zone (h_wal h)) as [x w'] eqn:E. simpl.
    by eapply (wal_rep_keeps finish_zone); [apply keeps_finish_zone| |].
  - split; [|done]. destruct (rotate (h_wal h)) as [x w'] eqn:E. simpl.
    by eapply (wal_rep_keeps rotate); [apply keeps_rotate| |].
Qed.

Lemma open_rep rs fs zns : Forall rec_ok rs → wal_rep (open (log rs) fs zns) rs (length rs).
Proof.
  intros Hrs. split; [done|]. exists (length (log rs)). split; [|apply length_log_take].
  exists []. simpl. by rewrite app_nil_r.
Qed.

Lemma run_ops_rep ops h :
  Forall op_ok ops → untorn ops h → wal_rep (h_wal h) (h_acked h) (h_synced h) →
  (h_synced h <= length (h_acked h))%nat →
  wal_rep (h_wal (run_ops ops h)) (h_acked (run_ops ops h)) (h_synced (run_ops ops h)).
Proof.
  intros Hops. revert h; induction Hops as [|o ops Ho Hops IH]; intros h Hu Hr Hl; [done|]. destruct Hu as [Hu Hus].
  unfold run_ops. rewrite fold_left_cons. apply IH; [done|by apply do_op_rep..].
Qed.

(** every record the writer produces is read back, whatever follows it: the
    on-disk format loses no field, for any 64-bit transaction id, type byte and
    payload whose length fits the 32-bit length field. *)
Theorem wal_record_roundtrip (r : WalRecord) (rest : list Z) (Hr : rec_ok r) :
  next_record (encode r ++ rest) = (Some r, rest).
Proof. by apply next_record_encode. Qed.

(** C1: crash safety.  Start from a file holding records [rs0]; run any sequence of
    appends (of records whose fields fit the format), flushes, syncs and zone operations,
    under any failures of the system calls (a failing write may store part of its bytes),
    except that the append of a record of 8 KiB or more, which bypasses the writer's
    buffer, must not fail: [wal_large_append_tears] shows what happens otherwise.  After a
    crash at any moment, reading the file returns a prefix of the acknowledged records, in order,
    that contains at least everything acknowledged before the last successful
    sync. *)
Theorem wal_crash_safety (rs0 : list WalRecord) (fs : list (option nat)) (zns : bool)
    (ops : list wal_op) (f : list Z) (H0 : Forall rec_ok rs0) (Hops : Forall op_ok ops) :
  let h0 := mkHist (open (log rs0) fs zns) rs0 (length rs0) in
  let h := run_ops ops h0 in
  untorn ops h0 → crash (h_wal h) f → ∃ m, (h_synced h <= m)%nat ∧ read_log f = take m (h_acked h).
Proof.
  intros h0 h Hu Hc. apply (wal_rep_crash (h_wal h)); [|done].
  apply run_ops_rep; [done|done|by apply open_rep|done].
Qed.

#[local] Program Instance Wal_DurableLog : DurableLog Wal WalRecord := {|
  dl_append := append;
  dl_sync := sync;
  dl_image := list Z;
  dl_crash := crash;
  dl_read := read_log;
  dl_record_ok := small_ok;
  dl_rep := λ w rs n, wal_rep w rs n ∧ (n <= length rs)%nat
|}.
Next Obligation.
  intros w rs n r x w' [Hr Hn] [Hok Hl] E. exists n. split; [done|].
  apply (wal_rep_append _ _ _ _ _ _ Hr Hok (or_introl Hl)) in E.
  destruct (is_ok x); [|done]. rewrite Nat.min_l in E by done. split; [done|]. len.
Qed.
Next Obligation.
  intros w rs n x w' [Hr Hn] E. destruct x as [[]|e].
  - exists (length rs). split; [done|]. split; [|done]. split; [by eapply wal_rep_sync|done].
  - exists n. split; [done|]. split; [|done]. split; [|done].
    by eapply (wal_rep_keeps sync); [apply keeps_sync| |].
Qed.
Next Obligation. intros w rs n f [Hr Hn] Hc. by eapply wal_rep_crash. Qed.

(** ** Zones *)

Definition zone_state_of (off cap : Z) : WalZoneState :=
  if Z.eqb off 0 then ZEmpty else if Z.leb cap off then ZFull else ZOpen.

(** The current zone, if any, holds at most its capacity, and its state says how full
    it is. *)
Definition zone_wf (cap : Z) (w : Wal) : Prop :=
  zone_capacity w = cap ∧
  ∀ z, current_zone w = Some z →
    capacity z = cap ∧ 0 <= write_offset z <= cap ∧ state z = zone_state_of (write_offset z) cap.

Section zones.
Context (cap : Z) (Hcap : 0 < cap < 2 ^ 64).

Lemma zone_wf_flush_buf : preserves (zone_wf cap) flush_buf.
Proof.
  intros w x w' H. unfold flush_buf. destruct (file w) as [[|b bs]|]; intros E.
  - by injection E as _ <-.
  - destruct (os_write (b :: bs) (os w)) as [[okk rest] o]. by injection E as _ <-.
  - by injection E as _ <-.
Qed.
Lemma zone_wf_write_through bs : preserves (zone_wf cap) (write_through bs).
Proof.
  intros w x w' H. unfold write_through. destruct (os_write bs (os w)) as [[okk rest] o].
  intros E. by injection E as _ <-.
Qed.
Lemma zone_wf_sync_all : preserves (zone_wf cap) sync_all.
Proof.
  intros w x w' H. unfold sync_all. destruct (os_sync (os w)) as [okk o].
  intros E. by injection E as _ <-.
Qed.
Lemma zone_wf_ioctl : preserves (zone_wf cap) zone_ioctl.
Proof.
  intros w x w' H. unfold zone_ioctl. destruct (is_zns w), (file w), (os_ioctl (os w)) as [okk o];
    intros E; by injection E as _ <-.
Qed.
#[local] Hint Resolve zone_wf_flush_buf zone_wf_write_through zone_wf_sync_all zone_wf_ioctl : preserves.

Lemma zone_wf_sync : preserves (zone_wf cap) sync.
Proof. unfold sync. preserves. Qed.
#[local] Hint Resolve zone_wf_sync : preserves.
Lemma zone_wf_finish : preserves (zone_wf cap) finish_zone.
Proof. unfold finish_zone. preserves; apply preserves_modify; by intros w [H1 H2]. Qed.
#[local] Hint Resolve zone_wf_finish : preserves.

Lemma zone_new_wf zid w : zone_wf cap w → zone_wf cap (set_zone (Some (zone_new zid (zone_capacity w))) w).
Proof.
  intros [H1 H2]. split; [done|]. simpl. intros z [= <-]. simpl. rewrite H1.
  split; [done|]. split; [lia|done].
Qed.
Lemma zone_wf_open : preserves (zone_wf cap) open_zone.
Proof.
  unfold open_zone. preserves; apply preserves_modify; intros w H; by apply zone_new_wf.
Qed.
#[local] Hint Resolve zone_wf_open : preserves.
Lemma zone_wf_rotate : preserves (zone_wf cap) rotate.
Proof. unfold rotate. preserves. Qed.
#[local] Hint Resolve zone_wf_rotate : preserves.

Lemma open_zone_fresh w zid w' :
  open_zone w = (Ok zid, w') → current_zone w' = Some (zone_new zid (zone_capacity w')).
Proof.
  unfold open_zone.
  intros [(w0 & w1 & _ & H)|(e & _ & [=])]%stM_bind_inv.
  apply stM_bind_inv in H as [(u & w2 & _ & H)|(e & _ & [=])].
  apply stM_bind_inv in H as [(w0' & w3 & H3 & H)|(e & _ & [=])].
  apply stM_bind_inv in H as [(u4 & w4 & _ & H)|(e & _ & [=])].
  apply stM_bind_inv in H as [(u5 & w5 & _ & H)|(e & _ & [=])].
  apply stM_bind_inv in H as [(u6 & w6 & H6 & H)|(e & _ & [=])].
  injection H6 as _ <-. injection H as <- <-. done.
Qed.

Lemma rotate_fresh w w' :
  rotate w = (Ok tt, w') → ∃ zid, current_zone w' = Some (zone_new zid (zone_capacity w')).
Proof.
  intros [(u & w1 & _ & H)|(e & _ & [=])]%stM_bind_inv.
  apply stM_bind_inv in H as [(zid & w2 & H & E)|(e & _ & [=])].
  injection E as <-. exists zid. by eapply open_zone_fresh.
Qed.

Lemma advance_zone_wf n w :
  zone_wf cap w → 0 < n → (∀ z, current_zone w = Some z → n <= remaining z) →
  zone_wf cap (set_zone (advance_zone n <$> current_zone w) w).
Proof.
  intros [H1 H2] Hn Hr. split; [done|]. simpl. intros z' (z & Hz & ->)%fmap_Some.
  destruct (H2 z Hz) as (G1 & G2 & G3). specialize (Hr z Hz). unfold remaining in Hr.
  unfold advance_zone. simpl. rewrite wrap_u_small by (unfold in_u; lia).
  split; [done|]. split; [lia|]. rewrite G1, G3. unfold zone_state_of.
  repeat match goal with
         | |- context [Z.eqb ?a ?b] => destruct (Z.eqb_spec a b)
         | |- context [Z.leb ?a ?b] => destruct (Z.leb_spec a b)
         | |- context [decide ?P] => destruct (decide P)
         end; try done; lia.
Qed.

Lemma zone_wf_write_all bs : preserves (zone_wf cap) (write_all bs).
Proof. unfold write_all. preserves. Qed.

Lemma zone_wf_append r :
  Z.of_nat (length (encode r)) <= cap → preserves (zone_wf cap) (append r).
Proof.
  intros Hl w x w' Hw H. unfold append in H.
  assert (0 < length (encode r))%nat as Hpos by (unfold encode; rewrite length_app; simpl; lia).
  apply stM_bind_inv in H as [(w0 & w1 & [= <- <-] & H)|(e & [=] & _)].
  set (c := match current_zone w with Some _ => _ | None => _ end) in H.
  apply stM_bind_inv in H as [(u & w1 & H1 & H)|(e & H1 & ->)].
  2:{ destruct c; [by eapply zone_wf_rotate|done]. }
  assert (zone_wf cap w1 ∧ ∀ z, current_zone w1 = Some z → Z.of_nat (length (encode r)) <= remaining z)
    as [Hw1 Hr].
  { destruct c eqn:Ec; subst c.
    - split; [by eapply zone_wf_rotate|]. destruct u. apply rotate_fresh in H1 as Hz.
      destruct Hz as [zid Hz]. assert (zone_capacity w1 = cap) as Hc.
      { eapply zone_wf_rotate; [exact Hw|exact H1]. }
      intros z. rewrite Hz. intros [= <-]. unfold remaining, zone_new. cbn [capacity write_offset]. lia.
    - injection H1 as _ <-. split; [done|]. intros z Hz. rewrite Hz in Ec.
      apply Z.ltb_ge in Ec. done. }
  apply stM_bind_inv in H as [(u2 & w2 & H2 & H)|(e & [=] & _)]. injection H2 as _ <-.
  assert (zone_wf cap (set_zone (advance_zone (Z.of_nat (length (encode r))) <$> current_zone w1) w1))
    as Hw2 by (apply advance_zone_wf; [done|lia|done]).
  revert Hw2 H. match goal with |- zone_wf cap ?w2 → ?m _ = _ → _ => set (m' := m); intros Hw2 H end.
  assert (preserves (zone_wf cap) m') as Hm; [|by eapply Hm].
  subst m'. pose proof zone_wf_write_all. preserves.
Qed.
End zones.

Definition op_fits (cap : Z) (o : wal_op) : Prop :=
  match o with OpAppend r => Z.of_nat (length (encode r)) <= cap | _ => True end.

(** ** Appending when no system call fails *)
Definition live (w : Wal) : Prop := file w ≠ None.
Definition steady (w : Wal) : Prop := live w ∧ faults (os w) = [].
Definition same_zone (w w' : Wal) : Prop :=
  current_zone w' = current_zone w ∧ zones_opened w' = zones_opened w ∧ zone_capacity w' = zone_capacity w.

Lemma flush_buf_steady w : steady w → ∃ w', flush_buf w = (Ok tt, w') ∧ steady w' ∧ same_zone w w'.
Proof using Type.
  intros [Hl Hf]. unfold flush_buf. destruct (file w) as [[|b bs]|] eqn:E; [by exists w|..|done].
  unfold os_write, next_fault. rewrite Hf. eexists. split; [done|]. by split.
Qed.
Lemma write_through_steady bs w : steady w → ∃ w', write_through bs w = (Ok tt, w') ∧ steady w' ∧ same_zone w w'.
Proof using Type. intros [Hl Hf]. unfold write_through, os_write, next_fault. rewrite Hf. eexists. split; [done|]. by split. Qed.
Lemma ioctl_steady w : steady w → ∃ w', zone_ioctl w = (Ok tt, w') ∧ steady w' ∧ same_zone w w'.
Proof using Type.
  intros [Hl Hf]. unfold zone_ioctl. destruct (is_zns w), (file w) as [b|] eqn:E; try (by exists w). unfold os_ioctl, next_fault. rewrite Hf. eexists. split; [done|].
  split; [|done]. split; [|done]. unfold live. cbn. by rewrite E.
Qed.
Lemma sync_steady w : steady w → ∃ w', sync w = (Ok tt, w') ∧ steady w' ∧ same_zone w w'.
Proof using Type.
  intros Hw. unfold sync, mbind, stM_bind, st_get. destruct (file w) eqn:E; [|by destruct Hw as [Hl _]].
  destruct (flush_buf_steady w Hw) as (w1 & -> & [Hl1 Hf1] & Hz1). unfold sync_all, os_sync, next_fault. rewrite Hf1. eexists. split; [done|]. by split.
Qed.
Lemma write_all_steady bs w : steady w → ∃ w', write_all bs w = (Ok tt, w') ∧ steady w' ∧ same_zone w w'.
Proof using Type.
  intros Hw. unfold write_all, mbind, stM_bind, st_get.
  set (c := bool_decide (_ < _)%nat). assert (∃ w1, (if c then flush_buf else mret tt) w = (Ok tt, w1) ∧ steady w1 ∧ same_zone w w1) as (w1 & -> & Hw1 & Hz1).
  { destruct c; [by apply flush_buf_steady|by exists w]. }
  case_bool_decide.
  - destruct (write_through_steady bs w1 Hw1) as (w2 & -> & Hw2 & Hz2). exists w2. split; [done|]. split; [done|]. destruct Hz1 as (? & ? & ?), Hz2 as (? & ? & ?). split_and!; congruence.
  - eexists. split; [done|]. split; [|done]. destruct Hw1 as [Hl Hf]. split; [|done]. unfold live in *. cbn. by destruct (file w1).
Qed.
Lemma finish_steady w : steady w → ∃ w', finish_zone w = (Ok tt, w') ∧ steady w' ∧ current_zone w' = None ∧ zones_opened w' = zones_opened w ∧ zone_capacity w' = zone_capacity w.
Proof using Type.
  intros Hw. unfold finish_zone, mbind, stM_bind, st_get, st_modify. assert (Hw0 : steady (set_zone None w)) by exact Hw. destruct (current_zone w); [|by eexists].
  destruct (ioctl_steady _ Hw0) as (w1 & -> & Hw1 & Z1 & Z2 & Z3), (sync_steady w1 Hw1) as (w2 & -> & Hw2 & Y1 & Y2 & Y3). eexists. split; [done|]. split; [exact Hw2|]. cbn. rewrite Y1, Y2, Y3, Z1, Z2, Z3. done.
Qed.
Lemma rotate_steady w : steady w → ∃ w', rotate w = (Ok tt, w') ∧ steady w' ∧ current_zone w' = Some (zone_new (zones_opened w) (zone_capacity w)).
Proof using Type.
  intros Hw. unfold rotate, open_zone, mbind, stM_bind, mret, stM_ret, st_get, st_modify. destruct (finish_steady w Hw) as (w1 & -> & Hw1 & Hz & Ho & Hc). rewrite Hz.
  destruct (ioctl_steady (set_zcounts (wrap_u 64 (zones_opened w1 + 1)) (zones_finished w1) w1) Hw1) as (w2 & -> & Hw2 & Z1 & Z2 & Z3). eexists. split; [done|]. split; [exact Hw2|]. cbn. rewrite Z3. cbn. by rewrite Ho, Hc.
Qed.
(** The zone a record goes to: the current one if it has room, else one opened for it. *)
Definition zone_for (len : Z) (w : Wal) : WalZone :=
  let fresh := zone_new (zones_opened w) (zone_capacity w) in
  match current_zone w with Some z => if Z.leb len (remaining z) then z else fresh | None => fresh end.
Lemma append_steady r w : steady w → ∃ w', append r w = (Ok tt, w') ∧
  current_zone w' = Some (advance_zone (Z.of_nat (length (encode r))) (zone_for (Z.of_nat (length (encode r))) w)).
Proof using Type.
  intros Hw. set (len := Z.of_nat (length (encode r))). unfold append, mbind, stM_bind, st_get. fold len.
  set (c := match current_zone w with None => true | Some z => Z.ltb (remaining z) len end).
  assert (∃ w1, (if c then rotate else mret tt) w = (Ok tt, w1) ∧ steady w1 ∧ current_zone w1 = Some (zone_for len w)) as (w1 & -> & Hw1 & Hz1).
  { unfold c, zone_for. destruct (current_zone w) as [z|] eqn:E; [|by apply rotate_steady]. destruct (Z.ltb_spec (remaining z) len).
    - rewrite (proj2 (Z.leb_gt _ _)) by done. by apply rotate_steady.
    - rewrite (proj2 (Z.leb_le _ _)) by done. by exists w. }
  unfold st_modify. cbn [set_zone file]. destruct (file w1) eqn:E; [|by destruct Hw1 as [Hl _]].
  destruct (write_all_steady (encode r) (set_zone (advance_zone len <$> current_zone w1) w1) Hw1) as (w2 & -> & Hw2 & Z1 & _). eexists. split; [done|]. cbn. rewrite Z1. cbn. by rewrite Hz1.
Qed.

(** ** The file stays open *)
Lemma live_flush_buf : preserves live flush_buf.
Proof using Type. intros w x w' H. unfold flush_buf. destruct (file w) as [[|b bs]|]; [|destruct (os_write (b :: bs) (os w)) as [[okk rest] o]|]; intros E; by injection E as _ <-. Qed.
Lemma live_write_through bs : preserves live (write_through bs).
Proof using Type. intros w x w' H. unfold write_through. destruct (os_write bs (os w)) as [[okk rest] o]. intros E. by injection E as _ <-. Qed.
Lemma live_sync_all : preserves live sync_all.
Proof using Type. intros w x w' H. unfold sync_all. destruct (os_sync (os w)) as [okk o]. intros E. by injection E as _ <-. Qed.
Lemma live_ioctl : preserves live zone_ioctl.
Proof using Type. intros w x w' H. unfold zone_ioctl. destruct (is_zns w), (file w), (os_ioctl (os w)) as [okk o]; intros E; by injection E as _ <-. Qed.
#[local] Hint Resolve live_flush_buf live_write_through live_sync_all live_ioctl : preserves.
Lemma live_sync : preserves live sync.
Proof using Type. unfold sync. preserves. Qed.
#[local] Hint Resolve live_sync : preserves.
Lemma live_finish : preserves live finish_zone.
Proof using Type. unfold finish_zone. preserves; by apply preserves_modify. Qed.
#[local] Hint Resolve live_finish : preserves.
Lemma live_open : preserves live open_zone.
Proof using Type. unfold open_zone. preserves; by apply preserves_modify. Qed.
#[local] Hint Resolve live_open : preserves.
Lemma live_rotate : preserves live rotate.
Proof using Type. unfold rotate. preserves. Qed.
#[local] Hint Resolve live_rotate : preserves.
Lemma live_write_all bs : preserves live (write_all bs).
Proof using Type. unfold write_all. preserves. apply preserves_modify. intros w H. unfold live in *. cbn. by destruct (file w). Qed.
#[local] Hint Resolve live_write_all : preserves.
Lemma live_append r : preserves live (append r).
Proof using Type. unfold append. preserves; by apply preserves_modify. Qed.

(** An operation keeps what its parts keep. *)
Lemma run_ops_keeps (I : Wal → Prop) ops h : (∀ r, OpAppend r ∈ ops → preserves I (append r)) → preserves I flush_buf → preserves I sync →
  preserves I open_zone → preserves I finish_zone → preserves I rotate → I (h_wal h) → I (h_wal (run_ops ops h)).
Proof using Type.
  intros Ha Hf Hs Ho Hfi Hr. revert h. induction ops as [|o ops IH]; intros h Hh; [done|]. unfold run_ops. rewrite fold_left_cons. apply IH; [intros r Hin; apply Ha, elem_of_cons; by right|].
  destruct o as [r| | | | |]; cbn [do_op h_wal].
  - destruct (append r (h_wal h)) eqn:E. eapply (Ha r); [apply elem_of_cons; by left|exact Hh|exact E].
  - destruct (flush (h_wal h)) eqn:E. by eapply Hf.
  - destruct (sync (h_wal h)) eqn:E. by eapply Hs.
  - destruct (open_zone (h_wal h)) eqn:E. by eapply Ho.
  - destruct (finish_zone (h_wal h)) eqn:E. by eapply Hfi.
  - destruct (rotate (h_wal h)) eqn:E. by eapply Hr.
Qed.


End hash.

(** ** Witnesses *)
Lemma hash0_range : ∀ l : list Z, in_u 64 ((λ _, 0) l).
Proof. intros l. done. Qed.

Definition rec1 : WalRecord := mkRec 7 2 [1; 2; 3].
Definition rec2 : WalRecord := mkRec 8 0 [].

Lemma rec1_ok : small_ok (λ _, 0) rec1.
Proof. split; [repeat split; by repeat constructor|]. by apply Nat.ltb_lt. Qed.
Lemma rec2_ok : small_ok (λ _, 0) rec2.
Proof. split; [repeat split; by repeat constructor|]. by apply Nat.ltb_lt. Qed.

Lemma wal_record_roundtrip_witness :
  next_record (λ _, 0) (encode (λ _, 0) rec1 ++ [9; 9]) = (Some rec1, [9; 9]).
Proof.
  apply (wal_record_roundtrip (λ _, 0) hash0_range rec1 [9; 9]).
  apply rec1_ok.
Defined.

(** Two records, a sync between them, a failing system call, and a crash that loses
    the unsynced tail. *)
Definition demo_ops : list wal_op := [OpAppend rec1; OpSync; OpAppend rec2; OpFlush; OpRotate].

Lemma wal_crash_safety_witness :
  let h := run_ops (λ _, 0) demo_ops
             (mkHist (open (log (λ _, 0) [rec2]) [None; None; Some 3%nat; Some 5%nat] false) [rec2] 1) in
  crash (h_wal h) (take 58 (disk (os (h_wal h)))) ∧
  ∃ m, (h_synced h <= m)%nat ∧ read_log (λ _, 0) (take 58 (disk (os (h_wal h)))) = take m (h_acked h).
Proof.
  intros h. assert (crash (h_wal h) (take 58 (disk (os (h_wal h))))) as Hc.
  { exists 58%nat. split; [|done]. apply Nat.leb_le. vm_compute. reflexivity. }
  split; [exact Hc|].
  apply (wal_crash_safety (λ _, 0) hash0_range [rec2] [None; None; Some 3%nat; Some 5%nat] false demo_ops).
  - constructor; [apply rec2_ok|constructor].
  - unfold demo_ops. do 5 (apply Forall_cons_2; [first [apply rec1_ok|apply rec2_ok|exact I]|]).
    apply Forall_nil_2.
  - cbn [untorn demo_ops]. repeat split; left; apply Nat.ltb_lt; vm_compute; reflexivity.
  - exact Hc.
Defined.


(** a failed append of a large record tears the log.  A record of 8 KiB or more
    bypasses the buffer; when its write fails part way, [append] reports the error
    but the torn bytes stay in the file, and the next record, appended and synced
    with success, is behind them: a reader after a restart does not find it. *)
Theorem wal_large_append_tears :
  let h0 := mkHist (open [] [Some 100%nat] false) [] 0 in
  let big := mkRec 1 2 (replicate (Z.to_nat 9000) 0) in
  let h := run_ops (λ _, 0) [OpAppend big; OpAppend rec2; OpSync] h0 in
  h_acked h = [rec2] ∧ h_synced h = 1%nat ∧ crash (h_wal h) (disk (os (h_wal h))) ∧
  read_log (λ _, 0) (disk (os (h_wal h))) = [].
Proof.
  intros h0 big h. split_and!; [vm_compute; reflexivity..| |vm_compute; reflexivity].
  exists (length (disk (os (h_wal h)))). split; [|by rewrite take_ge].
  apply Nat.leb_le. vm_compute. reflexivity.
Qed.

End WalM.
