(* ===== verification/Memory.v ===== *)
(** * Memory tiers, regions and the per-tier LRU manager
    (src/src/memory/tier.rs, region.rs, manager.rs)

    A region's payload is its 2 MiB of bytes, whatever backs it; slices out of range
    panic ([None]).  The manager's maps are finite maps, its deques lists with the
    most recently used id first. *)

From Stdlib Require Import ZArith Lia.
From stdpp Require Import prelude gmap list numbers.
From S2P Require Import Prelude.
Local Open Scope Z_scope.

Module MemoryM.

Inductive MemoryTier := L1L2 | L3 | Ddr5 | Hbm | Cxl | Nvme | NvmeOf | Network.

#[global] Instance MemoryTier_eq_dec : EqDecision MemoryTier.
Proof. solve_decision. Defined.

Definition tier_code (t : MemoryTier) : nat :=
  match t with
  | L1L2 => 0 | L3 => 1 | Ddr5 => 2 | Hbm => 3 | Cxl => 4 | Nvme => 5 | NvmeOf => 6 | Network => 7
  end.
Definition tier_decode (n : nat) : option MemoryTier :=
  [L1L2; L3; Ddr5; Hbm; Cxl; Nvme; NvmeOf; Network] !! n.
#[global] Instance MemoryTier_countable : Countable MemoryTier.
Proof. refine (inj_countable tier_code tier_decode _). by intros []. Defined.

(** Latency in nanoseconds and energy in tenths of a nanojoule (the floating-point
    constants of the source are multiples of these units). *)
Definition latency_ns (t : MemoryTier) : Z :=
  match t with
  | L1L2 => 4 | L3 => 15 | Ddr5 => 90 | Hbm => 120 | Cxl => 250
  | Nvme => 20000 | NvmeOf => 50000 | Network => 5000
  end.

Definition bandwidth_gbps (t : MemoryTier) : Z :=
  match t with
  | L1L2 => 2000 | L3 => 300 | Ddr5 => 50 | Hbm => 1600 | Cxl => 64
  | Nvme => 14 | NvmeOf => 12 | Network => 50
  end.

Definition energy_dnj (t : MemoryTier) : Z :=
  match t with
  | L1L2 => 1 | L3 => 15 | Ddr5 => 20 | Hbm => 20 | Cxl => 70
  | Nvme => 10000 | NvmeOf => 15000 | Network => 5000
  end.

Definition is_volatile (t : MemoryTier) : bool :=
  match t with L1L2 | L3 | Ddr5 | Hbm | Cxl => true | _ => false end.

Definition is_local (t : MemoryTier) : bool :=
  match t with L1L2 | L3 | Ddr5 | Hbm | Cxl | Nvme => true | _ => false end.

(** ** Regions *)

Definition REGION_SIZE : nat := Z.to_nat (2 * 1024 * 1024).

Record RegionStats := mkStats { reads : Z; writes : Z; last_access_ns : Z }.

Definition record_read (now : Z) (s : RegionStats) : RegionStats :=
  mkStats (wrap_u 64 (reads s + 1)) (writes s) now.
Definition record_write (now : Z) (s : RegionStats) : RegionStats :=
  mkStats (reads s) (wrap_u 64 (writes s + 1)) now.
Definition total_accesses (s : RegionStats) : Z := wrap_u 64 (reads s + writes s).

Record Region := mkRegion {
  id : Z;
  data : list Z;
  tier : MemoryTier;
  numa_node : option Z;
  stats : RegionStats;
  column_id : option Z;
  row_range : option (Z * Z)
}.

Definition set_data d r := mkRegion (id r) d (tier r) (numa_node r) (stats r) (column_id r) (row_range r).
Definition set_stats s r := mkRegion (id r) (data r) (tier r) (numa_node r) s (column_id r) (row_range r).

(** [RegionBacking::new] is zeroed; [copy_from] stops at the shorter length. *)
Definition backing_new : list Z := replicate REGION_SIZE 0.
Definition copy_from (src dst : list Z) : list Z :=
  let n := Nat.min (length src) (length dst) in take n src ++ drop n dst.

Definition allocate (i : Z) (t : MemoryTier) : Region :=
  mkRegion i backing_new t None (mkStats 0 0 0) None None.

Definition from_bytes (i : Z) (t : MemoryTier) (bytes : list Z) : Region :=
  mkRegion i (copy_from bytes backing_new) t None (mkStats 0 0 0) None None.

(** [data[offset..end]] with [end] clipped to the region; a start past the end
    panics.  Offsets are 64-bit, so [offset + len] wraps. *)
Definition clip (offset : Z) (n : nat) (r : Region) : Z :=
  Z.min (wrap_u 64 (offset + Z.of_nat n)) (Z.of_nat (length (data r))).

Definition read (now offset : Z) (n : nat) (r : Region) : option (list Z) * Region :=
  let r := set_stats (record_read now (stats r)) r in
  let e := clip offset n r in
  (if bool_decide (offset <= e)
   then Some (slice (Z.to_nat offset) (Z.to_nat (e - offset)) (data r)) else None, r).

Definition write (now offset : Z) (src : list Z) (r : Region) : option () * Region :=
  let r := set_stats (record_write now (stats r)) r in
  let e := clip offset (length src) r in
  if bool_decide (offset <= e)
  then (Some tt, set_data (splice (Z.to_nat offset) (take (Z.to_nat (e - offset)) src) (data r)) r)
  else (None, r).

Definition as_u64_cells (now : Z) (r : Region) : list Z * Region :=
  (le_decode <$> (chunks_exact 8 (data r)).1, set_stats (record_read now (stats r)) r).

Definition migrate_to (new_tier : MemoryTier) (r : Region) : Region :=
  mkRegion (id r) (copy_from (data r) backing_new) new_tier (numa_node r) (stats r)
           (column_id r) (row_range r).

(** ** The manager *)

Definition UNLIMITED_CAPACITY : Z := 2 ^ 64 - 1.

Record MemoryManager := mkMgr {
  tier_lru : gmap MemoryTier (list Z);
  regions : gmap Z Region;
  capacities : gmap MemoryTier Z
}.

Definition with_capacity (caps : gmap MemoryTier Z) : MemoryManager := mkMgr ∅ ∅ caps.
Definition manager_new : MemoryManager :=
  with_capacity (<[Nvme := UNLIMITED_CAPACITY]> (<[Cxl := 1024]> (<[Ddr5 := 256]> {[L3 := 16]}))).

Definition lru_of (m : MemoryManager) (t : MemoryTier) : list Z := default [] (tier_lru m !! t).

Definition regions_in_tier (t : MemoryTier) (m : MemoryManager) : nat := length (lru_of m t).
Definition total_regions (m : MemoryManager) : nat := size (regions m).
Definition contains (i : Z) (m : MemoryManager) : bool := bool_decide (is_Some (regions m !! i)).
Definition tier_capacity (t : MemoryTier) (m : MemoryManager) : Z :=
  default UNLIMITED_CAPACITY (capacities m !! t).
Definition tier_lru_order (t : MemoryTier) (m : MemoryManager) : list Z := lru_of m t.

Definition tier_is_full (t : MemoryTier) (m : MemoryManager) : bool :=
  let cap := tier_capacity t m in
  if Z.eqb cap UNLIMITED_CAPACITY then false
  else Z.leb cap (Z.of_nat (regions_in_tier t m)).

(** [lru.retain(|id| id != region_id)]. *)
Definition retain_ne (i : Z) (l : list Z) : list Z := filter (λ j, j ≠ i) l.

Definition remove_from_any_tier (i : Z) (m : MemoryManager) : MemoryManager :=
  match regions m !! i with
  | Some old => mkMgr (alter (retain_ne i) (tier old) (tier_lru m)) (regions m) (capacities m)
  | None => m
  end.

(** [regions.insert] and [tier_lru.entry(tier).or_default().push_front]. *)
Definition insert_front (r : Region) (t : MemoryTier) (m : MemoryManager) : MemoryManager :=
  mkMgr (<[t := id r :: lru_of m t]> (tier_lru m)) (<[id r := r]> (regions m)) (capacities m).

Definition register (r : Region) (m : MemoryManager) : MemoryManager :=
  insert_front r (tier r) (remove_from_any_tier (id r) m).

Definition access (i : Z) (m : MemoryManager) : option Region * MemoryManager :=
  match regions m !! i with
  | None => (None, m)
  | Some r =>
      (Some r, mkMgr (alter (λ l, i :: retain_ne i l) (tier r) (tier_lru m)) (regions m) (capacities m))
  end.

(** [VecDeque::pop_back]. *)
Fixpoint pop_back (l : list Z) : option (Z * list Z) :=
  match l with
  | [] => None
  | [x] => Some (x, [])
  | x :: l => match pop_back l with Some (y, l') => Some (y, x :: l') | None => None end
  end.

Definition pop_back_from_tier (t : MemoryTier) (m : MemoryManager) : option (Z * MemoryManager) :=
  match tier_lru m !! t with
  | None => None
  | Some l =>
      match pop_back l with
      | Some (x, l') => Some (x, mkMgr (<[t := l']> (tier_lru m)) (regions m) (capacities m))
      | None => None
      end
  end.

Definition drop_region (i : Z) (m : MemoryManager) : MemoryManager :=
  mkMgr (tier_lru m) (delete i (regions m)) (capacities m).

(** [while tier_is_full(target)]: each turn shortens the list, so its length is fuel
    enough. *)
Fixpoint evict_loop (fuel : nat) (t : MemoryTier) (m : MemoryManager) : list Z * MemoryManager :=
  match fuel with
  | O => ([], m)
  | S fuel =>
      if tier_is_full t m then
        match pop_back_from_tier t m with
        | Some (x, m) => let '(ev, m) := evict_loop fuel t (drop_region x m) in (x :: ev, m)
        | None => ([], m)
        end
      else ([], m)
  end.

Definition place_region (r : Region) (t : MemoryTier) (m : MemoryManager) : list Z * MemoryManager :=
  let m := remove_from_any_tier (id r) m in
  let '(evicted, m) := evict_loop (S (regions_in_tier t m)) t m in
  (evicted, insert_front r t m).

Fixpoint evict_from_tier (t : MemoryTier) (count : nat) (m : MemoryManager) : list Z * MemoryManager :=
  match count with
  | O => ([], m)
  | S count =>
      match pop_back_from_tier t m with
      | Some (x, m) => let '(ev, m) := evict_from_tier t count (drop_region x m) in (x :: ev, m)
      | None => ([], m)
      end
  end.

(** ** Regions keep their bytes *)
Lemma length_copy_from src dst : length (copy_from src dst) = length dst.
Proof. unfold copy_from. rewrite length_app, length_take, length_drop. lia. Qed.

Lemma REGION_SIZE_Z : Z.of_nat REGION_SIZE = 2097152.
Proof. unfold REGION_SIZE. by rewrite Z2Nat.id. Qed.

Lemma length_backing : length backing_new = REGION_SIZE.
Proof. apply length_replicate. Qed.

Lemma copy_from_same src dst : length src = length dst → copy_from src dst = src.
Proof.
  intros H. unfold copy_from. rewrite H, Nat.min_id, take_ge, drop_ge by lia. apply app_nil_r.
Qed.

(** migration keeps the payload: the copy in the new tier has exactly the bytes,
    the id and the statistics of the old region, and reads of it return the same. *)
Theorem migrate_keeps_payload (r : Region) (t : MemoryTier) (now offset : Z) (n : nat)
    (Hr : length (data r) = REGION_SIZE) :
  let r' := migrate_to t r in
  data r' = data r ∧ tier r' = t ∧ id r' = id r ∧ stats r' = stats r ∧
  (read now offset n r').1 = (read now offset n r).1.
Proof.
  intros r'. assert (data r' = data r) as Hd by (apply copy_from_same; by rewrite length_backing).
  split_and!; [done..|]. unfold read, clip. cbn [fst data set_stats]. by rewrite Hd.
Qed.

Lemma migrate_keeps_payload_witness :
  let r' := migrate_to Nvme (allocate 3 Ddr5) in
  data r' = data (allocate 3 Ddr5) ∧ tier r' = Nvme ∧ id r' = id (allocate 3 Ddr5) ∧
  stats r' = stats (allocate 3 Ddr5) ∧
  (read 0 8 4 r').1 = (read 0 8 4 (allocate 3 Ddr5)).1.
Proof. apply (migrate_keeps_payload (allocate 3 Ddr5) Nvme 0 8 4). apply length_backing. Defined.

(** a write within the region is read back, leaves every other byte alone, keeps
    the region's size and counts one write. *)
Theorem region_write_read (r : Region) (now now' offset : Z) (src : list Z)
    (Hr : length (data r) = REGION_SIZE)
    (H0 : 0 <= offset) (Hfit : offset + Z.of_nat (length src) <= Z.of_nat REGION_SIZE) :
  let r' := (write now offset src r).2 in
  (write now offset src r).1 = Some tt ∧ length (data r') = REGION_SIZE ∧
  (read now' offset (length src) r').1 = Some src ∧
  (∀ i, (i < Z.to_nat offset ∨ Z.to_nat offset + length src <= i)%nat → data r' !! i = data r !! i) ∧
  writes (stats r') = wrap_u 64 (writes (stats r) + 1).
Proof.
  pose proof REGION_SIZE_Z as HS.
  assert (clip offset (length src) r = offset + Z.of_nat (length src)) as Hc.
  { unfold clip. rewrite Hr. rewrite wrap_u_small by (unfold in_u; lia). lia. }
  unfold write. change (clip offset (length src) (set_stats (record_write now (stats r)) r))
    with (clip offset (length src) r). rewrite Hc.
  rewrite bool_decide_true by lia. cbn [fst snd data set_data set_stats stats].
  replace (Z.to_nat (offset + Z.of_nat (length src) - offset)) with (length src) by lia.
  rewrite take_ge by lia.
  assert (Z.to_nat offset + length src <= length (data r))%nat as Hle by lia.
  assert (length (splice (Z.to_nat offset) src (data r)) = REGION_SIZE) as Hl
    by (by rewrite length_splice).
  split_and!; [done|done| | |done].
  - unfold read, clip. cbn [fst data set_stats set_data]. rewrite Hl.
    rewrite wrap_u_small by (unfold in_u; lia). rewrite Z.min_l by lia.
    rewrite bool_decide_true by lia.
    replace (Z.to_nat (offset + Z.of_nat (length src) - offset)) with (length src) by lia.
    by rewrite slice_splice_eq.
  - intros i Hi. by apply lookup_splice_ne.
Qed.

Lemma region_write_read_witness :
  let r' := (write 5 2 [1; 2; 3] (allocate 3 Ddr5)).2 in
  (write 5 2 [1; 2; 3] (allocate 3 Ddr5)).1 = Some tt ∧ length (data r') = REGION_SIZE ∧
  (read 6 2 3 r').1 = Some [1; 2; 3] ∧
  (∀ i, (i < Z.to_nat 2 ∨ Z.to_nat 2 + 3 <= i)%nat → data r' !! i = data (allocate 3 Ddr5) !! i) ∧
  writes (stats r') = wrap_u 64 (writes (stats (allocate 3 Ddr5)) + 1).
Proof.
  apply (region_write_read (allocate 3 Ddr5) 5 6 2 [1; 2; 3]); [apply length_backing|lia|].
  apply Z.leb_le. vm_compute. reflexivity.
Defined.

(** ** Eviction *)
Lemma pop_back_snoc l x : pop_back (l ++ [x]) = Some (x, l).
Proof.
  induction l as [|y l IH]; [done|]. simpl. rewrite IH. by destruct l.
Qed.

(** How many of [l] ids stay when one more is to be placed. *)
Definition room (t : MemoryTier) (m : MemoryManager) (l : list Z) : nat :=
  if Z.eqb (tier_capacity t m) UNLIMITED_CAPACITY then length l
  else Nat.pred (Z.to_nat (tier_capacity t m)).

Lemma lru_of_insert t l t' ls rs cs :
  lru_of (mkMgr (<[t := l]> ls) rs cs) t' = if decide (t' = t) then l else default [] (ls !! t').
Proof. unfold lru_of. simpl. rewrite lookup_insert. repeat case_decide; naive_solver. Qed.

Lemma lru_of_alter f t t' m rs cs :
  f [] = [] →
  lru_of (mkMgr (alter f t (tier_lru m)) rs cs) t' = if decide (t' = t) then f (lru_of m t) else lru_of m t'.
Proof.
  intros Hf. unfold lru_of. simpl. case_decide as H.
  - subst. rewrite lookup_alter_eq. destruct (tier_lru m !! t); [done|]. simpl. by rewrite Hf.
  - by rewrite lookup_alter_ne.
Qed.

(** The eviction loop keeps the [room] most recent ids and returns the others, least
    recently used first. *)
Lemma evict_loop_spec fuel t m ev m' :
  0 <= tier_capacity t m → (length (lru_of m t) < fuel)%nat → evict_loop fuel t m = (ev, m') →
  let l := lru_of m t in
  let k := room t m l in
  lru_of m' t = take k l ∧ ev = reverse (drop k l) ∧
  (∀ t', t' ≠ t → lru_of m' t' = lru_of m t') ∧ capacities m' = capacities m ∧
  (∀ i, regions m' !! i = if decide (i ∈ ev) then None else regions m !! i).
Proof.
  intros Hcap. revert m Hcap ev m'; induction fuel as [|fuel IH]; intros m Hcap ev m' Hf; [lia|].
  cbn [evict_loop]. unfold tier_is_full, regions_in_tier, room.
  set (l := lru_of m t) in *. set (cap := tier_capacity t m) in *. intros E.
  assert (∀ k, (length l <= k)%nat → (ev, m') = ([], m) →
    lru_of m' t = take k l ∧ ev = reverse (drop k l) ∧
    (∀ t', t' ≠ t → lru_of m' t' = lru_of m t') ∧ capacities m' = capacities m ∧
    (∀ i, regions m' !! i = if decide (i ∈ ev) then None else regions m !! i)) as Hstop.
  { intros k Hk [= -> ->]. rewrite take_ge, drop_ge by lia. split_and!; [done..|].
    intros i. rewrite decide_False; [done|]. by apply not_elem_of_nil. }
  destruct (Z.eqb_spec cap UNLIMITED_CAPACITY) as [Hu|Hu].
  { apply Hstop; [done|by symmetry]. }
  destruct (Z.leb_spec cap (Z.of_nat (length l))) as [Hfull|Hroom].
  2:{ apply Hstop; [lia|by symmetry]. }
  destruct (decide (l = [])) as [Hnil|Hnil].
  { apply Hstop; [rewrite Hnil; simpl; lia|]. rewrite <- E. unfold pop_back_from_tier.
    unfold l, lru_of in Hnil. destruct (tier_lru m !! t) as [l0|]; [|done].
    simpl in Hnil. by subst l0. }
  destruct (exists_last Hnil) as (l1 & x & Hl).
  assert (tier_lru m !! t = Some l) as Ht.
  { unfold l, lru_of in *. by destruct (tier_lru m !! t). }
  unfold pop_back_from_tier in E. rewrite Ht, Hl, pop_back_snoc in E.
  set (m1 := drop_region x (mkMgr (<[t := l1]> (tier_lru m)) (regions m) (capacities m))) in E.
  destruct (evict_loop fuel t m1) as [ev1 m2] eqn:E1. injection E as <- <-.
  assert (lru_of m1 t = l1) as Hl1.
  { unfold m1, drop_region. cbn [tier_lru regions capacities]. rewrite lru_of_insert. by rewrite decide_True. }
  assert (length l = S (length l1)) as Hlen by (rewrite Hl, length_app; simpl; lia).
  destruct (IH m1 Hcap ev1 m2) as (G1 & G2 & G3 & G4 & G5); [rewrite Hl1; lia|done|].
  rewrite Hl1 in G1, G2. unfold room in G1, G2.
  change (tier_capacity t m1) with cap in G1, G2. rewrite (proj2 (Z.eqb_neq _ _)) in G1, G2 by done.
  assert (Nat.pred (Z.to_nat cap) <= length l1)%nat as Hk by lia.
  split_and!.
  - by rewrite Hl, take_app_le.
  - rewrite Hl, drop_app_le, reverse_snoc by done. by rewrite G2.
  - intros t' Hne. rewrite G3 by done. unfold m1, drop_region. cbn [tier_lru regions capacities].
    rewrite lru_of_insert. by rewrite decide_False.
  - done.
  - intros i. rewrite G5. simpl. destruct (decide (i = x)) as [->|Hi].
    + rewrite (decide_True (P := x ∈ x :: ev1)) by set_solver. rewrite lookup_delete_eq. by case_decide.
    + rewrite lookup_delete_ne by done. repeat case_decide; set_solver.
Qed.

(** Every resident id is in the list of its region's tier, once, and only there. *)
Record mgr_wf (m : MemoryManager) : Prop := {
  mw_nodup : ∀ t, NoDup (lru_of m t);
  mw_mem : ∀ t i, i ∈ lru_of m t ↔ ∃ r, regions m !! i = Some r ∧ tier r = t
}.

Lemma elem_retain_ne i j l : j ∈ retain_ne i l ↔ j ≠ i ∧ j ∈ l.
Proof. unfold retain_ne. by rewrite list_elem_of_filter. Qed.

Lemma retain_ne_id i l : i ∉ l → retain_ne i l = l.
Proof.
  intros H. induction l as [|x l IH]; [done|]. unfold retain_ne in *. rewrite filter_cons.
  rewrite decide_True by set_solver. f_equal. apply IH. set_solver.
Qed.

Lemma remove_spec i m :
  mgr_wf m → ∀ t, lru_of (remove_from_any_tier i m) t = retain_ne i (lru_of m t).
Proof.
  intros Hwf t. unfold remove_from_any_tier. destruct (regions m !! i) as [r|] eqn:E.
  - rewrite lru_of_alter by done. case_decide as Ht; [by subst|].
    rewrite retain_ne_id; [done|]. intros (r' & H1 & H2)%(mw_mem _ Hwf). congruence.
  - rewrite retain_ne_id; [done|]. intros (r' & H1 & H2)%(mw_mem _ Hwf). congruence.
Qed.

Lemma remove_other i m :
  regions (remove_from_any_tier i m) = regions m ∧ capacities (remove_from_any_tier i m) = capacities m.
Proof. unfold remove_from_any_tier. by destruct (regions m !! i). Qed.

Definition caps_wf (m : MemoryManager) : Prop := ∀ t, 0 <= tier_capacity t m.

Lemma place_spec r m ev m' :
  mgr_wf m → caps_wf m → place_region r (tier r) m = (ev, m') →
  let l := retain_ne (id r) (lru_of m (tier r)) in
  let k := room (tier r) m l in
  lru_of m' (tier r) = id r :: take k l ∧ ev = reverse (drop k l) ∧
  (∀ t, t ≠ tier r → lru_of m' t = retain_ne (id r) (lru_of m t)) ∧
  (∀ i, regions m' !! i = if decide (i = id r) then Some r
                          else if decide (i ∈ ev) then None else regions m !! i) ∧
  capacities m' = capacities m.
Proof.
  intros Hwf Hc. unfold place_region. set (m1 := remove_from_any_tier (id r) m).
  destruct (remove_other (id r) m) as [R1 R2]. fold m1 in R1, R2.
  destruct (evict_loop (S (regions_in_tier (tier r) m1)) (tier r) m1) as [ev1 m2] eqn:E.
  intros [= <- <-].
  assert (tier_capacity (tier r) m1 = tier_capacity (tier r) m) as Hcap
    by (unfold tier_capacity; by rewrite R2).
  apply evict_loop_spec in E as (G1 & G2 & G3 & G4 & G5);
    [|rewrite Hcap; apply Hc|unfold regions_in_tier; lia].
  unfold m1 in G1, G2, G3. rewrite remove_spec in G1, G2 by done. fold m1 in G1, G2, G3.
  unfold room in G1, G2. rewrite Hcap in G1, G2. fold (room (tier r) m) in G1, G2.
  unfold insert_front. split_and!.
  - rewrite lru_of_insert, decide_True by done. f_equal. exact G1.
  - exact G2.
  - intros t Ht. rewrite lru_of_insert, decide_False by done.
    change (default [] (tier_lru m2 !! t)) with (lru_of m2 t). rewrite G3 by done.
    by apply remove_spec.
  - intros i. simpl. rewrite lookup_insert. destruct (decide (i = id r)) as [->|Hi].
    + by rewrite decide_True.
    + rewrite decide_False by done. by rewrite G5, R1.
  - simpl. by rewrite G4.
Qed.

Lemma nodup_retain i l : NoDup l → NoDup (retain_ne i l).
Proof. apply list.NoDup_filter. Qed.

Lemma elem_take_1 k (l : list Z) j : j ∈ take k l → j ∈ l.
Proof. intros H. rewrite <- (take_drop k l). apply elem_of_app. auto. Qed.
Lemma elem_drop_1 k (l : list Z) j : j ∈ drop k l → j ∈ l.
Proof. intros H. rewrite <- (take_drop k l). apply elem_of_app. auto. Qed.

Lemma nodup_take k (l : list Z) : NoDup l → NoDup (take k l).
Proof. rewrite <- (take_drop k l) at 1. by intros (H & _ & _)%list.NoDup_app. Qed.

Lemma nodup_take_drop k (l : list Z) j : NoDup l → j ∈ take k l → j ∉ drop k l.
Proof.
  intros Hn Ht Hd. rewrite <- (take_drop k l) in Hn.
  apply list.NoDup_app in Hn as (_ & H & _). by eapply H.
Qed.

Lemma place_wf r m ev m' :
  mgr_wf m → caps_wf m → place_region r (tier r) m = (ev, m') → mgr_wf m'.
Proof.
  intros Hwf Hc E. apply place_spec in E as (G1 & G2 & G3 & G4 & _); [|done|done].
  set (l := retain_ne (id r) (lru_of m (tier r))) in *. set (k := room (tier r) m l) in *.
  assert (NoDup l) as Hl by (apply nodup_retain, Hwf).
  assert (∀ i, i ∈ ev ↔ i ∈ drop k l) as Hev by (intros i; by rewrite G2, elem_of_reverse).
  assert (∀ t i, t ≠ tier r → i ∈ lru_of m t → i ∉ l) as Hdisj.
  { intros t i Ht (r1 & H1 & H2)%(mw_mem _ Hwf) [_ H3]%elem_retain_ne.
    apply (mw_mem _ Hwf) in H3 as (r2 & H3 & H4). congruence. }
  split.
  - intros t. destruct (decide (t = tier r)) as [->|Ht].
    + rewrite G1. apply NoDup_cons_2; [|by apply nodup_take].
      intros [H _]%(elem_take_1 _ _ _)%elem_retain_ne. done.
    + rewrite G3 by done. apply nodup_retain, Hwf.
  - intros t i. rewrite G4. destruct (decide (t = tier r)) as [->|Ht].
    + rewrite G1, elem_of_cons. destruct (decide (i = id r)) as [->|Hi]; [naive_solver|].
      transitivity (i ∈ take k l); [naive_solver|]. split.
      * intros H. rewrite decide_False by (rewrite Hev; by apply nodup_take_drop).
        apply elem_take_1 in H as [_ H]%elem_retain_ne. by apply Hwf.
      * case_decide as Hd; [naive_solver|]. intros H. apply (mw_mem _ Hwf) in H.
        assert (i ∈ l) as Hil by (by apply elem_retain_ne).
        rewrite <- (take_drop k l), elem_of_app in Hil. destruct Hil as [|Hil]; [done|].
        by rewrite Hev in Hd.
    + rewrite G3, elem_retain_ne by done. destruct (decide (i = id r)) as [->|Hi]; [naive_solver|].
      rewrite (mw_mem _ Hwf t i). case_decide as Hd; [|naive_solver].
      split; [|naive_solver]. intros [_ H]. exfalso. apply (Hdisj t i Ht).
      * by apply (mw_mem _ Hwf).
      * rewrite Hev in Hd. by eapply elem_drop_1.
Qed.

Lemma access_spec i r m m' :
  mgr_wf m → regions m !! i = Some r → (access i m).2 = m' →
  lru_of m' (tier r) = i :: retain_ne i (lru_of m (tier r)) ∧
  (∀ t, t ≠ tier r → lru_of m' t = lru_of m t) ∧
  regions m' = regions m ∧ capacities m' = capacities m.
Proof.
  intros Hwf Hr. unfold access. rewrite Hr. intros <-.
  assert (i ∈ lru_of m (tier r)) as Hi by (apply Hwf; eauto). cbn [snd regions capacities].
  unfold lru_of in *. simpl. split_and!; [|..|done|done].
  - rewrite lookup_alter_eq. destruct (tier_lru m !! tier r); [done|by apply not_elem_of_nil in Hi].
  - intros t Ht. by rewrite lookup_alter_ne.
Qed.

Lemma access_wf i m : mgr_wf m → mgr_wf (access i m).2.
Proof.
  intros Hwf. destruct (regions m !! i) as [r|] eqn:E.
  2:{ unfold access. by rewrite E. }
  destruct (access_spec i r m _ Hwf E eq_refl) as (H1 & H2 & H3 & H4). split.
  - intros t. destruct (decide (t = tier r)) as [->|Ht]; [rewrite H1|rewrite H2 by done; apply Hwf].
    apply NoDup_cons_2; [rewrite elem_retain_ne; naive_solver|]. apply nodup_retain, Hwf.
  - intros t j. rewrite H3. destruct (decide (t = tier r)) as [->|Ht]; [rewrite H1|rewrite H2 by done; apply Hwf].
    rewrite elem_of_cons, elem_retain_ne, (mw_mem _ Hwf).
    destruct (decide (j = i)) as [->|Hj]; naive_solver.
Qed.

(** placement.  Placing a region in its own tier keeps the manager consistent
    (every resident id in exactly the list of its region's tier, without
    duplicates), puts the region at the front, keeps the tier within its capacity,
    evicts exactly the least recently used ids, oldest first, and forgets exactly
    those; other tiers lose nothing but a stale copy of the placed id. *)
Theorem place_region_correct (r : Region) (m : MemoryManager)
    (Hwf : mgr_wf m) (Hc : caps_wf m) (Hpos : 0 < tier_capacity (tier r) m) :
  let t := tier r in
  let '(evicted, m') := place_region r t m in
  let others := retain_ne (id r) (lru_of m t) in
  mgr_wf m' ∧
  tier_lru_order t m' ++ reverse evicted = id r :: others ∧
  (tier_capacity t m ≠ UNLIMITED_CAPACITY → Z.of_nat (regions_in_tier t m') <= tier_capacity t m) ∧
  (evicted ≠ [] → Z.of_nat (regions_in_tier t m') = tier_capacity t m) ∧
  (∀ t', t' ≠ t → tier_lru_order t' m' = retain_ne (id r) (tier_lru_order t' m)) ∧
  (∀ i, regions m' !! i = if decide (i = id r) then Some r
                          else if decide (i ∈ evicted) then None else regions m !! i).
Proof.
  intros t. destruct (place_region r t m) as [ev m'] eqn:E.
  pose proof (place_wf _ _ _ _ Hwf Hc E) as Hwf'.
  apply place_spec in E as (G1 & G2 & G3 & G4 & G5); [|done|done]. fold t in G1, G2, G3.
  set (l := retain_ne (id r) (lru_of m t)) in *. unfold tier_lru_order, regions_in_tier.
  rewrite G1. split_and!; [done| | | |done|done].
  - rewrite G2, reverse_involutive. simpl. by rewrite take_drop.
  - intros Hu. unfold room. rewrite (proj2 (Z.eqb_neq _ _)) by done. simpl. rewrite length_take. fold t in Hpos. lia.
  - intros Hev. unfold room in G2 |- *. destruct (Z.eqb_spec (tier_capacity t m) UNLIMITED_CAPACITY).
    { rewrite drop_ge in G2 by lia. done. }
    destruct (decide (length l <= Nat.pred (Z.to_nat (tier_capacity t m)))%nat) as [Hle|Hgt].
    { rewrite drop_ge in G2 by lia. done. }
    rewrite length_cons, length_take. fold t in Hpos. lia.
Qed.

Lemma caps_wf_new : caps_wf manager_new.
Proof. by intros []. Qed.

Lemma empty_wf caps : mgr_wf (with_capacity caps).
Proof.
  split; intros t; unfold lru_of, with_capacity; simpl; rewrite lookup_empty; simpl.
  - by apply NoDup_nil_2.
  - intros i. rewrite lookup_empty. split; [by intros ?%not_elem_of_nil|naive_solver].
Qed.

Lemma place_region_correct_witness :
  let r := allocate 7 L3 in
  let '(evicted, m') := place_region r L3 manager_new in
  let others := retain_ne 7 (lru_of manager_new L3) in
  mgr_wf m' ∧
  tier_lru_order L3 m' ++ reverse evicted = 7 :: others ∧
  (tier_capacity L3 manager_new ≠ UNLIMITED_CAPACITY →
     Z.of_nat (regions_in_tier L3 m') <= tier_capacity L3 manager_new) ∧
  (evicted ≠ [] → Z.of_nat (regions_in_tier L3 m') = tier_capacity L3 manager_new) ∧
  (∀ t', t' ≠ L3 → tier_lru_order t' m' = retain_ne 7 (tier_lru_order t' manager_new)) ∧
  (∀ i, regions m' !! i = if decide (i = 7) then Some r
                          else if decide (i ∈ evicted) then None else regions manager_new !! i).
Proof.
  exact (place_region_correct (allocate 7 L3) manager_new (empty_wf _) caps_wf_new eq_refl).
Defined.

(** ** The LRU policy *)

Inductive mgr_op := MPlace (r : Region) | MAccess (i : Z).

Definition mgr_step (o : mgr_op) (m : MemoryManager) : MemoryManager :=
  match o with
  | MPlace r => (place_region r (tier r) m).2
  | MAccess i => (access i m).2
  end.

(** The reference policy: all ids ever used, most recent first; the first [cap] of
    them are resident, and an access of an id that is not resident is a miss. *)
Definition touch (i : Z) (recent : list Z) : list Z := i :: retain_ne i recent.

Definition spec_step (cap : nat) (o : mgr_op) (recent : list Z) : list Z :=
  match o with
  | MPlace r => touch (id r) recent
  | MAccess i => if bool_decide (i ∈ take cap recent) then touch i recent else recent
  end.

Lemma take_retain_take i c l :
  NoDup l → take c (retain_ne i (take (S c) l)) = take c (retain_ne i l).
Proof.
  intros Hn. revert c; induction l as [|x l IH]; intros c; [by rewrite take_nil|].
  inversion_clear Hn as [|? ? Hx Hn']. cbn [take]. unfold retain_ne. rewrite !filter_cons.
  destruct (decide (x ≠ i)) as [Hxi|Hxi].
  - destruct c as [|c]; [done|]. cbn [take]. f_equal. by apply IH.
  - assert (x = i) as -> by (destruct (decide (x = i)); naive_solver).
    fold (retain_ne i (take c l)). fold (retain_ne i l).
    rewrite !retain_ne_id; [apply take_idemp|done|].
    intros H. apply Hx. by eapply elem_take_1.
Qed.

Lemma nodup_touch i l : NoDup l → NoDup (touch i l).
Proof. intros H. apply NoDup_cons_2; [rewrite elem_retain_ne; naive_solver|by apply nodup_retain]. Qed.

Lemma mgr_step_lru t cap o m recent :
  mgr_wf m → caps_wf m → tier_capacity t m = Z.of_nat (S cap) → Z.of_nat (S cap) < UNLIMITED_CAPACITY →
  NoDup recent → (∀ i r, regions m !! i = Some r → tier r = t) →
  (match o with MPlace r => tier r = t | MAccess _ => True end) →
  lru_of m t = take (S cap) recent →
  let m' := mgr_step o m in
  mgr_wf m' ∧ capacities m' = capacities m ∧ (∀ i r, regions m' !! i = Some r → tier r = t) ∧
  lru_of m' t = take (S cap) (spec_step (S cap) o recent).
Proof.
  intros Hwf Hc Hcap Hlim Hnd Hone Ho Hl. destruct o as [r|i]; simpl.
  - subst t. destruct (place_region r (tier r) m) as [ev m'] eqn:E. simpl.
    split; [by eapply place_wf|].
    apply place_spec in E as (G1 & G2 & G3 & G4 & G5); [|done|done].
    split; [done|]. split.
    { intros i r'. rewrite G4. case_decide; [naive_solver|]. case_decide; [done|apply Hone]. }
    rewrite G1. f_equal. unfold room. rewrite Hcap.
    rewrite (proj2 (Z.eqb_neq _ _)) by lia. rewrite Hl, Nat2Z.id. cbn [Nat.pred].
    by apply take_retain_take.
  - split; [by apply access_wf|]. destruct (regions m !! i) as [r|] eqn:E.
    + pose proof (Hone _ _ E) as Ht.
      destruct (access_spec i r m _ Hwf E eq_refl) as (H1 & H2 & H3 & H4).
      split; [done|]. rewrite H3. split; [done|]. rewrite Ht in H1. rewrite H1, Hl.
      rewrite bool_decide_true; [|rewrite <- Hl; apply Hwf; eauto].
      unfold touch. cbn [take]. f_equal. rewrite <- (take_retain_take i cap recent) by done.
      symmetry. apply take_ge. destruct (decide (i ∈ take (S cap) recent)) as [Hin|Hni].
      * assert (length (retain_ne i (take (S cap) recent)) < length (take (S cap) recent))%nat as Hlt.
        { apply (length_filter_lt _ _ i); [done|naive_solver]. }
        rewrite length_take in Hlt. lia.
      * destruct Hni. rewrite <- Hl. apply Hwf. eauto.
    + unfold access. rewrite E. simpl. split; [done|]. split; [done|].
      rewrite bool_decide_false; [done|]. rewrite <- Hl.
      intros (r & H1 & H2)%(mw_mem _ Hwf). congruence.
Qed.

(** C23: the manager is an LRU cache of a tier. Starting empty, after any sequence of
    placements of regions of one tier into that tier and of accesses, the resident ids
    of the tier are exactly the [cap] most recently used ones, in order of recency: the
    concrete list refines the reference policy that remembers every id ever used. The
    tier has a finite capacity of at least one. Left out are [register], which never
    evicts and so may leave a tier above its capacity, regions of several tiers, and
    placements of a region into another tier than its own, after which the lists may
    name a region twice (see [place_elsewhere_duplicates]). *)
Theorem lru_refines_recency (t : MemoryTier) (caps : gmap MemoryTier Z) (cap : nat) (ops : list mgr_op)
    (Hcaps : ∀ t', 0 <= default UNLIMITED_CAPACITY (caps !! t'))
    (Hcap : caps !! t = Some (Z.of_nat (S cap))) (Hlim : Z.of_nat (S cap) < UNLIMITED_CAPACITY)
    (Hops : Forall (λ o, match o with MPlace r => tier r = t | MAccess _ => True end) ops) :
  tier_lru_order t (fold_left (λ m o, mgr_step o m) ops (with_capacity caps)) =
  take (S cap) (fold_left (λ l o, spec_step (S cap) o l) ops []).
Proof.
  assert (∀ m recent, mgr_wf m → capacities m = caps → NoDup recent →
    (∀ i r, regions m !! i = Some r → tier r = t) → lru_of m t = take (S cap) recent →
    lru_of (fold_left (λ m o, mgr_step o m) ops m) t =
    take (S cap) (fold_left (λ l o, spec_step (S cap) o l) ops recent)) as H.
  { induction Hops as [|o ops Ho Hops IH]; intros m recent Hwf Hm Hnd Hone Hl; [done|].
    assert (caps_wf m) as Hcw by (intros t'; unfold tier_capacity; by rewrite Hm).
    assert (tier_capacity t m = Z.of_nat (S cap)) as Hcm by (unfold tier_capacity; by rewrite Hm, Hcap).
    destruct (mgr_step_lru t cap o m recent Hwf Hcw Hcm Hlim Hnd Hone Ho Hl) as (W & C & O & L).
    rewrite !fold_left_cons. apply IH; [done|congruence| |done|done].
    destruct o; simpl; [by apply nodup_touch|]. case_bool_decide; [by apply nodup_touch|done]. }
  apply H; [apply empty_wf|done|by apply NoDup_nil_2| |].
  - intros i r. simpl. by rewrite lookup_empty.
  - unfold lru_of. simpl. by rewrite lookup_empty.
Qed.

Definition demo_mgr_ops : list mgr_op :=
  [MPlace (allocate 1 L3); MPlace (allocate 2 L3); MAccess 1; MPlace (allocate 3 L3)].

Lemma lru_refines_recency_witness :
  tier_lru_order L3 (fold_left (λ m o, mgr_step o m) demo_mgr_ops (with_capacity {[L3 := 2]})) =
  take 2 (fold_left (λ l o, spec_step 2 o l) demo_mgr_ops []).
Proof.
  apply (lru_refines_recency L3 {[L3 := 2]} 1 demo_mgr_ops).
  - by intros [].
  - done.
  - done.
  - unfold demo_mgr_ops. repeat (apply Forall_cons_2; [done|]). apply Forall_nil_2.
Defined.

(** a placement into a tier other than the region's own is forgotten by later
    bookkeeping: [remove_from_any_tier] looks in the list of the region's [tier]
    field, so placing the same region twice in another tier lists it twice, and the
    tier then counts two residents where there is one region. *)
Theorem place_elsewhere_duplicates (r : Region) (t : MemoryTier) (Ht : t ≠ tier r) :
  let m := (place_region r t (place_region r t (with_capacity ∅)).2).2 in
  tier_lru_order t m = [id r; id r] ∧ regions_in_tier t m = 2%nat ∧ total_regions m = 1%nat.
Proof.
  set (m1 := (place_region r t (with_capacity ∅)).2).
  assert (m1 = mkMgr {[t := [id r]]} {[id r := r]} ∅) as H1.
  { unfold m1, place_region, remove_from_any_tier. simpl. rewrite lookup_empty. simpl.
    unfold insert_front, lru_of, tier_is_full, tier_capacity. simpl. by rewrite !lookup_empty. }
  assert ((place_region r t m1).2 = mkMgr {[t := [id r; id r]]} {[id r := r]} ∅) as H2.
  { rewrite H1. unfold place_region, remove_from_any_tier. cbn [regions].
    rewrite lookup_singleton_eq. cbn [tier_lru capacities]. rewrite alter_singleton_ne by done.
    unfold regions_in_tier at 1, lru_of at 1. cbn [tier_lru]. rewrite lookup_singleton_eq. simpl.
    unfold tier_is_full, tier_capacity. simpl. rewrite lookup_empty. simpl.
    unfold insert_front, lru_of. simpl. by rewrite lookup_singleton_eq, !insert_singleton_eq. }
  intros m. unfold m. rewrite H2. unfold tier_lru_order, regions_in_tier, total_regions, lru_of. simpl.
  rewrite lookup_singleton_eq, map_size_singleton. done.
Qed.

Lemma place_elsewhere_duplicates_witness :
  let m := (place_region (allocate 4 Ddr5) Cxl (place_region (allocate 4 Ddr5) Cxl (with_capacity ∅)).2).2 in
  tier_lru_order Cxl m = [4; 4] ∧ regions_in_tier Cxl m = 2%nat ∧ total_regions m = 1%nat.
Proof. apply (place_elsewhere_duplicates (allocate 4 Ddr5) Cxl). done. Defined.

End MemoryM.
