(* ===== verification/Coordinators.v ===== *)
(** * The transaction coordinators (src/src/protocol/cxl.rs, raft.rs)

    Both coordinators issue a timestamp from their own clock and write a commit
    record to a log they share through an [Arc<Wal>].  They are verified against the
    class of durable logs, and the result is instantiated with the write-ahead log.
    The system time a commit reads is an argument; the simulated replication of the
    Raft coordinator only writes a debug line. *)

From Stdlib Require Import ZArith Lia Sorting.Sorted.
From stdpp Require Import prelude list numbers.
From S2P Require Import Prelude Clock DurableLog Wal Memory.
Local Open Scope Z_scope.

Module CoordM.
Import ClockM.
Abbreviation WalRecord := WalM.WalRecord.
Abbreviation mkRec := WalM.mkRec.

Definition WAL_RECORD_TYPE_COMMIT : Z := 0.

Record CxlCoordinator := mkCxl { available : bool; cxl_clock : HlcClock; cxl_wal : bool }.

Record RaftCoordinator := mkRaft {
  cluster_size : Z; node_id : Z; raft_clock : HlcClock; raft_wal : bool; is_leader : bool
}.

(** [wal.is_some()] stands for the shared handle; the log itself is the state the
    commits act on. *)
Definition cxl_new (cxl_available wal : bool) : CxlCoordinator := mkCxl cxl_available clock_new wal.

Definition commit_tier (c : CxlCoordinator) : MemoryM.MemoryTier :=
  if available c then MemoryM.Cxl else if cxl_wal c then MemoryM.Nvme else MemoryM.Ddr5.

Definition raft_new (size node : Z) (wal : bool) : RaftCoordinator := mkRaft size node clock_new wal false.
Definition raft_new_as_leader (size node : Z) (wal : bool) : RaftCoordinator :=
  mkRaft size node clock_new wal true.
Definition quorum (c : RaftCoordinator) : Z := wrap_u 64 (cluster_size c / 2 + 1).
Definition become_leader (c : RaftCoordinator) : RaftCoordinator :=
  mkRaft (cluster_size c) (node_id c) (raft_clock c) (raft_wal c) true.
Definition become_follower (c : RaftCoordinator) : RaftCoordinator :=
  mkRaft (cluster_size c) (node_id c) (raft_clock c) (raft_wal c) false.

Section coordinators.
Context {L : Type} {DL : DurableLog L WalRecord}.

(** Lifting an operation of the shared log to a coordinator's state. *)
Definition on_log {C A} (m : stM L Error A) : stM (C * L) Error A :=
  λ '(c, l), let '(x, l') := m l in (x, (c, l')).

Definition commit_record (txn : Z) (ts : HlcTimestamp) : WalRecord :=
  mkRec txn WAL_RECORD_TYPE_COMMIT (le_bytes 8 (physical_ns ts)).

(** [self.clock.now()]. *)
Definition cxl_now (se : option Z) : stM (CxlCoordinator * L) Error HlcTimestamp :=
  λ '(c, l), let '(ts, k) := now se (cxl_clock c) in (Ok ts, (mkCxl (available c) k (cxl_wal c), l)).

Definition raft_now (se : option Z) : stM (RaftCoordinator * L) Error HlcTimestamp :=
  λ '(c, l), let '(ts, k) := now se (raft_clock c) in
             (Ok ts, (mkRaft (cluster_size c) (node_id c) k (raft_wal c) (is_leader c), l)).

Definition cxl_commit (se : option Z) (txn : Z) : stM (CxlCoordinator * L) Error HlcTimestamp :=
  ts ← cxl_now se;
  s ← st_get;
  if available s.1 then mret ts
  else
    (if cxl_wal s.1 then
       on_log (dl_append (commit_record txn ts));; on_log dl_sync
     else mret tt);;
    mret ts.

Definition raft_commit (se : option Z) (txn : Z) : stM (RaftCoordinator * L) Error HlcTimestamp :=
  s ← st_get;
  if is_leader s.1 then
    ts ← raft_now se;
    (if raft_wal s.1 then on_log (dl_append (commit_record txn ts)) else mret tt);;
    (if raft_wal s.1 then on_log dl_sync else mret tt);;
    mret ts
  else st_fail EProtocol.

(** ** The system: both coordinators on one log *)

Record Sys := mkSys { cxl : CxlCoordinator; raft : RaftCoordinator; slog : L }.

(** What can happen, in any order: commits through either coordinator, and elections. *)
Inductive sys_event :=
| CxlCommit (se : option Z) (txn : Z)
| RaftCommit (se : option Z) (txn : Z)
| BecomeLeader
| BecomeFollower.

(** The acknowledgements a client has seen, and the system state. *)
Record trace := mkTrace { sys : Sys; acks : list WalRecord }.

Definition ack (x : result Error HlcTimestamp) (txn : Z) (durable : bool) (a : list WalRecord) : list WalRecord :=
  match x with
  | Ok ts => if durable then a ++ [commit_record txn ts] else a
  | Err _ => a
  end.

Definition sys_step (e : sys_event) (t : trace) : trace :=
  let s := sys t in
  match e with
  | CxlCommit se txn =>
      let '(x, (c, l)) := cxl_commit se txn (cxl s, slog s) in
      mkTrace (mkSys c (raft s) l) (ack x txn (negb (available (cxl s)) && cxl_wal (cxl s)) (acks t))
  | RaftCommit se txn =>
      let '(x, (c, l)) := raft_commit se txn (raft s, slog s) in
      mkTrace (mkSys (cxl s) c l) (ack x txn (raft_wal (raft s)) (acks t))
  | BecomeLeader => mkTrace (mkSys (cxl s) (become_leader (raft s)) (slog s)) (acks t)
  | BecomeFollower => mkTrace (mkSys (cxl s) (become_follower (raft s)) (slog s)) (acks t)
  end.

Definition sys_run (es : list sys_event) (t : trace) : trace := fold_left (λ t e, sys_step e t) es t.

(** ** One commit *)

(** The log after a commit: the record is there and durable if the commit was
    acknowledged; on an error nothing that was there is lost. *)
Definition log_after (x : bool) (r : WalRecord) (rs : list WalRecord) (n : nat) (l' : L) : Prop :=
  ∃ rs' n', dl_rep l' rs' n' ∧ (n <= n')%nat ∧ rs `prefix_of` rs' ∧
            (x = true → rs' = rs ++ [r] ∧ n' = length rs').

Lemma append_sync_spec r l rs n x l' :
  dl_rep l rs n → dl_record_ok r →
  (dl_append r;; dl_sync) l = (x, l') → log_after (is_ok x) r rs n l'.
Proof.
  intros Hl Hr [(u & l1 & H1 & H2)|(e & H1 & ->)]%stM_bind_inv.
  - destruct (dl_append_spec _ _ _ _ _ _ Hl Hr H1) as (n1 & Hn1 & Hl1). simpl in Hl1.
    destruct (dl_sync_spec _ _ _ _ _ Hl1 H2) as (n2 & Hn2 & Hl2 & Hok).
    exists (rs ++ [r]), n2. split_and!; [done|lia|by apply prefix_app_r|]. auto.
  - destruct (dl_append_spec _ _ _ _ _ _ Hl Hr H1) as (n1 & Hn1 & Hl1). simpl in Hl1.
    exists rs, n1. split_and!; [done|done|done|done].
Qed.

Lemma cxl_commit_spec se txn c l rs n x c' l' :
  dl_rep l rs n → (∀ ts, dl_record_ok (commit_record txn ts)) →
  cxl_commit se txn (c, l) = (x, (c', l')) →
  let ts := (now se (cxl_clock c)).1 in
  cxl_clock c' = (now se (cxl_clock c)).2 ∧ available c' = available c ∧ cxl_wal c' = cxl_wal c ∧
  (∀ t, x = Ok t → t = ts) ∧
  if negb (available c) && cxl_wal c then log_after (is_ok x) (commit_record txn ts) rs n l'
  else x = Ok ts ∧ l' = l.
Proof.
  intros Hl Hr. unfold cxl_commit, mbind at 1, stM_bind, cxl_now.
  destruct (now se (cxl_clock c)) as [ts k] eqn:E. simpl.
  unfold mbind at 1, stM_bind, st_get. simpl.
  destruct (available c) eqn:Ea; simpl.
  { intros [= <- <- <-]. simpl. split_and!; try done. by intros t [= <-]. }
  destruct (cxl_wal c) eqn:Ew; simpl.
  2:{ intros [= <- <- <-]. simpl. split_and!; try done. by intros t [= <-]. }
  set (c1 := mkCxl _ _ _). intros H.
  assert (∃ y l2, (dl_append (commit_record txn ts);; dl_sync) l = (y, l2) ∧ c' = c1 ∧ l' = l2 ∧
            x = match y with Ok _ => Ok ts | Err e => Err e end) as (y & l2 & E2 & -> & -> & ->).
  { unfold mbind, stM_bind, on_log in H |- *.
    destruct (dl_append (commit_record txn ts) l) as [[u|e] la].
    - destruct (dl_sync la) as [[v|e] lb]; injection H as <- <- <-; eauto 10.
    - injection H as <- <- <-. eauto 10. }
  apply (append_sync_spec _ _ rs n) in E2; [|done|apply Hr]. simpl.
  split_and!; [done|by subst c1|by subst c1| |].
  - destruct y; by intros t [= <-].
  - by destruct y.
Qed.

Lemma raft_commit_follower se txn c l :
  is_leader c = false → raft_commit se txn (c, l) = (Err EProtocol, (c, l)).
Proof. intros H. unfold raft_commit, mbind, stM_bind, st_get. simpl. by rewrite H. Qed.

Lemma raft_commit_leader se txn c l rs n x c' l' :
  is_leader c = true →
  dl_rep l rs n → (∀ ts, dl_record_ok (commit_record txn ts)) →
  raft_commit se txn (c, l) = (x, (c', l')) →
  let ts := (now se (raft_clock c)).1 in
  raft_clock c' = (now se (raft_clock c)).2 ∧ is_leader c' = is_leader c ∧ raft_wal c' = raft_wal c ∧
  (∀ t, x = Ok t → t = ts) ∧
  if raft_wal c then log_after (is_ok x) (commit_record txn ts) rs n l' else x = Ok ts ∧ l' = l.
Proof.
  intros Hlead Hl Hr. destruct (now se (raft_clock c)) as [ts k] eqn:E.
  unfold raft_commit, mbind at 1, stM_bind, st_get. simpl. rewrite Hlead.
  unfold mbind at 1, stM_bind, raft_now. rewrite E. simpl.
  destruct (raft_wal c) eqn:Ew; simpl.
  2:{ intros [= <- <- <-]. simpl. split_and!; intros; simplify_eq; done. }
  set (c1 := mkRaft _ _ _ _ _). intros H.
  assert (∃ y l2, (dl_append (commit_record txn ts);; dl_sync) l = (y, l2) ∧ c' = c1 ∧ l' = l2 ∧
            x = match y with Ok _ => Ok ts | Err e => Err e end) as (y & l2 & E2 & -> & -> & ->).
  { unfold mbind, stM_bind, on_log in H |- *.
    destruct (dl_append (commit_record txn ts) l) as [[u|e] la].
    - destruct (dl_sync la) as [[v|e] lb]; injection H as <- <- <-; eauto 10.
    - injection H as <- <- <-. eauto 10. }
  apply (append_sync_spec _ _ rs n) in E2; [|done|apply Hr]. simpl.
  split_and!; [done|by subst c1|by subst c1| |].
  - destruct y; by intros t [= <-].
  - by destruct y.
Qed.

(** ** All interleavings *)

Definition sys_inv (t : trace) : Prop :=
  ∃ rs n, dl_rep (slog (sys t)) rs n ∧ acks t `sublist_of` take n rs.

Lemma log_after_acks x r rs n l' a :
  log_after x r rs n l' → a `sublist_of` take n rs →
  ∃ rs' n', dl_rep l' rs' n' ∧ (if x then a ++ [r] else a) `sublist_of` take n' rs'.
Proof.
  intros (rs' & n' & H1 & H2 & H3 & H4) Hs. exists rs', n'. split; [done|].
  assert (take n rs `prefix_of` take n' rs') as Hp.
  { destruct H3 as [k ->]. exists (drop n (take n' rs) ++ take (n' - length rs) k). rewrite take_app, app_assoc. f_equal.
    rewrite <- (take_drop n (take n' rs)) at 1. by rewrite take_take, Nat.min_l by lia. }
  assert (a `sublist_of` take n' rs') as Hs' by (destruct Hp as [k ->]; by apply sublist_inserts_r).
  destruct x; [|done]. destruct (H4 eq_refl) as [-> ->]. rewrite take_ge by lia. apply sublist_app; [|done].
  destruct (decide (n <= length rs)%nat); [etrans; [exact Hs|apply sublist_take]|]. by rewrite take_ge in Hs by lia.
Qed.

Definition event_ok (e : sys_event) : Prop :=
  match e with CxlCommit _ txn | RaftCommit _ txn => in_u 64 txn | _ => True end.

Context (Hok : ∀ txn ts, in_u 64 txn → dl_record_ok (commit_record txn ts)).

Lemma sys_step_inv e t : event_ok e → sys_inv t → sys_inv (sys_step e t).
Proof.
  intros He (rs & n & Hl & Hs). destruct e as [se txn|se txn| |]; simpl in *.
  - destruct (cxl_commit se txn (cxl (sys t), slog (sys t))) as [x [c l]] eqn:E.
    apply (cxl_commit_spec _ _ _ _ rs n) in E as (E1 & E2 & E3 & E4 & E5); [|done|].
    2:{ intros ts. by apply Hok. }
    unfold sys_inv. simpl. destruct (negb _ && _).
    + destruct x as [ts|e]; simpl.
      * rewrite (E4 ts eq_refl). by apply (log_after_acks _ _ _ _ _ (acks t)) in E5.
      * by apply (log_after_acks _ _ _ _ _ (acks t)) in E5.
    + destruct E5 as [-> ->]. simpl. by exists rs, n.
  - destruct (is_leader (raft (sys t))) eqn:Hlead.
    2:{ rewrite raft_commit_follower by done. simpl. by exists rs, n. }
    destruct (raft_commit se txn (raft (sys t), slog (sys t))) as [x [c l]] eqn:E.
    apply (raft_commit_leader _ _ _ _ rs n) in E as (E1 & E2 & E3 & E4 & E5); [|done|done|].
    2:{ intros ts. by apply Hok. }
    unfold sys_inv. simpl. destruct (raft_wal (raft (sys t))).
    + destruct x as [ts|e]; simpl.
      * rewrite (E4 ts eq_refl). by apply (log_after_acks _ _ _ _ _ (acks t)) in E5.
      * by apply (log_after_acks _ _ _ _ _ (acks t)) in E5.
    + destruct E5 as [-> ->]. simpl. by exists rs, n.
  - by exists rs, n.
  - by exists rs, n.
Qed.

Lemma sys_run_inv es t : Forall event_ok es → sys_inv t → sys_inv (sys_run es t).
Proof.
  intros Hes. revert t; induction Hes as [|e es He Hes IH]; intros t Ht; [done|].
  unfold sys_run. rewrite fold_left_cons. apply IH. by apply sys_step_inv.
Qed.

Lemma acked_after_crash es t img :
  Forall event_ok es → sys_inv t → dl_crash (slog (sys (sys_run es t))) img →
  acks (sys_run es t) `sublist_of` dl_read img.
Proof.
  intros Hes Ht Hc. destruct (sys_run_inv es t Hes Ht) as (rs & n & Hl & Hs).
  destruct (dl_crash_spec _ _ _ _ Hl Hc) as (m & Hm & ->). etrans; [exact Hs|].
  replace (take n rs) with (take n (take m rs)) by (by rewrite take_take, Nat.min_l by lia). apply sublist_take.
Qed.

End coordinators.

(** ** On the write-ahead log *)

Section on_wal.
Context (xxh3_64 : list Z → Z) (Hhash : ∀ l, in_u 64 (xxh3_64 l)).

#[local] Instance wal_log : DurableLog WalM.Wal WalRecord := WalM.Wal_DurableLog xxh3_64 Hhash.

Lemma commit_record_ok txn ts : in_u 64 txn → WalM.small_ok xxh3_64 (commit_record txn ts).
Proof.
  intros Ht. assert (WalM.rec_ok (commit_record txn ts)) as Hr.
  { split; [exact Ht|]. split; [done|]. split; [apply le_bytes_ok|done]. }
  split; [done|]. rewrite WalM.length_encode by done. simpl length. by apply Nat.ltb_lt.
Qed.


End on_wal.

Definition demo_events : list sys_event :=
  [CxlCommit (Some 100) 1; RaftCommit (Some 100) 2; BecomeLeader; RaftCommit (Some 90) 3].


(** only a leader commits.  A Raft follower refuses every commit with a protocol
    error and changes neither its clock nor the log; a leader's commit returns the
    timestamp of its clock, strictly above the previous one, whatever the log does. *)
Theorem raft_leader_gate {L} {DL : DurableLog L WalRecord} (se : option Z) (txn : Z)
    (c : RaftCoordinator) (l : L) (Hroom : ts_room (last (raft_clock c))) :
  (is_leader c = false → raft_commit se txn (c, l) = (Err EProtocol, (c, l))) ∧
  (is_leader c = true → ∀ ts c' l', raft_commit se txn (c, l) = (Ok ts, (c', l')) →
     ts_lt (last (raft_clock c)) ts ∧ last (raft_clock c') = ts ∧ is_leader c' = true).
Proof.
  split; [apply raft_commit_follower|]. intros Hlead ts c' l'.
  pose proof (now_lt se (raft_clock c) Hroom) as Hlt. pose proof (now_last se (raft_clock c)) as Hlast.
  destruct (now se (raft_clock c)) as [ts0 k] eqn:E. cbn [fst snd] in Hlt, Hlast.
  unfold raft_commit, mbind at 1, stM_bind, st_get. simpl. rewrite Hlead.
  unfold mbind at 1, stM_bind, raft_now. rewrite E. simpl.
  set (c1 := mkRaft _ _ _ _ _). intros H.
  assert (∀ m : stM (RaftCoordinator * L) Error (), (m = mret tt ∨ ∃ k, m = on_log k) →
            ∀ x l1 s, m (c1, l1) = (x, s) → s.1 = c1) as Hkeep.
  { intros m [->|[k' ->]] x l1 s; [by intros [= _ <-]|]. unfold on_log.
    destruct (k' l1). by intros [= _ <-]. }
  apply stM_bind_inv in H as [(u & [c2 l2] & H1 & H2)|(e & _ & [=])].
  apply Hkeep in H1; [|destruct (raft_wal c); eauto]. simpl in H1. subst c2.
  apply stM_bind_inv in H2 as [(v & [c3 l3] & H2 & H3)|(e & _ & [=])].
  apply Hkeep in H2; [|destruct (raft_wal c); eauto]. simpl in H2. subst c3.
  injection H3 as <- <- <-. done.
Qed.

Lemma raft_leader_gate_witness :
  let c := raft_new 3 1 true in let l := WalM.open [] [] false in
  let DL := WalM.Wal_DurableLog (λ _, 0) WalM.hash0_range in
  (is_leader c = false → raft_commit (Some 9) 5 (c, l) = (Err EProtocol, (c, l))) ∧
  (is_leader c = true → ∀ ts c' l', raft_commit (Some 9) 5 (c, l) = (Ok ts, (c', l')) →
     ts_lt (last (raft_clock c)) ts ∧ last (raft_clock c') = ts ∧ is_leader c' = true).
Proof.
  intros c l DL. apply (raft_leader_gate (DL := DL) (Some 9) 5 c l). done.
Defined.

End CoordM.
