(* ===== verification/Bits.v ===== *)
(** * Bit-packed vectors

    Lists of [w]-bit words read as lists of booleans, least significant bit first:
    the common ground of the packed null bitmap (64-bit words) and of the filter
    bitmap (bytes). *)

From Stdlib Require Import ZArith Lia.
From stdpp Require Import prelude list numbers.
From S2P Require Import Prelude.
Local Open Scope Z_scope.

Definition bits_of (w : nat) (z : Z) : list bool := (λ i, Z.testbit z (Z.of_nat i)) <$> seq 0 w.
Definition flat (w : nat) (ws : list Z) : list bool := concat (bits_of w <$> ws).
Definition count_true (l : list bool) : nat := length (filter (λ b, b = true) l).

(** The bitwise complement of a [w]-bit word. *)
Definition not_w (w z : Z) : Z := Z.lxor z (2 ^ w - 1).

(** [n.div_ceil(w)]. *)
Definition div_ceil (n w : nat) : nat := ((n + (w - 1)) / w)%nat.

Lemma div_ceil_bounds n w : (0 < w)%nat → (n <= div_ceil n w * w < n + w)%nat.
Proof.
  intros Hw. unfold div_ceil. pose proof (Nat.div_mod (n + (w - 1)) w).
  pose proof (Nat.mod_upper_bound (n + (w - 1)) w). nia.
Qed.

Lemma div_ceil_unique n w k : (0 < w)%nat → (n <= k * w < n + w)%nat → div_ceil n w = k.
Proof. intros Hw Hk. pose proof (div_ceil_bounds n w Hw). nia. Qed.

(** ** Words *)
Lemma length_bits_of w z : length (bits_of w z) = w.
Proof. unfold bits_of. by rewrite length_fmap, length_seq. Qed.
#[export] Hint Rewrite length_bits_of : len.

Lemma lookup_bits_of w z i : (i < w)%nat → bits_of w z !! i = Some (Z.testbit z (Z.of_nat i)).
Proof. intros H. unfold bits_of. by rewrite list_lookup_fmap, lookup_seq_lt. Qed.

Lemma bits_of_ext w z (l : list bool) :
  length l = w → (∀ i, (i < w)%nat → l !! i = Some (Z.testbit z (Z.of_nat i))) → bits_of w z = l.
Proof.
  intros Hl H. apply list_eq_same_length with w; [done|apply length_bits_of|].
  intros i x y Hi. rewrite lookup_bits_of, H by done. congruence.
Qed.

Lemma bits_of_S w z : bits_of (S w) z = Z.odd z :: bits_of w (Z.div2 z).
Proof.
  apply bits_of_ext; [simpl; by rewrite length_bits_of|]. intros [|i] Hi.
  - change (Z.of_nat 0) with 0. by rewrite Z.bit0_odd.
  - simpl lookup. rewrite lookup_bits_of by lia. f_equal. rewrite Z.div2_spec, Z.shiftr_spec by lia. f_equal. lia.
Qed.

Lemma bits_of_inj w a b :
  in_u (Z.of_nat w) a → in_u (Z.of_nat w) b → bits_of w a = bits_of w b → a = b.
Proof.
  intros Ha Hb H. apply Z.bits_inj'. intros i Hi. destruct (Z.lt_ge_cases i (Z.of_nat w)).
  - assert (bits_of w a !! Z.to_nat i = bits_of w b !! Z.to_nat i) as E by (by rewrite H).
    rewrite !lookup_bits_of in E by lia. rewrite Z2Nat.id in E by lia. congruence.
  - by rewrite !(testbit_above (Z.of_nat w)) by (done || lia).
Qed.

Lemma bits_of_0 w : bits_of w 0 = replicate w false.
Proof.
  apply bits_of_ext; [by rewrite length_replicate|]. intros i Hi.
  by rewrite lookup_replicate_2, Z.bits_0.
Qed.

Lemma testbit_ones n i : 0 <= n → 0 <= i → Z.testbit (2 ^ n - 1) i = bool_decide (i < n).
Proof.
  intros Hn Hi. replace (2 ^ n - 1) with (Z.ones n) by (rewrite Z.ones_equiv; lia).
  case_bool_decide.
  - apply Z.ones_spec_low. lia.
  - apply Z.ones_spec_high. lia.
Qed.

Lemma bits_of_setbit w z k :
  (k < w)%nat → bits_of w (Z.lor z (Z.shiftl 1 (Z.of_nat k))) = <[k := true]> (bits_of w z).
Proof.
  intros Hk. apply bits_of_ext; [by rewrite length_insert, length_bits_of|]. intros i Hi.
  rewrite Z.lor_spec, Z.shiftl_spec by lia. destruct (decide (i = k)) as [->|Hne].
  - rewrite list_lookup_insert_eq by (by rewrite length_bits_of). rewrite Z.sub_diag. simpl.
    by rewrite orb_true_r.
  - rewrite list_lookup_insert_ne, lookup_bits_of by done.
    assert (Z.testbit 1 (Z.of_nat i - Z.of_nat k) = false) as ->; [|by rewrite orb_false_r].
    destruct (Z.lt_ge_cases (Z.of_nat i) (Z.of_nat k)); [apply Z.testbit_neg_r; lia|].
    apply Z.bits_above_log2; simpl; lia.
Qed.

Lemma bits_of_clearbit w z k :
  (k < w)%nat →
  bits_of w (Z.land z (not_w (Z.of_nat w) (Z.shiftl 1 (Z.of_nat k)))) = <[k := false]> (bits_of w z).
Proof.
  intros Hk. apply bits_of_ext; [by rewrite length_insert, length_bits_of|]. intros i Hi.
  unfold not_w. rewrite Z.land_spec, Z.lxor_spec, Z.shiftl_spec, testbit_ones by lia.
  rewrite bool_decide_true by lia. destruct (decide (i = k)) as [->|Hne].
  - rewrite list_lookup_insert_eq by (by rewrite length_bits_of). rewrite Z.sub_diag. simpl.
    by rewrite andb_false_r.
  - rewrite list_lookup_insert_ne, lookup_bits_of by done.
    assert (Z.testbit 1 (Z.of_nat i - Z.of_nat k) = false) as ->; [|by rewrite andb_true_r].
    destruct (Z.lt_ge_cases (Z.of_nat i) (Z.of_nat k)); [apply Z.testbit_neg_r; lia|].
    apply Z.bits_above_log2; simpl; lia.
Qed.

Lemma bits_of_mask w z r :
  (r <= w)%nat →
  bits_of w (Z.land z (2 ^ Z.of_nat r - 1)) = take r (bits_of w z) ++ replicate (w - r) false.
Proof.
  intros Hr. apply bits_of_ext; [len|]. intros i Hi. rewrite Z.land_spec, testbit_ones by lia.
  case_bool_decide.
  - rewrite lookup_app_l, lookup_take_lt, lookup_bits_of by len. by rewrite andb_true_r.
  - rewrite lookup_app_r by len. rewrite lookup_replicate_2 by len. by rewrite andb_false_r.
Qed.

Lemma bits_of_not w z : bits_of w (not_w (Z.of_nat w) z) = negb <$> bits_of w z.
Proof.
  apply bits_of_ext; [len|]. intros i Hi. rewrite list_lookup_fmap, lookup_bits_of by done.
  unfold not_w. rewrite Z.lxor_spec, testbit_ones, bool_decide_true by lia. by rewrite xorb_true_r.
Qed.

Lemma bits_of_zip (f : bool → bool → bool) (g : Z → Z → Z) w a b :
  (∀ i, Z.testbit (g a b) i = f (Z.testbit a i) (Z.testbit b i)) →
  bits_of w (g a b) = zip_with f (bits_of w a) (bits_of w b).
Proof.
  intros Hg. apply bits_of_ext; [rewrite length_zip_with, !length_bits_of; lia|].
  intros i Hi. by rewrite lookup_zip_with, !lookup_bits_of, Hg.
Qed.

Lemma in_u_not_w w z : 0 <= w → in_u w z → in_u w (not_w w z).
Proof.
  intros Hw Hz. apply in_u_lxor; [done|done|].
  pose proof (Z.pow_pos_nonneg 2 w). unfold in_u. lia.
Qed.

Lemma in_u_setbit w z k : 0 <= k < w → in_u w z → in_u w (Z.lor z (Z.shiftl 1 k)).
Proof.
  intros Hk Hz. apply in_u_lor; [lia|done|]. rewrite Z.shiftl_1_l. by apply in_u_pow2.
Qed.

(** ** Counting *)
Lemma count_true_app l1 l2 : count_true (l1 ++ l2) = (count_true l1 + count_true l2)%nat.
Proof. unfold count_true. by rewrite list.filter_app, length_app. Qed.

Lemma count_true_cons b l : count_true (b :: l) = ((if b then 1 else 0) + count_true l)%nat.
Proof. unfold count_true. rewrite filter_cons. by destruct b. Qed.

Lemma count_true_false n : count_true (replicate n false) = 0%nat.
Proof. induction n as [|n IH]; [done|]. simpl. by rewrite count_true_cons, IH. Qed.

Lemma count_true_negb l : (count_true (negb <$> l) + count_true l)%nat = length l.
Proof.
  induction l as [|b l IH]; [done|]. rewrite fmap_cons, !count_true_cons. simpl. destruct b; simpl; lia.
Qed.

Lemma count_ones_spec w z : count_ones w z = count_true (bits_of w z).
Proof.
  revert z; induction w as [|w IH]; intros z; [done|].
  rewrite bits_of_S, count_true_cons. simpl. by rewrite IH.
Qed.

(** ** Word lists *)
Lemma flat_cons w z ws : flat w (z :: ws) = bits_of w z ++ flat w ws.
Proof. done. Qed.

Lemma length_flat w ws : length (flat w ws) = (length ws * w)%nat.
Proof.
  unfold flat. rewrite (length_concat_blocks w); [by rewrite length_fmap|].
  apply Forall_fmap, Forall_true. intros z. apply length_bits_of.
Qed.
#[export] Hint Rewrite length_flat : len.

Lemma flat_app w ws1 ws2 : flat w (ws1 ++ ws2) = flat w ws1 ++ flat w ws2.
Proof. unfold flat. by rewrite fmap_app, concat_app. Qed.

Lemma flat_zeros w n : flat w (replicate n 0) = replicate (n * w) false.
Proof.
  induction n as [|n IH]; [done|]. simpl. rewrite flat_cons, IH, bits_of_0.
  by rewrite <- replicate_add.
Qed.

Lemma lookup_flat w ws i :
  (0 < w)%nat → flat w ws !! i = (λ z, Z.testbit z (Z.of_nat (i mod w)%nat)) <$> ws !! (i / w)%nat.
Proof.
  intros Hw. revert i; induction ws as [|z ws IH]; intros i; [done|]. rewrite flat_cons.
  destruct (decide (i < w)%nat) as [Hi|Hi].
  - rewrite lookup_app_l, lookup_bits_of by (by rewrite ?length_bits_of).
    by rewrite Nat.div_small, Nat.mod_small.
  - rewrite lookup_app_r by (rewrite length_bits_of; lia). rewrite length_bits_of, IH.
    assert ((i - w) / w = i / w - 1)%nat as ->.
    { replace i with ((i - w) + 1 * w)%nat at 2 by lia. rewrite Nat.div_add by lia. lia. }
    assert ((i - w) mod w = i mod w)%nat as ->.
    { replace i with ((i - w) + 1 * w)%nat at 2 by lia. by rewrite Nat.Div0.mod_add. }
    assert (1 <= i / w)%nat by (apply Nat.div_le_lower_bound; lia).
    destruct (i / w)%nat as [|q] eqn:E; [lia|]. simpl. by rewrite Nat.sub_0_r.
Qed.

(** Updating word [k] replaces its block of bits. *)
Lemma flat_insert w ws k z :
  (k < length ws)%nat →
  flat w (<[k := z]> ws) = take (k * w) (flat w ws) ++ bits_of w z ++ drop (k * w + w) (flat w ws).
Proof.
  intros Hk. destruct (lookup_lt_is_Some_2 ws k Hk) as [u Hu].
  apply list_elem_of_split_length in Hu as (l1 & l2 & -> & ->).
  rewrite insert_app_r_alt by lia. rewrite Nat.sub_diag. simpl.
  rewrite !flat_app, !flat_cons.
  rewrite take_app_length' by (by rewrite length_flat).
  rewrite drop_app_ge by (rewrite length_flat; lia). rewrite length_flat.
  replace (length l1 * w + w - length l1 * w)%nat with w by lia.
  by rewrite drop_app_length' by (by rewrite length_bits_of).
Qed.

(** Replacing one bit of one word. *)
Lemma flat_insert_bit w ws i u z b :
  (0 < w)%nat → ws !! (i / w)%nat = Some u → bits_of w z = <[(i mod w)%nat := b]> (bits_of w u) →
  flat w (<[(i / w)%nat := z]> ws) = <[i := b]> (flat w ws).
Proof.
  intros Hw Hu Hz. pose proof (lookup_lt_Some _ _ _ Hu) as Hl.
  apply list_eq. intros j. rewrite lookup_flat by done.
  destruct (decide (j / w = i / w)%nat) as [E|E].
  - rewrite E, list_lookup_insert_eq by done. simpl.
    assert (j mod w < w)%nat as Hm by (apply Nat.mod_upper_bound; lia).
    assert (bits_of w z !! (j mod w)%nat = Some (Z.testbit z (Z.of_nat (j mod w)%nat))) as Hj
      by (by apply lookup_bits_of).
    rewrite <- Hj, Hz. pose proof (Nat.div_mod i w). pose proof (Nat.div_mod j w).
    assert (i mod w < w)%nat by (apply Nat.mod_upper_bound; lia).
    destruct (decide (j = i)) as [->|Hne].
    + rewrite list_lookup_insert_eq by (by rewrite length_bits_of). symmetry.
      apply list_lookup_insert_eq. rewrite length_flat. nia.
    + rewrite !list_lookup_insert_ne by nia. rewrite lookup_bits_of by done.
      by rewrite lookup_flat, E, Hu.
  - rewrite list_lookup_insert_ne by congruence. rewrite list_lookup_insert_ne by congruence.
    by rewrite lookup_flat.
Qed.

Lemma count_ones_flat w ws : sum_list (count_ones w <$> ws) = count_true (flat w ws).
Proof.
  induction ws as [|z ws IH]; [done|]. rewrite fmap_cons, flat_cons, count_true_app. simpl.
  by rewrite IH, count_ones_spec.
Qed.

Lemma flat_inj w ws1 ws2 :
  (0 < w)%nat → Forall (in_u (Z.of_nat w)) ws1 → Forall (in_u (Z.of_nat w)) ws2 →
  flat w ws1 = flat w ws2 → ws1 = ws2.
Proof.
  intros Hw H1. revert ws2; induction H1 as [|z ws1 Hz H1 IH]; intros ws2 H2 H.
  - destruct ws2 as [|z2 ws2]; [done|]. apply (f_equal length) in H. rewrite !length_flat in H.
    simpl in H. lia.
  - destruct H2 as [|z2 ws2 Hz2 H2].
    { apply (f_equal length) in H. rewrite !length_flat in H. simpl in H. lia. }
    rewrite !flat_cons in H. apply app_inj_1 in H as [E1 E2]; [|by rewrite !length_bits_of].
    f_equal; [by eapply bits_of_inj|by apply IH].
Qed.

(** ** Walking the set bits of a word *)

(** [z.trailing_zeros()] of a [w]-bit word: [w] when no bit is set. *)
Fixpoint trailing_zeros (w : nat) (z : Z) : nat :=
  match w with
  | O => 0%nat
  | S w => if Z.odd z then 0%nat else S (trailing_zeros w (Z.div2 z))
  end.

(** [while bits != 0 { use(bits.trailing_zeros()); bits &= bits - 1; }]: the bits
    used, in order.  A turn clears a bit, so 64 turns are fuel enough. *)
Fixpoint set_bits_loop (fuel : nat) (bits : Z) : list nat :=
  match fuel with
  | O => []
  | S fuel =>
    if Z.eqb bits 0 then [] else trailing_zeros 64 bits :: set_bits_loop fuel (Z.land bits (bits - 1))
  end.

(** The positions, counted from [k], of the true entries. *)
Fixpoint true_indices (k : nat) (l : list bool) : list nat :=
  match l with
  | [] => []
  | b :: l => if b then k :: true_indices (S k) l else true_indices (S k) l
  end.

Lemma trailing_zeros_pow2 w k q :
  (k < w)%nat → Z.odd q = true → trailing_zeros w (2 ^ Z.of_nat k * q) = k.
Proof.
  revert k; induction w as [|w IH]; intros k Hk Hq; [lia|]. destruct k as [|k]; cbn [trailing_zeros].
  - by rewrite Z.mul_1_l, Hq.
  - replace (2 ^ Z.of_nat (S k) * q) with (2 * (2 ^ Z.of_nat k * q))
      by (rewrite Nat2Z.inj_succ, Z.pow_succ_r by lia; lia).
    rewrite Z.odd_mul. simpl. rewrite Z.div2_div, Z.mul_comm, Z.div_mul by lia. f_equal. apply IH; [lia|done].
Qed.

(** Clearing the lowest set bit. *)
Lemma land_pred_pow2 k m :
  0 <= k → Z.land (2 ^ k * (2 * m + 1)) (2 ^ k * (2 * m + 1) - 1) = 2 ^ (k + 1) * m.
Proof.
  intros Hk. apply Z.bits_inj'. intros i Hi. rewrite Z.land_spec.
  pose proof (Z.pow_pos_nonneg 2 k ltac:(lia) Hk) as Hp.
  rewrite !(Z.mul_comm (2 ^ _)). destruct (Z.lt_trichotomy i k) as [H|[->|H]].
  - rewrite !(Z.mul_pow2_bits_low _ _ i) by lia. done.
  - rewrite (Z.mul_pow2_bits_low m) by lia.
    rewrite (Z.testbit_eqb ((2 * m + 1) * 2 ^ k - 1)) by lia.
    replace ((2 * m + 1) * 2 ^ k - 1) with ((2 ^ k - 1) + 2 * m * 2 ^ k) by ring.
    rewrite Z.div_add, Z.div_small by lia. rewrite Z.add_0_l, (Z.mul_comm 2 m), Z.mod_mul by lia.
    by rewrite andb_false_r.
  - assert (Z.testbit ((2 * m + 1) * 2 ^ k - 1) i = Z.testbit m (i - (k + 1))) as ->.
    { replace i with ((i - (k + 1)) + (k + 1)) at 1 by lia. rewrite <- Z.div_pow2_bits by lia. f_equal.
      rewrite Z.pow_add_r, Z.pow_1_r by lia.
      replace ((2 * m + 1) * 2 ^ k - 1) with ((2 ^ k - 1) + m * (2 ^ k * 2)) by ring.
      rewrite Z.div_add, Z.div_small by lia. lia. }
    rewrite !Z.mul_pow2_bits by lia.
    replace (i - k) with (Z.succ (i - (k + 1))) by lia. rewrite Z.testbit_odd_succ by lia.
    apply andb_diag.
Qed.

Lemma set_bits_loop_shift n k q fuel :
  (n + k = 64)%nat → (n <= fuel)%nat → in_u (Z.of_nat n) q →
  set_bits_loop fuel (2 ^ Z.of_nat k * q) = true_indices k (bits_of n q).
Proof.
  revert k q fuel; induction n as [|n IH]; intros k q fuel Hnk Hf Hq.
  - assert (q = 0) as -> by (unfold in_u in Hq; simpl in Hq; lia). rewrite Z.mul_0_r. by destruct fuel.
  - rewrite bits_of_S. cbn [true_indices].
    assert (in_u (Z.of_nat n) (Z.div2 q)) as Hq2.
    { unfold in_u in *. rewrite Nat2Z.inj_succ, Z.pow_succ_r in Hq by lia. rewrite Z.div2_div. Z.to_euclidean_division_equations. lia. }
    pose proof (Z.div2_odd q) as Eq. destruct (Z.odd q) eqn:Ho.
    + destruct fuel as [|fuel]; [lia|]. cbn [set_bits_loop].
      pose proof (Z.pow_pos_nonneg 2 (Z.of_nat k) ltac:(lia) ltac:(lia)) as Hp.
      replace (Z.eqb (2 ^ Z.of_nat k * q) 0) with false by (symmetry; apply Z.eqb_neq; simpl in Eq; unfold in_u in Hq; nia).
      rewrite trailing_zeros_pow2 by (lia || done). f_equal.
      rewrite Eq. cbn [Z.b2z]. rewrite land_pred_pow2 by lia.
      replace (Z.of_nat k + 1) with (Z.of_nat (S k)) by lia.
      assert (Z.div2 (2 * Z.div2 q + 1) = Z.div2 q) as -> by (rewrite (Z.div2_div (_ + 1)); Z.to_euclidean_division_equations; lia).
      apply IH; [lia|lia|done].
    + rewrite Eq at 1. cbn [Z.b2z].
      replace (2 ^ Z.of_nat k * (2 * Z.div2 q + 0)) with (2 ^ Z.of_nat (S k) * Z.div2 q)
        by (rewrite Nat2Z.inj_succ, Z.pow_succ_r by lia; ring).
      apply IH; [lia|lia|done].
Qed.

Lemma set_bits_loop_spec z : in_u 64 z → set_bits_loop 64 z = true_indices 0 (bits_of 64 z).
Proof.
  intros Hz. rewrite <- (set_bits_loop_shift 64 0 z 64) by (done || lia). f_equal.
  change (2 ^ Z.of_nat 0) with 1. lia.
Qed.

Lemma true_indices_app k l1 l2 :
  true_indices k (l1 ++ l2) = true_indices k l1 ++ true_indices (k + length l1) l2.
Proof.
  revert k; induction l1 as [|b l1 IH]; intros k; simpl; [by rewrite Nat.add_0_r|].
  rewrite IH. replace (S k + length l1)%nat with (k + S (length l1))%nat by lia. by destruct b.
Qed.

Lemma true_indices_shift j k l : true_indices (j + k) l = Nat.add j <$> true_indices k l.
Proof.
  revert k; induction l as [|b l IH]; intros k; [done|]. simpl.
  replace (S (j + k))%nat with (j + S k)%nat by lia. rewrite IH. by destruct b.
Qed.

Lemma elem_of_true_indices k l i : i ∈ true_indices k l ↔ ∃ j, i = (k + j)%nat ∧ l !! j = Some true.
Proof.
  revert k; induction l as [|b l IH]; intros k; simpl.
  { split; [intros H; by apply not_elem_of_nil in H|by intros (j & _ & ?)]. }
  assert (i ∈ true_indices (S k) l ↔ ∃ j, i = (k + S j)%nat ∧ l !! j = Some true) as IH'.
  { rewrite IH. split; intros (j & -> & Hj); exists j; (split; [lia|done]). }
  destruct b.
  - rewrite elem_of_cons, IH'. split.
    + intros [->|(j & -> & Hj)]; [exists 0%nat; split; [lia|done]|by exists (S j)].
    + intros ([|j] & -> & Hj); [left; lia|right; by exists j].
  - rewrite IH'. split.
    + intros (j & -> & Hj). by exists (S j).
    + intros ([|j] & -> & Hj); [done|by exists j].
Qed.

Lemma true_indices_filter {A} `{EqDecision A} (x : A) l :
  true_indices 0 ((λ c, bool_decide (c = x)) <$> l) = filter (λ i, l !! i = Some x) (seq 0 (length l)).
Proof.
  induction l as [|c l IH] using rev_ind; [done|].
  rewrite fmap_app, true_indices_app, IH, length_app, length_fmap, Nat.add_1_r, seq_S, list.filter_app.
  f_equal.
  - apply filter_ext_elem. intros i Hi%elem_of_seq. by rewrite lookup_app_l by lia.
  - simpl. rewrite filter_cons, lookup_app_r, Nat.sub_diag by lia. simpl.
    repeat case_decide; simplify_eq; [by rewrite bool_decide_true|by rewrite bool_decide_false by congruence].
Qed.

Lemma length_true_indices k l : length (true_indices k l) = count_true l.
Proof.
  revert k; induction l as [|b l IH]; intros k; [done|]. rewrite count_true_cons. simpl.
  destruct b; simpl; by rewrite IH.
Qed.

(** Keeping the positions below [n] is truncating the vector. *)
Lemma filter_true_indices n k l :
  filter (λ i, i < n)%nat (true_indices k l) = true_indices k (take (n - k) l).
Proof.
  revert k; induction l as [|b l IH]; intros k; [by rewrite take_nil|].
  destruct (decide (k < n)%nat) as [Hk|Hk].
  - replace (n - k)%nat with (S (n - S k)) by lia. cbn [true_indices take]. destruct b.
    + rewrite filter_cons_True by done. by rewrite IH.
    + apply IH.
  - replace (n - k)%nat with 0%nat by lia. cbn [take true_indices].
    assert (∀ j l, (k <= j)%nat → filter (λ i, i < n)%nat (true_indices j l) = []) as H.
    { clear -Hk. intros j l; revert j; induction l as [|b l IH]; intros j Hj; [done|]. simpl.
      destruct b; [rewrite filter_cons_False by lia|]; apply IH; lia. }
    apply (H k (b :: l)). lia.
Qed.

(** ** Counting the first [n] rows of packed words *)
Lemma count_true_take_flat n ws :
  (n <= length ws * 64)%nat →
  count_true (take n (flat 64 ws)) =
  (sum_list (count_ones 64 <$> take (n / 64) ws) +
   match ws !! (n / 64)%nat with
   | Some u => count_ones 64 (Z.land u (2 ^ Z.of_nat (n mod 64) - 1))
   | None => 0
   end)%nat.
Proof.
  intros Hn. pose proof (Nat.div_mod n 64 ltac:(lia)) as Hdm. set (q := (n / 64)%nat) in *.
  set (r := (n mod 64)%nat) in *. assert (r < 64)%nat as Hr by (apply Nat.mod_upper_bound; lia).
  assert (take n (flat 64 ws) = flat 64 (take q ws) ++ take r (flat 64 (drop q ws))) as ->.
  { rewrite <- (take_drop q ws) at 1. rewrite flat_app, take_app_ge by (rewrite length_flat, length_take; lia).
    f_equal. f_equal. rewrite length_flat, length_take. lia. }
  rewrite count_true_app, <- count_ones_flat. f_equal. destruct (ws !! q) as [u|] eqn:Hu.
  - rewrite (drop_S _ _ _ Hu), flat_cons, take_app_le by (rewrite length_bits_of; lia).
    rewrite count_ones_spec, bits_of_mask, count_true_app, count_true_false by lia. lia.
  - apply lookup_ge_None_1 in Hu. rewrite (drop_ge ws) by lia. change (flat 64 []) with (@nil bool). by rewrite take_nil.
Qed.

(** ** Masks *)

(** An [__mmask8]: bit [j] is the comparison of lane [j]. *)
Fixpoint pack (bs : list bool) : Z :=
  match bs with
  | [] => 0
  | b :: bs => (if b then 1 else 0) + 2 * pack bs
  end.

Lemma bits_of_pack l : bits_of (length l) (pack l) = l.
Proof.
  induction l as [|b l IH]; [done|]. cbn [length pack]. rewrite bits_of_S. f_equal.
  - rewrite Z.odd_add_mul_2. by destruct b.
  - assert (Z.div2 ((if b then 1 else 0) + 2 * pack l) = pack l) as ->; [|done].
    rewrite Z.div2_div, (Z.mul_comm 2), Z.div_add by lia. by destruct b.
Qed.

Lemma pack_range l : in_u (Z.of_nat (length l)) (pack l).
Proof.
  induction l as [|b l IH]; [done|]. cbn [length pack]. unfold in_u in *.
  rewrite Nat2Z.inj_succ, Z.pow_succ_r by lia. destruct b; lia.
Qed.

(** [usize::next_power_of_two], for the sizes a vector can have. *)
Definition next_power_of_two (n : nat) : nat := (2 ^ Nat.log2_up n)%nat.
