(* ===== verification/Bsi.v ===== *)
(** * The bit-sliced index (src/src/index/bsi.rs)

    A column of 64-bit cells stored as 64 bitmaps, one per bit position.  A bitmap is
    modelled by its 64-bit limbs; an access to a limb or to a slice that does not
    exist, which panics, is [None]. *)

From Stdlib Require Import ZArith Lia.
From stdpp Require Import prelude list numbers.
From S2P Require Import Prelude Bits.
Local Open Scope Z_scope.

Module BsiM.

(** ** Bitmaps of 64-bit limbs *)
Record Bitmap := mkBitmap { bits : list Z; len : nat }.

Definition zeros (n : nat) : Bitmap := mkBitmap (replicate (div_ceil n 64) 0) n.

Definition set (i : nat) (b : Bitmap) : option Bitmap :=
  u ← bits b !! (i / 64)%nat;
  Some (mkBitmap (<[(i / 64)%nat := Z.lor u (Z.shiftl 1 (Z.of_nat (i mod 64)))]> (bits b)) (len b)).

Definition get (i : nat) (b : Bitmap) : option bool :=
  if bool_decide (len b <= i)%nat then Some false
  else u ← bits b !! (i / 64)%nat; Some (Z.eqb (Z.land (Z.shiftr u (Z.of_nat (i mod 64))) 1) 1).

Definition popcount (b : Bitmap) : option nat :=
  let full := (len b / 64)%nat in
  if bool_decide (length (bits b) < full)%nat then None (* [bits[..full]] *)
  else
    let count := sum_list (count_ones 64 <$> take full (bits b)) in
    match bits b !! full with
    | Some u =>
      let tail := (len b mod 64)%nat in
      Some (if bool_decide (tail ≠ 0%nat)
            then (count + count_ones 64 (Z.land u (Z.shiftl 1 (Z.of_nat tail) - 1)))%nat else count)
    | None => Some count
    end.

(** [for (i, (a, b)) in zip(..).enumerate() { out.bits[i] = op(a, b) }]. *)
Definition zip_into (op : Z → Z → Z) (a b out : Bitmap) : option Bitmap :=
  let l := zip_with op (bits a) (bits b) in
  if bool_decide (length (bits out) < length l)%nat then None
  else Some (mkBitmap (l ++ drop (length l) (bits out)) (len out)).

Definition and (a b : Bitmap) : option Bitmap := zip_into Z.land a b (zeros (len a)).
Definition or (a b : Bitmap) : option Bitmap := zip_into Z.lor a b (zeros (len a)).

Definition not (a : Bitmap) : option Bitmap :=
  let out := zeros (len a) in
  let full := (len a / 64)%nat in
  if bool_decide (length (bits a) < full)%nat then None
  else
    let out := (not_w 64 <$> take full (bits a)) ++ drop full (bits out) in
    let tail := (len a mod 64)%nat in
    if bool_decide (tail ≠ 0%nat) then
      u ← bits a !! full;
      Some (mkBitmap (<[full := Z.land (not_w 64 u) (Z.shiftl 1 (Z.of_nat tail) - 1)]> out) (len a))
    else Some (mkBitmap out (len a)).

(** The limbs in order, each with the rows of its set bits below [len]. *)
Fixpoint indices_from (n limb_idx : nat) (limbs : list Z) : list nat :=
  match limbs with
  | [] => []
  | u :: limbs =>
    filter (λ i, i < n)%nat (Nat.add (limb_idx * 64) <$> set_bits_loop 64 u) ++
    indices_from n (S limb_idx) limbs
  end.

Definition set_indices (b : Bitmap) : list nat := indices_from (len b) 0 (bits b).

(** ** The index *)
Record BitSlicedIndex := mkBsi { slices : list Bitmap; rows : nat }.

(** [slices[b].set(row)]. *)
Definition set_slice (row : nat) (ss : list Bitmap) (b : nat) : option (list Bitmap) :=
  s ← ss !! b; s' ← set row s; Some (<[b := s']> ss).

Fixpoint set_slices (row : nat) (bs : list nat) (ss : list Bitmap) : option (list Bitmap) :=
  match bs with
  | [] => Some ss
  | b :: bs => ss' ← set_slice row ss b; set_slices row bs ss'
  end.

Fixpoint build_rows (row : nat) (cells : list Z) (ss : list Bitmap) : option (list Bitmap) :=
  match cells with
  | [] => Some ss
  | cell :: cells => ss' ← set_slices row (set_bits_loop 64 cell) ss; build_rows (S row) cells ss'
  end.

Definition build (cells : list Z) : option BitSlicedIndex :=
  let n := length cells in
  ss ← build_rows 0 cells (replicate 64 (zeros n)); Some (mkBsi ss n).

(** What slice [i] contributes to the mask of [target]. *)
Definition contribution (idx : BitSlicedIndex) (target : Z) (i : nat) : option Bitmap :=
  s ← slices idx !! i;
  if Z.eqb (Z.land (Z.shiftr target (Z.of_nat i)) 1) 0 then not s else Some s.

Fixpoint and_slices (idx : BitSlicedIndex) (target : Z) (ks : list nat) (acc : Bitmap) : option Bitmap :=
  match ks with
  | [] => Some acc
  | k :: ks => c ← contribution idx target k; acc' ← and acc c; and_slices idx target ks acc'
  end.

Definition find_eq (idx : BitSlicedIndex) (target : Z) : option Bitmap :=
  if bool_decide (rows idx = 0%nat) then Some (zeros 0)
  else acc ← contribution idx target 0; and_slices idx target (seq 1 63) acc.

Definition byte_size (idx : BitSlicedIndex) : nat :=
  sum_list ((λ b, length (bits b) * 8)%nat <$> slices idx).

(** ** Bitmaps as rows *)
Definition wf (b : Bitmap) : Prop := length (bits b) = div_ceil (len b) 64 ∧ Forall (in_u 64) (bits b).
Definition abs (b : Bitmap) : list bool := take (len b) (flat 64 (bits b)).

(** [b] is a well-formed bitmap of the rows [l]. *)
Definition rep (b : Bitmap) (l : list bool) : Prop := wf b ∧ abs b = l.

Lemma bsi_wf_bounds b : wf b → (len b <= length (bits b) * 64)%nat.
Proof. intros [H _]. rewrite H. apply div_ceil_bounds. lia. Qed.

Lemma wf_full b : wf b → (len b / 64 <= length (bits b))%nat.
Proof. intros Hb%bsi_wf_bounds. apply Nat.Div0.div_le_upper_bound. lia. Qed.

Lemma rep_len b l : rep b l → len b = length l.
Proof.
  intros [Hb <-]. unfold abs. rewrite length_take, length_flat. pose proof (bsi_wf_bounds b Hb). lia.
Qed.

Lemma bsi_wf_word b i : wf b → (i < len b)%nat → is_Some (bits b !! (i / 64)%nat).
Proof.
  intros Hb Hi. apply lookup_lt_is_Some. pose proof (bsi_wf_bounds b Hb).
  apply Nat.Div0.div_lt_upper_bound. lia.
Qed.

Lemma rep_zeros n : rep (zeros n) (replicate n false).
Proof.
  split; [split; simpl; [apply length_replicate|by apply Forall_replicate]|].
  unfold abs, zeros. cbn [bits len]. rewrite flat_zeros, take_replicate. f_equal.
  pose proof (div_ceil_bounds n 64). lia.
Qed.

Lemma rep_set b l i : rep b l → (i < length l)%nat → ∃ b', set i b = Some b' ∧ rep b' (<[i := true]> l).
Proof.
  intros Hrep Hi. pose proof (rep_len _ _ Hrep) as Hlen. destruct Hrep as [Hb <-].
  destruct (bsi_wf_word b i Hb) as [u Hu]; [lia|]. unfold set. rewrite Hu. eexists; split; [done|].
  assert (i mod 64 < 64)%nat by (apply Nat.mod_upper_bound; lia). destruct Hb as [H1 H2]. split.
  - split; cbn [bits len]; [by rewrite length_insert|]. apply Forall_insert; [done|].
    apply in_u_setbit; [lia|]. by eapply Forall_lookup_1.
  - unfold abs. cbn [bits len]. rewrite (flat_insert_bit 64 _ _ u _ true) by (done || lia || by apply bits_of_setbit).
    by rewrite take_insert_lt by lia.
Qed.

Lemma rep_get b l i : rep b l → get i b = Some (default false (l !! i)).
Proof.
  intros Hrep. pose proof (rep_len _ _ Hrep) as Hlen. destruct Hrep as [Hb <-]. unfold get.
  case_bool_decide as Hi; [by rewrite lookup_ge_None_2 by lia|].
  destruct (bsi_wf_word b i Hb) as [u Hu]; [lia|]. rewrite Hu. simpl. f_equal. unfold abs.
  rewrite lookup_take_lt, lookup_flat, Hu by lia. simpl.
  rewrite Z.land_ones with (n := 1), Z.shiftr_div_pow2 by lia. by rewrite Z.testbit_eqb by lia.
Qed.

Lemma rep_popcount b l : rep b l → popcount b = Some (count_true l).
Proof.
  intros [Hb <-]. unfold popcount. rewrite bool_decide_false by (pose proof (wf_full b Hb); lia).
  unfold abs. rewrite count_true_take_flat by (by apply bsi_wf_bounds).
  destruct (bits b !! (len b / 64)%nat) as [u|] eqn:Hu; [|f_equal; lia]. f_equal.
  case_bool_decide as Ht; [by rewrite Z.shiftl_1_l|].
  replace (len b mod 64)%nat with 0%nat by (destruct (len b mod 64)%nat; [done|by destruct Ht]).
  change (2 ^ Z.of_nat 0 - 1) with 0. rewrite Z.land_0_r, count_ones_spec, bits_of_0, count_true_false. lia.
Qed.

Lemma indices_from_spec n k limbs :
  Forall (in_u 64) limbs →
  indices_from n k limbs = filter (λ i, i < n)%nat (true_indices (k * 64) (flat 64 limbs)).
Proof.
  intros H; revert k; induction H as [|u limbs Hu H IH]; intros k; [done|].
  cbn [indices_from]. rewrite IH, flat_cons, true_indices_app, list.filter_app, length_bits_of.
  replace (S k * 64)%nat with (k * 64 + 64)%nat by lia. f_equal. f_equal.
  rewrite set_bits_loop_spec, <- true_indices_shift by done. by rewrite Nat.add_0_r.
Qed.

Lemma rep_set_indices b l : rep b l → set_indices b = true_indices 0 l.
Proof.
  intros [[_ Hb] <-]. unfold set_indices. rewrite indices_from_spec by done. simpl (0 * 64)%nat.
  by rewrite filter_true_indices, Nat.sub_0_r.
Qed.

Lemma flat_zip_with (f : bool → bool → bool) (g : Z → Z → Z) w xs ys :
  (∀ a b i, Z.testbit (g a b) i = f (Z.testbit a i) (Z.testbit b i)) → length xs = length ys →
  flat w (zip_with g xs ys) = zip_with f (flat w xs) (flat w ys).
Proof.
  intros Hg. revert ys; induction xs as [|x xs IH]; intros [|y ys] Hl; try done.
  simpl. rewrite !flat_cons, zip_with_app by (by rewrite !length_bits_of).
  rewrite (bits_of_zip f g) by done. f_equal. apply IH. by injection Hl.
Qed.

Lemma rep_zip_into f g a b l m :
  (∀ a b i, Z.testbit (g a b) i = f (Z.testbit a i) (Z.testbit b i)) →
  (∀ a b, in_u 64 a → in_u 64 b → in_u 64 (g a b)) →
  rep a l → rep b m → length l = length m →
  ∃ c, zip_into g a b (zeros (len a)) = Some c ∧ rep c (zip_with f l m).
Proof.
  intros Hg Hu Ha Hb Hlm. pose proof (rep_len _ _ Ha) as La. pose proof (rep_len _ _ Hb) as Lb.
  destruct Ha as [[A1 A2] <-]. destruct Hb as [[B1 B2] <-].
  assert (length (bits a) = length (bits b)) as Hab by (rewrite A1, B1; f_equal; lia).
  assert (length (zip_with g (bits a) (bits b)) = length (bits a)) as Hz by (rewrite length_zip_with; lia).
  unfold zip_into. rewrite Hz. cbn [bits len zeros]. rewrite length_replicate, bool_decide_false by lia.
  eexists; split; [done|]. rewrite drop_ge, app_nil_r by (rewrite length_replicate; lia). split.
  - split; cbn [bits len]; [by rewrite Hz|].
    rewrite Forall_lookup. intros i x Hx. apply lookup_zip_with_Some in Hx as (y & z & -> & Hy & Hzz).
    apply Hu; [exact (Forall_lookup_1 _ _ _ _ A2 Hy)|exact (Forall_lookup_1 _ _ _ _ B2 Hzz)].
  - unfold abs. cbn [bits len]. rewrite (flat_zip_with f g) by done. rewrite zip_with_take.
    f_equal. f_equal. lia.
Qed.

Lemma rep_and a b l m :
  rep a l → rep b m → length l = length m → ∃ c, and a b = Some c ∧ rep c (zip_with andb l m).
Proof.
  intros Ha Hb Hl. apply rep_zip_into; try done; [intros; apply Z.land_spec|]. intros; by apply in_u_land.
Qed.

Lemma rep_or a b l m :
  rep a l → rep b m → length l = length m → ∃ c, or a b = Some c ∧ rep c (zip_with orb l m).
Proof.
  intros Ha Hb Hl. apply rep_zip_into; try done; [intros; apply Z.lor_spec|]. intros; by apply in_u_lor.
Qed.

Lemma flat_not ws : flat 64 (not_w 64 <$> ws) = negb <$> flat 64 ws.
Proof.
  induction ws as [|u ws IH]; [done|]. rewrite fmap_cons, !flat_cons, fmap_app, IH. f_equal.
  apply (bits_of_not 64).
Qed.

(** The last limb of [not], and the words it leaves for the full limbs. *)
Lemma bits_of_not_mask u r :
  (r <= 64)%nat →
  bits_of 64 (Z.land (not_w 64 u) (2 ^ Z.of_nat r - 1)) = (negb <$> take r (bits_of 64 u)) ++ replicate (64 - r) false.
Proof. intros Hr. rewrite bits_of_mask by done. by rewrite (bits_of_not 64), fmap_take. Qed.

Lemma Forall_not_w ws : Forall (in_u 64) ws → Forall (in_u 64) (not_w 64 <$> ws).
Proof.
  intros H. apply Forall_fmap. revert H. apply Forall_impl. intros x Hx. by apply in_u_not_w.
Qed.

(** The rows of whole limbs followed by a part of one more. *)
Lemma take_flat_snoc n ws u :
  (length ws * 64 <= n <= length ws * 64 + 64)%nat →
  take n (flat 64 (ws ++ [u])) = flat 64 ws ++ take (n - length ws * 64) (bits_of 64 u).
Proof.
  intros Hn. rewrite flat_app, take_app_ge by (rewrite length_flat; lia). f_equal.
  rewrite length_flat, flat_cons. change (flat 64 []) with (@nil bool). by rewrite app_nil_r.
Qed.

Lemma rep_not_tail ws u n :
  Forall (in_u 64) (ws ++ [u]) → (length ws * 64 < n <= length ws * 64 + 64)%nat →
  rep (mkBitmap ((not_w 64 <$> ws) ++ [Z.land (not_w 64 u) (2 ^ Z.of_nat (n - length ws * 64) - 1)]) n)
      (negb <$> take n (flat 64 (ws ++ [u]))).
Proof.
  intros [Hws Hu]%list.Forall_app Hn. apply Forall_cons_1 in Hu as [Hu _]. set (r := (n - length ws * 64)%nat).
  split; [split|]; cbn [bits len].
  - rewrite length_app, length_fmap. symmetry. apply div_ceil_unique; cbn [length]; lia.
  - apply Forall_app; split; [by apply Forall_not_w|]. apply Forall_cons_2; [|by apply Forall_nil_2].
    apply in_u_land; [lia|by apply in_u_not_w|]. pose proof (Z.pow_pos_nonneg 2 (Z.of_nat r)).
    assert (2 ^ Z.of_nat r <= 2 ^ 64) by (apply Z.pow_le_mono_r; lia). unfold in_u. lia.
  - unfold abs. cbn [bits len]. rewrite !take_flat_snoc by (rewrite ?length_fmap; lia).
    rewrite length_fmap, flat_not, fmap_app. fold r. f_equal. rewrite bits_of_not_mask by lia.
    rewrite take_app_le by (rewrite length_fmap, length_take, length_bits_of; lia).
    rewrite take_ge by (rewrite length_fmap, length_take; lia). done.
Qed.

Lemma rep_not a l : rep a l → ∃ c, not a = Some c ∧ rep c (negb <$> l).
Proof.
  intros [Hwf <-]. pose proof (wf_full a Hwf) as Hfull. destruct Hwf as [A1 A2].
  pose proof (div_ceil_bounds (len a) 64 ltac:(lia)) as Hd.
  pose proof (Nat.div_mod (len a) 64 ltac:(lia)) as Hdm.
  assert (len a mod 64 < 64)%nat as Hm by (apply Nat.mod_upper_bound; lia).
  unfold not. rewrite bool_decide_false by lia. cbn [zeros bits].
  set (q := (len a / 64)%nat) in *. set (r := (len a mod 64)%nat) in *. rewrite drop_replicate.
  case_bool_decide as Hr.
  - destruct (lookup_lt_is_Some_2 (bits a) q) as [u Hu]; [lia|]. rewrite Hu. cbn [mbind option_bind].
    eexists; split; [done|]. replace (div_ceil (len a) 64 - q)%nat with 1%nat by lia.
    rewrite insert_app_r_alt by (rewrite length_fmap, length_take; lia).
    rewrite length_fmap, length_take, Nat.min_l, Nat.sub_diag by lia. simpl (<[0%nat:=_]> _).
    assert (bits a = take q (bits a) ++ [u]) as Hs.
    { rewrite <- (take_drop q (bits a)) at 1. f_equal. rewrite (drop_S _ _ _ Hu). f_equal. apply drop_ge. lia. }
    unfold abs. rewrite Hs in A2 |- *. rewrite Z.shiftl_1_l.
    rewrite take_app_le, take_ge by (rewrite length_take; lia).
    replace r with (len a - length (take q (bits a)) * 64)%nat by (rewrite length_take; lia).
    apply rep_not_tail; [done|]. rewrite length_take. lia.
  - eexists; split; [done|]. replace (div_ceil (len a) 64 - q)%nat with 0%nat by lia.
    rewrite app_nil_r, take_ge by lia. split; [split; cbn [bits len]; [by rewrite length_fmap|by apply Forall_not_w]|].
    unfold abs. cbn [bits len]. by rewrite flat_not, fmap_take.
Qed.

(** ** The slices of a column *)

(** The slices hold the bits of [cells], row by row. *)
Definition sliced (ss : list Bitmap) (cells : list (list bool)) : Prop :=
  length ss = length cells ∧ ∀ i s l, ss !! i = Some s → cells !! i = Some l → rep s l.

Lemma set_slices_spec row bs ss ls :
  sliced ss ls → Forall (λ b, b < length ls)%nat bs → Forall (λ l, row < length l)%nat ls →
  ∃ ss', set_slices row bs ss = Some ss' ∧
         sliced ss' (imap (λ i l, if bool_decide (i ∈ bs) then <[row := true]> l else l) ls).
Proof.
  revert ss ls; induction bs as [|b bs IH]; intros ss ls Hss Hbs Hrow.
  - exists ss. split; [done|]. destruct Hss as [H1 H2]. split; [by rewrite length_imap|].
    intros i s l Hs Hl. rewrite list_lookup_imap in Hl. destruct (ls !! i) as [l'|] eqn:E; [|done].
    simpl in Hl. simplify_eq. by eapply H2.
  - apply Forall_cons_1 in Hbs as [Hb Hbs]. destruct Hss as [H1 H2].
    destruct (lookup_lt_is_Some_2 ss b) as [s Hs]; [lia|].
    destruct (lookup_lt_is_Some_2 ls b) as [l Hl]; [lia|].
    destruct (rep_set s l row) as (s' & Hs' & Hr); [by eapply H2|by eapply (Forall_lookup_1 _ _ _ _ Hrow)|].
    cbn [set_slices]. unfold set_slice. rewrite Hs. cbn [mbind option_bind]. rewrite Hs'. cbn [mbind option_bind].
    destruct (IH (<[b := s']> ss) (<[b := <[row := true]> l]> ls)) as (ss' & -> & H).
    + split; [by rewrite !length_insert|]. intros i x y Hx Hy. destruct (decide (i = b)) as [->|Hne].
      * rewrite list_lookup_insert_eq in Hx by lia. rewrite list_lookup_insert_eq in Hy by lia. by simplify_eq.
      * rewrite list_lookup_insert_ne in Hx by done. rewrite list_lookup_insert_ne in Hy by done. by eapply H2.
    + by rewrite length_insert.
    + apply Forall_insert; [done|]. rewrite length_insert. by eapply (Forall_lookup_1 _ _ _ _ Hrow).
    + exists ss'. split; [done|]. destruct H as [H3 H4]. split; [by rewrite H3, !length_imap, length_insert|].
      intros i x y Hx Hy. apply (H4 i x y Hx). rewrite list_lookup_imap in Hy |- *.
      destruct (decide (i = b)) as [->|Hne].
      * rewrite list_lookup_insert_eq by lia. rewrite Hl in Hy. simpl in Hy |- *.
        rewrite bool_decide_true in Hy by set_solver. case_bool_decide; [|done].
        by rewrite list_insert_insert_eq.
      * rewrite list_lookup_insert_ne by done. destruct (ls !! i); [|done]. simpl in Hy |- *.
        rewrite <- Hy. f_equal. repeat case_bool_decide; set_solver.
Qed.

(** Bit [i] of every cell, the cells not yet reached counting as zero. *)
Definition bit_rows (n : nat) (done : list Z) (i : nat) : list bool :=
  ((λ c, Z.testbit c (Z.of_nat i)) <$> done) ++ replicate (n - length done) false.

Definition all_rows (n : nat) (done : list Z) : list (list bool) := bit_rows n done <$> seq 0 64.

Lemma bit_rows_snoc n done c i :
  (length done < n)%nat →
  bit_rows n (done ++ [c]) i =
  if Z.testbit c (Z.of_nat i) then <[length done := true]> (bit_rows n done i) else bit_rows n done i.
Proof.
  intros Hn. unfold bit_rows. rewrite fmap_app, length_app. simpl.
  replace (n - length done)%nat with (S (n - (length done + 1))) by lia.
  rewrite <- app_assoc. cbn [replicate app]. destruct (Z.testbit c (Z.of_nat i)); [|done].
  rewrite insert_app_r_alt by (by rewrite length_fmap). by rewrite length_fmap, Nat.sub_diag.
Qed.

Lemma all_rows_snoc n done c :
  (length done < n)%nat → in_u 64 c →
  all_rows n (done ++ [c]) =
  imap (λ i l, if bool_decide (i ∈ set_bits_loop 64 c) then <[length done := true]> l else l) (all_rows n done).
Proof.
  intros Hn Hc. apply list_eq. intros i. unfold all_rows. rewrite list_lookup_imap, !list_lookup_fmap.
  destruct (decide (i < 64)%nat) as [Hi|Hi]; [|by rewrite !lookup_ge_None_2 by (rewrite length_seq; lia)].
  rewrite !lookup_seq_lt by done. cbn [fmap option_fmap option_map Nat.add]. f_equal.
  rewrite bit_rows_snoc by done. rewrite set_bits_loop_spec by done.
  destruct (Z.testbit c (Z.of_nat i)) eqn:Hb.
  - rewrite bool_decide_true; [done|]. apply elem_of_true_indices. exists i. split; [done|].
    by rewrite lookup_bits_of, Hb.
  - rewrite bool_decide_false; [done|]. intros (j & -> & Hj)%elem_of_true_indices. simpl in *.
    rewrite lookup_bits_of in Hj by done. congruence.
Qed.

Lemma build_rows_spec n done cells ss :
  n = (length done + length cells)%nat → Forall (in_u 64) cells → sliced ss (all_rows n done) →
  ∃ ss', build_rows (length done) cells ss = Some ss' ∧ sliced ss' (all_rows n (done ++ cells)).
Proof.
  revert done ss; induction cells as [|c cells IH]; intros done ss Hn Hu Hss.
  - exists ss. by rewrite app_nil_r.
  - apply Forall_cons_1 in Hu as [Hc Hu]. simpl in Hn. cbn [build_rows].
    destruct (set_slices_spec (length done) (set_bits_loop 64 c) ss (all_rows n done)) as (ss1 & -> & H1); [done| | |].
    + apply list.Forall_forall. intros b Hb. rewrite set_bits_loop_spec in Hb by done.
      apply elem_of_true_indices in Hb as (j & -> & Hj). apply lookup_lt_Some in Hj.
      rewrite length_bits_of in Hj. unfold all_rows. by rewrite length_fmap, length_seq.
    + apply Forall_fmap, Forall_true. intros i. simpl. unfold bit_rows. len.
    + cbn [mbind option_bind]. rewrite <- all_rows_snoc in H1 by (done || lia).
      destruct (IH (done ++ [c]) ss1) as (ss' & E & H); [len; simpl; lia|done|done|].
      rewrite length_app, Nat.add_1_r in E. rewrite E. exists ss'. split; [done|]. by rewrite <- app_assoc in H.
Qed.

Lemma build_spec cells :
  Forall (in_u 64) cells →
  ∃ idx, build cells = Some idx ∧ rows idx = length cells ∧ sliced (slices idx) (all_rows (length cells) cells).
Proof.
  intros Hu. unfold build.
  destruct (build_rows_spec (length cells) [] cells (replicate 64 (zeros (length cells)))) as (ss & E & H); [done|done| |].
  - split; [done|]. intros i s l [-> Hi]%lookup_replicate Hl. unfold all_rows in Hl.
    rewrite list_lookup_fmap, lookup_seq_lt in Hl by done. simpl in Hl. simplify_eq.
    unfold bit_rows. rewrite Nat.sub_0_r. apply rep_zeros.
  - simpl length in E. rewrite E. simpl. eexists; split; [done|]. split; [done|]. exact H.
Qed.

(** ** Equality lookup *)
Definition agree (target c : Z) (i : nat) : bool :=
  Bool.eqb (Z.testbit c (Z.of_nat i)) (Z.testbit target (Z.of_nat i)).

Lemma contribution_spec cells idx target i :
  sliced (slices idx) (all_rows (length cells) cells) → (i < 64)%nat →
  ∃ s, contribution idx target i = Some s ∧ rep s ((λ c, agree target c i) <$> cells).
Proof.
  intros [H1 H2] Hi. unfold all_rows in *. rewrite length_fmap, length_seq in H1.
  destruct (lookup_lt_is_Some_2 (slices idx) i) as [s Hs]; [lia|].
  assert (rep s ((λ c, Z.testbit c (Z.of_nat i)) <$> cells)) as Hr.
  { specialize (H2 i s (bit_rows (length cells) cells i) Hs). rewrite list_lookup_fmap, lookup_seq_lt in H2 by done.
    specialize (H2 eq_refl). unfold bit_rows in H2. by rewrite Nat.sub_diag, app_nil_r in H2. }
  unfold contribution. rewrite Hs. cbn [mbind option_bind].
  assert (Z.eqb (Z.land (Z.shiftr target (Z.of_nat i)) 1) 0 = negb (Z.testbit target (Z.of_nat i))) as ->.
  { rewrite Z.land_ones with (n := 1) by lia. rewrite Z.shiftr_div_pow2, Z.testbit_eqb by lia.
    change (2 ^ 1) with 2. pose proof (Z.mod_pos_bound (target / 2 ^ Z.of_nat i) 2).
    destruct (Z.eqb_spec ((target / 2 ^ Z.of_nat i) mod 2) 0), (Z.eqb_spec ((target / 2 ^ Z.of_nat i) mod 2) 1);
      (done || lia). }
  unfold agree. destruct (Z.testbit target (Z.of_nat i)); simpl.
  - exists s. split; [done|]. erewrite list_fmap_ext; [exact Hr|]. intros j x _. simpl. by destruct (Z.testbit x (Z.of_nat i)).
  - destruct (rep_not _ _ Hr) as (s' & -> & Hr'). exists s'. split; [done|].
    rewrite <- list_fmap_compose in Hr'. erewrite list_fmap_ext; [exact Hr'|]. intros j x _. simpl.
    by destruct (Z.testbit x (Z.of_nat i)).
Qed.

Lemma and_slices_spec cells idx target ks acc p :
  sliced (slices idx) (all_rows (length cells) cells) → Forall (λ k, k < 64)%nat ks → rep acc (p <$> cells) →
  ∃ s, and_slices idx target ks acc = Some s ∧ rep s ((λ c, p c && forallb (agree target c) ks) <$> cells).
Proof.
  intros Hs Hks. revert acc p; induction Hks as [|k ks Hk Hks IH]; intros acc p Hacc.
  - exists acc. split; [done|]. erewrite list_fmap_ext; [exact Hacc|]. intros _ x _. apply andb_true_r.
  - cbn [and_slices]. destruct (contribution_spec cells idx target k Hs Hk) as (c & -> & Hc). cbn [mbind option_bind].
    destruct (rep_and _ _ _ _ Hacc Hc) as (a & -> & Ha); [by rewrite !length_fmap|]. cbn [mbind option_bind].
    rewrite zip_with_fmap_l, zip_with_fmap_r, zip_with_diag in Ha.
    destruct (IH a _ Ha) as (s & -> & H). exists s. split; [done|].
    erewrite list_fmap_ext; [exact H|]. intros _ x _. simpl. by rewrite andb_assoc.
Qed.

Lemma agree_all target c :
  in_u 64 target → in_u 64 c → forallb (agree target c) (seq 0 64) = bool_decide (c = target).
Proof.
  intros Ht Hc. case_bool_decide as H.
  - apply forallb_forall. intros i _. rewrite H. unfold agree. apply eqb_reflx.
  - apply not_true_is_false. intros Hall. apply H. rewrite forallb_forall in Hall.
    apply (bits_of_inj 64); [done|done|]. apply bits_of_ext; [len|]. intros i Hi. rewrite lookup_bits_of by done.
    f_equal. symmetry. apply eqb_prop, Hall, in_seq. lia.
Qed.

Lemma find_eq_spec cells idx target :
  Forall (in_u 64) cells → in_u 64 target → build cells = Some idx →
  ∃ b, find_eq idx target = Some b ∧ rep b ((λ c, bool_decide (c = target)) <$> cells).
Proof.
  intros Hc Ht Hb. destruct (build_spec cells Hc) as (idx' & E & Hrows & Hs). simplify_eq.
  unfold find_eq. rewrite Hrows. case_bool_decide as Hz.
  - apply nil_length_inv in Hz as ->. exists (zeros 0). split; [done|]. apply rep_zeros.
  - destruct (contribution_spec cells idx target 0 Hs) as (s & -> & H0); [lia|]. cbn [mbind option_bind].
    destruct (and_slices_spec cells idx target (seq 1 63) s (λ c, agree target c 0) Hs) as (b & -> & H); [|exact H0|].
    { apply list.Forall_forall. intros k Hk%elem_of_seq. lia. }
    exists b. split; [done|]. erewrite list_fmap_ext; [exact H|]. intros i x Hx. simpl.
    rewrite <- agree_all; [done|done|by eapply Forall_lookup_1].
Qed.

(** the bit-sliced index answers equality exactly.  Over every column of 64-bit
    cells the index is built without a failed access, and looking any value up gives
    the bitmap whose set rows are, in ascending order, exactly the rows holding that
    value; the population count is their number and [get] answers row by row. *)
Theorem bsi_find_eq cells target :
  Forall (in_u 64) cells → in_u 64 target →
  ∃ idx b, build cells = Some idx ∧ find_eq idx target = Some b ∧
    set_indices b = filter (λ i, cells !! i = Some target) (seq 0 (length cells)) ∧
    popcount b = Some (length (filter (λ c, c = target) cells)) ∧
    (∀ i, get i b = Some (bool_decide (cells !! i = Some target))).
Proof.
  intros Hc Ht. destruct (build_spec cells Hc) as (idx & Hb & _ & _).
  destruct (find_eq_spec cells idx target Hc Ht Hb) as (b & Hf & Hr).
  exists idx, b. split; [done|]. split; [done|]. split; [|split].
  - rewrite (rep_set_indices _ _ Hr). apply true_indices_filter.
  - rewrite (rep_popcount _ _ Hr). f_equal. unfold count_true. rewrite filter_fmap_list, length_fmap.
    f_equal. apply list_filter_iff. intros x. simpl. apply bool_decide_eq_true.
  - intros i. rewrite (rep_get _ _ i Hr), list_lookup_fmap. f_equal. destruct (cells !! i) as [c|]; simpl.
    + apply bool_decide_ext. split; congruence.
    + done.
Qed.

Lemma bsi_find_eq_witness :
  ∃ idx b, build [1; 2; 2 ^ 63; 2] = Some idx ∧ find_eq idx 2 = Some b ∧ set_indices b = [1%nat; 3%nat].
Proof.
  destruct (bsi_find_eq [1; 2; 2 ^ 63; 2] 2) as (idx & b & H1 & H2 & H3 & _ & _).
  - repeat (apply Forall_cons_2; [unfold in_u; lia|]). apply Forall_nil_2.
  - unfold in_u. lia.
  - exists idx, b. split; [exact H1|]. split; [exact H2|]. rewrite H3. reflexivity.
Defined.
End BsiM.
