(* ===== verification/Nulls.v ===== *)
(** * NULL tracking, one boolean per row (src/src/types/null_bitmap.rs)

    The bitmap every column of a table carries, operation by operation, with the
    source's behaviour out of range (reads are false, writes do nothing). *)

From Stdlib Require Import ZArith Lia.
From stdpp Require Import prelude list numbers.
From S2P Require Import Prelude.
Local Open Scope Z_scope.

Module NullVec.

Record NullBitmap := mkNB { bits : list bool }.

Definition new (n : nat) : NullBitmap := mkNB (replicate n false).
Definition all_null (n : nat) : NullBitmap := mkNB (replicate n true).
Definition all_non_null (n : nat) : NullBitmap := mkNB (replicate n false).

Definition is_null (idx : nat) (b : NullBitmap) : bool := default false (bits b !! idx).

Definition set_null (idx : nat) (b : NullBitmap) : NullBitmap :=
  if bool_decide (idx < length (bits b))%nat then mkNB (<[idx := true]> (bits b)) else b.
Definition set_non_null (idx : nat) (b : NullBitmap) : NullBitmap :=
  if bool_decide (idx < length (bits b))%nat then mkNB (<[idx := false]> (bits b)) else b.

Definition null_count (b : NullBitmap) : nat := length (filter (λ x, x = true) (bits b)).
Definition non_null_count (b : NullBitmap) : nat := length (filter (λ x, x = false) (bits b)).
Definition has_nulls (b : NullBitmap) : bool := existsb (λ x, x) (bits b).
Definition non_null_mask (b : NullBitmap) : list bool := bits b.
Definition push_null (b : NullBitmap) : NullBitmap := mkNB (bits b ++ [true]).
Definition push_non_null (b : NullBitmap) : NullBitmap := mkNB (bits b ++ [false]).
Definition truncate (n : nat) (b : NullBitmap) : NullBitmap := mkNB (take n (bits b)).
Definition len (b : NullBitmap) : nat := length (bits b).
Definition is_empty (b : NullBitmap) : bool := match bits b with [] => true | _ => false end.

Lemma counts_partition b : (null_count b + non_null_count b)%nat = len b.
Proof.
  unfold null_count, non_null_count, len. induction (bits b) as [|x l IH]; [done|].
  rewrite !filter_cons. destruct x; simpl; lia.
Qed.

Lemma has_nulls_count b : has_nulls b = negb (bool_decide (null_count b = 0%nat)).
Proof.
  unfold has_nulls, null_count. induction (bits b) as [|x l IH]; [done|].
  rewrite filter_cons. simpl. destruct x; simpl; [done|]. exact IH.
Qed.

(** [non_null_mask] is the null mask: its entry for a row is true exactly when
    the cell is NULL, the opposite of what its comment promises. *)
Theorem non_null_mask_is_null_mask (b : NullBitmap) (idx : nat) (x : bool)
    (Hx : non_null_mask b !! idx = Some x) : x = is_null idx b.
Proof. unfold is_null. unfold non_null_mask in Hx. by rewrite Hx. Qed.

Lemma non_null_mask_is_null_mask_witness :
  true = is_null 1 (set_null 1 (new 3)).
Proof. apply (non_null_mask_is_null_mask (set_null 1 (new 3)) 1 true). reflexivity. Defined.

End NullVec.
