(* ===== verification/NullPacked.v ===== *)
(** * NULL tracking, 64 rows per word (src/src/types/null.rs)

    The packed null bitmap as it is, and the proof that it refines the
    row-per-boolean bitmap of [Nulls] under every sequence of updates. *)

From Stdlib Require Import ZArith Lia.
From stdpp Require Import prelude list numbers.
From S2P Require Import Prelude Bits Nulls.
Local Open Scope Z_scope.

Module NullPacked.

Record NullBitmap := mkPB { bits : list Z; len : nat }.

Definition U64_MAX : Z := 2 ^ 64 - 1.

Definition new_none_null (n : nat) : NullBitmap := mkPB (replicate (div_ceil n 64) 0) n.

Definition new_all_null (n : nat) : NullBitmap :=
  let words := div_ceil n 64 in
  let bits := replicate words U64_MAX in
  if bool_decide (bits ≠ [] ∧ (n mod 64)%nat ≠ 0%nat) then
    let last := (length bits - 1)%nat in
    let mask := Z.shiftl 1 (Z.of_nat (n mod 64)) - 1 in
    mkPB (<[last := mask]> bits) n
  else mkPB bits n.

(** [bits[i / 64]] is in range for [i < len]; the update is by index. *)
Definition set_null (i : nat) (b : NullBitmap) : NullBitmap :=
  if bool_decide (i < len b)%nat then
    mkPB (alter (λ w, Z.lor w (Z.shiftl 1 (Z.of_nat (i mod 64)))) (i / 64)%nat (bits b)) (len b)
  else b.

Definition clear_null (i : nat) (b : NullBitmap) : NullBitmap :=
  if bool_decide (i < len b)%nat then
    mkPB (alter (λ w, Z.land w (not_w 64 (Z.shiftl 1 (Z.of_nat (i mod 64))))) (i / 64)%nat (bits b)) (len b)
  else b.

Definition is_null (i : nat) (b : NullBitmap) : bool :=
  if bool_decide (len b <= i)%nat then false
  else Z.eqb (Z.land (Z.shiftr (nth (i / 64) (bits b) 0) (Z.of_nat (i mod 64))) 1) 1.

Definition count_nulls (b : NullBitmap) : nat :=
  let full := (len b / 64)%nat in
  let count := sum_list (count_ones 64 <$> take full (bits b)) in
  let rem := (len b mod 64)%nat in
  if bool_decide (0 < rem ∧ full < length (bits b))%nat then
    (count + count_ones 64 (Z.land (nth full (bits b) 0%Z) (Z.shiftl 1 (Z.of_nat rem) - 1)))%nat
  else count.

Definition is_empty (b : NullBitmap) : bool := bool_decide (len b = 0%nat).

(** Enough words for the rows, each a 64-bit integer. *)
Definition wf (b : NullBitmap) : Prop := length (bits b) = div_ceil (len b) 64 ∧ Forall (in_u 64) (bits b).

(** The row-per-boolean bitmap a packed one stands for. *)
Definition abs (b : NullBitmap) : NullVec.NullBitmap := NullVec.mkNB (take (len b) (flat 64 (bits b))).

Lemma wf_bounds b : wf b → (len b <= length (bits b) * 64)%nat.
Proof. intros [H _]. rewrite H. apply div_ceil_bounds. lia. Qed.

Lemma wf_word b i : wf b → (i < len b)%nat → is_Some (bits b !! (i / 64)%nat).
Proof.
  intros Hb Hi. apply lookup_lt_is_Some. pose proof (wf_bounds b Hb).
  apply Nat.Div0.div_lt_upper_bound. lia.
Qed.

Lemma length_abs b : wf b → length (NullVec.bits (abs b)) = len b.
Proof. intros Hb. simpl. rewrite length_take, length_flat. pose proof (wf_bounds b Hb). lia. Qed.

(** Both updates change one bit of one word. *)
Lemma update_abs b i (g : Z → Z) v :
  wf b → (i < len b)%nat → (∀ z, in_u 64 z → in_u 64 (g z)) →
  (∀ z, bits_of 64 (g z) = <[(i mod 64)%nat := v]> (bits_of 64 z)) →
  let b' := mkPB (alter g (i / 64)%nat (bits b)) (len b) in
  wf b' ∧ abs b' = NullVec.mkNB (<[i := v]> (NullVec.bits (abs b))).
Proof.
  intros Hb Hi Hg Hbits b'. destruct (wf_word b i Hb Hi) as [u Hu]. destruct Hb as [H1 H2].
  assert (alter g (i / 64)%nat (bits b) = <[(i / 64)%nat := g u]> (bits b)) as E
    by (by apply alter_Some_insert).
  split.
  - unfold wf, b'. cbn [bits len]. rewrite E, length_insert. split; [done|].
    apply Forall_insert; [done|]. apply Hg. by eapply Forall_lookup_1.
  - unfold abs, b'. cbn [bits len NullVec.bits]. f_equal. rewrite E.
    rewrite (flat_insert_bit 64 _ _ u _ v) by (done || lia). by rewrite take_insert_lt.
Qed.

Lemma is_null_abs b i : wf b → is_null i b = NullVec.is_null i (abs b).
Proof.
  intros Hb. unfold is_null, NullVec.is_null. case_bool_decide as Hi.
  - rewrite lookup_ge_None_2; [done|]. by rewrite length_abs.
  - destruct (wf_word b i Hb) as [u Hu]; [lia|]. simpl.
    rewrite lookup_take_lt, lookup_flat, Hu by lia. simpl.
    rewrite (nth_lookup_Some _ _ _ _ Hu), Z.land_ones with (n := 1), Z.shiftr_div_pow2 by lia.
    rewrite Z.testbit_eqb by lia. done.
Qed.

Lemma count_nulls_abs b : wf b → count_nulls b = NullVec.null_count (abs b).
Proof.
  intros Hb. change (NullVec.null_count (abs b)) with (count_true (take (len b) (flat 64 (bits b)))).
  rewrite count_true_take_flat by (by apply wf_bounds). unfold count_nulls. case_bool_decide as Hc.
  - f_equal. destruct (lookup_lt_is_Some_2 (bits b) (len b / 64)) as [u Hu]; [lia|].
    by rewrite (nth_lookup_Some _ _ _ _ Hu), Hu, Z.shiftl_1_l.
  - destruct (bits b !! (len b / 64)%nat) as [u|] eqn:Hu; [|lia]. apply lookup_lt_Some in Hu.
    replace (len b mod 64)%nat with 0%nat by lia. simpl Z.of_nat. change (2 ^ 0 - 1) with 0.
    rewrite Z.land_0_r, count_ones_spec, bits_of_0, count_true_false. lia.
Qed.

Lemma new_none_null_abs n : wf (new_none_null n) ∧ abs (new_none_null n) = NullVec.new n.
Proof.
  split.
  - split; simpl; [apply length_replicate|]. by apply Forall_replicate.
  - unfold abs, new_none_null, NullVec.new. cbn [bits len]. f_equal.
    rewrite flat_zeros, take_replicate. f_equal. pose proof (div_ceil_bounds n 64). lia.
Qed.

Lemma bits_of_max : bits_of 64 U64_MAX = replicate 64 true.
Proof. vm_compute. reflexivity. Qed.

Lemma flat_max n : flat 64 (replicate n U64_MAX) = replicate (n * 64) true.
Proof.
  induction n as [|n IH]; [done|]. cbn [replicate]. rewrite flat_cons, IH, bits_of_max.
  rewrite <- replicate_add. f_equal.
Qed.

Lemma new_all_null_abs n : wf (new_all_null n) ∧ abs (new_all_null n) = NullVec.all_null n.
Proof.
  pose proof (div_ceil_bounds n 64 ltac:(lia)) as Hd. unfold new_all_null.
  case_bool_decide as Hc.
  - destruct Hc as [_ Hm]. rewrite length_replicate.
    assert (n mod 64 < 64)%nat as Hlt by (apply Nat.mod_upper_bound; lia).
    pose proof (Nat.div_mod n 64 ltac:(lia)) as Hdm.
    assert (div_ceil n 64 - 1 = n / 64)%nat as Hq by lia.
    set (mask := Z.shiftl 1 (Z.of_nat (n mod 64)) - 1).
    assert (in_u 64 mask) as Hmask.
    { unfold mask. rewrite Z.shiftl_1_l. pose proof (Z.pow_le_mono_r 2 (Z.of_nat (n mod 64)) 64).
      pose proof (Z.pow_pos_nonneg 2 (Z.of_nat (n mod 64))). unfold in_u. lia. }
    split.
    + split; cbn [bits len]; [by rewrite length_insert, length_replicate|].
      apply Forall_insert; [by apply Forall_replicate|done].
    + unfold abs, NullVec.all_null. cbn [bits len]. f_equal. rewrite Hq.
      rewrite flat_insert by (rewrite length_replicate; lia).
      assert (bits_of 64 mask = replicate (n mod 64) true ++ replicate (64 - n mod 64) false) as ->.
      { pose proof (bits_of_mask 64 U64_MAX (n mod 64) ltac:(lia)) as Hb.
        rewrite bits_of_max, take_replicate, Nat.min_l in Hb by lia. rewrite <- Hb. f_equal.
        unfold mask, U64_MAX. rewrite Z.shiftl_1_l. apply Z.bits_inj'. intros i Hi.
        rewrite Z.land_spec, !testbit_ones by lia. repeat case_bool_decide; done || lia. }
      rewrite flat_max, take_replicate, Nat.min_l by lia. rewrite <- !app_assoc, app_assoc, <- replicate_add.
      rewrite take_app_length' by (rewrite length_replicate; lia). f_equal. lia.
  - split.
    + split; cbn [bits len]; [by rewrite length_replicate|]. by apply Forall_replicate.
    + unfold abs, NullVec.all_null. cbn [bits len]. f_equal. rewrite flat_max, take_replicate.
      f_equal. lia.
Qed.

(** What a caller may do with a null bitmap after creating it. *)
Inductive op := OSet (i : nat) | OClear (i : nat).

Definition run_packed (ops : list op) (b : NullBitmap) : NullBitmap :=
  fold_left (λ b o, match o with OSet i => set_null i b | OClear i => clear_null i b end) ops b.
Definition run_vec (ops : list op) (b : NullVec.NullBitmap) : NullVec.NullBitmap :=
  fold_left (λ b o, match o with OSet i => NullVec.set_null i b | OClear i => NullVec.set_non_null i b end) ops b.

Lemma set_null_abs i b : wf b → wf (set_null i b) ∧ abs (set_null i b) = NullVec.set_null i (abs b).
Proof.
  intros Hb. unfold set_null, NullVec.set_null. rewrite length_abs by done. case_bool_decide as Hi; [|done].
  assert (i mod 64 < 64)%nat by (apply Nat.mod_upper_bound; lia).
  apply update_abs; [done|done| |].
  - intros z Hz. apply in_u_setbit; [lia|done].
  - intros z. by apply bits_of_setbit.
Qed.

Lemma clear_null_abs i b : wf b → wf (clear_null i b) ∧ abs (clear_null i b) = NullVec.set_non_null i (abs b).
Proof.
  intros Hb. unfold clear_null, NullVec.set_non_null. rewrite length_abs by done. case_bool_decide as Hi; [|done].
  assert (i mod 64 < 64)%nat by (apply Nat.mod_upper_bound; lia).
  apply update_abs; [done|done| |].
  - intros z Hz. apply in_u_land; [lia|done|]. apply in_u_not_w; [lia|].
    rewrite Z.shiftl_1_l. apply in_u_pow2. lia.
  - intros z. by apply (bits_of_clearbit 64).
Qed.

Lemma run_abs ops b : wf b → wf (run_packed ops b) ∧ abs (run_packed ops b) = run_vec ops (abs b).
Proof.
  revert b; induction ops as [|o ops IH]; intros b Hb; [done|].
  unfold run_packed, run_vec. rewrite !fold_left_cons. destruct o as [i|i].
  - destruct (set_null_abs i b Hb) as [W E]. rewrite <- E. by apply IH.
  - destruct (clear_null_abs i b Hb) as [W E]. rewrite <- E. by apply IH.
Qed.

(** the packed bitmap refines the simple one.  From either constructor and after
    any sequence of updates (out-of-range ones included), both answer every
    [is_null] query and the null count alike, for every length. *)
Theorem packed_refines_vec (n : nat) (ops : list op) (i : nat) :
  is_null i (run_packed ops (new_none_null n)) = NullVec.is_null i (run_vec ops (NullVec.new n)) ∧
  is_null i (run_packed ops (new_all_null n)) = NullVec.is_null i (run_vec ops (NullVec.all_null n)) ∧
  count_nulls (run_packed ops (new_none_null n)) = NullVec.null_count (run_vec ops (NullVec.new n)) ∧
  count_nulls (run_packed ops (new_all_null n)) = NullVec.null_count (run_vec ops (NullVec.all_null n)).
Proof.
  destruct (new_none_null_abs n) as [W1 <-]. destruct (new_all_null_abs n) as [W2 <-].
  destruct (run_abs ops _ W1) as [R1 <-]. destruct (run_abs ops _ W2) as [R2 <-].
  rewrite !is_null_abs, !count_nulls_abs by done. done.
Qed.

End NullPacked.
