(* ===== verification/TriBool.v ===== *)
(** * Three-valued logic (src/src/types/null.rs)

    The Kleene logic of WHERE clauses: the truth values, the connectives and the
    comparisons of nullable cells. *)

From Stdlib Require Import ZArith Lia.
From stdpp Require Import prelude list numbers.
From S2P Require Import Prelude.
Local Open Scope Z_scope.

Module TriBoolM.

Inductive TriBool := TTrue | TFalse | TNull.

Definition passes_where (t : TriBool) : bool := match t with TTrue => true | _ => false end.

Definition not (t : TriBool) : TriBool :=
  match t with TTrue => TFalse | TFalse => TTrue | TNull => TNull end.

Definition is_false (t : TriBool) : bool := match t with TFalse => true | _ => false end.
Definition is_true (t : TriBool) : bool := match t with TTrue => true | _ => false end.
Definition is_tnull (t : TriBool) : bool := match t with TNull => true | _ => false end.

Definition and (a b : TriBool) : TriBool :=
  if is_false a || is_false b then TFalse else if is_tnull a || is_tnull b then TNull else TTrue.
Definition or (a b : TriBool) : TriBool :=
  if is_true a || is_true b then TTrue else if is_tnull a || is_tnull b then TNull else TFalse.

Definition of_bool (b : bool) : TriBool := if b then TTrue else TFalse.

Section cells.
Context {A : Type} `{EqDecision A}.

Definition eq_with_null (a b : option A) : TriBool :=
  match a, b with Some x, Some y => of_bool (bool_decide (x = y)) | _, _ => TNull end.

Definition is_null (a : option A) : TriBool := match a with None => TTrue | Some _ => TFalse end.
Definition is_not_null (a : option A) : TriBool := not (is_null a).

Definition is_distinct_from (a b : option A) : TriBool :=
  match a, b with
  | Some x, Some y => of_bool (bool_decide (x ≠ y))
  | None, None => TFalse
  | _, _ => TTrue
  end.
End cells.

(** A three-valued formula over boolean cells that may be NULL, and the set of truth
    values it can take when every NULL is replaced by a boolean. *)
Inductive formula := FCell (i : nat) | FNot (f : formula) | FAnd (f g : formula) | FOr (f g : formula).

Fixpoint eval3 (cells : nat → option bool) (f : formula) : TriBool :=
  match f with
  | FCell i => match cells i with Some b => of_bool b | None => TNull end
  | FNot f => not (eval3 cells f)
  | FAnd f g => and (eval3 cells f) (eval3 cells g)
  | FOr f g => or (eval3 cells f) (eval3 cells g)
  end.

Fixpoint eval2 (cells : nat → bool) (f : formula) : bool :=
  match f with
  | FCell i => cells i
  | FNot f => negb (eval2 cells f)
  | FAnd f g => eval2 cells f && eval2 cells g
  | FOr f g => eval2 cells f || eval2 cells g
  end.

(** [cells2] fills in the NULLs of [cells]. *)
Definition completes (cells : nat → option bool) (cells2 : nat → bool) : Prop :=
  ∀ i b, cells i = Some b → cells2 i = b.

Lemma eval3_sound cells cells2 f b :
  completes cells cells2 → eval3 cells f = of_bool b → eval2 cells2 f = b.
Proof.
  intros Hc. revert b; induction f as [i|f IH|f IHf g IHg|f IHf g IHg]; intros b; simpl.
  - destruct (cells i) as [b'|] eqn:E; [|by destruct b]. intros H.
    rewrite (Hc i b' E). by destruct b, b'.
  - specialize (IH (negb b)). destruct (eval3 cells f), b; simpl in *; intros; try done;
      rewrite IH by done; done.
  - destruct (eval3 cells f), (eval3 cells g), b; simpl in *; intros H; try done;
      try (rewrite (IHf true), (IHg true) by done; done);
      try (rewrite (IHf false) by done; done); rewrite (IHg false), andb_false_r by done; done.
  - destruct (eval3 cells f), (eval3 cells g), b; simpl in *; intros H; try done;
      try (rewrite (IHf false), (IHg false) by done; done);
      try (rewrite (IHf true) by done; done); rewrite (IHg true), orb_true_r by done; done.
Qed.

(** the three-valued connectives are sound for unknown cells: when a formula
    built from NOT, AND and OR evaluates to TRUE or FALSE in the presence of NULLs,
    it has that value however the NULLs are filled in; so a row that passes WHERE
    passes for every completion, and on rows without NULLs the result is the
    ordinary boolean one. *)
Theorem tribool_sound (cells : nat → option bool) (f : formula) :
  (∀ cells2, completes cells cells2 → ∀ b, eval3 cells f = of_bool b → eval2 cells2 f = b) ∧
  (passes_where (eval3 cells f) = true → ∀ cells2, completes cells cells2 → eval2 cells2 f = true) ∧
  (∀ cells2, (∀ i, cells i = Some (cells2 i)) → eval3 cells f = of_bool (eval2 cells2 f)).
Proof.
  split_and!.
  - intros cells2 Hc b. by apply eval3_sound.
  - intros H cells2 Hc. apply (eval3_sound cells); [done|]. by destruct (eval3 cells f).
  - intros cells2 Hall. induction f as [i|f IH|f IHf g IHg|f IHf g IHg]; simpl.
    + by rewrite Hall.
    + rewrite IH. by destruct (eval2 cells2 f).
    + rewrite IHf, IHg. by destruct (eval2 cells2 f), (eval2 cells2 g).
    + rewrite IHf, IHg. by destruct (eval2 cells2 f), (eval2 cells2 g).
Qed.

End TriBoolM.
