(* ===== verification/Bitmap.v ===== *)
(** * The filter bitmap and its vectorised filters (src/src/exec/bitmap.rs)

    One bit per row, packed into bytes.  Every public filter picks at run time an
    AVX-512 loop (32 rows, then 8 rows, then single rows) or a scalar loop; [avx]
    stands for the detected CPU feature.  The vector intrinsics are modelled lane by
    lane.  A column cell is a 64-bit integer; for the [f64] filters it is read as an
    IEEE-754 binary64 value through the Standard Library's [SpecFloat]. *)

From Stdlib Require Import ZArith Lia.
From Stdlib Require Import Floats.SpecFloat.
From stdpp Require Import prelude list numbers.
From S2P Require Import Prelude Bits.
Local Open Scope Z_scope.

Module BitmapM.

Record Bitmap := mkBm { bits : list Z; len : nat }.

Definition new (n : nat) : Bitmap := mkBm (replicate (div_ceil n 8) 0) n.

(** The unused bits of the last byte: [(8 - (len & 7)) & 7]. *)
Definition unused (n : nat) : Z := Z.land (8 - Z.land (Z.of_nat n) 7) 7.

Definition update_last (g : Z → Z) (l : list Z) : list Z := alter g (length l - 1)%nat l.

Definition all_ones (n : nat) : Bitmap :=
  let bits := replicate (div_ceil n 8) 255 in
  if Z.ltb 0 (unused n) then mkBm (update_last (λ b, Z.shiftr b (unused n)) bits) n else mkBm bits n.

(** [bits[i >> 3]] panics out of range. *)
Definition set (i : nat) (b : Bitmap) : option Bitmap :=
  w ← bits b !! (i / 8)%nat;
  Some (mkBm (<[(i / 8)%nat := Z.lor w (Z.shiftl 1 (Z.of_nat (i mod 8)))]> (bits b)) (len b)).

Definition clear (i : nat) (b : Bitmap) : option Bitmap :=
  w ← bits b !! (i / 8)%nat;
  Some (mkBm (<[(i / 8)%nat := Z.land w (not_w 8 (Z.shiftl 1 (Z.of_nat (i mod 8))))]> (bits b)) (len b)).

Definition get (i : nat) (b : Bitmap) : option bool :=
  w ← bits b !! (i / 8)%nat;
  Some (negb (Z.eqb (Z.land (Z.shiftr w (Z.of_nat (i mod 8))) 1) 0)).

(** [for i in 0..n { out.bits[i] = f(self.bits[i], other.bits[i]) }]. *)
Definition combine_into (f : Z → Z → Z) (xs ys out : list Z) : list Z :=
  let n := Nat.min (length xs) (length ys) in
  zip_with f (take n xs) (take n ys) ++ drop n out.

Definition and (a b : Bitmap) : Bitmap :=
  let n := Nat.min (len a) (len b) in
  mkBm (combine_into Z.land (bits a) (bits b) (bits (new n))) n.

Definition or (a b : Bitmap) : Bitmap :=
  let n := Nat.max (len a) (len b) in
  mkBm (combine_into Z.lor (bits a) (bits b) (bits (new n))) n.

Definition not (a : Bitmap) : Bitmap :=
  let out := not_w 8 <$> bits a in
  if Z.ltb 0 (unused (len a)) then
    let mask := wrap_u 8 (Z.shiftl 1 (8 - unused (len a)) - 1) in
    mkBm (update_last (λ b, Z.land b mask) out) (len a)
  else mkBm out (len a).

Definition count_ones (a : Bitmap) : nat := sum_list (Prelude.count_ones 8 <$> bits a).

Definition to_bool_vec (a : Bitmap) : option (list bool) := mapM (λ i, get i a) (seq 0 (len a)).

(** [for (i, &b) in bools.iter().enumerate() { if b { bm.set(i) } }]. *)
Fixpoint set_where {A} (p : A → bool) (i : nat) (l : list A) (b : Bitmap) : option Bitmap :=
  match l with
  | [] => Some b
  | c :: l => b' ← (if p c then set i b else Some b); set_where p (S i) l b'
  end.

Definition from_bool_slice (bools : list bool) : option Bitmap :=
  set_where (λ b, b) 0 bools (new (length bools)).

(** ** Vector loops *)

(** [while i + k <= n { step; i += k }]; each turn advances [i], so [n] turns are
    fuel enough. *)
Fixpoint block_loop {S} (k n : nat) (step : nat → S → S) (fuel i : nat) (s : S) : nat * S :=
  match fuel with
  | O => (i, s)
  | S fuel => if Nat.leb (i + k) n then block_loop k n step fuel (i + k) (step i s) else (i, s)
  end.

Section inner.
Context (vmask : list Z → Z) (tail_set : Z → bool) (col : list Z).

Definition store (k : nat) (m : Z) (bytes : list Z) : list Z := <[k := m]> bytes.

(** One turn of the 4-way unrolled loop, of the 8-row loop and of the scalar tail, on
    the byte index and the bitmap's bytes. *)
Definition step32 (i : nat) (s : nat * list Z) : nat * list Z :=
  let m0 := vmask (slice i 8 col) in
  let m1 := vmask (slice (i + 8) 8 col) in
  let m2 := vmask (slice (i + 16) 8 col) in
  let m3 := vmask (slice (i + 24) 8 col) in
  ((s.1 + 4)%nat, store (s.1 + 3) m3 (store (s.1 + 2) m2 (store (s.1 + 1) m1 (store s.1 m0 s.2)))).

Definition step8 (i : nat) (s : nat * list Z) : nat * list Z :=
  ((s.1 + 1)%nat, store s.1 (vmask (slice i 8 col)) s.2).

Definition step1 (i : nat) (s : nat * list Z) : nat * list Z :=
  (s.1, if tail_set (nth i col 0) then alter (λ b, Z.lor b (Z.shiftl 1 (Z.of_nat (i mod 8)))) s.1 s.2 else s.2).

Definition avx512_inner : Bitmap :=
  let n := length col in
  let '(i, s) := block_loop 32 n step32 n 0 (0%nat, bits (new n)) in
  let '(i, s) := block_loop 8 n step8 n i s in
  let '(_, s) := block_loop 1 n step1 n i s in
  mkBm s.2 n.
End inner.

(** The u64 loop rebuilds a single-lane vector in its tail and looks at bit 0. *)
Definition filter_u64_avx512_inner (cmp : list Z → Z → Z) (col : list Z) (val : Z) : Bitmap :=
  avx512_inner (λ lanes, cmp lanes val)
    (λ c, negb (Z.eqb (Z.land (cmp (c :: replicate 7 0) val) 1) 0)) col.

(** [_mm512_cmp*_mask] for a lane predicate. *)
Definition cmp_mask (p : Z → Z → bool) (lanes : list Z) (t : Z) : Z := pack ((λ c, p c t) <$> lanes).

Definition filter_scalar (p : Z → bool) (col : list Z) : option Bitmap :=
  set_where p 0 col (new (length col)).

Definition dispatch (avx : bool) (v : Bitmap) (s : option Bitmap) : option Bitmap := if avx then Some v else s.

Definition filter_eq_u64 (avx : bool) (col : list Z) (val : Z) : option Bitmap :=
  dispatch avx (filter_u64_avx512_inner (cmp_mask Z.eqb) col val) (filter_scalar (λ c, Z.eqb c val) col).
Definition filter_ne_u64 (avx : bool) (col : list Z) (val : Z) : option Bitmap :=
  dispatch avx (filter_u64_avx512_inner (λ v t, not_w 8 (cmp_mask Z.eqb v t)) col val)
    (filter_scalar (λ c, negb (Z.eqb c val)) col).
Definition filter_lt_u64 (avx : bool) (col : list Z) (val : Z) : option Bitmap :=
  dispatch avx (filter_u64_avx512_inner (cmp_mask Z.ltb) col val) (filter_scalar (λ c, Z.ltb c val) col).
Definition filter_gt_u64 (avx : bool) (col : list Z) (val : Z) : option Bitmap :=
  dispatch avx (filter_u64_avx512_inner (cmp_mask Z.gtb) col val) (filter_scalar (λ c, Z.gtb c val) col).
Definition filter_le_u64 (avx : bool) (col : list Z) (val : Z) : option Bitmap :=
  dispatch avx (filter_u64_avx512_inner (cmp_mask Z.leb) col val) (filter_scalar (λ c, Z.leb c val) col).
Definition filter_ge_u64 (avx : bool) (col : list Z) (val : Z) : option Bitmap :=
  dispatch avx (filter_u64_avx512_inner (cmp_mask Z.geb) col val) (filter_scalar (λ c, Z.geb c val) col).

(** Signed comparisons: the scalar code casts the cell, the vector code the value. *)
Definition signed (p : Z → Z → bool) (a b : Z) : bool := p (as_signed 64 a) (as_signed 64 b).
Definition filter_lt_i64 (avx : bool) (col : list Z) (val : Z) : option Bitmap :=
  dispatch avx (filter_u64_avx512_inner (cmp_mask (signed Z.ltb)) col (wrap_u 64 val))
    (filter_scalar (λ c, Z.ltb (as_signed 64 c) val) col).
Definition filter_le_i64 (avx : bool) (col : list Z) (val : Z) : option Bitmap :=
  dispatch avx (filter_u64_avx512_inner (cmp_mask (signed Z.leb)) col (wrap_u 64 val))
    (filter_scalar (λ c, Z.leb (as_signed 64 c) val) col).
Definition filter_gt_i64 (avx : bool) (col : list Z) (val : Z) : option Bitmap :=
  dispatch avx (filter_u64_avx512_inner (cmp_mask (signed Z.gtb)) col (wrap_u 64 val))
    (filter_scalar (λ c, Z.gtb (as_signed 64 c) val) col).
Definition filter_ge_i64 (avx : bool) (col : list Z) (val : Z) : option Bitmap :=
  dispatch avx (filter_u64_avx512_inner (cmp_mask (signed Z.geb)) col (wrap_u 64 val))
    (filter_scalar (λ c, Z.geb (as_signed 64 c) val) col).

(** ** f64 *)

(** [f64::from_bits]. *)
Definition f64_from_bits (b : Z) : spec_float :=
  let s := Z.testbit b 63 in
  let e := Z.land (Z.shiftr b 52) 2047 in
  let m := Z.land b (2 ^ 52 - 1) in
  if Z.eqb e 2047 then (if Z.eqb m 0 then S754_infinity s else S754_nan)
  else if Z.eqb e 0 then (if Z.eqb m 0 then S754_zero s else S754_finite s (Z.to_pos m) (-1074))
  else S754_finite s (Z.to_pos (m + 2 ^ 52)) (e - 1075).

Definition f64_eq (a b : Z) : bool := SFeqb (f64_from_bits a) (f64_from_bits b).
Definition f64_lt (a b : Z) : bool := SFltb (f64_from_bits a) (f64_from_bits b).
Definition f64_le (a b : Z) : bool := SFleb (f64_from_bits a) (f64_from_bits b).
Definition f64_gt (a b : Z) : bool := f64_lt b a.
Definition f64_ge (a b : Z) : bool := f64_le b a.

Definition filter_f64_avx512_inner (pred : Z → Z → bool) (col : list Z) (val : Z) : Bitmap :=
  avx512_inner (λ lanes, cmp_mask pred lanes val) (λ c, pred c val) col.

(** [val] is given by its bits; the scalar [==] compares bit patterns. *)
Definition filter_eq_f64 (avx : bool) (col : list Z) (val : Z) : option Bitmap :=
  dispatch avx (filter_f64_avx512_inner f64_eq col val) (filter_scalar (λ c, Z.eqb c val) col).
Definition filter_lt_f64 (avx : bool) (col : list Z) (val : Z) : option Bitmap :=
  dispatch avx (filter_f64_avx512_inner f64_lt col val) (filter_scalar (λ c, f64_lt c val) col).
Definition filter_gt_f64 (avx : bool) (col : list Z) (val : Z) : option Bitmap :=
  dispatch avx (filter_f64_avx512_inner f64_gt col val) (filter_scalar (λ c, f64_gt c val) col).
Definition filter_le_f64 (avx : bool) (col : list Z) (val : Z) : option Bitmap :=
  dispatch avx (filter_f64_avx512_inner f64_le col val) (filter_scalar (λ c, f64_le c val) col).
Definition filter_ge_f64 (avx : bool) (col : list Z) (val : Z) : option Bitmap :=
  dispatch avx (filter_f64_avx512_inner f64_ge col val) (filter_scalar (λ c, f64_ge c val) col).

(** [1e-6 * val.abs().max(1.0)] and [(cv - val).abs() <= abs_tol], in binary64
    arithmetic; [1e-6] is the double nearest to it.  [f64::max] returns the other
    operand when one is NaN. *)
Definition f64_1em6 : Z := 4517329193108106637.
Definition f64_one : Z := 4607182418800017408.
Definition SFmax (a b : spec_float) : spec_float :=
  match SFcompare a b with
  | Some Lt => b
  | Some _ => a
  | None => match a with S754_nan => b | _ => a end
  end.
Definition within_epsilon (c val : Z) : bool :=
  let v := f64_from_bits val in
  let abs_tol := SFmul 53 1024 (f64_from_bits f64_1em6) (SFmax (SFabs v) (f64_from_bits f64_one)) in
  SFleb (SFabs (SFsub 53 1024 (f64_from_bits c) v)) abs_tol.

Definition filter_eq_f64_epsilon (col : list Z) (val : Z) : option Bitmap :=
  filter_scalar (λ c, within_epsilon c val) col.
Definition filter_ne_f64 (col : list Z) (val : Z) : option Bitmap := not <$> filter_eq_f64_epsilon col val.
Definition filter_eq_f64_exact (avx : bool) (col : list Z) (val : Z) : option Bitmap :=
  not <$> filter_eq_f64 avx col val.

(** ** In-place combination and folding into a mask of booleans *)

(** Combining a block of [k] bytes at [i]. *)
Definition step_bytes (f : Z → Z → Z) (k : nat) (src : list Z) (i : nat) (dst : list Z) : list Z :=
  splice i (zip_with f (slice i k dst) (slice i k src)) dst.

Definition inplace_avx512 (f : Z → Z → Z) (dst src : list Z) : list Z :=
  let n := length dst in
  let '(i, dst) := block_loop 64 n (step_bytes f 64 src) n 0 dst in
  let '(i, dst) := block_loop 16 n (step_bytes f 16 src) n i dst in
  (block_loop 1 n (step_bytes f 1 src) n i dst).2.

Definition inplace (f : Z → Z → Z) (avx : bool) (a b : Bitmap) : Bitmap :=
  let n := Nat.min (length (bits a)) (length (bits b)) in
  let dst := take n (bits a) in
  let src := take n (bits b) in
  mkBm ((if avx then inplace_avx512 f dst src else zip_with f dst src) ++ drop n (bits a)) (len a).

Definition and_inplace : bool → Bitmap → Bitmap → Bitmap := inplace Z.land.
Definition or_inplace : bool → Bitmap → Bitmap → Bitmap := inplace Z.lor.

(** A [bool] in memory is a byte 0 or 1; the expanded mask byte is 0 or 255. *)
Definition b2z (b : bool) : Z := if b then 1 else 0.
Definition and_byte (m e : Z) : Z := Z.land m e.
Definition or_byte (m e : Z) : Z := Z.min (Z.lor m e) 1.
Definition lane_op (op : Z → Z → Z) (m e : bool) : bool :=
  negb (Z.eqb (op (b2z m) (if e then 255 else 0)) 0).

Definition step_mask64 (op : Z → Z → Z) (bs : list Z) (i : nat) (mask : list bool) : list bool :=
  let packed := le_decode (slice (i / 8) 8 bs) in
  splice i (zip_with (lane_op op) (slice i 64 mask) (bits_of 64 packed)) mask.
Definition step_mask8 (op : Z → Z → Z) (bs : list Z) (i : nat) (mask : list bool) : list bool :=
  splice i (zip_with (lane_op op) (slice i 8 mask) (bits_of 8 (nth (i / 8) bs 0))) mask.

Definition bit_at (bs : list Z) (i : nat) : bool :=
  negb (Z.eqb (Z.land (Z.shiftr (nth (i / 8) bs 0) (Z.of_nat (i mod 8))) 1) 0).
Definition step_and1 (bs : list Z) (i : nat) (mask : list bool) : list bool :=
  if bit_at bs i then mask else <[i := false]> mask.
Definition step_or1 (bs : list Z) (i : nat) (mask : list bool) : list bool :=
  if bit_at bs i then <[i := true]> mask else mask.

Definition into_bool_avx512 (op : Z → Z → Z) (step1 : list Z → nat → list bool → list bool)
    (bs : list Z) (mask : list bool) : list bool :=
  let n := length mask in
  let '(i, mask) := block_loop 64 n (step_mask64 op bs) n 0 mask in
  let '(i, mask) := block_loop 8 n (step_mask8 op bs) n i mask in
  (block_loop 1 n (step1 bs) n i mask).2.

(** Both paths assume the bitmap covers the mask (a debug assertion of the source). *)
Definition and_into_bool (avx : bool) (bm : Bitmap) (mask : list bool) : list bool :=
  if avx then into_bool_avx512 and_byte step_and1 (bits bm) mask
  else (block_loop 1 (length mask) (step_and1 (bits bm)) (length mask) 0 mask).2.
Definition or_into_bool (avx : bool) (bm : Bitmap) (mask : list bool) : list bool :=
  if avx then into_bool_avx512 or_byte step_or1 (bits bm) mask
  else (block_loop 1 (length mask) (step_or1 (bits bm)) (length mask) 0 mask).2.

(** ** The loop principle *)
Lemma block_loop_inv {S} (P : nat → S → Prop) k n step fuel i s i' s' :
  (0 < k)%nat → (n - i <= fuel)%nat → (i <= n)%nat →
  (∀ j t, (i <= j)%nat → (j mod k = i mod k)%nat → (j + k <= n)%nat → P j t → P (j + k)%nat (step j t)) →
  P i s → block_loop k n step fuel i s = (i', s') →
  P i' s' ∧ (i <= i' <= n)%nat ∧ (n < i' + k)%nat ∧ (i' mod k = i mod k)%nat.
Proof.
  intros Hk. revert i s; induction fuel as [|fuel IH]; intros i s Hf Hi Hstep HP; simpl.
  - intros [= <- <-]. split; [done|]. lia.
  - destruct (Nat.leb_spec (i + k) n) as [Hle|Hgt].
    + intros H. apply IH in H as (H1 & H2 & H3 & H4); [|lia|lia| |].
      * split; [done|]. split; [lia|]. split; [done|].
        rewrite H4. replace (i + k)%nat with (i + 1 * k)%nat by lia. by rewrite Nat.Div0.mod_add.
      * intros j t Hj1 Hj2. apply Hstep; [lia|]. rewrite Hj2.
        replace (i + k)%nat with (i + 1 * k)%nat by lia. by rewrite Nat.Div0.mod_add.
      * apply Hstep; done.
    + intros [= <- <-]. split; [done|]. lia.
Qed.

Lemma mod_8_of k i : (8 | k)%nat → (0 < k)%nat → (i mod k = 0)%nat → (i mod 8 = 0)%nat.
Proof.
  intros [q ->] Hk H. apply Nat.Div0.mod_divides in H as [c ->]. 
  replace (q * 8 * c)%nat with (q * c * 8)%nat by lia. apply Nat.Div0.mod_mul.
Qed.

(** ** Filters *)
Section filter.
Context (p : Z → bool) (vmask : list Z → Z) (tail_set : Z → bool) (col : list Z).
Context (Hv : ∀ lanes, length lanes = 8%nat → bits_of 8 (vmask lanes) = p <$> lanes ∧ in_u 8 (vmask lanes)).
Context (Ht : ∀ c, tail_set c = p c).
Let n := length col.
Let nb := div_ceil n 8.

(** The first [i] rows are decided, the rest of the bytes is still zero. *)
Definition decided (i : nat) (bytes : list Z) : Prop :=
  length bytes = nb ∧ Forall (in_u 8) bytes ∧
  flat 8 bytes = (p <$> take i col) ++ replicate (nb * 8 - i) false.

Lemma decided_0 : decided 0 (bits (new n)).
Proof.
  unfold decided, new. cbn [bits]. fold nb. split_and!.
  - apply length_replicate.
  - by apply Forall_replicate.
  - rewrite flat_zeros, take_0. simpl. f_equal. lia.
Qed.

Lemma nb_bound : (n <= nb * 8 < n + 8)%nat.
Proof. apply div_ceil_bounds. lia. Qed.

Lemma decided_store k bytes :
  (k * 8 + 8 <= n)%nat → decided (k * 8) bytes → decided (k * 8 + 8) (store k (vmask (slice (k * 8) 8 col)) bytes).
Proof.
  intros Hk (H1 & H2 & H3). pose proof nb_bound as Hb.
  destruct (Hv (slice (k * 8) 8 col)) as [V1 V2]; [by apply length_slice|].
  unfold decided, store. rewrite length_insert. split_and!; [done|by apply Forall_insert|].
  rewrite flat_insert by lia. rewrite V1, H3.
  assert (length (p <$> take (k * 8) col) = k * 8)%nat as Hl by (rewrite length_fmap, length_take; unfold n in *; lia).
  rewrite take_app_length' by done. rewrite drop_app_ge by lia. rewrite Hl.
  rewrite drop_replicate. rewrite app_assoc, <- fmap_app. f_equal.
  - f_equal. apply take_take_drop.
  - f_equal. lia.
Qed.

Lemma decided_step32 i s :
  (i mod 8 = 0)%nat → (i + 32 <= n)%nat → s.1 = (i / 8)%nat → decided i s.2 →
  (step32 vmask col i s).1 = ((i + 32) / 8)%nat ∧ decided (i + 32) (step32 vmask col i s).2.
Proof.
  intros Hm Hle Hk Hd. apply Nat.Div0.mod_divides in Hm as [k ->].
  rewrite (Nat.mul_comm 8 k), Nat.div_mul in Hk by lia. rewrite Nat.mul_comm in *.
  unfold step32. rewrite Hk. cbn [fst snd]. split.
  - replace (k * 8 + 32)%nat with ((k + 4) * 8)%nat by lia. by rewrite Nat.div_mul.
  - replace (k * 8 + 32)%nat with ((k + 3) * 8 + 8)%nat by lia.
    replace (k * 8 + 24)%nat with ((k + 3) * 8)%nat by lia. apply decided_store; [lia|].
    replace ((k + 3) * 8)%nat with ((k + 2) * 8 + 8)%nat by lia.
    replace (k * 8 + 16)%nat with ((k + 2) * 8)%nat by lia. apply decided_store; [lia|].
    replace ((k + 2) * 8)%nat with ((k + 1) * 8 + 8)%nat by lia.
    replace (k * 8 + 8)%nat with ((k + 1) * 8)%nat by lia. apply decided_store; [lia|].
    replace ((k + 1) * 8)%nat with (k * 8 + 8)%nat by lia. apply decided_store; [lia|done].
Qed.

Lemma decided_step8 i s :
  (i mod 8 = 0)%nat → (i + 8 <= n)%nat → s.1 = (i / 8)%nat → decided i s.2 →
  (step8 vmask col i s).1 = ((i + 8) / 8)%nat ∧ decided (i + 8) (step8 vmask col i s).2.
Proof.
  intros Hm Hle Hk Hd. apply Nat.Div0.mod_divides in Hm as [k ->].
  rewrite (Nat.mul_comm 8 k), Nat.div_mul in Hk by lia. rewrite Nat.mul_comm in *.
  unfold step8. rewrite Hk. cbn [fst snd]. split.
  - replace (k * 8 + 8)%nat with ((k + 1) * 8)%nat by lia. by rewrite Nat.div_mul.
  - by apply decided_store.
Qed.

(** Setting the bit of the next row. *)
Lemma decided_setbit i bytes c :
  col !! i = Some c → decided i bytes →
  decided (S i) (if p c then alter (λ b, Z.lor b (Z.shiftl 1 (Z.of_nat (i mod 8)))) (i / 8)%nat bytes else bytes) ∧
  is_Some (bytes !! (i / 8)%nat).
Proof.
  intros Hc (H1 & H2 & H3). pose proof nb_bound as Hb. pose proof (lookup_lt_Some _ _ _ Hc) as Hi. fold n in Hi.
  destruct (lookup_lt_is_Some_2 bytes (i / 8)%nat) as [u Hu].
  { rewrite H1. apply Nat.Div0.div_lt_upper_bound. lia. }
  split; [|done].
  assert (length (p <$> take i col) = i) as Hl by (rewrite length_fmap, length_take; unfold n in *; lia).
  assert (nb * 8 - i = S (nb * 8 - S i))%nat as Hr by lia.
  assert (p <$> take (S i) col = (p <$> take i col) ++ [p c]) as Hp.
  { by rewrite (take_S_r _ _ _ Hc), fmap_app. }
  assert (i mod 8 < 8)%nat as Hm by (apply Nat.mod_upper_bound; lia).
  destruct (p c) eqn:Epc.
  - rewrite (alter_Some_insert _ _ u) by done.
    unfold decided. rewrite length_insert. split_and!; [done| |].
    + apply Forall_insert; [done|]. apply in_u_setbit; [lia|]. by eapply Forall_lookup_1.
    + rewrite (flat_insert_bit 8 _ _ u _ true); [|lia|done|by apply bits_of_setbit].
      rewrite H3, Hp, Hr, <- app_assoc. rewrite insert_app_r_alt by lia.
      rewrite Hl, Nat.sub_diag. done.
  - unfold decided. split_and!; [done|done|]. by rewrite H3, Hp, Hr, <- app_assoc.
Qed.

Lemma decided_full bytes : decided n bytes → flat 8 bytes = (p <$> col) ++ replicate (nb * 8 - n) false.
Proof. intros (_ & _ & H). unfold n in *. by rewrite take_ge in H by lia. Qed.

(** The vector loops decide every row. *)
Lemma avx512_inner_decided : decided n (bits (avx512_inner vmask tail_set col)) ∧ len (avx512_inner vmask tail_set col) = n.
Proof.
  unfold avx512_inner. fold n.
  destruct (block_loop 32 n (step32 vmask col) n 0 (0%nat, bits (new n))) as [i1 s1] eqn:E1.
  destruct (block_loop 8 n (step8 vmask col) n i1 s1) as [i2 s2] eqn:E2.
  destruct (block_loop 1 n (step1 tail_set col) n i2 s2) as [i3 s3] eqn:E3.
  cbn [bits len]. split; [|done].
  apply (block_loop_inv (λ i s, s.1 = (i / 8)%nat ∧ decided i s.2)) in E1 as ([P1 P1'] & L1 & U1 & M1);
    [|lia|lia|lia| |].
  2:{ intros j t Hj Hm Hle [Q1 Q2]. apply decided_step32; [|done|done|done].
      apply (mod_8_of 32); [by exists 4%nat|lia|]. by rewrite Hm. }
  2:{ split; [done|apply decided_0]. }
  assert (i1 mod 8 = 0)%nat as Hi1 by (apply (mod_8_of 32); [by exists 4%nat|lia|by rewrite M1]).
  apply (block_loop_inv (λ i s, s.1 = (i / 8)%nat ∧ decided i s.2)) in E2 as ([P2 P2'] & L2 & U2 & M2);
    [|lia|lia|lia| |done].
  2:{ intros j t Hj Hm Hle [Q1 Q2]. apply decided_step8; [|done|done|done]. by rewrite Hm. }
  rewrite Hi1 in M2.
  apply (block_loop_inv (λ i s, s.1 = (i2 / 8)%nat ∧ decided i s.2)) in E3 as ([P3 P3'] & L3 & U3 & M3);
    [|lia|lia|lia| |done].
  2:{ intros j t Hj Hm Hle [Q1 Q2]. unfold step1. cbn [fst snd]. split; [done|].
      destruct (lookup_lt_is_Some_2 col j) as [c Hc]; [unfold n in *; lia|].
      rewrite (nth_lookup_Some _ _ _ _ Hc), Ht, Q1. rewrite Nat.add_1_r.
      assert (i2 / 8 = j / 8)%nat as ->; [|by apply decided_setbit].
      pose proof (Nat.div_mod i2 8). pose proof (Nat.div_mod j 8).
      pose proof (Nat.mod_upper_bound j 8). nia. }
  assert (i3 = n) as -> by lia. done.
Qed.

(** So does the scalar loop. *)
Lemma set_where_decided l i b :
  decided i (bits b) → len b = n → col = take i col ++ l → (i <= n)%nat →
  ∃ b', set_where p i l b = Some b' ∧ decided n (bits b') ∧ len b' = n.
Proof.
  revert i b; induction l as [|c l IH]; intros i b Hd Hn Hcol Hi; cbn [set_where].
  - exists b. split; [done|]. split; [|done]. assert (i = n) as ->; [|done].
    apply (f_equal length) in Hcol. rewrite length_app, length_take in Hcol. unfold n in *. simpl in Hcol. lia.
  - assert (length (take i col) = i) as Hl by (rewrite length_take; unfold n in *; lia).
    assert (col !! i = Some c) as Hc.
    { rewrite Hcol, lookup_app_r by lia. by rewrite Hl, Nat.sub_diag. }
    destruct (decided_setbit i (bits b) c Hc Hd) as [Hd' [u Hu]].
    assert (∃ b', (if p c then set i b else Some b) = Some b' ∧ len b' = n ∧ decided (S i) (bits b'))
      as (b' & -> & Hn' & Hd'').
    { destruct (p c); [|eauto]. unfold set. rewrite Hu. simpl. eexists. split; [done|]. split; [done|].
      rewrite (alter_Some_insert _ _ u) in Hd' by done. exact Hd'. }
    simpl. apply IH; [done|done| |].
    + rewrite (take_S_r _ _ _ Hc), <- app_assoc. done.
    + pose proof (lookup_lt_Some _ _ _ Hc). unfold n. lia.
Qed.

Lemma filter_scalar_decided :
  ∃ b, filter_scalar p col = Some b ∧ decided n (bits b) ∧ len b = n.
Proof. apply set_where_decided; [apply decided_0|done|done|lia]. Qed.

Lemma decided_eq b1 b2 : decided n (bits b1) → decided n (bits b2) → len b1 = n → len b2 = n → b1 = b2.
Proof.
  intros H1 H2 L1 L2. destruct b1 as [x1 l1], b2 as [x2 l2]. simpl in *. subst. f_equal.
  apply (flat_inj 8); [lia|apply H1|apply H2|]. rewrite !decided_full by done. done.
Qed.

Lemma avx_eq_scalar : Some (avx512_inner vmask tail_set col) = filter_scalar p col.
Proof.
  destruct filter_scalar_decided as (b & -> & H1 & H2). destruct avx512_inner_decided as [H3 H4].
  f_equal. by apply decided_eq.
Qed.
End filter.

(** ** The rows of a bitmap *)

(** Whole bytes, and no bit set beyond the last row. *)
Record bm_wf (b : Bitmap) : Prop := {
  bw_len : length (bits b) = div_ceil (len b) 8;
  bw_byte : Forall (in_u 8) (bits b);
  bw_tail : drop (len b) (flat 8 (bits b)) = replicate (length (bits b) * 8 - len b) false
}.

Definition rows (b : Bitmap) : list bool := take (len b) (flat 8 (bits b)).

Lemma bm_wf_le b : bm_wf b → (len b <= length (bits b) * 8 < len b + 8)%nat.
Proof. intros Hb. rewrite (bw_len _ Hb). apply div_ceil_bounds. lia. Qed.

Lemma length_rows b : bm_wf b → length (rows b) = len b.
Proof. intros Hb. pose proof (bm_wf_le b Hb). unfold rows. rewrite length_take, length_flat. lia. Qed.

Lemma flat_rows b : bm_wf b → flat 8 (bits b) = rows b ++ replicate (length (bits b) * 8 - len b) false.
Proof. intros Hb. rewrite <- (bw_tail _ Hb). symmetry. apply take_drop. Qed.

Lemma land_1_testbit w k : 0 <= k → negb (Z.eqb (Z.land (Z.shiftr w k) 1) 0) = Z.testbit w k.
Proof.
  intros Hk. change 1 with (Z.ones 1) at 1. rewrite Z.land_ones by lia.
  rewrite Z.testbit_eqb, Z.shiftr_div_pow2 by lia. change (2 ^ 1) with 2.
  pose proof (Z.mod_pos_bound (w / 2 ^ k) 2). destruct (Z.eqb_spec (w / 2 ^ k `mod` 2) 0),
    (Z.eqb_spec (w / 2 ^ k `mod` 2) 1); simpl; done || lia.
Qed.

Lemma get_flat i b : get i b = flat 8 (bits b) !! i.
Proof.
  unfold get. rewrite lookup_flat by lia. destruct (bits b !! (i / 8)%nat) as [w|]; [|done].
  simpl. by rewrite land_1_testbit by lia.
Qed.

Lemma to_bool_vec_rows b : bm_wf b → to_bool_vec b = Some (rows b).
Proof.
  intros Hb. unfold to_bool_vec. apply mapM_Some. apply Forall2_same_length_lookup_2.
  - by rewrite length_seq, length_rows.
  - intros k i x Hi Hx. apply lookup_seq in Hi as [-> Hlt]. rewrite get_flat.
    unfold rows in Hx. rewrite lookup_take_lt in Hx by lia. done.
Qed.

Lemma count_ones_rows b : bm_wf b → count_ones b = count_true (rows b).
Proof.
  intros Hb. unfold count_ones. rewrite count_ones_flat, flat_rows by done.
  rewrite count_true_app, count_true_false. lia.
Qed.

(** The result of a filter: it succeeds and selects exactly the rows that satisfy [p]. *)
Definition selects (r : option Bitmap) (p : Z → bool) (col : list Z) : Prop :=
  ∃ b, r = Some b ∧ bm_wf b ∧ to_bool_vec b = Some (p <$> col) ∧
       count_ones b = count_true (p <$> col).

Lemma rows_selects b p col : bm_wf b → rows b = p <$> col → selects (Some b) p col.
Proof.
  intros Hb Hr. exists b. rewrite to_bool_vec_rows, count_ones_rows, Hr by done. done.
Qed.

Lemma decided_wf p col b :
  decided p col (length col) (bits b) → len b = length col → bm_wf b ∧ rows b = p <$> col.
Proof.
  intros Hd Hn. pose proof (decided_full _ _ _ Hd) as Hf. destruct Hd as (H1 & H2 & _).
  pose proof (length_fmap p col) as Hl. split.
  - split; [by rewrite Hn|done|]. rewrite Hf, Hn. rewrite drop_app_length' by done. by rewrite H1.
  - unfold rows. rewrite Hf, Hn. by apply take_app_length'.
Qed.

Lemma filter_scalar_selects p col : selects (filter_scalar p col) p col.
Proof.
  destruct (filter_scalar_decided p col) as (b & -> & H1 & H2).
  destruct (decided_wf p col b H1 H2). by apply rows_selects.
Qed.

Lemma cmp_mask_lanes p t lanes :
  length lanes = 8%nat →
  bits_of 8 (cmp_mask p lanes t) = (λ c, p c t) <$> lanes ∧ in_u 8 (cmp_mask p lanes t).
Proof.
  intros Hl. unfold cmp_mask. assert (length ((λ c, p c t) <$> lanes) = 8%nat) as E by (by rewrite length_fmap).
  rewrite <- E at 1. split; [apply bits_of_pack|]. change 8 with (Z.of_nat 8). rewrite <- E. apply pack_range.
Qed.

(** The tail of the u64 loop sees lane 0 of the mask. *)
Lemma tail_lane0 (cmp : list Z → Z → Z) q t c :
  (∀ lanes, length lanes = 8%nat → bits_of 8 (cmp lanes t) = q <$> lanes) →
  negb (Z.eqb (Z.land (cmp (c :: replicate 7 0) t) 1) 0) = q c.
Proof.
  intros H. specialize (H (c :: replicate 7 0) eq_refl).
  apply (f_equal (λ l, l !! 0%nat)) in H. rewrite lookup_bits_of in H by lia. simpl lookup in H.
  change (Z.of_nat 0) with 0 in H. apply (inj Some) in H. rewrite <- H, <- land_1_testbit by lia.
  by rewrite Z.shiftr_0_r.
Qed.

Lemma u64_inner_eq cmp q col t :
  (∀ lanes, length lanes = 8%nat → bits_of 8 (cmp lanes t) = q <$> lanes ∧ in_u 8 (cmp lanes t)) →
  Some (filter_u64_avx512_inner cmp col t) = filter_scalar q col.
Proof.
  intros H. apply avx_eq_scalar; [exact H|]. intros c. apply tail_lane0. intros lanes Hl. by apply H.
Qed.

Lemma u64_cmp_eq p col t :
  Some (filter_u64_avx512_inner (cmp_mask p) col t) = filter_scalar (λ c, p c t) col.
Proof. apply u64_inner_eq. intros lanes Hl. by apply cmp_mask_lanes. Qed.

Lemma u64_ne_eq col t :
  Some (filter_u64_avx512_inner (λ v t, not_w 8 (cmp_mask Z.eqb v t)) col t) =
  filter_scalar (λ c, negb (Z.eqb c t)) col.
Proof.
  apply u64_inner_eq. intros lanes Hl. destruct (cmp_mask_lanes Z.eqb t lanes Hl) as [H1 H2]. split.
  - rewrite (bits_of_not 8), H1. by rewrite <- list_fmap_compose.
  - apply in_u_not_w; [lia|done].
Qed.

Lemma f64_inner_eq p col t :
  Some (filter_f64_avx512_inner p col t) = filter_scalar (λ c, p c t) col.
Proof. apply avx_eq_scalar; [|done]. intros lanes Hl. by apply cmp_mask_lanes. Qed.

Lemma i64_cmp_eq p col v :
  - 2 ^ 63 <= v < 2 ^ 63 →
  Some (filter_u64_avx512_inner (cmp_mask (signed p)) col (wrap_u 64 v)) =
  filter_scalar (λ c, p (as_signed 64 c) v) col.
Proof.
  intros Hv. apply u64_inner_eq. intros lanes Hl.
  destruct (cmp_mask_lanes (signed p) (wrap_u 64 v) lanes Hl) as [H1 H2]. split; [|done].
  rewrite H1. unfold signed. by rewrite as_signed_wrap by (cbn; lia).
Qed.

(** C24: the vector code is the scalar code.  For every column, of any length, and
    every comparison value, the AVX-512 path of each integer filter and of each
    ordered [f64] filter builds byte for byte the bitmap the scalar path builds. *)
Theorem filters_avx_scalar (col : list Z) (u i : Z) (Hi : - 2 ^ 63 <= i < 2 ^ 63) :
  filter_eq_u64 true col u = filter_eq_u64 false col u ∧
  filter_ne_u64 true col u = filter_ne_u64 false col u ∧
  filter_lt_u64 true col u = filter_lt_u64 false col u ∧
  filter_gt_u64 true col u = filter_gt_u64 false col u ∧
  filter_le_u64 true col u = filter_le_u64 false col u ∧
  filter_ge_u64 true col u = filter_ge_u64 false col u ∧
  filter_lt_i64 true col i = filter_lt_i64 false col i ∧
  filter_le_i64 true col i = filter_le_i64 false col i ∧
  filter_gt_i64 true col i = filter_gt_i64 false col i ∧
  filter_ge_i64 true col i = filter_ge_i64 false col i ∧
  filter_lt_f64 true col u = filter_lt_f64 false col u ∧
  filter_gt_f64 true col u = filter_gt_f64 false col u ∧
  filter_le_f64 true col u = filter_le_f64 false col u ∧
  filter_ge_f64 true col u = filter_ge_f64 false col u.
Proof.
  split_and!; first [apply u64_cmp_eq | apply u64_ne_eq | apply f64_inner_eq
    | apply (i64_cmp_eq Z.ltb), Hi | apply (i64_cmp_eq Z.leb), Hi
    | apply (i64_cmp_eq Z.gtb), Hi | apply (i64_cmp_eq Z.geb), Hi].
Qed.

Lemma filters_avx_scalar_witness :
  filter_lt_i64 true [5; 2 ^ 64 - 3; 0; 7; 8; 9; 10; 11; 12] (-2) =
  filter_lt_i64 false [5; 2 ^ 64 - 3; 0; 7; 8; 9; 10; 11; 12] (-2).
Proof. apply (filters_avx_scalar [5; 2 ^ 64 - 3; 0; 7; 8; 9; 10; 11; 12] 0 (-2)). lia. Defined.

Lemma dispatch_selects avx v p col :
  Some v = filter_scalar p col → selects (dispatch avx v (filter_scalar p col)) p col.
Proof. intros H. destruct avx; simpl; [rewrite H|]; apply filter_scalar_selects. Qed.

(** a filter selects the rows it names.  On either path each filter succeeds,
    expands to exactly the comparison of every cell (unsigned, signed or, for [f64],
    IEEE-754), counts exactly the selected rows, and leaves no stray bit beyond the
    last row. *)
Theorem filters_select (avx : bool) (col : list Z) (u i : Z) (Hi : - 2 ^ 63 <= i < 2 ^ 63) :
  selects (filter_eq_u64 avx col u) (λ c, Z.eqb c u) col ∧
  selects (filter_ne_u64 avx col u) (λ c, negb (Z.eqb c u)) col ∧
  selects (filter_lt_u64 avx col u) (λ c, Z.ltb c u) col ∧
  selects (filter_gt_u64 avx col u) (λ c, Z.gtb c u) col ∧
  selects (filter_le_u64 avx col u) (λ c, Z.leb c u) col ∧
  selects (filter_ge_u64 avx col u) (λ c, Z.geb c u) col ∧
  selects (filter_lt_i64 avx col i) (λ c, Z.ltb (as_signed 64 c) i) col ∧
  selects (filter_le_i64 avx col i) (λ c, Z.leb (as_signed 64 c) i) col ∧
  selects (filter_gt_i64 avx col i) (λ c, Z.gtb (as_signed 64 c) i) col ∧
  selects (filter_ge_i64 avx col i) (λ c, Z.geb (as_signed 64 c) i) col ∧
  selects (filter_lt_f64 avx col u) (λ c, f64_lt c u) col ∧
  selects (filter_gt_f64 avx col u) (λ c, f64_gt c u) col ∧
  selects (filter_le_f64 avx col u) (λ c, f64_le c u) col ∧
  selects (filter_ge_f64 avx col u) (λ c, f64_ge c u) col.
Proof.
  split_and!; apply dispatch_selects;
    first [apply u64_cmp_eq | apply u64_ne_eq | apply f64_inner_eq
    | apply (i64_cmp_eq Z.ltb), Hi | apply (i64_cmp_eq Z.leb), Hi
    | apply (i64_cmp_eq Z.gtb), Hi | apply (i64_cmp_eq Z.geb), Hi].
Qed.

Lemma filters_select_witness : selects (filter_gt_u64 true [1; 9; 3; 12] 3) (λ c, Z.gtb c 3) [1; 9; 3; 12].
Proof. apply (filters_select true [1; 9; 3; 12] 3 0). lia. Defined.

(** the two paths of [filter_eq_f64] differ.  The vector path compares values, the
    scalar path bit patterns: a cell holding negative zero equals [0.0] on one CPU
    and not on another, and a NaN equals itself only on the scalar path. *)
Theorem filter_eq_f64_paths_differ :
  let neg_zero := 2 ^ 63 in
  let nan := 9221120237041090560 in
  (filter_eq_f64 true [neg_zero; nan] 0 ≫= to_bool_vec) = Some [true; false] ∧
  (filter_eq_f64 false [neg_zero; nan] 0 ≫= to_bool_vec) = Some [false; false] ∧
  (filter_eq_f64 true [nan] nan ≫= to_bool_vec) = Some [false] ∧
  (filter_eq_f64 false [nan] nan ≫= to_bool_vec) = Some [true].
Proof. vm_compute. done. Qed.

(** ** The algebra of bitmaps *)
Lemma unused_spec n : unused n = Z.of_nat (div_ceil n 8 * 8 - n).
Proof.
  unfold unused. change 7 with (Z.ones 3). rewrite !Z.land_ones by lia. change (2 ^ 3) with 8.
  pose proof (div_ceil_bounds n 8 ltac:(lia)) as Hb.
  set (k := div_ceil n 8) in *. rewrite Nat2Z.inj_sub, Nat2Z.inj_mul by lia. simpl Z.of_nat at 3.
  pose proof (Z.div_mod (Z.of_nat n) 8). pose proof (Z.mod_pos_bound (Z.of_nat n) 8).
  destruct (decide (Z.of_nat n mod 8 = 0)) as [E|E].
  - rewrite E. change ((8 - 0) mod 8) with 0. lia.
  - rewrite Z.mod_small by lia. lia.
Qed.

Lemma new_wf n : bm_wf (new n) ∧ rows (new n) = replicate n false.
Proof.
  pose proof (div_ceil_bounds n 8 ltac:(lia)) as Hb. split.
  - split; simpl; [apply length_replicate|by apply Forall_replicate|].
    rewrite flat_zeros, drop_replicate, length_replicate. done.
  - unfold rows, new. cbn [bits len]. rewrite flat_zeros, take_replicate. f_equal. lia.
Qed.

(** Masking the last byte clears the bits beyond the last row. *)
Lemma update_last_mask l n (g : Z → Z) :
  length l = div_ceil n 8 → (0 < unused n)%Z →
  (∀ z, bits_of 8 (g z) = take (8 - Z.to_nat (unused n)) (bits_of 8 z) ++ replicate (Z.to_nat (unused n)) false) →
  flat 8 (update_last g l) = take n (flat 8 l) ++ replicate (length l * 8 - n) false.
Proof.
  intros Hl Hu Hg. pose proof (div_ceil_bounds n 8 ltac:(lia)) as Hb. rewrite unused_spec in *.
  rewrite <- Hl in *. destruct (lookup_lt_is_Some_2 l (length l - 1)) as [z Hz]; [lia|].
  unfold update_last. rewrite (alter_Some_insert _ _ z) by done.
  rewrite flat_insert by lia. rewrite Hg, Nat2Z.id.
  rewrite (drop_ge (flat 8 l)) by (rewrite length_flat; lia). rewrite app_nil_r, app_assoc.
  assert (flat 8 l = flat 8 (take (length l - 1) l) ++ bits_of 8 z) as ->.
  { rewrite <- (take_drop (length l - 1) l) at 1. rewrite flat_app. f_equal.
    rewrite (drop_S _ _ _ Hz), drop_ge, flat_cons by lia. apply app_nil_r. }
  assert (length (flat 8 (take (length l - 1) l)) = (length l - 1) * 8)%nat as Hlen
    by (rewrite length_flat, length_take; lia).
  rewrite take_app_length' by done. rewrite (take_app_ge _ _ n) by lia. rewrite Hlen.
  do 3 f_equal. lia.
Qed.

(** [not] complements every row and stays within the bitmap: it is an involution
    on the rows, and counts complement to the number of rows for every length,
    whether or not it is a multiple of eight. *)
Theorem not_complements (a : Bitmap) (Ha : bm_wf a) :
  bm_wf (not a) ∧ to_bool_vec (not a) = Some (negb <$> rows a) ∧
  (count_ones (not a) + count_ones a)%nat = len a ∧ rows (not (not a)) = rows a.
Proof.
  assert (∀ a, bm_wf a → bm_wf (not a) ∧ rows (not a) = negb <$> rows a) as H.
  { clear a Ha. intros a Ha. pose proof (bm_wf_le a Ha) as Hle.
    assert (flat 8 (not_w 8 <$> bits a) = negb <$> flat 8 (bits a)) as Hn.
    { generalize (bits a). intros l. induction l as [|z l IH]; [done|].
      rewrite fmap_cons, !flat_cons, fmap_app, IH. f_equal. apply (bits_of_not 8). }
    assert (Forall (in_u 8) (not_w 8 <$> bits a)) as Hw.
    { apply Forall_fmap. eapply Forall_impl; [|apply Ha]. intros z Hz. by apply in_u_not_w. }
    unfold not. destruct (Z.ltb_spec 0 (unused (len a))) as [Hu|Hu].
    - pose proof (unused_spec (len a)) as Hus. pose proof (div_ceil_bounds (len a) 8 ltac:(lia)).
      set (mask := wrap_u 8 _). set (l := not_w 8 <$> bits a) in *.
      assert (mask = 2 ^ Z.of_nat (8 - Z.to_nat (unused (len a))) - 1) as Hmask.
      { unfold mask. rewrite Z.shiftl_1_l. replace (Z.of_nat (8 - Z.to_nat (unused (len a)))) with (8 - unused (len a)) by lia.
        pose proof (Z.pow_lt_mono_r 2 (8 - unused (len a)) 8). pose proof (Z.pow_pos_nonneg 2 (8 - unused (len a))).
        apply wrap_u_small. unfold in_u. lia. }
      assert (length l = div_ceil (len a) 8) as Hl by (unfold l; rewrite length_fmap; apply Ha).
      assert (flat 8 (update_last (λ b, Z.land b mask) l) =
              (negb <$> rows a) ++ replicate (length l * 8 - len a) false) as Hf.
      { rewrite (update_last_mask _ (len a)); [|done|done|].
        - f_equal. unfold rows. by rewrite Hn, fmap_take.
        - intros z. rewrite Hmask, bits_of_mask by lia. f_equal. f_equal. lia. }
      assert (length (negb <$> rows a) = len a) as Hlr by (rewrite length_fmap; by apply length_rows).
      assert (length (update_last (λ b, Z.land b mask) l) = length l) as Hul by apply length_alter.
      split.
      + split; cbn [bits len].
        * by rewrite Hul.
        * unfold update_last. apply Forall_alter; [done|]. intros z Hz1 Hz2.
          apply in_u_land; [lia|done|]. rewrite Hmask.
          pose proof (Z.pow_le_mono_r 2 (Z.of_nat (8 - Z.to_nat (unused (len a)))) 8).
          pose proof (Z.pow_pos_nonneg 2 (Z.of_nat (8 - Z.to_nat (unused (len a))))). unfold in_u. lia.
        * rewrite Hf, Hul. by apply drop_app_length'.
      + unfold rows at 1. cbn [bits len]. rewrite Hf. by apply take_app_length'.
    - pose proof (unused_spec (len a)) as Hus. pose proof (bw_len _ Ha) as Hl.
      assert (length (bits a) * 8 = len a)%nat as E by lia. split.
      + split; cbn [bits len]; [by rewrite length_fmap|done|].
        rewrite Hn, length_fmap, E, Nat.sub_diag. apply drop_ge. rewrite length_fmap, length_flat. lia.
      + unfold rows. cbn [bits len]. by rewrite Hn, fmap_take. }
  destruct (H a Ha) as [W R]. destruct (H _ W) as [W2 R2]. split_and!.
  - done.
  - by rewrite to_bool_vec_rows, R.
  - rewrite !count_ones_rows, R by done. rewrite count_true_negb. by apply length_rows.
  - rewrite R2, R, <- list_fmap_compose. rewrite <- (list_fmap_id (rows a)) at 2.
    apply list_fmap_ext. intros ? [] _; done.
Qed.

Lemma not_complements_witness :
  bm_wf (not (new 11)) ∧ to_bool_vec (not (new 11)) = Some (negb <$> rows (new 11)) ∧
  (count_ones (not (new 11)) + count_ones (new 11))%nat = len (new 11) ∧
  rows (not (not (new 11))) = rows (new 11).
Proof. apply (not_complements (new 11)). apply new_wf. Defined.

Lemma combine_rows (f : Z → Z → Z) (g : bool → bool → bool) a b :
  (∀ x y i, Z.testbit (f x y) i = g (Z.testbit x i) (Z.testbit y i)) →
  (∀ x y, in_u 8 x → in_u 8 y → in_u 8 (f x y)) → g false false = false →
  bm_wf a → bm_wf b → len a = len b →
  let r := mkBm (zip_with f (bits a) (bits b)) (len a) in
  bm_wf r ∧ rows r = zip_with g (rows a) (rows b).
Proof.
  intros Hf Hw Hg Ha Hb Hl r.
  assert (length (bits b) = length (bits a)) as Hlb by (rewrite (bw_len _ Ha), (bw_len _ Hb); congruence).
  assert (flat 8 (zip_with f (bits a) (bits b)) = zip_with g (flat 8 (bits a)) (flat 8 (bits b))) as Hz.
  { revert Hlb. generalize (bits b). induction (bits a) as [|x l IH]; intros [|y l'] E; try done.
    simpl in E. cbn [zip_with]. rewrite !flat_cons, IH by lia.
    rewrite (bits_of_zip g f) by done. by rewrite zip_with_app by (by rewrite !length_bits_of). }
  split.
  - split; cbn [bits len r].
    + rewrite length_zip_with, Hlb, Nat.min_id. apply Ha.
    + apply Forall_lookup. intros i z. rewrite lookup_zip_with_Some. intros (x & y & -> & Hx & Hy).
      apply Hw; [eapply Forall_lookup_1; [apply Ha|done]|eapply Forall_lookup_1; [apply Hb|done]].
    + rewrite Hz, zip_with_drop, (bw_tail _ Ha). rewrite Hl, (bw_tail _ Hb), Hlb, <- Hl.
      rewrite length_zip_with, Hlb, Nat.min_id, zip_with_replicate, Hg. done.
  - unfold rows, r. cbn [bits len]. rewrite Hz, zip_with_take. by rewrite Hl.
Qed.

Lemma combine_into_same f a b n :
  bm_wf a → bm_wf b → len a = len b → n = len a →
  combine_into f (bits a) (bits b) (bits (new n)) = zip_with f (bits a) (bits b).
Proof.
  intros Ha Hb Hl ->. pose proof (bw_len _ Ha) as La. pose proof (bw_len _ Hb) as Lb.
  rewrite <- Hl in Lb. unfold combine_into. rewrite La, Lb, Nat.min_id.
  rewrite !take_ge by lia. rewrite drop_ge, app_nil_r; [done|]. simpl. rewrite length_replicate. lia.
Qed.

(** conjunction and disjunction of filters.  For bitmaps over the same rows, [and]
    and [or] compute the row-wise conjunction and disjunction and keep the bitmap
    well-formed. *)
Theorem and_or_rows (a b : Bitmap) (Ha : bm_wf a) (Hb : bm_wf b) (Hl : len a = len b) :
  bm_wf (and a b) ∧ rows (and a b) = zip_with andb (rows a) (rows b) ∧
  bm_wf (or a b) ∧ rows (or a b) = zip_with orb (rows a) (rows b).
Proof.
  assert (and a b = mkBm (zip_with Z.land (bits a) (bits b)) (len a)) as ->.
  { unfold and. rewrite <- Hl, Nat.min_id. f_equal. by apply combine_into_same. }
  assert (or a b = mkBm (zip_with Z.lor (bits a) (bits b)) (len a)) as ->.
  { unfold or. rewrite <- Hl, Nat.max_id. f_equal. by apply combine_into_same. }
  destruct (combine_rows Z.land andb a b) as [H1 H2]; [apply Z.land_spec|intros; by apply in_u_land|done..|].
  destruct (combine_rows Z.lor orb a b) as [H3 H4]; [apply Z.lor_spec|intros; by apply in_u_lor|done..|].
  done.
Qed.

Lemma and_or_rows_witness :
  bm_wf (and (new 9) (not (new 9))) ∧
  rows (and (new 9) (not (new 9))) = zip_with andb (rows (new 9)) (rows (not (new 9))) ∧
  bm_wf (or (new 9) (not (new 9))) ∧
  rows (or (new 9) (not (new 9))) = zip_with orb (rows (new 9)) (rows (not (new 9))).
Proof.
  apply (and_or_rows (new 9) (not (new 9))); [apply new_wf| |done].
  split; [done| |done]. vm_compute. repeat (constructor; [split; [done|reflexivity]|]). constructor.
Defined.

(** [or] of bitmaps of different lengths loses rows: although its length is the
    maximum, only the bytes both operands have are combined.  A disjunction with an
    empty bitmap has no row set, whatever the other operand held. *)
Theorem or_drops_longer (a : Bitmap) : or (new 0) a = new (len a) ∧ count_ones (or (new 0) a) = 0%nat.
Proof.
  assert (or (new 0) a = new (len a)) as E by done. rewrite E. split; [done|].
  rewrite count_ones_rows by apply new_wf. destruct (new_wf (len a)) as [_ ->]. apply count_true_false.
Qed.

(** packing and unpacking a slice of booleans is the identity, and [count_ones] of
    the packed form is the number of true entries. *)
Theorem bool_slice_roundtrip (bools : list bool) :
  ∃ b, from_bool_slice bools = Some b ∧ bm_wf b ∧ to_bool_vec b = Some bools ∧
       count_ones b = count_true bools.
Proof.
  (* packing a slice of booleans is filtering a column of 0s and 1s *)
  assert (∀ i b, set_where (λ x : bool, x) i bools b = set_where (λ c, Z.eqb c 1) i (b2z <$> bools) b) as E.
  { induction bools as [|x l IH]; intros i b; [done|]. cbn [set_where fmap list_fmap].
    destruct x; simpl; [destruct (set i b); simpl; [apply IH|done]|apply IH]. }
  destruct (filter_scalar_selects (λ c, Z.eqb c 1) (b2z <$> bools)) as (b & H1 & H2 & H3 & H4).
  assert ((λ c, Z.eqb c 1) <$> (b2z <$> bools) = bools) as Hb.
  { rewrite <- list_fmap_compose. rewrite <- (list_fmap_id bools) at 2.
    apply list_fmap_ext. intros ? [] _; done. }
  rewrite Hb in *. exists b. split; [|done]. unfold from_bool_slice. rewrite E.
  unfold filter_scalar in H1. by rewrite length_fmap in H1.
Qed.

(** ** Block-wise combination *)

(** The first [i] positions combined, the rest as it was. *)
Definition combined {A B} (h : A → B → A) (dst : list A) (src : list B) (i : nat) (l : list A) : Prop :=
  l = zip_with h (take i dst) (take i src) ++ drop i dst.

Section blocks.
Context {A B : Type} (h : A → B → A) (dst : list A) (src : list B) (Hlen : (length dst <= length src)%nat).

Lemma length_combined i l : (i <= length dst)%nat → combined h dst src i l → length l = length dst.
Proof. intros Hi ->. rewrite length_app, length_zip_with, !length_take, length_drop. lia. Qed.

Lemma combined_block k i l :
  (i + k <= length dst)%nat → combined h dst src i l →
  slice i k l = slice i k dst ∧
  combined h dst src (i + k) (splice i (zip_with h (slice i k dst) (slice i k src)) l).
Proof.
  intros Hik Hc. unfold combined in *.
  assert (length (zip_with h (take i dst) (take i src)) = i) as Hl
    by (rewrite length_zip_with, !length_take; lia).
  subst l. split.
  - rewrite slice_app_r, Hl, Nat.sub_diag by lia. unfold slice. by rewrite drop_0.
  - assert (length (zip_with h (slice i k dst) (slice i k src)) = k) as Hz
      by (rewrite length_zip_with, !length_slice by lia; lia).
    unfold splice. rewrite Hz. rewrite take_app_length' by done. rewrite drop_app_ge, Hl by lia.
    rewrite drop_drop. replace (i + (i + k - i))%nat with (i + k)%nat by lia.
    rewrite app_assoc. f_equal. rewrite <- zip_with_app by (rewrite !length_take; lia).
    unfold slice. by rewrite !take_take_drop.
Qed.

Lemma combined_0 : combined h dst src 0 dst.
Proof. unfold combined. by rewrite !take_0, drop_0. Qed.

Lemma combined_all l : combined h dst src (length dst) l → l = zip_with h dst src.
Proof.
  intros ->. rewrite (take_ge dst), drop_ge, app_nil_r by lia. apply zip_with_take_r.
Qed.
End blocks.

Lemma inplace_avx512_zip f dst src :
  length dst = length src → inplace_avx512 f dst src = zip_with f dst src.
Proof.
  intros Hl. assert (∀ k i l, (i + k <= length dst)%nat → combined f dst src i l →
    combined f dst src (i + k) (step_bytes f k src i l)) as Hstep.
  { intros k i l Hk Hc. unfold step_bytes.
    destruct (combined_block f dst src ltac:(lia) k i l Hk Hc) as [-> H]. exact H. }
  unfold inplace_avx512. set (n := length dst).
  destruct (block_loop 64 n (step_bytes f 64 src) n 0 dst) as [i1 s1] eqn:E1.
  destruct (block_loop 16 n (step_bytes f 16 src) n i1 s1) as [i2 s2] eqn:E2.
  destruct (block_loop 1 n (step_bytes f 1 src) n i2 s2) as [i3 s3] eqn:E3.
  apply (block_loop_inv (combined f dst src)) in E1 as (P1 & L1 & _); [|lia..|auto|apply combined_0].
  apply (block_loop_inv (combined f dst src)) in E2 as (P2 & L2 & _); [|lia..|auto|done].
  apply (block_loop_inv (combined f dst src)) in E3 as (P3 & L3 & U3 & _); [|lia..|auto|done].
  assert (i3 = length dst) as -> by (unfold n in *; lia). by apply combined_all; [lia|].
Qed.

Lemma bits_of_le_decode bs : bytes_ok bs → bits_of (length bs * 8) (le_decode bs) = flat 8 bs.
Proof.
  induction 1 as [|b l Hb Hl IH]; [done|]. rewrite flat_cons, <- IH. cbn [length le_decode].
  apply bits_of_ext; [rewrite length_app, !length_bits_of; lia|]. intros i Hi.
  assert (b + 256 * le_decode l = Z.lxor b (Z.shiftl (le_decode l) 8)) as ->.
  { apply (add_shift_lxor 8); [lia|done]. }
  rewrite Z.lxor_spec, Z.shiftl_spec by lia. destruct (decide (i < 8)%nat) as [H|H].
  - rewrite lookup_app_l, lookup_bits_of by (rewrite ?length_bits_of; done).
    rewrite (Z.testbit_neg_r (le_decode l)) by lia. by rewrite xorb_false_r.
  - rewrite lookup_app_r by (rewrite length_bits_of; lia). rewrite length_bits_of, lookup_bits_of by lia.
    rewrite (testbit_above 8 b) by (done || lia). rewrite xorb_false_l. do 2 f_equal. lia.
Qed.

Lemma slice_flat bs i k : (i mod 8 = 0)%nat → slice i (k * 8) (flat 8 bs) = flat 8 (slice (i / 8) k bs).
Proof.
  intros Hm. apply Nat.Div0.mod_divides in Hm as [q ->]. rewrite (Nat.mul_comm 8 q), Nat.div_mul by lia.
  unfold slice. revert q; induction bs as [|b bs IH]; intros q.
  - change (flat 8 []) with (@nil bool). by rewrite !drop_nil, !take_nil.
  - destruct q as [|q].
    + rewrite Nat.mul_0_l, !drop_0. clear IH. generalize (b :: bs). clear b bs. intros bs.
      revert bs; induction k as [|k IHk]; intros bs; [done|]. destruct bs as [|b bs].
      { change (flat 8 []) with (@nil bool). by rewrite !take_nil. }
      cbn [take]. rewrite !flat_cons, <- IHk. rewrite take_app_ge by (rewrite length_bits_of; lia).
      rewrite length_bits_of. do 2 f_equal. lia.
    + cbn [drop]. rewrite <- IH. rewrite flat_cons, drop_app_ge by (rewrite length_bits_of; lia).
      rewrite length_bits_of. do 2 f_equal. lia.
Qed.

Lemma bit_at_flat bs i : (i < length bs * 8)%nat → flat 8 bs !! i = Some (bit_at bs i).
Proof.
  intros Hi. rewrite lookup_flat by lia.
  destruct (lookup_lt_is_Some_2 bs (i / 8)%nat) as [z Hz].
  { apply Nat.Div0.div_lt_upper_bound. lia. }
  unfold bit_at. rewrite Hz, (nth_lookup_Some _ _ _ _ Hz), land_1_testbit by lia. done.
Qed.

Section into_bool.
Context (op : Z → Z → Z) (step1 : list Z → nat → list bool → list bool) (h : bool → bool → bool).
Context (bs : list Z) (mask : list bool).
Context (Hop : ∀ m e, lane_op op m e = h m e).
Context (Hstep1 : ∀ i l m, l !! i = Some m → step1 bs i l = <[i := h m (bit_at bs i)]> l).
Context (Hlen : (length mask <= length bs * 8)%nat) (Hbs : bytes_ok bs).
Let n := length mask.
Abbreviation comb := (combined h mask (flat 8 bs)).

Lemma flat_long : (length mask <= length (flat 8 bs))%nat.
Proof. by rewrite length_flat. Qed.

Lemma zip_lane_op l1 l2 : zip_with (lane_op op) l1 l2 = zip_with h l1 l2.
Proof. revert l2; induction l1 as [|m l1 IH]; intros [|e l2]; [done..|]. simpl. by rewrite Hop, IH. Qed.

Lemma comb_64 i l :
  (i mod 8 = 0)%nat → (i + 64 <= n)%nat → comb i l → comb (i + 64) (step_mask64 op bs i l).
Proof.
  intros Hm Hk Hc. unfold step_mask64. rewrite zip_lane_op.
  destruct (combined_block h mask (flat 8 bs) flat_long 64 i l Hk Hc) as [-> H].
  assert (bits_of 64 (le_decode (slice (i / 8) 8 bs)) = slice i 64 (flat 8 bs)) as ->; [|exact H].
  rewrite (slice_flat bs i 8 Hm : slice i 64 _ = _).
  assert (length (slice (i / 8) 8 bs) = 8%nat) as Hl.
  { apply length_slice. pose proof (Nat.div_mod i 8). unfold n in *. lia. }
  rewrite <- bits_of_le_decode by (by apply bytes_ok_slice). by rewrite Hl.
Qed.

Lemma comb_8 i l :
  (i mod 8 = 0)%nat → (i + 8 <= n)%nat → comb i l → comb (i + 8) (step_mask8 op bs i l).
Proof.
  intros Hm Hk Hc. unfold step_mask8. rewrite zip_lane_op.
  destruct (combined_block h mask (flat 8 bs) flat_long 8 i l Hk Hc) as [-> H].
  assert (bits_of 8 (nth (i / 8) bs 0) = slice i 8 (flat 8 bs)) as ->; [|exact H].
  rewrite (slice_flat bs i 1 Hm : slice i 8 _ = _).
  destruct (lookup_lt_is_Some_2 bs (i / 8)%nat) as [z Hz].
  { pose proof (Nat.div_mod i 8). unfold n in *. lia. }
  rewrite (nth_lookup_Some _ _ _ _ Hz). unfold slice. rewrite (drop_S _ _ _ Hz). cbn [take].
  rewrite flat_cons. symmetry. apply app_nil_r.
Qed.

Lemma comb_1 i l : (i + 1 <= n)%nat → comb i l → comb (i + 1) (step1 bs i l).
Proof.
  intros Hk Hc. pose proof (length_combined h mask _ flat_long i l ltac:(unfold n in *; lia) Hc) as Hl.
  destruct (lookup_lt_is_Some_2 l i) as [m Hlm]; [unfold n in *; lia|].
  destruct (combined_block h mask (flat 8 bs) flat_long 1 i l Hk Hc) as [E H].
  assert (slice i 1 l = [m]) as Em by (unfold slice; by rewrite (drop_S _ _ _ Hlm)).
  assert (slice i 1 (flat 8 bs) = [bit_at bs i]) as Eb.
  { unfold slice. rewrite (drop_S _ (bit_at bs i)); [done|]. apply bit_at_flat. unfold n in *. lia. }
  rewrite <- E, Em, Eb in H. rewrite (Hstep1 i l m Hlm). cbn [zip_with] in H.
  rewrite insert_take_drop by (by eapply lookup_lt_Some). unfold splice in H. simpl length in H.
  by rewrite Nat.add_1_r in H |- *.
Qed.

Lemma into_bool_avx512_zip : into_bool_avx512 op step1 bs mask = zip_with h mask (flat 8 bs).
Proof.
  unfold into_bool_avx512. fold n.
  destruct (block_loop 64 n (step_mask64 op bs) n 0 mask) as [i1 s1] eqn:E1.
  destruct (block_loop 8 n (step_mask8 op bs) n i1 s1) as [i2 s2] eqn:E2.
  destruct (block_loop 1 n (step1 bs) n i2 s2) as [i3 s3] eqn:E3.
  apply (block_loop_inv comb) in E1 as (P1 & L1 & _ & M1); [|lia..| |apply combined_0].
  2:{ intros j t _ Hm Hj. apply comb_64; [|done]. apply (mod_8_of 64); [by exists 8%nat|lia|done]. }
  apply (block_loop_inv comb) in E2 as (P2 & L2 & _); [|lia..| |done].
  2:{ intros j t _ Hm Hj. apply comb_8; [|done]. rewrite Hm.
      apply (mod_8_of 64); [by exists 8%nat|lia|done]. }
  apply (block_loop_inv comb) in E3 as (P3 & L3 & U3 & _); [|lia..| |done].
  2:{ intros j t _ _ Hj. by apply comb_1. }
  assert (i3 = length mask) as -> by (unfold n in *; lia). by apply combined_all; [apply flat_long|].
Qed.

Lemma into_bool_scalar_zip :
  (block_loop 1 (length mask) (step1 bs) (length mask) 0 mask).2 = zip_with h mask (flat 8 bs).
Proof.
  fold n. destruct (block_loop 1 n (step1 bs) n 0 mask) as [i3 s3] eqn:E3.
  apply (block_loop_inv comb) in E3 as (P3 & L3 & U3 & _); [|lia..| |apply combined_0].
  2:{ intros j t _ _ Hj. by apply comb_1. }
  assert (i3 = length mask) as -> by (unfold n in *; lia). by apply combined_all; [apply flat_long|].
Qed.
End into_bool.

(** folding filters into a mask.  For a mask no longer than the bitmap's bytes,
    both paths of [and_into_bool] and [or_into_bool] combine every row with its bit
    (the vector path expands 64 bits to 64 bytes and collapses them again), and the
    in-place byte-wise operations agree on both paths. *)
Theorem combinators_avx_scalar (avx : bool) (a b : Bitmap) (mask : list bool)
    (Hb : bytes_ok (bits b)) (Hm : (length mask <= length (bits b) * 8)%nat) :
  and_into_bool avx b mask = zip_with andb mask (flat 8 (bits b)) ∧
  or_into_bool avx b mask = zip_with orb mask (flat 8 (bits b)) ∧
  and_inplace avx a b = and_inplace false a b ∧
  or_inplace avx a b = or_inplace false a b.
Proof.
  assert (∀ i l m, l !! i = Some m → step_and1 (bits b) i l = <[i := m && bit_at (bits b) i]> l) as Ha1.
  { intros i l m Hl. unfold step_and1. destruct (bit_at (bits b) i).
    - rewrite andb_true_r. symmetry. by apply list_insert_id.
    - by rewrite andb_false_r. }
  assert (∀ i l m, l !! i = Some m → step_or1 (bits b) i l = <[i := m || bit_at (bits b) i]> l) as Ho1.
  { intros i l m Hl. unfold step_or1. destruct (bit_at (bits b) i).
    - by rewrite orb_true_r.
    - rewrite orb_false_r. symmetry. by apply list_insert_id. }
  split_and!.
  - unfold and_into_bool. destruct avx; [|by apply into_bool_scalar_zip].
    apply into_bool_avx512_zip; [|done..]. by intros [] [].
  - unfold or_into_bool. destruct avx; [|by apply into_bool_scalar_zip].
    apply into_bool_avx512_zip; [|done..]. by intros [] [].
  - unfold and_inplace, inplace. destruct avx; [|done]. rewrite inplace_avx512_zip; [done|].
    rewrite !length_take. lia.
  - unfold or_inplace, inplace. destruct avx; [|done]. rewrite inplace_avx512_zip; [done|].
    rewrite !length_take. lia.
Qed.

Lemma combinators_avx_scalar_witness :
  and_into_bool true (new 9) (replicate 9 true) = zip_with andb (replicate 9 true) (flat 8 (bits (new 9))) ∧
  or_into_bool true (new 9) (replicate 9 true) = zip_with orb (replicate 9 true) (flat 8 (bits (new 9))) ∧
  and_inplace true (new 20) (new 9) = and_inplace false (new 20) (new 9) ∧
  or_inplace true (new 20) (new 9) = or_inplace false (new 20) (new 9).
Proof.
  apply (combinators_avx_scalar true (new 20) (new 9) (replicate 9 true)).
  - by apply Forall_replicate.
  - apply Nat.leb_le. reflexivity.
Defined.

End BitmapM.
