(* ===== verification/Catalog.v ===== *)
(** * Tables and the catalog (src/src/catalog/mod.rs, src/src/datasource/table.rs,
    clone_catalog of src/src/txn/mod.rs)

    The catalog is a finite map from names to tables; where the code walks a hash map
    the order is a parameter.  String search columns and DDL schemas, which these
    files only carry along, are type parameters.  Names are lists of code points. *)

From Stdlib Require Import ZArith Lia.
From stdpp Require Import prelude gmap list numbers.
From S2P Require Import Prelude Nulls.
Local Open Scope Z_scope.

Module CatalogM.
Abbreviation text := (list Z).

Section catalog.
Context {StringSearchColumn TableSchema : Type}.

(** One column as a loader delivers it. *)
Record LoadedColumn := mkLC {
  lc_name : text; cells : list Z; string_search : option StringSearchColumn;
  null_bitmap : option (list bool)
}.
Record LoadedTable := mkLT { lt_name : text; lt_columns : list LoadedColumn; lt_row_count : nat }.

Record Table := mkTable {
  name : text;
  columns : list (list Z);
  column_names : list text;
  row_count : nat;
  string_columns : list (option StringSearchColumn);
  null_bitmaps : list (option NullVec.NullBitmap);
  schema : option TableSchema
}.

(** [columns.iter().map(len).min().unwrap_or(0)]. *)
Definition min_len (cs : list (list Z)) : nat :=
  match cs with [] => 0%nat | c :: cs => fold_left (λ m c, Nat.min m (length c)) cs (length c) end.

Fixpoint mark_nulls (i : nat) (bits : list bool) (bm : NullVec.NullBitmap) : NullVec.NullBitmap :=
  match bits with
  | [] => bm
  | b :: bits => mark_nulls (S i) bits (if b then NullVec.set_null i bm else bm)
  end.

Definition from_loaded (l : LoadedTable) : Table :=
  let cols := cells <$> lt_columns l in
  mkTable (lt_name l) cols (lc_name <$> lt_columns l) (Nat.min (lt_row_count l) (min_len cols))
    (string_search <$> lt_columns l)
    ((λ c, (λ bits, mark_nulls 0 bits (NullVec.new (length bits))) <$> null_bitmap c) <$> lt_columns l)
    None.

Fixpoint position (p : text → bool) (l : list text) : option nat :=
  match l with
  | [] => None
  | x :: l => if p x then Some 0%nat else S <$> position p l
  end.

Definition column_idx (n : text) (t : Table) : option nat := position (λ x, bool_decide (x = n)) (column_names t).
Definition column (n : text) (t : Table) : option (list Z) :=
  idx ← column_idx n t; columns t !! idx.
Definition column_count (t : Table) : nat := length (columns t).

(** ** The catalog *)

Abbreviation Catalog := (gmap text Table).

Definition catalog_new : Catalog := ∅.
Definition register (t : Table) (c : Catalog) : Catalog := <[name t := t]> c.
Definition get (n : text) (c : Catalog) : option Table := c !! n.
Definition drop_table (n : text) (c : Catalog) : bool * Catalog := (bool_decide (is_Some (c !! n)), delete n c).
Definition get_column (t n : text) (c : Catalog) : option (list Z) := tb ← get t c; column n tb.
Definition catalog_len (c : Catalog) : nat := size c.

(** Every table is filed under its own name. *)
Definition cat_wf (c : Catalog) : Prop := ∀ n t, c !! n = Some t → name t = n.

Lemma register_wf t c : cat_wf c → cat_wf (register t c).
Proof.
  intros H n t'. unfold register. rewrite lookup_insert. case_decide as E; [|apply H].
  intros [= <-]. done.
Qed.
Lemma drop_wf n c : cat_wf c → cat_wf (drop_table n c).2.
Proof. intros H m t. simpl. rewrite lookup_delete. case_decide; [done|apply H]. Qed.

Section clone.
(** The order in which the hash map yields its keys. *)
Context (table_names : Catalog → list text) (Hnames : ∀ c, table_names c ≡ₚ (map_to_list c).*1).

Definition clone_catalog (c : Catalog) : Catalog :=
  fold_left (λ new n, match get n c with Some t => register t new | None => new end) (table_names c) catalog_new.

Lemma clone_catalog_eq c : cat_wf c → clone_catalog c = c.
Proof.
  intros Hwf. unfold clone_catalog. set (ns := table_names c).
  set (f := λ (new : Catalog) n, match get n c with Some t => register t new | None => new end).
  assert (∀ l (new : Catalog) n, fold_left f l new !! n =
            if decide (n ∈ l) then (match c !! n with Some t => Some t | None => new !! n end) else new !! n) as H.
  { induction l as [|x l IH]; intros new n.
    { rewrite decide_False by (apply not_elem_of_nil). done. }
    rewrite fold_left_cons, IH. unfold f, get, register.
    destruct (decide (n = x)) as [->|Hne].
    - rewrite (decide_True (P := x ∈ x :: l)) by set_solver.
      destruct (c !! x) as [t|] eqn:E.
      + rewrite (Hwf _ _ E), lookup_insert_eq. by case_decide.
      + by case_decide.
    - assert ((match c !! x with Some t => <[name t := t]> new | None => new end) !! n = new !! n) as ->.
      { destruct (c !! x) as [t|] eqn:E; [|done]. rewrite (Hwf _ _ E). by rewrite lookup_insert_ne. }
      repeat case_decide; set_solver. }
  apply map_eq. intros n. rewrite H. case_decide as Hn.
  - destruct (c !! n); [done|]. apply lookup_empty.
  - unfold catalog_new. rewrite lookup_empty. destruct (c !! n) as [t|] eqn:E; [|done].
    destruct Hn. unfold ns. rewrite Hnames. apply list_elem_of_fmap. exists (n, t).
    split; [done|]. by apply elem_of_map_to_list.
Qed.
End clone.
End catalog.
Arguments Table : clear implicits.
End CatalogM.
