(* ===== verification/Result.v ===== *)
(** * Query results (src/src/engine/result.rs)

    The columns of a result and its builders.  Strings are their UTF-8 bytes; the
    elapsed time and printing are not modelled, the hash of a string is a parameter. *)

From Stdlib Require Import ZArith.
From stdpp Require Import prelude list.
From S2P Require Import Prelude.
Local Open Scope Z_scope.

Module ResultM.
Record ResultColumn := mkCol {
  name : list Z; values : list Z; string_values : option (list (list Z)); type_oid : Z; null_mask : option (list bool)
}.
Record QueryResult := mkResult { columns : list ResultColumn; row_count : nat }.

(** A column without strings and NULLs ([from_u64]), as most of the engine builds them. *)
Definition plain (n : list Z) (v : list Z) : ResultColumn := mkCol n v None 0 None.
Definition from_strings (xxh3_64 : list Z → Z) (n : list Z) (ss : list (list Z)) : ResultColumn :=
  mkCol n (xxh3_64 <$> ss) (Some ss) 0 None.
Definition get_string (row_idx : nat) (c : ResultColumn) : option (list Z) := sv ← string_values c; sv !! row_idx.

Definition empty : QueryResult := mkResult [] 0.
Definition from_scalar_u64 (n : list Z) (v : Z) : QueryResult := mkResult [plain n [v]] 1.

(** The error carries the lengths the message prints. *)
Definition push_column (c : ResultColumn) (r : QueryResult) : result (nat * nat) QueryResult :=
  if bool_decide (columns r = []) then Ok (mkResult [c] (length (values c)))
  else if bool_decide (length (values c) = row_count r) then Ok (mkResult (columns r ++ [c]) (row_count r))
  else Err (length (values c), row_count r).

Definition column (n : list Z) (r : QueryResult) : option (list Z) :=
  (λ p, values p.2) <$> list_find (λ c, name c = n) (columns r).
Definition scalar_u64 (r : QueryResult) : option Z := c ← head (columns r); head (values c).

(** ** Shape *)

(** Every column has [row_count] cells, strings and NULL flags included. *)
Definition col_wf (n : nat) (c : ResultColumn) : Prop :=
  length (values c) = n ∧ (∀ sv, string_values c = Some sv → length sv = n) ∧ (∀ m, null_mask c = Some m → length m = n).
Definition wf (r : QueryResult) : Prop := Forall (col_wf (row_count r)) (columns r).

Lemma plain_wf n v : col_wf (length v) (plain n v).
Proof. by split_and!. Qed.

Lemma push_column_wf c r r' : wf r → col_wf (length (values c)) c → push_column c r = Ok r' → wf r'.
Proof.
  intros Hr Hc. unfold push_column. case_bool_decide; [intros [= <-]; by constructor|].
  case_bool_decide as E; [|done]. intros [= <-]. apply Forall_app. split; [done|]. constructor; [by rewrite <- E|done].
Qed.
End ResultM.
