(* ===== verification/Sorting.v ===== *)
(** * Stable sorting

    The standard library's [sort_by], which the engine uses for ORDER BY and for window
    functions, with the orders it is called with as instances of one class. *)

From Stdlib Require Import ZArith Lia Sorting.Sorted.
From stdpp Require Import prelude list numbers sorting.
From S2P Require Import Prelude.
Local Open Scope Z_scope.

Module SortingM.
(** [sort_by] of the standard library: a stable sort. *)
Fixpoint insert_by {A} (cmp : A → A → comparison) (x : A) (l : list A) : list A :=
  match l with
  | [] => [x]
  | y :: l' => match cmp x y with Gt => y :: insert_by cmp x l' | _ => x :: l end
  end.
Definition sort_by {A} (cmp : A → A → comparison) (l : list A) : list A := foldr (insert_by cmp) [] l.

(** What [sort_by] asks of a comparison: a total preorder. *)
Class Ordering {A} (cmp : A → A → comparison) : Prop := {
  ord_opp a b : cmp b a = CompOpp (cmp a b);
  ord_eq a b c : cmp a b = Eq → cmp b c = cmp a c;
  ord_lt a b c : cmp a b = Lt → cmp b c ≠ Gt → cmp a c = Lt
}.

#[export] Instance Z_ordering : Ordering Z.compare.
Proof.
  split.
  - intros a b. apply Z.compare_antisym.
  - intros a b c ->%Z.compare_eq. done.
  - intros a b c H1 H2. change (a < b) in H1. change (b <= c) in H2. change (a < c). lia.
Qed.

(** Comparison of a key. *)
Definition by_key {A B} (key : A → B) (cmp : B → B → comparison) (a b : A) : comparison := cmp (key a) (key b).
#[export] Instance by_key_ordering {A B} (key : A → B) cmp : Ordering cmp → Ordering (by_key key cmp).
Proof. intros H. unfold by_key. split; intros a b; [apply ord_opp|intros c; apply ord_eq|intros c; apply ord_lt]. Qed.

(** ASC and DESC. *)
Definition directed (asc : bool) (c : comparison) : comparison := if asc then c else CompOpp c.
Definition towards {A} (asc : bool) (cmp : A → A → comparison) (a b : A) : comparison := directed asc (cmp a b).
#[export] Instance towards_ordering {A} asc (cmp : A → A → comparison) : Ordering cmp → Ordering (towards asc cmp).
Proof.
  intros H. unfold towards. destruct asc; [done|]. simpl. split.
  - intros a b. by rewrite (ord_opp a b).
  - intros a b c E. assert (cmp a b = Eq) as E' by (by destruct (cmp a b)). by rewrite (ord_eq _ _ c E').
  - intros a b c H1 H2. rewrite <- ord_opp in H1, H2 |- *. destruct (cmp c b) eqn:E; [by rewrite <- (ord_eq _ _ a E)| |done].
    apply (ord_lt _ _ _ E). congruence.
Qed.

(** Order of rows by number: by their keys, then by position. *)
Definition stable (cmp : nat → nat → comparison) (a b : nat) : Prop := cmp a b = Lt ∨ cmp a b = Eq ∧ (a < b)%nat.

Lemma insert_by_perm {A} (cmp : A → A → comparison) x l : insert_by cmp x l ≡ₚ x :: l.
Proof. induction l as [|y l IH]; [done|]. simpl. destruct (cmp x y); [done..|]. rewrite IH. apply Permutation_swap. Qed.

Lemma sort_by_perm {A} (cmp : A → A → comparison) l : sort_by cmp l ≡ₚ l.
Proof. induction l as [|x l IH]; [done|]. simpl. rewrite insert_by_perm. by constructor. Qed.

Section sorted.
Context (cmp : nat → nat → comparison) `{!Ordering cmp}.

Lemma stable_trans a b c : stable cmp a b → stable cmp b c → stable cmp a c.
Proof.
  unfold stable. intros [H1|[H1 H2]] [H3|[H3 H4]].
  - left. eapply ord_lt; [done|congruence].
  - left. eapply ord_lt; [done|congruence].
  - left. by rewrite <- (ord_eq _ _ _ H1).
  - right. rewrite <- (ord_eq _ _ _ H1). split; [done|lia].
Qed.

Lemma insert_by_sorted x l :
  Forall (λ y, (x < y)%nat) l → StronglySorted (stable cmp) l → StronglySorted (stable cmp) (insert_by cmp x l).
Proof.
  intros Hx Hs. induction Hs as [|y l Hs IH Hy]; [repeat constructor|]. simpl. apply Forall_cons_1 in Hx as [Hxy Hx].
  assert (stable cmp x y → StronglySorted (stable cmp) (x :: y :: l)) as Hfront.
  { intros H. constructor; [by constructor|]. constructor; [done|].
    apply (Forall_impl _ _ _ Hy). intros z. by apply stable_trans. }
  destruct (cmp x y) eqn:E; [apply Hfront; by right|apply Hfront; by left|].
  constructor; [auto|]. rewrite insert_by_perm. constructor; [|done]. left. by rewrite ord_opp, E.
Qed.

Lemma sort_by_sorted l : StronglySorted lt l → StronglySorted (stable cmp) (sort_by cmp l).
Proof.
  induction 1 as [|x l Hs IH Hx]; [constructor|]. simpl. apply insert_by_sorted; [|done]. by rewrite sort_by_perm.
Qed.
End sorted.

Lemma seq_sorted n m : StronglySorted lt (seq n m).
Proof.
  revert n. induction m as [|m IH]; intros n; [constructor|]. simpl. constructor; [done|].
  apply list.Forall_forall. intros x. rewrite elem_of_seq. lia.
Qed.

Lemma filter_sorted {A} (R : A → A → Prop) (P : A → Prop) `{∀ x, Decision (P x)} l :
  StronglySorted R l → StronglySorted R (filter P l).
Proof.
  induction 1 as [|x l Hs IH Hx]; [constructor|]. rewrite filter_cons. case_decide; [|done].
  constructor; [done|]. apply Forall_forall. intros y [_ Hy]%list_elem_of_filter. rewrite list.Forall_forall in Hx. auto.
Qed.
End SortingM.
