(* ===== verification/SnapshotTxn.v ===== *)
(** * Snapshot transactions (src/src/txn/mod.rs)

    BEGIN, COMMIT and ROLLBACK over a copy of the catalog. *)

From Stdlib Require Import ZArith Lia.
From stdpp Require Import prelude gmap list numbers strings.
From S2P Require Import Prelude Nulls Catalog.
Local Open Scope Z_scope.

Module SnapshotTxn.
Import CatalogM.
Abbreviation Catalog SSC TS := (gmap text (Table SSC TS)).
Section txn.
Context {SSC TS : Type} (table_names : Catalog SSC TS → list text)
        (Hnames : ∀ c, table_names c ≡ₚ (map_to_list c).*1).

Record Transaction := mkTxn { id : Z; snapshot : Catalog SSC TS; txn_active : bool }.
Record TxnManager := mkTM { next_id : Z; active : option Transaction }.

Abbreviation txnM := (stM TxnManager string).

Definition manager_new : TxnManager := mkTM 1 None.

Definition begin_txn (c : Catalog SSC TS) : txnM Z := λ m,
  match active m with
  | Some _ => (Err "a transaction is already active (nested transactions not supported)", m)
  | None =>
      let i := next_id m in
      (Ok i, mkTM (wrap_u 64 (next_id m + 1)) (Some (mkTxn i (clone_catalog table_names c) true)))
  end.

Definition commit : txnM (Catalog SSC TS) := λ m,
  match active m with
  | Some t => (Ok (snapshot t), mkTM (next_id m) None)
  | None => (Err "no active transaction to commit", m)
  end.

Definition rollback : txnM () := λ m,
  match active m with
  | Some _ => (Ok tt, mkTM (next_id m) None)
  | None => (Err "no active transaction to rollback", m)
  end.

Definition is_active (m : TxnManager) : bool := match active m with Some _ => true | None => false end.

Lemma begin_ok c m i m' :
  begin_txn c m = (Ok i, m') → active m = None ∧ i = next_id m ∧
  m' = mkTM (wrap_u 64 (next_id m + 1)) (Some (mkTxn i (clone_catalog table_names c) true)).
Proof. unfold begin_txn. destruct (active m); [done|]. by intros [= <- <-]. Qed.

(** a transaction's snapshot is the catalog at BEGIN.  Whatever order the hash map
    yields its tables in, BEGIN on an idle manager succeeds, takes a copy equal to
    the catalog, and COMMIT hands back exactly that catalog; while it runs a second
    BEGIN fails and changes nothing, and after COMMIT or ROLLBACK the manager is idle
    again with a larger next id. *)
Theorem snapshot_is_begin_catalog (c c2 : Catalog SSC TS) (m : TxnManager)
    (Hwf : cat_wf c) (Hidle : active m = None) (Hroom : 0 <= next_id m < 2 ^ 64 - 1) :
  ∃ m1, begin_txn c m = (Ok (next_id m), m1) ∧ is_active m1 = true ∧
    (∃ e, begin_txn c2 m1 = (Err e, m1)) ∧
    (∃ m2, commit m1 = (Ok c, m2) ∧ active m2 = None ∧ next_id m < next_id m2) ∧
    (∃ m2, rollback m1 = (Ok tt, m2) ∧ active m2 = None ∧ next_id m < next_id m2).
Proof.
  unfold begin_txn. rewrite Hidle. eexists. split; [done|]. split; [done|]. simpl.
  assert (next_id m < wrap_u 64 (next_id m + 1)) by (rewrite wrap_u_small; unfold in_u; lia).
  split_and!; [by eexists| |].
  - eexists. unfold commit. simpl. rewrite clone_catalog_eq by done. done.
  - by eexists.
Qed.
End txn.

Definition demo_table : Table unit unit := mkTable [116] [[1; 2]] [[97]] 2 [None] [None] None.

Lemma snapshot_is_begin_catalog_witness :
  let names := λ c : Catalog unit unit, (map_to_list c).*1 in
  let c : Catalog unit unit := {[[116] := demo_table]} in
  ∃ m1, begin_txn names c manager_new = (Ok (next_id (manager_new (SSC := unit) (TS := unit))), m1) ∧ is_active m1 = true ∧
    (∃ e, begin_txn names ∅ m1 = (Err e, m1)) ∧
    (∃ m2, commit m1 = (Ok c, m2) ∧ active m2 = None ∧ next_id (manager_new (SSC := unit) (TS := unit)) < next_id m2) ∧
    (∃ m2, rollback m1 = (Ok tt, m2) ∧ active m2 = None ∧ next_id (manager_new (SSC := unit) (TS := unit)) < next_id m2).
Proof.
  intros names c. apply (snapshot_is_begin_catalog names (λ c, reflexivity _) c ∅ manager_new).
  - intros n t. unfold c. rewrite lookup_singleton. case_decide; [|done]. by intros [= <-].
  - done.
  - simpl; lia.
Defined.
End SnapshotTxn.
