(* ===== verification/Mvcc.v ===== *)
(** * Multi-version concurrency control (src/src/txn/mvcc.rs)

    Row versions, the per-connection transaction manager and the process-wide id
    counter that other connections advance as well. *)

From Stdlib Require Import ZArith Lia.
From stdpp Require Import prelude gmap list numbers strings.
From S2P Require Import Prelude.
Local Open Scope Z_scope.

Module MvccM.

Inductive TxnState := InProgress | Committed | Aborted.
#[global] Instance TxnState_eq_dec : EqDecision TxnState.
Proof. solve_decision. Defined.

Record RowVersion := mkRV { xmin : Z; xmax : Z }.
Definition version_new (t : Z) : RowVersion := mkRV t 0.
Definition version_delete (t : Z) (v : RowVersion) : RowVersion := mkRV (xmin v) t.

Definition state_of (cs : gmap Z TxnState) (t : Z) : TxnState := default InProgress (cs !! t).

(** [RowVersion::is_visible]. *)
Definition version_visible (viewer : Z) (cs : gmap Z TxnState) (v : RowVersion) : bool :=
  let xmin_visible := Z.eqb (xmin v) viewer || bool_decide (state_of cs (xmin v) = Committed) in
  if negb xmin_visible then false
  else if Z.eqb (xmax v) 0 then true
  else
    let xmax_visible := Z.eqb (xmax v) viewer || bool_decide (state_of cs (xmax v) = Committed) in
    negb xmax_visible.

Record MvccTransaction := mkMT { id : Z; snapshot : gset Z }.
Record MvccTxnManager := mkMM { commit_state : gmap Z TxnState; active : option MvccTransaction }.

(** A manager together with the global id counter it shares with the others. *)
Definition St : Type := Z * MvccTxnManager.
Abbreviation mvccM := (stM St string).

Definition manager_new : MvccTxnManager := mkMM ∅ None.

(** The ids that are committed, as the hash map yields them. *)
Definition committed_set (cs : gmap Z TxnState) : gset Z :=
  list_to_set ((filter (λ kv, kv.2 = Committed) (map_to_list cs)).*1).

Definition begin_txn : mvccM Z := λ '(n, m),
  match active m with
  | Some _ => (Err "a transaction is already active (use SAVEPOINT for nested transactions)", (n, m))
  | None =>
      let i := n in
      let snap := committed_set (commit_state m) in
      (Ok i, (wrap_u 64 (n + 1), mkMM (<[i := InProgress]> (commit_state m)) (Some (mkMT i snap))))
  end.

Definition finish (s : TxnState) : mvccM Z := λ '(n, m),
  match active m with
  | Some t => (Ok (id t), (n, mkMM (<[id t := s]> (commit_state m)) None))
  | None => (Err "no active transaction", (n, m))
  end.
Definition commit : mvccM Z := finish Committed.
Definition rollback : mvccM Z := finish Aborted.

Definition is_visible (t : Z) (m : MvccTxnManager) : bool :=
  match active m with
  | Some a =>
      if Z.eqb (id a) t then true
      else match commit_state m !! t with Some Committed => bool_decide (t ∈ snapshot a) | _ => false end
  | None => match commit_state m !! t with Some Committed => true | _ => false end
  end.

Definition is_row_visible (v : RowVersion) (m : MvccTxnManager) : bool :=
  let viewer := match active m with Some a => id a | None => 0 end in
  version_visible viewer (commit_state m) v.

Definition is_active (m : MvccTxnManager) : bool := match active m with Some _ => true | None => false end.
Definition active_id (m : MvccTxnManager) : option Z := id <$> active m.

Definition cleanup_aborted (m : MvccTxnManager) : nat * MvccTxnManager :=
  let cs := filter (λ kv, kv.2 ≠ Aborted) (commit_state m) in
  ((size (commit_state m) - size cs)%nat, mkMM cs (active m)).

(** ** Reachable managers *)

(** One connection's operations, and other connections drawing ids in between.  A
    transaction is begun only while the 64-bit counter has room. *)
Inductive step : St → St → Prop :=
| SBegin n m s' i : n < 2 ^ 64 - 1 → begin_txn (n, m) = (Ok i, s') → step (n, m) s'
| SCommit n m s' i : commit (n, m) = (Ok i, s') → step (n, m) s'
| SRollback n m s' i : rollback (n, m) = (Ok i, s') → step (n, m) s'
| SCleanup n m : step (n, m) (n, (cleanup_aborted m).2)
| SOther n n' m : n <= n' < 2 ^ 64 → step (n, m) (n', m).

Inductive reachable : St → Prop :=
| RInit n : 1 <= n < 2 ^ 64 → reachable (n, manager_new)
| RStep s s' : reachable s → step s s' → reachable s'.

(** Between BEGIN and its end nothing else of this connection commits, so the
    snapshot is the committed set; ids are positive and below the counter. *)
Record inv (s : St) : Prop := {
  iv_pos : 1 <= s.1 < 2 ^ 64;
  iv_ids : ∀ t st, commit_state s.2 !! t = Some st → 0 < t < s.1;
  iv_active : ∀ a, active s.2 = Some a →
    0 < id a < s.1 ∧ commit_state s.2 !! id a = Some InProgress ∧
    snapshot a = committed_set (commit_state s.2);
  iv_progress : ∀ t, commit_state s.2 !! t = Some InProgress → ∃ a, active s.2 = Some a ∧ id a = t
}.

Lemma elem_committed t cs : t ∈ committed_set cs ↔ cs !! t = Some Committed.
Proof.
  unfold committed_set. rewrite elem_of_list_to_set, list_elem_of_fmap. split.
  - intros ([k v] & -> & H). rewrite list_elem_of_filter in H. destruct H as [H1 H2].
    apply elem_of_map_to_list in H2. simpl in *. by subst v.
  - intros H. exists (t, Committed). split; [done|]. apply list_elem_of_filter. split; [done|].
    by apply elem_of_map_to_list.
Qed.

Lemma committed_set_ext cs cs' :
  (∀ t, cs !! t = Some Committed ↔ cs' !! t = Some Committed) → committed_set cs = committed_set cs'.
Proof. intros H. apply leibniz_equiv. intros t. rewrite !elem_committed. apply H. Qed.

Lemma cleanup_lookup m t :
  commit_state (cleanup_aborted m).2 !! t =
  match commit_state m !! t with Some Aborted => None | o => o end.
Proof.
  unfold cleanup_aborted. simpl. rewrite map_lookup_filter.
  destruct (commit_state m !! t) as [[]|]; simpl; try done; by rewrite option_guard_True || by rewrite option_guard_False by naive_solver.
Qed.

Lemma begin_inv n m i s' : inv (n, m) → n < 2 ^ 64 - 1 → begin_txn (n, m) = (Ok i, s') → inv s'.
Proof.
  intros [H1 H2 H3 H4] Hn. unfold begin_txn. simpl in *. destruct (active m) eqn:Ea; [done|].
  intros [= <- <-]. rewrite wrap_u_small by (unfold in_u; lia).
  assert (commit_state m !! n = None) as Hfresh.
  { destruct (commit_state m !! n) eqn:E; [|done]. apply H2 in E. lia. }
  split; simpl; [lia| | |].
  - intros t st. rewrite lookup_insert. case_decide; [intros _; lia|]. intros E. apply H2 in E. lia.
  - intros a [= <-]. simpl. rewrite lookup_insert_eq. split; [lia|]. split; [done|].
    apply committed_set_ext. intros t. rewrite lookup_insert. case_decide as E; [|done]. subst.
    rewrite Hfresh. naive_solver.
  - intros t. rewrite lookup_insert. case_decide as E; [intros _; by eexists|].
    intros Ht. apply H4 in Ht as (a & [=] & _).
Qed.

Lemma finish_inv st n m i s' : inv (n, m) → st ≠ InProgress → finish st (n, m) = (Ok i, s') → inv s'.
Proof.
  intros [H1 H2 H3 H4] Hst. unfold finish. simpl in *. destruct (active m) as [a|] eqn:Ea; [|done].
  intros [= <- <-]. destruct (H3 a eq_refl) as (A1 & A2 & A3). split; simpl; [done| |done|].
  - intros t s. rewrite lookup_insert. case_decide as E; [intros _; lia|]. apply H2.
  - intros t. rewrite lookup_insert. case_decide as E; [naive_solver|]. intros Ht.
    apply H4 in Ht as (a' & [= <-] & <-). done.
Qed.

Lemma cleanup_inv n m : inv (n, m) → inv (n, (cleanup_aborted m).2).
Proof.
  intros [H1 H2 H3 H4]. cbn [fst snd] in *. split; cbn [fst snd]; [done| | |].
  - intros t st. rewrite cleanup_lookup. intros E. apply (H2 t st). destruct (commit_state m !! t) as [[]|]; congruence.
  - intros a Ha. destruct (H3 a Ha) as (A1 & A2 & A3). rewrite cleanup_lookup, A2. split; [done|].
    split; [done|]. rewrite A3. apply committed_set_ext. intros t. rewrite cleanup_lookup.
    destruct (commit_state m !! t) as [[]|]; naive_solver.
  - intros t. rewrite cleanup_lookup. intros E. apply H4. destruct (commit_state m !! t) as [[]|]; congruence.
Qed.

Lemma step_inv s s' : inv s → step s s' → inv s'.
Proof.
  intros H Hs. destruct Hs as [n m s' i Hn E|n m s' i E|n m s' i E|n m|n n' m Hn].
  - by eapply begin_inv.
  - by eapply (finish_inv Committed).
  - by eapply (finish_inv Aborted).
  - by apply cleanup_inv.
  - destruct H as [H1 H2 H3 H4]. simpl in *. split; simpl; [lia| | |done].
    + intros t st Ht. apply H2 in Ht. lia.
    + intros a Ha. destruct (H3 a Ha) as (? & ? & ?). split_and!; [lia|lia|done|done].
Qed.

Lemma reachable_inv s : reachable s → inv s.
Proof.
  induction 1 as [n Hn|s s' _ IH Hs]; [|by eapply step_inv].
  split; simpl; [done| |done|]; intros t; rewrite lookup_empty; done.
Qed.

(** ** Visibility *)

(** The documented rule, from transaction visibility alone. *)
Definition snapshot_visible (v : RowVersion) (m : MvccTxnManager) : bool :=
  is_visible (xmin v) m && (Z.eqb (xmax v) 0 || negb (is_visible (xmax v) m)).

Lemma viewer_visible n m t :
  inv (n, m) → t ≠ 0 →
  Z.eqb t (match active m with Some a => id a | None => 0 end) || bool_decide (state_of (commit_state m) t = Committed)
  = is_visible t m.
Proof.
  intros [H1 H2 H3 H4] Ht. simpl in *. unfold is_visible, state_of. destruct (active m) as [a|] eqn:Ea.
  - destruct (H3 a eq_refl) as (A1 & A2 & A3). rewrite (Z.eqb_sym t).
    destruct (Z.eqb_spec (id a) t); [done|]. simpl.
    destruct (commit_state m !! t) as [[]|] eqn:E; simpl; try done.
    symmetry. apply bool_decide_true. rewrite A3. by apply elem_committed.
  - rewrite (proj2 (Z.eqb_neq t 0)) by done. simpl.
    by destruct (commit_state m !! t) as [[]|].
Qed.

Lemma row_visible_snapshot n m v : inv (n, m) → xmin v ≠ 0 → is_row_visible v m = snapshot_visible v m.
Proof.
  intros Hi Hx. unfold is_row_visible, version_visible, snapshot_visible. rewrite (viewer_visible n) by done.
  destruct (is_visible (xmin v) m); [|done]. simpl. destruct (Z.eqb_spec (xmax v) 0); [done|]. simpl.
  by rewrite (viewer_visible n).
Qed.

(** row visibility is snapshot visibility.  [is_row_visible] looks only at commit
    states, never at the snapshot; in every reachable manager this gives the same
    answer as the documented snapshot rule, because a connection runs one transaction
    at a time and nothing it knows of commits meanwhile. *)
Theorem row_visibility_is_snapshot (n : Z) (m : MvccTxnManager) (v : RowVersion)
    (Hr : reachable (n, m)) (Hx : xmin v ≠ 0) :
  is_row_visible v m = snapshot_visible v m.
Proof. apply (row_visible_snapshot n); [by apply reachable_inv|done]. Qed.

Definition demo_st : St := (3, mkMM {[1 := Committed; 2 := InProgress]} (Some (mkMT 2 {[1]}))).

Lemma demo_reachable : reachable demo_st.
Proof.
  eapply RStep; [eapply RStep; [eapply RStep; [apply (RInit 1); lia|]|]|].
  - eapply (SBegin _ _ _ 1); [lia|]. vm_compute. reflexivity.
  - eapply (SCommit _ _ _ 1). vm_compute. reflexivity.
  - eapply (SBegin _ _ _ 2); [lia|]. vm_compute. reflexivity.
Qed.

Lemma row_visibility_is_snapshot_witness :
  is_row_visible (mkRV 1 2) demo_st.2 = snapshot_visible (mkRV 1 2) demo_st.2.
Proof. apply (row_visibility_is_snapshot 3 demo_st.2 (mkRV 1 2)); [apply demo_reachable|done]. Defined.

Lemma cleanup_visible m v : is_row_visible v (cleanup_aborted m).2 = is_row_visible v m.
Proof.
  assert (∀ t, bool_decide (state_of (commit_state (cleanup_aborted m).2) t = Committed) =
               bool_decide (state_of (commit_state m) t = Committed)) as H.
  { intros t. unfold state_of. rewrite cleanup_lookup. by destruct (commit_state m !! t) as [[]|]. }
  unfold is_row_visible, version_visible. change (active (cleanup_aborted m).2) with (active m).
  by rewrite !H.
Qed.

(** ** What an aborted transaction leaves behind *)

(** [t] is over and did not commit, and its id is spent. *)
Definition dead (t : Z) (s : St) : Prop :=
  0 < t < s.1 ∧ (commit_state s.2 !! t = None ∨ commit_state s.2 !! t = Some Aborted) ∧
  ∀ a, active s.2 = Some a → id a ≠ t.

Lemma dead_step t s s' : inv s → dead t s → step s s' → dead t s'.
Proof.
  intros Hi (D1 & D2 & D3) Hs. destruct Hs as [n m s' i Hn E|n m s' i E|n m s' i E|n m|n n' m Hn];
    cbn [fst snd] in *.
  - unfold begin_txn in E. destruct (active m); [done|]. injection E as <- <-.
    rewrite wrap_u_small by (unfold in_u; lia). split; simpl; [lia|].
    rewrite lookup_insert_ne by lia. split; [done|]. intros a [= <-]. simpl. lia.
  - unfold commit, finish in E. destruct (active m) as [a|] eqn:Ea; [|done]. injection E as <- <-.
    split; simpl; [lia|]. rewrite lookup_insert_ne by (by apply D3). done.
  - unfold rollback, finish in E. destruct (active m) as [a|] eqn:Ea; [|done]. injection E as <- <-.
    split; simpl; [lia|]. rewrite lookup_insert_ne by (by apply D3). done.
  - split; [done|]. cbn [snd]. rewrite cleanup_lookup. split; [|done]. destruct D2 as [->| ->]; auto.
  - split; simpl; [lia|done].
Qed.

Lemma dead_steps t s s' : inv s → dead t s → rtc step s s' → inv s' ∧ dead t s'.
Proof.
  intros Hi Hd H. revert Hi Hd. induction H as [|s s1 s2 H1 H2 IH]; intros Hi Hd; [done|].
  apply IH; [by eapply step_inv|by eapply dead_step].
Qed.

Lemma dead_invisible t s : inv s → dead t s → is_visible t s.2 = false.
Proof.
  intros Hi (D1 & D2 & D3). unfold is_visible. destruct (active s.2) as [a|] eqn:Ea.
  - rewrite (proj2 (Z.eqb_neq _ _)) by (by apply D3). by destruct D2 as [->| ->].
  - by destruct D2 as [->| ->].
Qed.

(** ROLLBACK undoes everything for good.  Once a transaction is rolled back, then
    in every later state of the manager (further transactions, cleanups, ids drawn by
    other connections) the row versions it created are invisible, and the rows it
    deleted are visible exactly as if they had never been deleted. *)
Theorem rollback_is_final (n : Z) (m : MvccTxnManager) (t : Z) (s1 s2 : St) (v : RowVersion)
    (Hr : reachable (n, m)) (Hroll : rollback (n, m) = (Ok t, s1)) (Hlater : rtc step s1 s2)
    (Hx : xmin v ≠ 0) :
  is_row_visible (mkRV t (xmax v)) s2.2 = false ∧
  is_row_visible (mkRV (xmin v) t) s2.2 = is_row_visible (mkRV (xmin v) 0) s2.2.
Proof.
  pose proof (reachable_inv _ Hr) as Hi.
  assert (inv s1) as Hi1 by (by eapply (finish_inv Aborted)).
  assert (dead t s1) as Hd1.
  { unfold rollback, finish in Hroll. destruct (active m) as [a|] eqn:Ea; [|done].
    injection Hroll as <- <-. destruct (iv_active _ Hi a Ea) as (A1 & _). simpl in A1.
    split; simpl; [lia|]. rewrite lookup_insert_eq. split; [auto|done]. }
  destruct (dead_steps t s1 s2 Hi1 Hd1 Hlater) as [Hi2 Hd2].
  pose proof (dead_invisible t s2 Hi2 Hd2) as Hinv. destruct s2 as [n2 m2]. cbn [snd] in *.
  assert (t ≠ 0) as Ht by (destruct Hd2 as [? _]; simpl in *; lia).
  rewrite !(row_visible_snapshot n2) by done. unfold snapshot_visible. cbn [xmin xmax].
  rewrite Hinv. split; [done|]. simpl. by rewrite orb_true_r.
Qed.

Lemma rollback_is_final_witness :
  is_row_visible (mkRV 2 0) (4, mkMM {[1 := Committed; 2 := Aborted; 3 := InProgress]} (Some (mkMT 3 {[1]}))).2 = false ∧
  is_row_visible (mkRV 1 2) (4, mkMM {[1 := Committed; 2 := Aborted; 3 := InProgress]} (Some (mkMT 3 {[1]}))).2 =
  is_row_visible (mkRV 1 0) (4, mkMM {[1 := Committed; 2 := Aborted; 3 := InProgress]} (Some (mkMT 3 {[1]}))).2.
Proof.
  apply (rollback_is_final 3 demo_st.2 2 (3, mkMM {[1 := Committed; 2 := Aborted]} None)
           (4, mkMM {[1 := Committed; 2 := Aborted; 3 := InProgress]} (Some (mkMT 3 {[1]}))) (mkRV 1 0)).
  - apply demo_reachable.
  - vm_compute. reflexivity.
  - eapply rtc_l; [|apply rtc_refl]. eapply (SBegin _ _ _ 3); [lia|]. vm_compute. reflexivity.
  - done.
Defined.

(** cleaning up aborted transactions changes no row's visibility, for every row
    version and every manager. *)
Theorem cleanup_preserves_visibility (m : MvccTxnManager) (v : RowVersion) :
  is_row_visible v (cleanup_aborted m).2 = is_row_visible v m ∧
  is_visible (xmin v) (cleanup_aborted m).2 = is_visible (xmin v) m.
Proof.
  split; [apply cleanup_visible|]. unfold is_visible.
  change (active (cleanup_aborted m).2) with (active m).
  rewrite cleanup_lookup. by destruct (active m), (commit_state m !! xmin v) as [[]|].
Qed.

End MvccM.
