(* ===== verification/Lexer.v ===== *)
(** * The SQL tokenizer (src/src/sql/lexer.rs)

    Input is a list of Unicode code points.  The classification and the upper-casing
    of code points from 128 on are those of Rust's standard library: [uni_alnum] and
    [uni_upper], parameters; below 128 they are written out.  A float token carries
    its text (the code stores the double nearest to it). *)

From Stdlib Require Import ZArith Lia Ascii String.
From stdpp Require Import prelude list numbers.
From S2P Require Import Prelude.
Local Open Scope Z_scope.

Module LexerM.

Abbreviation text := (list Z).

Fixpoint chars_of (s : string) : text :=
  match s with
  | EmptyString => []
  | String a s => Z.of_N (N_of_ascii a) :: chars_of s
  end.

Definition KEYWORDS : list text := chars_of <$> ([
  "SELECT"; "FROM"; "WHERE"; "GROUP"; "BY"; "ORDER"; "JOIN"; "ON"; "LIKE"; "DATE"; "TIMESTAMP";
  "INTERVAL"; "EXTRACT"; "CASE"; "WHEN"; "THEN"; "ELSE"; "END"; "DISTINCT"; "INSERT"; "UPDATE";
  "DELETE"; "BEGIN"; "TRANSACTION"; "COMMIT"; "AND"; "OR"; "NOT"; "AS"; "APPROXIMATE"; "WITHIN";
  "CONFIDENCE"; "TIER"; "SIMILAR"; "TO"; "HAMMING"; "DISTANCE"; "CONSISTENCY"; "SCOPE"; "RACK";
  "GLOBAL"; "ASYNC"; "USING"; "MEMORY"; "BUDGET"; "ENERGY"; "JOULES"; "CONTINUOUS"; "HAVING";
  "OUTER"; "LEFT"; "INNER"; "QUERY"; "CREATE"; "TABLE"; "DROP"; "IF"; "EXISTS"; "INT"; "INTEGER";
  "BIGINT"; "SMALLINT"; "TINYINT"; "VARCHAR"; "NVARCHAR"; "TEXT"; "FLOAT"; "REAL"; "DECIMAL";
  "NUMERIC"; "BIT"; "BOOLEAN"; "JSON"; "UUID"; "BYTEA"; "ENUM"; "NULL"; "DEFAULT"; "PRIMARY";
  "KEY"; "REFERENCES"; "IDENTITY"; "NOT"; "SCHEMA"; "ALTER"; "ROLLBACK"; "ADD"; "COLUMN"; "TYPE";
  "INDEX"; "CAST"; "YEAR"; "MONTH"; "DAY"; "HOUR"; "MINUTE"; "SECOND"; "VALUES"; "SET"; "INTO";
  "OUTPUT"; "WITH"; "UNION"; "RECURSIVE"; "ALL"; "OPTION"; "MAXRECURSION"; "OVER"; "PARTITION";
  "ROWS"; "RANGE"; "PRECEDING"; "FOLLOWING"; "CURRENT"; "ROW"; "NUMBER"; "BETWEEN"; "IN"; "IS"
]%string).

Inductive Token :=
| Keyword (s : text) | Ident (s : text) | Int (i : Z) | Float (s : text) | Str (s : text)
| Hex (b : list Z) | Op (s : text) | LParen | RParen | Comma | Semicolon | EOF.

#[global] Instance Token_eq_dec : EqDecision Token.
Proof. solve_decision. Defined.

Inductive LexError :=
| ELoneBang | EUnterminatedString | EUnterminatedHex | EHexOdd (n : nat) | EHexChar (c : Z)
| EBadFloat (s : text) | EBadInt (s : text) | EUnexpected (c : Z).

(** Character codes. *)
Definition QUOTE : Z := 39.
Definition DOT : Z := 46.
Definition in_range (lo hi c : Z) : bool := Z.leb lo c && Z.leb c hi.
Definition is_digit (c : Z) : bool := in_range 48 57 c.
Definition is_lower (c : Z) : bool := in_range 97 122 c.
Definition is_upper (c : Z) : bool := in_range 65 90 c.
Definition is_hexdigit (c : Z) : bool := is_digit c || in_range 97 102 c || in_range 65 70 c.
Definition is_space (c : Z) : bool := Z.eqb c 32 || Z.eqb c 9 || Z.eqb c 10 || Z.eqb c 13.

Definition peek_is (c : Z) (cs : text) : bool := match cs with d :: _ => Z.eqb d c | [] => false end.

Section lexer.
Context (uni_alnum : Z → bool) (uni_upper : Z → list Z).

Definition is_alphanumeric (c : Z) : bool :=
  if Z.ltb c 128 then is_digit c || is_lower c || is_upper c else uni_alnum c.
Definition char_upper (c : Z) : list Z :=
  if Z.ltb c 128 then [if is_lower c then c - 32 else c] else uni_upper c.
Definition to_uppercase (s : text) : text := concat (char_upper <$> s).

(** Each reader returns what it read and the characters left. *)
Fixpoint read_identifier (cs : text) : text * text :=
  match cs with
  | c :: cs' =>
      if is_alphanumeric c || Z.eqb c 95 then
        let '(s, rest) := read_identifier cs' in (c :: s, rest)
      else ([], cs)
  | [] => ([], [])
  end.

Definition push_word (word : text) : Token :=
  let upper := to_uppercase word in
  if bool_decide (upper ∈ KEYWORDS) then Keyword upper else Ident word.

Fixpoint read_string_literal (cs : text) : result LexError (text * text) :=
  match cs with
  | [] => Err EUnterminatedString
  | c :: cs =>
      if Z.eqb c QUOTE then
        match cs with
        | d :: cs' =>
            if Z.eqb d QUOTE then
              match read_string_literal cs' with
              | Ok (s, rest) => Ok (QUOTE :: s, rest)
              | Err e => Err e
              end
            else Ok ([], cs)
        | [] => Ok ([], cs)
        end
      else
        match read_string_literal cs with
        | Ok (s, rest) => Ok (c :: s, rest)
        | Err e => Err e
        end
  end.

(** The digits up to the closing quote. *)
Fixpoint read_hex_digits (cs : text) : result LexError (text * text) :=
  match cs with
  | [] => Err EUnterminatedHex
  | c :: cs =>
      if Z.eqb c QUOTE then Ok ([], cs)
      else if is_hexdigit c then
        match read_hex_digits cs with
        | Ok (s, rest) => Ok (c :: s, rest)
        | Err e => Err e
        end
      else Err (EHexChar c)
  end.

(** [u8::from_str_radix(_, 16)] of one digit. *)
Definition hex_value (c : Z) : Z :=
  if is_digit c then c - 48 else if in_range 97 102 c then c - 87 else c - 55.

Fixpoint decode_hex (s : text) : list Z :=
  match s with
  | a :: b :: s => (16 * hex_value a + hex_value b) :: decode_hex s
  | _ => []
  end.

Definition read_hex_literal (cs : text) : result LexError (list Z * text) :=
  match read_hex_digits cs with
  | Err e => Err e
  | Ok (s, rest) =>
      if Nat.even (length s) then Ok (decode_hex s, rest) else Err (EHexOdd (length s))
  end.

(** Digits and dots; whether a dot was seen. *)
Fixpoint read_mantissa (cs : text) : text * bool * text :=
  match cs with
  | c :: cs' =>
      if is_digit c then let '(s, f, rest) := read_mantissa cs' in (c :: s, f, rest)
      else if Z.eqb c DOT then let '(s, _, rest) := read_mantissa cs' in (c :: s, true, rest)
      else ([], false, cs)
  | [] => ([], false, [])
  end.

Fixpoint read_digits (cs : text) : text * text :=
  match cs with
  | c :: cs' => if is_digit c then let '(s, rest) := read_digits cs' in (c :: s, rest) else ([], cs)
  | [] => ([], [])
  end.

(** The exponent, if one follows; whether there was one. *)
Definition read_exponent (cs : text) : text * bool * text :=
  match cs with
  | e :: cs' =>
      if Z.eqb e 101 || Z.eqb e 69 then
        let '(sign, cs') := match cs' with
                            | g :: r => if Z.eqb g 43 || Z.eqb g 45 then ([g], r) else ([], cs')
                            | [] => ([], cs')
                            end in
        let '(ds, rest) := read_digits cs' in
        (e :: sign ++ ds, true, rest)
      else ([], false, cs)
  | [] => ([], false, [])
  end.

(** [str::parse::<i64>] of a digit string. *)
Definition digits_value (s : text) : Z := fold_left (λ a c, 10 * a + (c - 48)) s 0.
Definition parse_i64 (s : text) : option Z :=
  match s with
  | [] => None
  | _ => if Z.leb (digits_value s) (2 ^ 63 - 1) then Some (digits_value s) else None
  end.

(** The texts [str::parse::<f64>] accepts among those the reader can collect: digits
    with at most one dot and at least one digit, then an optional exponent with at
    least one digit. *)
Definition float_ok (s : text) : bool :=
  let '(d1, r) := read_digits s in
  let '(d2, r) := match r with c :: r' => if Z.eqb c DOT then read_digits r' else ([], r) | [] => ([], r) end in
  let mant := negb (Nat.eqb (length d1 + length d2) 0) in
  match r with
  | [] => mant
  | e :: r =>
      (Z.eqb e 101 || Z.eqb e 69) && mant &&
      (let r := match r with g :: r' => if Z.eqb g 43 || Z.eqb g 45 then r' else r | [] => r end in
       let '(d3, r) := read_digits r in
       negb (Nat.eqb (length d3) 0) && match r with [] => true | _ => false end)
  end.

Definition read_number (cs : text) : result LexError (Token * nat * text) :=
  let '(m, dot, rest) := read_mantissa cs in
  let '(x, exp, rest) := read_exponent rest in
  let s := m ++ x in
  if dot || exp then
    (if float_ok s then Ok (Float s, length s, rest) else Err (EBadFloat s))
  else
    match parse_i64 s with
    | Some i => Ok (Int i, length s, rest)
    | None => Err (EBadInt s)
    end.

(** One turn of the main loop: the token produced, if any, and the characters left. *)
Definition lex_step (c : Z) (cs : text) : result LexError (option Token * text) :=
  let rest := c :: cs in
  if is_space c then Ok (None, cs)
  else if Z.eqb c 40 then Ok (Some LParen, cs)
  else if Z.eqb c 41 then Ok (Some RParen, cs)
  else if Z.eqb c 44 then Ok (Some Comma, cs)
  else if Z.eqb c 59 then Ok (Some Semicolon, cs)
  else if Z.eqb c 61 then Ok (Some (Op [61]), cs)
  else if Z.eqb c 33 then
    (if peek_is 61 cs then Ok (Some (Op [33; 61]), tail cs) else Err ELoneBang)
  else if Z.eqb c 60 then
    (if peek_is 61 cs then Ok (Some (Op [60; 61]), tail cs)
     else if peek_is 62 cs then Ok (Some (Op [60; 62]), tail cs)
     else Ok (Some (Op [60]), cs))
  else if Z.eqb c 62 then
    (if peek_is 61 cs then Ok (Some (Op [62; 61]), tail cs) else Ok (Some (Op [62]), cs))
  else if Z.eqb c 43 || Z.eqb c 45 || Z.eqb c 42 || Z.eqb c 47 then Ok (Some (Op [c]), cs)
  else if Z.eqb c QUOTE then
    match read_string_literal cs with Ok (s, r) => Ok (Some (Str s), r) | Err e => Err e end
  else if is_digit c then
    match read_number rest with Ok (t, _, r) => Ok (Some t, r) | Err e => Err e end
  else if Z.eqb c DOT then
    (match cs with
     | d :: _ =>
         if is_digit d then
           match read_number rest with Ok (t, _, r) => Ok (Some t, r) | Err e => Err e end
         else Ok (Some (Op [DOT]), cs)
     | [] => Ok (Some (Op [DOT]), cs)
     end)
  else if Z.eqb c 120 || Z.eqb c 88 then
    (if peek_is QUOTE cs then
       match read_hex_literal (tail cs) with Ok (b, r) => Ok (Some (Hex b), r) | Err e => Err e end
     else let '(s, r) := read_identifier rest in Ok (Some (push_word s), r))
  else if is_lower c || is_upper c || Z.eqb c 95 then
    let '(s, r) := read_identifier rest in Ok (Some (push_word s), r)
  else Err (EUnexpected c).

(** The main loop; [None] would mean the fuel ran out, which [tokenize_total] excludes. *)
Fixpoint lex_loop (fuel : nat) (cs : text) : option (result LexError (list Token)) :=
  match fuel with
  | O => None
  | S fuel =>
      match cs with
      | [] => Some (Ok [EOF])
      | c :: cs =>
          match lex_step c cs with
          | Err e => Some (Err e)
          | Ok (t, rest) =>
              match lex_loop fuel rest with
              | Some (Ok ts) => Some (Ok (match t with Some t => t :: ts | None => ts end))
              | r => r
              end
          end
      end
  end.

Definition tokenize (input : text) : option (result LexError (list Token)) := lex_loop (S (length input)) input.

(** ** Termination *)

Definition id_char (c : Z) : bool := is_alphanumeric c || Z.eqb c 95.

Lemma read_identifier_len cs : (length (read_identifier cs).2 <= length cs)%nat.
Proof.
  induction cs as [|c cs IH]; simpl; [done|]. destruct (is_alphanumeric c || Z.eqb c 95); [|simpl; lia].
  destruct (read_identifier cs) as [s r]. simpl in *. lia.
Qed.

Lemma read_string_len cs : ∀ s r, read_string_literal cs = Ok (s, r) → (length r <= length cs)%nat.
Proof.
  induction cs as [cs IH] using (induction_ltof1 _ (@length Z)). unfold ltof in IH.
  intros s r. destruct cs as [|c cs]; [done|]. cbn [read_string_literal].
  destruct (Z.eqb c QUOTE).
  - destruct cs as [|d cs']; [intros [= <- <-]; simpl; lia|]. destruct (Z.eqb d QUOTE).
    + destruct (read_string_literal cs') as [[s' r']|e] eqn:E; [|done]. intros [= <- <-].
      apply IH in E; simpl in *; lia.
    + intros [= <- <-]. simpl. lia.
  - destruct (read_string_literal cs) as [[s' r']|e] eqn:E; [|done]. intros [= <- <-].
    apply IH in E; simpl in *; lia.
Qed.

Lemma read_hex_len cs s r : read_hex_digits cs = Ok (s, r) → (length r <= length cs)%nat.
Proof.
  revert s r; induction cs as [|c cs IH]; intros s r; simpl; [done|].
  destruct (Z.eqb c QUOTE); [intros [= <- <-]; lia|]. destruct (is_hexdigit c); [|done].
  destruct (read_hex_digits cs) as [[s' r']|e]; [|done]. intros [= <- <-]. specialize (IH _ _ eq_refl). lia.
Qed.

Lemma read_digits_len cs : (length (read_digits cs).2 <= length cs)%nat.
Proof.
  induction cs as [|c cs IH]; simpl; [done|]. destruct (is_digit c); [|simpl; lia].
  destruct (read_digits cs). simpl in *. lia.
Qed.

Lemma read_mantissa_len cs : (length (read_mantissa cs).2 <= length cs)%nat.
Proof.
  induction cs as [|c cs IH]; simpl; [done|].
  destruct (is_digit c), (Z.eqb c DOT), (read_mantissa cs) as [[s f] r]; simpl in *; lia.
Qed.

Lemma read_exponent_len cs : (length (read_exponent cs).2 <= length cs)%nat.
Proof.
  destruct cs as [|e cs]; simpl; [done|]. destruct (Z.eqb e 101 || Z.eqb e 69); [|simpl; lia].
  assert (∀ l, (length (let '(ds, rest) := read_digits l in (ds, rest)).2 <= length l)%nat) as H.
  { intros l. pose proof (read_digits_len l). by destruct (read_digits l). }
  destruct cs as [|g cs]; simpl; [lia|].
  destruct (Z.eqb g 43 || Z.eqb g 45); simpl.
  - pose proof (read_digits_len cs). destruct (read_digits cs). simpl in *. lia.
  - pose proof (read_digits_len (g :: cs)) as Hl. simpl in Hl.
    destruct (if is_digit g then _ else _) as [x y]. simpl in *. lia.
Qed.

(** A number takes at least the digit or dot it starts with. *)
Lemma read_number_len c cs t n r :
  is_digit c = true ∨ Z.eqb c DOT = true → read_number (c :: cs) = Ok (t, n, r) → (length r <= length cs)%nat.
Proof.
  intros Hc. unfold read_number.
  assert (length (read_mantissa (c :: cs)).2 <= length cs)%nat as Hm.
  { simpl. pose proof (read_mantissa_len cs). destruct (is_digit c).
    - destruct (read_mantissa cs) as [[]]. simpl in *. lia.
    - destruct Hc as [|Hc]; [done|]. rewrite Hc. destruct (read_mantissa cs) as [[]]. simpl in *. lia. }
  destruct (read_mantissa (c :: cs)) as [[m dot] r1]. simpl in Hm.
  pose proof (read_exponent_len r1) as He. destruct (read_exponent r1) as [[x ex] r2]. simpl in He.
  destruct (dot || ex).
  - destruct (float_ok (m ++ x)); [|done]. intros [= _ _ <-]. lia.
  - destruct (parse_i64 (m ++ x)); [|done]. intros [= _ _ <-]. lia.
Qed.

Lemma read_identifier_head c cs :
  id_char c = true → (length (read_identifier (c :: cs)).2 <= length cs)%nat.
Proof.
  intros Hc. cbn [read_identifier]. unfold id_char in Hc. rewrite Hc.
  pose proof (read_identifier_len cs). destruct (read_identifier cs). done.
Qed.

Lemma letter_id_char c : is_lower c || is_upper c || Z.eqb c 95 = true → id_char c = true.
Proof.
  unfold id_char, is_alphanumeric, is_lower, is_upper, in_range. intros H.
  destruct (Z.ltb_spec c 128).
  - destruct (Z.leb 97 c && Z.leb c 122), (Z.leb 65 c && Z.leb c 90), (Z.eqb c 95);
      rewrite ?orb_true_r; simpl in *; try done.
  - apply orb_prop in H as [H|H]; [|apply Z.eqb_eq in H; lia].
    apply orb_prop in H as [H|H]; apply andb_prop in H as [H1 H2];
      apply Z.leb_le in H1, H2; lia.
Qed.

(** Every turn of the loop consumes a character. *)
Lemma lex_step_len c cs t r : lex_step c cs = Ok (t, r) → (length r <= length cs)%nat.
Proof.
  assert (length (tail cs) <= length cs)%nat as Htl by (destruct cs; simpl; lia).
  assert (∀ s r', read_identifier (c :: cs) = (s, r') → is_lower c || is_upper c || Z.eqb c 95 = true →
            (length r' <= length cs)%nat) as Hid.
  { intros s r' E H. pose proof (read_identifier_head c cs (letter_id_char c H)) as Hl. by rewrite E in Hl. }
  unfold lex_step.
  repeat match goal with
         | |- (if ?b then _ else _) = _ → _ => destruct b eqn:?
         end; try first [done|intros [= _ <-]; lia].
  - destruct (read_string_literal cs) as [[s r']|e] eqn:E; [|done]. intros [= _ <-]. by eapply read_string_len.
  - destruct (read_number (c :: cs)) as [[[t' n] r']|e] eqn:E; [|done]. intros [= _ <-].
    eapply read_number_len; [|exact E]. auto.
  - destruct cs as [|d cs]; [intros [= _ <-]; simpl; lia|]. destruct (is_digit d).
    + destruct (read_number (c :: d :: cs)) as [[[t' n] r']|e] eqn:E; [|done]. intros [= _ <-].
      eapply read_number_len; [|exact E]. auto.
    + intros [= _ <-]. lia.
  - unfold read_hex_literal. destruct (read_hex_digits (tail cs)) as [[s r']|e] eqn:E; [|done].
    apply read_hex_len in E. destruct (Nat.even (length s)); [|done]. intros [= _ <-]. lia.
  - destruct (read_identifier (c :: cs)) as [s r'] eqn:E. intros [= _ <-]. eapply Hid; [done|].
    match goal with H : Z.eqb c 120 || Z.eqb c 88 = true |- _ =>
      apply orb_prop in H as [H|H]; apply Z.eqb_eq in H; by subst end.
  - destruct (read_identifier (c :: cs)) as [s r'] eqn:E. intros [= _ <-]. by eapply Hid.
Qed.

Lemma lex_loop_total fuel cs : (length cs < fuel)%nat → is_Some (lex_loop fuel cs).
Proof.
  revert cs; induction fuel as [|fuel IH]; intros cs Hf; [lia|]. cbn [lex_loop].
  destruct cs as [|c cs]; [eauto|]. destruct (lex_step c cs) as [[t r]|e] eqn:E; [|eauto].
  apply lex_step_len in E. simpl in Hf. destruct (IH r) as [x Hx]; [lia|]. rewrite Hx.
  destruct x; eauto.
Qed.

Lemma read_number_not_eof cs t n r : read_number cs = Ok (t, n, r) → t ≠ EOF.
Proof.
  unfold read_number. destruct (read_mantissa cs) as [[m dot] r1], (read_exponent r1) as [[x ex] r2].
  destruct (dot || ex).
  - destruct (float_ok (m ++ x)); [|done]. by intros [= <- _ _].
  - destruct (parse_i64 (m ++ x)); [|done]. by intros [= <- _ _].
Qed.

Lemma push_word_not_eof w : push_word w ≠ EOF.
Proof. unfold push_word. by destruct (bool_decide _). Qed.

Lemma lex_step_not_eof c cs t r : lex_step c cs = Ok (Some t, r) → t ≠ EOF.
Proof.
  unfold lex_step.
  repeat match goal with
         | |- (if ?b then _ else _) = _ → _ => destruct b
         end; try first [done|intros [= <- _]; done].
  - destruct (read_string_literal cs) as [[s r']|e]; [|done]. by intros [= <- _].
  - destruct (read_number (c :: cs)) as [[[t' n] r']|e] eqn:E; [|done]. intros [= <- _].
    by eapply read_number_not_eof.
  - destruct cs as [|d cs]; [by intros [= <- _]|]. destruct (is_digit d); [|by intros [= <- _]].
    destruct (read_number (c :: d :: cs)) as [[[t' n] r']|e] eqn:E; [|done]. intros [= <- _].
    by eapply read_number_not_eof.
  - destruct (read_hex_literal (tail cs)) as [[s r']|e]; [|done]. by intros [= <- _].
  - destruct (read_identifier (c :: cs)) as [s r']. intros [= <- _]. apply push_word_not_eof.
  - destruct (read_identifier (c :: cs)) as [s r']. intros [= <- _]. apply push_word_not_eof.
Qed.

Lemma lex_loop_eof fuel cs ts :
  lex_loop fuel cs = Some (Ok ts) → ∃ ts', ts = ts' ++ [EOF] ∧ EOF ∉ ts'.
Proof.
  assert (∀ c cs t r, lex_step c cs = Ok (Some t, r) → t ≠ EOF) as Hne.
  { intros c cs0 t r. apply lex_step_not_eof. }
  revert cs ts; induction fuel as [|fuel IH]; intros cs ts; cbn [lex_loop]; [done|].
  destruct cs as [|c cs].
  { intros [= <-]. exists []. split; [done|]. apply not_elem_of_nil. }
  destruct (lex_step c cs) as [[t r]|e] eqn:E; [|done].
  destruct (lex_loop fuel r) as [[ts0|e]|] eqn:El; [|done..]. intros [= <-].
  destruct (IH _ _ El) as (ts' & -> & Hn). destruct t as [t|].
  - exists (t :: ts'). split; [done|]. rewrite elem_of_cons. intros [H|H]; [|done].
    by eapply Hne; [exact E|].
  - by exists ts'.
Qed.

(** the tokenizer is total.  On every input it returns tokens or an error within
    one turn per character, and a successful stream ends with the end-of-input token,
    which occurs nowhere else. *)
Theorem tokenize_total (input : text) :
  (∃ ts, tokenize input = Some (Ok (ts ++ [EOF])) ∧ EOF ∉ ts) ∨ (∃ e, tokenize input = Some (Err e)).
Proof.
  destruct (lex_loop_total (S (length input)) input) as [[ts|e] H]; [lia| |].
  - left. destruct (lex_loop_eof _ _ _ H) as (ts' & -> & Hn). exists ts'. by split.
  - right. by exists e.
Qed.

(** ** Printing tokens *)

(** Decimal digits; [fuel] bounds their number. *)
Fixpoint dec (fuel : nat) (n : Z) : text :=
  match fuel with
  | O => []
  | S fuel => if Z.ltb n 10 then [48 + n] else dec fuel (n / 10) ++ [48 + n mod 10]
  end.

Definition hex_digit (v : Z) : Z := if Z.ltb v 10 then 48 + v else 87 + v.
Definition encode_hex (b : list Z) : text := concat ((λ x, [hex_digit (x / 16); hex_digit (x mod 16)]) <$> b).
Definition escape (s : text) : text := concat ((λ c, if Z.eqb c QUOTE then [QUOTE; QUOTE] else [c]) <$> s).

Definition OPS : list text :=
  [[61]; [33; 61]; [60]; [62]; [60; 61]; [62; 61]; [60; 62]; [43]; [45]; [42]; [47]; [46]].

Definition render (t : Token) : text :=
  match t with
  | Keyword s | Ident s | Float s | Op s => s
  | Int i => dec 19 i
  | Str s => QUOTE :: escape s ++ [QUOTE]
  | Hex b => 120 :: QUOTE :: encode_hex b ++ [QUOTE]
  | LParen => [40] | RParen => [41] | Comma => [44] | Semicolon => [59]
  | EOF => []
  end.

(** The tokens a statement can consist of. *)
Definition tok_wf (t : Token) : Prop :=
  match t with
  | Keyword s => s ∈ KEYWORDS
  | Ident s => ∃ c w, s = c :: w ∧ is_lower c || is_upper c || Z.eqb c 95 = true ∧
                      Forall (λ c, id_char c = true) w ∧ to_uppercase s ∉ KEYWORDS
  | Int i => 0 <= i < 2 ^ 63
  | Float s => ∃ c d1 d2, s = (c :: d1) ++ DOT :: d2 ∧ Forall (λ c, is_digit c = true) (c :: d1) ∧
                          Forall (λ c, is_digit c = true) d2
  | Str _ => True
  | Hex b => bytes_ok b
  | Op s => s ∈ OPS
  | LParen | RParen | Comma | Semicolon => True
  | EOF => False
  end.

(** ** Readers undo the printers *)
Lemma id_char_space : id_char 32 = false.
Proof. done. Qed.

Lemma read_identifier_app w rest :
  Forall (λ c, id_char c = true) w → read_identifier (w ++ 32 :: rest) = (w, 32 :: rest).
Proof.
  induction 1 as [|c w Hc Hw IH]; [done|]. cbn [read_identifier app]. unfold id_char in Hc.
  by rewrite Hc, IH.
Qed.

Lemma read_string_escape s rest :
  read_string_literal (escape s ++ QUOTE :: 32 :: rest) = Ok (s, 32 :: rest).
Proof.
  induction s as [|c s IH]; [done|]. unfold escape. cbn [fmap list_fmap concat].
  fold (escape s). destruct (Z.eqb_spec c QUOTE) as [->|Hc].
  - cbn [app read_string_literal]. rewrite Z.eqb_refl, IH. done.
  - cbn [app read_string_literal]. rewrite (proj2 (Z.eqb_neq _ _)) by done. by rewrite IH.
Qed.

Lemma hex_digit_spec v :
  0 <= v < 16 → is_hexdigit (hex_digit v) = true ∧ hex_value (hex_digit v) = v ∧ hex_digit v ≠ QUOTE.
Proof.
  intros Hv. assert (∀ n, (n < 16)%nat → let v := Z.of_nat n in
    is_hexdigit (hex_digit v) && Z.eqb (hex_value (hex_digit v)) v && negb (Z.eqb (hex_digit v) QUOTE) = true) as H.
  { intros n Hn. by apply (seq_forallb (λ n, let v := Z.of_nat n in
      is_hexdigit (hex_digit v) && Z.eqb (hex_value (hex_digit v)) v && negb (Z.eqb (hex_digit v) QUOTE)) 16). }
  specialize (H (Z.to_nat v)). rewrite Z2Nat.id in H by lia.
  destruct (andb_prop _ _ (H ltac:(lia))) as [[H1 H2]%andb_prop H3].
  apply Z.eqb_eq in H2. apply negb_true_iff, Z.eqb_neq in H3. done.
Qed.

Lemma read_hex_encode b rest :
  bytes_ok b → read_hex_digits (encode_hex b ++ QUOTE :: rest) = Ok (encode_hex b, rest).
Proof.
  induction 1 as [|x b Hx Hb IH]; [done|]. unfold encode_hex. cbn [fmap list_fmap concat].
  fold (encode_hex b). unfold byte_ok in Hx.
  destruct (hex_digit_spec (x / 16)) as (A1 & _ & A3);
    [split; [apply Z.div_pos; lia|apply Z.div_lt_upper_bound; lia]|].
  destruct (hex_digit_spec (x mod 16)) as (B1 & _ & B3); [apply Z.mod_pos_bound; lia|].
  cbn [app read_hex_digits]. rewrite (proj2 (Z.eqb_neq _ _) A3), A1, (proj2 (Z.eqb_neq _ _) B3), B1, IH. done.
Qed.

Lemma decode_encode_hex b : bytes_ok b → decode_hex (encode_hex b) = b ∧ Nat.even (length (encode_hex b)) = true.
Proof.
  induction 1 as [|x b Hx Hb [IH1 IH2]]; [done|]. unfold encode_hex. cbn [fmap list_fmap concat].
  fold (encode_hex b). unfold byte_ok in Hx.
  destruct (hex_digit_spec (x / 16)) as (_ & A2 & _);
    [split; [apply Z.div_pos; lia|apply Z.div_lt_upper_bound; lia]|].
  destruct (hex_digit_spec (x mod 16)) as (_ & B2 & _); [apply Z.mod_pos_bound; lia|].
  cbn [app decode_hex]. rewrite A2, B2, IH1. split; [|exact IH2].
  f_equal. pose proof (Z.div_mod x 16). lia.
Qed.

Lemma digit_range c : is_digit c = true ↔ 48 <= c <= 57.
Proof. unfold is_digit, in_range. rewrite andb_true_iff, !Z.leb_le. lia. Qed.

Lemma dec_digits fuel n : 0 <= n < 10 ^ Z.of_nat fuel → (0 < fuel)%nat →
  Forall (λ c, is_digit c = true) (dec fuel n) ∧ digits_value (dec fuel n) = n ∧ dec fuel n ≠ [].
Proof.
  revert n; induction fuel as [|fuel IH]; intros n Hn Hf; [lia|].
  rewrite Nat2Z.inj_succ, Z.pow_succ_r in Hn by lia. cbn [dec].
  destruct (Z.ltb_spec n 10) as [Hlt|Hge].
  - split_and!; [|unfold digits_value; cbn [fold_left]; lia|done].
    constructor; [|constructor]. apply digit_range. lia.
  - destruct (IH (n / 10)) as (H1 & H2 & H3).
    { split; [apply Z.div_pos; lia|apply Z.div_lt_upper_bound; lia]. }
    { destruct fuel; simpl in Hn; lia. }
    pose proof (Z.mod_pos_bound n 10). pose proof (Z.div_mod n 10). split_and!.
    + apply Forall_app; split; [done|]. constructor; [|constructor]. apply digit_range. lia.
    + unfold digits_value in *. rewrite fold_left_app, H2. cbn [fold_left]. lia.
    + by destruct (dec fuel (n / 10)).
Qed.

Lemma is_digit_space : is_digit 32 = false.
Proof. done. Qed.

Lemma read_mantissa_digits ds rest :
  Forall (λ c, is_digit c = true) ds → read_mantissa (ds ++ 32 :: rest) = (ds, false, 32 :: rest).
Proof.
  induction 1 as [|c ds Hc Hds IH]; [done|]. cbn [read_mantissa app]. by rewrite Hc, IH.
Qed.

Lemma read_mantissa_float d1 d2 rest :
  Forall (λ c, is_digit c = true) d1 → Forall (λ c, is_digit c = true) d2 →
  read_mantissa ((d1 ++ DOT :: d2) ++ 32 :: rest) = (d1 ++ DOT :: d2, true, 32 :: rest).
Proof.
  intros H1 H2. induction H1 as [|c d1 Hc H1 IH].
  - cbn [app read_mantissa]. rewrite (read_mantissa_digits d2) by done. done.
  - cbn [read_mantissa app]. by rewrite Hc, IH.
Qed.

Lemma read_digits_all ds rest :
  Forall (λ c, is_digit c = true) ds → (∀ c r, rest = c :: r → is_digit c = false) →
  read_digits (ds ++ rest) = (ds, rest).
Proof.
  intros H Hr. induction H as [|c ds Hc H IH].
  - cbn [app]. destruct rest as [|c r]; [done|]. cbn [read_digits]. by rewrite (Hr c r).
  - cbn [read_digits app]. by rewrite Hc, IH.
Qed.

Lemma read_number_int i rest : 0 <= i < 2 ^ 63 →
  read_number (dec 19 i ++ 32 :: rest) = Ok (Int i, length (dec 19 i), 32 :: rest).
Proof.
  intros Hi. destruct (dec_digits 19 i) as (H1 & H2 & H3); [|lia|].
  { change (10 ^ Z.of_nat 19) with 10000000000000000000. lia. }
  unfold read_number. rewrite read_mantissa_digits by done. cbn [read_exponent].
  change (Z.eqb 32 101 || Z.eqb 32 69) with false. cbn [orb]. rewrite app_nil_r.
  unfold parse_i64. rewrite H2, (proj2 (Z.leb_le _ _)) by lia. by destruct (dec 19 i).
Qed.

Lemma float_text_ok c d1 d2 :
  Forall (λ c, is_digit c = true) (c :: d1) → Forall (λ c, is_digit c = true) d2 →
  float_ok ((c :: d1) ++ DOT :: d2) = true.
Proof.
  intros H1 H2. unfold float_ok. rewrite read_digits_all; [|done|by intros ? ? [= <- _]].
  rewrite Z.eqb_refl. rewrite <- (app_nil_r d2) at 1. rewrite read_digits_all; [|done|done]. done.
Qed.

(** The head of a token decides which arm of the tokenizer reads it. *)
Ltac char_tests :=
  repeat match goal with
         | |- context [Z.eqb ?a ?b] =>
             let H := fresh in destruct (Z.eqb_spec a b) as [H|H]; [exfalso; lia|]
         end.

Lemma lex_step_letter c cs :
  is_lower c || is_upper c || Z.eqb c 95 = true → peek_is QUOTE cs = false →
  lex_step c cs = (let '(s, r) := read_identifier (c :: cs) in Ok (Some (push_word s), r)).
Proof.
  intros Hc Hq. assert (97 <= c <= 122 ∨ 65 <= c <= 90 ∨ c = 95) as Hr.
  { unfold is_lower, is_upper, in_range in Hc. rewrite !orb_true_iff, !andb_true_iff, !Z.leb_le, Z.eqb_eq in Hc. lia. }
  unfold lex_step. rewrite Hc, Hq. unfold is_space, is_digit, in_range, QUOTE, DOT.
  assert (Z.leb 48 c && Z.leb c 57 = false) as ->
    by (apply andb_false_iff; rewrite !Z.leb_gt; lia).
  repeat match goal with
         | |- context [Z.eqb c ?b] =>
             first [assert (c ≠ b) by lia; rewrite (proj2 (Z.eqb_neq c b)) by lia]
         end.
  cbn [orb]. destruct (Z.eqb c 120 || Z.eqb c 88); done.
Qed.

Lemma lex_step_digit c cs :
  is_digit c = true → lex_step c cs =
  match read_number (c :: cs) with Ok (t, _, r) => Ok (Some t, r) | Err e => Err e end.
Proof.
  intros Hc. pose proof (proj1 (digit_range c) Hc) as Hr. unfold lex_step. rewrite Hc.
  unfold is_space, QUOTE.
  repeat match goal with
         | |- context [Z.eqb c ?b] => rewrite (proj2 (Z.eqb_neq c b)) by lia
         end. done.
Qed.

Definition kw_ok (k : text) : bool := negb (Nat.eqb (length k) 0) && forallb is_upper k.

Lemma keywords_ok : forallb kw_ok KEYWORDS = true.
Proof. vm_compute. reflexivity. Qed.

Lemma upper_id_char c : is_upper c = true → id_char c = true.
Proof. intros H. apply letter_id_char. rewrite H. by rewrite orb_true_r. Qed.

Lemma keyword_spec k :
  k ∈ KEYWORDS → ∃ c w, k = c :: w ∧ Forall (λ c, is_upper c = true) k.
Proof.
  intros Hk%list_elem_of_In. pose proof (proj1 (forallb_forall _ _) keywords_ok k Hk) as H.
  unfold kw_ok in H. apply andb_prop in H as [H1 H2]. destruct k as [|c w]; [done|].
  exists c, w. split; [done|]. apply list.Forall_forall. intros x Hx%list_elem_of_In.
  by apply (proj1 (forallb_forall _ _) H2).
Qed.

Lemma to_uppercase_upper k : Forall (λ c, is_upper c = true) k → to_uppercase k = k.
Proof.
  unfold to_uppercase. induction 1 as [|c k Hc Hk IH]; [done|]. cbn [fmap list_fmap concat]. rewrite IH.
  unfold char_upper, is_lower, is_upper, in_range in *. apply andb_prop in Hc as [H1 H2].
  apply Z.leb_le in H1, H2. rewrite (proj2 (Z.ltb_lt _ _)) by lia.
  rewrite (proj2 (Z.leb_gt 97 c)) by lia. done.
Qed.

Lemma push_keyword k : k ∈ KEYWORDS → push_word k = Keyword k.
Proof.
  intros Hk. destruct (keyword_spec k Hk) as (c & w & -> & Hu).
  unfold push_word. rewrite to_uppercase_upper by done. by rewrite bool_decide_true.
Qed.

(** Reading back one printed token. *)
Lemma lex_step_render t rest :
  tok_wf t → ∃ c cs, render t ++ 32 :: rest = c :: cs ∧ lex_step c cs = Ok (Some t, 32 :: rest).
Proof.
  assert (∀ w, Forall (λ c, id_char c = true) w → peek_is QUOTE (w ++ 32 :: rest) = false) as Hpeek.
  { intros w Hw. destruct Hw as [|d w Hd Hw]; [done|]. simpl. destruct (Z.eqb_spec d QUOTE); [|done].
    by subst. }
  destruct t as [k|w|i|f|s|b|o| | | | |]; cbn [render tok_wf]; intros Hw.
  - destruct (keyword_spec k Hw) as (c & w & -> & Hu). exists c, (w ++ 32 :: rest). split; [done|].
    assert (Forall (λ c, id_char c = true) (c :: w)) as Hid.
    { eapply Forall_impl; [|exact Hu]. intros x. apply upper_id_char. }
    rewrite lex_step_letter.
    + change (c :: w ++ 32 :: rest) with ((c :: w) ++ 32 :: rest).
      rewrite read_identifier_app by done. by rewrite push_keyword.
    + apply Forall_cons_1 in Hu as [-> _]. by rewrite orb_true_r.
    + apply Hpeek. by apply Forall_cons_1 in Hid as [_ ?].
  - destruct Hw as (c & w' & -> & Hc & Hid & Hk). exists c, (w' ++ 32 :: rest). split; [done|].
    rewrite lex_step_letter by (done || by apply Hpeek).
    change (c :: w' ++ 32 :: rest) with ((c :: w') ++ 32 :: rest).
    rewrite read_identifier_app by (constructor; [by apply letter_id_char|done]).
    unfold push_word. by rewrite bool_decide_false.
  - destruct (dec_digits 19 i) as (H1 & _ & H3); [|lia|].
    { change (10 ^ Z.of_nat 19) with 10000000000000000000. lia. }
    pose proof (read_number_int i rest Hw) as Hn.
    destruct (dec 19 i) as [|c ds] eqn:E; [done|]. exists c, (ds ++ 32 :: rest). split; [done|].
    apply Forall_cons_1 in H1 as [Hc _]. rewrite lex_step_digit by done.
    change (c :: ds ++ 32 :: rest) with ((c :: ds) ++ 32 :: rest). by rewrite Hn.
  - destruct Hw as (c & d1 & d2 & -> & Hd1 & Hd2). exists c, ((d1 ++ DOT :: d2) ++ 32 :: rest).
    split; [done|]. rewrite lex_step_digit by (by apply Forall_cons_1 in Hd1 as [? _]).
    change (c :: (d1 ++ DOT :: d2) ++ 32 :: rest) with (((c :: d1) ++ DOT :: d2) ++ 32 :: rest).
    unfold read_number. rewrite read_mantissa_float by done. cbn [read_exponent].
    change (Z.eqb 32 101 || Z.eqb 32 69) with false. cbn [orb]. rewrite app_nil_r.
    by rewrite float_text_ok.
  - exists QUOTE, ((escape s ++ [QUOTE]) ++ 32 :: rest). split; [done|].
    rewrite <- app_assoc. cbn [app]. unfold lex_step. cbn -[read_string_literal escape app].
    by rewrite read_string_escape.
  - exists 120, (QUOTE :: (encode_hex b ++ [QUOTE]) ++ 32 :: rest). split; [done|].
    unfold lex_step. cbn -[read_hex_literal encode_hex app]. rewrite <- app_assoc. cbn [app].
    unfold read_hex_literal. rewrite read_hex_encode by done.
    destruct (decode_encode_hex b Hw) as [-> ->]. done.
  - unfold OPS in Hw. repeat (apply elem_of_cons in Hw as [->|Hw]; [by eexists _, _|]).
    by apply not_elem_of_nil in Hw.
  - by exists 40, (32 :: rest).
  - by exists 41, (32 :: rest).
  - by exists 44, (32 :: rest).
  - by exists 59, (32 :: rest).
  - done.
Qed.

Definition render_all (ts : list Token) : text := concat ((λ t, render t ++ [32]) <$> ts).

Lemma lex_loop_render ts fuel :
  Forall tok_wf ts → (length (render_all ts) < fuel)%nat →
  lex_loop fuel (render_all ts) = Some (Ok (ts ++ [EOF])).
Proof.
  intros Hts. revert fuel; induction Hts as [|t ts Ht Hts IH]; intros fuel Hf.
  - destruct fuel; [simpl in Hf; lia|done].
  - unfold render_all in *. cbn [fmap list_fmap concat] in *. fold (render_all ts) in *.
    destruct (lex_step_render t (render_all ts) Ht) as (c & cs & E1 & E2).
    rewrite <- app_assoc in *. cbn [app] in *. rewrite E1 in *.
    destruct fuel as [|fuel]; [lia|]. cbn [lex_loop]. rewrite E2.
    destruct fuel as [|fuel]; [simpl in Hf; apply lex_step_len in E2; simpl in E2; lia|].
    cbn [lex_loop]. assert (lex_step 32 (render_all ts) = Ok (None, render_all ts)) as -> by done.
    rewrite IH; [done|]. apply lex_step_len in E2. simpl in *. lia.
Qed.

(** printing and tokenizing are inverse.  Any sequence of tokens (keywords,
    identifiers with their case, integers of the whole [i64] range, decimal
    fractions, strings with arbitrary characters and quotes, byte strings, operators
    and punctuation), printed with a space after each token, is read back exactly. *)
Theorem tokenize_render (ts : list Token) (Hts : Forall tok_wf ts) :
  tokenize (render_all ts) = Some (Ok (ts ++ [EOF])).
Proof. apply lex_loop_render; [done|lia]. Qed.

(** keywords are recognised in any case: a word of ASCII letters whose upper-case
    form is a keyword becomes that keyword. *)
Theorem keyword_any_case (w : text) (Hw : Forall (λ c, is_lower c || is_upper c = true) w)
    (Hk : ((λ c, if is_lower c then c - 32 else c) <$> w) ∈ KEYWORDS) :
  tokenize (w ++ [32]) = Some (Ok [Keyword ((λ c, if is_lower c then c - 32 else c) <$> w); EOF]).
Proof.
  assert (to_uppercase w = (λ c, if is_lower c then c - 32 else c) <$> w) as Hu.
  { unfold to_uppercase. clear Hk. induction Hw as [|c w Hc Hw IH]; [done|]. cbn [fmap list_fmap concat].
    rewrite IH. unfold char_upper. rewrite (proj2 (Z.ltb_lt _ _)); [done|].
    unfold is_lower, is_upper, in_range in Hc. rewrite orb_true_iff, !andb_true_iff, !Z.leb_le in Hc. lia. }
  assert (Forall (λ c, id_char c = true) w) as Hid.
  { eapply Forall_impl; [|exact Hw]. intros c Hc. apply letter_id_char. simpl in Hc. by rewrite Hc. }
  destruct w as [|c w].
  { destruct (keyword_spec _ Hk) as (? & ? & [=] & _). }
  unfold tokenize. rewrite length_app. cbn [length]. rewrite Nat.add_1_r. cbn [lex_loop app].
  apply Forall_cons_1 in Hw as [Hc Hw]. apply Forall_cons_1 in Hid as [Hc' Hid].
  rewrite lex_step_letter.
  - change (c :: w ++ [32]) with ((c :: w) ++ 32 :: []). rewrite read_identifier_app by (by constructor).
    unfold push_word. rewrite Hu, bool_decide_true by done. done.
  - by rewrite Hc.
  - destruct Hid as [|d w Hd Hid]; [done|]. simpl. destruct (Z.eqb_spec d QUOTE); [|done]. by subst.
Qed.

(** the documented errors.  A quote that is never closed, a lone exclamation mark,
    a hex literal of odd length, and an integer beyond the 64-bit range are rejected
    with the error for that case, whatever follows. *)
Theorem lex_errors (s rest : text) (d : Z) :
  (Forall (λ c, c ≠ QUOTE) s → tokenize (QUOTE :: s) = Some (Err EUnterminatedString)) ∧
  (peek_is 61 rest = false → tokenize (33 :: rest) = Some (Err ELoneBang)) ∧
  (is_hexdigit d = true → tokenize (120 :: QUOTE :: d :: QUOTE :: rest) = Some (Err (EHexOdd 1))) ∧
  (Forall (λ c, is_digit c = true) s → 2 ^ 63 <= digits_value s →
     tokenize (s ++ 32 :: rest) = Some (Err (EBadInt s))).
Proof.
  split_and!.
  - intros Hs. unfold tokenize. cbn [lex_loop]. unfold lex_step. cbn -[read_string_literal].
    assert (read_string_literal s = Err EUnterminatedString) as ->; [|done].
    induction Hs as [|c s Hc Hs IH]; [done|]. cbn [read_string_literal].
    rewrite (proj2 (Z.eqb_neq _ _)) by done. by rewrite IH.
  - intros Hp. unfold tokenize. cbn [lex_loop]. unfold lex_step. cbn -[peek_is]. by rewrite Hp.
  - intros Hd. unfold tokenize. cbn [lex_loop]. unfold lex_step, read_hex_literal.
    cbn -[is_hexdigit QUOTE]. destruct (Z.eqb_spec d QUOTE) as [->|]; [done|].
    rewrite Hd. done.
  - intros Hs Hv. destruct s as [|c s]; [unfold digits_value in Hv; simpl in Hv; lia|].
    unfold tokenize. cbn [lex_loop app]. pose proof (Forall_cons_1 _ _ _ Hs) as [Hc _].
    rewrite lex_step_digit by done. change (c :: s ++ 32 :: rest) with ((c :: s) ++ 32 :: rest).
    unfold read_number. rewrite read_mantissa_digits by done. cbn [read_exponent].
    change (Z.eqb 32 101 || Z.eqb 32 69) with false. cbn [orb]. rewrite app_nil_r.
    unfold parse_i64. by rewrite (proj2 (Z.leb_gt _ _)) by lia.
Qed.

(** ** A space at the end *)

(** What a reader's result becomes when a space is appended to its input. *)
Definition with_space {A} (r r' : result LexError (A * text)) : Prop :=
  match r with Ok (a, rest) => r' = Ok (a, rest ++ [32]) | Err _ => ∃ e, r' = Err e end.

Lemma with_space_map {A B} (f : A → B) r r' : with_space r r' →
  with_space (match r with Ok (a, rest) => Ok (f a, rest) | Err e => Err e end)
             (match r' with Ok (a, rest) => Ok (f a, rest) | Err e => Err e end).
Proof. destruct r as [[a rest]|e]; cbn; [by intros ->|]. intros [e' ->]. by exists e'. Qed.

Lemma read_identifier_space cs : read_identifier (cs ++ [32]) = ((read_identifier cs).1, (read_identifier cs).2 ++ [32]).
Proof.
  induction cs as [|c cs IH]; [done|]. cbn [read_identifier app]. destruct (_ || _); [|done].
  rewrite IH. by destruct (read_identifier cs).
Qed.

Lemma read_string_space cs : with_space (read_string_literal cs) (read_string_literal (cs ++ [32])).
Proof.
  remember (length cs) as n eqn:Hn. revert cs Hn. induction (lt_wf n) as [n _ IH]. intros [|c cs] ->; [by eexists|].
  assert (∀ cs', (length cs' <= length cs)%nat → with_space (read_string_literal cs') (read_string_literal (cs' ++ [32]))) as IH'
    by (intros cs' H; apply (IH (length cs')); [simpl; lia|done]).
  cbn [app read_string_literal]. destruct (Z.eqb c QUOTE).
  - destruct cs as [|d cs]; [done|]. cbn [app]. destruct (Z.eqb d QUOTE); [|done].
    apply (with_space_map (cons QUOTE)), IH'. simpl; lia.
  - apply (with_space_map (cons c)), IH'. lia.
Qed.

Lemma read_hex_digits_space cs : with_space (read_hex_digits cs) (read_hex_digits (cs ++ [32])).
Proof.
  induction cs as [|c cs IH]; [by eexists|]. cbn [read_hex_digits app]. destruct (Z.eqb c QUOTE); [done|].
  destruct (is_hexdigit c); [|by eexists]. by apply (with_space_map (cons c)).
Qed.

Lemma read_hex_space cs : with_space (read_hex_literal cs) (read_hex_literal (cs ++ [32])).
Proof.
  unfold read_hex_literal. pose proof (read_hex_digits_space cs) as H. unfold with_space in *.
  destruct (read_hex_digits cs) as [[s r]|e]; [|destruct H as [e' ->]; by eexists]. rewrite H.
  destruct (Nat.even _); [done|by eexists].
Qed.

Lemma read_digits_space cs : read_digits (cs ++ [32]) = ((read_digits cs).1, (read_digits cs).2 ++ [32]).
Proof.
  induction cs as [|c cs IH]; [done|]. cbn [read_digits app]. destruct (is_digit c); [|done].
  rewrite IH. by destruct (read_digits cs).
Qed.

Lemma read_mantissa_space cs : read_mantissa (cs ++ [32]) = ((read_mantissa cs).1, (read_mantissa cs).2 ++ [32]).
Proof.
  induction cs as [|c cs IH]; [done|]. cbn [read_mantissa app]. destruct (is_digit c); [|destruct (Z.eqb c DOT); [|done]];
    rewrite IH; by destruct (read_mantissa cs) as [[s f] r].
Qed.

Lemma read_exponent_space cs : read_exponent (cs ++ [32]) = ((read_exponent cs).1, (read_exponent cs).2 ++ [32]).
Proof.
  destruct cs as [|e cs]; [done|]. cbn [app read_exponent]. destruct (_ || _); [|done].
  destruct cs as [|g cs]; [done|]. cbn [app]. destruct (Z.eqb g 43 || Z.eqb g 45).
  - rewrite read_digits_space. by destruct (read_digits cs).
  - change (g :: cs ++ [32]) with ((g :: cs) ++ [32]). rewrite read_digits_space. by destruct (read_digits (g :: cs)).
Qed.

Lemma read_number_space cs : with_space (read_number cs) (read_number (cs ++ [32])).
Proof.
  unfold read_number, with_space. rewrite read_mantissa_space. destruct (read_mantissa cs) as [[m dot] rest]. cbn [fst snd].
  rewrite read_exponent_space. destruct (read_exponent rest) as [[x ex] rest']. cbn [fst snd].
  destruct (dot || ex); [destruct (float_ok _); [done|by eexists]|]. destruct (parse_i64 _); [done|by eexists].
Qed.

Lemma peek_space d cs : d ≠ 32 → peek_is d (cs ++ [32]) = peek_is d cs ∧ (peek_is d cs = true → tail (cs ++ [32]) = tail cs ++ [32]).
Proof. intros Hd. destruct cs; [|by split]. split; [|intros Hf; discriminate Hf]. cbn. destruct d as [|d|d]; [done| |done]. by destruct (Pos.eqb_spec 32 d); [congruence|]. Qed.

Lemma lex_step_space c cs : with_space (lex_step c cs) (lex_step c (cs ++ [32])).
Proof.
  pose proof (read_identifier_space (c :: cs)) as Hid. cbn [app] in Hid.
  assert (with_space (match read_number (c :: cs) with Ok (t, _, r) => Ok (Some t, r) | Err e => Err e end)
                     (match read_number (c :: cs ++ [32]) with Ok (t, _, r) => Ok (Some t, r) | Err e => Err e end)) as Hn.
  { pose proof (read_number_space (c :: cs)) as H. cbn [app] in H.
    destruct (read_number (c :: cs)) as [[[t k] r]|e]; cbn in H |- *; [by rewrite H|]. destruct H as [e' ->]. by eexists. }
  assert (with_space (let '(s, r) := read_identifier (c :: cs) in Ok (Some (push_word s), r))
                     (let '(s, r) := read_identifier (c :: cs ++ [32]) in Ok (Some (push_word s), r))) as Hi
    by (rewrite Hid; by destruct (read_identifier (c :: cs))).
  destruct (peek_space 61 cs ltac:(done)) as [P1 T1]. destruct (peek_space 62 cs ltac:(done)) as [P2 T2].
  destruct (peek_space QUOTE cs ltac:(done)) as [P3 T3]. unfold lex_step. rewrite P1, P2, P3.
  destruct (is_space c); [done|]. do 5 (destruct (Z.eqb c _); [done|]).
  destruct (Z.eqb c 33); [destruct (peek_is 61 cs); [by rewrite T1|by eexists]|].
  destruct (Z.eqb c 60); [destruct (peek_is 61 cs); [by rewrite T1|]; destruct (peek_is 62 cs); [by rewrite T2|done]|].
  destruct (Z.eqb c 62); [destruct (peek_is 61 cs); [by rewrite T1|done]|].
  destruct (_ || _); [done|]. destruct (Z.eqb c QUOTE); [apply (with_space_map (λ s, Some (Str s))), read_string_space|].
  destruct (is_digit c); [done|]. destruct (Z.eqb c DOT); [destruct cs as [|d cs]; [done|]; cbn [app]; by destruct (is_digit d)|].
  destruct (Z.eqb c 120 || Z.eqb c 88).
  - destruct (peek_is QUOTE cs); [|done]. rewrite T3 by done. apply (with_space_map (λ b, Some (Hex b))), read_hex_space.
  - destruct (_ || _); [done|by eexists].
Qed.

Lemma lex_loop_cons fuel c cs : lex_loop (S fuel) (c :: cs) =
  match lex_step c cs with
  | Err e => Some (Err e)
  | Ok (t, rest) => match lex_loop fuel rest with
                    | Some (Ok ts) => Some (Ok (match t with Some t => t :: ts | None => ts end))
                    | r => r
                    end
  end.
Proof. done. Qed.

Lemma lex_loop_space fuel cs : (length cs < fuel)%nat →
  match lex_loop fuel cs with
  | Some (Ok ts) => lex_loop (S fuel) (cs ++ [32]) = Some (Ok ts)
  | _ => ∃ e, lex_loop (S fuel) (cs ++ [32]) = Some (Err e)
  end.
Proof.
  revert cs. induction fuel as [|fuel IH]; intros cs Hf; [lia|]. destruct cs as [|c cs]; [by destruct fuel|].
  cbn [app]. rewrite (lex_loop_cons fuel), (lex_loop_cons (S fuel)).
  pose proof (lex_step_space c cs) as H. unfold with_space in H.
  destruct (lex_step c cs) as [[t rest]|e] eqn:E; [|destruct H as [e' ->]; by eexists]. rewrite H.
  apply lex_step_len in E. specialize (IH rest ltac:(simpl in *; lia)).
  destruct (lex_loop fuel rest) as [[ts|e]|]; [by rewrite IH|destruct IH as [e' ->]; by eexists..].
Qed.

(** A space at the end of a statement makes no difference. *)
Lemma tokenize_space cs ts : tokenize (cs ++ [32]) = Some (Ok ts) → tokenize cs = Some (Ok ts).
Proof.
  unfold tokenize. rewrite length_app, Nat.add_1_r. pose proof (lex_loop_space (S (length cs)) cs ltac:(lia)) as H.
  destruct (lex_loop _ cs) as [[ts'|e]|]; [congruence|destruct H; congruence..].
Qed.

End lexer.

Definition demo_tokens : list Token :=
  [Keyword (chars_of "SELECT"); Ident (chars_of "x1"); Comma; Int 9223372036854775807;
   Str (chars_of "it's"); Hex [1; 171]; Op [60; 62]; Float (chars_of "3.14"); Semicolon].

Lemma tokenize_render_witness :
  tokenize (λ _, true) (λ c, [c]) (render_all demo_tokens) = Some (Ok (demo_tokens ++ [EOF])).
Proof.
  apply (tokenize_render (λ _, true) (λ c, [c]) demo_tokens).
  unfold demo_tokens.
  apply Forall_cons_2; [cbn [tok_wf]; apply (bool_decide_unpack _); vm_compute; exact I|].
  apply Forall_cons_2.
  { eexists _, _. split_and!; [reflexivity|reflexivity|repeat constructor|].
    apply (bool_decide_unpack _). vm_compute. exact I. }
  apply Forall_cons_2; [exact I|].
  apply Forall_cons_2; [split; [done|reflexivity]|].
  apply Forall_cons_2; [exact I|].
  apply Forall_cons_2; [repeat constructor; done|].
  apply Forall_cons_2; [cbn [tok_wf]; apply (bool_decide_unpack _); vm_compute; exact I|].
  apply Forall_cons_2; [exists 51, [], [49; 52]; split_and!; [reflexivity|repeat constructor..]|].
  apply Forall_cons_2; [exact I|]. apply Forall_nil_2.
Defined.

Lemma keyword_any_case_witness :
  tokenize (λ _, true) (λ c, [c]) (chars_of "sElEcT" ++ [32]) =
  Some (Ok [Keyword ((λ c, if is_lower c then c - 32 else c) <$> chars_of "sElEcT"); EOF]).
Proof.
  apply (keyword_any_case (λ _, true) (λ c, [c]) (chars_of "sElEcT")).
  - repeat constructor.
  - apply (bool_decide_unpack _). vm_compute. exact I.
Defined.

End LexerM.
