(* ===== verification/DateTime.v ===== *)
(** * Dates, times, timestamps and intervals (src/src/types/datetime.rs)

    Calendar arithmetic on 32- and 64-bit integers, with the wrap-around of the
    release build.  The calendar itself is specified independently by
    [days_before_year] and the months' lengths.  Conversions that go through the
    [time] crate (parsing, printing, [from_ymd], [to_ymd]) are not part of this file,
    except that [add_interval] takes the two conversions as parameters. *)

From Stdlib Require Import ZArith Lia.
From stdpp Require Import prelude list numbers.
From S2P Require Import Prelude.
Local Open Scope Z_scope.

Module DateTimeM.

Definition in_i (w z : Z) : Prop := - 2 ^ (w - 1) <= z < 2 ^ (w - 1).

(** [as i32], [as i64]; [saturating_add]. *)
Definition as_i32 (z : Z) : Z := as_signed 32 z.
Definition as_i64 (z : Z) : Z := as_signed 64 z.
Definition sat_add (w a b : Z) : Z := Z.max (- 2 ^ (w - 1)) (Z.min (2 ^ (w - 1) - 1) (a + b)).

(** Rust's [/] truncates. *)
Definition days_since_epoch_to_year (d : Z) : Z :=
  let z := as_i64 (d + 719468) in
  let era := Z.quot (if Z.geb z 0 then z else z - 146096) 146097 in
  let doe := z - era * 146097 in
  let yoe := Z.quot (doe - Z.quot doe 1460 + Z.quot doe 36524 - Z.quot doe 146096) 365 in
  let y := yoe + era * 400 in
  let doy := doe - (365 * yoe + Z.quot yoe 4 - Z.quot yoe 100) in
  if Z.geb doy 306 then as_i32 (y + 1) else as_i32 y.

Definition is_leap_year (y : Z) : bool :=
  (Z.eqb (Z.rem y 4) 0 && negb (Z.eqb (Z.rem y 100) 0)) || Z.eqb (Z.rem y 400) 0.

Definition days_in_months (leap : bool) : list Z :=
  [31; if leap then 29 else 28; 31; 30; 31; 30; 31; 31; 30; 31; 30; 31].

(** [for m in 1..month]: a month past December would index out of range. *)
Definition day_of_year (year : Z) (month : nat) (day : Z) : option Z :=
  if bool_decide (month <= 13)%nat
  then Some (fold_left Z.add (take (month - 1) (days_in_months (is_leap_year year))) day)
  else None.

(** ** Dates *)

Record Date := mkDate { days : Z }.
Definition DATE_EPOCH : Date := mkDate 0.

Definition year (d : Date) : Z := days_since_epoch_to_year (days d).
Definition date_to_u64 (d : Date) : Z := wrap_u 32 (days d).
Definition date_from_u64 (v : Z) : Date := mkDate (as_i32 v).
Definition add_days (n : Z) (d : Date) : Date := mkDate (sat_add 32 (days d) n).
Definition days_since (other d : Date) : Z := as_i32 (days d - days other).
Definition dow (d : Date) : Z := Z.modulo (as_i32 (days d + 4)) 7.
Definition isodow (d : Date) : Z := Z.modulo (as_i32 (days d + 3)) 7 + 1.
Definition epoch_seconds (d : Date) : Z := days d * 86400.

(** ** Times *)

Record Time := mkTime { micros_of_day : Z }.
Definition MIDNIGHT : Time := mkTime 0.

(** [TimeTime::from_hms_nano] accepts the usual ranges; the casts to [u8] come first. *)
Definition from_hms_nano (h m s ns : Z) : result Error Time :=
  let h := wrap_u 8 h in let m := wrap_u 8 m in let s := wrap_u 8 s in
  if bool_decide (h < 24 ∧ m < 60 ∧ s < 60 ∧ ns < 1000000000)
  then Ok (mkTime (h * 3600000000 + m * 60000000 + s * 1000000 + ns / 1000))
  else Err EInvalidArg.

Definition to_hms_micro (t : Time) : Z * Z * Z * Z :=
  let total := micros_of_day t in
  (wrap_u 32 (total / 3600000000), (total / 60000000) mod 60, (total / 1000000) mod 60, total mod 1000000).

(** ** Intervals and timestamps *)

Record Interval := mkIv { months : Z; micros : Z }.
Definition IV_ZERO : Interval := mkIv 0 0.
Definition from_months (m : Z) : Interval := mkIv m 0.
Definition from_days (d : Z) : Interval := mkIv 0 (d * 86400000000).
Definition from_micros (m : Z) : Interval := mkIv 0 m.
Definition to_u64_pair (i : Interval) : Z * Z := (wrap_u 32 (months i), wrap_u 64 (micros i)).
Definition from_u64_pair (v : Z * Z) : Interval := mkIv (as_i32 v.1) (as_i64 v.2).
Definition iv_add (a b : Interval) : Interval := mkIv (sat_add 32 (months a) (months b)) (sat_add 64 (micros a) (micros b)).

Record Timestamp := mkTs { ts : Z }.
Definition ts_to_u64 (t : Timestamp) : Z := wrap_u 64 (ts t).
Definition ts_from_u64 (v : Z) : Timestamp := mkTs (as_i64 v).
Definition DAY_MICROS : Z := 86400000000.
Definition from_date (d : Date) : Timestamp := mkTs (as_i64 (days d * DAY_MICROS)).
Definition from_date_time (d : Date) (t : Time) : Timestamp := mkTs (as_i64 (days d * DAY_MICROS + as_i64 (micros_of_day t))).
(** [div_euclid] and [rem_euclid] by a positive constant. *)
Definition to_date_time (t : Timestamp) : Date * Time :=
  (mkDate (as_i32 (ts t / DAY_MICROS)), mkTime (ts t mod DAY_MICROS)).

Section calendar.
(** The [time] crate: a date's civil fields, the date of civil fields, and the length
    of a month. *)
Context (to_ymd : Date → Z * Z * Z) (from_ymd : Z → Z → Z → result Error Date)
        (days_in_month : Z → Z → Z).

Definition date_add_interval (iv : Interval) (d : Date) : Timestamp :=
  let '(y, m, dd) := to_ymd d in
  let total_months := as_i32 (y * 12 + (m - 1) + months iv) in
  let ny := total_months / 12 in
  let nm := total_months mod 12 + 1 in
  let nd := Z.min (wrap_u 8 dd) (days_in_month ny nm) in
  let base := match from_ymd ny nm nd with Ok b => b | Err _ => d end in
  mkTs (as_i64 (days base * DAY_MICROS + micros iv)).

Definition ts_add_interval (iv : Interval) (t : Timestamp) : Timestamp :=
  let '(d, tm) := to_date_time t in
  mkTs (as_i64 (ts (date_add_interval iv d) + as_i64 (micros_of_day tm))).
End calendar.

(** ** The calendar *)

(** Days from 1970-01-01 to the first of January of year [y] (Gregorian, proleptic). *)
Definition days_before_year (y : Z) : Z :=
  365 * (y - 1970) + (y - 1) / 4 - (y - 1) / 100 + (y - 1) / 400 - 477.

Definition year_length (y : Z) : Z := if is_leap_year y then 366 else 365.

Lemma days_before_year_epoch : days_before_year 1970 = 0.
Proof. reflexivity. Qed.

Lemma rem_zero_mod a b : 0 < b → Z.eqb (Z.rem a b) 0 = Z.eqb (a mod b) 0.
Proof.
  intros Hb. destruct (Z.eqb_spec (Z.rem a b) 0) as [H|H], (Z.eqb_spec (a mod b) 0) as [H'|H']; try done.
  - apply Z.rem_divide in H; [|lia]. apply Z.mod_divide in H; [|lia]. done.
  - apply Z.mod_divide in H'; [|lia]. apply Z.rem_divide in H'; [|lia]. done.
Qed.

Lemma days_before_year_succ y : days_before_year (y + 1) = days_before_year y + year_length y.
Proof.
  unfold days_before_year, year_length, is_leap_year. rewrite !rem_zero_mod by lia.
  replace (y + 1 - 1) with y by lia.
  destruct (Z.eqb_spec (y mod 4) 0), (Z.eqb_spec (y mod 100) 0), (Z.eqb_spec (y mod 400) 0); simpl;
    Z.to_euclidean_division_equations; lia.
Qed.

Lemma days_before_year_mono y y' : y <= y' → days_before_year y <= days_before_year y'.
Proof. intros H. unfold days_before_year. Z.to_euclidean_division_equations; lia. Qed.

(** The arithmetic of one 400-year era, whose years start in March. *)
Lemma era_year doe :
  0 <= doe < 146097 →
  let yoe := (doe - doe / 1460 + doe / 36524 - doe / 146096) / 365 in
  0 <= yoe < 400 ∧ 0 <= doe - (365 * yoe + yoe / 4 - yoe / 100) < 365 + (if Z.eqb ((yoe + 1) mod 4) 0 && (negb (Z.eqb ((yoe + 1) mod 100) 0) || Z.eqb ((yoe + 1) mod 400) 0) then 1 else 0).
Proof.
  intros Hd yoe.
  assert (0 <= yoe < 400) as Hy by (unfold yoe; Z.to_euclidean_division_equations; lia).
  split; [done|].
  destruct (Z.eqb_spec ((yoe + 1) mod 4) 0), (Z.eqb_spec ((yoe + 1) mod 100) 0), (Z.eqb_spec ((yoe + 1) mod 400) 0); simpl;
  unfold yoe in *; clear yoe; Z.to_euclidean_division_equations; lia.
Qed.

Lemma days_before_year_era y k : days_before_year (y + 400 * k) = days_before_year y + 146097 * k.
Proof. unfold days_before_year. Z.to_euclidean_division_equations; lia. Qed.

(** Where the year found for a day of the era begins and ends. *)
Lemma era_bounds doe :
  0 <= doe < 146097 →
  let yoe := (doe - doe / 1460 + doe / 36524 - doe / 146096) / 365 in
  let doy := doe - (365 * yoe + yoe / 4 - yoe / 100) in
  let y := if Z.geb doy 306 then yoe + 1 else yoe in
  days_before_year y <= doe - 719468 < days_before_year (y + 1).
Proof.
  intros Hd yoe doy y. destruct (era_year doe Hd) as [Hy Hdoy]. fold yoe in Hy, Hdoy. fold doy in Hdoy.
  assert (doe = doy + (365 * yoe + yoe / 4 - yoe / 100)) as Hdoe by (unfold doy; lia).
  clearbody yoe doy. unfold y. rewrite Z.geb_leb. unfold days_before_year.
  destruct (Z.leb_spec 306 doy);
    destruct (Z.eqb_spec ((yoe + 1) mod 4) 0), (Z.eqb_spec ((yoe + 1) mod 100) 0), (Z.eqb_spec ((yoe + 1) mod 400) 0);
    simpl in Hdoy; Z.to_euclidean_division_equations; lia.
Qed.

Lemma as_signed_id w z : 0 < w → in_i w z → as_signed w z = z.
Proof.
  intros Hw [H1 H2]. unfold as_signed. assert (2 ^ w = 2 * 2 ^ (w - 1)) as E.
  { replace w with (1 + (w - 1)) at 1 by lia. rewrite Z.pow_add_r by lia. lia. }
  pose proof (Z.pow_pos_nonneg 2 (w - 1)). destruct (Z.le_gt_cases 0 z).
  - rewrite Z.mod_small by lia. destruct (Z.ltb_spec z (2 ^ (w - 1))); lia.
  - rewrite <- (Z.mod_add z 1) by lia. rewrite Z.mod_small by lia.
    destruct (Z.ltb_spec (z + 1 * 2 ^ w) (2 ^ (w - 1))); lia.
Qed.

Lemma as_i64_id z : in_i 64 z → as_i64 z = z.
Proof. intros H. by apply as_signed_id. Qed.
Lemma as_i32_id z : in_i 32 z → as_i32 z = z.
Proof. intros H. by apply as_signed_id. Qed.

Lemma as_signed_wrap_u w z : 0 < w → as_signed w (wrap_u w z) = as_signed w z.
Proof.
  intros Hw. unfold as_signed, wrap_u. rewrite Z.mod_mod; [done|].
  pose proof (Z.pow_pos_nonneg 2 w). lia.
Qed.

Lemma year_bounds d :
  in_i 32 d →
  let y := days_since_epoch_to_year d in
  days_before_year y <= d < days_before_year (y + 1).
Proof.
  intros Hd. unfold in_i in Hd. change (2 ^ (32 - 1)) with 2147483648 in Hd. unfold days_since_epoch_to_year.
  rewrite as_i64_id by (unfold in_i; cbn in *; lia).
  set (z := d + 719468). set (era := Z.quot _ 146097).
  assert (era = z / 146097) as Hera.
  { unfold era. rewrite Z.geb_leb. destruct (Z.leb_spec 0 z).
    - apply Z.quot_div_nonneg; lia.
    - Z.to_euclidean_division_equations; lia. }
  set (doe := z - era * 146097). assert (0 <= doe < 146097) as Hdoe.
  { unfold doe. rewrite Hera. pose proof (Z.div_mod z 146097). pose proof (Z.mod_pos_bound z 146097). lia. }
  rewrite !(Z.quot_div_nonneg doe) by lia.
  assert (0 <= doe - doe / 1460 + doe / 36524 - doe / 146096) by (Z.to_euclidean_division_equations; lia).
  rewrite !Z.quot_div_nonneg by (Z.to_euclidean_division_equations; lia).
  pose proof (era_bounds doe Hdoe) as Hb. destruct (era_year doe Hdoe) as [Hy _].
  set (yoe := (doe - doe / 1460 + doe / 36524 - doe / 146096) / 365) in *.
  set (doy := doe - (365 * yoe + yoe / 4 - yoe / 100)) in *.
  assert (-14700 <= era <= 14705) as He by (rewrite Hera; unfold z; Z.to_euclidean_division_equations; lia).
  assert (d = doe - 719468 + 146097 * era) as Ed by (unfold doe, z; lia).
  cbn zeta in *. fold doy in Hb |- *. revert Hb. destruct (Z.geb doy 306); intros Hb; rewrite as_i32_id by (unfold in_i; cbn in *; lia).
  - replace (yoe + era * 400 + 1) with (yoe + 1 + 400 * era) by lia.
    replace (yoe + 1 + 400 * era + 1) with (yoe + 1 + 1 + 400 * era) by lia.
    rewrite !days_before_year_era. lia.
  - replace (yoe + era * 400 + 1) with (yoe + 1 + 400 * era) by lia.
    replace (yoe + era * 400) with (yoe + 400 * era) by lia.
    rewrite !days_before_year_era. lia.
Qed.

Lemma year_unique y y' d :
  days_before_year y <= d < days_before_year (y + 1) →
  days_before_year y' <= d < days_before_year (y' + 1) → y = y'.
Proof.
  intros H H'. destruct (Z.lt_trichotomy y y') as [Hlt|[->|Hlt]]; [|done|].
  - pose proof (days_before_year_mono (y + 1) y'). lia.
  - pose proof (days_before_year_mono (y' + 1) y). lia.
Qed.

(** A valid civil date. *)
Definition civil_ok (y : Z) (m : nat) (d : Z) : Prop :=
  (1 <= m <= 12)%nat ∧ 1 <= d ∧
  ∃ n, days_in_months (is_leap_year y) !! (m - 1)%nat = Some n ∧ d <= n.

Lemma day_of_year_range y m d :
  civil_ok y m d → ∃ n, day_of_year y m d = Some n ∧ 1 <= n <= year_length y.
Proof.
  intros ([H1 H2] & H3 & n & Hn & H4). unfold day_of_year. rewrite bool_decide_true by lia.
  eexists. split; [done|]. unfold year_length. revert Hn H4. generalize (is_leap_year y). intros leap Hn Hle.
  assert (m - 1 < 12)%nat as Hm by lia. revert Hn Hm. generalize (m - 1)%nat. intros k Hn Hk.
  do 12 (destruct k as [|k]; [injection Hn as <-; destruct leap; simpl; lia|]). lia.
Qed.

(** the year of a date.  For every date a 32-bit day number can express, the
    branch-free formula gives the Gregorian year: the unique year whose first of
    January is not after the date and whose next first of January is.  In particular
    the day number of any valid civil date maps back to its year, leap years and
    century rules included. *)
Theorem year_gregorian (d y : Z) (Hd : in_i 32 d) :
  (days_since_epoch_to_year d = y ↔ days_before_year y <= d < days_before_year (y + 1)) ∧
  (∀ m dd n, civil_ok y m dd → day_of_year y m dd = Some n → d = days_before_year y + n - 1 →
     year (mkDate d) = y).
Proof.
  pose proof (year_bounds d Hd) as Hb. cbn zeta in Hb. split.
  - split; [by intros <-|]. intros H. by eapply year_unique.
  - intros m dd n Hc Hn E. destruct (day_of_year_range y m dd Hc) as (n' & Hn' & Hr).
    rewrite Hn in Hn'. injection Hn' as <-. unfold year. simpl. eapply year_unique; [exact Hb|].
    rewrite days_before_year_succ. lia.
Qed.

Lemma year_gregorian_witness :
  (days_since_epoch_to_year 11016 = 2000 ↔ days_before_year 2000 <= 11016 < days_before_year (2000 + 1)) ∧
  (∀ m dd n, civil_ok 2000 m dd → day_of_year 2000 m dd = Some n → 11016 = days_before_year 2000 + n - 1 →
     year (mkDate 11016) = 2000).
Proof. apply (year_gregorian 11016 2000). unfold in_i. simpl. lia. Defined.

(** the cell encodings lose nothing: a date, a timestamp and an interval are
    recovered from the 64-bit cells they are stored in. *)
Theorem cell_roundtrip (d : Date) (t : Timestamp) (iv : Interval)
    (Hd : in_i 32 (days d)) (Ht : in_i 64 (ts t)) (Hm : in_i 32 (months iv)) (Hu : in_i 64 (micros iv)) :
  date_from_u64 (date_to_u64 d) = d ∧ ts_from_u64 (ts_to_u64 t) = t ∧
  from_u64_pair (to_u64_pair iv) = iv ∧
  in_u 64 (date_to_u64 d) ∧ in_u 64 (ts_to_u64 t).
Proof.
  destruct d as [d], t as [t], iv as [m u]. simpl in *.
  unfold date_from_u64, date_to_u64, ts_from_u64, ts_to_u64, from_u64_pair, to_u64_pair, as_i32, as_i64. simpl.
  rewrite !as_signed_wrap_u, !as_signed_id by (done || lia).
  split; [done|]. split; [done|]. split; [done|]. split; [|apply in_u_wrap; lia].
  pose proof (in_u_wrap 32 d ltac:(lia)) as [H1 H2]. split; [done|]. lia.
Qed.

Lemma cell_roundtrip_witness :
  date_from_u64 (date_to_u64 (mkDate (-5))) = mkDate (-5) ∧
  ts_from_u64 (ts_to_u64 (mkTs (-1))) = mkTs (-1) ∧
  from_u64_pair (to_u64_pair (mkIv (-3) 7)) = mkIv (-3) 7 ∧
  in_u 64 (date_to_u64 (mkDate (-5))) ∧ in_u 64 (ts_to_u64 (mkTs (-1))).
Proof.
  apply (cell_roundtrip (mkDate (-5)) (mkTs (-1)) (mkIv (-3) 7)); unfold in_i; cbn in *; lia.
Defined.

(** a timestamp is a date and a time of day.  Splitting any 64-bit timestamp,
    before or after the epoch, gives a time within the day and joins back to it;
    joining a date within the representable range and a time of day splits back;
    and a time of day is its hours, minutes, seconds and microseconds. *)
Theorem timestamp_split (t : Timestamp) (d : Date) (tm : Time)
    (Ht : in_i 64 (ts t)) (Hd : -106751991 < days d < 106751991) (Hm : 0 <= micros_of_day tm < DAY_MICROS) :
  from_date_time (to_date_time t).1 (to_date_time t).2 = t ∧
  0 <= micros_of_day (to_date_time t).2 < DAY_MICROS ∧
  to_date_time (from_date_time d tm) = (d, tm) ∧
  (let '(h, m, s, us) := to_hms_micro tm in
   0 <= h < 24 ∧ 0 <= m < 60 ∧ 0 <= s < 60 ∧ 0 <= us < 1000000 ∧
   micros_of_day tm = ((h * 60 + m) * 60 + s) * 1000000 + us ∧
   from_hms_nano h m s (us * 1000) = Ok tm).
Proof.
  destruct t as [t], d as [d], tm as [tm]. unfold in_i, DAY_MICROS in *. simpl in Ht, Hd, Hm.
  unfold from_date_time, to_date_time, to_hms_micro, DAY_MICROS, as_i64, as_i32. cbn [ts days micros_of_day fst snd].
  pose proof (Z.mod_pos_bound t 86400000000 ltac:(lia)) as Hmod. pose proof (Z.div_mod t 86400000000 ltac:(lia)) as Hdm.
  assert (-106751992 <= t / 86400000000 <= 106751991) as Hq by (Z.to_euclidean_division_equations; lia).
  rewrite (as_signed_id 32 (t / 86400000000)) by (unfold in_i; cbn in *; lia).
  rewrite (as_signed_id 64 (t mod 86400000000)) by (unfold in_i; cbn in *; lia).
  rewrite (as_signed_id 64 tm) by (unfold in_i; cbn in *; lia).
  rewrite (as_signed_id 64 (d * 86400000000 + tm)) by (unfold in_i; cbn in *; lia).
  rewrite (as_signed_id 64 (t / 86400000000 * 86400000000 + t mod 86400000000)) by (unfold in_i; cbn in *; lia).
  split; [f_equal; lia|]. split; [lia|]. split.
  - assert ((d * 86400000000 + tm) / 86400000000 = d) as ->.
    { rewrite Z.add_comm, Z.div_add, Z.div_small by lia. lia. }
    assert ((d * 86400000000 + tm) mod 86400000000 = tm) as ->.
    { rewrite Z.add_comm, Z_mod_plus_full. apply Z.mod_small. lia. }
    by rewrite as_signed_id by (unfold in_i; cbn in *; lia).
  - assert (0 <= tm / 3600000000 < 24) as Hh by (Z.to_euclidean_division_equations; lia).
    rewrite (wrap_u_small 32) by (unfold in_u; lia).
    pose proof (Z.mod_pos_bound (tm / 60000000) 60). pose proof (Z.mod_pos_bound (tm / 1000000) 60).
    pose proof (Z.mod_pos_bound tm 1000000).
    assert (tm = ((tm / 3600000000 * 60 + (tm / 60000000) mod 60) * 60 + (tm / 1000000) mod 60) * 1000000 + tm mod 1000000) as E
      by (Z.to_euclidean_division_equations; lia).
    split; [lia|]. split; [lia|]. split; [lia|]. split; [lia|]. split; [done|].
    unfold from_hms_nano. rewrite !(wrap_u_small 8) by (unfold in_u; lia).
    rewrite bool_decide_true by lia. do 2 f_equal. rewrite Z.div_mul by lia. lia.
Qed.

Lemma timestamp_split_witness :
  from_date_time (to_date_time (mkTs (-1))).1 (to_date_time (mkTs (-1))).2 = mkTs (-1) ∧
  0 <= micros_of_day (to_date_time (mkTs (-1))).2 < DAY_MICROS ∧
  to_date_time (from_date_time (mkDate 10957) (mkTime 45296000001)) = (mkDate 10957, mkTime 45296000001) ∧
  (let '(h, m, s, us) := to_hms_micro (mkTime 45296000001) in
   0 <= h < 24 ∧ 0 <= m < 60 ∧ 0 <= s < 60 ∧ 0 <= us < 1000000 ∧
   45296000001 = ((h * 60 + m) * 60 + s) * 1000000 + us ∧
   from_hms_nano h m s (us * 1000) = Ok (mkTime 45296000001)).
Proof.
  exact (timestamp_split (mkTs (-1)) (mkDate 10957) (mkTime 45296000001)
           ltac:(unfold in_i; cbn in *; lia) ltac:(simpl; lia) ltac:(unfold DAY_MICROS; simpl; lia)).
Defined.

(** days of the week.  For every date whose day number leaves room for the shift,
    [dow] and [isodow] name the same weekday, successive days are successive weekdays
    and the epoch is a Thursday. *)
Theorem weekday_cycle (d : Z) (Hd : - 2 ^ 31 <= d < 2 ^ 31 - 5) :
  dow DATE_EPOCH = 4 ∧ 0 <= dow (mkDate d) < 7 ∧
  dow (mkDate (d + 1)) = (dow (mkDate d) + 1) mod 7 ∧
  isodow (mkDate d) = (if Z.eqb (dow (mkDate d)) 0 then 7 else dow (mkDate d)).
Proof.
  split; [done|]. unfold dow, isodow, as_i32. cbn [days].
  rewrite !as_signed_id by (lia || (unfold in_i; cbn in *; lia)). 
  split; [apply Z.mod_pos_bound; lia|]. split.
  - rewrite Zplus_mod_idemp_l. f_equal. lia.
  - destruct (Z.eqb_spec ((d + 4) mod 7) 0); Z.to_euclidean_division_equations; lia.
Qed.

Lemma weekday_cycle_witness :
  dow DATE_EPOCH = 4 ∧ 0 <= dow (mkDate (-3)) < 7 ∧
  dow (mkDate (-3 + 1)) = (dow (mkDate (-3)) + 1) mod 7 ∧
  isodow (mkDate (-3)) = (if Z.eqb (dow (mkDate (-3))) 0 then 7 else dow (mkDate (-3))).
Proof. apply (weekday_cycle (-3)). lia. Defined.

End DateTimeM.
