(* ===== verification/JoinHash.v ===== *)
(** * The join hash table (src/src/exec/join_hash_table.rs)

    Chained entries behind a directory whose slots carry a 16-bit tag above the index
    of the newest entry.  The table is modelled at its layout: tag and index packed in
    one 64-bit word, indices truncated to 32 bits, entry 0 reserved.  An index out of
    range, which panics, is [None].  The directory's atomics are single-threaded here,
    as in the build path of the source. *)

From Stdlib Require Import ZArith Lia.
From stdpp Require Import prelude list numbers.
From S2P Require Import Prelude Bits Crc32c.
Local Open Scope Z_scope.

Module JoinHashM.

Record JoinEntry := mkEntry { key : Z; row_idx : Z; next : Z }.

Record JoinHashTable := mkTable {
  directory : list Z;
  entries : list JoinEntry;
  len : nat;
  shift : Z
}.

Definition dir_size_for (expected : nat) : nat := Nat.max (next_power_of_two (expected * 2)) 16.

Definition new (expected : nat) : JoinHashTable :=
  let dir_size := dir_size_for expected in
  mkTable (replicate dir_size 0) (replicate (expected + 1) (mkEntry 0 0 0)) 1
    (64 - Z.of_nat (trailing_zeros 64 (Z.of_nat dir_size))).

(** On x86-64 the CRC32 instruction and a multiplication, elsewhere splitmix64. *)
Definition hash (x86_64 : bool) (k : Z) : Z :=
  if x86_64 then wrapping_mul (Crc.mm_crc32 8 0 k) 0x8648DBDB00000001
  else
    let z := wrap_u 64 (k + 0x9E3779B97F4A7C15) in
    let z := wrapping_mul (Z.lxor z (Z.shiftr z 30)) 0xBF58476D1CE4E5B9 in
    let z := wrapping_mul (Z.lxor z (Z.shiftr z 27)) 0x94D049BB133111EB in
    Z.lxor z (Z.shiftr z 31).

Definition bloom_tag (h : Z) : Z := Z.lor (wrap_u 16 (Z.shiftr h 16)) 1.

Definition could_contain (entry h : Z) : bool :=
  let tag := wrap_u 16 (Z.shiftr entry 48) in
  let expected := bloom_tag h in
  negb (Z.eqb tag 0) && Z.eqb (Z.land tag expected) expected.

Definition head_idx (entry : Z) : Z := wrap_u 32 (Z.land entry 0xFFFFFFFF).

Section table.
Context (x86_64 : bool).

Definition slot_of (t : JoinHashTable) (k : Z) : nat := Z.to_nat (Z.shiftr (hash x86_64 k) (shift t)).

Definition insert (k row : Z) (t : JoinHashTable) : option JoinHashTable :=
  let h := hash x86_64 k in
  let slot := slot_of t k in
  let tag := bloom_tag h in
  let entry_idx := Z.to_nat (wrap_u 32 (Z.of_nat (len t))) in
  let es := if bool_decide (length (entries t) <= entry_idx)%nat
            then entries t ++ [mkEntry 0 0 0] else entries t in
  _ ← es !! entry_idx;
  let es := <[entry_idx := mkEntry k row 0]> es in
  old_head ← directory t !! slot;
  let old_tag := wrap_u 16 (Z.shiftr old_head 48) in
  let old_idx := head_idx old_head in
  let es := alter (λ e, mkEntry (key e) (row_idx e) old_idx) entry_idx es in
  let new_tag := Z.lor old_tag tag in
  let new_head := Z.lor (Z.shiftl new_tag 48) (Z.of_nat entry_idx) in
  Some (mkTable (<[slot := new_head]> (directory t)) es (S (len t)) (shift t)).

(** [while idx != 0 { ...; idx = e.next }], returning at the first match or collecting
    all.  Links point to older entries, so the number of entries is fuel enough. *)
Fixpoint walk_first (fuel : nat) (es : list JoinEntry) (k idx : Z) : option (option Z) :=
  if Z.eqb idx 0 then Some None
  else match fuel with
  | O => None
  | S fuel => e ← es !! Z.to_nat idx;
              if Z.eqb (key e) k then Some (Some (row_idx e)) else walk_first fuel es k (next e)
  end.

Fixpoint walk_all (fuel : nat) (es : list JoinEntry) (k idx : Z) (out : list Z) : option (list Z) :=
  if Z.eqb idx 0 then Some out
  else match fuel with
  | O => None
  | S fuel => e ← es !! Z.to_nat idx;
              walk_all fuel es k (next e) (if Z.eqb (key e) k then out ++ [row_idx e] else out)
  end.

Definition probe (t : JoinHashTable) (k : Z) : option (option Z) :=
  entry ← directory t !! slot_of t k;
  if could_contain entry (hash x86_64 k) then walk_first (length (entries t)) (entries t) k (head_idx entry)
  else Some None.

Definition probe_all (t : JoinHashTable) (k : Z) : option (list Z) :=
  entry ← directory t !! slot_of t k;
  if could_contain entry (hash x86_64 k) then walk_all (length (entries t)) (entries t) k (head_idx entry) []
  else Some [].

Definition table_len (t : JoinHashTable) : nat := (len t - 1)%nat.
Definition is_empty (t : JoinHashTable) : bool := Nat.leb (len t) 1.

(** Building the table from the build side of a join. *)
Fixpoint insert_all (ins : list (Z * Z)) (t : JoinHashTable) : option JoinHashTable :=
  match ins with
  | [] => Some t
  | (k, row) :: ins => t' ← insert k row t; insert_all ins t'
  end.

(** ** Hashes and packed words *)
Lemma hash_range k : in_u 64 (hash x86_64 k).
Proof.
  unfold hash, wrapping_mul. destruct x86_64; [by apply in_u_wrap|]. apply in_u_lxor_shiftr; [lia|]. by apply in_u_wrap.
Qed.

Lemma bloom_tag_range h : in_u 16 (bloom_tag h).
Proof. apply in_u_lor; [lia|by apply in_u_wrap|unfold in_u; lia]. Qed.

Lemma bloom_tag_nonzero h : bloom_tag h ≠ 0.
Proof.
  intros H. apply (f_equal (λ z, Z.testbit z 0)) in H. unfold bloom_tag in H.
  rewrite Z.lor_spec, orb_true_r in H. done.
Qed.

(** A directory word and its two parts. *)
Definition packed (tag : Z) (idx : nat) : Z := Z.lor (Z.shiftl tag 48) (Z.of_nat idx).

Lemma packed_tag tag idx :
  in_u 16 tag → Z.of_nat idx < 2 ^ 32 → wrap_u 16 (Z.shiftr (packed tag idx) 48) = tag.
Proof.
  intros Ht Hi. unfold wrap_u, packed. apply Z.bits_inj'. intros i Hi0. destruct (Z.lt_ge_cases i 16).
  - rewrite Z.mod_pow2_bits_low by lia. rewrite Z.shiftr_spec, Z.lor_spec, Z.shiftl_spec by lia.
    rewrite (testbit_above 32 (Z.of_nat idx)) by (unfold in_u; lia). rewrite orb_false_r. f_equal. lia.
  - rewrite Z.mod_pow2_bits_high by lia. by rewrite (testbit_above 16 tag) by (done || lia).
Qed.

Lemma packed_idx tag idx : in_u 16 tag → Z.of_nat idx < 2 ^ 32 → head_idx (packed tag idx) = Z.of_nat idx.
Proof.
  intros Ht Hi. unfold head_idx, packed.
  assert (Z.land (Z.lor (Z.shiftl tag 48) (Z.of_nat idx)) 0xFFFFFFFF = Z.of_nat idx) as ->.
  { apply Z.bits_inj'. intros i Hi0. change 0xFFFFFFFF with (2 ^ 32 - 1).
    rewrite Z.land_spec, Z.lor_spec, Z.shiftl_spec, testbit_ones by lia. case_bool_decide.
    - rewrite (Z.testbit_neg_r tag), andb_true_r by lia. done.
    - rewrite andb_false_r. by rewrite (testbit_above 32) by (unfold in_u; lia). }
  apply wrap_u_small. unfold in_u. lia.
Qed.

Lemma lor_absorb a b c : Z.land a b = b → Z.land (Z.lor a c) b = b.
Proof.
  intros H. apply Z.bits_inj'. intros i Hi. apply (f_equal (λ z, Z.testbit z i)) in H.
  rewrite Z.land_spec in *. rewrite Z.lor_spec. destruct (Z.testbit a i), (Z.testbit b i), (Z.testbit c i); done.
Qed.

(** ** Sizes *)
Lemma dir_size_pow2 n : ∃ j, dir_size_for n = (2 ^ j)%nat ∧ (4 <= j)%nat ∧ (Z.of_nat n < 2 ^ 62 → (j < 64)%nat).
Proof.
  unfold dir_size_for, next_power_of_two. exists (Nat.max (Nat.log2_up (n * 2)) 4). split; [|split; [lia|]].
  - change 16%nat with (2 ^ 4)%nat. destruct (Nat.max_spec (Nat.log2_up (n * 2)) 4) as [[H ->]|[H ->]].
    + apply Nat.max_r. apply Nat.pow_le_mono_r; lia.
    + apply Nat.max_l. apply Nat.pow_le_mono_r; lia.
  - intros Hn. enough (Nat.log2_up (n * 2) <= 63)%nat by lia.
    destruct (decide (n = 0%nat)) as [->|Hn0]; [vm_compute; lia|].
    destruct (decide (n * 2 <= 1)%nat); [rewrite Nat.log2_up_eqn0; lia|].
    pose proof (Nat.log2_up_spec (n * 2) ltac:(lia)) as [H _].
    destruct (decide (Nat.log2_up (n * 2) <= 63)%nat) as [|Hc]; [done|]. exfalso.
    assert (2 ^ 63 <= 2 ^ Nat.pred (Nat.log2_up (n * 2)))%nat as Hp by (apply Nat.pow_le_mono_r; lia).
    assert (Z.of_nat (2 ^ 63) < Z.of_nat (n * 2)) as Hlt by lia. rewrite Nat2Z.inj_pow in Hlt.
    change (Z.of_nat 2) with 2 in Hlt. lia.
Qed.

Lemma slot_bound j h : (4 <= j < 64)%nat → in_u 64 h → (Z.to_nat (Z.shiftr h (64 - Z.of_nat j)) < 2 ^ j)%nat.
Proof.
  intros Hj Hh. rewrite Z.shiftr_div_pow2 by lia. unfold in_u in Hh.
  pose proof (Z.pow_pos_nonneg 2 (64 - Z.of_nat j) ltac:(lia) ltac:(lia)).
  assert (h / 2 ^ (64 - Z.of_nat j) < 2 ^ Z.of_nat j).
  { apply Z.div_lt_upper_bound; [lia|]. rewrite <- Z.pow_add_r by lia.
    replace (64 - Z.of_nat j + Z.of_nat j) with 64 by lia. lia. }
  assert (0 <= h / 2 ^ (64 - Z.of_nat j)) by (apply Z.div_pos; lia).
  apply Nat2Z.inj_lt. rewrite Z2Nat.id, Nat2Z.inj_pow by lia. done.
Qed.

(** ** The chains *)

(** [idx] heads the chain of the entries [l], newest first. *)
Fixpoint chain (es : list JoinEntry) (idx : Z) (l : list nat) : Prop :=
  match l with
  | [] => idx = 0
  | i :: l => idx = Z.of_nat i ∧ (0 < i)%nat ∧ ∃ e, es !! i = Some e ∧ chain es (next e) l
  end.

(** The entries of a slot among [ins], newest first: entry [i] holds insertion [i - 1]. *)
Fixpoint slot_chain (j : nat) (slot : nat) (ins : list (Z * Z)) : list nat :=
  match ins with
  | [] => []
  | kr :: ins =>
    if Nat.eqb (Z.to_nat (Z.shiftr (hash x86_64 kr.1) (64 - Z.of_nat j))) slot
    then S (length ins) :: slot_chain j slot ins else slot_chain j slot ins
  end.

(** The table after inserting [rev ins]: [ins] is the newest first. *)
Record holds (j : nat) (t : JoinHashTable) (ins : list (Z * Z)) : Prop := {
  h_dir : length (directory t) = (2 ^ j)%nat;
  h_shift : shift t = 64 - Z.of_nat j;
  h_len : len t = S (length ins);
  h_room : (length ins < length (entries t))%nat;
  h_entries : ∀ i k r, reverse ins !! i = Some (k, r) →
    ∃ e, entries t !! S i = Some e ∧ key e = k ∧ row_idx e = r;
  h_chain : ∀ slot w, directory t !! slot = Some w → ∃ tag idx,
    w = packed tag idx ∧ in_u 16 tag ∧ (idx <= length ins)%nat ∧
    chain (entries t) (Z.of_nat idx) (slot_chain j slot ins) ∧
    ∀ k r, (k, r) ∈ ins → slot_of t k = slot → Z.land tag (bloom_tag (hash x86_64 k)) = bloom_tag (hash x86_64 k)
}.

Lemma chain_ext es es' idx l :
  (∀ i e, i ∈ l → es !! i = Some e → es' !! i = Some e) → chain es idx l → chain es' idx l.
Proof.
  revert idx; induction l as [|i l IH]; intros idx H; [done|]. simpl. intros (-> & Hi & e & He & Hc).
  split; [done|]. split; [done|]. exists e. split; [apply H; [by left|done]|].
  apply IH; [|done]. intros i' e' Hi'. apply H. by right.
Qed.

Lemma slot_chain_bound j slot ins i : i ∈ slot_chain j slot ins → (1 <= i <= length ins)%nat.
Proof.
  induction ins as [|kr ins IH]; simpl; [intros H; by apply not_elem_of_nil in H|].
  destruct (Nat.eqb _ slot); [rewrite elem_of_cons; intros [->|H]|intros H]; try (apply IH in H); lia.
Qed.

Lemma holds_new n :
  Z.of_nat n < 2 ^ 62 → ∃ j, (4 <= j < 64)%nat ∧ holds j (new n) [].
Proof.
  intros Hn. destruct (dir_size_pow2 n) as (j & Hj & H4 & H64). exists j. specialize (H64 Hn). split; [lia|].
  unfold new. rewrite Hj.
  assert (trailing_zeros 64 (Z.of_nat (2 ^ j)) = j) as Htz.
  { rewrite Nat2Z.inj_pow. change (Z.of_nat 2) with 2. rewrite <- (Z.mul_1_r (2 ^ Z.of_nat j)).
    apply trailing_zeros_pow2; [lia|done]. }
  split; cbn [directory shift len entries length].
  - apply length_replicate.
  - by rewrite Htz.
  - done.
  - rewrite length_replicate. lia.
  - intros i k r H. done.
  - intros slot w [-> _]%lookup_replicate. exists 0, 0%nat. split; [done|]. split; [unfold in_u; lia|].
    split; [lia|]. split; [done|]. intros k r H. by apply not_elem_of_nil in H.
Qed.

Lemma reverse_lookup_entries t (ins : list (Z * Z)) k r (es' : list JoinEntry) :
  (∀ i k r, reverse ins !! i = Some (k, r) → ∃ e, entries t !! S i = Some e ∧ key e = k ∧ row_idx e = r) →
  (∀ i e, (1 <= i <= length ins)%nat → entries t !! i = Some e → es' !! i = Some e) →
  (∃ e, es' !! S (length ins) = Some e ∧ key e = k ∧ row_idx e = r) →
  ∀ i k' r', reverse ((k, r) :: ins) !! i = Some (k', r') → ∃ e, es' !! S i = Some e ∧ key e = k' ∧ row_idx e = r'.
Proof.
  intros Hold Hkeep Hnew i k' r' Hi. rewrite reverse_cons in Hi.
  pose proof (lookup_lt_Some _ _ _ Hi) as Hlt. rewrite length_app, length_reverse in Hlt. simpl in Hlt.
  destruct (decide (i = length ins)) as [->|Hne].
  - rewrite lookup_app_r, length_reverse, Nat.sub_diag in Hi by (rewrite length_reverse; lia). by simplify_eq/=.
  - rewrite lookup_app_l in Hi by (rewrite length_reverse; lia). destruct (Hold _ _ _ Hi) as (e & He & Hk & Hr).
    exists e. split; [|done]. apply Hkeep; [lia|done].
Qed.

Lemma insert_holds j t ins k r :
  (4 <= j < 64)%nat → holds j t ins → Z.of_nat (length ins) + 1 < 2 ^ 32 →
  ∃ t', insert k r t = Some t' ∧ holds j t' ((k, r) :: ins).
Proof.
  intros Hj [Hdir Hshift Hlen Hroom Hent Hchain] Hn. unfold insert.
  assert (Z.to_nat (wrap_u 32 (Z.of_nat (len t))) = S (length ins)) as ->.
  { rewrite wrap_u_small by (unfold in_u; lia). lia. }
  set (es := if bool_decide (length (entries t) <= S (length ins))%nat then _ else _).
  assert (∀ i, (i <= length ins)%nat → es !! i = entries t !! i) as Hes.
  { intros i Hi. unfold es. case_bool_decide; [|done]. by rewrite lookup_app_l by lia. }
  assert (S (length ins) < length es)%nat as Hroom2.
  { unfold es. case_bool_decide; [rewrite length_app; simpl|]; lia. }
  destruct (lookup_lt_is_Some_2 es (S (length ins)) Hroom2) as [e0 ->]. cbn [mbind option_bind].
  set (slot := slot_of t k).
  assert (slot < length (directory t))%nat as Hslot.
  { unfold slot, slot_of. rewrite Hdir, Hshift. apply slot_bound; [done|apply hash_range]. }
  destruct (lookup_lt_is_Some_2 (directory t) slot Hslot) as [w Hw]. rewrite Hw. cbn [mbind option_bind].
  destruct (Hchain slot w Hw) as (tag & idx & -> & Htag & Hidx & Hch & Htags).
  rewrite packed_tag, packed_idx by (done || lia).
  rewrite (alter_Some_insert _ _ (mkEntry k r 0)) by (by rewrite list_lookup_insert_eq).
  rewrite list_insert_insert_eq. cbn [key row_idx].
  eexists; split; [done|].
  set (es' := <[S (length ins) := mkEntry k r (Z.of_nat idx)]> es).
  assert (∀ i e, (1 <= i <= length ins)%nat → entries t !! i = Some e → es' !! i = Some e) as Hkeep.
  { intros i e Hi He. unfold es'. rewrite list_lookup_insert_ne by lia. by rewrite Hes by lia. }
  assert (es' !! S (length ins) = Some (mkEntry k r (Z.of_nat idx))) as Hnew by (by apply list_lookup_insert_eq).
  assert (∀ s l, chain (entries t) s (slot_chain j l ins) → chain es' s (slot_chain j l ins)) as Hcold.
  { intros s l. apply chain_ext. intros i e Hi. apply Hkeep. by eapply slot_chain_bound. }
  split; cbn [directory shift len entries length].
  - by rewrite length_insert.
  - done.
  - by rewrite Hlen.
  - unfold es'. rewrite length_insert. lia.
  - apply (reverse_lookup_entries t); [done|done|]. eexists; split; [exact Hnew|done].
  - intros s w Hs. destruct (decide (s = slot)) as [->|Hne].
    + rewrite list_lookup_insert_eq in Hs by done. simplify_eq.
      exists (Z.lor tag (bloom_tag (hash x86_64 k))), (S (length ins)). split; [done|].
      split; [apply in_u_lor; [lia|done|apply bloom_tag_range]|]. split; [lia|]. split.
      * cbn [slot_chain]. rewrite (proj2 (Nat.eqb_eq _ _)) by (unfold slot, slot_of; by rewrite Hshift).
        split; [done|]. split; [lia|]. eexists; split; [exact Hnew|]. by apply Hcold.
      * intros k' r' [Heq|Hin]%elem_of_cons Hk'.
        -- simplify_eq. rewrite Z.lor_comm. apply lor_absorb, Z.land_diag.
        -- apply lor_absorb. by eapply Htags.
    + rewrite list_lookup_insert_ne in Hs by done. destruct (Hchain s w Hs) as (tag' & idx' & -> & T1 & T2 & T3 & T4).
      exists tag', idx'. split; [done|]. split; [done|]. split; [lia|]. split.
      * cbn [slot_chain]. rewrite (proj2 (Nat.eqb_neq _ _)); [by apply Hcold|].
        unfold slot, slot_of in Hne. cbn [fst]. rewrite Hshift in Hne. congruence.
      * intros k' r' [Heq|Hin]%elem_of_cons Hk'; [|by eapply T4]. by simplify_eq.
Qed.

(** ** Probing *)

(** The rows inserted for a key, newest first. *)
Definition matches (k : Z) (ins : list (Z * Z)) : list Z := snd <$> filter (λ kr, kr.1 = k) ins.

(** Entry [i] is insertion [i - 1]; the rows of [k] among the entries of a chain. *)
Fixpoint chain_rows (es : list JoinEntry) (k : Z) (l : list nat) : list Z :=
  match l with
  | [] => []
  | i :: l => match es !! i with
              | Some e => if Z.eqb (key e) k then row_idx e :: chain_rows es k l else chain_rows es k l
              | None => chain_rows es k l
              end
  end.

Lemma walk_all_chain es k l idx fuel out :
  chain es idx l → (length l <= fuel)%nat → walk_all fuel es k idx out = Some (out ++ chain_rows es k l).
Proof.
  revert idx fuel out; induction l as [|i l IH]; intros idx fuel out Hc Hf.
  - simpl in Hc. subst. simpl. rewrite app_nil_r. by destruct fuel.
  - destruct Hc as (-> & Hi & e & He & Hc). destruct fuel as [|fuel]; [simpl in Hf; lia|]. cbn [walk_all chain_rows].
    rewrite (proj2 (Z.eqb_neq _ _)) by lia. rewrite Nat2Z.id, He. cbn [mbind option_bind].
    rewrite IH by (done || simpl in Hf; lia). destruct (Z.eqb (key e) k); [|done]. by rewrite <- app_assoc.
Qed.

Lemma walk_first_chain es k l idx fuel :
  chain es idx l → (length l <= fuel)%nat → walk_first fuel es k idx = Some (head (chain_rows es k l)).
Proof.
  revert idx fuel; induction l as [|i l IH]; intros idx fuel Hc Hf.
  - simpl in Hc. subst. by destruct fuel.
  - destruct Hc as (-> & Hi & e & He & Hc). destruct fuel as [|fuel]; [simpl in Hf; lia|]. cbn [walk_first chain_rows].
    rewrite (proj2 (Z.eqb_neq _ _)) by lia. rewrite Nat2Z.id, He. cbn [mbind option_bind].
    destruct (Z.eqb (key e) k); [done|]. apply IH; [done|simpl in Hf; lia].
Qed.

Lemma length_slot_chain j slot ins : (length (slot_chain j slot ins) <= length ins)%nat.
Proof. induction ins as [|kr ins IH]; simpl; [done|]. destruct (Nat.eqb _ slot); simpl; lia. Qed.

(** Along the chain of the key's own slot no insertion of the key is missed. *)
Lemma chain_rows_matches es j k (ins : list (Z * Z)) :
  (∀ i k r, reverse ins !! i = Some (k, r) → ∃ e, es !! S i = Some e ∧ key e = k ∧ row_idx e = r) →
  chain_rows es k (slot_chain j (Z.to_nat (Z.shiftr (hash x86_64 k) (64 - Z.of_nat j))) ins) = matches k ins.
Proof.
  intros H. unfold matches. induction ins as [|[k' r'] ins IH]; [done|]. cbn [slot_chain].
  rewrite filter_cons. cbn [fst].
  assert (∀ i k r, reverse ins !! i = Some (k, r) → ∃ e, es !! S i = Some e ∧ key e = k ∧ row_idx e = r) as H'.
  { intros i k0 r0 Hi. apply H. rewrite reverse_cons. apply lookup_app_Some. by left. }
  destruct (H (length ins) k' r') as (e & He & Hk & Hr).
  { rewrite reverse_cons, lookup_app_r by (by rewrite length_reverse). by rewrite length_reverse, Nat.sub_diag. }
  case_decide as Hd.
  - rewrite Hd in Hk |- *. rewrite Nat.eqb_refl. cbn [chain_rows fmap list_fmap snd]. rewrite He, Hk, Z.eqb_refl, Hr. by rewrite IH.
  - destruct (Nat.eqb _ _); [|by apply IH]. cbn [chain_rows].
    rewrite He, Hk, (proj2 (Z.eqb_neq _ _)), IH by done. done.
Qed.

Lemma matches_nil_or k ins : matches k ins = [] ∨ ∃ r, (k, r) ∈ ins.
Proof.
  destruct (matches k ins) as [|r l] eqn:E; [by left|]. right. exists r.
  assert (r ∈ matches k ins) as Hr by (rewrite E; by left). unfold matches in Hr.
  apply list_elem_of_fmap in Hr as ([k' r'] & -> & Hf). apply list_elem_of_filter in Hf as [Hk Hin]. simpl in *.
  by subst.
Qed.

Lemma probe_holds j t ins k :
  (4 <= j < 64)%nat → holds j t ins → Z.of_nat (length ins) < 2 ^ 32 →
  probe_all t k = Some (matches k ins) ∧ probe t k = Some (head (matches k ins)).
Proof.
  intros Hj [Hdir Hshift Hlen Hroom Hent Hchain] Hn. unfold probe_all, probe.
  assert (slot_of t k < length (directory t))%nat as Hslot.
  { unfold slot_of. rewrite Hdir, Hshift. apply slot_bound; [done|apply hash_range]. }
  destruct (lookup_lt_is_Some_2 _ _ Hslot) as [w Hw]. rewrite Hw. cbn [mbind option_bind].
  destruct (Hchain _ _ Hw) as (tag & idx & -> & Htag & Hidx & Hch & Htags).
  unfold could_contain. rewrite packed_tag, packed_idx by (done || lia).
  unfold slot_of in Hch. rewrite Hshift in Hch.
  rewrite (walk_all_chain _ _ _ _ _ _ Hch), (walk_first_chain _ _ _ _ _ Hch)
    by (etrans; [apply length_slot_chain|]; lia).
  rewrite (chain_rows_matches (entries t)) by done.
  destruct (negb (Z.eqb tag 0) && _) eqn:Hc; [done|].
  destruct (matches_nil_or k ins) as [->|[r Hr]]; [done|]. exfalso.
  pose proof (Htags k r Hr eq_refl) as Ht. rewrite Ht, Z.eqb_refl, andb_true_r in Hc.
  apply negb_false_iff, Z.eqb_eq in Hc. subst tag. rewrite Z.land_0_l in Ht. by eapply bloom_tag_nonzero.
Qed.

Lemma insert_all_holds j ins t old :
  (4 <= j < 64)%nat → holds j t old → Z.of_nat (length old + length ins) < 2 ^ 32 →
  ∃ t', insert_all ins t = Some t' ∧ holds j t' (reverse ins ++ old).
Proof.
  intros Hj. revert t old; induction ins as [|[k r] ins IH]; intros t old Ht Hn; [by exists t|].
  simpl in Hn. destruct (insert_holds j t old k r Hj Ht) as (t1 & E & H1); [lia|].
  cbn [insert_all]. rewrite E. cbn [mbind option_bind].
  destruct (IH t1 ((k, r) :: old) H1) as (t2 & E2 & H2); [simpl; lia|]. exists t2. split; [done|].
  by rewrite reverse_cons, <- app_assoc.
Qed.
End table.

(** the join hash table is an exact multimap.  For either hash function, after
    inserting any build side of fewer than 2^32 - 1 rows into a table of any size, no
    access failed, [probe_all] of any key returns exactly the rows inserted for it,
    newest first, and [probe] the newest of them: tags never hide a match, colliding
    keys never leak one, and every chain walk ends. *)
Theorem join_table_exact x86_64 n ins k :
  Z.of_nat n < 2 ^ 62 → Z.of_nat (length ins) < 2 ^ 32 →
  ∃ t, insert_all x86_64 ins (new n) = Some t ∧
    probe_all x86_64 t k = Some (matches k (reverse ins)) ∧
    probe x86_64 t k = Some (head (matches k (reverse ins))) ∧
    table_len t = length ins.
Proof.
  intros Hn Hins. destruct (holds_new x86_64 n Hn) as (j & Hj & Hnew).
  destruct (insert_all_holds x86_64 j ins (new n) [] Hj Hnew) as (t & E & H); [done|].
  rewrite app_nil_r in H. exists t. split; [done|].
  destruct (probe_holds x86_64 j t (reverse ins) k Hj H) as [P1 P2]; [by rewrite length_reverse|].
  split; [done|]. split; [done|]. unfold table_len. rewrite (h_len _ _ _ _ H), length_reverse. lia.
Qed.

Lemma join_table_exact_witness :
  ∃ t, insert_all true [(7, 0); (9, 1); (7, 2)] (new 1) = Some t ∧ probe_all true t 7 = Some [2; 0].
Proof.
  destruct (join_table_exact true 1 [(7, 0); (9, 1); (7, 2)] 7) as (t & E & P & _).
  - lia.
  - simpl; lia.
  - exists t. split; [exact E|]. rewrite P. reflexivity.
Defined.
End JoinHashM.
