(* ===== verification/Bloom.v ===== *)
(** * The join Bloom filter (src/src/exec/bloom_filter.rs)

    A power-of-two array of 64-bit words addressed by double hashing, with the batch
    routines on eight lanes.  Words are read and written unchecked in the source; an
    access outside the array is [None] here, so a result that is [Some] says every
    access was in bounds.  The floating-point estimate of the false-positive rate and
    the prefetch hints are not modelled. *)

From Stdlib Require Import ZArith Lia.
From stdpp Require Import prelude list numbers.
From S2P Require Import Prelude Bits Crc32c.
Local Open Scope Z_scope.

Module BloomM.

Record BloomFilter := mkBloom { bits : list Z; word_mask : Z; num_hashes : nat; num_items : Z }.

Definition new (expected : nat) : BloomFilter :=
  let min_words := ((expected * 10 + 63) / 64)%nat in
  let nwords := next_power_of_two (Nat.max min_words 1) in
  mkBloom (replicate nwords 0) (Z.of_nat nwords - 1) 3 0.

Definition with_hashes (expected n : nat) : BloomFilter :=
  let f := new expected in
  mkBloom (bits f) (word_mask f) (Nat.min (Nat.max n 1) 7) (num_items f).

Definition len (f : BloomFilter) : Z := num_items f.
Definition is_empty (f : BloomFilter) : bool := Z.eqb (num_items f) 0.
Definition bit_count (f : BloomFilter) : nat := (length (bits f) * 64)%nat.

Definition mix64 (z : Z) : Z :=
  let z := wrapping_add z 0x9E3779B97F4A7C15 in
  let z := wrapping_mul (Z.lxor z (Z.shiftr z 30)) 0xBF58476D1CE4E5B9 in
  let z := wrapping_mul (Z.lxor z (Z.shiftr z 27)) 0x94D049BB133111EB in
  Z.lxor z (Z.shiftr z 31).

Definition hash_pair (x86_64 : bool) (k : Z) : Z * Z :=
  if x86_64 then
    let crc1 := Crc.mm_crc32 8 0 k in
    let crc2 := Crc.mm_crc32 8 (2 ^ 64 - 1) k in
    (mix64 crc1, Z.lor (mix64 crc2) 1)
  else (mix64 k, Z.lor (mix64 (wrapping_add k 0x9E3779B97F4A7C15)) 1).

Definition word_idx (f : BloomFilter) (bit : Z) : nat := Z.to_nat (Z.land (Z.shiftr bit 6) (word_mask f)).

Definition set_bit (bit : Z) (f : BloomFilter) : option BloomFilter :=
  w ← bits f !! word_idx f bit;
  Some (mkBloom (<[word_idx f bit := Z.lor w (Z.shiftl 1 (Z.land bit 63))]> (bits f))
          (word_mask f) (num_hashes f) (num_items f)).

Definition test_bit (f : BloomFilter) (bit : Z) : option bool :=
  w ← bits f !! word_idx f bit; Some (negb (Z.eqb (Z.land (Z.shiftr w (Z.land bit 63)) 1) 0)).

Section filter.
Context (x86_64 : bool).

Fixpoint insert_loop (n : nat) (bit h2 : Z) (f : BloomFilter) : option BloomFilter :=
  match n with
  | O => Some f
  | S n => f' ← set_bit bit f; insert_loop n (wrapping_add bit h2) h2 f'
  end.

Definition insert (k : Z) (f : BloomFilter) : option BloomFilter :=
  let '(h1, h2) := hash_pair x86_64 k in
  f' ← insert_loop (num_hashes f) h1 h2 f;
  Some (mkBloom (bits f') (word_mask f') (num_hashes f') (wrapping_add (num_items f') 1)).

(** [_mm512_conflict_epi64]: lane [j] holds a bit for every earlier equal lane. *)
Definition conflict (lanes : list Z) (j : nat) : Z :=
  pack ((λ i, bool_decide (i < j)%nat && Z.eqb (nth i lanes 0) (nth j lanes 0)) <$> seq 0 8).

Definition earlier_mask (j : nat) : Z := if Nat.eqb j 0 then 0 else Z.shiftl 1 (Z.of_nat j) - 1.

Fixpoint insert_lanes (lanes : list Z) (js : list nat) (f : BloomFilter) : option BloomFilter :=
  match js with
  | [] => Some f
  | j :: js =>
    if Z.eqb (Z.land (conflict lanes j) (earlier_mask j)) 0
    then f' ← insert (nth j lanes 0) f; insert_lanes lanes js f'
    else insert_lanes lanes js f
  end.

(** [while i < keys.len() { load 8 keys; ...; i += 8 }]; a load past the end is out of
    bounds. *)
Fixpoint insert_batch_loop (fuel : nat) (keys : list Z) (f : BloomFilter) : option BloomFilter :=
  match fuel, keys with
  | _, [] => Some f
  | O, _ => None
  | S fuel, _ =>
    if bool_decide (length keys < 8)%nat then None
    else f' ← insert_lanes (take 8 keys) (seq 0 8) f; insert_batch_loop fuel (drop 8 keys) f'
  end.

Definition insert_batch (keys : list Z) (f : BloomFilter) : option BloomFilter :=
  insert_batch_loop (length keys) keys f.

Fixpoint contain_loop (n : nat) (bit h2 : Z) (f : BloomFilter) : option bool :=
  match n with
  | O => Some true
  | S n => b ← test_bit f bit; if b : bool then contain_loop n (wrapping_add bit h2) h2 f else Some false
  end.

Definition might_contain (f : BloomFilter) (k : Z) : option bool :=
  let '(h1, h2) := hash_pair x86_64 k in contain_loop (num_hashes f) h1 h2 f.

(** One turn of the batch test: gather eight words, test a bit of each, drop the lanes
    whose bit is unset, advance every lane. *)
Fixpoint batch_loop (n : nat) (bit h2s : list Z) (f : BloomFilter) (result_mask : Z) : option Z :=
  match n with
  | O => Some result_mask
  | S n =>
    words ← mapM (λ b, bits f !! word_idx f b) bit;
    let test_masks := (λ b, wrap_u 64 (Z.shiftl 1 (Z.land b 63))) <$> bit in
    let and_result := zip_with Z.land words test_masks in
    let not_set_mask := pack ((λ r, Z.eqb r 0) <$> and_result) in
    batch_loop n (zip_with wrapping_add bit h2s) h2s f (Z.land result_mask (not_w 8 not_set_mask))
  end.

Definition might_contain_batch (f : BloomFilter) (keys : list Z) : option Z :=
  let hs := hash_pair x86_64 <$> keys in
  batch_loop (num_hashes f) hs.*1 hs.*2 f 0xFF.

(** ** Addressing *)

(** A power of two of words, and the mask that wraps their indices. *)
Definition wf (f : BloomFilter) : Prop :=
  ∃ j : nat, length (bits f) = (2 ^ j)%nat ∧ word_mask f = 2 ^ Z.of_nat j - 1.

Lemma word_idx_bound f bit : wf f → (word_idx f bit < length (bits f))%nat.
Proof.
  intros (j & Hl & Hm). unfold word_idx. rewrite Hl, Hm.
  replace (2 ^ Z.of_nat j - 1) with (Z.ones (Z.of_nat j)) by (rewrite Z.ones_equiv; lia).
  rewrite Z.land_ones by lia. pose proof (Z.pow_pos_nonneg 2 (Z.of_nat j) ltac:(lia) ltac:(lia)).
  pose proof (Z.mod_pos_bound (Z.shiftr bit 6) (2 ^ Z.of_nat j) ltac:(lia)).
  apply Nat2Z.inj_lt. rewrite Z2Nat.id, Nat2Z.inj_pow by lia. change (Z.of_nat 2) with 2. lia.
Qed.

(** What [test_bit] reads; only the addressed bit matters. *)
Definition bit_at (f : BloomFilter) (bit : Z) : bool :=
  Z.testbit (nth (word_idx f bit) (bits f) 0) (Z.land bit 63).

Lemma land63_nonneg bit : 0 <= Z.land bit 63.
Proof. apply Z.land_nonneg. right. lia. Qed.

Lemma land1_eqb w i : 0 <= i → negb (Z.eqb (Z.land (Z.shiftr w i) 1) 0) = Z.testbit w i.
Proof.
  intros Hi. rewrite Z.land_ones with (n := 1) by lia. rewrite Z.shiftr_div_pow2, Z.testbit_eqb by lia.
  change (2 ^ 1) with 2. pose proof (Z.mod_pos_bound (w / 2 ^ i) 2).
  destruct (Z.eqb_spec ((w / 2 ^ i) mod 2) 0), (Z.eqb_spec ((w / 2 ^ i) mod 2) 1); (done || lia).
Qed.

Lemma test_bit_spec f bit : wf f → test_bit f bit = Some (bit_at f bit).
Proof.
  intros Hf. unfold test_bit, bit_at.
  destruct (lookup_lt_is_Some_2 _ _ (word_idx_bound f bit Hf)) as [w Hw]. rewrite Hw. cbn [mbind option_bind].
  rewrite (nth_lookup_Some _ _ _ _ Hw). f_equal. apply land1_eqb, land63_nonneg.
Qed.

(** Filters of one shape, the second with at least the bits of the first. *)
Definition grows (f f' : BloomFilter) : Prop :=
  wf f' ∧ num_hashes f' = num_hashes f ∧ ∀ bit, bit_at f bit = true → bit_at f' bit = true.

#[global] Instance grows_trans : Transitive grows.
Proof. intros f g h (A1 & A2 & A3) (B1 & B2 & B3). split; [done|]. split; [congruence|]. auto. Qed.

Lemma grows_refl f : wf f → grows f f.
Proof. by split. Qed.

Lemma set_bit_spec f bit : wf f → ∃ f', set_bit bit f = Some f' ∧ grows f f' ∧ bit_at f' bit = true.
Proof.
  intros Hf. pose proof (word_idx_bound f bit Hf) as Hb. destruct (lookup_lt_is_Some_2 _ _ Hb) as [w Hw].
  unfold set_bit. rewrite Hw. eexists; split; [done|].
  set (f' := mkBloom _ _ _ _). assert (∀ b, word_idx f' b = word_idx f b) as Hidx by done.
  assert (∀ b, bit_at f' b = if decide (word_idx f b = word_idx f bit)
                             then Z.testbit w (Z.land b 63) || Z.testbit (Z.shiftl 1 (Z.land bit 63)) (Z.land b 63)
                             else bit_at f b) as Hat.
  { intros b. unfold bit_at. rewrite Hidx. unfold f'. cbn [bits]. case_decide as E.
    - rewrite E, (nth_lookup_Some _ _ _ (Z.lor w (Z.shiftl 1 (Z.land bit 63)))) by (by apply list_lookup_insert_eq).
      apply Z.lor_spec.
    - f_equal. rewrite !nth_lookup. by rewrite list_lookup_insert_ne by congruence. }
  split.
  - split; [|split; [done|]].
    + destruct Hf as (j & H1 & H2). exists j. unfold f'. cbn [bits word_mask]. by rewrite length_insert.
    + intros b Hbt. rewrite Hat. case_decide as E; [|done]. unfold bit_at in Hbt.
      rewrite E, (nth_lookup_Some _ _ _ _ Hw) in Hbt. by rewrite Hbt.
  - rewrite Hat, decide_True by done. rewrite Z.shiftl_spec, Z.sub_diag by apply land63_nonneg. apply orb_true_r.
Qed.

(** ** Keys *)
Fixpoint positions (n : nat) (bit h2 : Z) : list Z :=
  match n with O => [] | S n => bit :: positions n (wrapping_add bit h2) h2 end.

Definition has (f : BloomFilter) (k : Z) : bool :=
  forallb (bit_at f) (positions (num_hashes f) (hash_pair x86_64 k).1 (hash_pair x86_64 k).2).

Lemma contain_loop_spec f n bit h2 :
  wf f → contain_loop n bit h2 f = Some (forallb (bit_at f) (positions n bit h2)).
Proof.
  intros Hf. revert bit; induction n as [|n IH]; intros bit; [done|]. cbn [contain_loop positions forallb].
  rewrite test_bit_spec by done. cbn [mbind option_bind]. destruct (bit_at f bit); [apply IH|done].
Qed.

Lemma might_contain_spec f k : wf f → might_contain f k = Some (has f k).
Proof.
  intros Hf. unfold might_contain, has. destruct (hash_pair x86_64 k) as [h1 h2]. by apply contain_loop_spec.
Qed.

Lemma has_grows f f' k : grows f f' → has f k = true → has f' k = true.
Proof.
  intros (_ & Hn & H). unfold has. rewrite Hn, !forallb_forall. auto.
Qed.

Lemma insert_loop_spec n bit h2 f :
  wf f → ∃ f', insert_loop n bit h2 f = Some f' ∧ grows f f' ∧ forallb (bit_at f') (positions n bit h2) = true.
Proof.
  revert bit f; induction n as [|n IH]; intros bit f Hf; [exists f; split; [done|]; by split; [apply grows_refl|]|].
  cbn [insert_loop positions forallb]. destruct (set_bit_spec f bit Hf) as (f1 & -> & G1 & B1). cbn [mbind option_bind].
  destruct (IH (wrapping_add bit h2) f1) as (f2 & -> & G2 & B2); [by destruct G1|]. exists f2. split; [done|].
  split; [by etrans|]. rewrite B2, andb_true_r. by apply G2.
Qed.

Lemma insert_spec f k : wf f → ∃ f', insert k f = Some f' ∧ grows f f' ∧ has f' k = true.
Proof.
  intros Hf. unfold insert, has. destruct (hash_pair x86_64 k) as [h1 h2].
  destruct (insert_loop_spec (num_hashes f) h1 h2 f Hf) as (f1 & -> & (W & N & G) & B). cbn [mbind option_bind].
  eexists; split; [done|]. split; [done|]. cbn [num_hashes fst snd]. by rewrite N.
Qed.

(** A lane that is skipped repeats an earlier one. *)
Lemma conflict_earlier lanes j :
  (j < 8)%nat → Z.land (conflict lanes j) (earlier_mask j) ≠ 0 → ∃ i, (i < j)%nat ∧ nth i lanes 0 = nth j lanes 0.
Proof.
  intros Hj H. unfold earlier_mask in H. destruct (Nat.eqb_spec j 0) as [->|Hj0]; [by rewrite Z.land_0_r in H|].
  set (l := (λ i, bool_decide (i < j)%nat && Z.eqb (nth i lanes 0) (nth j lanes 0)) <$> seq 0 8) in *.
  assert (length l = 8%nat) as Hl by (unfold l; by rewrite length_fmap, length_seq).
  destruct (existsb (λ i, Z.eqb (nth i lanes 0) (nth j lanes 0)) (seq 0 j)) eqn:Hn.
  { apply existsb_exists in Hn as (i & Hi%in_seq & E%Z.eqb_eq). exists i. split; [lia|done]. }
  exfalso. apply H. apply (bits_of_inj 8).
  - apply in_u_land; [lia| |].
    + unfold conflict. fold l. rewrite <- Hl. apply pack_range.
    + rewrite Z.shiftl_1_l. pose proof (Z.pow_pos_nonneg 2 (Z.of_nat j)).
      assert (2 ^ Z.of_nat j < 2 ^ 8) by (apply Z.pow_lt_mono_r; lia). unfold in_u. simpl Z.of_nat. lia.
  - unfold in_u. simpl. lia.
  - rewrite bits_of_0, Z.shiftl_1_l, bits_of_mask by lia. unfold conflict. fold l. rewrite <- Hl at 1. rewrite bits_of_pack.
    assert (take j l = replicate j false) as ->; [|rewrite <- replicate_add; f_equal; lia].
    apply list_eq. intros i. destruct (decide (i < j)%nat) as [Hi|Hi].
    + rewrite lookup_take_lt, lookup_replicate_2 by done. unfold l. rewrite list_lookup_fmap, lookup_seq_lt by lia. simpl.
      f_equal. rewrite bool_decide_true by done. simpl. apply Z.eqb_neq. intros E. apply not_true_iff_false in Hn. apply Hn, existsb_exists.
      exists i. split; [apply in_seq; lia|by apply Z.eqb_eq].
    + rewrite !lookup_ge_None_2; [done|rewrite length_replicate; lia|rewrite length_take; lia].
Qed.

(** After the lanes before [j] are stored, so are the ones the loop goes on to. *)
Lemma insert_lanes_spec lanes n j f :
  (j + n <= 8)%nat → wf f → (∀ i, (i < j)%nat → has f (nth i lanes 0) = true) →
  ∃ f', insert_lanes lanes (seq j n) f = Some f' ∧ grows f f' ∧ ∀ i, (i < j + n)%nat → has f' (nth i lanes 0) = true.
Proof.
  revert j f; induction n as [|n IH]; intros j f Hj Hf Hdone.
  - exists f. split; [done|]. split; [by apply grows_refl|]. intros i Hi. apply Hdone. lia.
  - cbn [seq insert_lanes]. replace (j + S n)%nat with (S j + n)%nat by lia.
    destruct (Z.eqb_spec (Z.land (conflict lanes j) (earlier_mask j)) 0) as [E|E].
    + destruct (insert_spec f (nth j lanes 0) Hf) as (f1 & -> & G1 & H1). cbn [mbind option_bind].
      destruct (IH (S j) f1) as (f2 & -> & G2 & H2); [lia|by destruct G1| |].
      { intros i Hi. destruct (decide (i = j)) as [->|]; [done|]. eapply has_grows; [done|]. apply Hdone. lia. }
      exists f2. split; [done|]. split; [by etrans|done].
    + apply IH; [lia|done|]. intros i Hi. destruct (decide (i = j)) as [->|]; [|apply Hdone; lia].
      destruct (conflict_earlier lanes j) as (i & Hi' & <-); [lia|done|]. by apply Hdone.
Qed.

Lemma insert_batch_loop_spec fuel keys f :
  wf f → (length keys <= fuel)%nat → (length keys mod 8 = 0)%nat →
  ∃ f', insert_batch_loop fuel keys f = Some f' ∧ grows f f' ∧ Forall (λ k, has f' k = true) keys.
Proof.
  revert keys f. induction fuel as [|fuel IH]; intros keys f Hf Hfuel Hk; destruct keys as [|k keys]; cbn [insert_batch_loop].
  - exists f. split; [done|]. by split; [apply grows_refl|].
  - simpl in Hfuel. lia.
  - exists f. split; [done|]. by split; [apply grows_refl|].
  - set (ks := k :: keys) in *.
    assert (8 <= length ks)%nat as H8 by (pose proof (Nat.div_mod (length ks) 8 ltac:(lia)); simpl in *; lia).
    rewrite bool_decide_false by lia.
    destruct (insert_lanes_spec (take 8 ks) 8 0 f) as (f1 & -> & G1 & H1); [lia|done|lia|]. cbn [mbind option_bind].
    destruct (IH (drop 8 ks) f1) as (f2 & -> & G2 & H2); [by destruct G1|rewrite length_drop; lia| |].
    { rewrite length_drop. pose proof (Nat.div_mod (length ks) 8 ltac:(lia)) as Hd. rewrite Hk in Hd.
      replace (length ks - 8)%nat with ((length ks / 8 - 1) * 8)%nat by lia. apply Nat.Div0.mod_mul. }
    exists f2. split; [done|]. split; [by etrans|]. rewrite <- (take_drop 8 ks). apply Forall_app; split; [|done].
    apply Forall_lookup_2. intros i x Hx. eapply has_grows; [done|].
    pose proof (lookup_lt_Some _ _ _ Hx) as Hi. rewrite length_take in Hi.
    rewrite <- (nth_lookup_Some _ _ 0 _ Hx). apply H1. lia.
Qed.

Lemma insert_batch_spec keys f :
  wf f → (length keys mod 8 = 0)%nat →
  ∃ f', insert_batch keys f = Some f' ∧ grows f f' ∧ Forall (λ k, has f' k = true) keys.
Proof. intros Hf Hk. by apply insert_batch_loop_spec. Qed.

(** ** The batch test *)
Lemma test_mask_zero w bit : Z.eqb (Z.land w (wrap_u 64 (Z.shiftl 1 (Z.land bit 63)))) 0 = negb (Z.testbit w (Z.land bit 63)).
Proof.
  pose proof (land63_nonneg bit) as H0. set (i := Z.land bit 63) in *.
  assert (i < 64) as Hi.
  { unfold i. change 63 with (Z.ones 6). rewrite Z.land_ones by lia. apply (Z.mod_pos_bound bit 64). lia. }
  rewrite Z.shiftl_1_l, wrap_u_small by (by apply in_u_pow2).
  destruct (Z.testbit w i) eqn:E; simpl.
  - apply Z.eqb_neq. intros H. apply (f_equal (λ z, Z.testbit z i)) in H.
    rewrite Z.land_spec, E, Z.pow2_bits_true, Z.bits_0 in H by lia. done.
  - apply Z.eqb_eq. apply Z.bits_inj'. intros k Hk. rewrite Z.land_spec, Z.bits_0.
    destruct (decide (k = i)) as [->|Hne]; [by rewrite E|]. rewrite Z.pow2_bits_false by lia. apply andb_false_r.
Qed.

Lemma mapM_words f bit :
  wf f → mapM (λ b, bits f !! word_idx f b) bit = Some ((λ b, nth (word_idx f b) (bits f) 0) <$> bit).
Proof.
  intros Hf. apply mapM_Some_2. induction bit as [|b bit IH]; [by constructor|]. constructor; [|done].
  destruct (lookup_lt_is_Some_2 _ _ (word_idx_bound f b Hf)) as [w Hw]. by rewrite (nth_lookup_Some _ _ _ _ Hw).
Qed.

Lemma batch_loop_spec f n bit h2s r :
  wf f → length bit = 8%nat → length h2s = 8%nat →
  ∃ m, batch_loop n bit h2s f r = Some m ∧
    bits_of 8 m = zip_with andb (bits_of 8 r) (zip_with (λ b h, forallb (bit_at f) (positions n b h)) bit h2s).
Proof.
  intros Hf. revert bit r; induction n as [|n IH]; intros bit r Hb Hh.
  - exists r. split; [done|]. apply list_eq_same_length with 8%nat;
      [rewrite !length_zip_with, length_bits_of; lia|apply length_bits_of|].
    intros i x y Hi Hx Hy. apply lookup_zip_with_Some in Hy as (a & b & -> & Ha & Hb').
    apply lookup_zip_with_Some in Hb' as (? & ? & -> & _ & _). rewrite andb_true_r. congruence.
  - cbn [batch_loop]. rewrite mapM_words by done. cbn [mbind option_bind].
    set (ns := pack _). assert (bits_of 8 ns = (λ b, negb (bit_at f b)) <$> bit) as Hns.
    { unfold ns. rewrite zip_with_fmap_l, zip_with_fmap_r, zip_with_diag, <- list_fmap_compose.
      rewrite <- Hb at 1. rewrite <- (length_fmap ((λ r, Z.eqb r 0) ∘ (λ x, Z.land (nth (word_idx f x) (bits f) 0) (wrap_u 64 (Z.shiftl 1 (Z.land x 63)))))) at 1.
      rewrite bits_of_pack. apply list_fmap_ext. intros i x _. simpl. apply test_mask_zero. }
    destruct (IH (zip_with wrapping_add bit h2s) (Z.land r (not_w 8 ns))) as (m & -> & Hm); [rewrite length_zip_with; lia|done|].
    exists m. split; [done|]. rewrite Hm, (bits_of_zip andb) by (intros; apply Z.land_spec).
    rewrite (bits_of_not 8), Hns, <- list_fmap_compose.
    apply list_eq. intros i. rewrite !lookup_zip_with, list_lookup_fmap.
    destruct (bits_of 8 r !! i), (bit !! i) as [b1|], (h2s !! i) as [h1|]; try done. simpl.
    by rewrite negb_involutive, andb_assoc.
Qed.
End filter.

(** ** Using a filter *)

(** What the build side of a join does. *)
Inductive op := InsertOne (k : Z) | InsertBatch (keys : list Z).

Definition op_keys (o : op) : list Z := match o with InsertOne k => [k] | InsertBatch keys => keys end.
Definition op_ok (o : op) : Prop := match o with InsertOne _ => True | InsertBatch keys => (length keys mod 8 = 0)%nat end.

Definition do_op (x86_64 : bool) (o : op) (f : BloomFilter) : option BloomFilter :=
  match o with InsertOne k => insert x86_64 k f | InsertBatch keys => insert_batch x86_64 keys f end.

Fixpoint run (x86_64 : bool) (ops : list op) (f : BloomFilter) : option BloomFilter :=
  match ops with
  | [] => Some f
  | o :: ops => f' ← do_op x86_64 o f; run x86_64 ops f'
  end.

Lemma wf_with_hashes n h : wf (with_hashes n h).
Proof.
  unfold with_hashes, new, next_power_of_two. eexists (Nat.log2_up _). cbn [bits word_mask].
  split; [apply length_replicate|]. by rewrite Nat2Z.inj_pow.
Qed.

Lemma bloom_run_spec x86_64 ops f :
  wf f → Forall op_ok ops →
  ∃ f', run x86_64 ops f = Some f' ∧ grows f f' ∧ ∀ o k, o ∈ ops → k ∈ op_keys o → has x86_64 f' k = true.
Proof.
  intros Hf Ho. revert f Hf; induction Ho as [|o ops Ho Hops IH]; intros f Hf.
  - exists f. split; [done|]. split; [by apply grows_refl|]. intros o k H. by apply not_elem_of_nil in H.
  - assert (∃ f1, do_op x86_64 o f = Some f1 ∧ grows f f1 ∧ Forall (λ k, has x86_64 f1 k = true) (op_keys o))
      as (f1 & E & G1 & H1).
    { destruct o as [k|keys]; cbn [do_op op_keys].
      - destruct (insert_spec x86_64 f k Hf) as (f1 & E & G & H). exists f1. split; [done|]. split; [done|].
        apply Forall_cons_2; [done|apply Forall_nil_2].
      - by apply insert_batch_spec. }
    cbn [run]. rewrite E. cbn [mbind option_bind]. destruct (IH f1) as (f2 & E2 & G2 & H2); [by destruct G1|].
    exists f2. split; [done|]. split; [by etrans|]. intros o' k [->|Hin]%elem_of_cons Hk; [|by eapply H2].
    eapply has_grows; [done|]. by eapply (proj1 (list.Forall_forall _ _) H1).
Qed.

(** the Bloom filter has no false negatives.  For either hash, any size and any
    number of hash functions, after any sequence of single and batch insertions (whose
    batches are multiples of eight keys) every access was in bounds and every inserted
    key, skipped duplicates included, is reported as possibly present. *)
Theorem bloom_no_false_negative x86_64 n h ops :
  Forall op_ok ops →
  ∃ f, run x86_64 ops (with_hashes n h) = Some f ∧
    ∀ o k, o ∈ ops → k ∈ op_keys o → might_contain x86_64 f k = Some true.
Proof.
  intros Ho. destruct (bloom_run_spec x86_64 ops (with_hashes n h) (wf_with_hashes n h) Ho) as (f & E & (W & _ & _) & H).
  exists f. split; [done|]. intros o k Hin Hk. rewrite might_contain_spec by done. f_equal. by eapply H.
Qed.

Lemma bloom_no_false_negative_witness :
  ∃ f, run true [InsertOne 5; InsertBatch [1; 2; 1; 3; 4; 5; 6; 7]] (with_hashes 1 3) = Some f ∧
       might_contain true f 4 = Some true.
Proof.
  destruct (bloom_no_false_negative true 1 3 [InsertOne 5; InsertBatch [1; 2; 1; 3; 4; 5; 6; 7]]) as (f & E & H).
  - repeat (apply Forall_cons_2; [reflexivity || exact I|]). apply Forall_nil_2.
  - exists f. split; [exact E|].
    apply (H (InsertBatch [1; 2; 1; 3; 4; 5; 6; 7])); [right; left|do 4 right; left].
Defined.

(** the vector test is the scalar test.  On every filter a program can build and
    every eight keys, lane [i] of the mask of [might_contain_batch] is the answer of
    [might_contain] for key [i]. *)
Theorem bloom_batch_scalar x86_64 n h ops f keys :
  Forall op_ok ops → run x86_64 ops (with_hashes n h) = Some f → length keys = 8%nat →
  ∃ m, might_contain_batch x86_64 f keys = Some m ∧
    ∀ i k, keys !! i = Some k → might_contain x86_64 f k = Some (Z.testbit m (Z.of_nat i)).
Proof.
  intros Ho Hrun Hk. destruct (bloom_run_spec x86_64 ops _ (wf_with_hashes n h) Ho) as (f' & E & (W & _ & _) & _).
  simplify_eq. unfold might_contain_batch.
  destruct (batch_loop_spec f (num_hashes f) (hash_pair x86_64 <$> keys).*1 (hash_pair x86_64 <$> keys).*2 0xFF)
    as (m & -> & Hm); [done|by rewrite !length_fmap|by rewrite !length_fmap|].
  exists m. split; [done|]. intros i k Hi. rewrite might_contain_spec by done. f_equal.
  pose proof (lookup_lt_Some _ _ _ Hi) as Hlt. apply (f_equal (lookup i)) in Hm.
  rewrite lookup_bits_of, !lookup_zip_with, !list_lookup_fmap, Hi, lookup_bits_of in Hm by lia. simpl in Hm.
  injection Hm as ->. unfold has. rewrite (testbit_ones 8) by lia. by rewrite bool_decide_true by lia.
Qed.

Lemma bloom_batch_scalar_witness :
  ∃ f m, run false [InsertOne 5] (with_hashes 1 3) = Some f ∧
    might_contain_batch false f [0; 1; 2; 3; 4; 5; 6; 7] = Some m ∧
    might_contain false f 5 = Some (Z.testbit m 5).
Proof.
  destruct (run false [InsertOne 5] (with_hashes 1 3)) as [f|] eqn:E; [|vm_compute in E; discriminate E].
  destruct (bloom_batch_scalar false 1 3 [InsertOne 5] f [0; 1; 2; 3; 4; 5; 6; 7]) as (m & Hm & H).
  - apply Forall_cons_2; [exact I|apply Forall_nil_2].
  - exact E.
  - reflexivity.
  - exists f, m. split; [reflexivity|]. split; [exact Hm|]. exact (H 5%nat 5 eq_refl).
Defined.
End BloomM.
