(* ===== verification/FmIndex.v ===== *)
(** * The FM-index (src/src/exec/fm_index.rs, [FmIndex] and [compute_bwt])

    Backward search over the Burrows-Wheeler transform of the concatenated column.
    Bytes are integers below 256.  [sort_by] is a stable sort, whose result is
    determined by the comparison; it is modelled by insertion.  The positions [sp] and
    [ep] are [usize] and wrap as in a release build. *)

From Stdlib Require Import ZArith Lia Sorted.
From stdpp Require Import prelude gmap list numbers.
From S2P Require Import Prelude.
Local Open Scope Z_scope.

Module FmIndexM.

(** ** The transform *)
Section bwt.
Context (text : list Z).
Let n := length text.

(** [text[(a + i) % n]]. *)
Definition rot (a i : nat) : Z := nth ((a + i) mod n) text 0.

(** The comparison of the rotations at [a] and [b]: [n] turns at most. *)
Fixpoint rot_cmp_loop (fuel i a b : nat) : comparison :=
  match fuel with
  | O => Eq
  | S fuel => if Z.eqb (rot a i) (rot b i) then rot_cmp_loop fuel (S i) a b else Z.compare (rot a i) (rot b i)
  end.
Definition rot_cmp (a b : nat) : comparison := rot_cmp_loop n 0 a b.

Fixpoint insert_sorted (x : nat) (l : list nat) : list nat :=
  match l with
  | [] => [x]
  | y :: l => match rot_cmp x y with Gt => y :: insert_sorted x l | _ => x :: y :: l end
  end.

(** [sa.sort_by(..)] on [(0..n).collect()]. *)
Definition suffix_array : list nat := fold_right insert_sorted [] (seq 0 n).

Definition compute_bwt : list Z := (λ i, nth ((i + n - 1) mod n) text 0) <$> suffix_array.
End bwt.

(** ** The index *)
Record FmIndex := mkFm {
  bwt : list Z;
  c : gmap Z Z;
  occ : gmap Z (list Z);
  fm_n : Z;
  row_map : list nat
}.

Definition NEWLINE : Z := 10.

(** The text and the row of each of its bytes. *)
Definition fm_text (strings : list (list Z)) : list Z := concat ((λ s, s ++ [NEWLINE]) <$> strings).
Definition fm_rows (strings : list (list Z)) : list nat :=
  concat (imap (λ row s, replicate (length s + 1) row) strings).

Definition count_byte (b : Z) (l : list Z) : nat := length (filter (λ x, x = b) l).

(** [for i in 0..256 { if char_counts[i] > 0 { c.insert(i, total); total += char_counts[i] } }]. *)
Definition c_step (l : list Z) (st : gmap Z Z * Z) (i : nat) : gmap Z Z * Z :=
  let k := count_byte (Z.of_nat i) l in
  if bool_decide (0 < k)%nat then (<[Z.of_nat i := st.2]> st.1, st.2 + Z.of_nat k) else st.
Definition c_array (l : list Z) : gmap Z Z := (fold_left (c_step l) (seq 0 256) (∅, 0)).1.

(** The running count of [ch], before every byte and after the last. *)
Fixpoint occ_prefix (ch count : Z) (l : list Z) : list Z :=
  match l with
  | [] => [count]
  | b :: l => count :: occ_prefix ch (if Z.eqb b ch then count + 1 else count) l
  end.

Definition build (strings : list (list Z)) : FmIndex :=
  let text := fm_text strings in
  if bool_decide (text = []) then mkFm [] ∅ ∅ 0 []
  else
    let bwt := compute_bwt text in
    let c := c_array bwt in
    mkFm bwt c (map_imap (λ ch _, Some (occ_prefix ch 0 bwt)) c) (Z.of_nat (length text)) (fm_rows strings).

Definition occ_rank (f : FmIndex) (ch pos : Z) : Z :=
  match occ f !! ch with
  | Some prefix =>
    if bool_decide (pos < Z.of_nat (length prefix)) then nth (Z.to_nat pos) prefix 0 else List.last prefix 0
  | None => 0
  end.

(** The backward loop over the bytes that remain, last first; [None] is the early
    return. *)
Fixpoint backward (f : FmIndex) (rev_pattern : list Z) (sp ep : Z) : option (Z * Z) :=
  match rev_pattern with
  | [] => Some (sp, ep)
  | ch :: rest =>
    match c f !! ch with
    | None => None
    | Some c_val =>
      let occ_sp := occ_rank f ch sp in
      let occ_ep1 := occ_rank f ch (wrapping_add ep 1) in
      let sp := wrapping_add c_val occ_sp in
      let ep := wrap_u 64 (c_val + occ_ep1 - 1) in
      if Z.ltb ep sp then None else backward f rest sp ep
    end
  end.

Definition fm_count (f : FmIndex) (pattern : list Z) : Z :=
  if Z.eqb (fm_n f) 0 || bool_decide (pattern = []) then 0
  else match backward f (reverse pattern) 0 (wrap_u 64 (fm_n f - 1)) with
       | None => 0
       | Some (sp, ep) => wrap_u 64 (ep - sp + 1)
       end.

(** The search for rows runs the same loop and then returns an empty vector. *)
Definition search (f : FmIndex) (pattern : list Z) : list nat :=
  if Z.eqb (fm_n f) 0 || bool_decide (pattern = []) then []
  else match backward f (reverse pattern) 0 (wrap_u 64 (fm_n f - 1)) with
       | None => []
       | Some (_, _) => []
       end.

(** ** The order of rotations *)
Section order.
Context (text : list Z).
Let n := length text.
Hypothesis Hn : (0 < n)%nat.

Lemma rot_period a i : rot text a i = rot text a (i mod n).
Proof. unfold rot. fold n. f_equal. by rewrite Nat.Div0.add_mod_idemp_r. Qed.

Lemma rot_succ a i : rot text a (S i) = rot text (S a) i.
Proof. unfold rot. f_equal. f_equal. lia. Qed.

Lemma rot_mod a i : rot text (a mod n) i = rot text a i.
Proof. unfold rot. fold n. f_equal. by rewrite Nat.Div0.add_mod_idemp_l. Qed.

(** The rotation at [a] is not above the one at [b], as infinite words. *)
Definition rle (a b : nat) : Prop :=
  (∀ i, rot text a i = rot text b i) ∨
  ∃ k, (∀ i, (i < k)%nat → rot text a i = rot text b i) ∧ rot text a k < rot text b k.

Lemma rle_step a b :
  rle a b → rot text a 0 < rot text b 0 ∨ (rot text a 0 = rot text b 0 ∧ rle (S a) (S b)).
Proof.
  intros [H|(k & H & Hk)].
  - right. split; [done|]. left. intros i. by rewrite <- !rot_succ.
  - destruct k as [|k]; [by left|]. right. split; [apply H; lia|]. right. exists k.
    split; [intros i Hi|]; rewrite <- !rot_succ; [apply H; lia|done].
Qed.

Lemma rle_trans a b d : rle a b → rle b d → rle a d.
Proof.
  intros [H1|(k1 & H1 & K1)] [H2|(k2 & H2 & K2)].
  - left. intros i. by rewrite H1.
  - right. exists k2. split; [intros i Hi|]; rewrite H1; [by apply H2|done].
  - right. exists k1. split; [intros i Hi|]; rewrite <- H2; [by apply H1|done].
  - right. exists (Nat.min k1 k2). split.
    + intros i Hi. rewrite H1, H2 by lia. done.
    + destruct (Nat.lt_trichotomy k1 k2) as [H|[->|H]].
      * rewrite Nat.min_l by lia. by rewrite <- H2 by lia.
      * rewrite Nat.min_id. lia.
      * rewrite Nat.min_r by lia. by rewrite H1 by lia.
Qed.

Lemma rot_cmp_loop_spec a b fuel i :
  (∀ j, (j < i)%nat → rot text a j = rot text b j) → (i + fuel = n)%nat →
  match rot_cmp_loop text fuel i a b with
  | Eq => ∀ j, (j < n)%nat → rot text a j = rot text b j
  | Lt => ∃ k, (∀ j, (j < k)%nat → rot text a j = rot text b j) ∧ rot text a k < rot text b k
  | Gt => ∃ k, (∀ j, (j < k)%nat → rot text b j = rot text a j) ∧ rot text b k < rot text a k
  end.
Proof.
  revert i; induction fuel as [|fuel IH]; intros i Hi Hf; cbn [rot_cmp_loop]; [intros j Hj; apply Hi; lia|].
  destruct (Z.eqb_spec (rot text a i) (rot text b i)) as [E|E].
  - apply IH; [|lia]. intros j Hj. destruct (decide (j = i)) as [->|]; [done|]. apply Hi. lia.
  - destruct (Z.compare_spec (rot text a i) (rot text b i)) as [?|?|?]; [done|by exists i|].
    exists i. split; [|done]. intros j Hj. symmetry. by apply Hi.
Qed.

Lemma rot_cmp_rle a b : match rot_cmp text a b with Gt => rle b a | _ => rle a b end.
Proof.
  unfold rot_cmp. pose proof (rot_cmp_loop_spec a b n 0 ltac:(lia) ltac:(lia)) as H. fold n.
  destruct (rot_cmp_loop text n 0 a b).
  - left. intros i. rewrite (rot_period a), (rot_period b). apply H. apply Nat.mod_upper_bound. lia.
  - by right.
  - by right.
Qed.

Lemma insert_sorted_perm x l : insert_sorted text x l ≡ₚ x :: l.
Proof.
  induction l as [|y l IH]; [done|]. cbn [insert_sorted]. destruct (rot_cmp text x y); [done|done|].
  rewrite IH. apply Permutation_swap.
Qed.

Lemma insert_sorted_sorted x l : StronglySorted rle l → StronglySorted rle (insert_sorted text x l).
Proof.
  induction 1 as [|y l Hl IH Hy]; cbn [insert_sorted]; [repeat constructor|].
  pose proof (rot_cmp_rle x y) as Hc.
  assert (rle x y → StronglySorted rle (x :: y :: l)) as Hfront.
  { intros Hxy. constructor; [by constructor|]. constructor; [done|].
    eapply Forall_impl; [|exact Hy]. intros z Hz. by eapply rle_trans. }
  destruct (rot_cmp text x y); [by apply Hfront|by apply Hfront|].
  constructor; [done|]. rewrite insert_sorted_perm. by constructor.
Qed.

Lemma suffix_array_perm : suffix_array text ≡ₚ seq 0 n.
Proof.
  unfold suffix_array. fold n. induction (seq 0 n) as [|x l IH]; [done|]. simpl. by rewrite insert_sorted_perm, IH.
Qed.

Lemma suffix_array_sorted : StronglySorted rle (suffix_array text).
Proof.
  unfold suffix_array. fold n. induction (seq 0 n) as [|x l IH]; [constructor|]. simpl. by apply insert_sorted_sorted.
Qed.
End order.

(** ** Counting *)
Definition countb {A} (p : A → bool) (l : list A) : nat := length (filter (λ x, p x = true) l).

Lemma countb_cons {A} (p : A → bool) x l : countb p (x :: l) = ((if p x then 1 else 0) + countb p l)%nat.
Proof. unfold countb. rewrite filter_cons. by destruct (p x). Qed.

Lemma countb_perm {A} (p : A → bool) l l' : l ≡ₚ l' → countb p l = countb p l'.
Proof. intros H. unfold countb. by rewrite H. Qed.

Lemma countb_ext {A} (p q : A → bool) l : (∀ x, x ∈ l → p x = q x) → countb p l = countb q l.
Proof. intros H. unfold countb. f_equal. apply filter_ext_elem. intros x Hx. by rewrite H. Qed.

Lemma countb_fmap {A B} (f : A → B) (p : B → bool) l : countb p (f <$> l) = countb (λ x, p (f x)) l.
Proof. unfold countb. by rewrite filter_fmap_list, length_fmap. Qed.

Lemma countb_split {A} (p q r : A → bool) l :
  (∀ x, x ∈ l → p x = q x || r x ∧ (q x && r x = false)) → countb p l = (countb q l + countb r l)%nat.
Proof.
  induction l as [|x l IH]; intros H; [done|]. rewrite !countb_cons, IH by (intros y Hy; apply H; by right).
  destruct (H x ltac:(by left)) as [-> Hd]. destruct (q x), (r x); simpl in *; (done || lia).
Qed.

Lemma countb_le {A} (p : A → bool) l : (countb p l <= length l)%nat.
Proof. unfold countb. apply length_filter. Qed.

Lemma countb_pos {A} (p : A → bool) l : (0 < countb p l)%nat ↔ ∃ x, x ∈ l ∧ p x = true.
Proof.
  induction l as [|x l IH].
  - split; [unfold countb; simpl; lia|intros (x & Hx & _); by apply not_elem_of_nil in Hx].
  - rewrite countb_cons. destruct (p x) eqn:E.
    + split; [intros _; exists x; split; [by left|done]|lia].
    + rewrite IH. split; intros (y & Hy & Hp); exists y; (split; [|done]); [by right|].
      apply elem_of_cons in Hy as [->|]; congruence.
Qed.

Lemma countb_zero {A} (p : A → bool) l : (∀ x, x ∈ l → p x = false) → countb p l = 0%nat.
Proof.
  intros H. destruct (decide (0 < countb p l)%nat) as [(x & Hx & E)%countb_pos|]; [|lia].
  by rewrite H in E.
Qed.

Lemma countb_all {A} (p : A → bool) l : (∀ x, x ∈ l → p x = true) → countb p l = length l.
Proof.
  induction l as [|x l IH]; intros H; [done|]. rewrite countb_cons, H, IH by set_solver. done.
Qed.

Lemma countb_filter {A} (p q : A → bool) l : countb p (filter (λ x, q x = true) l) = countb (λ x, q x && p x) l.
Proof.
  induction l as [|x l IH]; [done|]. rewrite filter_cons, countb_cons. case_decide as E.
  - by rewrite countb_cons, IH, E.
  - rewrite IH. by destruct (q x).
Qed.

(** In a sorted list a downward closed predicate holds of a prefix. *)
Lemma sorted_prefix {A} (R : A → A → Prop) (p : A → bool) l :
  StronglySorted R l → (∀ a b, R a b → p b = true → p a = true) →
  filter (λ x, p x = true) l = take (countb p l) l.
Proof.
  intros Hs Hp. induction Hs as [|x l Hl IH Hx]; [done|]. rewrite filter_cons, countb_cons. case_decide as E.
  - rewrite E. simpl. by f_equal.
  - apply not_true_is_false in E. rewrite E. simpl. rewrite IH.
    rewrite countb_zero; [done|]. intros y Hy. rewrite list.Forall_forall in Hx. apply not_true_is_false.
    intros Hpy. rewrite (Hp x y) in E; [done|by apply Hx|done].
Qed.

Lemma count_byte_countb b l : count_byte b l = countb (λ x, Z.eqb x b) l.
Proof. unfold count_byte, countb. f_equal. apply filter_ext_elem. intros x _. by rewrite Z.eqb_eq. Qed.

(** ** The tables *)
Lemma length_occ_prefix ch k l : length (occ_prefix ch k l) = S (length l).
Proof. revert k; induction l as [|b l IH]; intros k; simpl; [done|]. by rewrite IH. Qed.

Lemma nth_occ_prefix ch k l i :
  (i <= length l)%nat → nth i (occ_prefix ch k l) 0 = k + Z.of_nat (countb (λ x, Z.eqb x ch) (take i l)).
Proof.
  revert k i; induction l as [|b l IH]; intros k [|i] Hi; simpl in Hi; try lia; try (simpl; rewrite ?Z.add_0_r; done).
  cbn [occ_prefix nth take]. rewrite IH, countb_cons by lia. destruct (Z.eqb b ch); lia.
Qed.

Lemma c_fold_spec l m :
  let st := fold_left (c_step l) (seq 0 m) (∅, 0) in
  st.2 = Z.of_nat (countb (λ x, Z.leb 0 x && Z.ltb x (Z.of_nat m)) l) ∧
  ∀ b, st.1 !! b = if bool_decide (0 <= b < Z.of_nat m ∧ b ∈ l)
                   then Some (Z.of_nat (countb (λ x, Z.leb 0 x && Z.ltb x b) l)) else None.
Proof.
  induction m as [|m IH]; cbn zeta.
  - simpl. split.
    + rewrite countb_zero; [done|]. intros x _. apply andb_false_iff.
      destruct (Z.leb_spec 0 x); [right; apply Z.ltb_ge; lia|by left].
    + intros b. rewrite bool_decide_false by lia. apply lookup_empty.
  - rewrite seq_S, fold_left_app. cbn [fold_left]. destruct IH as [IH1 IH2].
    set (st := fold_left (c_step l) (seq 0 m) (∅, 0)) in *. unfold c_step. simpl (0 + m)%nat.
    set (k := count_byte (Z.of_nat m) l).
    assert (countb (λ x, Z.leb 0 x && Z.ltb x (Z.of_nat (S m))) l
            = countb (λ x, Z.leb 0 x && Z.ltb x (Z.of_nat m)) l + k)%nat as Hs.
    { unfold k. rewrite count_byte_countb. apply countb_split. intros x _.
      destruct (Z.leb_spec 0 x), (Z.ltb_spec x (Z.of_nat (S m))), (Z.ltb_spec x (Z.of_nat m)), (Z.eqb_spec x (Z.of_nat m));
        simpl; (done || lia). }
    assert (Z.of_nat m ∈ l ↔ (0 < k)%nat) as Hk.
    { unfold k. rewrite count_byte_countb, countb_pos. split.
      - intros Hin. exists (Z.of_nat m). split; [done|apply Z.eqb_refl].
      - intros (x & Hx & <-%Z.eqb_eq). done. }
    case_bool_decide as Hpos; cbn [fst snd]; (split; [rewrite Hs, IH1; lia|]); intros b.
    + destruct (decide (b = Z.of_nat m)) as [->|Hne].
      * rewrite lookup_insert_eq, bool_decide_true by (split; [lia|by apply Hk]). by rewrite IH1.
      * rewrite lookup_insert_ne, IH2 by done. by rewrite (bool_decide_ext (0 <= b < Z.of_nat m ∧ b ∈ l) (0 <= b < Z.of_nat (S m) ∧ b ∈ l)) by (split; intros [? ?]; (split; [lia|done])).
    + rewrite IH2, (bool_decide_ext (0 <= b < Z.of_nat m ∧ b ∈ l) (0 <= b < Z.of_nat (S m) ∧ b ∈ l)); [done|].
      split; intros [Hb Hin]; (split; [|done]); [lia|].
      destruct (decide (b = Z.of_nat m)) as [->|]; [|lia]. by apply Hk in Hin.
Qed.

Lemma c_array_spec l b :
  bytes_ok l →
  c_array l !! b = if bool_decide (b ∈ l) then Some (Z.of_nat (countb (λ x, Z.ltb x b) l)) else None.
Proof.
  intros Hl. unfold c_array. destruct (c_fold_spec l 256) as [_ ->]. rewrite list.Forall_forall in Hl.
  rewrite (bool_decide_ext (0 <= b < Z.of_nat 256 ∧ b ∈ l) (b ∈ l)).
  - case_bool_decide; [|done]. do 2 f_equal. apply countb_ext. intros x Hx. specialize (Hl x Hx).
    unfold byte_ok in Hl. rewrite (proj2 (Z.leb_le 0 x)) by lia. done.
  - split; [by intros [_ ?]|]. intros Hb. split; [|done]. specialize (Hl b Hb). unfold byte_ok in Hl. lia.
Qed.

(** ** Backward search *)
Section search.
Context (text : list Z).
Let n := length text.
Hypothesis Hn : (0 < n)%nat.
Hypothesis Hbytes : bytes_ok text.

(** The rotation at [i] compared with [P] on the length of [P]. *)
Fixpoint pre_lt (i : nat) (P : list Z) : bool :=
  match P with
  | [] => false
  | ch :: P => Z.ltb (rot text i 0) ch || (Z.eqb (rot text i 0) ch && pre_lt (S i) P)
  end.
Fixpoint pre_le (i : nat) (P : list Z) : bool :=
  match P with
  | [] => true
  | ch :: P => Z.ltb (rot text i 0) ch || (Z.eqb (rot text i 0) ch && pre_le (S i) P)
  end.
Fixpoint pre_eq (i : nat) (P : list Z) : bool :=
  match P with
  | [] => true
  | ch :: P => Z.eqb (rot text i 0) ch && pre_eq (S i) P
  end.

(** Both comparisons have this shape. *)
Definition extends (p : nat → list Z → bool) : Prop :=
  (∀ i ch P, p i (ch :: P) = Z.ltb (rot text i 0) ch || (Z.eqb (rot text i 0) ch && p (S i) P)) ∧
  (∀ i j, p i [] = p j []).

Lemma pre_lt_extends : extends pre_lt. Proof. done. Qed.
Lemma pre_le_extends : extends pre_le. Proof. done. Qed.

Lemma extends_down p P a b : extends p → rle text a b → p b P = true → p a P = true.
Proof.
  intros [H1 H2]. revert a b; induction P as [|ch P IH]; intros a b Hab Hb; [by rewrite (H2 a b)|].
  rewrite H1 in Hb |- *. apply orb_true_iff in Hb. apply orb_true_iff.
  destruct (rle_step text Hn a b Hab) as [Hlt|[Heq Hs]].
  - left. destruct Hb as [Hb|[Hb _]%andb_true_iff]; [apply Z.ltb_lt in Hb|apply Z.eqb_eq in Hb]; apply Z.ltb_lt; lia.
  - rewrite Heq. destruct Hb as [Hb|[Hb Hp]%andb_true_iff]; [by left|right]. by rewrite Hb, (IH (S a) (S b)).
Qed.

Lemma extends_mod p P (i : nat) : extends p → p (i mod n)%nat P = p i P.
Proof.
  intros [H1 H2]. revert i; induction P as [|ch P IH]; intros i; [apply H2|]. rewrite !H1.
  unfold n. rewrite rot_mod. fold n. f_equal. f_equal. rewrite <- (IH (S i)), <- (IH (S (i mod n)%nat)). f_equal.
  rewrite <- (Nat.add_1_l (i mod n)), <- (Nat.add_1_l i). by rewrite Nat.Div0.add_mod_idemp_r.
Qed.

Definition ranked (p : nat → list Z → bool) (P : list Z) : nat := countb (λ i, p i P) (seq 0 n).

(** Stepping every position back by one permutes them. *)
Lemma pred_perm : (λ i, (i + n - 1) mod n)%nat <$> seq 0 n ≡ₚ seq 0 n.
Proof.
  destruct n as [|m] eqn:E; [lia|]. rewrite (seq_S m 0) at 2. cbn [seq]. rewrite fmap_cons. simpl (0 + m)%nat.
  rewrite Nat.mod_small by lia. replace (0 + S m - 1)%nat with m by lia.
  rewrite Permutation_app_comm. cbn [app]. apply perm_skip.
  assert (((λ i, (i + S m - 1) mod S m)%nat <$> seq 1 m) = seq 0 m) as ->; [|done].
  rewrite <- (fmap_S_seq 0 m), <- list_fmap_compose. rewrite <- (list_fmap_id (seq 0 m)) at 2.
  apply list_fmap_ext. intros k x Hx%lookup_seq. unfold compose, id.
  replace (S x + S m - 1)%nat with (x + 1 * S m)%nat by lia.
  rewrite Nat.Div0.mod_add. apply Nat.mod_small. lia.
Qed.

Lemma bwt_bytes ch : countb (λ x, Z.ltb x ch) (compute_bwt text) = countb (λ i, Z.ltb (rot text i 0) ch) (seq 0 n) ∧
                     (ch ∈ compute_bwt text ↔ ∃ i, (i < n)%nat ∧ rot text i 0 = ch).
Proof.
  assert (compute_bwt text ≡ₚ (λ i, rot text i 0) <$> seq 0 n) as Hp.
  { unfold compute_bwt. rewrite (suffix_array_perm text). fold n.
    rewrite <- pred_perm at 2. rewrite <- list_fmap_compose. apply Permutation_refl'.
    apply list_fmap_ext. intros k i _. simpl. unfold rot. fold n.
    by rewrite Nat.add_0_r, Nat.Div0.mod_mod. }
  split; [by rewrite (countb_perm _ _ _ Hp), countb_fmap|].
  rewrite Hp, list_elem_of_fmap. split.
  - intros (i & -> & Hi%elem_of_seq). exists i. split; [lia|done].
  - intros (i & Hi & <-). exists i. split; [done|]. apply elem_of_seq. lia.
Qed.

(** The heart of the search: prepending a byte to the pattern. *)
Lemma rank_step p ch P :
  extends p →
  (countb (λ x, Z.ltb x ch) (compute_bwt text) + countb (λ x, Z.eqb x ch) (take (ranked p P) (compute_bwt text)))%nat
  = ranked p (ch :: P).
Proof.
  intros Hp. rewrite (proj1 (bwt_bytes ch)). unfold compute_bwt. rewrite <- fmap_take, countb_fmap.
  assert (take (ranked p P) (suffix_array text) = filter (λ i, p i P = true) (suffix_array text)) as ->.
  { rewrite (sorted_prefix (rle text) (λ i, p i P)).
    - f_equal. unfold ranked. symmetry. apply countb_perm. apply suffix_array_perm.
    - by apply suffix_array_sorted.
    - intros a b Hab. by apply extends_down. }
  rewrite (countb_filter _ (λ i, p i P)), (countb_perm _ _ _ (suffix_array_perm text)). fold n.
  assert (countb (λ i, p i P && Z.eqb (nth ((i + n - 1) mod n) text 0) ch) (seq 0 n) =
          countb (λ i, Z.eqb (rot text i 0) ch && p (S i) P) (seq 0 n)) as ->.
  { rewrite <- (countb_perm (λ i, Z.eqb (rot text i 0) ch && p (S i) P) _ _ pred_perm), countb_fmap.
    apply countb_ext. intros i Hi%elem_of_seq. rewrite andb_comm. unfold rot at 1. fold n.
    rewrite Nat.add_0_r, Nat.Div0.mod_mod. f_equal.
    rewrite <- (extends_mod p P i), <- (extends_mod p P (S _)) by done. f_equal.
    rewrite <- Nat.add_1_r, Nat.Div0.add_mod_idemp_l.
    replace (i + n - 1 + 1)%nat with (i + 1 * n)%nat by lia. by rewrite Nat.Div0.mod_add. }
  unfold ranked. symmetry. apply countb_split. intros i _. rewrite (proj1 Hp). split; [done|].
  destruct (Z.ltb_spec (rot text i 0) ch), (Z.eqb_spec (rot text i 0) ch); simpl; (done || lia).
Qed.

Lemma ranked_le P : ranked pre_le P = (ranked pre_lt P + countb (λ i, pre_eq i P) (seq 0 n))%nat.
Proof.
  apply countb_split. intros i _. revert i; induction P as [|ch P IH]; intros i; [done|]. simpl.
  destruct (IH (S i)) as [-> H]. 
  destruct (Z.ltb_spec (rot text i 0) ch), (Z.eqb_spec (rot text i 0) ch); simpl; (done || lia).
Qed.

Lemma pre_eq_app i Q P : pre_eq i (Q ++ P) = true → pre_eq (i + length Q) P = true.
Proof.
  revert i; induction Q as [|ch Q IH]; intros i H; simpl in *; [by rewrite Nat.add_0_r|].
  apply andb_true_iff in H as [_ H]. apply IH in H. by replace (i + S (length Q))%nat with (S i + length Q)%nat by lia.
Qed.

Lemma pre_eq_mod P i : pre_eq (i mod n)%nat P = pre_eq i P.
Proof.
  revert i; induction P as [|ch P IH]; intros i; [done|]. simpl. unfold n. rewrite rot_mod. fold n. f_equal.
  rewrite <- (IH (S i)), <- (IH (S (i mod n)%nat)). f_equal.
  rewrite <- (Nat.add_1_l (i mod n)), <- (Nat.add_1_l i). by rewrite Nat.Div0.add_mod_idemp_r.
Qed.

(** A pattern whose suffix does not occur does not occur. *)
Lemma no_suffix Q P :
  countb (λ i, pre_eq i P) (seq 0 n) = 0%nat → countb (λ i, pre_eq i (Q ++ P)) (seq 0 n) = 0%nat.
Proof.
  intros H. apply countb_zero. intros i Hi. apply not_true_is_false. intros E%pre_eq_app.
  enough (0 < countb (λ i, pre_eq i P) (seq 0 n))%nat by lia. apply countb_pos.
  exists ((i + length Q) mod n)%nat. rewrite pre_eq_mod. split; [|done]. apply elem_of_seq.
  pose proof (Nat.mod_upper_bound (i + length Q) n). lia.
Qed.

Context (f : FmIndex).
Hypothesis Hf : f = mkFm (compute_bwt text) (c_array (compute_bwt text))
  (map_imap (λ ch _, Some (occ_prefix ch 0 (compute_bwt text))) (c_array (compute_bwt text))) (Z.of_nat n) (row_map f).
Hypothesis Hsize : Z.of_nat n < 2 ^ 63.

Lemma length_bwt : length (compute_bwt text) = n.
Proof.
  unfold compute_bwt. rewrite length_fmap. rewrite (suffix_array_perm text). by rewrite length_seq.
Qed.

Lemma bwt_ok : bytes_ok (compute_bwt text).
Proof.
  unfold compute_bwt. apply Forall_fmap, Forall_true. intros i. simpl.
  destruct (nth_in_or_default ((i + length text - 1) mod length text) text 0) as [H| ->]; [|by vm_compute].
  by eapply (proj1 (List.Forall_forall _ _) Hbytes).
Qed.

Lemma c_lookup ch :
  c f !! ch = if bool_decide (ch ∈ compute_bwt text)
              then Some (Z.of_nat (countb (λ x, Z.ltb x ch) (compute_bwt text))) else None.
Proof. rewrite Hf. cbn [c]. apply c_array_spec, bwt_ok. Qed.

Lemma occ_rank_spec ch (k : nat) :
  ch ∈ compute_bwt text → (k <= n)%nat →
  occ_rank f ch (Z.of_nat k) = Z.of_nat (countb (λ x, Z.eqb x ch) (take k (compute_bwt text))).
Proof.
  intros Hch Hk. unfold occ_rank. rewrite Hf. cbn [occ]. rewrite map_lookup_imap, c_array_spec by apply bwt_ok.
  rewrite bool_decide_true by done. cbn [mbind option_bind]. rewrite length_occ_prefix, length_bwt.
  rewrite bool_decide_true by lia. rewrite Nat2Z.id, nth_occ_prefix by (rewrite length_bwt; lia). lia.
Qed.

Lemma ranked_bound p P : (ranked p P <= n)%nat.
Proof. unfold ranked. etrans; [apply countb_le|]. by rewrite length_seq. Qed.

Lemma wrap_pred_succ (k : nat) : (k <= n)%nat → wrapping_add (wrap_u 64 (Z.of_nat k - 1)) 1 = Z.of_nat k.
Proof.
  intros Hk. unfold wrapping_add, wrap_u. rewrite Zplus_mod_idemp_l. replace (Z.of_nat k - 1 + 1) with (Z.of_nat k) by lia.
  apply Z.mod_small. lia.
Qed.

Lemma backward_spec rp P :
  match backward f rp (Z.of_nat (ranked pre_lt P)) (wrap_u 64 (Z.of_nat (ranked pre_le P) - 1)) with
  | None => countb (λ i, pre_eq i (reverse rp ++ P)) (seq 0 n) = 0%nat
  | Some (sp, ep) => sp = Z.of_nat (ranked pre_lt (reverse rp ++ P)) ∧
                     ep = wrap_u 64 (Z.of_nat (ranked pre_le (reverse rp ++ P)) - 1)
  end.
Proof.
  revert P; induction rp as [|ch rp IH]; intros P; [done|]. cbn [backward]. rewrite reverse_cons, <- app_assoc. simpl ([ch] ++ P).
  rewrite c_lookup. case_bool_decide as Hch.
  - rewrite wrap_pred_succ by apply ranked_bound. rewrite !occ_rank_spec by (done || apply ranked_bound).
    set (cv := countb (λ x, Z.ltb x ch) (compute_bwt text)).
    pose proof (rank_step pre_lt ch P pre_lt_extends) as H1. pose proof (rank_step pre_le ch P pre_le_extends) as H2.
    fold cv in H1, H2. pose proof (ranked_bound pre_lt (ch :: P)). pose proof (ranked_bound pre_le (ch :: P)).
    unfold wrapping_add. rewrite <- !Nat2Z.inj_add, H1, H2.
    rewrite (wrap_u_small 64 (Z.of_nat (ranked pre_lt (ch :: P)))) by (unfold in_u; lia). destruct (Z.ltb_spec (wrap_u 64 (Z.of_nat (ranked pre_le (ch :: P)) - 1)) (Z.of_nat (ranked pre_lt (ch :: P)))) as [E|E]; [|apply IH].
    apply no_suffix. pose proof (ranked_le (ch :: P)) as Hle. unfold wrap_u in E.
    destruct (decide (ranked pre_le (ch :: P) = 0%nat)) as [Hz|Hz]; [lia|]. rewrite Z.mod_small in E by lia. lia.
  - apply no_suffix, countb_zero. intros i Hi%elem_of_seq. simpl. apply andb_false_iff. left. apply Z.eqb_neq.
    intros E. apply Hch. apply bwt_bytes. exists i. split; [lia|done].
Qed.

Lemma fm_count_cyclic pattern :
  pattern ≠ [] → fm_count f pattern = Z.of_nat (countb (λ i, pre_eq i pattern) (seq 0 n)).
Proof.
  intros Hp. unfold fm_count. assert (fm_n f = Z.of_nat n) as -> by (by rewrite Hf).
  rewrite (proj2 (Z.eqb_neq _ _)), bool_decide_false by (done || lia). simpl.
  pose proof (backward_spec (reverse pattern) []) as H. rewrite reverse_involutive, app_nil_r in H.
  assert (ranked pre_lt [] = 0%nat) as E0 by (unfold ranked; by apply countb_zero).
  assert (ranked pre_le [] = n) as E1.
  { unfold ranked. rewrite countb_all by done. apply length_seq. }
  rewrite E0, E1 in H. change (Z.of_nat 0) with 0 in H. revert H.
  destruct (backward f (reverse pattern) 0 (wrap_u 64 (Z.of_nat n - 1))) as [[sp ep]|]; intros H; [|by rewrite H].
  destruct H as [-> ->]. pose proof (ranked_le pattern) as Hle. pose proof (ranked_bound pre_le pattern) as Hb.
  unfold wrap_u.
  replace ((Z.of_nat (ranked pre_le pattern) - 1) mod 2 ^ 64 - Z.of_nat (ranked pre_lt pattern) + 1)
    with ((Z.of_nat (ranked pre_le pattern) - 1) mod 2 ^ 64 - (Z.of_nat (ranked pre_lt pattern) - 1)) by lia.
  rewrite Zminus_mod_idemp_l, Z.mod_small by lia. lia.
Qed.
End search.

(** ** From rotations to strings *)
Fixpoint occurrences (P l : list Z) : nat :=
  match l with
  | [] => 0
  | x :: l => (if bool_decide (P `prefix_of` x :: l) then 1 else 0) + occurrences P l
  end.

Lemma occurrences_seq P l : occurrences P l = countb (λ i, bool_decide (P `prefix_of` drop i l)) (seq 0 (length l)).
Proof.
  induction l as [|x l IH]; [done|]. cbn [occurrences length seq]. rewrite countb_cons, IH. f_equal.
  by rewrite <- (fmap_S_seq 0), countb_fmap.
Qed.

Lemma prefix_before_newline P s rest :
  NEWLINE ∉ P → P `prefix_of` s ++ NEWLINE :: rest ↔ P `prefix_of` s.
Proof.
  intros HP. split; [|intros [k ->]; rewrite <- app_assoc; by eexists].
  intros [k Hk]. apply app_eq_inv in Hk as [(l & -> & _)|(l & -> & Hl)]; [by exists l|].
  destruct l as [|x l]; [by rewrite app_nil_r|]. simplify_eq/=. exfalso. apply HP. set_solver.
Qed.

Lemma occurrences_line P s rest :
  P ≠ [] → NEWLINE ∉ P → occurrences P (s ++ NEWLINE :: rest) = (occurrences P s + occurrences P rest)%nat.
Proof.
  intros Hne HP. induction s as [|x s IH].
  - cbn [app occurrences]. rewrite (bool_decide_ext _ _ (prefix_before_newline P [] rest HP)).
    rewrite bool_decide_false; [done|]. intros ->%prefix_nil_inv. done.
  - cbn [app occurrences]. rewrite IH, (bool_decide_ext _ _ (prefix_before_newline P (x :: s) rest HP)). lia.
Qed.

Lemma occurrences_text P strings :
  P ≠ [] → NEWLINE ∉ P → occurrences P (fm_text strings) = sum_list (occurrences P <$> strings).
Proof.
  intros Hne HP. induction strings as [|s strings IH]; [done|]. unfold fm_text in *. rewrite !fmap_cons, concat_cons.
  rewrite <- app_assoc. simpl ([_] ++ _). rewrite occurrences_line by done. by rewrite IH.
Qed.

Lemma last_nth (l : list Z) : List.last l 0 = nth (length l - 1) l 0.
Proof.
  destruct l as [|x l _] using rev_ind; [done|]. rewrite last_last, length_app. simpl.
  rewrite app_nth2 by lia. by replace (length l + 1 - 1 - length l)%nat with 0%nat by lia.
Qed.

(** A pattern without a newline does not wrap around a text that ends with one. *)
Lemma pre_eq_prefix text i P :
  (i < length text)%nat → List.last text 0 = NEWLINE → NEWLINE ∉ P →
  pre_eq text i P = bool_decide (P `prefix_of` drop i text).
Proof.
  intros Hi Hlast. revert i Hi; induction P as [|ch P IH]; intros i Hi HP; cbn [pre_eq].
  - rewrite bool_decide_true; [done|]. apply prefix_nil.
  - destruct (lookup_lt_is_Some_2 text i Hi) as [x Hx].
    assert (rot text i 0 = x) as ->.
    { unfold rot. rewrite Nat.add_0_r, Nat.mod_small by done. by apply nth_lookup_Some. }
    rewrite (drop_S _ _ _ Hx). destruct (Z.eqb_spec x ch) as [->|Hne]; simpl.
    + assert (S i < length text)%nat as Hi'.
      { destruct (decide (S i = length text)) as [E|]; [|lia]. exfalso. apply HP.
        rewrite <- Hlast, <- (nth_lookup_Some _ _ 0 _ Hx), last_nth. replace (length text - 1)%nat with i by lia. left. }
      rewrite IH by (done || set_solver). apply bool_decide_ext. split; [apply prefix_cons|apply prefix_cons_inv_2].
    + rewrite bool_decide_false; [done|]. intros ?%prefix_cons_inv_1. congruence.
Qed.

Lemma fm_text_ok strings : Forall bytes_ok strings → bytes_ok (fm_text strings).
Proof.
  intros H. unfold fm_text. apply Forall_concat, Forall_fmap. revert H. apply Forall_impl. intros s Hs. simpl.
  apply Forall_app; split; [done|]. apply Forall_cons_2; [by vm_compute|apply Forall_nil_2].
Qed.

Lemma last_fm_text strings : strings ≠ [] → List.last (fm_text strings) 0 = NEWLINE.
Proof.
  destruct strings as [|s strings _] using rev_ind; [done|]. intros _. unfold fm_text. rewrite fmap_app, concat_app.
  simpl. rewrite app_nil_r, app_assoc. apply last_last.
Qed.

(** C35: the FM-index counts substrings.  For every column of byte strings and every
    non-empty pattern without a newline, [count] on the index built from the column is
    the number of places where the pattern occurs in its strings: sorting rotations,
    ranking bytes and the wrapping interval arithmetic lose and invent nothing. *)
Theorem fm_count_occurrences strings pattern :
  Forall bytes_ok strings → Z.of_nat (length (fm_text strings)) < 2 ^ 63 →
  pattern ≠ [] → NEWLINE ∉ pattern →
  fm_count (build strings) pattern = Z.of_nat (sum_list (occurrences pattern <$> strings)).
Proof.
  intros Hs Hn Hne HP. rewrite <- occurrences_text by done. unfold build. case_bool_decide as E.
  - rewrite E. done.
  - assert (0 < length (fm_text strings))%nat as Hlen by (destruct (fm_text strings); [done|simpl; lia]).
    rewrite (fm_count_cyclic (fm_text strings) Hlen) by (done || by apply fm_text_ok).
    rewrite occurrences_seq. f_equal. apply countb_ext. intros i Hi%elem_of_seq.
    apply pre_eq_prefix; [lia| |done]. apply last_fm_text. by intros ->.
Qed.

Lemma fm_count_occurrences_witness :
  fm_count (build [[98; 97; 110; 97; 110; 97]; [97; 110]]) [97; 110] = 3.
Proof.
  rewrite (fm_count_occurrences [[98; 97; 110; 97; 110; 97]; [97; 110]] [97; 110]).
  - reflexivity.
  - repeat (apply Forall_cons_2 || apply Forall_nil_2); unfold byte_ok; lia.
  - simpl. lia.
  - discriminate.
  - set_solver.
Defined.
End FmIndexM.
