(* ===== verification/StringColumn.v ===== *)
(** * String columns (src/src/exec/fm_index.rs, [StringSearchColumn] and [memchr_search])

    Strings stored contiguously with their offsets, LIKE matching over the bytes and
    the projection that keeps only bytes and offsets.  Strings are their UTF-8 bytes;
    a slice or index out of range, which panics, is [None]. *)

From Stdlib Require Import ZArith Lia.
From stdpp Require Import prelude list numbers.
From S2P Require Import Prelude.
Local Open Scope Z_scope.

Module StringColumnM.

(** [std::str::from_utf8(b).is_ok()]. *)
Definition cont (lo hi b : Z) : bool := Z.leb lo b && Z.leb b hi.
Fixpoint utf8_valid (b : list Z) : bool :=
  match b with
  | [] => true
  | x :: b =>
    if Z.ltb x 0x80 then utf8_valid b
    else if cont 0xC2 0xDF x then
      match b with y :: b => cont 0x80 0xBF y && utf8_valid b | _ => false end
    else if cont 0xE0 0xEF x then
      match b with
      | y :: z :: b =>
        (if Z.eqb x 0xE0 then cont 0xA0 0xBF y else if Z.eqb x 0xED then cont 0x80 0x9F y else cont 0x80 0xBF y) &&
        cont 0x80 0xBF z && utf8_valid b
      | _ => false
      end
    else if cont 0xF0 0xF4 x then
      match b with
      | y :: z :: w :: b =>
        (if Z.eqb x 0xF0 then cont 0x90 0xBF y else if Z.eqb x 0xF4 then cont 0x80 0x8F y else cont 0x80 0xBF y) &&
        cont 0x80 0xBF z && cont 0x80 0xBF w && utf8_valid b
      | _ => false
      end
    else false
  end.

Record StringSearchColumn := mkCol { strings : list (list Z); offsets : list nat; bytes : list Z }.

(** The offsets of the strings, and the end of the last. *)
Fixpoint offsets_from (k : nat) (ss : list (list Z)) : list nat :=
  match ss with [] => [k] | s :: ss => k :: offsets_from (k + length s) ss end.

Definition new (ss : list (list Z)) : StringSearchColumn := mkCol ss (offsets_from 0 ss) (concat ss).

(** [&self.bytes[start..end]]. *)
Definition byte_slice (b : list Z) (s e : nat) : option (list Z) :=
  if bool_decide (s <= e <= length b)%nat then Some (slice s (e - s) b) else None.

(** The bounds of row [i] in [remap], defaulting to the end of the bytes. *)
Definition bound (col : StringSearchColumn) (i : nat) : nat := default (length (bytes col)) (offsets col !! i).

Fixpoint remap_loop (col : StringSearchColumn) (indices : list nat) (offs : list nat) (bs : list Z)
  : option (list nat * list Z) :=
  match indices with
  | [] => Some (offs ++ [length bs], bs)
  | i :: indices =>
    s ← byte_slice (bytes col) (bound col i) (bound col (i + 1));
    remap_loop col indices (offs ++ [length bs]) (bs ++ s)
  end.

Definition remap (col : StringSearchColumn) (indices : list nat) : option StringSearchColumn :=
  '(offs, bs) ← remap_loop col indices [] []; Some (mkCol [] offs bs).

(** [haystack[pos..].iter().position(|&b| b == first)]. *)
Fixpoint position (first : Z) (l : list Z) : option nat :=
  match l with
  | [] => None
  | b :: l => if Z.eqb b first then Some 0%nat else S <$> position first l
  end.

(** Every turn moves [pos] forward, so the length of the haystack bounds them. *)
Fixpoint memchr_loop (fuel : nat) (haystack needle : list Z) (first : Z) (pos : nat) : bool :=
  match fuel with
  | O => false
  | S fuel =>
    if Nat.leb (pos + length needle) (length haystack) then
      if Nat.leb (length haystack) pos then false
      else match position first (drop pos haystack) with
           | Some off =>
             let start := (pos + off)%nat in
             if Nat.leb (start + length needle) (length haystack) &&
                bool_decide (slice start (length needle) haystack = needle) then true
             else memchr_loop fuel haystack needle first (start + 1)
           | None => false
           end
    else false
  end.

Definition memchr_search (haystack needle : list Z) : bool :=
  match needle with
  | [] => true
  | first :: _ =>
    if Nat.ltb (length haystack) (length needle) then false
    else memchr_loop (S (length haystack)) haystack needle first 0
  end.

(** Whether row [i] contains the pattern: [offsets[i]], [offsets[i + 1]]. *)
Definition row_contains (col : StringSearchColumn) (pattern : list Z) (i : nat) : option bool :=
  s ← offsets col !! i; e ← offsets col !! (i + 1)%nat; row ← byte_slice (bytes col) s e;
  Some (memchr_search row pattern).

Definition like_contains_mask (col : StringSearchColumn) (pattern : list Z) : option (list bool) :=
  if bool_decide (pattern = []) then Some (replicate (length (strings col)) true)
  else mapM (row_contains col pattern) (seq 0 (length (strings col))).

Fixpoint count_loop (col : StringSearchColumn) (pattern : list Z) (rows : list nat) (count : nat) : option nat :=
  match rows with
  | [] => Some count
  | i :: rows => b ← row_contains col pattern i; count_loop col pattern rows (if b : bool then S count else count)
  end.

Definition count_like_contains (col : StringSearchColumn) (pattern : list Z) : option nat :=
  if bool_decide (pattern = []) then Some (length (strings col))
  else count_loop col pattern (seq 0 (length (strings col))) 0.

Definition count_like_prefix (col : StringSearchColumn) (prefix : list Z) : nat :=
  if bool_decide (prefix = []) then length (strings col)
  else length (filter (λ s, prefix `prefix_of` s) (strings col)).

Definition get (col : StringSearchColumn) (i : nat) : option (list Z) :=
  match strings col !! i with
  | Some s => Some s
  | None =>
    if bool_decide (i + 1 < length (offsets col))%nat then
      s ← offsets col !! i; e ← offsets col !! (i + 1)%nat; b ← byte_slice (bytes col) s e;
      Some (if utf8_valid b then b else [])
    else Some []
  end.

Definition len (col : StringSearchColumn) : nat :=
  if bool_decide (strings col = []) then (length (offsets col) - 1)%nat else length (strings col).

(** ** Substring search *)
Lemma position_spec first l :
  match position first l with
  | Some k => l !! k = Some first ∧ ∀ j, (j < k)%nat → l !! j ≠ Some first
  | None => ∀ j, l !! j ≠ Some first
  end.
Proof.
  induction l as [|b l IH]; [done|]. cbn [position]. destruct (Z.eqb_spec b first) as [->|Hne].
  - split; [done|]. lia.
  - destruct (position first l) as [k|]; simpl.
    + destruct IH as [H1 H2]. split; [done|]. intros [|j] Hj; simpl; [congruence|]. apply H2. lia.
    + intros [|j]; simpl; [congruence|apply IH].
Qed.

(** The needle starts at [i]. *)
Definition match_at (haystack needle : list Z) (i : nat) : Prop := slice i (length needle) haystack = needle.

Lemma match_at_first haystack x needle i : match_at haystack (x :: needle) i → haystack !! i = Some x.
Proof.
  unfold match_at, slice. intros H. apply (f_equal (lookup 0%nat)) in H.
  rewrite lookup_take_lt, lookup_drop, Nat.add_0_r in H by (simpl; lia). done.
Qed.

Lemma match_at_fits haystack needle i : match_at haystack needle i → (0 < length needle)%nat → (i + length needle <= length haystack)%nat.
Proof.
  unfold match_at, slice. intros H Hn. apply (f_equal length) in H. rewrite length_take, length_drop in H. lia.
Qed.

Lemma memchr_loop_spec fuel haystack x needle pos :
  (length haystack < fuel + pos)%nat →
  memchr_loop fuel haystack (x :: needle) x pos = true ↔ ∃ i, (pos <= i)%nat ∧ match_at haystack (x :: needle) i.
Proof.
  revert pos; induction fuel as [|fuel IH]; intros pos Hf; cbn [memchr_loop].
  { split; [done|]. intros (i & Hi & Hm). apply match_at_fits in Hm; simpl in *; lia. }
  destruct (Nat.leb_spec (pos + length (x :: needle)) (length haystack)) as [Hle|Hgt].
  2:{ split; [done|]. intros (i & Hi & Hm). apply match_at_fits in Hm; simpl in *; lia. }
  destruct (Nat.leb_spec (length haystack) pos); [simpl in Hle; lia|].
  pose proof (position_spec x (drop pos haystack)) as Hpos. destruct (position x (drop pos haystack)) as [k|].
  - destruct Hpos as [Hk Hbefore]. case_bool_decide as Hm.
    + destruct (Nat.leb_spec (pos + k + length (x :: needle)) (length haystack)) as [Hl|Hl].
      * split; [|done]. intros _. exists (pos + k)%nat. split; [lia|done].
      * apply match_at_fits in Hm; simpl in *; lia.
    + rewrite andb_false_r. rewrite IH by lia. split; intros (i & Hi & Hmi); exists i; (split; [|done]); [lia|].
      pose proof (match_at_first _ _ _ _ Hmi) as Hx.
      destruct (Nat.lt_trichotomy i (pos + k)) as [Hlt|[->|?]]; [|done|lia]. exfalso.
      apply (Hbefore (i - pos)%nat); [lia|]. rewrite lookup_drop. by replace (pos + (i - pos))%nat with i by lia.
  - split; [done|]. intros (i & Hi & Hmi). exfalso. apply (Hpos (i - pos)%nat). rewrite lookup_drop.
    replace (pos + (i - pos))%nat with i by lia. by eapply match_at_first.
Qed.

(** [memchr_search] decides whether the needle is a substring. *)
Lemma memchr_search_spec haystack needle :
  memchr_search haystack needle = true ↔ ∃ a b, haystack = a ++ needle ++ b.
Proof.
  destruct needle as [|x needle]; [split; [intros _; by exists [], haystack|done]|]. unfold memchr_search.
  assert ((∃ i, (0 <= i)%nat ∧ match_at haystack (x :: needle) i) ↔ ∃ a b, haystack = a ++ (x :: needle) ++ b) as Heq.
  { split.
    - intros (i & _ & Hm). exists (take i haystack), (drop (i + length (x :: needle)) haystack).
      rewrite <- (take_drop i haystack) at 1. f_equal.
      rewrite <- (take_drop (length (x :: needle)) (drop i haystack)) at 1. f_equal; [exact Hm|apply drop_drop].
    - intros (a & b & ->). exists (length a). split; [lia|]. unfold match_at, slice.
      rewrite drop_app_length. apply take_app_length. }
  rewrite <- Heq. destruct (Nat.ltb_spec (length haystack) (length (x :: needle))) as [Hlt|Hge].
  - split; [done|]. intros (i & Hi & Hm). apply match_at_fits in Hm; simpl in *; lia.
  - apply memchr_loop_spec. lia.
Qed.

(** ** Columns *)

(** [col] stores the strings [ss]; a projection keeps no copy of them. *)
Record holds (col : StringSearchColumn) (ss : list (list Z)) : Prop := {
  h_offsets : offsets col = offsets_from 0 ss;
  h_bytes : bytes col = concat ss;
  h_strings : strings col = ss ∨ strings col = []
}.

Lemma length_offsets_from k ss : length (offsets_from k ss) = S (length ss).
Proof. revert k; induction ss as [|s ss IH]; intros k; simpl; [done|]. by rewrite IH. Qed.

Lemma lookup_offsets_from k ss i :
  (i <= length ss)%nat → offsets_from k ss !! i = Some (k + length (concat (take i ss)))%nat.
Proof.
  revert k i; induction ss as [|s ss IH]; intros k [|i] Hi; simpl in *; try lia; try (f_equal; lia).
  rewrite IH by lia. f_equal. rewrite length_app. lia.
Qed.

Lemma byte_slice_middle a s b : byte_slice (a ++ s ++ b) (length a) (length a + length s) = Some s.
Proof.
  unfold byte_slice. rewrite bool_decide_true by (rewrite !length_app; lia). f_equal. unfold slice.
  rewrite drop_app_length, Nat.add_comm, Nat.add_sub. apply take_app_length.
Qed.

(** The row between two offsets. *)
Lemma row_slice col ss i :
  holds col ss → byte_slice (bytes col) (bound col i) (bound col (i + 1)) = Some (default [] (ss !! i)).
Proof.
  intros [Ho Hb _]. unfold bound. rewrite Ho, Hb. destruct (decide (i < length ss)%nat) as [Hi|Hi].
  - rewrite !lookup_offsets_from by lia. cbn [default]. destruct (lookup_lt_is_Some_2 ss i Hi) as [s Hs].
    rewrite Hs, Nat.add_1_r, (take_S_r _ _ _ Hs), concat_app, length_app. cbn [concat default]. rewrite app_nil_r, !Nat.add_0_l.
    assert (concat ss = concat (take i ss) ++ s ++ concat (drop (S i) ss)) as ->
      by (by rewrite <- (take_drop_middle ss i s Hs) at 1; rewrite concat_app, concat_cons).
    apply byte_slice_middle.
  - rewrite (lookup_ge_None_2 ss) by lia. rewrite (lookup_ge_None_2 _ (i + 1)) by (rewrite length_offsets_from; lia).
    cbn [default]. assert (default (length (concat ss)) (offsets_from 0 ss !! i) = length (concat ss)) as ->.
    { destruct (decide (i = length ss)) as [->|]; [rewrite lookup_offsets_from by lia; simpl; by rewrite take_ge|].
      by rewrite lookup_ge_None_2 by (rewrite length_offsets_from; lia). }
    unfold byte_slice. rewrite bool_decide_true by lia. f_equal. unfold slice. by rewrite Nat.sub_diag, take_0.
Qed.

Lemma row_bounds col ss i :
  holds col ss → (i < length ss)%nat →
  offsets col !! i = Some (bound col i) ∧ offsets col !! (i + 1)%nat = Some (bound col (i + 1)).
Proof.
  intros [Ho _ _] Hi. unfold bound. rewrite Ho. by rewrite !lookup_offsets_from by lia.
Qed.

Lemma remap_loop_spec col ss indices offs bs :
  holds col ss →
  let rest := (λ i, default [] (ss !! i)) <$> indices in
  remap_loop col indices offs bs = Some (offs ++ offsets_from (length bs) rest, bs ++ concat rest).
Proof.
  intros Hc. cbn zeta. revert offs bs; induction indices as [|i indices IH]; intros offs bs.
  - simpl. by rewrite app_nil_r.
  - cbn [remap_loop]. rewrite (row_slice _ _ _ Hc). cbn [mbind option_bind]. rewrite IH, fmap_cons.
    cbn [offsets_from]. rewrite concat_cons, <- !app_assoc, length_app. done.
Qed.

Lemma column_holds_new ss : holds (new ss) ss.
Proof. split; try done. by left. Qed.

Lemma remap_holds col ss indices :
  holds col ss →
  ∃ col', remap col indices = Some col' ∧ holds col' ((λ i, default [] (ss !! i)) <$> indices).
Proof.
  intros Hc. unfold remap. rewrite (remap_loop_spec col ss indices [] [] Hc). simpl. eexists; split; [done|].
  split; [done|done|by right].
Qed.

Lemma get_holds col ss i :
  holds col ss → Forall (λ s, utf8_valid s = true) ss → get col i = Some (default [] (ss !! i)).
Proof.
  intros Hc Hu. unfold get. destruct (strings col !! i) as [s|] eqn:Hs.
  - destruct (h_strings _ _ Hc) as [E|E]; rewrite E in Hs; [by rewrite Hs|done].
  - assert (length (offsets col) = S (length ss)) as Hl by (by rewrite (h_offsets _ _ Hc), length_offsets_from).
    case_bool_decide as Hi.
    + destruct (row_bounds col ss i Hc) as [-> ->]; [lia|]. cbn [mbind option_bind].
      rewrite (row_slice _ _ _ Hc). cbn [mbind option_bind]. destruct (ss !! i) as [s|] eqn:E; [|done]. simpl.
      by rewrite (Forall_lookup_1 _ _ _ _ Hu E).
    + by rewrite lookup_ge_None_2 by lia.
Qed.

Lemma len_holds col ss : holds col ss → len col = length ss.
Proof.
  intros Hc. unfold len. rewrite (h_offsets _ _ Hc), length_offsets_from. case_bool_decide as E; [lia|].
  by destruct (h_strings _ _ Hc) as [->|].
Qed.

Lemma row_contains_holds col ss pattern i s :
  holds col ss → ss !! i = Some s → row_contains col pattern i = Some (memchr_search s pattern).
Proof.
  intros Hc Hs. unfold row_contains. destruct (row_bounds col ss i Hc) as [-> ->]; [by eapply lookup_lt_Some|].
  cbn [mbind option_bind]. by rewrite (row_slice _ _ _ Hc), Hs.
Qed.

(** Whether a string contains a pattern. *)
Definition contains (pattern s : list Z) : bool := memchr_search s pattern.

Lemma mask_holds ss pattern : like_contains_mask (new ss) pattern = Some (contains pattern <$> ss).
Proof.
  unfold like_contains_mask. case_bool_decide as E.
  - subst. f_equal. simpl. induction ss as [|s ss IH]; [done|]. simpl. by rewrite IH.
  - simpl. apply mapM_Some_2. apply Forall2_same_length_lookup_2; [by rewrite length_fmap, length_seq|].
    intros i x y Hx Hy. apply lookup_seq in Hx as [-> Hi]. rewrite list_lookup_fmap in Hy. simpl in *.
    destruct (ss !! i) as [s|] eqn:Hs; [|done]. simplify_eq/=. by apply (row_contains_holds _ ss _ _ _ (column_holds_new ss)).
Qed.

Lemma count_loop_mask col pattern rows mask k :
  mapM (row_contains col pattern) rows = Some mask →
  count_loop col pattern rows k = Some (k + length (filter (λ b, b = true) mask))%nat.
Proof.
  revert mask k; induction rows as [|i rows IH]; intros mask k H; simpl in H.
  - injection H as <-. cbn [count_loop]. by rewrite Nat.add_0_r.
  - apply bind_Some in H as (b & Hb & H). apply bind_Some in H as (m & Hm & H). injection H as <-.
    cbn [count_loop]. rewrite Hb. cbn [mbind option_bind]. rewrite (IH m) by done. rewrite filter_cons. destruct b; simpl; f_equal; lia.
Qed.

(** LIKE '%p%' and LIKE 'p%'.  On every column of strings the mask is true exactly
    at the rows containing the pattern as a substring, and the counts are the numbers
    of rows containing it and of rows starting with it; no slice is out of range. *)
Theorem like_correct ss pattern :
  ∃ mask, like_contains_mask (new ss) pattern = Some mask ∧
    length mask = length ss ∧
    (∀ i s, ss !! i = Some s → (mask !! i = Some true ↔ ∃ a b, s = a ++ pattern ++ b)) ∧
    count_like_contains (new ss) pattern = Some (length (filter (λ b, b = true) mask)) ∧
    count_like_prefix (new ss) pattern = length (filter (λ s, pattern `prefix_of` s) ss).
Proof.
  exists (contains pattern <$> ss). rewrite mask_holds. split; [done|]. split; [apply length_fmap|]. split; [|split].
  - intros i s Hs. rewrite list_lookup_fmap, Hs. simpl. rewrite <- memchr_search_spec. unfold contains.
    split; [by intros [=]|by intros ->].
  - pose proof (mask_holds ss pattern) as Hm. unfold like_contains_mask in Hm. unfold count_like_contains.
    case_bool_decide as E; [|by rewrite (count_loop_mask _ _ _ _ _ Hm)].
    injection Hm as <-. f_equal. cbn [new strings]. generalize (length ss) as n.
    induction n as [|n IH]; [done|].
    cbn [replicate]. rewrite filter_cons_True by done. cbn [length]. by rewrite <- IH.
  - unfold count_like_prefix. case_bool_decide as E; [|done]. subst. cbn [new strings].
    induction ss as [|s ss IH]; [done|]. rewrite filter_cons_True by apply prefix_nil. cbn [length]. by rewrite IH.
Qed.

(** projecting a string column.  After any chain of projections of a column of
    valid strings, no slice is out of range, the result has one row per index, and
    reading a row gives the string of the row it was taken from (the empty string when
    there is none), although the projected column keeps no strings. *)
Theorem remap_get ss indices1 indices2 :
  Forall (λ s, utf8_valid s = true) ss →
  ∃ col1 col2, remap (new ss) indices1 = Some col1 ∧ remap col1 indices2 = Some col2 ∧
    len col2 = length indices2 ∧
    ∀ j, get col2 j = Some (default [] (indices2 !! j ≫= λ i2, indices1 !! i2 ≫= λ i1, ss !! i1)).
Proof.
  intros Hu. destruct (remap_holds (new ss) ss indices1 (column_holds_new ss)) as (col1 & E1 & H1).
  destruct (remap_holds col1 _ indices2 H1) as (col2 & E2 & H2).
  exists col1, col2. split; [done|]. split; [done|]. split; [by rewrite (len_holds _ _ H2), length_fmap|].
  assert (∀ l idx, Forall (λ s, utf8_valid s = true) l →
            Forall (λ s, utf8_valid s = true) ((λ i : nat, default [] (l !! i)) <$> idx)) as Hv.
  { intros l idx Hl. apply Forall_fmap, Forall_true. intros i. simpl. destruct (l !! i) as [s|] eqn:E; [|done].
    by apply (Forall_lookup_1 _ _ _ _ Hl E). }
  intros j. rewrite (get_holds _ _ j H2) by (by apply Hv, Hv). f_equal. rewrite list_lookup_fmap.
  destruct (indices2 !! j) as [i2|]; [|done]. simpl. rewrite list_lookup_fmap. by destruct (indices1 !! i2).
Qed.

Lemma remap_get_witness :
  ∃ col1 col2, remap (new [[97]; [195; 169]; []]) [1; 0]%nat = Some col1 ∧ remap col1 [1; 0; 5]%nat = Some col2 ∧
    get col2 1 = Some [195; 169].
Proof.
  destruct (remap_get [[97]; [195; 169]; []] [1; 0]%nat [1; 0; 5]%nat) as (col1 & col2 & E1 & E2 & _ & H).
  - repeat (apply Forall_cons_2; [reflexivity|]). apply Forall_nil_2.
  - exists col1, col2. split; [exact E1|]. split; [exact E2|]. rewrite H. reflexivity.
Defined.
End StringColumnM.
