(* ===== verification/Leapfrog.v ===== *)
(** * The leapfrog join (src/src/kernel/leapfrog.rs)

    The [SortedIterator] trait as an interface with its documented laws, the slice
    iterator that implements it, and the multiway intersection proved against the
    interface alone.  [run] is given fuel; more fuel than keys is enough. *)

From Stdlib Require Import ZArith Lia Sorted.
From stdpp Require Import prelude list numbers sorting.
From S2P Require Import Prelude.
Local Open Scope Z_scope.

Module LeapfrogM.

(** ** The trait *)
Class SortedIterator (I : Type) := {
  current_key : I → option Z;
  seek : Z → I → I * option Z;
  next : I → I * option Z
}.

(** What an implementation promises: it yields a strictly increasing sequence of 64-bit
    keys, [seek] skips the smaller ones and [next] the current one. *)
Class SortedIteratorLaws (I : Type) `{SortedIterator I} := {
  keys_left : I → list Z;
  iter_ok : I → Prop;
  keys_sorted it : iter_ok it → StronglySorted Z.lt (keys_left it);
  keys_u64 it : iter_ok it → Forall (in_u 64) (keys_left it);
  current_key_law it : iter_ok it → current_key it = head (keys_left it);
  seek_law k it : iter_ok it →
    iter_ok (seek k it).1 ∧ keys_left (seek k it).1 = filter (λ x, k <= x) (keys_left it) ∧
    (seek k it).2 = head (keys_left (seek k it).1);
  next_law it : iter_ok it →
    iter_ok (next it).1 ∧ keys_left (next it).1 = tail (keys_left it) ∧ (next it).2 = head (tail (keys_left it))
}.

(** ** The join *)
Section join.
Context {I : Type} `{SortedIterator I}.

(** The loop that finds the largest current key; [None] when one is exhausted. *)
Fixpoint find_max (its : list I) (max_key : Z) : option Z :=
  match its with
  | [] => Some max_key
  | it :: its =>
    match current_key it with
    | Some k => find_max its (if Z.ltb max_key k then k else max_key)
    | None => None
    end
  end.

(** The loop that seeks every iterator to the (growing) maximum.  The iterators reached
    are returned in every case; [None] when one is exhausted. *)
Fixpoint seek_all (its : list I) (max_key : Z) (all_match : bool) : list I * option (Z * bool) :=
  match its with
  | [] => ([], Some (max_key, all_match))
  | it :: its =>
    let continue it max_key all_match :=
      let '(its', r) := seek_all its max_key all_match in (it :: its', r) in
    let do_seek :=
      let '(it', r) := seek max_key it in
      match r with
      | Some k =>
        if Z.eqb k max_key then continue it' max_key all_match
        else continue it' (if Z.ltb max_key k then k else max_key) false
      | None => (it' :: its, None)
      end in
    match current_key it with
    | Some k => if Z.eqb k max_key then continue it max_key all_match
                else if Z.ltb max_key k then continue it max_key false else do_seek
    | None => do_seek
    end
  end.

(** The main loop; [None] only when the fuel runs out. *)
Fixpoint leap_loop (fuel : nat) (its : list I) (out : list Z) : option (list I * list Z) :=
  match fuel with
  | O => None
  | S fuel =>
    match find_max its 0 with
    | None => Some (its, out)
    | Some max_key =>
      match seek_all its max_key true with
      | (its, None) => Some (its, out)
      | (its, Some (max_key, true)) =>
        let out := out ++ [max_key] in
        match its with
        | [] => Some (its, out)
        | it :: rest =>
          let '(it, r) := next it in
          match r with
          | None => Some (it :: rest, out)
          | Some _ => leap_loop fuel (it :: rest) out
          end
        end
      | (its, Some (_, false)) => leap_loop fuel its out
      end
    end
  end.

(** [while let Some(k) = it.current_key() { out.push(k); it.next(); }]. *)
Fixpoint drain (fuel : nat) (it : I) (out : list Z) : option (I * list Z) :=
  match fuel with
  | O => None
  | S fuel => match current_key it with
              | Some k => drain fuel (next it).1 (out ++ [k])
              | None => Some (it, out)
              end
  end.

Definition start (it : I) : I := match current_key it with None => (seek 0 it).1 | Some _ => it end.

(** Positioning every iterator; [None] when one is empty. *)
Fixpoint start_all (its : list I) : list I * bool :=
  match its with
  | [] => ([], true)
  | it :: its =>
    let it := start it in
    match current_key it with
    | None => (it :: its, false)
    | Some _ => let '(its', r) := start_all its in (it :: its', r)
    end
  end.

Definition run (fuel : nat) (its : list I) : option (list I * list Z) :=
  match its with
  | [] => Some ([], [])
  | [it] => '(it, out) ← drain fuel (start it) []; Some ([it], out)
  | _ => let '(its, ok) := start_all its in if ok : bool then leap_loop fuel its [] else Some (its, [])
  end.
End join.

(** ** The slice iterator *)
Record SliceSortedIterator := mkSlice { keys : list Z; pos : nat }.

Definition at_start (ks : list Z) : SliceSortedIterator := mkSlice ks 0.

(** [slice.partition_point(p)] on a slice partitioned by [p]. *)
Fixpoint partition_point (p : Z → bool) (l : list Z) : nat :=
  match l with [] => 0%nat | x :: l => if p x then S (partition_point p l) else 0%nat end.

Definition slice_current (it : SliceSortedIterator) : option Z := keys it !! pos it.

Definition slice_seek (key : Z) (it : SliceSortedIterator) : SliceSortedIterator * option Z :=
  match keys it !! pos it with
  | None => (it, None)
  | Some k =>
    if Z.leb key k then (it, Some k)
    else
      let off := partition_point (λ x, Z.ltb x key) (drop (pos it) (keys it)) in
      let it := mkSlice (keys it) (pos it + off) in (it, slice_current it)
  end.

Definition slice_next (it : SliceSortedIterator) : SliceSortedIterator * option Z :=
  let it := if bool_decide (pos it < length (keys it))%nat then mkSlice (keys it) (pos it + 1) else it in
  (it, slice_current it).

#[export] Instance slice_iterator : SortedIterator SliceSortedIterator :=
  {| current_key := slice_current; seek := slice_seek; next := slice_next |}.

(** The kernel wrapper: two concatenated slices, the first of [n1] cells. *)
Definition leapfrog_execute (n1 n2 : nat) (cells : list Z) : option Z :=
  let total := (n1 + n2)%nat in
  if Nat.eqb total 0 then Some 0
  else
    let left := take n1 cells in
    let right := drop n1 (take total cells) in
    '(_, matches) ← run (S total) [at_start left; at_start right];
    Some (Z.of_nat (length matches)).

(** ** The slice iterator keeps the laws *)
Lemma lt_sorted_nodup l : StronglySorted Z.lt l → NoDup l.
Proof.
  induction 1 as [|x l Hl IH Hx]; [apply NoDup_nil_2|]. apply NoDup_cons_2; [|done].
  intros Hin. rewrite list.Forall_forall in Hx. specialize (Hx x Hin). lia.
Qed.

Lemma StronglySorted_drop {A} (R : A → A → Prop) n l : StronglySorted R l → StronglySorted R (drop n l).
Proof. rewrite <- (take_drop n l) at 1. apply StronglySorted_app_1_r. Qed.

Lemma partition_filter key l :
  StronglySorted Z.lt l → drop (partition_point (λ x, Z.ltb x key) l) l = filter (λ x, key <= x) l.
Proof.
  induction 1 as [|x l Hl IH Hx]; [done|]. cbn [partition_point]. destruct (Z.ltb_spec x key).
  - rewrite filter_cons_False by lia. apply IH.
  - rewrite filter_cons_True by lia. simpl. f_equal. symmetry.
    rewrite (filter_ext_elem _ (λ _, True)).
    + clear. induction l as [|y l IH]; [done|]. rewrite filter_cons_True by done. by rewrite IH.
    + intros y Hy. rewrite list.Forall_forall in Hx. specialize (Hx y Hy). lia.
Qed.

Lemma filter_all_ge key x l : StronglySorted Z.lt (x :: l) → key <= x → filter (λ y, key <= y) (x :: l) = x :: l.
Proof.
  intros Hs Hle. rewrite <- partition_filter by done. cbn [partition_point].
  destruct (Z.ltb_spec x key); [lia|done].
Qed.

#[export, refine] Instance slice_iterator_laws : SortedIteratorLaws SliceSortedIterator :=
  {| keys_left it := drop (pos it) (keys it);
     iter_ok it := StronglySorted Z.lt (keys it) ∧ Forall (in_u 64) (keys it) |}.
Proof.
  - intros it [Hs _]. by apply StronglySorted_drop.
  - intros it [_ Hu]. by apply Forall_drop.
  - intros it _. simpl. unfold slice_current. by rewrite head_lookup, lookup_drop, Nat.add_0_r.
  - intros k it [Hs Hu]. simpl. unfold slice_seek.
    assert (StronglySorted Z.lt (drop (pos it) (keys it))) as Hd
      by (by apply StronglySorted_drop).
    destruct (keys it !! pos it) as [x|] eqn:E.
    + destruct (Z.leb_spec k x) as [Hle|Hgt]; cbn [fst snd].
      * split; [done|]. rewrite (drop_S _ _ _ E) in Hd |- *. split; [by rewrite filter_all_ge|done].
      * split; [done|]. cbn [keys pos]. rewrite <- drop_drop, partition_filter by done. split; [done|].
        unfold slice_current. cbn [keys pos]. rewrite <- partition_filter by done.
        by rewrite head_lookup, !lookup_drop, Nat.add_0_r.
    + cbn [fst snd]. rewrite drop_ge by (by apply lookup_ge_None). done.
  - intros it [Hs Hu]. simpl. unfold slice_next, slice_current. case_bool_decide as Hp; cbn [fst snd keys pos].
    + split; [done|]. destruct (lookup_lt_is_Some_2 _ _ Hp) as [x E]. rewrite (drop_S _ _ _ E). cbn [tail].
      rewrite Nat.add_1_r. split; [done|]. by rewrite head_lookup, lookup_drop, Nat.add_0_r.
    + rewrite drop_ge by lia. split; [done|]. split; [done|]. simpl. apply lookup_ge_None. lia.
Defined.

(** ** Correctness of the join *)
Section correct.
Context {I : Type} `{HI : SortedIterator I} `{!SortedIteratorLaws I}.

(** [k] is still to come in every iterator. *)
Definition common (its : list I) (k : Z) : Prop := ∀ it, it ∈ its → k ∈ keys_left it.
Definition total (its : list I) : nat := sum_list ((λ it, length (keys_left it)) <$> its).
Definition all_ok (its : list I) : Prop := Forall iter_ok its.

Lemma head_least it h k : iter_ok it → head (keys_left it) = Some h → k ∈ keys_left it → h <= k.
Proof.
  intros Hok Hh Hk. pose proof (keys_sorted it Hok) as Hs. destruct (keys_left it) as [|x l]; [done|].
  simplify_eq/=. apply elem_of_cons in Hk as [->|Hk]; [lia|]. apply StronglySorted_cons in Hs as [Hx _].
  rewrite list.Forall_forall in Hx. specialize (Hx k Hk). lia.
Qed.

Lemma head_u64 it h : iter_ok it → head (keys_left it) = Some h → 0 <= h.
Proof.
  intros Hok Hh. pose proof (keys_u64 it Hok) as Hu. destruct (keys_left it) as [|x l]; [done|]. simplify_eq/=.
  apply Forall_cons_1 in Hu as [Hx _]. unfold in_u in Hx. lia.
Qed.

(** The maximum is a current key, so nothing below it is common. *)
Lemma find_max_spec its m :
  all_ok its →
  match find_max its m with
  | None => ∃ it, it ∈ its ∧ keys_left it = []
  | Some m' => m <= m' ∧ (m' = m ∨ ∃ it, it ∈ its ∧ head (keys_left it) = Some m') ∧
               ∀ it, it ∈ its → ∃ h, head (keys_left it) = Some h ∧ h <= m'
  end.
Proof.
  intros Hok. revert m; induction Hok as [|it its Hit Hok IH]; intros m; cbn [find_max].
  - split; [lia|]. split; [by left|]. intros it H. by apply not_elem_of_nil in H.
  - rewrite current_key_law by done. destruct (head (keys_left it)) as [k|] eqn:Hk.
    + specialize (IH (if Z.ltb m k then k else m)). destruct (find_max its _) as [m'|].
      * destruct IH as (H1 & H2 & H3).
        assert (m <= m' ∧ k <= m') as [Hm Hk'] by (destruct (Z.ltb_spec m k); lia). split; [done|]. split.
        -- destruct H2 as [->|(it' & ? & ?)]; [|right; exists it'; set_solver].
           destruct (Z.ltb_spec m k); [right; exists it; split; [left|done]|by left].
        -- intros it' [->|Hin]%elem_of_cons; [by exists k|by apply H3].
      * destruct IH as (it' & ? & ?). exists it'. set_solver.
    + exists it. split; [left|]. by destruct (keys_left it).
Qed.

(** How one pass of seeks moves an iterator: it keeps every key of [C] and gains none. *)
Definition moved (C : Z → Prop) (it it' : I) : Prop :=
  iter_ok it' ∧ (∀ k, C k → k ∈ keys_left it') ∧ (∀ k, k ∈ keys_left it' → k ∈ keys_left it).

Record passed (C : Z → Prop) (its its' : list I) (m m' : Z) (a a' : bool) : Prop := {
  p_moved : Forall2 (moved C) its its';
  p_low : ∀ k, C k → m' <= k;
  p_total : (total its' <= total its)%nat;
  p_miss : a' = false → a = true → (total its' < total its)%nat;
  p_hit : a' = true → a = true ∧ m' = m ∧ ∀ it, it ∈ its' → head (keys_left it) = Some m
}.

Lemma total_cons it its : total (it :: its) = (length (keys_left it) + total its)%nat.
Proof. done. Qed.

Lemma passed_cons C it it' its its' m m1 m' a a1 a' :
  moved C it it' → passed C its its' m1 m' a1 a' → (length (keys_left it') <= length (keys_left it))%nat →
  (a1 = false → a = true → (length (keys_left it') < length (keys_left it))%nat) →
  (a1 = true → a = true ∧ m1 = m ∧ head (keys_left it') = Some m) →
  passed C (it :: its) (it' :: its') m m' a a'.
Proof.
  intros Hmv [P1 P2 P3 P4 P5] Hlen Hmiss Hhit. split; [by constructor|done|rewrite !total_cons; lia| |].
  - intros Ha' Ha. rewrite !total_cons. destruct a1; [specialize (P4 Ha' eq_refl)|specialize (Hmiss eq_refl Ha)]; lia.
  - intros Ha'. destruct (P5 Ha') as (-> & -> & Hh). destruct (Hhit eq_refl) as (? & -> & Hit). split; [done|].
    split; [done|]. intros x [->|Hx]%elem_of_cons; [done|by apply Hh].
Qed.

Lemma seek_all_spec (C : Z → Prop) its m a :
  all_ok its → (∀ k, C k → m <= k) → (∀ k it, C k → it ∈ its → k ∈ keys_left it) →
  (∀ it, it ∈ its → ∃ h, head (keys_left it) = Some h ∧ h <= m) →
  match seek_all its m a with
  | (its', None) => ∀ k, ¬ C k
  | (its', Some (m', a')) => passed C its its' m m' a a'
  end.
Proof.
  intros Hok. revert m a; induction Hok as [|it its Hit Hok IH]; intros m a Hlow HC Hheads; cbn [seek_all].
  { split; try done; [by intros ->|]. intros ->. split; [done|]. split; [done|]. intros it H. by apply not_elem_of_nil in H. }
  assert (∀ k it', C k → it' ∈ its → k ∈ keys_left it') as HC' by (intros k it' HCk Hin; apply HC; [done|by right]).
  assert (∀ m1, m <= m1 → ∀ it', it' ∈ its → ∃ h, head (keys_left it') = Some h ∧ h <= m1) as Hh'.
  { intros m1 Hm1 it' Hin. destruct (Hheads it') as (h & ? & ?); [by right|]. exists h. split; [done|lia]. }
  rewrite current_key_law by done. destruct (Hheads it) as (h & Hh & Hle); [left|]. rewrite Hh.
  destruct (Z.eqb_spec h m) as [->|Hne].
  { specialize (IH m a Hlow HC' (Hh' m ltac:(lia))). destruct (seek_all its m a) as [its' [[m' a']|]]; [|done].
    eapply passed_cons; [|done|done|by intros -> |by intros ->]. split; [done|]. split; [|done].
    intros k HCk. apply HC; [done|left]. }
  destruct (Z.ltb_spec m h) as [|_]; [lia|].
  destruct (seek_law m it Hit) as (Sok & Sk & Sh). destruct (seek m it) as [it' r]. cbn [fst snd] in *.
  assert (∀ k, C k → k ∈ keys_left it') as HCit'.
  { intros k HCk. rewrite Sk. apply list_elem_of_filter. split; [by apply Hlow|]. apply HC; [done|left]. }
  assert (moved C it it') as Hmv.
  { split; [done|]. split; [done|]. intros k. rewrite Sk, list_elem_of_filter. by intros [_ ?]. }
  assert (length (keys_left it') < length (keys_left it))%nat as Hlt.
  { rewrite Sk. destruct (keys_left it) as [|x l]; [done|]. simplify_eq/=. rewrite filter_cons_False by lia.
    pose proof (length_filter (λ y, m <= y) l). simpl. lia. }
  destruct r as [k|].
  - symmetry in Sh. destruct (Z.eqb_spec k m) as [->|Hkm].
    + specialize (IH m a Hlow HC' (Hh' m ltac:(lia))). destruct (seek_all its m a) as [its' [[m' a']|]]; [|done].
      eapply passed_cons; [done|done|lia|lia|by intros ->].
    + assert (m <= k) as Hk.
      { assert (k ∈ keys_left it') as Hin by (destruct (keys_left it'); [done|]; simplify_eq/=; left).
        rewrite Sk in Hin. by apply list_elem_of_filter in Hin as [? _]. }
      destruct (Z.ltb_spec m k) as [Hmk|]; [|lia].
      assert (∀ k', C k' → k <= k') as Hlow' by (intros k' HCk'; eapply head_least; [done|done|by apply HCit']).
      specialize (IH k false Hlow' HC' (Hh' k Hk)). destruct (seek_all its k false) as [its' [[m' a']|]]; [|done].
      eapply passed_cons; [done|done|lia|by intros|done].
  - intros k HCk. apply HCit' in HCk. destruct (keys_left it'); [by apply not_elem_of_nil in HCk|done].
Qed.

Lemma moved_common C its its' : Forall2 (moved C) its its' → (∀ k, C k → common its' k) ∧ (∀ k, common its' k → common its k) ∧ all_ok its'.
Proof.
  intros H. split; [|split].
  - intros k HCk it' Hin. apply list_elem_of_lookup in Hin as (i & Hi).
    destruct (Forall2_lookup_r _ _ _ _ _ H Hi) as (it & _ & _ & Hk & _). by apply Hk.
  - intros k Hc it Hin. apply list_elem_of_lookup in Hin as (i & Hi).
    destruct (Forall2_lookup_l _ _ _ _ _ H Hi) as (it' & Hi' & _ & _ & Hk). apply Hk, Hc.
    apply list_elem_of_lookup. by exists i.
  - induction H as [|it it' its its' (Hok & _) _ IH]; [apply Forall_nil_2|by apply Forall_cons_2].
Qed.
(** [ext] lists the common keys in ascending order. *)
Definition lists_common (its : list I) (ext : list Z) : Prop :=
  StronglySorted Z.lt ext ∧ ∀ k, k ∈ ext ↔ common its k.

Lemma lists_common_nil its it : it ∈ its → keys_left it = [] → lists_common its [].
Proof.
  intros Hin Hk. split; [constructor|]. intros k. split; [intros H; by apply not_elem_of_nil in H|].
  intros Hc. specialize (Hc it Hin). rewrite Hk in Hc. by apply not_elem_of_nil in Hc.
Qed.

(** Emitting the key all iterators are at, and advancing the first. *)
Lemma lists_common_hit it its m ext :
  all_ok (it :: its) → (∀ it', it' ∈ it :: its → head (keys_left it') = Some m) →
  lists_common ((next it).1 :: its) ext → lists_common (it :: its) (m :: ext).
Proof.
  intros Hok Hh [Hs Hc]. apply Forall_cons_1 in Hok as [Hit Hok]. destruct (next_law it Hit) as (_ & Nk & _).
  pose proof (Hh it ltac:(left)) as Hhit. pose proof (keys_sorted it Hit) as Hsort.
  destruct (keys_left it) as [|x l] eqn:E; [done|]. injection Hhit as ->. cbn [tail] in Nk. apply StronglySorted_cons in Hsort as [Hlt _].
  rewrite list.Forall_forall in Hlt.
  assert (∀ k, common ((next it).1 :: its) k ↔ k ∈ l ∧ common its k) as Hsplit.
  { intros k. split.
    - intros H. split; [rewrite <- Nk; apply H; left|]. intros it' Hin. apply H. by right.
    - intros [H1 H2] it' [->|Hin]%elem_of_cons; [by rewrite Nk|by apply H2]. }
  split.
  - constructor; [done|]. apply list.Forall_forall. intros k Hk. apply Hlt. by apply Hc, Hsplit in Hk as [? _].
  - intros k. rewrite elem_of_cons, Hc, Hsplit. split.
    + intros [->|[Hl Hcs]]; intros it' [->|Hin]%elem_of_cons.
      * rewrite E. left.
      * pose proof (Hh it' ltac:(by right)). destruct (keys_left it'); [done|]. simplify_eq/=. left.
      * rewrite E. by right.
      * by apply Hcs.
    + intros H. assert (k ∈ keys_left it) as Hk by (apply H; left). rewrite E in Hk.
      apply elem_of_cons in Hk as [->|Hk]; [by left|right]. split; [done|]. intros it' Hin. apply H. by right.
Qed.

Lemma leap_loop_spec fuel its out :
  its ≠ [] → all_ok its → (total its < fuel)%nat →
  ∃ its' ext, leap_loop fuel its out = Some (its', out ++ ext) ∧ lists_common its ext.
Proof.
  revert its out; induction fuel as [|fuel IH]; intros its out Hne Hok Hf; [lia|]. cbn [leap_loop].
  pose proof (find_max_spec its 0 Hok) as Hmax. destruct (find_max its 0) as [m|].
  2:{ destruct Hmax as (it & Hin & Hk). exists its, []. rewrite app_nil_r. split; [done|]. by eapply lists_common_nil. }
  destruct Hmax as (Hm0 & Hm & Hheads).
  assert (∃ it, it ∈ its ∧ head (keys_left it) = Some m) as (it0 & Hin0 & Hh0).
  { destruct Hm as [->|?]; [|done]. destruct its as [|it its]; [done|]. exists it. split; [left|].
    destruct (Hheads it) as (h & Hh & Hle); [left|]. apply Forall_cons_1 in Hok as [Hit _].
    pose proof (head_u64 it h Hit Hh). rewrite Hh. f_equal. lia. }
  pose proof (seek_all_spec (common its) its m true Hok) as Hseek.
  assert (∀ k, common its k → m <= k) as Hlow.
  { intros k Hc. eapply head_least; [|done|by apply Hc]. by apply (proj1 (list.Forall_forall _ _) Hok). }
  specialize (Hseek Hlow (λ k it Hc Hin, Hc it Hin) Hheads).
  destruct (seek_all its m true) as [its' [[m' a']|]].
  2:{ exists its', []. rewrite app_nil_r. split; [done|]. split; [constructor|]. intros k.
      split; [intros H; by apply not_elem_of_nil in H|intros H; by apply Hseek in H]. }
  destruct Hseek as [P1 P2 P3 P4 P5]. destruct (moved_common _ _ _ P1) as (C1 & C2 & Hok').
  assert (∀ ext, lists_common its' ext → lists_common its ext) as Hback.
  { intros ext [Hs Hc]. split; [done|]. intros k. rewrite Hc. split; [apply C2|apply C1]. }
  destruct a'.
  - destruct (P5 eq_refl) as (_ & -> & Hhit). destruct its' as [|it its']; [by apply Forall2_nil_inv_r in P1|].
    pose proof (proj1 (Forall_cons_1 _ _ _ Hok')) as Hit. destruct (next_law it Hit) as (Nok & Nk & Nh).
    pose proof (lists_common_hit it its' m) as Hhit'. destruct (next it) as [it1 r]. cbn [fst snd] in *.
    assert (Hhead := Hhit it ltac:(left)). destruct (keys_left it) as [|x l] eqn:E; [done|]. injection Hhead as ->. cbn [tail] in Nk, Nh.
    subst r. destruct l as [|y l]; cbn [head].
    + exists (it1 :: its'), [m]. split; [done|]. apply Hback, Hhit'; [done|done|].
      eapply lists_common_nil; [left|by rewrite Nk].
    + destruct (IH (it1 :: its') (out ++ [m])) as (its2 & ext & -> & Hext); [done| | |].
      * apply Forall_cons_2; [done|]. exact (proj2 (Forall_cons_1 _ _ _ Hok')).
      * rewrite total_cons, Nk. rewrite total_cons, E in P3. simpl in P3 |- *. lia.
      * exists its2, (m :: ext). rewrite <- app_assoc. split; [done|]. by apply Hback, Hhit'.
  - destruct (IH its' out) as (its2 & ext & -> & Hext); [by intros ->; apply Forall2_nil_inv_r in P1|done| |].
    { specialize (P4 eq_refl eq_refl). lia. }
    exists its2, ext. split; [done|]. by apply Hback.
Qed.

Lemma start_keys it : iter_ok it → iter_ok (start it) ∧ keys_left (start it) = keys_left it.
Proof.
  intros Hit. unfold start. rewrite current_key_law by done. destruct (keys_left it) as [|x l] eqn:E; [|done]. simpl.
  destruct (seek_law 0 it Hit) as (S1 & S2 & _). split; [done|]. by rewrite S2, E.
Qed.

Lemma start_all_spec its :
  all_ok its → let '(its', b) := start_all its in
  if b : bool then all_ok its' ∧ keys_left <$> its' = keys_left <$> its else lists_common its [].
Proof.
  induction 1 as [|it its Hit Hok IH]; [by split; [apply Forall_nil_2|]|]. cbn [start_all]. destruct (start_keys it Hit) as [S1 S2].
  rewrite current_key_law, S2 by done. destruct (keys_left it) as [|x l] eqn:E; simpl.
  - eapply lists_common_nil; [left|done].
  - destruct (start_all its) as [its' b]. destruct b.
    + destruct IH as [I1 I2]. split; [by apply Forall_cons_2|]. rewrite fmap_cons. by rewrite S2, I2, E.
    + destruct IH as [_ Hc]. split; [constructor|]. intros k. split; [intros H; by apply not_elem_of_nil in H|].
      intros H. apply Hc. intros it' Hin. apply H. by right.
Qed.

Lemma common_keys its its' k : keys_left <$> its' = keys_left <$> its → common its' k → common its k.
Proof.
  intros E Hc it Hin. assert (keys_left it ∈ keys_left <$> its') as Hk.
  { rewrite E. apply list_elem_of_fmap. by exists it. }
  apply list_elem_of_fmap in Hk as (it' & -> & Hin'). by apply Hc.
Qed.

Lemma drain_spec fuel it out :
  iter_ok it → (length (keys_left it) < fuel)%nat → ∃ it', drain fuel it out = Some (it', out ++ keys_left it).
Proof.
  revert it out; induction fuel as [|fuel IH]; intros it out Hit Hf; [lia|]. cbn [drain].
  rewrite current_key_law by done. destruct (next_law it Hit) as (N1 & N2 & _).
  destruct (keys_left it) as [|x l] eqn:E; simpl; [exists it; by rewrite app_nil_r|].
  destruct (IH (next it).1 (out ++ [x])) as (it' & ->); [done|rewrite N2; simpl in *; lia|].
  exists it'. by rewrite N2, <- app_assoc.
Qed.

Lemma leap_run_spec fuel its :
  its ≠ [] → all_ok its → (total its < fuel)%nat →
  ∃ its' out, run fuel its = Some (its', out) ∧ lists_common its out.
Proof.
  intros Hne Hok Hf. destruct its as [|it [|it2 its]]; [done| |].
  - apply Forall_cons_1 in Hok as [Hit _]. destruct (start_keys it Hit) as [S1 S2]. unfold run.
    destruct (drain_spec fuel (start it) [] S1) as (it' & ->).
    { rewrite S2. unfold total in Hf. simpl in Hf. lia. }
    cbn [mbind option_bind]. rewrite S2. eexists _, _. split; [done|]. split; [by apply keys_sorted|].
    intros k. split; [intros Hk it0 ->%list_elem_of_singleton; done|]. intros Hc. apply Hc. left.
  - unfold run. set (l := it :: it2 :: its) in *. pose proof (start_all_spec l Hok) as Hst.
    destruct (start_all l) as [its' b]. destruct b; [|by eexists _, _].
    destruct Hst as [Hok' Hkeys].
    destruct (leap_loop_spec fuel its' []) as (its2 & ext & -> & [Hs Hc]); [by intros ->|done| |].
    + enough (total its' = total l) by lia. unfold total.
      pose proof (f_equal (λ ks, sum_list (length <$> ks)) Hkeys) as Ht. cbn beta in Ht.
      by rewrite <- !list_fmap_compose in Ht.
    + eexists _, _. split; [done|]. split; [done|]. intros k. rewrite Hc. split; by apply common_keys.
Qed.
End correct.

(** the leapfrog join computes the intersection.  For every implementation of the
    iterator interface and every non-empty list of iterators, the join ends within as
    many turns as there are keys and returns exactly the keys all of them still hold,
    in strictly ascending order. *)
Theorem leapfrog_intersection {I} `{HI : SortedIterator I} `{!SortedIteratorLaws I} (its : list I) :
  its ≠ [] → Forall iter_ok its →
  ∃ its' out, run (S (sum_list ((λ it, length (keys_left it)) <$> its))) its = Some (its', out) ∧
    StronglySorted Z.lt out ∧ ∀ k, k ∈ out ↔ ∀ it, it ∈ its → k ∈ keys_left it.
Proof.
  intros Hne Hok. destruct (leap_run_spec (S (total its)) its Hne Hok) as (its' & out & E & Hs & Hc); [lia|].
  by exists its', out.
Qed.

Lemma leapfrog_intersection_witness :
  ∃ its' out, run 10 [at_start [1; 3; 5]; at_start [2; 3; 5; 9]; at_start [3; 5]] = Some (its', out) ∧ 3 ∈ out.
Proof.
  destruct (leapfrog_intersection [at_start [1; 3; 5]; at_start [2; 3; 5; 9]; at_start [3; 5]])
    as (its' & out & E & Hs & H).
  - discriminate.
  - repeat (apply Forall_cons_2; [split; [repeat constructor; lia|repeat constructor; unfold in_u; lia]|]).
    apply Forall_nil_2.
  - exists its', out. split; [exact E|]. apply H. intros it Hin.
    repeat (apply elem_of_cons in Hin as [->|Hin]; [simpl; set_solver|]). by apply not_elem_of_nil in Hin.
Defined.

(** the kernel wrapper counts matches: on two strictly ascending slices of 64-bit
    cells stored one after the other it returns the number of cells of the first that
    occur in the second. *)
Theorem leapfrog_execute_count left right :
  StronglySorted Z.lt left → StronglySorted Z.lt right → Forall (in_u 64) left → Forall (in_u 64) right →
  leapfrog_execute (length left) (length right) (left ++ right)
  = Some (Z.of_nat (length (filter (λ k, k ∈ right) left))).
Proof.
  intros Hl Hr Ul Ur. unfold leapfrog_execute.
  rewrite take_app_length, take_ge, drop_app_length by (rewrite length_app; lia).
  destruct (Nat.eqb_spec (length left + length right) 0) as [E|E].
  { destruct left; [done|simpl in E; lia]. }
  destruct (leap_run_spec (S (length left + length right)) [at_start left; at_start right]) as (its' & out & -> & Hs & Hc).
  - done.
  - apply Forall_cons_2; [done|]. apply Forall_cons_2; [done|apply Forall_nil_2].
  - change (length left + (length right + 0) < S (length left + length right))%nat. lia.
  - cbn [mbind option_bind]. do 3 f_equal. apply (StronglySorted_unique_strong Z.lt); [intros; lia|done| |].
    + clear -Hl. induction Hl as [|x l Hl IH Hx]; [constructor|]. rewrite filter_cons. case_decide; [|done].
      constructor; [done|]. rewrite list.Forall_forall in Hx |- *. intros y [_ Hy]%list_elem_of_filter. by apply Hx.
    + apply NoDup_Permutation; [by apply lt_sorted_nodup|apply list.NoDup_filter; by apply lt_sorted_nodup|].
      intros k. rewrite Hc, list_elem_of_filter. unfold common. split.
      * intros H. split; [apply (H (at_start right)); right; left|apply (H (at_start left)); left].
      * intros [H1 H2] it Hin. apply elem_of_cons in Hin as [->|Hin]; [done|].
        by apply list_elem_of_singleton in Hin as ->.
Qed.

Lemma leapfrog_execute_count_witness : leapfrog_execute 3 2 ([1; 3; 5] ++ [3; 4]) = Some 1.
Proof.
  apply (leapfrog_execute_count [1; 3; 5] [3; 4]); repeat constructor; unfold in_u; lia.
Defined.
End LeapfrogM.
