(* ===== verification/Recovery.v ===== *)
(** * SQL-level recovery (src/src/storage/recovery.rs and the replay of
    src/src/engine/mod.rs)

    The text log of statements and transaction markers, and the two replays over it.
    The file is the list of its (ASCII) characters; a write may fail after any number of
    them.  Base64 and JSON are crates, given by their functions and the laws the log
    relies on; the engine that executes statements is a parameter, as is the order in
    which a hash map yields its keys.  SQL text is its UTF-8 bytes. *)

From Stdlib Require Import ZArith Lia.
From stdpp Require Import prelude list numbers countable.
From S2P Require Import Prelude StringColumn Lexer.
Local Open Scope Z_scope.

Module RecoveryM.

(** ** Records *)
Inductive PhysicalChange :=
| PageAlloc (table_id page_num : Z)
| CellUpdate (table_id page_num cell_index old_value new_value : Z)
| RowInsert (table_id page_num row_offset : Z) (values : list Z)
| RowDelete (table_id page_num row_offset : Z).

Record WalRecord := mkRec {
  txn_id : Z; sql : list Z; is_commit : bool; is_rollback : bool; physical_change : option PhysicalChange
}.

Definition autocommit (s : list Z) : WalRecord := mkRec 0 s false false None.
Definition begin_rec (t : Z) : WalRecord := mkRec t [] false false None.
Definition commit_rec (t : Z) : WalRecord := mkRec t [] true false None.
Definition rollback_rec (t : Z) : WalRecord := mkRec t [] false true None.
Definition txn_dml (t : Z) (s : list Z) : WalRecord := mkRec t s false false None.
Definition physical (t : Z) (c : PhysicalChange) : WalRecord := mkRec t [] false false (Some c).

(** ** Text *)
Definition BAR : Z := 124.
Definition NL : Z := 10.
Definition CR : Z := 13.
Definition BACKSLASH : Z := 92.

Definition is_whitespace (c : Z) : bool :=
  (Z.leb 9 c && Z.leb c 13) || Z.eqb c 32 || Z.eqb c 0x85 || Z.eqb c 0xA0 || Z.eqb c 0x1680 ||
  (Z.leb 0x2000 c && Z.leb c 0x200A) || Z.eqb c 0x2028 || Z.eqb c 0x2029 || Z.eqb c 0x202F ||
  Z.eqb c 0x205F || Z.eqb c 0x3000.

(** The characters of valid UTF-8. *)
Fixpoint utf8_chars (b : list Z) : list Z :=
  match b with
  | [] => []
  | x :: b =>
    if Z.ltb x 0x80 then x :: utf8_chars b
    else if Z.ltb x 0xE0 then
      match b with y :: b => ((x - 0xC0) * 64 + (y - 0x80)) :: utf8_chars b | _ => [] end
    else if Z.ltb x 0xF0 then
      match b with y :: z :: b => ((x - 0xE0) * 4096 + (y - 0x80) * 64 + (z - 0x80)) :: utf8_chars b | _ => [] end
    else
      match b with
      | y :: z :: w :: b =>
        ((x - 0xF0) * 262144 + (y - 0x80) * 4096 + (z - 0x80) * 64 + (w - 0x80)) :: utf8_chars b
      | _ => []
      end
  end.

(** [s.trim().is_empty()]. *)
Definition is_blank (s : list Z) : bool := forallb is_whitespace (utf8_chars s).

(** [u64] as text and back: [parse] takes an optional [+] and refuses an empty string,
    any other character and a value that does not fit. *)
Definition fmt_u64 (n : Z) : list Z := LexerM.dec 20 n.
Definition parse_u64 (s : list Z) : option Z :=
  let digits := match s with c :: s' => if Z.eqb c 43 then s' else s | [] => s end in
  match digits with
  | [] => None
  | _ => if forallb LexerM.is_digit digits && Z.ltb (LexerM.digits_value digits) (2 ^ 64)
         then Some (LexerM.digits_value digits) else None
  end.

(** The text up to the first [sep] and what follows it, if there is one. *)
Fixpoint split_once (sep : Z) (s : list Z) : list Z * option (list Z) :=
  match s with
  | [] => ([], None)
  | c :: s => if Z.eqb c sep then ([], Some s) else let '(a, r) := split_once sep s in (c :: a, r)
  end.

(** [s.splitn(n, sep).collect()]. *)
Fixpoint splitn (n : nat) (sep : Z) (s : list Z) : list (list Z) :=
  match n with
  | O => []
  | 1%nat => [s]
  | S n => let '(a, r) := split_once sep s in
           match r with Some rest => a :: splitn n sep rest | None => [a] end
  end.

(** [reader.lines()]: without the terminators, and without an empty last line. *)
Definition ends_cr (l : list Z) : bool := match reverse l with c :: _ => Z.eqb c CR | [] => false end.
Definition strip_cr (l : list Z) : list Z := if ends_cr l then take (length l - 1) l else l.
Fixpoint lines_fuel (fuel : nat) (s : list Z) : list (list Z) :=
  match fuel, s with
  | _, [] => []
  | O, _ => []
  | S fuel, _ => let '(a, r) := split_once NL s in
                 match r with Some rest => strip_cr a :: lines_fuel fuel rest | None => [a] end
  end.
Definition lines (s : list Z) : list (list Z) := lines_fuel (length s) s.

(** [s.replace([a, b], [c])] for a two-character pattern. *)
Fixpoint replace2 (a b c : Z) (s : list Z) : list Z :=
  match s with
  | x :: ((y :: s') as t) => if Z.eqb x a && Z.eqb y b then c :: replace2 a b c s' else x :: replace2 a b c t
  | _ => s
  end.

Definition decode_legacy_sql (s : list Z) : list Z := replace2 BACKSLASH 110 NL (replace2 BACKSLASH BAR BAR s).

(** [String::from_utf8_lossy]: every maximal prefix of a character that does not continue
    as one becomes U+FFFD. *)
Definition REPLACEMENT : list Z := [0xEF; 0xBF; 0xBD].

Definition second3 (x y : Z) : bool :=
  if Z.eqb x 0xE0 then StringColumnM.cont 0xA0 0xBF y
  else if Z.eqb x 0xED then StringColumnM.cont 0x80 0x9F y else StringColumnM.cont 0x80 0xBF y.
Definition second4 (x y : Z) : bool :=
  if Z.eqb x 0xF0 then StringColumnM.cont 0x90 0xBF y
  else if Z.eqb x 0xF4 then StringColumnM.cont 0x80 0x8F y else StringColumnM.cont 0x80 0xBF y.

Fixpoint from_utf8_lossy (b : list Z) : list Z :=
  match b with
  | [] => []
  | x :: b1 =>
    if Z.ltb x 0x80 then x :: from_utf8_lossy b1
    else if StringColumnM.cont 0xC2 0xDF x then
      match b1 with
      | y :: b2 => if StringColumnM.cont 0x80 0xBF y then x :: y :: from_utf8_lossy b2
                   else REPLACEMENT ++ from_utf8_lossy b1
      | [] => REPLACEMENT
      end
    else if StringColumnM.cont 0xE0 0xEF x then
      match b1 with
      | y :: b2 =>
        if second3 x y then
          match b2 with
          | z :: b3 => if StringColumnM.cont 0x80 0xBF z then x :: y :: z :: from_utf8_lossy b3
                       else REPLACEMENT ++ from_utf8_lossy b2
          | [] => REPLACEMENT
          end
        else REPLACEMENT ++ from_utf8_lossy b1
      | [] => REPLACEMENT
      end
    else if StringColumnM.cont 0xF0 0xF4 x then
      match b1 with
      | y :: b2 =>
        if second4 x y then
          match b2 with
          | z :: b3 =>
            if StringColumnM.cont 0x80 0xBF z then
              match b3 with
              | w :: b4 => if StringColumnM.cont 0x80 0xBF w then x :: y :: z :: w :: from_utf8_lossy b4
                           else REPLACEMENT ++ from_utf8_lossy b3
              | [] => REPLACEMENT
              end
            else REPLACEMENT ++ from_utf8_lossy b2
          | [] => REPLACEMENT
          end
        else REPLACEMENT ++ from_utf8_lossy b1
      | [] => REPLACEMENT
      end
    else REPLACEMENT ++ from_utf8_lossy b1
  end.

Lemma from_utf8_lossy_valid b : StringColumnM.utf8_valid b = true → from_utf8_lossy b = b.
Proof.
  remember (length b) as n eqn:Hn. assert (length b <= n)%nat as Hle by lia. clear Hn. revert b Hle.
  induction n as [|n IH]; intros [|x b] Hle H; try done; [simpl in Hle; lia|].
  cbn [StringColumnM.utf8_valid] in H. cbn [from_utf8_lossy].
  destruct (Z.ltb x 128); [|destruct (StringColumnM.cont 0xC2 0xDF x);
    [|destruct (StringColumnM.cont 0xE0 0xEF x); [|destruct (StringColumnM.cont 0xF0 0xF4 x)]]]; [..|done].
  - f_equal. apply IH; [simpl in Hle; lia|done].
  - destruct b as [|y b]; [done|]. apply andb_prop in H as [-> H]. do 2 f_equal. apply IH; [simpl in Hle; lia|done].
  - destruct b as [|y [|z b]]; [done..|]. change (second3 x y && StringColumnM.cont 0x80 0xBF z && StringColumnM.utf8_valid b = true) in H.
    apply andb_prop in H as [[-> ->]%andb_prop H]. do 3 f_equal. apply IH; [simpl in Hle; lia|done].
  - destruct b as [|y [|z [|w b]]]; [done..|].
    change (second4 x y && StringColumnM.cont 0x80 0xBF z && StringColumnM.cont 0x80 0xBF w && StringColumnM.utf8_valid b = true) in H.
    apply andb_prop in H as [[[-> ->]%andb_prop ->]%andb_prop H]. do 4 f_equal. apply IH; [simpl in Hle; lia|done].
Qed.

(** ** The log *)
Section wal.
(** The base64 and JSON crates. *)
Context (b64_encode : list Z → list Z) (b64_decode : list Z → option (list Z)).
Context (json_of : PhysicalChange → option (list Z)) (json_parse : list Z → option PhysicalChange).
(** The file's content, whether the handle is open, and how much is synced. *)
Record Wal := mkWal { content : list Z; is_open : bool; synced : nat }.

Definition wal_open (content : list Z) : Wal := mkWal content true (length content).

Definition flag (b : bool) : list Z := [if b then 49 else 48].

Definition line_of (r : WalRecord) : list Z :=
  let physical_json := match physical_change r with Some c => default [] (json_of c) | None => [] end in
  fmt_u64 (txn_id r) ++ BAR :: flag (is_commit r) ++ BAR :: flag (is_rollback r) ++ BAR ::
  b64_encode (sql r) ++ BAR :: physical_json ++ [NL].

(** [append]; [fault] is [Some k] when the write fails after [k] characters. *)
Definition append (fault : option nat) (r : WalRecord) (w : Wal) : bool * Wal :=
  if is_open w then
    match fault with
    | None => (true, mkWal (content w ++ line_of r) true (synced w))
    | Some k => (false, mkWal (content w ++ take k (line_of r)) true (synced w))
    end
  else (true, w).

Definition sync (fails : bool) (w : Wal) : bool * Wal :=
  if is_open w then if fails then (false, w) else (true, mkWal (content w) true (length (content w)))
  else (true, w).

Definition truncate (fails_truncate fails_reopen : bool) (w : Wal) : bool * Wal :=
  if fails_truncate then (false, mkWal (content w) false (synced w))
  else if fails_reopen then (false, mkWal [] false 0) else (true, mkWal [] true 0).

Definition close (w : Wal) : Wal := mkWal (content w) false (synced w).

Definition parse_legacy_record (line : list Z) : WalRecord :=
  let parts := splitn 4 BAR line in
  mkRec (default 0 (parse_u64 (default [] (parts !! 0%nat))))
    (default [] (decode_legacy_sql <$> parts !! 3%nat))
    (default false ((λ s, bool_decide (s = [49])) <$> parts !! 1%nat))
    (default false ((λ s, bool_decide (s = [49])) <$> parts !! 2%nat)) None.

(** One line of [read_all]. *)
Definition parse_line (line : list Z) : option WalRecord :=
  if is_blank line then None
  else match splitn 5 BAR line with
       | t :: c :: r :: s :: rest =>
         let sql := match b64_decode s with Some b => from_utf8_lossy b | None => decode_legacy_sql s end in
         let physical := match rest with p :: _ => if bool_decide (p = []) then None else json_parse p | [] => None end in
         Some (mkRec (default 0 (parse_u64 t)) sql (bool_decide (c = [49])) (bool_decide (r = [49])) physical)
       | _ => Some (parse_legacy_record line)
       end.

Definition read_all (content : list Z) : list WalRecord := omap parse_line (lines content).

(** *** Reading back what was written *)

(** The documented behaviour of the two crates the log relies on. *)
Record codec_laws : Prop := {
  b64_roundtrip b : bytes_ok b → b64_decode (b64_encode b) = Some b;
  b64_alphabet b : bytes_ok b → Forall (λ c, c ≠ BAR ∧ c ≠ NL ∧ c ≠ CR) (b64_encode b);
  json_roundtrip ch : ∃ s, json_of ch = Some s ∧ s ≠ [] ∧ (NL ∉ s) ∧ ends_cr s = false ∧ json_parse s = Some ch
}.

(** A record the engine writes: a 64-bit id and SQL that is a string. *)
Definition rec_ok (r : WalRecord) : Prop :=
  in_u 64 (txn_id r) ∧ bytes_ok (sql r) ∧ StringColumnM.utf8_valid (sql r) = true.

Lemma split_once_app sep a rest : sep ∉ a → split_once sep (a ++ sep :: rest) = (a, Some rest).
Proof.
  induction a as [|c a IH]; intros H; simpl; [by rewrite Z.eqb_refl|].
  rewrite (proj2 (Z.eqb_neq c sep)) by set_solver. by rewrite IH by set_solver.
Qed.

Lemma split_once_length sep s a rest : split_once sep s = (a, Some rest) → (length rest < length s)%nat.
Proof.
  revert a; induction s as [|c s IH]; intros a H; simpl in H; [done|]. destruct (Z.eqb c sep).
  - simplify_eq/=. lia.
  - destruct (split_once sep s) as [a' r']. simplify_eq. specialize (IH a' eq_refl). simpl. lia.
Qed.

Lemma lines_fuel_enough f1 f2 s :
  (length s <= f1)%nat → (length s <= f2)%nat → lines_fuel f1 s = lines_fuel f2 s.
Proof.
  revert f2 s; induction f1 as [|f1 IH]; intros f2 s H1 H2.
  - destruct s; [|simpl in H1; lia]. by destruct f2.
  - destruct s as [|c s]; [by destruct f2|]. destruct f2 as [|f2]; [simpl in H2; lia|]. cbn [lines_fuel].
    destruct (split_once NL (c :: s)) as [a [rest|]] eqn:E; [|done]. apply split_once_length in E.
    f_equal. apply IH; simpl in *; lia.
Qed.

Lemma ends_cr_app a b : b ≠ [] → ends_cr (a ++ b) = ends_cr b.
Proof.
  intros H. destruct b as [|x b _] using rev_ind; [done|]. unfold ends_cr. by rewrite app_assoc, !reverse_snoc.
Qed.

Lemma lines_cons a rest : NL ∉ a → ends_cr a = false → lines (a ++ NL :: rest) = a :: lines rest.
Proof.
  intros H1 H2. unfold lines. rewrite length_app. simpl.
  replace (length a + S (length rest))%nat with (S (length a + length rest)) by lia.
  assert (a ++ NL :: rest ≠ []) as Hne by (by destruct a). destruct (a ++ NL :: rest) as [|x l] eqn:E; [done|].
  cbn [lines_fuel]. rewrite <- E, split_once_app by done. unfold strip_cr. rewrite H2. f_equal.
  apply lines_fuel_enough; lia.
Qed.

Lemma fmt_u64_spec n : in_u 64 n →
  Forall (λ c, LexerM.is_digit c = true) (fmt_u64 n) ∧ LexerM.digits_value (fmt_u64 n) = n ∧ fmt_u64 n ≠ [].
Proof.
  intros Hn. apply LexerM.dec_digits; [|lia]. unfold in_u in Hn. split; [lia|].
  assert (2 ^ 64 < 10 ^ Z.of_nat 20) by (by vm_compute). lia.
Qed.

Lemma digits_bounds s c : Forall (λ c, LexerM.is_digit c = true) s → c ∈ s → 48 <= c <= 57.
Proof.
  intros H Hc. rewrite list.Forall_forall in H. specialize (H c Hc). unfold LexerM.is_digit, LexerM.in_range in H. lia.
Qed.

Lemma parse_fmt_u64 n : in_u 64 n → parse_u64 (fmt_u64 n) = Some n.
Proof.
  intros Hn. destruct (fmt_u64_spec n Hn) as (H1 & H2 & H3). unfold parse_u64.
  destruct (fmt_u64 n) as [|c s] eqn:E; [done|]. assert (48 <= c <= 57) by (eapply digits_bounds; [done|left]).
  rewrite (proj2 (Z.eqb_neq c 43)) by lia. rewrite H2.
  rewrite (proj2 (forallb_forall _ _)); [|exact (proj1 (List.Forall_forall _ _) H1)].
  rewrite (proj2 (Z.ltb_lt _ _)) by (unfold in_u in Hn; lia). done.
Qed.

Definition body_of (r : WalRecord) : list Z :=
  fmt_u64 (txn_id r) ++ BAR :: flag (is_commit r) ++ BAR :: flag (is_rollback r) ++ BAR ::
  b64_encode (sql r) ++ BAR :: match physical_change r with Some c => default [] (json_of c) | None => [] end.

Lemma line_of_body r : line_of r = body_of r ++ [NL].
Proof. unfold line_of, body_of. repeat (rewrite <- app_assoc; cbn [app]; f_equal). Qed.

Context (laws : codec_laws).

Lemma flag_one b : bool_decide (flag b = [49]) = b.
Proof. by destruct b. Qed.

Lemma bar_not_digit n : in_u 64 n → ∀ c, c ∈ fmt_u64 n → c ≠ BAR ∧ c ≠ NL.
Proof.
  intros Hn c Hc. destruct (fmt_u64_spec n Hn) as (H1 & _ & _). pose proof (digits_bounds _ _ H1 Hc).
  unfold BAR, NL. lia.
Qed.

Lemma b64_clean b : bytes_ok b → (BAR ∉ b64_encode b) ∧ (NL ∉ b64_encode b).
Proof.
  intros Hb. pose proof (b64_alphabet laws b Hb) as H. rewrite list.Forall_forall in H. split; intros Hin; by apply H in Hin as (? & ? & ?).
Qed.

Lemma parse_line_body r : rec_ok r → parse_line (body_of r) = Some r.
Proof.
  intros (Ht & Hb & Hu). destruct (fmt_u64_spec _ Ht) as (Hd & _ & Hne). unfold parse_line, body_of.
  assert (is_blank (fmt_u64 (txn_id r) ++ BAR :: flag (is_commit r) ++ BAR :: flag (is_rollback r) ++ BAR ::
    b64_encode (sql r) ++ BAR :: match physical_change r with Some c => default [] (json_of c) | None => [] end) = false) as ->.
  { unfold is_blank. destruct (fmt_u64 (txn_id r)) as [|c s] eqn:E; [done|].
    assert (48 <= c <= 57) by (eapply digits_bounds; [done|left]). cbn [app utf8_chars].
    rewrite (proj2 (Z.ltb_lt c 128)) by lia. cbn [forallb]. apply andb_false_iff. left. unfold is_whitespace. lia. }
  destruct (b64_clean (sql r) Hb) as [Hbar _].
  cbn [splitn]. rewrite split_once_app by (intros H; by apply (bar_not_digit _ Ht) in H as [? _]).
  rewrite !split_once_app by (done || (destruct (is_commit r), (is_rollback r); unfold flag, BAR; set_solver)).
  rewrite parse_fmt_u64, !flag_one, (b64_roundtrip laws) by done. cbn [default]. rewrite (from_utf8_lossy_valid _ Hu).
  destruct r as [t s c rb [ch|]]; cbn [physical_change]; [|done].
  destruct (json_roundtrip laws ch) as (js & -> & Hjs & _ & _ & Hp). simpl.
  destruct js as [|x js]; [done|]. simpl. by rewrite Hp.
Qed.

Lemma body_one_line r : rec_ok r → (NL ∉ body_of r) ∧ ends_cr (body_of r) = false.
Proof.
  intros (Ht & Hb & Hu). destruct (b64_clean (sql r) Hb) as [_ Hnl].
  assert ((NL ∉ match physical_change r with Some c => default [] (json_of c) | None => [] end) ∧
          ends_cr (BAR :: match physical_change r with Some c => default [] (json_of c) | None => [] end) = false) as [J1 J2].
  { destruct (physical_change r) as [ch|]; [|split; [apply not_elem_of_nil|done]].
    destruct (json_roundtrip laws ch) as (js & -> & Hjs & Hn & Hc & _). split; [done|]. simpl.
    change (BAR :: js) with ([BAR] ++ js). by rewrite ends_cr_app. }
  split.
  - assert (NL ∉ fmt_u64 (txn_id r)) by (intros H; by apply (bar_not_digit _ Ht) in H as [_ ?]).
    unfold body_of. repeat first [apply not_elem_of_app; split | apply not_elem_of_cons; split]; auto using not_elem_of_nil;
      unfold NL, BAR; try destruct (is_commit r); try destruct (is_rollback r); lia.
  - unfold body_of. set (J := BAR :: match physical_change r with Some c => _ | None => _ end) in *.
    replace (fmt_u64 (txn_id r) ++ _) with
      ((fmt_u64 (txn_id r) ++ BAR :: flag (is_commit r) ++ BAR :: flag (is_rollback r) ++ BAR :: b64_encode (sql r)) ++ J)
      by (repeat (rewrite <- app_assoc; cbn [app]; f_equal)).
    by rewrite ends_cr_app.
Qed.

Lemma read_all_app rs rest :
  Forall rec_ok rs → read_all (concat (line_of <$> rs) ++ rest) = rs ++ read_all rest.
Proof.
  induction 1 as [|r rs Hr Hrs IH]; [done|]. rewrite fmap_cons, concat_cons, line_of_body, <- !app_assoc. cbn [app].
  destruct (body_one_line r Hr) as [H1 H2]. unfold read_all in *. rewrite lines_cons by done. cbn [omap list_omap].
  rewrite parse_line_body by done. cbn [app]. by f_equal.
Qed.

(** What may happen to the log after it was synced: more appends, of which any may fail
    half way, and more syncs. *)
Inductive log_op := LAppend (fault : option nat) (r : WalRecord) | LSync (fails : bool).

Definition do_log_op (o : log_op) (w : Wal) : Wal :=
  match o with LAppend fault r => (append fault r w).2 | LSync fails => (sync fails w).2 end.
Definition run_log (ops : list log_op) (w : Wal) : Wal := fold_left (λ w o, do_log_op o w) ops w.

Lemma run_log_grows ops w :
  (synced w <= length (content w))%nat →
  ∃ more, content (run_log ops w) = content w ++ more ∧ (synced w <= synced (run_log ops w))%nat.
Proof.
  revert w; induction ops as [|o ops IH]; intros w Hw; [exists []; by rewrite app_nil_r|].
  assert (∃ m1, content (do_log_op o w) = content w ++ m1 ∧ (synced w <= synced (do_log_op o w))%nat ∧
            (synced (do_log_op o w) <= length (content (do_log_op o w)))%nat) as (m1 & E1 & H1 & H2).
  { destruct w as [c [] s]; cbn [content synced] in Hw.
    - destruct o as [[k|] r|[]]; simpl; eexists; (split; [first [reflexivity|by rewrite app_nil_r]|]);
        rewrite ?length_app; lia.
    - destruct o as [[k|] r|[]]; simpl; exists []; rewrite app_nil_r; (split; [done|]); lia. }
  destruct (IH (do_log_op o w) H2) as (m2 & E2 & H3). exists (m1 ++ m2).
  change (run_log (o :: ops) w) with (run_log ops (do_log_op o w)). rewrite E2, E1, <- app_assoc. split; [done|lia].
Qed.

Definition append_all (rs : list WalRecord) (w : Wal) : Wal := fold_left (λ w r, (append None r w).2) rs w.

Lemma append_all_content rs w :
  is_open w = true → append_all rs w = mkWal (content w ++ concat (line_of <$> rs)) true (synced w).
Proof.
  revert w; induction rs as [|r rs IH]; intros w Hw.
  - destruct w as [c o s]. simpl in *. subst. by rewrite app_nil_r.
  - change (append_all (r :: rs) w) with (append_all rs (append None r w).2). unfold append. rewrite Hw. cbn [snd].
    rewrite IH by done. cbn [content synced]. by rewrite fmap_cons, concat_cons, <- app_assoc.
Qed.
End wal.

(** C33: synced records are recovered exactly.  Append any records to a fresh log and
    sync; whatever is appended or synced afterwards, with writes failing half way, and
    wherever a crash cuts the file beyond what was synced, reading the log yields those
    records, field by field and in order, before anything else. *)
Theorem recovery_synced_survive b64_encode b64_decode json_of json_parse rs ops n :
  codec_laws b64_encode b64_decode json_of json_parse → Forall rec_ok rs →
  let w := (sync false (append_all b64_encode json_of rs (wal_open []))).2 in
  let w' := run_log b64_encode json_of ops w in
  (synced w' <= n)%nat →
  ∃ tail, read_all b64_decode json_parse (take n (content w')) = rs ++ tail.
Proof.
  intros laws Hrs. cbn zeta. rewrite append_all_content by done. cbn [wal_open content synced app sync is_open snd].
  set (c := concat (line_of b64_encode json_of <$> rs)). intros Hn.
  destruct (run_log_grows b64_encode json_of ops (mkWal c true (length c))) as (more & E & H); [done|].
  rewrite E. cbn [content synced] in *. rewrite take_app_ge by lia.
  exists (read_all b64_decode json_parse (take (n - length c) more)). by apply read_all_app.
Qed.


(** ** Replay *)
Section replay.
Context {E : Type} (execute : list Z → E → bool * E).

Record ReplayStats := mkStats { replayed : nat; skipped : nat; errors : nat }.

Definition BEGIN : list Z := [66; 69; 71; 73; 78].
Definition COMMIT : list Z := [67; 79; 77; 77; 73; 84].

(** Markers and blank statements are skipped. *)
Definition is_marker (r : WalRecord) : bool := is_commit r || is_rollback r || is_blank (sql r).

(** [for record in records { ...; match engine.execute(&record.sql) { .. } }]. *)
Fixpoint replay_records (rs : list WalRecord) (e : E) (st : ReplayStats) : E * ReplayStats :=
  match rs with
  | [] => (e, st)
  | r :: rs =>
    if is_marker r then replay_records rs e st
    else
      let '(ok, e) := execute (sql r) e in
      replay_records rs e (if ok : bool then mkStats (S (replayed st)) (skipped st) (errors st)
                           else mkStats (replayed st) (skipped st) (S (errors st)))
  end.

(** The group of a transaction, in log order. *)
Definition txn_records (t : Z) (rs : list WalRecord) : list WalRecord := filter (λ r, txn_id r = t) rs.

Fixpoint replay_txns (rs : list WalRecord) (order : list Z) (e : E) (st : ReplayStats) : E * ReplayStats :=
  match order with
  | [] => (e, st)
  | t :: order =>
    let group := txn_records t rs in
    if negb (existsb is_commit group) || existsb is_rollback group
    then replay_txns rs order e (mkStats (replayed st) (S (skipped st)) (errors st))
    else
      let '(_, e) := execute BEGIN e in
      let '(e, st) := replay_records group e st in
      let '(_, e) := execute COMMIT e in
      replay_txns rs order e st
  end.

(** [order] is the order in which the hash map yields the transaction ids. *)
Definition replay_wal (order : list Z) (rs : list WalRecord) (e : E) : E * ReplayStats :=
  let '(e, st) := replay_records (txn_records 0 rs) e (mkStats 0 0 0) in replay_txns rs order e st.

(** [QueryEngine::replay_wal], the replay used with a data directory: one pass in log
    order.  [apply] is [apply_physical_change], whose failure ends the replay. *)
Context (execute_no_wal : list Z → Z → E → E) (apply : PhysicalChange → E → option E).

Definition committed_txns (rs : list WalRecord) : list Z :=
  txn_id <$> filter (λ r, is_commit r = true ∧ txn_id r ≠ 0) rs.

Fixpoint engine_replay (committed : list Z) (rs : list WalRecord) (e : E) : bool * E :=
  match rs with
  | [] => (true, e)
  | r :: rs =>
    if is_rollback r then engine_replay committed rs e
    else if negb (Z.eqb (txn_id r) 0) && negb (bool_decide (txn_id r ∈ committed)) then engine_replay committed rs e
    else if bool_decide (sql r = []) then
      match physical_change r with
      | Some c => match apply c e with Some e => engine_replay committed rs e | None => (false, e) end
      | None => engine_replay committed rs e
      end
    else engine_replay committed rs (execute_no_wal (sql r) (txn_id r) e)
  end.

Definition engine_replay_wal (rs : list WalRecord) (e : E) : bool * E := engine_replay (committed_txns rs) rs e.

(** *** What a replay executes *)

(** The statements among records, without markers and blanks. *)
Definition statements (rs : list WalRecord) : list (list Z) := sql <$> filter (λ r, is_marker r = false) rs.

(** The ids whose records are restored: those with a commit record and no rollback record
    anywhere in the log.  Transactions that share an id are one transaction here. *)
Definition live (rs : list WalRecord) (t : Z) : bool :=
  existsb is_commit (txn_records t rs) && negb (existsb is_rollback (txn_records t rs)).

Definition run_script (script : list (list Z)) (e : E) : E := fold_left (λ e s, (execute s e).2) script e.

(** What a replay does, in order: statements from the log and the brackets around a
    transaction. *)
Inductive action := Enter | Do (s : list Z) | Leave.

Definition text (a : action) : list Z := match a with Enter => BEGIN | Do s => s | Leave => COMMIT end.
Definition data (a : action) : option (list Z) := match a with Do s => Some s | _ => None end.

Definition actions (order : list Z) (rs : list WalRecord) : list action :=
  (Do <$> statements (txn_records 0 rs)) ++
  concat ((λ t, if live rs t then Enter :: (Do <$> statements (txn_records t rs)) ++ [Leave] else []) <$> order).

(** The records a replay restores. *)
Definition restorable (rs : list WalRecord) (r : WalRecord) : Prop :=
  is_marker r = false ∧ (txn_id r = 0 ∨ live rs (txn_id r) = true).

Lemma replay_records_spec rs e st :
  let '(e', st') := replay_records rs e st in
  e' = run_script (statements rs) e ∧ skipped st' = skipped st ∧
  (replayed st' + errors st' = replayed st + errors st + length (statements rs))%nat.
Proof.
  unfold statements. revert e st; induction rs as [|r rs IH]; intros e st; cbn [replay_records]; [done|].
  rewrite filter_cons. destruct (is_marker r) eqn:Hm; [rewrite decide_False by done; apply IH|].
  rewrite decide_True by done. destruct (execute (sql r) e) as [b e1] eqn:He. rewrite fmap_cons.
  unfold run_script. cbn [fold_left]. rewrite He. cbn [snd].
  destruct b; [specialize (IH e1 (mkStats (S (replayed st)) (skipped st) (errors st)))|
               specialize (IH e1 (mkStats (replayed st) (skipped st) (S (errors st))))];
    destruct (replay_records rs e1 _) as [e' st']; cbn [replayed skipped errors length] in *;
    destruct IH as (-> & -> & IH); (split; [done|]); (split; [done|]); lia.
Qed.

Lemma replay_txns_spec rs order e st :
  let '(e', st') := replay_txns rs order e st in
  e' = run_script (concat ((λ t, if live rs t then BEGIN :: statements (txn_records t rs) ++ [COMMIT] else []) <$> order)) e ∧
  skipped st' = (skipped st + length (filter (λ t, live rs t = false) order))%nat ∧
  (replayed st' + errors st' = replayed st + errors st +
     length (concat ((λ t, if live rs t then statements (txn_records t rs) else []) <$> order)))%nat.
Proof.
  revert e st; induction order as [|t order IH]; intros e st; cbn [replay_txns].
  { split; [done|]. cbn [fmap list_fmap concat length]. rewrite !Nat.add_0_r. done. }
  assert (negb (existsb is_commit (txn_records t rs)) || existsb is_rollback (txn_records t rs) = negb (live rs t)) as ->
    by (unfold live; by destruct (existsb is_commit _), (existsb is_rollback _)).
  rewrite !fmap_cons, !concat_cons. destruct (live rs t) eqn:Hl; cbn [negb].
  2:{ rewrite filter_cons_True by done. specialize (IH e (mkStats (replayed st) (S (skipped st)) (errors st))).
      destruct (replay_txns rs order e _) as [e' st']. cbn [replayed skipped errors app length] in *.
      destruct IH as (-> & -> & IH). split; [done|]. split; [lia|done]. }
  rewrite filter_cons_False by congruence. destruct (execute BEGIN e) as [b1 e1] eqn:H1.
  pose proof (replay_records_spec (txn_records t rs) e1 st) as Hg.
  destruct (replay_records (txn_records t rs) e1 st) as [e2 st2]. destruct Hg as (-> & Hs & Hn).
  destruct (execute COMMIT (run_script (statements (txn_records t rs)) e1)) as [b3 e3] eqn:H3.
  specialize (IH e3 st2). destruct (replay_txns rs order e3 st2) as [e' st']. destruct IH as (-> & -> & IH).
  rewrite Hs. split; [|split; [done|rewrite length_app; lia]].
  unfold run_script. cbn [app fold_left]. rewrite H1. cbn [snd]. rewrite <- app_assoc, fold_left_app. cbn [app fold_left].
  unfold run_script in H3. by rewrite H3.
Qed.

End replay.

(** Grouping by transaction loses and duplicates nothing. *)
Lemma groups_perm (P : Z → bool) (order : list Z) (rs : list WalRecord) :
  NoDup order →
  concat ((λ t, if P t then statements (txn_records t rs) else []) <$> order)
  ≡ₚ sql <$> filter (λ r, is_marker r = false ∧ txn_id r ∈ order ∧ P (txn_id r) = true) rs.
Proof.
  induction 1 as [|t order Ht Hnd IH].
  - simpl. rewrite (filter_ext_elem _ (λ _, False)); [|intros r _; split; [intros (_ & Hin & _); by apply not_elem_of_nil in Hin|done]].
    induction rs as [|r rs IHr]; [done|]. rewrite filter_cons_False by tauto. done.
  - rewrite fmap_cons, concat_cons, IH. clear IH. unfold statements, txn_records. induction rs as [|r rs IH]; [by destruct (P t)|].
    destruct (is_marker r) eqn:Hm.
    { rewrite (filter_cons_False (λ r, is_marker r = false ∧ txn_id r ∈ order ∧ P (txn_id r) = true)) by (intros (? & ? & ?); congruence).
      rewrite (filter_cons_False (λ r, is_marker r = false ∧ txn_id r ∈ t :: order ∧ P (txn_id r) = true)) by (intros (? & ? & ?); congruence).
      rewrite <- IH. destruct (P t); [|done]. rewrite filter_cons. case_decide; [rewrite filter_cons_False by congruence|]; done. }
    rewrite (filter_cons (λ r, txn_id r = t)). case_decide as Et.
    + rewrite (filter_cons_False (λ r, is_marker r = false ∧ txn_id r ∈ order ∧ P (txn_id r) = true))
        by (intros (? & Hin & ?); by rewrite Et in Hin).
      destruct (P t) eqn:HP.
      * rewrite filter_cons_True by done. rewrite (filter_cons_True (λ r, is_marker r = false ∧ txn_id r ∈ t :: order ∧ P (txn_id r) = true))
          by (split; [done|]; split; [rewrite Et; left|congruence]).
        rewrite !fmap_cons. cbn [app]. by constructor.
      * rewrite (filter_cons_False (λ r, is_marker r = false ∧ txn_id r ∈ t :: order ∧ P (txn_id r) = true))
          by (intros (? & ? & ?); congruence). done.
    + rewrite (filter_cons (λ r, is_marker r = false ∧ txn_id r ∈ order ∧ P (txn_id r) = true)),
        (filter_cons (λ r, is_marker r = false ∧ txn_id r ∈ t :: order ∧ P (txn_id r) = true)).
      repeat case_decide; try (exfalso; rewrite ?elem_of_cons in *; tauto); [|done].
      rewrite !fmap_cons, <- IH. by rewrite Permutation_middle.
Qed.

Lemma text_do (l : list (list Z)) : text <$> (Do <$> l) = l.
Proof. induction l as [|x l IH]; [done|]. rewrite !fmap_cons, IH. done. Qed.

Lemma data_do (l : list (list Z)) : omap data (Do <$> l) = l.
Proof. induction l as [|x l IH]; [done|]. cbn. by f_equal. Qed.

Lemma actions_text order rs :
  text <$> actions order rs =
  statements (txn_records 0 rs) ++
  concat ((λ t, if live rs t then BEGIN :: statements (txn_records t rs) ++ [COMMIT] else []) <$> order).
Proof.
  unfold actions. rewrite fmap_app, text_do. f_equal. induction order as [|t order IH]; [done|].
  rewrite !fmap_cons, !concat_cons, fmap_app, IH. f_equal. destruct (live rs t); [|done].
  rewrite fmap_cons, fmap_app, text_do. done.
Qed.

Lemma actions_data order rs :
  omap data (actions order rs) =
  statements (txn_records 0 rs) ++ concat ((λ t, if live rs t then statements (txn_records t rs) else []) <$> order).
Proof.
  unfold actions. rewrite omap_app, data_do. f_equal. induction order as [|t order IH]; [done|].
  rewrite !fmap_cons, !concat_cons, omap_app, IH. f_equal. destruct (live rs t); [|done].
  simpl. rewrite omap_app, data_do. simpl. apply app_nil_r.
Qed.

#[local] Instance restorable_dec rs r : Decision (restorable rs r).
Proof. unfold restorable. apply _. Defined.

(** The restorable statements are those of autocommit and those of the live
    transactions. *)
Lemma restorable_perm order rs :
  NoDup order → (∀ t, t ∈ order ↔ t ≠ 0 ∧ t ∈ txn_id <$> rs) →
  omap data (actions order rs) ≡ₚ sql <$> filter (restorable rs) rs.
Proof.
  intros Hnd Hord. rewrite actions_data.
  pose proof (groups_perm (λ t, Z.eqb t 0 || live rs t) (0 :: order) rs) as H.
  rewrite fmap_cons, concat_cons in H. cbn [Z.eqb orb] in H.
  rewrite (filter_ext_elem (restorable rs) (λ r, is_marker r = false ∧ txn_id r ∈ 0 :: order ∧ (Z.eqb (txn_id r) 0 || live rs (txn_id r)) = true)).
  - rewrite <- H by (constructor; [rewrite Hord; tauto|done]). apply Permutation_app_head.
    apply Permutation_refl'. f_equal. apply list_fmap_ext. intros i t Ht. apply list_elem_of_lookup_2, Hord in Ht as [Ht _].
    by rewrite (proj2 (Z.eqb_neq t 0) Ht).
  - intros r Hr. unfold restorable. rewrite elem_of_cons, Hord, orb_true_iff, Z.eqb_eq, list_elem_of_fmap.
    split; intros H'; [|tauto]. destruct H' as (Hm & Ht). split; [done|]. split; [|tauto].
    destruct (decide (txn_id r = 0)); [tauto|right]. split; [done|]. eauto.
Qed.

(** C34: what replaying a log restores. A transaction is known by its id alone: it counts
    as committed when the log has a commit record of that id and no rollback record of it,
    wherever they are. In whatever order the hash map yields the ids, the engine ends as
    if it first ran all autocommitted statements (id 0) in log order and then, for each
    committed id, BEGIN, its statements in log order, and COMMIT; the data statements it
    executes are those records and no other, each once; each is counted as replayed or as
    an error, and the other ids are counted as skipped. This is not always the last
    committed state: autocommitted statements run before transactions that preceded them
    (see [replay_reorders]), and ids start over after a restart, so that a later rollback
    discards an earlier commit with the same id (see [reused_txn_id]). *)
Theorem replay_restores_live_ids {E} (execute : list Z → E → bool * E) order rs e :
  NoDup order → (∀ t, t ∈ order ↔ t ≠ 0 ∧ t ∈ txn_id <$> rs) →
  let '(e', st) := replay_wal execute order rs e in
  e' = run_script execute (text <$> actions order rs) e ∧
  omap data (actions order rs) ≡ₚ sql <$> filter (restorable rs) rs ∧
  (replayed st + errors st = length (filter (restorable rs) rs))%nat ∧
  skipped st = length (filter (λ t, live rs t = false) order).
Proof.
  intros Hnd Hord. pose proof (restorable_perm order rs Hnd Hord) as Hp. unfold replay_wal.
  pose proof (replay_records_spec execute (txn_records 0 rs) e (mkStats 0 0 0)) as H1.
  destruct (replay_records execute (txn_records 0 rs) e (mkStats 0 0 0)) as [e1 st1]. destruct H1 as (-> & Hs1 & Hc1).
  match goal with |- context [replay_txns execute rs order ?x st1] => pose proof (replay_txns_spec execute rs order x st1) as H2;
    destruct (replay_txns execute rs order x st1) as [e2 st2] end.
  destruct H2 as (-> & Hs2 & Hc2). split; [|split; [done|split]].
  - rewrite actions_text. unfold run_script. by rewrite fold_left_app.
  - rewrite <- (length_fmap sql (filter _ rs)), <- Hp, actions_data, length_app. simpl in *. lia.
  - simpl in *. lia.
Qed.

(** A log on which the two replays mean the same: an id is not used by both a committed
    and a rolled back transaction, statements are not blank, only statements carry SQL,
    and there are no physical records. *)
Definition plain_log (rs : list WalRecord) : Prop :=
  (∀ t, t ≠ 0 → existsb is_commit (txn_records t rs) = true → existsb is_rollback (txn_records t rs) = false) ∧
  Forall (λ r, physical_change r = None ∧ (is_blank (sql r) = true → sql r = []) ∧
               (is_commit r || is_rollback r = true → sql r = [])) rs.

Lemma committed_txns_spec rs t : t ≠ 0 → t ∈ committed_txns rs ↔ existsb is_commit (txn_records t rs) = true.
Proof.
  intros Ht. unfold committed_txns, txn_records. rewrite list_elem_of_fmap, existsb_exists.
  setoid_rewrite list_elem_of_filter. setoid_rewrite <- list_elem_of_In. setoid_rewrite list_elem_of_filter.
  split; intros (r & H); exists r; intuition congruence.
Qed.

Lemma engine_replay_fold {E} (no_wal : list Z → Z → E → E) apply rs0 rs e :
  (∀ t, t ≠ 0 → existsb is_commit (txn_records t rs0) = true → existsb is_rollback (txn_records t rs0) = false) →
  Forall (λ r, physical_change r = None ∧ (is_blank (sql r) = true → sql r = []) ∧
               (is_commit r || is_rollback r = true → sql r = [])) rs →
  engine_replay no_wal apply (committed_txns rs0) rs e =
  (true, fold_left (λ e r, no_wal (sql r) (txn_id r) e) (filter (restorable rs0) rs) e).
Proof.
  intros Hids Hrs. revert e; induction Hrs as [|r rs (Hph & Hbl & Hmk) Hrs IH]; intros e; [done|]. cbn [engine_replay].
  rewrite filter_cons. destruct (is_rollback r) eqn:Hrb.
  { rewrite decide_False; [apply IH|]. intros [Hm _]. unfold is_marker in Hm. rewrite Hrb, orb_true_r in Hm. done. }
  destruct (decide (txn_id r = 0 ∨ txn_id r ∈ committed_txns rs0)) as [Hc|Hc].
  - assert (negb (Z.eqb (txn_id r) 0) && negb (bool_decide (txn_id r ∈ committed_txns rs0)) = false) as ->.
    { destruct Hc as [->|Hc]; [done|]. rewrite bool_decide_true by done. by rewrite andb_false_r. }
    destruct (bool_decide_reflect (sql r = [])) as [Hs|Hs].
    + rewrite Hph, decide_False; [apply IH|]. intros [Hm _]. unfold is_marker in Hm. by rewrite Hs, orb_true_r in Hm.
    + rewrite decide_True; [by rewrite IH|]. split.
      * unfold is_marker. apply orb_false_iff. split; [|by destruct (is_blank (sql r)); [destruct Hs; apply Hbl|]].
        destruct (is_commit r); [|done]. destruct Hs. by apply Hmk.
      * destruct (decide (txn_id r = 0)) as [?|Hz]; [by left|right]. destruct Hc as [?|Hc]; [done|].
        apply committed_txns_spec in Hc; [|done]. unfold live. by rewrite Hc, Hids.
  - apply Decidable.not_or in Hc as [Hz Hc]. rewrite (proj2 (Z.eqb_neq _ 0) Hz), bool_decide_false by done. cbn [negb andb].
    rewrite decide_False; [apply IH|]. intros (_ & [?|Hl]); [done|]. apply Hc, committed_txns_spec; [done|].
    unfold live in Hl. by apply andb_prop in Hl as [? _].
Qed.

(** on opening a data directory, the engine re-executes in log order exactly the
    statements that are to be restored (autocommitted ones and those of transactions that
    committed), whatever the log interleaves with them. *)
Theorem engine_replay_in_order {E} (no_wal : list Z → Z → E → E) apply rs e :
  plain_log rs →
  engine_replay_wal no_wal apply rs e =
  (true, fold_left (λ e r, no_wal (sql r) (txn_id r) e) (filter (restorable rs) rs) e).
Proof. intros [H1 H2]. by apply engine_replay_fold. Qed.

(** An engine that records what it executes. *)
Definition recorder (s : list Z) (e : list (list Z)) : bool * list (list Z) := (true, e ++ [s]).
Definition recorder_no_wal (s : list Z) (t : Z) (e : list (list Z)) : list (list Z) := e ++ [s].

(** [replay_wal] does not keep the order of the log.  A transaction commits statement
    A and then statement B is autocommitted: the replay executes B first, while the
    engine's own replay of the same log executes A first. *)
Theorem replay_reorders :
  let rs := [begin_rec 1; txn_dml 1 [65]; commit_rec 1; autocommit [66]] in
  (replay_wal recorder [1] rs []).1 = [[66]; BEGIN; [65]; COMMIT] ∧
  engine_replay_wal recorder_no_wal (λ _, Some) rs [] = (true, [[65]; [66]]).
Proof. split; reflexivity. Qed.

(** an id used again after a restart changes the fate of the earlier transaction.
    Transaction 2 commits A; a second transaction 2 runs B and rolls back: [replay_wal]
    loses A, and the engine's replay executes B. *)
Theorem reused_txn_id :
  let rs := [begin_rec 2; txn_dml 2 [65]; commit_rec 2; begin_rec 2; txn_dml 2 [66]; rollback_rec 2] in
  replay_wal recorder [2] rs [] = ([], mkStats 0 1 0) ∧
  engine_replay_wal recorder_no_wal (λ _, Some) rs [] = (true, [[65]; [66]]).
Proof. split; reflexivity. Qed.

(** a torn append corrupts the record after it.  When an append of a record of
    transaction 7 fails after one character and the commit of transaction 1 is then
    appended, the log reads as the commit of transaction 71. *)
Theorem torn_append_misread b64_encode b64_decode json_of json_parse :
  codec_laws b64_encode b64_decode json_of json_parse →
  let w := (append b64_encode json_of None (commit_rec 1)
              (append b64_encode json_of (Some 1%nat) (txn_dml 7 [65]) (wal_open [])).2).2 in
  read_all b64_decode json_parse (content w) = [commit_rec 71].
Proof.
  intros laws. cbn zeta.
  assert (content (append b64_encode json_of None (commit_rec 1)
              (append b64_encode json_of (Some 1%nat) (txn_dml 7 [65]) (wal_open [])).2).2
          = concat (line_of b64_encode json_of <$> [commit_rec 71]) ++ []) as ->.
  { cbn [append wal_open is_open content snd]. rewrite app_nil_r. simpl. rewrite app_nil_r. reflexivity. }
  rewrite (read_all_app b64_encode b64_decode json_of json_parse laws); [done|].
  repeat constructor; simpl; unfold in_u; lia.
Qed.

(** ** Concrete codecs *)

(** Hexadecimal for base64, and numbered changes in binary for JSON. *)
#[local] Instance PhysicalChange_eq : EqDecision PhysicalChange.
Proof. solve_decision. Defined.

#[local] Program Instance PhysicalChange_countable : Countable PhysicalChange :=
  inj_countable'
    (λ c, match c with
          | PageAlloc a b => inl (a, b)
          | CellUpdate a b c d e => inr (inl (a, b, c, d, e))
          | RowInsert a b c d => inr (inr (inl (a, b, c, d)))
          | RowDelete a b c => inr (inr (inr (a, b, c)))
          end)
    (λ x, match x with
          | inl (a, b) => PageAlloc a b
          | inr (inl (a, b, c, d, e)) => CellUpdate a b c d e
          | inr (inr (inl (a, b, c, d))) => RowInsert a b c d
          | inr (inr (inr (a, b, c))) => RowDelete a b c
          end) _.
Next Obligation. by intros []. Qed.

Fixpoint pos_text (p : positive) : list Z :=
  match p with xH => [50] | xO p => 48 :: pos_text p | xI p => 49 :: pos_text p end.
Fixpoint text_pos (s : list Z) : option positive :=
  match s with
  | [] => None
  | c :: s => if Z.eqb c 50 then Some xH else if Z.eqb c 48 then xO <$> text_pos s else xI <$> text_pos s
  end.

Definition hex_decode (s : list Z) : option (list Z) := Some (LexerM.decode_hex s).
Definition num_json (c : PhysicalChange) : option (list Z) := Some (pos_text (encode c)).
Definition num_parse (s : list Z) : option PhysicalChange := text_pos s ≫= decode.

Lemma pos_text_spec p :
  text_pos (pos_text p) = Some p ∧ Forall (λ c, 48 <= c <= 50) (pos_text p) ∧ pos_text p ≠ [].
Proof.
  induction p as [p (IH1 & IH2 & _)|p (IH1 & IH2 & _)|]; simpl; rewrite ?IH1; repeat split; try done;
    repeat constructor; (done || lia).
Qed.

Lemma ends_cr_forall s : Forall (λ c, c ≠ CR) s → ends_cr s = false.
Proof.
  intros H. unfold ends_cr. apply Forall_reverse in H. destruct (reverse s) as [|c l]; [done|].
  apply Z.eqb_neq. by inversion H.
Qed.

Lemma hex_digit_range n : 0 <= n < 16 → 48 <= LexerM.hex_digit n <= 122.
Proof. unfold LexerM.hex_digit. destruct (Z.ltb_spec n 10); lia. Qed.

Lemma concrete_codec : codec_laws LexerM.encode_hex hex_decode num_json num_parse.
Proof.
  split.
  - intros b Hb. unfold hex_decode. by rewrite (proj1 (LexerM.decode_encode_hex b Hb)).
  - induction 1 as [|x b Hx Hb IH]; [constructor|]. unfold LexerM.encode_hex. rewrite fmap_cons, concat_cons.
    unfold byte_ok in Hx. pose proof (hex_digit_range (x / 16)) as H1. pose proof (hex_digit_range (x mod 16)) as H2.
    assert (0 <= x / 16 < 16) by (Z.to_euclidean_division_equations; lia).
    assert (0 <= x mod 16 < 16) by (Z.to_euclidean_division_equations; lia).
    repeat apply Forall_cons_2; [unfold BAR, NL, CR; lia..|exact IH].
  - intros ch. destruct (pos_text_spec (encode ch)) as (H1 & H2 & H3). exists (pos_text (encode ch)).
    split; [done|]. split; [done|]. split; [|split].
    + intros Hin. rewrite list.Forall_forall in H2. apply H2 in Hin. unfold NL in Hin. lia.
    + apply ends_cr_forall. revert H2. apply Forall_impl. unfold CR. lia.
    + unfold num_parse. rewrite H1. apply decode_encode.
Qed.

Lemma recovery_synced_survive_witness :
  ∃ tail, read_all hex_decode num_parse
    (take 60 (content (run_log LexerM.encode_hex num_json [LAppend (Some 5%nat) (autocommit [66])]
       (sync false (append_all LexerM.encode_hex num_json [begin_rec 1; physical 1 (PageAlloc 1 2); txn_dml 1 [65]] (wal_open []))).2)))
    = [begin_rec 1; physical 1 (PageAlloc 1 2); txn_dml 1 [65]] ++ tail.
Proof.
  apply (recovery_synced_survive LexerM.encode_hex hex_decode num_json num_parse
           [begin_rec 1; physical 1 (PageAlloc 1 2); txn_dml 1 [65]] [LAppend (Some 5%nat) (autocommit [66])] 60).
  - apply concrete_codec.
  - repeat constructor; simpl; unfold in_u; lia.
  - vm_compute. lia.
Defined.

Lemma replay_restores_live_ids_witness :
  let rs := [autocommit [66]; begin_rec 1; txn_dml 1 [65]; begin_rec 2; txn_dml 2 [67]; commit_rec 1] in
  let '(e', st) := replay_wal recorder [2; 1] rs [] in
  e' = run_script recorder (text <$> actions [2; 1] rs) [] ∧
  omap data (actions [2; 1] rs) ≡ₚ sql <$> filter (restorable rs) rs ∧
  (replayed st + errors st = length (filter (restorable rs) rs))%nat ∧
  skipped st = length (filter (λ t, live rs t = false) [2; 1]).
Proof.
  apply (replay_restores_live_ids recorder [2; 1]
           [autocommit [66]; begin_rec 1; txn_dml 1 [65]; begin_rec 2; txn_dml 2 [67]; commit_rec 1] []).
  - apply (bool_decide_unpack _). vm_compute. exact I.
  - intros t. simpl. set_solver by lia.
Defined.

Lemma engine_replay_in_order_witness :
  engine_replay_wal recorder_no_wal (λ _, Some)
    [autocommit [66]; begin_rec 1; txn_dml 1 [65]; begin_rec 2; txn_dml 2 [67]; commit_rec 1; rollback_rec 2] [] =
  (true, [[66]; [65]]).
Proof.
  rewrite (engine_replay_in_order recorder_no_wal (λ _, Some)); [reflexivity|]. split.
  - intros t Ht. destruct (decide (t = 1)) as [->|]; [reflexivity|]. destruct (decide (t = 2)) as [->|]; [done|].
    unfold txn_records. repeat (rewrite filter_cons_False by (simpl; congruence)). done.
  - repeat constructor; done.
Defined.

Lemma torn_append_misread_witness :
  read_all hex_decode num_parse
    (content (append LexerM.encode_hex num_json None (commit_rec 1)
       (append LexerM.encode_hex num_json (Some 1%nat) (txn_dml 7 [65]) (wal_open [])).2).2) = [commit_rec 71].
Proof. apply (torn_append_misread LexerM.encode_hex hex_decode num_json num_parse). apply concrete_codec. Defined.
End RecoveryM.
