(* ===== verification/Parser.v ===== *)
(** * The SQL parser (src/src/sql/parser.rs)

    Recursive descent over the tokens of [Lexer].  The state of the parser is the list of
    tokens from the cursor on: [self.pos += 1] drops its head, and putting a token back
    ([self.pos -= 1]) goes on with the list before it was dropped.  A parser returns what
    it read and the tokens left, or the error; an error carries the token its message
    shows.  [EIndex] is the panic of [self.tokens[self.pos]] beyond the end and [EFuel]
    stands for running out of fuel: [parse_total] excludes both.

    Expressions are parsed by open recursion: [rec] is [parse_expr] one nesting level
    down, and [fuel] bounds both the nesting and each loop.  Unicode upper-casing, the
    display of floats, [char::escape_debug] beyond ASCII and [Date::from_str] (the time
    crate) are parameters. *)

From Stdlib Require Import ZArith Lia Ascii String.
From stdpp Require Import prelude list numbers.
From S2P Require Import Prelude Lexer.
Local Open Scope Z_scope.

Module ParserM.
Import LexerM.

Definition K (s : string) : text := chars_of s.
Arguments K s%_string_scope.

(** ** Syntax *)
Inductive Value := VInt (i : Z) | VFloat (s : text) | VString (s : text) | VHex (b : list Z).

Inductive Expr :=
| Column (s : text)
| Literal (v : Value)
| Binary (left : Expr) (op : text) (right : Expr)
| Case (when_clauses : list (Expr * Expr)) (else_clause : option Expr)
| Function (name arg : text)
| Extract (field : text) (e : Expr)
| Cast (e : Expr) (target_type : text).

Inductive SelectItem :=
| SColumn (s : text)
| SAggregate (func arg : text) (alias : option text)
| SStar
| SLiteral (n : Z)
| SWindow (func arg over_spec : text) (alias : option text)
| SExpression (e : Expr) (alias : option text).

Record JoinClause := mkJoin { join_table : text; on : Expr; join_type : text }.

Record SelectQuery := mkQuery {
  select : list SelectItem; from : text; joins : list JoinClause; where_clause : option Expr;
  group_by : list text; having : option Expr; order_by : list (text * bool); limit : option Z;
  distinct : bool
}.

Inductive ParseError :=
| EKeyword (kw : text) (got : Token) | ETrailing (got : Token)
| ENegativeLiteral (i : Z) | EDistinctColumn (got : Token) | EAggParen (got : Token)
| EOverParen | EOverUnterminated | ESelectItem (got : Token) | EAlias (got : Token)
| ETableKeyword (k : text) | ETableName (got : Token) | EDotName (got : Token)
| EGroupColumn (got : Token) | EOrderColumn (got : Token) | ENegativeUsize (i : Z) | EInteger (got : Token)
| EBetween | ENotBetween | EInParen | EInList (got : Token) | ENotInParen | ENotInList (got : Token)
| EExpr (got : Token) | EFunctionParen (got : Token) | EParen (got : Token) | ECaseNoWhen
| EExtractParen (got : Token) | EExtractField (got : Token) | EExtractClose (got : Token)
| ECastParen (got : Token) | ECastType (got : Token) | ECastClose (got : Token)
| ELParen (got : Token) | ERParen (got : Token) | EIdent (got : Token) | EDateString | ESubstr | EAggregate (func : text)
| EIndex | EFuel.

(** ** The parser's state *)
Definition parser (A : Type) : Type := list Token → result ParseError (A * list Token).

#[global] Instance parser_ret : MRet parser := λ A a ts, Ok (a, ts).
#[global] Instance parser_bind : MBind parser := λ A B f m ts,
  match m ts with Ok (a, ts') => f a ts' | Err e => Err e end.
Definition fail {A} (e : ParseError) : parser A := λ _, Err e.

Definition peek : parser Token := λ ts, match ts with t :: _ => Ok (t, ts) | [] => Err EIndex end.

Definition next : parser Token := λ ts,
  match ts with
  | [] => Ok (EOF, [])
  | EOF :: _ => Ok (EOF, ts)
  | t :: ts => Ok (t, ts)
  end.

(** [self.pos += 1]. *)
Definition bump : parser () := λ ts, Ok (tt, tail ts).

Definition text_eqb (a b : text) : bool := bool_decide (a = b).

Definition match_keyword (kw : text) : parser bool :=
  t ← peek;
  match t with
  | Keyword k => if text_eqb k kw then _ ← bump; mret true else mret false
  | _ => mret false
  end.

Definition expect_keyword (kw : text) : parser () :=
  b ← match_keyword kw;
  if b : bool then mret tt else (t ← peek; fail (EKeyword kw t)).

Definition match_op (op : text) : parser bool :=
  t ← peek;
  match t with
  | Op o => if text_eqb o op then _ ← bump; mret true else mret false
  | _ => mret false
  end.

Definition ascii_lower (c : Z) : Z := if is_upper c then c + 32 else c.
Definition eq_ignore_ascii_case (a b : text) : bool := text_eqb (ascii_lower <$> a) (ascii_lower <$> b).

Definition match_ident (name : text) : parser bool :=
  t ← peek;
  match t with
  | Ident s => if eq_ignore_ascii_case s name then _ ← bump; mret true else mret false
  | Keyword k => if eq_ignore_ascii_case k name then _ ← bump; mret true else mret false
  | _ => mret false
  end.

(** ** Names and lists *)
Definition join_sp (parts : list text) : text :=
  match parts with
  | [] => []
  | p :: ps => p ++ concat ((λ q, 32 :: q) <$> ps)
  end.

Definition fmt_i64 (i : Z) : text := if Z.ltb i 0 then 45 :: dec 19 (- i) else dec 19 i.

Definition parse_optional_alias : parser (option text) :=
  b ← match_keyword (K "AS");
  if b : bool then
    t ← peek;
    match t with Ident name => _ ← next; mret (Some name) | _ => fail (EAlias t) end
  else mret None.

Definition RESERVED : list text :=
  [K "WHERE"; K "GROUP"; K "ORDER"; K "HAVING"; K "LIMIT"; K "JOIN"; K "ON"; K "LEFT"; K "RIGHT"; K "INNER";
   K "OUTER"; K "UNION"; K "EXCEPT"; K "INTERSECT"].

Definition parse_table_name : parser text :=
  t ← peek;
  first ← match t with
          | Ident name => mret name
          | Keyword k => if bool_decide (k ∈ RESERVED) then fail (ETableKeyword k) else mret k
          | other => fail (ETableName other)
          end;
  _ ← next;
  t ← peek;
  match t with
  | Op op =>
    if text_eqb op [DOT] then
      _ ← next;
      t ← peek;
      second ← match t with Ident name => mret name | Keyword k => mret k | other => fail (EDotName other) end;
      _ ← next;
      mret (first ++ DOT :: second)
    else mret first
  | _ => mret first
  end.

(** [GROUP BY]: integers are skipped. *)
Fixpoint parse_column_list (fuel : nat) : parser (list text) :=
  match fuel with
  | O => fail EFuel
  | S fuel =>
    t ← peek;
    col ← match t with
          | Ident name => _ ← next; mret [name]
          | Int _ => _ ← next; mret []
          | other => fail (EGroupColumn other)
          end;
    t ← peek;
    match t with
    | Comma => _ ← next; cols ← parse_column_list fuel; mret (col ++ cols)
    | _ => mret col
    end
  end.

Fixpoint parse_order_list (fuel : nat) : parser (list (text * bool)) :=
  match fuel with
  | O => fail EFuel
  | S fuel =>
    t ← peek;
    match t with
    | Ident name =>
      _ ← next;
      desc ← match_ident (K "DESC");
      _ ← (if desc : bool then mret true else match_ident (K "ASC"));
      t ← peek;
      match t with
      | Comma => _ ← next; items ← parse_order_list fuel; mret ((name, negb desc) :: items)
      | _ => mret [(name, negb desc)]
      end
    | _ => fail (EOrderColumn t)
    end
  end.

Definition parse_usize : parser Z :=
  t ← peek;
  match t with
  | Int i => if Z.ltb i 0 then fail (ENegativeUsize i) else _ ← next; mret (wrap_u 64 i)
  | _ => fail (EInteger t)
  end.

Section parser.
Context (uni_upper : Z → list Z) (fmt_float : text → text).

Definition upper (s : text) : text := to_uppercase uni_upper s.

(** ** Arguments of functions *)
Definition AGG_STOP : list text := [K "FROM"; K "WHERE"; K "GROUP"; K "ORDER"; K "HAVING"; K "LIMIT"].

(** The words up to the closing parenthesis. *)
Fixpoint agg_parts (depth : Z) (ts : list Token) : result ParseError (list text * list Token) :=
  let push w ts' := '(ps, rest) ← agg_parts depth ts'; Ok (w :: ps, rest) in
  match ts with
  | [] => Err EIndex
  | RParen :: ts' =>
    if Z.eqb depth 0 then Ok ([], ts)
    else '(ps, rest) ← agg_parts (depth - 1) ts'; Ok ([41] :: ps, rest)
  | LParen :: ts' => '(ps, rest) ← agg_parts (depth + 1) ts'; Ok ([40] :: ps, rest)
  | Comma :: _ | Semicolon :: _ | EOF :: _ => Ok ([], ts)
  | Ident name :: ts' => push name ts'
  | Int i :: ts' => push (fmt_i64 i) ts'
  | Float f :: ts' => push (fmt_float f) ts'
  | Op op :: ts' => push op ts'
  | Keyword k :: ts' => if bool_decide (k ∈ AGG_STOP) then Ok ([], ts) else push k ts'
  | _ => Ok ([], ts)
  end.

Definition parse_agg_arg : parser text :=
  star ← match_op [42];
  if star : bool then mret [42]
  else parts ← (agg_parts 0 : parser (list text)); mret (join_sp parts).

(** ** Expressions *)
Section expr.
Context (date_from_str : text → option Z).
Context (fuel : nat) (rec : parser Expr).

(** [self.peek()] must be a right parenthesis, which is consumed. *)
Definition close_paren (e : Token → ParseError) : parser () :=
  t ← peek;
  match t with RParen => _ ← next; mret tt | _ => fail (e t) end.

Definition open_paren (e : Token → ParseError) : parser () :=
  t ← peek;
  match t with LParen => _ ← next; mret tt | _ => fail (e t) end.

Fixpoint when_loop (n : nat) : parser (list (Expr * Expr)) :=
  match n with
  | O => fail EFuel
  | S n =>
    b ← match_keyword (K "WHEN");
    if b : bool then
      cond ← rec;
      _ ← expect_keyword (K "THEN");
      result ← rec;
      ws ← when_loop n;
      mret ((cond, result) :: ws)
    else mret []
  end.

Definition parse_case : parser Expr :=
  _ ← expect_keyword (K "CASE");
  ws ← when_loop fuel;
  if bool_decide (length ws = 0%nat) then fail ECaseNoWhen
  else
    b ← match_keyword (K "ELSE");
    else_clause ← (if b : bool then e ← rec; mret (Some e) else mret None);
    _ ← expect_keyword (K "END");
    mret (Case ws else_clause).

(** A keyword or an identifier, upper-cased. *)
Definition upper_word (err : Token → ParseError) : parser text :=
  t ← peek;
  w ← match t with Keyword k => mret (upper k) | Ident s => mret (upper s) | other => fail (err other) end;
  _ ← next;
  mret w.

Definition parse_extract : parser Expr :=
  _ ← expect_keyword (K "EXTRACT");
  _ ← open_paren EExtractParen;
  field ← upper_word EExtractField;
  _ ← expect_keyword (K "FROM");
  e ← rec;
  _ ← close_paren EExtractClose;
  mret (Extract field e).

(** [while !matches!(self.peek(), Token::RParen | Token::EOF) { self.next(); }], and the
    parenthesis if there is one. *)
Fixpoint skip_to_rparen (ts : list Token) : result ParseError (() * list Token) :=
  match ts with
  | [] => Err EIndex
  | RParen :: ts' => Ok (tt, ts')
  | EOF :: _ => Ok (tt, ts)
  | _ :: ts' => skip_to_rparen ts'
  end.

Definition parse_cast : parser Expr :=
  _ ← expect_keyword (K "CAST");
  _ ← open_paren ECastParen;
  e ← rec;
  _ ← expect_keyword (K "AS");
  target_type ← upper_word ECastType;
  t ← peek;
  _ ← match t with LParen => _ ← next; skip_to_rparen | _ => mret tt end;
  _ ← close_paren ECastClose;
  mret (Cast e target_type).

Definition parse_date (kw : text) : parser Expr :=
  _ ← next;
  t ← peek;
  match t with
  | Str s => _ ← next; mret (match date_from_str s with Some d => Literal (VInt d) | None => Literal (VString s) end)
  | _ => mret (Column kw)
  end.

Definition parse_primary : parser Expr :=
  t ← peek;
  match t with
  | Int i => _ ← next; mret (Literal (VInt i))
  | Float f => _ ← next; mret (Literal (VFloat f))
  | Str s => _ ← next; mret (Literal (VString s))
  | Hex h => _ ← next; mret (Literal (VHex h))
  | Keyword kw =>
    let kw_upper := upper kw in
    if text_eqb kw_upper (K "DATE") then parse_date kw
    else if text_eqb kw_upper (K "CASE") then parse_case
    else if text_eqb kw_upper (K "EXTRACT") then parse_extract
    else if text_eqb kw_upper (K "CAST") then parse_cast
    else _ ← next; mret (Column kw)
  | Ident name =>
    _ ← next;
    t ← peek;
    match t with
    | LParen =>
      _ ← next;
      arg ← parse_agg_arg;
      _ ← close_paren EFunctionParen;
      mret (Function (upper name) arg)
    | _ => mret (Column name)
    end
  | LParen => _ ← next; e ← rec; _ ← close_paren EParen; mret e
  | other => fail (EExpr other)
  end.

(** [left op right op ...], left-associative: [accept] recognises the operators of the
    level and [sub] parses the level above. *)
Fixpoint binary_loop (accept : Token → option text) (sub : parser Expr) (n : nat) (left : Expr) : parser Expr :=
  match n with
  | O => fail EFuel
  | S n =>
    t ← peek;
    match accept t with
    | Some op => _ ← next; right ← sub; binary_loop accept sub n (Binary left op right)
    | None => mret left
    end
  end.

Definition accept_op (ops : list text) (t : Token) : option text :=
  match t with Op o => if bool_decide (o ∈ ops) then Some o else None | _ => None end.
Definition accept_keyword (kw : text) (t : Token) : option text :=
  match t with Keyword k => if text_eqb k kw then Some kw else None | _ => None end.

Definition MUL_OPS : list text := [[42]; [47]].
Definition ADD_OPS : list text := [[43]; [45]].

Definition parse_multiplicative_expr : parser Expr :=
  left ← parse_primary; binary_loop (accept_op MUL_OPS) parse_primary fuel left.

Definition parse_additive_expr : parser Expr :=
  left ← parse_multiplicative_expr; binary_loop (accept_op ADD_OPS) parse_multiplicative_expr fuel left.

(** *** Comparisons *)
Definition CMP_OPS : list text := [[61]; [33; 61]; [60; 62]; [60]; [62]; [60; 61]; [62; 61]].

(** The right operand of a comparison or of [LIKE]. *)
Definition rhs (left : Expr) (op : text) : parser Expr :=
  right ← parse_additive_expr; mret (Binary left op right).

(** [low AND high] of the two [BETWEEN]s. *)
Definition between (err : ParseError) : parser (Expr * Expr) :=
  low ← parse_additive_expr;
  b ← match_keyword (K "AND");
  if b : bool then high ← parse_additive_expr; mret (low, high) else fail err.

(** The loop over an [IN] list: [x op v] for each value, combined with [conn]. *)
Fixpoint in_loop (left : Expr) (op conn : text) (err : Token → ParseError) (acc : option Expr) (n : nat) : parser Expr :=
  match n with
  | O => fail EFuel
  | S n =>
    v ← parse_additive_expr;
    let test := Binary left op v in
    let acc := match acc with None => test | Some existing => Binary existing conn test end in
    t ← peek;
    match t with
    | Comma => _ ← next; in_loop left op conn err (Some acc) n
    | RParen => _ ← next; mret acc
    | other => fail (err other)
    end
  end.

Definition in_list (left : Expr) (op conn : text) (paren : ParseError) (err : Token → ParseError) : parser Expr :=
  _ ← open_paren (λ _, paren); in_loop left op conn err None fuel.

(** [NOT] followed by [what], for which [then_] goes on; otherwise [NOT] is put back and
    [else_] goes on. *)
Definition after_not (what : parser bool) (then_ else_ : parser Expr) : parser Expr := λ ts,
  match match_keyword (K "NOT") ts with
  | Err e => Err e
  | Ok (false, ts1) => else_ ts1
  | Ok (true, ts1) =>
    match what ts1 with
    | Err e => Err e
    | Ok (true, ts2) => then_ ts2
    | Ok (false, _) => else_ ts
    end
  end.

Definition parse_comparison_expr : parser Expr :=
  left ← parse_additive_expr;
  t ← peek;
  match accept_op CMP_OPS t with
  | Some op => _ ← next; rhs left (if text_eqb op [60; 62] then [33; 61] else op)
  | None =>
    like ← match_ident (K "LIKE");
    if like : bool then rhs left (K "LIKE")
    else
      after_not (match_ident (K "LIKE")) (rhs left (K "NOT LIKE"))
        (b ← match_keyword (K "BETWEEN");
         if b : bool then
           '(low, high) ← between EBetween;
           mret (Binary (Binary left [62; 61] low) (K "AND") (Binary left [60; 61] high))
         else
           after_not (match_keyword (K "BETWEEN"))
             ('(low, high) ← between ENotBetween;
              mret (Binary (Binary left [60] low) (K "OR") (Binary left [62] high)))
             (b ← match_keyword (K "IN");
              if b : bool then in_list left [61] (K "OR") EInParen EInList
              else
                after_not (match_keyword (K "IN")) (in_list left [33; 61] (K "AND") ENotInParen ENotInList)
                  (mret left)))
  end.

Definition parse_and_expr : parser Expr :=
  left ← parse_comparison_expr; binary_loop (accept_keyword (K "AND")) parse_comparison_expr fuel left.

Definition parse_or_expr : parser Expr :=
  left ← parse_and_expr; binary_loop (accept_keyword (K "OR")) parse_and_expr fuel left.
End expr.

(** [parse_expr], with at most [fuel] levels of nesting. *)
Fixpoint parse_expr (date_from_str : text → option Z) (fuel : nat) : parser Expr :=
  match fuel with
  | O => fail EFuel
  | S fuel => parse_or_expr date_from_str fuel (parse_expr date_from_str fuel)
  end.

(** ** Window clauses *)

(** [{:?}] of strings and tokens. *)
Context (uni_debug : Z → text) (debug_float : text → text).

Definition escape_debug (c : Z) : text :=
  if Z.eqb c 0 then [92; 48] else if Z.eqb c 9 then [92; 116] else if Z.eqb c 10 then [92; 110]
  else if Z.eqb c 13 then [92; 114] else if Z.eqb c 34 then [92; 34] else if Z.eqb c 92 then [92; 92]
  else if Z.ltb c 128 then
    (if Z.ltb c 32 || Z.eqb c 127 then
       [92; 117; 123] ++ (if Z.ltb c 16 then [hex_digit c] else [hex_digit (c / 16); hex_digit (c mod 16)]) ++ [125]
     else [c])
  else uni_debug c.

Definition debug_str (s : text) : text := 34 :: concat (escape_debug <$> s) ++ [34].

Definition tuple1 (name body : text) : text := name ++ 40 :: body ++ [41].

Fixpoint join_comma (parts : list text) : text :=
  match parts with
  | [] => []
  | [p] => p
  | p :: ps => p ++ 44 :: 32 :: join_comma ps
  end.

Definition debug_token (t : Token) : text :=
  match t with
  | Keyword s => tuple1 (K "Keyword") (debug_str s)
  | Ident s => tuple1 (K "Ident") (debug_str s)
  | Int i => tuple1 (K "Int") (fmt_i64 i)
  | Float f => tuple1 (K "Float") (debug_float f)
  | Str s => tuple1 (K "String") (debug_str s)
  | Hex b => tuple1 (K "Hex") (91 :: join_comma (dec 3 <$> b) ++ [93])
  | Op s => tuple1 (K "Op") (debug_str s)
  | LParen => K "LParen" | RParen => K "RParen" | Comma => K "Comma" | Semicolon => K "Semicolon" | EOF => K "EOF"
  end.

(** [s.trim_matches(c)]. *)
Fixpoint trim_start (c : Z) (s : text) : text :=
  match s with d :: s' => if Z.eqb d c then trim_start c s' else s | [] => [] end.
Definition trim_matches (c : Z) (s : text) : text := reverse (trim_start c (reverse (trim_start c s))).

(** The parts of the specification up to the parenthesis that closes [OVER (]. *)
Fixpoint over_parts (depth : Z) (ts : list Token) : result ParseError (list text * list Token) :=
  match ts with
  | [] => Err EIndex
  | LParen :: ts' => '(ps, rest) ← over_parts (depth + 1) ts'; Ok ([40] :: ps, rest)
  | RParen :: ts' =>
    if Z.ltb 0 (depth - 1) then '(ps, rest) ← over_parts (depth - 1) ts'; Ok ([41] :: ps, rest)
    else Ok ([], ts')
  | EOF :: _ => Err EOverUnterminated
  | t :: ts' => '(ps, rest) ← over_parts depth ts'; Ok (trim_matches 39 (trim_matches 34 (debug_token t)) :: ps, rest)
  end.

(** ** The SELECT statement *)
Context (date_from_str : text → option Z).

(** What follows [name (] in a select list. *)
Definition parse_call (name : text) : parser SelectItem :=
  d ← match_ident (K "DISTINCT");
  '(func, arg) ← (if d : bool then
                    t ← peek;
                    match t with
                    | Ident s => _ ← next; mret (upper name ++ K "_DISTINCT", s)
                    | other => fail (EDistinctColumn other)
                    end
                  else arg ← parse_agg_arg; mret (upper name, arg));
  _ ← close_paren EAggParen;
  over ← match_keyword (K "OVER");
  if over : bool then
    _ ← open_paren (λ _, EOverParen);
    spec_parts ← (over_parts 1 : parser (list text));
    alias ← parse_optional_alias;
    mret (SWindow func arg (join_sp spec_parts) alias)
  else
    alias ← parse_optional_alias;
    mret (SAggregate func arg alias).

Definition starts_expression (t : Token) : bool :=
  match t with
  | Keyword kw => text_eqb kw (K "CASE") || text_eqb kw (K "EXTRACT") || text_eqb kw (K "CAST")
  | _ => false
  end.

Definition parse_select_item (fuel : nat) : parser SelectItem :=
  star ← match_op [42];
  if star : bool then mret SStar
  else
    t ← peek;
    if starts_expression t then
      e ← parse_expr date_from_str fuel; alias ← parse_optional_alias; mret (SExpression e alias)
    else
      match t with
      | Int i =>
        if Z.ltb i 0 then fail (ENegativeLiteral i)
        else _ ← next; _ ← parse_optional_alias; mret (SLiteral i)
      | Ident name =>
        _ ← next;
        t ← peek;
        match t with
        | LParen => _ ← next; parse_call name
        | _ => _ ← parse_optional_alias; mret (SColumn name)
        end
      | _ => fail (ESelectItem t)
      end.

Fixpoint parse_select_list (fuel n : nat) : parser (list SelectItem) :=
  match n with
  | O => fail EFuel
  | S n =>
    item ← parse_select_item fuel;
    t ← peek;
    match t with
    | Comma => _ ← next; items ← parse_select_list fuel n; mret (item :: items)
    | _ => mret [item]
    end
  end.

Definition join_on (fuel : nat) (ty : text) : parser JoinClause :=
  table ← parse_table_name;
  _ ← expect_keyword (K "ON");
  e ← parse_expr date_from_str fuel;
  mret (mkJoin table e ty).

Definition outer_join (fuel : nat) (ty : text) : parser JoinClause :=
  _ ← match_keyword (K "OUTER"); _ ← expect_keyword (K "JOIN"); join_on fuel ty.

(** The next clause, if there is one. *)
Definition parse_join (fuel : nat) : parser (option JoinClause) :=
  b ← match_keyword (K "JOIN");
  if b : bool then j ← join_on fuel (K "INNER"); mret (Some j) else
  b ← match_keyword (K "INNER");
  if b : bool then _ ← expect_keyword (K "JOIN"); j ← join_on fuel (K "INNER"); mret (Some j) else
  b ← match_keyword (K "LEFT");
  if b : bool then j ← outer_join fuel (K "LEFT"); mret (Some j) else
  b ← match_keyword (K "RIGHT");
  if b : bool then j ← outer_join fuel (K "RIGHT"); mret (Some j) else
  b ← match_keyword (K "FULL");
  if b : bool then j ← outer_join fuel (K "FULL"); mret (Some j) else
  b ← match_keyword (K "CROSS");
  if b : bool then
    _ ← expect_keyword (K "JOIN");
    table ← parse_table_name;
    mret (Some (mkJoin table (Literal (VInt 1)) (K "CROSS")))
  else mret None.

Fixpoint parse_joins (fuel n : nat) : parser (list JoinClause) :=
  match n with
  | O => fail EFuel
  | S n =>
    j ← parse_join fuel;
    match j with
    | Some j => js ← parse_joins fuel n; mret (j :: js)
    | None => mret []
    end
  end.

(** A clause introduced by a keyword. *)
Definition clause {A} (kw : text) (default : A) (p : parser A) : parser A :=
  b ← match_keyword kw; if b : bool then p else mret default.

Definition parse_select (fuel : nat) : parser SelectQuery :=
  let expr := e ← parse_expr date_from_str fuel; mret (Some e) in
  _ ← expect_keyword (K "SELECT");
  distinct ← match_keyword (K "DISTINCT");
  select ← parse_select_list fuel fuel;
  from ← clause (K "FROM") (K "__dummy__") parse_table_name;
  joins ← parse_joins fuel fuel;
  where_clause ← clause (K "WHERE") None expr;
  group_by ← clause (K "GROUP") [] (_ ← expect_keyword (K "BY"); parse_column_list fuel);
  having ← clause (K "HAVING") None expr;
  order_by ← clause (K "ORDER") [] (_ ← expect_keyword (K "BY"); parse_order_list fuel);
  b ← match_ident (K "LIMIT");
  limit ← (if b : bool then n ← parse_usize; mret (Some n) else mret None);
  mret (mkQuery select from joins where_clause group_by having order_by limit distinct).

Definition parse (tokens : list Token) : result ParseError SelectQuery :=
  match parse_select (length tokens) tokens with
  | Err e => Err e
  | Ok (q, ts) =>
    match peek ts with
    | Ok (Semicolon, _) | Ok (EOF, _) => Ok q
    | Ok (other, _) => Err (ETrailing other)
    | Err e => Err e
    end
  end.
End parser.

(** ** Every input is parsed or rejected *)

(** An error of the grammar, not a panic and not a lack of fuel. *)
Definition proper (e : ParseError) : Prop := e ≠ EFuel ∧ e ≠ EIndex.

(** The tokens end in [EOF], as those of the tokenizer do. *)
Definition eofs (ts : list Token) : Prop := ∃ pre, ts = pre ++ [EOF].

Definition wp {A} (r : result ParseError (A * list Token)) (Q : list Token → Prop) : Prop :=
  match r with Ok (_, ts) => Q ts | Err e => proper e end.

(** [p] copes with every stream of at most [n] tokens: it fails properly or leaves a
    stream that ends in [EOF], a shorter one when [strict]. *)
Definition consumed (strict : bool) (ts ts' : list Token) : Prop :=
  eofs ts' ∧ (length ts' + (if strict then 1 else 0) <= length ts)%nat.
Definition sane {A} (strict : bool) (p : parser A) (n : nat) : Prop :=
  ∀ ts, eofs ts → (length ts <= n)%nat → wp (p ts) (consumed strict ts).
(** The same for streams that start with [t]. *)
Definition sane_at {A} (t : Token) (strict : bool) (p : parser A) (n : nat) : Prop :=
  ∀ ts, eofs (t :: ts) → (length (t :: ts) <= n)%nat → wp (p (t :: ts)) (consumed strict (t :: ts)).

Lemma eofs_cons t ts : eofs (t :: ts) → t ≠ EOF → eofs ts.
Proof. intros [[|u pre] H] Ht; simplify_eq/=. by exists pre. Qed.

Lemma eofs_nil : ¬ eofs [].
Proof. intros [[|] H]; done. Qed.

Lemma wp_mono {A} (r : result ParseError (A * list Token)) (Q Q' : list Token → Prop) :
  wp r Q → (∀ ts, Q ts → Q' ts) → wp r Q'.
Proof. destruct r as [[a ts]|e]; simpl; auto. Qed.

Section combinators.
Context {A B : Type}.

Lemma sane_sub (s s' : bool) (p : parser A) n m :
  sane s p n → (m <= n)%nat → (s' = true → s = true) → sane s' p m.
Proof.
  intros H Hm Hs ts He Hl. eapply wp_mono; [apply H; [done|lia]|]. intros ts' [H1 H2]. split; [done|].
  destruct s', s; lia || by discriminate Hs.
Qed.

Lemma sane_ret (a : A) n : sane false (mret a) n.
Proof. intros ts He Hl. split; [done|simpl; lia]. Qed.

Lemma sane_fail s e n : proper e → sane s (fail e : parser A) n.
Proof. intros He ts _ _. exact He. Qed.

Lemma sane_fail_bind s e (f : A → parser B) n : proper e → sane s (fail e ≫= f) n.
Proof. intros He ts _ _. exact He. Qed.

Lemma sane_bind s (p : parser A) (f : A → parser B) n :
  sane false p n → (∀ a, sane s (f a) n) → sane s (p ≫= f) n.
Proof.
  intros Hp Hf ts He Hl. specialize (Hp ts He Hl). unfold mbind, parser_bind.
  destruct (p ts) as [[a ts']|e]; [|done]. destruct Hp as [H1 H2].
  eapply wp_mono; [apply Hf; [done|lia]|]. intros ts'' [H3 H4]. split; [done|lia].
Qed.

Lemma sane_bind_strict s (p : parser A) (f : A → parser B) n :
  sane true p n → (∀ a, sane false (f a) (n - 1)) → sane s (p ≫= f) n.
Proof.
  intros Hp Hf ts He Hl. specialize (Hp ts He Hl). unfold mbind, parser_bind.
  destruct (p ts) as [[a ts']|e]; [|done]. destruct Hp as [H1 H2].
  eapply wp_mono; [apply Hf; [done|lia]|]. intros ts'' [H3 H4]. split; [done|]. destruct s; lia.
Qed.

Lemma sane_peek s (f : Token → parser B) n : (∀ t, sane_at t s (f t) n) → sane s (peek ≫= f) n.
Proof. intros Hf [|t ts] He Hl; [by apply eofs_nil in He|]. by apply Hf. Qed.

Lemma sane_at_of t s (p : parser B) n : sane s p n → sane_at t s p n.
Proof. intros H ts. apply H. Qed.

Lemma sane_at_next t s (f : Token → parser B) n :
  t ≠ EOF → (∀ a, sane false (f a) (n - 1)) → sane_at t s (next ≫= f) n.
Proof.
  intros Ht Hf ts He Hl. assert ((next ≫= f) (t :: ts) = f t ts) as -> by (unfold mbind, parser_bind; by destruct t).
  eapply wp_mono; [apply Hf; [by eapply eofs_cons|simpl in *; lia]|]. intros ts' [H1 H2]. split; [done|].
  simpl in *. destruct s; lia.
Qed.

Lemma sane_at_bind t s (p : parser A) (f : A → parser B) n :
  sane_at t false p n → (∀ a, sane s (f a) n) → sane_at t s (p ≫= f) n.
Proof.
  intros Hp Hf ts He Hl. specialize (Hp ts He Hl). unfold mbind, parser_bind.
  destruct (p (t :: ts)) as [[a ts']|e]; [|done]. destruct Hp as [H1 H2].
  eapply wp_mono; [apply Hf; [done|lia]|]. intros ts'' [H3 H4]. split; [done|lia].
Qed.

Lemma sane_at_bind_strict t s (p : parser A) (f : A → parser B) n :
  sane_at t true p n → (∀ a, sane false (f a) (n - 1)) → sane_at t s (p ≫= f) n.
Proof.
  intros Hp Hf ts He Hl. specialize (Hp ts He Hl). unfold mbind, parser_bind.
  destruct (p (t :: ts)) as [[a ts']|e]; [|done]. destruct Hp as [H1 H2].
  eapply wp_mono; [apply Hf; [done|lia]|]. intros ts'' [H3 H4]. split; [done|]. destruct s; lia.
Qed.
End combinators.

Lemma bind_assoc {A B C} (p : parser A) (g : A → parser B) (f : B → parser C) ts :
  ((p ≫= g) ≫= f) ts = (p ≫= λ a, g a ≫= f) ts.
Proof. unfold mbind, parser_bind. by destruct (p ts) as [[a ts']|e]. Qed.

Lemma sane_assoc {A B C} s (p : parser A) (g : A → parser B) (f : B → parser C) n :
  sane s (p ≫= λ a, g a ≫= f) n → sane s ((p ≫= g) ≫= f) n.
Proof. intros H ts He Hl. rewrite bind_assoc. by apply H. Qed.

Lemma sane_at_assoc {A B C} t s (p : parser A) (g : A → parser B) (f : B → parser C) n :
  sane_at t s (p ≫= λ a, g a ≫= f) n → sane_at t s ((p ≫= g) ≫= f) n.
Proof. intros H ts He Hl. rewrite bind_assoc. by apply H. Qed.

Lemma sane_zero {A} s (p : parser A) : sane s p 0.
Proof. intros [|t ts] He Hl; [by apply eofs_nil in He|simpl in Hl; lia]. Qed.

(** A test that consumes one token other than [EOF] when it succeeds. *)
Definition test (p : parser bool) : Prop :=
  ∀ t ts, p (t :: ts) = Ok (false, t :: ts) ∨ (t ≠ EOF ∧ p (t :: ts) = Ok (true, ts)).

Lemma test_keyword kw : test (match_keyword kw).
Proof.
  intros t ts. unfold match_keyword, mbind, parser_bind. simpl. destruct t; try (by left).
  destruct (text_eqb s kw); [right|left]; done.
Qed.

Lemma test_op op : test (match_op op).
Proof.
  intros t ts. unfold match_op, mbind, parser_bind. simpl. destruct t; try (by left).
  destruct (text_eqb s op); [right|left]; done.
Qed.

Lemma test_ident name : test (match_ident name).
Proof.
  intros t ts. unfold match_ident, mbind, parser_bind. simpl. destruct t; try (by left);
    (destruct (eq_ignore_ascii_case s name); [right|left]; done).
Qed.

Lemma sane_test {B} s (p : parser bool) (f : bool → parser B) n :
  test p → sane false (f true) (n - 1) → sane s (f false) n → sane s (p ≫= f) n.
Proof.
  intros Hp H1 H2 [|t ts] He Hl; [by apply eofs_nil in He|]. unfold mbind, parser_bind.
  destruct (Hp t ts) as [->|[Ht ->]]; [by apply H2|].
  eapply wp_mono; [apply H1; [by eapply eofs_cons|simpl in *; lia]|]. intros ts' [H3 H4]. split; [done|].
  simpl in *. destruct s; lia.
Qed.

Lemma sane_after_not s what then_ else_ n :
  test what → sane false then_ (n - 1) → sane s else_ n → sane s (after_not what then_ else_) n.
Proof.
  intros Hw H1 H2 [|t ts] He Hl; [by apply eofs_nil in He|]. unfold after_not.
  destruct (test_keyword (K "NOT") t ts) as [->|[Ht ->]]; [by apply H2|].
  pose proof (eofs_cons _ _ He Ht) as He'. destruct ts as [|u ts]; [by apply eofs_nil in He'|].
  destruct (Hw u ts) as [->|[Hu ->]]; [by apply H2|].
  eapply wp_mono; [apply H1; [by eapply eofs_cons|simpl in *; lia]|]. intros ts' [H3 H4]. split; [done|].
  simpl in *. destruct s; lia.
Qed.

Create HintDb sane discriminated.
#[export] Hint Resolve test_keyword test_op test_ident : sane.

Ltac sane_known :=
  first [ by auto with sane
        | eapply (sane_sub true); [|apply le_n|done]; by auto with sane
        | eapply sane_sub; [by eauto with sane | lia | done] ].

(** One step through the structure of a parser. *)
Ltac sane_step :=
  match goal with
  | |- sane _ (mret _) _ => apply sane_ret
  | |- sane _ (fail _) _ => apply sane_fail; first [by auto | split; discriminate]
  | |- sane _ (peek ≫= _) _ => apply sane_peek; intros []
  | |- sane _ (match_keyword _ ≫= _) _ => apply sane_test; [by auto with sane|..]
  | |- sane _ (match_op _ ≫= _) _ => apply sane_test; [by auto with sane|..]
  | |- sane _ (match_ident _ ≫= _) _ => apply sane_test; [by auto with sane|..]
  | |- sane _ (after_not _ _ _) _ => apply sane_after_not; [by auto with sane|..]
  | |- sane_at _ _ (next ≫= _) _ => apply sane_at_next; [discriminate|intros ?]
  | |- sane _ (if ?b then _ else _) _ => destruct b eqn:?
  | |- sane _ ((if ?b then _ else _) ≫= _) _ => destruct b eqn:?
  | |- sane _ ((_ ≫= _) ≫= _) _ => apply sane_assoc
  | |- sane _ (fail _ ≫= _) _ => apply sane_fail_bind; first [by auto | split; discriminate]
  | |- sane ?s (mret ?a ≫= ?f) ?n => change (sane s (f a) n)
  | |- sane_at _ _ (if ?b then _ else _) _ => destruct b eqn:?
  | |- sane_at _ _ ((if ?b then _ else _) ≫= _) _ => destruct b eqn:?
  | |- sane_at _ _ ((_ ≫= _) ≫= _) _ => apply sane_at_assoc
  | |- sane_at ?t ?s (mret ?a ≫= ?f) ?n => change (sane_at t s (f a) n)
  | |- sane _ (_ ≫= _) _ =>
    first [apply sane_bind_strict; [sane_known|intros ?] | apply sane_bind; [sane_known|intros ?]]
  | |- sane _ _ _ => sane_known
  | |- sane_at _ _ _ _ => apply sane_at_of
  end.
Ltac sane_auto := repeat first [progress cbn beta iota | sane_step].

Section total.
Context (uni_upper : Z → list Z) (fmt_float : text → text) (date_from_str : text → option Z).
Context (uni_debug : Z → text) (debug_float : text → text).

Lemma sane_expect_keyword kw n : sane true (expect_keyword kw) n.
Proof. unfold expect_keyword. sane_auto. Qed.

Lemma sane_close_paren e n : (∀ t, proper (e t)) → sane true (close_paren e) n.
Proof. intros He. unfold close_paren. sane_auto. Qed.

Lemma sane_open_paren e n : (∀ t, proper (e t)) → sane true (open_paren e) n.
Proof. intros He. unfold open_paren. sane_auto. Qed.

Lemma sane_upper_word err n : (∀ t, proper (err t)) → sane true (upper_word uni_upper err) n.
Proof. intros He. unfold upper_word. sane_auto. Qed.

Lemma sane_alias n : sane false parse_optional_alias n.
Proof. unfold parse_optional_alias. sane_auto. Qed.

Lemma sane_table_name n : sane true parse_table_name n.
Proof. unfold parse_table_name. sane_auto. Qed.

Lemma sane_usize n : sane true parse_usize n.
Proof. unfold parse_usize. sane_auto. Qed.

Lemma sane_column_list n : sane true (parse_column_list n) n.
Proof. induction n as [|n IH]; [apply sane_zero|]. cbn [parse_column_list]. sane_auto. Qed.

Lemma sane_order_list n : sane true (parse_order_list n) n.
Proof. induction n as [|n IH]; [apply sane_zero|]. cbn [parse_order_list]. sane_auto. Qed.

Lemma sane_agg_parts depth n : sane false (agg_parts fmt_float depth : parser (list text)) n.
Proof.
  intros ts. revert depth n. induction ts as [|t ts IH]; intros depth n He Hl; [by apply eofs_nil in He|].
  destruct (decide (t = EOF)) as [->|Ht]; [split; [done|simpl; lia]|].
  assert (∀ d w, wp ('(ps, rest) ← agg_parts fmt_float d ts; Ok (w :: ps, rest)) (consumed false (t :: ts))) as Hrec.
  { intros d w. specialize (IH d n (eofs_cons _ _ He Ht)). simpl in Hl. unfold mbind, result_bind.
    destruct (agg_parts fmt_float d ts) as [[ps rest]|e]; [|by apply IH; lia].
    destruct IH as [H1 H2]; [lia|]. split; [done|simpl in *; lia]. }
  assert (wp (Ok ([], t :: ts) : result ParseError (list text * list Token)) (consumed false (t :: ts))) as Hstop
    by (split; [done|simpl; lia]).
  destruct t; cbn [agg_parts]; try done; try (by apply Hrec); [case_bool_decide|destruct (Z.eqb depth 0)]; auto.
Qed.
#[local] Hint Resolve sane_agg_parts sane_expect_keyword sane_alias sane_table_name sane_usize sane_column_list
  sane_order_list : sane.

Lemma sane_agg_arg n : sane false (parse_agg_arg fmt_float) n.
Proof. unfold parse_agg_arg. sane_auto. Qed.

Lemma sane_skip n : sane false skip_to_rparen n.
Proof.
  intros ts. revert n. induction ts as [|t ts IH]; intros n He Hl; [by apply eofs_nil in He|].
  destruct (decide (t = EOF)) as [->|Ht]; [split; [done|simpl; lia]|].
  pose proof (eofs_cons _ _ He Ht) as He'. simpl in Hl.
  assert (wp (skip_to_rparen ts) (consumed false (t :: ts))) as Hrec.
  { eapply wp_mono; [apply (IH n He'); lia|]. intros ts' [H1 H2]. split; [done|simpl; lia]. }
  destruct t; try done. split; [done|simpl; lia].
Qed.

Lemma sane_over_parts depth n : 1 <= depth → sane true (over_parts uni_debug debug_float depth : parser (list text)) n.
Proof.
  intros Hd ts. revert depth n Hd. induction ts as [|t ts IH]; intros depth n Hd He Hl; [by apply eofs_nil in He|].
  destruct (decide (t = EOF)) as [->|Ht]; [split; discriminate|].
  pose proof (eofs_cons _ _ He Ht) as He'. simpl in Hl.
  assert (∀ d w, 1 <= d → wp ('(ps, rest) ← over_parts uni_debug debug_float d ts; Ok (w :: ps, rest)) (consumed true (t :: ts))) as Hrec.
  { intros d w Hd'. specialize (IH d n Hd' He'). unfold mbind, result_bind.
    destruct (over_parts _ _ d ts) as [[ps rest]|e]; [|by apply IH; lia].
    destruct IH as [H1 H2]; [lia|]. split; [done|simpl in *; lia]. }
  destruct t; cbn [over_parts]; try done; try (by apply Hrec; lia).
  destruct (Z.ltb_spec 0 (depth - 1)); [apply Hrec; lia|]. split; [done|simpl; lia].
Qed.

#[local] Hint Resolve sane_agg_arg sane_skip : sane.
#[local] Hint Extern 1 (sane _ (close_paren _) _) => apply sane_close_paren; split; discriminate : sane.
#[local] Hint Extern 1 (sane _ (open_paren _) _) => apply sane_open_paren; split; discriminate : sane.
#[local] Hint Extern 1 (sane _ (upper_word _ _) _) => apply sane_upper_word; split; discriminate : sane.

(** *** Expressions *)
Section expr.
Context (n : nat) (rec : parser Expr) (Hrec : sane true rec n).

Lemma sane_when_loop k : (k <= n)%nat → sane false (when_loop rec k) k.
Proof. induction k as [|k IH]; intros Hk; [apply sane_zero|]. specialize (IH ltac:(lia)). cbn [when_loop]. sane_auto. Qed.

Lemma sane_case : sane true (parse_case n rec) (S n).
Proof. pose proof (sane_when_loop n (le_n n)). unfold parse_case. sane_auto. Qed.

Lemma sane_extract : sane true (parse_extract uni_upper rec) (S n).
Proof. unfold parse_extract. sane_auto. Qed.

Lemma sane_cast : sane true (parse_cast uni_upper rec) (S n).
Proof. unfold parse_cast. sane_auto. Qed.

Lemma sane_primary : sane true (parse_primary uni_upper fmt_float date_from_str n rec) (S n).
Proof.
  pose proof sane_case. pose proof sane_extract. pose proof sane_cast. unfold parse_primary, parse_date. sane_auto.
Qed.

Lemma sane_binary_loop accept sub k left :
  accept EOF = None → sane true sub n → (k <= n)%nat → sane false (binary_loop accept sub k left) k.
Proof.
  intros Ha Hsub. revert left. induction k as [|k IH]; intros left Hk; [apply sane_zero|]. cbn [binary_loop].
  assert (∀ left, sane false (binary_loop accept sub k left) k) as IH' by (intros; apply IH; lia).
  apply sane_peek. intros t. destruct (accept t) eqn:E; [|sane_auto].
  apply sane_at_next; [by intros ->; rewrite Ha in E|]. intros _. sane_auto.
Qed.

Lemma sane_binary accept sub : accept EOF = None → sane true sub (S n) →
  sane true (left ← sub; binary_loop accept sub n left) (S n).
Proof.
  intros Ha Hsub. apply sane_bind_strict; [done|]. intros left. rewrite Nat.sub_1_r.
  apply sane_binary_loop; [done| |done]. eapply sane_sub; [done|lia|done].
Qed.

Lemma sane_additive : sane true (parse_additive_expr uni_upper fmt_float date_from_str n rec) (S n).
Proof. apply sane_binary; [done|]. apply sane_binary; [done|]. apply sane_primary. Qed.

Lemma sane_in_loop left op conn err acc k : (∀ t, proper (err t)) → (k <= n)%nat →
  sane true (in_loop uni_upper fmt_float date_from_str n rec left op conn err acc k) k.
Proof.
  intros He. pose proof sane_additive. revert acc. induction k as [|k IH]; intros acc Hk; [apply sane_zero|].
  assert (∀ acc, sane true (in_loop uni_upper fmt_float date_from_str n rec left op conn err acc k) k) as IH'
    by (intros; apply IH; lia).
  cbn [in_loop]. sane_auto.
Qed.

Lemma sane_comparison : sane true (parse_comparison_expr uni_upper fmt_float date_from_str n rec) (S n).
Proof.
  pose proof sane_additive. unfold parse_comparison_expr, rhs, between, in_list.
  assert (∀ l o c e a, (∀ t, proper (e t)) → sane true (in_loop uni_upper fmt_float date_from_str n rec l o c e a n) n) as Hin
    by (intros; by apply sane_in_loop).
  apply sane_bind_strict; [done|]. intros left. apply sane_peek. intros t.
  destruct (accept_op CMP_OPS t) eqn:Ea.
  - apply sane_at_next; [by intros ->|]. intros _. sane_auto.
  - sane_auto; (eapply sane_sub; [apply Hin; split; discriminate|lia|done]).
Qed.

Lemma sane_or_expr : sane true (parse_or_expr uni_upper fmt_float date_from_str n rec) (S n).
Proof. apply sane_binary; [done|]. apply sane_binary; [done|]. apply sane_comparison. Qed.
End expr.

Lemma sane_expr n : sane true (parse_expr uni_upper fmt_float date_from_str n) n.
Proof. induction n as [|n IH]; [apply sane_zero|]. by apply sane_or_expr. Qed.

(** *** Statements *)
#[local] Hint Resolve sane_expr sane_over_parts : sane.

Lemma sane_select_item n : sane true (parse_select_item uni_upper fmt_float uni_debug debug_float date_from_str n) n.
Proof.
  pose proof (sane_expr n). assert (∀ m, sane true (over_parts uni_debug debug_float 1 : parser (list text)) m)
    by (intros; apply sane_over_parts; lia).
  unfold parse_select_item, parse_call. sane_auto.
Qed.

Lemma sane_select_list n k : (k <= n)%nat →
  sane true (parse_select_list uni_upper fmt_float uni_debug debug_float date_from_str n k) k.
Proof.
  pose proof (sane_select_item n). induction k as [|k IH]; intros Hk; [apply sane_zero|]. specialize (IH ltac:(lia)).
  cbn [parse_select_list]. sane_auto.
Qed.

Lemma sane_join {B} n m (f : option JoinClause → parser B) :
  (m <= n)%nat → (∀ j, sane false (f (Some j)) (m - 1)) → sane false (f None) m →
  sane false (parse_join uni_upper fmt_float date_from_str n ≫= f) m.
Proof.
  intros Hm H1 H2. pose proof (sane_expr n). unfold parse_join, outer_join, join_on. sane_auto.
Qed.

Lemma sane_joins n k : (k <= n)%nat → sane false (parse_joins uni_upper fmt_float date_from_str n k) k.
Proof.
  induction k as [|k IH]; intros Hk; [apply sane_zero|]. specialize (IH ltac:(lia)). cbn [parse_joins].
  apply sane_join; [lia| |sane_auto]. intros j. sane_auto.
Qed.

Lemma sane_clause {A} kw (d : A) (p : parser A) n : sane false p (n - 1) → sane false (clause kw d p) n.
Proof. intros Hp. unfold clause. sane_auto. Qed.

Lemma sane_select n : sane true (parse_select uni_upper fmt_float uni_debug debug_float date_from_str n) n.
Proof.
  unfold parse_select. pose proof (sane_select_list n n (le_n n)). pose proof (sane_expr n).
  pose proof (sane_joins n n (le_n n)). cbn zeta.
  repeat first
    [ progress cbn beta iota
    | match goal with |- sane _ (clause _ _ _ ≫= _) _ => apply sane_bind; [apply sane_clause|intros ?] end
    | sane_step ].
Qed.

Lemma parse_sane tokens : eofs tokens →
  match parse uni_upper fmt_float uni_debug debug_float date_from_str tokens with
  | Ok _ => True
  | Err e => proper e
  end.
Proof.
  intros He. unfold parse. pose proof (sane_select (length tokens) tokens He (le_n _)) as H.
  destruct (parse_select _ _ _ _ _ _ _) as [[q ts]|e]; [|done]. destruct H as [H1 _].
  destruct ts as [|t ts]; [by apply eofs_nil in H1|]. simpl. destruct t; (done || split; discriminate).
Qed.
End total.

(** parsing is total.  Whatever the statement's text, the tokenizer and the parser
    return: a query, a tokenizer error, or one of the parser's documented errors.  The
    cursor never leaves the token stream (no index panic), every loop and every recursion
    terminates, and as many levels of nesting as there are tokens are enough. *)
Theorem parse_total uni_alnum uni_upper fmt_float uni_debug debug_float date_from_str (input : text) :
  match tokenize uni_alnum uni_upper input with
  | None => False
  | Some (Err _) => True
  | Some (Ok tokens) =>
    match parse uni_upper fmt_float uni_debug debug_float date_from_str tokens with
    | Ok _ => True
    | Err e => e ≠ EFuel ∧ e ≠ EIndex
    end
  end.
Proof.
  destruct (lex_loop_total uni_alnum uni_upper (S (length input)) input) as [[ts|e] H]; [lia| |];
    unfold tokenize; rewrite H; [|done].
  destruct (lex_loop_eof _ _ _ _ _ H) as (ts' & -> & _). apply parse_sane. by exists ts'.
Qed.
End ParserM.
