(* ===== verification/Printer.v ===== *)
(** * Printing queries, and reading them back (src/src/sql/parser.rs)

    A printer of expressions with the fewest parentheses the documented precedences
    allow, a printer of queries, and the round trips through the parser and through the
    tokenizer. *)

From Stdlib Require Import ZArith Lia Ascii String.
From stdpp Require Import prelude list numbers.
From S2P Require Import Prelude Lexer Parser.
Local Open Scope Z_scope.

Module PrinterM.
Import LexerM ParserM.

(** ** Stepping through a parser *)
Lemma bind_ok {A B} (p : parser A) (f : A → parser B) ts a ts' :
  p ts = Ok (a, ts') → (p ≫= f) ts = f a ts'.
Proof. intros H. unfold mbind, parser_bind. by rewrite H. Qed.

Lemma bind_peek {B} (f : Token → parser B) t ts : (peek ≫= f) (t :: ts) = f t (t :: ts).
Proof. done. Qed.

Lemma bind_next {B} (f : Token → parser B) t ts : t ≠ EOF → (next ≫= f) (t :: ts) = f t ts.
Proof. intros H. unfold mbind, parser_bind. by destruct t. Qed.

Lemma text_eqb_refl s : text_eqb s s = true.
Proof. by apply bool_decide_eq_true. Qed.

Lemma match_keyword_yes kw ts : match_keyword kw (Keyword kw :: ts) = Ok (true, ts).
Proof. unfold match_keyword. rewrite bind_peek, text_eqb_refl. done. Qed.

Lemma expect_keyword_yes kw ts : expect_keyword kw (Keyword kw :: ts) = Ok (tt, ts).
Proof. unfold expect_keyword. by rewrite (bind_ok _ _ _ _ _ (match_keyword_yes kw ts)). Qed.

Lemma match_keyword_no kw t ts : accept_keyword kw t = None → match_keyword kw (t :: ts) = Ok (false, t :: ts).
Proof.
  intros H. unfold match_keyword. rewrite bind_peek. destruct t; try done. simpl in H. by destruct (text_eqb s kw).
Qed.

Lemma close_paren_yes e ts : close_paren e (RParen :: ts) = Ok (tt, ts).
Proof. done. Qed.

Lemma open_paren_yes e ts : open_paren e (LParen :: ts) = Ok (tt, ts).
Proof. done. Qed.

(** Lists separated by commas. *)
Fixpoint sep_by (ls : list (list Token)) : list Token :=
  match ls with
  | [] => []
  | [l] => l
  | l :: ls => l ++ Comma :: sep_by ls
  end.

Lemma sep_by_cons l ls ts : ls ≠ [] → sep_by (l :: ls) ++ ts = l ++ Comma :: sep_by ls ++ ts.
Proof. destruct ls as [|l' ls]; [done|]. intros _. cbn [sep_by]. by rewrite <- app_assoc. Qed.

(** ** The printer *)
Definition op_level (op : text) : nat :=
  if text_eqb op (K "OR") then 0
  else if text_eqb op (K "AND") then 1
  else if bool_decide (op ∈ MUL_OPS) then 4
  else if bool_decide (op ∈ ADD_OPS) then 3
  else 2.

Definition level (e : Expr) : nat := match e with Binary _ op _ => op_level op | _ => 5%nat end.

Definition op_tokens (op : text) : list Token :=
  if text_eqb op (K "OR") || text_eqb op (K "AND") || text_eqb op (K "LIKE") then [Keyword op]
  else if text_eqb op (K "NOT LIKE") then [Keyword (K "NOT"); Keyword (K "LIKE")]
  else [Op op].

(** The levels at which the operands of an operator of level [k] are printed. *)
Definition left_level (k : nat) : nat := match k with 2%nat => 3%nat | _ => k end.

Definition not_kw (neg : bool) : list Token := if neg then [Keyword (K "NOT")] else [].

Definition print_value (v : Value) : Token :=
  match v with VInt i => Int i | VFloat s => Float s | VString s => Str s | VHex b => Hex b end.

Definition print_arg (arg : text) : list Token :=
  if text_eqb arg [42] then [Op [42]] else if bool_decide (arg = []) then [] else [Ident arg].

Section printer.
Context (uni_upper : Z → list Z).

Fixpoint print_expr (k : nat) (e : Expr) : list Token :=
  let paren l := if Nat.ltb (level e) k then LParen :: l ++ [RParen] else l in
  match e with
  | Column s => paren [Ident s]
  | Literal v => paren [print_value v]
  | Binary l op r =>
    let m := op_level op in paren (print_expr (left_level m) l ++ op_tokens op ++ print_expr (S m) r)
  | Case ws els =>
    paren (Keyword (K "CASE") ::
      concat ((λ '(c, r), Keyword (K "WHEN") :: print_expr 0 c ++ Keyword (K "THEN") :: print_expr 0 r) <$> ws) ++
      match els with Some e => Keyword (K "ELSE") :: print_expr 0 e | None => [] end ++ [Keyword (K "END")])
  | Function name arg => paren (Ident name :: LParen :: print_arg arg ++ [RParen])
  | Extract field e =>
    paren (Keyword (K "EXTRACT") :: LParen :: push_word uni_upper field :: Keyword (K "FROM") :: print_expr 0 e ++ [RParen])
  | Cast e ty =>
    paren (Keyword (K "CAST") :: LParen :: print_expr 0 e ++ Keyword (K "AS") :: push_word uni_upper ty :: [RParen])
  end.

(** Expressions the parser can return from operators, columns, literals and calls. *)
Definition OPERATORS : list text :=
  [K "OR"; K "AND"; [61]; [33; 61]; [60]; [62]; [60; 61]; [62; 61]; K "LIKE"; K "NOT LIKE"; [43]; [45]; [42]; [47]].

Fixpoint wf_expr (e : Expr) : Prop :=
  match e with
  | Column _ | Literal _ => True
  | Binary l op r => wf_expr l ∧ op ∈ OPERATORS ∧ wf_expr r
  | Case ws els =>
    ws ≠ [] ∧ foldr (λ '(c, r) P, (wf_expr c ∧ wf_expr r) ∧ P) True ws ∧ match els with Some e => wf_expr e | None => True end
  | Function name _ => to_uppercase uni_upper name = name
  | Extract field e => to_uppercase uni_upper field = field ∧ wf_expr e
  | Cast e ty => wf_expr e ∧ to_uppercase uni_upper ty = ty
  end.

(** ** What may follow an expression *)

(** [t] does not continue an expression read at level [k]. *)
Definition stop5 (t : Token) : bool := match t with LParen => false | _ => true end.
Definition no_op (ops : list text) (t : Token) : bool := bool_decide (accept_op ops t = None).
Definition no_kw (kw : text) (t : Token) : bool := bool_decide (accept_keyword kw t = None).
Definition no_like (t : Token) : bool :=
  match t with Ident s | Keyword s => negb (eq_ignore_ascii_case s (K "LIKE")) | _ => true end.
Definition no_predicate (t : Token) : bool :=
  no_op CMP_OPS t && no_like t && no_kw (K "NOT") t && no_kw (K "BETWEEN") t && no_kw (K "IN") t.

Definition stop (k : nat) (t : Token) : bool :=
  stop5 t && (Nat.ltb 4 k || no_op MUL_OPS t) && (Nat.ltb 3 k || no_op ADD_OPS t) && (Nat.ltb 2 k || no_predicate t) &&
  (Nat.ltb 1 k || no_kw (K "AND") t) && (Nat.ltb 0 k || no_kw (K "OR") t).

Definition stops (k : nat) (ts : list Token) : Prop := match ts with t :: _ => stop k t = true | [] => False end.

Lemma stops_mono k k' ts : stops k ts → (k <= k')%nat → stops k' ts.
Proof.
  destruct ts as [|t ts]; [done|]. unfold stops, stop. rewrite !andb_true_iff, !orb_true_iff, !Nat.ltb_lt. intuition lia.
Qed.
End printer.

Lemma print_up uni_upper k e : level e ≠ k → print_expr uni_upper k e = print_expr uni_upper (S k) e.
Proof.
  intros H. assert (Nat.ltb (level e) k = Nat.ltb (level e) (S k)) as E
    by (apply eq_true_iff_eq; rewrite !Nat.ltb_lt; lia).
  destruct e; cbn [print_expr]; by rewrite E.
Qed.

Lemma print_paren uni_upper k e :
  (level e < k)%nat → print_expr uni_upper k e = LParen :: print_expr uni_upper 0 e ++ [RParen].
Proof. intros H. apply Nat.ltb_lt in H. destruct e; cbn [print_expr]; by rewrite H. Qed.

Lemma print_bare uni_upper k e : (k <= level e)%nat → print_expr uni_upper k e = print_expr uni_upper 0 e.
Proof. intros H. apply Nat.ltb_ge in H. destruct e; cbn [print_expr]; by rewrite H. Qed.

Lemma print_len uni_upper k e : (length (print_expr uni_upper 0 e) <= length (print_expr uni_upper k e))%nat.
Proof.
  destruct (decide (level e < k)%nat); [rewrite (print_paren _ k) by done|by rewrite (print_bare _ k) by lia].
  simpl. rewrite length_app. simpl. lia.
Qed.

Lemma print_pos uni_upper k e : (1 <= length (print_expr uni_upper k e))%nat.
Proof.
  revert k. induction e; intros k; cbn [print_expr]; destruct (Nat.ltb _ k); cbn [length]; try lia.
  rewrite !length_app. pose proof (IHe1 (left_level (op_level op))). lia.
Qed.

Section roundtrip.
Context (uni_upper : Z → list Z) (fmt_float : text → text) (date_from_str : text → option Z).
Context (n : nat) (rec : parser Expr).
Abbreviation print := (print_expr uni_upper).
Context (Hrec : ∀ e rest, wf_expr uni_upper e → (length (print 0 e) < n)%nat → stops 0 rest →
                          rec (print 0 e ++ rest) = Ok (e, rest)).

(** The parser of each level, and the operators its loop accepts. *)
Definition P (k : nat) : parser Expr :=
  match k with
  | 0%nat => parse_or_expr uni_upper fmt_float date_from_str n rec
  | 1%nat => parse_and_expr uni_upper fmt_float date_from_str n rec
  | 2%nat => parse_comparison_expr uni_upper fmt_float date_from_str n rec
  | 3%nat => parse_additive_expr uni_upper fmt_float date_from_str n rec
  | 4%nat => parse_multiplicative_expr uni_upper fmt_float date_from_str n rec
  | _ => parse_primary uni_upper fmt_float date_from_str n rec
  end.
Definition acc (k : nat) : Token → option text :=
  match k with
  | 0%nat => accept_keyword (K "OR")
  | 1%nat => accept_keyword (K "AND")
  | 3%nat => accept_op ADD_OPS
  | _ => accept_op MUL_OPS
  end.
Definition looping (k : nat) : bool := match k with 0%nat | 1%nat | 3%nat | 4%nat => true | _ => false end.

Lemma P_loop k : looping k = true → P k = (left ← P (S k); binary_loop (acc k) (P (S k)) n left).
Proof. destruct k as [|[|[|[|[|k]]]]]; done. Qed.

Lemma stop_acc k t : looping k = true → stop k t = true → acc k t = None.
Proof.
  unfold stop, no_op, no_kw. rewrite !andb_true_iff, !orb_true_iff, !Nat.ltb_lt, !bool_decide_eq_true.
  destruct k as [|[|[|[|[|k]]]]]; try done; cbn [acc]; intuition lia.
Qed.

Definition F (k : nat) (e : Expr) : Prop := ∀ rest, stops k rest → P k (print k e ++ rest) = Ok (e, rest).
Definition L (k : nat) (e : Expr) : Prop :=
  ∃ j, (2 * j + 1 <= length (print k e))%nat ∧
    ∀ rest, stops (S k) rest → P k (print k e ++ rest) = binary_loop (acc k) (P (S k)) (n - j) e rest.

Lemma L_F k e : looping k = true → (length (print k e) <= n)%nat → L k e → F k e.
Proof.
  intros Hk Hn (j & Hj & HL) rest Hs. rewrite HL by (eapply stops_mono; [done|lia]).
  destruct rest as [|t rest]; [done|]. destruct (n - j)%nat eqn:E; [lia|]. cbn [binary_loop].
  rewrite bind_peek, (stop_acc k t) by done. done.
Qed.

(** An expression of another level passes through the loop of level [k]. *)
Lemma F_L k e : looping k = true → level e ≠ k → F (S k) e → L k e.
Proof.
  intros Hk He HF. exists 0%nat. split; [apply print_pos|]. intros rest Hs. rewrite (P_loop k Hk), print_up by done.
  rewrite (bind_ok _ _ _ _ _ (HF rest Hs)). by rewrite Nat.sub_0_r.
Qed.

(** The operator of level [k] with its operands. *)
Lemma L_binary k l op r t :
  looping k = true → op_level op = k → op_tokens op = [t] → acc k t = Some op → stop (S k) t = true →
  (length (print k (Binary l op r)) <= n)%nat → L k l → F (S k) r → L k (Binary l op r).
Proof.
  intros Hk Hop Ht Hacc Hstop Hlen (j & Hj & HL) HF.
  assert (left_level k = k) as Hll by (by destruct k as [|[|[|]]]).
  assert (print k (Binary l op r) = print k l ++ t :: print (S k) r) as E.
  { rewrite print_bare by (cbn [level]; lia). cbn [print_expr level]. rewrite Hop, Hll, Ht. by destruct k. }
  exists (S j). rewrite E in *. rewrite length_app in *. cbn [length] in *.
  pose proof (print_pos uni_upper (S k) r). split; [lia|]. intros rest Hs.
  rewrite <- app_assoc. cbn [app]. rewrite HL by done. destruct (n - j)%nat as [|n'] eqn:Ej; [lia|]. cbn [binary_loop].
  rewrite bind_peek, Hacc, bind_next by (intros ->; by destruct k as [|[|[|[|[|k]]]]]).
  rewrite (bind_ok _ _ _ _ _ (HF rest Hs)). by replace (n - S j)%nat with n' by lia.
Qed.

(** *** Primary expressions *)
Lemma primary_paren e rest : wf_expr uni_upper e → (length (print 0 e) < n)%nat →
  P 5 (LParen :: print 0 e ++ RParen :: rest) = Ok (e, rest).
Proof.
  intros Hw Hn. cbn [P]. unfold parse_primary. rewrite bind_peek, bind_next by done.
  by rewrite (bind_ok _ _ _ _ _ (Hrec e (RParen :: rest) Hw Hn eq_refl)).
Qed.

Lemma upper_word_push err w rest :
  to_uppercase uni_upper w = w → upper_word uni_upper err (push_word uni_upper w :: rest) = Ok (w, rest).
Proof.
  intros Hw. unfold push_word. rewrite Hw. unfold upper_word, upper.
  case_bool_decide; rewrite bind_peek; unfold mbind, parser_bind, mret, parser_ret; simpl; by rewrite Hw.
Qed.

Lemma when_loop_print ws rest k :
  foldr (λ '(c, r) P, (wf_expr uni_upper c ∧ wf_expr uni_upper r) ∧ P) True ws →
  let out := concat ((λ '(c, r), Keyword (K "WHEN") :: print 0 c ++ Keyword (K "THEN") :: print 0 r) <$> ws) in
  (length out < n)%nat → (length ws < k)%nat →
  match rest with Keyword kw :: _ => kw = K "ELSE" ∨ kw = K "END" | _ => False end →
  when_loop rec k (out ++ rest) = Ok (ws, rest).
Proof.
  revert k. induction ws as [|[c r] ws IH]; intros k Hw out Hn Hk Hr; (destruct k as [|k]; [simpl in Hk; lia|]); cbn [when_loop].
  - rewrite (bind_ok _ _ _ false rest); [done|]. destruct rest as [|[] rest]; try done.
    simpl. by destruct Hr as [-> | ->].
  - destruct Hw as [[Hc Hr'] Hw]. subst out. rewrite fmap_cons, concat_cons in *.
    cbn [length app] in *. rewrite !length_app in Hn. cbn [length] in Hn.
    rewrite (bind_ok _ _ _ _ _ (match_keyword_yes _ _)), <- !app_assoc.
    erewrite bind_ok; [|apply Hrec; [done|lia|done]]. cbn [app].
    rewrite (bind_ok _ _ _ _ _ (expect_keyword_yes _ _)).
    rewrite (bind_ok _ _ _ r (concat ((λ '(c, r), Keyword (K "WHEN") :: print 0 c ++ Keyword (K "THEN") :: print 0 r) <$> ws) ++ rest)).
    + rewrite (bind_ok _ _ _ ws rest); [done|]. apply IH; [done|lia|lia|done].
    + apply Hrec; [done|lia|]. destruct ws as [|[c' r'] ws]; [|done]. simpl. destruct rest as [|[] rest]; try done.
      by destruct Hr as [-> | ->].
Qed.

Lemma upper_ascii s : Forall (λ c, 0 <= c < 97) s → to_uppercase uni_upper s = s.
Proof.
  unfold to_uppercase. induction 1 as [|c s Hc Hs IH]; [done|]. cbn [fmap list_fmap concat]. rewrite IH. unfold char_upper.
  rewrite (proj2 (Z.ltb_lt _ _)) by lia. unfold is_lower, in_range. by rewrite (proj2 (Z.leb_gt 97 c)) by lia.
Qed.

Lemma primary_case ws els rest :
  wf_expr uni_upper (Case ws els) → (length (print 5 (Case ws els)) <= n)%nat →
  P 5 (print 5 (Case ws els) ++ rest) = Ok (Case ws els, rest).
Proof.
  intros (Hne & Hws & Hels) Hn. cbn [print_expr level Nat.ltb Nat.leb] in Hn |- *.
  set (out := concat _) in *. rewrite <- app_comm_cons, <- !app_assoc.
  cbn [length] in Hn. rewrite !length_app in Hn. cbn [length] in Hn.
  assert (length ws <= length out)%nat as Hlen.
  { clear. subst out. induction ws as [|[c r] ws IH]; [done|]. rewrite fmap_cons, concat_cons. cbn [length]. rewrite length_app.
    cbn [length]. lia. }
  cbn [P]. unfold parse_primary. rewrite bind_peek.
  change (parse_case n rec (Keyword (K "CASE") :: out ++ match els with Some e => Keyword (K "ELSE") :: print 0 e | None => [] end ++
    [Keyword (K "END")] ++ rest) = Ok (Case ws els, rest)).
  unfold parse_case. rewrite (bind_ok _ _ _ _ _ (expect_keyword_yes _ _)).
  erewrite bind_ok; [|apply (when_loop_print ws); [done|fold out; lia|lia|]].
  2:{ destruct els; simpl; auto. }
  rewrite bool_decide_false by (by destruct ws). destruct els as [e|].
  - cbn [app]. rewrite (bind_ok _ _ _ _ _ (match_keyword_yes _ _)). cbn [length] in Hn.
    erewrite bind_ok; [|erewrite bind_ok; [reflexivity|apply Hrec; [done|lia|done]]].
    by rewrite (bind_ok _ _ _ _ _ (expect_keyword_yes _ _)).
  - done.
Qed.

Lemma primary_extract field e rest :
  wf_expr uni_upper (Extract field e) → (length (print 5 (Extract field e)) <= n)%nat →
  P 5 (print 5 (Extract field e) ++ rest) = Ok (Extract field e, rest).
Proof.
  intros (Hf & He) Hn. cbn [print_expr level Nat.ltb Nat.leb] in Hn |- *.
  cbn [length] in Hn. rewrite !length_app in Hn. cbn [length app] in *. rewrite <- app_assoc. cbn [app].
  change (parse_extract uni_upper rec (Keyword (K "EXTRACT") :: LParen :: push_word uni_upper field :: Keyword (K "FROM") ::
    print 0 e ++ RParen :: rest) = Ok (Extract field e, rest)).
  unfold parse_extract. rewrite (bind_ok _ _ _ _ _ (expect_keyword_yes _ _)).
  rewrite (bind_ok _ _ _ _ _ (open_paren_yes _ _)), (bind_ok _ _ _ _ _ (upper_word_push _ _ _ Hf)).
  rewrite (bind_ok _ _ _ _ _ (expect_keyword_yes _ _)). erewrite bind_ok; [|apply Hrec; [done|lia|done]]. done.
Qed.

Lemma primary_cast e ty rest :
  wf_expr uni_upper (Cast e ty) → (length (print 5 (Cast e ty)) <= n)%nat →
  P 5 (print 5 (Cast e ty) ++ rest) = Ok (Cast e ty, rest).
Proof.
  intros (He & Hf) Hn. cbn [print_expr level Nat.ltb Nat.leb] in Hn |- *.
  cbn [length] in Hn. rewrite !length_app in Hn. cbn [length app] in *. rewrite <- app_assoc. cbn [app].
  change (parse_cast uni_upper rec (Keyword (K "CAST") :: LParen :: print 0 e ++ Keyword (K "AS") :: push_word uni_upper ty ::
    RParen :: rest) = Ok (Cast e ty, rest)).
  unfold parse_cast. rewrite (bind_ok _ _ _ _ _ (expect_keyword_yes _ _)), (bind_ok _ _ _ _ _ (open_paren_yes _ _)).
  erewrite bind_ok; [|apply Hrec; [done|lia|done]].
  rewrite (bind_ok _ _ _ _ _ (expect_keyword_yes _ _)), (bind_ok _ _ _ _ _ (upper_word_push _ _ _ Hf)). done.
Qed.

Lemma agg_arg_print arg rest :
  parse_agg_arg fmt_float (print_arg arg ++ RParen :: rest) = Ok (arg, RParen :: rest).
Proof.
  unfold print_arg. destruct (text_eqb arg [42]) eqn:E; [unfold text_eqb in E; apply bool_decide_eq_true in E as ->; done|].
  case_bool_decide as Ea; [by subst|]. unfold parse_agg_arg, mbind, parser_bind. simpl. by rewrite app_nil_r.
Qed.

Lemma primary_function name arg rest :
  to_uppercase uni_upper name = name →
  P 5 (print 5 (Function name arg) ++ rest) = Ok (Function name arg, rest).
Proof.
  intros Hf. cbn [print_expr level Nat.ltb Nat.leb app]. rewrite <- app_assoc. cbn [P]. unfold parse_primary, upper.
  rewrite bind_peek, bind_next, bind_peek, bind_next, Hf by done.
  by rewrite (bind_ok _ _ _ _ _ (agg_arg_print arg rest)).
Qed.

(** *** Level 5 *)
Lemma F5 e : wf_expr uni_upper e → (length (print 5 e) <= n)%nat → F 5 e.
Proof.
  intros Hw Hn rest Hs. destruct (decide (level e < 5)%nat) as [Hl|Hl].
  - rewrite (print_paren uni_upper 5 e Hl) in *. cbn [length] in Hn. rewrite length_app in Hn. cbn [length app] in *.
    rewrite <- app_assoc. apply primary_paren; [done|lia].
  - destruct e as [s|v|l op r|ws els|name arg|field e|e ty].
    + destruct rest as [|t rest]; [done|]. destruct t; done.
    + by destruct v.
    + exfalso. apply Hl. cbn [level]. unfold op_level. repeat case_match; lia.
    + by apply primary_case.
    + by apply primary_function.
    + by apply primary_extract.
    + by apply primary_cast.
Qed.

(** *** Comparisons *)
Lemma match_like_no t ts : no_like t = true → match_ident (K "LIKE") (t :: ts) = Ok (false, t :: ts).
Proof.
  intros H. unfold match_ident. rewrite bind_peek. destruct t; try done; cbn [no_like] in H;
    apply negb_true_iff in H; by rewrite H.
Qed.

Lemma comparison_none ts left rest :
  P 3 ts = Ok (left, rest) → stops 2 rest → P 2 ts = Ok (left, rest).
Proof.
  intros H Hs. destruct rest as [|t rest]; [done|]. unfold stops, stop in Hs. simpl in Hs. rewrite !andb_true_iff in Hs.
  destruct Hs as (((_ & Hp) & _) & _). unfold no_predicate, no_op, no_kw in Hp.
  rewrite !andb_true_iff, !bool_decide_eq_true in Hp. destruct Hp as ((((H1 & H2) & H3) & H4) & H5).
  cbn [P] in *. unfold parse_comparison_expr. rewrite (bind_ok _ _ _ _ _ H), bind_peek, H1.
  rewrite (bind_ok _ _ _ _ _ (match_like_no _ _ H2)). unfold after_not at 1. rewrite match_keyword_no by done.
  rewrite (bind_ok _ _ _ _ _ (match_keyword_no _ _ _ H4)). unfold after_not at 1. rewrite match_keyword_no by done.
  rewrite (bind_ok _ _ _ _ _ (match_keyword_no _ _ _ H5)). unfold after_not. rewrite match_keyword_no by done. done.
Qed.

Lemma comparison_op ts left op rest right rest' :
  op ∈ OPERATORS → op_level op = 2%nat →
  P 3 ts = Ok (left, op_tokens op ++ rest) → P 3 rest = Ok (right, rest') →
  P 2 ts = Ok (Binary left op right, rest').
Proof.
  intros Hop Hl H1 H2. cbn [P] in *. unfold parse_comparison_expr. rewrite (bind_ok _ _ _ _ _ H1). clear H1.
  assert (rhs uni_upper fmt_float date_from_str n rec left op rest = Ok (Binary left op right, rest')) as Hr
    by (unfold rhs; by rewrite (bind_ok _ _ _ _ _ H2)).
  assert (accept_op CMP_OPS (Op op) = Some op ∧ text_eqb op [60; 62] = false ∧ op_tokens op = [Op op] ∨
          op = K "LIKE" ∨ op = K "NOT LIKE") as Hcase.
  { clear -Hop Hl. unfold OPERATORS in Hop. rewrite !elem_of_cons, elem_of_nil in Hop.
    repeat match goal with H : _ ∨ _ |- _ => destruct H as [->|H] end; try done; auto. }
  destruct Hcase as [(Ha & Hne & ->)|[-> | ->]].
  - cbn [app]. by rewrite bind_peek, Ha, Hne.
  - exact Hr.
  - exact Hr.
Qed.

Lemma F2 e :
  wf_expr uni_upper e → (∀ l op r, e = Binary l op r → op_level op = 2%nat → F 3 l ∧ F 3 r) →
  (level e ≠ 2%nat → F 3 e) → F 2 e.
Proof.
  intros Hw Hb Ho rest Hs. destruct (decide (level e = 2%nat)) as [Hl|Hl].
  - destruct e as [| |l op r| | | |]; try done. destruct Hw as (_ & Hop & _). cbn [level] in Hl.
    destruct (Hb l op r eq_refl Hl) as [H1 H2].
    rewrite print_bare by (cbn [level]; lia). cbn [print_expr level]. rewrite Hl. cbn [Nat.ltb Nat.leb left_level].
    rewrite <- !app_assoc. eapply (comparison_op _ l op (print 3 r ++ rest)); [done|done| |].
    + apply H1. unfold OPERATORS in Hop. rewrite !elem_of_cons, elem_of_nil in Hop.
      repeat match goal with H : _ ∨ _ |- _ => destruct H as [->|H] end; done.
    + apply H2. eapply stops_mono; [done|lia].
  - rewrite print_up by done. apply comparison_none; [|done]. apply Ho; [done|]. eapply stops_mono; [done|lia].
Qed.

(** *** All levels *)
Lemma loop_operator op :
  op ∈ OPERATORS → looping (op_level op) = true →
  ∃ t, op_tokens op = [t] ∧ acc (op_level op) t = Some op ∧ stop (S (op_level op)) t = true.
Proof.
  intros Hop Hl. unfold OPERATORS in Hop. rewrite !elem_of_cons, elem_of_nil in Hop.
  repeat match goal with H : _ ∨ _ |- _ => destruct H as [->|H] end; try done; eexists; split_and!; reflexivity.
Qed.

Lemma binary_len k l op r : op_level op = k →
  (length (print (left_level k) l) < length (print k (Binary l op r)) ∧
   length (print (S k) r) < length (print k (Binary l op r)))%nat.
Proof.
  intros H. rewrite (print_bare _ k) by (cbn [level]; lia). cbn [print_expr level Nat.ltb Nat.leb].
  rewrite H, !length_app. assert (1 <= length (op_tokens op))%nat by (unfold op_tokens; repeat case_match; simpl; lia).
  lia.
Qed.

Lemma read_back m e d : (length (print 0 e) <= m)%nat → wf_expr uni_upper e → (d <= 5)%nat →
  (length (print (5 - d) e) <= n)%nat → F (5 - d) e ∧ (looping (5 - d) = true → L (5 - d) e).
Proof.
  revert e d. induction m as [|m IHm]; intros e d Hm Hw; [pose proof (print_pos uni_upper 0 e); lia|].
  assert (∀ e' k, (length (print k e') < length (print 0 e))%nat → wf_expr uni_upper e' → (k <= 5)%nat →
    (length (print k e') <= n)%nat → F k e' ∧ (looping k = true → L k e')) as IH.
  { intros e' k Hlt Hw' Hk Hn. pose proof (print_len uni_upper k e'). replace k with (5 - (5 - k))%nat in Hn |- * by lia.
    apply IHm; [lia|done|lia|done]. }
  assert (∀ l op r, e = Binary l op r → (length (print (op_level op) e) <= n)%nat → (op_level op <= 4)%nat →
    F (left_level (op_level op)) l ∧ (looping (op_level op) = true → L (op_level op) l) ∧ F (S (op_level op)) r) as Hsub.
  { intros l op r -> Hn H4. destruct Hw as (Hwl & _ & Hwr). destruct (binary_len _ l op r eq_refl) as [Hl1 Hl2].
    rewrite (print_bare _ (op_level op)) in Hl1, Hl2 by done. rewrite (print_bare _ (op_level op)) in Hn by done.
    assert (left_level (op_level op) <= 5)%nat by (clear -H4; destruct (op_level op) as [|[|[|]]]; simpl; lia).
    destruct (IH l (left_level (op_level op))) as [HF HL]; [done|done|done|lia|]. split_and!; [done| |].
    - intros Hk. replace (left_level (op_level op)) with (op_level op) in HL; [by apply HL|].
      clear -Hk. by destruct (op_level op) as [|[|[|]]].
    - apply (IH r (S (op_level op))); [done|done|lia|lia]. }
  induction d as [|d IHd]; intros Hd Hn; [split; [by apply F5|done]|].
  assert (level e ≠ (5 - S d)%nat → F (S (5 - S d)) e) as Hup.
  { intros Hne. rewrite print_up in Hn by done. replace (S (5 - S d)) with (5 - d)%nat in * by lia. apply IHd; [lia|done]. }
  set (k := (5 - S d)%nat) in *. assert (k <= 4)%nat as Hk4 by lia. clearbody k. clear IHd Hd d.
  destruct (looping k) eqn:Hk.
  - assert (L k e) as HL; [|by split; [apply L_F|]].
    destruct (decide (level e = k)) as [Hl|Hl]; [|by apply F_L; [|done|apply Hup]].
    destruct e as [| |l op r| | | |]; try (cbn [level] in Hl; lia). cbn [level] in Hl. subst k.
    destruct (Hsub l op r eq_refl Hn Hk4) as (_ & H2 & H3). destruct Hw as (_ & Hop & _).
    destruct (loop_operator op Hop Hk) as (t & T1 & T2 & T3). by eapply L_binary; eauto.
  - assert (k = 2%nat) as -> by (clear -Hk Hk4; destruct k as [|[|[|[|[|k]]]]]; (done || lia)).
    split; [|done]. apply F2; [done| |exact Hup]. intros l op r -> Hl.
    destruct (Hsub l op r eq_refl) as (H1 & _ & H3); [by rewrite Hl|lia|]. rewrite Hl in H1, H3. by split.
Qed.

Lemma F_level k e : (k <= 5)%nat → wf_expr uni_upper e → (length (print k e) <= n)%nat → F k e.
Proof.
  intros Hk Hw Hn. replace k with (5 - (5 - k))%nat in Hn |- * by lia. by apply (read_back (length (print 0 e)) e (5 - k)); try lia.
Qed.

(** *** Predicates with a syntax of their own *)
Lemma P2_P0 ts e rest : (1 <= n)%nat → P 2 ts = Ok (e, rest) → stops 0 rest → P 0 ts = Ok (e, rest).
Proof.
  intros Hn H Hs. destruct rest as [|t rest]; [done|].
  assert (∀ k ts, looping k = true → P (S k) ts = Ok (e, t :: rest) → stop k t = true → P k ts = Ok (e, t :: rest)) as Hup.
  { intros k ts' Hk H' Hst. rewrite (P_loop k Hk), (bind_ok _ _ _ _ _ H'). destruct n as [|n']; [lia|]. cbn [binary_loop].
    by rewrite bind_peek, (stop_acc k t). }
  apply (Hup 0%nat ts eq_refl); [|done]. apply (Hup 1%nat ts eq_refl H). apply (stops_mono 0 1 (t :: rest)); [done|lia].
Qed.

Lemma match_keyword_at kw t ts f :
  accept_keyword kw t = None → (match_keyword kw ≫= f : parser Expr) (t :: ts) = f false (t :: ts).
Proof. intros H. by rewrite (bind_ok _ _ _ _ _ (match_keyword_no _ _ ts H)). Qed.

Lemma between_print err lo hi rest :
  F 3 lo → F 3 hi → stops 3 rest →
  between uni_upper fmt_float date_from_str n rec err (print 3 lo ++ Keyword (K "AND") :: print 3 hi ++ rest) = Ok ((lo, hi), rest).
Proof.
  intros H1 H2 Hs. unfold between. erewrite bind_ok; [|by apply H1].
  rewrite (bind_ok _ _ _ _ _ (match_keyword_yes _ _)). erewrite bind_ok; [done|]. by apply H2.
Qed.

(** [x op v1 conn x op v2 ...], left-associative. *)
Definition in_tree (x : Expr) (op conn : text) (acc : option Expr) (vs : list Expr) : Expr :=
  match vs with
  | [] => x
  | v :: vs =>
    fold_left (λ a v, Binary a conn (Binary x op v)) vs
      (match acc with None => Binary x op v | Some a => Binary a conn (Binary x op v) end)
  end.

Lemma in_loop_print x op conn err acc vs k rest :
  vs ≠ [] → Forall (F 3) vs → (length vs <= k)%nat →
  in_loop uni_upper fmt_float date_from_str n rec x op conn err acc k (sep_by (print 3 <$> vs) ++ RParen :: rest) =
  Ok (in_tree x op conn acc vs, rest).
Proof.
  intros Hne Hvs. revert acc k Hne. induction Hvs as [|v vs Hv Hvs IH]; intros acc k Hne Hk; [done|].
  destruct k as [|k]; [simpl in Hk; lia|]. cbn [in_loop]. rewrite fmap_cons. destruct (decide (vs = [])) as [->|Hvs'].
  - cbn [fmap list_fmap sep_by]. erewrite bind_ok; [|by apply Hv]. done.
  - rewrite sep_by_cons by (by destruct vs). erewrite bind_ok; [|by apply Hv]. rewrite bind_peek, bind_next by done.
    rewrite IH; [|done|simpl in Hk; lia]. by destruct vs.
Qed.

Lemma P2_between neg x lo hi rest :
  F 3 x → F 3 lo → F 3 hi → stops 3 rest →
  P 2 (print 3 x ++ not_kw neg ++ Keyword (K "BETWEEN") :: print 3 lo ++ Keyword (K "AND") :: print 3 hi ++ rest) =
  Ok (if neg then Binary (Binary x [60] lo) (K "OR") (Binary x [62] hi)
      else Binary (Binary x [62; 61] lo) (K "AND") (Binary x [60; 61] hi), rest).
Proof.
  intros Hx Hlo Hhi Hs. cbn [P]. unfold parse_comparison_expr. erewrite bind_ok; [|apply Hx; by destruct neg].
  pose proof (λ err, between_print err lo hi rest Hlo Hhi Hs) as Hb. destruct neg; cbn [not_kw app]; rewrite bind_peek; cbn [accept_op].
  - erewrite bind_ok by reflexivity. cbn beta iota. unfold after_not at 1. rewrite match_keyword_yes, match_like_no by reflexivity.
    rewrite match_keyword_at by reflexivity. cbn beta iota. unfold after_not at 1. rewrite !match_keyword_yes.
    by rewrite (bind_ok _ _ _ _ _ (Hb ENotBetween)).
  - erewrite bind_ok by reflexivity. cbn beta iota. unfold after_not at 1. rewrite match_keyword_no by reflexivity.
    rewrite (bind_ok _ _ _ _ _ (match_keyword_yes _ _)). by rewrite (bind_ok _ _ _ _ _ (Hb EBetween)).
Qed.

Lemma P2_in neg x vs rest :
  F 3 x → vs ≠ [] → Forall (F 3) vs → (length vs <= n)%nat →
  P 2 (print 3 x ++ not_kw neg ++ Keyword (K "IN") :: LParen :: sep_by (print 3 <$> vs) ++ RParen :: rest) =
  Ok (if neg then in_tree x [33; 61] (K "AND") None vs else in_tree x [61] (K "OR") None vs, rest).
Proof.
  intros Hx Hne Hvs Hn. cbn [P]. unfold parse_comparison_expr. erewrite bind_ok; [|apply Hx; by destruct neg].
  pose proof (λ op conn err, in_loop_print x op conn err None vs n rest Hne Hvs Hn) as Hi.
  destruct neg; cbn [not_kw app]; rewrite bind_peek; cbn [accept_op]; erewrite bind_ok by reflexivity; cbn beta iota.
  - unfold after_not at 1. rewrite match_keyword_yes, match_like_no by reflexivity.
    rewrite match_keyword_at by reflexivity. cbn beta iota. unfold after_not at 1. rewrite match_keyword_yes, match_keyword_no by reflexivity.
    rewrite match_keyword_at by reflexivity. cbn beta iota. unfold after_not at 1. rewrite !match_keyword_yes.
    unfold in_list. by rewrite (bind_ok _ _ _ _ _ (open_paren_yes _ _)).
  - unfold after_not at 1. rewrite match_keyword_no by reflexivity. rewrite match_keyword_at by reflexivity. cbn beta iota.
    unfold after_not at 1. rewrite match_keyword_no by reflexivity. rewrite (bind_ok _ _ _ _ _ (match_keyword_yes _ _)).
    unfold in_list. by rewrite (bind_ok _ _ _ _ _ (open_paren_yes _ _)).
Qed.
End roundtrip.

(** Every well-formed expression is read back at the lowest level. *)
Lemma parse_expr_print uni_upper fmt_float date_from_str n e rest :
  wf_expr uni_upper e → (length (print_expr uni_upper 0 e) < n)%nat → stops 0 rest →
  parse_expr uni_upper fmt_float date_from_str n (print_expr uni_upper 0 e ++ rest) = Ok (e, rest).
Proof.
  revert e rest. induction n as [|n IH]; intros e rest Hw Hn Hs; [lia|]. cbn [parse_expr].
  destruct (read_back uni_upper fmt_float date_from_str n (parse_expr uni_upper fmt_float date_from_str n) IH
              (length (print_expr uni_upper 0 e)) e 5 (le_n _) Hw (le_n _)) as [HF _]; [simpl; lia|].
  by apply HF.
Qed.

(** ** Queries *)
(** A possibly qualified name. *)
Fixpoint split_dot (s : text) : text * option text :=
  match s with
  | [] => ([], None)
  | c :: s => if Z.eqb c DOT then ([], Some s) else let '(a, r) := split_dot s in (c :: a, r)
  end.
Definition print_name (s : text) : list Token :=
  match split_dot s with (a, Some b) => [Ident a; Op [DOT]; Ident b] | (a, None) => [Ident a] end.

Definition print_alias (a : option text) : list Token :=
  match a with Some a => [Keyword (K "AS"); Ident a] | None => [] end.

Section query.
Context (uni_upper : Z → list Z).
Abbreviation print := (print_expr uni_upper).

Definition print_item (i : SelectItem) : list Token :=
  match i with
  | SColumn s => [Ident s]
  | SAggregate func arg alias => Ident func :: LParen :: print_arg arg ++ RParen :: print_alias alias
  | SStar => [Op [42]]
  | SLiteral n => [Int n]
  | SWindow _ _ _ _ => []
  | SExpression e alias => print 0 e ++ print_alias alias
  end.

Definition print_join (j : JoinClause) : list Token :=
  Keyword (join_type j) :: Keyword (K "JOIN") :: print_name (join_table j) ++
  (if text_eqb (join_type j) (K "CROSS") then [] else Keyword (K "ON") :: print 0 (on j)).

Definition print_opt (kw : string) (e : option Expr) : list Token :=
  match e with Some e => Keyword (K kw) :: print 0 e | None => [] end.

Definition print_order (c : text * bool) : list Token :=
  Ident c.1 :: if c.2 then [] else [Ident (K "DESC")].

Definition by_list (kw : string) (ls : list (list Token)) : list Token :=
  match ls with [] => [] | _ => Keyword (K kw) :: Keyword (K "BY") :: sep_by ls end.

Definition print_query (q : SelectQuery) : list Token :=
  Keyword (K "SELECT") :: (if distinct q then [Keyword (K "DISTINCT")] else []) ++
  sep_by (print_item <$> select q) ++
  (if text_eqb (from q) (K "__dummy__") then [] else Keyword (K "FROM") :: print_name (from q)) ++
  concat (print_join <$> joins q) ++
  print_opt "WHERE" (where_clause q) ++
  by_list "GROUP" ((λ c, [Ident c]) <$> group_by q) ++
  print_opt "HAVING" (having q) ++
  by_list "ORDER" (print_order <$> order_by q) ++
  match limit q with Some n => [Ident (K "LIMIT"); Int n] | None => [] end.

(** The queries that can be printed: no window functions (their specification is kept as
    the debug text of its tokens), and what the parser never returns is excluded. *)
Definition wf_item (i : SelectItem) : Prop :=
  match i with
  | SColumn _ | SStar => True
  | SLiteral n => 0 <= n
  | SAggregate func arg _ => to_uppercase uni_upper func = func ∧ eq_ignore_ascii_case arg (K "DISTINCT") = false
  | SWindow _ _ _ _ => False
  | SExpression e _ => wf_expr uni_upper e ∧ match print 0 e with t :: _ => starts_expression t = true | [] => False end
  end.

Definition wf_join (j : JoinClause) : Prop :=
  join_type j ∈ [K "INNER"; K "LEFT"; K "RIGHT"; K "FULL"] ∧ wf_expr uni_upper (on j) ∨
  join_type j = K "CROSS" ∧ on j = Literal (VInt 1).

Definition wf_opt (e : option Expr) : Prop := match e with Some e => wf_expr uni_upper e | None => True end.

Definition wf_query (q : SelectQuery) : Prop :=
  select q ≠ [] ∧ Forall wf_item (select q) ∧ Forall wf_join (joins q) ∧ wf_opt (where_clause q) ∧
  wf_opt (having q) ∧ match limit q with Some n => in_u 64 n | None => True end.
End query.

(** *** What may follow a clause *)

(** The place of the clause a token starts. *)
Definition clause_rank (t : Token) : option nat :=
  match t with
  | Comma => Some 0%nat
  | Keyword k =>
    if text_eqb k (K "FROM") then Some 1%nat
    else if bool_decide (k ∈ [K "JOIN"; K "INNER"; K "LEFT"; K "RIGHT"; K "FULL"; K "CROSS"]) then Some 2%nat
    else if text_eqb k (K "WHERE") then Some 3%nat
    else if text_eqb k (K "GROUP") then Some 4%nat
    else if text_eqb k (K "HAVING") then Some 5%nat
    else if text_eqb k (K "ORDER") then Some 6%nat
    else None
  | Ident s => if text_eqb s (K "LIMIT") then Some 7%nat else None
  | EOF | Semicolon => Some 8%nat
  | _ => None
  end.

(** [ts] starts with a clause of rank at least [i]. *)
Definition follows (i : nat) (ts : list Token) : Prop :=
  match ts with t :: _ => match clause_rank t with Some r => (i <= r)%nat | None => False end | [] => False end.

Lemma clause_rank_keyword k r : clause_rank (Keyword k) = Some r → (r <= 6)%nat.
Proof.
  cbn [clause_rank]. repeat match goal with |- context [if ?b then _ else _] => destruct b end; intros; simplify_eq; lia.
Qed.

Lemma follows_mono i j ts : follows i ts → (j <= i)%nat → follows j ts.
Proof. destruct ts as [|t ts]; [done|]. simpl. destruct (clause_rank t); [lia|done]. Qed.

Lemma follows_stop ts : follows 0 ts → stops 0 ts.
Proof.
  destruct ts as [|t ts]; [done|]. unfold follows, stops. destruct t; try done; cbn [clause_rank].
  - intros H. assert (s ∈ [K "FROM"; K "JOIN"; K "INNER"; K "LEFT"; K "RIGHT"; K "FULL"; K "CROSS"; K "WHERE"; K "GROUP";
      K "HAVING"; K "ORDER"]) as Hin.
    { unfold text_eqb in H. rewrite !elem_of_cons. repeat case_bool_decide; subst; rewrite ?elem_of_cons in *; tauto. }
    clear H. rewrite !elem_of_cons, elem_of_nil in Hin.
    repeat match goal with H : _ ∨ _ |- _ => destruct H as [->|H] end; done.
  - destruct (text_eqb s (K "LIMIT")) eqn:E; [|done]. unfold text_eqb in E. apply bool_decide_eq_true in E as ->. done.
Qed.

Lemma follows_keyword i kw ts :
  follows i ts → match clause_rank (Keyword kw) with Some r => (r < i)%nat | None => True end →
  match_keyword kw ts = Ok (false, ts).
Proof.
  destruct ts as [|t ts]; [done|]. intros H Hk. apply match_keyword_no. destruct t; try done. cbn [accept_keyword].
  destruct (text_eqb s kw) eqn:E; [|done]. unfold text_eqb in E. apply bool_decide_eq_true in E as ->. exfalso.
  cbn [follows] in H. destruct (clause_rank (Keyword kw)); [lia|done].
Qed.

Lemma clause_yes {A} kw (d : A) p ts : clause kw d p (Keyword kw :: ts) = p ts.
Proof. unfold clause. by rewrite (bind_ok _ _ _ _ _ (match_keyword_yes _ _)). Qed.

Lemma clause_no {A} i kw (d : A) p ts :
  follows i ts → match clause_rank (Keyword kw) with Some r => (r < i)%nat | None => True end →
  clause kw d p ts = Ok (d, ts).
Proof. intros H Hk. unfold clause. by rewrite (bind_ok _ _ _ _ _ (follows_keyword i kw ts H Hk)). Qed.

(** *** Names, aliases and lists *)
Lemma split_dot_spec s : match split_dot s with (a, Some b) => s = a ++ DOT :: b | (a, None) => s = a end.
Proof.
  induction s as [|c s IH]; [done|]. simpl. destruct (Z.eqb_spec c DOT) as [->|]; [done|].
  destruct (split_dot s) as [a [b|]]; by subst.
Qed.

Lemma parse_print_name s ts : (follows 0 ts ∨ ∃ ts', ts = Keyword (K "ON") :: ts') →
  parse_table_name (print_name s ++ ts) = Ok (s, ts).
Proof.
  intros H. pose proof (split_dot_spec s) as Hs. unfold print_name. destruct (split_dot s) as [a [b|]]; subst s; [done|].
  destruct H as [H|[ts' ->]]; [|done]. destruct ts as [|t ts]; [done|]. by destruct t.
Qed.

Lemma parse_print_alias a ts : follows 0 ts → parse_optional_alias (print_alias a ++ ts) = Ok (a, ts).
Proof.
  intros H. destruct a as [a|]; [done|]. unfold parse_optional_alias. cbn [print_alias app].
  by rewrite (bind_ok _ _ _ _ _ (follows_keyword 0 (K "AS") ts H I)).
Qed.

(** A list of items separated by commas, read by [p] one item per turn. *)
Lemma follows_cons_comma ts : follows 0 (Comma :: ts).
Proof. simpl. lia. Qed.

Lemma fmap_ne {A B} (f : A → B) (l : list A) : l ≠ [] → f <$> l ≠ [].
Proof. by destruct l. Qed.

Lemma parse_print_columns cols n ts :
  cols ≠ [] → follows 1 ts → (length cols <= n)%nat →
  parse_column_list n (sep_by ((λ c, [Ident c]) <$> cols) ++ ts) = Ok (cols, ts).
Proof.
  revert n. induction cols as [|c cols IH]; [done|]. intros n _ Hf Hn. destruct n as [|n]; [simpl in Hn; lia|].
  rewrite fmap_cons. destruct (decide (cols = [])) as [->|Hc].
  - destruct ts as [|t ts]; [done|]. destruct t; try done. by exfalso; simpl in Hf; lia.
  - rewrite sep_by_cons by (by apply fmap_ne). cbn [parse_column_list app]. rewrite bind_peek.
    erewrite bind_ok by done. rewrite bind_peek, bind_next by done.
    by rewrite (bind_ok _ _ _ _ _ (IH n Hc Hf ltac:(simpl in *; lia))).
Qed.

Lemma parse_print_order items n ts :
  items ≠ [] → follows 7 ts → (length items <= n)%nat →
  parse_order_list n (sep_by (print_order <$> items) ++ ts) = Ok (items, ts).
Proof.
  revert n. induction items as [|[c asc] items IH]; [done|]. intros n _ Hf Hn. destruct n as [|n]; [simpl in Hn; lia|].
  rewrite fmap_cons. destruct (decide (items = [])) as [->|Hc].
  - destruct ts as [|t ts]; [done|]. cbn [follows] in Hf. destruct t; try (by destruct asc); [| |by exfalso; simpl in Hf; lia].
    + exfalso. destruct (clause_rank (Keyword s)) as [r|] eqn:E; [apply clause_rank_keyword in E; lia|done].
    + cbn [clause_rank] in Hf. destruct (text_eqb s (K "LIMIT")) eqn:E; [|done]. unfold text_eqb in E. apply bool_decide_eq_true in E as ->. by destruct asc.
  - rewrite sep_by_cons by (by apply fmap_ne). unfold print_order at 1. cbn [fst snd parse_order_list app]. rewrite bind_peek, bind_next by done.
    specialize (IH n Hc Hf ltac:(simpl in *; lia)).
    destruct asc; cbn [app].
    + erewrite bind_ok by done. cbn beta iota. erewrite bind_ok by done. cbn beta iota. rewrite bind_peek, bind_next by done.
      by rewrite (bind_ok _ _ _ _ _ IH).
    + erewrite bind_ok by done. cbn beta iota. erewrite bind_ok by done. cbn beta iota delta [list.tail]. rewrite bind_peek, bind_next by done.
      by rewrite (bind_ok _ _ _ _ _ IH).
Qed.

(** *** The select list *)
Section query.
Context (uni_upper : Z → list Z) (fmt_float : text → text) (uni_debug : Z → text) (debug_float : text → text).
Context (date_from_str : text → option Z).
Abbreviation print := (print_expr uni_upper).
Abbreviation expr := (parse_expr uni_upper fmt_float date_from_str).

Lemma stops_alias a ts : follows 0 ts → stops 0 (print_alias a ++ ts).
Proof. intros H. destruct a; [done|]. by apply follows_stop. Qed.

Lemma match_keyword_alias kw a ts :
  follows 0 ts → kw ≠ K "AS" → clause_rank (Keyword kw) = None →
  match_keyword kw (print_alias a ++ ts) = Ok (false, print_alias a ++ ts).
Proof.
  intros H Hk Hr. destruct a as [a|]; [|apply (follows_keyword 0); [done|by rewrite Hr]].
  apply match_keyword_no. cbn [accept_keyword]. unfold text_eqb. by rewrite bool_decide_false.
Qed.

Lemma match_distinct_arg arg ts :
  eq_ignore_ascii_case arg (K "DISTINCT") = false →
  match_ident (K "DISTINCT") (print_arg arg ++ RParen :: ts) = Ok (false, print_arg arg ++ RParen :: ts).
Proof.
  intros H. unfold print_arg. destruct (text_eqb arg [42]); [done|]. case_bool_decide; [done|].
  unfold match_ident. cbn [app]. by rewrite bind_peek, H.
Qed.

Lemma parse_print_item i n ts :
  wf_item uni_upper i → (length (print_item uni_upper i) < n)%nat → follows 0 ts →
  parse_select_item uni_upper fmt_float uni_debug debug_float date_from_str n (print_item uni_upper i ++ ts) = Ok (i, ts).
Proof.
  intros Hw Hn Hf. unfold parse_select_item. destruct i as [s|func arg alias| |m|func arg spec alias|e alias]; cbn [print_item] in *.
  - destruct ts as [|t ts]; [done|]. pose proof (parse_print_alias None (t :: ts) Hf) as Ha. cbn [print_alias app] in *.
    erewrite bind_ok by done. cbn beta iota. rewrite bind_peek. cbn [starts_expression].
    rewrite bind_next, bind_peek by done. assert ((_ ← parse_optional_alias; mret (SColumn s)) (t :: ts) = Ok (SColumn s, t :: ts)) as Hc
      by (by rewrite (bind_ok _ _ _ _ _ Ha)). by destruct t.
  - destruct Hw as [Hu Hd]. rewrite <- !app_comm_cons, <- app_assoc. cbn [app].
    erewrite bind_ok by done. cbn beta iota. rewrite bind_peek. cbn [starts_expression].
    rewrite bind_next, bind_peek, bind_next by done. unfold parse_call, upper. rewrite Hu.
    rewrite (bind_ok _ _ _ _ _ (match_distinct_arg arg (print_alias alias ++ ts) Hd)). cbn beta iota.
    erewrite bind_ok; [|by rewrite (bind_ok _ _ _ _ _ (agg_arg_print fmt_float arg (print_alias alias ++ ts)))]. cbn beta iota.
    rewrite (bind_ok _ _ _ _ _ (close_paren_yes _ _)).
    rewrite (bind_ok _ _ _ _ _ (match_keyword_alias (K "OVER") alias ts Hf ltac:(done) eq_refl)).
    by rewrite (bind_ok _ _ _ _ _ (parse_print_alias alias ts Hf)).
  - done.
  - cbn [wf_item] in Hw. cbn [app]. erewrite bind_ok by done. cbn beta iota. rewrite bind_peek. cbn [starts_expression].
    rewrite (proj2 (Z.ltb_ge m 0) Hw), bind_next by done.
    by rewrite (bind_ok _ _ _ _ _ (parse_print_alias None ts Hf)).
  - done.
  - destruct Hw as [He Ht]. rewrite length_app in Hn. rewrite <- app_assoc.
    pose proof (parse_expr_print uni_upper fmt_float date_from_str n e (print_alias alias ++ ts) He ltac:(lia) (stops_alias alias ts Hf)) as Hp.
    destruct (print 0 e) as [|t l]; [done|]. cbn [app] in *. erewrite bind_ok; [|by destruct t]. cbn beta iota.
    rewrite bind_peek, Ht, (bind_ok _ _ _ _ _ Hp). by rewrite (bind_ok _ _ _ _ _ (parse_print_alias alias ts Hf)).
Qed.

Lemma parse_print_items items n k ts :
  items ≠ [] → Forall (wf_item uni_upper) items → (length (sep_by (print_item uni_upper <$> items)) < n)%nat →
  (length items <= k)%nat → follows 1 ts →
  parse_select_list uni_upper fmt_float uni_debug debug_float date_from_str n k
    (sep_by (print_item uni_upper <$> items) ++ ts) = Ok (items, ts).
Proof.
  intros Hne Hw. revert k Hne. induction Hw as [|i items Hi Hw IH]; intros k Hne Hn Hk Hf; [done|].
  destruct k as [|k]; [simpl in Hk; lia|]. cbn [parse_select_list]. rewrite fmap_cons in *.
  destruct (decide (items = [])) as [->|Hc].
  - cbn [fmap list_fmap sep_by] in *.
    rewrite (bind_ok _ _ _ _ _ (parse_print_item i n ts Hi ltac:(lia) (follows_mono 1 0 ts Hf ltac:(lia)))).
    destruct ts as [|t ts]; [done|]. rewrite bind_peek. destruct t; try done. exfalso. simpl in Hf. lia.
  - pose proof (fmap_ne (print_item uni_upper) items Hc) as Hne'.
    assert (length (sep_by (print_item uni_upper i :: (print_item uni_upper <$> items))) =
      length (print_item uni_upper i) + S (length (sep_by (print_item uni_upper <$> items))))%nat as El.
    { rewrite <- (app_nil_r (sep_by (_ :: _))), sep_by_cons, app_nil_r by done. by rewrite length_app. }
    rewrite sep_by_cons by done.
    rewrite (bind_ok _ _ _ _ _ (parse_print_item i n _ Hi ltac:(lia) (follows_cons_comma _))).
    rewrite bind_peek, bind_next by done.
    by rewrite (bind_ok _ _ _ _ _ (IH k Hc ltac:(lia) ltac:(simpl in Hk; lia) Hf)).
Qed.

(** *** Joins *)
Lemma join_on_print n ty t e ts :
  wf_expr uni_upper e → (length (print 0 e) < n)%nat → follows 0 ts →
  join_on uni_upper fmt_float date_from_str n ty (print_name t ++ Keyword (K "ON") :: print 0 e ++ ts) = Ok (mkJoin t e ty, ts).
Proof.
  intros He Hn Hf. unfold join_on. erewrite bind_ok; [|apply parse_print_name; right; by eexists].
  rewrite (bind_ok _ _ _ _ _ (expect_keyword_yes _ _)).
  by rewrite (bind_ok _ _ _ _ _ (parse_expr_print _ _ _ n e ts He Hn (follows_stop ts Hf))).
Qed.

Lemma parse_print_join j n ts :
  wf_join uni_upper j → (length (print_join uni_upper j) < n)%nat → follows 0 ts →
  parse_join uni_upper fmt_float date_from_str n (print_join uni_upper j ++ ts) = Ok (Some j, ts).
Proof.
  intros Hw Hn Hf. destruct j as [t e ty]. unfold print_join, wf_join in *. cbn [join_type join_table on] in *.
  unfold parse_join, outer_join. cbn [app length] in *. rewrite length_app in Hn.
  destruct Hw as [[Hty He]|[Hty ->]].
  - assert (text_eqb ty (K "CROSS") = false) as E.
    { rewrite !elem_of_cons, elem_of_nil in Hty. by repeat match goal with H : _ ∨ _ |- _ => destruct H as [->|H] end. }
    rewrite E, <- !app_assoc, <- app_comm_cons in *. cbn [length] in Hn.
    assert (length (print 0 e) < n)%nat as Hle by lia.
    rewrite !elem_of_cons, elem_of_nil in Hty.
    repeat match goal with H : _ ∨ _ |- _ => destruct H as [->|H] end; [..|done];
      repeat (erewrite bind_ok; [|apply match_keyword_no; reflexivity]; cbn beta iota);
      rewrite (bind_ok _ _ _ _ _ (match_keyword_yes _ _)); cbn beta iota;
      repeat (rewrite bind_assoc; cbn beta);
      repeat (erewrite bind_ok; [|apply match_keyword_no; reflexivity]; cbn beta);
      repeat (rewrite bind_assoc; cbn beta);
      rewrite (bind_ok _ _ _ _ _ (expect_keyword_yes _ _));
      by rewrite (bind_ok _ _ _ _ _ (join_on_print n _ t e ts He Hle Hf)).
  - subst ty. change (text_eqb (K "CROSS") (K "CROSS")) with true in *. cbn iota. rewrite app_nil_r.
    repeat (erewrite bind_ok; [|apply match_keyword_no; reflexivity]; cbn beta iota).
    rewrite (bind_ok _ _ _ _ _ (match_keyword_yes _ _)). cbn beta iota. rewrite (bind_ok _ _ _ _ _ (expect_keyword_yes _ _)).
    by rewrite (bind_ok _ _ _ _ _ (parse_print_name t ts (or_introl Hf))).
Qed.

Lemma follows_join j l ts : wf_join uni_upper j → follows 2 (print_join uni_upper j ++ l ++ ts).
Proof.
  intros Hw. unfold print_join. cbn [app follows]. assert (clause_rank (Keyword (join_type j)) = Some 2%nat) as ->; [|lia].
  destruct Hw as [[Hty _]|[-> _]]; [|done]. rewrite !elem_of_cons, elem_of_nil in Hty.
  by repeat match goal with H : _ ∨ _ |- _ => destruct H as [->|H] end.
Qed.

Lemma follows_joins js ts : Forall (wf_join uni_upper) js → follows 3 ts → follows 2 (concat (print_join uni_upper <$> js) ++ ts).
Proof.
  intros Hw Hf. destruct Hw as [|j js Hj Hw]; [eapply follows_mono; [done|lia]|].
  rewrite fmap_cons, concat_cons, <- app_assoc. by apply follows_join.
Qed.

Lemma join_none n ts : follows 3 ts → parse_join uni_upper fmt_float date_from_str n ts = Ok (None, ts).
Proof.
  intros Hf. unfold parse_join.
  assert (∀ kw, clause_rank (Keyword kw) = Some 2%nat → match_keyword kw ts = Ok (false, ts)) as Hk
    by (intros kw E; apply (follows_keyword 3); [done|rewrite E; lia]).
  repeat (erewrite bind_ok; [|apply Hk; reflexivity]; cbn beta iota). done.
Qed.

Lemma parse_print_joins js n k ts :
  Forall (wf_join uni_upper) js → (length (concat (print_join uni_upper <$> js)) < n)%nat → (length js < k)%nat → follows 3 ts →
  parse_joins uni_upper fmt_float date_from_str n k (concat (print_join uni_upper <$> js) ++ ts) = Ok (js, ts).
Proof.
  intros Hw. revert k. induction Hw as [|j js Hj Hw IH]; intros k Hn Hk Hf; (destruct k as [|k]; [simpl in Hk; lia|]); cbn [parse_joins].
  - cbn [fmap list_fmap concat app]. by rewrite (bind_ok _ _ _ _ _ (join_none n ts Hf)).
  - rewrite fmap_cons, concat_cons in *. rewrite length_app in Hn. rewrite <- app_assoc.
    erewrite bind_ok; [|apply parse_print_join; [done|lia|]].
    + cbn beta iota. by rewrite (bind_ok _ _ _ _ _ (IH k ltac:(lia) ltac:(simpl in Hk; lia) Hf)).
    + eapply (follows_mono 2); [by apply follows_joins|lia].
Qed.

(** *** Whole queries *)
Lemma follows_opt i kw e ts :
  clause_rank (Keyword (K kw)) = Some i → follows (S i) ts → follows i (print_opt uni_upper kw e ++ ts).
Proof.
  intros H Hf. destruct e; [|eapply follows_mono; [done|lia]]. cbn [print_opt app follows]. rewrite H. lia.
Qed.

Lemma follows_by i kw ls ts :
  clause_rank (Keyword (K kw)) = Some i → follows (S i) ts → follows i (by_list kw ls ++ ts).
Proof.
  intros H Hf. destruct ls; [eapply follows_mono; [done|lia]|]. cbn [by_list app follows]. rewrite H. lia.
Qed.

Lemma clause_print_opt i kw e n ts :
  clause_rank (Keyword (K kw)) = Some i → wf_opt uni_upper e → (length (print_opt uni_upper kw e) < n)%nat → follows (S i) ts →
  clause (K kw) None (e ← expr n; mret (Some e)) (print_opt uni_upper kw e ++ ts) = Ok (e, ts).
Proof.
  intros Hi He Hn Hf. destruct e as [e|]; cbn [print_opt app wf_opt length] in *.
  - rewrite clause_yes. erewrite bind_ok; [done|]. apply parse_expr_print; [done|lia|].
    apply follows_stop. eapply follows_mono; [done|lia].
  - apply (clause_no (S i)); [done|]. rewrite Hi. lia.
Qed.

Lemma clause_print_by {A} i kw (items : list A) (pr : A → list Token) (p : parser (list A)) ts :
  clause_rank (Keyword (K kw)) = Some i → follows (S i) ts →
  (items ≠ [] → p (sep_by (pr <$> items) ++ ts) = Ok (items, ts)) →
  clause (K kw) [] (_ ← expect_keyword (K "BY"); p) (by_list kw (pr <$> items) ++ ts) = Ok (items, ts).
Proof.
  intros Hi Hf Hp. destruct items as [|x items].
  - apply (clause_no (S i)); [done|]. rewrite Hi. lia.
  - rewrite fmap_cons in *. cbn [by_list app]. rewrite clause_yes, (bind_ok _ _ _ _ _ (expect_keyword_yes _ _)). by apply Hp.
Qed.

Lemma sep_by_len (ls : list (list Token)) : Forall (λ l, 1 <= length l)%nat ls → (length ls <= length (sep_by ls))%nat.
Proof.
  induction 1 as [|l ls Hl Hls IH]; [done|]. destruct ls as [|l' ls]; [done|].
  change (sep_by (l :: l' :: ls)) with (l ++ Comma :: sep_by (l' :: ls)). rewrite length_app. simpl in *. lia.
Qed.

Lemma sep_by_elem l (ls : list (list Token)) : l ∈ ls → (length l <= length (sep_by ls))%nat.
Proof.
  induction ls as [|l' ls IH]; [by intros ?%not_elem_of_nil|]. rewrite elem_of_cons. intros H.
  destruct ls as [|l'' ls]; [destruct H as [->|H]; [done|by apply not_elem_of_nil in H]|].
  change (sep_by (l' :: l'' :: ls)) with (l' ++ Comma :: sep_by (l'' :: ls)). rewrite length_app. cbn [length].
  destruct H as [->|H]; [lia|]. specialize (IH H). lia.
Qed.

Lemma by_len kw ls : Forall (λ l, 1 <= length l)%nat ls → (length ls <= length (by_list kw ls))%nat.
Proof. intros H. apply sep_by_len in H. destruct ls; [done|]. cbn [by_list length] in *. lia. Qed.

Lemma item_head i :
  wf_item uni_upper i → ∃ t l, print_item uni_upper i = t :: l ∧ accept_keyword (K "DISTINCT") t = None.
Proof.
  intros H. destruct i as [s|func arg alias| |m|func arg spec alias|e alias]; cbn [print_item]; try done; try by eexists _, _.
  destruct H as [_ H]. destruct (print 0 e) as [|t l]; [done|]. eexists _, _. split; [done|].
  destruct t as [k| | | | | | | | | | |]; try done. cbn [starts_expression] in H. unfold text_eqb in H.
  rewrite !orb_true_iff, !bool_decide_eq_true in H. by destruct H as [[-> | ->]| ->].
Qed.

Lemma distinct_print (d : bool) items ts :
  items ≠ [] → Forall (wf_item uni_upper) items →
  match_keyword (K "DISTINCT") ((if d then [Keyword (K "DISTINCT")] else []) ++ sep_by (print_item uni_upper <$> items) ++ ts) =
  Ok (d, sep_by (print_item uni_upper <$> items) ++ ts).
Proof.
  intros Hne Hw. destruct d; [apply match_keyword_yes|]. destruct Hw as [|i items Hi Hw]; [done|].
  destruct (item_head i Hi) as (t & l & E & Ht). rewrite fmap_cons, E.
  destruct (print_item uni_upper <$> items); by apply match_keyword_no.
Qed.

Lemma from_print frm ts :
  follows 2 ts →
  clause (K "FROM") (K "__dummy__") parse_table_name
    ((if text_eqb frm (K "__dummy__") then [] else Keyword (K "FROM") :: print_name frm) ++ ts) = Ok (frm, ts).
Proof.
  intros Hf. destruct (text_eqb frm (K "__dummy__")) eqn:E.
  - unfold text_eqb in E. apply bool_decide_eq_true in E as ->. apply (clause_no 2); [done|simpl; lia].
  - cbn [app]. rewrite clause_yes. apply parse_print_name. left. eapply follows_mono; [done|lia].
Qed.

Lemma limit_print lim :
  match lim with Some n => in_u 64 n | None => True end →
  (b ← match_ident (K "LIMIT"); if b : bool then n ← parse_usize; mret (Some n) else mret None)
    (match lim with Some n => [Ident (K "LIMIT"); Int n] | None => [] end ++ [EOF]) = Ok (lim, [EOF]).
Proof.
  intros H. destruct lim as [m|]; [|done]. cbn [app]. erewrite bind_ok by reflexivity. cbn beta iota delta [list.tail].
  unfold parse_usize. erewrite bind_ok; [done|]. rewrite bind_peek. unfold in_u in H. rewrite (proj2 (Z.ltb_ge m 0)) by lia.
  rewrite bind_next by done. unfold wrap_u. by rewrite Z.mod_small.
Qed.

Lemma parse_select_print q n :
  wf_query uni_upper q → (length (print_query uni_upper q) < n)%nat →
  parse_select uni_upper fmt_float uni_debug debug_float date_from_str n (print_query uni_upper q ++ [EOF]) = Ok (q, [EOF]).
Proof.
  intros (Hs & Hitems & Hjoins & Hwhere & Hhaving & Hlimit) Hn. destruct q as [sel frm js wh gb hv ob lim dis].
  cbn [select from joins where_clause group_by having order_by limit distinct] in *. unfold parse_select, print_query in *.
  cbn [select from joins where_clause group_by having order_by limit distinct] in *. cbn [app length] in *.
  rewrite !length_app in Hn. rewrite <- !app_assoc.
  set (T7 := match lim with Some n => [Ident (K "LIMIT"); Int n] | None => [] end ++ [EOF]).
  assert (follows 7 T7) as F7 by (destruct lim; simpl; lia).
  pose proof (follows_by 6 "ORDER" (print_order <$> ob) T7 eq_refl F7) as F6. set (T6 := by_list "ORDER" _ ++ T7) in *.
  pose proof (follows_opt 5 "HAVING" hv T6 eq_refl F6) as F5'. set (T5 := print_opt uni_upper "HAVING" hv ++ T6) in *.
  pose proof (follows_by 4 "GROUP" ((λ c, [Ident c]) <$> gb) T5 eq_refl F5') as F4. set (T4 := by_list "GROUP" _ ++ T5) in *.
  pose proof (follows_opt 3 "WHERE" wh T4 eq_refl F4) as F3. set (T3 := print_opt uni_upper "WHERE" wh ++ T4) in *.
  pose proof (follows_joins js T3 Hjoins F3) as F2'. set (T2 := concat _ ++ T3) in *.
  rewrite (bind_ok _ _ _ _ _ (expect_keyword_yes _ _)), (bind_ok _ _ _ _ _ (distinct_print dis sel _ Hs Hitems)).
  assert (length sel <= length (sep_by (print_item uni_upper <$> sel)))%nat as Hsel.
  { rewrite <- (length_fmap (print_item uni_upper) sel). apply sep_by_len, Forall_fmap.
    revert Hitems. apply Forall_impl. intros i Hi. destruct (item_head i Hi) as (t & l & E & _). unfold compose. rewrite E. simpl. lia. }
  erewrite bind_ok; [|apply parse_print_items; [done|done|lia|lia|]].
  2:{ destruct (text_eqb frm _); [eapply (follows_mono 2); [done|lia]|simpl; lia]. }
  rewrite (bind_ok _ _ _ _ _ (from_print frm T2 F2')).
  assert (length js <= length (concat (print_join uni_upper <$> js)))%nat as Hjs.
  { clear. induction js as [|j js IH]; [done|]. rewrite fmap_cons, concat_cons, length_app. simpl. lia. }
  rewrite (bind_ok _ _ _ _ _ (parse_print_joins js n n T3 Hjoins ltac:(lia) ltac:(lia) F3)).
  rewrite (bind_ok _ _ _ _ _ (clause_print_opt 3 "WHERE" wh n T4 eq_refl Hwhere ltac:(lia) F4)).
  assert (length gb <= length (by_list "GROUP" ((λ c, [Ident c]) <$> gb)))%nat as Hgb.
  { rewrite <- (length_fmap (λ c, [Ident c]) gb) at 1. apply by_len, Forall_fmap, Forall_true. intros. simpl. lia. }
  erewrite bind_ok; [|apply (clause_print_by 4); [done|done|intros Hne; apply parse_print_columns; [done| |lia]]].
  2:{ eapply follows_mono; [done|lia]. }
  rewrite (bind_ok _ _ _ _ _ (clause_print_opt 5 "HAVING" hv n T6 eq_refl Hhaving ltac:(lia) F6)).
  assert (length ob <= length (by_list "ORDER" (print_order <$> ob)))%nat as Hob.
  { rewrite <- (length_fmap print_order ob) at 1. apply by_len, Forall_fmap, Forall_true. intros. simpl. lia. }
  erewrite bind_ok; [|apply (clause_print_by 6); [done|done|intros Hne; apply parse_print_order; [done|done|lia]]].
  rewrite <- bind_assoc. by rewrite (bind_ok _ _ _ _ _ (limit_print lim Hlimit)).
Qed.

Lemma parse_print_tokens q :
  wf_query uni_upper q →
  parse uni_upper fmt_float uni_debug debug_float date_from_str (print_query uni_upper q ++ [EOF]) = Ok q.
Proof.
  intros Hw. unfold parse. rewrite parse_select_print; [done|done|]. rewrite length_app. simpl. lia.
Qed.
End query.

(** C28: Parsing inverts printing, through the tokenizer: a query that can be printed is
    tokenized and parsed back to itself. It has maybe DISTINCT, a non-empty select list
    (columns, star, integers, aggregates, expressions), INNER and LEFT joins, WHERE, GROUP
    BY, HAVING, ORDER BY, LIMIT; conditions of columns, literals, calls, CASE, EXTRACT,
    CAST and operators nested in any way, printed with the fewest parentheses the
    precedences allow. Left out: select expressions that do not begin with CASE, EXTRACT
    or CAST, which the parser does not read ([SELECT a + 1]); window items; aggregates of
    DISTINCT; RIGHT, FULL and CROSS joins, which the tokenizer does not know (see
    [right_full_cross_rejected]). Names are single words, no keywords (tables may have a
    schema); function names, fields and types are in upper case; integers are not negative
    and below 2^63, floats digits around a point. *)
Theorem parse_print uni_alnum uni_upper fmt_float uni_debug debug_float date_from_str q :
  wf_query uni_upper q → Forall (tok_wf uni_alnum uni_upper) (print_query uni_upper q) →
  ∃ tokens, tokenize uni_alnum uni_upper (render_all (print_query uni_upper q)) = Some (Ok tokens) ∧
            parse uni_upper fmt_float uni_debug debug_float date_from_str tokens = Ok q.
Proof.
  intros Hw Ht. exists (print_query uni_upper q ++ [EOF]). split; [|by apply parse_print_tokens].
  apply lex_loop_render; [done|lia].
Qed.

(** ** The meaning of the lowered predicates *)
Section meaning.
Context (cmp : text → Expr → Expr → bool).

(** The truth of a predicate, given that of its comparisons. *)
Fixpoint holds (e : Expr) : bool :=
  match e with
  | Binary l op r =>
    if text_eqb op (K "AND") then holds l && holds r
    else if text_eqb op (K "OR") then holds l || holds r
    else cmp op l r
  | _ => false
  end.

Lemma holds_cmp l op r : op ≠ K "AND" → op ≠ K "OR" → holds (Binary l op r) = cmp op l r.
Proof. intros H1 H2. cbn [holds]. unfold text_eqb. by rewrite !bool_decide_false. Qed.

Lemma holds_in_or x vs acc :
  holds (fold_left (λ a v, Binary a (K "OR") (Binary x [61] v)) vs acc) = holds acc || existsb (cmp [61] x) vs.
Proof.
  revert acc; induction vs as [|v vs IH]; intros acc; simpl; [by rewrite orb_false_r|]. rewrite IH.
  change (holds (Binary acc (K "OR") (Binary x [61] v))) with (holds acc || cmp [61] x v). by rewrite orb_assoc.
Qed.

Lemma holds_in_and x vs acc :
  holds (fold_left (λ a v, Binary a (K "AND") (Binary x [33; 61] v)) vs acc) = holds acc && forallb (cmp [33; 61] x) vs.
Proof.
  revert acc; induction vs as [|v vs IH]; intros acc; simpl; [by rewrite andb_true_r|]. rewrite IH.
  change (holds (Binary acc (K "AND") (Binary x [33; 61] v))) with (holds acc && cmp [33; 61] x v). by rewrite andb_assoc.
Qed.
End meaning.

(** BETWEEN and IN mean what they say.  [x BETWEEN lo AND hi] is parsed to a predicate
    that holds when lo <= x <= hi does, its negation when x < lo or x > hi; [x IN (vs)]
    to one that holds when x equals one of the values, its negation when x differs from
    each; whatever the operands and whatever clause follows. *)
Theorem predicates_lowered uni_upper fmt_float date_from_str cmp n x lo hi vs (neg : bool) rest :
  wf_expr uni_upper x → wf_expr uni_upper lo → wf_expr uni_upper hi → Forall (wf_expr uni_upper) vs → vs ≠ [] →
  stops 0 rest →
  let pr := print_expr uni_upper 3 in
  let between_tokens := pr x ++ not_kw neg ++ Keyword (K "BETWEEN") :: pr lo ++ Keyword (K "AND") :: pr hi in
  let in_tokens := pr x ++ not_kw neg ++ Keyword (K "IN") :: LParen :: sep_by (pr <$> vs) ++ [RParen] in
  (length between_tokens < n)%nat → (length in_tokens < n)%nat →
  (∃ e, parse_expr uni_upper fmt_float date_from_str n (between_tokens ++ rest) = Ok (e, rest) ∧
        holds cmp e = if neg then cmp [60] x lo || cmp [62] x hi else cmp [62; 61] x lo && cmp [60; 61] x hi) ∧
  (∃ e, parse_expr uni_upper fmt_float date_from_str n (in_tokens ++ rest) = Ok (e, rest) ∧
        holds cmp e = if neg then forallb (cmp [33; 61] x) vs else existsb (cmp [61] x) vs).
Proof.
  intros Hx Hlo Hhi Hvs Hne Hs pr bt it Hb Hi. destruct n as [|n]; [lia|]. cbn [parse_expr].
  set (rec := parse_expr uni_upper fmt_float date_from_str n).
  assert (∀ e rest, wf_expr uni_upper e → (length (print_expr uni_upper 0 e) < n)%nat → stops 0 rest →
    rec (print_expr uni_upper 0 e ++ rest) = Ok (e, rest)) as Hrec by (intros; by apply parse_expr_print).
  set (F3 := F uni_upper fmt_float date_from_str n rec 3).
  assert (∀ e, wf_expr uni_upper e → (length (pr e) <= n)%nat → F3 e) as HF
    by (intros e He Hl; by apply F_level; [|lia|..]).
  subst bt it. rewrite !length_app in Hb. cbn [length] in Hb. rewrite !length_app in Hb. cbn [length] in Hb.
  rewrite !length_app in Hi. cbn [length] in Hi. rewrite !length_app in Hi. cbn [length] in Hi.
  assert (F3 x) as Fx by (apply HF; [done|lia]). rewrite <- !app_assoc. split.
  - eexists. split.
    + apply (P2_P0 uni_upper fmt_float date_from_str n rec); [exact Hrec|lia| |done]. cbn [app]. rewrite <- app_assoc. cbn [app].
      apply P2_between; [done|apply HF; [done|lia]..|]. eapply stops_mono; [done|lia].
    + by destruct neg.
  - assert (length (pr <$> vs) <= length (sep_by (pr <$> vs)))%nat as Hl
      by (apply sep_by_len, Forall_fmap, Forall_true; intros; apply print_pos).
    rewrite length_fmap in Hl. eexists. split.
    + apply (P2_P0 uni_upper fmt_float date_from_str n rec); [exact Hrec|lia| |done]. cbn [app]. rewrite <- app_assoc. cbn [app].
      apply P2_in; [done|done| |lia]. apply list.Forall_forall. intros v Hv.
      apply HF; [by eapply list.Forall_forall|]. pose proof (sep_by_elem (pr v) (pr <$> vs) ltac:(by apply list_elem_of_fmap_2)). lia.
    + destruct vs as [|v vs]; [done|]. destruct neg; cbn [in_tree]; [rewrite holds_in_and|rewrite holds_in_or]; done.
Qed.

(** The words [parse_joins] tests as keywords and the tokenizer does not know. *)
Definition unknown_join_words : list text := [K "RIGHT"; K "FULL"; K "CROSS"].

(** the join types RIGHT, FULL and CROSS cannot be reached from SQL text.  The parser
    handles them as keywords, but the tokenizer has no such keywords: a query that uses
    one after its table is rejected at that word, whatever follows. *)
Theorem right_full_cross_rejected uni_alnum uni_upper fmt_float uni_debug debug_float date_from_str kw rest :
  kw ∈ unknown_join_words → Forall (tok_wf uni_alnum uni_upper) rest →
  let tokens := [Keyword (K "SELECT"); Op [42]; Keyword (K "FROM"); Ident (K "t"); Ident kw] ++ rest in
  tokenize uni_alnum uni_upper (render_all tokens) = Some (Ok (tokens ++ [EOF])) ∧
  parse uni_upper fmt_float uni_debug debug_float date_from_str (tokens ++ [EOF]) = Err (ETrailing (Ident kw)).
Proof.
  intros Hkw Hrest tokens. unfold unknown_join_words in Hkw. rewrite !elem_of_cons, elem_of_nil in Hkw. split.
  - apply lex_loop_render; [|lia]. subst tokens. apply Forall_app. split; [|done].
    repeat apply Forall_cons_2; try apply Forall_nil_2; cbn [tok_wf];
      try (apply (bool_decide_unpack _); vm_compute; exact I).
    + eexists _, _. split_and!; [reflexivity|done|done|]. apply (bool_decide_unpack _). vm_compute. exact I.
    + destruct Hkw as [->|[->|[->|[]]]]; (eexists _, _; split_and!; [reflexivity|done|by repeat constructor|]);
        apply (bool_decide_unpack _); vm_compute; exact I.
  - subst tokens. by destruct Hkw as [->|[->|[->|[]]]].
Qed.

Lemma right_full_cross_rejected_witness :
  let tokens := [Keyword (K "SELECT"); Op [42]; Keyword (K "FROM"); Ident (K "t"); Ident (K "RIGHT")] ++ [] in
  tokenize (λ _, true) (λ c, [c]) (render_all tokens) = Some (Ok (tokens ++ [EOF])) ∧
  parse (λ c, [c]) (λ s, s) (λ c, [c]) (λ s, s) (λ _, None) (tokens ++ [EOF]) = Err (ETrailing (Ident (K "RIGHT"))).
Proof.
  apply (right_full_cross_rejected (λ _, true) (λ c, [c]) (λ s, s) (λ c, [c]) (λ s, s) (λ _, None) (K "RIGHT") []);
    [left|constructor].
Defined.

(** ** Concrete inputs *)
Definition tok_ok (t : Token) : bool :=
  match t with
  | Keyword s => bool_decide (s ∈ KEYWORDS)
  | Ident (c :: w) =>
    (is_lower c || is_upper c || Z.eqb c 95) && forallb (id_char (λ _, true)) w &&
    negb (bool_decide (to_uppercase (λ c, [c]) (c :: w) ∈ KEYWORDS))
  | Int i => Z.leb 0 i && Z.ltb i (2 ^ 63)
  | Str _ | LParen | RParen | Comma | Semicolon => true
  | Op s => bool_decide (s ∈ OPS)
  | _ => false
  end.

Lemma tok_ok_wf t : tok_ok t = true → tok_wf (λ _, true) (λ c, [c]) t.
Proof.
  destruct t as [s|s|i|s|s|b|s| | | | |]; cbn [tok_ok tok_wf]; try done.
  - by intros ?%bool_decide_eq_true.
  - destruct s as [|c w]; [done|]. rewrite !andb_true_iff, negb_true_iff, bool_decide_eq_false, forallb_forall.
    intros ((H1 & H2) & H3). exists c, w. split_and!; [done|done| |done]. by apply List.Forall_forall.
  - lia.
  - by intros ?%bool_decide_eq_true.
Qed.

Definition demo_query : SelectQuery :=
  mkQuery
    [SColumn (chars_of "a"); SAggregate (chars_of "SUM") (chars_of "x") (Some (chars_of "s"));
     SExpression (Case [(Binary (Column (chars_of "a")) [61] (Literal (VInt 1)), Literal (VString (chars_of "it's")))] None) None]
    (chars_of "t") [mkJoin (chars_of "u") (Binary (Column (chars_of "a")) [61] (Column (chars_of "b"))) (chars_of "LEFT")]
    (Some (Binary (Binary (Column (chars_of "a")) (chars_of "OR") (Column (chars_of "b"))) (chars_of "AND")
             (Binary (Binary (Binary (Column (chars_of "x")) [45] (Literal (VInt 1))) [42] (Column (chars_of "y"))) [60] (Literal (VInt 7)))))
    [chars_of "a"] (Some (Binary (Function (chars_of "COUNT") [42]) [62] (Literal (VInt 2))))
    [(chars_of "a", false); (chars_of "s", true)] (Some 10) true.

Lemma parse_print_witness :
  ∃ tokens, tokenize (λ _, true) (λ c, [c]) (render_all (print_query (λ c, [c]) demo_query)) = Some (Ok tokens) ∧
            parse (λ c, [c]) (λ s, s) (λ c, [c]) (λ s, s) (λ _, None) tokens = Ok demo_query.
Proof.
  apply (parse_print (λ _, true) (λ c, [c]) (λ s, s) (λ c, [c]) (λ s, s) (λ _, None) demo_query).
  - unfold wf_query, demo_query. cbn [select from joins where_clause group_by having order_by limit distinct].
    split_and!; [done| | | | |].
    + repeat apply Forall_cons_2; try apply Forall_nil_2; cbn; try done.
      split_and!; try done. right; right. left.
    + apply Forall_cons_2; [|apply Forall_nil_2]. left. split; [right; left|]. split_and!; [done|right; right; left|done].
    + cbn. split_and!; try done; apply (bool_decide_unpack _); vm_compute; exact I.
    + cbn. split_and!; try done; apply (bool_decide_unpack _); vm_compute; exact I.
    + unfold in_u. lia.
  - assert (Forall (λ t, tok_ok t = true) (print_query (λ c, [c]) demo_query)) as H
      by (apply (bool_decide_unpack _); vm_compute; exact I).
    revert H. apply Forall_impl. intros t. apply tok_ok_wf.
Defined.

Lemma predicates_lowered_witness :
  let x := Column (chars_of "a") in
  let cmp := λ (op : text) (l r : Expr), text_eqb op [60] in
  ∃ e, parse_expr (λ c, [c]) (λ s, s) (λ _, None) 20
         ([Ident (chars_of "a"); Keyword (K "NOT"); Keyword (K "IN"); LParen; Int 1; Comma; Int 2; RParen] ++ [EOF]) = Ok (e, [EOF]) ∧
       holds cmp e = false.
Proof.
  intros x cmp.
  apply (predicates_lowered (λ c, [c]) (λ s, s) (λ _, None) cmp 20 x (Literal (VInt 1)) (Literal (VInt 2))
           [Literal (VInt 1); Literal (VInt 2)] true [EOF]); try done; try (repeat constructor; done); cbn; lia.
Defined.
End PrinterM.
