(* ===== verification/Dml.v ===== *)
(** * Statements that change rows (src/src/sql/dml.rs)

    The parser of INSERT, UPDATE and DELETE over the tokens of [Lexer]; its cursor is the
    list of tokens left.  Values and conditions are kept as text, which the engine reads
    again.  [fmt_float] displays a float. *)

From Stdlib Require Import ZArith Lia Ascii String.
From stdpp Require Import prelude list numbers.
From S2P Require Import Prelude Lexer Parser.
Local Open Scope Z_scope.

Module DmlM.
Import LexerM ParserM.

Record Insert := mkInsert { ins_table : text; ins_columns : option (list text); ins_values : list (list text) }.
Record Update := mkUpdate { upd_table : text; assignments : list (text * text); upd_where : option text }.
Record Delete := mkDelete { del_table : text; del_where : option text }.
Inductive DmlStatement := DInsert (i : Insert) | DUpdate (u : Update) | DDelete (d : Delete).

(** The message: what was expected, and the token found there if there was one. *)
Inductive DmlError := DLex (e : LexError) | DEnd (what : text) | DGot (what : text) (t : Token) | DUnsupported (t : Token).

Abbreviation reads A := (result DmlError (A * list Token)).

Definition expect_keyword (k : text) (ts : list Token) : result DmlError (list Token) :=
  match ts with
  | [] => Err (DEnd k)
  | Keyword k' :: rest => if text_eqb k' k then Ok rest else Err (DGot k (Keyword k'))
  | t :: _ => Err (DGot k t)
  end.

Definition name_of (what : text) (ts : list Token) : reads text :=
  match ts with
  | [] => Err (DEnd what)
  | Ident s :: rest | Keyword s :: rest => Ok (s, rest)
  | t :: _ => Err (DGot what t)
  end.

Definition parse_qualified_name (ts : list Token) : reads text :=
  '(first, rest) ← name_of (K "table name") ts;
  match rest with
  | Op op :: rest' =>
    if text_eqb op (K ".") then '(second, rest) ← name_of (K "name after .") rest'; Ok (first ++ K "." ++ second, rest)
    else Ok (first, rest)
  | _ => Ok (first, rest)
  end.

(** The columns up to the closing parenthesis; a comma may be missing. *)
Fixpoint column_list (ts : list Token) : reads (list text) :=
  match ts with
  | [] => Err (DEnd (K "column"))
  | RParen :: rest => Ok ([], rest)
  | Ident s :: rest =>
    match rest with
    | [] => Err (DEnd (K "column"))
    | RParen :: rest => Ok ([s], rest)
    | Comma :: rest => '(cs, rest) ← column_list rest; Ok (s :: cs, rest)
    | _ => '(cs, rest) ← column_list rest; Ok (s :: cs, rest)
    end
  | t :: _ => Err (DGot (K "column") t)
  end.

Section dml.
Context (uni_alnum : Z → bool) (uni_upper : Z → list Z) (fmt_float : text → text).

Definition quoted (s : text) : text := QUOTE :: s ++ [QUOTE].
Definition hex_text (b : list Z) : text := 120 :: QUOTE :: encode_hex b ++ [QUOTE].

Definition token_to_value_string (t : Token) : result DmlError text :=
  match t with
  | Int n => Ok (fmt_i64 n)
  | Float f => Ok (fmt_float f)
  | Str s => Ok (quoted s)
  | Hex b => Ok (hex_text b)
  | Keyword s | Ident s | Op s => Ok s
  | _ => Err (DUnsupported t)
  end.

(** The rows after VALUES: [cur] is the row being read, [None] between rows. *)
Fixpoint value_rows (cur : option (list text)) (ts : list Token) : result DmlError (list (list text)) :=
  match cur, ts with
  | None, [] => Err (DEnd (K "("))
  | None, LParen :: rest => value_rows (Some []) rest
  | None, (Semicolon | EOF) :: _ => Ok []
  | None, t :: _ => Err (DGot (K "(") t)
  | Some _, [] => Err (DEnd (K ")"))
  | Some row, RParen :: rest =>
    match rest with
    | Comma :: rest => rows ← value_rows None rest; Ok (row :: rows)
    | _ => Ok [row]
    end
  | Some row, Comma :: rest => value_rows (Some row) rest
  | Some row, t :: rest => v ← token_to_value_string t; value_rows (Some (row ++ [v])) rest
  end.

Definition parse_insert (ts : list Token) : result DmlError Insert :=
  ts ← expect_keyword (K "INTO") ts;
  '(table, ts) ← parse_qualified_name ts;
  '(columns, ts) ← match ts with
                   | LParen :: rest => '(cs, rest) ← column_list rest; Ok (Some cs, rest)
                   | _ => Ok (None, ts)
                   end;
  ts ← expect_keyword (K "VALUES") ts;
  rows ← value_rows None ts;
  Ok (mkInsert table columns rows).

(** The text of a token in an expression or a condition. *)
Definition part (t : Token) : text :=
  match t with
  | Keyword s | Ident s | Op s => s
  | Int n => fmt_i64 n
  | Float f => fmt_float f
  | Str s => quoted s
  | Hex b => hex_text b
  | LParen => [40] | RParen => [41] | Comma => [44]
  | Semicolon | EOF => []
  end.

Definition is_end (t : Token) : bool := match t with Semicolon | EOF => true | _ => false end.

Fixpoint collect (stop : Token → bool) (ts : list Token) : list text * list Token :=
  match ts with
  | [] => ([], [])
  | t :: rest => if stop t then ([], ts) else let '(ps, rest) := collect stop rest in (part t :: ps, rest)
  end.

Definition stops_expression (t : Token) : bool :=
  match t with Comma => true | Keyword k => bool_decide (k ∈ [K ","; K "WHERE"]) | _ => is_end t end.
Definition collect_expression (ts : list Token) : text * list Token :=
  let '(ps, rest) := collect stops_expression ts in (join_sp ps, rest).
Definition collect_rest (ts : list Token) : text := join_sp (collect is_end ts).1.

Definition where_text (ts : list Token) : option text :=
  match ts with
  | Keyword k :: rest => if text_eqb k (K "WHERE") then Some (collect_rest rest) else None
  | _ => None
  end.

(** [col = expr, ...]; one more assignment per comma. *)
Fixpoint set_list (fuel : nat) (ts : list Token) : option (reads (list (text * text))) :=
  match fuel with
  | O => None
  | S fuel =>
    match ts with
    | [] => Some (Err (DEnd (K "column name")))
    | Ident col :: rest =>
      match rest with
      | [] => Some (Err (DEnd (K "=")))
      | Op op :: rest =>
        if text_eqb op (K "=") then
          let '(e, rest) := collect_expression rest in
          match rest with
          | Comma :: rest =>
            r ← set_list fuel rest;
            Some ('(more, rest) ← r; Ok ((col, e) :: more, rest))
          | _ => Some (Ok ([(col, e)], rest))
          end
        else Some (Err (DGot (K "=") (Op op)))
      | t :: _ => Some (Err (DGot (K "=") t))
      end
    | t :: _ => Some (Err (DGot (K "column name") t))
    end
  end.

Definition parse_update (ts : list Token) : option (result DmlError Update) :=
  match ('(table, ts) ← parse_qualified_name ts; ts ← expect_keyword (K "SET") ts; Ok (table, ts)) with
  | Err e => Some (Err e)
  | Ok (table, ts) =>
    r ← set_list (S (length ts)) ts;
    Some ('(sets, rest) ← r; Ok (mkUpdate table sets (where_text rest)))
  end.

Definition parse_delete (ts : list Token) : result DmlError Delete :=
  ts ← expect_keyword (K "FROM") ts;
  '(table, ts) ← parse_qualified_name ts;
  Ok (mkDelete table (where_text ts)).

(** [None] stands for fuel running out. *)
Definition parse_dml_tokens (ts : list Token) : option (result DmlError (option DmlStatement)) :=
  match ts with
  | Keyword k :: ts =>
    if text_eqb k (K "INSERT") then Some (i ← parse_insert ts; Ok (Some (DInsert i)))
    else if text_eqb k (K "UPDATE") then r ← parse_update ts; Some (u ← r; Ok (Some (DUpdate u)))
    else if text_eqb k (K "DELETE") then Some (d ← parse_delete ts; Ok (Some (DDelete d)))
    else Some (Ok None)
  | _ => Some (Ok None)
  end.

Definition parse_dml (sql : text) : option (result DmlError (option DmlStatement)) :=
  r ← tokenize uni_alnum uni_upper sql;
  match r with
  | Err e => Some (Err (DLex e))
  | Ok ts => parse_dml_tokens ts
  end.

(** ** Termination *)
Lemma collect_length stop ts : (length (collect stop ts).2 <= length ts)%nat.
Proof.
  induction ts as [|t ts IH]; [done|]. cbn [collect]. destruct (stop t); [done|].
  destruct (collect stop ts). simpl in *. lia.
Qed.

Lemma set_list_total fuel ts : (length ts < fuel)%nat → ∃ r, set_list fuel ts = Some r.
Proof.
  revert ts. induction fuel as [|fuel IH]; intros ts Hf; [lia|]. cbn [set_list].
  destruct ts as [|[] [|[] rest]]; try by eexists. destruct (text_eqb _ _); [|by eexists].
  unfold collect_expression. pose proof (collect_length stops_expression rest). destruct (collect stops_expression rest) as [ps rest'].
  destruct rest' as [|[] rest']; try by eexists. destruct (IH rest') as [r ->]; [simpl in *; lia|]. by eexists.
Qed.

Lemma parse_dml_total sql : ∃ r, parse_dml sql = Some r.
Proof.
  unfold parse_dml. pose proof (tokenize_total uni_alnum uni_upper sql) as H.
  destruct (tokenize uni_alnum uni_upper sql) as [[ts|e]|]; [|by eexists|by destruct H as [(? & ? & ?)|[? ?]]]. cbn [mbind option_bind].
  destruct ts as [|[] ts]; try by eexists. cbn [parse_dml_tokens]. repeat (destruct (text_eqb _ _)); try by eexists.
  unfold parse_update. match goal with |- context [match ?r with Ok _ => _ | Err _ => _ end] => destruct r as [[table ts']|e] end; [|by eexists].
  destruct (set_list_total (S (length ts')) ts') as [r ->]; [lia|]. by eexists.
Qed.

(** ** Printing statements *)

(** A table name with its schema, if any. *)
Definition name_tokens (schema : option text) (n : text) : list Token :=
  match schema with Some s => [Ident s; Op (K "."); Ident n] | None => [Ident n] end.
Definition full_name (schema : option text) (n : text) : text :=
  match schema with Some s => s ++ K "." ++ n | None => n end.

(** [l] with [sep] between the elements. *)
Fixpoint between (sep : Token) (l : list (list Token)) : list Token :=
  match l with [] => [] | [x] => x | x :: l => x ++ sep :: between sep l end.

Inductive statement :=
| SInsert (schema : option text) (table : text) (cols : option (list text)) (rows : list (list Token))
| SUpdate (schema : option text) (table : text) (sets : list (text * list Token)) (cond : option (list Token))
| SDelete (schema : option text) (table : text) (cond : option (list Token)).

Definition cond_tokens (c : option (list Token)) : list Token :=
  match c with Some ts => Keyword (K "WHERE") :: ts | None => [] end.

Definition print (s : statement) : list Token :=
  match s with
  | SInsert sc n cols rows =>
    [Keyword (K "INSERT"); Keyword (K "INTO")] ++ name_tokens sc n ++
    match cols with Some cs => LParen :: between Comma ((λ c, [Ident c]) <$> cs) ++ [RParen] | None => [] end ++
    Keyword (K "VALUES") :: between Comma ((λ row, LParen :: between Comma ((λ v, [v]) <$> row) ++ [RParen]) <$> rows)
  | SUpdate sc n sets c =>
    Keyword (K "UPDATE") :: name_tokens sc n ++
    Keyword (K "SET") :: between Comma ((λ '(col, e), Ident col :: Op (K "=") :: e) <$> sets) ++ cond_tokens c
  | SDelete sc n c => [Keyword (K "DELETE"); Keyword (K "FROM")] ++ name_tokens sc n ++ cond_tokens c
  end.

(** What the engine is given: the values and conditions as text. *)
Definition parts (ts : list Token) : text := join_sp (part <$> ts).
Definition meaning (s : statement) : DmlStatement :=
  match s with
  | SInsert sc n cols rows => DInsert (mkInsert (full_name sc n) cols ((λ row : list Token, part <$> row) <$> rows))
  | SUpdate sc n sets c => DUpdate (mkUpdate (full_name sc n) ((λ '(col, e), (col, parts e)) <$> sets) (parts <$> c))
  | SDelete sc n c => DDelete (mkDelete (full_name sc n) (parts <$> c))
  end.

Definition is_value (t : Token) : bool :=
  match t with Keyword _ | Ident _ | Op _ | Int _ | Float _ | Str _ | Hex _ => true | _ => false end.

(** A statement has rows, or assignments; values are single tokens, an expression does
    not reach a comma or WHERE, a condition does not reach a semicolon. *)
Definition wf (s : statement) : Prop :=
  match s with
  | SInsert _ _ _ rows => rows ≠ [] ∧ Forall (Forall (λ v, is_value v = true)) rows
  | SUpdate _ _ sets c =>
    sets ≠ [] ∧ Forall (λ '(_, e), Forall (λ t, stops_expression t = false) e) sets ∧
    from_option (Forall (λ t, is_end t = false)) True c
  | SDelete _ _ c => from_option (Forall (λ t, is_end t = false)) True c
  end.

Lemma qualified_name_tokens sc n rest : (∀ r, rest ≠ Op (K ".") :: r) →
  parse_qualified_name (name_tokens sc n ++ rest) = Ok (full_name sc n, rest).
Proof.
  intros H. destruct sc as [s|]; [done|]. unfold parse_qualified_name. cbn. destruct rest as [|[] rest]; try done.
  unfold text_eqb. case_bool_decide; [|done]. subst. by destruct (H rest).
Qed.

Lemma column_list_tokens cs rest : column_list (between Comma ((λ c, [Ident c]) <$> cs) ++ RParen :: rest) = Ok (cs, rest).
Proof.
  induction cs as [|c [|c' cs] IH]; [done|done|]. cbn [fmap list_fmap between app column_list] in *. by rewrite IH.
Qed.

Lemma value_of_token t : is_value t = true → token_to_value_string t = Ok (part t).
Proof. by destruct t. Qed.

Lemma row_tokens row acc rest : Forall (λ v, is_value v = true) row →
  value_rows (Some acc) (between Comma ((λ v, [v]) <$> row) ++ RParen :: rest) = value_rows (Some (acc ++ (part <$> row))) (RParen :: rest).
Proof.
  intros H. revert acc. induction H as [|v row Hv Hrow IH]; intros acc; [by rewrite app_nil_r|].
  assert (∀ ts, value_rows (Some acc) (v :: ts) = value_rows (Some (acc ++ [part v])) ts) as Hstep
    by (intros ts; by destruct v).
  destruct row as [|v' row]; cbn [fmap list_fmap between app] in *; rewrite Hstep; [done|].
  cbn [value_rows]. specialize (IH (acc ++ [part v])). cbn [value_rows] in IH. rewrite IH.
  by rewrite <- app_assoc.
Qed.

Lemma rows_tokens rows : rows ≠ [] → Forall (Forall (λ v, is_value v = true)) rows →
  value_rows None (between Comma ((λ row, LParen :: between Comma ((λ v, [v]) <$> row) ++ [RParen]) <$> rows) ++ [EOF])
  = Ok ((λ row : list Token, part <$> row) <$> rows).
Proof.
  intros _ H. induction H as [|row rows Hrow Hrows IH]; [done|]. destruct rows as [|row' rows].
  - cbn [fmap list_fmap between app value_rows]. rewrite <- app_assoc. cbn [app]. by rewrite row_tokens.
  - cbn [fmap list_fmap between app value_rows] in *. rewrite <- !app_assoc. cbn [app]. rewrite row_tokens by done.
    cbn [app value_rows]. rewrite <- app_assoc in IH. cbn [app] in IH. by rewrite IH.
Qed.

Lemma collect_all stop ts rest : Forall (λ t, stop t = false) ts → (∀ t r, rest = t :: r → stop t = true) →
  collect stop (ts ++ rest) = (part <$> ts, rest).
Proof.
  intros H Hr. induction H as [|t ts Ht Hts IH]; cbn [app collect]; [|by rewrite Ht, IH].
  destruct rest as [|t r]; [done|]. cbn [collect]. by rewrite (Hr t r).
Qed.

Lemma where_cond c : from_option (Forall (λ t, is_end t = false)) True c → where_text (cond_tokens c ++ [EOF]) = parts <$> c.
Proof.
  destruct c as [ts|]; [|done]. cbn. intros H. unfold collect_rest. rewrite (collect_all is_end ts [EOF]); [done..|].
  by intros ? ? [= <- <-].
Qed.

Lemma cond_stops c t r : cond_tokens c ++ [EOF] = t :: r → stops_expression t = true.
Proof. destruct c; by intros [= <- <-]. Qed.

Lemma set_tokens sets c fuel : sets ≠ [] → Forall (λ '(_, e), Forall (λ t, stops_expression t = false) e) sets →
  let ts := between Comma ((λ '(col, e), Ident col :: Op (K "=") :: e) <$> sets) ++ cond_tokens c ++ [EOF] in
  (length ts < fuel)%nat → set_list fuel ts = Some (Ok ((λ '(col, e), (col, parts e)) <$> sets, cond_tokens c ++ [EOF])).
Proof.
  intros Hne H. revert Hne fuel. induction H as [|[col e] sets He Hsets IH]; [done|]. intros _ fuel ts Hf.
  destruct fuel as [|fuel]; [lia|]. subst ts. destruct sets as [|s' sets].
  - cbn [fmap list_fmap between app set_list]. unfold collect_expression.
    rewrite collect_all by (done || apply cond_stops). change (text_eqb (K "=") (K "=")) with true. cbv iota beta.
    fold (parts e). by destruct c.
  - specialize (IH ltac:(done)). cbn [fmap list_fmap between] in *. rewrite <- !app_assoc in *. cbn [app set_list] in *.
    change (text_eqb (K "=") (K "=")) with true. cbv iota. unfold collect_expression.
    rewrite collect_all by (done || by intros ? ? [= <- <-]). rewrite IH; [done|].
    rewrite !length_app in *. cbn [length] in *. repeat (rewrite !length_app in Hf; cbn [length] in Hf). lia.
Qed.

Lemma dml_print_tokens s : wf s → parse_dml_tokens (print s ++ [EOF]) = Some (Ok (Some (meaning s))).
Proof.
  destruct s as [sc n cols rows|sc n sets c|sc n c]; cbn [wf].
  - intros [Hne Hv]. unfold parse_dml_tokens, print. cbn [app]. change (text_eqb (K "INSERT") (K "INSERT")) with true. cbv iota.
    unfold parse_insert. cbn [expect_keyword]. change (text_eqb (K "INTO") (K "INTO")) with true. cbn [mbind result_bind].
    rewrite <- !app_assoc. rewrite qualified_name_tokens by (destruct cols; done). cbn [mbind result_bind].
    destruct cols as [cs|].
    + cbn [app]. rewrite <- app_assoc. cbn [app]. rewrite column_list_tokens. cbn [mbind result_bind app expect_keyword].
      change (text_eqb (K "VALUES") (K "VALUES")) with true. cbn [mbind result_bind]. by rewrite rows_tokens.
    + cbn [mbind result_bind app expect_keyword].
      change (text_eqb (K "VALUES") (K "VALUES")) with true. cbn [mbind result_bind]. by rewrite rows_tokens.
  - intros (Hne & He & Hc). unfold parse_dml_tokens, print. cbn [app].
    change (text_eqb (K "UPDATE") (K "INSERT")) with false. change (text_eqb (K "UPDATE") (K "UPDATE")) with true. cbv iota.
    unfold parse_update. rewrite <- !app_assoc. rewrite qualified_name_tokens by done. cbn [mbind result_bind app expect_keyword].
    change (text_eqb (K "SET") (K "SET")) with true. cbn [mbind result_bind]. rewrite <- !app_assoc.
    rewrite set_tokens by (done || lia). cbn [mbind option_bind result_bind]. by rewrite where_cond.
  - intros Hc. unfold parse_dml_tokens, print. cbn [app].
    change (text_eqb (K "DELETE") (K "INSERT")) with false. change (text_eqb (K "DELETE") (K "UPDATE")) with false.
    change (text_eqb (K "DELETE") (K "DELETE")) with true. cbv iota. unfold parse_delete. cbn [expect_keyword].
    change (text_eqb (K "FROM") (K "FROM")) with true. cbn [mbind result_bind]. rewrite <- !app_assoc.
    rewrite qualified_name_tokens by (by destruct c). cbn [mbind result_bind]. by rewrite where_cond.
Qed.

(** ** Conditions are read twice

    The engine tokenizes the text of a condition again. *)

(** Tokens whose text in a condition is the way they are written. *)
Definition plain_token (t : Token) : Prop :=
  tok_wf uni_alnum uni_upper t ∧ is_end t = false ∧
  match t with Str s => QUOTE ∉ s | Float f => fmt_float f = f | _ => True end.

Lemma dml_escape_plain s : QUOTE ∉ s → escape s = s.
Proof.
  induction s as [|c s IH]; intros H; [done|]. unfold escape. cbn [fmap list_fmap concat]. fold (escape s).
  rewrite (proj2 (Z.eqb_neq c QUOTE)) by set_solver. cbn [app]. by rewrite IH by set_solver.
Qed.

Lemma part_render t : plain_token t → part t = render t.
Proof.
  intros (Hw & He & Hp). destruct t; try done; cbn [part render].
  - cbn in Hw. unfold fmt_i64. rewrite (proj2 (Z.ltb_ge _ _)) by lia. done.
  - unfold quoted. by rewrite dml_escape_plain.
Qed.

Lemma parts_render ts : Forall plain_token ts → ts ≠ [] → parts ts ++ [32] = render_all ts.
Proof.
  intros H Hne. unfold parts. destruct H as [|t ts Ht Hts]; [done|].
  assert (concat ((λ q, 32 :: q) <$> (part <$> ts)) ++ [32] = 32 :: render_all ts) as E.
  { induction Hts as [|t' ts Ht' Hts IH]; [done|]. cbn [fmap list_fmap concat app]. rewrite <- app_assoc, IH, (part_render t') by done.
    unfold render_all. cbn [fmap list_fmap concat]. by rewrite <- app_assoc. }
  cbn [fmap list_fmap join_sp]. rewrite <- app_assoc, E, (part_render t) by done.
  unfold render_all. cbn [fmap list_fmap concat]. by rewrite <- app_assoc.
Qed.

Lemma condition_reread ts : Forall plain_token ts → tokenize uni_alnum uni_upper (parts ts) = Some (Ok (ts ++ [EOF])).
Proof.
  intros H. destruct (decide (ts = [])) as [->|Hne]; [reflexivity|]. apply tokenize_space. rewrite parts_render by done.
  apply lex_loop_render; [|lia]. eapply Forall_impl; [|exact H]. by intros t [].
Qed.

(** C31: INSERT, UPDATE and DELETE are read back. Any statement of the grammar (at least
    one row of single-token values, or at least one assignment; assigned expressions
    without a comma or WHERE, conditions without a semicolon), written out with a space
    after each token, parses to itself: the table with its schema, the columns, the rows
    or assignments and the condition, the last three as text. And the text of a condition
    tokenizes to the condition's own tokens again when the engine evaluates it, provided
    no string in it contains a quote (see [quote_breaks_condition]) and every float in it
    is written in its shortest form: [1.0] is stored as [1], which reads back as an
    integer (see [float_becomes_integer]). *)
Theorem dml_roundtrip (s : statement) (Hwf : wf s) (Htok : Forall (tok_wf uni_alnum uni_upper) (print s)) :
  parse_dml (render_all (print s)) = Some (Ok (Some (meaning s))) ∧
  ∀ ts, Forall plain_token ts → tokenize uni_alnum uni_upper (parts ts) = Some (Ok (ts ++ [EOF])).
Proof.
  split; [|apply condition_reread]. unfold parse_dml, tokenize. rewrite (lex_loop_render uni_alnum uni_upper) by (done || lia).
  cbn [mbind option_bind]. by apply dml_print_tokens.
Qed.
End dml.

(** A doubled quote is a single one in the token and stays single in the text of the
    condition: [name = 'O''Brien'] is tokenized a second time as [name = 'O' Brien '] and
    the statement fails. *)
Theorem quote_breaks_condition :
  let tokens := [Keyword (K "DELETE"); Keyword (K "FROM"); Ident (K "t"); Keyword (K "WHERE"); Ident (K "name"); Op (K "="); Str (K "O'Brien")] in
  parse_dml (λ _, true) (λ c, [c]) id (render_all tokens) = Some (Ok (Some (DDelete (mkDelete (K "t") (Some (K "name = 'O'Brien'")))))) ∧
  tokenize (λ _, true) (λ c, [c]) (K "name = 'O'Brien'") = Some (Err EUnterminatedString).
Proof. by vm_compute. Qed.

(** [1.0] is printed as [1] by [f64::to_string]: the condition [x = 1.0] is stored as [x = 1]
    and its literal is an integer when it is tokenized again. *)
Theorem float_becomes_integer :
  let shortest f := if bool_decide (f = K "1.0") then K "1" else f in
  let tokens := [Keyword (K "DELETE"); Keyword (K "FROM"); Ident (K "t"); Keyword (K "WHERE"); Ident (K "x"); Op (K "="); Float (K "1.0")] in
  parse_dml (λ _, true) (λ c, [c]) shortest (render_all tokens) = Some (Ok (Some (DDelete (mkDelete (K "t") (Some (K "x = 1")))))) ∧
  tokenize (λ _, true) (λ c, [c]) (K "x = 1") = Some (Ok [Ident (K "x"); Op (K "="); Int 1; EOF]).
Proof. by vm_compute. Qed.

Lemma ident_wf uni_alnum uni_upper c w : is_lower c || is_upper c || Z.eqb c 95 = true → forallb (id_char uni_alnum) w = true →
  bool_decide (to_uppercase uni_upper (c :: w) ∉ KEYWORDS) = true → tok_wf uni_alnum uni_upper (Ident (c :: w)).
Proof.
  intros H1 H2 H3%bool_decide_eq_true_1. exists c, w. split_and!; [done..| |done].
  apply list.Forall_forall. intros x Hx. rewrite forallb_forall in H2. apply H2. by apply list_elem_of_In.
Qed.

(** [UPDATE s.t SET a = b + 1, c = 'x' WHERE id = 3]. *)
Definition demo_update : statement :=
  SUpdate (Some (K "s")) (K "t") [(K "a", [Ident (K "b"); Op (K "+"); Int 1]); (K "c", [Str (K "x")])]
    (Some [Ident (K "id"); Op (K "="); Int 3]).

Lemma dml_roundtrip_witness :
  parse_dml (λ _, true) (λ c, [c]) id (render_all (print demo_update)) =
    Some (Ok (Some (DUpdate (mkUpdate (K "s.t") [(K "a", K "b + 1"); (K "c", K "'x'")] (Some (K "id = 3")))))) ∧
  ∀ ts, Forall (plain_token (λ _, true) (λ c, [c]) id) ts → tokenize (λ _, true) (λ c, [c]) (parts id ts) = Some (Ok (ts ++ [EOF])).
Proof.
  apply (dml_roundtrip (λ _, true) (λ c, [c]) id demo_update).
  - split; [done|]. split; repeat constructor.
  - unfold demo_update. cbn [print name_tokens between fmap list_fmap app cond_tokens].
    repeat (apply Forall_cons_2; [first [apply ident_wf; vm_compute; reflexivity | cbn [tok_wf]; first [exact I | lia | apply (bool_decide_unpack _); vm_compute; exact I]]|]).
    apply Forall_nil_2.
Defined.
End DmlM.
