(* ===== verification/Window.v ===== *)
(** * Window functions (src/src/exec/window.rs and apply_window_functions of
    src/src/engine/mod.rs)

    The specification of an OVER clause read from its text, the partitions, and the
    functions over them.  The order in which a hash map yields its keys is a parameter.
    [to_uppercase] is applied word by word: it changes no white space. *)

From Stdlib Require Import ZArith Lia Ascii String Sorting.Sorted.
From stdpp Require Import prelude list numbers sorting gmap.
From S2P Require Import Prelude Result Sorting Lexer Parser Recovery.
Local Open Scope Z_scope.

Module WindowM.
Import LexerM ParserM ResultM SortingM.

Record WindowSpec := mkSpec {
  partition_by : list text; order_by : list (text * bool);
  frame_type : option text; frame_start : option text; frame_end : option text
}.

Definition empty_spec : WindowSpec := mkSpec [] [] None None None.

(** ** The specification *)

(** [s.split_whitespace()]: the word at the front, if any, and the words after it. *)
Fixpoint words (s : text) : text * list text :=
  match s with
  | [] => ([], [])
  | c :: s =>
    let '(w, ws) := words s in
    if RecoveryM.is_whitespace c then ([], if bool_decide (w = []) then ws else w :: ws) else (c :: w, ws)
  end.
Definition split_whitespace (s : text) : list text :=
  let '(w, ws) := words s in if bool_decide (w = []) then ws else w :: ws.

Definition trim_end_matches (c : Z) (s : text) : text := reverse (trim_start c (reverse s)).
Definition starts_with (p s : text) : bool := bool_decide (take (length p) s = p).

Section spec.
Context (uni_upper : Z → list Z).
Definition up (s : text) : text := to_uppercase uni_upper s.

(** [if upper_tokens[i] == kw { i += 1 }]. *)
Definition skip_word (kw : text) (ts : list text) : list text :=
  match ts with t :: ts' => if text_eqb (up t) kw then ts' else ts | [] => [] end.

Fixpoint partition_cols (ts : list text) : list text * list text :=
  match ts with
  | [] => ([], [])
  | t :: ts' =>
    if bool_decide (up t ∈ [K "ORDER"; K "ROWS"; K "RANGE"]) then ([], ts)
    else let '(cs, rest) := partition_cols ts' in (trim_end_matches 44 t :: cs, rest)
  end.

Fixpoint order_cols (ts : list text) : list (text * bool) * list text :=
  match ts with
  | [] => ([], [])
  | t :: ts' =>
    if bool_decide (up t ∈ [K "ROWS"; K "RANGE"; K "PARTITION"]) || starts_with (K "DESC") (up t) || starts_with (K "ASC") (up t)
    then ([], ts)
    else if text_eqb t [44] then order_cols ts'
    else
      let col := trim_end_matches 44 t in
      if bool_decide (col = []) then order_cols ts'
      else
        match ts' with
        | v :: ts'' =>
          let ut := trim_end_matches 44 (up v) in
          if text_eqb ut (K "DESC") then let '(cs, rest) := order_cols ts'' in ((col, false) :: cs, rest)
          else if text_eqb ut (K "ASC") then let '(cs, rest) := order_cols ts'' in ((col, true) :: cs, rest)
          else let '(cs, rest) := order_cols ts' in ((col, true) :: cs, rest)
        | [] => ([(col, true)], [])
        end
  end.

(** Trailing directions. *)
Fixpoint skip_directions (ts : list text) : list text :=
  match ts with
  | t :: ts' => if bool_decide (trim_end_matches 44 (up t) ∈ [K "DESC"; K "ASC"; [44]]) then skip_directions ts' else ts
  | [] => []
  end.

(** A frame bound: [UNBOUNDED x], [CURRENT ROW] or [n x]. *)
Definition frame_bound (ts : list text) : option text * list text :=
  match ts with
  | [] => (None, [])
  | t :: ts' =>
    if text_eqb (up t) (K "UNBOUNDED") then
      match ts' with v :: rest => (Some (K "UNBOUNDED " ++ up v), rest) | [] => (None, []) end
    else if text_eqb (up t) (K "CURRENT") then
      match ts' with
      | v :: rest => if text_eqb (up v) (K "ROW") then (Some (K "CURRENT ROW"), rest) else (None, ts')
      | [] => (None, [])
      end
    else match ts' with v :: rest => (Some (t ++ 32 :: up v), rest) | [] => (None, []) end
  end.

(** A frame without its bounds leaves those of an earlier one in place. *)
Definition set_frame (ty : text) (s e : option text) (sp : WindowSpec) : WindowSpec :=
  mkSpec (partition_by sp) (order_by sp) (Some ty)
    (match s with Some _ => s | None => frame_start sp end) (match e with Some _ => e | None => frame_end sp end).

Fixpoint spec_loop (fuel : nat) (ts : list text) (sp : WindowSpec) : WindowSpec :=
  match fuel, ts with
  | O, _ | _, [] => sp
  | S fuel, t :: ts' =>
    if text_eqb (up t) (K "PARTITION") then
      let '(cs, rest) := partition_cols (skip_word (K "BY") ts') in
      spec_loop fuel rest (mkSpec (partition_by sp ++ cs) (order_by sp) (frame_type sp) (frame_start sp) (frame_end sp))
    else if text_eqb (up t) (K "ORDER") then
      let '(cs, rest) := order_cols (skip_word (K "BY") ts') in
      spec_loop fuel (skip_directions rest)
        (mkSpec (partition_by sp) (order_by sp ++ cs) (frame_type sp) (frame_start sp) (frame_end sp))
    else if text_eqb (up t) (K "ROWS") || text_eqb (up t) (K "RANGE") then
      let '(s, rest) := frame_bound (skip_word (K "BETWEEN") ts') in
      let '(e, rest) :=
        match rest with
        | v :: rest' => if text_eqb (up v) (K "AND") then frame_bound rest' else (None, rest)
        | [] => (None, [])
        end in
      spec_loop fuel rest (set_frame (up t) s e sp)
    else spec_loop fuel ts' sp
  end.

(** It always returns [Ok]. *)
Definition parse_window_spec (s : text) : WindowSpec :=
  let ts := split_whitespace s in spec_loop (length ts) ts empty_spec.
End spec.

(** ** Partitions and order *)
Definition find_col_idx (r : QueryResult) (n : text) : option nat :=
  fst <$> list_find (λ c, name c = n) (columns r).

Definition value_at (r : QueryResult) (idx : option nat) (row : nat) : Z :=
  default 0 (i ← idx; c ← columns r !! i; values c !! row).

Definition rotate_left13 (k : Z) : Z := Z.lor (wrap_u 64 (Z.shiftl k 13)) (Z.shiftr k 51).

Definition row_key (r : QueryResult) (cols : list (option nat)) (row : nat) : Z :=
  fold_left (λ key idx, Z.lxor (rotate_left13 key) (value_at r idx row)) cols 0.

(** Comparison on the ORDER BY columns. *)
Fixpoint cmp_rows (r : QueryResult) (ob : list (text * bool)) (a b : nat) : comparison :=
  match ob with
  | [] => Eq
  | (n, asc) :: ob =>
    let idx := find_col_idx r n in
    match Z.compare (value_at r idx a) (value_at r idx b) with
    | Eq => cmp_rows r ob a b
    | c => if asc : bool then c else CompOpp c
    end
  end.

Definition sort_rows (r : QueryResult) (rows : list nat) (ob : list (text * bool)) : list nat :=
  if bool_decide (ob = []) then rows else sort_by (cmp_rows r ob) rows.

Definition rows_equal_on_order_cols (r : QueryResult) (a b : nat) (ob : list (text * bool)) : bool :=
  forallb (λ c : text * bool,
    match find_col_idx r c.1 with
    | Some i => Z.eqb (value_at r (Some i) a) (value_at r (Some i) b)
    | None => true
    end) ob.

Section functions.
Context (hash_order : list Z → list Z).

Definition partition_rows (r : QueryResult) (pb : list text) : list (Z * list nat) :=
  if bool_decide (pb = []) then [(0, seq 0 (row_count r))]
  else
    let cols := find_col_idx r <$> pb in
    let keys := row_key r cols <$> seq 0 (row_count r) in
    (λ k, (k, filter (λ row, row_key r cols row = k) (seq 0 (row_count r)))) <$> hash_order (remove_dups keys).

(** [for (_, row_idxs) in &partitions { .. }] over [vec![init; n]]. *)
Definition over_partitions (r : QueryResult) (spec : WindowSpec) (init : Z)
    (body : list nat → list nat → list Z → list Z) : list Z :=
  if bool_decide (row_count r = 0%nat) then []
  else fold_left (λ out g, body g.2 (sort_rows r g.2 (order_by spec)) out) (partition_rows r (partition_by spec))
         (replicate (row_count r) init).

(** [for (rank, &row_idx) in sorted.iter().enumerate()]. *)
Fixpoint number_loop (i : nat) (sorted : list nat) (out : list Z) : list Z :=
  match sorted with
  | [] => out
  | row :: sorted => number_loop (S i) sorted (<[row := Z.of_nat (i + 1)]> out)
  end.

Definition row_number (r : QueryResult) (spec : WindowSpec) : list Z :=
  over_partitions r spec 0 (λ _ sorted out, number_loop 0 sorted out).

Fixpoint rank_loop (r : QueryResult) (ob : list (text * bool)) (i : nat) (prev : option nat) (sorted : list nat) (out : list Z) : list Z :=
  match sorted with
  | [] => out
  | row :: sorted =>
    let v := match prev with
             | None => 1
             | Some p => if rows_equal_on_order_cols r p row ob then nth p out 0 else Z.of_nat (i + 1)
             end in
    rank_loop r ob (S i) (Some row) sorted (<[row := v]> out)
  end.

Definition rank (r : QueryResult) (spec : WindowSpec) : list Z :=
  over_partitions r spec 0 (λ _ sorted out, rank_loop r (order_by spec) 0 None sorted out).

Fixpoint dense_loop (r : QueryResult) (ob : list (text * bool)) (current : Z) (prev : option nat) (sorted : list nat) (out : list Z) : list Z :=
  match sorted with
  | [] => out
  | row :: sorted =>
    let current := match prev with
                   | None => 1
                   | Some p => if rows_equal_on_order_cols r p row ob then current else wrapping_add current 1
                   end in
    dense_loop r ob current (Some row) sorted (<[row := current]> out)
  end.

Definition dense_rank (r : QueryResult) (spec : WindowSpec) : list Z :=
  over_partitions r spec 0 (λ _ sorted out, dense_loop r (order_by spec) 0 None sorted out).

Fixpoint sum_loop (r : QueryResult) (col_idx : option nat) (running_sum : Z) (sorted : list nat) (out : list Z) : list Z :=
  match sorted with
  | [] => out
  | row :: sorted =>
    let running_sum := match col_idx with
                       | Some i => wrapping_add running_sum (value_at r (Some i) row)
                       | None => running_sum
                       end in
    sum_loop r col_idx running_sum sorted (<[row := running_sum]> out)
  end.

Definition sum_over (r : QueryResult) (col_name : text) (spec : WindowSpec) : list Z :=
  over_partitions r spec 0 (λ _ sorted out, sum_loop r (find_col_idx r col_name) 0 sorted out).

Fixpoint fill (rows : list nat) (v : Z) (out : list Z) : list Z :=
  match rows with [] => out | row :: rows => fill rows v (<[row := v]> out) end.

Definition count_over (r : QueryResult) (spec : WindowSpec) : list Z :=
  over_partitions r spec 0 (λ rows sorted out,
    if bool_decide (order_by spec = []) then fill rows (Z.of_nat (length rows)) out else number_loop 0 sorted out).

(** [sorted[i - offset]], resp. [sorted[i + offset]] (in [usize]), where there is such a row. *)
Fixpoint shift_loop (r : QueryResult) (col_idx : option nat) (default_ : Z) (source : nat → option nat) (i : nat)
    (rows : list nat) (out : list Z) : list Z :=
  match rows with
  | [] => out
  | row :: rows =>
    let out := match source i, col_idx with
               | Some other, Some c => <[row := default default_ (col ← columns r !! c; values col !! other)]> out
               | _, _ => out
               end in
    shift_loop r col_idx default_ source (S i) rows out
  end.

Definition lag (r : QueryResult) (col_name : text) (offset : nat) (default_ : Z) (spec : WindowSpec) : list Z :=
  over_partitions r spec default_ (λ _ sorted out,
    shift_loop r (find_col_idx r col_name) default_
      (λ i, if bool_decide (offset <= i)%nat then sorted !! (i - offset)%nat else None) 0 sorted out).

Definition lead (r : QueryResult) (col_name : text) (offset : nat) (default_ : Z) (spec : WindowSpec) : list Z :=
  over_partitions r spec default_ (λ _ sorted out,
    shift_loop r (find_col_idx r col_name) default_
      (λ i, sorted !! Z.to_nat (wrapping_add (Z.of_nat i) (Z.of_nat offset))) 0 sorted out).

Definition first_value (r : QueryResult) (col_name : text) (spec : WindowSpec) : list Z :=
  over_partitions r spec 0 (λ rows sorted out,
    match sorted with
    | first :: _ => fill rows (value_at r (find_col_idx r col_name) first) out
    | [] => out
    end).
End functions.

(** [apply_window_functions]: one column per window item of the select list. *)
Section apply.
Context (hash_order : list Z → list Z) (uni_upper : Z → list Z) (to_lowercase : text → text).

Definition window_column (r : QueryResult) (item : SelectItem) : option ResultColumn :=
  match item with
  | SWindow func arg over_spec alias =>
    let spec := parse_window_spec uni_upper over_spec in
    let func_upper := up uni_upper func in
    let n := default (to_lowercase func) alias in
    if text_eqb func_upper (K "ROW_NUMBER") then Some (plain n (row_number hash_order r spec))
    else if text_eqb func_upper (K "RANK") then Some (plain n (rank hash_order r spec))
    else if text_eqb func_upper (K "DENSE_RANK") then Some (plain n (dense_rank hash_order r spec))
    else if text_eqb func_upper (K "SUM") then Some (plain n (sum_over hash_order r arg spec))
    else if text_eqb func_upper (K "COUNT") then Some (plain n (count_over hash_order r spec))
    else None
  | _ => None
  end.

Definition apply_window_functions (r : QueryResult) (q : SelectQuery) : QueryResult :=
  mkResult (columns r ++ omap (window_column r) (select q)) (row_count r).
End apply.

(** ** The order of rows *)
Section order.
Context (r : QueryResult) (ob : list (text * bool)).
Abbreviation cmp := (cmp_rows r ob).

(** The stable order: by the ORDER BY columns, then by position. *)
Definition before (a b : nat) : Prop := cmp a b = Lt ∨ cmp a b = Eq ∧ (a < b)%nat.

#[global] Instance before_dec a b : Decision (before a b).
Proof. unfold before. apply _. Defined.
End order.

Lemma cmp_refl r ob a : cmp_rows r ob a a = Eq.
Proof. induction ob as [|[n asc] ob IH]; [done|]. simpl. by rewrite Z.compare_refl. Qed.

Lemma cmp_opp r ob a b : cmp_rows r ob b a = CompOpp (cmp_rows r ob a b).
Proof.
  induction ob as [|[n asc] ob IH]; [done|]. simpl. rewrite Z.compare_antisym.
  destruct (Z.compare _ _); simpl; [done|by destruct asc..].
Qed.

Lemma cmp_eq_trans r ob a b c : cmp_rows r ob a b = Eq → cmp_rows r ob b c = cmp_rows r ob a c.
Proof.
  induction ob as [|[n asc] ob IH]; [done|]. simpl. destruct (Z.compare (value_at r _ a) (value_at r _ b)) eqn:E.
  - apply Z.compare_eq in E. rewrite E. intros H. destruct (Z.compare _ _); auto.
  - by destruct asc.
  - by destruct asc.
Qed.

Lemma cmp_lt_trans r ob a b c : cmp_rows r ob a b = Lt → cmp_rows r ob b c ≠ Gt → cmp_rows r ob a c = Lt.
Proof.
  induction ob as [|[n asc] ob IH]; [done|]. simpl. intros H1 H2.
  destruct (Z.compare_spec (value_at r (find_col_idx r n) a) (value_at r (find_col_idx r n) b)) as [E|E|E];
  destruct (Z.compare_spec (value_at r (find_col_idx r n) b) (value_at r (find_col_idx r n) c)) as [E'|E'|E'];
  destruct (Z.compare_spec (value_at r (find_col_idx r n) a) (value_at r (find_col_idx r n) c)) as [E''|E''|E''];
  try lia; auto; destruct asc; simpl in *; congruence.
Qed.

#[global] Instance cmp_rows_ordering r ob : Ordering (cmp_rows r ob).
Proof. split; [apply cmp_opp|apply cmp_eq_trans|apply cmp_lt_trans]. Qed.

Lemma before_total r ob a b : a ≠ b → before r ob a b ∨ before r ob b a.
Proof.
  intros H. unfold before. rewrite (cmp_opp r ob a b). destruct (cmp_rows r ob a b); simpl; [|auto..].
  destruct (decide (a < b)%nat); [left; right; done|right; right; split; [done|lia]].
Qed.

Lemma before_asym r ob a b : before r ob a b → ¬ before r ob b a.
Proof. unfold before. rewrite (cmp_opp r ob a b). destruct (cmp_rows r ob a b); simpl; intuition (lia || congruence). Qed.

(** ** Sorting *)
Section sorting.
Context (r : QueryResult) (ob : list (text * bool)).
Abbreviation R := (before r ob).

Lemma sort_rows_perm l : sort_rows r l ob ≡ₚ l.
Proof. unfold sort_rows. case_bool_decide; [done|]. apply sort_by_perm. Qed.

Lemma sort_rows_sorted l : StronglySorted lt l → StronglySorted R (sort_rows r l ob).
Proof.
  intros H. unfold sort_rows. case_bool_decide as E; [|by apply (sort_by_sorted _)].
  rewrite E. induction H as [|x l Hs IH Hx]; constructor; [done|].
  apply (Forall_impl _ _ _ Hx). intros y Hy. by right.
Qed.

(** In a list sorted by [before], the rows before the one at index [i] are the [i] rows
    in front of it. *)
Lemma sorted_index l i x :
  StronglySorted R l → l !! i = Some x → length (filter (λ y, R y x) l) = i.
Proof.
  intros Hs. revert i. induction Hs as [|y l Hs IH Hy]; intros i Hi; [done|]. destruct i as [|i]; simplify_eq/=.
  - rewrite filter_cons_False by (intros H; by apply (before_asym _ _ _ _ H)).
    assert (filter (λ y, R y x) l = []) as ->; [|done].
    apply elem_of_nil_inv. intros z [Hz Hin]%list_elem_of_filter. rewrite list.Forall_forall in Hy.
    by apply (before_asym _ _ _ _ Hz), Hy.
  - assert (R y x) as H by (rewrite list.Forall_forall in Hy; apply Hy; by eapply list_elem_of_lookup_2).
    rewrite filter_cons_True by done. simpl. by rewrite (IH i Hi).
Qed.
End sorting.

Lemma rows_equal_cmp r ob a b : rows_equal_on_order_cols r a b ob = true ↔ cmp_rows r ob a b = Eq.
Proof.
  induction ob as [|[n asc] ob IH]; [done|]. cbn [rows_equal_on_order_cols forallb cmp_rows fst]. rewrite andb_true_iff.
  fold (rows_equal_on_order_cols r a b ob). destruct (find_col_idx r n) as [i|] eqn:E.
  - rewrite Z.eqb_eq. destruct (Z.compare_spec (value_at r (Some i) a) (value_at r (Some i) b)) as [H|H|H]; [tauto| |];
      (split; [lia|by destruct asc]).
  - change (value_at r None a) with 0. change (value_at r None b) with 0. simpl. tauto.
Qed.

(** ** Loops that write one cell per row *)

(** [out'] is [out] with [f k] written at the [k]th row of [s]. *)
Definition writes (s : list nat) (f : nat → Z) (out out' : list Z) : Prop :=
  length out' = length out ∧ (∀ k row, s !! k = Some row → out' !! row = Some (f k)) ∧
  (∀ row, row ∉ s → out' !! row = out !! row).

Lemma writes_nil f out : writes [] f out out.
Proof. split_and!; [done|done|done]. Qed.

Lemma writes_cons row s f out out' :
  row ∉ s → (row < length out)%nat → writes s (λ k, f (S k)) (<[row := f 0%nat]> out) out' → writes (row :: s) f out out'.
Proof.
  intros Hn Hl (H1 & H2 & H3). rewrite length_insert in H1. split_and!; [done| |].
  - intros [|k] row' Hk; simplify_eq/=; [|by apply H2]. rewrite H3 by done. by apply list_lookup_insert_eq.
  - intros row' [Hne Hs]%not_elem_of_cons. rewrite H3 by done. by apply list_lookup_insert_ne.
Qed.

Lemma writes_skip row s f out out' :
  row ∉ s → out !! row = Some (f 0%nat) → writes s (λ k, f (S k)) out out' → writes (row :: s) f out out'.
Proof.
  intros Hn Hl (H1 & H2 & H3). split_and!; [done| |].
  - intros [|k] row' Hk; simplify_eq/=; [|by apply H2]. by rewrite H3.
  - intros row' [Hne Hs]%not_elem_of_cons. by apply H3.
Qed.

Lemma writes_ext s f g out out' : (∀ k row, s !! k = Some row → f k = g k) → writes s f out out' → writes s g out out'.
Proof. intros H (H1 & H2 & H3). split_and!; [done| |done]. intros k row Hk. rewrite <- (H k row Hk). by apply H2. Qed.

Definition in_range (s : list nat) (out : list Z) : Prop := Forall (λ row, (row < length out)%nat) s.

Lemma in_range_insert s out row v : in_range s out → in_range s (<[row := v]> out).
Proof. unfold in_range. by rewrite length_insert. Qed.

Lemma number_loop_writes s i out :
  NoDup s → in_range s out → writes s (λ k, Z.of_nat (i + k + 1)) out (number_loop i s out).
Proof.
  intros Hnd. revert i out. induction Hnd as [|row s Hn Hnd IH]; intros i out Hr; [apply writes_nil|].
  apply Forall_cons_1 in Hr as [Hrow Hr]. cbn [number_loop]. apply writes_cons; [done|done|]. rewrite Nat.add_0_r.
  eapply writes_ext; [|apply (IH (S i)); by apply in_range_insert]. intros k row' _. simpl. f_equal. lia.
Qed.

Lemma fill_writes s v out : NoDup s → in_range s out → writes s (λ _, v) out (fill s v out).
Proof.
  intros Hnd. revert out. induction Hnd as [|row s Hn Hnd IH]; intros out Hr; [apply writes_nil|].
  apply Forall_cons_1 in Hr as [Hrow Hr]. cbn [fill]. apply writes_cons; [done|done|]. by apply IH, in_range_insert.
Qed.

(** The cell that [lag] and [lead] read. *)
Definition shifted (r : QueryResult) (c : option nat) (d : Z) (other : option nat) : Z :=
  match other, c with Some o, Some c => default d (col ← columns r !! c; values col !! o) | _, _ => d end.

Lemma shift_loop_writes r c d source s i out :
  NoDup s → in_range s out → (∀ x, x ∈ s → out !! x = Some d) →
  writes s (λ k, shifted r c d (source (i + k)%nat)) out (shift_loop r c d source i s out).
Proof.
  intros Hnd. revert i out. induction Hnd as [|row s Hn Hnd IH]; intros i out Hr Hinit; [apply writes_nil|].
  apply Forall_cons_1 in Hr as [Hrow Hr]. cbn [shift_loop].
  assert (∀ out', in_range s out' → (∀ x, x ∈ s → out' !! x = Some d) →
    writes s (λ k, shifted r c d (source (i + S k)%nat)) out' (shift_loop r c d source (S i) s out')) as Hs.
  { intros out' Hr' Hi'. eapply writes_ext; [|by apply (IH (S i))]. intros k row' _. simpl. by rewrite Nat.add_succ_r. }
  destruct (source i) as [o|] eqn:Eo, c as [c|];
    try (apply writes_skip; [done|rewrite Nat.add_0_r, Eo; apply Hinit; left|by apply Hs; [|intros; apply Hinit; right]]).
  pose proof (writes_cons row s (λ k, shifted r (Some c) d (source (i + k)%nat)) out) as W. cbn beta in W.
  rewrite Nat.add_0_r, Eo in W. apply W; [done|done|]. apply Hs; [by apply in_range_insert|].
  intros x Hx. rewrite list_lookup_insert_ne by congruence. apply Hinit. by right.
Qed.

(** The sum of the first rows of [s]. *)
Fixpoint sum_to (r : QueryResult) (idx : option nat) (acc : Z) (k : nat) (s : list nat) {struct s} : Z :=
  match s with
  | [] => acc
  | row :: s =>
    let acc := match idx with Some i => wrapping_add acc (value_at r (Some i) row) | None => acc end in
    match k with O => acc | S k => sum_to r idx acc k s end
  end.

Lemma sum_loop_writes r idx s acc out :
  NoDup s → in_range s out → writes s (λ k, sum_to r idx acc k s) out (sum_loop r idx acc s out).
Proof.
  intros Hnd. revert acc out. induction Hnd as [|row s Hn Hnd IH]; intros acc out Hr; [apply writes_nil|].
  apply Forall_cons_1 in Hr as [Hrow Hr]. cbn [sum_loop]. apply writes_cons; [done|done|].
  by apply IH, in_range_insert.
Qed.

Definition zsum (l : list Z) : Z := foldr Z.add 0 l.

Lemma sum_to_spec r idx acc k s row :
  s !! k = Some row → in_u 64 acc → sum_to r idx acc k s = wrap_u 64 (acc + zsum (value_at r idx <$> take (S k) s)).
Proof.
  revert acc k. induction s as [|x s IH]; intros acc k Hk Ha; [done|]. cbn [sum_to].
  set (acc' := match idx with Some i => wrapping_add acc (value_at r (Some i) x) | None => acc end).
  assert (in_u 64 acc') as Ha' by (subst acc'; destruct idx; [apply Z.mod_pos_bound; lia|done]).
  assert (∀ z, wrap_u 64 (acc' + z) = wrap_u 64 (acc + (value_at r idx x + z))) as E.
  { intros z. subst acc'. destruct idx as [i|]; [|done]. unfold wrapping_add, wrap_u.
    rewrite Z.add_mod_idemp_l by lia. f_equal. lia. }
  clearbody acc'. destruct k as [|k]; cbn [take fmap list_fmap zsum foldr].
  - rewrite take_0. cbn [fmap list_fmap foldr]. rewrite <- (E 0), Z.add_0_r. unfold wrap_u, in_u in *. by rewrite Z.mod_small by lia.
  - rewrite (IH acc' k Hk Ha'). apply E.
Qed.

(** *** Ranks *)
Section rank.
Context (r : QueryResult) (ob : list (text * bool)) (full : list nat) (Hfull : StronglySorted (before r ob) full).

Definition rank_of (row : nat) : Z := Z.of_nat (1 + length (filter (λ y, cmp_rows r ob y row = Lt) full)).

Lemma sorted_pair i j a b : full !! i = Some a → full !! j = Some b → (i < j)%nat → before r ob a b.
Proof.
  clear -Hfull. intros Hi Hj Hij. revert i j Hi Hj Hij. induction Hfull as [|y l Hs IH Hy]; [done|]. intros [|i] [|j] Hi Hj Hij; simplify_eq/=; try lia.
  - rewrite list.Forall_forall in Hy. apply Hy. by eapply list_elem_of_lookup_2.
  - eapply (IH Hs i j); eauto with lia.
Qed.

Lemma rank_first row : full !! 0%nat = Some row → rank_of row = 1.
Proof.
  intros H. unfold rank_of. assert (filter (λ y, cmp_rows r ob y row = Lt) full = []) as ->; [|done].
  apply elem_of_nil_inv. intros y [Hy Hin]%list_elem_of_filter. apply list_elem_of_lookup in Hin as [j Hj].
  destruct j as [|j]; [rewrite H in Hj; simplify_eq; by rewrite cmp_refl in Hy|].
  apply (before_asym r ob row y); [by eapply sorted_pair; [done|done|lia]|by left].
Qed.

Lemma rank_of_step i prev row :
  full !! i = Some prev → full !! S i = Some row →
  rank_of row = if rows_equal_on_order_cols r prev row ob then rank_of prev else Z.of_nat (S i + 1).
Proof.
  intros Hp Hr. pose proof (sorted_pair _ _ _ _ Hp Hr ltac:(lia)) as Hb. unfold rank_of.
  destruct (rows_equal_on_order_cols r prev row ob) eqn:E.
  - apply rows_equal_cmp in E. do 3 f_equal. apply filter_ext_elem. intros y _.
    rewrite (cmp_opp r ob prev y), (cmp_opp r ob row y), (cmp_eq_trans _ _ _ _ y E). done.
  - assert (cmp_rows r ob prev row = Lt) as Hlt.
    { destruct Hb as [Hb|[Hb _]]; [done|]. apply rows_equal_cmp in Hb. congruence. }
    rewrite (filter_ext_elem _ (λ y, before r ob y row)); [rewrite (sorted_index r ob full (S i) row) by done; lia|].
    intros y Hy. split; [by left|]. intros [H|[H Hlt']]; [done|exfalso].
    apply list_elem_of_lookup in Hy as [j Hj]. assert (j <= i)%nat as Hji.
    { apply Nat.le_ngt. intros Hj'. destruct (decide (j = S i)) as [->|]; [rewrite Hr in Hj; simplify_eq; lia|].
      apply (before_asym r ob row y); [by eapply sorted_pair; [done|done|lia]|by right]. }
    assert (cmp_rows r ob y prev ≠ Gt) as Hyp.
    { destruct (decide (j = i)) as [->|]; [rewrite Hp in Hj; simplify_eq; by rewrite cmp_refl|].
      destruct (sorted_pair j i y prev Hj Hp ltac:(lia)) as [->|[-> _]]; done. }
    destruct (cmp_rows r ob y prev) eqn:Ey; [|..|done].
    + rewrite <- (cmp_eq_trans _ _ _ _ row Ey), Hlt in H. done.
    + rewrite (cmp_lt_trans r ob y prev row) in H; [done|done|by rewrite Hlt].
Qed.

(** *** Dense ranks *)
Definition order_key (row : nat) : list Z := (λ c : text * bool, value_at r (find_col_idx r c.1) row) <$> ob.

Lemma order_key_eq a b : order_key a = order_key b ↔ cmp_rows r ob a b = Eq.
Proof.
  clear. unfold order_key. induction ob as [|[n asc] ob' IH]; [done|]. cbn [fmap list_fmap cmp_rows fst].
  destruct (Z.compare_spec (value_at r (find_col_idx r n) a) (value_at r (find_col_idx r n) b)) as [H|H|H].
  - rewrite <- IH, H. split; [by intros [= ?]|by intros ->].
  - split; [intros [= ? _]; lia|by destruct asc].
  - split; [intros [= ? _]; lia|by destruct asc].
Qed.

(** The sort keys strictly before that of a row. *)
Definition keys_before (row : nat) : gset (list Z) :=
  list_to_set (order_key <$> filter (λ y, cmp_rows r ob y row = Lt) full).

Lemma elem_keys_before k row : k ∈ keys_before row ↔ ∃ y, y ∈ full ∧ cmp_rows r ob y row = Lt ∧ k = order_key y.
Proof.
  unfold keys_before. rewrite elem_of_list_to_set, list_elem_of_fmap. setoid_rewrite list_elem_of_filter. naive_solver.
Qed.

Lemma before_next i prev row y :
  full !! i = Some prev → full !! S i = Some row → y ∈ full → cmp_rows r ob y row = Lt → cmp_rows r ob y prev ≠ Gt.
Proof.
  intros Hp Hr Hy Hlt. apply list_elem_of_lookup in Hy as [j Hj].
  destruct (decide (j = i)) as [->|]; [rewrite Hp in Hj; simplify_eq; by rewrite cmp_refl|].
  destruct (decide (j = S i)) as [->|]; [rewrite Hr in Hj; simplify_eq; by rewrite cmp_refl in Hlt|].
  destruct (decide (S i < j)%nat) as [Hj'|].
  - exfalso. apply (before_asym r ob y row); [by left|by apply (sorted_pair _ _ _ _ Hr Hj)].
  - destruct (sorted_pair j i y prev Hj Hp ltac:(lia)) as [->|[-> _]]; done.
Qed.

Lemma keys_before_step i prev row :
  full !! i = Some prev → full !! S i = Some row →
  size (keys_before row) = (size (keys_before prev) + if rows_equal_on_order_cols r prev row ob then 0 else 1)%nat.
Proof.
  intros Hp Hr. pose proof (sorted_pair _ _ _ _ Hp Hr ltac:(lia)) as Hb. destruct (rows_equal_on_order_cols r prev row ob) eqn:E.
  - apply rows_equal_cmp in E. rewrite Nat.add_0_r. f_equal. apply leibniz_equiv. intros k. rewrite !elem_keys_before.
    apply exist_proper. intros y. by rewrite (cmp_opp r ob prev y), (cmp_opp r ob row y), (cmp_eq_trans _ _ _ _ y E).
  - assert (cmp_rows r ob prev row = Lt) as Hlt.
    { destruct Hb as [Hb|[Hb _]]; [done|]. apply rows_equal_cmp in Hb. congruence. }
    assert (keys_before row ≡ {[order_key prev]} ∪ keys_before prev) as ->.
    { intros k. rewrite elem_of_union, elem_of_singleton, !elem_keys_before. split.
      - intros (y & Hy & Hyr & ->). pose proof (before_next _ _ _ _ Hp Hr Hy Hyr) as Hn.
        destruct (cmp_rows r ob y prev) eqn:Ey; [left; by apply order_key_eq|right; by exists y|done].
      - intros [->|(y & Hy & Hyp & ->)]; [exists prev; split_and!; [by eapply list_elem_of_lookup_2|done|done]|].
        exists y. split_and!; [done| |done]. apply (cmp_lt_trans r ob y prev row); [done|by rewrite Hlt]. }
    rewrite size_union, size_singleton; [lia|]. apply disjoint_singleton_l. intros (y & _ & Hy & Hk)%elem_keys_before.
    symmetry in Hk. apply order_key_eq in Hk. congruence.
Qed.

Lemma keys_before_first row : full !! 0%nat = Some row → size (keys_before row) = 0%nat.
Proof.
  intros H. pose proof (rank_first row H) as Hr. unfold rank_of in Hr. unfold keys_before.
  destruct (filter _ full); [done|]. simpl in Hr. lia.
Qed.

Lemma keys_before_size row : (size (keys_before row) <= length full)%nat.
Proof.
  unfold keys_before. etrans; [|apply (length_filter (λ y, cmp_rows r ob y row = Lt))]. rewrite <- (length_fmap order_key).
  induction (order_key <$> _) as [|k l IH]; [done|]. cbn [list_to_set length]. rewrite size_union_alt, size_singleton.
  pose proof (subseteq_size (list_to_set l ∖ {[k]}) (list_to_set l : gset (list Z)) ltac:(set_solver)). lia.
Qed.
End rank.

Lemma rank_loop_writes r ob full pre s prev out :
  StronglySorted (before r ob) full → full = pre ++ s → NoDup full → in_range full out →
  match prev with
  | None => pre = []
  | Some p => ∃ pre', pre = pre' ++ [p] ∧ nth p out 0 = rank_of r ob full p
  end →
  writes s (λ k, default 0 (rank_of r ob full <$> s !! k)) out (rank_loop r ob (length pre) prev s out).
Proof.
  intros Hs Hfull Hnd. revert pre prev out Hfull. induction s as [|row s IH]; intros pre prev out Hfull Hr Hp; [apply writes_nil|].
  cbn [rank_loop].
  assert (full !! length pre = Some row) as Hrow by (rewrite Hfull; by apply list_lookup_middle).
  assert (row < length out)%nat as Hlt by (eapply (Forall_lookup_1 _ _ _ _ Hr); exact Hrow).
  set (v := match prev with None => 1 | Some p => _ end). assert (v = rank_of r ob full row) as Hv.
  { subst v. destruct prev as [p|].
    - destruct Hp as (pre' & Epre & Hv). rewrite Hv. symmetry. rewrite Epre, length_app, Nat.add_1_r in *.
      erewrite (rank_of_step r ob full Hs (length pre') p row); [done| |done].
      rewrite Hfull, <- app_assoc. by apply list_lookup_middle.
    - subst pre. symmetry. by apply rank_first. }
  apply writes_cons; [|done|].
  - rewrite Hfull in Hnd. apply NoDup_app in Hnd as (_ & _ & Hnd). by apply NoDup_cons in Hnd as [? _].
  - cbn [lookup list_lookup fmap option_fmap option_map default from_option]. rewrite Hv.
    eapply writes_ext; [|replace (S (length pre)) with (length (pre ++ [row])) by (rewrite length_app; simpl; lia);
      apply (IH (pre ++ [row]))]; [done|by rewrite <- app_assoc|by apply in_range_insert|].
    exists pre. split; [done|]. rewrite nth_lookup, list_lookup_insert_eq by done. done.
Qed.

Definition dense_of (r : QueryResult) (ob : list (text * bool)) (full : list nat) (row : nat) : Z :=
  Z.of_nat (1 + size (keys_before r ob full row)).

Lemma dense_loop_writes r ob full pre s prev current out :
  StronglySorted (before r ob) full → full = pre ++ s → NoDup full → in_range full out → Z.of_nat (length full) < 2 ^ 63 →
  match prev with
  | None => pre = []
  | Some p => ∃ pre', pre = pre' ++ [p] ∧ current = dense_of r ob full p
  end →
  writes s (λ k, default 0 (dense_of r ob full <$> s !! k)) out (dense_loop r ob current prev s out).
Proof.
  intros Hs Hfull Hnd Hr Hlen. revert pre prev current out Hfull Hr.
  induction s as [|row s IH]; intros pre prev current out Hfull Hr Hp; [apply writes_nil|]. cbn [dense_loop].
  assert (full !! length pre = Some row) as Hrow by (rewrite Hfull; by apply list_lookup_middle).
  assert (row < length out)%nat as Hlt by (eapply (Forall_lookup_1 _ _ _ _ Hr); exact Hrow).
  set (v := match prev with None => 1 | Some p => _ end). assert (v = dense_of r ob full row) as Hv.
  { subst v. unfold dense_of in *. destruct prev as [p|].
    - destruct Hp as (pre' & Epre & ->). rewrite Epre, length_app, Nat.add_1_r in *.
      assert (full !! length pre' = Some p) as Hpp by (rewrite Hfull, <- app_assoc; by apply list_lookup_middle).
      rewrite (keys_before_step r ob full Hs (length pre') p row) by done.
      pose proof (keys_before_size r ob full Hs p). destruct (rows_equal_on_order_cols r p row ob); [f_equal; lia|].
      unfold wrapping_add, wrap_u. rewrite Z.mod_small by lia. lia.
    - subst pre. by rewrite (keys_before_first r ob full Hs row). }
  apply writes_cons; [|done|].
  - rewrite Hfull in Hnd. apply NoDup_app in Hnd as (_ & _ & Hnd). by apply NoDup_cons in Hnd as [? _].
  - cbn [lookup list_lookup fmap option_fmap option_map default from_option]. rewrite Hv.
    eapply writes_ext; [|apply (IH (pre ++ [row]))]; [done|by rewrite <- app_assoc|by apply in_range_insert|by exists pre].
Qed.

(** ** Partitions *)
Section partitions.
Context (hash_order : list Z → list Z) (hash_perm : ∀ l, hash_order l ≡ₚ l).
Context (r : QueryResult) (pb : list text).
Abbreviation n := (row_count r).
Abbreviation key := (row_key r (find_col_idx r <$> pb)).
Abbreviation groups := ((partition_rows hash_order r pb).*2).

(** The rows in the partition of [row]. *)
Definition partition_of (row : nat) : list nat :=
  if bool_decide (pb = []) then seq 0 n else filter (λ row', key row' = key row) (seq 0 n).

Lemma partition_of_sorted row : StronglySorted lt (partition_of row).
Proof. unfold partition_of. case_bool_decide; [apply seq_sorted|apply filter_sorted, seq_sorted]. Qed.

Lemma partition_of_self row : (row < n)%nat → row ∈ partition_of row.
Proof.
  intros H. unfold partition_of. case_bool_decide; [apply elem_of_seq; lia|]. apply list_elem_of_filter. split; [done|].
  apply elem_of_seq. lia.
Qed.

Lemma partition_of_range row x : x ∈ partition_of row → (x < n)%nat.
Proof.
  unfold partition_of. case_bool_decide; [intros Hx%elem_of_seq; lia|]. intros [_ Hx]%list_elem_of_filter.
  apply elem_of_seq in Hx. lia.
Qed.

Lemma groups_spec g : g ∈ groups → ∃ row, (n = 0%nat ∨ row < n)%nat ∧ g = partition_of row.
Proof.
  unfold partition_rows, partition_of. case_bool_decide as E.
  - intros Hg. apply list_elem_of_singleton in Hg as ->. exists 0%nat. split; [lia|done].
  - rewrite <- list_fmap_compose. intros (k & -> & Hk)%list_elem_of_fmap. rewrite hash_perm, elem_of_remove_dups in Hk.
    apply list_elem_of_fmap in Hk as (row & -> & Hrow). apply elem_of_seq in Hrow. exists row. split; [lia|done].
Qed.

Lemma partition_in_groups row : (row < n)%nat → partition_of row ∈ groups.
Proof.
  intros Hr. unfold partition_rows, partition_of. case_bool_decide; [left|]. rewrite <- list_fmap_compose.
  apply list_elem_of_fmap. exists (key row). split; [done|]. rewrite hash_perm, elem_of_remove_dups.
  apply list_elem_of_fmap_2, elem_of_seq. lia.
Qed.

(** A row is in no other partition than its own. *)
Lemma partition_unique row g : g ∈ groups → row ∈ g → g = partition_of row.
Proof.
  intros (row' & _ & ->)%groups_spec Hr. unfold partition_of in *. case_bool_decide; [done|].
  apply list_elem_of_filter in Hr as [Hr _]. by rewrite Hr.
Qed.

Lemma groups_nodup : NoDup groups.
Proof.
  unfold partition_rows. case_bool_decide; [apply NoDup_singleton|]. rewrite <- list_fmap_compose.
  apply NoDup_fmap_2_strong; [|rewrite hash_perm; apply NoDup_remove_dups].
  intros k1 k2 H1 H2 E. simpl in E. rewrite hash_perm, elem_of_remove_dups in H1.
  apply list_elem_of_fmap in H1 as (row & -> & Hrow).
  assert (row ∈ filter (λ row', key row' = k2) (seq 0 n)) as Hin by (rewrite <- E; by apply list_elem_of_filter).
  by apply list_elem_of_filter in Hin as [? _].
Qed.
End partitions.

Section outputs.
Context (hash_order : list Z → list Z) (hash_perm : ∀ l, hash_order l ≡ₚ l).
Context (r : QueryResult) (spec : WindowSpec).
Abbreviation P := (partition_of r (partition_by spec)).
Abbreviation ob := (order_by spec).
Abbreviation sorted rows := (sort_rows r rows ob).

Lemma sorted_nodup l : StronglySorted lt l → NoDup l.
Proof.
  induction 1 as [|x l Hs IH Hx]; constructor; [|done]. intros Hin. rewrite list.Forall_forall in Hx. specialize (Hx x Hin). lia.
Qed.

Lemma partition_length row : (length (P row) <= row_count r)%nat.
Proof. unfold partition_of. case_bool_decide; [by rewrite length_seq|]. etrans; [apply length_filter|]. by rewrite length_seq. Qed.

(** Each partition is handled by itself: the cell of a row is what the loop over its own
    partition writes. *)
Lemma over_partitions_spec init body (f : list nat → nat → Z) row k :
  (row < row_count r)%nat → sorted (P row) !! k = Some row →
  (∀ rows out, (length rows <= row_count r)%nat → NoDup rows → in_range rows out → (∀ x, x ∈ rows → out !! x = Some init) → StronglySorted (before r ob) (sorted rows) →
     writes (sorted rows) (f rows) out (body rows (sorted rows) out)) →
  over_partitions hash_order r spec init body !! row = Some (f (P row) k).
Proof.
  intros Hrow Hk Hbody. unfold over_partitions. rewrite bool_decide_false by lia.
  assert (∀ (l : list (Z * list nat)) out, (∀ g, g ∈ l.*2 → g ∈ (partition_rows hash_order r (partition_by spec)).*2) → NoDup (l.*2) →
    length out = row_count r → (∀ g x, g ∈ l.*2 → x ∈ g → out !! x = Some init) →
    let res := fold_left (λ out g, body g.2 (sorted g.2) out) l out in
    (P row ∈ l.*2 → res !! row = Some (f (P row) k)) ∧ (P row ∉ l.*2 → res !! row = out !! row)) as Hind.
  { induction l as [|[k0 g] l IH]; intros out Hg Hnd Hlen Hinit; [split; [by intros ?%not_elem_of_nil|done]|].
    rewrite fmap_cons in *. cbn [snd fold_left] in *. apply NoDup_cons in Hnd as [Hng Hnd].
    destruct (groups_spec hash_order hash_perm r _ g (Hg g ltac:(left))) as (row' & _ & Eg).
    assert (writes (sorted g) (f g) out (body g (sorted g) out)) as (W1 & W2 & W3).
    { apply Hbody.
      - rewrite Eg. apply partition_length.
      - rewrite Eg. apply sorted_nodup, partition_of_sorted.
      - apply list.Forall_forall. intros x Hx. rewrite Hlen, Eg in *. by eapply partition_of_range.
      - intros x Hx. eapply Hinit; [left|done].
      - rewrite Eg. apply sort_rows_sorted, partition_of_sorted. }
    assert (∀ x, x ∉ g → body g (sorted g) out !! x = out !! x) as W3' by (intros x Hx; apply W3; by rewrite sort_rows_perm).
    assert (∀ g' x, g' ∈ l.*2 → x ∈ g' → x ∉ g) as Hdisj.
    { intros g' x Hg' Hx Hx'. apply Hng.
      rewrite (partition_unique hash_order hash_perm r _ x g (Hg g ltac:(left)) Hx').
      by rewrite <- (partition_unique hash_order hash_perm r _ x g' (Hg g' ltac:(by right)) Hx). }
    destruct (IH (body g (sorted g) out)) as [IH1 IH2]; [by intros; apply Hg; right|done|lia| |].
    { intros g' x Hg' Hx. rewrite W3' by (by eapply Hdisj). eapply Hinit; [by right|done]. }
    split.
    - intros [Heq|Hin]%elem_of_cons; [|by apply IH1]. rewrite IH2 by (by rewrite Heq). rewrite Heq. apply W2. by rewrite <- Heq.
    - intros [Hne Hin]%not_elem_of_cons. rewrite IH2 by done. apply W3'. intros Hx. apply Hne. symmetry.
      apply (partition_unique hash_order hash_perm r _ row g); [apply Hg; left|done]. }
  apply Hind; [done|by apply groups_nodup|by rewrite length_replicate| |by apply partition_in_groups].
  intros g x Hg Hx. destruct (groups_spec hash_order hash_perm r _ g Hg) as (row' & _ & ->).
  apply lookup_replicate_2. by eapply partition_of_range.
Qed.

(** The place of a row in its partition: how many rows come before it. *)
Definition place (row : nat) : nat := length (filter (λ y, before r ob y row) (P row)).

Lemma sorted_place row : (row < row_count r)%nat → sorted (P row) !! place row = Some row.
Proof.
  intros Hrow. assert (row ∈ sorted (P row)) as Hin by (rewrite sort_rows_perm; by apply partition_of_self).
  apply list_elem_of_lookup in Hin as [k Hk]. enough (place row = k) as -> by done. unfold place.
  rewrite <- (sorted_index r ob (sorted (P row)) k row); [|apply sort_rows_sorted, partition_of_sorted|done].
  by rewrite sort_rows_perm.
Qed.

Lemma place_bound row : (place row <= row_count r)%nat.
Proof.
  unfold place. etrans; [apply length_filter|]. apply partition_length.
Qed.

Lemma sorted_rows_nodup rows : NoDup rows → NoDup (sorted rows).
Proof. by rewrite sort_rows_perm. Qed.

Lemma sorted_rows_range rows out : in_range rows out → in_range (sorted rows) out.
Proof. unfold in_range. by rewrite sort_rows_perm. Qed.

Lemma row_number_spec row : (row < row_count r)%nat → row_number hash_order r spec !! row = Some (Z.of_nat (place row + 1)).
Proof.
  intros Hrow. unfold row_number.
  apply (over_partitions_spec 0 _ (λ _ k, Z.of_nat (k + 1)) row (place row)); [done|by apply sorted_place|].
  intros rows out _ Hnd Hr _ _. apply (number_loop_writes _ 0); [by apply sorted_rows_nodup|by apply sorted_rows_range].
Qed.

Lemma count_over_spec row : (row < row_count r)%nat →
  count_over hash_order r spec !! row =
  Some (Z.of_nat (if bool_decide (ob = []) then length (P row) else place row + 1)%nat).
Proof.
  intros Hrow. unfold count_over.
  rewrite (over_partitions_spec 0 _ (λ rows k, Z.of_nat (if bool_decide (ob = []) then length rows else k + 1)%nat) row (place row));
    [done|done|by apply sorted_place|].
  intros rows out _ Hnd Hr _ _. case_bool_decide as E.
  - unfold sort_rows. rewrite bool_decide_true by done. by apply fill_writes.
  - apply (number_loop_writes _ 0); [by apply sorted_rows_nodup|by apply sorted_rows_range].
Qed.

Lemma rank_spec row : (row < row_count r)%nat →
  rank hash_order r spec !! row = Some (Z.of_nat (1 + length (filter (λ y, cmp_rows r ob y row = Lt) (P row)))).
Proof.
  intros Hrow. pose proof (sorted_place row Hrow) as Hp. unfold rank.
  rewrite (over_partitions_spec 0 _ (λ rows k, default 0 (rank_of r ob (sorted rows) <$> sorted rows !! k)) row (place row)); [|done|done|].
  - rewrite Hp. simpl. unfold rank_of. by rewrite sort_rows_perm.
  - intros rows out _ Hnd Hr _ Hs. apply (rank_loop_writes r ob (sorted rows) [] (sorted rows) None); try done.
    + by apply sorted_rows_nodup.
    + by apply sorted_rows_range.
Qed.

Lemma dense_rank_spec row : (row < row_count r)%nat → Z.of_nat (row_count r) < 2 ^ 63 →
  dense_rank hash_order r spec !! row = Some (Z.of_nat (1 + size (keys_before r ob (P row) row))).
Proof.
  intros Hrow Hn. pose proof (sorted_place row Hrow) as Hp. unfold dense_rank.
  rewrite (over_partitions_spec 0 _ (λ rows k, default 0 (dense_of r ob (sorted rows) <$> sorted rows !! k)) row (place row)); [|done|done|].
  - rewrite Hp. simpl. unfold dense_of, keys_before. by rewrite sort_rows_perm.
  - intros rows out Hlen Hnd Hr _ Hs. apply (dense_loop_writes r ob (sorted rows) [] (sorted rows) None); try done.
    + by apply sorted_rows_nodup.
    + by apply sorted_rows_range.
    + rewrite sort_rows_perm. lia.
Qed.

(** The first rows of a sorted list are those not after the last of them. *)
Lemma sorted_take (l : list nat) k x :
  StronglySorted (before r ob) l → l !! k = Some x → take (S k) l = filter (λ y, before r ob y x ∨ y = x) l.
Proof.
  intros Hs. revert k. induction Hs as [|y l Hs IH Hy]; intros k Hk; [done|]. rewrite list.Forall_forall in Hy.
  destruct k as [|k]; simplify_eq/=.
  - rewrite filter_cons_True by (by right). rewrite take_0. f_equal. symmetry.
    apply elem_of_nil_inv. intros z [Hz Hin]%list_elem_of_filter. specialize (Hy z Hin).
    destruct Hz as [Hz| ->]; [by apply (before_asym _ _ _ _ Hz)|by apply (before_asym _ _ _ _ Hy)].
  - rewrite filter_cons_True by (left; apply Hy; by eapply list_elem_of_lookup_2). f_equal. by apply IH.
Qed.

Lemma zsum_perm l l' : l ≡ₚ l' → zsum l = zsum l'.
Proof. induction 1; simpl; lia. Qed.

Lemma sum_over_spec c row : (row < row_count r)%nat →
  sum_over hash_order r c spec !! row =
  Some (wrap_u 64 (zsum (value_at r (find_col_idx r c) <$> filter (λ y, before r ob y row ∨ y = row) (P row)))).
Proof.
  intros Hrow. pose proof (sorted_place row Hrow) as Hp. unfold sum_over.
  rewrite (over_partitions_spec 0 _ (λ rows k, sum_to r (find_col_idx r c) 0 k (sorted rows)) row (place row)); [|done|done|].
  - rewrite (sum_to_spec _ _ 0 _ _ row) by done || (unfold in_u; lia). f_equal. rewrite Z.add_0_l. f_equal.
    rewrite (sorted_take _ _ row); [|apply sort_rows_sorted, partition_of_sorted|done].
    apply zsum_perm, fmap_Permutation. by rewrite sort_rows_perm.
  - intros rows out _ Hnd Hr _ _. apply sum_loop_writes; [by apply sorted_rows_nodup|by apply sorted_rows_range].
Qed.

(** The rows of a partition share it. *)
Lemma partition_same row x : x ∈ P row → P x = P row.
Proof.
  unfold partition_of. case_bool_decide; [done|]. intros [Hx _]%list_elem_of_filter. by rewrite Hx.
Qed.

Lemma partition_row row x : x ∈ P row → (x < row_count r)%nat.
Proof. apply partition_of_range. Qed.

Lemma sorted_at row x : x ∈ P row → sorted (P row) !! place x = Some x.
Proof. intros Hx. rewrite <- (partition_same row x Hx). by apply sorted_place, (partition_row row). Qed.

Lemma lag_spec c offset d row : (row < row_count r)%nat →
  lag hash_order r c offset d spec !! row =
  Some (shifted r (find_col_idx r c) d (if bool_decide (offset <= place row)%nat then sorted (P row) !! (place row - offset)%nat else None)).
Proof.
  intros Hrow. unfold lag.
  rewrite (over_partitions_spec d _ (λ rows k, shifted r (find_col_idx r c) d
    (if bool_decide (offset <= k)%nat then sorted rows !! (k - offset)%nat else None)) row (place row)); [done|done|by apply sorted_place|].
  intros rows out _ Hnd Hr Hi _.
  eapply writes_ext; [|apply shift_loop_writes; [by apply sorted_rows_nodup|by apply sorted_rows_range|]]; [done|].
  intros x. rewrite sort_rows_perm. apply Hi.
Qed.

Lemma lead_spec c offset d row : (row < row_count r)%nat →
  lead hash_order r c offset d spec !! row =
  Some (shifted r (find_col_idx r c) d (sorted (P row) !! Z.to_nat (wrapping_add (Z.of_nat (place row)) (Z.of_nat offset)))).
Proof.
  intros Hrow. unfold lead.
  apply (over_partitions_spec d _ (λ rows k, shifted r (find_col_idx r c) d
    (sorted rows !! Z.to_nat (wrapping_add (Z.of_nat k) (Z.of_nat offset)))) row (place row)); [done|by apply sorted_place|].
  intros rows out _ Hnd Hr Hi _.
  eapply writes_ext; [|apply shift_loop_writes; [by apply sorted_rows_nodup|by apply sorted_rows_range|]]; [done|].
  intros x. rewrite sort_rows_perm. apply Hi.
Qed.

Lemma first_value_spec c row : (row < row_count r)%nat →
  first_value hash_order r c spec !! row = Some (default 0 (value_at r (find_col_idx r c) <$> head (sorted (P row)))).
Proof.
  intros Hrow. unfold first_value.
  apply (over_partitions_spec 0 _ (λ rows _, default 0 (value_at r (find_col_idx r c) <$> head (sorted rows))) row (place row));
    [done|by apply sorted_place|].
  intros rows out _ Hnd Hr Hi _.
  assert (∀ v, writes (sorted rows) (λ _, v) out (fill rows v out)) as Hf.
  { intros v. destruct (fill_writes rows v out Hnd Hr) as (W1 & W2 & W3). split_and!; [done| |].
    - intros k x Hk%list_elem_of_lookup_2. rewrite sort_rows_perm in Hk. apply list_elem_of_lookup in Hk as [k' Hk]. by eapply W2.
    - intros x Hx. apply W3. by rewrite sort_rows_perm in Hx. }
  destruct (sorted rows) as [|f l] eqn:E; [apply writes_nil|]. apply Hf.
Qed.
End outputs.

(** the window functions compute what SQL says.  For every row, with its partition (the
    rows that agree on the partition key) and the ORDER BY columns (ties in row order):
    ROW_NUMBER is its place in the partition, RANK is one more than the number of rows
    that sort strictly before it, DENSE_RANK one more than the number of distinct sort
    keys before its own, SUM is the sum modulo 2^64 over the rows up to it, and
    COUNT is its place, or the size of the partition without an ORDER BY; in whatever
    order the hash map yields the partitions. *)
Theorem window_functions_correct hash_order r spec c row :
  (∀ l, hash_order l ≡ₚ l) → (row < row_count r)%nat → Z.of_nat (row_count r) < 2 ^ 63 →
  let P := partition_of r (partition_by spec) row in
  let before := before r (order_by spec) in
  row_number hash_order r spec !! row = Some (Z.of_nat (length (filter (λ y, before y row) P) + 1)) ∧
  rank hash_order r spec !! row = Some (Z.of_nat (1 + length (filter (λ y, cmp_rows r (order_by spec) y row = Lt) P))) ∧
  dense_rank hash_order r spec !! row = Some (Z.of_nat (1 + size (keys_before r (order_by spec) P row))) ∧
  sum_over hash_order r c spec !! row =
    Some (wrap_u 64 (zsum (value_at r (find_col_idx r c) <$> filter (λ y, before y row ∨ y = row) P))) ∧
  count_over hash_order r spec !! row =
    Some (Z.of_nat (if bool_decide (order_by spec = []) then length P else length (filter (λ y, before y row) P) + 1)%nat).
Proof.
  intros Hh Hrow Hn. split_and!; [by apply row_number_spec|by apply rank_spec|by apply dense_rank_spec|by apply sum_over_spec|by apply count_over_spec].
Qed.

(** LAG, LEAD and FIRST_VALUE read the right row.  With the place of a row in its
    partition (how many rows come before it), LAG of a row reads the row of the partition
    [offset] places before it, LEAD the one [offset] places after it, each the default
    where there is none, and FIRST_VALUE the row nothing comes before. *)
Theorem window_offsets_correct hash_order r spec c i offset d row :
  (∀ l, hash_order l ≡ₚ l) → (row < row_count r)%nat → find_col_idx r c = Some i → Z.of_nat (row_count r) + Z.of_nat offset < 2 ^ 64 →
  let P := partition_of r (partition_by spec) row in
  let cell other := col ← columns r !! i; values col !! other in
  let place := place r spec in
  (∀ other, other ∈ P → place row = (place other + offset)%nat →
     lag hash_order r c offset d spec !! row = Some (default d (cell other))) ∧
  ((place row < offset)%nat → lag hash_order r c offset d spec !! row = Some d) ∧
  (∀ other, other ∈ P → place other = (place row + offset)%nat →
     lead hash_order r c offset d spec !! row = Some (default d (cell other))) ∧
  ((length P <= place row + offset)%nat → lead hash_order r c offset d spec !! row = Some d) ∧
  (∀ first, first ∈ P → place first = 0%nat → first_value hash_order r c spec !! row = Some (default 0 (cell first))).
Proof.
  intros Hh Hrow Hi Hoff P cell pl. rewrite lag_spec, lead_spec, first_value_spec, Hi by done.
  assert (pl row <= row_count r)%nat as Hle by apply place_bound. unfold pl in *. clear pl.
  unfold wrapping_add, wrap_u. rewrite Z.mod_small by lia. rewrite <- Nat2Z.inj_add, Nat2Z.id. split_and!.
  - intros o Ho E. rewrite bool_decide_true by lia. replace (place r spec row - offset)%nat with (place r spec o) by lia.
    by rewrite (sorted_at r spec row o Ho).
  - intros Hlt. by rewrite bool_decide_false by lia.
  - intros o Ho E. rewrite <- E. by rewrite (sorted_at r spec row o Ho).
  - intros Hge. rewrite lookup_ge_None_2; [done|]. by rewrite sort_rows_perm.
  - intros f Hf E. pose proof (sorted_at r spec row f Hf) as Hs. rewrite E in Hs. by rewrite head_lookup, Hs.
Qed.

(** ** OVER clauses of parsed statements *)
Section over.
Context (uni_upper : Z → list Z) (uni_debug : Z → text) (debug_float : text → text).

Definition word (w : text) : Prop := w ≠ [] ∧ Forall (λ c, RecoveryM.is_whitespace c = false) w.

Lemma words_app w s : Forall (λ c, RecoveryM.is_whitespace c = false) w → words (w ++ s) = (w ++ (words s).1, (words s).2).
Proof.
  induction 1 as [|c w Hc Hw IH]; simpl; [by destruct (words s)|]. by rewrite IH, Hc.
Qed.

Lemma words_join w ws : word w → Forall word ws → words (join_sp (w :: ws)) = (w, ws).
Proof.
  intros [_ Hw] Hws. revert w Hw. induction Hws as [|v ws [Hne Hv] Hws IH]; intros w Hw; unfold join_sp in *; cbn [fmap list_fmap concat app] in *.
  - rewrite words_app by done. simpl. by rewrite app_nil_r.
  - rewrite words_app by done. cbn [words]. rewrite (IH v Hv). cbn -[bool_decide]. rewrite bool_decide_false by done. by rewrite app_nil_r.
Qed.

Lemma split_whitespace_join ws : Forall word ws → split_whitespace (join_sp ws) = ws.
Proof.
  intros Hws. destruct Hws as [|w ws Hw Hws]; [done|]. unfold split_whitespace. rewrite words_join by done.
  by rewrite bool_decide_false by apply Hw.
Qed.

(** Words that are no keyword of a specification are skipped. *)
Definition inert (w : text) : Prop := up uni_upper w ∉ [K "PARTITION"; K "ORDER"; K "ROWS"; K "RANGE"].

Lemma spec_loop_inert fuel ws sp : Forall inert ws → spec_loop uni_upper fuel ws sp = sp.
Proof.
  intros H. revert fuel. induction H as [|w ws Hw Hws IH]; intros [|fuel]; try done. cbn [spec_loop].
  unfold text_eqb. unfold inert in Hw. rewrite !bool_decide_false by set_solver. apply IH.
Qed.

Lemma up_paren w : 40 ∈ w → inert w.
Proof.
  intros Hw. assert (40 ∈ up uni_upper w) as Hin.
  { unfold up, to_uppercase. apply list_elem_of_In, in_concat. exists [40]. split; [|by left].
    apply list_elem_of_In, list_elem_of_fmap. by exists 40. }
  unfold inert. intros Hk. repeat (apply elem_of_cons in Hk as [Hk|Hk]; [rewrite Hk in Hin; contradict Hin; by apply (bool_decide_unpack _)|]).
  by apply not_elem_of_nil in Hk.
Qed.

(** Tokens of ordinary column names. *)
Definition plain_char (c : Z) : bool := is_digit c || is_lower c || is_upper c || Z.eqb c 95.
Definition plain_token (t : Token) : bool :=
  match t with Keyword s | Ident s => forallb plain_char s | Comma => true | _ => false end.

Lemma escape_plain s : forallb plain_char s = true → concat (escape_debug uni_debug <$> s) = s.
Proof.
  induction s as [|c s IH]; [done|]. intros [Hc Hs]%andb_prop. cbn [fmap list_fmap concat]. rewrite (IH Hs).
  assert (escape_debug uni_debug c = [c]) as ->; [|done].
  unfold plain_char, is_digit, is_lower, is_upper, LexerM.in_range in Hc. unfold escape_debug.
  repeat (case_match; try lia); done.
Qed.

(** A text that neither begins nor ends with the character is not trimmed. *)
Lemma trim_matches_id c x s y : x ≠ c → y ≠ c → trim_matches c (x :: s ++ [y]) = x :: s ++ [y].
Proof.
  intros Hx Hy. unfold trim_matches. cbn [trim_start]. rewrite (proj2 (Z.eqb_neq x c)) by done.
  rewrite app_comm_cons, reverse_snoc. cbn [trim_start]. rewrite (proj2 (Z.eqb_neq y c)) by done.
  by rewrite <- reverse_snoc, reverse_involutive.
Qed.

Lemma plain_no_space s : forallb plain_char s = true → Forall (λ c, RecoveryM.is_whitespace c = false) s.
Proof.
  induction s as [|c s IH]; [constructor|]. intros [Hc Hs]%andb_prop. constructor; [|by apply IH].
  unfold plain_char, is_digit, is_lower, is_upper, LexerM.in_range in Hc. unfold RecoveryM.is_whitespace. lia.
Qed.

Lemma over_tuple x n s : forallb plain_char (x :: n) = true → forallb plain_char s = true →
  let w := trim_matches 39 (trim_matches 34 (tuple1 (x :: n) (debug_str uni_debug s))) in word w ∧ inert w.
Proof.
  intros Hn Hs. unfold tuple1, debug_str. rewrite (escape_plain s Hs).
  assert (x ≠ 34 ∧ x ≠ 39) as [Hx1 Hx2] by (split; intros ->; done). cbn zeta.
  replace ((x :: n) ++ 40 :: (34 :: s ++ [34]) ++ [41]) with (x :: (n ++ 40 :: 34 :: s ++ [34]) ++ [41])
    by (cbn [app]; by rewrite <- (app_assoc n)).
  rewrite !trim_matches_id by done. split; [split; [done|]|apply up_paren; set_solver].
  apply plain_no_space in Hn, Hs. inversion Hn; subst. repeat (done || constructor || apply Forall_app_2).
Qed.

Lemma over_part t : plain_token t = true →
  let w := trim_matches 39 (trim_matches 34 (debug_token uni_debug debug_float t)) in word w ∧ inert w.
Proof.
  destruct t; try done; intros Ht; [by apply over_tuple..|].
  split; [split; [done|]|]; by apply (bool_decide_unpack _).
Qed.

Lemma over_parts_plain ts rest : forallb plain_token ts = true →
  ∃ parts, over_parts uni_debug debug_float 1 (ts ++ RParen :: rest) = Ok (parts, rest) ∧ Forall word parts ∧ Forall inert parts.
Proof.
  induction ts as [|t ts IH]; [by exists []|]. intros [Ht Hts]%andb_prop. destruct (IH Hts) as (parts & E & Hw & Hi).
  destruct (over_part t Ht). eexists (_ :: parts). split; [|split; by constructor].
  destruct t; try done; cbn [app over_parts]; by rewrite E.
Qed.
End over.

(** PARTITION BY and ORDER BY of a parsed statement have no effect.  Whatever
    column names, keywords and commas stand between the parentheses of [OVER ( .. )],
    the parser keeps them as the debugging text of the tokens
    ([Keyword("PARTITION") Keyword("BY") Ident("y")]), and no word of that text is a
    keyword of a specification: every window function of a SELECT list runs over the
    whole result as one unordered partition. *)
Theorem over_clause_ignored uni_upper fmt_float uni_debug debug_float date_from_str fuel f a ts rest :
  eq_ignore_ascii_case a (K "DISTINCT") = false → forallb plain_token ts = true →
  ∃ over_spec,
    parse_select_item uni_upper fmt_float uni_debug debug_float date_from_str fuel
      (Ident f :: LParen :: Ident a :: RParen :: Keyword (K "OVER") :: LParen :: ts ++ RParen :: Keyword (K "FROM") :: rest) =
      Ok (SWindow (up uni_upper f) a over_spec None, Keyword (K "FROM") :: rest) ∧
    parse_window_spec uni_upper over_spec = empty_spec.
Proof.
  intros Ha Hts. destruct (over_parts_plain uni_upper uni_debug debug_float ts (Keyword (K "FROM") :: rest) Hts) as (parts & E & Hw & Hi).
  exists (join_sp parts). split.
  - cbv [parse_select_item match_op mbind parser_bind peek mret parser_ret starts_expression next parse_call match_ident
      parse_agg_arg agg_parts bump tail match_keyword close_paren open_paren parse_optional_alias result_bind Z.eqb upper].
    rewrite Ha. replace (text_eqb (K "OVER") (K "OVER")) with true by reflexivity. cbv beta iota. rewrite E.
    replace (text_eqb (K "FROM") (K "AS")) with false by reflexivity. cbn. by rewrite app_nil_r.
  - unfold parse_window_spec. rewrite split_whitespace_join by done. by apply spec_loop_inert.
Qed.

(** ** Keys of partitions *)

(** One column partitions exactly: rows share a partition when they agree on it. *)
Lemma partition_one_column r c row :
  partition_of r [c] row =
  filter (λ y, value_at r (find_col_idx r c) y = value_at r (find_col_idx r c) row) (seq 0 (row_count r)).
Proof. reflexivity. Qed.

(** Several columns may not: rows (1, 0) and (0, 8192) get the same key and are put in
    one partition. *)
Lemma partition_key_collides hash_order : (∀ l, hash_order l ≡ₚ l) →
  let r := mkResult [plain (K "a") [1; 0]; plain (K "b") [0; 8192]] 2 in
  partition_rows hash_order r [K "a"; K "b"] = [(8192, [0; 1]%nat)].
Proof.
  intros Hh r. unfold partition_rows. rewrite bool_decide_false by done. cbv zeta.
  assert (hash_order (remove_dups (row_key r (find_col_idx r <$> [K "a"; K "b"]) <$> seq 0 (row_count r))) = [8192]) as ->.
  { apply Permutation_singleton_r. rewrite Hh. reflexivity. }
  reflexivity.
Qed.

(** A column whose name begins with DESC or ASC is not read as one. *)
Lemma order_by_description_dropped uni_upper :
  parse_window_spec uni_upper (K "ORDER BY description, price") = empty_spec ∧
  order_by (parse_window_spec uni_upper (K "ORDER BY price, description")) = [(K "price", true)].
Proof. split; reflexivity. Qed.

(** ** Concrete inputs *)
Lemma window_functions_correct_witness :
  let r := mkResult [plain (K "k") [1; 2; 1; 1]; plain (K "x") [5; 7; 9; 5]] 4 in
  let spec := parse_window_spec (λ c, [c]) (K "PARTITION BY k ORDER BY x DESC") in
  rank (λ l, l) r spec !! 3%nat = Some 2 ∧ sum_over (λ l, l) r (K "x") spec !! 3%nat = Some 19.
Proof.
  destruct (window_functions_correct (λ l, l)
    (mkResult [plain (K "k") [1; 2; 1; 1]; plain (K "x") [5; 7; 9; 5]] 4)
    (parse_window_spec (λ c, [c]) (K "PARTITION BY k ORDER BY x DESC")) (K "x") 3) as (_ & H1 & _ & H2 & _);
    [done|simpl; lia|simpl; lia|]. split; [rewrite H1|rewrite H2]; vm_compute; reflexivity.
Defined.

Lemma window_offsets_correct_witness :
  let r := mkResult [plain (K "k") [1; 2; 1; 1]; plain (K "x") [5; 7; 9; 5]] 4 in
  let spec := parse_window_spec (λ c, [c]) (K "PARTITION BY k ORDER BY x DESC") in
  lag (λ l, l) r (K "x") 2 77 spec !! 3%nat = Some 9 ∧ lead (λ l, l) r (K "x") 2 77 spec !! 3%nat = Some 77.
Proof.
  destruct (window_offsets_correct (λ l, l)
    (mkResult [plain (K "k") [1; 2; 1; 1]; plain (K "x") [5; 7; 9; 5]] 4)
    (parse_window_spec (λ c, [c]) (K "PARTITION BY k ORDER BY x DESC")) (K "x") 1 2 77 3) as (H1 & _ & _ & H2 & _);
    [done|simpl; lia|reflexivity|simpl; lia|].
  split; [rewrite (H1 2%nat); [reflexivity|by apply (bool_decide_unpack _)|reflexivity]|apply H2; vm_compute; lia].
Defined.

Lemma over_clause_ignored_witness :
  ∃ over_spec,
    parse_select_item (λ c, [c]) (λ s, s) (λ c, [c]) (λ s, s) (λ _, None) 5
      [Ident (K "sum"); LParen; Ident (K "x"); RParen; Keyword (K "OVER"); LParen; Keyword (K "PARTITION"); Keyword (K "BY");
       Ident (K "y"); RParen; Keyword (K "FROM"); Ident (K "t"); EOF] =
      Ok (SWindow (K "SUM") (K "x") over_spec None, [Keyword (K "FROM"); Ident (K "t"); EOF]) ∧
    parse_window_spec (λ c, [c]) over_spec = empty_spec.
Proof.
  apply (over_clause_ignored (λ c, [c]) (λ s, s) (λ c, [c]) (λ s, s) (λ _, None) 5 (K "sum") (K "x")
    [Keyword (K "PARTITION"); Keyword (K "BY"); Ident (K "y")] [Ident (K "t"); EOF]); reflexivity.
Defined.
End WindowM.
