(* ===== verification/Temporal.v ===== *)
(** * Temporal tables (src/src/exec/temporal.rs)

    The versions of a system-versioned table: its current rows, each with the time it
    appeared, and the rows that were replaced or deleted.  The clock reading of a call
    ([now_millis]) is an argument of it, a predicate a boolean function of the row's
    cells.  Times are 64-bit integers that are only compared. *)

From Stdlib Require Import ZArith Lia Sorting.Sorted.
From stdpp Require Import prelude list numbers gmap.
From S2P Require Import Prelude.
Local Open Scope Z_scope.

Module TemporalM.
Abbreviation row := (list Z).

Record HistoryRow := mkHR { values : row; valid_from : Z; valid_to : Z }.
Record TemporalTable := mkTT {
  column_names : list (list Z);
  current_rows : list (row * Z);
  history : list HistoryRow;
  last_modified : Z
}.

#[global] Instance HistoryRow_eq_dec : EqDecision HistoryRow.
Proof. solve_decision. Defined.

Definition U64_MAX : Z := 2 ^ 64 - 1.

(** ** Changes *)
Definition new (names : list (list Z)) (now : Z) : TemporalTable := mkTT names [] [] now.

Definition insert (vs : row) (now : Z) (t : TemporalTable) : TemporalTable :=
  mkTT (column_names t) (current_rows t ++ [(vs, now)]) (history t) now.

(** The loop of [update] returns at the first row the predicate holds of. *)
Fixpoint update_loop (p : row → bool) (new_values : row) (now : Z) (rows : list (row * Z))
  : option (HistoryRow * list (row * Z)) :=
  match rows with
  | [] => None
  | (vs, from) :: rows =>
    if p vs then Some (mkHR vs from now, (new_values, now) :: rows)
    else '(h, rows) ← update_loop p new_values now rows; Some (h, (vs, from) :: rows)
  end.

Definition update (p : row → bool) (new_values : row) (now : Z) (t : TemporalTable) : TemporalTable :=
  match update_loop p new_values now (current_rows t) with
  | Some (h, rows) => mkTT (column_names t) rows (history t ++ [h]) now
  | None => t
  end.

(** The rows kept, the versions pushed and the number of rows removed. *)
Fixpoint delete_loop (p : row → bool) (now : Z) (rows : list (row * Z)) : list (row * Z) * list HistoryRow * nat :=
  match rows with
  | [] => ([], [], 0%nat)
  | (vs, from) :: rows =>
    let '(kept, hs, deleted) := delete_loop p now rows in
    if p vs then (kept, mkHR vs from now :: hs, S deleted) else ((vs, from) :: kept, hs, deleted)
  end.

Definition delete (p : row → bool) (now : Z) (t : TemporalTable) : nat * TemporalTable :=
  let '(kept, hs, deleted) := delete_loop p now (current_rows t) in
  (deleted, mkTT (column_names t) kept (history t ++ hs) now).

(** ** Queries *)
Definition query_as_of (timestamp : Z) (t : TemporalTable) : list row :=
  (filter (λ r : row * Z, r.2 <= timestamp) (current_rows t)).*1 ++
  (values <$> filter (λ h, valid_from h <= timestamp ∧ timestamp < valid_to h) (history t)).

Definition query_between (start end_ : Z) (t : TemporalTable) : list HistoryRow :=
  filter (λ h, valid_from h <= end_ ∧ start <= valid_to h) (history t).

Definition query_all (t : TemporalTable) : list HistoryRow :=
  history t ++ ((λ r : row * Z, mkHR r.1 r.2 U64_MAX) <$> current_rows t).

(** [*counts.entry(pk).or_insert(0) += 1] over a hash map, whose order is [iter]. *)
Definition count_version (counts : gmap Z nat) (r : row) : gmap Z nat :=
  match r with pk :: _ => partial_alter (λ n, Some (S (default 0%nat n))) pk counts | [] => counts end.
Definition version_counts (iter : gmap Z nat → list (Z * nat)) (t : TemporalTable) : list (Z * nat) :=
  iter (fold_left count_version ((values <$> history t) ++ (current_rows t).*1) ∅).

(** ** The table as it changes

    What a client does to the table, and the same on a plain list of rows. *)
Inductive change := Insert (vs : row) | Update (p : row → bool) (vs : row) | Delete (p : row → bool).

Definition apply (now : Z) (c : change) (t : TemporalTable) : TemporalTable :=
  match c with
  | Insert vs => insert vs now t
  | Update p vs => update p vs now t
  | Delete p => (delete p now t).2
  end.

Fixpoint replace_first (p : row → bool) (vs : row) (rows : list row) : list row :=
  match rows with [] => [] | r :: rows => if p r then vs :: rows else r :: replace_first p vs rows end.

Definition effect (c : change) (rows : list row) : list row :=
  match c with
  | Insert vs => rows ++ [vs]
  | Update p vs => replace_first p vs rows
  | Delete p => filter (λ r, p r = false) rows
  end.

Definition apply_all (t : TemporalTable) (cs : list (Z * change)) : TemporalTable :=
  fold_left (λ t c, apply c.1 c.2 t) cs t.
Definition effects (cs : list change) : list row := fold_left (λ rows c, effect c rows) cs [].

Abbreviation now_rows t := ((current_rows t).*1).

(** Every version was made, and every ended version ended, by time [now]. *)
Definition settled (now : Z) (t : TemporalTable) : Prop :=
  Forall (λ r : row * Z, r.2 <= now) (current_rows t) ∧
  Forall (λ h, valid_from h <= valid_to h ∧ valid_to h <= now) (history t).

Lemma settled_mono n m t : n <= m → settled n t → settled m t.
Proof.
  intros Hnm [H1 H2]. split; [apply (Forall_impl _ _ _ H1)|apply (Forall_impl _ _ _ H2)]; simpl; intros; lia.
Qed.

(** From [now] on a query sees the current rows and nothing else. *)
Lemma as_of_now n T t : settled n t → n <= T → query_as_of T t = now_rows t.
Proof.
  intros [H1 H2] HT. unfold query_as_of. rewrite list.Forall_forall in H1. rewrite list.Forall_forall in H2.
  rewrite filter_all by (intros x Hx; specialize (H1 x Hx); simpl in *; lia).
  rewrite filter_none by (intros h Hh; specialize (H2 h Hh); simpl in *; lia). by rewrite app_nil_r.
Qed.

(** What the two loops do to the rows, to what a query before [now] sees, and to the
    times. *)
Definition seen (T : Z) (rows : list (row * Z)) : list row := (filter (λ r : row * Z, r.2 <= T) rows).*1.
Definition seen_h (T : Z) (hs : list HistoryRow) : list row :=
  values <$> filter (λ h, valid_from h <= T ∧ T < valid_to h) hs.

Lemma seen_cons T vs from rows : seen T ((vs, from) :: rows) = (if decide (from <= T) then [vs] else []) ++ seen T rows.
Proof. unfold seen. rewrite filter_cons. cbn [snd]. by destruct (decide (from <= T)). Qed.
Lemma seen_app T r1 r2 : seen T (r1 ++ r2) = seen T r1 ++ seen T r2.
Proof. unfold seen. by rewrite filter_app, fmap_app. Qed.
Lemma seen_h_cons T vs from to hs :
  seen_h T (mkHR vs from to :: hs) = (if decide (from <= T ∧ T < to) then [vs] else []) ++ seen_h T hs.
Proof. unfold seen_h. rewrite filter_cons. cbn [valid_from valid_to]. by destruct (decide _). Qed.
Lemma seen_h_app T h1 h2 : seen_h T (h1 ++ h2) = seen_h T h1 ++ seen_h T h2.
Proof. unfold seen_h. by rewrite filter_app, fmap_app. Qed.
Lemma as_of_seen T t : query_as_of T t = seen T (current_rows t) ++ seen_h T (history t).
Proof. done. Qed.

Lemma update_loop_spec p vs now rows :
  match update_loop p vs now rows with
  | None => replace_first p vs rows.*1 = rows.*1
  | Some (h, rows') =>
    rows'.*1 = replace_first p vs rows.*1 ∧
    (∀ T, T < now → seen T rows' ++ seen_h T [h] ≡ₚ seen T rows) ∧
    (Forall (λ r : row * Z, r.2 <= now) rows →
     Forall (λ r : row * Z, r.2 <= now) rows' ∧ valid_from h <= valid_to h ∧ valid_to h <= now)
  end.
Proof.
  induction rows as [|[r from] rows IH]; [done|]. cbn [update_loop fmap list_fmap replace_first fst].
  destruct (p r).
  - split; [done|]. split.
    + intros T HT. rewrite !seen_cons, seen_h_cons. rewrite (decide_False (P := now <= T)) by lia. unfold seen_h. simpl. rewrite app_nil_r.
      rewrite Permutation_app_comm. destruct (decide (from <= T)); [rewrite decide_True by lia|rewrite decide_False by lia]; done.
    + intros [H1 H2]%Forall_cons. simpl in *. split; [constructor; [simpl; lia|done]|lia].
  - destruct (update_loop p vs now rows) as [[h rows']|]; cbn [mbind option_bind]; [|by rewrite IH].
    destruct IH as (E & Hs & Hf). cbn [fmap list_fmap fst]. split; [by rewrite <- E|]. split.
    + intros T HT. rewrite !seen_cons, <- app_assoc. by rewrite Hs.
    + intros [H1 H2]%Forall_cons. destruct (Hf H2). split; [by constructor|done].
Qed.

Lemma delete_loop_spec p now rows :
  let '(kept, hs, deleted) := delete_loop p now rows in
  kept.*1 = filter (λ r, p r = false) rows.*1 ∧ length rows = (length kept + deleted)%nat ∧ length hs = deleted ∧
  (∀ T, T < now → seen T kept ++ seen_h T hs ≡ₚ seen T rows) ∧
  (Forall (λ r : row * Z, r.2 <= now) rows →
   Forall (λ r : row * Z, r.2 <= now) kept ∧ Forall (λ h, valid_from h <= valid_to h ∧ valid_to h <= now) hs).
Proof.
  induction rows as [|[r from] rows IH]; [by split_and!|]. cbn [delete_loop fmap list_fmap fst].
  destruct (delete_loop p now rows) as [[kept hs] deleted]. destruct IH as (E & Hn & Hl & Hs & Hf).
  rewrite filter_cons. destruct (p r).
  - rewrite decide_False by done. split_and!; [done|simpl; lia|simpl; lia| |].
    + intros T HT. rewrite seen_cons, seen_h_cons, <- (Hs T HT).
      replace (if decide (from <= T ∧ T < now) then [r] else []) with (if decide (from <= T) then [r] else [])
        by (repeat case_decide; try tauto; lia).
      rewrite !app_assoc. apply Permutation_app_tail, Permutation_app_comm.
    + intros [H1 H2]%Forall_cons. destruct (Hf H2). simpl in H1. split; [done|]. constructor; [simpl; lia|done].
  - rewrite decide_True by done. cbn [fmap list_fmap fst length]. split_and!; [by rewrite <- E|simpl; lia|done| |].
    + intros T HT. rewrite !seen_cons, <- app_assoc. by rewrite Hs.
    + intros [H1 H2]%Forall_cons. destruct (Hf H2). split; [by constructor|done].
Qed.

(** A change at [now] changes the rows as it should, leaves what was seen before [now] as
    it was, and keeps the times in order. *)
Lemma apply_spec now c t : settled now t →
  now_rows (apply now c t) = effect c (now_rows t) ∧
  (∀ T, T < now → query_as_of T (apply now c t) ≡ₚ query_as_of T t) ∧
  settled now (apply now c t).
Proof.
  intros [Hr Hh]. destruct c as [vs|p vs|p]; cbn [apply effect].
  - unfold insert. cbn [current_rows]. rewrite fmap_app. split; [done|]. split.
    + intros T HT. rewrite !as_of_seen. cbn [current_rows history]. rewrite seen_app, seen_cons, decide_False by lia.
      unfold seen at 2. simpl. by rewrite app_nil_r.
    + split; [|done]. cbn [current_rows]. apply Forall_app. split; [done|]. constructor; [simpl; lia|done].
  - unfold update. pose proof (update_loop_spec p vs now (current_rows t)) as H.
    destruct (update_loop p vs now (current_rows t)) as [[h rows]|]; [|by split_and!]. destruct H as (E & Hs & Hf).
    cbn [current_rows]. split; [done|]. destruct (Hf Hr) as [H1 H2]. split.
    + intros T HT. rewrite !as_of_seen. cbn [current_rows history]. rewrite seen_h_app, <- (Hs T HT).
      rewrite <- app_assoc. apply Permutation_app_head, Permutation_app_comm.
    + split; [done|]. apply Forall_app. by split; [|constructor].
  - unfold delete. pose proof (delete_loop_spec p now (current_rows t)) as H.
    destruct (delete_loop p now (current_rows t)) as [[kept hs] deleted]. destruct H as (E & _ & _ & Hs & Hf).
    cbn [snd current_rows]. split; [done|]. destruct (Hf Hr) as [H1 H2]. split.
    + intros T HT. rewrite !as_of_seen. cbn [current_rows history]. rewrite seen_h_app, <- (Hs T HT).
      rewrite <- app_assoc. apply Permutation_app_head, Permutation_app_comm.
    + split; [done|]. apply Forall_app. by split.
Qed.

Lemma effects_snoc cs c : effects (cs ++ [c]) = effect c (effects cs).
Proof. unfold effects. by rewrite fold_left_app. Qed.

Lemma Forall_bounded (l : list Z) : ∃ b, Forall (λ n, n <= b) l.
Proof.
  induction l as [|x l [b Hb]]; [by exists 0|]. exists (Z.max x b). constructor; [lia|].
  apply (Forall_impl _ _ _ Hb). intros; lia.
Qed.

(** Changes made in the order of their times; [last] bounds them. *)
Lemma apply_all_spec names t0 cs : StronglySorted Z.le cs.*1 →
  ∀ last, Forall (λ n, n <= last) cs.*1 →
  let t := apply_all (new names t0) cs in
  settled last t ∧ now_rows t = effects cs.*2 ∧
  ∀ T, query_as_of T t ≡ₚ effects (filter (λ c : Z * change, c.1 <= T) cs).*2.
Proof.
  induction cs as [|[now c] cs IH] using rev_ind; intros Hs last Hl; [by split_and!|].
  unfold apply_all. rewrite fold_left_app. cbn [fold_left fst snd]. fold (apply_all (new names t0) cs).
  rewrite fmap_app in Hs, Hl. apply Forall_app in Hl as [Hl [Hnow _]%Forall_cons].
  assert (StronglySorted Z.le cs.*1 ∧ Forall (λ n, n <= now) cs.*1) as [Hs' Hb].
  { clear -Hs. induction (cs.*1) as [|x l IHl]; [by split; constructor|]. cbn [app] in Hs.
    apply StronglySorted_inv in Hs as [Hs Hx]. destruct (IHl Hs). apply Forall_app in Hx as [Hx [Hn _]%Forall_cons].
    split; constructor; done. }
  destruct (IH Hs' now Hb) as (Hset & Hrows & Hq). destruct (apply_spec now c _ Hset) as (E & Hpast & Hset').
  simpl in Hnow. split; [by apply (settled_mono now)|]. split; [rewrite E, Hrows, fmap_app; symmetry; apply effects_snoc|].
  intros T. rewrite filter_app, fmap_app. destruct (decide (now <= T)) as [HT|HT].
  - rewrite (as_of_now now) by done. rewrite E, Hrows, filter_cons_True by done. rewrite filter_all.
    + symmetry. apply reflexive_eq, effects_snoc.
    + rewrite list.Forall_forall in Hb. intros x Hx. specialize (Hb x.1). rewrite list_elem_of_fmap in Hb.
      specialize (Hb (ex_intro _ x (conj eq_refl Hx))). lia.
  - rewrite Hpast by lia. rewrite filter_cons_False by (simpl; lia). by rewrite app_nil_r.
Qed.

(** C9: queries into the past.  After changes made in the order of the clock, a query AS
    OF time [T] returns the rows the table had after the changes made until [T] and before
    all later ones, each as often as it occurred, whatever happened since; [T] in the
    future gives the rows of now. *)
Theorem as_of_is_past_state names t0 (cs : list (Z * change)) (T : Z) (Hclock : StronglySorted Z.le cs.*1) :
  query_as_of T (apply_all (new names t0) cs) ≡ₚ effects (filter (λ c : Z * change, c.1 <= T) cs).*2.
Proof.
  destruct (Forall_bounded cs.*1) as [last Hl]. by apply (apply_all_spec names t0 cs Hclock last Hl).
Qed.

Definition is_key (k : Z) (r : row) : bool := match r with pk :: _ => Z.eqb pk k | [] => false end.

Lemma as_of_is_past_state_witness :
  query_as_of 15 (apply_all (new [] 0) [(10, Insert [1; 100]); (10, Insert [2; 200]); (15, Update (is_key 1) [1; 101]); (20, Delete (is_key 2))])
    ≡ₚ [[1; 101]; [2; 200]].
Proof.
  etrans; [apply as_of_is_past_state|by vm_compute].
  repeat first [apply SSorted_cons | apply SSorted_nil | apply Forall_cons; split; [simpl; lia|] | apply Forall_nil; done].
Defined.

(** BETWEEN leaves out the versions that are still current, and keeps a version that had
    ended when the interval starts. *)
Theorem between_misses_current :
  let t := apply_all (new [] 0) [(10, Insert [1]); (20, Update (is_key 1) [2])] in
  query_between 20 30 t = [mkHR [1] 10 20] ∧ query_as_of 20 t = [[2]].
Proof. by vm_compute. Qed.
End TemporalM.
