(* ===== verification/Vectorized.v ===== *)
(** * Vectorised filters and aggregates (src/src/exec/vectorized.rs)

    Predicates over whole columns as boolean masks, and aggregates under a mask.  An
    index out of range, which panics, is [None].  [xxh3_64] and the bits of a float
    literal are parameters. *)

From Stdlib Require Import ZArith Lia Ascii String Floats.SpecFloat.
From stdpp Require Import prelude list numbers gmap.
From S2P Require Import Prelude Bitmap Lexer Parser.
Local Open Scope Z_scope.

Module VectorizedM.
Import LexerM ParserM.

(** ** Conversions of the standard library *)

(** [f64::to_bits]. *)
Definition f64_to_bits (f : spec_float) : Z :=
  match f with
  | S754_zero s => if s then 2 ^ 63 else 0
  | S754_infinity s => (if s then 2 ^ 63 else 0) + 2047 * 2 ^ 52
  | S754_nan => 2047 * 2 ^ 52 + 2 ^ 51
  | S754_finite s m e =>
    (if s then 2 ^ 63 else 0) +
    (if Z.ltb (Zpos m) (2 ^ 52) then Zpos m else (e + 1075) * 2 ^ 52 + (Zpos m - 2 ^ 52))
  end.

(** [n as f64] of a [u64]. *)
Definition u64_as_f64 (n : Z) : spec_float := binary_normalize 53 1024 n 0 false.
Definition f64_div (a b : spec_float) : spec_float := SFdiv 53 1024 a b.

(** [s.parse::<u64>()] and [s.parse::<i64>()]. *)
Definition parse_digits (s : text) : option Z :=
  if bool_decide (s = []) || existsb (λ c, negb (is_digit c)) s then None else Some (digits_value s).
Definition parse_u64 (s : text) : option Z :=
  v ← parse_digits (match s with c :: s' => if Z.eqb c 43 then s' else s | [] => [] end);
  if Z.ltb v (2 ^ 64) then Some v else None.
Definition parse_i64 (s : text) : option Z :=
  match s with
  | c :: s' =>
    if Z.eqb c 45 then v ← parse_digits s'; if Z.leb v (2 ^ 63) then Some (- v) else None
    else v ← parse_digits (if Z.eqb c 43 then s' else s); if Z.ltb v (2 ^ 63) then Some v else None
  | [] => None
  end.

(** The UTF-8 bytes of a string. *)
Definition utf8_char (c : Z) : list Z :=
  if Z.ltb c 0x80 then [c]
  else if Z.ltb c 0x800 then [0xC0 + c / 64; 0x80 + c mod 64]
  else if Z.ltb c 0x10000 then [0xE0 + c / 4096; 0x80 + (c / 64) mod 64; 0x80 + c mod 64]
  else [0xF0 + c / 262144; 0x80 + (c / 4096) mod 64; 0x80 + (c / 64) mod 64; 0x80 + c mod 64].
Definition as_bytes (s : text) : list Z := concat (utf8_char <$> s).

(** [name.split('.').nth(1)]. *)
Fixpoint until_dot (s : text) : text :=
  match s with c :: s' => if Z.eqb c 46 then [] else c :: until_dot s' | [] => [] end.
Fixpoint after_dot (s : text) : option text :=
  match s with c :: s' => if Z.eqb c 46 then Some (until_dot s') else after_dot s' | [] => None end.

Fixpoint position {A} (p : A → bool) (l : list A) : option nat :=
  match l with [] => None | x :: l => if p x then Some 0%nat else S <$> position p l end.

(** ** Masks *)

(** [for (i, &c) in col.iter().enumerate() { out[i] = p(c); }]. *)
Definition filter_into (p : Z → bool) (col : list Z) (out : list bool) : option (list bool) :=
  if bool_decide (length col <= length out)%nat then Some ((p <$> col) ++ drop (length col) out) else None.

Definition filter_eq (col : list Z) (value : Z) := filter_into (λ c, Z.eqb c value) col.
Definition filter_ne (col : list Z) (value : Z) := filter_into (λ c, negb (Z.eqb c value)) col.
Definition filter_lt (col : list Z) (value : Z) := filter_into (λ c, Z.ltb c value) col.
Definition filter_gt (col : list Z) (value : Z) := filter_into (λ c, Z.ltb value c) col.
Definition filter_le (col : list Z) (value : Z) := filter_into (λ c, Z.leb c value) col.
Definition filter_ge (col : list Z) (value : Z) := filter_into (λ c, Z.leb value c) col.

(** [for i in 0..left.len() { out[i] = f(left[i], right[i]); }]. *)
Definition zip_into (f : bool → bool → bool) (left right out : list bool) : option (list bool) :=
  if bool_decide (length left <= length right)%nat && bool_decide (length left <= length out)%nat
  then Some (zip_with f left right ++ drop (length left) out) else None.
Definition and_mask := zip_into andb.
Definition or_mask := zip_into orb.

Section eval.
Context (uni_upper : Z → list Z) (xxh3_64 : list Z → Z) (float_bits : text → Z).

(** Bytes shifted to their place; a shift by 64 or more wraps around. *)
Fixpoint hex_cell (i : nat) (acc : Z) (bytes : list Z) : Z :=
  match bytes with
  | [] => acc
  | b :: bytes => hex_cell (S i) (Z.lor acc (wrap_u 64 (Z.shiftl b ((8 * Z.of_nat i) mod 64)))) bytes
  end.

Definition value_to_u64 (v : Value) : Z :=
  match v with
  | VInt i => wrap_u 64 i
  | VFloat f => float_bits f
  | VString s =>
    match parse_u64 s with
    | Some n => n
    | None => match parse_i64 s with Some n => wrap_u 64 n | None => xxh3_64 (as_bytes s) end
    end
  | VHex bytes => hex_cell 0 0 bytes
  end.

(** The last resort reads the name as an index. *)
Definition resolve_name (name : text) (column_names : list text) : option nat :=
  match position (λ n, text_eqb n name) column_names with
  | Some idx => Some idx
  | None =>
    match (bare ← after_dot name; position (λ n, text_eqb n bare) column_names) with
    | Some idx => Some idx
    | None => Z.to_nat <$> parse_u64 name
    end
  end.

Definition extract_col_and_value_batch (left right : Expr) (column_names : list text) : option nat * option Z :=
  match left, right with
  | Column name, Literal v | Literal v, Column name => (resolve_name name column_names, Some (value_to_u64 v))
  | _, _ => (None, None)
  end.

Definition extract_col_and_string (left right : Expr) (column_names : list text) : option nat * option text :=
  match left, right with
  | Column name, Literal (VString s) | Literal (VString s), Column name => (resolve_name name column_names, Some s)
  | _, _ => (None, None)
  end.

Definition compare_into (op : text) (col : list Z) (value : Z) (mask : list bool) : option (list bool) :=
  if text_eqb op (K "=") then filter_eq col value mask
  else if text_eqb op (K "!=") then filter_ne col value mask
  else if text_eqb op (K "<") then filter_lt col value mask
  else if text_eqb op (K ">") then filter_gt col value mask
  else if text_eqb op (K "<=") then filter_le col value mask
  else if text_eqb op (K ">=") then filter_ge col value mask
  else Some mask.

Section where_.
Context (columns : list (list Z)) (column_names : list text) (row_count : nat).

Fixpoint eval_where (e : Expr) (mask : list bool) : option (list bool) :=
  match e with
  | Binary l op r =>
    let op_upper := upper uni_upper op in
    if text_eqb op_upper (K "AND") then
      left_mask ← eval_where l mask;
      right_mask ← eval_where r (replicate row_count true);
      and_mask left_mask right_mask left_mask
    else if text_eqb op_upper (K "OR") then
      left_mask ← eval_where l (replicate row_count true);
      right_mask ← eval_where r (replicate row_count true);
      or_mask left_mask right_mask mask
    else
      match extract_col_and_value_batch l r column_names with
      | (Some col_idx, Some val) => col ← columns !! col_idx; compare_into op_upper col val mask
      | _ =>
        if text_eqb op_upper (K "LIKE") || text_eqb op_upper (K "NOT LIKE") then
          match extract_col_and_string l r column_names with
          | (Some col_idx, Some pattern) =>
            col ← columns !! col_idx;
            m ← filter_into (λ c, text_eqb pattern (K "%") || Z.eqb c (xxh3_64 (as_bytes pattern))) col mask;
            Some (if text_eqb op_upper (K "NOT LIKE") then map negb m else m)
          | _ => Some mask
          end
        else Some mask
      end
  | _ => Some mask
  end.

(** [(0..row_count).filter(|&i| mask[i])]. *)
Definition mask_rows (mask : list bool) (n : nat) : option (list nat) :=
  if bool_decide (n <= length mask)%nat then Some (filter (λ i, mask !! i = Some true) (seq 0 n)) else None.

Definition filter_rows (where_expr : Expr) : option (list nat) :=
  mask ← eval_where where_expr (replicate row_count true); mask_rows mask row_count.
End where_.
End eval.

(** ** Aggregates *)

(** [for (i, &v) in col.iter().enumerate() { if mask[i] { acc = f(acc, v); } }]. *)
Fixpoint masked_fold {A} (f : A → Z → A) (acc : A) (col : list Z) (mask : list bool) : option A :=
  match col, mask with
  | [], _ => Some acc
  | v :: col, m :: mask => masked_fold f (if m : bool then f acc v else acc) col mask
  | _ :: _, [] => None
  end.

Definition U64_MAX : Z := 2 ^ 64 - 1.

Definition sum_masked (col : list Z) (mask : list bool) : option Z :=
  sum ← masked_fold wrapping_add 0 col mask; Some (f64_to_bits (u64_as_f64 sum)).
Definition count_masked (mask : list bool) : Z := Z.of_nat (length (filter (λ b, b = true) mask)).
Definition min_masked (col : list Z) (mask : list bool) : option Z :=
  min ← masked_fold (λ m v, if Z.ltb v m then v else m) U64_MAX col mask;
  Some (if Z.eqb min U64_MAX then 0 else min).
Definition max_masked (col : list Z) (mask : list bool) : option Z :=
  masked_fold (λ m v, if Z.ltb m v then v else m) 0 col mask.
Definition avg_masked (col : list Z) (mask : list bool) : option Z :=
  '(sum, count) ← masked_fold (λ '(s, c) v, (wrapping_add s v, wrapping_add c 1)) (0, 0) col mask;
  Some (if Z.eqb count 0 then 0 else f64_to_bits (f64_div (u64_as_f64 sum) (u64_as_f64 count))).
Definition count_distinct_masked (col : list Z) (mask : list bool) : option Z :=
  seen ← masked_fold (λ (s : gset Z) v, {[v]} ∪ s) ∅ col mask; Some (Z.of_nat (size seen)).
(** ** Bytes of a character *)
Lemma utf8_bytes c b : 128 <= c → b ∈ utf8_char c → 128 <= b.
Proof.
  intros Hc. unfold utf8_char. rewrite (proj2 (Z.ltb_ge c 128)) by lia.
  repeat case_match; rewrite !elem_of_cons, elem_of_nil; intros Hb; repeat (destruct Hb as [->|Hb]; [Z.to_euclidean_division_equations; lia|]); done.
Qed.
Lemma utf8_ascii c : c < 128 → utf8_char c = [c].
Proof. intros H. unfold utf8_char. by rewrite (proj2 (Z.ltb_lt c 128)). Qed.
End VectorizedM.
