(* ===== verification/Parallel.v ===== *)
(** * Parallel aggregates (src/src/exec/parallel.rs)

    A column is cut into morsels which a thread pool reduces.  The pool (the rayon
    crate) is a parameter: it divides the morsels into a tree of contiguous parts,
    reduces each part in order and combines the results; the number of its threads,
    which sets the morsel size, is a parameter too. *)

From Stdlib Require Import ZArith Lia.
From stdpp Require Import prelude list numbers.
From S2P Require Import Prelude.
Local Open Scope Z_scope.

Module ParallelM.

(** [iter().sum()], [min()], [max()] over [u64]. *)
Definition sum_u64 (l : list Z) : Z := foldl wrapping_add 0 l.
Definition min_u64 (l : list Z) : option Z := match l with [] => None | x :: l => Some (foldl Z.min x l) end.
Definition max_u64 (l : list Z) : option Z := match l with [] => None | x :: l => Some (foldl Z.max x l) end.

Record Morsel := mkMorsel { start : nat; end_ : nat }.

(** Every turn moves [start], so [row_count] turns are enough. *)
Fixpoint split_loop (fuel : nat) (row_count morsel_size : nat) (from : nat) : list Morsel :=
  match fuel with
  | O => []
  | S fuel =>
    if Nat.ltb from row_count then
      let e := Nat.min (from + morsel_size) row_count in mkMorsel from e :: split_loop fuel row_count morsel_size e
    else []
  end.
Definition split_morsels (row_count morsel_size : nat) : list Morsel :=
  if Nat.eqb row_count 0 || Nat.eqb morsel_size 0 then [] else split_loop row_count row_count morsel_size 0.

Inductive tree (A : Type) := Part (xs : list A) | Join (l r : tree A).
Arguments Part {A} xs.
Arguments Join {A} l r.

Fixpoint flatten {A} (t : tree A) : list A := match t with Part xs => xs | Join l r => flatten l ++ flatten r end.
Fixpoint reduce {A C} (part : list A → C) (join : C → C → C) (t : tree A) : C :=
  match t with Part xs => part xs | Join l r => join (reduce part join l) (reduce part join r) end.

Definition join_opt (f : Z → Z → Z) (a b : option Z) : option Z :=
  match a, b with Some a, Some b => Some (f a b) | Some a, None => Some a | None, b => b end.

Section parallel.
Context (threads : nat) (pool : list Morsel → tree Morsel).

Definition morsels (len : nat) : list Morsel := split_morsels len (Nat.max (len / Nat.max threads 1) 1024).
Definition part {A} (l : list A) (m : Morsel) : list A := slice (start m) (end_ m - start m) l.

Definition par_sum (f : Morsel → Z) (len : nat) : Z :=
  reduce (λ ms, sum_u64 (map f ms)) wrapping_add (pool (morsels len)).

Definition parallel_count (row_count : nat) : Z :=
  if Nat.eqb row_count 0 then 0 else par_sum (λ m, Z.of_nat (end_ m - start m)) row_count.
Definition parallel_sum (col : list Z) : Z :=
  if bool_decide (col = []) then 0 else par_sum (λ m, sum_u64 (part col m)) (length col).
Definition parallel_min (col : list Z) : Z :=
  if bool_decide (col = []) then 0
  else default 0 (reduce (λ ms, min_u64 (omap (λ m, min_u64 (part col m)) ms)) (join_opt Z.min) (pool (morsels (length col)))).
Definition parallel_max (col : list Z) : Z :=
  if bool_decide (col = []) then 0
  else default 0 (reduce (λ ms, max_u64 (omap (λ m, max_u64 (part col m)) ms)) (join_opt Z.max) (pool (morsels (length col)))).
Definition parallel_count_masked (mask : list bool) : Z :=
  if bool_decide (mask = []) then 0
  else par_sum (λ m, Z.of_nat (length (filter (λ b, b = true) (part mask m)))) (length mask).

(** Unequal lengths fail an assertion. *)
Definition parallel_sum_masked (col : list Z) (mask : list bool) : option Z :=
  if negb (bool_decide (length col = length mask)) then None
  else if bool_decide (col = []) then Some 0
  else Some (par_sum (λ m, sum_u64 (map fst (filter (λ p : Z * bool, p.2 = true) (zip (part col m) (part mask m))))) (length col)).
End parallel.

(** ** Morsels cover the rows in order *)
Lemma split_loop_concat {A} (l : list A) fuel size from :
  (0 < size)%nat → (length l <= from + fuel)%nat → concat (part l <$> split_loop fuel (length l) size from) = drop from l.
Proof.
  intros Hs. revert from. induction fuel as [|fuel IH]; intros from Hf; cbn [split_loop].
  - rewrite drop_ge by lia. done.
  - destruct (Nat.ltb_spec from (length l)) as [Hlt|Hge]; [|by rewrite drop_ge by lia].
    cbv zeta. rewrite fmap_cons. cbn [concat]. rewrite IH by lia. unfold part, slice. cbn [start end_].
    set (e := Nat.min _ _). assert (from <= e)%nat by lia.
    rewrite <- (take_drop (e - from) (drop from l)) at 2. rewrite drop_drop. do 2 f_equal. lia.
Qed.

Lemma morsels_concat {A} threads (l : list A) : concat (part l <$> morsels threads (length l)) = l.
Proof.
  unfold morsels, split_morsels. destruct l as [|x l]; [done|]. set (l' := x :: l).
  destruct (Nat.eqb_spec (length l') 0); [done|]. destruct (Nat.eqb_spec (Nat.max (length l' / Nat.max threads 1) 1024) 0); [lia|].
  cbn [orb]. rewrite split_loop_concat; [done|lia|lia].
Qed.

(** A reduction that respects concatenation does not depend on the tree. *)
Lemma reduce_flatten {A C} (f : list A → C) (join : C → C → C) t :
  (∀ a b, f (a ++ b) = join (f a) (f b)) → reduce f join t = f (flatten t).
Proof. intros H. induction t as [xs|l IHl r IHr]; simpl; [done|]. by rewrite IHl, IHr, H. Qed.

Lemma sum_u64_from acc l : in_u 64 acc → foldl wrapping_add acc l = wrap_u 64 (acc + foldr Z.add 0 l).
Proof.
  revert acc. induction l as [|x l IH]; intros acc Ha; simpl.
  - rewrite Z.add_0_r. symmetry. by apply wrap_u_small.
  - rewrite IH by (apply in_u_wrap; lia). unfold wrapping_add, wrap_u. rewrite Zplus_mod_idemp_l. f_equal. lia.
Qed.

Lemma sum_u64_mod l : sum_u64 l = wrap_u 64 (foldr Z.add 0 l).
Proof. apply sum_u64_from. unfold in_u. lia. Qed.

Lemma sum_u64_app a b : sum_u64 (a ++ b) = wrapping_add (sum_u64 a) (sum_u64 b).
Proof.
  rewrite !sum_u64_mod. unfold wrapping_add, wrap_u. rewrite foldr_app, Zplus_mod_idemp_l, Zplus_mod_idemp_r. f_equal.
  induction a as [|x a IH]; simpl; lia.
Qed.

Lemma sum_u64_concat ls : sum_u64 (map sum_u64 ls) = sum_u64 (concat ls).
Proof.
  induction ls as [|l ls IH]; [done|]. cbn [map concat]. rewrite sum_u64_app, <- IH.
  rewrite (sum_u64_mod (_ :: _)), (sum_u64_mod (map _ _)). unfold wrapping_add, wrap_u. cbn [foldr]. by rewrite Zplus_mod_idemp_r.
Qed.

(** ** Minimum and maximum *)
Section extremum.
Context (f : Z → Z → Z) (Hassoc : ∀ a b c, f a (f b c) = f (f a b) c).

Definition extremum (l : list Z) : option Z := match l with [] => None | x :: l => Some (foldl f x l) end.

Lemma foldl_assoc x y l : foldl f (f x y) l = f x (foldl f y l).
Proof. clear -Hassoc. revert y. induction l as [|z l IH]; intros y; simpl; [done|]. by rewrite <- Hassoc, IH. Qed.

Lemma extremum_app a b : extremum (a ++ b) = join_opt f (extremum a) (extremum b).
Proof.
  destruct a as [|x a]; [done|]. destruct b as [|y b]; [by rewrite app_nil_r|]. simpl. by rewrite foldl_app, <- foldl_assoc.
Qed.

Lemma extremum_concat ls : extremum (omap extremum ls) = extremum (concat ls).
Proof.
  induction ls as [|l ls IH]; [done|]. cbn [concat]. rewrite extremum_app, <- IH.
  destruct l as [|x l]; [done|]. cbn [extremum omap list_omap].
  change (Some (foldl f (foldl f x l) (omap extremum ls)) = join_opt f (Some (foldl f x l)) (extremum (omap extremum ls))).
  destruct (omap extremum ls) as [|y m]; [done|]. simpl. by rewrite <- foldl_assoc.
Qed.
End extremum.

Definition count_true (mask : list bool) : Z := Z.of_nat (length (filter (λ b, b = true) mask)).

Lemma count_concat (ls : list (list bool)) :
  sum_u64 (map count_true ls) = wrap_u 64 (count_true (concat ls)).
Proof.
  rewrite sum_u64_mod. f_equal. induction ls as [|l ls IH]; [done|]. cbn [map foldr concat]. rewrite IH. unfold count_true.
  rewrite list.filter_app, length_app. lia.
Qed.

Section results.
Context (threads : nat) (pool : list Morsel → tree Morsel) (Hpool : ∀ ms, flatten (pool ms) = ms).

Lemma par_sum_spec f len : par_sum threads pool f len = sum_u64 (map f (morsels threads len)).
Proof.
  unfold par_sum. rewrite reduce_flatten, Hpool; [done|]. intros a b. by rewrite map_app, sum_u64_app.
Qed.

Lemma parallel_sum_eq col : parallel_sum threads pool col = sum_u64 col.
Proof.
  unfold parallel_sum. case_bool_decide as E; [by rewrite E|]. rewrite par_sum_spec.
  rewrite <- (map_map (part col) sum_u64), sum_u64_concat. f_equal. apply morsels_concat.
Qed.

Lemma parallel_extremum_eq f col : (∀ a b c, f a (f b c) = f (f a b) c) →
  reduce (λ ms, extremum f (omap (λ m, extremum f (part col m)) ms)) (join_opt f) (pool (morsels threads (length col))) = extremum f col.
Proof.
  intros Hf. rewrite reduce_flatten, Hpool; [|intros a b; by rewrite omap_app, extremum_app].
  transitivity (extremum f (omap (extremum f) (part col <$> morsels threads (length col)))).
  - f_equal. induction (morsels _ _) as [|m ms IH]; [done|]. rewrite fmap_cons. cbn [omap list_omap].
    change (list_omap ?g ?l) with (omap g l). by rewrite IH.
  - by rewrite extremum_concat, morsels_concat.
Qed.

Lemma parallel_count_masked_eq mask : parallel_count_masked threads pool mask = wrap_u 64 (count_true mask).
Proof.
  unfold parallel_count_masked. case_bool_decide as E; [by rewrite E|]. rewrite par_sum_spec.
  rewrite <- (map_map (part mask) count_true), count_concat. by rewrite morsels_concat.
Qed.

(** Cells and mask are cut at the same places. *)
Lemma parallel_sum_masked_eq col mask : length col = length mask →
  parallel_sum_masked threads pool col mask = Some (sum_u64 (map fst (filter (λ p : Z * bool, p.2 = true) (zip col mask)))).
Proof.
  intros Hl. unfold parallel_sum_masked. rewrite bool_decide_true by done. simpl.
  case_bool_decide as E; [by rewrite E in *|]. rewrite par_sum_spec. f_equal.
  set (sel := λ l : list (Z * bool), map fst (filter (λ p : Z * bool, p.2 = true) l)).
  assert (∀ m, zip (part col m) (part mask m) = part (zip col mask) m) as Hpart.
  { intros m. unfold part, slice. by rewrite zip_with_drop, zip_with_take. }
  erewrite (map_ext _ (λ m, sum_u64 (sel (part (zip col mask) m)))) by (intros m; by rewrite <- Hpart).
  rewrite <- (map_map (λ m, sel (part (zip col mask) m)) sum_u64), sum_u64_concat. f_equal.
  assert (length (zip col mask) = length col) as Hz by (rewrite length_zip; lia).
  transitivity (sel (concat (part (zip col mask) <$> morsels threads (length (zip col mask))))); [|by rewrite morsels_concat].
  rewrite Hz. induction (morsels _ _) as [|m ms IH]; [done|]. cbn [map concat]. rewrite IH. rewrite fmap_cons. cbn [concat]. unfold sel.
  by rewrite list.filter_app, map_app.
Qed.
End results.

(** the parallel aggregates equal the sequential ones.  For any number of threads and
    any way in which the pool divides the morsels and combines partial results, the
    parallel sum (modulo 2^64), minimum, maximum and the counts and sums under a mask
    are those of one pass over the column. *)
Theorem parallel_is_sequential threads pool col mask :
  (∀ ms, flatten (pool ms) = ms) → length col = length mask →
  parallel_sum threads pool col = sum_u64 col ∧
  parallel_min threads pool col = default 0 (min_u64 col) ∧
  parallel_max threads pool col = default 0 (max_u64 col) ∧
  parallel_count_masked threads pool mask = wrap_u 64 (Z.of_nat (length (filter (λ b, b = true) mask))) ∧
  parallel_sum_masked threads pool col mask = Some (sum_u64 (map fst (filter (λ p : Z * bool, p.2 = true) (zip col mask)))).
Proof.
  intros Hpool Hl. split_and!; [by apply parallel_sum_eq| | |by apply parallel_count_masked_eq|by apply parallel_sum_masked_eq].
  - unfold parallel_min. case_bool_decide as E; [by rewrite E|]. f_equal. apply (parallel_extremum_eq threads pool Hpool Z.min). lia.
  - unfold parallel_max. case_bool_decide as E; [by rewrite E|]. f_equal. apply (parallel_extremum_eq threads pool Hpool Z.max). lia.
Qed.

Lemma parallel_is_sequential_witness :
  parallel_sum 4 (λ ms, Join (Part (take 1 ms)) (Part (drop 1 ms))) [7; 2 ^ 64 - 1; 3] = 9.
Proof.
  refine (eq_trans (proj1 (parallel_is_sequential 4 (λ ms, Join (Part (take 1 ms)) (Part (drop 1 ms)))
    [7; 2 ^ 64 - 1; 3] [true; false; true] _ _)) _); [intros ms; apply take_drop|reflexivity|reflexivity].
Defined.
End ParallelM.
