(* ===== verification/ScanKernels.v ===== *)
(** * Scan kernels (src/src/kernel/scan.rs)

    The scalar, AVX2 and AVX-512 counting kernels.  A vector comparison yields one mask
    bit per lane ([_mm512_cmp*_epi64_mask], on signed lanes) or eight
    ([_mm256_movemask_epi8]); prefetches have no effect on values.  The sum of a result is
    0.0 throughout and not kept. *)

From Stdlib Require Import ZArith Lia.
From stdpp Require Import prelude list numbers.
From S2P Require Import Prelude Bits.
Local Open Scope Z_scope.

Module ScanKernelsM.

Inductive PredicateOp := OpEq | OpGt | OpLt.

Record KernelParams := mkParams {
  target_u64 : Z; low_u64 : Z; high_u64 : Z; target2_u64 : Z; target3_u64 : Z;
  pred1_op : PredicateOp; pred2_op : PredicateOp; pred3_op : PredicateOp; predicate_count : Z
}.
Record KernelResult := mkKR { count : Z; mask : Z }.

(** [b as u64]. *)
Definition hit (b : bool) : Z := if b then 1 else 0.

(** ** Scalar kernels *)
Fixpoint scan_eq_loop (target : Z) (i : nat) (cells : list Z) (c m : Z) : KernelResult :=
  match cells with
  | [] => mkKR c m
  | x :: cells =>
    let h := hit (Z.eqb x target) in
    scan_eq_loop target (S i) cells (wrapping_add c h) (if Nat.ltb i 64 then Z.lor m (Z.shiftl h (Z.of_nat i)) else m)
  end.
Definition scan_eq_scalar (p : KernelParams) (cells : list Z) : KernelResult := scan_eq_loop (target_u64 p) 0 cells 0 0.

Definition count_cells (one : Z → Z) (cells : list Z) (c : Z) : Z := foldl (λ c x, wrapping_add c (one x)) c cells.

Definition in_bounds (p : KernelParams) (c : Z) : Z := Z.land (hit (Z.leb (low_u64 p) c)) (hit (Z.leb c (high_u64 p))).
Definition scan_range_scalar (p : KernelParams) (cells : list Z) : KernelResult := mkKR (count_cells (in_bounds p) cells 0) 0.

Definition eval_predicate (cell target : Z) (op : PredicateOp) : Z :=
  match op with
  | OpEq => hit (Z.eqb cell target)
  | OpGt => hit (Z.ltb target cell)
  | OpLt => hit (Z.ltb cell target)
  end.

(** Predicates beyond [predicate_count] hold. *)
Definition all_predicates (p : KernelParams) (c : Z) : Z :=
  let n := Z.min (predicate_count p) 3 in
  let p1 := if Z.leb 1 n then eval_predicate c (target_u64 p) (pred1_op p) else 1 in
  let p2 := if Z.leb 2 n then eval_predicate c (target2_u64 p) (pred2_op p) else 1 in
  let p3 := if Z.leb 3 n then eval_predicate c (target3_u64 p) (pred3_op p) else 1 in
  Z.land (Z.land p1 p2) p3.
Definition scan_multi_predicate_scalar (p : KernelParams) (cells : list Z) : KernelResult :=
  mkKR (count_cells (all_predicates p) cells 0) 0.

(** ** Vector kernels *)

(** [while i + w <= cells.len() { count += block(..); i += w; }] and the tail; the length
    of the column bounds the turns. *)
Fixpoint block_count (fuel w : nat) (block : list Z → Z) (one : Z → Z) (cells : list Z) (c : Z) : Z :=
  match fuel with
  | O => c
  | S fuel =>
    if Nat.leb w (length cells) then block_count fuel w block one (drop w cells) (wrapping_add c (block (take w cells)))
    else count_cells one cells c
  end.
Definition vector_count (w : nat) (block : list Z → Z) (one : Z → Z) (cells : list Z) : Z :=
  block_count (S (length cells)) w block one cells 0.

(** One mask bit per lane; lanes are compared as signed integers. *)
Definition lane_mask (p : Z → bool) (lanes : list Z) : Z := pack (p <$> lanes).
Definition ones8 (m : Z) : Z := Z.of_nat (count_ones 8 m).

Definition cmpeq_mask (target : Z) : list Z → Z := lane_mask (λ c, Z.eqb (as_signed 64 c) (as_signed 64 target)).
Definition cmpge_mask (target : Z) : list Z → Z := lane_mask (λ c, Z.leb (as_signed 64 target) (as_signed 64 c)).
Definition cmple_mask (target : Z) : list Z → Z := lane_mask (λ c, Z.leb (as_signed 64 c) (as_signed 64 target)).
Definition cmpgt_mask (target : Z) : list Z → Z := lane_mask (λ c, Z.ltb (as_signed 64 target) (as_signed 64 c)).
Definition cmplt_mask (target : Z) : list Z → Z := lane_mask (λ c, Z.ltb (as_signed 64 c) (as_signed 64 target)).

(** [_mm256_movemask_epi8]: the top bit of every byte of the four lanes. *)
Definition movemask (target : Z) (lanes : list Z) : Z :=
  pack (concat ((λ c, replicate 8 (Z.eqb (as_signed 64 c) (as_signed 64 target))) <$> lanes)).
Definition scan_eq_avx2 (p : KernelParams) (cells : list Z) : KernelResult :=
  mkKR (vector_count 4 (λ lanes, Z.of_nat (count_ones 32 (movemask (target_u64 p) lanes)) / 8) (λ c, hit (Z.eqb c (target_u64 p))) cells) 0.

(** The first block's mask, and the tail cells among the first 64. *)
Fixpoint tail_mask (target : Z) (i : nat) (cells : list Z) (m : Z) : Z :=
  match cells with
  | [] => m
  | x :: cells => tail_mask target (S i) cells (if Nat.ltb i 64 then Z.lor m (Z.shiftl (hit (Z.eqb x target)) (Z.of_nat i)) else m)
  end.
Definition scan_eq_avx512_count (p : KernelParams) (cells : list Z) : Z :=
  vector_count 8 (λ lanes, ones8 (cmpeq_mask (target_u64 p) lanes)) (λ c, hit (Z.eqb c (target_u64 p))) cells.
Definition scan_eq_avx512_l3 (p : KernelParams) (cells : list Z) : KernelResult :=
  let first := if Nat.leb 8 (length cells) then cmpeq_mask (target_u64 p) (take 8 cells) else 0 in
  let done := (length cells / 8 * 8)%nat in
  mkKR (scan_eq_avx512_count p cells) (tail_mask (target_u64 p) done (drop done cells) first).
Definition scan_eq_avx512_ddr5 (p : KernelParams) (cells : list Z) : KernelResult := mkKR (scan_eq_avx512_count p cells) 0.
Definition scan_eq_avx512_cxl (p : KernelParams) (cells : list Z) : KernelResult := mkKR (scan_eq_avx512_count p cells) 0.

Definition scan_range_avx512_l3 (p : KernelParams) (cells : list Z) : KernelResult :=
  mkKR (vector_count 8 (λ lanes, ones8 (Z.land (cmpge_mask (low_u64 p) lanes) (cmple_mask (high_u64 p) lanes))) (in_bounds p) cells) 0.

Definition cmp_mask (target : Z) (op : PredicateOp) : list Z → Z :=
  match op with OpEq => cmpeq_mask target | OpGt => cmpgt_mask target | OpLt => cmplt_mask target end.

(** [_mm512_ternarylogic_epi64(.., 0x80)] is the conjunction, bit by bit. *)
Definition fused_mask (p : KernelParams) (lanes : list Z) : Z :=
  let n := Z.min (predicate_count p) 3 in
  let m1 := if Z.leb 1 n then cmp_mask (target_u64 p) (pred1_op p) lanes else 255 in
  let m2 := if Z.leb 2 n then cmp_mask (target2_u64 p) (pred2_op p) lanes else 255 in
  let m3 := if Z.leb 3 n then cmp_mask (target3_u64 p) (pred3_op p) lanes else 255 in
  Z.land (Z.land m1 m2) m3.
Definition scan_multi_predicate_avx512 (p : KernelParams) (cells : list Z) : KernelResult :=
  mkKR (vector_count 8 (λ lanes, ones8 (fused_mask p lanes)) (all_predicates p) cells) 0.

(** ** Counting in blocks *)
Lemma count_cells_app one a b c : count_cells one (a ++ b) c = count_cells one b (count_cells one a c).
Proof. apply foldl_app. Qed.

(** A block that counts its lanes as the scalar loop does leaves the count unchanged. *)
Lemma block_count_eq fuel w block one cells c :
  (0 < w)%nat → (length cells < fuel)%nat → in_u 64 c →
  (∀ lanes c, length lanes = w → lanes ⊆ cells → in_u 64 c → wrapping_add c (block lanes) = count_cells one lanes c) →
  block_count fuel w block one cells c = count_cells one cells c.
Proof.
  intros Hw. revert cells c. induction fuel as [|fuel IH]; intros cells c Hf Hc Hb; [lia|]. cbn [block_count].
  destruct (Nat.leb_spec w (length cells)) as [Hle|]; [|done]. rewrite IH.
  - rewrite Hb; [|rewrite length_take; lia|intros x Hx; by eapply elem_of_take in Hx as (i & Hi%list_elem_of_lookup_2 & _)|done].
    rewrite <- count_cells_app. by rewrite take_drop.
  - rewrite length_drop. lia.
  - apply in_u_wrap. lia.
  - intros lanes c' Hl Hs Hc'. apply Hb; [done| |done]. intros x Hx. eapply subseteq_drop. by apply Hs.
Qed.

(** The scalar loop adds the number of hits. *)
Lemma count_cells_hits (p : Z → bool) one cells c :
  (∀ x, x ∈ cells → one x = hit (p x)) → in_u 64 c → count_cells one cells c = wrap_u 64 (c + Z.of_nat (count_true (p <$> cells))).
Proof.
  revert c. induction cells as [|x cells IH]; intros c Ho Hc.
  - simpl. change (count_true []) with 0%nat. rewrite Z.add_0_r. symmetry. by apply wrap_u_small.
  - unfold count_cells. cbn [foldl]. fold (count_cells one cells (wrapping_add c (one x))).
    rewrite IH; [|intros; apply Ho; by right|apply in_u_wrap; lia]. rewrite fmap_cons, count_true_cons, (Ho x) by left.
    unfold wrapping_add, wrap_u. rewrite Zplus_mod_idemp_l. f_equal. unfold hit. destruct (p x); lia.
Qed.

Lemma ones8_lanes (p : Z → bool) m lanes : length lanes = 8%nat → bits_of 8 m = p <$> lanes → ones8 m = Z.of_nat (count_true (p <$> lanes)).
Proof. intros Hl Hb. unfold ones8. by rewrite count_ones_spec, Hb. Qed.

Lemma bits_lane_mask p lanes : length lanes = 8%nat → bits_of 8 (lane_mask p lanes) = p <$> lanes.
Proof. intros Hl. unfold lane_mask. rewrite <- (length_fmap p lanes) in Hl. rewrite <- Hl at 1. apply bits_of_pack. Qed.

Lemma bits_all : bits_of 8 255 = replicate 8 true.
Proof. reflexivity. Qed.

(** A vector kernel whose blocks have the bits of [p] counts the cells that satisfy it. *)
Lemma vector_count_spec (p : Z → bool) block one cells :
  (∀ x, x ∈ cells → one x = hit (p x)) →
  (∀ lanes, length lanes = 8%nat → lanes ⊆ cells → bits_of 8 (block lanes) = p <$> lanes) →
  vector_count 8 (λ lanes, ones8 (block lanes)) one cells = wrap_u 64 (Z.of_nat (count_true (p <$> cells))).
Proof.
  intros Ho Hb. assert (in_u 64 0) as H0 by (unfold in_u; lia). unfold vector_count.
  rewrite block_count_eq; [by rewrite (count_cells_hits p)|lia|lia|done|]. intros lanes c Hl Hs Hc.
  rewrite (ones8_lanes p _ lanes) by auto. rewrite (count_cells_hits p); [done| |done]. intros x Hx. by apply Ho, Hs.
Qed.

Lemma as_signed_eq a b : in_u 64 a → in_u 64 b → Z.eqb (as_signed 64 a) (as_signed 64 b) = Z.eqb a b.
Proof.
  intros Ha Hb. unfold as_signed, in_u in *. rewrite !Z.mod_small by lia.
  destruct (Z.ltb_spec a (2 ^ (64 - 1))), (Z.ltb_spec b (2 ^ (64 - 1))); lia.
Qed.

Lemma as_signed_small a : 0 <= a < 2 ^ 63 → as_signed 64 a = a.
Proof. intros Ha. unfold as_signed. rewrite Z.mod_small by lia. destruct (Z.ltb_spec a (2 ^ (64 - 1))); lia. Qed.

Lemma cmpeq_bits target lanes : length lanes = 8%nat → in_u 64 target → Forall (in_u 64) lanes →
  bits_of 8 (cmpeq_mask target lanes) = (λ c, Z.eqb c target) <$> lanes.
Proof.
  intros Hl Ht Hc. unfold cmpeq_mask. rewrite bits_lane_mask by done. apply list_fmap_ext. intros i x Hx.
  apply as_signed_eq; [|done]. by eapply (Forall_lookup_1 _ _ _ _ Hc).
Qed.

(** *** Equality *)
Lemma count_repeat (p : Z → bool) lanes : count_true (concat ((λ c, replicate 8 (p c)) <$> lanes)) = (8 * count_true (p <$> lanes))%nat.
Proof.
  induction lanes as [|x lanes IH]; [done|]. rewrite !fmap_cons. cbn [concat]. rewrite count_true_app, IH, count_true_cons.
  destruct (p x); [change (count_true (replicate 8 true)) with 8%nat|change (count_true (replicate 8 false)) with 0%nat]; lia.
Qed.

Lemma movemask_count target lanes : length lanes = 4%nat → in_u 64 target → Forall (in_u 64) lanes →
  Z.of_nat (count_ones 32 (movemask target lanes)) / 8 = Z.of_nat (count_true ((λ c, Z.eqb c target) <$> lanes)).
Proof.
  intros Hl Ht Hc. unfold movemask. set (l := concat _). assert (length l = 32%nat) as Hlen.
  { subst l. clear -Hl. do 5 (destruct lanes as [|? lanes]; try done). }
  rewrite count_ones_spec. rewrite <- Hlen, bits_of_pack. subst l. rewrite count_repeat.
  rewrite Nat2Z.inj_mul, Z.mul_comm, Z.div_mul by lia. f_equal. f_equal. apply list_fmap_ext. intros i x Hx.
  apply as_signed_eq; [|done]. by eapply (Forall_lookup_1 _ _ _ _ Hc).
Qed.

Lemma scan_eq_loop_count target i cells c m : in_u 64 c →
  count (scan_eq_loop target i cells c m) = wrap_u 64 (c + Z.of_nat (count_true ((λ x, Z.eqb x target) <$> cells))).
Proof.
  revert i c m. induction cells as [|x cells IH]; intros i c m Hc; cbn [scan_eq_loop count].
  - change (count_true (_ <$> [])) with 0%nat. rewrite Z.add_0_r. symmetry. by apply wrap_u_small.
  - rewrite IH by (apply in_u_wrap; lia). rewrite fmap_cons, count_true_cons. unfold wrapping_add, wrap_u.
    rewrite Zplus_mod_idemp_l. f_equal. unfold hit. destruct (Z.eqb x target); lia.
Qed.

Lemma forall_sub (P : Z → Prop) (l k : list Z) : Forall P k → l ⊆ k → Forall P l.
Proof. rewrite !list.Forall_forall. intros H Hs x Hx. by apply H, Hs. Qed.

Lemma avx512_eq_count p cells : in_u 64 (target_u64 p) → Forall (in_u 64) cells →
  scan_eq_avx512_count p cells = wrap_u 64 (Z.of_nat (count_true ((λ c, Z.eqb c (target_u64 p)) <$> cells))).
Proof.
  intros Ht Hc. apply vector_count_spec; [done|]. intros lanes Hl Hs. apply cmpeq_bits; [done|done|]. by eapply forall_sub.
Qed.

Lemma avx2_eq_count p cells : in_u 64 (target_u64 p) → Forall (in_u 64) cells →
  count (scan_eq_avx2 p cells) = wrap_u 64 (Z.of_nat (count_true ((λ c, Z.eqb c (target_u64 p)) <$> cells))).
Proof.
  intros Ht Hc. assert (in_u 64 0) as H0 by (unfold in_u; lia). unfold scan_eq_avx2, vector_count. cbn [count].
  rewrite block_count_eq; [by rewrite (count_cells_hits (λ c, Z.eqb c (target_u64 p)))|lia|lia|done|]. intros lanes c Hl Hs Hc'.
  rewrite movemask_count; [|done|done|by eapply forall_sub]. by rewrite (count_cells_hits (λ c, Z.eqb c (target_u64 p))).
Qed.

(** *** Ranges and several predicates, on cells below 2^63 *)
Definition small (z : Z) : Prop := 0 <= z < 2 ^ 63.

Definition bounded (p : KernelParams) (c : Z) : bool := Z.leb (low_u64 p) c && Z.leb c (high_u64 p).
Definition test (target : Z) (op : PredicateOp) (c : Z) : bool :=
  match op with OpEq => Z.eqb c target | OpGt => Z.ltb target c | OpLt => Z.ltb c target end.
Definition tests (p : KernelParams) (c : Z) : bool :=
  let n := Z.min (predicate_count p) 3 in
  (Z.ltb n 1 || test (target_u64 p) (pred1_op p) c) && (Z.ltb n 2 || test (target2_u64 p) (pred2_op p) c) &&
  (Z.ltb n 3 || test (target3_u64 p) (pred3_op p) c).

Lemma land_hit a b : Z.land (hit a) (hit b) = hit (a && b).
Proof. by destruct a, b. Qed.

Lemma in_bounds_hit p c : in_bounds p c = hit (bounded p c).
Proof. apply land_hit. Qed.

Lemma all_predicates_hit p c : all_predicates p c = hit (tests p c).
Proof.
  unfold all_predicates, tests. set (n := Z.min _ _).
  assert (∀ k t op, (if Z.leb k n then eval_predicate c t op else 1) = hit (Z.ltb n k || test t op c)) as E.
  { intros k t op. destruct (Z.leb_spec k n), (Z.ltb_spec n k); try lia; [by destruct op|done]. }
  by rewrite !E, !land_hit.
Qed.

Lemma lane_mask_small (f g : Z → bool) lanes : length lanes = 8%nat → Forall small lanes → (∀ c, small c → f c = g c) →
  bits_of 8 (lane_mask f lanes) = g <$> lanes.
Proof.
  intros Hl Hs Hfg. rewrite bits_lane_mask by done. apply list_fmap_ext. intros i x Hx. apply Hfg. by eapply (Forall_lookup_1 _ _ _ _ Hs).
Qed.

Lemma bits_land (f g : Z → bool) a b lanes : bits_of 8 a = f <$> lanes → bits_of 8 b = g <$> lanes →
  bits_of 8 (Z.land a b) = (λ c, f c && g c) <$> lanes.
Proof.
  intros Ha Hb. rewrite (bits_of_zip andb Z.land), Ha, Hb; [|intros; apply Z.land_spec].
  clear. induction lanes as [|x lanes IH]; [done|]. rewrite !fmap_cons. simpl. by f_equal.
Qed.

Lemma cmp_mask_bits t op lanes : length lanes = 8%nat → small t → Forall small lanes → bits_of 8 (cmp_mask t op lanes) = test t op <$> lanes.
Proof.
  intros Hl Ht Hs. destruct op; cbn [cmp_mask]; apply lane_mask_small; try done; intros c Hc; by rewrite !as_signed_small.
Qed.

Lemma bits_true lanes : length lanes = 8%nat → bits_of 8 255 = (λ _ : Z, true) <$> lanes.
Proof. intros Hl. do 9 (destruct lanes as [|? lanes]; try done). Qed.

Lemma fused_bits p lanes : length lanes = 8%nat → small (target_u64 p) → small (target2_u64 p) → small (target3_u64 p) → Forall small lanes →
  bits_of 8 (fused_mask p lanes) = tests p <$> lanes.
Proof.
  intros Hl H1 H2 H3 Hs. unfold fused_mask, tests. set (n := Z.min _ _).
  assert (∀ k t op, small t → bits_of 8 (if Z.leb k n then cmp_mask t op lanes else 255) = (λ c, Z.ltb n k || test t op c) <$> lanes) as E.
  { intros k t op Ht. destruct (Z.leb_spec k n), (Z.ltb_spec n k); try lia; [by apply cmp_mask_bits|by apply bits_true]. }
  repeat (apply bits_land || by apply E).
Qed.

(** the equality kernels count the same.  On any column and target the scalar, AVX2
    and AVX-512 kernels (L3, DDR5 and CXL) return the number of equal cells; the range
    and multi-predicate AVX-512 kernels return what the scalar ones do when cells and
    bounds are below 2^63. *)
Theorem scan_kernels_agree (p : KernelParams) (cells : list Z) :
  in_u 64 (target_u64 p) → Forall (in_u 64) cells →
  let n := wrap_u 64 (Z.of_nat (count_true ((λ c, Z.eqb c (target_u64 p)) <$> cells))) in
  count (scan_eq_scalar p cells) = n ∧ count (scan_eq_avx2 p cells) = n ∧ count (scan_eq_avx512_l3 p cells) = n ∧
  count (scan_eq_avx512_ddr5 p cells) = n ∧ count (scan_eq_avx512_cxl p cells) = n ∧
  (Forall small cells → small (low_u64 p) → small (high_u64 p) → scan_range_avx512_l3 p cells = scan_range_scalar p cells) ∧
  (Forall small cells → small (target_u64 p) → small (target2_u64 p) → small (target3_u64 p) →
   scan_multi_predicate_avx512 p cells = scan_multi_predicate_scalar p cells).
Proof.
  intros Ht Hc n. assert (in_u 64 0) as H0 by (unfold in_u; lia). split_and!; try by apply avx512_eq_count.
  - unfold scan_eq_scalar. by rewrite scan_eq_loop_count.
  - by apply avx2_eq_count.
  - intros Hs Hlo Hhi. unfold scan_range_avx512_l3, scan_range_scalar. f_equal.
    rewrite (vector_count_spec (bounded p)), (count_cells_hits (bounded p)); try done; try (intros; apply in_bounds_hit).
    intros lanes Hl Hsub. assert (Forall small lanes) as Hs' by (by eapply forall_sub).
    apply bits_land; apply lane_mask_small; try done; intros c Hc'; by rewrite !as_signed_small.
  - intros Hs H1 H2 H3. unfold scan_multi_predicate_avx512, scan_multi_predicate_scalar. f_equal.
    rewrite (vector_count_spec (tests p)), (count_cells_hits (tests p)); try done; try (intros; apply all_predicates_hit).
    intros lanes Hl Hsub. apply fused_bits; try done. by eapply forall_sub.
Qed.

(** beyond 2^63 the range kernels differ: the vector instructions compare signed lanes.
    With the default upper bound u64::MAX the scalar kernel counts every cell above the
    lower bound, and the AVX-512 kernel none of a whole block. *)
Theorem scan_range_signed (c : Z) :
  0 <= c < 2 ^ 63 →
  let p := mkParams 0 0 (2 ^ 64 - 1) 0 0 OpEq OpEq OpEq 0 in
  count (scan_range_scalar p (replicate 8 c)) = 8 ∧ count (scan_range_avx512_l3 p (replicate 8 c)) = 0.
Proof.
  intros Hc p. split.
  - unfold scan_range_scalar. cbn [count]. rewrite (count_cells_hits (λ _, true)); [reflexivity| |unfold in_u; lia].
    intros x Hx. apply elem_of_replicate in Hx as [-> _]. rewrite in_bounds_hit. unfold bounded. cbn [low_u64 high_u64 p].
    destruct (Z.leb_spec 0 c), (Z.leb_spec c (2 ^ 64 - 1)); done || lia.
  - assert (cmple_mask (high_u64 p) (replicate 8 c) = 0) as E.
    { unfold cmple_mask, lane_mask. rewrite fmap_replicate, as_signed_small by done.
      change (as_signed 64 (high_u64 p)) with (-1). by rewrite (proj2 (Z.leb_gt c (-1))) by lia. }
    unfold scan_range_avx512_l3, vector_count. cbn [count length replicate block_count Nat.leb take drop].
    change [c; c; c; c; c; c; c; c] with (replicate 8 c). by rewrite E, Z.land_0_r.
Qed.

Lemma scan_kernels_agree_witness :
  let p := mkParams 7 2 9 7 3 OpEq OpLt OpGt 3 in
  let cells := [7; 2 ^ 64 - 1; 7; 0; 1; 2; 3; 4; 7] in
  count (scan_eq_avx2 p cells) = 3 ∧ count (scan_eq_avx512_l3 p cells) = 3.
Proof.
  destruct (scan_kernels_agree (mkParams 7 2 9 7 3 OpEq OpLt OpGt 3) [7; 2 ^ 64 - 1; 7; 0; 1; 2; 3; 4; 7]) as (_ & H2 & H3 & _);
    [by apply (bool_decide_unpack _)|by apply (bool_decide_unpack _)|]. split; [rewrite H2|rewrite H3]; reflexivity.
Defined.

Lemma scan_range_signed_witness :
  count (scan_range_avx512_l3 (mkParams 0 0 (2 ^ 64 - 1) 0 0 OpEq OpEq OpEq 0) (replicate 8 5)) = 0.
Proof. apply (scan_range_signed 5). lia. Defined.
End ScanKernelsM.
