(* ===== verification/Dispatch.v ===== *)
(** * Kernel-direct dispatch (src/src/engine/dispatch.rs)

    The shape of a query, the mask of its WHERE clause and the execution of each shape.
    A run of the code is [Ok], an error it returns, or a panic.  The order in which a
    hash map yields its keys, [xxh3_64], the bits of a float literal, letter case beyond
    ASCII and the thread pool are parameters. *)

From Stdlib Require Import ZArith Lia Ascii String Floats.SpecFloat.
From stdpp Require Import prelude list numbers gmap.
From S2P Require Import Prelude Nulls Catalog Result Sorting Lexer StringColumn Parser Window Vectorized Parallel.
Local Open Scope Z_scope.

Module DispatchM.
Import LexerM ParserM ResultM SortingM CatalogM VectorizedM ParallelM.

Inductive Fault := Panic | Fail (e : Error).
Abbreviation run := (result Fault).

Definition or_panic {A} (o : option A) : run A := match o with Some a => Ok a | None => Err Panic end.
Definition or_fail {A} (e : Error) (o : option A) : run A := match o with Some a => Ok a | None => Err (Fail e) end.
(** [?] on an [Option] inside a function that returns one. *)
Definition and_then {A B} (m : run (option A)) (f : A → run (option B)) : run (option B) :=
  o ← m; match o with Some a => f a | None => Ok None end.

Fixpoint mapM_run {A B} (f : A → run B) (l : list A) : run (list B) :=
  match l with [] => Ok [] | x :: l => y ← f x; ys ← mapM_run f l; Ok (y :: ys) end.

Inductive QueryShape :=
| CountAll | CountFilter | SumCol | MinMax | CountDistinct | AvgCol | GroupByCount | GroupBySum | GroupByOrderByLimit
| SelectStar | SelectColumn | SelectMulti | Complex.

#[global] Instance QueryShape_eq_dec : EqDecision QueryShape.
Proof. solve_decision. Defined.

Definition is_aggregate (s : SelectItem) : bool := match s with SAggregate _ _ _ => true | _ => false end.
Definition is_expression (s : SelectItem) : bool := match s with SExpression _ _ => true | _ => false end.

Section dispatch.
Context (uni_upper : Z → list Z) (to_lowercase : text → text) (xxh3_64 : list Z → Z) (float_bits : text → Z).
Context (hash_order : list Z → list Z) (threads : nat) (pool : list Morsel → tree Morsel).
Context {TS : Type}.
Abbreviation Table := (Table StringColumnM.StringSearchColumn TS).
Abbreviation up := (upper uni_upper).

(** ** Classification *)
Definition first_aggregate (items : list SelectItem) : option (text * text) :=
  head (omap (λ s, match s with SAggregate f a _ => Some (f, a) | _ => None end) items).

Definition classify_aggregate (func arg : text) (has_where : bool) : QueryShape :=
  let f := up func in
  if text_eqb f (K "COUNT") then (if text_eqb arg (K "*") && negb has_where then CountAll else CountFilter)
  else if text_eqb f (K "COUNT_DISTINCT") then CountDistinct
  else if text_eqb f (K "SUM") then SumCol
  else if text_eqb f (K "AVG") then AvgCol
  else if text_eqb f (K "MIN") || text_eqb f (K "MAX") then MinMax
  else Complex.

Definition classify_query (q : SelectQuery) : QueryShape :=
  if negb (bool_decide (group_by q = [])) then
    match first_aggregate (select q) with
    | None => Complex
    | Some (f, _) =>
      if text_eqb f (K "COUNT") then
        (if negb (bool_decide (order_by q = [])) && bool_decide (is_Some (limit q)) then GroupByOrderByLimit else GroupByCount)
      else if text_eqb f (K "SUM") then GroupBySum
      else Complex
    end
  else
    match select q with
    | [] => Complex
    | [SAggregate func arg _] => classify_aggregate func arg (bool_decide (is_Some (where_clause q)))
    | [SStar] => SelectStar
    | [SColumn _] => SelectColumn
    | [_] => Complex
    | items => if existsb is_aggregate items || existsb is_expression items then Complex else SelectMulti
    end.

Fixpoint expr_needs_tpch_fallback (e : Expr) : bool :=
  match e with
  | Case _ _ | Extract _ _ | Cast _ _ => true
  | Binary l _ r => expr_needs_tpch_fallback l || expr_needs_tpch_fallback r
  | Function _ _ | Column _ | Literal _ => false
  end.

(** ** Columns *)
Definition ends_with (s suffix : text) : bool :=
  bool_decide (length suffix <= length s)%nat && bool_decide (drop (length s - length suffix) s = suffix).

Definition names_column (name col_name : text) : bool :=
  text_eqb col_name name || bool_decide (after_dot col_name = Some name) || ends_with col_name (46 :: name).

Definition resolve_col_name (name : text) (t : Table) : run nat :=
  match column_idx name t with
  | Some idx => Ok idx
  | None =>
    match (bare ← after_dot name; column_idx bare t) with
    | Some idx => Ok idx
    | None => or_fail ENotFound (VectorizedM.position (names_column name) (column_names t))
    end
  end.

Definition resolve_or (d : nat) (name : text) (t : Table) : nat := default d (ok (resolve_col_name name t)).

Definition resolve_agg_col (item : SelectItem) (t : Table) : run nat :=
  match item with
  | SAggregate _ arg _ => if text_eqb arg (K "*") then Ok 0%nat else resolve_col_name arg t
  | _ => Err (Fail EOther)
  end.

Definition string_col (t : Table) (idx : nat) : option StringColumnM.StringSearchColumn := mjoin (string_columns t !! idx).
Definition bitmap (t : Table) (idx : nat) : option NullVec.NullBitmap := mjoin (null_bitmaps t !! idx).

Definition is_cell_null_dispatch (t : Table) (col_idx row_idx : nat) : bool :=
  match bitmap t col_idx with Some bm => NullVec.is_null row_idx bm | None => false end.

Definition adjust_mask_for_nulls (mask : list bool) (t : Table) (col_idx : nat) : list bool :=
  match bitmap t col_idx with
  | None => mask
  | Some bm => imap (λ i m, m && negb (NullVec.is_null i bm)) mask
  end.

(** ** LIKE *)
Definition starts_with (p s : list Z) : bool := bool_decide (take (length p) s = p).

Definition get_str (sc : StringColumnM.StringSearchColumn) (i : nat) : run (list Z) := or_panic (StringColumnM.get sc i).

Definition per_row (sc : StringColumnM.StringSearchColumn) (n : nat) (p : list Z → bool) : run (list bool) :=
  mapM_run (λ i, s ← get_str sc i; Ok (p s)) (seq 0 n).

Definition build_like_mask (sc : StringColumnM.StringSearchColumn) (pattern : text) : run (list bool) :=
  let starts_wild := starts_with (K "%") pattern in
  let ends_wild := ends_with pattern (K "%") in
  let middle := trim_matches 37 pattern in
  let n := StringColumnM.len sc in
  if bool_decide (middle = []) then Ok (replicate n true)
  else
    let has_inner_wild := existsb (λ c, Z.eqb c 37 || Z.eqb c 95) middle in
    let needle := if has_inner_wild then filter (λ c, c ≠ 37 ∧ c ≠ 95) middle else middle in
    if bool_decide (needle = []) then Ok (replicate n true)
    else
      match starts_wild, ends_wild with
      | true, true => or_panic (StringColumnM.like_contains_mask sc (as_bytes (if has_inner_wild then needle else middle)))
      | false, true => per_row sc n (starts_with (as_bytes middle))
      | true, false => per_row sc n (λ s, ends_with s (as_bytes middle))
      | false, false =>
        if has_inner_wild then or_panic (StringColumnM.like_contains_mask sc (as_bytes needle))
        else per_row sc n (λ s, bool_decide (s = as_bytes middle))
      end.

(** ** Predicates *)

(** Byte-wise order of strings. *)
Fixpoint str_cmp (a b : list Z) : comparison :=
  match a, b with
  | [], [] => Eq
  | [], _ => Lt
  | _, [] => Gt
  | x :: a, y :: b => match Z.compare x y with Eq => str_cmp a b | c => c end
  end.

Definition range_op (op : text) (c : comparison) : bool :=
  if text_eqb op (K "<") then bool_decide (c = Lt)
  else if text_eqb op (K ">") then bool_decide (c = Gt)
  else if text_eqb op (K "<=") then negb (bool_decide (c = Gt))
  else if text_eqb op (K ">=") then negb (bool_decide (c = Lt))
  else false.

Definition is_range_op (op : text) : bool := bool_decide (op ∈ [K "<"; K ">"; K "<="; K ">="]).

Definition cell_mask (op : text) (col : list Z) (cell : Z) : option (list bool) :=
  if text_eqb op (K "=") then Some (map (λ c, Z.eqb c cell) col)
  else if text_eqb op (K "!=") then Some (map (λ c, negb (Z.eqb c cell)) col)
  else if text_eqb op (K "<") then Some (map (λ c, Z.ltb c cell) col)
  else if text_eqb op (K ">") then Some (map (λ c, Z.ltb cell c) col)
  else if text_eqb op (K "<=") then Some (map (λ c, Z.leb c cell) col)
  else if text_eqb op (K ">=") then Some (map (λ c, Z.leb cell c) col)
  else None.

Definition column_and_literal (l r : Expr) : option (text * Value) :=
  match l, r with Column name, Literal v | Literal v, Column name => Some (name, v) | _, _ => None end.

Definition compare_mask (t : Table) (l : Expr) (op : text) (r : Expr) : run (option (list bool)) :=
  match column_and_literal l r with
  | None => Ok None
  | Some (name, v) =>
    match ok (resolve_col_name name t) with
    | None => Ok None
    | Some col_idx =>
      match columns t !! col_idx with
      | None => Ok None
      | Some col =>
        match is_range_op op, v, string_col t col_idx with
        | true, VString s, Some sc =>
          m ← mapM_run (λ i, c ← get_str sc i; Ok (range_op op (str_cmp c (as_bytes s)))) (seq 0 (row_count t)); Ok (Some m)
        | _, _, _ => Ok (cell_mask op col (value_to_u64 xxh3_64 float_bits v))
        end
      end
    end
  end.

Definition is_like (op : text) : bool := text_eqb op (K "LIKE") || text_eqb op (K "NOT LIKE").

Definition like_filter (t : Table) (l : Expr) (op : text) (r : Expr) : run (option (list bool)) :=
  match l, r with
  | Column name, Literal (VString s) | Literal (VString s), Column name =>
    match ok (resolve_col_name name t) with
    | None => Ok None
    | Some col_idx =>
      match string_col t col_idx with
      | None => Ok None
      | Some sc =>
        mask ← build_like_mask sc s; Ok (Some (if text_eqb op (K "NOT LIKE") then map negb mask else mask))
      end
    end
  | _, _ => Ok None
  end.

(** [left_mask.iter().zip(right_mask.iter()).map(f)]. *)
Definition both (rec : Expr → run (option (list bool))) (f : bool → bool → bool) (l r : Expr) : run (option (list bool)) :=
  and_then (rec l) (λ left_mask, and_then (rec r) (λ right_mask, Ok (Some (zip_with f left_mask right_mask)))).

Definition binary_filter (t : Table) (rec : Expr → run (option (list bool))) (l : Expr) (op : text) (r : Expr) : run (option (list bool)) :=
  if is_like op then like_filter t l op r
  else if text_eqb op (K "AND") then both rec andb l r
  else if text_eqb op (K "OR") then both rec orb l r
  else Ok None.

Fixpoint eval_predicate_mask (t : Table) (e : Expr) : run (option (list bool)) :=
  match e with
  | Binary l op r =>
    if is_like (up op) || text_eqb (up op) (K "AND") || text_eqb (up op) (K "OR")
    then binary_filter t (eval_predicate_mask t) l (up op) r
    else compare_mask t l (up op) r
  | _ => Ok None
  end.

Definition try_string_like_filter (t : Table) (e : Expr) : run (option (list bool)) :=
  match e with Binary l op r => binary_filter t (eval_predicate_mask t) l (up op) r | _ => Ok None end.

(** [for i in indices { mask[i] = true; }]. *)
Definition set_rows (indices : list nat) (mask : list bool) : list bool := foldl (λ m i, <[i := true]> m) mask indices.

Definition build_filter_mask (q : SelectQuery) (t : Table) : run (list bool) :=
  match where_clause q with
  | None => Ok (replicate (row_count t) true)
  | Some e =>
    m ← try_string_like_filter t e;
    match m with
    | Some mask => Ok mask
    | None =>
      m ← eval_predicate_mask t e;
      match m with
      | Some mask => Ok mask
      | None =>
        indices ← or_panic (filter_rows uni_upper xxh3_64 float_bits (columns t) (column_names t) (row_count t) e);
        Ok (set_rows indices (replicate (row_count t) false))
      end
    end
  end.

(** ** Execution *)
Definition single_value (n : text) (v : Z) : QueryResult := mkResult [plain n [v]] 1.
Definition fmt_u64 (n : Z) : text := dec 20 n.

Definition cell (t : Table) (col_idx row : nat) : run Z := or_panic (col ← columns t !! col_idx; col !! row).
Definition cells_at (t : Table) (col_idx : nat) (rows : list nat) : run (list Z) := mapM_run (cell t col_idx) rows.

(** The strings and the NULL flags of the rows of a column. *)
Definition strings_at (t : Table) (col_idx : nat) (rows : list nat) : run (option (list (list Z))) :=
  match string_col t col_idx with
  | Some sc => ss ← mapM_run (get_str sc) rows; Ok (Some ss)
  | None => Ok None
  end.
Definition nulls_at (t : Table) (col_idx : nat) (rows : list nat) : option (list bool) :=
  match bitmap t col_idx with
  | Some bm => let m := map (λ i, NullVec.is_null i bm) rows in if existsb (λ x, x) m then Some m else None
  | None => None
  end.

Definition star_columns (t : Table) (rows : list nat) : run (list ResultColumn) :=
  mapM_run (λ '(i, n), vs ← cells_at t i rows; Ok (mkCol n vs None 0 (nulls_at t i rows))) (imap pair (column_names t)).

Definition project (t : Table) (n : text) (rows : list nat) : run ResultColumn :=
  col_idx ← resolve_col_name n t;
  vs ← cells_at t col_idx rows;
  ss ← strings_at t col_idx rows;
  Ok (mkCol n vs ss 0 (nulls_at t col_idx rows)).

(** The sort on the ORDER BY column: by its strings where it has them. *)
Definition sort_indices (t : Table) (col_idx : nat) (asc : bool) (rows : list nat) : run (list nat) :=
  match string_col t col_idx with
  | Some sc =>
    _ ← (if Nat.leb (length rows) 1 then Ok [] else mapM_run (get_str sc) rows);
    let key i := default [] (StringColumnM.get sc i) in
    Ok (sort_by (λ a b, directed asc (str_cmp (key a) (key b))) rows)
  | None =>
    col ← or_panic (columns t !! col_idx);
    let key i := default 0 (col !! i) in
    Ok (sort_by (λ a b, directed asc (Z.compare (key a) (key b))) rows)
  end.

Definition order_rows (t : Table) (ob : list (text * bool)) (resolve : text → nat) (rows : list nat) : run (list nat) :=
  match ob with [] => Ok rows | (order_col, asc) :: _ => sort_indices t (resolve order_col) asc rows end.

Definition take_limit {A} (l : option Z) (rows : list A) : list A :=
  match l with Some n => take (Z.to_nat n) rows | None => rows end.

Definition matching (t : Table) (mask : list bool) : run (list nat) := or_panic (mask_rows mask (row_count t)).

(** *** Aggregates without GROUP BY *)
Definition under_mask (q : SelectQuery) (t : Table) (item : SelectItem) (n : text)
    (f : list Z → list bool → option Z) : run QueryResult :=
  mask ← build_filter_mask q t;
  col_idx ← resolve_agg_col item t;
  col ← or_panic (columns t !! col_idx);
  v ← or_panic (f col (adjust_mask_for_nulls mask t col_idx));
  Ok (single_value n v).

Definition count_filter (q : SelectQuery) (t : Table) (item : SelectItem) : run QueryResult :=
  mask ← build_filter_mask q t;
  let '(func, arg) := match item with SAggregate f a _ => (up f, a) | _ => ([], []) end in
  Ok (single_value (K "count")
    (if text_eqb func (K "COUNT") && negb (text_eqb arg (K "*")) then
       let col_idx := resolve_or 0 arg t in
       Z.of_nat (length (filter (λ p : nat * bool, p.2 = true ∧ is_cell_null_dispatch t col_idx p.1 = false) (imap pair mask)))
     else if Z.ltb 10000 (Z.of_nat (row_count t)) then parallel_count_masked threads pool mask else count_masked mask)).

(** *** GROUP BY *)
Fixpoint insert_bucket (groups : gmap Z (list nat)) (kvs : list (Z * nat)) : gmap Z (list nat) :=
  match kvs with
  | [] => groups
  | (k, row) :: kvs => insert_bucket (<[k := default [] (groups !! k) ++ [row]]> groups) kvs
  end.

(** Keys in the order in which they are first seen. *)
Fixpoint first_seen (seen : gset Z) (keys : list Z) : list Z :=
  match keys with
  | [] => []
  | k :: keys => if bool_decide (k ∈ seen) then first_seen seen keys else k :: first_seen ({[k]} ∪ seen) keys
  end.

Definition f64_ratio (sum : Z) (n : nat) : Z := f64_to_bits (f64_div (u64_as_f64 sum) (u64_as_f64 (Z.of_nat n))).

(** Whether [COUNT(col)] and [AVG] of the single-key path look at the NULL bitmap. *)
Definition group_aggregate (null_aware : bool) (t : Table) (func_upper arg : text) (idxs : list nat) : run Z :=
  let col_idx := resolve_or 0 arg t in
  if text_eqb func_upper (K "COUNT") then
    if text_eqb arg (K "*") then Ok (Z.of_nat (length idxs))
    else
      match (if null_aware then bitmap t col_idx else None) with
      | Some bm => Ok (Z.of_nat (length (filter (λ i, NullVec.is_null i bm = false) idxs)))
      | None => vs ← cells_at t col_idx idxs; Ok (Z.of_nat (length (filter (λ v, v ≠ 0) vs)))
      end
  else if text_eqb func_upper (K "SUM") then
    vs ← cells_at t col_idx idxs; Ok (f64_to_bits (u64_as_f64 (sum_u64 vs)))
  else if text_eqb func_upper (K "AVG") then
    let rows := match (if null_aware then bitmap t col_idx else None) with
                | Some bm => filter (λ i, NullVec.is_null i bm = false) idxs
                | None => idxs
                end in
    vs ← cells_at t col_idx rows;
    Ok (if bool_decide (vs = []) then 0 else f64_ratio (sum_u64 vs) (length vs))
  else if text_eqb func_upper (K "MIN") then vs ← cells_at t col_idx idxs; Ok (default 0 (min_u64 vs))
  else if text_eqb func_upper (K "MAX") then vs ← cells_at t col_idx idxs; Ok (default 0 (max_u64 vs))
  else if text_eqb func_upper (K "COUNT_DISTINCT") then
    vs ← cells_at t col_idx idxs; Ok (Z.of_nat (size (list_to_set vs : gset Z)))
  else Ok 0.

(** One item of the select list over the groups of a single key. *)
Definition group_item (q : SelectQuery) (t : Table) (group_col : nat) (keys : list Z) (bucket : Z → list nat)
    (item : SelectItem) : run (list ResultColumn) :=
  match item with
  | SColumn n =>
    if existsb (text_eqb n) (group_by q) then Ok [plain n keys]
    else
      vs ← mapM_run (λ k, match bucket k with i :: _ => cell t (resolve_or group_col n t) i | [] => Ok 0 end) keys;
      Ok [plain n vs]
  | SLiteral v => Ok [plain (fmt_u64 v) (replicate (length keys) v)]
  | SStar => Ok []
  | SAggregate func arg alias =>
    vs ← mapM_run (λ k, group_aggregate true t (up func) arg (bucket k)) keys;
    Ok [plain (default func alias) vs]
  | SWindow _ _ _ _ | SExpression _ _ => Err (Fail EOther)
  end.

(** ORDER BY and LIMIT over the result of a GROUP BY. *)
Definition reorder (idx : list nat) (c : ResultColumn) : run ResultColumn :=
  vs ← mapM_run (λ i, or_panic (values c !! i)) idx; Ok (plain (ResultM.name c) vs).

Definition order_result (ob : list (text * bool)) (r : QueryResult) : run QueryResult :=
  match ob with
  | [] => Ok r
  | (col_name, asc) :: _ =>
    c ← or_fail ENotFound (snd <$> list_find (λ c, ResultM.name c = col_name) (ResultM.columns r));
    let key i := default 0 (values c !! i) in
    let idx := sort_by (λ a b, directed asc (Z.compare (key a) (key b))) (seq 0 (ResultM.row_count r)) in
    cols ← mapM_run (reorder idx) (ResultM.columns r);
    Ok (mkResult cols (ResultM.row_count r))
  end.

Definition truncate_column (n : nat) (c : ResultColumn) : ResultColumn :=
  mkCol (ResultM.name c) (take n (values c)) (string_values c) (type_oid c) (null_mask c).

Definition limit_result (l : option Z) (r : QueryResult) : QueryResult :=
  match l with
  | Some n =>
    if Nat.ltb (Z.to_nat n) (ResultM.row_count r)
    then mkResult (truncate_column (Z.to_nat n) <$> ResultM.columns r) (Z.to_nat n) else r
  | None => r
  end.

Definition single_key_group_by (q : SelectQuery) (t : Table) (indices : list nat) (group_col : nat) : run QueryResult :=
  keys ← cells_at t group_col indices;
  let buckets := insert_bucket ∅ (zip keys indices) in
  let order := first_seen ∅ keys in
  cols ← mapM_run (group_item q t group_col order (λ k, default [] (buckets !! k))) (select q);
  r ← order_result (order_by q) (mkResult (concat cols) (length order));
  Ok (limit_result (limit q) r).

(** The key of several columns, multiplied up. *)
Definition HASH_MUL : Z := 0x517cc1b727220a95.
Definition multi_key (t : Table) (group_cols : list nat) (row : nat) : run Z :=
  foldl (λ h col, h ← h; v ← cell t col row; Ok (wrapping_add (wrapping_mul h HASH_MUL) v)) (Ok 0) group_cols.

Definition multi_key_group_by (q : SelectQuery) (t : Table) (indices : list nat) (group_cols : list nat) : run QueryResult :=
  hs ← mapM_run (multi_key t group_cols) indices;
  let groups := insert_bucket ∅ (zip hs indices) in
  let order := hash_order (elements (dom groups)) in
  let bucket k := default [] (groups !! k) in
  key_cols ← mapM_run (λ '(n, col),
    vs ← mapM_run (λ h, match bucket h with i :: _ => cell t col i | [] => Ok 0 end) order; Ok (plain n vs))
    (zip (group_by q) group_cols);
  agg_cols ← mapM_run (λ item,
    match item with
    | SAggregate func arg alias =>
      vs ← mapM_run (λ h, group_aggregate false t (up func) arg (bucket h)) order; Ok [plain (default func alias) vs]
    | _ => Ok []
    end) (select q);
  r ← order_result (order_by q) (mkResult (key_cols ++ concat agg_cols) (length order));
  Ok (limit_result (limit q) r).

(** [GROUP BY] of a column with strings counts the cells, which are their hashes. *)
Fixpoint count_cells (counts : gmap Z Z) (keys : list Z) : gmap Z Z :=
  match keys with
  | [] => counts
  | k :: keys => count_cells (<[k := wrapping_add (default 0 (counts !! k)) 1]> counts) keys
  end.

Definition aggregate_name (items : list SelectItem) : option text :=
  head (omap (λ s, match s with SAggregate f _ alias => Some (default (to_lowercase f) alias) | _ => None end) items).

Definition sort_pairs (q : SelectQuery) (pairs : list (Z * Z)) : list (Z * Z) :=
  match order_by q with
  | [] => pairs
  | (col_name, asc) :: _ =>
    let agg_name := aggregate_name (select q) in
    if bool_decide (agg_name = Some col_name) || (eq_ignore_ascii_case col_name (K "count") && bool_decide (is_Some agg_name))
    then sort_by (λ a b : Z * Z, directed asc (Z.compare a.2 b.2)) pairs
    else if bool_decide (head (group_by q) = Some col_name) then sort_by (λ a b : Z * Z, directed asc (Z.compare a.1 b.1)) pairs
    else sort_by (λ a b : Z * Z, Z.compare b.2 a.2) pairs
  end.

Definition string_group_item (pairs : list (Z * Z)) (item : SelectItem) : run (list ResultColumn) :=
  match item with
  | SLiteral v => Ok [plain (fmt_u64 v) (replicate (length pairs) v)]
  | SColumn n => Ok [plain n (pairs.*1)]
  | SAggregate func _ alias =>
    if text_eqb (up func) (K "COUNT") then Ok [plain (default (to_lowercase func) alias) (pairs.*2)] else Err (Fail EOther)
  | SStar => Ok []
  | SWindow _ _ _ _ | SExpression _ _ => Err (Fail EOther)
  end.

Definition execute_string_group_by (q : SelectQuery) (t : Table) (indices : list nat) (group_col : nat) : run QueryResult :=
  keys ← cells_at t group_col indices;
  let counts := count_cells ∅ keys in
  let pairs := (λ k, (k, default 0 (counts !! k))) <$> hash_order (elements (dom counts)) in
  let pairs := take_limit (limit q) (sort_pairs q pairs) in
  cols ← mapM_run (string_group_item pairs) (select q);
  Ok (mkResult (concat cols) (length pairs)).

Definition execute_group_by (q : SelectQuery) (t : Table) : run QueryResult :=
  mask ← build_filter_mask q t;
  indices ← matching t mask;
  group_cols ← mapM_run (λ n, resolve_col_name n t) (group_by q);
  match group_cols with
  | [group_col] =>
    if bool_decide (is_Some (string_col t group_col)) then execute_string_group_by q t indices group_col
    else single_key_group_by q t indices group_col
  | _ => multi_key_group_by q t indices group_cols
  end.

(** *** Shapes *)
Definition select_star (q : SelectQuery) (t : Table) : run QueryResult :=
  mask ← build_filter_mask q t;
  rows ← matching t mask;
  let rows := take_limit (limit q) rows in
  cols ← star_columns t rows;
  Ok (mkResult cols (length rows)).

Definition select_column (q : SelectQuery) (t : Table) (n : text) : run QueryResult :=
  mask ← build_filter_mask q t;
  col_idx ← resolve_col_name n t;
  rows ← matching t mask;
  rows ← order_rows t (order_by q) (λ c, if text_eqb c n then col_idx else resolve_or col_idx c t) rows;
  let rows := take_limit (limit q) rows in
  c ← project t n rows;
  Ok (mkResult [c] (length rows)).

Definition select_multi (q : SelectQuery) (t : Table) : run QueryResult :=
  mask ← build_filter_mask q t;
  rows ← matching t mask;
  rows ← order_rows t (order_by q) (λ c, resolve_or 0 c t) rows;
  let rows := take_limit (limit q) rows in
  cols ← mapM_run (λ item,
    match item with
    | SColumn n => c ← project t n rows; Ok [c]
    | SStar => star_columns t rows
    | _ => Ok []
    end) (select q);
  Ok (mkResult (concat cols) (length rows)).

(** The shape is given to MIN and MAX only. *)
Definition min_max (q : SelectQuery) (t : Table) (item : SelectItem) : run QueryResult :=
  match item with
  | SAggregate func _ _ =>
    if text_eqb (up func) (K "MIN") then under_mask q t item (K "min") min_masked
    else if text_eqb (up func) (K "MAX") then under_mask q t item (K "max") max_masked
    else Err (Fail EOther)
  | _ => Err (Fail EOther)
  end.

Definition execute_shape (shape : QueryShape) (q : SelectQuery) (t : Table) : run QueryResult :=
  let item := default SStar (head (select q)) in
  match shape with
  | CountAll => Ok (single_value (K "count") (Z.of_nat (row_count t)))
  | CountFilter => count_filter q t item
  | SumCol => under_mask q t item (K "sum") sum_masked
  | AvgCol => under_mask q t item (K "avg") avg_masked
  | MinMax => min_max q t item
  | CountDistinct => under_mask q t item (K "count") count_distinct_masked
  | GroupByCount | GroupBySum | GroupByOrderByLimit => execute_group_by q t
  | SelectStar => select_star q t
  | SelectColumn => match item with SColumn n => select_column q t n | _ => Err (Fail EOther) end
  | SelectMulti => select_multi q t
  | Complex => Err (Fail EOther)
  end.

Definition execute_dispatched (q : SelectQuery) (t : Table) : option (run QueryResult) :=
  let shape := classify_query q in
  if bool_decide (shape = Complex) then None
  else if from_option expr_needs_tpch_fallback false (where_clause q) then None
  else if bool_decide (is_Some (having q)) then None
  else Some (execute_shape shape q t).
End dispatch.
End DispatchM.
