(* ===== verification/IndexManager.v ===== *)
(** * Secondary indexes (src/src/index/manager.rs)

    The catalogue of indexes: their entries by table and column, their names, and the
    hash index of a column, which maps each cell to the rows that hold it.  The order in
    which a hash map yields its values is a parameter of [list_indexes]. *)

From Stdlib Require Import ZArith Lia Floats.SpecFloat.
From stdpp Require Import prelude list numbers gmap.
From S2P Require Import Prelude Bitmap Vectorized.
Local Open Scope Z_scope.

Module IndexM.
Abbreviation text := (list Z).

Inductive IndexType := BSI | LSH | Hash.
Record IndexEntry := mkIE {
  table_name : text; column_name : text; index_type : IndexType; cardinality : Z; ie_name : option text
}.

Record IndexManager := mkIM {
  indexes : gmap (text * text) IndexEntry;
  by_name : gmap text (text * text);
  hash_data : gmap (text * text) (gmap Z (list nat))
}.

Definition im_new : IndexManager := mkIM ∅ ∅ ∅.

Definition create (t c : text) (ty : IndexType) (card : Z) (m : IndexManager) : IndexManager :=
  mkIM (<[(t, c) := mkIE t c ty card None]> (indexes m)) (by_name m) (hash_data m).

Definition create_named (n t c : text) (ty : IndexType) (card : Z) (m : IndexManager) : IndexManager :=
  mkIM (<[(t, c) := mkIE t c ty card (Some n)]> (indexes m)) (<[n := (t, c)]> (by_name m)) (hash_data m).

(** [map.entry(v).or_default().push(i)]. *)
Definition push_row (m : gmap Z (list nat)) (iv : nat * Z) : gmap Z (list nat) :=
  partial_alter (λ rows, Some (default [] rows ++ [iv.1])) iv.2 m.
Definition hash_rows (values : list Z) : gmap Z (list nat) := fold_left push_row (imap pair values) ∅.

Definition build_hash_index (t c : text) (values : list Z) (m : IndexManager) : IndexManager :=
  mkIM (indexes m) (by_name m) (<[(t, c) := hash_rows values]> (hash_data m)).

Definition drop_index (t c : text) (m : IndexManager) : bool * IndexManager :=
  match indexes m !! (t, c) with
  | Some e =>
    (true, mkIM (delete (t, c) (indexes m))
                (match ie_name e with Some n => delete n (by_name m) | None => by_name m end)
                (delete (t, c) (hash_data m)))
  | None => (false, m)
  end.

Definition drop_by_name (n : text) (m : IndexManager) : bool * IndexManager :=
  match by_name m !! n with
  | Some k => (true, mkIM (delete k (indexes m)) (delete n (by_name m)) (delete k (hash_data m)))
  | None => (false, m)
  end.

Definition get_index (t c : text) (m : IndexManager) : option IndexEntry := indexes m !! (t, c).
Definition get_by_name (n : text) (m : IndexManager) : option (text * text) := by_name m !! n.
Definition has_index (t c : text) (m : IndexManager) : bool := bool_decide (is_Some (indexes m !! (t, c))).
Definition lookup_rows (t c : text) (v : Z) (m : IndexManager) : option (list nat) :=
  data ← hash_data m !! (t, c); data !! v.

(** The double 0.1. *)
Definition f64_tenth : spec_float := BitmapM.f64_from_bits 0x3FB999999999999A.
Definition should_use_index (t c : text) (table_row_count : Z) (m : IndexManager) : bool :=
  match get_index t c m with
  | None => false
  | Some e =>
    if Z.eqb table_row_count 0 then false
    else SFltb f64_tenth (VectorizedM.f64_div (VectorizedM.u64_as_f64 (cardinality e)) (VectorizedM.u64_as_f64 table_row_count))
  end.

Definition list_indexes (iter : gmap (text * text) IndexEntry → list IndexEntry) (m : IndexManager) : list IndexEntry := iter (indexes m).
Definition im_len (m : IndexManager) : nat := size (indexes m).
Definition im_is_empty (m : IndexManager) : bool := bool_decide (indexes m = ∅).

(** ** The hash index *)

(** The rows of a column that hold [v], in order. *)
Definition rows_with (values : list Z) (v : Z) : list nat := filter (λ i, values !! i = Some v) (seq 0 (length values)).

Lemma rows_with_snoc values x v : rows_with (values ++ [x]) v = rows_with values v ++ (if decide (x = v) then [length values] else []).
Proof.
  unfold rows_with. rewrite length_app, seq_app, filter_app. f_equal.
  - apply filter_ext_elem. intros i Hi%elem_of_seq. by rewrite lookup_app_l by lia.
  - cbn [length seq]. rewrite filter_cons, filter_nil. rewrite Nat.add_0_l, lookup_app_r, Nat.sub_diag by lia. cbn.
    repeat case_decide; naive_solver.
Qed.

(** A cell leads to exactly the rows that hold it, in order; a cell the column does not
    hold leads nowhere. *)
Lemma hash_rows_spec values v : hash_rows values !! v = if decide (rows_with values v = []) then None else Some (rows_with values v).
Proof.
  revert v. induction values as [|x values IH] using rev_ind; intros v; [done|].
  unfold hash_rows. rewrite imap_app, fold_left_app. cbn [imap fold_left]. fold (hash_rows values).
  rewrite rows_with_snoc, Nat.add_0_r. unfold push_row. cbn [fst snd]. destruct (decide (x = v)) as [->|Hne].
  - rewrite lookup_partial_alter_eq, IH. rewrite (decide_False (P := _ ++ _ = [])) by (by intros [_ ?]%app_eq_nil).
    by destruct (decide (rows_with values v = [])) as [->|].
  - rewrite lookup_partial_alter_ne by done. by rewrite IH, app_nil_r.
Qed.

Lemma lookup_after_build t c values v m :
  default [] (lookup_rows t c v (build_hash_index t c values m)) = rows_with values v.
Proof.
  unfold lookup_rows, build_hash_index. cbn [hash_data]. rewrite lookup_insert_eq. cbn [mbind option_bind].
  rewrite hash_rows_spec. by destruct (decide _) as [->|].
Qed.

(** ** Names *)

(** Every name leads to an index that bears it. *)
Definition names_ok (m : IndexManager) : Prop :=
  ∀ n k, by_name m !! n = Some k → ∃ e, indexes m !! k = Some e ∧ ie_name e = Some n.

Lemma im_new_ok : names_ok im_new.
Proof. done. Qed.

(** A name that is not taken, on a column without an index. *)
Lemma create_named_ok n t c ty card m : names_ok m → by_name m !! n = None → indexes m !! (t, c) = None → names_ok (create_named n t c ty card m).
Proof.
  intros H Hn Hk n' k. unfold create_named. cbn [by_name indexes]. rewrite lookup_insert. case_decide as E.
  - intros [= <-]. eexists. rewrite lookup_insert_eq. split; [done|]. by subst.
  - intros Hn'. destruct (H _ _ Hn') as (e & He & Hen). exists e. rewrite lookup_insert_ne; [done|]. intros <-. congruence.
Qed.

Lemma drop_index_ok t c m : names_ok m → names_ok (drop_index t c m).2.
Proof.
  intros H. unfold drop_index. destruct (indexes m !! (t, c)) as [e|] eqn:E; [|done]. intros n k. cbn [snd by_name indexes].
  intros Hn. assert (by_name m !! n = Some k) as Hk by (destruct (ie_name e); [by apply lookup_delete_Some in Hn as []|done]).
  destruct (H _ _ Hk) as (e' & He' & Hn'). exists e'. rewrite lookup_delete_ne; [done|]. intros <-. simplify_eq.
  rewrite Hn', lookup_delete_eq in Hn. done.
Qed.

Lemma drop_by_name_ok n m : names_ok m → names_ok (drop_by_name n m).2.
Proof.
  intros H. unfold drop_by_name. destruct (by_name m !! n) as [k|] eqn:E; [|done]. intros n' k'. cbn [snd by_name indexes].
  intros [Hne Hn']%lookup_delete_Some. destruct (H _ _ Hn') as (e & He & Hen). exists e. rewrite lookup_delete_ne; [done|].
  intros ->. destruct (H _ _ E) as (e2 & He2 & Hen2). simplify_eq.
Qed.

(** Two names on one column: dropping the first drops the index of the second, whose name
    then leads nowhere. *)
Theorem second_name_lost :
  let m := create_named [98] [116] [99] Hash 1 (create_named [97] [116] [99] Hash 1 im_new) in
  let m' := (drop_by_name [97] m).2 in
  has_index [116] [99] m = true ∧ has_index [116] [99] m' = false ∧ get_by_name [98] m' = Some ([116], [99]).
Proof. by vm_compute. Qed.
End IndexM.
