(* ===== verification/Where.v ===== *)
(** * Correctness of WHERE (src/src/engine/dispatch.rs)

    Predicates with a meaning of their own, the tables and predicates that fit together,
    and the mask the dispatcher computes for them. *)

From Stdlib Require Import ZArith Lia Ascii String Sorting.Sorted.
From stdpp Require Import prelude list numbers gmap.
From S2P Require Import Prelude Nulls Catalog Result Sorting Lexer StringColumn Parser Window Vectorized Parallel Dispatch.
Local Open Scope Z_scope.

Module WhereM.
Import LexerM ParserM CatalogM VectorizedM DispatchM.

(** ** Runs over lists *)
Lemma mapM_run_ok {A B} (f : A → run B) (g : A → B) l : (∀ x, x ∈ l → f x = Ok (g x)) → mapM_run f l = Ok (g <$> l).
Proof.
  induction l as [|x l IH]; intros H; [done|]. cbn [mapM_run]. rewrite (H x) by set_solver. cbn [mbind result_bind].
  rewrite IH by set_solver. done.
Qed.

(** ** LIKE *)

(** A pattern of SQL against the bytes of a string: [%] (37) is any run of bytes, [_] (95)
    one character. *)
Inductive like : text → list Z → Prop :=
| like_nil : like [] []
| like_skip p s : like p s → like (37 :: p) s
| like_any p b s : like (37 :: p) s → like (37 :: p) (b :: s)
| like_one p c s : like p s → like (95 :: p) (utf8_char c ++ s)
| like_char c p s : c ≠ 37 → c ≠ 95 → like p s → like (c :: p) (utf8_char c ++ s).

Definition no_wild (m : text) : Prop := Forall (λ c, c ≠ 37 ∧ c ≠ 95) m.
Abbreviation percents n := (replicate n 37).

(** The patterns the dispatcher is written for: text between [%]s. *)
Definition simple (p : text) : Prop := ∃ a m b, p = percents a ++ m ++ percents b ∧ no_wild m ∧ p ≠ [].

Lemma like_text m p s : no_wild m → like (m ++ p) s ↔ ∃ s', s = as_bytes m ++ s' ∧ like p s'.
Proof.
  intros H. revert s. induction H as [|c m [H1 H2] Hm IH]; intros s; [split; [by exists s|by intros (? & -> & ?)]|].
  simpl. split.
  - inversion 1; subst; try done. match goal with H : like (m ++ p) _ |- _ => apply IH in H as (s' & -> & ?) end.
    exists s'. split; [|done]. unfold as_bytes. rewrite fmap_cons. cbn [concat]. by rewrite app_assoc.
  - intros (s' & -> & Hs'). unfold as_bytes. rewrite fmap_cons. cbn [concat]. rewrite <- app_assoc.
    apply like_char; [done..|]. apply IH. by exists s'.
Qed.

Lemma like_percent p s : like (37 :: p) s ↔ ∃ x y, s = x ++ y ∧ like p y.
Proof.
  split.
  - remember (37 :: p) as q eqn:E. intros H. revert p E. induction H as [|q s H _|q b s H IH|q c s H _|c q s H1 H2 H _]; intros p E; simplify_eq.
    + by exists [], s.
    + destruct (IH _ eq_refl) as (x & y & -> & Hy). by exists (b :: x), y.
  - intros (x & y & -> & Hy). induction x as [|b x IH]; [by apply like_skip|by apply like_any].
Qed.

Lemma like_percents a p s : like (percents (S a) ++ p) s ↔ ∃ x y, s = x ++ y ∧ like p y.
Proof.
  revert s. induction a as [|a IH]; intros s; [apply like_percent|]. cbn [replicate app]. rewrite like_percent.
  setoid_rewrite (IH _ : like (37 :: percents a ++ p) _ ↔ _). split.
  - intros (x & y & -> & x' & y' & -> & H). exists (x ++ x'), y'. by rewrite app_assoc.
  - intros (x & y & -> & H). exists x, y. split; [done|]. by exists [], y.
Qed.

Lemma like_tail b s : like (percents b) s ↔ b ≠ 0%nat ∨ s = [].
Proof.
  destruct b as [|b]; [split; [inversion 1; auto|intros [?| ->]; [done|constructor]]|].
  rewrite <- (app_nil_r (percents (S b))), like_percents. split; [by left|]. intros _. exists s, []. rewrite app_nil_r. by split; [|constructor].
Qed.

(** What a simple pattern matches. *)
Lemma like_simple a m b s : no_wild m →
  like (percents a ++ m ++ percents b) s ↔
  ∃ x y, s = x ++ as_bytes m ++ y ∧ (a = 0%nat → x = []) ∧ (b = 0%nat → y = []).
Proof.
  intros Hm. destruct a as [|a].
  - cbn [replicate app]. rewrite like_text by done. setoid_rewrite like_tail. split.
    + intros (y & -> & Hb). exists [], y. split_and!; [done..|]. intros ->. by destruct Hb.
    + intros (x & y & -> & -> & Hb); [|done]. exists y. split; [done|]. destruct (decide (b = 0%nat)); auto.
  - rewrite like_percents. setoid_rewrite (like_text _ _ _ Hm). setoid_rewrite like_tail. split.
    + intros (x & z & -> & y & -> & Hb). exists x, y. split_and!; [done..|]. intros ->. by destruct Hb.
    + intros (x & y & -> & _ & Hb). exists x, (as_bytes m ++ y). split; [done|]. exists y. split; [done|].
      destruct (decide (b = 0%nat)); auto.
Qed.

(** *** The pieces of the pattern *)
Lemma trim_start_percents a p : trim_start 37 (percents a ++ p) = trim_start 37 p.
Proof. induction a as [|a IH]; [done|]. simpl. done. Qed.
Lemma trim_start_text m : head m ≠ Some 37 → trim_start 37 m = m.
Proof. destruct m as [|c m]; [done|]. simpl. intros H. destruct (Z.eqb_spec c 37); [by subst|done]. Qed.

Lemma trim_simple a m b : no_wild m → trim_matches 37 (percents a ++ m ++ percents b) = m.
Proof.
  intros Hm. unfold trim_matches. rewrite trim_start_percents. destruct m as [|c m].
  - cbn [app]. rewrite <- (app_nil_r (percents b)), trim_start_percents. done.
  - rewrite (trim_start_text ((c :: m) ++ _)); [|simpl; apply Forall_cons_1 in Hm as [[] _]; congruence].
    rewrite reverse_app, reverse_replicate, trim_start_percents, trim_start_text; [apply reverse_involutive|].
    rewrite head_lookup. intros H%list_elem_of_lookup_2. rewrite elem_of_reverse in H.
    unfold no_wild in Hm. rewrite list.Forall_forall in Hm. by destruct (Hm 37 H).
Qed.

Lemma starts_with_spec p s : starts_with p s = true ↔ ∃ y, s = p ++ y.
Proof.
  unfold starts_with. rewrite bool_decide_eq_true. split.
  - intros <-. exists (drop (length p) s). by rewrite take_drop.
  - intros (y & ->). by rewrite take_app_length.
Qed.
Lemma ends_with_spec s p : ends_with s p = true ↔ ∃ x, s = x ++ p.
Proof.
  unfold ends_with. rewrite andb_true_iff, !bool_decide_eq_true. split.
  - intros [H E]. exists (take (length s - length p) s). rewrite <- E at 2. by rewrite take_drop.
  - intros (x & ->). rewrite length_app. split; [lia|]. replace (length x + length p - length p)%nat with (length x) by lia.
    apply drop_app_length.
Qed.

Lemma starts_percent a m b : no_wild m → m ≠ [] → starts_with (K "%") (percents a ++ m ++ percents b) = bool_decide (a ≠ 0%nat).
Proof.
  intros Hm Hne. destruct a as [|a]; [|by rewrite bool_decide_true by done]. destruct m as [|c m]; [done|].
  apply Forall_cons_1 in Hm as [[] _]. unfold starts_with. change (K "%") with [37]. cbn. rewrite bool_decide_false; [done|]. congruence.
Qed.
Lemma ends_percent a m b : no_wild m → m ≠ [] → ends_with (percents a ++ m ++ percents b) (K "%") = bool_decide (b ≠ 0%nat).
Proof.
  intros Hm Hne. apply Bool.eq_iff_eq_true. rewrite ends_with_spec, bool_decide_eq_true. change (K "%") with [37]. destruct b as [|b].
  - split; [|done]. intros (x & H). exfalso. rewrite app_nil_r in H. destruct m as [|c m _] using rev_ind; [done|].
    rewrite app_assoc in H. apply app_inj_tail in H as [_ ->]. apply Forall_app in Hm as [_ [[] _]%Forall_cons_1]. done.
  - split; [done|]. intros _. exists (percents a ++ m ++ percents b). rewrite <- !app_assoc. by rewrite <- replicate_cons_app.
Qed.

(** *** Masks over a column of strings *)
Lemma get_strings ss i s : ss !! i = Some s → StringColumnM.get (StringColumnM.new ss) i = Some s.
Proof. intros H. unfold StringColumnM.get. cbn [StringColumnM.new StringColumnM.strings]. by rewrite H. Qed.
Lemma get_new ss i s : ss !! i = Some s → get_str (StringColumnM.new ss) i = Ok s.
Proof. intros H. unfold get_str. by rewrite (get_strings _ _ _ H). Qed.

Lemma rows_of_strings {B} ss (f : list Z → B) :
  mapM_run (λ i, s ← get_str (StringColumnM.new ss) i; Ok (f s)) (seq 0 (length ss)) = Ok (f <$> ss).
Proof.
  rewrite (mapM_run_ok _ (λ i, f (default [] (ss !! i)))).
  - f_equal. apply list_eq. intros i. rewrite !list_lookup_fmap. destruct (ss !! i) as [s|] eqn:E.
    + rewrite lookup_seq_lt by (by eapply lookup_lt_Some). simpl. by rewrite E.
    + rewrite lookup_seq_ge by (by apply lookup_ge_None_1). done.
  - intros i Hi. apply elem_of_seq in Hi. destruct (lookup_lt_is_Some_2 ss i) as [s Hs]; [lia|].
    rewrite (get_new _ _ _ Hs), Hs. done.
Qed.

Lemma per_row_new ss f : per_row (StringColumnM.new ss) (length ss) f = Ok (f <$> ss).
Proof. apply rows_of_strings. Qed.

(** Each row has its flag. *)
Definition flags {A} (P : A → Prop) (l : list A) (mask : list bool) : Prop := Forall2 (λ x b, b = true ↔ P x) l mask.

Lemma flags_fmap {A} (P : A → Prop) f l : (∀ x, x ∈ l → f x = true ↔ P x) → flags P l (f <$> l).
Proof. intros H. unfold flags. induction l as [|x l IH]; constructor; [apply H; set_solver|]. apply IH. set_solver. Qed.

(** The mask of a list indexed by row numbers. *)
Lemma flags_rows {A} (P : nat → Prop) (f : A → bool) (l : list A) :
  (∀ i x, l !! i = Some x → f x = true ↔ P i) → flags P (seq 0 (length l)) (f <$> l).
Proof.
  intros H. apply Forall2_same_length_lookup_2; [by rewrite length_seq, length_fmap|].
  intros i k b Hk Hb. apply lookup_seq in Hk as [-> _]. rewrite list_lookup_fmap in Hb.
  destruct (l !! i) as [x|] eqn:E; [|done]. simplify_eq/=. by apply H.
Qed.

Lemma flags_compose {A B} (P : A → Prop) (Q : B → Prop) l l' mask :
  Forall2 (λ y x, P x ↔ Q y) l' l → flags P l mask → flags Q l' mask.
Proof.
  intros H Hf. unfold flags in *. revert l' H. induction Hf as [|x b l mask Hb _ IH]; intros l' H; inversion H; subst; constructor; [|auto].
  by rewrite Hb.
Qed.

Lemma flags_zip {A} (P Q R : A → Prop) op l m1 m2 : (∀ a b : bool, ∀ x, (a = true ↔ P x) → (b = true ↔ Q x) → op a b = true ↔ R x) →
  flags P l m1 → flags Q l m2 → flags R l (zip_with op m1 m2).
Proof.
  intros Hop H1. revert m2. induction H1 as [|x b l m1 Hb H1 IH]; intros m2 H2; inversion H2; subst; constructor; [by apply Hop|by apply IH].
Qed.

Lemma flags_not {A} (P : A → Prop) l m : flags P l m → flags (λ x, ¬ P x) l (map negb m).
Proof. unfold flags. induction 1 as [|x b l m Hb H IH]; constructor; [|done]. rewrite <- Hb. by destruct b. Qed.

Lemma replicate_flags {A} (l : list A) : replicate (length l) true = (λ _, true) <$> l.
Proof. induction l as [|x l IH]; [done|]. simpl. by rewrite IH. Qed.

Lemma no_wild_inner m : no_wild m → existsb (λ c, Z.eqb c 37 || Z.eqb c 95) m = false.
Proof.
  induction 1 as [|c m [H1 H2] Hm IH]; [done|]. simpl. rewrite IH. by rewrite (proj2 (Z.eqb_neq c 37) H1), (proj2 (Z.eqb_neq c 95) H2).
Qed.

Lemma build_like_mask_spec ss p : simple p →
  ∃ mask, build_like_mask (StringColumnM.new ss) p = Ok mask ∧ flags (like p) ss mask.
Proof.
  intros (a & m & b & -> & Hm & Hp). unfold build_like_mask. rewrite trim_simple, no_wild_inner by done.
  rewrite (StringColumnM.len_holds _ _ (StringColumnM.column_holds_new ss)). case_bool_decide as Hne.
  { subst m. eexists. split; [done|]. rewrite replicate_flags. apply flags_fmap. intros s _. split; [|done]. intros _.
    cbn [app]. rewrite <- replicate_add. apply like_tail. left. intros E. destruct Hp. apply length_zero_iff_nil.
    rewrite !length_app, !length_replicate. simpl. lia. }
  rewrite starts_percent, ends_percent by done. cbn beta iota zeta.
  destruct a as [|a], b as [|b]; repeat (rewrite bool_decide_true by done || rewrite bool_decide_false by (intros H; by apply H));
  rewrite ?per_row_new, ?StringColumnM.mask_holds; (eexists; split; [done|]); apply flags_fmap; intros s _; rewrite like_simple by done.
  - rewrite bool_decide_eq_true. split; [intros ->; exists [], []; by rewrite app_nil_r|].
    intros (x & y & -> & -> & ->); [|done..]. by rewrite app_nil_r.
  - rewrite starts_with_spec. split; [intros (y & ->); by exists [], y|]. intros (x & y & -> & -> & _); [|done]. by exists y.
  - rewrite ends_with_spec. split; [intros (x & ->); exists x, []; by rewrite app_nil_r|].
    intros (x & y & -> & _ & ->); [|done]. exists x. by rewrite app_nil_r.
  - unfold StringColumnM.contains. rewrite StringColumnM.memchr_search_spec. split; intros (x & y & H); exists x, y; [done|tauto].
Qed.

(** ** Predicates *)
Inductive cmp_op := CEq | CNe | CLt | CGt | CLe | CGe.
Definition op_text (c : cmp_op) : text :=
  match c with CEq => K "=" | CNe => K "!=" | CLt => K "<" | CGt => K ">" | CLe => K "<=" | CGe => K ">=" end.
Definition is_range (c : cmp_op) : bool := match c with CEq | CNe => false | _ => true end.
(** What the comparison of two values must be. *)
Definition cmp_holds (c : cmp_op) (o : comparison) : Prop :=
  match c with CEq => o = Eq | CNe => o ≠ Eq | CLt => o = Lt | CGt => o = Gt | CLe => o ≠ Gt | CGe => o ≠ Lt end.

Inductive pred :=
| PCmp (name : text) (c : cmp_op) (v : Value)
| PLike (negated : bool) (name pattern : text)
| PAnd (p1 p2 : pred) | POr (p1 p2 : pred).

Fixpoint to_expr (p : pred) : Expr :=
  match p with
  | PCmp n c v => Binary (Column n) (op_text c) (Literal v)
  | PLike neg n pat => Binary (Column n) (if neg then K "NOT LIKE" else K "LIKE") (Literal (VString pat))
  | PAnd p1 p2 => Binary (to_expr p1) (K "AND") (to_expr p2)
  | POr p1 p2 => Binary (to_expr p1) (K "OR") (to_expr p2)
  end.

Section where_.
Context (uni_upper : Z → list Z) (xxh3_64 : list Z → Z) (float_bits : text → Z) {TS : Type}.
Abbreviation Table := (CatalogM.Table StringColumnM.StringSearchColumn TS).
Abbreviation filter_mask := (build_filter_mask uni_upper xxh3_64 float_bits).
Abbreviation predicate_mask := (eval_predicate_mask uni_upper xxh3_64 float_bits).
Abbreviation literal := (value_to_u64 xxh3_64 float_bits).

(** Every column has a cell for every row, and a string for every row if it has strings. *)
Record table_ok (t : Table) : Prop := {
  ok_names : length (column_names t) = length (columns t);
  ok_cells : Forall (λ c, length c = row_count t) (columns t);
  ok_strings : ∀ i sc, string_col t i = Some sc → ∃ ss, sc = StringColumnM.new ss ∧ length ss = row_count t
}.

(** The names resolve, and LIKE is asked of columns with strings. *)
Fixpoint pred_ok (t : Table) (p : pred) : Prop :=
  match p with
  | PCmp n _ _ => is_Some (ok (resolve_col_name n t))
  | PLike _ n pat => simple pat ∧ ∃ i, resolve_col_name n t = Ok i ∧ is_Some (string_col t i)
  | PAnd p1 p2 | POr p1 p2 => pred_ok t p1 ∧ pred_ok t p2
  end.

(** Whether strings are compared, rather than cells. *)
Definition by_strings (t : Table) (i : nat) (c : cmp_op) (v : Value) : option (StringColumnM.StringSearchColumn * text) :=
  match is_range c, v, string_col t i with true, VString s, Some sc => Some (sc, s) | _, _, _ => None end.

Fixpoint sat (t : Table) (p : pred) (row : nat) : Prop :=
  match p with
  | PCmp n c v =>
    ∃ i, resolve_col_name n t = Ok i ∧
    match by_strings t i c v with
    | Some (sc, lit) => ∃ s, StringColumnM.get sc row = Some s ∧ cmp_holds c (str_cmp s (as_bytes lit))
    | None => ∃ x, cell t i row = Ok x ∧ cmp_holds c (Z.compare x (literal v))
    end
  | PLike neg n pat =>
    ∃ i sc s, resolve_col_name n t = Ok i ∧ string_col t i = Some sc ∧ StringColumnM.get sc row = Some s ∧
    if neg then ¬ like pat s else like pat s
  | PAnd p1 p2 => sat t p1 row ∧ sat t p2 row
  | POr p1 p2 => sat t p1 row ∨ sat t p2 row
  end.

(** *** Resolution gives a column of the table *)
Lemma position_lt {A} (p : A → bool) l i : VectorizedM.position p l = Some i → (i < length l)%nat.
Proof.
  revert i. induction l as [|x l IH]; intros i; [done|]. simpl. destruct (p x); [intros [= <-]; lia|].
  destruct (VectorizedM.position p l); simpl; [|done]. intros [= <-]. specialize (IH _ eq_refl). lia.
Qed.
Lemma column_idx_lt n (t : Table) i : column_idx n t = Some i → (i < length (column_names t))%nat.
Proof.
  unfold column_idx. generalize (column_names t). intros l. revert i. induction l as [|x l IH]; intros i; [done|]. simpl.
  destruct (bool_decide _); [intros [= <-]; lia|]. destruct (CatalogM.position _ l); simpl; [|done]. intros [= <-]. specialize (IH _ eq_refl). lia.
Qed.
Lemma resolve_lt n (t : Table) i : resolve_col_name n t = Ok i → (i < length (column_names t))%nat.
Proof.
  unfold resolve_col_name. destruct (column_idx n t) as [k|] eqn:E; [intros [= <-]; by eapply column_idx_lt|].
  destruct (after_dot n) as [b|]; cbn [mbind option_bind].
  - destruct (column_idx b t) as [k|] eqn:E'; [intros [= <-]; by eapply column_idx_lt|].
    unfold or_fail. destruct (VectorizedM.position _ _) eqn:E''; [|done]. intros [= <-]. by eapply position_lt.
  - unfold or_fail. destruct (VectorizedM.position _ _) eqn:E''; [|done]. intros [= <-]. by eapply position_lt.
Qed.

Lemma resolve_column n (t : Table) i : table_ok t → resolve_col_name n t = Ok i →
  ∃ col, columns t !! i = Some col ∧ length col = row_count t.
Proof.
  intros Ht H%resolve_lt. rewrite (ok_names _ Ht) in H. destruct (lookup_lt_is_Some_2 _ _ H) as [col Hc].
  exists col. split; [done|]. by apply (Forall_lookup_1 _ _ _ _ (ok_cells _ Ht) Hc).
Qed.

(** *** Comparison *)
Lemma range_op_spec c o : is_range c = true → range_op (op_text c) o = true ↔ cmp_holds c o.
Proof. destruct c; [done|done|..]; intros _; destruct o; vm_compute; intuition congruence. Qed.

Lemma cell_mask_spec c col v : ∃ f, cell_mask (op_text c) col v = Some (f <$> col) ∧ ∀ x, f x = true ↔ cmp_holds c (Z.compare x v).
Proof.
  destruct c; (eexists; split; [reflexivity|]); intros x; simpl; unfold Z.ltb, Z.leb.
  - rewrite Z.eqb_compare. destruct (Z.compare x v); naive_solver.
  - rewrite Z.eqb_compare. destruct (Z.compare x v); naive_solver.
  - destruct (Z.compare x v); naive_solver.
  - rewrite (Z.compare_antisym x v). destruct (Z.compare x v); simpl; naive_solver.
  - destruct (Z.compare x v); naive_solver.
  - rewrite (Z.compare_antisym x v). destruct (Z.compare x v); simpl; naive_solver.
Qed.

Lemma is_range_op_text c : is_range_op (op_text c) = is_range c.
Proof. by destruct c. Qed.

Lemma compare_spec t n c v i : table_ok t → resolve_col_name n t = Ok i →
  ∃ mask, compare_mask xxh3_64 float_bits t (Column n) (op_text c) (Literal v) = Ok (Some mask) ∧
    flags (sat t (PCmp n c v)) (seq 0 (row_count t)) mask.
Proof.
  intros Ht Hi. destruct (resolve_column _ _ _ Ht Hi) as (col & Hc & Hlen). unfold compare_mask. cbn [column_and_literal].
  rewrite Hi. cbn [ok]. rewrite Hc, is_range_op_text. cbn [sat].
  assert (∀ row, by_strings t i c v = None → sat t (PCmp n c v) row ↔ ∃ x, col !! row = Some x ∧ cmp_holds c (Z.compare x (literal v))) as Hcell.
  { intros row E. cbn [sat]. unfold cell. split.
    - intros (i' & Hi' & H). rewrite Hi in Hi'. injection Hi' as <-. rewrite E, Hc in H. destruct H as (x & Hx & H). exists x.
      split; [|done]. cbn in Hx. by destruct (col !! row); simplify_eq/=.
    - intros (x & Hx & H). exists i. rewrite E, Hc. split; [done|]. exists x. split; [|done]. cbn. by rewrite Hx. }
  assert (∀ E : by_strings t i c v = None, ∃ mask, Ok (E := Fault) (cell_mask (op_text c) col (literal v)) = Ok (Some mask) ∧
    flags (sat t (PCmp n c v)) (seq 0 (row_count t)) mask) as Hnum.
  { intros E. destruct (cell_mask_spec c col (literal v)) as (f & -> & Hf). eexists. split; [done|]. rewrite <- Hlen.
    apply flags_rows. intros row x Hx. rewrite Hcell, Hf by done. split; [by exists x|]. intros (x' & Hx' & H). by simplify_eq. }
  unfold by_strings in Hnum. destruct (is_range c) eqn:Er; [|by apply Hnum]. destruct v as [z|f|lit|b]; try by apply Hnum.
  destruct (string_col t i) as [sc|] eqn:Esc; [|by apply Hnum]. clear Hnum Hcell.
  destruct (ok_strings _ Ht i sc Esc) as (ss & -> & Hss). rewrite <- Hss, rows_of_strings. eexists. split; [done|].
  apply flags_rows. intros row s Hs. rewrite range_op_spec by done.
  pose proof (get_strings _ _ _ Hs) as Hg.
  assert (by_strings t i c (VString lit) = Some (StringColumnM.new ss, lit)) as Hb by (unfold by_strings; by rewrite Er, Esc).
  cbn [sat]. split.
  - intros H. exists i. rewrite Hb. split; [done|]. by exists s.
  - intros (i' & Hi' & H). rewrite Hi in Hi'. injection Hi' as <-. rewrite Hb in H. destruct H as (s' & Hs' & H). congruence.
Qed.

Lemma like_filter_spec t neg n pat : table_ok t → pred_ok t (PLike neg n pat) →
  ∃ mask, like_filter t (Column n) (if neg then K "NOT LIKE" else K "LIKE") (Literal (VString pat)) = Ok (Some mask) ∧
    flags (sat t (PLike neg n pat)) (seq 0 (row_count t)) mask.
Proof.
  intros Ht (Hpat & i & Hi & [sc Hsc]). unfold like_filter. rewrite Hi. cbn [ok]. rewrite Hsc.
  destruct (ok_strings _ Ht i sc Hsc) as (ss & -> & Hss). destruct (build_like_mask_spec ss pat Hpat) as (mask & -> & Hm).
  exists (if neg then map negb mask else mask). split; [by destruct neg|]. rewrite <- Hss.
  apply (flags_compose (if neg then (λ s, ¬ like pat s) else like pat) _ ss); [|destruct neg; [by apply flags_not|done]].
  apply Forall2_same_length_lookup_2; [by rewrite length_seq|]. intros row k s Hk Hs. apply lookup_seq in Hk as [-> _]. simpl.
  pose proof (get_strings _ _ _ Hs) as Hg. split.
  - intros H. exists i, (StringColumnM.new ss), s. split_and!; [done..|]. by destruct neg.
  - intros (i' & sc' & s' & Hi' & Hsc' & Hs' & H). rewrite Hi in Hi'. injection Hi' as <-. rewrite Hsc in Hsc'. injection Hsc' as <-.
    rewrite Hg in Hs'. injection Hs' as <-. by destruct neg.
Qed.

Lemma both_spec rec op (P Q R : nat → Prop) l e1 e2 :
  (∀ a b : bool, ∀ x, (a = true ↔ P x) → (b = true ↔ Q x) → op a b = true ↔ R x) →
  (∃ m, rec e1 = Ok (Some m) ∧ flags P l m) → (∃ m, rec e2 = Ok (Some m) ∧ flags Q l m) →
  ∃ m, both rec op e1 e2 = Ok (Some m) ∧ flags R l m.
Proof.
  intros Hop (m1 & E1 & H1) (m2 & E2 & H2). unfold both, and_then. rewrite E1. cbn [mbind result_bind]. rewrite E2.
  eexists. split; [done|]. by eapply flags_zip.
Qed.

Lemma predicate_spec t p : table_ok t → pred_ok t p →
  ∃ mask, predicate_mask t (to_expr p) = Ok (Some mask) ∧ flags (sat t p) (seq 0 (row_count t)) mask.
Proof.
  intros Ht. induction p as [n c v|neg n pat|p1 IH1 p2 IH2|p1 IH1 p2 IH2]; intros Hp; cbn [to_expr eval_predicate_mask].
  - destruct Hp as [i Hi]. assert (resolve_col_name n t = Ok i) as Hr by (by destruct (resolve_col_name n t); simplify_eq/=).
    destruct (compare_spec t n c v i Ht Hr) as (mask & Hm & Hf). exists mask. split; [|done]. by destruct c.
  - destruct (like_filter_spec _ _ _ _ Ht Hp) as (mask & Hm & Hf). exists mask. split; [|done]. by destruct neg.
  - destruct Hp as [H1 H2]. change (∃ mask, both (predicate_mask t) andb (to_expr p1) (to_expr p2) = Ok (Some mask) ∧
      flags (λ r, sat t p1 r ∧ sat t p2 r) (seq 0 (row_count t)) mask).
    eapply both_spec; [|by apply IH1|by apply IH2]. intros a b x <- <-. apply andb_true_iff.
  - destruct Hp as [H1 H2]. change (∃ mask, both (predicate_mask t) orb (to_expr p1) (to_expr p2) = Ok (Some mask) ∧
      flags (λ r, sat t p1 r ∨ sat t p2 r) (seq 0 (row_count t)) mask).
    eapply both_spec; [|by apply IH1|by apply IH2]. intros a b x <- <-. apply orb_true_iff.
Qed.

(** The WHERE clause of a query: none, or the expression of a predicate. *)
Definition where_is (q : SelectQuery) (p : option pred) : Prop := where_clause q = to_expr <$> p.
Definition opt_ok (t : Table) (p : option pred) : Prop := from_option (pred_ok t) True p.
Definition opt_sat (t : Table) (p : option pred) (row : nat) : Prop := from_option (λ p, sat t p row) True p.

Lemma try_like_eq (t : Table) p : (∃ n c v, p = PCmp n c v ∧ try_string_like_filter uni_upper xxh3_64 float_bits t (to_expr p) = Ok None) ∨
  try_string_like_filter uni_upper xxh3_64 float_bits t (to_expr p) = predicate_mask t (to_expr p).
Proof. destruct p as [n c v|neg n pat|p1 p2|p1 p2]; [left; exists n, c, v; by destruct c|right..]; [by destruct neg|done|done]. Qed.

Lemma filter_mask_spec q t p : table_ok t → where_is q p → opt_ok t p →
  ∃ mask, filter_mask q t = Ok mask ∧ flags (opt_sat t p) (seq 0 (row_count t)) mask.
Proof.
  intros Ht Hq Hp. unfold build_filter_mask. rewrite Hq. destruct p as [p|]; simpl.
  - destruct (predicate_spec t p Ht Hp) as (mask & Hm & Hf). exists mask. split; [|done].
    destruct (try_like_eq t p) as [(n & c & v & _ & ->)| ->]; cbn [mbind result_bind]; by rewrite Hm.
  - eexists. split; [done|]. rewrite <- (length_seq (row_count t) 0) at 2. rewrite replicate_flags. by apply flags_fmap.
Qed.

(** The rows of a table that satisfy a predicate, in order. *)
Definition answers (t : Table) (p : option pred) (rows : list nat) : Prop :=
  StronglySorted lt rows ∧ ∀ row, row ∈ rows ↔ (row < row_count t)%nat ∧ opt_sat t p row.

Lemma flags_lookup (P : nat → Prop) n mask row : flags P (seq 0 n) mask → (row < n)%nat → mask !! row = Some true ↔ P row.
Proof.
  intros Hf Hrow. assert (seq 0 n !! row = Some row) as Hs by (by rewrite lookup_seq_lt).
  destruct (Forall2_lookup_l _ _ _ _ _ Hf Hs) as (b & Hb & <-). rewrite Hb. split; [by intros [= ->]|by intros ->].
Qed.

Lemma matching_answers (t : Table) p mask : flags (opt_sat t p) (seq 0 (row_count t)) mask →
  ∃ rows, matching t mask = Ok rows ∧ answers t p rows ∧ rows = filter (λ i, mask !! i = Some true) (seq 0 (row_count t)).
Proof.
  intros Hf. pose proof (Forall2_length _ _ _ Hf) as Hl. rewrite length_seq in Hl. unfold matching, mask_rows.
  rewrite bool_decide_true by lia. eexists. split; [done|]. split; [|done]. split; [apply SortingM.filter_sorted, SortingM.seq_sorted|].
  intros row. rewrite list_elem_of_filter, elem_of_seq. simpl. split.
  - intros [Hm [_ Hlt]]. split; [done|]. by apply (flags_lookup _ _ _ _ Hf Hlt).
  - intros [Hlt Hs]. split; [|lia]. by apply (flags_lookup _ _ _ _ Hf Hlt).
Qed.

Lemma no_fallback p : expr_needs_tpch_fallback (to_expr p) = false.
Proof. induction p as [| |p1 IH1 p2 IH2|p1 IH1 p2 IH2]; simpl; by rewrite ?IH1, ?IH2. Qed.

(** C17: WHERE of one table. For every tree of AND and OR over comparisons [column op literal] and
    LIKEs whose columns exist, the dispatcher computes without a fault a mask with one flag per
    row, true exactly at the rows that satisfy the predicate. Ranges ([<], [>], [<=], [>=]) of a
    string column against a string literal compare bytes; every other comparison, also [=] and
    [!=] of strings, compares the cell with the literal's cell as unsigned 64-bit numbers: a
    string's cell is its hash (of a literal that reads as an integer, the integer), a float's its
    bits, a negative number is a large one. LIKE is that of SQL, for non-empty patterns that are
    text between percent signs and columns with strings. NULL flags are not consulted. The table
    has a cell for each row and one string for each row in string columns. Not covered: the
    literal on the left (see [reversed_comparison]), two columns. *)
Theorem where_mask_correct q t p : table_ok t → where_is q p → opt_ok t p →
  ∃ mask, filter_mask q t = Ok mask ∧ length mask = row_count t ∧
    ∀ row, (row < row_count t)%nat → mask !! row = Some true ↔ opt_sat t p row.
Proof.
  intros Ht Hq Hp. destruct (filter_mask_spec q t p Ht Hq Hp) as (mask & Hm & Hf). exists mask. split; [done|]. split.
  - pose proof (Forall2_length _ _ _ Hf) as Hl. by rewrite length_seq in Hl.
  - intros row. by apply flags_lookup.
Qed.

(** a literal on the left.  [5 < a] is evaluated as [a < 5]: a comparison whose
    literal comes first selects the rows that satisfy the comparison with its operands
    exchanged and its operator unchanged. *)
Theorem reversed_comparison q t n c v i : table_ok t → resolve_col_name n t = Ok i →
  where_clause q = Some (Binary (Literal v) (op_text c) (Column n)) →
  ∃ mask, filter_mask q t = Ok mask ∧ ∀ row, (row < row_count t)%nat → mask !! row = Some true ↔ sat t (PCmp n c v) row.
Proof.
  intros Ht Hi Hq. destruct (compare_spec t n c v i Ht Hi) as (mask & Hm & Hf). exists mask. split; [|intros row; by apply flags_lookup].
  unfold build_filter_mask. rewrite Hq. change (compare_mask xxh3_64 float_bits t (Literal v) (op_text c) (Column n) = Ok (Some mask)) in Hm.
  destruct c; cbn [op_text] in *; (change (try_string_like_filter _ _ _ t _) with (Ok (E := Fault) (A := option (list bool)) None));
    cbn [mbind result_bind]; (change (eval_predicate_mask uni_upper xxh3_64 float_bits t (Binary (Literal v) ?o (Column n))) with
      (compare_mask xxh3_64 float_bits t (Literal v) o (Column n))); by rewrite Hm.
Qed.
End where_.

(** A table with a column of numbers and a column of strings. *)
Definition sample : CatalogM.Table StringColumnM.StringSearchColumn unit :=
  mkTable (K "t") [[3; 5; 9]; [1; 2; 3]] [K "a"; K "s"] 3
    [None; Some (StringColumnM.new [K "pear"; K "apple"; K "grape"])] [] None.
Lemma sample_ok : table_ok sample.
Proof.
  split; [done|by repeat constructor|]. intros [|[|i]] sc; [done| |done]. intros [= <-].
  by exists [K "pear"; K "apple"; K "grape"].
Qed.

Definition sample_pred : pred := PAnd (PCmp (K "a") CGe (VInt 4)) (PLike false (K "s") (K "%ple")).
Lemma sample_pred_ok : pred_ok sample sample_pred.
Proof.
  split; [by eexists|]. split; [|by exists 1%nat]. exists 1%nat, (K "ple"), 0%nat. split; [done|].
  split; [|done]. apply (bool_decide_unpack _). done.
Qed.

Lemma where_mask_correct_witness :
  let q := mkQuery [SStar] (K "t") [] (Some (to_expr sample_pred)) [] None [] None false in
  build_filter_mask (λ c, [c]) (λ _, 0) (λ _, 0) q sample = Ok [false; true; false] ∧
  (sat (λ _, 0) (λ _, 0) sample sample_pred 1 ∧ ¬ sat (λ _, 0) (λ _, 0) sample sample_pred 2).
Proof.
  intros q. destruct (where_mask_correct (λ c, [c]) (λ _, 0) (λ _, 0) q sample (Some sample_pred)
    sample_ok eq_refl sample_pred_ok) as (mask & Hm & _ & H).
  assert (mask = [false; true; false]) as -> by (assert (Ok (E := Fault) mask = Ok [false; true; false]) as E
    by (rewrite <- Hm; vm_compute; reflexivity); by injection E).
  split; [done|]. split.
  - apply (H 1%nat); [simpl; lia|done].
  - intros Hs. assert (Some false = Some true); [|done]. apply (H 2%nat); [simpl; lia|done].
Defined.

(** On cells 3, 5 and 9, [5 < a] selects the row with 3. *)
Lemma reversed_comparison_witness :
  let q := mkQuery [SStar] (K "t") [] (Some (Binary (Literal (VInt 5)) (K "<") (Column (K "a")))) [] None [] None false in
  build_filter_mask (λ c, [c]) (λ _, 0) (λ _, 0) q sample = Ok [true; false; false] ∧
  ∃ mask, build_filter_mask (λ c, [c]) (λ _, 0) (λ _, 0) q sample = Ok mask ∧
    ∀ row, (row < 3)%nat → mask !! row = Some true ↔ sat (λ _, 0) (λ _, 0) sample (PCmp (K "a") CLt (VInt 5)) row.
Proof.
  intros q. split; [vm_compute; reflexivity|].
  apply (reversed_comparison (λ c, [c]) (λ _, 0) (λ _, 0) q sample (K "a") CLt (VInt 5) 0 sample_ok); reflexivity.
Defined.
End WhereM.
