(* ===== verification/Select.v ===== *)
(** * Correctness of SELECT over one table (src/src/engine/dispatch.rs)

    The rows a query returns, their order and their number, and the aggregates, for the
    tables and predicates of Where.v. *)

From Stdlib Require Import ZArith Lia Ascii String Sorting.Sorted.
From stdpp Require Import prelude list numbers gmap.
From S2P Require Import Prelude Nulls Catalog Result Sorting Lexer StringColumn Parser Window Vectorized Parallel Dispatch Where.
Local Open Scope Z_scope.

Module SelectM.
Import LexerM ParserM SortingM CatalogM VectorizedM ParallelM DispatchM WhereM.

#[export] Instance str_ordering : Ordering str_cmp.
Proof.
  split.
  - induction a as [|x a IH]; intros [|y b]; try done. simpl. rewrite Z.compare_antisym. destruct (Z.compare x y); simpl; auto.
  - induction a as [|x a IH]; intros [|y b] [|z c]; simpl; try done; destruct (Z.compare_spec x y) as [->|H|H]; intros E; try done.
    destruct (Z.compare y z); auto.
  - induction a as [|x a IH]; intros [|y b] [|z c]; simpl; try done; try (intros; congruence).
    destruct (Z.compare_spec x y) as [->|H|H]; [destruct (Z.compare y z); naive_solver| |done].
    intros _ H2. destruct (Z.compare_spec y z) as [->|H'|H']; [|destruct (Z.compare_spec x z); by try lia|done].
    by rewrite (proj2 (Z.compare_lt_iff x z)).
Qed.

Lemma mapM_run_Forall2 {A B} (f : A → run B) l :
  (∀ x, x ∈ l → ∃ y, f x = Ok y) → ∃ ys, mapM_run f l = Ok ys ∧ Forall2 (λ x y, f x = Ok y) l ys.
Proof.
  induction l as [|x l IH]; intros H; [by exists []|]. destruct (H x) as [y Hy]; [set_solver|].
  destruct IH as (ys & Hys & Hf); [set_solver|]. exists (y :: ys). cbn [mapM_run]. rewrite Hy. cbn [mbind result_bind].
  rewrite Hys. split; [done|by constructor].
Qed.

(** One step of a run that succeeds. *)
Ltac run_ok H := rewrite H; cbn [mbind result_bind].

Section select.
Context (uni_upper : Z → list Z) (to_lowercase : text → text) (xxh3_64 : list Z → Z) (float_bits : text → Z).
Context (hash_order : list Z → list Z) (threads : nat) (pool : list Morsel → tree Morsel) {TS : Type}.
Abbreviation Table := (CatalogM.Table StringColumnM.StringSearchColumn TS).
Abbreviation answer_rows := (answers xxh3_64 float_bits).
Abbreviation execute := (execute_dispatched uni_upper to_lowercase xxh3_64 float_bits hash_order threads pool).
Implicit Types t : Table.

(** ** Order *)

(** Rows compared on a column: by its strings where it has them, else by its cells. *)
Definition row_cmp (t : Table) (i : nat) (asc : bool) : nat → nat → comparison :=
  match string_col t i with
  | Some sc => towards asc (by_key (λ row, default [] (StringColumnM.get sc row)) str_cmp)
  | None => towards asc (by_key (λ row, default 0 (col ← columns t !! i; col !! row)) Z.compare)
  end.
#[local] Instance row_cmp_ordering t i asc : Ordering (row_cmp t i asc).
Proof. unfold row_cmp. destruct (string_col t i); apply _. Qed.

(** The first ORDER BY column decides, ties keep the order of the table. *)
Definition in_order (t : Table) (ob : list (text * bool)) (rows : list nat) : Prop :=
  match ob with
  | [] => StronglySorted lt rows
  | (n, asc) :: _ => ∃ i, resolve_col_name n t = Ok i ∧ StronglySorted (stable (row_cmp t i asc)) rows
  end.
Definition order_ok (t : Table) (ob : list (text * bool)) : Prop :=
  match ob with [] => True | (n, _) :: _ => ∃ i, resolve_col_name n t = Ok i end.

Lemma sort_indices_spec t i asc rows : table_ok t → (i < length (columns t))%nat →
  Forall (λ row, (row < row_count t)%nat) rows → sort_indices t i asc rows = Ok (sort_by (row_cmp t i asc) rows).
Proof.
  intros Ht Hi Hrows. unfold sort_indices, row_cmp. destruct (string_col t i) as [sc|] eqn:Esc.
  - destruct (ok_strings _ Ht _ _ Esc) as (ss & -> & Hss). destruct (Nat.leb_spec (length rows) 1); [done|].
    destruct (mapM_run_Forall2 (get_str (StringColumnM.new ss)) rows) as (ys & -> & _); [|done].
    intros row Hrow. rewrite list.Forall_forall in Hrows. specialize (Hrows _ Hrow).
    destruct (lookup_lt_is_Some_2 ss row) as [s Hs]; [lia|]. exists s. by apply get_new.
  - destruct (lookup_lt_is_Some_2 _ _ Hi) as [col ->]. done.
Qed.

Lemma order_rows_spec t ob resolve rows : table_ok t → order_ok t ob →
  (∀ n i, resolve_col_name n t = Ok i → resolve n = i) →
  StronglySorted lt rows → Forall (λ row, (row < row_count t)%nat) rows →
  ∃ sorted, order_rows t ob resolve rows = Ok sorted ∧ sorted ≡ₚ rows ∧ in_order t ob sorted.
Proof.
  intros Ht Hob Hres Hs Hrows. destruct ob as [|[n asc] ob]; [by exists rows|]. destruct Hob as [i Hi]. simpl.
  rewrite (Hres _ _ Hi).
  rewrite sort_indices_spec; [|done| |done].
  - eexists. split; [done|]. split; [apply sort_by_perm|]. exists i. split; [done|]. by apply (sort_by_sorted _).
  - rewrite <- (ok_names _ Ht). by eapply resolve_lt.
Qed.

(** ** Columns of the result *)

(** The cells, strings and NULL flags of column [n] at [rows]. *)
Definition shows (t : Table) (rows : list nat) (n : text) (c : ResultM.ResultColumn) : Prop :=
  ∃ i, resolve_col_name n t = Ok i ∧ ResultM.name c = n ∧
  Forall2 (λ row v, cell t i row = Ok v) rows (ResultM.values c) ∧
  match string_col t i, ResultM.string_values c with
  | Some sc, Some ss => Forall2 (λ row s, StringColumnM.get sc row = Some s) rows ss
  | None, None => True
  | _, _ => False
  end ∧
  ∀ k row, rows !! k = Some row → is_cell_null_dispatch t i row = default false (m ← ResultM.null_mask c; m !! k).

Lemma cells_at_spec (t : Table) i rows : table_ok t → (i < length (columns t))%nat → Forall (λ row, (row < row_count t)%nat) rows →
  ∃ vs, cells_at t i rows = Ok vs ∧ Forall2 (λ row v, cell t i row = Ok v) rows vs.
Proof.
  intros Ht Hi Hrows. apply mapM_run_Forall2. intros row Hrow. rewrite list.Forall_forall in Hrows. specialize (Hrows _ Hrow).
  destruct (lookup_lt_is_Some_2 _ _ Hi) as [col Hc]. pose proof (Forall_lookup_1 _ _ _ _ (ok_cells _ Ht) Hc) as Hl. simpl in Hl.
  destruct (lookup_lt_is_Some_2 col row) as [x Hx]; [lia|]. exists x. unfold cell. rewrite Hc. cbn. by rewrite Hx.
Qed.

Lemma existsb_false_lookup m k b : existsb (λ x : bool, x) m = false → m !! k = Some b → b = false.
Proof.
  revert k. induction m as [|x m IH]; intros [|k]; simpl; try done; intros [-> H]%orb_false_iff; [by intros [= ->]|by apply IH].
Qed.

Lemma nulls_at_spec (t : Table) i rows k row : rows !! k = Some row →
  is_cell_null_dispatch t i row = default false (m ← nulls_at t i rows; m !! k).
Proof.
  intros Hk. unfold is_cell_null_dispatch, nulls_at. destruct (bitmap t i) as [bm|]; [|done].
  assert (map (λ i, NullVec.is_null i bm) rows !! k = Some (NullVec.is_null row bm)) as H.
  { change (map ?f rows) with (f <$> rows). by rewrite list_lookup_fmap, Hk. }
  destruct (existsb _ _) eqn:E; cbn; [by rewrite H|]. by apply (existsb_false_lookup _ _ _ E H).
Qed.

Lemma project_spec (t : Table) n i rows : table_ok t → resolve_col_name n t = Ok i → Forall (λ row, (row < row_count t)%nat) rows →
  ∃ c, project t n rows = Ok c ∧ shows t rows n c.
Proof.
  intros Ht Hi Hrows. assert (i < length (columns t))%nat as Hlt by (rewrite <- (ok_names _ Ht); by eapply resolve_lt).
  unfold project. rewrite Hi. cbn [mbind result_bind]. destruct (cells_at_spec t i rows Ht Hlt Hrows) as (vs & -> & Hvs).
  cbn [mbind result_bind]. unfold strings_at. destruct (string_col t i) as [sc|] eqn:Esc.
  - destruct (ok_strings _ Ht _ _ Esc) as (ss & -> & Hss).
    destruct (mapM_run_Forall2 (get_str (StringColumnM.new ss)) rows) as (ys & -> & Hys).
    { intros row Hrow. rewrite list.Forall_forall in Hrows. specialize (Hrows _ Hrow).
      destruct (lookup_lt_is_Some_2 ss row) as [s Hs]; [lia|]. exists s. by apply get_new. }
    eexists. split; [done|]. exists i. split_and!; [done|done|done| |].
    + rewrite Esc. simpl. apply (Forall2_impl _ _ _ _ Hys). intros row s. unfold get_str. by destruct (StringColumnM.get _ _); intros; simplify_eq/=.
    + intros k row. apply nulls_at_spec.
  - eexists. split; [done|]. exists i. rewrite Esc. split_and!; [done..|]. intros k row. apply nulls_at_spec.
Qed.

(** ** Queries *)

(** The query reads one table, asks for no groups, and its WHERE clause is [p]. *)
Record plain_query (q : SelectQuery) (t : Table) (p : option pred) : Prop := {
  pq_table : table_ok t;
  pq_where : where_is q p;
  pq_pred : opt_ok t p;
  pq_group : group_by q = [];
  pq_having : having q = None
}.

Lemma dispatched q t p shape : plain_query q t p → classify_query uni_upper q = shape → shape ≠ Complex →
  execute q t = Some (execute_shape uni_upper to_lowercase xxh3_64 float_bits hash_order threads pool shape q t).
Proof.
  intros Hq Hs Hne. unfold execute_dispatched. rewrite Hs, bool_decide_false by done.
  rewrite (pq_where _ _ _ Hq), (pq_having _ _ _ Hq). destruct p as [p|]; simpl; [by rewrite no_fallback|done].
Qed.

Lemma query_rows q t p : plain_query q t p →
  ∃ mask rows, build_filter_mask uni_upper xxh3_64 float_bits q t = Ok mask ∧ matching t mask = Ok rows ∧ answer_rows t p rows ∧
    rows = filter (λ i, mask !! i = Some true) (seq 0 (row_count t)) ∧ length mask = row_count t.
Proof.
  intros [Ht Hw Hp _ _]. destruct (filter_mask_spec uni_upper xxh3_64 float_bits q t p Ht Hw Hp) as (mask & Hm & Hf).
  pose proof (Forall2_length _ _ _ Hf) as Hl. rewrite length_seq in Hl.
  destruct (matching_answers _ _ t p mask Hf) as (rows & Hr & Ha & E). by exists mask, rows.
Qed.

Lemma answers_bounded t p rows : answer_rows t p rows → Forall (λ row, (row < row_count t)%nat) rows.
Proof. intros [_ H]. apply list.Forall_forall. intros row Hrow. by apply H in Hrow as []. Qed.

Lemma take_limit_Forall {A} (P : A → Prop) l rows : Forall P rows → Forall P (take_limit l rows).
Proof. intros H. destruct l as [n|]; [by apply Forall_take|done]. Qed.

Lemma query_sorted q t p resolve : plain_query q t p → order_ok t (order_by q) → (∀ n i, resolve_col_name n t = Ok i → resolve n = i) →
  ∃ mask rows sorted, build_filter_mask uni_upper xxh3_64 float_bits q t = Ok mask ∧ matching t mask = Ok rows ∧
    order_rows t (order_by q) resolve rows = Ok sorted ∧ answer_rows t p rows ∧ sorted ≡ₚ rows ∧ in_order t (order_by q) sorted ∧
    Forall (λ row, (row < row_count t)%nat) (take_limit (limit q) sorted).
Proof.
  intros Hq Ho Hres. destruct (query_rows q t p Hq) as (mask & rows & Hm & Hr & Ha & _). pose proof (answers_bounded _ _ _ Ha) as Hb.
  destruct (order_rows_spec t (order_by q) resolve rows (pq_table _ _ _ Hq) Ho Hres) as (sorted & Hso & Hp & Hin); [apply Ha|done|].
  exists mask, rows, sorted. split_and!; [done..|]. apply take_limit_Forall. by rewrite Hp.
Qed.

Lemma project_all (t : Table) names rows : table_ok t → Forall (λ row, (row < row_count t)%nat) rows →
  Forall (λ n, ∃ i, resolve_col_name n t = Ok i) names →
  ∃ cols, mapM_run (λ item, match item with
      | SColumn n => c ← project t n rows; Ok [c]
      | SStar => star_columns t rows
      | _ => Ok []
      end) (SColumn <$> names) = Ok cols ∧ Forall2 (shows t rows) names (concat cols).
Proof.
  intros Ht Hrows. induction 1 as [|n names [i Hi] Hn IH]; [by exists []|]. destruct IH as (cols & Hc & Hf).
  destruct (project_spec t n i rows Ht Hi Hrows) as (c & Hp & Hs). exists ([c] :: cols). rewrite fmap_cons. cbn [mapM_run]. rewrite Hp.
  cbn [mbind result_bind]. rewrite Hc. split; [done|by constructor].
Qed.

Lemma columns_only names : existsb is_aggregate (SColumn <$> names) = false ∧ existsb is_expression (SColumn <$> names) = false.
Proof. by induction names as [|n names [IH1 IH2]]. Qed.

Lemma classify_columns q n n' names : group_by q = [] → select q = SColumn <$> n :: n' :: names → classify_query uni_upper q = SelectMulti.
Proof.
  intros Hg Hs. unfold classify_query. rewrite Hg, Hs, bool_decide_true by done. destruct (columns_only (n :: n' :: names)) as [E1 E2].
  rewrite !fmap_cons in *. cbn [negb]. by rewrite E1, E2.
Qed.

(** The rows that satisfy WHERE, in the stable order of the first ORDER BY column (by its
    strings where it has them), truncated by LIMIT after sorting; every column asked for
    shows, at every one of these rows, the cell, the string and the NULL flag of the table. *)
Lemma select_columns_spec q t p names :
  plain_query q t p → order_ok t (order_by q) → names ≠ [] → select q = SColumn <$> names →
  Forall (λ n, ∃ i, resolve_col_name n t = Ok i) names →
  ∃ rows sorted cols, answer_rows t p rows ∧ sorted ≡ₚ rows ∧ in_order t (order_by q) sorted ∧
    let shown := take_limit (limit q) sorted in
    execute q t = Some (Ok (ResultM.mkResult cols (length shown))) ∧ Forall2 (shows t shown) names cols.
Proof.
  intros Hq Ho Hne Hs Hnames. pose proof (pq_table _ _ _ Hq) as Ht. destruct names as [|n [|n' names]]; [done|..].
  - apply Forall_cons_1 in Hnames as [[i Hi] _].
    destruct (query_sorted q t p (λ c, if text_eqb c n then i else resolve_or i c t) Hq Ho) as (mask & rows & sorted & Hm & Hr & Hso & Ha & Hp & Hin & Hb).
    { intros m j Hj. unfold resolve_or, text_eqb. rewrite Hj. case_bool_decide; [congruence|done]. }
    destruct (project_spec t n i _ Ht Hi Hb) as (c & Hc & Hsh). exists rows, sorted, [c]. do 3 (split; [done|]). split; [|by apply Forall2_cons].
    rewrite (dispatched q t p SelectColumn Hq); [|unfold classify_query; by rewrite (pq_group _ _ _ Hq), Hs|done].
    unfold execute_shape. rewrite Hs. change (default SStar (head (SColumn <$> [n]))) with (SColumn n). cbv zeta. unfold select_column. run_ok Hm. run_ok Hi. run_ok Hr. run_ok Hso. by rewrite Hc.
  - destruct (query_sorted q t p (λ c, resolve_or 0 c t) Hq Ho) as (mask & rows & sorted & Hm & Hr & Hso & Ha & Hp & Hin & Hb).
    { intros m j Hj. unfold resolve_or. by rewrite Hj. }
    destruct (project_all t (n :: n' :: names) _ Ht Hb Hnames) as (cols & Hc & Hsh). exists rows, sorted, (concat cols). do 3 (split; [done|]). split; [|done].
    rewrite (dispatched q t p SelectMulti Hq); [|by apply (classify_columns q n n' names (pq_group _ _ _ Hq))|done].
    unfold execute_shape, select_multi. run_ok Hm. run_ok Hr. run_ok Hso. by rewrite Hs, Hc.
Qed.

(** ** SELECT * *)

(** A column of [SELECT *]: cells and NULL flags, no strings. *)
Definition shows_cells (t : Table) (rows : list nat) (x : nat * text) (c : ResultM.ResultColumn) : Prop :=
  ResultM.name c = x.2 ∧ Forall2 (λ row v, cell t x.1 row = Ok v) rows (ResultM.values c) ∧ ResultM.string_values c = None ∧
  ∀ k row, rows !! k = Some row → is_cell_null_dispatch t x.1 row = default false (m ← ResultM.null_mask c; m !! k).

Lemma star_columns_spec t rows : table_ok t → Forall (λ row, (row < row_count t)%nat) rows →
  ∃ cols, star_columns t rows = Ok cols ∧ Forall2 (shows_cells t rows) (imap pair (column_names t)) cols.
Proof.
  intros Ht Hrows. unfold star_columns.
  assert (∀ x, x ∈ imap pair (column_names t) → (x.1 < length (columns t))%nat) as Hx.
  { intros [i n] H. apply elem_of_lookup_imap_1 in H as (j & y & [= <- <-] & Hy). rewrite <- (ok_names _ Ht). by eapply lookup_lt_Some. }
  destruct (mapM_run_Forall2 (λ '(i, n), vs ← cells_at t i rows; Ok (ResultM.mkCol n vs None 0 (nulls_at t i rows))) (imap pair (column_names t)))
    as (cols & Hc & Hf).
  { intros [i n] H%Hx. destruct (cells_at_spec t i rows Ht H Hrows) as (vs & Hv & _). run_ok Hv. by eexists. }
  exists cols. split; [done|]. rewrite Forall2_lookup in Hf |- *. intros k. specialize (Hf k).
  destruct (imap pair (column_names t) !! k) as [[i n]|] eqn:E; inversion Hf as [? c Hr|]; subst; constructor.
  apply list_elem_of_lookup_2, Hx in E. destruct (cells_at_spec t i rows Ht E Hrows) as (vs & Hv & Hvs).
  rewrite Hv in Hr. cbn [mbind result_bind] in Hr. injection Hr as <-. split_and!; [done..|]. intros k' row. apply nulls_at_spec.
Qed.

(** SELECT *.  All columns of the table, at the rows that satisfy WHERE, in the order
    of the table and truncated by LIMIT: ORDER BY has no effect, and a column with
    strings shows its cells only. *)
Theorem select_star_correct q t p : plain_query q t p → select q = [SStar] →
  ∃ rows cols, answer_rows t p rows ∧
    let shown := take_limit (limit q) rows in
    execute q t = Some (Ok (ResultM.mkResult cols (length shown))) ∧ Forall2 (shows_cells t shown) (imap pair (column_names t)) cols.
Proof.
  intros Hq Hs. destruct (query_rows q t p Hq) as (mask & rows & Hm & Hr & Ha & _).
  destruct (star_columns_spec t (take_limit (limit q) rows) (pq_table _ _ _ Hq)) as (cols & Hc & Hsh).
  { apply take_limit_Forall. by eapply answers_bounded. }
  exists rows, cols. split; [done|]. split; [|done].
  rewrite (dispatched q t p SelectStar Hq); [|unfold classify_query; rewrite (pq_group _ _ _ Hq), Hs; done|done].
  unfold execute_shape, select_star. run_ok Hm. run_ok Hr. by rewrite Hc.
Qed.

(** ** Aggregates *)
Definition picked (col : list Z) (mask : list bool) : list Z := (filter (λ p : Z * bool, p.2 = true) (zip col mask)).*1.

Lemma masked_fold_spec {A} (f : A → Z → A) acc col mask : length col = length mask →
  masked_fold f acc col mask = Some (foldl f acc (picked col mask)).
Proof.
  unfold picked. revert acc mask. induction col as [|v col IH]; intros acc [|m mask] Hl; simplify_eq/=; [done|].
  rewrite IH by done. rewrite filter_cons. by destruct m; simpl.
Qed.

Lemma picked_rows col mask : length col = length mask →
  picked col mask = (λ i, default 0 (col !! i)) <$> filter (λ i, mask !! i = Some true) (seq 0 (length mask)).
Proof.
  revert mask. induction col as [|v col IH]; intros [|m mask] Hl; simplify_eq/=; [done|]. unfold picked. cbn [zip zip_with].
  rewrite <- fmap_S_seq, filter_cons. rewrite (filter_cons (λ i, (m :: mask) !! i = Some true)), (filter_fmap_list S). cbn [lookup list_lookup snd].
  fold (picked col mask). specialize (IH mask Hl). unfold picked in IH.
  destruct m; [rewrite !decide_True by done|rewrite !decide_False by done]; rewrite ?fmap_cons, <- list_fmap_compose; by rewrite IH.
Qed.

Definition nonnull t i (rows : list nat) : list nat := filter (λ row, is_cell_null_dispatch t i row = false) rows.
Definition cells_of_col (col : list Z) (rows : list nat) : list Z := (λ i, default 0 (col !! i)) <$> rows.

Lemma adjust_rows t i mask : filter (λ row, adjust_mask_for_nulls mask t i !! row = Some true) (seq 0 (length mask)) =
  nonnull t i (filter (λ row, mask !! row = Some true) (seq 0 (length mask))).
Proof.
  unfold nonnull. rewrite list_filter_filter. apply list_filter_iff. intros row.
  unfold adjust_mask_for_nulls, is_cell_null_dispatch. destruct (bitmap t i) as [bm|]; [|tauto].
  rewrite list_lookup_imap. destruct (mask !! row) as [b|]; simpl; [|naive_solver].
  destruct b, (NullVec.is_null row bm); simpl; naive_solver.
Qed.

Lemma length_adjust t i mask : length (adjust_mask_for_nulls mask t i) = length mask.
Proof. unfold adjust_mask_for_nulls. destruct (bitmap t i); [apply length_imap|done]. Qed.

Inductive agg := ACount | ADistinct | ASum | AAvg | AMin | AMax.
Definition agg_text (a : agg) : text :=
  match a with ACount => K "COUNT" | ADistinct => K "COUNT_DISTINCT" | ASum => K "SUM" | AAvg => K "AVG" | AMin => K "MIN" | AMax => K "MAX" end.
Definition agg_label (a : agg) : text :=
  match a with ACount | ADistinct => K "count" | ASum => K "sum" | AAvg => K "avg" | AMin => K "min" | AMax => K "max" end.
(** The aggregate of a list of cells: sums wrap at 64 bits and are doubles, as averages are; the
    least cell is 0 when it is the greatest number. *)
Definition agg_value (a : agg) (vs : list Z) : Z :=
  match a with
  | ACount => Z.of_nat (length vs)
  | ADistinct => Z.of_nat (size (list_to_set vs : gset Z))
  | ASum => f64_to_bits (u64_as_f64 (wrap_u 64 (foldr Z.add 0 vs)))
  | AAvg => if bool_decide (vs = []) then 0 else f64_ratio (wrap_u 64 (foldr Z.add 0 vs)) (length vs)
  | AMin => let m := foldr Z.min U64_MAX vs in if Z.eqb m U64_MAX then 0 else m
  | AMax => foldr Z.max 0 vs
  end.

Lemma foldl_min acc vs : acc <= U64_MAX → foldl (λ m v, if Z.ltb v m then v else m) acc vs = Z.min acc (foldr Z.min U64_MAX vs).
Proof.
  revert acc. induction vs as [|v vs IH]; intros acc H; simpl; [lia|]. destruct (Z.ltb_spec v acc); rewrite IH by lia; lia.
Qed.
Lemma foldl_max acc vs : 0 <= acc → foldl (λ m v, if Z.ltb m v then v else m) acc vs = Z.max acc (foldr Z.max 0 vs).
Proof.
  revert acc. induction vs as [|v vs IH]; intros acc H; simpl; [lia|]. destruct (Z.ltb_spec acc v); rewrite IH by lia; lia.
Qed.
Lemma foldr_min_le vs : foldr Z.min U64_MAX vs <= U64_MAX.
Proof. induction vs as [|v vs IH]; cbn [foldr]; lia. Qed.
Lemma foldr_max_ge vs : 0 <= foldr Z.max 0 vs.
Proof. induction vs as [|v vs IH]; cbn [foldr]; lia. Qed.
Lemma foldl_distinct vs (s : gset Z) : foldl (λ (s : gset Z) v, {[v]} ∪ s) s vs = list_to_set vs ∪ s.
Proof. revert s. induction vs as [|v vs IH]; intros s; simpl; [set_solver|]. rewrite IH. set_solver. Qed.
Lemma foldl_avg vs s c : in_u 64 c → Z.of_nat (length vs) + c < 2 ^ 64 →
  foldl (λ '(s, c) v, (wrapping_add s v, wrapping_add c 1)) (s, c) vs = (foldl wrapping_add s vs, c + Z.of_nat (length vs)).
Proof.
  revert s c. induction vs as [|v vs IH]; intros s c Hc Hl; simpl; [f_equal; lia|]. simpl in Hl. unfold in_u in Hc.
  assert (wrapping_add c 1 = c + 1) as -> by (unfold wrapping_add; apply wrap_u_small; unfold in_u; lia).
  rewrite IH; [f_equal; lia|unfold in_u; lia|lia].
Qed.

Definition agg_fun (a : agg) : list Z → list bool → option Z :=
  match a with ACount => λ _ _, None | ADistinct => count_distinct_masked | ASum => sum_masked | AAvg => avg_masked | AMin => min_masked | AMax => max_masked end.

Lemma agg_fun_spec a col mask : a ≠ ACount → length col = length mask → Z.of_nat (length col) < 2 ^ 64 →
  agg_fun a col mask = Some (agg_value a (picked col mask)).
Proof.
  intros Ha Hl Hb. assert (length (picked col mask) <= length col)%nat as Hp.
  { unfold picked. rewrite length_fmap. etrans; [apply length_filter|]. rewrite length_zip. lia. }
  destruct a; [done|..]; cbn [agg_fun agg_value]; unfold count_distinct_masked, sum_masked, avg_masked, min_masked, max_masked;
    rewrite masked_fold_spec by done; cbn [mbind option_bind].
  - by rewrite foldl_distinct, union_empty_r_L.
  - by rewrite <- sum_u64_mod.
  - rewrite foldl_avg by (done || lia). rewrite <- sum_u64_mod. case_bool_decide as E; [by rewrite E|].
    destruct (Z.eqb_spec (0 + Z.of_nat (length (picked col mask))) 0) as [H|H]; [|done].
    destruct E. apply length_zero_iff_nil. lia.
  - rewrite foldl_min by done. by rewrite Z.min_r by apply foldr_min_le.
  - rewrite foldl_max by done. by rewrite Z.max_r by apply foldr_max_ge.
Qed.

Lemma cells_of_col_spec t i col rows : table_ok t → columns t !! i = Some col → Forall (λ row, (row < row_count t)%nat) rows →
  Forall2 (λ row v, cell t i row = Ok v) rows (cells_of_col col rows).
Proof.
  intros Ht Hc Hr. pose proof (Forall_lookup_1 _ _ _ _ (ok_cells _ Ht) Hc) as Hl. simpl in Hl. unfold cells_of_col.
  induction Hr as [|row rows H Hr IH]; [constructor|]. rewrite fmap_cons. constructor; [|done]. unfold cell. rewrite Hc. cbn.
  destruct (lookup_lt_is_Some_2 col row) as [x ->]; [lia|done].
Qed.

Lemma under_mask_spec q t p func arg alias i col mask rows a n :
  plain_query q t p → resolve_col_name arg t = Ok i → arg ≠ K "*" → columns t !! i = Some col → Z.of_nat (row_count t) < 2 ^ 64 →
  build_filter_mask uni_upper xxh3_64 float_bits q t = Ok mask → length mask = row_count t →
  rows = filter (λ i, mask !! i = Some true) (seq 0 (row_count t)) → a ≠ ACount →
  under_mask uni_upper xxh3_64 float_bits q t (SAggregate func arg alias) n (agg_fun a) =
    Ok (single_value n (agg_value a (cells_of_col col (nonnull t i rows)))).
Proof.
  intros Hq Hi Harg Hc Hn Hm Hl -> Ha. pose proof (Forall_lookup_1 _ _ _ _ (ok_cells _ (pq_table _ _ _ Hq)) Hc) as Hlc. simpl in Hlc.
  unfold under_mask. run_ok Hm. cbn [resolve_agg_col]. unfold text_eqb. rewrite bool_decide_false by done. run_ok Hi.
  rewrite Hc. cbn [or_panic mbind result_bind].
  rewrite agg_fun_spec; [|done|rewrite length_adjust; lia|lia]. cbn [or_panic mbind result_bind].
  rewrite picked_rows by (rewrite length_adjust; lia). by rewrite length_adjust, adjust_rows, Hl.
Qed.

Lemma count_mask_rows (P : nat → Prop) `{∀ x, Decision (P x)} (g : nat → nat) (mask : list bool) :
  length (filter (λ p : nat * bool, p.2 = true ∧ P p.1) (imap (λ i b, (g i, b)) mask)) =
  length (filter (λ i, P (g i)) (filter (λ i, mask !! i = Some true) (seq 0 (length mask)))).
Proof.
  revert g. induction mask as [|m mask IH]; intros g; [done|]. cbn [imap length seq]. rewrite <- fmap_S_seq.
  rewrite filter_cons, (filter_cons (λ i, (m :: mask) !! i = Some true)), (filter_fmap_list S). cbn [fst snd].
  pose proof (IH (g ∘ S)) as IHg. change (filter (λ x : nat, (m :: mask) !! S x = Some true) ?l) with (filter (λ x, mask !! x = Some true) l).
  destruct m; [rewrite (decide_True (P := (true :: mask) !! 0%nat = Some true)) by done|rewrite (decide_False (P := (false :: mask) !! 0%nat = Some true)) by done].
  - rewrite filter_cons, (filter_fmap_list S). repeat case_decide; try tauto; cbn [length]; rewrite ?length_fmap; [f_equal|]; exact IHg.
  - rewrite decide_False by (by intros []). rewrite (filter_fmap_list S), length_fmap. exact IHg.
Qed.

Lemma dispatched_agg q t p func arg alias shape : plain_query q t p → select q = [SAggregate func arg alias] →
  classify_aggregate uni_upper func arg (bool_decide (is_Some (where_clause q))) = shape → shape ≠ Complex →
  execute q t = Some (execute_shape uni_upper to_lowercase xxh3_64 float_bits hash_order threads pool shape q t).
Proof. intros Hq Hs E. eapply dispatched; [done|]. unfold classify_query. by rewrite (pq_group _ _ _ Hq), Hs. Qed.

Lemma count_col_spec q t arg i col mask rows func alias : build_filter_mask uni_upper xxh3_64 float_bits q t = Ok mask → length mask = row_count t →
  rows = filter (λ i, mask !! i = Some true) (seq 0 (row_count t)) → resolve_col_name arg t = Ok i → arg ≠ K "*" →
  upper uni_upper func = K "COUNT" →
  count_filter uni_upper xxh3_64 float_bits threads pool q t (SAggregate func arg alias) =
    Ok (single_value (K "count") (Z.of_nat (length (cells_of_col col (nonnull t i rows))))).
Proof.
  intros Hm Hl -> Hi Harg Hf. unfold count_filter. run_ok Hm. rewrite Hf. unfold text_eqb. rewrite bool_decide_true, bool_decide_false by done.
  cbn [andb negb]. unfold resolve_or. rewrite Hi. cbn [ok default from_option]. unfold cells_of_col, nonnull. rewrite length_fmap, <- Hl.
  rewrite <- (count_mask_rows (λ row, is_cell_null_dispatch t i row = false) (λ x, x)). done.
Qed.

(** aggregates.  COUNT, COUNT DISTINCT, SUM, AVG, MIN and MAX of a column return one
    value: the aggregate of the cells of that column, NULLs left out, at the rows that
    satisfy WHERE. *)
Theorem aggregates_correct q t p a func arg alias i :
  plain_query q t p → select q = [SAggregate func arg alias] → upper uni_upper func = agg_text a →
  arg ≠ K "*" → resolve_col_name arg t = Ok i → Z.of_nat (row_count t) < 2 ^ 64 →
  ∃ rows vs, answer_rows t p rows ∧ Forall2 (λ row v, cell t i row = Ok v) (nonnull t i rows) vs ∧
    execute q t = Some (Ok (single_value (agg_label a) (agg_value a vs))).
Proof.
  intros Hq Hs Hf Harg Hi Hn. pose proof (pq_table _ _ _ Hq) as Ht. destruct (query_rows q t p Hq) as (mask & rows & Hm & _ & Ha & Hr & Hl).
  destruct (resolve_column _ _ _ Ht Hi) as (col & Hc & _). exists rows, (cells_of_col col (nonnull t i rows)). split; [done|]. split.
  { apply cells_of_col_spec; [done..|]. apply list.Forall_forall. intros row [_ H]%list_elem_of_filter. by apply Ha in H as []. }
  assert (∀ n, a ≠ ACount → under_mask uni_upper xxh3_64 float_bits q t (SAggregate func arg alias) n (agg_fun a) =
    Ok (single_value n (agg_value a (cells_of_col col (nonnull t i rows))))) as Hu by (intros n; by eapply under_mask_spec).
  pose proof (λ s, dispatched_agg q t p func arg alias s Hq Hs) as Hd.
  unfold classify_aggregate in Hd. rewrite Hf in Hd. unfold text_eqb at 2 in Hd. rewrite (bool_decide_false (arg = K "*")) in Hd by done.
  destruct a; rewrite (Hd _ eq_refl) by done; unfold execute_shape; rewrite Hs; f_equal; try by apply Hu.
  - by eapply count_col_spec.
  - unfold min_max. change (default SStar (head [SAggregate func arg alias])) with (SAggregate func arg alias). cbv beta iota zeta. rewrite Hf. by apply Hu.
  - unfold min_max. change (default SStar (head [SAggregate func arg alias])) with (SAggregate func arg alias). cbv beta iota zeta. rewrite Hf. by apply Hu.
Qed.

Lemma count_true_rows (mask : list bool) : length (filter (λ b, b = true) mask) = length (filter (λ i, mask !! i = Some true) (seq 0 (length mask))).
Proof.
  induction mask as [|m mask IH]; [done|]. cbn [length seq]. rewrite <- fmap_S_seq.
  rewrite filter_cons, (filter_cons (λ i, (m :: mask) !! i = Some true)), (filter_fmap_list S).
  change (filter (λ x : nat, (m :: mask) !! S x = Some true) ?l) with (filter (λ x, mask !! x = Some true) l).
  destruct m; [rewrite !decide_True by done|rewrite !decide_False by done]; cbn [length]; by rewrite length_fmap, IH.
Qed.

Lemma all_rows t rows : answer_rows t None rows → rows ≡ₚ seq 0 (row_count t).
Proof.
  intros [Hs H]. apply NoDup_Permutation; [|apply NoDup_seq|].
  - clear H. induction Hs as [|x l Hl IH Hx]; constructor; [|done]. intros Hin. rewrite list.Forall_forall in Hx. specialize (Hx _ Hin). lia.
  - intros row. rewrite H, elem_of_seq. simpl. lia.
Qed.

(** COUNT of rows.  [COUNT( * )] is the number of rows that satisfy WHERE, the rows of
    the table without one, whether the mask is counted by one thread or by the pool. *)
Theorem count_star_correct q t p func alias :
  plain_query q t p → select q = [SAggregate func (K "*") alias] → upper uni_upper func = K "COUNT" →
  (∀ ms, flatten (pool ms) = ms) → Z.of_nat (row_count t) < 2 ^ 64 →
  ∃ rows, answer_rows t p rows ∧ execute q t = Some (Ok (single_value (K "count") (Z.of_nat (length rows)))).
Proof.
  intros Hq Hs Hf Hpool Hn. destruct (query_rows q t p Hq) as (mask & rows & Hm & _ & Ha & Hr & Hl). exists rows. split; [done|].
  pose proof (λ s, dispatched_agg q t p func (K "*") alias s Hq Hs) as Hd.
  unfold classify_aggregate in Hd. rewrite Hf, (pq_where _ _ _ Hq) in Hd. destruct p as [p|]; rewrite (Hd _ eq_refl) by done; unfold execute_shape.
  - f_equal. rewrite Hs. unfold count_filter. run_ok Hm. change (default SStar (head [SAggregate func (K "*") alias])) with (SAggregate func (K "*") alias).
    cbv beta iota zeta. rewrite Hf. cbn -[K Z.ltb parallel_count_masked]. do 2 f_equal. rewrite parallel_count_masked_eq by done. unfold count_masked, count_true.
    rewrite count_true_rows, Hl, <- Hr. rewrite wrap_u_small; [by destruct (Z.ltb _ _)|].
    pose proof (length_filter (λ i, mask !! i = Some true) (seq 0 (row_count t))) as H. rewrite <- Hr, length_seq in H. unfold in_u. lia.
  - do 5 f_equal. rewrite (all_rows _ _ Ha). by rewrite length_seq.
Qed.
End select.

Definition sample_query (items : list SelectItem) (ob : list (text * bool)) (l : option Z) : SelectQuery :=
  mkQuery items (K "t") [] (Some (to_expr (PCmp (K "a") CGe (VInt 4)))) [] None ob l false.
Lemma sample_query_plain items ob l : plain_query (sample_query items ob l) sample (Some (PCmp (K "a") CGe (VInt 4))).
Proof. split; [apply sample_ok|done|by eexists|done|done]. Qed.
Abbreviation run_sample := (execute_dispatched (λ c, [c]) (λ s, s) (λ _, 0) (λ _, 0) (λ l, l) 4 Part).

Lemma select_star_correct_witness :
  let q := sample_query [SStar] [(K "a", false)] None in
  run_sample q sample = Some (Ok (ResultM.mkResult [ResultM.plain (K "a") [5; 9]; ResultM.plain (K "s") [2; 3]] 2)) ∧
  ∃ rows cols, answers (λ _, 0) (λ _, 0) sample (Some (PCmp (K "a") CGe (VInt 4))) rows ∧
    run_sample q sample = Some (Ok (ResultM.mkResult cols (length rows))).
Proof.
  intros q. split; [vm_compute; reflexivity|].
  destruct (select_star_correct (λ c, [c]) (λ s, s) (λ _, 0) (λ _, 0) (λ l, l) 4 Part q sample _ (sample_query_plain _ _ _) eq_refl)
    as (rows & cols & Ha & He & _). by exists rows, cols.
Defined.

Lemma aggregates_correct_witness :
  let q := sample_query [SAggregate (K "MAX") (K "a") None] [] None in
  run_sample q sample = Some (Ok (ResultM.mkResult [ResultM.plain (K "max") [9]] 1)) ∧
  ∃ rows vs, answers (λ _, 0) (λ _, 0) sample (Some (PCmp (K "a") CGe (VInt 4))) rows ∧
    Forall2 (λ row v, cell sample 0 row = Ok v) (nonnull sample 0 rows) vs ∧ foldr Z.max 0 vs = 9.
Proof.
  intros q. assert (run_sample q sample = Some (Ok (ResultM.mkResult [ResultM.plain (K "max") [9]] 1))) as E by (vm_compute; reflexivity).
  split; [exact E|].
  destruct (aggregates_correct (λ c, [c]) (λ s, s) (λ _, 0) (λ _, 0) (λ l, l) 4 Part q sample _ AMax (K "MAX") (K "a") None 0
    (sample_query_plain _ _ _)) as (rows & vs & Ha & Hv & He); [reflexivity|reflexivity|apply (bool_decide_unpack _); reflexivity|reflexivity|done|].
  exists rows, vs. split; [done|]. split; [done|]. rewrite E in He. by injection He.
Defined.

Lemma count_star_correct_witness :
  let q := sample_query [SAggregate (K "count") (K "*") None] [] None in
  ∃ rows, answers (λ _, 0) (λ _, 0) sample (Some (PCmp (K "a") CGe (VInt 4))) rows ∧ length rows = 2%nat ∧
    execute_dispatched (λ c, [c - 32]) (λ s, s) (λ _, 0) (λ _, 0) (λ l, l) 4 Part q sample =
      Some (Ok (single_value (K "count") (Z.of_nat (length rows)))).
Proof.
  intros q. destruct (count_star_correct (λ c, [c - 32]) (λ s, s) (λ _, 0) (λ _, 0) (λ l, l) 4 Part q sample _ (K "count") None
    (sample_query_plain _ _ _)) as (rows & Ha & He); [reflexivity|vm_compute; reflexivity|done|done|].
  exists rows. split; [done|]. split; [|done].
  assert (Some (Ok (single_value (K "count") (Z.of_nat (length rows)))) = Some (Ok (E := Fault) (single_value (K "count") 2))) as E
    by (rewrite <- He; vm_compute; reflexivity). injection E. lia.
Defined.
End SelectM.
