(* ===== verification/GroupBy.v ===== *)
(** * Correctness of GROUP BY (src/src/engine/dispatch.rs)

    Grouping by one column of numbers, and the collisions of the key of several columns. *)

From Stdlib Require Import ZArith Lia Ascii String Sorting.Sorted.
From stdpp Require Import prelude list numbers gmap.
From S2P Require Import Prelude Nulls Catalog Result Sorting Lexer StringColumn Parser Window Vectorized Parallel Dispatch Where Select.
Local Open Scope Z_scope.

Module GroupByM.
Import LexerM ParserM SortingM CatalogM VectorizedM ParallelM DispatchM WhereM SelectM.

(** ** Buckets *)
Lemma bucket_spec kvs (m : gmap Z (list nat)) k :
  default [] (insert_bucket m kvs !! k) = default [] (m !! k) ++ (filter (λ p : Z * nat, p.1 = k) kvs).*2.
Proof.
  revert m. induction kvs as [|[k' row] kvs IH]; intros m; [by rewrite app_nil_r|]. cbn [insert_bucket]. rewrite IH, filter_cons. cbn [fst].
  case_decide as E; [subst; rewrite lookup_insert_eq|rewrite lookup_insert_ne by done; done].
  rewrite fmap_cons. cbn [default from_option id snd]. by rewrite <- app_assoc.
Qed.

Lemma first_seen_spec keys seen : NoDup (first_seen seen keys) ∧ ∀ k, k ∈ first_seen seen keys ↔ k ∈ keys ∧ k ∉ seen.
Proof.
  revert seen. induction keys as [|x keys IH]; intros seen; cbn [first_seen]; [split; [constructor|set_solver]|].
  case_bool_decide as E.
  - destruct (IH seen) as [H1 H2]. split; [done|]. intros k. rewrite H2. set_solver.
  - destruct (IH ({[x]} ∪ seen)) as [H1 H2]. split; [constructor; [rewrite H2; set_solver|done]|].
    intros k. rewrite elem_of_cons, H2. destruct (decide (k = x)); set_solver.
Qed.

Section group.
Context (uni_upper : Z → list Z) (to_lowercase : text → text) (xxh3_64 : list Z → Z) (float_bits : text → Z).
Context (hash_order : list Z → list Z) (threads : nat) (pool : list Morsel → tree Morsel) {TS : Type}.
Abbreviation Table := (CatalogM.Table StringColumnM.StringSearchColumn TS).
Abbreviation answer_rows := (answers xxh3_64 float_bits).
Abbreviation execute := (execute_dispatched uni_upper to_lowercase xxh3_64 float_bits hash_order threads pool).
Implicit Types t : Table.

(** The aggregates of the single-key path that read nothing but cells. *)
Inductive gagg := GCount | GSum | GMin | GMax.
Definition gagg_text (a : gagg) : text := match a with GCount => K "COUNT" | GSum => K "SUM" | GMin => K "MIN" | GMax => K "MAX" end.
Record gitem := mkItem { g_agg : gagg; g_arg : text; g_alias : option text }.
Definition item_of (x : gitem) : SelectItem := SAggregate (gagg_text (g_agg x)) (g_arg x) (g_alias x).
Definition gitem_ok t (x : gitem) : Prop :=
  match g_agg x with GCount => g_arg x = K "*" | _ => ∃ i, resolve_col_name (g_arg x) t = Ok i end.

(** The rows of a group, and the aggregate of a group. *)
Definition key_is t (g : nat) (k : Z) (row : nat) : bool := match cell t g row with Ok v => Z.eqb v k | Err _ => false end.
Definition bucket t (g : nat) (k : Z) (rows : list nat) : list nat := filter (λ row, key_is t g k row = true) rows.
Definition gvalue (a : gagg) (vs : list Z) : Z :=
  match a with
  | GCount => Z.of_nat (length vs)
  | GSum => f64_to_bits (u64_as_f64 (wrap_u 64 (foldr Z.add 0 vs)))
  | GMin => default 0 (min_u64 vs)
  | GMax => default 0 (max_u64 vs)
  end.
Definition group_value t (x : gitem) (rows : list nat) (v : Z) : Prop :=
  match g_agg x with
  | GCount => v = Z.of_nat (length rows)
  | a => ∃ i vs, resolve_col_name (g_arg x) t = Ok i ∧ Forall2 (λ row v, cell t i row = Ok v) rows vs ∧ v = gvalue a vs
  end.

Lemma group_aggregate_spec t x rows : table_ok t → gitem_ok t x → Forall (λ row, (row < row_count t)%nat) rows →
  ∃ v, group_aggregate true t (gagg_text (g_agg x)) (g_arg x) rows = Ok v ∧ group_value t x rows v.
Proof.
  intros Ht Hx Hr. unfold gitem_ok, group_value in *. destruct x as [a arg alias]; simpl in *. destruct a.
  { subst arg. eexists. split; [reflexivity|done]. }
  all: destruct Hx as [i Hi]; assert (i < length (columns t))%nat as Hlt by (rewrite <- (ok_names _ Ht); by eapply resolve_lt);
    destruct (cells_at_spec t i rows Ht Hlt Hr) as (vs & Hc & Hvs);
    eexists; (split; [unfold group_aggregate, resolve_or; rewrite Hi; cbn -[K cells_at u64_as_f64]; rewrite Hc; reflexivity|]);
    exists i, vs; (split; [done|]; split; [done|]); try done.
  cbn [gvalue]. by rewrite <- sum_u64_mod.
Qed.

(** Keys and rows as the code pairs them. *)
Lemma bucket_zip t g k rows keys : Forall2 (λ row v, cell t g row = Ok v) rows keys →
  (filter (λ p : Z * nat, p.1 = k) (zip keys rows)).*2 = bucket t g k rows.
Proof.
  unfold bucket, key_is. induction 1 as [|row v rows keys Hv H IH]; [done|]. cbn [zip zip_with]. rewrite !filter_cons, Hv. cbn [fst].
  destruct (decide (v = k)) as [->|Hne].
  - rewrite decide_True by apply Z.eqb_refl. rewrite fmap_cons. by rewrite <- IH.
  - rewrite decide_False by (by rewrite Z.eqb_eq). by rewrite <- IH.
Qed.

Lemma keys_spec t g rows keys k : Forall2 (λ row v, cell t g row = Ok v) rows keys →
  k ∈ keys ↔ ∃ row, row ∈ rows ∧ cell t g row = Ok k.
Proof.
  induction 1 as [|row v rows keys Hv H IH]; [set_solver|]. rewrite elem_of_cons, IH. split.
  - intros [->|(row' & H1 & H2)]; [exists row; set_solver|exists row'; set_solver].
  - intros (row' & [->|H1]%elem_of_cons & H2); [left; congruence|right; by exists row'].
Qed.

(** The query groups by one column of numbers and asks for its key and for aggregates. *)
Record group_query (q : SelectQuery) t (p : option pred) (n : text) (g : nat) (aggs : list gitem) : Prop := {
  gq_table : table_ok t;
  gq_where : where_is q p;
  gq_pred : opt_ok t p;
  gq_having : having q = None;
  gq_group : group_by q = [n];
  gq_col : resolve_col_name n t = Ok g;
  gq_numbers : string_col t g = None;
  gq_select : select q = SColumn n :: (item_of <$> aggs);
  gq_aggs : Forall (gitem_ok t) aggs;
  gq_first : ∃ x aggs', aggs = x :: aggs' ∧ (g_agg x = GCount ∨ g_agg x = GSum);
  gq_order : order_by q = [];
  gq_limit : limit q = None
}.

(** The column of an aggregate: its value for every group. *)
Definition group_column t (g : nat) (rows : list nat) (keys : list Z) (x : gitem) (c : ResultM.ResultColumn) : Prop :=
  ResultM.name c = default (gagg_text (g_agg x)) (g_alias x) ∧
  Forall2 (λ k v, group_value t x (bucket t g k rows) v) keys (ResultM.values c).

Lemma upper_gagg a : upper uni_upper (gagg_text a) = gagg_text a.
Proof. by destruct a. Qed.

Lemma group_item_spec q t p n g aggs rows keys x f : group_query q t p n g aggs → gitem_ok t x →
  Forall (λ row, (row < row_count t)%nat) rows → (∀ k, f k = bucket t g k rows) →
  ∃ c, group_item uni_upper q t g keys f (item_of x) = Ok [c] ∧ group_column t g rows keys x c.
Proof.
  intros Hq Hx Hr Hf. cbn [group_item item_of]. rewrite upper_gagg.
  assert (∀ k, ∃ v, group_aggregate true t (gagg_text (g_agg x)) (g_arg x) (f k) = Ok v ∧ group_value t x (bucket t g k rows) v) as Hv.
  { intros k. rewrite Hf. apply group_aggregate_spec; [by eapply gq_table|done|]. apply list.Forall_forall. intros row [_ H]%list_elem_of_filter.
    rewrite list.Forall_forall in Hr. auto. }
  destruct (mapM_run_Forall2 (λ k, group_aggregate true t (gagg_text (g_agg x)) (g_arg x) (f k)) keys) as (vs & Hm & Hvs).
  { intros k _. destruct (Hv k) as (v & Hv' & _). by exists v. }
  run_ok Hm. eexists. split; [done|]. split; [done|]. apply (Forall2_impl _ _ _ _ Hvs). intros k v E. destruct (Hv k) as (v' & E' & H). congruence.
Qed.

Lemma group_items_spec q t p n g aggs rows keys f : group_query q t p n g aggs →
  Forall (λ row, (row < row_count t)%nat) rows → (∀ k, f k = bucket t g k rows) →
  ∃ cols, mapM_run (group_item uni_upper q t g keys f) (select q) = Ok ([ResultM.plain n keys] :: map (λ c, [c]) cols) ∧
    Forall2 (group_column t g rows keys) aggs cols.
Proof.
  intros Hq Hr Hf.
  assert (∀ l, Forall (gitem_ok t) l → ∃ cols, mapM_run (group_item uni_upper q t g keys f) (item_of <$> l) = Ok (map (λ c, [c]) cols) ∧
    Forall2 (group_column t g rows keys) l cols) as H.
  { induction 1 as [|x l Hx Hl (cols & Hm & Hc)]; [by exists []|].
    destruct (group_item_spec q t p n g aggs rows keys x f Hq Hx Hr Hf) as (c & Hg & Hgc).
    exists (c :: cols). rewrite fmap_cons. cbn [mapM_run]. run_ok Hg. run_ok Hm. by split; [|constructor]. }
  destruct (H aggs (gq_aggs _ _ _ _ _ _ Hq)) as (cols & Hm & Hc).
  exists cols. split; [|done]. rewrite (gq_select _ _ _ _ _ _ Hq). cbn [mapM_run]. cbn [group_item]. rewrite (gq_group _ _ _ _ _ _ Hq).
  cbn [existsb]. unfold text_eqb. rewrite bool_decide_true by done. cbn [orb mbind result_bind]. by rewrite Hm.
Qed.

Lemma concat_singletons {A} (l : list A) : concat (map (λ c, [c]) l) = l.
Proof. induction l as [|x l IH]; [done|]. simpl. by rewrite IH. Qed.

Lemma group_dispatched q t p n g aggs : group_query q t p n g aggs → execute q t = Some (execute_group_by uni_upper to_lowercase xxh3_64 float_bits hash_order q t).
Proof.
  intros Hq. unfold execute_dispatched, classify_query. rewrite (gq_group _ _ _ _ _ _ Hq), (gq_select _ _ _ _ _ _ Hq), (gq_order _ _ _ _ _ _ Hq).
  destruct (gq_first _ _ _ _ _ _ Hq) as (x & aggs' & -> & Hx). rewrite (bool_decide_false ([n] = [])) by done. rewrite fmap_cons.
  rewrite (gq_where _ _ _ _ _ _ Hq), (gq_having _ _ _ _ _ _ Hq).
  assert (from_option expr_needs_tpch_fallback false (to_expr <$> p) = false) as -> by (destruct p; [apply no_fallback|done]).
  destruct x as [a arg alias]; simpl in Hx; destruct Hx as [-> | ->]; reflexivity.
Qed.

(** C26: GROUP BY of one column of numbers. For [SELECT k, aggregates FROM t WHERE p GROUP BY k],
    the select list being the key column and then one or more aggregates, each a COUNT of star or
    a SUM, MIN or MAX of a column, the first of them a COUNT or a SUM, over a table with a cell
    for each row, without HAVING, ORDER BY and LIMIT, and a WHERE as in [where_mask_correct]: the
    result has one row per distinct key of the rows that satisfy WHERE, no key twice, and every
    aggregate of a group ranges over exactly the rows with that key, in the order of the table.
    Keys and arguments are cells: the key column has no strings, and the NULL flags are not
    consulted, so a NULL is grouped and aggregated by its cell. MIN and MAX are those of unsigned
    numbers; SUM is taken modulo 2^64 and shown as a float. *)
Theorem group_by_correct q t p n g aggs : group_query q t p n g aggs →
  ∃ rows keys cols, answer_rows t p rows ∧ NoDup keys ∧
    (∀ k, k ∈ keys ↔ ∃ row, row ∈ rows ∧ cell t g row = Ok k) ∧
    execute q t = Some (Ok (ResultM.mkResult (ResultM.plain n keys :: cols) (length keys))) ∧
    Forall2 (group_column t g rows keys) aggs cols.
Proof.
  intros Hq. pose proof (gq_table _ _ _ _ _ _ Hq) as Ht.
  destruct (filter_mask_spec uni_upper xxh3_64 float_bits q t p Ht (gq_where _ _ _ _ _ _ Hq) (gq_pred _ _ _ _ _ _ Hq)) as (mask & Hm & Hf).
  destruct (matching_answers _ _ t p mask Hf) as (rows & Hr & Ha & _). pose proof (answers_bounded _ _ t _ _ Ha) as Hb.
  assert (g < length (columns t))%nat as Hg by (rewrite <- (ok_names _ Ht); eapply resolve_lt, gq_col, Hq).
  destruct (cells_at_spec t g rows Ht Hg Hb) as (keys & Hc & Hk). destruct (first_seen_spec keys ∅) as [Hnd Hin].
  destruct (group_items_spec q t p n g aggs rows (first_seen ∅ keys) (λ k, default [] (insert_bucket ∅ (zip keys rows) !! k)) Hq Hb)
    as (cols & Hi & Hcols).
  { intros k. rewrite bucket_spec, lookup_empty. by apply bucket_zip. }
  exists rows, (first_seen ∅ keys), cols. split; [done|]. split; [done|]. split.
  { intros k. rewrite Hin, <- (keys_spec t g rows keys k Hk). set_solver. }
  split; [|done]. rewrite (group_dispatched _ _ _ _ _ _ Hq). f_equal. unfold execute_group_by. run_ok Hm. run_ok Hr.
  rewrite (gq_group _ _ _ _ _ _ Hq). cbn [mapM_run]. run_ok (gq_col _ _ _ _ _ _ Hq). rewrite (gq_numbers _ _ _ _ _ _ Hq), bool_decide_false by (by intros []).
  unfold single_key_group_by. run_ok Hc. run_ok Hi. rewrite (gq_order _ _ _ _ _ _ Hq), (gq_limit _ _ _ _ _ _ Hq). cbn. by rewrite concat_singletons.
Qed.

(** The key of two cells. *)
Definition pair_key (x y : Z) : Z := (x * HASH_MUL + y) mod 2 ^ 64.

(** grouping by two columns.  The key of a row is one 64-bit number computed from the
    two cells: any two rows whose cells agree modulo 2^64 after the multiplication have
    the same key and are put in the same group, also when their cells differ. *)
Theorem multi_key_merges t c1 c2 r1 r2 x1 y1 x2 y2 :
  cell t c1 r1 = Ok x1 → cell t c2 r1 = Ok y1 → cell t c1 r2 = Ok x2 → cell t c2 r2 = Ok y2 →
  (multi_key t [c1; c2] r1 = multi_key t [c1; c2] r2 ↔
   pair_key x1 y1 = pair_key x2 y2).
Proof.
  intros H1 H2 H3 H4. unfold multi_key. cbn [foldl mbind result_bind]. run_ok H1. run_ok H2. run_ok H3. run_ok H4.
  assert (∀ x y, wrapping_add (wrapping_mul (wrapping_add (wrapping_mul 0 HASH_MUL) x) HASH_MUL) y = pair_key x y) as E.
  { intros x y. unfold pair_key, wrapping_add, wrapping_mul, wrap_u. cbn [Z.mul]. rewrite Zmod_0_l, Z.add_0_l.
    by rewrite Zmult_mod_idemp_l, Zplus_mod_idemp_l. }
  rewrite !E. split; [by intros [= ->]|by intros ->].
Qed.
End group.

Definition pairs : CatalogM.Table StringColumnM.StringSearchColumn unit :=
  mkTable (K "t") [[1; 0; 1]; [0; HASH_MUL; 0]] [K "a"; K "b"] 3 [] [] None.
Lemma pairs_ok : table_ok pairs.
Proof. split; [done|by repeat constructor|]. intros i sc. by destruct i. Qed.

Lemma group_by_correct_witness :
  let q := mkQuery [SColumn (K "a"); SAggregate (K "COUNT") (K "*") None; SAggregate (K "MAX") (K "b") (Some (K "m"))] (K "t") []
             None [K "a"] None [] None false in
  let r := ResultM.mkResult [ResultM.plain (K "a") [1; 0]; ResultM.plain (K "COUNT") [2; 1]; ResultM.plain (K "m") [0; HASH_MUL]] 2 in
  execute_dispatched (λ c, [c]) (λ s, s) (λ _, 0) (λ _, 0) (λ l, l) 4 Part q pairs = Some (Ok r) ∧
  ∃ rows keys cols, answers (λ _, 0) (λ _, 0) pairs None rows ∧ NoDup keys ∧
    (∀ k, k ∈ keys ↔ ∃ row, row ∈ rows ∧ cell pairs 0 row = Ok k) ∧ r = ResultM.mkResult (ResultM.plain (K "a") keys :: cols) (length keys) ∧
    Forall2 (group_column pairs 0 rows keys) [mkItem GCount (K "*") None; mkItem GMax (K "b") (Some (K "m"))] cols.
Proof.
  intros q r. assert (execute_dispatched (λ c, [c]) (λ s, s) (λ _, 0) (λ _, 0) (λ l, l) 4 Part q pairs = Some (Ok r)) as E by (vm_compute; reflexivity).
  split; [exact E|].
  destruct (group_by_correct (λ c, [c]) (λ s, s) (λ _, 0) (λ _, 0) (λ l, l) 4 Part q pairs None (K "a") 0
    [mkItem GCount (K "*") None; mkItem GMax (K "b") (Some (K "m"))]) as (rows & keys & cols & Ha & Hn & Hk & He & Hc).
  { split; [apply pairs_ok|done..| | |done|done].
    - constructor; [done|]. constructor; [by exists 1%nat|constructor].
    - eexists _, _. split; [done|by left]. }
  exists rows, keys, cols. do 3 (split; [done|]). split; [|done]. rewrite E in He. congruence.
Defined.

Lemma multi_key_merges_witness :
  let q := mkQuery [SColumn (K "a"); SColumn (K "b"); SAggregate (K "COUNT") (K "*") None] (K "t") [] None [K "a"; K "b"] None [] None false in
  multi_key pairs [0%nat; 1%nat] 0 = multi_key pairs [0%nat; 1%nat] 1 ∧
  execute_dispatched (λ c, [c]) (λ s, s) (λ _, 0) (λ _, 0) (λ l, l) 4 Part q pairs =
    Some (Ok (ResultM.mkResult [ResultM.plain (K "a") [1]; ResultM.plain (K "b") [0]; ResultM.plain (K "COUNT") [3]] 1)).
Proof.
  split; [|vm_compute; reflexivity].
  apply (multi_key_merges pairs 0 1 0 1 1 0 0 HASH_MUL eq_refl eq_refl eq_refl eq_refl). vm_compute; reflexivity.
Defined.
End GroupByM.
