(* ===== verification/HashJoin.v ===== *)
(** * Joins (src/src/exec/join.rs and cross_join_into of src/src/engine/executor.rs)

    The hash join with its outer variants, semi and anti joins, the equi-keys of an ON
    condition, and the cartesian product.  Rows are pushed column by column, as the code
    does. *)

From Stdlib Require Import ZArith Lia Ascii String.
From stdpp Require Import prelude list numbers gmap.
From S2P Require Import Prelude Nulls Catalog Result Lexer StringColumn Parser Vectorized Parallel Dispatch.
Local Open Scope Z_scope.

Module HashJoinM.
Import LexerM ParserM CatalogM VectorizedM DispatchM.

Inductive JoinType := Inner | LeftJoin | RightJoin | FullJoin | Semi | Anti.
Record JoinKey := mkKey { left_col : nat; right_col : nat }.
Record JoinResult := mkJR { jr_columns : list (list Z); jr_column_names : list text; jr_row_count : nat }.

Section join.
Context {TS : Type}.
Abbreviation Table := (Table StringColumnM.StringSearchColumn TS).

Definition into_table (r : JoinResult) (n : text) : Table :=
  mkTable n (jr_columns r) (jr_column_names r) (jr_row_count r) [] [] None.

Definition row_cells (t : Table) (cols : list nat) (row : nat) : run (list Z) := mapM_run (λ c, cell t c row) cols.
Definition left_key (l : Table) (keys : list JoinKey) := row_cells l (left_col <$> keys).
Definition right_key (r : Table) (keys : list JoinKey) := row_cells r (right_col <$> keys).

(** The build side: for every key its rows, in order. *)
Definition add_row (m : gmap (list Z) (list nat)) (k : list Z) (row : nat) : gmap (list Z) (list nat) :=
  <[k := default [] (m !! k) ++ [row]]> m.
Fixpoint build_rows (r : Table) (keys : list JoinKey) (rows : list nat) (m : gmap (list Z) (list nat)) : run (gmap (list Z) (list nat)) :=
  match rows with
  | [] => Ok m
  | row :: rows => k ← right_key r keys row; build_rows r keys rows (add_row m k row)
  end.

(** [for (c, col) in t.columns.iter().enumerate() { out_cols[off + c].push(col[row]) }]. *)
Definition push_cells (vs : list Z) (cols : list (list Z)) : list (list Z) := zip_with (λ col v, col ++ [v]) cols vs.
Definition cells_of (t : Table) (row : nat) : run (list Z) := mapM_run (λ col : list Z, or_panic (col !! row)) (columns t).

Record out := mkOut { out_cols : list (list Z); matched_right : list bool; out_rows : nat }.
Definition emit (vs : list Z) (o : out) : out := mkOut (push_cells vs (out_cols o)) (matched_right o) (out_rows o + 1).
Definition mark (r : nat) (o : out) : out := mkOut (out_cols o) (<[r := true]> (matched_right o)) (out_rows o).

Fixpoint emit_matches (lv : list Z) (r : Table) (rows : list nat) (o : out) : run out :=
  match rows with
  | [] => Ok o
  | row :: rows => rv ← cells_of r row; emit_matches lv r rows (emit (lv ++ rv) (mark row o))
  end.

Definition keeps_left (jt : JoinType) : bool := match jt with LeftJoin | FullJoin => true | _ => false end.
Definition keeps_right (jt : JoinType) : bool := match jt with RightJoin | FullJoin => true | _ => false end.

Fixpoint probe (l r : Table) (keys : list JoinKey) (jt : JoinType) (m : gmap (list Z) (list nat)) (rows : list nat) (o : out) : run out :=
  match rows with
  | [] => Ok o
  | row :: rows =>
    k ← left_key l keys row;
    let matches := default [] (m !! k) in
    o ← (if bool_decide (matches = []) then
           if keeps_left jt then lv ← cells_of l row; Ok (emit (lv ++ replicate (length (columns r)) 0) o) else Ok o
         else lv ← cells_of l row; emit_matches lv r matches o);
    probe l r keys jt m rows o
  end.

Fixpoint emit_unmatched (l r : Table) (rows : list nat) (o : out) : run out :=
  match rows with
  | [] => Ok o
  | row :: rows =>
    o ← (if default false (matched_right o !! row) then Ok o
         else rv ← cells_of r row; Ok (emit (replicate (length (columns l)) 0 ++ rv) o));
    emit_unmatched l r rows o
  end.

Definition hash_join (l r : Table) (keys : list JoinKey) (jt : JoinType) : run JoinResult :=
  if bool_decide (keys = []) then Err (Fail EInvalidArg)
  else
    m ← build_rows r keys (seq 0 (row_count r)) ∅;
    o ← probe l r keys jt m (seq 0 (row_count l))
          (mkOut (replicate (length (columns l) + length (columns r)) []) (replicate (row_count r) false) 0);
    o ← (if keeps_right jt then emit_unmatched l r (seq 0 (row_count r)) o else Ok o);
    Ok (mkJR (out_cols o) (column_names l ++ column_names r) (out_rows o)).

(** *** Semi and anti joins *)
Fixpoint key_set (r : Table) (keys : list JoinKey) (rows : list nat) (s : gset (list Z)) : run (gset (list Z)) :=
  match rows with
  | [] => Ok s
  | row :: rows => k ← right_key r keys row; key_set r keys rows ({[k]} ∪ s)
  end.

Fixpoint keep_rows (l : Table) (keys : list JoinKey) (want : bool) (s : gset (list Z)) (rows : list nat) (cols : list (list Z)) (n : nat)
  : run (list (list Z) * nat) :=
  match rows with
  | [] => Ok (cols, n)
  | row :: rows =>
    k ← left_key l keys row;
    if Bool.eqb (bool_decide (k ∈ s)) want then
      lv ← cells_of l row; keep_rows l keys want s rows (push_cells lv cols) (n + 1)
    else keep_rows l keys want s rows cols n
  end.

Definition half_join (want : bool) (l r : Table) (keys : list JoinKey) : run JoinResult :=
  s ← key_set r keys (seq 0 (row_count r)) ∅;
  '(cols, n) ← keep_rows l keys want s (seq 0 (row_count l)) (replicate (length (columns l)) []) 0;
  Ok (mkJR cols (column_names l) n).
Definition semi_join := half_join true.
Definition anti_join := half_join false.

(** ** Keys of an ON condition *)
Definition names_join_column (name col_name : text) : bool :=
  ends_with col_name (46 :: name) || bool_decide (after_dot col_name = Some name).

Definition resolve_col (e : Expr) (t : Table) : option nat :=
  match e with
  | Column name =>
    match column_idx name t with
    | Some idx => Some idx
    | None =>
      match (bare ← after_dot name; column_idx bare t) with
      | Some idx => Some idx
      | None => VectorizedM.position (names_join_column name) (column_names t)
      end
    end
  | _ => None
  end.

Fixpoint collect_keys (on : Expr) (l r : Table) (keys : list JoinKey) : run (list JoinKey) :=
  match on with
  | Binary le op re =>
    if eq_ignore_ascii_case op (K "AND") then
      keys ← collect_keys le l r keys; collect_keys re l r keys
    else if text_eqb op (K "=") then
      match resolve_col le l, resolve_col re r with
      | Some lk, Some rk => Ok (keys ++ [mkKey lk rk])
      | _, _ =>
        match resolve_col le r, resolve_col re l with
        | Some rk, Some lk => Ok (keys ++ [mkKey lk rk])
        | _, _ => Err (Fail EOther)
        end
      end
    else Err (Fail EOther)
  | _ => Err (Fail EOther)
  end.

Definition extract_join_keys (on : Expr) (l r : Table) : run (list JoinKey) :=
  keys ← collect_keys on l r []; if bool_decide (keys = []) then Err (Fail EOther) else Ok keys.

(** ** Cartesian product *)
Definition qualify (tn n : text) : text := tn ++ 46 :: n.
Definition qualify_bare (tn n : text) : text := if bool_decide (46 ∈ n) then n else qualify tn n.

Definition cross_join_into (running right_ : Table) (left_name right_name : text) : run Table :=
  let total := Z.of_nat (row_count running) * Z.of_nat (row_count right_) in
  if Z.leb (2 ^ 64) total then Err (Fail EOther)
  else
    lcols ← mapM_run (λ col : list Z, vs ← mapM_run (λ i, or_panic (col !! i)) (seq 0 (row_count running));
              Ok (concat (map (λ v, replicate (row_count right_) v) vs))) (columns running);
    rcols ← mapM_run (λ col : list Z,
              vs ← (if bool_decide (row_count running = 0%nat) then Ok [] else mapM_run (λ i, or_panic (col !! i)) (seq 0 (row_count right_)));
              Ok (concat (replicate (row_count running) vs))) (columns right_);
    Ok (mkTable (K "__cross_" ++ right_name) (lcols ++ rcols)
          (map (qualify_bare left_name) (column_names running) ++ map (qualify right_name) (column_names right_))
          (Z.to_nat total) [] [] None).
End join.
End HashJoinM.
