(* ===== verification/Joins.v ===== *)
(** * Correctness of joins (src/src/exec/join.rs)

    The rows of every kind of join written down as lists of rows, and the hash joins,
    which build their result column by column, against them. *)

From Stdlib Require Import ZArith Lia Ascii String.
From stdpp Require Import prelude list numbers gmap.
From S2P Require Import Prelude Nulls Catalog Result Sorting Lexer StringColumn Parser Vectorized Parallel Dispatch Where HashJoin Select.
Local Open Scope Z_scope.

Module JoinsM.
Import LexerM ParserM CatalogM VectorizedM DispatchM WhereM HashJoinM.

(** ** Columns and rows *)

(** The columns of a list of rows of width [w]. *)
Definition columns_of (w : nat) (rows : list (list Z)) : list (list Z) := (λ c, (λ row : list Z, default 0 (row !! c)) <$> rows) <$> seq 0 w.

Lemma columns_of_nil w : columns_of w [] = replicate w [].
Proof.
  unfold columns_of. apply list_eq. intros i. rewrite list_lookup_fmap. destruct (decide (i < w)%nat).
  - by rewrite lookup_seq_lt, lookup_replicate_2.
  - rewrite lookup_seq_ge by lia. rewrite lookup_ge_None_2; [done|]. rewrite length_replicate. lia.
Qed.

Lemma push_cells_rows w vs rows : length vs = w → push_cells vs (columns_of w rows) = columns_of w (rows ++ [vs]).
Proof.
  intros Hl. unfold push_cells, columns_of. apply list_eq. intros i. rewrite lookup_zip_with, !list_lookup_fmap.
  destruct (decide (i < w)%nat) as [H|H].
  - rewrite lookup_seq_lt by done. simpl. destruct (lookup_lt_is_Some_2 vs i) as [v Hv]; [lia|]. rewrite Hv. simpl. f_equal.
    rewrite fmap_app. simpl. by rewrite Hv.
  - rewrite lookup_seq_ge by lia. done.
Qed.

Lemma columns_of_full w rows : Forall (λ c, length c = length rows) (columns_of w rows).
Proof. unfold columns_of. apply Forall_fmap, list.Forall_forall. intros c _. apply length_fmap. Qed.
Lemma length_columns_of w rows : length (columns_of w rows) = w.
Proof. unfold columns_of. by rewrite length_fmap, length_seq. Qed.

Section joins.
Context {TS : Type}.
Abbreviation Table := (CatalogM.Table StringColumnM.StringSearchColumn TS).
Implicit Types t l r : Table.

(** Every column has a cell for every row. *)
Definition full t : Prop := Forall (λ c, length c = row_count t) (columns t).
Definition row_at t (i : nat) : list Z := (λ col : list Z, default 0 (col !! i)) <$> columns t.
Definition key_at t (cols : list nat) (i : nat) : list Z := (λ c, default 0 (col ← columns t !! c; col !! i)) <$> cols.
Definition keys_in t (cols : list nat) : Prop := Forall (λ c, (c < length (columns t))%nat) cols.

Lemma cells_of_spec t i : full t → (i < row_count t)%nat → cells_of t i = Ok (row_at t i).
Proof.
  intros Ht Hi. apply mapM_run_ok. intros col Hc. unfold full in Ht. rewrite list.Forall_forall in Ht. specialize (Ht _ Hc). simpl in Ht.
  destruct (lookup_lt_is_Some_2 col i) as [x ->]; [lia|done].
Qed.
Lemma row_cells_spec t cols i : full t → keys_in t cols → (i < row_count t)%nat → row_cells t cols i = Ok (key_at t cols i).
Proof.
  intros Ht Hk Hi. apply mapM_run_ok. intros c Hc. unfold keys_in in Hk. rewrite list.Forall_forall in Hk.
  destruct (lookup_lt_is_Some_2 (columns t) c) as [col Hcol]; [auto|]. pose proof (Forall_lookup_1 _ _ _ _ Ht Hcol) as Hl. simpl in Hl.
  unfold cell. rewrite Hcol. cbn. destruct (lookup_lt_is_Some_2 col i) as [x ->]; [lia|done].
Qed.
Lemma length_row_at t i : length (row_at t i) = length (columns t).
Proof. apply length_fmap. Qed.

(** ** The reference join *)
Section join.
Context l r (keys : list JoinKey).
Definition lkey (i : nat) : list Z := key_at l (left_col <$> keys) i.
Definition rkey (j : nat) : list Z := key_at r (right_col <$> keys) j.

(** The rows of the right table that match row [i], and the rows no left row matches. *)
Definition partners (i : nat) : list nat := filter (λ j, rkey j = lkey i) (seq 0 (row_count r)).
Definition unmatched_right (rows : list nat) : list nat := filter (λ j, rkey j ∉ lkey <$> rows) (seq 0 (row_count r)).
Definition zeros t : list Z := replicate (length (columns t)) 0.

Definition keeps_unmatched_left (jt : JoinType) : bool := match jt with LeftJoin | FullJoin => true | _ => false end.
Definition keeps_unmatched_right (jt : JoinType) : bool := match jt with RightJoin | FullJoin => true | _ => false end.

Definition left_rows (jt : JoinType) (i : nat) : list (list Z) :=
  match partners i with
  | [] => if keeps_unmatched_left jt then [row_at l i ++ zeros r] else []
  | js => (λ j, row_at l i ++ row_at r j) <$> js
  end.
Definition join_rows (jt : JoinType) : list (list Z) :=
  concat (left_rows jt <$> seq 0 (row_count l)) ++
  (if keeps_unmatched_right jt then (λ j, zeros l ++ row_at r j) <$> unmatched_right (seq 0 (row_count l)) else []).

Definition width : nat := (length (columns l) + length (columns r))%nat.

(** ** The hash join *)
Context (Hl : full l) (Hr : full r) (Hlk : keys_in l (left_col <$> keys)) (Hrk : keys_in r (right_col <$> keys)).

Lemma right_rows_spec rows m : Forall (λ j, (j < row_count r)%nat) rows →
  ∃ m', build_rows r keys rows m = Ok m' ∧ ∀ k, default [] (m' !! k) = default [] (m !! k) ++ filter (λ j, rkey j = k) rows.
Proof.
  intros H. revert m. induction H as [|j rows Hj H IH]; intros m; [exists m; split; [done|]; intros k; by rewrite app_nil_r|].
  cbn [build_rows]. unfold right_key. rewrite (row_cells_spec r _ _ Hr Hrk Hj). cbn [mbind result_bind].
  destruct (IH (add_row m (rkey j) j)) as (m' & Hm & Hk). exists m'. split; [done|]. intros k. rewrite Hk, filter_cons. unfold add_row.
  case_decide as E; [subst k; rewrite lookup_insert_eq; cbn; by rewrite <- app_assoc|by rewrite lookup_insert_ne].
Qed.

(** The state of the loop holds these rows, and has marked these rows of the right table. *)
Definition holds_rows (o : out) (rows : list (list Z)) (marked : nat → Prop) : Prop :=
  out_cols o = columns_of width rows ∧ out_rows o = length rows ∧
  length (matched_right o) = row_count r ∧ ∀ j, (j < row_count r)%nat → matched_right o !! j = Some true ↔ marked j.

Lemma emit_holds o rows marked vs : length vs = width → holds_rows o rows marked → holds_rows (emit vs o) (rows ++ [vs]) marked.
Proof.
  intros Hvs (H1 & H2 & H3 & H4). split_and!; simpl; [by rewrite H1, push_cells_rows|rewrite length_app; simpl; lia|done|done].
Qed.
Lemma mark_holds o rows marked j : (j < row_count r)%nat → holds_rows o rows marked → holds_rows (mark j o) rows (λ x, marked x ∨ x = j).
Proof.
  intros Hj (H1 & H2 & H3 & H4). split_and!; simpl; [done|done|by rewrite length_insert|]. intros x Hx. destruct (decide (x = j)) as [->|Hne].
  - rewrite list_lookup_insert_eq by lia. tauto.
  - rewrite list_lookup_insert_ne by done. rewrite (H4 x Hx). tauto.
Qed.
Lemma holds_iff o rows m1 m2 : (∀ x, (x < row_count r)%nat → m1 x ↔ m2 x) → holds_rows o rows m1 → holds_rows o rows m2.
Proof. intros H (H1 & H2 & H3 & H4). split_and!; [done..|]. intros x Hx. by rewrite (H4 x Hx), (H x Hx). Qed.

Lemma emit_matches_spec lv js o rows marked : length lv = length (columns l) → Forall (λ j, (j < row_count r)%nat) js → holds_rows o rows marked →
  ∃ o', emit_matches lv r js o = Ok o' ∧ holds_rows o' (rows ++ ((λ j, lv ++ row_at r j) <$> js)) (λ x, marked x ∨ x ∈ js).
Proof.
  intros Hlv H. revert o rows marked. induction H as [|j js Hj H IH]; intros o rows marked Ho.
  - exists o. split; [done|]. rewrite app_nil_r. apply (holds_iff o rows marked); [set_solver|done].
  - cbn [emit_matches]. rewrite (cells_of_spec r j Hr Hj). cbn [mbind result_bind].
    destruct (IH (emit (lv ++ row_at r j) (mark j o)) (rows ++ [lv ++ row_at r j]) (λ x, marked x ∨ x = j)) as (o' & Ho' & Hh).
    + apply emit_holds; [rewrite length_app, length_row_at; unfold width; lia|]. by apply mark_holds.
    + exists o'. split; [done|]. rewrite fmap_cons. rewrite <- app_assoc in Hh. refine (holds_iff _ _ _ _ _ Hh). set_solver.
Qed.

Lemma probe_spec jt m rows o acc marked : (∀ k, default [] (m !! k) = filter (λ j, rkey j = k) (seq 0 (row_count r))) →
  Forall (λ i, (i < row_count l)%nat) rows → holds_rows o acc marked →
  ∃ o', probe l r keys jt m rows o = Ok o' ∧
    holds_rows o' (acc ++ concat (left_rows jt <$> rows)) (λ x, marked x ∨ rkey x ∈ lkey <$> rows).
Proof.
  intros Hm H. revert o acc marked. induction H as [|i rows Hi H IH]; intros o acc marked Ho.
  { exists o. split; [done|]. rewrite app_nil_r. refine (holds_iff _ _ _ _ _ Ho). set_solver. }
  cbn [probe]. unfold left_key. rewrite (row_cells_spec l _ _ Hl Hlk Hi). cbn [mbind result_bind]. fold (lkey i). rewrite Hm. fold (partners i).
  assert (∃ o1, (if bool_decide (partners i = []) then
      if keeps_left jt then lv ← cells_of l i; Ok (emit (lv ++ replicate (length (columns r)) 0) o) else Ok o
      else lv ← cells_of l i; emit_matches lv r (partners i) o) = Ok o1 ∧
      holds_rows o1 (acc ++ left_rows jt i) (λ x, marked x ∨ x ∈ partners i)) as (o1 & -> & H1).
  { rewrite (cells_of_spec l i Hl Hi). unfold left_rows. destruct (partners i) as [|j js] eqn:E.
    - rewrite bool_decide_true by done. change (keeps_left jt) with (keeps_unmatched_left jt). destruct (keeps_unmatched_left jt).
      + eexists. split; [done|]. apply emit_holds; [rewrite length_app, length_row_at; unfold zeros; by rewrite length_replicate|].
        refine (holds_iff _ _ _ _ _ Ho). set_solver.
      + exists o. split; [done|]. rewrite app_nil_r. refine (holds_iff _ _ _ _ _ Ho). set_solver.
    - rewrite bool_decide_false by done. apply emit_matches_spec; [apply length_row_at| |done]. rewrite <- E.
      apply list.Forall_forall. intros x [_ Hx]%list_elem_of_filter. apply elem_of_seq in Hx. lia. }
  cbn [mbind result_bind]. destruct (IH o1 _ _ H1) as (o' & -> & Ho'). exists o'. split; [done|]. rewrite fmap_cons. cbn [concat].
  rewrite app_assoc. refine (holds_iff _ _ _ _ _ Ho'). intros x Hx. rewrite fmap_cons, elem_of_cons. unfold partners.
  rewrite list_elem_of_filter, elem_of_seq. intuition lia.
Qed.

Lemma emit_unmatched_spec js o acc (marked : nat → Prop) `{∀ x, Decision (marked x)} :
  Forall (λ j, (j < row_count r)%nat) js → holds_rows o acc marked →
  ∃ o', emit_unmatched l r js o = Ok o' ∧ holds_rows o' (acc ++ ((λ j, zeros l ++ row_at r j) <$> filter (λ j, ¬ marked j) js)) marked.
Proof.
  intros Hjs. revert o acc. induction Hjs as [|j js Hj Hjs IH]; intros o acc Ho; [exists o; by rewrite app_nil_r|].
  cbn [emit_unmatched]. rewrite filter_cons. destruct Ho as (H1 & H2 & H3 & H4). destruct (lookup_lt_is_Some_2 (matched_right o) j) as [b Hb]; [lia|].
  specialize (H4 j Hj) as Hmj. rewrite Hb in *. simpl. destruct b.
  - rewrite decide_False by (intros Hn; apply Hn, Hmj; done). apply IH. by split_and!.
  - rewrite decide_True by (intros Hn%Hmj; done). rewrite (cells_of_spec r j Hr Hj). cbn [mbind result_bind].
    destruct (IH (emit (zeros l ++ row_at r j) o) (acc ++ [zeros l ++ row_at r j])) as (o' & Ho' & Hh).
    + apply emit_holds; [unfold zeros; rewrite length_app, length_replicate, length_row_at; done|by split_and!].
    + exists o'. split; [done|]. rewrite fmap_cons. by rewrite <- app_assoc in Hh.
Qed.

Lemma hash_join_spec jt : keys ≠ [] →
  hash_join l r keys jt =
    Ok (mkJR (columns_of width (join_rows jt)) (column_names l ++ column_names r) (length (join_rows jt))).
Proof.
  intros Hne. unfold hash_join. rewrite bool_decide_false by done.
  assert (∀ n, Forall (λ j, (j < n)%nat) (seq 0 n)) as Hseq by (intros n; apply list.Forall_forall; intros x Hx%elem_of_seq; lia).
  destruct (right_rows_spec (seq 0 (row_count r)) ∅ (Hseq _)) as (m & -> & Hm). cbn [mbind result_bind].
  destruct (probe_spec jt m (seq 0 (row_count l)) (mkOut (replicate width []) (replicate (row_count r) false) 0) [] (λ _, False)) as (o & Ho & Hh).
  { intros k. by rewrite Hm, lookup_empty. } { apply Hseq. }
  { split_and!; simpl; [by rewrite columns_of_nil|done|by rewrite length_replicate|]. intros j Hj. by rewrite lookup_replicate_2. }
  unfold width in Ho. rewrite Ho. cbn [mbind result_bind]. unfold join_rows. change (keeps_right jt) with (keeps_unmatched_right jt).
  destruct (keeps_unmatched_right jt).
  - destruct (emit_unmatched_spec (seq 0 (row_count r)) o _ (λ x, False ∨ rkey x ∈ lkey <$> seq 0 (row_count l)) (Hseq _) Hh) as (o' & -> & H1 & H2 & _).
    cbn [mbind result_bind]. rewrite H1, H2. unfold unmatched_right.
    assert (filter (λ j, ¬ (False ∨ rkey j ∈ lkey <$> seq 0 (row_count l))) (seq 0 (row_count r)) =
      filter (λ j, rkey j ∉ lkey <$> seq 0 (row_count l)) (seq 0 (row_count r))) as -> by (apply list_filter_iff; intros x; tauto). done.
  - destruct Hh as (H1 & H2 & _). cbn [mbind result_bind]. rewrite H1, H2, app_nil_r. done.
Qed.

(** C20: hash joins.  For tables whose columns are complete, [hash_join] returns exactly
    the rows of the join, in the order of the left table and, for one left row, of the
    right table: every pair with equal keys; for LEFT and FULL the left rows without a
    partner, padded with zeros; for RIGHT and FULL then the right rows without one.  The
    kinds Semi and Anti are joined as Inner. *)
Theorem hash_join_correct jt : keys ≠ [] →
  hash_join l r keys jt =
    Ok (mkJR (columns_of width (join_rows jt)) (column_names l ++ column_names r) (length (join_rows jt))).
Proof. apply hash_join_spec. Qed.

(** ** Semi and anti joins *)
Definition has_partner (i : nat) : bool := bool_decide (lkey i ∈ rkey <$> seq 0 (row_count r)).
Definition kept_rows (want : bool) : list nat := filter (λ i, has_partner i = want) (seq 0 (row_count l)).

Lemma key_set_spec rows s : Forall (λ j, (j < row_count r)%nat) rows → key_set r keys rows s = Ok (list_to_set (rkey <$> rows) ∪ s).
Proof.
  intros H. revert s. induction H as [|j rows Hj H IH]; intros s; [f_equal; set_solver|]. cbn [key_set]. unfold right_key.
  rewrite (row_cells_spec r _ _ Hr Hrk Hj). cbn [mbind result_bind]. rewrite IH. f_equal. rewrite fmap_cons. fold (rkey j). set_solver.
Qed.

Lemma keep_rows_spec want s rows acc : (∀ k, k ∈ s ↔ k ∈ rkey <$> seq 0 (row_count r)) → Forall (λ i, (i < row_count l)%nat) rows →
  let res := acc ++ (row_at l <$> filter (λ i, has_partner i = want) rows) in
  keep_rows l keys want s rows (columns_of (length (columns l)) acc) (length acc) = Ok (columns_of (length (columns l)) res, length res).
Proof.
  intros Hs H. revert acc. induction H as [|i rows Hi H IH]; intros acc; [by rewrite app_nil_r|]. cbn [keep_rows]. unfold left_key.
  rewrite (row_cells_spec l _ _ Hl Hlk Hi). cbn [mbind result_bind]. fold (lkey i).
  assert (bool_decide (lkey i ∈ s) = has_partner i) as -> by (apply bool_decide_ext, Hs). cbv zeta in *. rewrite filter_cons.
  destruct (has_partner i) eqn:E, want; cbn [Bool.eqb]; try (rewrite decide_False by done; apply IH).
  all: rewrite decide_True by done; rewrite (cells_of_spec l i Hl Hi); cbn [mbind result_bind];
    rewrite push_cells_rows by apply length_row_at; replace (length acc + 1)%nat with (length (acc ++ [row_at l i])) by (rewrite length_app; done);
    rewrite IH, fmap_cons; by rewrite <- app_assoc.
Qed.

Lemma half_join_spec want : half_join want l r keys =
  Ok (mkJR (columns_of (length (columns l)) (row_at l <$> kept_rows want)) (column_names l) (length (kept_rows want))).
Proof.
  assert (∀ n, Forall (λ j, (j < n)%nat) (seq 0 n)) as Hseq by (intros n; apply list.Forall_forall; intros x Hx%elem_of_seq; lia).
  unfold half_join. rewrite key_set_spec by apply Hseq. cbn [mbind result_bind]. rewrite <- columns_of_nil.
  rewrite (keep_rows_spec want _ (seq 0 (row_count l)) []); [|set_solver|apply Hseq]. cbn [mbind result_bind app]. by rewrite length_fmap.
Qed.

(** semi and anti joins.  [semi_join] returns the rows of the left table, each once
    and in order, whose key occurs in the right table, [anti_join] the others; together
    they are the left table. *)
Theorem semi_anti_correct :
  semi_join l r keys = Ok (mkJR (columns_of (length (columns l)) (row_at l <$> kept_rows true)) (column_names l) (length (kept_rows true))) ∧
  anti_join l r keys = Ok (mkJR (columns_of (length (columns l)) (row_at l <$> kept_rows false)) (column_names l) (length (kept_rows false))) ∧
  (∀ i, i ∈ kept_rows true ↔ (i < row_count l)%nat ∧ ∃ j, (j < row_count r)%nat ∧ rkey j = lkey i) ∧
  kept_rows true ++ kept_rows false ≡ₚ seq 0 (row_count l).
Proof.
  split; [apply half_join_spec|]. split; [apply half_join_spec|]. split.
  - intros i. unfold kept_rows, has_partner. rewrite list_elem_of_filter, elem_of_seq, bool_decide_eq_true, list_elem_of_fmap. split.
    + intros [(j & Hj & Hin%elem_of_seq) Hi]. split; [lia|]. exists j. split; [lia|done].
    + intros [Hi (j & Hj & E)]. split; [|lia]. exists j. split; [done|]. apply elem_of_seq. lia.
  - unfold kept_rows. induction (seq 0 (row_count l)) as [|i rows IH]; [done|]. rewrite !filter_cons.
    destruct (has_partner i); [rewrite decide_True, decide_False by done|rewrite decide_False, decide_True by done].
    + by rewrite <- app_comm_cons, IH.
    + by rewrite <- Permutation_middle, IH.
Qed.
End join.

(** ** Keys of ON conditions *)
Lemma resolve_col_lt e t i : resolve_col e t = Some i → (i < length (column_names t))%nat.
Proof.
  destruct e as [n| | | | | |]; try done. cbn [resolve_col]. destruct (column_idx n t) as [k|] eqn:E; [intros [= <-]; by eapply column_idx_lt|].
  destruct (after_dot n) as [b|]; cbn [mbind option_bind]; [|apply position_lt].
  destruct (column_idx b t) as [k|] eqn:E'; [intros [= <-]; by eapply column_idx_lt|apply position_lt].
Qed.

(** Keys that name columns of the two tables. *)
Definition keys_fit l r (keys : list JoinKey) : Prop :=
  Forall (λ k, (left_col k < length (column_names l))%nat ∧ (right_col k < length (column_names r))%nat) keys.

Lemma collect_keys_spec on l r keys : keys_fit l r keys →
  (∃ keys', collect_keys on l r keys = Ok keys' ∧ keys_fit l r keys') ∨ ∃ e, collect_keys on l r keys = Err (Fail e).
Proof.
  revert keys. induction on as [| |le IHl op re IHr| | | |]; intros keys Hk; cbn [collect_keys]; try (right; by eexists).
  destruct (eq_ignore_ascii_case op (K "AND")).
  { destruct (IHl keys Hk) as [(k1 & -> & H1)|[e ->]]; [|right; by eexists]. by apply IHr. }
  destruct (text_eqb op (K "=")); [|right; by eexists].
  destruct (resolve_col le l) as [lk|] eqn:E1, (resolve_col re r) as [rk|] eqn:E2;
    try (left; eexists; split; [done|]; apply Forall_app; split; [done|]; constructor; [split; by eapply resolve_col_lt|constructor]);
    (destruct (resolve_col le r) as [rk'|] eqn:E3; [|right; by eexists]; destruct (resolve_col re l) as [lk'|] eqn:E4; [|right; by eexists];
     left; eexists; (split; [done|]); apply Forall_app; (split; [done|]); constructor; [split; by eapply resolve_col_lt|constructor]).
Qed.

Lemma extract_join_keys_spec on l r :
  (∃ keys, extract_join_keys on l r = Ok keys ∧ keys ≠ [] ∧ keys_fit l r keys) ∨ ∃ e, extract_join_keys on l r = Err (Fail e).
Proof.
  unfold extract_join_keys. destruct (collect_keys_spec on l r [] (Forall_nil_2 _)) as [(keys & -> & H)|[e ->]]; [|right; by eexists].
  cbn [mbind result_bind]. case_bool_decide as E; [right; by eexists|left; by exists keys].
Qed.

(** ** Cartesian products *)
Definition cross_rows l r : list (list Z) := concat ((λ i, (λ j, row_at l i ++ row_at r j) <$> seq 0 (row_count r)) <$> seq 0 (row_count l)).
Definition column_cells (col : list Z) (n : nat) : list Z := (λ i, default 0 (col !! i)) <$> seq 0 n.

Lemma column_cells_run (col : list Z) n : (n <= length col)%nat → mapM_run (λ i, or_panic (col !! i)) (seq 0 n) = Ok (column_cells col n).
Proof. intros H. apply mapM_run_ok. intros i Hi%elem_of_seq. destruct (lookup_lt_is_Some_2 col i) as [x ->]; [lia|done]. Qed.

Lemma row_at_lookup t i c col : columns t !! c = Some col → row_at t i !! c = Some (default 0 (col !! i)).
Proof. intros H. unfold row_at. by rewrite list_lookup_fmap, H. Qed.

(** A column of the product: each cell of the left table repeated, the cells of the right
    table in turn. *)
Lemma cross_left l r c col : columns l !! c = Some col →
  (λ row : list Z, default 0 (row !! c)) <$> cross_rows l r = concat (map (λ v, replicate (row_count r) v) (column_cells col (row_count l))).
Proof.
  intros Hc. unfold cross_rows, column_cells. induction (seq 0 (row_count l)) as [|i rows IH]; [done|]. rewrite !fmap_cons. cbn [concat map].
  rewrite fmap_app, IH. f_equal. clear IH. rewrite <- (length_seq (row_count r) 0) at 2. induction (seq 0 (row_count r)) as [|j js IHj]; [done|].
  rewrite !fmap_cons. cbn [length replicate]. f_equal; [|exact IHj]. rewrite lookup_app_l; [by rewrite (row_at_lookup _ _ _ _ Hc)|].
  rewrite length_row_at. by eapply lookup_lt_Some.
Qed.
Lemma cross_right l r c col : columns r !! c = Some col →
  (λ row : list Z, default 0 (row !! (length (columns l) + c)%nat)) <$> cross_rows l r =
    concat (replicate (row_count l) (column_cells col (row_count r))).
Proof.
  intros Hc. unfold cross_rows, column_cells. rewrite <- (length_seq (row_count l) 0) at 2. induction (seq 0 (row_count l)) as [|i rows IH]; [done|].
  rewrite !fmap_cons. cbn [concat length replicate]. rewrite fmap_app, IH. f_equal. rewrite <- list_fmap_compose. apply list_fmap_ext.
  intros _ j _. simpl. rewrite lookup_app_r by (rewrite length_row_at; lia). rewrite length_row_at.
  replace (length (columns l) + c - length (columns l))%nat with c by lia. by rewrite (row_at_lookup _ _ _ _ Hc).
Qed.

Lemma cross_columns l r :
  columns_of (width l r) (cross_rows l r) =
  ((λ col, concat (map (λ v, replicate (row_count r) v) (column_cells col (row_count l)))) <$> columns l) ++
  ((λ col, concat (replicate (row_count l) (column_cells col (row_count r)))) <$> columns r).
Proof.
  apply list_eq. intros c. unfold columns_of, width. rewrite list_lookup_fmap. destruct (decide (c < length (columns l))%nat) as [H|H].
  - rewrite lookup_seq_lt, lookup_app_l by (rewrite ?length_fmap; lia). rewrite list_lookup_fmap.
    destruct (lookup_lt_is_Some_2 _ _ H) as [col Hc]. rewrite Hc. simpl. by rewrite (cross_left _ _ _ _ Hc).
  - rewrite lookup_app_r, length_fmap, list_lookup_fmap by (rewrite length_fmap; lia). destruct (decide (c < length (columns l) + length (columns r))%nat) as [H'|H'].
    + destruct (lookup_lt_is_Some_2 (columns r) (c - length (columns l))) as [col Hc]; [lia|]. rewrite Hc, lookup_seq_lt by lia. simpl.
      rewrite <- (cross_right l _ _ _ Hc). by replace (length (columns l) + (c - length (columns l)))%nat with c by lia.
    + rewrite lookup_seq_ge, lookup_ge_None_2 by lia. done.
Qed.

Lemma cross_join_spec l r ln rn : full l → full r →
  cross_join_into l r ln rn =
    if Z.leb (2 ^ 64) (Z.of_nat (row_count l * row_count r)) then Err (Fail EOther)
    else Ok (mkTable (K "__cross_" ++ rn) (columns_of (width l r) (cross_rows l r))
      (map (qualify_bare ln) (column_names l) ++ map (qualify rn) (column_names r)) (length (cross_rows l r)) [] [] None).
Proof.
  intros Hl Hr. unfold cross_join_into. rewrite <- Nat2Z.inj_mul. destruct (Z.leb _ _); [done|].
  unfold full in *. rewrite list.Forall_forall in Hl, Hr.
  rewrite (mapM_run_ok _ (λ col, concat (map (λ v, replicate (row_count r) v) (column_cells col (row_count l)))) (columns l)).
  2:{ intros col Hc. rewrite column_cells_run; [reflexivity|]. rewrite (Hl _ Hc). lia. }
  cbn [mbind result_bind]. rewrite (mapM_run_ok _ (λ col, concat (replicate (row_count l) (column_cells col (row_count r)))) (columns r)).
  2:{ intros col Hc. case_bool_decide as E; [by rewrite E|]. rewrite column_cells_run; [done|]. rewrite (Hr _ Hc). lia. }
  cbn [mbind result_bind]. rewrite cross_columns, Nat2Z.id. do 2 f_equal.
  unfold cross_rows. rewrite <- (length_seq (row_count l) 0) at 1. induction (seq 0 (row_count l)) as [|i rows IH]; [done|].
  rewrite fmap_cons. cbn [concat length]. rewrite length_app, <- IH, length_fmap, length_seq. done.
Qed.

(** cartesian products.  The product of two tables has every pair of rows, the left
    row slowest, and columns qualified by the names of their tables; more rows than fit
    in a machine word are refused. *)
Theorem cross_join_correct l r ln rn : full l → full r →
  cross_join_into l r ln rn =
    if Z.leb (2 ^ 64) (Z.of_nat (row_count l * row_count r)) then Err (Fail EOther)
    else Ok (mkTable (K "__cross_" ++ rn) (columns_of (width l r) (cross_rows l r))
      (map (qualify_bare ln) (column_names l) ++ map (qualify rn) (column_names r)) (length (cross_rows l r)) [] [] None).
Proof. apply cross_join_spec. Qed.
End joins.

Definition orders : CatalogM.Table StringColumnM.StringSearchColumn unit :=
  mkTable (K "o") [[1; 2; 2; 3]; [10; 20; 21; 30]] [K "id"; K "x"] 4 [] [] None.
Definition items : CatalogM.Table StringColumnM.StringSearchColumn unit :=
  mkTable (K "i") [[2; 3; 4]; [200; 300; 400]] [K "order"; K "y"] 3 [] [] None.

Lemma hash_join_correct_witness :
  hash_join orders items [mkKey 0 0] FullJoin =
    Ok (mkJR [[1; 2; 2; 3; 0]; [10; 20; 21; 30; 0]; [0; 2; 2; 3; 4]; [0; 200; 200; 300; 400]] [K "id"; K "x"; K "order"; K "y"] 5).
Proof.
  assert (full orders ∧ full items ∧ keys_in orders [0%nat] ∧ keys_in items [0%nat]) as (H1 & H2 & H3 & H4)
    by (split_and!; repeat constructor; simpl; lia).
  rewrite (hash_join_correct orders items [mkKey 0 0] H1 H2 H3 H4 FullJoin) by done. vm_compute; reflexivity.
Defined.

Lemma semi_anti_correct_witness :
  semi_join orders items [mkKey 0 0] = Ok (mkJR [[2; 2; 3]; [20; 21; 30]] [K "id"; K "x"] 3) ∧
  anti_join orders items [mkKey 0 0] = Ok (mkJR [[1]; [10]] [K "id"; K "x"] 1).
Proof.
  assert (full orders ∧ full items ∧ keys_in orders [0%nat] ∧ keys_in items [0%nat]) as (H1 & H2 & H3 & H4)
    by (split_and!; repeat constructor; simpl; lia).
  destruct (semi_anti_correct orders items [mkKey 0 0] H1 H2 H3 H4) as (E1 & E2 & _). rewrite E1, E2. split; vm_compute; reflexivity.
Defined.

Lemma cross_join_correct_witness :
  ∃ t, cross_join_into orders items (K "o") (K "i") = Ok t ∧ row_count t = 12%nat ∧ columns t !! 1%nat = Some [10; 10; 10; 20; 20; 20; 21; 21; 21; 30; 30; 30].
Proof.
  eexists. rewrite (cross_join_correct orders items (K "o") (K "i")) by (by repeat constructor). split; [reflexivity|]. split; vm_compute; reflexivity.
Defined.
End JoinsM.
