(* ===== verification/ExprEval.v ===== *)
(** * Arithmetic in aggregate arguments (src/src/exec/expr_eval.rs, the types of
    src/src/schema/table_schema.rs and ColumnType of src/src/sql/ddl.rs)

    The argument of an aggregate arrives as words separated by blanks; it is parsed and
    evaluated once per row.  Doubles go through [SpecFloat] (one NaN); the bits of a word
    read as a double are a parameter. *)

From Stdlib Require Import ZArith Lia Ascii String Floats.SpecFloat.
From stdpp Require Import prelude list numbers.
From S2P Require Import Prelude Nulls Catalog Result Lexer StringColumn Bitmap Parser Window Vectorized.
Local Open Scope Z_scope.

Module ExprEvalM.
Import LexerM ParserM CatalogM VectorizedM.

(** ** Schemas *)
Inductive ColumnType :=
| TInt | TBigInt | TSmallInt | TTinyInt | TVarchar (n : option Z) | TNvarchar (n : option Z) | TText | TFloat | TReal
| TDecimal (p s : option Z) | TNumeric (p s : option Z) | TBoolean | TBit | TDate | TTimestamp | TJson | TArray (t : ColumnType)
| TUuid | TBytea | TEnum (values : list text).

Record ColumnSchema := mkCS { cs_name : text; col_type : ColumnType; not_null : bool; primary_key : bool }.
Record TableSchema := mkTS { ts_columns : list ColumnSchema }.

Definition col_type_at (s : TableSchema) (idx : nat) : option ColumnType := col_type <$> ts_columns s !! idx.
Definition is_string (s : TableSchema) (idx : nat) : bool :=
  match col_type_at s idx with Some (TVarchar _ | TNvarchar _ | TText | TJson | TArray _ | TBytea) => true | _ => false end.
Definition is_float (s : TableSchema) (idx : nat) : bool :=
  match col_type_at s idx with Some (TFloat | TReal | TDecimal _ _ | TNumeric _ _) => true | _ => false end.

Abbreviation Table := (Table StringColumnM.StringSearchColumn TableSchema).

(** ** Values *)
Inductive TypedVal := VI (n : Z) | VF (bits : Z).

Definition as_f64 (v : TypedVal) : spec_float := match v with VI n => u64_as_f64 n | VF b => BitmapM.f64_from_bits b end.
Definition as_u64 (v : TypedVal) : Z := match v with VI n => n | VF b => b end.

Definition is_finite (f : spec_float) : bool := match f with S754_zero _ | S754_finite _ _ _ => true | _ => false end.
(** The double 1e15. *)
Definition f64_1e15 : spec_float := u64_as_f64 1000000000000000.
Definition below_1e15 (f : spec_float) : bool := SFltb (SFabs f) f64_1e15.

Definition is_op (ops : list text) (t : text) : bool := bool_decide (t ∈ ops).
Definition ADD : list text := [K "+"; K "-"].
Definition MUL : list text := [K "*"; K "/"].

Section eval.
Context (parse_f64 : text → option Z).

Definition eval_token (token : text) (t : Table) (row_idx : nat) : Z :=
  match parse_i64 token with
  | Some n => wrap_u 64 n
  | None =>
    match parse_u64 token with
    | Some n => n
    | None =>
      match parse_f64 token with
      | Some b => b
      | None => match column_idx token t with
                | Some idx => default 0 (col ← columns t !! idx; col !! row_idx)
                | None => 0
                end
      end
    end
  end.

Definition eval_token_typed (token : text) (t : Table) (row_idx : nat) : TypedVal :=
  match parse_i64 token with
  | Some n => VI (wrap_u 64 n)
  | None =>
    match parse_u64 token with
    | Some n => VI n
    | None =>
      match (if existsb (λ c, Z.eqb c 46 || Z.eqb c 101 || Z.eqb c 69) token then parse_f64 token else None) with
      | Some b => VF b
      | None =>
        match column_idx token t with
        | Some idx =>
          let val := default 0 (col ← columns t !! idx; col !! row_idx) in
          if from_option (λ s, is_float s idx) false (schema t) then VF val
          else if Z.ltb (2 ^ 62) val && is_finite (BitmapM.f64_from_bits val) && below_1e15 (BitmapM.f64_from_bits val) then VF val
          else VI val
        | None => VI 0
        end
      end
    end
  end.

Definition f64_op (op : text) (l r : spec_float) : spec_float :=
  if text_eqb op (K "+") then SFadd 53 1024 l r
  else if text_eqb op (K "-") then SFsub 53 1024 l r
  else if text_eqb op (K "*") then SFmul 53 1024 l r
  else if text_eqb op (K "/") then (if SFeqb r (S754_zero false) then S754_zero false else SFdiv 53 1024 l r)
  else S754_zero false.

Definition u64_op (op : text) (l r : Z) : Z :=
  if text_eqb op (K "+") then wrapping_add l r
  else if text_eqb op (K "-") then wrap_u 64 (l - r)
  else if text_eqb op (K "*") then wrapping_mul l r
  else if text_eqb op (K "/") then (if Z.eqb r 0 then 0 else l / r)
  else 0.

Definition eval_binop_typed (op : text) (l r : TypedVal) : TypedVal :=
  match l, r with
  | VI a, VI b => VI (u64_op op a b)
  | _, _ => VF (f64_to_bits (f64_op op (as_f64 l) (as_f64 r)))
  end.

(** ** The parser *)
Section parse.
Context (t : Table) (row_idx : nat).

(** The loop of one precedence level; every turn takes a token. *)
Fixpoint op_loop (ops : list text) (sub : list text → TypedVal * list text) (n : nat) (lv : TypedVal) (ts : list text)
  : TypedVal * list text :=
  match n, ts with
  | S n, op :: ts' =>
    if is_op ops op then
      let '(rv, rest) := sub ts' in op_loop ops sub n (eval_binop_typed op lv rv) rest
    else (lv, ts)
  | _, _ => (lv, ts)
  end.

Definition level (ops : list text) (sub : list text → TypedVal * list text) (ts : list text) : TypedVal * list text :=
  let '(lv, rest) := sub ts in op_loop ops sub (length rest) lv rest.

Definition parse_primary (rec : list text → TypedVal * list text) (ts : list text) : TypedVal * list text :=
  match ts with
  | [] => (VI 0, [])
  | token :: ts' =>
    if text_eqb token (K "(") then
      let '(val, rest) := rec ts' in
      (val, match rest with c :: rest' => if text_eqb c (K ")") then rest' else rest | [] => [] end)
    else (eval_token_typed token t row_idx, ts')
  end.

Definition parse_multiplicative (rec : list text → TypedVal * list text) : list text → TypedVal * list text :=
  level MUL (parse_primary rec).

(** Every parenthesis takes a token, so the number of tokens bounds the nesting. *)
Fixpoint parse_additive (fuel : nat) (ts : list text) : TypedVal * list text :=
  match fuel with
  | O => (VI 0, ts)
  | S fuel => level ADD (parse_multiplicative (parse_additive fuel)) ts
  end.
End parse.

Definition eval_expr (expr : text) (t : Table) (row_idx : nat) : Z :=
  match WindowM.split_whitespace expr with
  | [] => 0
  | [token] => eval_token token t row_idx
  | ts => as_u64 (parse_additive t row_idx (S (length ts)) ts).1
  end.
End eval.

Definition is_arithmetic_expr (expr : text) : bool :=
  existsb (λ w, bool_decide (w ∈ [K "+"; K "-"; K "*"; K "/"; K "("; K ")"])) (WindowM.split_whitespace expr).
Definition is_simple_column (expr : text) : bool :=
  match WindowM.split_whitespace expr with
  | [w] => negb (existsb (λ c, bool_decide (c ∈ K "+-*/()")) w)
  | _ => false
  end.

(** ** Reference *)
Inductive aexp := Atom (word : text) | Bin (op : text) (l r : aexp).

Definition prec (op : text) : nat := if is_op ADD op then 0%nat else 1%nat.
Definition is_operator (w : text) : bool := is_op ADD w || is_op MUL w || is_op [K "("; K ")"] w.

Fixpoint aexp_wf (e : aexp) : Prop :=
  match e with
  | Atom w => is_operator w = false ∧ WindowM.word w
  | Bin op l r => is_op (ADD ++ MUL) op = true ∧ aexp_wf l ∧ aexp_wf r
  end.

(** Words of an expression at a precedence level, with the parentheses it needs. *)
Fixpoint words_at (lvl : nat) (e : aexp) : list text :=
  match e with
  | Atom w => [w]
  | Bin op l r =>
    let body := words_at (prec op) l ++ op :: words_at (S (prec op)) r in
    if Nat.ltb (prec op) lvl then K "(" :: body ++ [K ")"] else body
  end.

Fixpoint aeval (parse_f64 : text → option Z) (t : Table) (row : nat) (e : aexp) : TypedVal :=
  match e with
  | Atom w => eval_token_typed parse_f64 w t row
  | Bin op l r => eval_binop_typed op (aeval parse_f64 t row l) (aeval parse_f64 t row r)
  end.

(** ** The evaluator follows the reference *)
Section correct.
Context (parse_f64 : text → option Z) (t : Table) (row : nat).
Abbreviation A f := (parse_additive parse_f64 t row f).
Abbreviation prim f := (parse_primary parse_f64 t row (A f)).
Abbreviation mul f := (parse_multiplicative parse_f64 t row (A f)).
Abbreviation ev := (aeval parse_f64 t row).

(** A reader leaves no more tokens than it got. *)
Definition shrinks (sub : list text → TypedVal * list text) : Prop := ∀ ts, (length (sub ts).2 <= length ts)%nat.

Lemma op_loop_shrinks ops sub n lv ts : shrinks sub → (length (op_loop ops sub n lv ts).2 <= length ts)%nat.
Proof.
  intros Hs. revert lv ts. induction n as [|n IH]; intros lv [|op ts]; cbn [op_loop]; try done.
  case_match; [|done]. specialize (Hs ts). destruct (sub ts) as [rv rest]. specialize (IH (eval_binop_typed op lv rv) rest). simpl in *. lia.
Qed.

Lemma level_shrinks ops sub : shrinks sub → shrinks (level ops sub).
Proof.
  intros Hs ts. unfold level. pose proof (Hs ts). destruct (sub ts) as [lv rest]. pose proof (op_loop_shrinks ops sub (length rest) lv rest Hs).
  simpl in *. lia.
Qed.

Lemma primary_shrinks rec : shrinks rec → shrinks (parse_primary parse_f64 t row rec).
Proof.
  intros Hs [|w ts]; cbn [parse_primary]; [done|]. case_match; [|simpl; lia]. specialize (Hs ts). destruct (rec ts) as [v [|c rest]]; simpl in *; [lia|].
  case_match; simpl; lia.
Qed.

Lemma additive_shrinks f : shrinks (A f).
Proof. induction f as [|f IH]; [by intros ts|]. by apply level_shrinks, level_shrinks, primary_shrinks. Qed.

(** The bound of a loop does not matter once it covers the tokens. *)
Lemma op_loop_fuel ops sub n m lv ts : shrinks sub → (length ts <= n)%nat → (length ts <= m)%nat →
  op_loop ops sub n lv ts = op_loop ops sub m lv ts.
Proof.
  intros Hs. revert m lv ts. induction n as [|n IH]; intros [|m] lv [|op ts] Hn Hm; cbn [op_loop]; simpl in *; try done; try lia.
  case_match; [|done]. specialize (Hs ts). destruct (sub ts) as [rv rest]. simpl in *. apply IH; lia.
Qed.

Definition stops (ops : list text) (rest : list text) : Prop := match rest with [] => True | w :: _ => is_op ops w = false end.

Lemma op_loop_stop ops sub n lv rest : stops ops rest → op_loop ops sub n lv rest = (lv, rest).
Proof. destruct n, rest; cbn [op_loop stops]; try done. by intros ->. Qed.

Fixpoint nodes (e : aexp) : nat := match e with Atom _ => 0%nat | Bin _ l r => S (nodes l + nodes r) end.

Definition reads1 (f : nat) (e : aexp) : Prop :=
  ∀ rest, level MUL (prim f) (words_at 1 e ++ rest) = op_loop MUL (prim f) (length rest) (ev e) rest.
Definition reads0 (f : nat) (e : aexp) : Prop :=
  ∀ rest, stops MUL rest → level ADD (mul f) (words_at 0 e ++ rest) = op_loop ADD (mul f) (length rest) (ev e) rest.
Definition reads2 (f : nat) (e : aexp) : Prop := ∀ rest, prim f (words_at 2 e ++ rest) = (ev e, rest).

Lemma loop_step ops sub op lv rv ts rest n : shrinks sub → is_op ops op = true → sub ts = (rv, rest) → (length ts <= n)%nat →
  op_loop ops sub (S n) lv (op :: ts) = op_loop ops sub (length rest) (eval_binop_typed op lv rv) rest.
Proof.
  intros Hs Hop E Hn. cbn [op_loop]. rewrite Hop, E. pose proof (Hs ts) as Hl. rewrite E in Hl. simpl in Hl. apply op_loop_fuel; [done|lia|lia].
Qed.

Lemma paren_reads f e : (∀ rest, stops MUL rest → level ADD (mul f) (words_at 0 e ++ rest) = op_loop ADD (mul f) (length rest) (ev e) rest) →
  ∀ rest, prim (S f) (K "(" :: words_at 0 e ++ K ")" :: rest) = (ev e, rest).
Proof.
  intros H rest. unfold parse_primary. replace (text_eqb (K "(") (K "(")) with true by reflexivity.
  cbn [parse_additive]. rewrite H by done. rewrite op_loop_stop by done. by replace (text_eqb (K ")") (K ")")) with true by reflexivity.
Qed.

Lemma prim_shrinks f : shrinks (prim f).
Proof. apply primary_shrinks, additive_shrinks. Qed.
Lemma mul_shrinks f : shrinks (mul f).
Proof. apply level_shrinks, prim_shrinks. Qed.

Lemma atom_reads f w : is_operator w = false → reads1 f (Atom w) ∧ reads2 f (Atom w) ∧ reads0 f (Atom w).
Proof.
  intros Hw. unfold is_operator, is_op in Hw. apply orb_false_iff in Hw as [_ Hw]. apply bool_decide_eq_false in Hw.
  assert (∀ rest, prim f (w :: rest) = (ev (Atom w), rest)) as Hp.
  { intros rest. unfold parse_primary, text_eqb. rewrite bool_decide_false; [done|]. intros ->. apply Hw. left. }
  split_and!; intros rest; cbn [words_at app].
  - unfold level. by rewrite Hp.
  - apply Hp.
  - intros Hs. unfold level at 1, parse_multiplicative at 1, level at 1. rewrite Hp, op_loop_stop by done. done.
Qed.

Lemma op_cases op : is_op (ADD ++ MUL) op = true → (is_op ADD op = true ∧ prec op = 0%nat ∧ is_op MUL op = false) ∨ (is_op MUL op = true ∧ prec op = 1%nat).
Proof.
  unfold prec, is_op. intros H%bool_decide_eq_true. rewrite elem_of_app in H. destruct H as [H|H].
  - left. rewrite bool_decide_true by done. split_and!; [done|done|]. apply bool_decide_eq_false. intros H2. unfold ADD, MUL in *.
    rewrite !elem_of_cons, elem_of_nil in H. rewrite !elem_of_cons, elem_of_nil in H2. destruct H as [H|[H|[]]], H2 as [H2|[H2|[]]]; by rewrite H in H2.
  - right. rewrite bool_decide_true by done. split; [done|]. rewrite bool_decide_false; [done|]. intros H2. unfold ADD, MUL in *.
    rewrite !elem_of_cons, elem_of_nil in H. rewrite !elem_of_cons, elem_of_nil in H2. destruct H as [H|[H|[]]], H2 as [H2|[H2|[]]]; by rewrite H in H2.
Qed.

Lemma reads e : aexp_wf e → ∀ f, ((nodes e <= f)%nat → reads1 f e ∧ reads2 f e) ∧ ((nodes e <= S f)%nat → reads0 f e).
Proof.
  induction e as [w|op l IHl r IHr]; intros Hwf f; [destruct (atom_reads f w) as (? & ? & ?); [apply Hwf|by split]|].
  destruct Hwf as (Hop & Hl & Hr). cbn [nodes].
  assert (∀ f, (nodes l + nodes r <= f)%nat → reads0 f (Bin op l r) ∧ (prec op = 1%nat → reads1 f (Bin op l r))) as H0.
  { clear f. intros f Hf. destruct (IHl Hl f) as [IHl12 IHl0], (IHr Hr f) as [IHr12 _].
    destruct IHl12 as [IHl1 _]; [lia|]. destruct IHr12 as [IHr1 IHr2]; [lia|]. specialize (IHl0 ltac:(lia)).
    destruct (op_cases op Hop) as [(Ha & Hp & Hm)|[Hm Hp]].
    - split; [|by rewrite Hp]. intros rest Hs. cbn [words_at]. rewrite Hp. cbn [Nat.ltb Nat.leb]. rewrite <- app_assoc. cbn [app].
      rewrite IHl0 by done. cbn [length]. apply loop_step; [apply mul_shrinks|done| |done].
      unfold parse_multiplicative. rewrite IHr1. by apply op_loop_stop.
    - assert (reads1 f (Bin op l r)) as H1.
      { intros rest. cbn [words_at]. rewrite Hp. cbn [Nat.ltb Nat.leb]. rewrite <- app_assoc. cbn [app].
        rewrite IHl1. cbn [length]. apply loop_step; [apply prim_shrinks|done|apply IHr2|done]. }
      split; [|done]. intros rest Hs. assert (words_at 0 (Bin op l r) = words_at 1 (Bin op l r)) as -> by (cbn [words_at]; by rewrite Hp).
      unfold level at 1, parse_multiplicative at 1. by rewrite H1, op_loop_stop. }
  assert (∀ f, (S (nodes l + nodes r) <= f)%nat → ∀ rest, prim f (K "(" :: words_at 0 (Bin op l r) ++ K ")" :: rest) = (ev (Bin op l r), rest)) as Hparen.
  { intros [|f'] Hf; [lia|]. apply paren_reads. apply (H0 f'). lia. }
  split; [|intros Hf; apply H0; lia]. intros Hf.
  assert (reads2 f (Bin op l r)) as H2.
  { intros rest. rewrite <- (Hparen f Hf rest). cbn [words_at]. destruct (op_cases op Hop) as [(_ & Hp & _)|[_ Hp]]; rewrite Hp; cbn [Nat.ltb Nat.leb];
      rewrite <- app_comm_cons, <- !app_assoc; done. }
  split; [|done]. destruct (op_cases op Hop) as [(_ & Hp & _)|[_ Hp]]; [|by apply H0; [lia|]].
  intros rest. assert (words_at 1 (Bin op l r) = words_at 2 (Bin op l r)) as -> by (cbn [words_at]; by rewrite Hp).
  unfold level. by rewrite H2.
Qed.
End correct.

Lemma words_at_words lvl e : aexp_wf e → Forall WindowM.word (words_at lvl e).
Proof.
  revert lvl. induction e as [w|op l IHl r IHr]; intros lvl; [intros [_ Hw]; by constructor|]. intros (Hop & Hl & Hr). cbn [words_at].
  assert (∀ w, w ∈ [K "+"; K "-"; K "*"; K "/"; K "("; K ")"] → WindowM.word w) as Hk.
  { intros w Hw. rewrite !elem_of_cons, elem_of_nil in Hw. destruct Hw as [->|[->|[->|[->|[->|[->|[]]]]]]]; (split; [done|by repeat constructor]). }
  assert (WindowM.word op) as Ho.
  { apply Hk. unfold is_op in Hop. apply bool_decide_eq_true in Hop. unfold ADD, MUL in Hop. set_solver. }
  case_match; repeat (apply Forall_cons_2 || apply Forall_app_2 || apply Forall_nil_2); auto; apply Hk; set_solver.
Qed.

Lemma words_at_pos lvl e : (1 <= length (words_at lvl e))%nat.
Proof. destruct e; cbn [words_at]; [done|]. case_match; repeat (rewrite length_app || cbn [length]); lia. Qed.

Lemma nodes_length lvl e : (nodes e <= length (words_at lvl e))%nat.
Proof.
  revert lvl. induction e as [w|op l IHl r IHr]; intros lvl; cbn [words_at nodes]; [lia|].
  specialize (IHl (prec op)). specialize (IHr (S (prec op))). case_match; repeat (rewrite length_app || cbn [length]); lia.
Qed.

(** the argument of an aggregate is evaluated with the usual precedence.  An arithmetic
    expression over words (columns and numbers), written with the parentheses it needs
    and blanks between its words, is evaluated on every row to the value of its tree:
    [*] and [/] before [+] and [-], both to the left, integers wrapping and division by
    zero giving zero, doubles as soon as an operand is one. *)
Theorem eval_expr_correct parse_f64 t row op l r :
  aexp_wf (Bin op l r) →
  eval_expr parse_f64 (join_sp (words_at 0 (Bin op l r))) t row = as_u64 (aeval parse_f64 t row (Bin op l r)).
Proof.
  intros Hwf. unfold eval_expr. rewrite WindowM.split_whitespace_join by (by apply words_at_words).
  set (ws := words_at 0 (Bin op l r)). assert (2 <= length ws ∧ nodes (Bin op l r) <= length ws)%nat as [H2 Hn].
  { subst ws. split; [|apply nodes_length]. cbn [words_at Nat.ltb Nat.leb]. rewrite length_app. simpl.
    pose proof (words_at_pos (prec op) l). pose proof (words_at_pos (S (prec op)) r). lia. }
  assert ((parse_additive parse_f64 t row (S (length ws)) ws).1 = aeval parse_f64 t row (Bin op l r)) as E.
  { cbn [parse_additive]. rewrite <- (app_nil_r ws) at 2. destruct (reads parse_f64 t row _ Hwf (length ws)) as [_ Hr].
    subst ws. by rewrite Hr by lia || done. }
  rewrite <- E. destruct ws as [|w1 [|w2 ws]]; simpl in *; [lia|lia|done].
Qed.

Lemma eval_expr_correct_witness :
  let t : Table := mkTable (K "t") [[10]; [3]] [K "price"; K "d"] 1 [] [] None in
  eval_expr (λ _, None) (K "price * ( 1 + d ) - d") t 0 = 37.
Proof.
  apply (eval_expr_correct (λ _, None) (mkTable (K "t") [[10]; [3]] [K "price"; K "d"] 1 [] [] None) 0
    (K "-") (Bin (K "*") (Atom (K "price")) (Bin (K "+") (Atom (K "1")) (Atom (K "d")))) (Atom (K "d"))).
  repeat (split || apply Forall_cons_2 || apply Forall_nil_2); done.
Defined.
End ExprEvalM.
