(* ===== verification/Executor.v ===== *)
(** * The SELECT executor (src/src/engine/executor.rs, choose_plan of
    src/src/planner/optimizer.rs, deduplicate_rows and the end of execute_inner of
    src/src/engine/mod.rs)

    From a parsed query to its result: the plan, joins, dispatch, and the row-based paths
    behind it.  Cost estimates, which do not affect the plan chosen, and memory tiers,
    which the executor does not use, are left out, as are log lines and clocks.  Where the
    code falls back on the TPC-H interpreter it returns an error first: that error is the
    result here.  Lookups through an index, which the engine tries before, and PIVOT are
    not modelled. *)

From Stdlib Require Import ZArith Lia Ascii String Floats.SpecFloat.
From stdpp Require Import prelude list numbers gmap.
From S2P Require Import Prelude Nulls Catalog Result Sorting Lexer StringColumn Bitmap Parser Window Vectorized Parallel ScanKernels Dispatch HashJoin ExprEval.
Local Open Scope Z_scope.

Module ExecutorM.
Import LexerM ParserM ResultM SortingM CatalogM VectorizedM ParallelM DispatchM HashJoinM ExprEvalM.

Inductive CpuTarget := Scalar | X86Avx2 | X86Avx512 | ArmNeon | ArmSve.

(** [kernel_table.select(ScanEqU64, L3)]: the exact match, else the scalar kernel. *)
Definition select_scan_eq (cpu : CpuTarget) : ScanKernelsM.KernelParams → list Z → ScanKernelsM.KernelResult :=
  match cpu with
  | X86Avx512 => ScanKernelsM.scan_eq_avx512_l3
  | X86Avx2 => ScanKernelsM.scan_eq_avx2
  | _ => ScanKernelsM.scan_eq_scalar
  end.

Inductive ExecStrategy := KernelDirect | VectorizedPlan | TpchFallback | HashJoinPlan.
#[global] Instance ExecStrategy_eq_dec : EqDecision ExecStrategy.
Proof. solve_decision. Defined.

Definition choose_plan (has_join has_subquery : bool) (select_count : nat) : ExecStrategy :=
  if has_subquery then TpchFallback
  else if has_join then HashJoinPlan
  else if Nat.eqb select_count 1 then KernelDirect
  else VectorizedPlan.

Record Filter := mkFilter { col_idx : nat; op : text; value : Z }.
Inductive WhereClause := WNone | WSingle (f : Filter) | WAnd (l r : WhereClause) | WOr (l r : WhereClause).

Section exec.
Context (uni_upper : Z → list Z) (to_lowercase : text → text) (xxh3_64 : list Z → Z) (float_bits : text → Z).
Context (parse_f64 : text → option Z) (sum_start : spec_float).
Context (hash_order : list Z → list Z) (group_order : list (list Z) → list (list Z)).
Context (threads : nat) (pool : list Morsel → tree Morsel) (cpu : CpuTarget).
Abbreviation up := (upper uni_upper).

(** ** WHERE clauses *)
Definition literal_to_u64 (v : Value) : Z :=
  match v with
  | VInt i => wrap_u 64 i
  | VFloat f => float_bits f
  | VString s => match parse_i64 s with Some i => wrap_u 64 i | None => xxh3_64 (as_bytes s) end
  | VHex bytes => hex_cell 0 0 bytes
  end.

Definition extract_col_and_value (l r : Expr) (t : Table) : run (nat * Z) :=
  match l, r with
  | Column name, Literal v | Literal v, Column name =>
    idx ← or_fail ENotFound (column_idx name t); Ok (idx, literal_to_u64 v)
  | _, _ => Err (Fail EOther)
  end.

Definition is_comparison (o : text) : bool := bool_decide (o ∈ [K "="; K "!="; K "<"; K ">"; K "<="; K ">="]).

Fixpoint parse_expr (e : Expr) (t : Table) : run WhereClause :=
  match e with
  | Binary l o r =>
    let op_upper := up o in
    if text_eqb op_upper (K "AND") then lc ← parse_expr l t; rc ← parse_expr r t; Ok (WAnd lc rc)
    else if text_eqb op_upper (K "OR") then lc ← parse_expr l t; rc ← parse_expr r t; Ok (WOr lc rc)
    else if is_comparison op_upper then
      '(col, val) ← extract_col_and_value l r t; Ok (WSingle (mkFilter col op_upper val))
    else Err (Fail EOther)
  | _ => Err (Fail EOther)
  end.

Definition parse_where (w : option Expr) (t : Table) : run WhereClause :=
  match w with None => Ok WNone | Some e => parse_expr e t end.

Definition cell_matches (o : text) (c v : Z) : bool :=
  if text_eqb o (K "=") then Z.eqb c v
  else if text_eqb o (K "!=") then negb (Z.eqb c v)
  else if text_eqb o (K "<") then Z.ltb c v
  else if text_eqb o (K ">") then Z.ltb v c
  else if text_eqb o (K "<=") then Z.leb c v
  else if text_eqb o (K ">=") then Z.leb v c
  else false.

(** [&&] and [||] evaluate their right operand only when needed. *)
Fixpoint row_matches (w : WhereClause) (row : list Z) : run bool :=
  match w with
  | WNone => Ok true
  | WSingle f => c ← or_panic (row !! col_idx f); Ok (cell_matches (op f) c (value f))
  | WAnd l r => b ← row_matches l row; if b : bool then row_matches r row else Ok false
  | WOr l r => b ← row_matches l row; if b : bool then Ok true else row_matches r row
  end.

Fixpoint matching_rows (w : WhereClause) (t : Table) (rows : list nat) : run (list nat) :=
  match rows with
  | [] => Ok []
  | i :: rows =>
    row ← cells_of t i; b ← row_matches w row; rest ← matching_rows w t rows;
    Ok (if b : bool then i :: rest else rest)
  end.
Definition filter_indices_old (w : WhereClause) (t : Table) : run (list nat) :=
  match w with WNone => Ok (seq 0 (row_count t)) | _ => matching_rows w t (seq 0 (row_count t)) end.

(** The vectorised evaluator takes an expression: columns are named by their index. *)
Definition filter_to_expr (f : Filter) : Expr :=
  Binary (Column (fmt_u64 (Z.of_nat (col_idx f)))) (op f) (Literal (VInt (as_signed 64 (value f)))).
Fixpoint where_clause_to_expr (w : WhereClause) : Expr :=
  match w with
  | WSingle f => filter_to_expr f
  | WAnd l r => Binary (where_clause_to_expr l) (K "AND") (where_clause_to_expr r)
  | WOr l r => Binary (where_clause_to_expr l) (K "OR") (where_clause_to_expr r)
  | WNone => Literal (VInt 1)
  end.
Definition filter_indices_batch (w : WhereClause) (t : Table) : run (list nat) :=
  match w with
  | WNone => Ok (seq 0 (row_count t))
  | _ => or_panic (filter_rows uni_upper xxh3_64 float_bits (columns t) (column_names t) (row_count t) (where_clause_to_expr w))
  end.
(** The batch path always answers. *)
Definition filter_indices (w : WhereClause) (t : Table) : run (list nat) := filter_indices_batch w t.

(** ** Aggregates *)
Definition is_cell_null (t : Table) (c row : nat) : bool := is_cell_null_dispatch t c row.
Definition non_null (t : Table) (c : nat) (rows : list nat) : list nat := filter (λ i, is_cell_null t c i = false) rows.

(** Whether a cell produced by an expression is read back as a double. *)
Definition cell_as_f64 (val : Z) : spec_float :=
  let f := BitmapM.f64_from_bits val in
  if Z.ltb (2 ^ 62) val && is_finite f then f
  else if Z.ltb (2 ^ 60) val then (if is_finite f && below_1e15 f then f else u64_as_f64 val)
  else u64_as_f64 val.
Definition sum_expr (arg : text) (t : Table) (rows : list nat) : Z :=
  f64_to_bits (foldl (λ s i, SFadd 53 1024 s (cell_as_f64 (eval_expr parse_f64 arg t i))) sum_start rows).

Definition compute_aggregate (func arg : text) (rows : list nat) (t : Table) : run Z :=
  let f := up func in
  let idx := default 0%nat (column_idx arg t) in
  if text_eqb f (K "COUNT") then
    Ok (Z.of_nat (length (if text_eqb arg (K "*") then rows else non_null t idx rows)))
  else if text_eqb f (K "COUNT_DISTINCT") then
    vs ← cells_at t idx (non_null t idx rows); Ok (Z.of_nat (size (list_to_set vs : gset Z)))
  else if text_eqb f (K "SUM") then
    if is_arithmetic_expr arg then Ok (sum_expr arg t rows)
    else vs ← cells_at t idx (non_null t idx rows); Ok (sum_u64 vs)
  else if text_eqb f (K "AVG") then
    vs ← cells_at t idx (non_null t idx rows);
    Ok (if bool_decide (vs = []) then 0 else sum_u64 vs / Z.of_nat (length vs))
  else if text_eqb f (K "MIN") then vs ← cells_at t idx (non_null t idx rows); Ok (default 0 (min_u64 vs))
  else if text_eqb f (K "MAX") then vs ← cells_at t idx (non_null t idx rows); Ok (default 0 (max_u64 vs))
  else Ok 0.

(** ** GROUP BY *)
Definition resolve_group_cols (q : SelectQuery) (t : Table) : run (list nat) :=
  mapM_run (λ n, or_fail ENotFound (column_idx n t)) (group_by q).

Fixpoint group_rows (t : Table) (cols : list nat) (rows : list nat) (groups : gmap (list Z) (list nat)) : run (gmap (list Z) (list nat)) :=
  match rows with
  | [] => Ok groups
  | row :: rows => k ← row_cells t cols row; group_rows t cols rows (add_row groups k row)
  end.

(** The first ORDER BY column, by its strings where it has them. *)
Definition permute_column (idx : list nat) (keep_strings : bool) (c : ResultColumn) : run ResultColumn :=
  vs ← mapM_run (λ i, or_panic (values c !! i)) idx;
  Ok (mkCol (ResultM.name c) vs
        (if keep_strings then (λ sv : list (list Z), map (λ i, default [] (sv !! i)) idx) <$> string_values c else None) 0 None).

Definition order_by_column (keep_strings : bool) (n : text) (asc : bool) (r : QueryResult) : run QueryResult :=
  c ← or_fail ENotFound (snd <$> list_find (λ c, ResultM.name c = n) (ResultM.columns r));
  let rows := seq 0 (ResultM.row_count r) in
  let idx := match (if keep_strings then string_values c else None) with
             | Some sv => sort_by (λ a b, directed asc (str_cmp (default [] (sv !! a)) (default [] (sv !! b)))) rows
             | None => sort_by (λ a b, directed asc (Z.compare (default 0 (values c !! a)) (default 0 (values c !! b)))) rows
             end in
  cols ← mapM_run (permute_column idx keep_strings) (ResultM.columns r);
  Ok (mkResult cols (ResultM.row_count r)).

Definition order_group_result (ob : list (text * bool)) (r : QueryResult) : run QueryResult :=
  match ob, ResultM.columns r with
  | [], _ | _, [] => Ok r
  | (n, asc) :: _, _ => order_by_column true n asc r
  end.

Definition execute_group_by (q : SelectQuery) (w : WhereClause) (t : Table) : run QueryResult :=
  rows ← filter_indices w t;
  group_cols ← resolve_group_cols q t;
  groups ← group_rows t group_cols rows ∅;
  let keys := group_order (elements (dom groups)) in
  let bucket k := default [] (groups !! k) in
  key_cols ← mapM_run (λ '(i, n), vs ← mapM_run (λ k : list Z, or_panic (k !! i)) keys; Ok (plain n vs)) (imap pair (group_by q));
  agg_cols ← mapM_run (λ item,
    match item with
    | SAggregate func arg alias => vs ← mapM_run (λ k, compute_aggregate func arg (bucket k) t) keys; Ok [plain (default func alias) vs]
    | _ => Ok []
    end) (select q);
  order_group_result (order_by q) (mkResult (key_cols ++ concat agg_cols) (length keys)).

(** ** One row of aggregates *)
Definition no_group_item (t : Table) (rows : list nat) (item : SelectItem) : run ResultColumn :=
  match item with
  | SColumn n =>
    idx ← or_fail ENotFound (column_idx n t);
    v ← (match rows with [i] => cell t idx i | _ => Ok 0 end);
    Ok (plain n [v])
  | SAggregate func arg alias => v ← compute_aggregate func arg rows t; Ok (plain (default func alias) [v])
  | SStar => Ok (plain (K "count") [Z.of_nat (length rows)])
  | SLiteral v => Ok (plain (fmt_u64 v) [v])
  | SWindow _ _ _ _ | SExpression _ _ => Err (Fail EOther)
  end.
Definition execute_aggregate_no_group (items : list SelectItem) (w : WhereClause) (t : Table) : run QueryResult :=
  rows ← filter_indices w t; cols ← mapM_run (no_group_item t rows) items; Ok (mkResult cols 1).

Definition params_for (target : Z) : ScanKernelsM.KernelParams :=
  ScanKernelsM.mkParams target 0 (2 ^ 64 - 1) 0 0 ScanKernelsM.OpEq ScanKernelsM.OpEq ScanKernelsM.OpEq 0.

Definition execute_count (arg n : text) (w : WhereClause) (t : Table) : run QueryResult :=
  let slow :=
    rows ← filter_indices w t;
    let rows := if text_eqb arg (K "*") then rows else non_null t (default 0%nat (column_idx arg t)) rows in
    Ok (single_value n (Z.of_nat (length rows))) in
  match w with
  | WNone => if text_eqb arg (K "*") then Ok (single_value n (Z.of_nat (row_count t))) else slow
  | WSingle f =>
    if text_eqb (op f) (K "=") then
      col ← or_panic (columns t !! col_idx f);
      Ok (single_value n (ScanKernelsM.count (select_scan_eq cpu (params_for (value f)) col)))
    else slow
  | _ => slow
  end.

Definition large (t : Table) : bool := Z.ltb 10000 (Z.of_nat (row_count t)).

(** The cells of the rows that match; without a WHERE clause the whole column. *)
Definition selected_cells (w : WhereClause) (t : Table) (idx : nat) : run (list Z) :=
  match w with
  | WNone => or_panic (columns t !! idx)
  | _ => rows ← filter_indices w t; cells_at t idx rows
  end.

Definition reduce_column (w : WhereClause) (t : Table) (idx : nat) (par seq_ : list Z → Z) : run Z :=
  match w with
  | WNone => col ← or_panic (columns t !! idx); Ok (if large t then par col else seq_ col)
  | _ => vs ← selected_cells w t idx; Ok (seq_ vs)
  end.

Definition execute_sum (arg n : text) (w : WhereClause) (t : Table) : run QueryResult :=
  if is_arithmetic_expr arg then rows ← filter_indices w t; Ok (single_value n (sum_expr arg t rows))
  else
    idx ← or_fail ENotFound (column_idx arg t);
    sum ← reduce_column w t idx (parallel_sum threads pool) sum_u64;
    Ok (single_value n (f64_to_bits (u64_as_f64 sum))).

Definition execute_avg (arg n : text) (w : WhereClause) (t : Table) : run QueryResult :=
  idx ← or_fail ENotFound (column_idx arg t);
  rows ← filter_indices w t;
  if bool_decide (rows = []) then Ok (single_value n 0)
  else vs ← cells_at t idx rows; Ok (single_value n (f64_ratio (sum_u64 vs) (length rows))).

Definition execute_min (arg n : text) (w : WhereClause) (t : Table) : run QueryResult :=
  idx ← or_fail ENotFound (column_idx arg t);
  v ← reduce_column w t idx (parallel_min threads pool) (λ l, default 0 (min_u64 l));
  Ok (single_value n v).
Definition execute_max (arg n : text) (w : WhereClause) (t : Table) : run QueryResult :=
  idx ← or_fail ENotFound (column_idx arg t);
  v ← reduce_column w t idx (parallel_max threads pool) (λ l, default 0 (max_u64 l));
  Ok (single_value n v).

Definition execute_count_distinct (arg n : text) (w : WhereClause) (t : Table) : run QueryResult :=
  idx ← or_fail ENotFound (column_idx arg t);
  rows ← filter_indices w t;
  vs ← cells_at t idx rows;
  Ok (single_value n (Z.of_nat (size (list_to_set vs : gset Z)))).

Definition execute_aggregate (func arg : text) (alias : option text) (w : WhereClause) (t : Table) : run QueryResult :=
  let f := up func in
  let n := default func alias in
  if text_eqb f (K "COUNT") then execute_count arg n w t
  else if text_eqb f (K "SUM") then execute_sum arg n w t
  else if text_eqb f (K "AVG") then execute_avg arg n w t
  else if text_eqb f (K "MIN") then execute_min arg n w t
  else if text_eqb f (K "COUNT_DISTINCT") then execute_count_distinct arg n w t
  else if text_eqb f (K "MAX") then execute_max arg n w t
  else Err (Fail EOther).

(** ** Rows *)
Definition plain_star (t : Table) (rows : list nat) : run (list ResultColumn) :=
  mapM_run (λ '(i, n), vs ← cells_at t i rows; Ok (plain n vs)) (imap pair (column_names t)).

Definition execute_select_star (w : WhereClause) (t : Table) (l : option Z) : run QueryResult :=
  rows ← filter_indices w t;
  let rows := take_limit l rows in
  cols ← plain_star t rows; Ok (mkResult cols (length rows)).

Definition execute_select_column (n : text) (w : WhereClause) (t : Table) (l : option Z) : run QueryResult :=
  idx ← or_fail ENotFound (column_idx n t);
  rows ← filter_indices w t;
  let rows := take_limit l rows in
  vs ← cells_at t idx rows;
  ss ← strings_at t idx rows;
  Ok (mkResult [mkCol n vs ss 0 None] (length rows)).

Definition execute_select_multi (items : list SelectItem) (w : WhereClause) (t : Table) (l : option Z) : run QueryResult :=
  rows ← filter_indices w t;
  let rows := take_limit l rows in
  cols ← mapM_run (λ item,
    match item with
    | SColumn n => idx ← or_fail ENotFound (column_idx n t); vs ← cells_at t idx rows; Ok [plain n vs]
    | SStar => plain_star t rows
    | _ => Ok []
    end) items;
  Ok (mkResult (concat cols) (length rows)).

Definition apply_order_by (ob : list (text * bool)) (r : QueryResult) : run QueryResult :=
  match ob, ResultM.columns r with
  | [], _ | _, [] => Ok r
  | (n, asc) :: _, _ => if Nat.leb (ResultM.row_count r) 1 then Ok r else order_by_column false n asc r
  end.

Definition literal_result (v : Z) : QueryResult := mkResult [plain (fmt_u64 v) [v]] 1.

(** A select list of one item. *)
Definition execute_single (item : SelectItem) (w : WhereClause) (t : Table) (l : option Z) : run QueryResult :=
  match item with
  | SAggregate func arg alias => execute_aggregate func arg alias w t
  | SStar => execute_select_star w t l
  | SColumn n => execute_select_column n w t l
  | SLiteral v => Ok (literal_result v)
  | SWindow _ _ _ _ | SExpression _ _ => Err (Fail EOther)
  end.

(** ** Joins *)
Abbreviation Catalog := (gmap text Table).

Definition join_type_of (s : text) : JoinType :=
  if text_eqb s (K "LEFT") then LeftJoin
  else if text_eqb s (K "RIGHT") then RightJoin
  else if text_eqb s (K "FULL") then FullJoin
  else Inner.

(** The columns of the right table get its name, those of the left the first table's
    unless they have one. *)
Definition qualify_columns (from_ join_name : text) (left_count : nat) (right_names : list text) (names : list text) : list text :=
  imap (λ i n, if Nat.ltb i left_count then qualify_bare from_ n
               else match right_names !! (i - left_count)%nat with Some rn => qualify join_name rn | None => n end) names.

Definition join_step (q : SelectQuery) (catalog : Catalog) (running : Table) (j : JoinClause) : run Table :=
  right_ ← or_fail ENotFound (catalog !! join_table j);
  if text_eqb (up (join_type j)) (K "CROSS") then cross_join_into running right_ (from q) (join_table j)
  else
    keys ← extract_join_keys (on j) running right_;
    r ← hash_join running right_ keys (join_type_of (up (join_type j)));
    let t : Table := into_table r (K "__join_" ++ join_table j) in
    if Nat.ltb (length (column_names t)) (length (columns running)) then Err Panic
    else Ok (mkTable (CatalogM.name t) (columns t)
               (qualify_columns (from q) (join_table j) (length (columns running)) (column_names right_) (column_names t))
               (row_count t) [] [] None).

Fixpoint join_all (q : SelectQuery) (catalog : Catalog) (running : Table) (js : list JoinClause) : run Table :=
  match js with [] => Ok running | j :: js => t ← join_step q catalog running j; join_all q catalog t js end.

Definition without_joins (q : SelectQuery) : SelectQuery :=
  mkQuery (select q) (from q) [] (where_clause q) (group_by q) (having q) (order_by q) (limit q) (distinct q).

Abbreviation dispatched := (execute_dispatched uni_upper to_lowercase xxh3_64 float_bits hash_order threads pool).

Definition execute_with_join (q : SelectQuery) (catalog : Catalog) : run QueryResult :=
  base ← or_fail ENotFound (catalog !! from q);
  running ← join_all q catalog base (joins q);
  match dispatched (without_joins q) running with
  | Some r => r
  | None =>
    w ← parse_where (where_clause q) running;
    if negb (bool_decide (group_by q = [])) then execute_group_by q w running
    else match select q with
         | [item] => execute_single item w running (limit q)
         | items => execute_select_multi items w running (limit q)
         end
  end.

(** ** The executor *)
Definition is_window (s : SelectItem) : bool := match s with SWindow _ _ _ _ => true | _ => false end.

(** Window functions are taken out of the select list; the caller adds their columns. *)
Definition strip_windows (items : list SelectItem) : list SelectItem :=
  if existsb is_window items then
    match filter (λ s, is_window s = false) items with [] => [SStar] | l => l end
  else items.

Definition execute_rows (q : SelectQuery) (t : Table) : run QueryResult :=
  w ← parse_where (where_clause q) t;
  let items := strip_windows (select q) in
  let q' := mkQuery items (from q) (joins q) (where_clause q) (group_by q) (having q) (order_by q) (limit q) (distinct q) in
  r ← (if negb (bool_decide (group_by q = [])) then execute_group_by q' w t
       else match items with
            | [] => Err (Fail EOther)
            | [item] => execute_single item w t (limit q)
            | _ => if existsb is_aggregate items then execute_aggregate_no_group items w t
                   else execute_select_multi items w t (limit q)
            end);
  if negb (bool_decide (order_by q = [])) && bool_decide (group_by q = []) then apply_order_by (order_by q) r else Ok r.

(** A dispatched query that fails is tried again row by row; a panic is not caught. *)
Definition execute_select (q : SelectQuery) (catalog : Catalog) : run QueryResult :=
  if bool_decide (is_Some (having q)) then Err (Fail EOther)
  else
    t ← or_fail ENotFound (catalog !! from q);
    let strategy := choose_plan (negb (bool_decide (joins q = []))) false (length (select q)) in
    if negb (bool_decide (joins q = [])) || bool_decide (strategy = HashJoinPlan) then execute_with_join q catalog
    else if bool_decide (strategy = TpchFallback) then Err (Fail EOther)
    else
      match (if bool_decide (strategy = KernelDirect) || bool_decide (strategy = VectorizedPlan) then dispatched q t else None) with
      | Some (Ok r) => Ok r
      | Some (Err Panic) => Err Panic
      | _ => execute_rows q t
      end.

(** ** After the executor *)
Fixpoint keep_first (seen : gset (list Z)) (key : nat → list Z) (rows : list nat) : list nat :=
  match rows with
  | [] => []
  | row :: rows => if bool_decide (key row ∈ seen) then keep_first seen key rows else row :: keep_first ({[key row]} ∪ seen) key rows
  end.

Definition keep_cells (rows : list nat) (c : ResultColumn) : ResultColumn :=
  mkCol (ResultM.name c) (map (λ i, default 0 (values c !! i)) rows)
    ((λ sv : list (list Z), map (λ i, default [] (sv !! i)) rows) <$> string_values c) (type_oid c)
    ((λ m : list bool, map (λ i, default false (m !! i)) rows) <$> null_mask c).

Definition deduplicate_rows (r : QueryResult) : QueryResult :=
  if Nat.leb (ResultM.row_count r) 1 then r
  else
    let key row := map (λ c, default 0 (values c !! row)) (ResultM.columns r) in
    let rows := keep_first ∅ key (seq 0 (ResultM.row_count r)) in
    if Nat.eqb (length rows) (ResultM.row_count r) then r
    else mkResult (keep_cells rows <$> ResultM.columns r) (length rows).

(** What [execute_inner] does with the result of the executor when there is no PIVOT. *)
Definition finish_select (q : SelectQuery) (r : QueryResult) : QueryResult :=
  let r := if existsb is_window (select q) then WindowM.apply_window_functions hash_order uni_upper to_lowercase r q else r in
  if distinct q then deduplicate_rows r else r.

Definition run_select (q : SelectQuery) (catalog : Catalog) : run QueryResult :=
  r ← execute_select q catalog; Ok (finish_select q r).
End exec.
End ExecutorM.
