(* ===== verification/Statements.v ===== *)
(** * Executing statements (src/src/engine/mod.rs; from_ddl of
    src/src/schema/table_schema.rs and the statements of src/src/sql/ddl.rs)

    INSERT, UPDATE, DELETE, CREATE, ALTER and DROP over the engine's catalog, indexes and
    temporal tables; savepoints; EXPLAIN, ANALYZE, VACUUM, COPY and CHECKPOINT; and the
    lookup through an index that SELECT tries first.
    A panic leaves the state it happened in.  [now i] is the [i]-th reading of the clock
    during the statement.  Conditions are tokenized with [Lexer]. *)

From Stdlib Require Import ZArith Lia Ascii String.
From stdpp Require Import prelude list numbers gmap.
From S2P Require Import Prelude Nulls Catalog Result Lexer StringColumn Recovery Parser Vectorized Dispatch IndexManager ExprEval Dml Temporal SnapshotTxn.
Local Open Scope Z_scope.

Module StatementsM.
Import LexerM ParserM CatalogM VectorizedM DispatchM ExprEvalM IndexM DmlM.
Abbreviation Table := (CatalogM.Table StringColumnM.StringSearchColumn TableSchema).
Abbreviation Catalog := (gmap text Table).
Abbreviation Manager := (SnapshotTxn.TxnManager (SSC := StringColumnM.StringSearchColumn) (TS := TableSchema)).

Record QueryEngine := mkEngine {
  catalog : Catalog;
  index_manager : IndexManager;
  temporals : gmap text TemporalM.TemporalTable;
  txn_manager : Manager;
  savepoints : list (text * Catalog)
}.

Definition set_catalog (c : Catalog) (e : QueryEngine) : QueryEngine :=
  mkEngine c (index_manager e) (temporals e) (txn_manager e) (savepoints e).
Definition set_indexes (m : IndexManager) (e : QueryEngine) : QueryEngine :=
  mkEngine (catalog e) m (temporals e) (txn_manager e) (savepoints e).
Definition set_temporals (m : gmap text TemporalM.TemporalTable) (e : QueryEngine) : QueryEngine :=
  mkEngine (catalog e) (index_manager e) m (txn_manager e) (savepoints e).
Definition set_txn (m : Manager) (e : QueryEngine) : QueryEngine :=
  mkEngine (catalog e) (index_manager e) (temporals e) m (savepoints e).
Definition set_savepoints (s : list (text * Catalog)) (e : QueryEngine) : QueryEngine :=
  mkEngine (catalog e) (index_manager e) (temporals e) (txn_manager e) s.

Definition set_columns (cs : list (list Z)) (t : Table) : Table :=
  mkTable (name t) cs (column_names t) (row_count t) (string_columns t) (null_bitmaps t) (schema t).
Definition set_row_count (n : nat) (t : Table) : Table :=
  mkTable (name t) (columns t) (column_names t) n (string_columns t) (null_bitmaps t) (schema t).
Definition set_strings (ss : list (option StringColumnM.StringSearchColumn)) (t : Table) : Table :=
  mkTable (name t) (columns t) (column_names t) (row_count t) ss (null_bitmaps t) (schema t).
Definition set_bitmaps (bs : list (option NullVec.NullBitmap)) (t : Table) : Table :=
  mkTable (name t) (columns t) (column_names t) (row_count t) (string_columns t) bs (schema t).

Abbreviation exec := (stM QueryEngine Fault).
Abbreviation on_table := (stM Table Fault).

Definition lift {S A} (r : run A) : stM S Fault A := λ s, (r, s).
(** [self.catalog.get_mut(name)] and the work done on the table found. *)
Definition with_table {A} (n : text) (f : on_table A) : exec A := λ e,
  match catalog e !! n with
  | None => (Err (Fail ENotFound), e)
  | Some t => let '(r, t') := f t in (r, set_catalog (<[n := t']> (catalog e)) e)
  end.

Fixpoint for_each {S A} (l : list A) (f : A → stM S Fault ()) : stM S Fault () :=
  match l with [] => mret tt | x :: l => _ ← f x; for_each l f end.

Definition affected (n : nat) : ResultM.QueryResult := ResultM.mkResult [] n.

(** ** Values *)
Fixpoint drop_white (s : text) : text := match s with c :: s' => if RecoveryM.is_whitespace c then drop_white s' else s | [] => [] end.
Definition trim (s : text) : text := reverse (drop_white (reverse (drop_white s))).

Definition is_quoted (s : text) : bool :=
  bool_decide (head s = Some QUOTE) && bool_decide (last s = Some QUOTE) && bool_decide (2 <= length s)%nat.
Definition inner (s : text) : text := take (length s - 2) (drop 1 s).

(** [inner.replace("''", "'")]. *)
Fixpoint undouble (s : text) : text :=
  match s with
  | [] => []
  | c :: rest =>
      match rest with
      | [] => [c]
      | d :: s' => if Z.eqb c QUOTE && Z.eqb d QUOTE then QUOTE :: undouble s' else c :: undouble rest
      end
  end.

Definition extract_string_literal (s : text) : option text :=
  let trimmed := trim s in if is_quoted trimmed then Some (undouble (inner trimmed)) else None.

(** [u8::from_str_radix] of two bytes. *)
Definition hex_pair (a b : Z) : option Z :=
  if is_hexdigit b then (if Z.eqb a 43 then Some (hex_value b) else if is_hexdigit a then Some (16 * hex_value a + hex_value b) else None)
  else None.
Definition is_continuation (b : Z) : bool := Z.leb 0x80 b && Z.ltb b 0xC0.
(** Slices of two bytes; a slice past the end or inside a character panics. *)
Fixpoint hex_bytes (bs : list Z) : option (list Z) :=
  match bs with
  | [] => Some []
  | a :: b :: bs' =>
    if is_continuation a || match bs' with c :: _ => is_continuation c | [] => false end then None
    else r ← hex_bytes bs'; Some (match hex_pair a b with Some v => v :: r | None => r end)
  | [_] => None
  end.
(** The first eight bytes, little-endian, zeros after them. *)
Definition le_cell (bs : list Z) : Z := le_decode (take 8 bs).

(** ** Statements of the DDL parser *)
Record ColumnDef := mkCD {
  cd_name : text; cd_type : ColumnType; cd_not_null : bool; cd_primary_key : bool; cd_default : option text;
  cd_identity : bool; cd_references : option (text * text)
}.
Record CreateTable := mkCT { ct_schema : text; ct_name : text; ct_columns : list ColumnDef; ct_if_not_exists : bool }.
Record DropTable := mkDT { dt_schema : text; dt_name : text; dt_if_exists : bool }.
Inductive AlterAction := AddColumn (c : ColumnDef) | DropColumn (n : text) | AlterColumnType (n : text) (ty : ColumnType).
Record AlterTable := mkAT { at_schema : text; at_name : text; at_action : AlterAction }.
Record CreateIndex := mkCI { ci_index : text; ci_table : text; ci_column : text; ci_if_not_exists : bool }.
Record DropIndex := mkDI { di_index : text; di_if_exists : bool }.
Inductive DdlStatement :=
| Create (ct : CreateTable) | Drop (dt : DropTable) | CreateSchema (n : text) | Alter (at_ : AlterTable)
| CreateIdx (ci : CreateIndex) | DropIdx (di : DropIndex).

Section statements.
Context (uni_alnum : Z → bool) (uni_upper : Z → list Z) (xxh3_64 : list Z → Z) (float_bits : text → Z).
Context (parse_f64 : text → option Z).

Definition hash_text (s : text) : Z := xxh3_64 (as_bytes s).

Definition parse_value_cell (s : text) : run Z :=
  let trimmed := trim s in
  if text_eqb trimmed (K "NULL") then Ok 0
  else if is_quoted trimmed then Ok (hash_text (inner trimmed))
  else if starts_with (K "x'") trimmed && bool_decide (last trimmed = Some QUOTE) && bool_decide (3 <= length trimmed)%nat then
    bs ← or_panic (hex_bytes (as_bytes (take (length trimmed - 3) (drop 2 trimmed)))); Ok (le_cell bs)
  else
    match (if existsb (λ c, Z.eqb c 46 || Z.eqb c 101 || Z.eqb c 69) trimmed then parse_f64 trimmed else None) with
    | Some bits => Ok bits
    | None =>
      match parse_i64 trimmed with
      | Some n => Ok (wrap_u 64 n)
      | None => match parse_u64 trimmed with Some n => Ok n | None => Ok (hash_text trimmed) end
      end
    end.

(** ** The WHERE clause of UPDATE and DELETE *)
Record Pred := mkPred { p_col : nat; p_op : text; p_cell : Z; p_raw : option text }.

Definition comparison_ops : list text := [K "="; K "!="; K "<>"; K "<"; K ">"; K "<="; K ">="].
Definition has_strings (t : Table) (i : nat) : bool := bool_decide (is_Some (string_col t i)).

Definition literal_of (t : Table) (col_idx : nat) (v : Token) : run (Z * option text) :=
  match v with
  | Str s => if has_strings t col_idx then Ok (0, Some s) else c ← parse_value_cell (quoted s); Ok (c, None)
  | Int n => Ok (wrap_u 64 n, None)
  | Float f => Ok (float_bits f, None)
  | Hex bs => Ok (le_cell bs, None)
  | Keyword k => if eq_ignore_ascii_case k (K "NULL") then Ok (0, None) else Err (Fail EOther)
  | _ => Err (Fail EOther)
  end.

Definition make_pred (t : Table) (col_name : text) (o v : Token) : run Pred :=
  match o with
  | Op op =>
    if bool_decide (op ∈ comparison_ops) then
      col_idx ← or_fail ENotFound (column_idx col_name t);
      '(cell, raw) ← literal_of t col_idx v;
      Ok (mkPred col_idx (if text_eqb op (K "<>") then K "!=" else op) cell raw)
    else Err (Fail EOther)
  | _ => Err (Fail EOther)
  end.

(** The predicates, and the connectives between them ([true]: AND). *)
Fixpoint parse_preds (t : Table) (ts : list Token) : run (list Pred * list bool) :=
  let pred col_name rest :=
    match rest with
    | o :: v :: rest => p ← make_pred t col_name o v; '(ps, ops) ← parse_preds t rest; Ok (p :: ps, ops)
    | _ => Err (Fail EOther)
    end in
  match ts with
  | [] => Ok ([], [])
  | Keyword k :: rest =>
    if eq_ignore_ascii_case k (K "AND") then '(ps, ops) ← parse_preds t rest; Ok (ps, true :: ops)
    else if eq_ignore_ascii_case k (K "OR") then '(ps, ops) ← parse_preds t rest; Ok (ps, false :: ops)
    else pred k rest
  | Ident n :: rest => pred n rest
  | _ => Err (Fail EOther)
  end.

Definition compares (op : text) (c : comparison) : bool :=
  if text_eqb op (K "=") then bool_decide (c = Eq)
  else if text_eqb op (K "!=") then bool_decide (c ≠ Eq)
  else if text_eqb op (K "<") then bool_decide (c = Lt)
  else if text_eqb op (K ">") then bool_decide (c = Gt)
  else if text_eqb op (K "<=") then bool_decide (c ≠ Gt)
  else if text_eqb op (K ">=") then bool_decide (c ≠ Lt)
  else false.

Definition pred_mask (t : Table) (p : Pred) : run (list bool) :=
  col ← or_panic (columns t !! p_col p);
  match p_raw p, string_col t (p_col p) with
  | Some s, Some sc => mapM_run (λ i, c ← get_str sc i; Ok (compares (p_op p) (str_cmp c (as_bytes s)))) (seq 0 (row_count t))
  | _, _ => Ok ((λ c, compares (p_op p) (Z.compare c (p_cell p))) <$> (col : list Z))
  end.

(** [result[j] = result[j] && mask[j]] for the rows; the second operand is read only when
    it matters. *)
Definition combine (is_and : bool) (n : nat) (result mask : list bool) : run (list bool) :=
  front ← mapM_run (λ j, r ← or_panic (result !! j);
                         if Bool.eqb r is_and then or_panic (mask !! j) else Ok r) (seq 0 n);
  Ok (front ++ drop n result).

Fixpoint combine_all (n : nat) (ops : list bool) (result : list bool) (masks : list (list bool)) : run (list bool) :=
  match masks with
  | [] => Ok result
  | m :: masks => r ← combine (default true (head ops)) n result m; combine_all n (tail ops) r masks
  end.

Definition eval_simple_where (t : Table) (where_str : text) : run (list bool) :=
  let n := row_count t in
  if Nat.eqb n 0 then Ok []
  else
    match tokenize uni_alnum uni_upper where_str with
    | None | Some (Err _) => Err (Fail EParse)
    | Some (Ok tokens) =>
      let tokens := filter (λ x, x ≠ EOF) tokens in
      let tokens := match tokens with
                    | Keyword k :: rest => if eq_ignore_ascii_case k (K "WHERE") then rest else tokens
                    | _ => tokens
                    end in
      '(ps, ops) ← parse_preds t tokens;
      masks ← mapM_run (pred_mask t) ps;
      match masks with
      | [] => Ok (replicate n true)
      | m :: masks => combine_all n ops m masks
      end
    end.

(** The mask of an optional condition. *)
Definition where_mask (t : Table) (w : option text) : run (list bool) :=
  match w with Some s => eval_simple_where t s | None => Ok (replicate (row_count t) true) end.

(** ** INSERT *)
Definition string_typed (t : Table) (col_idx : nat) : bool :=
  Nat.ltb col_idx (length (columns t)) && from_option (λ s, is_string s col_idx) false (schema t).

Definition push_cell (col_idx : nat) (cell : Z) : on_table () := λ t,
  match columns t !! col_idx with
  | Some col => (Ok tt, set_columns (<[col_idx := col ++ [cell]]> (columns t)) t)
  | None => (Err Panic, t)
  end.

(** [null_bitmaps.resize(columns.len(), None)]. *)
Definition resize {A} (n : nat) (d : A) (l : list A) : list A := take n l ++ replicate (n - length l) d.

Definition mark_inserted (col_idx : nat) (is_null : bool) : on_table () := λ t,
  if is_null then
    let bs := if Nat.leb (length (null_bitmaps t)) col_idx then resize (length (columns t)) None (null_bitmaps t) else null_bitmaps t in
    match bs !! col_idx with
    | None => (Err Panic, set_bitmaps bs t)
    | Some None => (Ok tt, set_bitmaps (<[col_idx := Some (NullVec.push_null (NullVec.new (row_count t)))]> bs) t)
    | Some (Some bm) => (Ok tt, set_bitmaps (<[col_idx := Some (NullVec.push_null bm)]> bs) t)
    end
  else
    match null_bitmaps t !! col_idx with
    | Some (Some bm) => (Ok tt, set_bitmaps (<[col_idx := Some (NullVec.push_non_null bm)]> (null_bitmaps t)) t)
    | _ => (Ok tt, t)
    end.

(** The string to keep beside the cell of a string column. *)
Definition kept_string (val_str : text) : text :=
  if eq_ignore_ascii_case (trim val_str) (K "null") then []
  else default (trim val_str) (extract_string_literal val_str).

Definition add_string (strs : gmap nat (list text)) (col_idx : nat) (s : text) : gmap nat (list text) :=
  <[col_idx := default [] (strs !! col_idx) ++ [s]]> strs.

(** One row: the values in the order of the column list, and the strings collected. *)
Fixpoint insert_row (string_cols : nat → bool) (cols : list nat) (vals : list text) (strs : gmap nat (list text))
  : on_table (gmap nat (list text)) :=
  match cols, vals with
  | [], _ => mret strs
  | _ :: _, [] => st_fail Panic
  | col_idx :: cols, val_str :: vals =>
    cell ← lift (parse_value_cell val_str);
    _ ← push_cell col_idx cell;
    _ ← mark_inserted col_idx (eq_ignore_ascii_case (trim val_str) (K "null"));
    insert_row string_cols cols vals (if string_cols col_idx then add_string strs col_idx (kept_string val_str) else strs)
  end.

Fixpoint insert_rows (string_cols : nat → bool) (cols : list nat) (rows : list (list text)) (strs : gmap nat (list text))
  : on_table (gmap nat (list text)) :=
  match rows with
  | [] => mret strs
  | row :: rows => strs ← insert_row string_cols cols row strs; insert_rows string_cols cols rows strs
  end.

(** The strings of a column are rebuilt with the new ones at the end; a column without
    strings is filled up with empty ones first.  More new strings than rows (a column
    named twice) makes the length to fill up wrap around, and the memory run out. *)
Definition merge_strings (col_idx : nat) (new_strings : list text) : on_table () := λ t,
  let ss := if Nat.leb (length (string_columns t)) col_idx
            then string_columns t ++ replicate (S col_idx - length (string_columns t)) None else string_columns t in
  let new := as_bytes <$> new_strings in
  match mjoin (ss !! col_idx) with
  | Some sc => (Ok tt, set_strings (<[col_idx := Some (StringColumnM.new (StringColumnM.strings sc ++ new))]> ss) t)
  | None =>
    if Nat.ltb (row_count t) (length new) then (Err Panic, set_strings ss t)
    else (Ok tt, set_strings (<[col_idx := Some (StringColumnM.new (replicate (row_count t - length new) [] ++ new))]> ss) t)
  end.

Definition add_rows (n : nat) : on_table () := st_modify (λ t, set_row_count (row_count t + n) t).

Definition insert_into (ins : Insert) : on_table (list (list Z)) :=
  t ← st_get;
  cols ← match ins_columns ins with
         | Some cs => lift (mapM_run (λ c, or_fail ENotFound (column_idx c t)) cs)
         | None => mret (seq 0 (length (columns t)))
         end;
  if negb (Nat.eqb (length cols) (from_option length 0%nat (head (ins_values ins)))) then st_fail (Fail EOther)
  else
    let n_new := length (ins_values ins) in
    strs ← insert_rows (string_typed t) cols (ins_values ins) ∅;
    _ ← add_rows n_new;
    _ ← for_each (map_to_list strs) (λ '(col_idx, new), merge_strings col_idx new);
    t ← st_get;
    mret (map (λ i, map (λ col : list Z, default 0 (col !! (row_count t - n_new + i)%nat)) (columns t)) (seq 0 n_new)).

(** Rows handed on to the temporal table of the same name, if there is one. *)
Definition with_temporal (n : text) (f : TemporalM.TemporalTable → TemporalM.TemporalTable) : exec () :=
  st_modify (λ e, set_temporals (alter f n (temporals e)) e).

Definition fold_now {A} (now : nat → Z) (f : A → Z → TemporalM.TemporalTable → TemporalM.TemporalTable) (l : list A)
  : TemporalM.TemporalTable → TemporalM.TemporalTable :=
  λ tt_, fold_left (λ tt_ '(i, x), f x (now i) tt_) (imap pair l) tt_.

Definition execute_insert (now : nat → Z) (ins : Insert) : exec ResultM.QueryResult :=
  rows ← with_table (ins_table ins) (insert_into ins);
  _ ← with_temporal (ins_table ins) (fold_now now TemporalM.insert rows);
  mret (affected (length (ins_values ins))).

(** ** UPDATE *)
Record Assign := mkAssign { a_col : nat; a_val : Z; a_null : bool }.

Definition read_assign (t : Table) (a : text * text) : run Assign :=
  idx ← or_fail ENotFound (column_idx a.1 t);
  cell ← parse_value_cell a.2;
  Ok (mkAssign idx cell (eq_ignore_ascii_case (trim a.2) (K "NULL"))).

(** [while bm.len() < n { bm.push_non_null() }]. *)
Definition pad_bitmap (n : nat) (bm : NullVec.NullBitmap) : NullVec.NullBitmap :=
  NullVec.mkNB (NullVec.bits bm ++ replicate (n - NullVec.len bm) false).

Definition assigned_bitmap (row : nat) (is_null : bool) (b : option NullVec.NullBitmap) : option NullVec.NullBitmap :=
  if is_null then Some (NullVec.set_null row (pad_bitmap (S row) (default (pad_bitmap row (NullVec.new 0)) b)))
  else (λ bm, NullVec.set_non_null row (pad_bitmap (S row) bm)) <$> b.

Definition assign_cell (row : nat) (a : Assign) : on_table () := λ t,
  match columns t !! a_col a with
  | None => (Err Panic, t)
  | Some col =>
    if Nat.ltb row (length col) then
      (Ok tt, set_bitmaps (alter (assigned_bitmap row (a_null a)) (a_col a) (null_bitmaps t))
                (set_columns (<[a_col a := <[row := a_val a]> col]> (columns t)) t))
    else (Err Panic, t)
  end.

Definition true_rows (mask : list bool) : list nat := filter (λ i, mask !! i = Some true) (seq 0 (length mask)).

(** The row as the temporal table is told of it: its first cell, and its cells. *)
Definition row_cells (t : Table) (row : nat) : list Z := map (λ col : list Z, default 0 (col !! row)) (columns t).
Definition row_pk (t : Table) (row : nat) : Z := default 0 (col ← head (columns t); col !! row).
Definition temporal_row (t : Table) (assigns : list Assign) (row : nat) : list Z :=
  fold_left (λ r a, <[a_col a := a_val a]> r) assigns (row_cells t row).

Definition update_table (upd : Update) : on_table (nat * list (Z * list Z)) :=
  t ← st_get;
  assigns ← lift (mapM_run (read_assign t) (assignments upd));
  mask ← lift (where_mask t (upd_where upd));
  _ ← st_modify (λ t, set_bitmaps (null_bitmaps t ++ replicate (length (columns t) - length (null_bitmaps t)) None) t);
  _ ← for_each (true_rows mask) (λ row, for_each assigns (assign_cell row));
  t ← st_get;
  mret (length (true_rows mask), map (λ row, (row_pk t row, temporal_row t assigns row)) (true_rows mask)).

Definition has_pk (pk : Z) (r : list Z) : bool := bool_decide (head r = Some pk).

Definition execute_update (now : nat → Z) (upd : Update) : exec ResultM.QueryResult :=
  '(updated, rows) ← with_table (upd_table upd) (update_table upd);
  _ ← with_temporal (upd_table upd) (fold_now now (λ pr : Z * list Z, TemporalM.update (has_pk pr.1) pr.2) rows);
  mret (affected updated).

(** ** DELETE *)
Definition kept (mask : list bool) (col : list Z) : run (list Z) :=
  mapM_run (λ i, or_panic (col !! i)) (filter (λ i, mask !! i = Some false) (seq 0 (length mask))).

Fixpoint map_columns (f : list Z → run (list Z)) (cols : list (list Z)) : run () * list (list Z) :=
  match cols with
  | [] => (Ok tt, [])
  | c :: cols =>
    match f c with
    | Ok c' => let '(r, cs) := map_columns f cols in (r, c' :: cs)
    | Err e => (Err e, c :: cols)
    end
  end.

(** The columns without the rows of [mask]; strings and NULL flags are not touched. *)
Definition remove_rows (mask : list bool) : on_table () := λ t,
  let '(r, cs) := map_columns (kept mask) (columns t) in
  match r with
  | Ok _ => (Ok tt, set_row_count (Z.to_nat (wrap_u 64 (Z.of_nat (row_count t) - Z.of_nat (length (true_rows mask))))) (set_columns cs t))
  | Err e => (Err e, set_columns cs t)
  end.

Definition execute_delete (now : nat → Z) (del : Delete) : exec ResultM.QueryResult :=
  '(mask, pks) ← with_table (del_table del) (t ← st_get;
      mask ← lift (where_mask t (del_where del));
      mret (mask, map (row_pk t) (true_rows mask)));
  let deleted := length (true_rows mask) in
  if Nat.eqb deleted 0 then mret (affected 0)
  else
    _ ← with_temporal (del_table del) (fold_now now (λ pk now tt_, (TemporalM.delete (has_pk pk) now tt_).2) pks);
    _ ← with_table (del_table del) (remove_rows mask);
    mret (affected deleted).

Definition execute_dml (now : nat → Z) (d : DmlStatement) : exec ResultM.QueryResult :=
  match d with
  | DInsert i => execute_insert now i
  | DUpdate u => execute_update now u
  | DDelete d => execute_delete now d
  end.

(** ** DDL *)
Definition from_ddl (cols : list ColumnDef) : TableSchema :=
  mkTS ((λ c, mkCS (cd_name c) (cd_type c) (cd_not_null c) (cd_primary_key c)) <$> cols).

(** The table's key in the catalog. *)
Definition qualified (schema n : text) : text := if text_eqb schema (K "dbo") then n else schema ++ K "." ++ n.

Definition type_default (ty : ColumnType) : Z :=
  match ty with
  | TVarchar _ | TNvarchar _ | TText | TJson | TArray _ | TBytea | TEnum _ => xxh3_64 []
  | _ => 0
  end.

Definition default_cell_for_type (c : ColumnDef) : Z :=
  match cd_default c with
  | None => type_default (cd_type c)
  | Some d =>
    let trimmed := trim d in
    if is_quoted trimmed then hash_text (inner trimmed)
    else match parse_i64 trimmed with
         | Some n => wrap_u 64 n
         | None => match parse_f64 trimmed with
                   | Some bits => bits
                   | None => if eq_ignore_ascii_case trimmed (K "null") then 0 else type_default (cd_type c)
                   end
         end
  end.

(** [vec.remove(idx)]. *)
Definition remove_at {A} (idx : nat) (l : list A) : list A := take idx l ++ drop (S idx) l.
Definition remove_if {A} (idx : nat) (l : list A) : list A := if Nat.ltb idx (length l) then remove_at idx l else l.

Definition add_column (c : ColumnDef) : on_table () := st_modify (λ t,
  mkTable (name t) (columns t ++ [replicate (row_count t) (default_cell_for_type c)]) (column_names t ++ [cd_name c]) (row_count t)
    (string_columns t ++ [None]) (null_bitmaps t ++ [None])
    ((λ s, mkTS (ts_columns s ++ [mkCS (cd_name c) (cd_type c) (cd_not_null c) (cd_primary_key c)])) <$> schema t)).

Definition drop_column (col_name : text) : on_table () := λ t,
  match column_idx col_name t with
  | None => (Err (Fail ENotFound), t)
  | Some idx =>
    if Nat.ltb idx (length (columns t)) then
      (Ok tt, mkTable (name t) (remove_at idx (columns t)) (remove_at idx (column_names t)) (row_count t)
                (remove_if idx (string_columns t)) (remove_if idx (null_bitmaps t))
                ((λ s, mkTS (remove_if idx (ts_columns s))) <$> schema t))
    else (Err Panic, t)
  end.

Definition set_type (ty : ColumnType) (c : ColumnSchema) : ColumnSchema := mkCS (cs_name c) ty (not_null c) (primary_key c).
Definition alter_type (col_name : text) (ty : ColumnType) : on_table () := λ t,
  match column_idx col_name t with
  | None => (Err (Fail ENotFound), t)
  | Some idx =>
    (Ok tt, mkTable (name t) (columns t) (column_names t) (row_count t) (string_columns t) (null_bitmaps t)
              ((λ s, mkTS (alter (set_type ty) idx (ts_columns s))) <$> schema t))
  end.

Definition execute_alter_table (at_ : AlterTable) : exec ResultM.QueryResult :=
  let full_name := qualified (at_schema at_) (at_name at_) in
  match at_action at_ with
  | AddColumn c => _ ← with_table full_name (add_column c); mret ResultM.empty
  | DropColumn n =>
    _ ← with_table full_name (drop_column n);
    _ ← st_modify (λ e, set_indexes (drop_index full_name n (index_manager e)).2 e);
    mret ResultM.empty
  | AlterColumnType n ty => _ ← with_table full_name (alter_type n ty); mret ResultM.empty
  end.

Definition execute_create_index (ci : CreateIndex) : exec ResultM.QueryResult := λ e,
  match get_by_name (ci_index ci) (index_manager e) with
  | Some _ => if ci_if_not_exists ci then (Ok ResultM.empty, e) else (Err (Fail EOther), e)
  | None =>
    match catalog e !! ci_table ci with
    | None => (Err (Fail ENotFound), e)
    | Some t =>
      match column_idx (ci_column ci) t with
      | None => (Err (Fail ENotFound), e)
      | Some idx =>
        match columns t !! idx with
        | None => (Err (Fail EOther), e)
        | Some vs =>
          let card := Z.of_nat (size (list_to_set vs : gset Z)) in
          (Ok ResultM.empty,
           set_indexes (build_hash_index (ci_table ci) (ci_column ci) vs
                          (create_named (ci_index ci) (ci_table ci) (ci_column ci) Hash card (index_manager e))) e)
        end
      end
    end
  end.

Definition execute_drop_index (di : DropIndex) : exec ResultM.QueryResult := λ e,
  let '(found, m) := drop_by_name (di_index di) (index_manager e) in
  if found || di_if_exists di then (Ok ResultM.empty, set_indexes m e) else (Err (Fail ENotFound), set_indexes m e).

Definition new_table (n : text) (cols : list ColumnDef) : Table :=
  mkTable n ((λ _, []) <$> cols) (cd_name <$> cols) 0 (replicate (length cols) None) (replicate (length cols) None) (Some (from_ddl cols)).

Definition execute_ddl (d : DdlStatement) : exec ResultM.QueryResult :=
  match d with
  | Create ct => λ e,
    let full_name := qualified (ct_schema ct) (ct_name ct) in
    match catalog e !! full_name with
    | Some _ => if ct_if_not_exists ct then (Ok ResultM.empty, e) else (Err (Fail EOther), e)
    | None => (Ok ResultM.empty, set_catalog (register (new_table full_name (ct_columns ct)) (catalog e)) e)
    end
  | Drop dt => λ e,
    let full_name := qualified (dt_schema dt) (dt_name dt) in
    match catalog e !! full_name with
    | None => if dt_if_exists dt then (Ok ResultM.empty, e) else (Err (Fail ENotFound), e)
    | Some _ => (Ok ResultM.empty, set_catalog (drop_table full_name (catalog e)).2 e)
    end
  | CreateSchema _ => mret ResultM.empty
  | Alter at_ => execute_alter_table at_
  | CreateIdx ci => execute_create_index ci
  | DropIdx di => execute_drop_index di
  end.

(** A table created WITH (SYSTEM_VERSIONING = ON) gets a temporal table of its own;
    [versioned] is the name the clause is found with, if there is one. *)
Definition run_ddl (now : Z) (versioned : option text) (d : DdlStatement) : exec ResultM.QueryResult :=
  r ← execute_ddl d;
  _ ← st_modify (λ e,
        match versioned with
        | Some n => match catalog e !! n with
                    | Some t => set_temporals (<[n := TemporalM.new (column_names t) now]> (temporals e)) e
                    | None => e
                    end
        | None => e
        end);
  mret r.

(** ** Savepoints and transactions *)
Section txn.
(** The order in which the hash map yields the tables' names. *)
Context (table_names : Catalog → list text).

Definition execute_savepoint (n : text) : exec ResultM.QueryResult := λ e,
  (Ok ResultM.empty, set_savepoints (savepoints e ++ [(n, clone_catalog table_names (catalog e))]) e).

(** [iter().rposition(|(n, _)| n == name)]. *)
Fixpoint rposition (n : text) (l : list (text * Catalog)) : option nat :=
  match l with
  | [] => None
  | x :: l => match rposition n l with Some i => Some (S i) | None => if text_eqb x.1 n then Some 0%nat else None end
  end.

Definition execute_rollback_to (n : text) : exec ResultM.QueryResult := λ e,
  match (pos ← rposition n (savepoints e); sp ← savepoints e !! pos; Some (pos, sp.2)) with
  | None => (Err (Fail ENotFound), e)
  | Some (pos, snapshot) =>
    (Ok ResultM.empty, set_savepoints (take (S pos) (savepoints e)) (set_catalog (clone_catalog table_names snapshot) e))
  end.

Definition execute_release_savepoint (n : text) : exec ResultM.QueryResult := λ e,
  match rposition n (savepoints e) with
  | None => (Err (Fail ENotFound), e)
  | Some pos => (Ok ResultM.empty, set_savepoints (take pos (savepoints e)) e)
  end.

(** The statements of this file, as [execute] tells them apart by their first words.  What
    the environment answers is part of a statement: [display] (escapes beyond ASCII) of
    EXPLAIN, the time ANALYZE measures, in milliseconds as bits and as text, whether the
    pages and the log are flushed ([flushed]) and the log truncated, whether a file takes a
    text, and the rows read from a file, as INSERTs, one for each line that is not blank. *)
Inductive Stmt :=
| Begin | Commit | Rollback
| Savepoint (n : text) | RollbackTo (n : text) | Release (n : text)
| Ddl (versioned : option text) (d : DdlStatement)
| Dml (d : DmlStatement)
| Explain (display : Z → text) (sql : text) (parsed : option SelectQuery)
| Analyze (timing_ms : Z) (shown : list Z) (s : Stmt)
| Vacuum (flushed truncated : bool)
| CopyTo (n : text) (write : list Z → bool)
| CopyFrom (rows : option (list Insert))
| Checkpoint (flushed : bool).

Definition execute_inner (now : nat → Z) (s : Stmt) : exec ResultM.QueryResult :=
  match s with
  | Savepoint n => execute_savepoint n
  | RollbackTo n => execute_rollback_to n
  | Release n => execute_release_savepoint n
  | Ddl v d => run_ddl (now 0%nat) v d
  | Dml d => execute_dml now d
  | _ => st_fail (Fail EOther)
  end.

(** ** EXPLAIN, ANALYZE, VACUUM, COPY, CHECKPOINT *)
Fixpoint join_texts (sep : text) (ts : list text) : text :=
  match ts with [] => [] | [t] => t | t :: ts => t ++ sep ++ join_texts sep ts end.
Definition count_text (n : nat) : text := dec 20 (Z.of_nat n).
Definition plan_lines (display : Z → text) (sql : text) (q : SelectQuery) (t : option Table) : list text :=
  [K "Query: " ++ trim sql; K "Table: " ++ from q; K "Select items: " ++ count_text (length (select q))] ++
  (if bool_decide (joins q = []) then [] else [K "Joins: " ++ count_text (length (joins q))]) ++
  (if bool_decide (is_Some (where_clause q)) then [K "Where: present"] else []) ++
  (if bool_decide (group_by q = []) then [] else [K "Group By: [" ++ join_texts (K ", ") (debug_str display <$> group_by q) ++ K "]"]) ++
  (if bool_decide (is_Some (having q)) then [K "Having: present"] else []) ++
  (if bool_decide (order_by q = []) then [] else [K "Order By: " ++ count_text (length (order_by q)) ++ K " columns"]) ++
  match limit q with Some l => [K "Limit: " ++ dec 20 l] | None => [] end ++
  (if distinct q then [K "Distinct: true"] else []) ++
  match t with Some t => [K "Rows: " ++ count_text (row_count t); K "Columns: " ++ join_texts (K ", ") (column_names t)] | None => [] end.
Definition execute_explain (display : Z → text) (sql : text) (parsed : option SelectQuery) : exec ResultM.QueryResult := λ e,
  match parsed with
  | None => (Err (Fail EParse), e)
  | Some q =>
    let plan_text := as_bytes (join_texts [10] (plan_lines display sql q (catalog e !! from q))) in
    (Ok (ResultM.mkResult [ResultM.mkCol (K "QUERY PLAN") [xxh3_64 plan_text] (Some [plan_text]) 25 None] 1), e)
  end.
Definition execute_analyze (now : nat → Z) (timing_ms : Z) (shown : list Z) (s : Stmt) : exec ResultM.QueryResult :=
  r ← execute_inner now s;
  mret (ResultM.mkResult (ResultM.columns r ++ [ResultM.mkCol (K "execution_time_ms") [timing_ms] (Some [shown]) 701 None]) (ResultM.row_count r)).
Definition execute_vacuum (flushed truncated : bool) : exec ResultM.QueryResult :=
  if flushed && truncated then mret ResultM.empty else st_fail (Fail EOther).
(** The cells as numbers, a missing one as 0. *)
Definition copy_csv (t : Table) : text :=
  join_texts (K ",") (column_names t) ++ [10] ++
  concat ((λ row, join_texts (K ",") ((λ c : list Z, dec 20 (default 0 (c !! row))) <$> columns t) ++ [10]) <$> seq 0 (row_count t)).
Definition execute_copy_to (n : text) (write : list Z → bool) : exec ResultM.QueryResult := λ e,
  match catalog e !! n with
  | None => (Err (Fail ENotFound), e)
  | Some t => if write (as_bytes (copy_csv t)) then (Ok (ResultM.mkResult [] (row_count t)), e) else (Err (Fail EOther), e)
  end.
(** The rows go through [execute_inner], whatever transaction is open. *)
Definition execute_copy_from (now : nat → Z) (rows : option (list Insert)) : exec ResultM.QueryResult :=
  match rows with
  | None => st_fail (Fail EOther)
  | Some rows => _ ← for_each rows (λ ins, _ ← execute_inner now (Dml (DInsert ins)); mret tt); mret (ResultM.mkResult [] (length rows))
  end.

(** A call on the transaction manager; its message becomes [Error::Other]. *)
Definition on_txn {A} (f : stM Manager string A) : exec A := λ e,
  let '(r, m) := f (txn_manager e) in
  (match r with Ok a => Ok a | Err _ => Err (Fail EOther) end, set_txn m e).

(** A statement inside a transaction runs on the transaction's snapshot, which takes the
    catalog's place meanwhile. *)
Definition execute (now : nat → Z) (s : Stmt) : exec ResultM.QueryResult :=
  match s with
  | Explain display sql parsed => execute_explain display sql parsed
  | Analyze timing_ms shown s => execute_analyze now timing_ms shown s
  | Vacuum flushed truncated => execute_vacuum flushed truncated
  | CopyTo n write => execute_copy_to n write
  | CopyFrom rows => execute_copy_from now rows
  | Checkpoint flushed => if flushed then mret ResultM.empty else st_fail (Fail EOther)
  | Begin => e ← st_get; _ ← on_txn (SnapshotTxn.begin_txn table_names (catalog e)); mret ResultM.empty
  | Commit =>
    committed ← on_txn SnapshotTxn.commit;
    _ ← st_modify (λ e, set_savepoints [] (set_catalog committed e));
    mret ResultM.empty
  | Rollback => _ ← on_txn SnapshotTxn.rollback; _ ← st_modify (set_savepoints []); mret ResultM.empty
  | _ => λ e,
    match SnapshotTxn.active (txn_manager e) with
    | None => execute_inner now s e
    | Some t =>
      let main := catalog e in
      let '(r, e') := execute_inner now s
            (set_txn (SnapshotTxn.mkTM (SnapshotTxn.next_id (txn_manager e)) None) (set_catalog (SnapshotTxn.snapshot t) e)) in
      match r with
      | Err Panic => (r, e')
      | _ => (r, set_txn (SnapshotTxn.mkTM (SnapshotTxn.next_id (txn_manager e'))
                           (Some (SnapshotTxn.mkTxn (SnapshotTxn.id t) (catalog e') (SnapshotTxn.txn_active t))))
                         (set_catalog main e'))
      end
    end
  end.
End txn.

(** ** SELECT through an index *)
Definition literal_to_cell (v : Value) : Z :=
  match v with
  | VInt i => wrap_u 64 i
  | VFloat f => float_bits f
  | VString s => match parse_i64 s with Some n => wrap_u 64 n | None => hash_text s end
  | VHex bytes => hex_cell 0 0 bytes
  end.

Definition extract_eq_predicate (e : Expr) : option (text * Z) :=
  match e with
  | Binary l op r =>
    if text_eqb op (K "=") then
      match l, r with
      | Column n, Literal v => Some (n, literal_to_cell v)
      | Literal v, Column n => Some (n, literal_to_cell v)
      | _, _ => None
      end
    else None
  | _ => None
  end.

(** The column at the rows; a row past its end is 0, or the empty string. *)
Definition indexed_column (t : Table) (n : text) (idx : nat) (rows : list nat) : run ResultM.ResultColumn :=
  vs ← mapM_run (λ r, col ← or_panic (columns t !! idx); Ok (default 0 ((col : list Z) !! r))) rows;
  ss ← strings_at t idx rows;
  Ok (ResultM.mkCol n vs ss 0 ((λ bm, map (λ r, NullVec.is_null r bm) rows) <$> bitmap t idx)).

(** [None]: an item the lookup is not for. *)
Fixpoint indexed_items (t : Table) (rows : list nat) (items : list SelectItem) : run (option (list ResultM.ResultColumn)) :=
  match items with
  | [] => Ok (Some [])
  | SStar :: items =>
    cs ← mapM_run (λ '(i, n), indexed_column t n i rows) (imap pair (column_names t));
    rest ← indexed_items t rows items; Ok (option_map (app cs) rest)
  | SColumn n :: items =>
    idx ← or_fail ENotFound (column_idx n t);
    c ← indexed_column t n idx rows;
    rest ← indexed_items t rows items; Ok (option_map (cons c) rest)
  | _ :: _ => Ok None
  end.

(** [None]: the query is left to the executor. *)
Definition try_indexed_lookup (e : QueryEngine) (q : SelectQuery) : run (option ResultM.QueryResult) :=
  if negb (bool_decide (joins q = [])) || negb (bool_decide (group_by q = [])) || bool_decide (is_Some (having q)) ||
     negb (bool_decide (order_by q = [])) || distinct q then Ok None
  else
    match (w ← where_clause q; extract_eq_predicate w) with
    | None => Ok None
    | Some (col_name, cell) =>
      if has_index (ParserM.from q) col_name (index_manager e) then
        t ← or_fail ENotFound (catalog e !! ParserM.from q);
        match column_idx col_name t with
        | None => Ok None
        | Some _ =>
          let rows := default [] (lookup_rows (ParserM.from q) col_name cell (index_manager e)) in
          let rows := take_limit (limit q) rows in
          cols ← indexed_items t rows (select q);
          Ok (option_map (λ cs, ResultM.mkResult cs (length rows)) cols)
        end
      else Ok None
    end.
End statements.
End StatementsM.
