(* ===== verification/Ddl.v ===== *)
(** * The parser of CREATE, ALTER and DROP (src/src/sql/ddl.rs)

    Over the tokens of [Lexer], giving the statements that [Statements] executes; the cursor
    is the list of tokens left.  [fmt_float] displays a float. *)

From Stdlib Require Import ZArith Lia Ascii String.
From stdpp Require Import prelude list numbers gmap.
From S2P Require Import Prelude Lexer Parser ExprEval Dml Statements.
Local Open Scope Z_scope.

Module DdlM.
Import LexerM ParserM ExprEvalM DmlM StatementsM.

(** What was expected, and the token found there if there was one. *)
Inductive DdlError := LexFailed (e : LexError) | Expected (what : text) (got : option Token) | UnknownType (n : text).
Abbreviation readsD A := (result DdlError (A * list Token)).

Definition expected {A} (what : text) (ts : list Token) : result DdlError A := Err (Expected what (head ts)).

Definition keyword (k : text) (ts : list Token) : result DdlError (list Token) :=
  match ts with
  | Keyword k' :: rest => if text_eqb k' k then Ok rest else expected k ts
  | _ => expected k ts
  end.
Definition is_keyword (k : text) (ts : list Token) : bool :=
  match ts with Keyword k' :: _ => text_eqb k' k | _ => false end.
Definition ident (what : text) (ts : list Token) : readsD text :=
  match ts with Ident s :: rest => Ok (s, rest) | _ => expected what ts end.
Definition any_name (what : text) (ts : list Token) : readsD text :=
  match ts with Ident s :: rest | Keyword s :: rest => Ok (s, rest) | _ => expected what ts end.
Definition punct (t : Token) (ts : list Token) : result DdlError (list Token) :=
  match ts with t' :: rest => if bool_decide (t' = t) then Ok rest else expected (K "punctuation") ts | [] => expected (K "punctuation") ts end.

(** [IF EXISTS], [IF NOT EXISTS]. *)
Definition if_exists (ts : list Token) : readsD bool :=
  if is_keyword (K "IF") ts then ts ← keyword (K "EXISTS") (drop 1 ts); Ok (true, ts) else Ok (false, ts).
Definition if_not_exists (ts : list Token) : readsD bool :=
  if is_keyword (K "IF") ts then ts ← keyword (K "NOT") (drop 1 ts); ts ← keyword (K "EXISTS") ts; Ok (true, ts) else Ok (false, ts).

(** The schema and the name. *)
Definition qualified_name (ts : list Token) : readsD (text * text) :=
  '(first, rest) ← any_name (K "table name") ts;
  match rest with
  | Op op :: rest' =>
    if text_eqb op (K ".") then '(n, rest) ← any_name (K "name after .") rest'; Ok ((first, n), rest)
    else Ok ((K "dbo", first), rest)
  | _ => Ok ((K "dbo", first), rest)
  end.

Section ddl.
Context (uni_alnum : Z → bool) (uni_upper : Z → list Z) (fmt_float : text → text).

(** ** Types *)
Definition number (what : text) (ts : list Token) : readsD Z :=
  match ts with Int n :: rest => Ok (wrap_u 32 n, rest) | _ => expected what ts end.

(** [(length)] or [(precision, scale)]. *)
Definition type_params (ts : list Token) : readsD (option Z * option Z) :=
  match ts with
  | LParen :: ts =>
    '(len1, ts) ← number (K "number") ts;
    '(len2, ts) ← match ts with
                  | Comma :: ts => '(n, ts) ← number (K "scale") ts; Ok (Some n, ts)
                  | _ => Ok (None, ts)
                  end;
    ts ← punct RParen ts;
    Ok ((Some len1, len2), ts)
  | _ => Ok ((None, None), ts)
  end.

Definition type_names : list (text * (option Z → option Z → ColumnType)) := [
  (K "INT", λ _ _, TInt); (K "INTEGER", λ _ _, TInt); (K "BIGINT", λ _ _, TBigInt); (K "SMALLINT", λ _ _, TSmallInt);
  (K "TINYINT", λ _ _, TTinyInt); (K "VARCHAR", λ n _, TVarchar n); (K "NVARCHAR", λ n _, TNvarchar n); (K "TEXT", λ _ _, TText);
  (K "FLOAT", λ _ _, TFloat); (K "DOUBLE", λ _ _, TFloat); (K "REAL", λ _ _, TReal); (K "DECIMAL", TDecimal); (K "NUMERIC", TNumeric);
  (K "BIT", λ _ _, TBit); (K "BOOLEAN", λ _ _, TBoolean); (K "BOOL", λ _ _, TBoolean); (K "DATE", λ _ _, TDate);
  (K "TIMESTAMP", λ _ _, TTimestamp); (K "DATETIME2", λ _ _, TTimestamp); (K "DATETIME", λ _ _, TTimestamp); (K "JSON", λ _ _, TJson);
  (K "UUID", λ _ _, TUuid); (K "BYTEA", λ _ _, TBytea); (K "BINARY", λ _ _, TBytea); (K "VARBINARY", λ _ _, TBytea);
  (K "ARRAY", λ _ _, TArray TText); (K "ENUM", λ _ _, TEnum [K "placeholder"])].

Fixpoint type_named (n : text) (l : list (text * (option Z → option Z → ColumnType))) : option (option Z → option Z → ColumnType) :=
  match l with [] => None | (m, f) :: l => if text_eqb m n then Some f else type_named n l end.

Definition parse_type (ts : list Token) : readsD ColumnType :=
  '(n, ts) ← match ts with
             | Keyword k :: ts => Ok (k, ts)
             | Ident s :: ts => Ok (to_uppercase uni_upper s, ts)
             | _ => expected (K "type") ts
             end;
  '((len1, len2), ts) ← type_params ts;
  match type_named n type_names with
  | Some f => Ok (f len1 len2, ts)
  | None => Err (UnknownType n)
  end.

(** ** Columns *)
Definition token_to_literal (ts : list Token) : readsD text :=
  match ts with
  | Int n :: ts => Ok (fmt_i64 n, ts)
  | Float f :: ts => Ok (fmt_float f, ts)
  | Str s :: ts => Ok (quoted s, ts)
  | Keyword k :: ts' => if text_eqb k (K "NULL") then Ok (K "NULL", ts') else expected (K "default value") ts
  | _ => expected (K "default value") ts
  end.

Fixpoint skip_paren (ts : list Token) : list Token :=
  match ts with [] => [] | RParen :: ts => ts | _ :: ts => skip_paren ts end.

(** The table, and the column in parentheses or [id]. *)
Definition reference (ts : list Token) : readsD (text * text) :=
  '((_, t), ts) ← qualified_name ts;
  match ts with
  | LParen :: ts => '(c, ts) ← ident (K "column") ts; ts ← punct RParen ts; Ok ((t, c), ts)
  | _ => Ok ((t, K "id"), ts)
  end.

Definition set_not_null (c : ColumnDef) : ColumnDef :=
  mkCD (cd_name c) (cd_type c) true (cd_primary_key c) (cd_default c) (cd_identity c) (cd_references c).
Definition set_primary (c : ColumnDef) : ColumnDef :=
  mkCD (cd_name c) (cd_type c) true true (cd_default c) (cd_identity c) (cd_references c).
Definition set_default (d : text) (c : ColumnDef) : ColumnDef :=
  mkCD (cd_name c) (cd_type c) (cd_not_null c) (cd_primary_key c) (Some d) (cd_identity c) (cd_references c).
Definition set_identity (c : ColumnDef) : ColumnDef :=
  mkCD (cd_name c) (cd_type c) (cd_not_null c) (cd_primary_key c) (cd_default c) true (cd_references c).
Definition set_references (r : text * text) (c : ColumnDef) : ColumnDef :=
  mkCD (cd_name c) (cd_type c) (cd_not_null c) (cd_primary_key c) (cd_default c) (cd_identity c) (Some r).

(** One constraint, known by its first token; a token that begins none is skipped. *)
Definition constraint (c : ColumnDef) (ts : list Token) : readsD ColumnDef :=
  if is_keyword (K "NOT") ts then ts ← keyword (K "NULL") (drop 1 ts); Ok (set_not_null c, ts)
  else if is_keyword (K "NULL") ts then Ok (c, drop 1 ts)
  else if is_keyword (K "PRIMARY") ts then ts ← keyword (K "KEY") (drop 1 ts); Ok (set_primary c, ts)
  else if is_keyword (K "DEFAULT") ts then '(d, ts) ← token_to_literal (drop 1 ts); Ok (set_default d c, ts)
  else if is_keyword (K "IDENTITY") ts then
    Ok (set_identity c, match drop 1 ts with LParen :: ts => skip_paren ts | ts => ts end)
  else if is_keyword (K "REFERENCES") ts then '(r, ts) ← reference (drop 1 ts); Ok (set_references r c, ts)
  else Ok (c, drop 1 ts).

Fixpoint constraints (fuel : nat) (c : ColumnDef) (ts : list Token) : option (readsD ColumnDef) :=
  match fuel with
  | O => None
  | S fuel =>
    match ts with
    | [] | Comma :: _ | RParen :: _ => Some (Ok (c, ts))
    | _ => match constraint c ts with
           | Ok (c, ts) => constraints fuel c ts
           | Err e => Some (Err e)
           end
    end
  end.

Definition parse_column_def (ts : list Token) : option (readsD ColumnDef) :=
  match ('(n, ts) ← ident (K "column name") ts; '(ty, ts) ← parse_type ts; Ok (mkCD n ty false false None false None, ts)) with
  | Ok (c, ts) => constraints (S (length ts)) c ts
  | Err e => Some (Err e)
  end.

(** Definitions up to the closing parenthesis; a comma may come before it. *)
Fixpoint column_defs (fuel : nat) (ts : list Token) : option (readsD (list ColumnDef)) :=
  match fuel with
  | O => None
  | S fuel =>
    match ts with
    | [] => Some (expected (K "column list") ts)
    | RParen :: ts => Some (Ok ([], ts))
    | _ =>
      r ← parse_column_def ts;
      match r with
      | Err e => Some (Err e)
      | Ok (c, Comma :: ts) => r ← column_defs fuel ts; Some ('(cs, ts) ← r; Ok (c :: cs, ts))
      | Ok (c, RParen :: ts) => Some (Ok ([c], ts))
      | Ok (_, ts) => Some (expected (K ", or )") ts)
      end
    end
  end.

(** ** Statements *)
Definition parse_create_table (ts : list Token) : option (result DdlError CreateTable) :=
  match ('(b, ts) ← if_not_exists ts; '((s, n), ts) ← qualified_name ts; ts ← punct LParen ts; Ok ((b, s, n), ts)) with
  | Err e => Some (Err e)
  | Ok ((b, s, n), ts) => r ← column_defs (S (length ts)) ts; Some ('(cs, _) ← r; Ok (mkCT s n cs b))
  end.

Definition parse_drop_table (ts : list Token) : result DdlError DropTable :=
  '(b, ts) ← if_exists ts; '((s, n), _) ← qualified_name ts; Ok (mkDT s n b).

(** The schema of the table is read and dropped. *)
Definition parse_create_index (ts : list Token) : result DdlError CreateIndex :=
  '(b, ts) ← if_not_exists ts;
  '(i, ts) ← ident (K "index name") ts;
  ts ← keyword (K "ON") ts;
  '((_, t), ts) ← qualified_name ts;
  ts ← punct LParen ts;
  '(c, ts) ← ident (K "column name") ts;
  _ ← punct RParen ts;
  Ok (mkCI i t c b).

Definition parse_drop_index (ts : list Token) : result DdlError DropIndex :=
  '(b, ts) ← if_exists ts; '(i, _) ← any_name (K "index name") ts; Ok (mkDI i b).

Definition skip_column (ts : list Token) : list Token := if is_keyword (K "COLUMN") ts then drop 1 ts else ts.

Definition parse_alter_table (ts : list Token) : option (result DdlError AlterTable) :=
  match qualified_name ts with
  | Err e => Some (Err e)
  | Ok ((s, n), ts) =>
    if is_keyword (K "ADD") ts then
      r ← parse_column_def (skip_column (drop 1 ts)); Some ('(c, _) ← r; Ok (mkAT s n (AddColumn c)))
    else if is_keyword (K "DROP") ts then
      Some ('(c, _) ← ident (K "column name") (skip_column (drop 1 ts)); Ok (mkAT s n (DropColumn c)))
    else if is_keyword (K "ALTER") ts then
      Some ('(c, ts) ← ident (K "column name") (skip_column (drop 1 ts)); ts ← keyword (K "TYPE") ts;
            '(ty, _) ← parse_type ts; Ok (mkAT s n (AlterColumnType c ty)))
    else Some (expected (K "ADD / DROP / ALTER") ts)
  end.

Definition parse_create (ts : list Token) : option (result DdlError DdlStatement) :=
  if is_keyword (K "TABLE") ts then r ← parse_create_table (drop 1 ts); Some (ct ← r; Ok (Create ct))
  else if is_keyword (K "SCHEMA") ts then Some ('(n, _) ← ident (K "schema name") (drop 1 ts); Ok (CreateSchema n))
  else if is_keyword (K "INDEX") ts then Some (ci ← parse_create_index (drop 1 ts); Ok (CreateIdx ci))
  else Some (expected (K "TABLE, SCHEMA, or INDEX") ts).

Definition parse_drop (ts : list Token) : result DdlError DdlStatement :=
  if is_keyword (K "TABLE") ts then dt ← parse_drop_table (drop 1 ts); Ok (Drop dt)
  else if is_keyword (K "INDEX") ts then di ← parse_drop_index (drop 1 ts); Ok (DropIdx di)
  else expected (K "TABLE or INDEX") ts.

Definition parse_alter (ts : list Token) : option (result DdlError DdlStatement) :=
  if is_keyword (K "TABLE") ts then r ← parse_alter_table (drop 1 ts); Some (at_ ← r; Ok (Alter at_))
  else Some (expected (K "TABLE") ts).

(** [None] inside: not a statement of this parser. *)
Definition parse_ddl_tokens (ts : list Token) : option (result DdlError (option DdlStatement)) :=
  let some (r : result DdlError DdlStatement) := d ← r; Ok (Some d) in
  if is_keyword (K "CREATE") ts then r ← parse_create (drop 1 ts); Some (some r)
  else if is_keyword (K "DROP") ts then Some (some (parse_drop (drop 1 ts)))
  else if is_keyword (K "ALTER") ts then r ← parse_alter (drop 1 ts); Some (some r)
  else Some (Ok None).

Definition parse_ddl (sql : text) : option (result DdlError (option DdlStatement)) :=
  r ← tokenize uni_alnum uni_upper sql;
  match r with
  | Err e => Some (Err (LexFailed e))
  | Ok ts => parse_ddl_tokens ts
  end.

(** ** Termination *)

(** What reading leaves is no longer than what it was given. *)
Definition shrinks {A} (ts : list Token) (r : readsD A) : Prop := ∀ a rest, r = Ok (a, rest) → (length rest <= length ts)%nat.

Ltac shrink := unfold shrinks; intros; repeat (simplify_eq/= || case_match || (unfold mbind, result_bind, expected in *)); simpl; try lia.

Lemma keyword_shrinks k ts rest : keyword k ts = Ok rest → (length rest < length ts)%nat.
Proof. unfold keyword. shrink. Qed.
Lemma punct_shrinks t ts rest : punct t ts = Ok rest → (length rest < length ts)%nat.
Proof. unfold punct. shrink. Qed.
Lemma ident_shrinks w ts : shrinks ts (ident w ts).
Proof. unfold ident. shrink. Qed.
Lemma any_name_shrinks w ts : shrinks ts (any_name w ts).
Proof. unfold any_name. shrink. Qed.

Lemma qualified_name_shrinks ts : shrinks ts (qualified_name ts).
Proof.
  intros a rest. unfold qualified_name. destruct (any_name _ ts) as [[f ts1]|] eqn:E; [|done]. apply any_name_shrinks in E. cbn [mbind result_bind].
  destruct ts1 as [|[] ts1]; try (intros [= _ <-]; simpl in *; lia). destruct (text_eqb _ _); [|intros [= _ <-]; simpl in *; lia].
  destruct (any_name _ ts1) as [[n ts2]|] eqn:E2; [|done]. apply any_name_shrinks in E2. intros [= _ <-]. simpl in *; lia.
Qed.

Lemma skip_paren_shrinks ts : (length (skip_paren ts) <= length ts)%nat.
Proof. induction ts as [|[] ts IH]; simpl; lia. Qed.

Lemma reference_shrinks ts : shrinks ts (reference ts).
Proof.
  intros a rest. unfold reference. destruct (qualified_name ts) as [[[x t] ts1]|] eqn:E; [|done]. apply qualified_name_shrinks in E. cbn [mbind result_bind].
  destruct ts1 as [|[] ts1]; try (intros [= _ <-]; simpl in *; lia). destruct (ident _ ts1) as [[c ts2]|] eqn:E2; [|done]. apply ident_shrinks in E2.
  cbn [mbind result_bind]. destruct (punct _ ts2) as [ts3|] eqn:E3; [|done]. apply punct_shrinks in E3. intros [= _ <-]. simpl in *; lia.
Qed.

Lemma literal_shrinks ts : shrinks ts (token_to_literal ts).
Proof. unfold token_to_literal. shrink. Qed.

Lemma constraint_shrinks c t ts c' rest : constraint c (t :: ts) = Ok (c', rest) → (length rest <= length ts)%nat.
Proof.
  unfold constraint. change (drop 1 (t :: ts)) with ts.
  destruct (is_keyword (K "NOT") _). { destruct (keyword _ ts) eqn:E; [|done]. apply keyword_shrinks in E. intros [= _ <-]. lia. }
  destruct (is_keyword (K "NULL") _); [by intros [= _ <-]|].
  destruct (is_keyword (K "PRIMARY") _). { destruct (keyword _ ts) eqn:E; [|done]. apply keyword_shrinks in E. intros [= _ <-]. lia. }
  destruct (is_keyword (K "DEFAULT") _). { destruct (token_to_literal ts) as [[d ts']|] eqn:E; [|done]. apply literal_shrinks in E. by intros [= _ <-]. }
  destruct (is_keyword (K "IDENTITY") _). { intros [= _ <-]. destruct ts as [|[] ts]; try done. pose proof (skip_paren_shrinks ts). simpl. lia. }
  destruct (is_keyword (K "REFERENCES") _). { destruct (reference ts) as [[r ts']|] eqn:E; [|done]. apply reference_shrinks in E. by intros [= _ <-]. }
  by intros [= _ <-].
Qed.

Lemma constraints_total fuel c ts : (length ts < fuel)%nat → ∃ r, constraints fuel c ts = Some r ∧ shrinks ts r.
Proof.
  revert c ts. induction fuel as [|fuel IH]; intros c ts Hf; [lia|]. cbn [constraints].
  destruct ts as [|t ts]; [eexists; split; [done|by intros ? ? [= _ <-]]|].
  assert (∃ r, match constraint c (t :: ts) with Ok (c, ts) => constraints fuel c ts | Err e => Some (Err e) end = Some r ∧ shrinks (t :: ts) r) as H.
  { destruct (constraint c (t :: ts)) as [[c' ts']|e] eqn:E; [|by eexists]. apply constraint_shrinks in E.
    destruct (IH c' ts') as (r & Hr & Hs); [simpl in *; lia|]. exists r. split; [done|]. intros a rest Ha. apply Hs in Ha. simpl. lia. }
  destruct t; try exact H; eexists; (split; [done|by intros ? ? [= _ <-]]).
Qed.

Lemma type_shrinks ts : shrinks ts (parse_type ts).
Proof.
  intros a rest. unfold parse_type. destruct ts as [|t ts]; [done|].
  assert (∀ ts1, shrinks ts1 (type_params ts1)) as Hp.
  { intros ts1 b r. unfold type_params, number. destruct ts1 as [|[] ts1]; try (by intros [= _ <-]).
    destruct ts1 as [|[] [|[] ts1]]; try done; cbn [mbind result_bind].
    - destruct (punct _ _) as [r'|] eqn:E; [|done]. apply punct_shrinks in E. intros [= _ <-]. simpl in *. lia.
    - destruct ts1 as [|[] ts1]; try done. cbn [mbind result_bind]. destruct (punct _ ts1) as [r'|] eqn:E; [|done].
      apply punct_shrinks in E. intros [= _ <-]. simpl in *. lia. }
  destruct t; try done; cbn [mbind result_bind]; destruct (type_params ts) as [[[l1 l2] ts2]|] eqn:E; try done; apply Hp in E;
    cbn [mbind result_bind]; (destruct (type_named _ _); [|done]); intros [= _ <-]; simpl; lia.
Qed.

Lemma column_def_total ts : ∃ r, parse_column_def ts = Some r ∧ ∀ c rest, r = Ok (c, rest) → (length rest < length ts)%nat.
Proof.
  unfold parse_column_def, ident. destruct ts as [|[] ts]; try (by eexists). cbn [mbind result_bind].
  destruct (parse_type ts) as [[ty ts1]|] eqn:E; [|by eexists]. apply type_shrinks in E. cbn [mbind result_bind].
  destruct (constraints_total (S (length ts1)) (mkCD s ty false false None false None) ts1) as (r & Hr & Hs); [lia|].
  exists r. split; [done|]. intros c rest H. apply Hs in H. simpl. lia.
Qed.

Lemma column_defs_total fuel ts : (length ts < fuel)%nat → ∃ r, column_defs fuel ts = Some r.
Proof.
  revert ts. induction fuel as [|fuel IH]; intros ts Hf; [lia|]. cbn [column_defs].
  destruct (column_def_total ts) as (r & Hr & Hs). rewrite Hr. destruct ts as [|t ts]; [by eexists|].
  assert (∃ r', (r0 ← Some r; match r0 with
      | Err e => Some (Err e)
      | Ok (c, Comma :: ts) => r ← column_defs fuel ts; Some ('(cs, ts) ← r; Ok (c :: cs, ts))
      | Ok (c, RParen :: ts) => Some (Ok ([c], ts))
      | Ok (_, ts) => Some (expected (K ", or )") ts) end) = Some r') as H.
  { cbn [mbind option_bind]. destruct r as [[c [|[] rest]]|e]; try (by eexists). specialize (Hs c (Comma :: rest) eq_refl).
    destruct (IH rest) as [r' ->]; [simpl in *; lia|]. by eexists. }
  destruct t; try exact H; by eexists.
Qed.

(** The parser returns on every text. *)
Lemma parse_ddl_total sql : ∃ r, parse_ddl sql = Some r.
Proof.
  unfold parse_ddl. pose proof (tokenize_total uni_alnum uni_upper sql) as H.
  destruct (tokenize uni_alnum uni_upper sql) as [[ts|e]|]; [|by eexists|by destruct H as [(? & ? & ?)|[? ?]]]. cbn [mbind option_bind].
  unfold parse_ddl_tokens. destruct (is_keyword (K "CREATE") ts).
  { unfold parse_create. destruct (is_keyword (K "TABLE") _); [|destruct (is_keyword (K "SCHEMA") _); [by eexists|destruct (is_keyword (K "INDEX") _); by eexists]].
    unfold parse_create_table. match goal with |- context [match ?r with Ok _ => _ | Err _ => _ end] => destruct r as [[[[b s] n] ts']|e] end; [|by eexists].
    destruct (column_defs_total (S (length ts')) ts') as [r ->]; [lia|]. by eexists. }
  destruct (is_keyword (K "DROP") ts); [by eexists|]. destruct (is_keyword (K "ALTER") ts); [|by eexists].
  unfold parse_alter. destruct (is_keyword (K "TABLE") _); [|by eexists]. unfold parse_alter_table. destruct (qualified_name _) as [[[s n] ts']|]; [|by eexists].
  destruct (is_keyword (K "ADD") ts'); [destruct (column_def_total (skip_column (drop 1 ts'))) as (r & -> & _); by eexists|].
  destruct (is_keyword (K "DROP") ts'); [by eexists|]. destruct (is_keyword (K "ALTER") ts'); by eexists.
Qed.

(** ** Printing statements *)

(** A constraint of a column, as it is written. *)
Inductive written :=
| WNotNull | WNull | WPrimary | WDefault (t : Token) | WIdentity (args : option (Z * Z))
| WReferences (schema : option text) (t : text) (c : option text).

Definition of_constraint (w : written) : list Token :=
  match w with
  | WNotNull => [Keyword (K "NOT"); Keyword (K "NULL")]
  | WNull => [Keyword (K "NULL")]
  | WPrimary => [Keyword (K "PRIMARY"); Keyword (K "KEY")]
  | WDefault t => [Keyword (K "DEFAULT"); t]
  | WIdentity None => [Keyword (K "IDENTITY")]
  | WIdentity (Some (a, b)) => [Keyword (K "IDENTITY"); LParen; Int a; Comma; Int b; RParen]
  | WReferences s t None => Keyword (K "REFERENCES") :: name_tokens s t
  | WReferences s t (Some c) => Keyword (K "REFERENCES") :: name_tokens s t ++ [LParen; Ident c; RParen]
  end.

(** What it adds to the definition of the column. *)
Definition effect (w : written) (c : ColumnDef) : ColumnDef :=
  let '(mkCD n ty nn pk d i r) := c in
  match w with
  | WNotNull => mkCD n ty true pk d i r
  | WNull => c
  | WPrimary => mkCD n ty true true d i r
  | WDefault t => mkCD n ty nn pk (Some (part fmt_float t)) i r
  | WIdentity _ => mkCD n ty nn pk d true r
  | WReferences _ t col => mkCD n ty nn pk d i (Some (t, default (K "id") col))
  end.

Definition is_default (t : Token) : bool :=
  match t with Int _ | Float _ | Str _ => true | Keyword k => text_eqb k (K "NULL") | _ => false end.
Definition constraint_wf (w : written) : Prop := match w with WDefault t => is_default t = true | _ => True end.

(** The types that are keywords, with their parameters. *)
Definition params (a b : option Z) : list Token :=
  match a, b with
  | Some a, Some b => [LParen; Int a; Comma; Int b; RParen]
  | Some a, None => [LParen; Int a; RParen]
  | None, _ => []
  end.
Definition of_type (ty : ColumnType) : option (list Token) :=
  match ty with
  | TInt => Some [Keyword (K "INT")] | TBigInt => Some [Keyword (K "BIGINT")] | TSmallInt => Some [Keyword (K "SMALLINT")]
  | TTinyInt => Some [Keyword (K "TINYINT")] | TVarchar n => Some (Keyword (K "VARCHAR") :: params n None)
  | TNvarchar n => Some (Keyword (K "NVARCHAR") :: params n None) | TText => Some [Keyword (K "TEXT")]
  | TFloat => Some [Keyword (K "FLOAT")] | TReal => Some [Keyword (K "REAL")]
  | TDecimal a b => Some (Keyword (K "DECIMAL") :: params a b) | TNumeric a b => Some (Keyword (K "NUMERIC") :: params a b)
  | TBoolean => Some [Keyword (K "BOOLEAN")] | TBit => Some [Keyword (K "BIT")] | TDate => Some [Keyword (K "DATE")]
  | TTimestamp => Some [Keyword (K "TIMESTAMP")] | TJson => Some [Keyword (K "JSON")] | TUuid => Some [Keyword (K "UUID")]
  | TBytea => Some [Keyword (K "BYTEA")] | TArray _ | TEnum _ => None
  end.
Definition small (n : option Z) : Prop := from_option (in_u 32) True n.
Definition params_ok (a b : option Z) : Prop := small a ∧ small b ∧ (a = None → b = None).
Definition type_wf (ty : ColumnType) : Prop :=
  is_Some (of_type ty) ∧ match ty with TVarchar n | TNvarchar n => small n | TDecimal a b | TNumeric a b => params_ok a b | _ => True end.

Record column := mkColumn { col_name : text; col_ty : ColumnType; col_rules : list written }.
Definition column_wf (c : column) : Prop := type_wf (col_ty c) ∧ Forall constraint_wf (col_rules c).
Definition of_column (c : column) : list Token :=
  Ident (col_name c) :: default [] (of_type (col_ty c)) ++ concat (of_constraint <$> col_rules c).
Definition column_means (c : column) : ColumnDef :=
  fold_left (λ d w, effect w d) (col_rules c) (mkCD (col_name c) (col_ty c) false false None false None).

Inductive ddl_statement :=
| PCreate (if_not : bool) (schema : option text) (n : text) (cs : list column)
| PDrop (if_ : bool) (schema : option text) (n : text)
| PSchema (n : text)
| PAdd (schema : option text) (n : text) (c : column)
| PDropColumn (schema : option text) (n c : text)
| PRetype (schema : option text) (n c : text) (ty : ColumnType)
| PIndex (if_not : bool) (i : text) (schema : option text) (n c : text)
| PDropIndex (if_ : bool) (i : text).

Definition in_schema (schema : option text) : text := default (K "dbo") schema.
Definition opt_if (b : bool) (ts : list Token) : list Token := if b then Keyword (K "IF") :: ts else [].

Definition print_ddl (s : ddl_statement) : list Token :=
  match s with
  | PCreate b sc n cs =>
    [Keyword (K "CREATE"); Keyword (K "TABLE")] ++ opt_if b [Keyword (K "NOT"); Keyword (K "EXISTS")] ++ name_tokens sc n ++
    LParen :: between Comma (of_column <$> cs) ++ [RParen]
  | PDrop b sc n => [Keyword (K "DROP"); Keyword (K "TABLE")] ++ opt_if b [Keyword (K "EXISTS")] ++ name_tokens sc n
  | PSchema n => [Keyword (K "CREATE"); Keyword (K "SCHEMA"); Ident n]
  | PAdd sc n c => [Keyword (K "ALTER"); Keyword (K "TABLE")] ++ name_tokens sc n ++ [Keyword (K "ADD"); Keyword (K "COLUMN")] ++ of_column c
  | PDropColumn sc n c => [Keyword (K "ALTER"); Keyword (K "TABLE")] ++ name_tokens sc n ++ [Keyword (K "DROP"); Keyword (K "COLUMN"); Ident c]
  | PRetype sc n c ty =>
    [Keyword (K "ALTER"); Keyword (K "TABLE")] ++ name_tokens sc n ++
    [Keyword (K "ALTER"); Keyword (K "COLUMN"); Ident c; Keyword (K "TYPE")] ++ default [] (of_type ty)
  | PIndex b i sc n c =>
    [Keyword (K "CREATE"); Keyword (K "INDEX")] ++ opt_if b [Keyword (K "NOT"); Keyword (K "EXISTS")] ++ Ident i :: Keyword (K "ON") :: name_tokens sc n ++
    [LParen; Ident c; RParen]
  | PDropIndex b i => [Keyword (K "DROP"); Keyword (K "INDEX")] ++ opt_if b [Keyword (K "EXISTS")] ++ [Ident i]
  end.

Definition ddl_means (s : ddl_statement) : DdlStatement :=
  match s with
  | PCreate b sc n cs => Create (mkCT (in_schema sc) n (column_means <$> cs) b)
  | PDrop b sc n => Drop (mkDT (in_schema sc) n b)
  | PSchema n => CreateSchema n
  | PAdd sc n c => Alter (mkAT (in_schema sc) n (AddColumn (column_means c)))
  | PDropColumn sc n c => Alter (mkAT (in_schema sc) n (DropColumn c))
  | PRetype sc n c ty => Alter (mkAT (in_schema sc) n (AlterColumnType c ty))
  | PIndex b i sc n c => CreateIdx (mkCI i n c b)
  | PDropIndex b i => DropIdx (mkDI i b)
  end.

Definition ddl_wf (s : ddl_statement) : Prop :=
  match s with
  | PCreate _ _ _ cs => Forall column_wf cs
  | PAdd _ _ c => column_wf c
  | PRetype _ _ _ ty => type_wf ty
  | _ => True
  end.

(** *** Reading back *)
Lemma name_tokens_read sc n rest : (∀ r, rest ≠ Op (K ".") :: r) → qualified_name (name_tokens sc n ++ rest) = Ok ((in_schema sc, n), rest).
Proof.
  intros H. destruct sc as [x|]; [done|]. unfold qualified_name. cbn. destruct rest as [|[] rest]; try done.
  unfold text_eqb. case_bool_decide; [|done]. subst. by destruct (H rest).
Qed.

(** The tokens that may come after a constraint: the next one, or the end of the column. *)
Definition follows (ts : list Token) : Prop := match ts with Keyword _ :: _ | Comma :: _ | RParen :: _ | EOF :: _ => True | _ => False end.
Lemma follows_constraint w rest : follows (of_constraint w ++ rest).
Proof. by destruct w as [| | | |[[]|]|? ? []]. Qed.
Lemma follows_rules ws rest : follows rest → follows (concat (of_constraint <$> ws) ++ rest).
Proof. destruct ws; [done|]. intros _. cbn [fmap list_fmap concat]. rewrite <- app_assoc. apply follows_constraint. Qed.

Lemma constraint_read w c rest : constraint_wf w → follows rest → constraint c (of_constraint w ++ rest) = Ok (effect w c, rest).
Proof.
  intros Hw Hf. destruct c. destruct w as [| | |t|[[a b]|]|s t [col|]]; try done.
  - destruct t; try done. cbn in Hw. unfold text_eqb in Hw. apply bool_decide_eq_true in Hw as ->. done.
  - by destruct rest as [|[] rest].
  - cbn [of_constraint app]. unfold constraint. change (drop 1 (?x :: ?y)) with y. cbn [is_keyword].
    change (text_eqb (K "REFERENCES") (K "NOT")) with false. cbv iota. rewrite <- app_assoc. unfold reference. rewrite name_tokens_read by done. done.
  - cbn [of_constraint app]. unfold constraint. change (drop 1 (?x :: ?y)) with y. unfold reference. rewrite name_tokens_read by (by destruct rest as [|[]]).
    by destruct rest as [|[] rest].
Qed.

(** Where a column ends: at a comma or parenthesis, or with the statement. *)
Inductive ends : list Token → list Token → Prop :=
| ends_comma ts : ends (Comma :: ts) (Comma :: ts)
| ends_paren ts : ends (RParen :: ts) (RParen :: ts)
| ends_eof : ends [EOF] [].
Lemma ends_follows ts rest : ends ts rest → follows ts.
Proof. by destruct 1. Qed.

Lemma constraints_read ws c ts rest fuel : Forall constraint_wf ws → ends ts rest → (length (concat (of_constraint <$> ws) ++ ts) < fuel)%nat →
  constraints fuel c (concat (of_constraint <$> ws) ++ ts) = Some (Ok (fold_left (λ d w, effect w d) ws c, rest)).
Proof.
  intros Hw He. revert c fuel. induction Hw as [|w ws Hw Hws IH]; intros c fuel Hf.
  - destruct fuel as [|fuel]; [simpl in Hf; lia|]. destruct He; [done..|]. destruct fuel; [simpl in Hf; lia|done].
  - destruct fuel as [|fuel]; [simpl in Hf; lia|]. cbn [fmap list_fmap concat] in *. rewrite <- app_assoc in *.
    assert (∃ k rest', of_constraint w = Keyword k :: rest') as (k & r & E) by (destruct w as [| | | |[[]|]|? ? []]; by eexists _, _).
    pose proof (constraint_read w c (concat (of_constraint <$> ws) ++ ts) Hw (follows_rules ws ts (ends_follows _ _ He))) as Hc.
    rewrite E in Hc, Hf |- *. cbn [constraints app] in Hc, Hf |- *. rewrite Hc. cbn [fold_left]. apply IH. simpl in Hf. rewrite length_app in Hf. lia.
Qed.

Lemma params_read a b ts : params_ok a b → (∀ r, ts ≠ LParen :: r) → type_params (params a b ++ ts) = Ok ((a, b), ts).
Proof.
  intros (Ha & Hb & Hn) Hts. destruct a as [a|]; [destruct b as [b|]|rewrite (Hn eq_refl)].
  - cbn. by rewrite !wrap_u_small by done.
  - cbn. by rewrite !wrap_u_small by done.
  - cbn. destruct ts as [|[] ts]; try done. by destruct (Hts ts).
Qed.

Lemma type_read ty ts : type_wf ty → (∀ r, ts ≠ LParen :: r) → parse_type (default [] (of_type ty) ++ ts) = Ok (ty, ts).
Proof.
  intros [[l Hl] Hp] Hts. assert (∀ k a b f ty, params_ok a b → type_named k type_names = Some f → f a b = ty →
    parse_type ((Keyword k :: params a b) ++ ts) = Ok (ty, ts)) as H.
  { intros k a b f ty' Hab Hf <-. unfold parse_type. cbn [app mbind result_bind]. rewrite params_read by done. cbn [mbind result_bind]. by rewrite Hf. }
  assert (params_ok None None) as Hnone by done.
  assert (∀ n, small n → params_ok n None) as Hone by done.
  destruct ty; cbn [of_type default] in Hl, Hp |- *; try done; 
    first [by eapply (H _ None None) | by eapply (H _ n None); [apply Hone| |] | by eapply (H _ p s)].
Qed.

Lemma column_read c ts rest : column_wf c → ends ts rest → parse_column_def (of_column c ++ ts) = Some (Ok (column_means c, rest)).
Proof.
  intros [Ht Hr] He. unfold parse_column_def, of_column. cbn [app ident mbind result_bind]. rewrite <- app_assoc.
  pose proof (follows_rules (col_rules c) ts (ends_follows _ _ He)) as Hf. rewrite type_read by (done || intros r E; by rewrite E in Hf).
  cbn [mbind result_bind]. by rewrite (constraints_read _ _ _ _ _ Hr He) by lia.
Qed.

Lemma column_defs_step fuel c ts : column_defs (S fuel) (of_column c ++ ts) =
  (r ← parse_column_def (of_column c ++ ts);
   match r with
   | Err e => Some (Err e)
   | Ok (c, Comma :: ts) => r ← column_defs fuel ts; Some ('(cs, ts) ← r; Ok (c :: cs, ts))
   | Ok (c, RParen :: ts) => Some (Ok ([c], ts))
   | Ok (_, ts) => Some (expected (K ", or )") ts)
   end).
Proof. done. Qed.

Lemma column_defs_read cs ts fuel : Forall column_wf cs → (length (between Comma (of_column <$> cs)) < fuel)%nat →
  column_defs fuel (between Comma (of_column <$> cs) ++ RParen :: ts) = Some (Ok (column_means <$> cs, ts)).
Proof.
  intros H. revert fuel. induction H as [|c cs Hc Hcs IH]; intros fuel Hf; (destruct fuel as [|fuel]; [simpl in Hf; lia|]); [done|].
  destruct cs as [|c' cs]; cbn [fmap list_fmap between] in *.
  - rewrite column_defs_step. rewrite (column_read c _ (RParen :: ts)) by (done || constructor). done.
  - rewrite <- app_assoc. cbn [app]. rewrite column_defs_step. rewrite (column_read c _ _ Hc (ends_comma _)). cbn [mbind option_bind].
    rewrite IH by (rewrite length_app in Hf; cbn [length] in Hf; lia). done.
Qed.

Lemma if_not_exists_read b ts : is_keyword (K "IF") ts = false → if_not_exists (opt_if b [Keyword (K "NOT"); Keyword (K "EXISTS")] ++ ts) = Ok (b, ts).
Proof. destruct b; [done|]. intros H. unfold if_not_exists. cbn [opt_if app]. by rewrite H. Qed.
Lemma if_exists_read b ts : is_keyword (K "IF") ts = false → if_exists (opt_if b [Keyword (K "EXISTS")] ++ ts) = Ok (b, ts).
Proof. destruct b; [done|]. intros H. unfold if_exists. cbn [opt_if app]. by rewrite H. Qed.
Lemma name_not_if sc n ts : is_keyword (K "IF") (name_tokens sc n ++ ts) = false.
Proof. by destruct sc. Qed.

(** Known keywords at the head of the tokens. *)
Ltac known :=
  repeat (cbv iota; match goal with
  | |- context [is_keyword ?k (Keyword ?k' :: ?l)] => let b := eval vm_compute in (text_eqb k' k) in change (is_keyword k (Keyword k' :: l)) with b
  | |- context [keyword ?k (Keyword ?k :: ?l)] => change (keyword k (Keyword k :: l)) with (Ok l : result DdlError (list Token))
  | |- context [drop 1 (?x :: ?y)] => change (drop 1 (x :: y)) with y
  | |- context [punct ?t (?t :: ?l)] => change (punct t (t :: l)) with (Ok l : result DdlError (list Token))
  end; cbn [mbind result_bind option_bind app]).

Lemma ddl_print_tokens s : ddl_wf s → parse_ddl_tokens (print_ddl s ++ [EOF]) = Some (Ok (Some (ddl_means s))).
Proof.
  destruct s as [b sc n cs|b sc n|n|sc n c|sc n c|sc n c ty|b i sc n c|b i]; cbn [ddl_wf]; intros Hwf;
    unfold parse_ddl_tokens, parse_create, parse_drop, parse_alter; cbn [print_ddl app]; known.
  - unfold parse_create_table. rewrite <- !app_assoc, if_not_exists_read by apply name_not_if. cbn [mbind result_bind].
    rewrite name_tokens_read by done. cbn [app mbind result_bind]. known. rewrite <- app_assoc. cbn [app].
    rewrite column_defs_read by (done || rewrite length_app; lia). done.
  - unfold parse_drop_table. rewrite <- !app_assoc, if_exists_read by apply name_not_if. cbn [mbind result_bind]. by rewrite name_tokens_read.
  - done.
  - unfold parse_alter_table. rewrite <- !app_assoc, name_tokens_read by done. cbn [app]. known. unfold skip_column. known.
    by rewrite (column_read c _ _ Hwf ends_eof).
  - unfold parse_alter_table. rewrite <- !app_assoc, name_tokens_read by done. cbn [app]. known. unfold skip_column. known. done.
  - unfold parse_alter_table. rewrite <- !app_assoc, name_tokens_read by done. cbn [app]. known. unfold skip_column. known.
    cbn [ident mbind result_bind]. known. by rewrite type_read.
  - unfold parse_create_index. rewrite <- !app_assoc, if_not_exists_read by done. cbn [app mbind result_bind ident]. known.
    rewrite <- app_assoc, name_tokens_read by done. done.
  - unfold parse_drop_index. rewrite <- !app_assoc, if_exists_read by done. done.
Qed.

(** CREATE, ALTER and DROP are read back.  Any statement of the grammar (columns with
    any list of constraints in any order, types with their parameters, schemas, IF [NOT]
    EXISTS), written out with a space after each token, parses to the statement it
    stands for; and the parser returns on every text. *)
Theorem ddl_roundtrip (s : ddl_statement) (Hwf : ddl_wf s) (Htok : Forall (tok_wf uni_alnum uni_upper) (print_ddl s)) :
  parse_ddl (render_all (print_ddl s)) = Some (Ok (Some (ddl_means s))) ∧ ∀ sql, ∃ r, parse_ddl sql = Some r.
Proof.
  split; [|apply parse_ddl_total]. unfold parse_ddl, tokenize. rewrite (lex_loop_render uni_alnum uni_upper) by (done || lia).
  cbn [mbind option_bind]. by apply ddl_print_tokens.
Qed.
End ddl.

(** [CREATE TABLE IF NOT EXISTS hr.emp (id INT PRIMARY KEY, name VARCHAR(20) DEFAULT 'x' NOT NULL, boss INT REFERENCES emp)]. *)
Definition demo_create : ddl_statement :=
  PCreate true (Some (K "hr")) (K "emp")
    [mkColumn (K "id") TInt [WPrimary]; mkColumn (K "name") (TVarchar (Some 20)) [WDefault (Str (K "x")); WNotNull];
     mkColumn (K "boss") TInt [WReferences None (K "emp") None]].

Lemma ddl_roundtrip_witness :
  parse_ddl (λ _, true) (λ c, [c]) id (render_all (print_ddl demo_create)) = Some (Ok (Some (Create (mkCT (K "hr") (K "emp")
    [mkCD (K "id") TInt true true None false None; mkCD (K "name") (TVarchar (Some 20)) true false (Some (K "'x'")) false None;
     mkCD (K "boss") TInt false false None false (Some (K "emp", K "id"))] true)))) ∧
  ∀ sql, ∃ r, parse_ddl (λ _, true) (λ c, [c]) id sql = Some r.
Proof.
  apply (ddl_roundtrip (λ _, true) (λ c, [c]) id demo_create).
  - repeat constructor; cbn; try done; by eexists.
  - unfold demo_create. cbn [print_ddl opt_if name_tokens between of_column col_name col_ty col_rules of_type default params of_constraint fmap list_fmap concat app].
    repeat (apply Forall_cons_2; [first [apply ident_wf; vm_compute; reflexivity | cbn [tok_wf]; first [exact I | lia | apply (bool_decide_unpack _); vm_compute; exact I]]|]).
    apply Forall_nil_2.
Defined.

(** A CHECK with parentheses ends the list of columns: the columns after it are silently
    left out.  And CREATE INDEX forgets the schema of its table. *)
Theorem check_ends_columns :
  let tokens := [Keyword (K "CREATE"); Keyword (K "TABLE"); Ident (K "t"); LParen; Ident (K "a"); Keyword (K "INT"); Ident (K "CHECK"); LParen;
                 Ident (K "a"); Op (K ">"); Int 0; RParen; Comma; Ident (K "b"); Keyword (K "INT"); RParen] in
  parse_ddl (λ _, true) (λ c, [c]) id (render_all tokens) =
    Some (Ok (Some (Create (mkCT (K "dbo") (K "t") [mkCD (K "a") TInt false false None false None] false)))) ∧
  parse_ddl (λ _, true) (λ c, [c]) id (render_all (print_ddl (PIndex false (K "i") (Some (K "hr")) (K "emp") (K "id")))) =
    Some (Ok (Some (CreateIdx (mkCI (K "i") (K "emp") (K "id") false)))).
Proof. by vm_compute. Qed.
End DdlM.
