(* ===== verification/Changes.v ===== *)
(** * Correctness of INSERT, UPDATE and DELETE (src/src/engine/mod.rs)

    Conditions with a meaning of their own, and what each statement does to the rows of
    the table, cell by cell. *)

From Stdlib Require Import ZArith Lia Ascii String Sorting.Sorted.
From stdpp Require Import prelude list numbers gmap.
From S2P Require Import Prelude Nulls Catalog Result Sorting Lexer StringColumn Parser Window Vectorized Parallel Dispatch.
From S2P Require Import Recovery Where Select IndexManager ExprEval Dml Temporal Statements.
Local Open Scope Z_scope.

Module ChangesM.
Import LexerM ParserM CatalogM VectorizedM DispatchM WhereM SelectM DmlM StatementsM.
Implicit Types t : Table.

(** ** Conditions *)
Inductive operand := OInt (n : Z) | OFloat (f : text) | OStr (s : text) | OHex (b : list Z) | ONull.
Record atom := mkAtom { at_name : text; at_cmp : cmp_op; at_operand : operand }.
(** A condition: an atom, and more atoms joined by AND ([true]) or OR, from left to right. *)
Record cond := mkCond { c_first : atom; c_more : list (bool * atom) }.

Definition operand_token (v : operand) : Token :=
  match v with OInt n => Int n | OFloat f => Float f | OStr s => Str s | OHex b => Hex b | ONull => Keyword (K "NULL") end.
Definition atom_tokens (a : atom) : list Token := [Ident (at_name a); Op (op_text (at_cmp a)); operand_token (at_operand a)].
Definition link (b : bool) : Token := Keyword (if b then K "AND" else K "OR").
Definition cond_tokens (c : cond) : list Token :=
  atom_tokens (c_first c) ++ concat ((λ '(b, a), link b :: atom_tokens a) <$> c_more c).

Section changes.
Context (uni_alnum : Z → bool) (uni_upper : Z → list Z) (fmt_float : text → text).
Context (xxh3_64 : list Z → Z) (float_bits : text → Z) (parse_f64 : text → option Z).
Abbreviation where_rows := (eval_simple_where uni_alnum uni_upper xxh3_64 float_bits parse_f64).
Abbreviation preds_of := (parse_preds xxh3_64 float_bits parse_f64).
Abbreviation value_cell := (parse_value_cell xxh3_64 parse_f64).

Definition operand_cell (v : operand) : Z :=
  match v with
  | OInt n => wrap_u 64 n | OFloat f => float_bits f | OStr s => xxh3_64 (as_bytes s) | OHex b => le_cell b | ONull => 0
  end.

(** Strings are compared where the column has strings, cells otherwise. *)
Definition atom_sat t (a : atom) (row : nat) : Prop :=
  ∃ i, column_idx (at_name a) t = Some i ∧
  match at_operand a, string_col t i with
  | OStr s, Some sc => ∃ x, StringColumnM.get sc row = Some x ∧ cmp_holds (at_cmp a) (str_cmp x (as_bytes s))
  | v, _ => ∃ x, cell t i row = Ok x ∧ cmp_holds (at_cmp a) (Z.compare x (operand_cell v))
  end.

Definition connect (b : bool) (P Q : Prop) : Prop := if b then P ∧ Q else P ∨ Q.
#[local] Instance connect_proper b : Proper (iff ==> iff ==> iff) (connect b).
Proof. intros P P' HP Q Q' HQ. unfold connect. destruct b; by rewrite HP, HQ. Qed.
Definition cond_sat t (c : cond) (row : nat) : Prop :=
  fold_left (λ P '(b, a), connect b P (atom_sat t a row)) (c_more c) (atom_sat t (c_first c) row).

Definition atom_ok t (a : atom) : Prop := is_Some (column_idx (at_name a) t).
Definition cond_ok t (c : cond) : Prop := atom_ok t (c_first c) ∧ Forall (λ ba : bool * atom, atom_ok t ba.2) (c_more c).

(** *** From text to predicates *)
Lemma compares_spec c o : compares (op_text c) o = true ↔ cmp_holds c o.
Proof. destruct c, o; vm_compute; intuition congruence. Qed.

Lemma trim_quoted s : trim (quoted s) = quoted s.
Proof.
  assert (reverse (quoted s) = quoted (reverse s)) as E by (unfold quoted; by rewrite reverse_cons, reverse_app).
  unfold trim. change (drop_white (quoted s)) with (quoted s). rewrite E.
  change (drop_white (quoted (reverse s))) with (quoted (reverse s)). by rewrite <- E, reverse_involutive.
Qed.

Lemma is_quoted_quoted s : is_quoted (quoted s) = true ∧ inner (quoted s) = s.
Proof.
  unfold is_quoted, inner, quoted. cbn [head drop length]. rewrite last_cons, last_snoc, length_app, Nat.add_1_r.
  split; [by rewrite !bool_decide_true by (done || lia)|]. replace (S (S (length s)) - 2)%nat with (length s) by lia. apply take_app_length.
Qed.

Lemma value_cell_quoted s : value_cell (quoted s) = Ok (xxh3_64 (as_bytes s)).
Proof.
  unfold parse_value_cell. rewrite trim_quoted. destruct (is_quoted_quoted s) as [-> ->].
  unfold text_eqb. by rewrite bool_decide_false.
Qed.

(** The predicate an atom is read as. *)
Definition atom_pred t (a : atom) (p : Pred) : Prop :=
  column_idx (at_name a) t = Some (p_col p) ∧ p_op p = op_text (at_cmp a) ∧
  match at_operand a, string_col t (p_col p) with
  | OStr s, Some _ => p_raw p = Some s
  | v, _ => p_raw p = None ∧ p_cell p = operand_cell v
  end.

Lemma make_pred_atom t a : atom_ok t a →
  ∃ p, make_pred xxh3_64 float_bits parse_f64 t (at_name a) (Op (op_text (at_cmp a))) (operand_token (at_operand a)) = Ok p ∧ atom_pred t a p.
Proof.
  intros [i Hi]. unfold make_pred. rewrite bool_decide_true by (destruct (at_cmp a); set_solver). rewrite Hi. cbn [or_fail mbind result_bind].
  assert (∃ c r, literal_of xxh3_64 float_bits parse_f64 t i (operand_token (at_operand a)) = Ok (c, r) ∧
    match at_operand a, string_col t i with OStr s, Some _ => r = Some s | v, _ => r = None ∧ c = operand_cell v end) as (c & r & -> & Hr).
  { unfold literal_of, has_strings. destruct (at_operand a); cbn; try (eexists _, _; split; [done|by destruct (string_col t i)]).
    destruct (string_col t i); [by eexists _, _|]. rewrite value_cell_quoted. by eexists _, _. }
  cbn [mbind result_bind]. assert (∀ o, text_eqb (op_text o) (K "<>") = false) as -> by (by intros []).
  by eexists.
Qed.

Lemma preds_atom t a rest : preds_of t (atom_tokens a ++ rest) =
  (p ← make_pred xxh3_64 float_bits parse_f64 t (at_name a) (Op (op_text (at_cmp a))) (operand_token (at_operand a));
   '(ps, ops) ← preds_of t rest; Ok (p :: ps, ops)).
Proof. done. Qed.

Lemma preds_more t more : Forall (λ ba : bool * atom, atom_ok t ba.2) more →
  ∃ ps, preds_of t (concat ((λ '(b, a), link b :: atom_tokens a) <$> more)) = Ok (ps, more.*1) ∧
    Forall2 (λ ba p, atom_pred t ba.2 p) more ps.
Proof.
  induction 1 as [|[b a] more Ha Hm (ps & IH & Hps)]; [by exists []|]. destruct (make_pred_atom t a Ha) as (p & Hp & Hap).
  exists (p :: ps). split; [|by constructor]. cbn [fmap list_fmap concat app].
  assert (∀ rest, preds_of t (link b :: rest) = ('(ps, ops) ← preds_of t rest; Ok (ps, b :: ops))) as Hl by (by destruct b).
  rewrite Hl, preds_atom, Hp. cbn [mbind result_bind]. by rewrite IH.
Qed.

(** *** From predicates to rows *)

(** Every column has a name and a cell for each row, and a column with strings has at least
    that many: a DELETE leaves the strings where they were, so there may be more of them. *)
Record has_rows t : Prop := {
  hr_names : length (column_names t) = length (columns t);
  hr_cells : Forall (λ c, length c = row_count t) (columns t);
  hr_strings : ∀ i sc, string_col t i = Some sc → ∃ ss, sc = StringColumnM.new ss ∧ (row_count t <= length ss)%nat
}.

Lemma table_has_rows t : table_ok t → has_rows t.
Proof. intros [H1 H2 H3]. split; [done|done|]. intros i sc Hsc. destruct (H3 i sc Hsc) as (ss & -> & Hl). exists ss. by rewrite Hl. Qed.

Lemma column_of t n i : has_rows t → column_idx n t = Some i → ∃ col, columns t !! i = Some col ∧ length col = row_count t.
Proof.
  intros Ht Hi. assert (resolve_col_name n t = Ok i) as H%resolve_lt by (unfold resolve_col_name; by rewrite Hi).
  rewrite (hr_names _ Ht) in H. destruct (lookup_lt_is_Some_2 _ _ H) as [col Hc].
  exists col. split; [done|]. by apply (Forall_lookup_1 _ _ _ _ (hr_cells _ Ht) Hc).
Qed.

Lemma string_at t i sc row : has_rows t → string_col t i = Some sc → (row < row_count t)%nat → ∃ s, StringColumnM.get sc row = Some s.
Proof.
  intros Ht Hsc Hrow. destruct (hr_strings _ Ht i sc Hsc) as (ss & -> & Hlen).
  destruct (lookup_lt_is_Some_2 ss row) as [s Hs]; [lia|]. exists s. unfold StringColumnM.get. cbn [StringColumnM.strings StringColumnM.new]. by rewrite Hs.
Qed.

Lemma cell_lookup t i col row x : columns t !! i = Some col → cell t i row = Ok x ↔ col !! row = Some x.
Proof.
  intros Hc. unfold cell. rewrite Hc. cbn [mbind option_bind]. destruct (col !! row); cbn; split; congruence.
Qed.

Lemma pred_mask_cells t a p col : columns t !! p_col p = Some col → length col = row_count t → column_idx (at_name a) t = Some (p_col p) →
  p_op p = op_text (at_cmp a) → p_raw p = None → p_cell p = operand_cell (at_operand a) →
  (∀ s sc, at_operand a = OStr s → string_col t (p_col p) ≠ Some sc) →
  ∃ m, pred_mask t p = Ok m ∧ flags (atom_sat t a) (seq 0 (row_count t)) m.
Proof.
  intros Hcol Hlen Hi Hop Hraw Hcell Hno. unfold pred_mask. rewrite Hcol, Hraw. cbn [or_panic mbind result_bind]. eexists. split; [done|].
  rewrite <- Hlen. apply flags_rows. intros row x Hx. rewrite Hop, Hcell, compares_spec. unfold atom_sat. split.
  - intros H. exists (p_col p). split; [done|].
    assert (∃ x, cell t (p_col p) row = Ok x ∧ cmp_holds (at_cmp a) (Z.compare x (operand_cell (at_operand a)))) as Hc
      by (exists x; split; [by apply (cell_lookup _ _ col)|done]).
    destruct (at_operand a); try exact Hc. destruct (string_col t (p_col p)) as [sc|] eqn:E; [by destruct (Hno s sc)|exact Hc].
  - intros (i & Hi' & H). rewrite Hi in Hi'. injection Hi' as <-.
    assert (∃ x, cell t (p_col p) row = Ok x ∧ cmp_holds (at_cmp a) (Z.compare x (operand_cell (at_operand a)))) as (y & Hy & Hc).
    { destruct (at_operand a); try exact H. destruct (string_col t (p_col p)) as [sc|] eqn:E; [by destruct (Hno s sc)|exact H]. }
    apply (cell_lookup _ _ col) in Hy; [|done]. congruence.
Qed.

Lemma pred_mask_strings t a p col s sc : has_rows t → columns t !! p_col p = Some col → column_idx (at_name a) t = Some (p_col p) →
  p_op p = op_text (at_cmp a) → p_raw p = Some s → at_operand a = OStr s → string_col t (p_col p) = Some sc →
  ∃ m, pred_mask t p = Ok m ∧ flags (atom_sat t a) (seq 0 (row_count t)) m.
Proof.
  intros Ht Hcol Hi Hop Hraw Hs Hsc. unfold pred_mask. rewrite Hcol, Hraw, Hsc. cbn [or_panic mbind result_bind].
  rewrite (mapM_run_ok _ (λ i, compares (p_op p) (str_cmp (default [] (StringColumnM.get sc i)) (as_bytes s)))).
  2: { intros i Hi'%elem_of_seq. destruct (string_at t _ sc i Ht Hsc ltac:(lia)) as [x Hx]. unfold get_str. by rewrite Hx. }
  eexists. split; [done|]. apply flags_fmap. intros row Hrow%elem_of_seq. rewrite Hop, compares_spec.
  destruct (string_at t _ sc row Ht Hsc ltac:(lia)) as [x Hx]. unfold atom_sat. rewrite Hs, Hx. cbn [default from_option id]. split.
  - intros H. exists (p_col p). split; [done|]. rewrite Hsc. by exists x.
  - intros (i & Hi' & H). rewrite Hi in Hi'. injection Hi' as <-. rewrite Hsc in H. destruct H as (y & Hy & H). congruence.
Qed.

Lemma pred_mask_spec t a p : has_rows t → atom_pred t a p →
  ∃ m, pred_mask t p = Ok m ∧ flags (atom_sat t a) (seq 0 (row_count t)) m.
Proof.
  intros Ht (Hi & Hop & Hv). destruct (column_of t _ _ Ht Hi) as (col & Hcol & Hlen).
  destruct (at_operand a) as [n|f|s|b|] eqn:Ha; try (destruct Hv as [Hr Hc]; apply (pred_mask_cells t a p col); by rewrite ?Ha).
  destruct (string_col t (p_col p)) as [sc|] eqn:Hsc; [by apply (pred_mask_strings t a p col s sc)|].
  destruct Hv as [Hr Hc]. apply (pred_mask_cells t a p col); rewrite ?Ha; congruence.
Qed.

Lemma combine_spec (P Q : nat → Prop) b n r m : flags P (seq 0 n) r → flags Q (seq 0 n) m →
  ∃ r', combine b n r m = Ok r' ∧ flags (λ row, connect b (P row) (Q row)) (seq 0 n) r'.
Proof.
  intros Hr Hm. pose proof (Forall2_length _ _ _ Hr) as Lr. pose proof (Forall2_length _ _ _ Hm) as Lm. rewrite length_seq in Lr, Lm.
  exists (zip_with (if b then andb else orb) r m). split.
  - unfold combine. rewrite (mapM_run_ok _ (λ j, (if b then andb else orb) (default false (r !! j)) (default false (m !! j)))).
    2: { intros j Hj%elem_of_seq. destruct (lookup_lt_is_Some_2 r j ltac:(lia)) as [x Hx]. destruct (lookup_lt_is_Some_2 m j ltac:(lia)) as [y Hy].
         rewrite Hx, Hy. by destruct b, x, y. }
    cbn [mbind result_bind]. rewrite (drop_ge r) by lia. rewrite app_nil_r. f_equal. apply list_eq. intros j.
    rewrite list_lookup_fmap, lookup_zip_with. destruct (decide (j < n)%nat) as [Hj|Hj].
    + rewrite lookup_seq_lt by lia. destruct (lookup_lt_is_Some_2 r j ltac:(lia)) as [x Hx]. destruct (lookup_lt_is_Some_2 m j ltac:(lia)) as [y Hy].
      rewrite Hx, Hy. cbn. by rewrite Hx, Hy.
    + rewrite lookup_seq_ge by lia. by rewrite (lookup_ge_None_2 r) by lia.
  - apply (flags_zip P Q); [|done|done]. intros x y row <- <-. destruct b; cbn; [apply andb_true_iff|apply orb_true_iff].
Qed.

Lemma combine_all_spec t n more : ∀ (P : nat → Prop) r ms, flags P (seq 0 n) r →
  Forall2 (λ (ba : bool * atom) m, flags (atom_sat t ba.2) (seq 0 n) m) more ms →
  ∃ r', combine_all n more.*1 r ms = Ok r' ∧ flags (λ row, fold_left (λ P '(b, a), connect b P (atom_sat t a row)) more (P row)) (seq 0 n) r'.
Proof.
  induction more as [|[b a] more IH]; intros P r ms Hr H; inversion H as [|? m ? ms' Hm Hms]; subst; [by exists r|].
  destruct (combine_spec P (atom_sat t a) b n r m Hr Hm) as (r1 & E1 & H1). destruct (IH _ r1 ms' H1 Hms) as (r2 & E2 & H2).
  exists r2. split; [|exact H2]. cbn [fmap list_fmap combine_all head default from_option id fst tail]. rewrite E1. exact E2.
Qed.

(** A condition, read from its text, selects the rows that satisfy it. *)
Lemma eval_where_spec t c : has_rows t → cond_ok t c → Forall (plain_token uni_alnum uni_upper fmt_float) (cond_tokens c) →
  ∃ m, where_rows t (parts fmt_float (cond_tokens c)) = Ok m ∧ flags (cond_sat t c) (seq 0 (row_count t)) m.
Proof.
  intros Ht [Hok Hmore] Hplain. unfold eval_simple_where. destruct (Nat.eqb_spec (row_count t) 0) as [->|Hn]; [exists []; by split; [|constructor]|].
  rewrite condition_reread by done.
  assert (filter (λ x, x ≠ EOF) (cond_tokens c ++ [EOF]) = cond_tokens c) as ->.
  { rewrite filter_app, (filter_none _ [EOF]) by (intros x ->%list_elem_of_singleton; tauto). rewrite app_nil_r. apply filter_all.
    intros x Hx ->. rewrite list.Forall_forall in Hplain. by destruct (Hplain _ Hx) as (_ & ? & _). }
  destruct (make_pred_atom t _ Hok) as (p & Hp & Hap). destruct (preds_more t _ Hmore) as (ps & Hps & Haps).
  assert (preds_of t (cond_tokens c) = Ok (p :: ps, (c_more c).*1)) as E
    by (unfold cond_tokens; rewrite preds_atom, Hp; cbn [mbind result_bind]; by rewrite Hps).
  change (cond_tokens c) with (Ident (at_name (c_first c)) :: tail (cond_tokens c)) at 1. cbv iota. rewrite E. cbn [mbind result_bind mapM_run].
  destruct (pred_mask_spec t _ p Ht Hap) as (m & -> & Hm). cbn [mbind result_bind].
  assert (∃ ms, mapM_run (pred_mask t) ps = Ok ms ∧ Forall2 (λ (ba : bool * atom) m, flags (atom_sat t ba.2) (seq 0 (row_count t)) m) (c_more c) ms)
    as (ms & -> & Hms).
  { clear -Haps Ht. induction Haps as [|[b a] p more ps Ha H (ms & IH & Hms)]; [by exists []|].
    destruct (pred_mask_spec t a p Ht Ha) as (m & E & Hm). exists (m :: ms). cbn [mapM_run]. rewrite E. cbn [mbind result_bind]. rewrite IH.
    by split; [|constructor]. }
  cbn [mbind result_bind]. exact (combine_all_spec t (row_count t) (c_more c) (atom_sat t (c_first c)) m ms Hm Hms).
Qed.

(** ** The rows of a mask *)
Definition rows_of (b : bool) (mask : list bool) : list nat := filter (λ i, mask !! i = Some b) (seq 0 (length mask)).

Lemma rows_sorted b mask : StronglySorted lt (rows_of b mask).
Proof. apply SortingM.filter_sorted, SortingM.seq_sorted. Qed.

Lemma rows_split mask : (length (rows_of true mask) + length (rows_of false mask) = length mask)%nat.
Proof.
  pose proof (Permutation_length (filter_app_complement (λ i, mask !! i = Some true) (seq 0 (length mask)))) as H.
  rewrite length_app, length_seq in H. etrans; [|exact H]. unfold rows_of. do 2 f_equal. apply filter_ext_elem. intros i Hi%elem_of_seq.
  destruct (lookup_lt_is_Some_2 mask i ltac:(lia)) as [[] ->]; intuition congruence.
Qed.

Lemma rows_flags (P : nat → Prop) n mask row : flags P (seq 0 n) mask →
  (row ∈ rows_of true mask ↔ (row < n)%nat ∧ P row) ∧ (row ∈ rows_of false mask ↔ (row < n)%nat ∧ ¬ P row).
Proof.
  intros Hf. pose proof (Forall2_length _ _ _ Hf) as Hl. rewrite length_seq in Hl. unfold rows_of. rewrite !list_elem_of_filter, !elem_of_seq, <- Hl.
  split; split.
  - intros [H ?]. split; [lia|]. apply (flags_lookup P n mask); [done|lia|done].
  - intros [H ?]. split; [by apply (flags_lookup P n mask)|lia].
  - intros [H ?]. split; [lia|]. intros HP. apply (flags_lookup P n mask) in HP; [congruence|done|lia].
  - intros [H HP]. split; [|lia]. destruct (lookup_lt_is_Some_2 mask row ltac:(lia)) as [[] E]; [|done].
    destruct HP. by apply (flags_lookup P n mask).
Qed.

Lemma true_rows_eq mask : true_rows mask = rows_of true mask.
Proof. done. Qed.

(** ** DELETE *)
Definition pick_cells (rows : list nat) (col : list Z) : list Z := (λ i, default 0 (col !! i)) <$> rows.

Lemma map_columns_ok f g cols : (∀ c, c ∈ cols → f c = Ok (g c)) → map_columns f cols = (Ok tt, g <$> cols).
Proof.
  induction cols as [|c cols IH]; intros H; [done|]. cbn [map_columns]. rewrite (H c) by set_solver. rewrite IH by set_solver. done.
Qed.

Lemma kept_ok mask col : length col = length mask → kept mask col = Ok (pick_cells (rows_of false mask) col).
Proof.
  intros Hl. apply mapM_run_ok. intros i [_ Hi%elem_of_seq]%list_elem_of_filter.
  destruct (lookup_lt_is_Some_2 col i ltac:(lia)) as [x Hx]. by rewrite Hx.
Qed.

Lemma pick_all_cells col n : length col = n → pick_cells (seq 0 n) col = col.
Proof.
  intros <-. unfold pick_cells. apply list_eq. intros i. rewrite list_lookup_fmap. destruct (col !! i) as [x|] eqn:E.
  - rewrite lookup_seq_lt by (by eapply lookup_lt_Some). cbn. by rewrite E.
  - rewrite lookup_seq_ge by (by apply lookup_ge_None_1). done.
Qed.

(** Nothing but the table [n] and its versions is touched. *)
Definition only_table (n : text) (e e' : QueryEngine) : Prop :=
  (∀ m, m ≠ n → catalog e' !! m = catalog e !! m ∧ temporals e' !! m = temporals e !! m) ∧
  index_manager e' = index_manager e ∧ txn_manager e' = txn_manager e ∧ savepoints e' = savepoints e.

Lemma with_table_ok {A} n (f : on_table A) e t r t' : catalog e !! n = Some t → f t = (r, t') →
  with_table n f e = (r, set_catalog (<[n := t']> (catalog e)) e).
Proof. intros Hc Hf. unfold with_table. by rewrite Hc, Hf. Qed.

Lemma set_catalog_id n t e : catalog e !! n = Some t → set_catalog (<[n := t]> (catalog e)) e = e.
Proof. intros H. rewrite insert_id by done. by destruct e. Qed.

Lemma remove_rows_ok t mask : Forall (λ c, length c = length mask) (columns t) → length mask = row_count t → Z.of_nat (row_count t) < 2 ^ 64 →
  remove_rows mask t = (Ok tt, set_row_count (length (rows_of false mask)) (set_columns (pick_cells (rows_of false mask) <$> columns t) t)).
Proof.
  intros Hc Hl Hn. unfold remove_rows. rewrite (map_columns_ok _ (pick_cells (rows_of false mask))).
  2: { rewrite list.Forall_forall in Hc. intros c Hin. by apply kept_ok, Hc. }
  pose proof (rows_split mask). rewrite true_rows_eq, wrap_u_small by (unfold in_u; lia).
  replace (Z.to_nat (Z.of_nat (row_count t) - Z.of_nat (length (rows_of true mask)))) with (length (rows_of false mask)) by lia. done.
Qed.

Lemma removed_has_rows t keep : has_rows t → (length keep <= row_count t)%nat →
  has_rows (set_row_count (length keep) (set_columns (pick_cells keep <$> columns t) t)).
Proof.
  intros [H1 H2 H3] Hk. split; cbn.
  - by rewrite length_fmap.
  - apply Forall_fmap, list.Forall_forall. intros c _. unfold pick_cells. cbn. by rewrite length_fmap.
  - intros i sc Hsc. destruct (H3 i sc Hsc) as (ss & -> & Hl). exists ss. split; [done|lia].
Qed.

(** C5: DELETE with a condition [column op literal AND|OR ...], read from left to right without
    precedence, keeps exactly the rows that do not satisfy it, in order and with their cells, and
    reports how many are gone; no other table is touched, and the result satisfies the table
    condition again. Conditions: fewer than 2^64 rows, a cell for each row, and in string columns
    at least a string for each row (there are more after an earlier DELETE); the columns exist;
    the literals survive being stored as text: no string with a quote, no number whose shortest
    form differs from its text (1.0 is stored as 1). A comparison uses the string at the row's
    position when the column has strings and the literal is a string, else the cell; NULL flags
    are not consulted. Strings and NULL flags stay where they were, so after the DELETE they
    belong to other rows (see [delete_shifts_strings]). *)
Theorem delete_correct (now : nat → Z) (n : text) (e : QueryEngine) t (c : cond) :
  catalog e !! n = Some t → has_rows t → cond_ok t c → Forall (plain_token uni_alnum uni_upper fmt_float) (cond_tokens c) →
  Z.of_nat (row_count t) < 2 ^ 64 →
  ∃ keep e' t', execute_delete uni_alnum uni_upper xxh3_64 float_bits parse_f64 now (mkDelete n (Some (parts fmt_float (cond_tokens c)))) e =
      (Ok (affected (row_count t - length keep)), e') ∧
    StronglySorted lt keep ∧ (∀ row, row ∈ keep ↔ (row < row_count t)%nat ∧ ¬ cond_sat t c row) ∧
    only_table n e e' ∧ catalog e' !! n = Some t' ∧
    row_count t' = length keep ∧ columns t' = pick_cells keep <$> columns t ∧ column_names t' = column_names t ∧
    string_columns t' = string_columns t ∧ null_bitmaps t' = null_bitmaps t ∧ has_rows t'.
Proof.
  intros Hc Ht Hok Hplain Hn. destruct (eval_where_spec t c Ht Hok Hplain) as (mask & Hm & Hf).
  pose proof (Forall2_length _ _ _ Hf) as Hl. rewrite length_seq in Hl. pose proof (rows_split mask) as Hsplit.
  exists (rows_of false mask). unfold execute_delete. cbn [del_table del_where].
  rewrite (stM_bind_ok _ _ e (mask, map (row_pk t) (true_rows mask)) e).
  2: { rewrite (with_table_ok n _ e t (Ok (mask, map (row_pk t) (true_rows mask))) t Hc).
       - by rewrite set_catalog_id.
       - rewrite (stM_bind_ok _ _ t t t) by done. rewrite (stM_bind_ok _ _ t mask t) by (unfold lift, where_mask; by rewrite Hm). done. }
  cbv beta iota. rewrite true_rows_eq.
  destruct (Nat.eqb_spec (length (rows_of true mask)) 0) as [E|E].
  - exists e, t. split; [cbn; unfold mret, stM_ret; do 3 f_equal; lia|]. split; [apply rows_sorted|]. split; [intros row; apply (rows_flags _ _ _ row Hf)|].
    split; [by split_and!|]. split; [done|]. split; [lia|]. split; [|by split_and!].
    assert (rows_of false mask = seq 0 (row_count t)) as ->.
    { rewrite Hl. unfold rows_of in *. apply filter_all. intros i Hi. apply length_zero_iff_nil in E.
      pose proof (proj1 (elem_of_seq _ _ _) Hi) as Hi'. destruct (lookup_lt_is_Some_2 mask i ltac:(lia)) as [[] Eb]; [|done].
      exfalso. apply (not_elem_of_nil i). rewrite <- E. apply list_elem_of_filter. by split. }
    symmetry. rewrite <- (list_fmap_id (columns t)) at 2. apply list_fmap_ext. intros k col Hcol. apply pick_all_cells.
    exact (Forall_lookup_1 _ _ _ _ (hr_cells _ Ht) Hcol).
  - set (tm := alter (fold_now now (λ pk now tt_, (TemporalM.delete (has_pk pk) now tt_).2) (map (row_pk t) (rows_of true mask))) n (temporals e)).
    rewrite (stM_bind_ok _ _ e tt (set_temporals tm e)) by done.
    assert (remove_rows mask t = (Ok tt, set_row_count (length (rows_of false mask)) (set_columns (pick_cells (rows_of false mask) <$> columns t) t))) as Hr.
    { apply remove_rows_ok; [|done|done]. rewrite <- Hl. apply (hr_cells _ Ht). }
    rewrite (stM_bind_ok _ _ _ tt _ (with_table_ok n _ (set_temporals tm e) t _ _ Hc Hr)).
    eexists _, _. split; [cbn; unfold mret, stM_ret; do 3 f_equal; lia|].
    split; [apply rows_sorted|]. split; [intros row; apply (rows_flags _ _ _ row Hf)|]. split.
    { split; [|done]. intros m Hne. cbn. rewrite lookup_insert_ne by done. split; [done|]. unfold tm. by rewrite lookup_alter_ne. }
    split; [cbn; apply lookup_insert_eq|]. repeat (split; [done|]). apply removed_has_rows; [done|lia].
Qed.

(** ** UPDATE *)

(** [t'] is [t] with the cells at column [i] and row [r] set as [f i r] says. *)
Record updated (f : nat → nat → option Assign) t t' : Prop := {
  up_name : CatalogM.name t' = CatalogM.name t;
  up_names : column_names t' = column_names t;
  up_count : row_count t' = row_count t;
  up_strings : string_columns t' = string_columns t;
  up_schema : schema t' = schema t;
  up_shape : length <$> columns t' = length <$> columns t;
  up_bitmaps : length (null_bitmaps t') = length (null_bitmaps t);
  up_cell i r : (i < length (columns t))%nat → (r < row_count t)%nat →
    cell t' i r = match f i r with Some a => Ok (a_val a) | None => cell t i r end;
  up_null i r : (i < length (columns t))%nat → (r < row_count t)%nat →
    is_cell_null_dispatch t' i r = match f i r with Some a => a_null a | None => is_cell_null_dispatch t i r end
}.

Lemma updated_refl t : updated (λ _ _, None) t t.
Proof. by split. Qed.

Lemma updated_trans f g t t' t'' : updated f t t' → updated g t' t'' →
  updated (λ i r, match g i r with Some a => Some a | None => f i r end) t t''.
Proof.
  intros H1 H2. assert (length (columns t') = length (columns t)) as Hl.
  { pose proof (f_equal length (up_shape _ _ _ H1)) as E. by rewrite !length_fmap in E. }
  split.
  - by rewrite (up_name _ _ _ H2), (up_name _ _ _ H1).
  - by rewrite (up_names _ _ _ H2), (up_names _ _ _ H1).
  - by rewrite (up_count _ _ _ H2), (up_count _ _ _ H1).
  - by rewrite (up_strings _ _ _ H2), (up_strings _ _ _ H1).
  - by rewrite (up_schema _ _ _ H2), (up_schema _ _ _ H1).
  - by rewrite (up_shape _ _ _ H2), (up_shape _ _ _ H1).
  - by rewrite (up_bitmaps _ _ _ H2), (up_bitmaps _ _ _ H1).
  - intros i r Hi Hr. rewrite (up_cell _ _ _ H2) by (rewrite ?Hl, ?(up_count _ _ _ H1); done).
    destruct (g i r); [done|]. by apply (up_cell _ _ _ H1).
  - intros i r Hi Hr. rewrite (up_null _ _ _ H2) by (rewrite ?Hl, ?(up_count _ _ _ H1); done).
    destruct (g i r); [done|]. by apply (up_null _ _ _ H1).
Qed.

Lemma updated_ext f g t t' : (∀ i r, f i r = g i r) → updated f t t' → updated g t t'.
Proof. intros E []. split; try done; intros i r; rewrite <- E; auto. Qed.

Lemma updated_ok f t t' : updated f t t' → has_rows t → has_rows t'.
Proof.
  intros H [H1 H2 H3]. assert (length (columns t') = length (columns t)) as Hl.
  { pose proof (f_equal length (up_shape _ _ _ H)) as E. by rewrite !length_fmap in E. }
  split.
  - by rewrite (up_names _ _ _ H), Hl.
  - rewrite (up_count _ _ _ H). apply (Forall_fmap length (λ n, n = row_count t)).
    rewrite (up_shape _ _ _ H). by apply Forall_fmap.
  - intros i sc. unfold string_col. rewrite (up_strings _ _ _ H), (up_count _ _ _ H). apply H3.
Qed.

Lemma set_bit_lookup (row r : nat) (b : bool) (l : list bool) : (row < length l)%nat →
  default false (<[row := b]> l !! r) = if decide (r = row) then b else default false (l !! r).
Proof.
  intros Hrow. case_decide as E; [subst; by rewrite list_lookup_insert_eq|]. by rewrite list_lookup_insert_ne by done.
Qed.

Lemma pad_lookup n bm r : default false (NullVec.bits (pad_bitmap n bm) !! r) = NullVec.is_null r bm.
Proof.
  unfold pad_bitmap, NullVec.is_null. cbn [NullVec.bits]. destruct (decide (r < length (NullVec.bits bm))%nat) as [H|H].
  - by rewrite lookup_app_l.
  - rewrite lookup_app_r by lia. rewrite (lookup_ge_None_2 (NullVec.bits bm)) by lia.
    destruct (replicate _ _ !! _) as [b|] eqn:E; [|done]. by apply lookup_replicate_1 in E as [-> _].
Qed.

Lemma assigned_null row b o r :
  from_option (NullVec.is_null r) false (assigned_bitmap row b o) = if decide (r = row) then b else from_option (NullVec.is_null r) false o.
Proof.
  assert (∀ bm, (row < length (NullVec.bits (pad_bitmap (S row) bm)))%nat) as Hlen
    by (intros bm; unfold pad_bitmap, NullVec.len; cbn [NullVec.bits]; rewrite length_app, length_replicate; lia).
  unfold assigned_bitmap. destruct b.
  - cbn [from_option]. unfold NullVec.is_null, NullVec.set_null. rewrite bool_decide_true by apply Hlen. cbn [NullVec.bits].
    rewrite set_bit_lookup by apply Hlen.
    destruct (decide (r = row)); [done|]. rewrite pad_lookup. destruct o as [bm|]; [done|]. cbn [default from_option]. unfold NullVec.is_null.
    rewrite pad_lookup. done.
  - destruct o as [bm|]; cbn [fmap option_fmap option_map from_option]; [|by case_decide].
    unfold NullVec.is_null, NullVec.set_non_null. rewrite bool_decide_true by apply Hlen. cbn [NullVec.bits].
    rewrite set_bit_lookup by apply Hlen.
    by destruct (decide (r = row)); [|rewrite pad_lookup].
Qed.

Lemma null_lookup t i r : is_cell_null_dispatch t i r = from_option (NullVec.is_null r) false (bitmap t i).
Proof. unfold is_cell_null_dispatch. by destruct (bitmap t i). Qed.

Lemma assign_cell_spec t row a : has_rows t → (a_col a < length (columns t))%nat → (length (columns t) <= length (null_bitmaps t))%nat →
  (row < row_count t)%nat →
  ∃ t', assign_cell row a t = (Ok tt, t') ∧ updated (λ i r, if decide (i = a_col a ∧ r = row) then Some a else None) t t'.
Proof.
  intros Ht Hi Hb Hrow. destruct (lookup_lt_is_Some_2 _ _ Hi) as [col Hcol].
  pose proof (Forall_lookup_1 _ _ _ _ (hr_cells _ Ht) Hcol) as Hlen. simpl in Hlen.
  unfold assign_cell. rewrite Hcol. rewrite (proj2 (Nat.ltb_lt _ _)) by lia. eexists. split; [done|].
  split; cbn [CatalogM.name column_names row_count string_columns schema columns null_bitmaps set_bitmaps set_columns]; try done.
  - rewrite list_fmap_insert, length_insert. apply list_insert_id. by rewrite list_lookup_fmap, Hcol.
  - by rewrite length_alter.
  - intros i r Hi' Hr. unfold cell. cbn [columns set_bitmaps set_columns]. destruct (decide (i = a_col a)) as [->|Hne].
    + rewrite list_lookup_insert_eq by done. rewrite Hcol. cbn [mbind option_bind]. destruct (decide (r = row)) as [->|Hne].
      * rewrite decide_True by done. by rewrite list_lookup_insert_eq by lia.
      * rewrite decide_False by tauto. by rewrite list_lookup_insert_ne by done.
    + rewrite list_lookup_insert_ne by done. by rewrite decide_False by tauto.
  - intros i r Hi' Hr. rewrite !null_lookup. unfold bitmap. cbn [null_bitmaps set_bitmaps].
    destruct (decide (i = a_col a)) as [->|Hne].
    + rewrite list_lookup_alter_eq. destruct (lookup_lt_is_Some_2 (null_bitmaps t) (a_col a)) as [o Ho]; [lia|]. rewrite Ho. cbn.
      change (match ?x with Some a => Some a | None => None end) with x. unfold mjoin, option_join. rewrite assigned_null.
      destruct (decide (r = row)); [by rewrite decide_True by done|by rewrite decide_False by tauto].
    + rewrite list_lookup_alter_ne by done. by rewrite decide_False by tauto.
Qed.

(** Of several assignments to a column the last one counts. *)
Definition last_assign (assigns : list Assign) (i : nat) : option Assign := last (filter (λ a, a_col a = i) assigns).

(** What both loops need of the table, and keep. *)
Definition assignable t : Prop := has_rows t ∧ (length (columns t) <= length (null_bitmaps t))%nat.

Lemma updated_assignable f t t' : updated f t t' → assignable t → assignable t'.
Proof.
  intros H [Ht Hb]. split; [by apply (updated_ok f t)|]. rewrite (up_bitmaps _ _ _ H).
  pose proof (f_equal length (up_shape _ _ _ H)) as E. rewrite !length_fmap in E. by rewrite E.
Qed.

Lemma updated_width f t t' : updated f t t' → length (columns t') = length (columns t).
Proof. intros H. pose proof (f_equal length (up_shape _ _ _ H)) as E. by rewrite !length_fmap in E. Qed.

Lemma for_each_updated {A} (f : A → nat → nat → option Assign) (work : A → on_table ()) (good : Table → Prop) (l : list A) t :
  (∀ f t t', updated f t t' → good t → good t') → good t →
  (∀ x t, x ∈ l → good t → ∃ t', work x t = (Ok tt, t') ∧ updated (f x) t t') →
  ∃ t', for_each l work t = (Ok tt, t') ∧
    updated (λ i r, fold_left (λ o x, match f x i r with Some a => Some a | None => o end) l None) t t'.
Proof.
  intros Hkeep. induction l as [|x l IH] using rev_ind; intros Hgood Hwork; [exists t; by split; [|apply updated_refl]|].
  destruct IH as (t1 & E1 & H1); [done|intros y t' Hy; apply Hwork; set_solver|].
  destruct (Hwork x t1) as (t2 & E2 & H2); [set_solver|by eapply Hkeep|]. exists t2. split.
  - assert (∀ l t t1, for_each l work t = (Ok tt, t1) → for_each (l ++ [x]) work t = work x t1) as Hsnoc.
    { clear. induction l as [|y l IH]; intros t t1; cbn [for_each app].
      - intros [= ->]. unfold mbind, stM_bind. destruct (work x t1) as [[[]|e] t2]; done.
      - unfold mbind, stM_bind. destruct (work y t) as [[[]|e] t2]; [apply IH|done]. }
    by rewrite (Hsnoc _ _ _ E1).
  - eapply updated_ext; [|exact (updated_trans _ _ _ _ _ H1 H2)]. intros i r. cbn beta. by rewrite fold_left_app.
Qed.

Lemma assign_row_spec t row assigns : assignable t → Forall (λ a, a_col a < length (columns t))%nat assigns → (row < row_count t)%nat →
  ∃ t', for_each assigns (assign_cell row) t = (Ok tt, t') ∧ updated (λ i r, if decide (r = row) then last_assign assigns i else None) t t'.
Proof.
  intros Ht Ha Hrow. set (w := length (columns t)) in *. set (n := row_count t) in *.
  destruct (for_each_updated (λ a i r, if decide (i = a_col a ∧ r = row) then Some a else None) (assign_cell row)
    (λ t, assignable t ∧ length (columns t) = w ∧ row_count t = n) assigns t) as (t' & E & H).
  - intros f t1 t2 Hu (H1 & H2 & H3). split; [by apply (updated_assignable f t1)|].
    split; [by rewrite (updated_width f t1)|by rewrite (up_count _ _ _ Hu)].
  - done.
  - intros a t1 Hin ([H1 H2] & H3 & H4). rewrite list.Forall_forall in Ha. apply assign_cell_spec; rewrite ?H3, ?H4; auto; lia.
  - exists t'. split; [done|]. eapply updated_ext; [|exact H]. intros i r. cbn beta. unfold last_assign. clear.
    induction assigns as [|a assigns IH] using rev_ind; [by case_decide|]. rewrite fold_left_app, filter_app. cbn [fold_left].
    rewrite IH, filter_cons, filter_nil. destruct (decide (r = row)) as [->|Hne]; [|by rewrite decide_False by tauto].
    destruct (decide (i = a_col a)) as [->|Hne]; [rewrite !decide_True by done; by rewrite last_snoc|].
    rewrite !decide_False by (congruence || tauto). by rewrite app_nil_r.
Qed.

Lemma assign_rows_spec t rows assigns : assignable t → Forall (λ a, a_col a < length (columns t))%nat assigns →
  Forall (λ r, r < row_count t)%nat rows →
  ∃ t', for_each rows (λ row, for_each assigns (assign_cell row)) t = (Ok tt, t') ∧
    updated (λ i r, if decide (r ∈ rows) then last_assign assigns i else None) t t'.
Proof.
  intros Ht Ha Hr. set (w := length (columns t)) in *. set (n := row_count t) in *.
  destruct (for_each_updated (λ row i r, if decide (r = row) then last_assign assigns i else None) (λ row, for_each assigns (assign_cell row))
    (λ t, assignable t ∧ length (columns t) = w ∧ row_count t = n) rows t) as (t' & E & H).
  - intros f t1 t2 Hu (H1 & H2 & H3). split; [by apply (updated_assignable f t1)|].
    split; [by rewrite (updated_width f t1)|by rewrite (up_count _ _ _ Hu)].
  - done.
  - intros row t1 Hin (H1 & H3 & H4). rewrite list.Forall_forall in Hr. apply assign_row_spec; rewrite ?H3, ?H4; auto.
  - exists t'. split; [done|]. eapply updated_ext; [|exact H]. intros i r. cbn beta. clear.
    induction rows as [|row rows IH] using rev_ind; [by rewrite decide_False by set_solver|]. rewrite fold_left_app. cbn [fold_left]. rewrite IH.
    destruct (decide (r = row)) as [->|Hne]; [rewrite (decide_True (P := row ∈ rows ++ [row])) by set_solver|].
    + destruct (last_assign assigns i) eqn:El; [done|]. by case_decide.
    + destruct (decide (r ∈ rows)); [by rewrite decide_True by set_solver|by rewrite decide_False by set_solver].
Qed.

(** The assignments of a statement: the columns exist, and the values are read. *)
Definition reads_assign t (x : text * text) (a : Assign) : Prop :=
  column_idx x.1 t = Some (a_col a) ∧ value_cell x.2 = Ok (a_val a) ∧ a_null a = eq_ignore_ascii_case (trim x.2) (K "NULL").

Lemma grown_bitmaps t : has_rows t →
  let t' := set_bitmaps (null_bitmaps t ++ replicate (length (columns t) - length (null_bitmaps t)) None) t in
  assignable t' ∧ ∀ i r, is_cell_null_dispatch t' i r = is_cell_null_dispatch t i r.
Proof.
  intros [H1 H2 H3]. split; [split; [by split|cbn; rewrite length_app, length_replicate; lia]|].
  intros i r. rewrite !null_lookup. unfold bitmap. cbn [null_bitmaps set_bitmaps].
  destruct (decide (i < length (null_bitmaps t))%nat); [by rewrite lookup_app_l|]. rewrite lookup_app_r by lia.
  rewrite (lookup_ge_None_2 (null_bitmaps t)) by lia. by destruct (replicate _ None !! _) as [o|] eqn:E; [apply lookup_replicate_1 in E as [-> _]|].
Qed.

(** C6: UPDATE.  On a table whose columns have a cell for each row (and at least a string for each
    row where they have strings, as also after a DELETE), UPDATE of columns that exist to values
    that can be read sets, in exactly the rows that satisfy the condition, the columns assigned to
    their values (the last one if a column is assigned twice) and to NULL where the value is NULL;
    every other cell and NULL flag is as before, and no other table is touched.  It reports the
    number of these rows, and the table it leaves satisfies what was asked of the first.  Only
    cells and flags are written: the strings kept beside the cells of string columns stay as they
    were, also in the rows that are set.  The condition is as for DELETE: columns that exist, read
    from left to right, no string literal with a quote in it and no number whose shortest form
    differs from its text, compared with the string at the row's position or with the cell,
    NULL flags not consulted. *)
Theorem update_correct (now : nat → Z) (n : text) (e : QueryEngine) t (c : cond) (sets : list (text * text)) assigns :
  catalog e !! n = Some t → has_rows t → cond_ok t c → Forall (plain_token uni_alnum uni_upper fmt_float) (cond_tokens c) →
  Forall2 (reads_assign t) sets assigns →
  ∃ rows e' t', execute_update uni_alnum uni_upper xxh3_64 float_bits parse_f64 now (mkUpdate n sets (Some (parts fmt_float (cond_tokens c)))) e =
      (Ok (affected (length rows)), e') ∧
    StronglySorted lt rows ∧ (∀ row, row ∈ rows ↔ (row < row_count t)%nat ∧ cond_sat t c row) ∧
    only_table n e e' ∧ catalog e' !! n = Some t' ∧
    row_count t' = row_count t ∧ column_names t' = column_names t ∧ string_columns t' = string_columns t ∧ has_rows t' ∧
    ∀ i r, (i < length (columns t))%nat → (r < row_count t)%nat →
      match (if decide (r ∈ rows) then last_assign assigns i else None) with
      | Some a => cell t' i r = Ok (a_val a) ∧ is_cell_null_dispatch t' i r = a_null a
      | None => cell t' i r = cell t i r ∧ is_cell_null_dispatch t' i r = is_cell_null_dispatch t i r
      end.
Proof.
  intros Hc Ht Hok Hplain Ha. destruct (eval_where_spec t c Ht Hok Hplain) as (mask & Hm & Hf).
  destruct (grown_bitmaps t Ht) as [Hg Hgn]. set (t0 := set_bitmaps _ t) in *.
  destruct (assign_rows_spec t0 (rows_of true mask) assigns) as (t' & E & Hu); [done| | |].
  { apply list.Forall_forall. intros a Hin. apply list_elem_of_lookup in Hin as [k Hk]. destruct (Forall2_lookup_r _ _ _ _ _ Ha Hk) as (x & _ & Hi & _).
    destruct (column_of t _ _ Ht Hi) as (col & Hcol & _). by eapply lookup_lt_Some. }
  { apply list.Forall_forall. intros r Hr. by apply (rows_flags _ _ _ r Hf) in Hr as []. }
  assert (mapM_run (read_assign xxh3_64 parse_f64 t) sets = Ok assigns) as Hread.
  { clear -Ha. induction Ha as [|x [i v b] sets assigns (H1 & H2 & H3) Ha IH]; [done|]. cbn [mapM_run].
    assert (read_assign xxh3_64 parse_f64 t x = Ok (mkAssign i v b)) as ->.
    { unfold read_assign. rewrite H1. cbn [or_fail mbind result_bind]. rewrite H2. cbn [mbind result_bind]. by rewrite <- H3. }
    cbn [mbind result_bind]. by rewrite IH. }
  set (ups := map (λ row, (row_pk t' row, temporal_row t' assigns row)) (true_rows mask)).
  assert (with_table n (update_table uni_alnum uni_upper xxh3_64 float_bits parse_f64 (mkUpdate n sets (Some (parts fmt_float (cond_tokens c))))) e =
    (Ok (length (rows_of true mask), ups), set_catalog (<[n := t']> (catalog e)) e)) as Hw.
  { apply (with_table_ok n _ e t); [done|]. unfold update_table. rewrite (stM_bind_ok _ _ t t t) by done.
    rewrite (stM_bind_ok _ _ t assigns t) by (unfold lift; cbn [assignments]; by rewrite Hread). cbn [upd_where].
    rewrite (stM_bind_ok _ _ t mask t) by (unfold lift, where_mask; by rewrite Hm). rewrite (stM_bind_ok _ _ t tt t0) by done.
    rewrite (stM_bind_ok _ _ t0 tt t') by done. by rewrite (stM_bind_ok _ _ t' t' t'). }
  exists (rows_of true mask). unfold execute_update. rewrite (stM_bind_ok _ _ _ _ _ Hw). cbv beta iota. cbn [upd_table].
  eexists _, t'. split; [reflexivity|]. split; [apply rows_sorted|]. split; [intros row; apply (rows_flags _ _ _ row Hf)|].
  split; [|split; [cbn; apply lookup_insert_eq|]].
  { split; [|done]. intros m Hne. cbn. by rewrite lookup_insert_ne, lookup_alter_ne by done. }
  split; [apply (up_count _ _ _ Hu)|]. split; [apply (up_names _ _ _ Hu)|]. split; [apply (up_strings _ _ _ Hu)|].
  split; [apply (updated_ok _ _ _ Hu), Hg|]. intros i r Hi Hr. pose proof (up_cell _ _ _ Hu i r Hi Hr) as Hcell. pose proof (up_null _ _ _ Hu i r Hi Hr) as Hnull. cbn beta in *.
  rewrite Hgn in Hnull. destruct (if decide _ then _ else _); by split.
Qed.
End changes.

(** *** Examples *)
Definition fruit : Table :=
  mkTable (K "t") [[3; 5; 9]; [1; 2; 3]] [K "a"; K "s"] 3
    [None; Some (StringColumnM.new [K "pear"; K "fig"; K "kiwi"])] [None; None]
    (Some (ExprEvalM.mkTS [ExprEvalM.mkCS (K "a") ExprEvalM.TInt false false; ExprEvalM.mkCS (K "s") ExprEvalM.TText false false])).
Definition shop : QueryEngine := mkEngine {[K "t" := fruit]} IndexM.im_new ∅ SnapshotTxn.SnapshotTxn.manager_new [].

Lemma fruit_has_rows : has_rows fruit.
Proof. apply table_has_rows. split; [done|by repeat constructor|]. intros [|[|i]] sc; [done| |done]. intros [= <-]. by eexists. Qed.

(** [a = 5 OR s < 'm']. *)
Definition fruit_cond : cond := mkCond (mkAtom (K "a") CEq (OInt 5)) [(false, mkAtom (K "s") CLt (OStr (K "m")))].

Lemma fruit_cond_plain : Forall (plain_token (λ _, true) (λ c, [c]) id) (cond_tokens fruit_cond).
Proof.
  change (cond_tokens fruit_cond) with
    [Ident (K "a"); Op (K "="); Int 5; Keyword (K "OR"); Ident (K "s"); Op (K "<"); Str (K "m")].
  repeat (apply Forall_cons; split; [split_and!; [first [apply ident_wf; vm_compute; reflexivity
    | cbn [tok_wf]; first [exact I | lia | apply (bool_decide_unpack _); vm_compute; exact I]]|done|first [exact I|apply (bool_decide_unpack _); vm_compute; exact I]]|]).
  apply Forall_nil. done.
Qed.
Lemma fruit_cond_ok : cond_ok fruit fruit_cond.
Proof. split; [by exists 0%nat|]. repeat constructor. by exists 1%nat. Qed.

Abbreviation demo_where := (K "a = 5 OR s < 'm'").
Abbreviation delete_stmt := (execute_delete (λ _, true) (λ c, [c]) (λ _, 0) (λ _, 0) (λ _, None) (λ _, 0)).
Abbreviation update_stmt := (execute_update (λ _, true) (λ c, [c]) (λ _, 0) (λ _, 0) (λ _, None) (λ _, 0)).

Lemma delete_correct_witness :
  ∃ keep e' t', delete_stmt (mkDelete (K "t") (Some demo_where)) shop = (Ok (affected (3 - length keep)), e') ∧
    (∀ row, row ∈ keep ↔ (row < 3)%nat ∧ ¬ cond_sat (λ _, 0) (λ _, 0) fruit fruit_cond row) ∧ catalog e' !! K "t" = Some t' ∧
    columns t' = pick_cells keep <$> columns fruit ∧ row_count t' = length keep.
Proof.
  destruct (delete_correct (λ _, true) (λ c, [c]) id (λ _, 0) (λ _, 0) (λ _, None) (λ _, 0) (K "t") shop fruit fruit_cond)
    as (keep & e' & t' & E & _ & Hk & _ & Hc & Hn & Hcols & _).
  - apply lookup_singleton_eq.
  - apply fruit_has_rows.
  - apply fruit_cond_ok.
  - apply fruit_cond_plain.
  - done.
  - exists keep, e', t'. split; [exact E|]. split; [exact Hk|]. split; [exact Hc|]. split; [exact Hcols|exact Hn].
Defined.

(** [UPDATE t SET a = NULL, a = 7 WHERE ...] and [SET a = 7, a = NULL]. *)
Lemma update_correct_witness :
  ∃ rows e' t', update_stmt (mkUpdate (K "t") [(K "a", K "NULL"); (K "a", K "7")] (Some demo_where)) shop = (Ok (affected (length rows)), e') ∧
    (∀ row, row ∈ rows ↔ (row < 3)%nat ∧ cond_sat (λ _, 0) (λ _, 0) fruit fruit_cond row) ∧ catalog e' !! K "t" = Some t' ∧
    (∀ r, (r < 3)%nat → r ∈ rows → cell t' 0 r = Ok 7 ∧ is_cell_null_dispatch t' 0 r = false).
Proof.
  destruct (update_correct (λ _, true) (λ c, [c]) id (λ _, 0) (λ _, 0) (λ _, None) (λ _, 0) (K "t") shop fruit fruit_cond
    [(K "a", K "NULL"); (K "a", K "7")] [mkAssign 0 0 true; mkAssign 0 7 false]) as (rows & e' & t' & E & _ & Hr & _ & Hc & _ & _ & _ & _ & Hcell).
  - apply lookup_singleton_eq.
  - apply fruit_has_rows.
  - apply fruit_cond_ok.
  - apply fruit_cond_plain.
  - repeat constructor.
  - exists rows, e', t'. split; [exact E|]. split; [exact Hr|]. split; [exact Hc|]. intros r Hlt Hin.
    specialize (Hcell 0%nat r ltac:(cbn; lia) Hlt). rewrite decide_True in Hcell by done. exact Hcell.
Defined.

(** A DELETE leaves the strings of the rows where they were: the row that is left shows the
    string of a row that is gone.  Also [a OR b AND c] is read as [(a OR b) AND c], unlike
    in a SELECT, and WHERE without a condition deletes every row. *)
Theorem delete_shifts_strings :
  let table e := default fruit (catalog e !! K "t") in
  let '(r, e) := delete_stmt (mkDelete (K "t") (Some (K "a = 3"))) shop in
  r = Ok (affected 1) ∧ columns (table e) = [[5; 9]; [2; 3]] ∧
  (string_col (table e) 1 ≫= λ sc, StringColumnM.get sc 0) = Some (K "pear") ∧
  (delete_stmt (mkDelete (K "t") (Some (K "a = 3 OR a = 5 AND a = 9"))) shop).1 = Ok (affected 0) ∧
  (delete_stmt (mkDelete (K "t") (Some [])) shop).1 = Ok (affected 3).
Proof. by vm_compute. Qed.
End ChangesM.
