(* ===== verification/Inserts.v ===== *)
(** * Correctness of INSERT (src/src/engine/mod.rs)

    What INSERT appends to each column: the cells, the NULL flags and the strings of the
    new rows. *)

From Stdlib Require Import ZArith Lia Ascii String.
From stdpp Require Import prelude list numbers gmap.
From S2P Require Import Prelude Nulls Catalog Result Lexer StringColumn Parser Vectorized Dispatch.
From S2P Require Import Where ExprEval Dml Temporal Statements Changes.
Local Open Scope Z_scope.

Module InsertsM.
Import LexerM ParserM CatalogM VectorizedM DispatchM WhereM DmlM StatementsM ChangesM.
Implicit Types t : Table.

Definition null_text (v : text) : bool := eq_ignore_ascii_case (trim v) (K "null").

(** The bitmap of a column after one more value; a column without one gets it with the
    first NULL, sized by the rows there were before the statement. *)
Definition note (n : nat) (o : option NullVec.NullBitmap) (is_null : bool) : option NullVec.NullBitmap :=
  match o with
  | Some bm => Some (if is_null then NullVec.push_null bm else NullVec.push_non_null bm)
  | None => if is_null then Some (NullVec.push_null (NullVec.new n)) else None
  end.
Definition note_all (n : nat) (o : option NullVec.NullBitmap) (vs : list text) : option NullVec.NullBitmap :=
  fold_left (λ o v, note n o (null_text v)) vs o.

Section inserts.
Context (xxh3_64 : list Z → Z) (parse_f64 : text → option Z).
Abbreviation value_cell := (parse_value_cell xxh3_64 parse_f64).

Definition cell_of (v : text) : Z := default 0 (ok (value_cell v)).
Definition readable (v : text) : Prop := is_ok (value_cell v) = true.

(** The values of a row for column [i]. *)
Definition vals_for (cols : list nat) (row : list text) (i : nat) : list text := (filter (λ p : nat * text, p.1 = i) (zip cols row)).*2.

(** [t'] is [t] with the values [vs i] appended to column [i]. *)
Record extended (vs : nat → list text) t t' : Prop := {
  ex_name : CatalogM.name t' = CatalogM.name t;
  ex_names : column_names t' = column_names t;
  ex_count : row_count t' = row_count t;
  ex_strings : string_columns t' = string_columns t;
  ex_schema : schema t' = schema t;
  ex_columns : columns t' = imap (λ i col, col ++ (cell_of <$> vs i)) (columns t);
  ex_bitmap i : bitmap t' i = note_all (row_count t) (bitmap t i) (vs i)
}.

Lemma extended_refl t : extended (λ _, []) t t.
Proof.
  split; try done. apply list_eq. intros i. rewrite list_lookup_imap. destruct (columns t !! i); cbn; by rewrite ?app_nil_r.
Qed.

Lemma extended_trans f g t t' t'' : extended f t t' → extended g t' t'' → extended (λ i, f i ++ g i) t t''.
Proof.
  intros H1 H2. split.
  - by rewrite (ex_name _ _ _ H2), (ex_name _ _ _ H1).
  - by rewrite (ex_names _ _ _ H2), (ex_names _ _ _ H1).
  - by rewrite (ex_count _ _ _ H2), (ex_count _ _ _ H1).
  - by rewrite (ex_strings _ _ _ H2), (ex_strings _ _ _ H1).
  - by rewrite (ex_schema _ _ _ H2), (ex_schema _ _ _ H1).
  - rewrite (ex_columns _ _ _ H2), (ex_columns _ _ _ H1). apply list_eq. intros i. rewrite !list_lookup_imap.
    destruct (columns t !! i); cbn; [|done]. by rewrite fmap_app, app_assoc.
  - intros i. rewrite (ex_bitmap _ _ _ H2), (ex_bitmap _ _ _ H1), (ex_count _ _ _ H1). unfold note_all. by rewrite fold_left_app.
Qed.

Lemma extended_ext f g t t' : (∀ i, f i = g i) → extended f t t' → extended g t t'.
Proof.
  intros E []. split; try done; [|intros i; by rewrite <- E]. rewrite ex_columns0. apply imap_ext. intros i col _. by rewrite E.
Qed.

(** *** One value *)
Lemma push_cell_spec t i v : (i < length (columns t))%nat →
  ∃ t1, push_cell i (cell_of v) t = (Ok tt, t1) ∧
  columns t1 = imap (λ j col, col ++ (cell_of <$> (if decide (i = j) then [v] else []))) (columns t) ∧
  t1 = set_columns (columns t1) t.
Proof.
  intros Hi. destruct (lookup_lt_is_Some_2 _ _ Hi) as [col Hcol]. unfold push_cell. rewrite Hcol. eexists. split; [done|]. split; [|done].
  apply list_eq. intros j. cbn [columns set_columns]. rewrite list_lookup_imap. destruct (decide (i = j)) as [<-|Hne].
  - rewrite list_lookup_insert_eq by done. rewrite Hcol. done.
  - rewrite list_lookup_insert_ne by done. destruct (columns t !! j); cbn; by rewrite ?app_nil_r.
Qed.

Lemma resized_bitmap t i j : (i < length (columns t))%nat →
  let bs := if Nat.leb (length (null_bitmaps t)) i then resize (length (columns t)) None (null_bitmaps t) else null_bitmaps t in
  (i < length bs)%nat ∧ mjoin (bs !! j) = bitmap t j.
Proof.
  intros Hi. cbn zeta. destruct (Nat.leb_spec (length (null_bitmaps t)) i) as [H|H]; [|done]. unfold resize, bitmap.
  rewrite take_ge by lia. rewrite length_app, length_replicate. split; [lia|].
  destruct (decide (j < length (null_bitmaps t))%nat); [by rewrite lookup_app_l|]. rewrite lookup_app_r by lia.
  rewrite (lookup_ge_None_2 (null_bitmaps t)) by lia. by destruct (replicate _ None !! _) as [o|] eqn:E; [apply lookup_replicate_1 in E as [-> _]|].
Qed.

Lemma mark_inserted_spec t i b : (i < length (columns t))%nat →
  ∃ t1, mark_inserted i b t = (Ok tt, t1) ∧ t1 = set_bitmaps (null_bitmaps t1) t ∧
  ∀ j, bitmap t1 j = if decide (i = j) then note (row_count t) (bitmap t j) b else bitmap t j.
Proof.
  intros Hi. unfold mark_inserted. destruct b.
  - destruct (resized_bitmap t i i Hi) as [Hlen Hbi]. set (bs := if Nat.leb _ _ then _ else _) in *.
    destruct (lookup_lt_is_Some_2 bs i Hlen) as [o Ho]. rewrite Ho. rewrite Ho in Hbi. cbn in Hbi.
    assert (∀ bm j, bitmap (set_bitmaps (<[i := Some bm]> bs) t) j = if decide (i = j) then Some bm else bitmap t j) as Hset.
    { intros bm j. unfold bitmap at 1. cbn [null_bitmaps set_bitmaps]. case_decide as E; [subst; by rewrite list_lookup_insert_eq|].
      rewrite list_lookup_insert_ne by done. apply (resized_bitmap t i j Hi). }
    destruct o as [bm|]; (eexists; split; [done|]; split; [done|]); intros j; rewrite Hset; case_decide; subst; by rewrite <- ?Hbi.
  - assert (∀ j, bitmap t j = if decide (i = j) then bitmap t j else bitmap t j) as Hsame by (intros j; by case_decide).
    destruct (null_bitmaps t !! i) as [[bm|]|] eqn:E.
    + eexists. split; [done|]. split; [done|]. intros j. unfold bitmap at 1. cbn [null_bitmaps set_bitmaps]. case_decide as Ej.
      * subst. rewrite list_lookup_insert_eq by (by eapply lookup_lt_Some). unfold bitmap. by rewrite E.
      * by rewrite list_lookup_insert_ne.
    + exists t. split; [done|]. split; [by destruct t|]. intros j. case_decide; [|done]. subst. unfold bitmap. by rewrite E.
    + exists t. split; [done|]. split; [by destruct t|]. intros j. case_decide; [|done]. subst. unfold bitmap. by rewrite E.
Qed.

Lemma insert_value_spec t i v : (i < length (columns t))%nat →
  ∃ t1 t2, push_cell i (cell_of v) t = (Ok tt, t1) ∧ mark_inserted i (null_text v) t1 = (Ok tt, t2) ∧
    extended (λ j, if decide (i = j) then [v] else []) t t2.
Proof.
  intros Hi. destruct (push_cell_spec t i v Hi) as (t1 & E1 & Hc & Ht1).
  assert (length (columns t1) = length (columns t)) as Hl by (by rewrite Hc, length_imap).
  destruct (mark_inserted_spec t1 i (null_text v)) as (t2 & E2 & Ht2 & Hb); [lia|]. exists t1, t2. split; [done|]. split; [done|].
  split; try (rewrite Ht2, Ht1; done).
  intros j. rewrite Hb. assert (row_count t1 = row_count t ∧ bitmap t1 j = bitmap t j) as [-> ->] by (rewrite Ht1; done). by case_decide.
Qed.

(** *** Rows *)

(** The strings collected for each column, and never an empty list of them. *)
Definition collected (strs : gmap nat (list text)) (i : nat) : list text := default [] (strs !! i).
Definition no_empty (strs : gmap nat (list text)) : Prop := ∀ i, strs !! i ≠ Some [].

Lemma add_string_spec strs i s j : no_empty strs →
  collected (add_string strs i s) j = collected strs j ++ (if decide (i = j) then [s] else []) ∧ no_empty (add_string strs i s).
Proof.
  intros H. unfold collected, add_string. split.
  - rewrite lookup_insert. case_decide as E; [subst; done|by rewrite app_nil_r].
  - intros k. rewrite lookup_insert. case_decide; [|apply H]. intros [= E]. by destruct (default [] (strs !! i)).
Qed.

Lemma vals_for_cons c cols v row i : vals_for (c :: cols) (v :: row) i = (if decide (c = i) then [v] else []) ++ vals_for cols row i.
Proof. unfold vals_for. cbn [zip zip_with]. rewrite filter_cons. cbn [fst]. by case_decide. Qed.

Lemma value_cell_ok v : readable v → value_cell v = Ok (cell_of v).
Proof. unfold readable, cell_of. by destruct (value_cell v). Qed.

(** What is kept of the values for the strings of a column. *)
Definition kept_strings (sc : nat → bool) (vs : nat → list text) (i : nat) : list text := if sc i then kept_string <$> vs i else [].

Lemma insert_row_spec sc cols row : ∀ strs t, Forall (λ i, i < length (columns t))%nat cols → (length cols <= length row)%nat →
  Forall readable row → no_empty strs →
  ∃ strs' t', insert_row xxh3_64 parse_f64 sc cols row strs t = (Ok strs', t') ∧ extended (vals_for cols row) t t' ∧ no_empty strs' ∧
    ∀ i, collected strs' i = collected strs i ++ kept_strings sc (vals_for cols row) i.
Proof.
  revert row. induction cols as [|c cols IH]; intros row strs t Hc Hl Hr Hs.
  { exists strs, t. split; [done|]. split; [apply extended_refl|]. split; [done|]. intros i. unfold kept_strings. destruct (sc i); by rewrite app_nil_r. }
  destruct row as [|v row]; [simpl in Hl; lia|]. apply Forall_cons in Hc as [Hc Hcs]. apply Forall_cons in Hr as [Hv Hr].
  destruct (insert_value_spec t c v Hc) as (t1 & t2 & E1 & E2 & Hx).
  assert (length (columns t2) = length (columns t)) as Hlen by (by rewrite (ex_columns _ _ _ Hx), length_imap).
  set (strs1 := if sc c then add_string strs c (kept_string v) else strs).
  assert (no_empty strs1 ∧ ∀ j, collected strs1 j = collected strs j ++ kept_strings sc (λ i, if decide (c = i) then [v] else []) j) as [Hs1 Hc1].
  { unfold strs1, kept_strings. split; [destruct (sc c); [by apply (add_string_spec _ _ _ 0%nat)|done]|]. intros j.
    destruct (sc c) eqn:Ec; [rewrite (proj1 (add_string_spec _ _ _ _ Hs))|]; (destruct (decide (c = j)) as [<-|]; [rewrite ?Ec|destruct (sc j)]); by rewrite ?app_nil_r. }
  destruct (IH row strs1 t2) as (strs' & t' & E & Hx' & Hs' & Hc'); [by rewrite Hlen|simpl in Hl; lia|done|done|].
  exists strs', t'. split; [|split; [|split; [done|]]].
  - cbn [insert_row]. rewrite (stM_bind_ok _ _ t (cell_of v) t) by (unfold lift; by rewrite value_cell_ok).
    rewrite (stM_bind_ok _ _ t tt t1) by done. rewrite (stM_bind_ok _ _ t1 tt t2) by done. exact E.
  - eapply extended_ext; [|exact (extended_trans _ _ _ _ _ Hx Hx')]. intros i. by rewrite vals_for_cons.
  - intros i. rewrite Hc', Hc1, <- app_assoc. f_equal. unfold kept_strings. destruct (sc i); [|done]. by rewrite vals_for_cons, fmap_app.
Qed.

Definition all_vals (cols : list nat) (rows : list (list text)) (i : nat) : list text := concat ((λ row, vals_for cols row i) <$> rows).

Lemma insert_rows_spec sc cols rows : ∀ strs t, Forall (λ i, i < length (columns t))%nat cols → Forall (λ row, length cols <= length row)%nat rows →
  Forall (Forall readable) rows → no_empty strs →
  ∃ strs' t', insert_rows xxh3_64 parse_f64 sc cols rows strs t = (Ok strs', t') ∧ extended (all_vals cols rows) t t' ∧ no_empty strs' ∧
    ∀ i, collected strs' i = collected strs i ++ kept_strings sc (all_vals cols rows) i.
Proof.
  induction rows as [|row rows IH]; intros strs t Hc Hl Hr Hs.
  { exists strs, t. split; [done|]. split; [apply extended_refl|]. split; [done|]. intros i. unfold kept_strings. destruct (sc i); by rewrite app_nil_r. }
  apply Forall_cons in Hl as [Hl Hls]. apply Forall_cons in Hr as [Hv Hr].
  destruct (insert_row_spec sc cols row strs t Hc Hl Hv Hs) as (strs1 & t1 & E1 & Hx1 & Hs1 & Hc1).
  destruct (IH strs1 t1) as (strs2 & t2 & E2 & Hx2 & Hs2 & Hc2); [by rewrite (ex_columns _ _ _ Hx1), length_imap|done..|].
  exists strs2, t2. split; [cbn [insert_rows]; by rewrite (stM_bind_ok _ _ t strs1 t1)|].
  split; [exact (extended_trans _ _ _ _ _ Hx1 Hx2)|]. split; [done|]. intros i. rewrite Hc2, Hc1, <- app_assoc. f_equal.
  unfold kept_strings, all_vals. destruct (sc i); [|done]. by rewrite fmap_cons, <- fmap_app.
Qed.

(** *** Strings *)

(** The strings of a column after the new ones are merged in. *)
Definition merged (n : nat) (o : option StringColumnM.StringSearchColumn) (new : list text) : StringColumnM.StringSearchColumn :=
  StringColumnM.new (from_option StringColumnM.strings (replicate (n - length new) []) o ++ (as_bytes <$> new)).

Lemma merge_strings_spec t i new : (length new <= row_count t)%nat →
  ∃ t', merge_strings i new t = (Ok tt, t') ∧ t' = set_strings (string_columns t') t ∧
    ∀ j, string_col t' j = if decide (i = j) then Some (merged (row_count t) (string_col t j) new) else string_col t j.
Proof.
  intros Hn. unfold merge_strings.
  set (ss := if Nat.leb _ _ then _ else _).
  assert ((i < length ss)%nat ∧ ∀ j, mjoin (ss !! j) = string_col t j) as [Hlen Hss].
  { unfold ss, string_col. destruct (Nat.leb_spec (length (string_columns t)) i); [|done]. rewrite length_app, length_replicate. split; [lia|]. intros j.
    destruct (decide (j < length (string_columns t))%nat); [by rewrite lookup_app_l|]. rewrite lookup_app_r by lia.
    rewrite (lookup_ge_None_2 (string_columns t)) by lia. by destruct (replicate _ None !! _) as [o|] eqn:E; [apply lookup_replicate_1 in E as [-> _]|]. }
  assert (∀ x j, string_col (set_strings (<[i := Some x]> ss) t) j = if decide (i = j) then Some x else string_col t j) as Hset.
  { intros x j. unfold string_col at 1. cbn [string_columns set_strings]. case_decide as E; [subst; by rewrite list_lookup_insert_eq|].
    rewrite list_lookup_insert_ne by done. apply Hss. }
  rewrite (Hss i). destruct (string_col t i) as [sc|] eqn:E.
  - eexists. split; [done|]. split; [done|]. intros j. rewrite Hset. case_decide; [|done]. subst. by rewrite E.
  - rewrite length_fmap, (proj2 (Nat.ltb_ge _ _)) by done. eexists. split; [done|]. split; [done|]. intros j. rewrite Hset.
    case_decide; [|done]. subst. rewrite E. unfold merged. done.
Qed.

Lemma merge_all_spec (l : list (nat * list text)) t : NoDup l.*1 → Forall (λ x, length x.2 <= row_count t)%nat l →
  ∃ t', for_each l (λ '(i, new), merge_strings i new) t = (Ok tt, t') ∧ t' = set_strings (string_columns t') t ∧
    ∀ j, string_col t' j = match (list_to_map l : gmap nat (list text)) !! j with
                           | Some new => Some (merged (row_count t) (string_col t j) new)
                           | None => string_col t j
                           end.
Proof.
  revert t. induction l as [|[i new] l IH]; intros t Hnd Hl; [exists t; split; [done|]; split; [by destruct t|done]|].
  apply NoDup_cons in Hnd as [Hi Hnd]. apply Forall_cons in Hl as [Hn Hl]. destruct (merge_strings_spec t i new Hn) as (t1 & E1 & Ht1 & H1).
  assert (row_count t1 = row_count t) as Hc by (by rewrite Ht1).
  destruct (IH t1 Hnd) as (t2 & E2 & Ht2 & H2); [by rewrite Hc|]. exists t2. split; [|split].
  - cbn [for_each]. by rewrite (stM_bind_ok _ _ t tt t1).
  - rewrite Ht2, Ht1. done.
  - intros j. rewrite H2, H1, Hc, list_to_map_cons, lookup_insert. destruct (decide (i = j)) as [->|]; [|done].
    by rewrite (not_elem_of_list_to_map_1 l j).
Qed.

(** *** The values of a column *)
Lemma vals_none cols row i : i ∉ cols → vals_for cols row i = [].
Proof.
  revert row. induction cols as [|c cols IH]; intros [|v row] Hi; try done. rewrite vals_for_cons, decide_False by set_solver. apply IH. set_solver.
Qed.

Lemma vals_one cols row j i v : NoDup cols → cols !! j = Some i → row !! j = Some v → vals_for cols row i = [v].
Proof.
  intros Hnd. revert row j. induction Hnd as [|c cols Hc Hnd IH]; intros [|w row] [|j] Hi Hv; try done; rewrite vals_for_cons.
  - injection Hi as ->. injection Hv as ->. rewrite decide_True by done. by rewrite vals_none.
  - rewrite decide_False; [by apply (IH row j)|]. intros ->. apply Hc. by apply (list_elem_of_lookup_2 _ j).
Qed.

Lemma all_vals_column cols rows j i : NoDup cols → cols !! j = Some i → Forall (λ row, length row = length cols) rows →
  all_vals cols rows i = (λ row, default [] (row !! j)) <$> rows.
Proof.
  intros Hnd Hj H. unfold all_vals. induction H as [|row rows Hl H IH]; [done|]. cbn [fmap list_fmap concat].
  destruct (lookup_lt_is_Some_2 row j) as [v Hv]; [rewrite Hl; by eapply lookup_lt_Some|].
  rewrite (vals_one cols row j i v) by done. rewrite Hv, IH. done.
Qed.

(** Where the flags of new NULLs end up: a column that has a bitmap for its rows, or gets
    no NULL, or gets one first. *)
Definition flags_fit t (i : nat) (vs : list text) : Prop :=
  match bitmap t i with
  | Some bm => NullVec.len bm = row_count t
  | None => Forall (λ v, null_text v = false) vs ∨ ∃ v, head vs = Some v ∧ null_text v = true
  end.

Lemma note_all_some n bm vs : note_all n (Some bm) vs = Some (NullVec.mkNB (NullVec.bits bm ++ (null_text <$> vs))).
Proof.
  unfold note_all. revert bm. induction vs as [|v vs IH]; intros bm; cbn [fold_left fmap list_fmap]; [rewrite app_nil_r; by destruct bm|].
  cbn [note]. rewrite IH. destruct (null_text v); cbn; by rewrite <- app_assoc.
Qed.

Lemma note_all_spec t i vs r : flags_fit t i vs →
  ((r < row_count t)%nat → from_option (NullVec.is_null r) false (note_all (row_count t) (bitmap t i) vs) = from_option (NullVec.is_null r) false (bitmap t i)) ∧
  (∀ k v, vs !! k = Some v → from_option (NullVec.is_null (row_count t + k)) false (note_all (row_count t) (bitmap t i) vs) = null_text v).
Proof.
  unfold flags_fit, NullVec.len. destruct (bitmap t i) as [bm|]; intros H.
  - rewrite note_all_some. cbn [from_option]. unfold NullVec.is_null. cbn [NullVec.bits]. split.
    + intros Hr. by rewrite lookup_app_l by lia.
    + intros k v Hk. rewrite lookup_app_r by lia. rewrite H. replace (row_count t + k - row_count t)%nat with k by lia.
      by rewrite list_lookup_fmap, Hk.
  - destruct H as [H|(v0 & Hh & Hn)].
    + assert (note_all (row_count t) None vs = None) as ->.
      { unfold note_all. induction H as [|v vs Hv H IH]; [done|]. cbn [fold_left note]. by rewrite Hv. }
      split; [done|]. intros k v Hk. cbn. symmetry. exact (Forall_lookup_1 _ _ _ _ H Hk).
    + destruct vs as [|v vs]; [done|]. injection Hh as ->. unfold note_all. cbn [fold_left note]. rewrite Hn. fold (note_all (row_count t) (Some (NullVec.push_null (NullVec.new (row_count t)))) vs).
      rewrite note_all_some. cbn [from_option NullVec.push_null NullVec.new NullVec.bits]. unfold NullVec.is_null. cbn [NullVec.bits]. split.
      * intros Hr. rewrite <- app_assoc, lookup_app_l by (rewrite length_replicate; lia). by rewrite lookup_replicate_2.
      * intros k v Hk. rewrite <- app_assoc, lookup_app_r by (rewrite length_replicate; lia). rewrite length_replicate.
        replace (row_count t + k - row_count t)%nat with k by lia. destruct k as [|k]; [injection Hk as <-; by rewrite Hn|].
        change (([true] ++ (null_text <$> vs)) !! S k) with ((null_text <$> vs) !! k). rewrite list_lookup_fmap.
        change ((v0 :: vs) !! S k) with (vs !! k) in Hk. by rewrite Hk.
Qed.

Lemma collected_lookup strs i : no_empty strs → strs !! i = if decide (collected strs i = []) then None else Some (collected strs i).
Proof. intros H. unfold collected. destruct (strs !! i) as [l|] eqn:E; cbn; [|done]. rewrite decide_False; [done|]. intros ->. by apply (H i). Qed.

(** *** The statement *)

(** The columns named by the statement, each column of the table once. *)
Definition names_columns t (names : option (list text)) (cols : list nat) : Prop :=
  match names with Some cs => Forall2 (λ c i, column_idx c t = Some i) cs cols | None => cols = seq 0 (length (columns t)) end.
Definition every_column t (cols : list nat) : Prop :=
  NoDup cols ∧ length cols = length (columns t) ∧ Forall (λ i, i < length (columns t))%nat cols.

(** Strings are kept for the string columns of the schema, and only for those. *)
Definition strings_typed t : Prop := ∀ i sc, string_col t i = Some sc → string_typed t i = true.

Lemma every_column_at t cols i : every_column t cols → (i < length (columns t))%nat → ∃ j, cols !! j = Some i.
Proof.
  intros (Hnd & Hl & Hlt) Hi. apply list_elem_of_lookup. assert (cols ⊆+ seq 0 (length (columns t))) as Hsub.
  { apply NoDup_submseteq; [done|]. intros x Hx. rewrite list.Forall_forall in Hlt. apply elem_of_seq. specialize (Hlt x Hx). lia. }
  assert (cols ≡ₚ seq 0 (length (columns t))) as -> by (apply submseteq_length_Permutation; [done|rewrite length_seq; lia]).
  apply elem_of_seq. lia.
Qed.

Lemma all_vals_length t cols rows i : every_column t cols → Forall (λ row, length row = length cols) rows → (i < length (columns t))%nat →
  length (all_vals cols rows i) = length rows.
Proof.
  intros Hev Hlen Hi. destruct (every_column_at t cols i Hev Hi) as [j Hj]. destruct Hev as [Hnd _].
  rewrite (all_vals_column cols rows j i) by done. by rewrite length_fmap.
Qed.

Lemma string_typed_lt t i : string_typed t i = true → (i < length (columns t))%nat.
Proof. by intros [H%Nat.ltb_lt _]%andb_true_iff. Qed.

(** The table after the cells, flags and strings of the new rows are appended. *)
Record appended t (cols : list nat) (rows : list (list text)) t' : Prop := {
  ap_names : column_names t' = column_names t;
  ap_count : row_count t' = (row_count t + length rows)%nat;
  ap_columns : columns t' = imap (λ i col, col ++ (cell_of <$> all_vals cols rows i)) (columns t);
  ap_bitmap i : bitmap t' i = note_all (row_count t) (bitmap t i) (all_vals cols rows i);
  ap_strings i : string_col t' i =
    if string_typed t i then Some (merged (row_count t') (string_col t i) (kept_string <$> all_vals cols rows i)) else string_col t i
}.

Lemma insert_into_spec t ins cols : names_columns t (ins_columns ins) cols → every_column t cols → ins_values ins ≠ [] →
  Forall (λ row, length row = length cols) (ins_values ins) → Forall (Forall readable) (ins_values ins) →
  ∃ temporal_rows t', insert_into xxh3_64 parse_f64 ins t = (Ok temporal_rows, t') ∧ appended t cols (ins_values ins) t'.
Proof.
  intros Hnames Hev Hne Hlen Hread. pose proof Hev as (Hnd & Hl & Hlt). set (rows := ins_values ins) in *.
  destruct (insert_rows_spec (string_typed t) cols rows ∅ t) as (strs & t1 & E1 & Hx & Hs & Hc); [done| |done|done|].
  { apply (Forall_impl _ _ _ Hlen). intros; lia. }
  set (t2 := set_row_count (row_count t1 + length rows) t1).
  assert (∀ i, collected strs i = kept_strings (string_typed t) (all_vals cols rows) i) as Hcol by (intros i; by rewrite Hc).
  pose proof (λ i, all_vals_length t cols rows i Hev Hlen) as Hvals.
  destruct (merge_all_spec (map_to_list strs) t2) as (t3 & E3 & Ht3 & H3); [apply NoDup_fst_map_to_list| |].
  { apply list.Forall_forall. intros [i new] Hin%elem_of_map_to_list. cbn. rewrite (collected_lookup strs i Hs) in Hin.
    case_decide as Hd; [done|]. injection Hin as <-. rewrite Hcol in *. unfold kept_strings in *. destruct (string_typed t i) eqn:Ei; [|done].
    rewrite length_fmap, Hvals by (by apply string_typed_lt). unfold t2. cbn. lia. }
  eexists _, t3. split; [|split].
  - unfold insert_into. fold rows. rewrite (stM_bind_ok _ _ t t t) by done.
    assert (match ins_columns ins with
            | Some cs => lift (mapM_run (λ c, or_fail ENotFound (column_idx c t)) cs)
            | None => mret (seq 0 (length (columns t)))
            end t = (Ok cols, t)) as Hcols.
    { unfold names_columns in Hnames. destruct (ins_columns ins) as [cs|]; [|by rewrite Hnames]. unfold lift. f_equal.
      clear -Hnames. induction Hnames as [|c i cs cols Hi H IH]; [done|]. cbn [mapM_run]. rewrite Hi. cbn [or_fail mbind result_bind]. by rewrite IH. }
    rewrite (stM_bind_ok _ _ t cols t) by done.
    assert (from_option length 0%nat (head rows) = length cols) as -> by (destruct Hlen; [done|]; cbn; done).
    rewrite Nat.eqb_refl. cbn [negb]. rewrite (stM_bind_ok _ _ t strs t1) by done. rewrite (stM_bind_ok _ _ t1 tt t2) by done.
    rewrite (stM_bind_ok _ _ t2 tt t3) by done. rewrite (stM_bind_ok _ _ t3 t3 t3) by done. reflexivity.
  - rewrite Ht3. cbn. apply (ex_names _ _ _ Hx).
  - rewrite Ht3. cbn. by rewrite (ex_count _ _ _ Hx).
  - rewrite Ht3. cbn. apply (ex_columns _ _ _ Hx).
  - intros i. rewrite Ht3. apply (ex_bitmap _ _ _ Hx).
  - intros i. rewrite H3, list_to_map_to_list, (collected_lookup strs i Hs), Hcol.
    assert (string_col t2 i = string_col t i) as -> by (unfold string_col; cbn; by rewrite (ex_strings _ _ _ Hx)).
    assert (row_count t3 = row_count t2) as -> by (by rewrite Ht3). unfold kept_strings. destruct (string_typed t i) eqn:Ei; [|done].
    rewrite decide_False; [done|]. intros E%(f_equal length). rewrite length_fmap, Hvals in E by (by apply string_typed_lt). by destruct rows.
Qed.

Lemma merged_strings t i new : table_ok t → strings_typed t →
  ∃ old, StringColumnM.strings (merged (row_count t + length new) (string_col t i) new) = old ++ (as_bytes <$> new) ∧ length old = row_count t ∧
    ∀ sc r, string_col t i = Some sc → (r < row_count t)%nat → StringColumnM.get sc r = old !! r.
Proof.
  intros Ht Hs. unfold merged. destruct (string_col t i) as [sc|] eqn:E.
  - destruct (ok_strings _ Ht i sc E) as (ss & -> & Hl). exists ss. split; [done|]. split; [done|]. intros sc r [= <-] Hr.
    unfold StringColumnM.get. cbn [StringColumnM.strings StringColumnM.new]. destruct (lookup_lt_is_Some_2 ss r) as [x Hx]; [lia|]. by rewrite Hx.
  - exists (replicate (row_count t) []). replace (row_count t + length new - length new)%nat with (row_count t) by lia.
    split; [done|]. by rewrite length_replicate.
Qed.

Lemma get_new_string ss r s : ss !! r = Some s → StringColumnM.get (StringColumnM.new ss) r = Some s.
Proof. intros H. unfold StringColumnM.get. cbn [StringColumnM.strings StringColumnM.new]. by rewrite H. Qed.

Section appended.
Context t (cols : list nat) (rows : list (list text)) t' (Ht : table_ok t) (Hst : strings_typed t) (Hev : every_column t cols).
Context (Hlen : Forall (λ row, length row = length cols) rows) (Hap : appended t cols rows t').

Lemma appended_column i : (i < length (columns t))%nat →
  ∃ col, columns t !! i = Some col ∧ length col = row_count t ∧ columns t' !! i = Some (col ++ (cell_of <$> all_vals cols rows i)).
Proof.
  intros Hi. destruct (lookup_lt_is_Some_2 _ _ Hi) as [col Hcol]. exists col. split; [done|].
  split; [exact (Forall_lookup_1 _ _ _ _ (ok_cells _ Ht) Hcol)|]. by rewrite (ap_columns _ _ _ _ Hap), list_lookup_imap, Hcol.
Qed.

Lemma appended_strings i : string_typed t i = true →
  ∃ old, string_col t' i = Some (StringColumnM.new (old ++ (as_bytes <$> (kept_string <$> all_vals cols rows i)))) ∧
    length old = row_count t ∧ ∀ sc r, string_col t i = Some sc → (r < row_count t)%nat → StringColumnM.get sc r = old !! r.
Proof.
  intros Hi. destruct (merged_strings t i (kept_string <$> all_vals cols rows i) Ht Hst) as (old & Ho & Hol & Hog).
  exists old. rewrite (ap_strings _ _ _ _ Hap), Hi, (ap_count _ _ _ _ Hap).
  rewrite length_fmap, (all_vals_length t) in Ho by (done || by apply string_typed_lt). split; [|done]. f_equal. unfold merged in *.
  cbn [StringColumnM.strings StringColumnM.new] in Ho. by rewrite Ho.
Qed.

Lemma appended_ok : table_ok t'.
Proof.
  split.
  - rewrite (ap_names _ _ _ _ Hap), (ap_columns _ _ _ _ Hap), length_imap. apply (ok_names _ Ht).
  - apply Forall_lookup. intros i col Hi.
    assert ((i < length (columns t))%nat) as Hlt by (apply lookup_lt_Some in Hi; by rewrite (ap_columns _ _ _ _ Hap), length_imap in Hi).
    destruct (appended_column i Hlt) as (c0 & _ & Hc0 & E). rewrite E in Hi. injection Hi as <-.
    rewrite length_app, length_fmap, (all_vals_length t) by done. rewrite (ap_count _ _ _ _ Hap). lia.
  - intros i sc. destruct (string_typed t i) eqn:Ei; [|rewrite (ap_strings _ _ _ _ Hap), Ei; intros H; by rewrite (Hst _ _ H) in Ei].
    destruct (appended_strings i Ei) as (old & -> & Hol & _). intros [= <-]. eexists. split; [done|].
    rewrite length_app, !length_fmap, (all_vals_length t) by (done || by apply string_typed_lt). rewrite (ap_count _ _ _ _ Hap). lia.
Qed.

Lemma appended_old i r : flags_fit t i (all_vals cols rows i) → (i < length (columns t))%nat → (r < row_count t)%nat →
  cell t' i r = cell t i r ∧ is_cell_null_dispatch t' i r = is_cell_null_dispatch t i r ∧
  ∀ sc, string_col t i = Some sc → ∃ sc', string_col t' i = Some sc' ∧ StringColumnM.get sc' r = StringColumnM.get sc r.
Proof.
  intros Hfit Hi Hr. destruct (appended_column i Hi) as (c0 & E0 & Hc0 & E1). split; [|split].
  - unfold cell. rewrite E0, E1. cbn [mbind option_bind]. by rewrite lookup_app_l by lia.
  - rewrite !null_lookup, (ap_bitmap _ _ _ _ Hap). by apply note_all_spec.
  - intros sc Hsc. destruct (appended_strings i (Hst _ _ Hsc)) as (old & Ho & Hol & Hog). eexists. split; [exact Ho|].
    rewrite (Hog sc r) by done. destruct (lookup_lt_is_Some_2 old r) as [x Hx]; [lia|]. rewrite Hx. apply get_new_string. by rewrite lookup_app_l by lia.
Qed.

Lemma appended_new i j k row v : flags_fit t i (all_vals cols rows i) → cols !! j = Some i → rows !! k = Some row → row !! j = Some v → readable v →
  cell t' i (row_count t + k) = value_cell v ∧ is_cell_null_dispatch t' i (row_count t + k) = null_text v ∧
  (string_typed t i = true → ∃ sc, string_col t' i = Some sc ∧ StringColumnM.get sc (row_count t + k) = Some (as_bytes (kept_string v))).
Proof.
  intros Hfit Hj Hk Hv Hread. pose proof Hev as (Hnd & _ & Hlt). pose proof (Forall_lookup_1 _ _ _ _ Hlt Hj) as Hi.
  destruct (appended_column i Hi) as (c0 & E0 & Hc0 & E1).
  assert (all_vals cols rows i !! k = Some v) as Hval.
  { rewrite (all_vals_column cols rows j i) by done. rewrite list_lookup_fmap, Hk. cbn. by rewrite Hv. }
  split; [|split].
  - unfold cell. rewrite E1. cbn [mbind option_bind]. rewrite lookup_app_r by lia. replace (row_count t + k - length c0)%nat with k by lia.
    rewrite list_lookup_fmap, Hval. cbn. by rewrite value_cell_ok.
  - rewrite null_lookup, (ap_bitmap _ _ _ _ Hap). by apply (note_all_spec t i _ 0%nat).
  - intros Hty. destruct (appended_strings i Hty) as (old & Ho & Hol & _). eexists. split; [exact Ho|]. apply get_new_string.
    rewrite lookup_app_r by lia. replace (row_count t + k - length old)%nat with k by lia. by rewrite !list_lookup_fmap, Hval.
Qed.
End appended.

(** C7: INSERT. Rows with a readable value for every column of the table, in any order of the
    columns, inserted in a well-formed table (a cell for each row, exactly one string for each row
    in a column with strings) whose schema types every column that has strings as a string column:
    the table stays well formed and grows by these rows; every old row keeps its cells, NULL flags
    and strings; and a new row has, in each column, the cell its value denotes, the NULL flag of
    NULL, and in a string column the value's string. No other table is touched. The condition on
    the schema leaves out tables that were loaded with strings and without a schema: their strings
    are not extended. That of one string for each row leaves out tables after a DELETE. The flags
    need [flags_fit]: a column that has no bitmap yet must not get its first NULL after other rows
    of the same statement, and a bitmap has a flag for each row. INSERTs that give only some of
    the columns are not covered. *)
Theorem insert_correct (now : nat → Z) (e : QueryEngine) t (ins : Insert) (cols : list nat) :
  catalog e !! ins_table ins = Some t → table_ok t → strings_typed t →
  names_columns t (ins_columns ins) cols → every_column t cols → ins_values ins ≠ [] →
  Forall (λ row, length row = length cols) (ins_values ins) → Forall (Forall readable) (ins_values ins) →
  (∀ i, (i < length (columns t))%nat → flags_fit t i (all_vals cols (ins_values ins) i)) →
  ∃ e' t', execute_insert xxh3_64 parse_f64 now ins e = (Ok (affected (length (ins_values ins))), e') ∧
    only_table (ins_table ins) e e' ∧ catalog e' !! ins_table ins = Some t' ∧ table_ok t' ∧
    column_names t' = column_names t ∧ row_count t' = (row_count t + length (ins_values ins))%nat ∧
    (∀ i r, (i < length (columns t))%nat → (r < row_count t)%nat →
      cell t' i r = cell t i r ∧ is_cell_null_dispatch t' i r = is_cell_null_dispatch t i r ∧
      ∀ sc, string_col t i = Some sc → ∃ sc', string_col t' i = Some sc' ∧ StringColumnM.get sc' r = StringColumnM.get sc r) ∧
    (∀ j i k row v, cols !! j = Some i → ins_values ins !! k = Some row → row !! j = Some v →
      cell t' i (row_count t + k) = value_cell v ∧ is_cell_null_dispatch t' i (row_count t + k) = null_text v ∧
      (string_typed t i = true → ∃ sc, string_col t' i = Some sc ∧ StringColumnM.get sc (row_count t + k) = Some (as_bytes (kept_string v)))).
Proof.
  intros Hcat Ht Hst Hnames Hev Hne Hlen Hread Hfit. pose proof Hev as (_ & _ & Hlt).
  destruct (insert_into_spec t ins cols Hnames Hev Hne Hlen Hread) as (trows & t' & E & Hap).
  eexists _, t'. split.
  { unfold execute_insert. rewrite (stM_bind_ok _ _ _ _ _ (with_table_ok _ _ e t _ _ Hcat E)). reflexivity. }
  split; [split; [|done]; intros m Hm; cbn; by rewrite lookup_insert_ne, lookup_alter_ne by done|].
  split; [cbn; apply lookup_insert_eq|]. split; [by apply (appended_ok t cols (ins_values ins))|].
  split; [apply Hap|]. split; [apply Hap|]. split.
  - intros i r Hi Hr. apply (appended_old t cols (ins_values ins)); auto.
  - intros j i k row v Hj Hk Hv. apply (appended_new t cols (ins_values ins) t' Ht Hst Hev Hlen Hap i j k row v); auto.
    + apply Hfit. exact (Forall_lookup_1 _ _ _ _ Hlt Hj).
    + exact (Forall_lookup_1 _ _ _ _ (Forall_lookup_1 _ _ _ _ Hread Hk) Hv).
Qed.
End inserts.

(** *** Examples *)
Abbreviation insert_stmt := (execute_insert (λ _, 0) (λ _, None) (λ _, 0)).

(** [INSERT INTO t (s, a) VALUES ('lime', 11), ('', NULL)], once column [a] has a bitmap. *)
Definition fruit_nulls : Table := set_bitmaps [Some (NullVec.new 3); None] fruit.
Definition shop_nulls : QueryEngine := set_catalog {[K "t" := fruit_nulls]} shop.
Definition two_fruits : Insert := mkInsert (K "t") (Some [K "s"; K "a"]) [[K "'lime'"; K "11"]; [K "''"; K "NULL"]].

Lemma insert_correct_witness :
  ∃ e' t', insert_stmt two_fruits shop_nulls = (Ok (affected 2), e') ∧ catalog e' !! K "t" = Some t' ∧ table_ok t' ∧ row_count t' = 5%nat ∧
    cell t' 0 3 = Ok 11 ∧ is_cell_null_dispatch t' 0 4 = true ∧
    ∃ sc, string_col t' 1 = Some sc ∧ StringColumnM.get sc 3 = Some (K "lime").
Proof.
  destruct (insert_correct (λ _, 0) (λ _, None) (λ _, 0) shop_nulls fruit_nulls two_fruits [1; 0]%nat)
    as (e' & t' & E & _ & Hc & Ht & _ & Hn & _ & Hnew).
  - apply lookup_singleton_eq.
  - split; [done|by repeat constructor|]. intros [|[|i]] sc; [done| |done]. intros [= <-]. by eexists.
  - intros [|[|i]] sc; done.
  - repeat constructor.
  - split; [apply (bool_decide_unpack _); vm_compute; exact I|]. split; [done|]. repeat constructor.
  - done.
  - repeat constructor.
  - repeat constructor.
  - intros [|[|i]] Hi; [done| |cbn in Hi; lia]. left. repeat constructor.
  - exists e', t'. split; [exact E|]. split; [exact Hc|]. split; [exact Ht|]. split; [exact Hn|].
    destruct (Hnew 1%nat 0%nat 0%nat [K "'lime'"; K "11"] (K "11") eq_refl eq_refl eq_refl) as (H1 & _).
    destruct (Hnew 1%nat 0%nat 1%nat [K "''"; K "NULL"] (K "NULL") eq_refl eq_refl eq_refl) as (_ & H2 & _).
    destruct (Hnew 0%nat 1%nat 0%nat [K "'lime'"; K "11"] (K "'lime'") eq_refl eq_refl eq_refl) as (_ & _ & H3).
    split; [exact H1|]. split; [etrans; [exact H2|vm_compute; reflexivity]|].
    destruct (H3 eq_refl) as (sc & Hs & Hg). exists sc. split; [exact Hs|]. etrans; [exact Hg|vm_compute; reflexivity].
Defined.

(** The first NULL of a column, after another row of the same statement, is noted at the
    wrong row; and a statement that names only some of the columns leaves the others short
    of cells, so that the new row cannot be read. *)
Theorem insert_flags_misplaced :
  let one := set_catalog {[K "u" := mkTable (K "u") [[]; []] [K "a"; K "b"] 0 [] [] None]} shop in
  let table e := default fruit (catalog e !! K "u") in
  (let '(r, e) := insert_stmt (mkInsert (K "u") None [[K "1"; K "1"]; [K "NULL"; K "2"]]) one in
   r = Ok (affected 2) ∧ columns (table e) = [[1; 0]; [1; 2]] ∧
   is_cell_null_dispatch (table e) 0 0 = true ∧ is_cell_null_dispatch (table e) 0 1 = false) ∧
  (let '(r, e) := insert_stmt (mkInsert (K "u") (Some [K "b"]) [[K "7"]]) one in
   r = Ok (affected 1) ∧ row_count (table e) = 1%nat ∧ cell (table e) 0 0 = Err Panic).
Proof. by vm_compute. Qed.
End InsertsM.
