(* ===== verification/Transactions.v ===== *)
(** * Transactions of the engine (src/src/engine/mod.rs)

    What a statement depends on and what it leaves alone; BEGIN, COMMIT and ROLLBACK around
    any sequence of statements; savepoints. *)

From Stdlib Require Import ZArith Lia Ascii String.
From stdpp Require Import prelude list numbers gmap.
From S2P Require Import Prelude Nulls Catalog Result Lexer StringColumn Parser Dispatch IndexManager ExprEval Dml Temporal SnapshotTxn Statements.
Local Open Scope Z_scope.

Module TransactionsM.
Import LexerM ParserM CatalogM DispatchM IndexM DmlM StatementsM.

(** ** Frames *)

(** Work that neither reads nor changes what [set] writes. *)
Class Frame {F A : Type} (set : F → QueryEngine → QueryEngine) (m : exec A) : Prop :=
  frame : ∀ x e, m (set x e) = ((m e).1, set x (m e).2).
#[global] Hint Mode Frame - - - ! : typeclass_instances.

#[export] Instance frame_ret {F A} set (a : A) : Frame (F := F) set (mret a).
Proof. done. Qed.
#[export] Instance frame_fail {F A} set (x : Fault) : Frame (F := F) (A := A) set (st_fail x).
Proof. done. Qed.
#[export] Instance frame_bind {F A B} set (m : exec A) (f : A → exec B) : Frame (F := F) set m → (∀ a, Frame set (f a)) → Frame set (m ≫= f).
Proof.
  intros Hm Hf x e. unfold mbind, stM_bind. rewrite Hm. destruct (m e) as [[a|y] e1]; cbn [fst snd]; [|done]. apply Hf.
Qed.

(** A part of the engine that tables and temporal tables are no part of. *)
Class Aside {F : Type} (set : F → QueryEngine → QueryEngine) : Prop := {
  aside_catalog : ∀ x e, catalog (set x e) = catalog e;
  aside_temporals : ∀ x e, temporals (set x e) = temporals e;
  aside_set_catalog : ∀ x c e, set_catalog c (set x e) = set x (set_catalog c e);
  aside_set_temporals : ∀ x m e, set_temporals m (set x e) = set x (set_temporals m e)
}.
#[export] Instance aside_txn : Aside set_txn.
Proof. by split. Qed.
#[export] Instance aside_indexes : Aside set_indexes.
Proof. by split. Qed.
#[export] Instance aside_savepoints : Aside set_savepoints.
Proof. by split. Qed.

(** The indexes are no part of it either. *)
Class AsideIndexes {F : Type} (set : F → QueryEngine → QueryEngine) : Prop := {
  aside_indexes_aside :: Aside set;
  aside_index_manager : ∀ x e, index_manager (set x e) = index_manager e;
  aside_set_indexes : ∀ x m e, set_indexes m (set x e) = set x (set_indexes m e)
}.
#[export] Instance aside_indexes_txn : AsideIndexes set_txn.
Proof. split; [apply _|done..]. Qed.
#[export] Instance aside_indexes_savepoints : AsideIndexes set_savepoints.
Proof. split; [apply _|done..]. Qed.

Section frames.
Context (uni_alnum : Z → bool) (uni_upper : Z → list Z) (xxh3_64 : list Z → Z) (float_bits : text → Z).
Context (parse_f64 : text → option Z).
Context {F : Type} (set : F → QueryEngine → QueryEngine) `{!Aside set}.

#[export] Instance frame_table {A} n (f : on_table A) : Frame set (with_table n f).
Proof.
  intros x e. unfold with_table. rewrite aside_catalog. destruct (catalog e !! n) as [t|]; [|done]. destruct (f t) as [r t'].
  by rewrite aside_set_catalog.
Qed.
#[export] Instance frame_temporal n f : Frame set (with_temporal n f).
Proof. intros x e. unfold with_temporal, st_modify. by rewrite aside_temporals, aside_set_temporals. Qed.

(** INSERT, UPDATE and DELETE work on the tables alone. *)
#[export] Instance frame_dml now d : Frame set (execute_dml uni_alnum uni_upper xxh3_64 float_bits parse_f64 now d).
Proof.
  destruct d as [i|u|d]; cbn [execute_dml].
  - unfold execute_insert. apply _.
  - unfold execute_update. apply frame_bind; [apply _|]. intros []. apply _.
  - unfold execute_delete. apply frame_bind; [apply _|]. intros [mask pks]. destruct (Nat.eqb _ 0); apply _.
Qed.
End frames.

(** What work leaves alone, it leaves as it was. *)
Lemma frame_keeps {F A} (set : F → QueryEngine → QueryEngine) (get : QueryEngine → F) (m : exec A) `{!Frame set m} :
  (∀ e, set (get e) e = e) → (∀ x e, get (set x e) = x) → ∀ e, get (m e).2 = get e.
Proof. intros H1 H2 e. rewrite <- (H1 e) at 1. rewrite frame. apply H2. Qed.

(** ** Statements and the transaction *)
Section transactions.
Context (uni_alnum : Z → bool) (uni_upper : Z → list Z) (xxh3_64 : list Z → Z) (float_bits : text → Z).
Context (parse_f64 : text → option Z) (table_names : Catalog → list text) (Hnames : ∀ c, table_names c ≡ₚ (map_to_list c).*1).
Context (now : nat → Z).
Abbreviation inner_run := (execute_inner uni_alnum uni_upper xxh3_64 float_bits parse_f64 table_names now).
Abbreviation run_one := (execute uni_alnum uni_upper xxh3_64 float_bits parse_f64 table_names now).

(** CREATE, ALTER and DROP. *)
Section ddl.
Context {F : Type} (set : F → QueryEngine → QueryEngine) `{!AsideIndexes set}.

#[local] Instance frame_alter at_ : Frame set (execute_alter_table xxh3_64 parse_f64 at_).
Proof.
  unfold execute_alter_table. destruct (at_action at_); try apply _. apply frame_bind; [apply _|]. intros []. apply frame_bind; [|apply _].
  intros x e. unfold st_modify. by rewrite aside_index_manager, aside_set_indexes.
Qed.
#[local] Instance frame_ddl d : Frame set (execute_ddl xxh3_64 parse_f64 d).
Proof.
  destruct d; cbn [execute_ddl]; try apply _; intros x e; unfold execute_create_index, execute_drop_index; rewrite ?aside_catalog, ?aside_index_manager;
    repeat case_match; rewrite ?aside_set_catalog, ?aside_set_indexes; done.
Qed.
#[local] Instance frame_run_ddl v d : Frame set (run_ddl xxh3_64 parse_f64 (now 0%nat) v d).
Proof.
  unfold run_ddl. apply frame_bind; [apply _|]. intros r. apply frame_bind; [|apply _]. intros x e. unfold st_modify.
  rewrite aside_catalog. repeat case_match; by rewrite ?aside_temporals, ?aside_set_temporals.
Qed.
End ddl.
#[local] Existing Instance frame_run_ddl.

#[local] Instance frame_inner s : Frame set_txn (inner_run s).
Proof.
  destruct s; cbn [execute_inner]; try apply _.
  - by intros x e.
  - intros x e. unfold execute_rollback_to. cbn [savepoints set_txn]. by destruct (rposition n (savepoints e) ≫= _) as [[]|].
  - intros x e. unfold execute_release_savepoint. cbn [savepoints set_txn]. by destruct (rposition n (savepoints e)).
Qed.

(** INSERT, UPDATE, DELETE, DDL and the statements on savepoints: those that run on the
    snapshot of a transaction. *)
Definition is_work (s : Stmt) : Prop := match s with Savepoint _ | RollbackTo _ | Release _ | Ddl _ _ | Dml _ => True | _ => False end.

(** Statements one after the other, and what each returned. *)
Fixpoint run_all (ss : list Stmt) (e : QueryEngine) : list (run ResultM.QueryResult) * QueryEngine :=
  match ss with
  | [] => ([], e)
  | s :: ss => let '(r, e1) := run_one s e in let '(rs, e2) := run_all ss e1 in (r :: rs, e2)
  end.

Definition idle (e : QueryEngine) : Prop := SnapshotTxn.active (txn_manager e) = None.

(** The engine [e] in a transaction on the catalog [main]. *)
Definition inside (main : Catalog) (i : Z) (b : bool) (e : QueryEngine) : QueryEngine :=
  set_txn (SnapshotTxn.mkTM (SnapshotTxn.next_id (txn_manager e)) (Some (SnapshotTxn.mkTxn i (catalog e) b))) (set_catalog main e).

Lemma work_idle s e : is_work s → idle e → run_one s e = inner_run s e.
Proof. unfold idle, execute. intros Hs Hi. destruct s; try done; by rewrite Hi. Qed.

Lemma inner_keeps_txn s e : txn_manager (inner_run s e).2 = txn_manager e.
Proof. apply (frame_keeps set_txn txn_manager (inner_run s)); [by intros []|done]. Qed.

Lemma work_keeps_idle s e : is_work s → idle e → idle (run_one s e).2.
Proof. intros Hs Hi. rewrite work_idle by done. unfold idle. by rewrite inner_keeps_txn. Qed.

(** A statement inside a transaction does what it does outside, on the snapshot. *)
Lemma inside_step main i b s e : is_work s → idle e →
  run_one s (inside main i b e) =
    match run_one s e with (Err Panic, e') => (Err Panic, e') | (r, e') => (r, inside main i b e') end.
Proof.
  intros Hs Hi. rewrite (work_idle s e) by done.
  assert (SnapshotTxn.mkTM (SnapshotTxn.next_id (txn_manager e)) None = txn_manager e) as Hm.
  { unfold idle in Hi. destruct (txn_manager e); cbn in *. by subst. }
  assert (set_txn (txn_manager e) (set_catalog (catalog e) (inside main i b e)) = e) as He by (by destruct e).
  destruct s; try done; cbn; rewrite Hm, He; by match goal with |- context [match ?x with (_, _) => _ end] => destruct x as [[r|[]] e'] end.
Qed.

Lemma work_inside main i b s e : is_work s → idle e → (run_one s e).1 ≠ Err Panic →
  run_one s (inside main i b e) = ((run_one s e).1, inside main i b (run_one s e).2).
Proof. intros Hs Hi. rewrite inside_step by done. by destruct (run_one s e) as [[r|[]] e']. Qed.

Definition no_panic (rs : list (run ResultM.QueryResult)) : Prop := Forall (λ r, r ≠ Err Panic) rs.

Lemma run_all_inside main i b ss e : Forall is_work ss → idle e → no_panic (run_all ss e).1 →
  run_all ss (inside main i b e) = ((run_all ss e).1, inside main i b (run_all ss e).2).
Proof.
  intros Hs. revert e. induction Hs as [|s ss Hs _ IH]; intros e Hi; [done|]. cbn [run_all].
  pose proof (work_inside main i b s e Hs Hi) as Hw. pose proof (work_keeps_idle s e Hs Hi) as Hi'.
  destruct (run_one s e) as [r e1]. cbn [fst snd] in *. specialize (IH e1 Hi'). destruct (run_all ss e1) as [rs e2]. cbn [fst snd] in *.
  intros [Hp Hps]%Forall_cons_1. by rewrite Hw, IH.
Qed.

Lemma no_panic_inside main i b ss e : Forall is_work ss → idle e → no_panic (run_all ss (inside main i b e)).1 → no_panic (run_all ss e).1.
Proof.
  intros Hs. revert e. induction Hs as [|s ss Hs _ IH]; intros e Hi; [done|]. cbn [run_all]. rewrite inside_step by done.
  pose proof (work_keeps_idle s e Hs Hi) as Hi'. destruct (run_one s e) as [r e1]. cbn [snd] in Hi'. specialize (IH e1 Hi').
  destruct r as [r|[|x]]; [|by destruct (run_all ss e1); intros [? _]%Forall_cons_1|];
    destruct (run_all ss (inside main i b e1)), (run_all ss e1); cbn [fst] in *; intros [? ?]%Forall_cons_1; (apply Forall_cons_2; [done|by apply IH]).
Qed.

Lemma run_all_keeps_idle ss e : Forall is_work ss → idle e → idle (run_all ss e).2.
Proof.
  intros Hs. revert e. induction Hs as [|s ss Hs _ IH]; intros e Hi; [done|]. cbn [run_all]. pose proof (work_keeps_idle s e Hs Hi) as Hi'.
  destruct (run_one s e) as [r e1]. specialize (IH e1 Hi'). by destruct (run_all ss e1).
Qed.

Lemma run_all_idle x ss e : Forall is_work ss → idle e → SnapshotTxn.active x = None →
  run_all ss (set_txn x e) = ((run_all ss e).1, set_txn x (run_all ss e).2).
Proof.
  intros Hs. revert e. induction Hs as [|s ss Hs _ IH]; intros e Hi Hx; [done|]. cbn [run_all]. pose proof (work_keeps_idle s e Hs Hi) as Hi'.
  rewrite !work_idle in * by done. rewrite frame. destruct (inner_run s e) as [r e1]. cbn [fst snd] in *. rewrite IH by done.
  by destruct (run_all ss e1).
Qed.

(** C4: a transaction of INSERTs, UPDATEs, DELETEs, DDL statements and statements on
    savepoints is all or nothing.  Provided none of them panics, each returns what it would
    return outside a transaction, while the catalog stays as it was at BEGIN; COMMIT then
    installs the catalog these statements lead to outside a transaction, ROLLBACK leaves
    the catalog as it was.  Either way the engine is idle again and the savepoints are
    gone.  The claim is about the catalog: indexes and the histories of versioned tables
    are not restored ([rollback_leaves_indexes_and_history]); and EXPLAIN, ANALYZE, VACUUM,
    COPY and CHECKPOINT are not among the statements, since they run on the main catalog
    whatever transaction is open ([copy_escapes_transaction]). *)
Theorem transaction_atomic ss e : Forall is_work ss → idle e → cat_wf (catalog e) → no_panic (run_all ss e).1 →
  ∃ e1 e2, run_one Begin e = (Ok ResultM.empty, e1) ∧ run_all ss e1 = ((run_all ss e).1, e2) ∧ catalog e1 = catalog e ∧ catalog e2 = catalog e ∧
    (∃ e3, run_one Commit e2 = (Ok ResultM.empty, e3) ∧ catalog e3 = catalog (run_all ss e).2 ∧ idle e3 ∧ savepoints e3 = []) ∧
    (∃ e3, run_one Rollback e2 = (Ok ResultM.empty, e3) ∧ catalog e3 = catalog e ∧ idle e3 ∧ savepoints e3 = []).
Proof.
  intros Hs Hi Hwf Hp. set (m := txn_manager e). set (x := SnapshotTxn.mkTM (wrap_u 64 (SnapshotTxn.next_id m + 1)) None : Manager).
  set (e1 := inside (catalog e) (SnapshotTxn.next_id m) true (set_txn x e)).
  pose proof (run_all_idle x ss e Hs Hi eq_refl) as Hx.
  assert (run_one Begin e = (Ok ResultM.empty, e1)) as Hb.
  { unfold execute, st_get, on_txn. cbn [mbind stM_bind]. unfold SnapshotTxn.begin_txn, mbind, stM_bind. unfold idle in Hi. rewrite Hi.
    rewrite clone_catalog_eq by done. by destruct e. }
  exists e1. eexists. split; [exact Hb|]. unfold e1. rewrite run_all_inside; [|done|done|by rewrite Hx]. rewrite Hx. cbn [fst snd].
  split; [done|]. split; [done|]. split; [done|]. split; eexists; done.
Qed.

(** ** Savepoints *)

(** The tables a statement sees. *)
Definition visible (e : QueryEngine) : Catalog :=
  match SnapshotTxn.active (txn_manager e) with Some t => SnapshotTxn.snapshot t | None => catalog e end.

(** Work that keeps to savepoints of other names. *)
Definition other_savepoints (n : text) (s : Stmt) : Prop :=
  match s with Savepoint m => m ≠ n | Ddl _ _ | Dml _ => True | _ => False end.

Lemma inner_savepoints n s e : other_savepoints n s →
  ∃ more, savepoints (inner_run s e).2 = savepoints e ++ more ∧ Forall (λ x, x.1 ≠ n) more.
Proof.
  destruct s as [| | |m|m|m|v d|d| | | | | |]; try done; cbn [other_savepoints execute_inner]; intros H.
  - exists [(m, clone_catalog table_names (catalog e))]. split; [done|]. by repeat constructor.
  - exists []. split; [|done]. rewrite app_nil_r. apply (frame_keeps set_savepoints savepoints (run_ddl xxh3_64 parse_f64 (now 0%nat) v d)); [by intros []|done].
  - exists []. split; [|done]. rewrite app_nil_r.
    apply (frame_keeps set_savepoints savepoints (execute_dml uni_alnum uni_upper xxh3_64 float_bits parse_f64 now d)); [by intros []|done].
Qed.

Lemma other_is_work n s : other_savepoints n s → is_work s.
Proof. by destruct s. Qed.

Lemma run_all_savepoints n ss e : Forall (other_savepoints n) ss → idle e →
  ∃ more, savepoints (run_all ss e).2 = savepoints e ++ more ∧ Forall (λ x, x.1 ≠ n) more.
Proof.
  intros Hs. revert e. induction Hs as [|s ss Hs _ IH]; intros e Hi; [exists []; by rewrite app_nil_r|]. cbn [run_all].
  pose proof (work_keeps_idle s e (other_is_work _ _ Hs) Hi) as Hi'. rewrite work_idle in * by (done || by eapply other_is_work).
  destruct (inner_savepoints n s e Hs) as (m1 & E1 & H1). destruct (inner_run s e) as [r e1]. cbn [fst snd] in *.
  destruct (IH e1 Hi') as (m2 & E2 & H2). destruct (run_all ss e1) as [rs e2]. cbn [snd] in *.
  exists (m1 ++ m2). rewrite E2, E1, <- app_assoc. split; [done|]. by apply Forall_app.
Qed.

Lemma rposition_none n l : Forall (λ x : text * Catalog, x.1 ≠ n) l → rposition n l = None.
Proof. induction 1 as [|x l Hx _ IH]; [done|]. cbn [rposition]. rewrite IH. unfold text_eqb. by rewrite bool_decide_false. Qed.
Lemma rposition_last n c l more : Forall (λ x : text * Catalog, x.1 ≠ n) more → rposition n (l ++ (n, c) :: more) = Some (length l).
Proof.
  intros H. induction l as [|x l IH]; cbn [rposition app length]; [|by rewrite IH].
  rewrite rposition_none by done. cbn [fst]. unfold text_eqb. by rewrite bool_decide_true.
Qed.

Lemma rollback_to_idle n ss e : Forall (other_savepoints n) ss → idle e → cat_wf (catalog e) →
  let e2 := (run_all ss (run_one (Savepoint n) e).2).2 in
  ∃ e3, run_one (RollbackTo n) e2 = (Ok ResultM.empty, e3) ∧ catalog e3 = catalog e ∧ savepoints e3 = savepoints e ++ [(n, catalog e)] ∧ idle e3.
Proof.
  intros Hs Hi Hwf e2. set (e1 := (run_one (Savepoint n) e).2) in *.
  assert (e1 = set_savepoints (savepoints e ++ [(n, catalog e)]) e) as E1.
  { unfold e1. rewrite work_idle by done. cbn. by rewrite clone_catalog_eq. }
  assert (idle e1) as Hi1 by (by rewrite E1). destruct (run_all_savepoints n ss e1 Hs Hi1) as (more & E2 & Hm).
  assert (idle e2) as Hi2 by (apply run_all_keeps_idle; [apply (Forall_impl _ _ _ Hs), other_is_work|done]).
  assert (savepoints e2 = savepoints e ++ (n, catalog e) :: more) as E3.
  { unfold e2. rewrite E2, E1. cbn [set_savepoints savepoints]. by rewrite <- app_assoc. }
  clearbody e2. eexists. rewrite work_idle by done. cbn [execute_inner]. unfold execute_rollback_to. rewrite E3, rposition_last by done.
  cbn [mbind option_bind]. rewrite list_lookup_middle by done. cbn [option_bind snd]. split; [done|].
  cbn [set_savepoints set_catalog catalog savepoints]. rewrite clone_catalog_eq by done. split; [done|]. split; [|done].
  rewrite (cons_middle (n, catalog e)), app_assoc, take_app_length'; [done|]. rewrite length_app. cbn. lia.
Qed.

(** An engine in a transaction is an idle one looked at from inside. *)
Lemma inside_of e t : SnapshotTxn.active (txn_manager e) = Some t →
  ∃ e0, e = inside (catalog e) (SnapshotTxn.id t) (SnapshotTxn.txn_active t) e0 ∧ idle e0 ∧ catalog e0 = SnapshotTxn.snapshot t ∧ savepoints e0 = savepoints e.
Proof.
  intros H. exists (set_txn (SnapshotTxn.mkTM (SnapshotTxn.next_id (txn_manager e)) None) (set_catalog (SnapshotTxn.snapshot t) e)).
  split; [|done]. destruct e as [c im tm [nid a] sp], t as [i snap b]. cbn in *. by subst.
Qed.

(** ROLLBACK TO a savepoint.  In a transaction or outside one, whatever the statements
    after SAVEPOINT did, and whatever savepoints of other names they set, ROLLBACK TO
    gives back the tables as they were at SAVEPOINT and drops the later savepoints; the
    savepoint itself remains for another ROLLBACK TO. *)
Theorem rollback_to_restores n ss e e1 e2 rs : Forall (other_savepoints n) ss → cat_wf (visible e) →
  run_one (Savepoint n) e = (Ok ResultM.empty, e1) → run_all ss e1 = (rs, e2) → no_panic rs →
  ∃ e3, run_one (RollbackTo n) e2 = (Ok ResultM.empty, e3) ∧ visible e3 = visible e ∧ savepoints e3 = savepoints e ++ [(n, visible e)].
Proof.
  intros Hs Hwf H1 H2 Hp. assert (Forall is_work ss) as Hw by (apply (Forall_impl _ _ _ Hs), other_is_work). unfold visible in Hwf |- *. destruct (SnapshotTxn.active (txn_manager e)) as [t|] eqn:E.
  - destruct (inside_of e t E) as (e0 & He & Hi & Hc & Hsp). rewrite <- Hc, <- Hsp in *. rewrite He in H1.
    rewrite work_inside in H1 by (done || by rewrite work_idle). apply pair_equal_spec in H1 as [_ <-].
    assert (idle (run_one (Savepoint n) e0).2) as Hi1 by (by apply work_keeps_idle).
    destruct (rollback_to_idle n ss e0 Hs Hi Hwf) as (e3 & H3 & Hc3 & Hs3 & Hi3).
    rewrite run_all_inside in H2; [|done|done|by apply (no_panic_inside (catalog e) (SnapshotTxn.id t) (SnapshotTxn.txn_active t)); rewrite ?H2].
    apply pair_equal_spec in H2 as [_ <-]. exists (inside (catalog e) (SnapshotTxn.id t) (SnapshotTxn.txn_active t) e3).
    rewrite work_inside; [|done|by apply run_all_keeps_idle|by rewrite H3]. by rewrite H3.
  - destruct (rollback_to_idle n ss e Hs E Hwf) as (e3 & H3 & Hc3 & Hs3 & Hi3). rewrite H1 in H3. cbn [snd] in H3. rewrite H2 in H3. exists e3.
    unfold idle in Hi3. by rewrite Hi3.
Qed.
End transactions.

(** ** Examples *)
Definition ledger_table : Table := mkTable (K "t") [[1]; [10]] [K "id"; K "v"] 1 [None; None] [None; None] None.
Definition ledger : QueryEngine :=
  mkEngine {[K "t" := ledger_table]} im_new {[K "t" := TemporalM.insert [1; 10] 5 (TemporalM.new [K "id"; K "v"] 0)]} SnapshotTxn.manager_new [].
Definition names (c : Catalog) : list text := (map_to_list c).*1.
Abbreviation run_stmts := (run_all (λ _, true) (λ c, [c]) (λ _, 0) (λ _, 0) (λ _, None) names (λ i, 10 + Z.of_nat i)).
Definition add_two : Stmt := Dml (DInsert (mkInsert (K "t") None [[K "2"; K "20"]])).
Definition set_all : Stmt := Dml (DUpdate (mkUpdate (K "t") [(K "v", K "7")] None)).
Definition index_id : Stmt := Ddl None (CreateIdx (mkCI (K "i") (K "t") (K "id") false)).
Definition tables (e : QueryEngine) : list (list (list Z)) := (λ x, columns x.2) <$> map_to_list (catalog e).

Lemma ledger_wf : cat_wf (catalog ledger).
Proof. unfold ledger. cbn [catalog]. intros n t [<- <-]%lookup_singleton_Some. done. Qed.

(** COPY FROM and ANALYZE reach the main catalog from inside a transaction, and ROLLBACK does not
    take their rows back. *)
Lemma copy_escapes_transaction :
  tables (run_stmts [Begin; CopyFrom (Some [mkInsert (K "t") None [[K "2"; K "20"]]]); Rollback] ledger).2 = [[[1; 2]; [10; 20]]] ∧
  tables (run_stmts [Begin; Analyze 0 [] add_two; Rollback] ledger).2 = [[[1; 2]; [10; 20]]].
Proof. split; by vm_compute. Qed.

Lemma transaction_atomic_witness :
  let ss := [add_two; Dml (DDelete (mkDelete (K "nowhere") None)); Savepoint (K "s"); set_all] in
  tables (run_stmts (Begin :: ss ++ [Rollback]) ledger).2 = [[[1]; [10]]] ∧
  tables (run_stmts (Begin :: ss ++ [Commit]) ledger).2 = [[[1; 2]; [7; 7]]] ∧
  ∃ e1 e2, run_stmts [Begin] ledger = ([Ok ResultM.empty], e1) ∧ run_stmts ss e1 = ((run_stmts ss ledger).1, e2) ∧ catalog e2 = catalog ledger ∧
    ∃ e3, run_stmts [Commit] e2 = ([Ok ResultM.empty], e3) ∧ catalog e3 = catalog (run_stmts ss ledger).2.
Proof.
  intros ss. split; [by vm_compute|]. split; [by vm_compute|].
  destruct (transaction_atomic (λ _, true) (λ c, [c]) (λ _, 0) (λ _, 0) (λ _, None) names (λ c, reflexivity _) (λ i, 10 + Z.of_nat i) ss ledger)
    as (e1 & e2 & H1 & H2 & _ & Hc & (e3 & H3 & Hc3 & _) & _).
  - by repeat constructor.
  - done.
  - apply ledger_wf.
  - vm_compute. by repeat constructor.
  - exists e1, e2. cbn [run_all]. rewrite H1. split; [done|]. split; [exact H2|]. split; [done|]. exists e3. by rewrite H3.
Defined.

Lemma rollback_to_restores_witness :
  let e := (run_stmts [Begin; add_two] ledger).2 in
  let e1 := (run_stmts [Savepoint (K "s")] e).2 in
  let e2 := (run_stmts [set_all; Savepoint (K "u"); add_two] e1).2 in
  ∃ e3, run_stmts [RollbackTo (K "s")] e2 = ([Ok ResultM.empty], e3) ∧ visible e3 = visible e ∧ visible e2 ≠ visible e.
Proof.
  intros e e1 e2.
  destruct (rollback_to_restores (λ _, true) (λ c, [c]) (λ _, 0) (λ _, 0) (λ _, None) names (λ c, reflexivity _) (λ i, 10 + Z.of_nat i) (K "s")
    [set_all; Savepoint (K "u"); add_two] e e1 e2 (run_stmts [set_all; Savepoint (K "u"); add_two] e1).1) as (e3 & H & Hv & _).
  - repeat constructor. cbn. by intros [=].
  - assert (∃ t, visible e = {[K "t" := t]} ∧ name t = K "t") as (t & -> & <-) by (eexists; split; vm_compute; reflexivity).
    by intros n t' [<- <-]%lookup_singleton_Some.
  - by vm_compute.
  - apply surjective_pairing.
  - vm_compute. by repeat constructor.
  - exists e3. cbn [run_all]. rewrite H. split; [done|]. split; [done|]. intros E%(f_equal (λ c, (λ t, columns t) <$> (c !! K "t"))). revert E. by vm_compute.
Defined.

(** ROLLBACK gives back the tables alone: an index made in the transaction stays, with rows
    the table does not have, and the temporal table keeps the rows inserted. *)
Theorem rollback_leaves_indexes_and_history :
  let e := (run_stmts [Begin; add_two; index_id; Rollback] ledger).2 in
  tables e = [[[1]; [10]]] ∧ has_index (K "t") (K "id") (index_manager e) = true ∧
  lookup_rows (K "t") (K "id") 2 (index_manager e) = Some [1%nat] ∧
  TemporalM.query_as_of 100 <$> temporals e !! K "t" = Some [[1; 10]; [2; 20]].
Proof. by vm_compute. Qed.

(** An UPDATE of the key column looks for the new key in the temporal table, so the row
    there keeps its old key. *)
Theorem update_of_key_loses_history :
  let e := (run_stmts [Dml (DUpdate (mkUpdate (K "t") [(K "id", K "3")] None))] ledger).2 in
  tables e = [[[3]; [10]]] ∧ TemporalM.query_as_of 100 <$> temporals e !! K "t" = Some [[1; 10]].
Proof. by vm_compute. Qed.
End TransactionsM.
