(* ===== verification/Filters.v ===== *)
(** * The two evaluators of WHERE in the executor (src/src/engine/executor.rs,
    src/src/exec/vectorized.rs)

    The executor hands a parsed WHERE clause to the vectorised evaluator by printing it
    back as an expression over columns named by their numbers; this file compares that
    with the evaluation row by row. *)

From Stdlib Require Import ZArith Lia Ascii String.
From stdpp Require Import prelude list numbers gmap.
From S2P Require Import Prelude Nulls Catalog Result Sorting Lexer StringColumn Bitmap Parser Window Vectorized Parallel ScanKernels Dispatch Where.
From S2P Require Import HashJoin Joins ExprEval Executor.
Local Open Scope Z_scope.

Module FiltersM.
Import LexerM ParserM CatalogM VectorizedM DispatchM WhereM HashJoinM JoinsM ExecutorM.

(** ** Numbers as column names *)
Lemma fmt_u64_digits n : in_u 64 n → Forall (λ c, is_digit c = true) (fmt_u64 n) ∧ digits_value (fmt_u64 n) = n ∧ fmt_u64 n ≠ [].
Proof. intros Hn. apply dec_digits; [|lia]. unfold in_u in Hn. split; [lia|]. change (10 ^ Z.of_nat 20) with 100000000000000000000. lia. Qed.

Lemma parse_u64_fmt n : in_u 64 n → parse_u64 (fmt_u64 n) = Some n.
Proof.
  intros Hn. destruct (fmt_u64_digits n Hn) as (H1 & H2 & H3). unfold parse_u64.
  assert ((match fmt_u64 n with c :: s' => if Z.eqb c 43 then s' else fmt_u64 n | [] => [] end) = fmt_u64 n) as ->.
  { destruct (fmt_u64 n) as [|c s]; [done|]. apply Forall_cons_1 in H1 as [Hc _]. by destruct (Z.eqb_spec c 43) as [->|]. }
  unfold parse_digits. rewrite bool_decide_false by done. assert (existsb (λ c, negb (is_digit c)) (fmt_u64 n) = false) as ->.
  { clear - H1. induction H1 as [|c l Hc Hl IH]; [done|]. simpl. by rewrite Hc, IH. }
  cbn [orb mbind option_bind]. rewrite H2, (proj2 (Z.ltb_lt _ _)) by (unfold in_u in Hn; lia). done.
Qed.

Lemma after_dot_digits s : Forall (λ c, is_digit c = true) s → after_dot s = None.
Proof. induction 1 as [|c s Hc Hs IH]; [done|]. simpl. by destruct (Z.eqb_spec c 46) as [->|]. Qed.

Lemma position_None {A} (p : A → bool) l : (∀ x, x ∈ l → p x = false) → VectorizedM.position p l = None.
Proof. induction l as [|x l IH]; intros H; [done|]. simpl. rewrite (H x) by set_solver. rewrite IH by set_solver. done. Qed.

Lemma resolve_index i names : in_u 64 (Z.of_nat i) → fmt_u64 (Z.of_nat i) ∉ names → resolve_name (fmt_u64 (Z.of_nat i)) names = Some i.
Proof.
  intros Hi Hn. unfold resolve_name. rewrite position_None.
  - destruct (fmt_u64_digits _ Hi) as (H1 & _). rewrite (after_dot_digits _ H1). cbn [mbind option_bind].
    rewrite (parse_u64_fmt _ Hi). cbn. by rewrite Nat2Z.id.
  - intros x Hx. unfold text_eqb. rewrite bool_decide_false; [done|]. by intros ->.
Qed.

Lemma signed_unsigned v : in_u 64 v → wrap_u 64 (as_signed 64 v) = v.
Proof.
  unfold in_u, as_signed, wrap_u. intros H. rewrite (Z.mod_small v) by lia. destruct (Z.ltb_spec v (2 ^ (64 - 1))).
  - apply Z.mod_small. lia.
  - rewrite <- (Z.mod_small v (2 ^ 64)) at 2 by lia. rewrite <- (Z_mod_plus_full (v - 2 ^ 64) 1 (2 ^ 64)). f_equal. lia.
Qed.

Section filters.
Context (uni_upper : Z → list Z) (xxh3_64 : list Z → Z) (float_bits : text → Z).
Abbreviation Table := (CatalogM.Table StringColumnM.StringSearchColumn ExprEvalM.TableSchema).
Implicit Types t : Table.

(** A parsed clause over the columns of [t], with the operators the parser accepts. *)
Fixpoint clause_ok t (w : WhereClause) : Prop :=
  match w with
  | WNone => False
  | WSingle f => (col_idx f < length (columns t))%nat ∧ is_comparison (op f) = true ∧ in_u 64 (value f) ∧ fmt_u64 (Z.of_nat (col_idx f)) ∉ column_names t
  | WAnd a b | WOr a b => clause_ok t a ∧ clause_ok t b
  end.
Definition where_ok t (w : WhereClause) : Prop := w = WNone ∨ clause_ok t w.

(** The meaning of a clause at a row. *)
Fixpoint clause_at t (w : WhereClause) (i : nat) : bool :=
  match w with
  | WNone => true
  | WSingle f => cell_matches (op f) (default 0 (col ← columns t !! col_idx f; col !! i)) (value f)
  | WAnd a b => clause_at t a i && clause_at t b i
  | WOr a b => clause_at t a i || clause_at t b i
  end.
Definition clause_rows t (w : WhereClause) : list nat := filter (λ i, clause_at t w i = true) (seq 0 (row_count t)).

(** *** Row by row *)
Lemma row_matches_spec t w i : clause_ok t w → row_matches w (row_at t i) = Ok (clause_at t w i).
Proof.
  induction w as [|f|a IHa b IHb|a IHa b IHb]; [done|..]; cbn [row_matches clause_at].
  - intros (H & _). destruct (lookup_lt_is_Some_2 _ _ H) as [col Hc]. rewrite (row_at_lookup _ _ _ _ Hc), Hc. done.
  - intros [Ha Hb]. rewrite IHa by done. cbn [mbind result_bind]. destruct (clause_at t a i); [by apply IHb|done].
  - intros [Ha Hb]. rewrite IHa by done. cbn [mbind result_bind]. destruct (clause_at t a i); [done|by apply IHb].
Qed.

Lemma matching_rows_spec t w rows : full t → clause_ok t w → Forall (λ i, (i < row_count t)%nat) rows →
  matching_rows w t rows = Ok (filter (λ i, clause_at t w i = true) rows).
Proof.
  intros Ht Hw. induction 1 as [|i rows Hi H IH]; [done|]. cbn [matching_rows]. rewrite (cells_of_spec t i Ht Hi). cbn [mbind result_bind].
  rewrite row_matches_spec by done. cbn [mbind result_bind]. rewrite IH. cbn [mbind result_bind]. rewrite filter_cons.
  by destruct (clause_at t w i).
Qed.

Lemma filter_old_spec t w : full t → where_ok t w → filter_indices_old w t = Ok (clause_rows t w).
Proof.
  intros Ht [->|Hw]; [unfold clause_rows; cbn; by rewrite filter_all|].
  unfold filter_indices_old. destruct w; [done|..]; (apply matching_rows_spec; [done|done|]); apply list.Forall_forall; intros i Hi%elem_of_seq; lia.
Qed.

(** *** As a mask *)
Lemma compare_into_spec f col mask : is_comparison (op f) = true → length col = length mask →
  compare_into (op f) col (value f) mask = Some ((λ c, cell_matches (op f) c (value f)) <$> col).
Proof.
  intros Ho Hl.
  assert (∀ p, filter_into p col mask = Some (p <$> col)) as Hf.
  { intros p. unfold filter_into. rewrite bool_decide_true by lia. by rewrite Hl, drop_all, app_nil_r. }
  unfold is_comparison in Ho. apply bool_decide_eq_true in Ho. rewrite !elem_of_cons, elem_of_nil in Ho.
  unfold compare_into, filter_eq, filter_ne, filter_lt, filter_gt, filter_le, filter_ge. rewrite !Hf.
  destruct Ho as [->|[->|[->|[->|[->|[->|[]]]]]]]; reflexivity.
Qed.

Lemma mask_of_rows t c col (f : Z → bool) : length col = row_count t → columns t !! c = Some col →
  f <$> col = (λ i, f (default 0 (col ← columns t !! c; col !! i))) <$> seq 0 (row_count t).
Proof.
  intros Hl Hc. apply list_eq. intros i. rewrite !list_lookup_fmap, Hc. destruct (col !! i) as [x|] eqn:E.
  - rewrite lookup_seq_lt by (rewrite <- Hl; by eapply lookup_lt_Some). cbn. by rewrite E.
  - rewrite lookup_seq_ge by (rewrite <- Hl; by apply lookup_ge_None_1). done.
Qed.

Abbreviation eval t := (eval_where uni_upper xxh3_64 float_bits (columns t) (column_names t) (row_count t)).

Lemma zip_into_spec (g : bool → bool → bool) {A} (f1 f2 : A → bool) (rows : list A) (out : list bool) : length out = length rows →
  zip_into g (f1 <$> rows) (f2 <$> rows) out = Some ((λ i, g (f1 i) (f2 i)) <$> rows).
Proof.
  intros Hl. unfold zip_into. rewrite !length_fmap, !bool_decide_true by lia. cbn [andb]. rewrite <- Hl, drop_all, app_nil_r. f_equal.
  clear. induction rows as [|i rows IH]; [done|]. rewrite !fmap_cons. cbn [zip_with]. by rewrite IH.
Qed.

Lemma eval_clause t w mask : full t → Z.of_nat (length (columns t)) < 2 ^ 64 → clause_ok t w → length mask = row_count t →
  eval t (where_clause_to_expr w) mask = Some (clause_at t w <$> seq 0 (row_count t)).
Proof.
  intros Ht Hc. revert mask. induction w as [|f|a IHa b IHb|a IHa b IHb]; [done|..]; cbn [where_clause_to_expr]; intros mask Hw Hm.
  - destruct Hw as (Hi & Ho & Hv & Hn). destruct (lookup_lt_is_Some_2 _ _ Hi) as [col Hcol].
    pose proof (Forall_lookup_1 _ _ _ _ Ht Hcol) as Hl. simpl in Hl. cbn [filter_to_expr eval_where].
    assert (upper uni_upper (op f) = op f ∧ text_eqb (op f) (K "AND") = false ∧ text_eqb (op f) (K "OR") = false) as (-> & -> & ->).
    { unfold is_comparison in Ho. apply bool_decide_eq_true in Ho. rewrite !elem_of_cons, elem_of_nil in Ho.
      destruct Ho as [->|[->|[->|[->|[->|[->|[]]]]]]]; by split_and!. }
    cbn [extract_col_and_value_batch]. rewrite resolve_index; [|unfold in_u; lia|done]. cbn [value_to_u64].
    rewrite signed_unsigned, Hcol by done. cbn [mbind option_bind]. rewrite compare_into_spec by (done || lia). f_equal. cbn [clause_at].
    by apply (mask_of_rows t (col_idx f) col (λ c, cell_matches (op f) c (value f))).
  - destruct Hw as [Ha Hb].
    change (eval t (Binary ?x (K "AND") ?y) mask) with
      (l ← eval t x mask; r ← eval t y (replicate (row_count t) true); and_mask l r l).
    rewrite IHa by done. cbn [mbind option_bind]. rewrite IHb by (by rewrite ?length_replicate). cbn [mbind option_bind].
    apply zip_into_spec. by rewrite length_fmap.
  - destruct Hw as [Ha Hb].
    change (eval t (Binary ?x (K "OR") ?y) mask) with
      (l ← eval t x (replicate (row_count t) true); r ← eval t y (replicate (row_count t) true); or_mask l r mask).
    rewrite IHa by (by rewrite ?length_replicate). cbn [mbind option_bind]. rewrite IHb by (by rewrite ?length_replicate). cbn [mbind option_bind].
    apply zip_into_spec. by rewrite length_seq.
Qed.

(** WHERE in the executor.  The vectorised evaluation of a parsed WHERE clause, which
    goes through an expression over columns named by their numbers, returns without a
    fault the same rows as the evaluation row by row: those at which the clause holds, in
    order.  The numbers must not be names of columns. *)
Theorem filter_indices_equiv t w : full t → Z.of_nat (length (columns t)) < 2 ^ 64 → where_ok t w →
  filter_indices uni_upper xxh3_64 float_bits w t = Ok (clause_rows t w) ∧ filter_indices_old w t = Ok (clause_rows t w).
Proof.
  intros Ht Hc Hw. split; [|by apply filter_old_spec]. unfold filter_indices, filter_indices_batch. destruct Hw as [->|Hw].
  { unfold clause_rows. cbn. by rewrite filter_all. }
  assert (or_panic (filter_rows uni_upper xxh3_64 float_bits (columns t) (column_names t) (row_count t) (where_clause_to_expr w)) = Ok (clause_rows t w)) as H;
    [|by destruct w].
  unfold filter_rows. rewrite eval_clause by (done || by rewrite length_replicate). cbn [mbind option_bind]. unfold mask_rows.
  rewrite bool_decide_true by (by rewrite length_fmap, length_seq). cbn [or_panic]. f_equal. unfold clause_rows.
  apply filter_ext_elem. intros i Hi%elem_of_seq. rewrite list_lookup_fmap, lookup_seq_lt by lia. cbn. split; [by intros [= ->]|by intros ->].
Qed.
End filters.

Lemma filter_indices_equiv_witness :
  let t : CatalogM.Table StringColumnM.StringSearchColumn ExprEvalM.TableSchema :=
    mkTable (K "t") [[3; 5; 9]; [7; 0; 2]] [K "a"; K "b"] 3 [] [] None in
  let w := WOr (WSingle (mkFilter 0 (K ">=") 6)) (WSingle (mkFilter 1 (K "=") 7)) in
  filter_indices (λ c, [c]) (λ _, 0) (λ _, 0) w t = Ok [0%nat; 2%nat] ∧ filter_indices_old w t = Ok [0%nat; 2%nat].
Proof.
  intros t w. destruct (filter_indices_equiv (λ c, [c]) (λ _, 0) (λ _, 0) t w) as [H1 H2].
  - by repeat constructor.
  - done.
  - right. repeat split; try done; try (simpl; lia); apply (bool_decide_unpack _); done.
  - rewrite H1, H2. split; vm_compute; reflexivity.
Defined.

(** A column whose name is a number is taken for the column with that number. *)
Example numeric_name_misread :
  let t : CatalogM.Table StringColumnM.StringSearchColumn ExprEvalM.TableSchema := mkTable (K "t") [[3]; [7]] [K "1"; K "0"] 1 [] [] None in
  let w := WSingle (mkFilter 0 (K "=") 3) in
  filter_indices (λ c, [c]) (λ _, 0) (λ _, 0) w t = Ok [] ∧ filter_indices_old w t = Ok [0%nat].
Proof. split; vm_compute; reflexivity. Qed.
End FiltersM.
