(* ===== verification/Engine.v ===== *)
(** * Queries end to end (src/src/engine/executor.rs, src/src/engine/mod.rs)

    The executor behind the engine: the plan it chooses, the dispatched query and
    DISTINCT, for queries over one table of the catalog. *)

From Stdlib Require Import ZArith Lia Ascii String Sorting.Sorted Floats.SpecFloat.
From stdpp Require Import prelude list numbers gmap.
From S2P Require Import Prelude Nulls Catalog Result Sorting Lexer StringColumn Bitmap Parser Window Vectorized Parallel ScanKernels Dispatch Where Select.
From S2P Require Import HashJoin Joins ExprEval Executor.
Local Open Scope Z_scope.

Module EngineM.
Import LexerM ParserM SortingM CatalogM VectorizedM ParallelM DispatchM WhereM SelectM HashJoinM JoinsM ExecutorM.

(** ** DISTINCT *)
Section keep.
Context (key : nat → list Z).

Lemma keep_first_spec rows seen :
  sublist (keep_first seen key rows) rows ∧ NoDup (key <$> keep_first seen key rows) ∧
  ∀ k, k ∈ key <$> keep_first seen key rows ↔ k ∈ key <$> rows ∧ k ∉ seen.
Proof.
  revert seen. induction rows as [|row rows IH]; intros seen; cbn [keep_first]; [split_and!; [done|constructor|set_solver]|].
  case_bool_decide as E.
  - destruct (IH seen) as (H1 & H2 & H3). split_and!; [by apply sublist_cons|done|]. intros k. rewrite H3, fmap_cons. set_solver.
  - destruct (IH ({[key row]} ∪ seen)) as (H1 & H2 & H3). split_and!; [by apply sublist_skip| |].
    + rewrite fmap_cons. constructor; [rewrite H3; set_solver|done].
    + intros k. rewrite !fmap_cons, !elem_of_cons, H3. destruct (decide (k = key row)); set_solver.
Qed.

Lemma filter_ext_in {A} (P Q : A → Prop) `{∀ x, Decision (P x)} `{∀ x, Decision (Q x)} (l : list A) : (∀ x, x ∈ l → P x ↔ Q x) → filter P l = filter Q l.
Proof.
  induction l as [|x l IH]; intros HPQ; [done|]. rewrite !filter_cons, IH by set_solver. specialize (HPQ x ltac:(set_solver)). repeat case_decide; tauto.
Qed.
(** What is kept: the rows whose key no row before has. *)
Lemma keep_first_seq n s seen :
  keep_first seen key (seq s n) = filter (λ i, (key i ∉ seen) ∧ key i ∉ key <$> seq s (i - s)) (seq s n).
Proof.
  revert s seen. induction n as [|n IH]; intros s seen; [done|]. cbn [seq keep_first]. rewrite filter_cons.
  assert (Hs : ∀ i, (S s <= i)%nat → seq s (i - s) = s :: seq (S s) (i - S s)) by (intros i Hi; by replace (i - s)%nat with (S (i - S s)) by lia).
  case_bool_decide as E.
  - rewrite decide_False by tauto. rewrite IH. apply filter_ext_in. intros i Hi%elem_of_seq. rewrite (Hs i), fmap_cons, not_elem_of_cons by lia. split; [|tauto]. intros [H1 H2]. split_and!; [done|congruence|done].
  - rewrite decide_True by (split; [done|]; rewrite Nat.sub_diag; apply not_elem_of_nil). f_equal. rewrite IH. apply filter_ext_in. intros i Hi%elem_of_seq.
    rewrite (Hs i), fmap_cons, not_elem_of_cons, not_elem_of_union, not_elem_of_singleton by lia. tauto.
Qed.

Lemma sublist_same_length {A} (l1 l2 : list A) : sublist l1 l2 → length l1 = length l2 → l1 = l2.
Proof.
  induction 1 as [|x l1 l2 H IH|x l1 l2 H IH]; [done| |]; simpl; intros E; [f_equal; apply IH; lia|].
  apply sublist_length in H. lia.
Qed.
End keep.

Section engine.
Context (uni_upper : Z → list Z) (to_lowercase : text → text) (xxh3_64 : list Z → Z) (float_bits : text → Z).
Context (parse_f64 : text → option Z) (sum_start : spec_float).
Context (hash_order : list Z → list Z) (group_order : list (list Z) → list (list Z)).
Context (threads : nat) (pool : list Morsel → tree Morsel) (cpu : CpuTarget).
Abbreviation Table := (CatalogM.Table StringColumnM.StringSearchColumn ExprEvalM.TableSchema).
Abbreviation run_query := (run_select uni_upper to_lowercase xxh3_64 float_bits parse_f64 sum_start hash_order group_order threads pool cpu).
Implicit Types t : Table.

(** The cells of a row in the columns asked for. *)
Definition row_tuple t (names : list text) (row : nat) : list Z :=
  (λ n, match resolve_col_name n t with Ok i => default 0 (ok (cell t i row)) | Err _ => 0 end) <$> names.

(** The column at the rows whose positions are [idx]. *)
Definition pick {A} (d : A) (l : list A) (idx : list nat) : list A := map (λ i, default d (l !! i)) idx.

Lemma pick_lookup {A} (d : A) l idx k x : pick d l idx !! k = Some x → ∃ i, idx !! k = Some i ∧ x = default d (l !! i).
Proof.
  unfold pick. change (map ?f idx) with (f <$> idx). rewrite list_lookup_fmap. destruct (idx !! k) as [i|]; [|done]. intros [= <-]. by exists i.
Qed.

Lemma pick_Forall2 {A B} (P : A → B → Prop) d e l m idx : Forall (λ i, (i < length l)%nat) idx → Forall2 P l m → Forall2 P (pick d l idx) (pick e m idx).
Proof.
  intros Hi H. pose proof (Forall2_length _ _ _ H) as Hlen. unfold pick. induction Hi as [|i idx Hi Hx IH]; [constructor|]. cbn [map].
  constructor; [|done]. destruct (lookup_lt_is_Some_2 l i Hi) as [a Ha]. destruct (lookup_lt_is_Some_2 m i) as [b Hb]; [lia|].
  rewrite Ha, Hb. exact (Forall2_lookup_lr _ _ _ _ _ _ H Ha Hb).
Qed.

Lemma keep_cells_shows t rows idx n c : Forall (λ i, (i < length rows)%nat) idx → shows t rows n c →
  shows t (pick 0%nat rows idx) n (keep_cells idx c).
Proof.
  intros Hidx (i & Hi & Hn & Hv & Hs & Hm). exists i. split; [done|]. split; [done|]. split; [by apply pick_Forall2|]. split.
  - cbn [keep_cells ResultM.string_values]. destruct (string_col t i) as [sc|], (ResultM.string_values c) as [ss|]; try done.
    by apply (pick_Forall2 _ 0%nat []).
  - intros k row (j & Hk & ->)%pick_lookup. rewrite Forall_lookup in Hidx. specialize (Hidx _ _ Hk). simpl in Hidx.
    destruct (lookup_lt_is_Some_2 rows j Hidx) as [row Hrow]. rewrite Hrow. simpl. rewrite (Hm _ _ Hrow).
    destruct (ResultM.null_mask c) as [m|]; [|done]. cbn. change (map ?f idx) with (f <$> idx). rewrite list_lookup_fmap, Hk. done.
Qed.

Lemma shows_tuple t rows names cols k row : Forall2 (shows t rows) names cols → rows !! k = Some row →
  map (λ c, default 0 (ResultM.values c !! k)) cols = row_tuple t names row.
Proof.
  intros H Hk. unfold row_tuple. induction H as [|n c names cols (i & Hi & _ & Hv & _) H IH]; [done|]. rewrite fmap_cons. cbn [map]. apply (f_equal2 cons); [|exact IH].
  rewrite Hi. destruct (Forall2_lookup_l _ _ _ _ _ Hv Hk) as (v & -> & ->). done.
Qed.

(** [kept]: in order, the rows of [shown] whose tuple no row of [shown] before them has. *)
Definition distinct_rows t (names : list text) (shown kept : list nat) : Prop :=
  kept = omap (λ i, row ← shown !! i; if decide (row_tuple t names row ∈ row_tuple t names <$> take i shown) then None else Some row) (seq 0 (length shown)).

Lemma pick_all {A} (d : A) l : pick d l (seq 0 (length l)) = l.
Proof.
  unfold pick. apply list_eq. intros i. change (map ?f ?x) with (f <$> x). rewrite list_lookup_fmap. destruct (l !! i) as [x|] eqn:E.
  - rewrite lookup_seq_lt by (by eapply lookup_lt_Some). simpl. by rewrite E.
  - rewrite lookup_seq_ge by (by apply lookup_ge_None_1). done.
Qed.

Lemma pick_take {A} (d : A) l i : (i <= length l)%nat → pick d l (seq 0 i) = take i l.
Proof.
  intros Hi. rewrite <- (pick_all d l) at 2. unfold pick. rewrite firstn_map. f_equal. replace (length l) with (i + (length l - i))%nat by lia.
  rewrite seq_app, take_app_le, take_ge by (rewrite length_seq; lia). done.
Qed.
Lemma pick_filter (shown : list nat) (P : nat → Prop) `{∀ i, Decision (P i)} (Q : nat → nat → Prop) `{∀ i r, Decision (Q i r)} :
  (∀ i row, shown !! i = Some row → P i ↔ ¬ Q i row) →
  pick 0%nat shown (filter P (seq 0 (length shown))) = omap (λ i, row ← shown !! i; if decide (Q i row) then None else Some row) (seq 0 (length shown)).
Proof.
  intros HPQ. assert (Hl : ∀ l, Forall (λ i, (i < length shown)%nat) l → pick 0%nat shown (filter P l) = omap (λ i, row ← shown !! i; if decide (Q i row) then None else Some row) l).
  { induction 1 as [|i l Hi Hl IH]; [done|]. destruct (lookup_lt_is_Some_2 shown i Hi) as [row Er]. specialize (HPQ i row Er). rewrite filter_cons. cbn. rewrite Er. cbn.
    destruct (decide (Q i row)); [rewrite decide_False by tauto; done|]. rewrite decide_True by tauto. cbn. rewrite Er. cbn. by f_equal. }
  apply Hl, Forall_forall. intros i Hi%elem_of_seq. lia.
Qed.

Lemma pick_sublist (d : nat) l idx : sublist idx (seq 0 (length l)) → sublist (pick d l idx) l.
Proof. intros H. rewrite <- (pick_all d l) at 2. unfold pick. induction H; simpl; [done|by apply sublist_skip|by apply sublist_cons]. Qed.

Lemma tuples_of_positions t names cols shown idx : Forall2 (shows t shown) names cols → Forall (λ i, (i < length shown)%nat) idx →
  row_tuple t names <$> pick 0%nat shown idx = (λ k, map (λ c, default 0 (ResultM.values c !! k)) cols) <$> idx.
Proof.
  intros Hs H. unfold pick. change (map (λ i, default 0%nat (shown !! i)) idx) with ((λ i, default 0%nat (shown !! i)) <$> idx).
  rewrite <- list_fmap_compose. apply list_fmap_ext. intros _ k Hk%list_elem_of_lookup_2. rewrite list.Forall_forall in H. specialize (H _ Hk). simpl in *.
  destruct (lookup_lt_is_Some_2 shown k H) as [row Hrow]. rewrite Hrow. by rewrite (shows_tuple _ _ _ _ _ _ Hs Hrow).
Qed.

Lemma deduplicate_spec t names cols shown : Forall2 (shows t shown) names cols →
  ∃ kept cols', deduplicate_rows (ResultM.mkResult cols (length shown)) = ResultM.mkResult cols' (length kept) ∧
    distinct_rows t names shown kept ∧ Forall2 (shows t kept) names cols'.
Proof.
  intros Hs. unfold deduplicate_rows. cbn [ResultM.row_count ResultM.columns].
  set (key := λ row, map (λ c, default 0 (ResultM.values c !! row)) cols). set (idx := keep_first ∅ key (seq 0 (length shown))).
  destruct (keep_first_spec key (seq 0 (length shown)) ∅) as (H1 & H2 & H3). fold idx in H1, H2, H3.
  assert (∀ l, sublist l (seq 0 (length shown)) → Forall (λ i, (i < length shown)%nat) l) as Hb.
  { intros l Hl. apply list.Forall_forall. intros i Hi. apply (elem_of_sublist _ _ _ Hi), elem_of_seq in Hl. lia. }
  assert (distinct_rows t names shown (pick 0%nat shown idx)) as Hd.
  { unfold distinct_rows, idx. rewrite keep_first_seq. apply pick_filter. intros i row Hi. cbn. assert (Ek : key i = row_tuple t names row) by exact (shows_tuple _ _ _ _ _ _ Hs Hi). rewrite Ek, Nat.sub_0_r.
    replace (key <$> seq 0 i) with (row_tuple t names <$> take i shown); [set_solver|]. apply lookup_lt_Some in Hi.
    rewrite <- (pick_take 0%nat shown i) by lia. rewrite (tuples_of_positions t names cols); [done|done|]. apply Forall_forall. intros j Hj%elem_of_seq. lia. }
  assert (length (pick 0%nat shown idx) = length idx) as Hlen by apply length_map.
  assert (idx = seq 0 (length shown) → ∃ kept cols', ResultM.mkResult cols (length shown) = ResultM.mkResult cols' (length kept) ∧
    distinct_rows t names shown kept ∧ Forall2 (shows t kept) names cols') as Hsame.
  { intros E. rewrite E, pick_all in Hd. by exists shown, cols. }
  destruct (Nat.leb_spec (length shown) 1) as [Hle|Hgt].
  - apply Hsame. unfold idx. destruct shown as [|x [|y shown]]; [done| |simpl in Hle; lia]. cbn. rewrite bool_decide_false by set_solver. done.
  - destruct (Nat.eqb_spec (length idx) (length shown)) as [E|E].
    + apply Hsame. apply sublist_same_length; [done|]. by rewrite length_seq.
    + exists (pick 0%nat shown idx), (keep_cells idx <$> cols). rewrite Hlen. split; [done|]. split; [done|].
      apply Forall2_fmap_r. apply (Forall2_impl _ _ _ _ Hs). intros n c. apply keep_cells_shows. auto.
Qed.

(** ** Joins keep tables well formed *)
Lemma table_ok_full t : table_ok t → full t.
Proof. apply ok_cells. Qed.

Lemma plain_table_ok n names w rows : length names = w → table_ok (mkTable n (columns_of w rows) names (length rows) [] [] None : Table).
Proof. intros H. split; cbn [column_names columns row_count]; [by rewrite length_columns_of|apply columns_of_full|]. intros i sc. by destruct i. Qed.

Lemma keys_in_left (l r : Table) keys : table_ok l → keys_fit l r keys → keys_in l (left_col <$> keys).
Proof. intros Hl Hk. apply Forall_fmap. apply (Forall_impl _ _ _ Hk). intros k [H _]. simpl. by rewrite <- (ok_names _ Hl). Qed.
Lemma keys_in_right (l r : Table) keys : table_ok r → keys_fit l r keys → keys_in r (right_col <$> keys).
Proof. intros Hr Hk. apply Forall_fmap. apply (Forall_impl _ _ _ Hk). intros k [_ H]. simpl. by rewrite <- (ok_names _ Hr). Qed.

(** A run that returns a well-formed table or an error, and does not panic. *)
Definition well_behaved (r : run Table) : Prop := (∃ t, r = Ok t ∧ table_ok t) ∨ ∃ e, r = Err (Fail e).

Lemma join_step_ok (q : SelectQuery) (catalog : gmap text Table) (running : Table) j : (∀ n t, catalog !! n = Some t → table_ok t) → table_ok running →
  well_behaved (join_step uni_upper q catalog running j).
Proof.
  intros Hcat Hrun. unfold join_step. destruct (catalog !! join_table j) as [r|] eqn:Er; [|right; by eexists]. pose proof (Hcat _ _ Er) as Hr.
  cbn [or_fail mbind result_bind]. destruct (text_eqb _ _).
  - rewrite cross_join_spec by (by apply table_ok_full). destruct (Z.leb _ _); [right; by eexists|]. left. eexists. split; [done|].
    apply plain_table_ok. rewrite length_app, !length_map. unfold width. by rewrite (ok_names _ Hrun), (ok_names _ Hr).
  - destruct (extract_join_keys_spec (on j) running r) as [(keys & -> & Hne & Hk)|[e ->]]; [|right; by eexists]. cbn [mbind result_bind].
    rewrite (hash_join_spec running r keys (table_ok_full _ Hrun) (table_ok_full _ Hr) (keys_in_left _ _ _ Hrun Hk) (keys_in_right _ _ _ Hr Hk) _ Hne).
    cbn [mbind result_bind into_table column_names jr_column_names jr_columns jr_row_count columns row_count CatalogM.name].
    rewrite (proj2 (Nat.ltb_ge _ _)) by (rewrite length_app, (ok_names _ Hrun); lia). left. eexists. split; [done|]. apply plain_table_ok.
    unfold qualify_columns. rewrite length_imap, length_app. unfold width. by rewrite (ok_names _ Hrun), (ok_names _ Hr).
Qed.

(** C27: joins are well behaved.  Over a catalog of well-formed tables, every chain of
    joins ends in a well-formed table (as many names as columns, as many cells as rows in
    each) or in an error value; no index is out of range on the way. *)
Theorem joins_well_formed (q : SelectQuery) (catalog : gmap text Table) (running : Table) js : (∀ n t, catalog !! n = Some t → table_ok t) → table_ok running →
  well_behaved (join_all uni_upper q catalog running js).
Proof.
  intros Hcat. revert running. induction js as [|j js IH]; intros running Hrun; [left; by exists running|]. cbn [join_all].
  destruct (join_step_ok q catalog running j Hcat Hrun) as [(t & -> & Ht)|[e ->]]; [by apply IH|right; by exists e].
Qed.

Lemma no_windows names : existsb is_window (SColumn <$> names) = false.
Proof. by induction names. Qed.

Lemma execute_dispatched_result (q : SelectQuery) (catalog : gmap text Table) t r :
  catalog !! ParserM.from q = Some t → joins q = [] → having q = None →
  execute_dispatched uni_upper to_lowercase xxh3_64 float_bits hash_order threads pool q t = Some (Ok r) →
  execute_select uni_upper to_lowercase xxh3_64 float_bits parse_f64 sum_start hash_order group_order threads pool cpu q catalog = Ok r.
Proof.
  intros Hc Hj Hh Hr. unfold execute_select. rewrite Hh, Hc, Hj. cbn [or_fail mbind result_bind].
  rewrite bool_decide_false by (by intros []). rewrite bool_decide_true by done. cbn [negb orb]. unfold choose_plan.
  destruct (Nat.eqb (length (select q)) 1); cbn; by rewrite Hr.
Qed.

(** C3: A query of one table end to end: [SELECT [DISTINCT] columns FROM t WHERE p ORDER BY c
    LIMIT n], run by the executor, returns the rows that satisfy [p], in the order of the first
    ORDER BY column (others are ignored; ties in table order), cut by LIMIT; with DISTINCT then
    exactly those of these rows whose tuple of cells no earlier one has. Each result column shows
    the cells, strings and NULLs of these rows. Conditions: no join, GROUP BY, HAVING, window
    item, index or PIVOT; the table has a cell (and, in string columns, a string) for each row;
    the select list is one or more column names, and these and the first ORDER BY column resolve;
    WHERE is absent or a tree of AND and OR over [column op literal] and LIKE with the meaning of
    [where_mask_correct], so [=] and [!=] compare cells (of strings, hashes) and NULL flags are
    not consulted. DISTINCT runs after LIMIT and compares cells. *)
Theorem run_select_correct (q : SelectQuery) (catalog : gmap text Table) t p names :
  catalog !! ParserM.from q = Some t → joins q = [] → plain_query q t p → order_ok t (order_by q) →
  names ≠ [] → select q = SColumn <$> names → Forall (λ n, ∃ i, resolve_col_name n t = Ok i) names →
  ∃ rows sorted kept cols, answers xxh3_64 float_bits t p rows ∧ sorted ≡ₚ rows ∧ in_order t (order_by q) sorted ∧
    let shown := take_limit (limit q) sorted in
    (if distinct q then distinct_rows t names shown kept else kept = shown) ∧
    run_query q catalog = Ok (ResultM.mkResult cols (length kept)) ∧ Forall2 (shows t kept) names cols.
Proof.
  intros Hc Hj Hq Ho Hne Hs Hn.
  destruct (select_columns_spec uni_upper to_lowercase xxh3_64 float_bits hash_order threads pool q t p names Hq Ho Hne Hs Hn)
    as (rows & sorted & cols & Ha & Hp & Hin & He & Hsh).
  assert (run_query q catalog = Ok (if distinct q then deduplicate_rows (ResultM.mkResult cols (length (take_limit (limit q) sorted)))
    else ResultM.mkResult cols (length (take_limit (limit q) sorted)))) as Hrun.
  { unfold run_select. rewrite (execute_dispatched_result q catalog t _ Hc Hj (pq_having _ _ _ Hq) He). cbn [mbind result_bind].
    unfold finish_select. by rewrite Hs, no_windows. }
  destruct (distinct q).
  - destruct (deduplicate_spec t names cols _ Hsh) as (kept & cols' & Hd & Hk & Hsh'). exists rows, sorted, kept, cols'.
    do 4 (split; [done|]). split; [|done]. by rewrite Hrun, Hd.
  - exists rows, sorted, (take_limit (limit q) sorted), cols. do 4 (split; [done|]). by split.
Qed.
End engine.

Definition fruit : CatalogM.Table StringColumnM.StringSearchColumn ExprEvalM.TableSchema :=
  mkTable (K "t") [[3; 5; 9; 5]; [1; 2; 3; 2]] [K "a"; K "s"] 4
    [None; Some (StringColumnM.new [K "pear"; K "apple"; K "grape"; K "apple"])] [] None.
Lemma fruit_ok : table_ok fruit.
Proof.
  split; [done|by repeat constructor|]. intros [|[|i]] sc; [done| |done]. intros [= <-]. by exists [K "pear"; K "apple"; K "grape"; K "apple"].
Qed.

Lemma joins_well_formed_witness :
  let j := mkJoin (K "t") (Binary (Column (K "a")) (K "=") (Column (K "a"))) (K "LEFT") in
  let q := mkQuery [SStar] (K "t") [j] None [] None [] None false in
  well_behaved (join_all (λ c, [c]) q {[K "t" := fruit]} fruit [j]) ∧
  ∃ t, join_all (λ c, [c]) q {[K "t" := fruit]} fruit [j] = Ok t ∧ row_count t = 6%nat.
Proof.
  intros j q. split; [|eexists; split; [vm_compute; reflexivity|reflexivity]].
  apply (joins_well_formed (λ c, [c]) q {[K "t" := fruit]} fruit [j]); [|apply fruit_ok].
  intros n t [<- <-]%lookup_singleton_Some. apply fruit_ok.
Defined.

(** [SELECT DISTINCT s, a FROM t WHERE a >= 4 ORDER BY s DESC LIMIT 3]. *)
Lemma run_select_correct_witness :
  let p := PCmp (K "a") CGe (VInt 4) in
  let q := mkQuery [SColumn (K "s"); SColumn (K "a")] (K "t") [] (Some (to_expr p)) [] None [(K "s", false)] (Some 3) true in
  let run := run_select (λ c, [c]) (λ s, s) (λ _, 0) (λ _, 0) (λ _, None) (S754_zero false) (λ l, l) (λ l, l) 4 Part Scalar in
  let r := ResultM.mkResult [ResultM.mkCol (K "s") [3; 2] (Some [K "grape"; K "apple"]) 0 None; ResultM.mkCol (K "a") [9; 5] None 0 None] 2 in
  run q {[K "t" := fruit]} = Ok r ∧
  ∃ rows sorted kept, answers (λ _, 0) (λ _, 0) fruit (Some p) rows ∧ sorted ≡ₚ rows ∧ in_order fruit [(K "s", false)] sorted ∧
    distinct_rows fruit [K "s"; K "a"] (take 3 sorted) kept ∧ Forall2 (shows fruit kept) [K "s"; K "a"] (ResultM.columns r).
Proof.
  intros p q run r. assert (run q {[K "t" := fruit]} = Ok r) as E by (vm_compute; reflexivity). split; [exact E|].
  destruct (run_select_correct (λ c, [c]) (λ s, s) (λ _, 0) (λ _, 0) (λ _, None) (S754_zero false) (λ l, l) (λ l, l) 4 Part Scalar
    q {[K "t" := fruit]} fruit (Some p) [K "s"; K "a"]) as (rows & sorted & kept & cols & Ha & Hp & Ho & Hd & He & Hc).
  - apply lookup_singleton_eq.
  - done.
  - split; [apply fruit_ok|done|by eexists|done|done].
  - by exists 1%nat.
  - done.
  - done.
  - repeat constructor; [by exists 1%nat|by exists 0%nat].
  - exists rows, sorted, kept. do 4 (split; [done|]). fold run in He. rewrite E in He. injection He as <- _. done.
Defined.
End EngineM.
