(* ===== verification/Indexed.v ===== *)
(** * SELECT through an index (src/src/engine/mod.rs)

    The engine looks for an index on the column of [WHERE column = literal] before it
    scans.  On the column the index was built from, the lookup and the scan give the same
    answer; statements that change the table leave the index behind. *)

From Stdlib Require Import ZArith Lia Ascii String Sorting.Sorted Floats.SpecFloat.
From stdpp Require Import prelude list numbers gmap.
From S2P Require Import Prelude Nulls Catalog Result Sorting Lexer StringColumn Parser Window Vectorized Parallel ScanKernels Dispatch Where Select.
From S2P Require Import IndexManager ExprEval Executor Dml Temporal SnapshotTxn Statements Transactions Engine.
Local Open Scope Z_scope.

Module IndexedM.
Import LexerM ParserM SortingM CatalogM VectorizedM ParallelM DispatchM WhereM SelectM ExecutorM EngineM IndexM DmlM StatementsM TransactionsM.

Section indexed.
Context (uni_upper : Z → list Z) (to_lowercase : text → text) (xxh3_64 : list Z → Z) (float_bits : text → Z).
Context (parse_f64 : text → option Z) (sum_start : spec_float).
Context (hash_order : list Z → list Z) (group_order : list (list Z) → list (list Z)).
Context (threads : nat) (pool : list Morsel → tree Morsel) (cpu : CpuTarget).
Abbreviation Table := (CatalogM.Table StringColumnM.StringSearchColumn ExprEvalM.TableSchema).
Abbreviation scan := (run_select uni_upper to_lowercase xxh3_64 float_bits parse_f64 sum_start hash_order group_order threads pool cpu).
Abbreviation indexed := (try_indexed_lookup xxh3_64 float_bits).
Implicit Types t : Table.

(** The lookup first; the executor where it does not apply. *)
Definition execute_query (e : QueryEngine) (q : SelectQuery) : run ResultM.QueryResult :=
  found ← indexed e q;
  match found with Some r => Ok r | None => scan q (catalog e) end.

(** ** Literals *)

(** The two readings of a literal part ways on the text of a number of 2^63 and more. *)
Definition plain_literal (v : Value) : Prop :=
  match v with VString s => ∀ n, parse_u64 s = Some n → n < 2 ^ 63 | _ => True end.

Lemma digits_value_pos s : existsb (λ c, negb (is_digit c)) s = false → 0 <= digits_value s.
Proof.
  unfold digits_value. assert (∀ a, 0 <= a → existsb (λ c, negb (is_digit c)) s = false →
    0 <= fold_left (λ a c, 10 * a + (c - 48)) s a) as H; [|by apply H].
  induction s as [|c s IH]; intros a Ha; [done|]. cbn [existsb fold_left]. intros [Hc Hs]%orb_false_iff. apply IH; [|done].
  apply negb_false_iff in Hc. unfold is_digit in Hc. apply andb_true_iff in Hc as [Hc _]. apply Z.leb_le in Hc. lia.
Qed.

Lemma parse_digits_pos s n : parse_digits s = Some n → 0 <= n.
Proof.
  unfold parse_digits. destruct (bool_decide _); [done|]. cbn [orb]. destruct (existsb _ s) eqn:E; [done|].
  intros [= <-]. by apply digits_value_pos.
Qed.

Lemma literal_agrees v : plain_literal v → literal_to_cell xxh3_64 float_bits v = value_to_u64 xxh3_64 float_bits v.
Proof.
  destruct v as [i|f|s|b]; try done. cbn [plain_literal literal_to_cell value_to_u64]. intros H.
  destruct (parse_u64 s) as [n|] eqn:E; [|done]. specialize (H _ eq_refl). unfold parse_u64, parse_i64 in *.
  destruct s as [|c s]; [done|]. destruct (Z.eqb_spec c 45) as [->|Hc]; [done|].
  destruct (parse_digits _) as [m|] eqn:Ed; [|done]. cbn [mbind option_bind] in *.
  apply parse_digits_pos in Ed. destruct (Z.ltb m (2 ^ 64)); [|done]. injection E as ->.
  rewrite (proj2 (Z.ltb_lt _ _)) by done. apply wrap_u_small. unfold in_u. lia.
Qed.

(** ** The rows *)
Lemma sorted_ext (l l' : list nat) : StronglySorted lt l → StronglySorted lt l' → (∀ x, x ∈ l ↔ x ∈ l') → l = l'.
Proof.
  revert l'. induction l as [|x l IH]; intros [|y l'] H H' Hp; [done|set_solver..|].
  inversion_clear H as [|? ? Hs Hx]. inversion_clear H' as [|? ? Hs' Hy]. rewrite list.Forall_forall in Hx, Hy.
  assert (x = y) as ->.
  { destruct (decide (x = y)); [done|]. assert (x ∈ l') as Hx'%Hy by set_solver. assert (y ∈ l) as Hy'%Hx by set_solver. lia. }
  f_equal. apply IH; [done..|]. intros z. specialize (Hp z). rewrite !elem_of_cons in Hp.
  assert (z ∈ l → z ≠ y) by (intros E ->; apply Hx in E; lia).
  assert (z ∈ l' → z ≠ y) by (intros E ->; apply Hy in E; lia). tauto.
Qed.

(** The rows the index leads to are the answers of the equality it stands for. *)
Lemma rows_with_answers t n i col v : table_ok t → column_idx n t = Some i → columns t !! i = Some col →
  answers xxh3_64 float_bits t (Some (PCmp n CEq v)) (rows_with col (value_to_u64 xxh3_64 float_bits v)).
Proof.
  intros Ht Hi Hc. assert (length col = row_count t) as Hl by (apply (Forall_lookup_1 _ _ _ _ (ok_cells _ Ht) Hc)).
  assert (resolve_col_name n t = Ok i) as Hr by (unfold resolve_col_name; by rewrite Hi).
  split; [apply filter_sorted, seq_sorted|]. intros row. unfold rows_with. rewrite list_elem_of_filter, elem_of_seq, Hl.
  cbn [opt_sat from_option sat]. rewrite Hr. split.
  - intros [Hx Hlt]. split; [lia|]. exists i. split; [done|]. unfold by_strings. cbn [is_range]. eexists. split; [|by rewrite Z.compare_refl].
    unfold cell. rewrite Hc. cbn. by rewrite Hx.
  - intros [Hlt (j & [= <-] & H)]. unfold by_strings in H. cbn [is_range] in H. destruct H as (x & Hx & E%Z.compare_eq). subst x.
    split; [|lia]. unfold cell in Hx. rewrite Hc in Hx. cbn in Hx. destruct (col !! row) eqn:E; naive_solver.
Qed.

(** ** The columns *)

(** Two result columns with the same name, cells, strings and NULLs. *)
Definition same_column (c c' : ResultM.ResultColumn) : Prop :=
  ResultM.name c = ResultM.name c' ∧ ResultM.values c = ResultM.values c' ∧ ResultM.string_values c = ResultM.string_values c' ∧
  ∀ k, (k < length (ResultM.values c))%nat → default false (m ← ResultM.null_mask c; m !! k) = default false (m ← ResultM.null_mask c'; m !! k).

Lemma shows_unique t rows n c c' : shows t rows n c → shows t rows n c' → same_column c c'.
Proof.
  intros (i & Hi & Hn & Hv & Hs & Hm) (i' & Hi' & Hn' & Hv' & Hs' & Hm'). rewrite Hi in Hi'. injection Hi' as <-.
  assert (∀ {A B} (R : A → B → Prop) l x y, (∀ a b b', R a b → R a b' → b = b') → Forall2 R l x → Forall2 R l y → x = y) as U.
  { intros A B R l x y HR H. revert y. induction H as [|a b l x Hab H IH]; intros y Hy; inversion_clear Hy; [done|]. f_equal; eauto. }
  split_and!; [congruence| | |].
  - eapply U; [|exact Hv|exact Hv']. cbn. congruence.
  - destruct (string_col t i), (ResultM.string_values c), (ResultM.string_values c'); try done. f_equal.
    eapply U; [|exact Hs|exact Hs']. cbn. congruence.
  - intros k Hk. rewrite <- (Forall2_length _ _ _ Hv) in Hk. destruct (lookup_lt_is_Some_2 _ _ Hk) as [row Hrow]. by rewrite <- (Hm _ _ Hrow), <- (Hm' _ _ Hrow).
Qed.

Lemma indexed_column_spec t n i rows : table_ok t → column_idx n t = Some i → Forall (λ row, (row < row_count t)%nat) rows →
  ∃ c, indexed_column t n i rows = Ok c ∧ shows t rows n c.
Proof.
  intros Ht Hi Hb. assert (resolve_col_name n t = Ok i) as Hr by (unfold resolve_col_name; by rewrite Hi).
  destruct (project_spec t n i rows Ht Hr Hb) as (c & Hc & Hs). unfold project in Hc. rewrite Hr in Hc. cbn [mbind result_bind] in Hc.
  destruct (cells_at t i rows) as [vs|] eqn:Ev; [|done]. cbn [mbind result_bind] in Hc.
  destruct (strings_at t i rows) as [ss|] eqn:Es; [|done]. injection Hc as <-.
  destruct Hs as (j & Hj & Hn & Hv & Hstr & _). rewrite Hr in Hj. injection Hj as <-. cbn [ResultM.values ResultM.string_values] in *.
  assert (mapM_run (λ r, col ← or_panic (columns t !! i); Ok (default 0 ((col : list Z) !! r))) rows = Ok vs) as Em.
  { clear -Hv. induction Hv as [|r v rows vs H Hv IH]; [done|]. cbn [mapM_run]. unfold cell in H. destruct (columns t !! i) as [col|]; [|done].
    cbn in H |- *. destruct (col !! r); [|done]. injection H as ->. cbn in IH |- *. by rewrite IH. }
  unfold indexed_column. rewrite Em. cbn [mbind result_bind]. rewrite Es. cbn [mbind result_bind]. eexists. split; [done|].
  exists i. split_and!; [done..|]. intros k row Hk. cbn [ResultM.null_mask]. unfold is_cell_null_dispatch.
  destruct (bitmap t i) as [bm|]; [|done]. cbn. change (map ?f rows) with (f <$> rows). by rewrite list_lookup_fmap, Hk.
Qed.

Lemma indexed_items_spec t rows names : table_ok t → Forall (λ n, is_Some (column_idx n t)) names → Forall (λ row, (row < row_count t)%nat) rows →
  ∃ cols, indexed_items t rows (SColumn <$> names) = Ok (Some cols) ∧ Forall2 (shows t rows) names cols.
Proof.
  intros Ht Hn Hb. induction Hn as [|n names [i Hi] Hn IH]; [by exists []|]. destruct IH as (cols & IH & Hc).
  destruct (indexed_column_spec t n i rows Ht Hi Hb) as (c & Ec & Hs). exists (c :: cols). split; [|by constructor].
  rewrite fmap_cons. cbn [indexed_items]. rewrite Hi. cbn [or_fail mbind result_bind]. rewrite Ec. cbn [mbind result_bind]. by rewrite IH.
Qed.

(** ** CREATE INDEX, then SELECT *)

(** A query of columns of one table, [WHERE n = v], with no other clause but LIMIT. *)
Record point_query (q : SelectQuery) (t : Table) (n : text) (v : Value) (names : list text) : Prop := {
  po_joins : joins q = []; po_group : group_by q = []; po_having : having q = None; po_order : order_by q = []; po_distinct : distinct q = false;
  po_where : where_is q (Some (PCmp n CEq v)); po_literal : plain_literal v;
  po_select : select q = SColumn <$> names; po_names : names ≠ [] ∧ Forall (λ n, is_Some (column_idx n t)) names
}.

Lemma create_index_state ci e r e' : execute_create_index ci e = (Ok r, e') → get_by_name (ci_index ci) (index_manager e) = None →
  ∃ t i col, catalog e !! ci_table ci = Some t ∧ column_idx (ci_column ci) t = Some i ∧ columns t !! i = Some col ∧ catalog e' = catalog e ∧
    has_index (ci_table ci) (ci_column ci) (index_manager e') = true ∧
    ∀ v, default [] (lookup_rows (ci_table ci) (ci_column ci) v (index_manager e')) = rows_with col v.
Proof.
  unfold execute_create_index. intros H Hg. rewrite Hg in H. revert H. destruct (catalog e !! ci_table ci) as [t|] eqn:Et; [|done].
  destruct (column_idx (ci_column ci) t) as [i|] eqn:Ei; [|done]. destruct (columns t !! i) as [col|] eqn:Ec; [|done].
  intros [= _ <-]. exists t, i, col. split_and!; [done..| |].
  - unfold has_index, build_hash_index, create_named. cbn. by rewrite lookup_insert_eq, bool_decide_true.
  - intros v. apply lookup_after_build.
Qed.

Lemma indexed_lookup e q t n v i col names : table_ok t → catalog e !! ParserM.from q = Some t → point_query q t n v names →
  column_idx n t = Some i → columns t !! i = Some col → has_index (ParserM.from q) n (index_manager e) = true →
  (∀ x, default [] (lookup_rows (ParserM.from q) n x (index_manager e)) = rows_with col x) →
  ∃ rows cols, answers xxh3_64 float_bits t (Some (PCmp n CEq v)) rows ∧
    indexed e q = Ok (Some (ResultM.mkResult cols (length (take_limit (limit q) rows)))) ∧ Forall2 (shows t (take_limit (limit q) rows)) names cols.
Proof.
  intros Ht Hc [] Hi Hcol Hidx Hrows. pose proof (rows_with_answers t n i col v Ht Hi Hcol) as Ha.
  destruct (indexed_items_spec t (take_limit (limit q) (rows_with col (value_to_u64 xxh3_64 float_bits v))) names Ht (proj2 po_names0)) as (cols & Hit & Hs).
  { apply take_limit_Forall, (answers_bounded xxh3_64 float_bits t _ _ Ha). }
  eexists _, cols. split; [exact Ha|]. split; [|exact Hs]. unfold try_indexed_lookup.
  rewrite po_joins0, po_group0, po_having0, po_order0, po_distinct0, po_where0. cbn [bool_decide].
  rewrite !(bool_decide_true (_ = _)), bool_decide_false by (done || by intros []). cbn [negb orb].
  cbn [fmap option_fmap option_map to_expr mbind option_bind extract_eq_predicate op_text].
  unfold text_eqb. rewrite bool_decide_true by done.
  rewrite Hidx, Hc. cbn [or_fail mbind result_bind]. rewrite Hi, literal_agrees, Hrows by done. rewrite po_select0, Hit. done.
Qed.

Lemma scan_point (q : SelectQuery) t (n : text) (v : Value) (names : list text) (c : gmap text Table) : table_ok t → c !! ParserM.from q = Some t → point_query q t n v names → is_Some (column_idx n t) →
  ∃ rows cols, answers xxh3_64 float_bits t (Some (PCmp n CEq v)) rows ∧
    scan q c = Ok (ResultM.mkResult cols (length (take_limit (limit q) rows))) ∧ Forall2 (shows t (take_limit (limit q) rows)) names cols.
Proof.
  intros Ht Hc Hq [i Hi]. pose proof Hq as [].
  assert (∀ n, is_Some (column_idx n t) → ∃ i, resolve_col_name n t = Ok i) as Hres by (intros m [j Hj]; exists j; unfold resolve_col_name; by rewrite Hj).
  destruct (select_columns_spec uni_upper to_lowercase xxh3_64 float_bits hash_order threads pool q t (Some (PCmp n CEq v)) names)
    as (rows & sorted & cols & Ha & Hp & Ho & He & Hs).
  - split; [done|done| |done|done]. cbn. destruct (Hres n) as [j ->]; by eexists.
  - by rewrite po_order0.
  - apply po_names0.
  - done.
  - eapply Forall_impl; [apply po_names0|]. intros m. apply Hres.
  - rewrite po_order0 in Ho. cbn in Ho. assert (sorted = rows) as ->.
    { apply sorted_ext; [done|apply Ha|]. intros x. by rewrite Hp. }
    exists rows, cols. split; [done|]. split; [|done]. unfold run_select.
    rewrite (execute_dispatched_result _ _ _ _ _ _ _ _ _ _ _ _ _ _ _ Hc po_joins0 po_having0 He). cbn [mbind result_bind]. unfold finish_select.
    by rewrite po_select0, no_windows, po_distinct0.
Qed.

(** C8: the lookup through an index agrees with the scan. Right after a CREATE INDEX, with a name
    no index has, on a column of a well-formed table, [SELECT columns FROM t WHERE column =
    literal LIMIT n] is answered through the index, without a fault: with the rows of the table
    that satisfy the equality, in order, up to the limit; and the executor without the index gives
    the same columns: the same names, cells, strings and NULLs. The query names columns that exist
    and has no join, GROUP BY, HAVING, ORDER BY or DISTINCT; equality is that of cells (for a
    string, of its hash). The literal is any but a string that reads as a number of 2^63 or more,
    on which the two readings of literals part ways. Later changes to the table are not covered:
    the index is not kept up to date (see [index_goes_stale]). *)
Theorem indexed_scan_equiv ci e r0 e' (q : SelectQuery) t (v : Value) (names : list text) :
  execute_create_index ci e = (Ok r0, e') → get_by_name (ci_index ci) (index_manager e) = None →
  ParserM.from q = ci_table ci → catalog e !! ci_table ci = Some t → table_ok t → point_query q t (ci_column ci) v names →
  ∃ rows r r', answers xxh3_64 float_bits t (Some (PCmp (ci_column ci) CEq v)) rows ∧
    execute_query e' q = Ok r ∧ Forall2 (shows t (take_limit (limit q) rows)) names (ResultM.columns r) ∧
    scan q (catalog e') = Ok r' ∧ Forall2 same_column (ResultM.columns r) (ResultM.columns r') ∧ ResultM.row_count r = ResultM.row_count r'.
Proof.
  intros He Hn Hf Ht Hok Hq. destruct (create_index_state ci e r0 e' He Hn) as (t' & i & col & Ht' & Hi & Hcol & Hcat & Hidx & Hrows).
  rewrite Ht in Ht'. injection Ht' as <-. rewrite <- Hf, <- Hcat in *.
  destruct (indexed_lookup e' q t _ v i col names Hok Ht Hq Hi Hcol Hidx Hrows) as (rows & cols & Ha & E & Hs).
  destruct (scan_point q t _ v names (catalog e') Hok Ht Hq (mk_is_Some _ _ Hi)) as (rows' & cols' & Ha' & E' & Hs').
  assert (rows' = rows) as -> by (apply sorted_ext; [apply Ha'|apply Ha|]; intros x; by rewrite (proj2 Ha'), (proj2 Ha)).
  eexists rows, _, _. split; [done|]. unfold execute_query. rewrite E. cbn [mbind result_bind]. split; [done|]. split; [done|]. split; [done|].
  split; [|done]. cbn [ResultM.columns]. clear -Hs Hs'. revert cols' Hs'. induction Hs as [|n c names cols Hc Hs IH]; intros cols' Hs';
    inversion_clear Hs' as [|? c' ? cols'']; constructor; [by eapply shows_unique|by apply IH].
Qed.

(** No INSERT, UPDATE or DELETE touches an index. *)
Lemma dml_keeps_indexes uni_alnum now d e : index_manager (execute_dml uni_alnum uni_upper xxh3_64 float_bits parse_f64 now d e).2 = index_manager e.
Proof. apply (frame_keeps set_indexes index_manager (execute_dml uni_alnum uni_upper xxh3_64 float_bits parse_f64 now d)); [by intros []|done]. Qed.
End indexed.

Definition orchard : QueryEngine := mkEngine {[K "t" := fruit]} im_new ∅ SnapshotTxn.SnapshotTxn.manager_new [].
Definition on_a : CreateIndex := mkCI (K "i") (K "t") (K "a") false.
Definition a_is (v : Z) (l : option Z) : SelectQuery :=
  mkQuery [SColumn (K "s"); SColumn (K "a")] (K "t") [] (Some (to_expr (PCmp (K "a") CEq (VInt v)))) [] None [] l false.
Abbreviation through_index := (execute_query (λ c, [c]) (λ s, s) (λ _, 0) (λ _, 0) (λ _, None) (S754_zero false) (λ l, l) (λ l, l) 4 Part Scalar).
Abbreviation by_scan := (run_select (λ c, [c]) (λ s, s) (λ _, 0) (λ _, 0) (λ _, None) (S754_zero false) (λ l, l) (λ l, l) 4 Part Scalar).

(** [SELECT s, a FROM t WHERE a = 5]. *)
Lemma indexed_scan_equiv_witness :
  let e := (execute_create_index on_a orchard).2 in
  (∃ r, through_index e (a_is 5 None) = Ok r ∧ ResultM.row_count r = 2%nat) ∧
  ∃ rows r r', answers (λ _, 0) (λ _, 0) fruit (Some (PCmp (K "a") CEq (VInt 5))) rows ∧ through_index e (a_is 5 None) = Ok r ∧
    Forall2 (shows fruit rows) [K "s"; K "a"] (ResultM.columns r) ∧ by_scan (a_is 5 None) (catalog e) = Ok r' ∧
    Forall2 same_column (ResultM.columns r) (ResultM.columns r').
Proof.
  intros e. split; [eexists; split; [vm_compute; reflexivity|reflexivity]|].
  destruct (indexed_scan_equiv (λ c, [c]) (λ s, s) (λ _, 0) (λ _, 0) (λ _, None) (S754_zero false) (λ l, l) (λ l, l) 4 Part Scalar
    on_a orchard ResultM.empty e (a_is 5 None) fruit (VInt 5) [K "s"; K "a"]) as (rows & r & r' & Ha & E & Hs & E' & Hc & _).
  - by vm_compute.
  - done.
  - done.
  - apply lookup_singleton_eq.
  - apply fruit_ok.
  - split; try done. split; [done|]. by repeat constructor; eexists.
  - by exists rows, r, r'.
Defined.

(** The index is not kept up to date: after an INSERT the query misses the new row, after a
    DELETE it still leads to the row numbers of before. *)
Theorem index_goes_stale :
  let run := execute_dml (λ _, true) (λ c, [c]) (λ _, 0) (λ _, 0) (λ _, None) (λ _, 0) in
  let count r := ResultM.row_count <$> ok r in
  let e := (execute_create_index on_a orchard).2 in
  let inserted := (run (DInsert (mkInsert (K "t") None [[K "7"; K "'fig'"]])) e).2 in
  let deleted := (run (DDelete (mkDelete (K "t") (Some (K "a = 3")))) e).2 in
  count (through_index inserted (a_is 7 None)) = Some 0%nat ∧ count (by_scan (a_is 7 None) (catalog inserted)) = Some 1%nat ∧
  ((λ r, ResultM.values <$> ResultM.columns r) <$> ok (through_index deleted (a_is 9 None))) = Some [[2]; [5]].
Proof. by vm_compute. Qed.
End IndexedM.
