(* ===== verification/Sketches.v ===== *)
(** * Sketches (src/src/sketch/count_min.rs, src/src/sketch/hll.rs)

    Count-Min counters and HyperLogLog registers.  [xxh3_64] is a parameter; the estimator
    of HyperLogLog, which computes with doubles and logarithms, is not modelled. *)

From Stdlib Require Import ZArith Lia.
From stdpp Require Import prelude list numbers.
From S2P Require Import Prelude.
Local Open Scope Z_scope.

(** A loop over indices that may stop at a panic. *)
Fixpoint for_indices {S} (f : nat → S → option S) (l : list nat) (s : S) : option S :=
  match l with [] => Some s | i :: l => s ← f i s; for_indices f l s end.

(** What such a loop needs to run: every step succeeds and keeps what it relies on. *)
Lemma for_indices_inv {S} (f : nat → S → option S) (P : nat → S → Prop) n k s :
  P k s → (∀ i s, (k <= i < k + n)%nat → P i s → ∃ s', f i s = Some s' ∧ P (Datatypes.S i) s') →
  ∃ s', for_indices f (seq k n) s = Some s' ∧ P (k + n)%nat s'.
Proof.
  revert k s. induction n as [|n IH]; intros k s HP Hf; cbn [seq for_indices].
  - exists s. by rewrite Nat.add_0_r.
  - destruct (Hf k s) as (s1 & -> & H1); [lia|done|]. cbn [mbind option_bind]. destruct (IH (Datatypes.S k) s1 H1) as (s2 & -> & H2).
    { intros i s' Hi. apply Hf. lia. }
    exists s2. by rewrite <- Nat.add_succ_comm.
Qed.

Module CountMinM.
Section count_min.
Context (xxh3_64 : list Z → Z).

Definition U64_MAX : Z := 2 ^ 64 - 1.
Definition saturating_add (a b : Z) : Z := Z.min (a + b) U64_MAX.

Record CountMin := mkCM { depth : nat; width : nat; counts : list (list Z); seeds : list Z }.

(** [None]: an assertion fails. *)
Definition cm_new (depth width : nat) : option CountMin :=
  if Nat.ltb 0 depth && Nat.ltb 0 width then
    Some (mkCM depth width (replicate depth (replicate width 0))
            (map (λ i, Z.lor (wrapping_mul (Z.of_nat i) 0x9E3779B97F4A7C15) 1) (seq 0 depth)))
  else None.

Definition cm_hash (s : CountMin) (key : Z) (r : nat) : option nat :=
  seed ← seeds s !! r;
  Some (Z.to_nat (xxh3_64 (le_bytes 8 key ++ le_bytes 8 seed) mod Z.of_nat (width s))).

Definition cm_cell (s : CountMin) (r c : nat) : option Z := row ← counts s !! r; row !! c.
Definition set_cell (s : CountMin) (r c : nat) (v : Z) : CountMin :=
  mkCM (depth s) (width s) (alter (λ row, <[c := v]> row) r (counts s)) (seeds s).

Definition cm_add (key count : Z) (s : CountMin) : option CountMin :=
  for_indices (λ r s, c ← cm_hash s key r; x ← cm_cell s r c; Some (set_cell s r c (saturating_add x count))) (seq 0 (depth s)) s.

Fixpoint min_cells (s : CountMin) (key : Z) (rs : list nat) (min : Z) : option Z :=
  match rs with
  | [] => Some min
  | r :: rs => c ← cm_hash s key r; x ← cm_cell s r c; min_cells s key rs (if Z.ltb x min then x else min)
  end.
Definition cm_estimate (s : CountMin) (key : Z) : option Z :=
  min ← min_cells s key (seq 0 (depth s)) U64_MAX; Some (if Z.eqb min U64_MAX then 0 else min).

Definition merge_row (other : CountMin) (r : nat) (s : CountMin) : option CountMin :=
  for_indices (λ c s, x ← cm_cell s r c; y ← cm_cell other r c; Some (set_cell s r c (saturating_add x y))) (seq 0 (width s)) s.
Definition cm_merge (other s : CountMin) : option CountMin :=
  if Nat.eqb (depth s) (depth other) && Nat.eqb (width s) (width other) then for_indices (merge_row other) (seq 0 (depth s)) s
  else None.

(** ** What a sketch holds *)

(** A stream of keys with their counts, the weight of a key, and what falls on a counter. *)
Abbreviation stream := (list (Z * Z)).
Definition total (l : stream) : Z := foldr Z.add 0 l.*2.
Definition weight (l : stream) (key : Z) : Z := total (filter (λ kc, kc.1 = key) l).
Definition load (s : CountMin) (l : stream) (r c : nat) : Z := total (filter (λ kc, cm_hash s kc.1 r = Some c) l).

Definition counts_ok (l : stream) : Prop := Forall (λ kc, 0 <= kc.2) l.

(** The same sketch but for its counters. *)
Definition alike (s s' : CountMin) : Prop := depth s = depth s' ∧ width s = width s' ∧ seeds s = seeds s'.

Record holds (l : stream) (s : CountMin) : Prop := {
  h_depth : (0 < depth s)%nat; h_width : (0 < width s)%nat;
  h_seeds : length (seeds s) = depth s;
  h_cells : ∀ r c, (r < depth s)%nat → (c < width s)%nat → cm_cell s r c = Some (Z.min (load s l r c) U64_MAX)
}.

Lemma alike_hash s s' key r : alike s s' → cm_hash s' key r = cm_hash s key r.
Proof. intros (H1 & H2 & H3). unfold cm_hash. by rewrite H2, H3. Qed.
Lemma alike_load s s' l r c : alike s s' → load s' l r c = load s l r c.
Proof.
  intros H. unfold load. f_equal. apply list_filter_iff. intros x. by rewrite (alike_hash s s').
Qed.

Lemma total_app l l' : total (l ++ l') = total l + total l'.
Proof. unfold total. rewrite fmap_app. induction (l.*2) as [|x xs IH]; [done|]. simpl. lia. Qed.
Lemma total_pos l : counts_ok l → 0 <= total l.
Proof. unfold total. induction 1 as [|[k x] l Hx H IH]; [done|]. rewrite fmap_cons. cbn [foldr snd] in *. lia. Qed.
Lemma counts_filter (P : Z * Z → Prop) `{∀ x, Decision (P x)} l : counts_ok l → counts_ok (filter P l).
Proof. unfold counts_ok. rewrite !list.Forall_forall. intros Hl x [_ Hx]%list_elem_of_filter. by apply Hl. Qed.
Lemma load_app s l l' r c : load s (l ++ l') r c = load s l r c + load s l' r c.
Proof. unfold load. by rewrite list.filter_app, total_app. Qed.
Lemma load_pos s l r c : counts_ok l → 0 <= load s l r c.
Proof. intros H. by apply total_pos, counts_filter. Qed.

Lemma hash_lt s key r : (0 < width s)%nat → (r < length (seeds s))%nat → ∃ c, cm_hash s key r = Some c ∧ (c < width s)%nat.
Proof.
  intros Hw Hr. unfold cm_hash. destruct (lookup_lt_is_Some_2 _ _ Hr) as [seed ->]. eexists. split; [done|].
  pose proof (Z.mod_pos_bound (xxh3_64 (le_bytes 8 key ++ le_bytes 8 seed)) (Z.of_nat (width s))). lia.
Qed.

Lemma set_cell_alike s r c v : alike s (set_cell s r c v).
Proof. done. Qed.
Lemma cell_set s r c v r' c' : is_Some (cm_cell s r c) → cm_cell (set_cell s r c v) r' c' = if decide (r = r' ∧ c = c') then Some v else cm_cell s r' c'.
Proof.
  unfold cm_cell, set_cell. cbn [counts]. intros [x Hx]. destruct (decide (r = r')) as [<-|Hne].
  - rewrite list_lookup_alter_eq. destruct (counts s !! r) as [row|]; [|done]. cbn in *. destruct (decide (c = c')) as [<-|Hc].
    + rewrite decide_True by done. apply list_lookup_insert_eq. by eapply lookup_lt_Some.
    + rewrite decide_False by naive_solver. by rewrite list_lookup_insert_ne.
  - rewrite decide_False by naive_solver. by rewrite list_lookup_alter_ne.
Qed.

(** The counters after one step of a loop that adds to some of them. *)
Lemma cm_new_holds d w s : cm_new d w = Some s → holds [] s.
Proof.
  unfold cm_new. destruct (Nat.ltb_spec 0 d), (Nat.ltb_spec 0 w); try done. intros [= <-]. split; cbn; [done|done|by rewrite length_map, length_seq|].
  intros r c Hr Hc. unfold cm_cell. cbn [counts]. rewrite lookup_replicate_2 by done. cbn. rewrite lookup_replicate_2 by done. done.
Qed.

Lemma cm_add_holds l key count s : holds l s → counts_ok l → 0 <= count →
  ∃ s', cm_add key count s = Some s' ∧ holds (l ++ [(key, count)]) s' ∧ alike s s'.
Proof.
  intros [Hd Hw Hs Hc] Hl Hcount.
  set (P := λ (k : nat) s', alike s s' ∧ ∀ r c, (r < depth s)%nat → (c < width s)%nat →
    cm_cell s' r c = Some (Z.min (load s (if decide (r < k)%nat then l ++ [(key, count)] else l) r c) U64_MAX)).
  destruct (for_indices_inv (λ r s, c ← cm_hash s key r; x ← cm_cell s r c; Some (set_cell s r c (saturating_add x count))) P (depth s) 0 s)
    as (s' & Hrun & Hal & Hcells).
  - split; [done|]. intros r c Hr Hc'. rewrite decide_False by lia. by apply Hc.
  - intros r s1 Hr [Hal H1]. destruct (hash_lt s key r) as (c & Hh & Hlt); [done|lia|]. rewrite (alike_hash s s1) by done. rewrite Hh. cbn [mbind option_bind].
    rewrite H1 by (done || lia). rewrite decide_False by lia. cbn [mbind option_bind]. eexists. split; [done|]. split; [done|].
    intros r' c' Hr' Hc'. rewrite cell_set by (rewrite H1 by (done || lia); done).
    case_decide as E.
    + destruct E as [-> ->]. rewrite decide_True by lia. rewrite load_app. f_equal. unfold saturating_add.
      assert (load s [(key, count)] r' c' = count) as ->.
      { unfold load. rewrite filter_cons, filter_nil. cbn [fst]. rewrite decide_True by done. unfold total. cbn. lia. }
      pose proof (load_pos s l r' c' Hl). unfold U64_MAX. lia.
    + rewrite H1 by done. f_equal. f_equal. destruct (decide (r' < r)%nat); [by rewrite decide_True by lia|].
      destruct (decide (r' < Datatypes.S r)%nat); [|done]. assert (r' = r) as -> by lia. rewrite load_app.
      assert (load s [(key, count)] r c' = 0) as ->; [|lia]. unfold load. rewrite filter_cons, filter_nil. cbn [fst].
      rewrite decide_False; [done|]. rewrite Hh. naive_solver.
  - exists s'. split; [exact Hrun|]. split; [|done]. destruct Hal as (H1 & H2 & H3). split; [by rewrite <- H1|by rewrite <- H2|by rewrite <- H3, <- H1|].
    intros r c Hr Hc'. rewrite <- H1 in Hr. rewrite <- H2 in Hc'. rewrite Hcells, decide_True by done. by rewrite (alike_load s s').
Qed.

Lemma merge_sum a b : 0 <= a → 0 <= b → saturating_add (Z.min a U64_MAX) (Z.min b U64_MAX) = Z.min (a + b) U64_MAX.
Proof. unfold saturating_add, U64_MAX. lia. Qed.

(** The counters half way through a merge: those that are [done_] hold both streams. *)
Definition merged (l l' : stream) (s : CountMin) (done_ : nat → nat → bool) (s' : CountMin) : Prop :=
  alike s s' ∧ ∀ r c, (r < depth s)%nat → (c < width s)%nat →
    cm_cell s' r c = Some (Z.min (load s (if done_ r c then l ++ l' else l) r c) U64_MAX).
Lemma merged_ext l l' s (d d' : nat → nat → bool) s' : (∀ r c, (r < depth s)%nat → (c < width s)%nat → d r c = d' r c) →
  merged l l' s d s' → merged l l' s d' s'.
Proof. intros H [Ha Hm]. split; [done|]. intros r c Hr Hc. by rewrite Hm, H. Qed.

Section merge.
Context (l l' : stream) (s other : CountMin) (Ho : holds l' other) (Hl : counts_ok l) (Hl' : counts_ok l') (Ha : alike s other).

Lemma merge_row_merged r s1 : (r < depth s)%nat → merged l l' s (λ r' _, Nat.ltb r' r) s1 →
  ∃ s2, merge_row other r s1 = Some s2 ∧ merged l l' s (λ r' _, Nat.ltb r' (Datatypes.S r)) s2.
Proof.
  intros Hr H1. pose proof Ha as (A1 & A2 & A3). pose proof H1 as [(B1 & B2 & B3) _]. unfold merge_row.
  destruct (for_indices_inv (λ c s, x ← cm_cell s r c; y ← cm_cell other r c; Some (set_cell s r c (saturating_add x y)))
    (λ k, merged l l' s (λ r' c', Nat.ltb r' r || Nat.eqb r' r && Nat.ltb c' k)) (width s1) 0 s1) as (s2 & Hrun & H2).
  - apply (merged_ext l l' s _ _ s1) with (2 := H1). intros r' c' _ _. destruct (Nat.ltb_spec r' r), (Nat.eqb_spec r' r); done.
  - intros c s2 Hlt [Hal2 H2]. rewrite <- B2 in Hlt. rewrite H2 by (done || lia). cbn [mbind option_bind].
    rewrite (h_cells _ _ Ho) by (rewrite <- ?A1, <- ?A2; done || lia). cbn [mbind option_bind]. eexists. split; [done|]. split; [done|].
    intros r' c' Hr' Hc'. rewrite cell_set by (rewrite H2 by (done || lia); done). rewrite (alike_load s other) by done. case_decide as E.
    + destruct E as [-> ->]. rewrite Nat.ltb_irrefl, Nat.eqb_refl, Nat.ltb_irrefl, (proj2 (Nat.ltb_lt c' _)) by lia. cbn [orb andb].
      f_equal. rewrite load_app. apply merge_sum; by apply load_pos.
    + rewrite H2 by done. do 2 f_equal. destruct (Nat.ltb_spec r' r), (Nat.eqb_spec r' r), (Nat.ltb_spec c' c), (Nat.ltb_spec c' (Datatypes.S c)); (done || lia).
  - exists s2. split; [exact Hrun|]. apply (merged_ext l l' s _ _ s2) with (2 := H2). intros r' c' _ Hc'. rewrite B2 in Hc'.
    destruct (Nat.ltb_spec r' r), (Nat.eqb_spec r' r), (Nat.ltb_spec c' (0 + width s1)), (Nat.ltb_spec r' (Datatypes.S r)); (done || lia).
Qed.

Lemma cm_merge_holds : holds l s → ∃ s', cm_merge other s = Some s' ∧ holds (l ++ l') s' ∧ alike s s'.
Proof.
  intros [Hd Hw Hs Hc]. unfold cm_merge. pose proof Ha as (A1 & A2 & A3). rewrite A1, A2, !Nat.eqb_refl. cbn [andb]. rewrite <- A1.
  destruct (for_indices_inv (merge_row other) (λ k, merged l l' s (λ r' _, Nat.ltb r' k)) (depth s) 0 s) as (s' & Hrun & Hal & H1).
  - split; [done|]. intros r c Hr Hc'. by apply Hc.
  - intros r s1 Hr H1. apply merge_row_merged; [lia|done].
  - exists s'. split; [exact Hrun|]. split; [|done]. destruct Hal as (B1 & B2 & B3). split; [by rewrite <- B1|by rewrite <- B2|by rewrite <- B3, <- B1|].
    intros r c Hr Hc'. rewrite <- B1 in Hr. rewrite <- B2 in Hc'. rewrite H1 by done. rewrite (proj2 (Nat.ltb_lt _ _)) by lia. by rewrite (alike_load s s').
Qed.
End merge.

(** ** Estimates *)
Fixpoint cm_run (l : stream) (s : CountMin) : option CountMin :=
  match l with [] => Some s | (k, c) :: l => s ← cm_add k c s; cm_run l s end.

Lemma cm_run_holds l l0 s : holds l0 s → counts_ok l0 → counts_ok l → ∃ s', cm_run l s = Some s' ∧ holds (l0 ++ l) s' ∧ alike s s'.
Proof.
  intros H H0 Hl. revert l0 s H H0. induction Hl as [|[k c] l Hc Hl IH]; intros l0 s H H0; [exists s; by rewrite app_nil_r|].
  destruct (cm_add_holds l0 k c s H H0 Hc) as (s1 & E1 & H1 & A1). destruct (IH (l0 ++ [(k, c)]) s1 H1) as (s2 & E2 & H2 & A2).
  { apply Forall_app. split; [done|]. by repeat constructor. }
  exists s2. cbn [cm_run]. rewrite E1. cbn [mbind option_bind]. rewrite <- app_assoc in H2. split; [done|]. split; [done|].
  destruct A1 as (? & ? & ?), A2 as (? & ? & ?). split; [congruence|]. split; congruence.
Qed.

Lemma weight_le_load l s key r c : counts_ok l → cm_hash s key r = Some c → weight l key <= load s l r c <= total l.
Proof.
  intros Hl Hc. unfold weight, load, total. induction Hl as [|[k x] l Hx Hl IH]; [done|]. rewrite !filter_cons, fmap_cons. cbn [fst snd foldr] in *.
  destruct (decide (k = key)) as [->|]; [rewrite decide_True by done|]; repeat case_decide; rewrite ?fmap_cons; cbn [foldr snd]; lia.
Qed.

Lemma min_cells_spec l s key rs min : holds l s → Forall (λ r, (r < depth s)%nat) rs → min <= U64_MAX →
  (∀ r, r ∈ rs → ∃ c, cm_hash s key r = Some c) → ∃ m, min_cells s key rs min = Some m ∧ m <= min ∧
    (∀ lo, lo <= min → (∀ r c, r ∈ rs → cm_hash s key r = Some c → lo <= load s l r c) → lo <= m) ∧
    ∀ r c, r ∈ rs → cm_hash s key r = Some c → m <= load s l r c.
Proof.
  intros H Hrs. revert min. induction Hrs as [|r rs Hr Hrs IH]; intros min Hmin Hh; [exists min; split_and!; [done|done|done|set_solver]|].
  destruct (hash_lt s key r (h_width _ _ H)) as (c & Hc & Hlt); [by rewrite (h_seeds _ _ H)|].
  cbn [min_cells]. rewrite Hc. cbn [mbind option_bind]. rewrite (h_cells _ _ H) by done. cbn [mbind option_bind].
  set (x := Z.min (load s l r c) U64_MAX). destruct (IH (if Z.ltb x min then x else min)) as (m & E & Hle & Hlo & Hhi).
  { destruct (Z.ltb_spec x min); lia. }
  { intros r' Hr'. apply Hh. set_solver. }
  exists m. split; [done|]. destruct (Z.ltb_spec x min); (split_and!; [lia| |]).
  - intros lo Hm Hall. apply Hlo; [|intros; apply Hall; set_solver]. assert (lo <= load s l r c) by (apply Hall; [set_solver|done]). lia.
  - intros r' c' [->|Hr']%elem_of_cons Hc'; [|by apply Hhi]. simplify_eq. lia.
  - intros lo Hm Hall. apply Hlo; [done|]. intros; apply Hall; set_solver.
  - intros r' c' [->|Hr']%elem_of_cons Hc'; [|by apply Hhi]. simplify_eq. lia.
Qed.

(** a Count-Min sketch never underestimates.  Whatever the hash function and the stream,
    as long as its total weight fits 64 bits (and is not the largest such number), the
    estimate of a key lies between its weight and the weight of the whole stream; and
    merging two sketches gives the sketch of the two streams together, counter by
    counter, also where counters saturate. *)
Theorem count_min_correct d w s0 l l' :
  cm_new d w = Some s0 → counts_ok l → counts_ok l' →
  ∃ s s' both m, cm_run l s0 = Some s ∧ cm_run l' s0 = Some s' ∧ cm_run (l ++ l') s0 = Some both ∧ cm_merge s' s = Some m ∧
    (∀ r c, (r < d)%nat → (c < w)%nat → cm_cell m r c = cm_cell both r c) ∧
    (total l < U64_MAX → ∀ key, ∃ n, cm_estimate s key = Some n ∧ weight l key <= n <= total l).
Proof.
  intros Hnew Hl Hl'. pose proof (cm_new_holds d w s0 Hnew) as H0.
  destruct (cm_run_holds l [] s0 H0) as (s & E & H & A); [by constructor|done|].
  destruct (cm_run_holds l' [] s0 H0) as (s' & E' & H' & A'); [by constructor|done|].
  destruct (cm_run_holds (l ++ l') [] s0 H0) as (both & Eb & Hb & Ab); [by constructor|by apply Forall_app|].
  destruct (cm_merge_holds l l' s s' H' Hl Hl') as (m & Em & Hm & Am); [destruct A as (? & ? & ?), A' as (? & ? & ?); split_and!; congruence|done|].
  exists s, s', both, m. do 4 (split; [done|]). split.
  - assert (depth s0 = d ∧ width s0 = w) as [<- <-] by (unfold cm_new in Hnew; destruct (_ && _); [|done]; by injection Hnew as <-).
    intros r c Hr Hc. destruct A as (? & ? & ?), Am as (? & ? & ?), Ab as (? & ? & ?).
    rewrite (h_cells _ _ Hm), (h_cells _ _ Hb) by congruence. rewrite (alike_load s0 both), (alike_load s0 m); [done|..]; split_and!; congruence.
  - intros Ht key. unfold cm_estimate.
    destruct (min_cells_spec l s key (seq 0 (depth s)) U64_MAX H) as (n & En & Hn & Hlo & Hhi); [|done|..].
    { apply list.Forall_forall. intros r Hr%elem_of_seq. lia. }
    { intros r Hr%elem_of_seq. destruct (hash_lt s key r (h_width _ _ H)) as (c & Hc & _); [rewrite (h_seeds _ _ H); lia|by exists c]. }
    rewrite En. cbn [mbind option_bind]. pose proof (h_depth _ _ H) as Hd.
    destruct (hash_lt s key 0 (h_width _ _ H)) as (c & Hc & _); [by rewrite (h_seeds _ _ H)|].
    pose proof (weight_le_load l s key 0 c Hl Hc) as Hw. assert (n <= load s l 0 c) by (apply Hhi; [apply elem_of_seq; lia|done]).
    assert (weight l key <= n) by (apply Hlo; [lia|]; intros r c' _ Hc'; apply (weight_le_load l s key r c' Hl Hc')).
    exists n. destruct (Z.eqb_spec n U64_MAX); [lia|]. split; [done|lia].
Qed.
End count_min.

Lemma count_min_correct_witness :
  let h bs := default 0 (head bs) in
  ∃ s0 s s' m, cm_new 2 3 = Some s0 ∧ cm_run h [(1, 4); (2, 5); (1, 2)] s0 = Some s ∧ cm_run h [(4, 7)] s0 = Some s' ∧ cm_merge s' s = Some m ∧
    ∃ n, cm_estimate h s 1 = Some n ∧ 6 <= n <= 11.
Proof.
  intros h. destruct (cm_new 2 3) as [s0|] eqn:E0; [|by vm_compute in E0].
  destruct (count_min_correct h 2 3 s0 [(1, 4); (2, 5); (1, 2)] [(4, 7)] E0) as (s & s' & both & m & E1 & E2 & _ & E3 & _ & He).
  - repeat constructor; cbn; lia.
  - repeat constructor; cbn; lia.
  - exists s0, s, s', m. do 4 (split; [done|]). apply He. by vm_compute.
Defined.

(** A key whose counters have all saturated is estimated at 0. *)
Theorem saturated_estimate_is_zero :
  let h bs := default 0 (head bs) in
  ∃ s0 s, cm_new 1 1 = Some s0 ∧ cm_run h [(1, U64_MAX)] s0 = Some s ∧ cm_estimate h s 1 = Some 0.
Proof. intros h. eexists _, _. split; [vm_compute; reflexivity|]. split; vm_compute; reflexivity. Qed.
End CountMinM.

Module HllM.
Record HyperLogLog := mkHLL { registers : list Z; precision : Z }.

Definition clamp (lo hi x : Z) : Z := if Z.ltb x lo then lo else if Z.ltb hi x then hi else x.
Definition hll_new (precision : Z) : HyperLogLog :=
  let p := clamp 4 14 precision in mkHLL (replicate (Z.to_nat (Z.shiftl 1 p)) 0) p.

Definition leading_zeros (x : Z) : Z := if Z.eqb x 0 then 64 else 63 - Z.log2 x.

Definition hll_index (h : HyperLogLog) (hash : Z) : nat := Z.to_nat (Z.land hash (Z.of_nat (length (registers h)) - 1)).
(** The casts to [u8] keep the value: it is at most 61. *)
Definition hll_rank (h : HyperLogLog) (hash : Z) : Z :=
  let body := Z.shiftr hash (precision h) in
  wrap_u 8 (if Z.eqb body 0 then 65 - precision h else leading_zeros body - precision h + 1).

(** [None]: the index is past the registers. *)
Definition hll_add (hash : Z) (h : HyperLogLog) : option HyperLogLog :=
  r ← registers h !! hll_index h hash;
  Some (if Z.ltb r (hll_rank h hash) then mkHLL (<[hll_index h hash := hll_rank h hash]> (registers h)) (precision h) else h).

Definition hll_merge (other h : HyperLogLog) : option HyperLogLog :=
  if Z.eqb (precision h) (precision other) then
    Some (mkHLL (zip_with (λ a b, if Z.ltb a b then b else a) (registers h) (registers other)
                   ++ drop (length (registers other)) (registers h)) (precision h))
  else None.

Fixpoint hll_run (l : list Z) (h : HyperLogLog) : option HyperLogLog :=
  match l with [] => Some h | x :: l => h ← hll_add x h; hll_run l h end.

(** ** What the registers hold *)
Section spec.
Context (p : Z) (Hp : 4 <= p <= 14).

(** Number of leading zeros among the [64 - p] high bits, plus one. *)
Definition rank (hash : Z) : Z := let body := Z.shiftr hash p in if Z.eqb body 0 then 65 - p else 64 - p - Z.log2 body.
(** The greatest rank among the hashes with these low bits. *)
Definition register (l : list Z) (i : Z) : Z := foldr Z.max 0 (rank <$> filter (λ x, x mod 2 ^ p = i) l).

Record holds (l : list Z) (h : HyperLogLog) : Prop := {
  h_precision : precision h = p;
  h_registers : registers h = register l <$> (Z.of_nat <$> seq 0 (Z.to_nat (2 ^ p)))
}.

Lemma length_registers l h : holds l h → length (registers h) = Z.to_nat (2 ^ p).
Proof. intros [_ ->]. by rewrite !length_fmap, length_seq. Qed.
Lemma lookup_register l h i : holds l h → (i < Z.to_nat (2 ^ p))%nat → registers h !! i = Some (register l (Z.of_nat i)).
Proof. intros [_ ->] Hi. rewrite !list_lookup_fmap, lookup_seq_lt by done. done. Qed.

Lemma index_mod h l x : holds l h → hll_index h x = Z.to_nat (x mod 2 ^ p).
Proof.
  intros Hh. unfold hll_index. rewrite (length_registers l) by done. rewrite Z2Nat.id by lia. f_equal.
  rewrite Z.sub_1_r, <- Z.ones_equiv, Z.land_ones by lia. done.
Qed.

Lemma rank_range x : in_u 64 x → 1 <= rank x <= 61.
Proof.
  intros Hx. unfold rank. set (b := Z.shiftr x p). assert (0 <= b < 2 ^ (64 - p)) as Hb.
  { unfold b. rewrite Z.shiftr_div_pow2 by lia. unfold in_u in Hx. split; [apply Z.div_pos; lia|].
    apply Z.div_lt_upper_bound; [lia|]. rewrite <- Z.pow_add_r by lia. replace (p + (64 - p)) with 64 by lia. apply Hx. }
  destruct (Z.eqb_spec b 0); [lia|]. assert (Z.log2 b < 64 - p) by (apply Z.log2_lt_pow2; lia). pose proof (Z.log2_nonneg b). lia.
Qed.

Lemma rank_eq l h x : holds l h → in_u 64 x → hll_rank h x = rank x.
Proof.
  intros Hh Hx. pose proof (rank_range x Hx) as Hr. unfold hll_rank, rank in *. rewrite (h_precision _ _ Hh).
  set (b := Z.shiftr x p) in *. unfold leading_zeros. destruct (Z.eqb_spec b 0).
  - apply wrap_u_small. unfold in_u. lia.
  - replace (63 - Z.log2 b - p + 1) with (64 - p - Z.log2 b) by lia. apply wrap_u_small. unfold in_u. lia.
Qed.

Lemma register_snoc l x i : register (l ++ [x]) i = if decide (x mod 2 ^ p = i) then Z.max (register l i) (rank x) else register l i.
Proof.
  unfold register. rewrite list.filter_app, filter_cons, filter_nil. case_decide; [|by rewrite app_nil_r]. rewrite fmap_app.
  cbn [fmap list_fmap]. induction (rank <$> _) as [|y ys IH]; cbn [foldr app]; [lia|]. rewrite IH. lia.
Qed.
Lemma register_app l l' i : register (l ++ l') i = Z.max (register l i) (register l' i).
Proof.
  unfold register. rewrite list.filter_app, fmap_app. induction (rank <$> filter _ l) as [|y ys IH]; cbn [foldr app]; [|rewrite IH; lia].
  induction (rank <$> filter _ l') as [|y ys IH]; cbn [foldr]; lia.
Qed.
Lemma register_pos l i : 0 <= register l i.
Proof. unfold register. induction (rank <$> _); cbn [foldr]; lia. Qed.

Lemma hll_add_holds l x h : holds l h → in_u 64 x → ∃ h', hll_add x h = Some h' ∧ holds (l ++ [x]) h'.
Proof.
  intros Hh Hx. unfold hll_add. rewrite (index_mod h l x Hh), (rank_eq l h x Hh Hx).
  pose proof (Z.mod_pos_bound x (2 ^ p)) as Hm. assert (Z.to_nat (x mod 2 ^ p) < Z.to_nat (2 ^ p))%nat as Hi by lia.
  rewrite (lookup_register l h _ Hh Hi). cbn [mbind option_bind]. rewrite Z2Nat.id by lia. eexists. split; [done|].
  assert (registers (if Z.ltb (register l (x mod 2 ^ p)) (rank x) then mkHLL (<[Z.to_nat (x mod 2 ^ p) := rank x]> (registers h)) (precision h) else h) =
    register (l ++ [x]) <$> (Z.of_nat <$> seq 0 (Z.to_nat (2 ^ p)))) as E.
  { apply list_eq. intros i. rewrite !list_lookup_fmap. destruct (decide (i < Z.to_nat (2 ^ p))%nat) as [Hlt|Hge].
    - rewrite lookup_seq_lt by done. cbn [fmap option_fmap option_map]. rewrite Nat.add_0_l, register_snoc.
      assert (registers h !! i = Some (register l (Z.of_nat i))) as Hr by (by apply lookup_register).
      destruct (decide (x mod 2 ^ p = Z.of_nat i)) as [E|E].
      + assert (Z.to_nat (x mod 2 ^ p) = i) as -> by lia. rewrite E. destruct (Z.ltb_spec (register l (Z.of_nat i)) (rank x)); cbn [registers].
        * rewrite list_lookup_insert_eq by (by rewrite (length_registers l)). f_equal. lia.
        * rewrite Hr. f_equal. lia.
      + destruct (Z.ltb _ _); cbn [registers]; [|done]. by rewrite list_lookup_insert_ne by lia.
    - rewrite (lookup_ge_None_2 (seq _ _)) by (rewrite length_seq; lia). apply lookup_ge_None_2.
      destruct (Z.ltb _ _); cbn [registers]; rewrite ?length_insert, (length_registers l) by done; lia. }
  split; [|exact E]. destruct (Z.ltb _ _); apply (h_precision _ _ Hh).
Qed.

Lemma hll_run_holds l l0 h : holds l0 h → Forall (in_u 64) l → ∃ h', hll_run l h = Some h' ∧ holds (l0 ++ l) h'.
Proof.
  intros Hh Hl. revert l0 h Hh. induction Hl as [|x l Hx Hl IH]; intros l0 h Hh; [exists h; by rewrite app_nil_r|].
  destruct (hll_add_holds l0 x h Hh Hx) as (h1 & E1 & H1). destruct (IH _ h1 H1) as (h2 & E2 & H2). exists h2.
  cbn [hll_run]. rewrite E1. cbn [mbind option_bind]. by rewrite <- app_assoc in H2.
Qed.

Lemma hll_merge_holds l l' h other : holds l h → holds l' other → ∃ m, hll_merge other h = Some m ∧ holds (l ++ l') m.
Proof.
  intros Hh Ho. unfold hll_merge. rewrite (h_precision _ _ Hh), (h_precision _ _ Ho), Z.eqb_refl. eexists. split; [done|]. split; [done|].
  cbn [registers]. rewrite drop_ge by (by rewrite (length_registers l), (length_registers l')). rewrite app_nil_r.
  rewrite (h_registers _ _ Hh), (h_registers _ _ Ho), zip_with_fmap_l, zip_with_fmap_r, zip_with_diag. apply list_fmap_ext. intros i x _.
  rewrite register_app. destruct (Z.ltb_spec (register l x) (register l' x)); lia.
Qed.
End spec.

Lemma hll_new_holds p : 4 <= p <= 14 → holds p [] (hll_new p).
Proof.
  intros Hp. unfold hll_new, clamp. destruct (Z.ltb_spec p 4), (Z.ltb_spec 14 p); try lia. split; [done|]. cbn [registers].
  rewrite Z.shiftl_1_l. apply list_eq. intros i. rewrite !list_lookup_fmap. destruct (decide (i < Z.to_nat (2 ^ p))%nat).
  - by rewrite lookup_replicate_2, lookup_seq_lt by done.
  - rewrite !lookup_ge_None_2; [done|rewrite length_seq; lia|rewrite length_replicate; lia].
Qed.

(** HyperLogLog registers.  After any stream of 64-bit hashes, register [i] holds the
    greatest rank (leading zeros of the high bits, plus one; between 1 and 61) among the
    hashes whose low bits are [i], and 0 if there is none; so the sketch depends only on
    which hashes occur.  Merging two sketches gives exactly the sketch of the two
    streams together. *)
Theorem hll_registers_correct p l l' : 4 <= p <= 14 → Forall (in_u 64) l → Forall (in_u 64) l' →
  ∃ h h' both, hll_run l (hll_new p) = Some h ∧ hll_run l' (hll_new p) = Some h' ∧ hll_run (l ++ l') (hll_new p) = Some both ∧
    hll_merge h' h = Some both ∧ length (registers h) = Z.to_nat (2 ^ p) ∧
    (∀ i, (i < Z.to_nat (2 ^ p))%nat → registers h !! i = Some (register p l (Z.of_nat i))) ∧
    ((∀ x, x ∈ l ↔ x ∈ l') → registers h = registers h').
Proof.
  intros Hp Hl Hl'. pose proof (hll_new_holds p Hp) as H0.
  destruct (hll_run_holds p Hp l [] _ H0 Hl) as (h & E & H). destruct (hll_run_holds p Hp l' [] _ H0 Hl') as (h' & E' & H').
  destruct (hll_run_holds p Hp (l ++ l') [] _ H0) as (both & Eb & Hb); [by apply Forall_app|].
  destruct (hll_merge_holds p l l' h h' H H') as (m & Em & Hm).
  assert (both = m) as -> by (destruct both, m, Hb as [Hb1 Hb2], Hm as [Hm1 Hm2]; cbn in *; congruence).
  exists h, h', m. do 4 (split; [done|]). split; [by apply (length_registers p l)|]. split; [intros i; by apply lookup_register|].
  intros Hsame. rewrite (h_registers _ _ _ H), (h_registers _ _ _ H'). apply list_fmap_ext. intros i x _. unfold register.
  assert (∀ l1 l2, (∀ y, y ∈ l1 → y ∈ l2) → foldr Z.max 0 (rank p <$> l1) <= foldr Z.max 0 (rank p <$> l2)) as Hmono.
  { intros l1 l2 Hsub. induction l1 as [|y l1 IH]; [cbn; clear; induction (rank p <$> l2); cbn; lia|]. rewrite fmap_cons. cbn [foldr].
    assert (rank p y <= foldr Z.max 0 (rank p <$> l2)); [|specialize (IH ltac:(set_solver)); lia].
    assert (y ∈ l2) as Hy by set_solver. clear -Hy. induction l2 as [|z l2 IH]; [by apply elem_of_nil in Hy|].
    rewrite fmap_cons. cbn [foldr]. apply elem_of_cons in Hy as [->|Hy]; [lia|specialize (IH Hy); lia]. }
  apply Z.le_antisymm; apply Hmono; intros y; rewrite !list_elem_of_filter; set_solver.
Qed.

Lemma hll_registers_correct_witness :
  ∃ h, hll_run [5; 1024; 5] (hll_new 4) = Some h ∧ registers h !! 5%nat = Some 61 ∧ registers h !! 0%nat = Some 54.
Proof.
  destruct (hll_registers_correct 4 [5; 1024; 5] [] ltac:(lia)) as (h & _ & _ & E & _ & _ & _ & _ & Hr & _).
  - repeat constructor; cbn; lia.
  - constructor.
  - exists h. split; [exact E|]. split; [rewrite (Hr 5%nat) by (vm_compute; lia)|rewrite (Hr 0%nat) by (vm_compute; lia)]; vm_compute; reflexivity.
Defined.
End HllM.
