(* ===== verification/ZoneMaps.v ===== *)
(** * Zone maps and materialized hashes (src/src/exec/zone_map.rs, src/src/exec/hash_column.rs)

    The least and the greatest cell of every page of a column, and the pages a range may
    touch; the hashes of a string column and their registry. *)

From Stdlib Require Import ZArith Lia Sorting.Sorted.
From stdpp Require Import prelude list numbers gmap.
From S2P Require Import Prelude Sorting IndexManager.
Local Open Scope Z_scope.

Module ZoneM.
Definition PAGE_SIZE : nat := 1024.
Definition U64_MAX : Z := 2 ^ 64 - 1.

Record ZoneMap := mkZM { mins : list Z; maxs : list Z; num_pages : nat; total_rows : nat }.

(** The loop over the rows of a page; [None]: past the end of the column. *)
Fixpoint min_max (col : list Z) (rows : list nat) (min max : Z) : option (Z * Z) :=
  match rows with
  | [] => Some (min, max)
  | i :: rows => v ← col !! i; min_max col rows (if Z.ltb v min then v else min) (if Z.ltb max v then v else max)
  end.

Definition row_range (total page_idx : nat) : nat * nat :=
  let start := (page_idx * PAGE_SIZE)%nat in (start, Nat.min (start + PAGE_SIZE) total).
Definition range_rows (r : nat * nat) : list nat := seq r.1 (r.2 - r.1).

Fixpoint zones (col : list Z) (pages : list nat) : option (list (Z * Z)) :=
  match pages with
  | [] => Some []
  | p :: pages => z ← min_max col (range_rows (row_range (length col) p)) U64_MAX 0; zs ← zones col pages; Some (z :: zs)
  end.

Definition zm_build (col : list Z) : option ZoneMap :=
  let total := length col in
  let pages := ((total + PAGE_SIZE - 1) / PAGE_SIZE)%nat in
  zs ← zones col (seq 0 pages); Some (mkZM zs.*1 zs.*2 pages total).

Definition page_might_contain_range (m : ZoneMap) (page_idx : nat) (lo hi : Z) : option bool :=
  if Nat.leb (num_pages m) page_idx then Some false
  else max ← maxs m !! page_idx; if Z.leb lo max then min ← mins m !! page_idx; Some (Z.leb min hi) else Some false.

Definition page_might_contain_value (m : ZoneMap) (page_idx : nat) (v : Z) : option bool :=
  if Nat.leb (num_pages m) page_idx then Some false
  else min ← mins m !! page_idx; if Z.leb min v then max ← maxs m !! page_idx; Some (Z.leb v max) else Some false.

Fixpoint pages_loop (m : ZoneMap) (lo hi : Z) (pages : list nat) : option (list nat) :=
  match pages with
  | [] => Some []
  | i :: pages => b ← page_might_contain_range m i lo hi; r ← pages_loop m lo hi pages; Some (if b : bool then i :: r else r)
  end.
Definition pages_in_range (m : ZoneMap) (lo hi : Z) : option (list nat) := pages_loop m lo hi (seq 0 (num_pages m)).

Definition page_row_range (m : ZoneMap) (page_idx : nat) : nat * nat := row_range (total_rows m) page_idx.

(** Of a table: a zone map per column. *)
Fixpoint build_all (cols : list (list Z)) : option (list (option ZoneMap)) :=
  match cols with [] => Some [] | c :: cols => m ← zm_build c; ms ← build_all cols; Some (Some m :: ms) end.
Definition zone_of (maps : list (option ZoneMap)) (col_idx : nat) : option ZoneMap := mjoin (maps !! col_idx).

(** ** Pages *)
Definition page_rows (col : list Z) (p : nat) : list nat := range_rows (row_range (length col) p).

Lemma page_rows_elem col p i : i ∈ page_rows col p ↔ (p * PAGE_SIZE <= i < Nat.min (p * PAGE_SIZE + PAGE_SIZE) (length col))%nat.
Proof. unfold page_rows, range_rows, row_range. cbn [fst snd]. rewrite elem_of_seq. lia. Qed.

(** The rows of the table are those of its pages, one after the other. *)
Lemma pages_cover total n : (n * PAGE_SIZE >= total)%nat → concat ((λ p, range_rows (row_range total p)) <$> seq 0 n) = seq 0 total.
Proof.
  assert (∀ k, (k <= n)%nat → concat ((λ p, range_rows (row_range total p)) <$> seq 0 k) = seq 0 (Nat.min (k * PAGE_SIZE) total)) as H.
  { induction k as [|k IH]; intros Hk; [done|]. rewrite seq_S, fmap_app, concat_app, IH by lia. cbn [fmap list_fmap concat]. rewrite app_nil_r.
    unfold range_rows, row_range. cbn [fst snd]. rewrite Nat.add_0_l. destruct (decide (k * PAGE_SIZE <= total)%nat).
    - rewrite (Nat.min_l (k * _)) by done. replace (Nat.min (S k * PAGE_SIZE) total) with (k * PAGE_SIZE + (Nat.min (k * PAGE_SIZE + PAGE_SIZE) total - k * PAGE_SIZE))%nat by lia.
      by rewrite seq_app.
    - replace (Nat.min (k * PAGE_SIZE + PAGE_SIZE) total - k * PAGE_SIZE)%nat with 0%nat by lia. rewrite app_nil_r. f_equal. lia. }
  intros Hn. rewrite H by done. f_equal. lia.
Qed.

(** ** Bounds *)
Section col.
Context (col : list Z) (Hcol : Forall (in_u 64) col).

Lemma min_max_spec rows mn mx : Forall (λ i, (i < length col)%nat) rows →
  ∃ mn' mx', min_max col rows mn mx = Some (mn', mx') ∧ mn' <= mn ∧ mx <= mx' ∧
    (∀ i v, i ∈ rows → col !! i = Some v → mn' <= v <= mx') ∧
    (mn' = mn ∨ ∃ i, i ∈ rows ∧ col !! i = Some mn') ∧ (mx' = mx ∨ ∃ i, i ∈ rows ∧ col !! i = Some mx').
Proof.
  intros H. revert mn mx. induction H as [|i rows Hi H IH]; intros mn mx; [exists mn, mx; split_and!; [done..| |by left|by left]; set_solver|].
  destruct (lookup_lt_is_Some_2 _ _ Hi) as [v Hv]. cbn [min_max]. rewrite Hv. cbn [mbind option_bind].
  destruct (IH (if Z.ltb v mn then v else mn) (if Z.ltb mx v then v else mx)) as (mn' & mx' & -> & H1 & H2 & H3 & H4 & H5).
  exists mn', mx'. split; [done|]. split; [destruct (Z.ltb_spec v mn); lia|]. split; [destruct (Z.ltb_spec mx v); lia|]. split_and!.
  - intros j w [->|Hj]%elem_of_cons Hw; [|by eapply H3]. assert (w = v) as -> by congruence. destruct (Z.ltb_spec v mn), (Z.ltb_spec mx v); lia.
  - destruct H4 as [->|(j & Hj & Hw)]; [destruct (Z.ltb_spec v mn); [right; exists i; set_solver|by left]|right; exists j; set_solver].
  - destruct H5 as [->|(j & Hj & Hw)]; [destruct (Z.ltb_spec mx v); [right; exists i; set_solver|by left]|right; exists j; set_solver].
Qed.

(** The bounds of a page are met by rows of it. *)
Definition zone_ok (p : nat) (z : Z * Z) : Prop :=
  (∀ i v, i ∈ page_rows col p → col !! i = Some v → z.1 <= v <= z.2) ∧
  (page_rows col p ≠ [] → (∃ i, i ∈ page_rows col p ∧ col !! i = Some z.1) ∧ ∃ i, i ∈ page_rows col p ∧ col !! i = Some z.2).

Lemma zones_spec ps : ∃ zs, zones col ps = Some zs ∧ Forall2 zone_ok ps zs.
Proof.
  induction ps as [|p ps (zs & IH & Hz)]; [by exists []|]. cbn [zones].
  destruct (min_max_spec (page_rows col p) U64_MAX 0) as (mn & mx & Hm & _ & _ & Hb & Hmn & Hmx).
  { apply list.Forall_forall. intros i Hi%page_rows_elem. lia. }
  unfold page_rows in Hm. rewrite Hm. cbn [mbind option_bind]. rewrite IH. cbn [mbind option_bind]. exists ((mn, mx) :: zs). split; [done|].
  constructor; [|done]. split; [done|]. intros Hne. destruct (page_rows col p) as [|i rows] eqn:E; [done|].
  destruct (lookup_lt_is_Some_2 col i) as [v Hv].
  { assert (i ∈ page_rows col p) as Hi by (rewrite E; set_solver). apply page_rows_elem in Hi. lia. }
  pose proof (Forall_lookup_1 _ _ _ _ Hcol Hv) as Hu. unfold in_u in Hu. pose proof (Hb i v ltac:(set_solver) Hv) as Hiv. split.
  - destruct Hmn as [->|?]; [|done]. exists i. split; [set_solver|]. cbn. rewrite Hv. f_equal. unfold U64_MAX in *. cbn in Hiv. lia.
  - destruct Hmx as [->|?]; [|done]. exists i. split; [set_solver|]. cbn. rewrite Hv. f_equal. cbn in Hiv. lia.
Qed.

(** The rows of a column with a cell in a range. *)
Definition in_range (lo hi : Z) (i : nat) : Prop := ∃ v, col !! i = Some v ∧ lo <= v <= hi.
#[local] Instance in_range_dec lo hi i : Decision (in_range lo hi i).
Proof.
  destruct (col !! i) as [v|] eqn:E; [|right; intros (? & ? & ?); congruence].
  destruct (decide (lo <= v <= hi)); [left; by exists v|right; intros (w & Hw & Hr); assert (w = v) as -> by congruence; done].
Defined.

(** The page lists every row in the range, if it is asked for. *)
Definition overlaps (lo hi : Z) (z : Z * Z) : bool := Z.leb lo z.2 && Z.leb z.1 hi.

Lemma zone_build_spec : ∃ zs, zm_build col = Some (mkZM zs.*1 zs.*2 (length zs) (length col)) ∧ (length col <= length zs * PAGE_SIZE)%nat ∧
  Forall2 zone_ok (seq 0 (length zs)) zs.
Proof.
  unfold zm_build. set (n := ((length col + PAGE_SIZE - 1) / PAGE_SIZE)%nat).
  destruct (zones_spec (seq 0 n)) as (zs & -> & Hz). cbn [mbind option_bind]. pose proof (Forall2_length _ _ _ Hz) as Hl. rewrite length_seq in Hl.
  exists zs. rewrite <- Hl. split; [done|]. split; [|done]. unfold n, PAGE_SIZE.
  pose proof (Nat.div_mod_eq (length col + 1024 - 1) 1024). pose proof (Nat.mod_upper_bound (length col + 1024 - 1) 1024). lia.
Qed.

Lemma might_contain zs n p lo hi : (p < length zs)%nat →
  ∃ z, zs !! p = Some z ∧ page_might_contain_range (mkZM zs.*1 zs.*2 (length zs) n) p lo hi = Some (overlaps lo hi z).
Proof.
  intros Hp. destruct (lookup_lt_is_Some_2 _ _ Hp) as [z Hz]. exists z. split; [done|]. unfold page_might_contain_range, overlaps.
  cbn [num_pages maxs mins]. rewrite (proj2 (Nat.leb_gt _ _)) by lia. rewrite !list_lookup_fmap, Hz. cbn. by destruct (Z.leb lo z.2).
Qed.

Lemma pages_loop_spec zs n lo hi ps : Forall (λ p, (p < length zs)%nat) ps →
  pages_loop (mkZM zs.*1 zs.*2 (length zs) n) lo hi ps = Some (filter (λ p, overlaps lo hi (default (0, 0) (zs !! p)) = true) ps).
Proof.
  induction 1 as [|p ps Hp H IH]; [done|]. cbn [pages_loop]. destruct (might_contain zs n p lo hi Hp) as (z & Hz & ->).
  cbn [mbind option_bind]. rewrite IH. cbn [mbind option_bind]. rewrite filter_cons, Hz. change (default (0, 0) (Some z)) with z. case_decide as E; [by rewrite E|]. by destruct (overlaps lo hi z).
Qed.

Lemma skipped zs lo hi ps : Forall2 zone_ok ps (zs : list (Z * Z)) →
  ∀ f : nat → Z * Z, (∀ k p, ps !! k = Some p → zs !! k = Some (f p)) →
  filter (in_range lo hi) (concat (page_rows col <$> ps)) =
  filter (in_range lo hi) (concat (page_rows col <$> filter (λ p, overlaps lo hi (f p) = true) ps)).
Proof.
  induction 1 as [|p z ps zs Hz H IH]; intros f Hf; [done|]. rewrite filter_cons. assert (z = f p) as -> by (specialize (Hf 0%nat p eq_refl); naive_solver).
  assert (∀ k q, ps !! k = Some q → zs !! k = Some (f q)) as Hf' by (intros k q Hk; apply (Hf (S k) q Hk)). rewrite fmap_cons. cbn [concat].
  rewrite list.filter_app, (IH f Hf'). case_decide as E; [rewrite fmap_cons; cbn [concat]; by rewrite list.filter_app|].
  assert (filter (in_range lo hi) (page_rows col p) = []) as ->; [|done]. apply filter_none. intros i Hi (v & Hv & Hr).
  destruct Hz as [Hb _]. specialize (Hb i v Hi Hv). apply E. unfold overlaps. apply andb_true_iff. split; apply Z.leb_le; lia.
Qed.

(** zone maps skip only what cannot match.  For every column of 64-bit cells and every
    range, scanning just the pages the zone map lists finds, in order, exactly the rows
    that a scan of the whole column finds; and it lists no page without a cell that
    reaches the lower bound and one that does not pass the upper bound. *)
Theorem zone_map_exact lo hi :
  ∃ m ps, zm_build col = Some m ∧ pages_in_range m lo hi = Some ps ∧
    filter (in_range lo hi) (seq 0 (length col)) = filter (in_range lo hi) (concat ((λ p, range_rows (page_row_range m p)) <$> ps)) ∧
    (∀ p, p ∈ ps → page_rows col p ≠ [] →
       ∃ i j x y, i ∈ page_rows col p ∧ j ∈ page_rows col p ∧ col !! i = Some x ∧ col !! j = Some y ∧ lo <= x ∧ y <= hi).
Proof.
  destruct zone_build_spec as (zs & Hb & Hlen & Hz). set (f := λ p, default (0, 0) (zs !! p)).
  exists (mkZM zs.*1 zs.*2 (length zs) (length col)), (filter (λ p, overlaps lo hi (f p) = true) (seq 0 (length zs))). split; [done|].
  split; [|split].
  - unfold pages_in_range. cbn [num_pages]. apply pages_loop_spec. apply list.Forall_forall. intros p Hp%elem_of_seq. lia.
  - rewrite <- (pages_cover (length col) (length zs)) by lia. unfold page_row_range. cbn [total_rows].
    apply (skipped zs lo hi (seq 0 (length zs)) Hz f). intros k p [-> Hk]%lookup_seq. unfold f. rewrite Nat.add_0_l.
    by destruct (lookup_lt_is_Some_2 _ _ Hk) as [z ->].
  - intros p [Ho Hp]%list_elem_of_filter Hne. apply elem_of_seq in Hp. assert (p < length zs)%nat as Hlt by lia.
    destruct (lookup_lt_is_Some_2 _ _ Hlt) as [z Hzp]. unfold f in Ho. rewrite Hzp in Ho. cbn [default] in Ho.
    destruct (Forall2_lookup_r _ _ _ _ _ Hz Hzp) as (p' & Hp' & _ & Hatt). apply lookup_seq in Hp' as [-> _]. rewrite Nat.add_0_l in Hatt.
    destruct (Hatt Hne) as [(j & Hj & Hy) (i & Hi & Hx)]. unfold overlaps in Ho. apply andb_true_iff in Ho as [Hlo%Z.leb_le Hhi%Z.leb_le].
    exists i, j, z.2, z.1. by split_and!.
Qed.
End col.

Lemma zone_map_exact_witness :
  let col := [5; 9; 7] in
  ∃ m ps, zm_build col = Some m ∧ pages_in_range m 6 8 = Some ps ∧ pages_in_range m 10 20 = Some [] ∧
    filter (λ i, i = 2%nat) (seq 0 3) = filter (λ i, i = 2%nat) (concat ((λ p, range_rows (page_row_range m p)) <$> ps)).
Proof.
  intros col. assert (Forall (in_u 64) col) as Hc by (by repeat constructor).
  destruct (zone_map_exact col Hc 6 8) as (m & ps & Hb & Hp & Hf & _). exists m, ps. split; [exact Hb|]. split; [exact Hp|].
  revert Hb Hp. vm_compute zm_build. intros [= <-]. vm_compute pages_in_range. intros [= <-]. split; vm_compute; reflexivity.
Defined.
End ZoneM.

(** ** Hashes of string columns *)
Module HashColumnM.
Abbreviation text := (list Z).
Record HashColumn := mkHC { hashes : list Z }.
Section hashes.
Context (xxh3_64 : list Z → Z).

(** Strings are their bytes. *)
Definition from_strings (strings : list (list Z)) : HashColumn := mkHC (xxh3_64 <$> strings).
Definition get (idx : nat) (c : HashColumn) : Z := default 0 (hashes c !! idx).
Definition group_by_hash (c : HashColumn) : gmap Z (list nat) := fold_left IndexM.push_row (imap pair (hashes c)) ∅.
Definition count_distinct (c : HashColumn) : nat := size (fold_left (λ (seen : gset Z) h, {[h]} ∪ seen) (hashes c) ∅).

Definition Registry := gmap (text * text) HashColumn.
Definition register (t c : text) (h : HashColumn) (r : Registry) : Registry := <[(t, c) := h]> r.
Definition has (t c : text) (r : Registry) : bool := bool_decide (is_Some (r !! (t, c))).
Definition remove (t c : text) (r : Registry) : bool * Registry := (bool_decide (is_Some (r !! (t, c))), delete (t, c) r).

(** Grouping by hash is grouping by string, as long as no two strings of the column share
    a hash: a string leads to the rows that hold it, and there are as many groups as
    distinct strings. *)
Lemma group_by_hash_strings strings s :
  (∀ a b, a ∈ strings → b ∈ strings → xxh3_64 a = xxh3_64 b → a = b) → s ∈ strings →
  group_by_hash (from_strings strings) !! xxh3_64 s = Some (filter (λ i, strings !! i = Some s) (seq 0 (length strings))).
Proof.
  intros Hinj Hs. change (group_by_hash (from_strings strings)) with (IndexM.hash_rows (xxh3_64 <$> strings)). rewrite IndexM.hash_rows_spec.
  assert (IndexM.rows_with (xxh3_64 <$> strings) (xxh3_64 s) = filter (λ i, strings !! i = Some s) (seq 0 (length strings))) as ->.
  { unfold IndexM.rows_with. rewrite length_fmap. apply filter_ext_elem. intros i _. rewrite list_lookup_fmap.
    destruct (strings !! i) as [x|] eqn:E; cbn; [|naive_solver]. split; [|by intros [= ->]]. intros [= H]. f_equal.
    apply Hinj; [by eapply list_elem_of_lookup_2|done|done]. }
  rewrite decide_False; [done|]. apply list_elem_of_lookup in Hs as [i Hi]. intros E.
  assert (i ∈ (filter (λ i, strings !! i = Some s) (seq 0 (length strings)) : list nat)) as H; [|rewrite E in H; by apply elem_of_nil in H].
  apply list_elem_of_filter. split; [done|]. apply elem_of_seq. apply lookup_lt_Some in Hi. lia.
Qed.
End hashes.
End HashColumnM.
