(* ===== verification/FixedAgg.v ===== *)
(** * Aggregation into a fixed array (src/src/exec/fixed_agg.rs)

    Group keys hashed into 256 slots with linear probing, and the aggregates of each slot.
    Doubles are [spec_float]. *)

From Stdlib Require Import ZArith Lia Floats.SpecFloat.
From stdpp Require Import prelude list numbers.
From S2P Require Import Prelude.
Local Open Scope Z_scope.

Module FixedAggM.
Definition MAX_FIXED_GROUPS : nat := 256.
Abbreviation f64 := spec_float.
Definition f64_add (a b : f64) : f64 := SFadd 53 1024 a b.

Record FixedAccumulator := mkFA {
  slots : list (option Z); sums : list f64; counts : list Z; mins : list f64; maxs : list f64; group_keys : list Z;
  num_aggs : nat; num_active : nat
}.

Definition fa_new (num_aggs : nat) : FixedAccumulator :=
  mkFA (replicate MAX_FIXED_GROUPS None) (replicate (num_aggs * MAX_FIXED_GROUPS) (S754_zero false)) (replicate MAX_FIXED_GROUPS 0)
    (replicate (num_aggs * MAX_FIXED_GROUPS) (S754_infinity false)) (replicate (num_aggs * MAX_FIXED_GROUPS) (S754_infinity true))
    (replicate MAX_FIXED_GROUPS 0) num_aggs 0.

Definition home (key : Z) : nat := Z.to_nat (Z.land key 255).
Definition next_slot (slot : nat) : nat := Nat.land (slot + 1) 255.

Definition create_slot (key : Z) (slot : nat) (a : FixedAccumulator) : FixedAccumulator :=
  mkFA (<[slot := Some key]> (slots a)) (sums a) (counts a) (mins a) (maxs a) (<[slot := key]> (group_keys a)) (num_aggs a) (S (num_active a)).

(** The loop of [get_or_create_slot]; without fuel it does not end. *)
Fixpoint probe (fuel : nat) (key : Z) (slot : nat) (a : FixedAccumulator) : option (nat * FixedAccumulator) :=
  match fuel with
  | O => None
  | S fuel =>
    match slots a !! slot with
    | None => None
    | Some (Some k) => if Z.eqb k key then Some (slot, a) else probe fuel key (next_slot slot) a
    | Some None => Some (slot, create_slot key slot a)
    end
  end.
Definition get_or_create_slot (fuel : nat) (key : Z) (a : FixedAccumulator) : option (nat * FixedAccumulator) := probe fuel key (home key) a.

(** Updates of an aggregate; [None]: the index is past the array. *)
Definition at_ (agg_idx slot : nat) : nat := agg_idx * MAX_FIXED_GROUPS + slot.
Definition update_at {A} (f : A → A) (i : nat) (l : list A) : option (list A) := if Nat.ltb i (length l) then Some (alter f i l) else None.

Definition add_sum (agg_idx slot : nat) (v : f64) (a : FixedAccumulator) : option FixedAccumulator :=
  s ← update_at (λ x, f64_add x v) (at_ agg_idx slot) (sums a);
  Some (mkFA (slots a) s (counts a) (mins a) (maxs a) (group_keys a) (num_aggs a) (num_active a)).
Definition inc_count (slot : nat) (a : FixedAccumulator) : option FixedAccumulator :=
  c ← update_at (λ x, wrapping_add x 1) slot (counts a);
  Some (mkFA (slots a) (sums a) c (mins a) (maxs a) (group_keys a) (num_aggs a) (num_active a)).
Definition update_min (agg_idx slot : nat) (v : f64) (a : FixedAccumulator) : option FixedAccumulator :=
  m ← update_at (λ x, if SFltb v x then v else x) (at_ agg_idx slot) (mins a);
  Some (mkFA (slots a) (sums a) (counts a) m (maxs a) (group_keys a) (num_aggs a) (num_active a)).
Definition update_max (agg_idx slot : nat) (v : f64) (a : FixedAccumulator) : option FixedAccumulator :=
  m ← update_at (λ x, if SFltb x v then v else x) (at_ agg_idx slot) (maxs a);
  Some (mkFA (slots a) (sums a) (counts a) (mins a) m (group_keys a) (num_aggs a) (num_active a)).

Record group := mkGroup { g_key : Z; g_sums : list f64; g_count : Z; g_mins : list f64; g_maxs : list f64 }.

Definition aggs_of (l : list f64) (n slot : nat) : option (list f64) := mapM (λ a, l !! at_ a slot) (seq 0 n).
Definition emit_slot (a : FixedAccumulator) (slot : nat) : option (list group) :=
  s ← slots a !! slot;
  match s with
  | None => Some []
  | Some _ =>
    key ← group_keys a !! slot; ss ← aggs_of (sums a) (num_aggs a) slot; mn ← aggs_of (mins a) (num_aggs a) slot;
    mx ← aggs_of (maxs a) (num_aggs a) slot; c ← counts a !! slot; Some [mkGroup key ss c mn mx]
  end.
Definition finalize (a : FixedAccumulator) : option (list group) := gs ← mapM (emit_slot a) (seq 0 MAX_FIXED_GROUPS); Some (concat gs).

(** A row: its key, and a value for every aggregate. *)
Fixpoint add_values (slot agg : nat) (vs : list f64) (a : FixedAccumulator) : option FixedAccumulator :=
  match vs with
  | [] => Some a
  | v :: vs => a ← add_sum agg slot v a; a ← update_min agg slot v a; a ← update_max agg slot v a; add_values slot (S agg) vs a
  end.
Definition add_row (fuel : nat) (r : Z * list f64) (a : FixedAccumulator) : option FixedAccumulator :=
  '(slot, a) ← get_or_create_slot fuel r.1 a; a ← inc_count slot a; add_values slot 0 r.2 a.
Fixpoint add_rows (fuel : nat) (rs : list (Z * list f64)) (a : FixedAccumulator) : option FixedAccumulator :=
  match rs with [] => Some a | r :: rs => a ← add_row fuel r a; add_rows fuel rs a end.

(** ** The slots *)

(** The [j]-th slot tried for a key. *)
Definition nth_slot (key : Z) (j : nat) : nat := (home key + j) mod MAX_FIXED_GROUPS.

Lemma home_lt key : (home key < MAX_FIXED_GROUPS)%nat.
Proof. unfold home, MAX_FIXED_GROUPS. change 255 with (Z.ones 8). rewrite Z.land_ones by lia. pose proof (Z.mod_pos_bound key (2 ^ 8)). lia. Qed.
Lemma nth_slot_0 key : nth_slot key 0 = home key.
Proof. unfold nth_slot. rewrite Nat.add_0_r. apply Nat.mod_small, home_lt. Qed.
Lemma nth_slot_S key j : next_slot (nth_slot key j) = nth_slot key (S j).
Proof.
  unfold next_slot, nth_slot, MAX_FIXED_GROUPS. change 255%nat with (Nat.ones 8). rewrite Nat.land_ones. change (2 ^ 8)%nat with 256%nat.
  rewrite Nat.Div0.add_mod_idemp_l. f_equal. lia.
Qed.
Lemma nth_slot_lt key j : (nth_slot key j < MAX_FIXED_GROUPS)%nat.
Proof. apply Nat.mod_upper_bound. by unfold MAX_FIXED_GROUPS. Qed.
(** Every slot is tried. *)
Lemma nth_slot_onto key s : (s < MAX_FIXED_GROUPS)%nat → ∃ j, (j < MAX_FIXED_GROUPS)%nat ∧ nth_slot key j = s.
Proof.
  intros Hs. pose proof (home_lt key) as Hh. unfold nth_slot, MAX_FIXED_GROUPS in *.
  destruct (decide (home key <= s)%nat).
  - exists (s - home key)%nat. split; [lia|]. replace (home key + (s - home key))%nat with s by lia. by apply Nat.mod_small.
  - exists (s + 256 - home key)%nat. split; [lia|]. replace (home key + (s + 256 - home key))%nat with (s + 1 * 256)%nat by lia.
    rewrite Nat.Div0.mod_add. by apply Nat.mod_small.
Qed.

(** Whether the probe passes a slot: another key is there. *)
Definition passes (key : Z) (o : option (option Z)) : Prop := ∃ k, o = Some (Some k) ∧ k ≠ key.

Record placed (ks : list Z) (ss : list (option Z)) : Prop := {
  p_length : length ss = MAX_FIXED_GROUPS;
  p_keys : ∀ s k, ss !! s = Some (Some k) → k ∈ ks;
  p_found : ∀ k, k ∈ ks → ∃ d, (d < MAX_FIXED_GROUPS)%nat ∧ ss !! nth_slot k d = Some (Some k) ∧ ∀ j, (j < d)%nat → passes k (ss !! nth_slot k j);
  p_one : ∀ s s' k, ss !! s = Some (Some k) → ss !! s' = Some (Some k) → s = s'
}.

(** The probe stops at the first slot it does not pass. *)
Lemma probe_stops key a d j fuel : (∀ i, (j <= i < d)%nat → passes key (slots a !! nth_slot key i)) → (j <= d)%nat → (d - j < fuel)%nat →
  (slots a !! nth_slot key d = Some (Some key) → probe fuel key (nth_slot key j) a = Some (nth_slot key d, a)) ∧
  (slots a !! nth_slot key d = Some None → probe fuel key (nth_slot key j) a = Some (nth_slot key d, create_slot key (nth_slot key d) a)).
Proof.
  revert j. induction fuel as [|fuel IH]; intros j Hp Hj Hf; [lia|]. cbn [probe]. destruct (decide (j = d)) as [->|Hne].
  - split; intros ->; [by rewrite Z.eqb_refl|done].
  - destruct (Hp j) as (k & -> & Hk); [lia|]. rewrite (proj2 (Z.eqb_neq _ _)) by done. rewrite nth_slot_S. apply IH; [|lia|lia].
    intros i Hi. apply Hp. lia.
Qed.

(** The least slot that is not passed. *)
Lemma first_stop key ss n : length ss = MAX_FIXED_GROUPS → (∃ j, (j < n)%nat ∧ ¬ passes key (ss !! nth_slot key j)) →
  ∃ d, (d < n)%nat ∧ (∀ i, (i < d)%nat → passes key (ss !! nth_slot key i)) ∧ (ss !! nth_slot key d = Some (Some key) ∨ ss !! nth_slot key d = Some None).
Proof.
  intros Hl. assert (∀ j, passes key (ss !! nth_slot key j) ∨ ss !! nth_slot key j = Some (Some key) ∨ ss !! nth_slot key j = Some None) as Hc.
  { intros j. destruct (lookup_lt_is_Some_2 ss (nth_slot key j)) as [[k|] ->]; [by rewrite Hl; apply nth_slot_lt| |by right; right].
    destruct (decide (k = key)) as [->|]; [by right; left|left; by exists k]. }
  induction n as [|n IH]; intros (j & Hj & Hn); [lia|].
  assert ((∃ i, (i < n)%nat ∧ ¬ passes key (ss !! nth_slot key i)) ∨ ∀ i, (i < n)%nat → passes key (ss !! nth_slot key i)) as [H|H].
  { clear -Hc. induction n as [|n [(i & ? & ?)|IH]]; [right; lia|left; exists i; split; [lia|done]|].
    destruct (Hc n) as [Hn|Hn]; [right; intros i Hi; destruct (decide (i = n)) as [->|]; [done|apply IH; lia]|].
    left. exists n. split; [lia|]. intros (k & E & Hk). destruct Hn as [Hn|Hn]; rewrite Hn in E; naive_solver. }
  - destruct (IH H) as (d & ? & ?). exists d. split; [lia|done].
  - exists n. split; [lia|]. split; [done|]. destruct (Hc n) as [Hp|Hs]; [|done]. destruct (decide (j = n)) as [->|]; [done|]. destruct Hn. apply H. lia.
Qed.

(** The keys in the slots are distinct, and are the keys placed. *)
Lemma omap_NoDup (ss : list (option Z)) : (∀ s s' k, ss !! s = Some (Some k) → ss !! s' = Some (Some k) → s = s') → NoDup (omap id ss).
Proof.
  induction ss as [|o ss IH]; intros Ho; [constructor|]. assert (NoDup (omap id ss)).
  { apply IH. intros s s' k H H'. specialize (Ho (S s) (S s') k H H'). lia. }
  destruct o as [k|]; [|done]. cbn. constructor; [|done]. intros (o & Hin & Hk)%list_elem_of_omap.
  unfold id in Hk. subst o. apply list_elem_of_lookup in Hin as [i Hi]. specialize (Ho 0%nat (S i) k eq_refl Hi). lia.
Qed.
Lemma slot_keys ks ss : placed ks ss → omap id ss ≡ₚ remove_dups ks.
Proof.
  intros [Hl Hk Hf Ho]. apply NoDup_Permutation; [by apply omap_NoDup|apply NoDup_remove_dups|]. intros k. rewrite elem_of_remove_dups, list_elem_of_omap. split.
  - intros (o & Hin & E). unfold id in E. subst o. apply list_elem_of_lookup in Hin as [s Hs]. by eapply Hk.
  - intros Hin. destruct (Hf k Hin) as (d & _ & Hs & _). exists (Some k). split; [|done]. by eapply list_elem_of_lookup_2.
Qed.
Lemma full_slots ks ss : placed ks ss → Forall is_Some ss → length (remove_dups ks) = MAX_FIXED_GROUPS.
Proof.
  intros Hp Hall. rewrite <- (slot_keys ks ss Hp), <- (p_length ks ss Hp). clear Hp.
  induction Hall as [|o ss [k ->] H IH]; [done|]. cbn. by f_equal.
Qed.

Lemma get_slot ks key a : placed ks (slots a) → (length (remove_dups (key :: ks)) <= MAX_FIXED_GROUPS)%nat →
  ∃ s a', get_or_create_slot MAX_FIXED_GROUPS key a = Some (s, a') ∧ (s < MAX_FIXED_GROUPS)%nat ∧ placed (ks ++ [key]) (slots a') ∧
    slots a' !! s = Some (Some key) ∧
    (((key ∈ ks) ∧ a' = a) ∨ ((key ∉ ks) ∧ slots a !! s = Some None ∧ a' = create_slot key s a)).
Proof.
  intros Hp Hn. pose proof Hp as [Hl Hk Hf Ho].
  assert (∃ j, (j < MAX_FIXED_GROUPS)%nat ∧ ¬ passes key (slots a !! nth_slot key j)) as Hex.
  { destruct (decide (key ∈ ks)) as [Hin|Hin].
    - destruct (Hf key Hin) as (d & Hd & Hs & _). exists d. split; [done|]. rewrite Hs. intros (k & [= ->] & ?). done.
    - destruct (decide (Forall is_Some (slots a))) as [Hall|Hnot].
      + pose proof (full_slots ks (slots a) Hp Hall).
        cbn [remove_dups] in Hn. case_decide; [done|]. simpl in Hn. lia.
      + apply not_Forall_Exists, list.Exists_exists in Hnot as (o & Hin' & Hno); [|apply _]. apply list_elem_of_lookup in Hin' as [s Hs].
        destruct (nth_slot_onto key s) as (j & Hj & Ej); [rewrite <- Hl; by eapply lookup_lt_Some|]. exists j. split; [done|]. rewrite Ej, Hs.
        intros (k & [= ->] & _). by apply Hno. }
  destruct (first_stop key (slots a) MAX_FIXED_GROUPS Hl Hex) as (d & Hd & Hpass & Hstop). exists (nth_slot key d).
  destruct (probe_stops key a d 0 MAX_FIXED_GROUPS) as [Hhit Hmiss]; [intros i Hi; apply Hpass; lia|lia|lia|]. rewrite nth_slot_0 in Hhit, Hmiss.
  destruct Hstop as [Hs|Hs].
  - exists a. assert (key ∈ ks) by (by eapply Hk). split; [by apply Hhit|]. split; [apply nth_slot_lt|]. split; [|split; [done|by left]].
    split; [done|intros s k E; apply elem_of_app; left; by eapply Hk| |done]. intros k [Hin|Hin%list_elem_of_singleton]%elem_of_app; [|subst k]; by apply Hf.
  - exists (create_slot key (nth_slot key d) a). assert (key ∉ ks) as Hnew.
    { intros Hin. destruct (Hf key Hin) as (d' & Hd' & Hs' & Hp'). destruct (Nat.lt_trichotomy d d') as [H|[->|H]]; [|congruence|].
      - destruct (Hp' d H) as (k & E & _). congruence.
      - destruct (Hpass d' H) as (k & E & Hne). congruence. }
    assert (∀ s, slots (create_slot key (nth_slot key d) a) !! s = if decide (s = nth_slot key d) then Some (Some key) else slots a !! s) as Hlook.
    { intros s. cbn [create_slot slots]. case_decide as E; [subst; apply list_lookup_insert_eq; by eapply lookup_lt_Some|by apply list_lookup_insert_ne]. }
    split; [by apply Hmiss|]. split; [apply nth_slot_lt|]. split; [|split; [by rewrite Hlook, decide_True|by right]]. split.
    + cbn [create_slot slots]. by rewrite length_insert.
    + intros s k. rewrite Hlook. case_decide; intros E; apply elem_of_app; [right; injection E as <-; by apply list_elem_of_singleton|left; by eapply Hk].
    + assert (∀ k j, passes k (slots a !! nth_slot k j) → passes k (slots (create_slot key (nth_slot key d) a) !! nth_slot k j)) as Hmono.
      { intros k j (k' & E & Hne). rewrite Hlook, decide_False; [by exists k'|]. intros E'. rewrite E' in E. congruence. }
      intros k [Hin|Hin%list_elem_of_singleton]%elem_of_app; [|subst k].
      * destruct (Hf k Hin) as (d' & ? & E & Hp'). exists d'. split; [done|]. split; [rewrite Hlook, decide_False; [done|]; intros E'; rewrite E' in E; congruence|].
        intros j Hj. by apply Hmono, Hp'.
      * exists d. split; [done|]. split; [by rewrite Hlook, decide_True|]. intros j Hj. by apply Hmono, Hpass.
    + intros s s' k. rewrite !Hlook. repeat case_decide; intros E1 E2; simplify_eq; [done|by destruct Hnew; eapply Hk|by destruct Hnew; eapply Hk|by eapply Ho].
Qed.

(** ** The aggregates *)

Definition row : Type := Z * list f64.
Definition of_key (k : Z) (rs : list row) : list row := filter (λ r, r.1 = k) rs.
Definition column (j : nat) (rs : list row) : list f64 := omap (λ r, r.2 !! j) rs.
Definition fold_column (f : f64 → f64 → f64) (init : f64) (j : nat) (rs : list row) : f64 := foldl f init (column j rs).
Definition add_f (x v : f64) : f64 := f64_add x v.
Definition min_f (x v : f64) : f64 := if SFltb v x then v else x.
Definition max_f (x v : f64) : f64 := if SFltb x v then v else x.
(** The group of a key, computed from the rows alone. *)
Definition group_of (n : nat) (rs : list row) (k : Z) : group :=
  mkGroup k ((λ j, fold_column add_f (S754_zero false) j (of_key k rs)) <$> seq 0 n) (Z.of_nat (length (of_key k rs)) mod 2 ^ 64)
    ((λ j, fold_column min_f (S754_infinity false) j (of_key k rs)) <$> seq 0 n)
    ((λ j, fold_column max_f (S754_infinity true) j (of_key k rs)) <$> seq 0 n).

(** The rows whose key is in a slot. *)
Definition rows_in (ss : list (option Z)) (s : nat) (rs : list row) : list row :=
  match ss !! s with Some (Some k) => of_key k rs | _ => [] end.

(** An array of aggregates holds the fold of each column over each slot's rows. *)
Definition cells (f : f64 → f64 → f64) (init : f64) (ss : list (option Z)) (n : nat) (rs : list row) (l : list f64) : Prop :=
  length l = (n * MAX_FIXED_GROUPS)%nat ∧
  ∀ j s, (j < n)%nat → (s < MAX_FIXED_GROUPS)%nat → l !! at_ j s = Some (fold_column f init j (rows_in ss s rs)).

Record holds (n : nat) (rs : list row) (a : FixedAccumulator) : Prop := {
  h_placed : placed rs.*1 (slots a);
  h_n : num_aggs a = n;
  h_keys_length : length (group_keys a) = MAX_FIXED_GROUPS;
  h_keys : ∀ s k, slots a !! s = Some (Some k) → group_keys a !! s = Some k;
  h_counts_length : length (counts a) = MAX_FIXED_GROUPS;
  h_counts : ∀ s, (s < MAX_FIXED_GROUPS)%nat → counts a !! s = Some (Z.of_nat (length (rows_in (slots a) s rs)) mod 2 ^ 64);
  h_sums : cells add_f (S754_zero false) (slots a) n rs (sums a);
  h_mins : cells min_f (S754_infinity false) (slots a) n rs (mins a);
  h_maxs : cells max_f (S754_infinity true) (slots a) n rs (maxs a)
}.

Lemma at_inj j s j' s' : (s < MAX_FIXED_GROUPS)%nat → (s' < MAX_FIXED_GROUPS)%nat → at_ j s = at_ j' s' → j = j' ∧ s = s'.
Proof. unfold at_, MAX_FIXED_GROUPS. lia. Qed.
Lemma at_lt n j s : (j < n)%nat → (s < MAX_FIXED_GROUPS)%nat → (at_ j s < n * MAX_FIXED_GROUPS)%nat.
Proof. unfold at_, MAX_FIXED_GROUPS. lia. Qed.
Lemma update_at_lt {A} (f : A → A) i l : (i < length l)%nat → update_at f i l = Some (alter f i l).
Proof. intros H. unfold update_at. by rewrite (proj2 (Nat.ltb_lt _ _)). Qed.

(** The aggregates of a slot, updated with the values of a row. *)
Fixpoint set_all (f : f64 → f64 → f64) (slot agg : nat) (vs l : list f64) : list f64 :=
  match vs with [] => l | v :: vs => set_all f slot (S agg) vs (alter (λ x, f x v) (at_ agg slot) l) end.

Lemma set_all_length f slot agg vs l : length (set_all f slot agg vs l) = length l.
Proof. revert agg l. induction vs as [|v vs IH]; intros agg l; [done|]. cbn. by rewrite IH, length_alter. Qed.
Lemma set_all_other f slot agg vs l j s : (s < MAX_FIXED_GROUPS)%nat → (slot < MAX_FIXED_GROUPS)%nat → s ≠ slot ∨ (j < agg)%nat →
  set_all f slot agg vs l !! at_ j s = l !! at_ j s.
Proof.
  intros Hs Hslot. revert agg l. induction vs as [|v vs IH]; intros agg l H; [done|]. cbn. rewrite IH by (destruct H; [by left|right; lia]).
  apply list_lookup_alter_ne. intros E. apply at_inj in E as []; [|done|done]. destruct H; [done|lia].
Qed.
Lemma set_all_slot f slot agg vs l i v : (slot < MAX_FIXED_GROUPS)%nat → vs !! i = Some v →
  set_all f slot agg vs l !! at_ (agg + i) slot = (λ x, f x v) <$> l !! at_ (agg + i) slot.
Proof.
  intros Hslot. revert agg l i. induction vs as [|w vs IH]; intros agg l i Hv; [done|]. cbn. destruct i as [|i].
  - injection Hv as ->. rewrite Nat.add_0_r, set_all_other by (done || right; lia). apply list_lookup_alter_eq.
  - rewrite <- Nat.add_succ_comm, IH by done. f_equal. apply list_lookup_alter_ne. intros E. apply at_inj in E as []; [lia|done|done].
Qed.

Lemma add_values_ok n slot agg vs a : (slot < MAX_FIXED_GROUPS)%nat → (agg + length vs <= n)%nat →
  length (sums a) = (n * MAX_FIXED_GROUPS)%nat → length (mins a) = (n * MAX_FIXED_GROUPS)%nat → length (maxs a) = (n * MAX_FIXED_GROUPS)%nat →
  add_values slot agg vs a = Some (mkFA (slots a) (set_all add_f slot agg vs (sums a)) (counts a) (set_all min_f slot agg vs (mins a))
    (set_all max_f slot agg vs (maxs a)) (group_keys a) (num_aggs a) (num_active a)).
Proof.
  intros Hslot. revert agg a. induction vs as [|v vs IH]; intros agg a Hn Hs Hmn Hmx; [by destruct a|]. cbn [length] in Hn.
  assert (at_ agg slot < n * MAX_FIXED_GROUPS)%nat by (apply at_lt; [lia|done]). cbn [add_values].
  unfold add_sum, update_min, update_max. rewrite !update_at_lt by (cbn [sums mins maxs]; lia). cbn [mbind option_bind sums mins maxs slots counts group_keys num_aggs num_active].
  rewrite update_at_lt by (cbn [mins]; lia). cbn [mbind option_bind sums mins maxs slots counts group_keys num_aggs num_active].
  rewrite update_at_lt by (cbn [maxs]; lia). cbn [mbind option_bind sums mins maxs slots counts group_keys num_aggs num_active].
  rewrite IH; cbn [sums mins maxs]; rewrite ?length_alter; done || lia.
Qed.

(** A row joins the rows of its slot, and no other. *)
Lemma rows_in_step ss ss' (rs : list row) r s : placed (rs.*1 ++ [r.1]) ss' → ss' !! s = Some (Some r.1) → (∀ s', s' ≠ s → ss' !! s' = ss !! s') →
  (ss !! s = Some (Some r.1) ∨ (r.1 ∉ rs.*1) ∧ ss !! s = Some None) →
  ∀ s', rows_in ss' s' (rs ++ [r]) = rows_in ss s' rs ++ (if decide (s' = s) then [r] else []).
Proof.
  intros Hp Hs Ho Hold s'. unfold rows_in, of_key. case_decide as E.
  - subst s'. rewrite Hs, list.filter_app, filter_cons_True, filter_nil by done. destruct Hold as [->|[Hn ->]]; [done|].
    rewrite filter_none; [done|]. intros r' Hin E. apply Hn. cbv beta in E. rewrite <- E. by apply list_elem_of_fmap_2.
  - rewrite app_nil_r, Ho by done. destruct (ss !! s') as [[k|]|] eqn:Ek; [|done|done].
    rewrite list.filter_app, filter_cons_False, filter_nil, app_nil_r; [done|]. intros E'. cbv beta in E'. apply E, (p_one _ _ Hp s' s k); [by rewrite Ho|by rewrite Hs, E'].
Qed.

Lemma fold_column_snoc f init j rs r : fold_column f init j (rs ++ [r]) = match r.2 !! j with Some v => f (fold_column f init j rs) v | None => fold_column f init j rs end.
Proof. unfold fold_column, column. rewrite omap_app. cbn. destruct (r.2 !! j); [by rewrite foldl_app|by rewrite app_nil_r]. Qed.

Lemma cells_step f init ss ss' n rs r s l : (s < MAX_FIXED_GROUPS)%nat → length r.2 = n →
  (∀ s', rows_in ss' s' (rs ++ [r]) = rows_in ss s' rs ++ (if decide (s' = s) then [r] else [])) →
  cells f init ss n rs l → cells f init ss' n (rs ++ [r]) (set_all f s 0 r.2 l).
Proof.
  intros Hs Hr Hrows [Hl Hc]. split; [by rewrite set_all_length|]. intros j s' Hj Hs'. rewrite Hrows. case_decide as E.
  - subst s'. destruct (lookup_lt_is_Some_2 r.2 j) as [v Hv]; [lia|]. change j with (0 + j)%nat at 1. rewrite (set_all_slot f s 0 r.2 l j v) by done.
    cbn [Nat.add]. rewrite Hc by done. by rewrite fold_column_snoc, Hv.
  - rewrite set_all_other, app_nil_r by (done || by left). by apply Hc.
Qed.

Lemma add_row_holds n rs r a : holds n rs a → length r.2 = n → (length (remove_dups (r.1 :: rs.*1)) <= MAX_FIXED_GROUPS)%nat →
  ∃ a', add_row MAX_FIXED_GROUPS r a = Some a' ∧ holds n (rs ++ [r]) a'.
Proof.
  intros [Hp Hn Hkl Hk Hcl Hc Hsum Hmin Hmax] Hr Hd. destruct (get_slot rs.*1 r.1 a Hp Hd) as (s & a' & Hg & Hs & Hp' & Hat & Hcase).
  assert (∀ s', s' ≠ s → slots a' !! s' = slots a !! s') as Ho.
  { intros s' Hne. destruct Hcase as [[_ ->]|(_ & _ & ->)]; [done|]. by apply list_lookup_insert_ne. }
  pose proof (rows_in_step (slots a) (slots a') rs r s Hp' Hat Ho ltac:(destruct Hcase as [[_ ->]|(H1 & H2 & _)]; [by left|by right])) as Hrows.
  assert (sums a' = sums a ∧ mins a' = mins a ∧ maxs a' = maxs a ∧ counts a' = counts a ∧ num_aggs a' = num_aggs a) as (E1 & E2 & E3 & E4 & E5).
  { by destruct Hcase as [[_ ->]|(_ & _ & ->)]. }
  assert (length (group_keys a') = MAX_FIXED_GROUPS ∧ ∀ s k, slots a' !! s = Some (Some k) → group_keys a' !! s = Some k) as [Hkl' Hk'].
  { destruct Hcase as [[_ ->]|(_ & _ & ->)]; [done|]. cbn [create_slot group_keys slots]. split; [by rewrite length_insert|]. intros s' k. destruct (decide (s' = s)) as [->|Hne].
    - rewrite !list_lookup_insert_eq by (rewrite ?(p_length _ _ Hp); lia). congruence.
    - rewrite !list_lookup_insert_ne by done. apply Hk. }
  unfold add_row. rewrite Hg. cbn [mbind option_bind]. unfold inc_count. rewrite update_at_lt by (rewrite E4; lia). cbn [mbind option_bind].
  rewrite (add_values_ok n) by (cbn [sums mins maxs]; rewrite ?E1, ?E2, ?E3; done || lia || apply Hsum || apply Hmin || apply Hmax).
  cbn [slots sums counts mins maxs group_keys num_aggs num_active]. eexists. split; [done|]. split; cbn [slots sums counts mins maxs group_keys num_aggs num_active].
  - by rewrite fmap_app.
  - congruence.
  - done.
  - done.
  - by rewrite length_alter, E4.
  - intros s' Hs'. rewrite Hrows. case_decide as E; [subst s'; rewrite list_lookup_alter_eq|rewrite list_lookup_alter_ne by done]; rewrite E4, Hc by done.
    + cbn. f_equal. rewrite length_app. cbn [length]. unfold wrapping_add, wrap_u. rewrite Z.add_mod_idemp_l by lia. f_equal. lia.
    + by rewrite app_nil_r.
  - rewrite E1. by eapply cells_step.
  - rewrite E2. by eapply cells_step.
  - rewrite E3. by eapply cells_step.
Qed.

Lemma remove_dups_le (ks ks' : list Z) : ks ⊆ ks' → (length (remove_dups ks) <= length (remove_dups ks'))%nat.
Proof.
  intros H. apply submseteq_length, NoDup_submseteq; [apply NoDup_remove_dups|]. intros k. rewrite !elem_of_remove_dups. apply H.
Qed.

Lemma add_rows_holds n rs a rs0 : holds n rs0 a → Forall (λ r : row, length r.2 = n) rs →
  (length (remove_dups (rs0 ++ rs).*1) <= MAX_FIXED_GROUPS)%nat → ∃ a', add_rows MAX_FIXED_GROUPS rs a = Some a' ∧ holds n (rs0 ++ rs) a'.
Proof.
  intros Ha Hn. revert rs0 a Ha. induction Hn as [|r rs Hr Hn IH]; intros rs0 a Ha Hd; [exists a; by rewrite app_nil_r|].
  destruct (add_row_holds n rs0 r a Ha Hr) as (a' & E & Ha').
  { etrans; [|exact Hd]. apply remove_dups_le. intros k. rewrite !fmap_app, fmap_cons. set_solver. }
  cbn [add_rows]. rewrite E. cbn [mbind option_bind]. destruct (IH (rs0 ++ [r]) a' Ha') as (a'' & E' & H); [by rewrite <- app_assoc|].
  exists a''. by rewrite <- app_assoc in H.
Qed.

Lemma fixed_holds_new n : holds n [] (fa_new n).
Proof.
  assert (∀ f init, cells f init (slots (fa_new n)) n [] (replicate (n * MAX_FIXED_GROUPS) init)) as Hc.
  { intros f init. split; [apply length_replicate|]. intros j s Hj Hs. rewrite lookup_replicate_2 by (by apply at_lt). unfold rows_in. by destruct (slots (fa_new n) !! s) as [[]|]. }
  assert (∀ s k, slots (fa_new n) !! s ≠ Some (Some k)) as Hno by (intros s k [E _]%lookup_replicate; done).
  split; [| | |intros s k E; by destruct (Hno s k)| |intros s Hs|apply Hc|apply Hc|apply Hc].
  - split; [done|intros s k E; by destruct (Hno s k)|intros k Hin; by apply not_elem_of_nil in Hin|intros s s' k E; by destruct (Hno s k)].
  - done.
  - done.
  - done.
  - cbn [fa_new counts]. rewrite lookup_replicate_2 by done. unfold rows_in. by destruct (slots (fa_new n) !! s) as [[]|].
Qed.

Lemma aggs_of_cells f init ss n rs l s : cells f init ss n rs l → (s < MAX_FIXED_GROUPS)%nat →
  aggs_of l n s = Some ((λ j, fold_column f init j (rows_in ss s rs)) <$> seq 0 n).
Proof.
  intros [_ Hc] Hs. unfold aggs_of. apply mapM_Some_2, Forall2_fmap_r, Forall_Forall2_diag, list.Forall_forall. intros j [_ Hj]%elem_of_seq. apply Hc; [lia|done].
Qed.

Definition slot_groups (n : nat) (rs : list row) (ss : list (option Z)) (s : nat) : list group :=
  match ss !! s with Some (Some k) => [group_of n rs k] | _ => [] end.
Lemma concat_slots n rs ss : concat (slot_groups n rs ss <$> seq 0 (length ss)) = group_of n rs <$> omap id ss.
Proof.
  induction ss as [|o ss IH]; [done|]. cbn [length seq]. rewrite fmap_cons, <- fmap_S_seq, <- list_fmap_compose. cbn [concat].
  change (concat (slot_groups n rs (o :: ss) ∘ S <$> seq 0 (length ss))) with (concat (slot_groups n rs ss <$> seq 0 (length ss))). rewrite IH. by destruct o.
Qed.

Lemma emit_slot_holds n rs a s : holds n rs a → (s < MAX_FIXED_GROUPS)%nat → emit_slot a s = Some (slot_groups n rs (slots a) s).
Proof.
  intros [Hp Hn Hkl Hk Hcl Hc Hsum Hmin Hmax] Hs. unfold emit_slot, slot_groups. destruct (slots a !! s) as [[k|]|] eqn:E; [|done|].
  - cbn [mbind option_bind]. rewrite (Hk s k E), Hn. cbn [mbind option_bind].
    rewrite (aggs_of_cells _ _ _ _ _ _ _ Hsum Hs). cbn [mbind option_bind]. rewrite (aggs_of_cells _ _ _ _ _ _ _ Hmin Hs). cbn [mbind option_bind].
    rewrite (aggs_of_cells _ _ _ _ _ _ _ Hmax Hs). cbn [mbind option_bind]. rewrite (Hc s Hs). cbn [mbind option_bind].
    unfold rows_in. by rewrite E.
  - apply lookup_ge_None in E. rewrite (p_length _ _ Hp) in E. lia.
Qed.

Lemma finalize_holds n rs a : holds n rs a → ∃ gs, finalize a = Some gs ∧ gs ≡ₚ group_of n rs <$> remove_dups rs.*1.
Proof.
  intros Ha. exists (concat (slot_groups n rs (slots a) <$> seq 0 MAX_FIXED_GROUPS)). split.
  - unfold finalize. rewrite (mapM_Some_2 _ _ (slot_groups n rs (slots a) <$> seq 0 MAX_FIXED_GROUPS)); [done|].
    apply Forall2_fmap_r, Forall_Forall2_diag, list.Forall_forall. intros s [_ Hs]%elem_of_seq. by apply emit_slot_holds.
  - rewrite <- (p_length _ _ (h_placed _ _ _ Ha)), concat_slots. by rewrite (slot_keys _ _ (h_placed _ _ _ Ha)).
Qed.

(** The fixed-array aggregation computes GROUP BY: rows with at most 256 distinct keys, each with one value per aggregate, are all
    accumulated with at most 256 probes each, and the groups emitted are, in some order, one per distinct key, with the wrapped number of its
    rows and the left-to-right sum, minimum and maximum of each of its columns. *)
Theorem fixed_agg_correct (n : nat) (rs : list row) :
  Forall (λ r : row, length r.2 = n) rs → (length (remove_dups rs.*1) <= MAX_FIXED_GROUPS)%nat →
  ∃ a gs, add_rows MAX_FIXED_GROUPS rs (fa_new n) = Some a ∧ finalize a = Some gs ∧ gs ≡ₚ group_of n rs <$> remove_dups rs.*1.
Proof.
  intros Hn Hd. destruct (add_rows_holds n rs (fa_new n) [] (fixed_holds_new n) Hn Hd) as (a & E & Ha). destruct (finalize_holds n rs a Ha) as (gs & Hf & Hp). by exists a, gs.
Qed.
(** Three groups, two of them in the same home slot. *)
Lemma fixed_agg_correct_witness : ∃ a gs,
  add_rows MAX_FIXED_GROUPS [(1, [S754_zero false]); (257, [S754_nan]); (2, [S754_zero true]); (1, [S754_infinity true])] (fa_new 1) = Some a ∧ finalize a = Some gs ∧
  gs ≡ₚ group_of 1 [(1, [S754_zero false]); (257, [S754_nan]); (2, [S754_zero true]); (1, [S754_infinity true])] <$> remove_dups [1; 257; 2; 1].
Proof. apply (fixed_agg_correct 1 [(1, [S754_zero false]); (257, [S754_nan]); (2, [S754_zero true]); (1, [S754_infinity true])]); [repeat constructor|]. apply Nat.leb_le. by vm_compute. Defined.

(** A 257th key hangs the aggregation: when every slot holds another key, [get_or_create_slot] probes round the array for ever, whatever
    the number of steps allowed. *)
Theorem full_table_hangs (key : Z) (a : FixedAccumulator) : length (slots a) = MAX_FIXED_GROUPS →
  Forall (λ o, ∃ k, o = Some k ∧ k ≠ key) (slots a) → ∀ fuel, get_or_create_slot fuel key a = None.
Proof.
  intros Hl Hall fuel. unfold get_or_create_slot. rewrite <- nth_slot_0. generalize 0%nat as j. induction fuel as [|fuel IH]; intros j; [done|]. cbn [probe].
  destruct (lookup_lt_is_Some_2 (slots a) (nth_slot key j)) as [o E]; [rewrite Hl; apply nth_slot_lt|].
  destruct (Forall_lookup_1 _ _ _ _ Hall E) as (k & -> & Hk). rewrite E, (proj2 (Z.eqb_neq _ _)) by done. rewrite nth_slot_S. apply IH.
Qed.
End FixedAggM.
