(* ===== verification/Merge.v ===== *)
(** * MERGE (src/src/exec/merge.rs, and execute_merge_stmt, the conversions between tables
    and results and the VALUES reader of src/src/engine/mod.rs)

    The target table is copied into a query result, every source row updates the first
    target row with its key or is inserted, and the result replaces the table.  The reader
    of the MERGE text ([parse_merge]) is not part of it, except for its VALUES lists. *)

From Stdlib Require Import ZArith Lia Ascii String.
From stdpp Require Import prelude list numbers gmap.
From S2P Require Import Prelude Nulls Catalog Result Lexer StringColumn Recovery Parser Vectorized Dispatch IndexManager ExprEval Dml Temporal SnapshotTxn Statements.
Local Open Scope Z_scope.

Module MergeM.
Import LexerM ParserM CatalogM VectorizedM DispatchM StatementsM.
Import ResultM (ResultColumn, mkCol, QueryResult, mkResult, values).

Inductive MergeAction := MUpdate (assigns : list (text * text)) | MInsert (cols vals : list text) | MDelete.
Record Merge := mkMerge {
  target : text; source_rows : list (text * list text); source_col_names : list text;
  join_target_col : text; join_source_col : text;
  when_matched : option MergeAction; when_not_matched_by_source : option MergeAction; when_not_matched_by_target : option MergeAction
}.
Record MergeResult := mkMR { inserted : nat; updated : nat; deleted : nat }.

(** ** Reading VALUES *)

(** The pieces between commas outside parentheses and strings; the last one unless blank. *)
Fixpoint split_commas (depth : Z) (in_str : bool) (cur : text) (s : text) : list text :=
  match s with
  | [] => if bool_decide (trim cur = []) then [] else [cur]
  | c :: s =>
    if Z.eqb c QUOTE then split_commas depth (negb in_str) (cur ++ [c]) s
    else if Z.eqb c 40 && negb in_str then split_commas (depth + 1) in_str (cur ++ [c]) s
    else if Z.eqb c 41 && negb in_str then split_commas (depth - 1) in_str (cur ++ [c]) s
    else if Z.eqb c 44 && Z.eqb depth 0 && negb in_str then cur :: split_commas depth in_str [] s
    else split_commas depth in_str (cur ++ [c]) s
  end.
Definition split_top_level_commas (s : text) : list text := split_commas 0 false [] s.

Fixpoint tuples (depth : Z) (in_str : bool) (cur : text) (s : text) : list text :=
  match s with
  | [] => []
  | c :: s =>
    if Z.eqb c QUOTE then tuples depth (negb in_str) (cur ++ [c]) s
    else if Z.eqb c 40 && negb in_str then
      let depth := depth + 1 in tuples depth in_str (if Z.eqb depth 1 then [] else cur ++ [c]) s
    else if Z.eqb c 41 && negb in_str then
      let depth := depth - 1 in if Z.eqb depth 0 then cur :: tuples depth in_str [] s else tuples depth in_str (cur ++ [c]) s
    else if Z.leb 1 depth then tuples depth in_str (cur ++ [c]) s
    else tuples depth in_str cur s
  end.
Definition tuple_row (t : text) : option (text * list text) :=
  match trim <$> split_top_level_commas t with [] => None | v :: vs => Some (v, v :: vs) end.
Definition parse_values_tuples (s : text) : list (text * list text) := omap tuple_row (tuples 0 false [] s).

(** ** TRY_CONVERT *)
Definition try_convert_to_u64 (s : text) : option Z := parse_u64 (trim s).

Section merge.
Context (uni_alnum : Z → bool) (xxh3_64 : list Z → Z) (parse_f64 : text → option Z).

(** The text after the last dot. *)
Fixpoint after_last_dot (s : text) : option text :=
  match s with
  | [] => None
  | c :: s' => match after_last_dot s' with Some r => Some r | None => if Z.eqb c DOT then Some s' else None end
  end.

(** A reference to a source column, or a literal. *)
Definition resolve_val (val : text) (names : list text) (row : list text) : text :=
  default val (
    part ← after_last_dot val;
    let col_part := trim part in
    if negb (bool_decide (col_part = [])) && forallb (λ c, is_alphanumeric uni_alnum c || Z.eqb c 95) col_part then
      idx ← VectorizedM.position (λ c, eq_ignore_ascii_case c col_part) names; row !! idx
    else None).

Definition parse_cell (s : text) : Z :=
  let trimmed := trim s in
  if is_quoted trimmed then hash_text xxh3_64 (inner trimmed)
  else match VectorizedM.parse_i64 trimmed with
       | Some n => wrap_u 64 n
       | None => match VectorizedM.parse_u64 trimmed with Some n => n | None => default 0 (parse_f64 trimmed) end
       end.

(** ** Executing *)
Definition col_position (n : text) (qr : QueryResult) : option nat :=
  VectorizedM.position (λ c, text_eqb (ResultM.name c) n) (ResultM.columns qr).
Definition set_values (v : list Z) (c : ResultColumn) : ResultColumn :=
  mkCol (ResultM.name c) v (ResultM.string_values c) (ResultM.type_oid c) (ResultM.null_mask c).
Definition alter_values (idx : nat) (f : list Z → list Z) (qr : QueryResult) : QueryResult :=
  mkResult (alter (λ c, set_values (f (values c)) c) idx (ResultM.columns qr)) (ResultM.row_count qr).

(** The first row of the target with a key; cells past the end of the column are 0. *)
Definition match_row (vals : list Z) (n : nat) (key : Z) : option nat :=
  fst <$> list_find (λ row, default 0 (vals !! row) = key) (seq 0 n).

(** A row past the end of the column is left alone. *)
Definition assign (m : Merge) (srow : list text) (row : nat) (qr : QueryResult) (a : text * text) : QueryResult :=
  match col_position a.1 qr with
  | Some idx => alter_values idx (<[row := parse_cell (resolve_val a.2 (source_col_names m) srow)]>) qr
  | None => qr
  end.
Definition cols_to_set (cols : list text) (qr : QueryResult) : list nat :=
  if bool_decide (cols = []) then seq 0 (length (ResultM.columns qr)) else omap (λ c, col_position c qr) cols.
Definition insert_cell (m : Merge) (srow vals : list text) (i : nat) : Z :=
  match vals !! i with Some v => parse_cell (resolve_val v (source_col_names m) srow) | None => 0 end.
Fixpoint push_row (m : Merge) (srow vals : list text) (i : nat) (cols : list nat) (qr : QueryResult) : QueryResult :=
  match cols with
  | [] => qr
  | c :: cols => push_row m srow vals (S i) cols (alter_values c (λ vs, vs ++ [insert_cell m srow vals i]) qr)
  end.

Record merging := mkMerging { m_target : QueryResult; m_mask : list bool; m_result : MergeResult }.

Definition merge_row (m : Merge) (jc : nat) (s : text * list text) (st : merging) : run merging :=
  let '(mkMerging qr mask r) := st in
  jcol ← or_panic (ResultM.columns qr !! jc);
  match match_row (values jcol) (ResultM.row_count qr) (parse_cell s.1) with
  | Some row =>
    if Nat.ltb row (length mask) then
      let mask := <[row := true]> mask in
      match when_matched m with
      | Some (MUpdate assigns) => Ok (mkMerging (fold_left (assign m s.2 row) assigns qr) mask (mkMR (inserted r) (S (updated r)) (deleted r)))
      | _ => Ok (mkMerging qr mask r)
      end
    else Err Panic
  | None =>
    match when_not_matched_by_target m with
    | Some (MInsert cols vals) =>
      let qr := push_row m s.2 vals 0 (cols_to_set cols qr) qr in
      Ok (mkMerging (mkResult (ResultM.columns qr) (S (ResultM.row_count qr))) mask (mkMR (S (inserted r)) (updated r) (deleted r)))
    | _ => Ok st
    end
  end.
Fixpoint merge_rows (m : Merge) (jc : nat) (ss : list (text * list text)) (st : merging) : run merging :=
  match ss with [] => Ok st | s :: ss => st ← merge_row m jc s st; merge_rows m jc ss st end.

Definition keep_matched (mask : list bool) (vals : list Z) : list Z := omap (λ i, if default false (mask !! i) then vals !! i else None) (seq 0 (length mask)).
Definition delete_unmatched (st : merging) : merging :=
  let '(mkMerging qr mask r) := st in
  let deleted := length (filter (λ b, b = false) mask) in
  mkMerging (mkResult ((λ c, set_values (keep_matched mask (values c)) c) <$> ResultM.columns qr) (ResultM.row_count qr - deleted)) mask
    (mkMR (inserted r) (updated r) deleted).

Definition execute_merge (qr : QueryResult) (m : Merge) : run (QueryResult * MergeResult) :=
  match col_position (join_target_col m) qr with
  | None => Ok (qr, mkMR 0 0 0)
  | Some jc =>
    st ← merge_rows m jc (source_rows m) (mkMerging qr (replicate (ResultM.row_count qr) false) (mkMR 0 0 0));
    let st := match when_not_matched_by_source m with Some MDelete => delete_unmatched st | _ => st end in
    Ok (m_target st, m_result st)
  end.

(** ** The statement *)
Fixpoint name_columns (names : list text) (cols : list (list Z)) : run (list ResultColumn) :=
  match names, cols with
  | [], _ => Ok []
  | n :: names, c :: cols => cs ← name_columns names cols; Ok (ResultM.plain n c :: cs)
  | _ :: _, [] => Err Panic
  end.
Definition table_to_query_result (t : Table) : run QueryResult :=
  cs ← name_columns (column_names t) (columns t); Ok (mkResult cs (row_count t)).
Definition query_result_to_table (n : text) (qr : QueryResult) : Table :=
  mkTable n (values <$> ResultM.columns qr) (ResultM.name <$> ResultM.columns qr) (ResultM.row_count qr) [] [] None.

Definition execute_merge_stmt (m : Merge) : exec QueryResult := λ e,
  match catalog e !! target m with
  | None => (Err (Fail ENotFound), e)
  | Some t =>
    match (qr ← table_to_query_result t; execute_merge qr m) with
    | Err f => (Err f, e)
    | Ok (qr, r) =>
      (Ok (affected (inserted r + updated r + deleted r)), set_catalog (register (query_result_to_table (target m) qr) (catalog e)) e)
    end
  end.

(** ** Columns changed cell by cell *)
Definition name_position (n : text) (names : list text) : option nat := VectorizedM.position (λ x, text_eqb x n) names.
Definition map_values (f : nat → list Z → list Z) (cs : list ResultColumn) : list ResultColumn := imap (λ c col, set_values (f c (values col)) col) cs.

Lemma col_position_names n qr : col_position n qr = name_position n (ResultM.name <$> ResultM.columns qr).
Proof. unfold col_position, name_position. induction (ResultM.columns qr) as [|c cs IH]; [done|]. cbn. by rewrite IH. Qed.
Lemma map_values_names f cs : ResultM.name <$> map_values f cs = ResultM.name <$> cs.
Proof. unfold map_values. rewrite fmap_imap. revert f. induction cs as [|c cs IH]; intros f; [done|]. cbn. f_equal. apply (IH (λ i, f (S i))). Qed.
Lemma map_values_length f cs : length (map_values f cs) = length cs.
Proof. apply length_imap. Qed.
Lemma map_values_lookup f cs c : map_values f cs !! c = (λ col, set_values (f c (values col)) col) <$> cs !! c.
Proof. apply list_lookup_imap. Qed.
Lemma map_values_ext f g cs : (∀ c col, cs !! c = Some col → f c (values col) = g c (values col)) → map_values f cs = map_values g cs.
Proof. intros H. apply imap_ext. intros c col Hc. by rewrite (H c col Hc). Qed.
Lemma map_values_compose f g cs : map_values g (map_values f cs) = map_values (λ c v, g c (f c v)) cs.
Proof. apply list_eq. intros c. rewrite !map_values_lookup. by destruct (cs !! c). Qed.
Lemma map_values_id f cs : (∀ c col, cs !! c = Some col → f c (values col) = values col) → map_values f cs = cs.
Proof. intros H. apply list_eq. intros c. rewrite map_values_lookup. destruct (cs !! c) as [col|] eqn:E; [|done]. cbn. rewrite (H c _ E). by destruct col. Qed.
Lemma alter_values_map idx f qr :
  alter_values idx f qr = mkResult (map_values (λ c v, if decide (c = idx) then f v else v) (ResultM.columns qr)) (ResultM.row_count qr).
Proof.
  unfold alter_values. f_equal. apply list_eq. intros c. rewrite map_values_lookup. case_decide as E.
  - subst c. by rewrite list_lookup_alter_eq.
  - rewrite list_lookup_alter_ne by done. by destruct (ResultM.columns qr !! c) as [[]|].
Qed.
Lemma insert_alter_const {A} (x : A) (i : nat) (l : list A) : <[i := x]> l = alter (λ _, x) i l.
Proof. revert i. induction l as [|y l IH]; intros [|i]; [done|done|done|]. cbn. by f_equal. Qed.

(** ** What a source row does to a column *)
Section meaning.
Context (m : Merge) (names : list text).

Definition key (s : text * list text) : Z := parse_cell s.1.
Definition source_cell (s : text * list text) (v : text) : Z := parse_cell (resolve_val v (source_col_names m) s.2).

(** The cell of a matched row: the last assignment to its column counts. *)
Definition updated_cell (s : text * list text) (c : nat) (v : Z) : Z :=
  match when_matched m with
  | Some (MUpdate assigns) => fold_left (λ v a, if decide (name_position a.1 names = Some c) then source_cell s a.2 else v) assigns v
  | _ => v
  end.

Definition insert_columns (cols : list text) : list nat :=
  if bool_decide (cols = []) then seq 0 (length names) else omap (λ c, name_position c names) cols.
Definition inserted_cell (s : text * list text) (c : nat) : Z :=
  match when_not_matched_by_target m with
  | Some (MInsert cols vals) =>
    match VectorizedM.position (Nat.eqb c) (insert_columns cols) with Some i => insert_cell m s.2 vals i | None => 0 end
  | _ => 0
  end.

Context (jv : list Z).
Abbreviation hit s := (match_row jv (length jv) (key s)).
(** The source row that updates row [r], and those that are inserted. *)
Definition source_of (ss : list (text * list text)) (r : nat) : option (text * list text) := snd <$> list_find (λ s, hit s = Some r) ss.
Definition new_rows (ss : list (text * list text)) : list (text * list text) :=
  match when_not_matched_by_target m with Some (MInsert _ _) => filter (λ s, hit s = None) ss | _ => [] end.
Definition update_count (ss : list (text * list text)) : nat :=
  match when_matched m with Some (MUpdate _) => length (filter (λ s, hit s ≠ None) ss) | _ => 0%nat end.

Definition merged_column (ss : list (text * list text)) (c : nat) (vals : list Z) : list Z :=
  imap (λ r v, match source_of ss r with Some s => updated_cell s c v | None => v end) vals ++ ((λ s, inserted_cell s c) <$> new_rows ss).
End meaning.

Lemma assign_map m s row qr a :
  assign m s.2 row qr a = mkResult (map_values (λ c, alter (λ v, if decide (name_position a.1 (ResultM.name <$> ResultM.columns qr) = Some c) then source_cell m s a.2 else v) row)
    (ResultM.columns qr)) (ResultM.row_count qr).
Proof.
  unfold assign. rewrite col_position_names. destruct (name_position a.1 _) as [idx|].
  - rewrite alter_values_map. f_equal. apply map_values_ext. intros c col _. destruct (decide (c = idx)) as [->|Hne].
    + rewrite insert_alter_const. apply list_alter_ext; [|done]. intros v _. by rewrite decide_True.
    + symmetry. apply list_alter_id. intros v. rewrite decide_False; [done|congruence].
  - destruct qr. f_equal. symmetry. apply map_values_id. intros c col _. apply list_alter_id. done.
Qed.
Lemma assigns_map m s row assigns qr :
  fold_left (assign m s.2 row) assigns qr = mkResult (map_values (λ c, alter (λ v, fold_left (λ v a,
      if decide (name_position a.1 (ResultM.name <$> ResultM.columns qr) = Some c) then source_cell m s a.2 else v) assigns v) row) (ResultM.columns qr)) (ResultM.row_count qr).
Proof.
  revert qr. induction assigns as [|a assigns IH]; intros qr.
  - destruct qr. cbn [fold_left ResultM.columns ResultM.row_count]. f_equal. symmetry. apply map_values_id. intros c col _. by apply list_alter_id.
  - cbn [fold_left]. rewrite IH, assign_map. cbn [ResultM.columns ResultM.row_count]. f_equal. rewrite map_values_compose, map_values_names.
    apply map_values_ext. intros c col _. by rewrite list_alter_alter_eq.
Qed.

Lemma push_row_map m (s : text * list text) vals cols i qr : NoDup cols →
  push_row m s.2 vals i cols qr = mkResult (map_values (λ c v, match VectorizedM.position (Nat.eqb c) cols with Some k => v ++ [insert_cell m s.2 vals (i + k)] | None => v end)
    (ResultM.columns qr)) (ResultM.row_count qr).
Proof.
  intros Hd. revert i qr. induction Hd as [|c0 cols Hn Hd IH]; intros i qr; [destruct qr; cbn [push_row ResultM.columns ResultM.row_count]; f_equal; symmetry; by apply map_values_id|].
  cbn [push_row]. rewrite IH, alter_values_map. cbn [ResultM.columns ResultM.row_count]. f_equal. rewrite map_values_compose. apply map_values_ext. intros c col _.
  cbn [VectorizedM.position]. destruct (Nat.eqb_spec c c0) as [->|Hne].
  - rewrite decide_True by done. rewrite Nat.add_0_r. destruct (VectorizedM.position _ cols) as [k|] eqn:E; [|done].
    destruct Hn. clear -E. revert k E. induction cols as [|x cols IH]; intros k E; [done|]. cbn in E. destruct (Nat.eqb_spec c0 x) as [->|]; [by left|].
    apply fmap_Some in E as (k' & E & _). right. by eapply IH.
  - rewrite decide_False by done. destruct (VectorizedM.position _ cols) as [k|]; cbn; [|done]. by rewrite Nat.add_succ_r.
Qed.

(** ** The row that matches *)
Lemma match_row_Some vals n k r :
  match_row vals n k = Some r ↔ (r < n)%nat ∧ default 0 (vals !! r) = k ∧ ∀ r', (r' < r)%nat → default 0 (vals !! r') ≠ k.
Proof.
  unfold match_row. rewrite fmap_Some. split.
  - intros ([i x] & (Hi & Hx & Hl)%list_find_Some & ->). apply lookup_seq in Hi as [-> Hi]. cbn. split; [done|]. split; [done|].
    intros r' Hr'. apply (Hl r'); [|done]. apply lookup_seq. lia.
  - intros (Hr & Hk & Hl). exists (r, r). split; [|done]. apply list_find_Some. split; [apply lookup_seq; lia|]. split; [done|].
    intros j y [-> Hj]%lookup_seq Hlt. by apply Hl.
Qed.
Lemma match_row_None vals n k : match_row vals n k = None ↔ ∀ r, (r < n)%nat → default 0 (vals !! r) ≠ k.
Proof.
  unfold match_row. rewrite fmap_None, list_find_None, list.Forall_forall. split; intros H r Hr; apply H; [apply elem_of_seq; lia|].
  apply elem_of_seq in Hr. lia.
Qed.

(** Rows appended under other keys change nothing. *)
Lemma match_row_grown jv new k : k ∉ new → match_row (jv ++ new) (length jv + length new) k = match_row jv (length jv) k.
Proof.
  intros Hk. destruct (match_row jv (length jv) k) as [r|] eqn:E.
  - apply match_row_Some in E as (Hr & Hv & Hl). apply match_row_Some. split; [lia|]. rewrite lookup_app_l by done. split; [done|].
    intros r' Hr'. rewrite lookup_app_l by lia. by apply Hl.
  - rewrite match_row_None in E. apply match_row_None. intros r Hr. destruct (decide (r < length jv)%nat) as [Hlt|Hge].
    + rewrite lookup_app_l by done. by apply E.
    + rewrite lookup_app_r by lia. destruct (lookup_lt_is_Some_2 new (r - length jv)) as [x Hx]; [lia|]. rewrite Hx. intros [= ->]. by apply Hk, list_elem_of_lookup; eauto.
Qed.

Section correct.
Context (m : Merge) (cs : list ResultColumn) (jc : nat) (jv : list Z).
Abbreviation names := (ResultM.name <$> cs).
Abbreviation hit s := (match_row jv (length jv) (key s)).

(** What MERGE needs of the statement and the table: distinct source keys; the join column is not assigned; the insert sets every
    column once, and the join column to the key. *)
Record mergeable : Prop := {
  mg_join : name_position (join_target_col m) names = Some jc;
  mg_column : ∃ col, cs !! jc = Some col ∧ values col = jv;
  mg_keys : NoDup (key <$> source_rows m);
  mg_update : ∀ assigns, when_matched m = Some (MUpdate assigns) → ∀ a, a ∈ assigns → name_position a.1 names ≠ Some jc;
  mg_insert : ∀ cols vals, when_not_matched_by_target m = Some (MInsert cols vals) →
    insert_columns names cols ≡ₚ seq 0 (length cs) ∧ ∀ s, s ∈ source_rows m → inserted_cell m names s jc = key s;
  mg_delete : when_not_matched_by_source m ≠ Some MDelete
}.
Context (Hm : mergeable).

Lemma updated_join s v : updated_cell m names s jc v = v.
Proof.
  unfold updated_cell. destruct (when_matched m) as [[assigns| |]|] eqn:E; try done. pose proof (mg_update Hm assigns E) as H. clear E.
  revert v. induction assigns as [|a assigns IH]; intros v; [done|]. cbn. rewrite decide_False by (apply H; by left). apply IH. intros a' Ha. apply H. by right.
Qed.
Lemma new_rows_sub ss s : s ∈ new_rows m jv ss → s ∈ ss.
Proof. unfold new_rows. destruct (when_not_matched_by_target m) as [[]|]; [|intros [_ ?]%list_elem_of_filter; done| |]; by intros []%not_elem_of_nil. Qed.

(** The join column while the source is read: the old cells and the keys inserted. *)
Lemma merged_join ss : (∀ s, s ∈ ss → s ∈ source_rows m) → merged_column m names jv ss jc jv = jv ++ (key <$> new_rows m jv ss).
Proof.
  intros Hss. unfold merged_column. f_equal.
  - apply list_eq. intros r. rewrite list_lookup_imap. destruct (jv !! r) as [v|]; [|done]. cbn. f_equal. destruct (source_of jv ss r); [apply updated_join|done].
  - apply list_fmap_ext. intros i s Hs. assert (s ∈ new_rows m jv ss) as Hin by (by eapply list_elem_of_lookup_2).
    pose proof (new_rows_sub ss s Hin). unfold new_rows in Hin. destruct (when_not_matched_by_target m) as [[|cols vals|]|] eqn:E; try by apply not_elem_of_nil in Hin.
    apply (proj2 (mg_insert Hm cols vals E)). by apply Hss.
Qed.

Lemma source_of_snoc ss s r : source_of jv (ss ++ [s]) r = match source_of jv ss r with Some s' => Some s' | None => if decide (hit s = Some r) then Some s else None end.
Proof.
  unfold source_of. induction ss as [|s' ss IH]; cbn; [by destruct (decide (hit s = Some r))|]. destruct (decide (hit s' = Some r)); [done|].
  rewrite <- !option_fmap_compose. change (snd ∘ prod_map S id) with (λ p : nat * (text * list text), p.2). apply IH.
Qed.
Lemma source_of_hit ss r s : source_of jv ss r = Some s → s ∈ ss ∧ hit s = Some r.
Proof. intros ([i x] & (Hi & Hx & _)%list_find_Some & ->)%fmap_Some. split; [by eapply list_elem_of_lookup_2|done]. Qed.
Lemma new_rows_snoc ss s : new_rows m jv (ss ++ [s]) = new_rows m jv ss ++ new_rows m jv [s].
Proof. unfold new_rows. destruct (when_not_matched_by_target m) as [[]|]; try done. apply list.filter_app. Qed.
Lemma new_rows_hit s r : hit s = Some r → new_rows m jv [s] = [].
Proof. intros E. unfold new_rows. destruct (when_not_matched_by_target m) as [[]|]; try done. rewrite filter_cons_False; [done|]. by rewrite E. Qed.

Lemma merged_hit ss s row c vals : hit s = Some row → source_of jv ss row = None → (row < length vals)%nat →
  merged_column m names jv (ss ++ [s]) c vals = alter (updated_cell m names s c) row (merged_column m names jv ss c vals).
Proof.
  intros Hs Hn Hrow. unfold merged_column. rewrite new_rows_snoc, (new_rows_hit s row Hs), app_nil_r, alter_app_l by (by rewrite length_imap). f_equal.
  apply list_eq. intros r. rewrite list_lookup_imap. destruct (decide (r = row)) as [->|Hne].
  - rewrite list_lookup_alter_eq, list_lookup_imap, source_of_snoc, Hn, decide_True by done. by destruct (vals !! row).
  - rewrite list_lookup_alter_ne, list_lookup_imap, source_of_snoc by done. rewrite (decide_False (P := hit s = Some r)) by congruence.
    by destruct (source_of jv ss r).
Qed.
Lemma merged_miss ss s c vals : hit s = None →
  merged_column m names jv (ss ++ [s]) c vals = merged_column m names jv ss c vals ++ ((λ s, inserted_cell m names s c) <$> new_rows m jv [s]).
Proof.
  intros Hs. unfold merged_column. rewrite new_rows_snoc, fmap_app, app_assoc. f_equal. f_equal. apply imap_ext. intros r v _.
  rewrite source_of_snoc, (decide_False (P := hit s = Some r)) by (by rewrite Hs). by destruct (source_of jv ss r).
Qed.

(** The first target row with the key of the next source row. *)
Lemma reached_hit ss s : (∀ s, s ∈ ss → s ∈ source_rows m) → key s ∉ key <$> ss →
  match_row (merged_column m names jv ss jc jv) (length jv + length (new_rows m jv ss)) (key s) = hit s.
Proof.
  intros Hss Hk. rewrite merged_join by done. rewrite <- (length_fmap key (new_rows m jv ss)). apply match_row_grown.
  intros (s' & E & Hin)%list_elem_of_fmap. apply Hk, list_elem_of_fmap. exists s'. split; [done|]. by apply new_rows_sub.
Qed.
Lemma reached_fresh ss s row : key s ∉ key <$> ss → hit s = Some row → source_of jv ss row = None.
Proof.
  intros Hk Hs. destruct (source_of jv ss row) as [s'|] eqn:E; [|done]. apply source_of_hit in E as [Hin E].
  apply match_row_Some in E as (_ & E & _). apply match_row_Some in Hs as (_ & Hs & _). destruct Hk. apply list_elem_of_fmap. exists s'. by rewrite <- Hs, <- E.
Qed.

Lemma update_count_snoc ss s : update_count m jv (ss ++ [s]) = (update_count m jv ss + update_count m jv [s])%nat.
Proof. unfold update_count. destruct (when_matched m) as [[]|]; try done. by rewrite list.filter_app, length_app. Qed.
Lemma insert_columns_names cols qr : ResultM.name <$> ResultM.columns qr = names → cols_to_set cols qr = insert_columns names cols.
Proof.
  intros E. unfold cols_to_set, insert_columns. rewrite <- (length_fmap ResultM.name (ResultM.columns qr)), E. case_bool_decide; [done|].
  apply list_omap_ext. apply Forall2_same_length_lookup_2; [done|]. intros i c c' H1 H2. rewrite H1 in H2. injection H2 as <-. rewrite col_position_names. by rewrite E.
Qed.
Lemma position_elem (c : nat) cols : c ∈ cols → is_Some (VectorizedM.position (Nat.eqb c) cols).
Proof. induction 1 as [c l|c x l H IH]; cbn; [by rewrite Nat.eqb_refl|]. destruct (Nat.eqb c x); [done|]. by apply fmap_is_Some. Qed.

(** The state before row [s] is read. *)
Definition state_of (ss : list (text * list text)) (mask : list bool) : merging :=
  mkMerging (mkResult (map_values (merged_column m names jv ss) cs) (length jv + length (new_rows m jv ss))) mask
    (mkMR (length (new_rows m jv ss)) (update_count m jv ss) 0).
Lemma merge_row_cases ss s mask : (∀ s, s ∈ ss → s ∈ source_rows m) → key s ∉ key <$> ss →
  merge_row m jc s (state_of ss mask) =
  match hit s with
  | Some row =>
    if Nat.ltb row (length mask) then
      match when_matched m with
      | Some (MUpdate assigns) => Ok (mkMerging (fold_left (assign m s.2 row) assigns (m_target (state_of ss mask))) (<[row := true]> mask)
                                   (mkMR (length (new_rows m jv ss)) (S (update_count m jv ss)) 0))
      | _ => Ok (mkMerging (m_target (state_of ss mask)) (<[row := true]> mask) (m_result (state_of ss mask)))
      end
    else Err Panic
  | None =>
    match when_not_matched_by_target m with
    | Some (MInsert cols vals) =>
      let qr := push_row m s.2 vals 0 (cols_to_set cols (m_target (state_of ss mask))) (m_target (state_of ss mask)) in
      Ok (mkMerging (mkResult (ResultM.columns qr) (S (ResultM.row_count qr))) mask (mkMR (S (length (new_rows m jv ss))) (update_count m jv ss) 0))
    | _ => Ok (state_of ss mask)
    end
  end.
Proof.
  intros Hss Hk. unfold merge_row, state_of at 1. cbn [ResultM.columns ResultM.row_count]. destruct (mg_column Hm) as (jcol & Hj & Ejv).
  rewrite map_values_lookup, Hj. cbn [fmap option_fmap option_map or_panic mbind result_bind values set_values]. rewrite Ejv. fold (key s).
  by rewrite (reached_hit ss s Hss Hk).
Qed.

Lemma step_matched ss s row mask : Forall (λ col, length (values col) = length jv) cs → (∀ s, s ∈ ss → s ∈ source_rows m) → key s ∉ key <$> ss →
  hit s = Some row → length mask = length jv → merge_row m jc s (state_of ss mask) = Ok (state_of (ss ++ [s]) (<[row := true]> mask)).
Proof.
  intros Hwf Hss Hk Hs Hmask. rewrite merge_row_cases, Hs by done. assert (row < length jv)%nat as Hrow by (by apply match_row_Some in Hs as (? & _)).
  rewrite (proj2 (Nat.ltb_lt _ _)) by lia.
  assert (map_values (merged_column m names jv (ss ++ [s])) cs = map_values (λ c v, alter (updated_cell m names s c) row (merged_column m names jv ss c v)) cs) as Hcol.
  { apply map_values_ext. intros c col Hc. apply merged_hit; [done|by apply (reached_fresh ss s)|]. by rewrite (Forall_lookup_1 _ _ _ _ Hwf Hc). }
  unfold state_of. rewrite new_rows_snoc, (new_rows_hit s row Hs), app_nil_r, update_count_snoc, Hcol.
  assert (update_count m jv [s] = match when_matched m with Some (MUpdate _) => 1%nat | _ => 0%nat end) as ->.
  { unfold update_count. destruct (when_matched m) as [[]|]; try done. by rewrite filter_cons_True by (by rewrite Hs). }
  assert (match when_matched m with Some (MUpdate _) => True | _ => map_values (λ c v, alter (updated_cell m names s c) row (merged_column m names jv ss c v)) cs
            = map_values (merged_column m names jv ss) cs end) as Hid.
  { destruct (when_matched m) as [[]|] eqn:Ew; try done; apply map_values_ext; intros c col Hc; apply list_alter_id; intros v; unfold updated_cell; by rewrite Ew. }
  destruct (when_matched m) as [[assigns| |]|] eqn:Ew; rewrite ?Hid; cbn [m_target m_result]; try (repeat f_equal; lia).
  rewrite assigns_map. cbn [ResultM.columns ResultM.row_count]. rewrite map_values_compose, map_values_names. f_equal. f_equal; [|f_equal; lia]. f_equal.
  apply map_values_ext. intros c col Hc. unfold updated_cell. by rewrite Ew.
Qed.

Lemma step_missed ss s mask : (∀ s, s ∈ ss → s ∈ source_rows m) → key s ∉ key <$> ss → hit s = None →
  merge_row m jc s (state_of ss mask) = Ok (state_of (ss ++ [s]) mask).
Proof.
  intros Hss Hk Hs. rewrite merge_row_cases, Hs by done. unfold state_of.
  assert (update_count m jv (ss ++ [s]) = update_count m jv ss) as ->.
  { rewrite update_count_snoc. unfold update_count at 2. destruct (when_matched m) as [[]|]; try lia. rewrite filter_cons_False by (rewrite Hs; naive_solver). cbn. lia. }
  rewrite new_rows_snoc. 
  rewrite (map_values_ext (merged_column m names jv (ss ++ [s])) (λ c v, merged_column m names jv ss c v ++ ((λ s, inserted_cell m names s c) <$> new_rows m jv [s])) cs)
    by (intros c col _; by apply merged_miss).
  assert (new_rows m jv [s] = match when_not_matched_by_target m with Some (MInsert _ _) => [s] | _ => [] end) as Hnew.
  { unfold new_rows. destruct (when_not_matched_by_target m) as [[]|]; try done. by rewrite filter_cons_True. }
  destruct (when_not_matched_by_target m) as [[|cols vals|]|] eqn:Ew; rewrite Hnew.
  2: { destruct (mg_insert Hm cols vals Ew) as [Hperm _]. rewrite (insert_columns_names cols) by (cbn [m_target ResultM.columns]; apply map_values_names).
    rewrite push_row_map by (rewrite Hperm; apply NoDup_seq). rewrite length_app. cbn [length m_target ResultM.columns ResultM.row_count]. f_equal. f_equal; [|f_equal; lia].
    f_equal; [|lia]. rewrite map_values_compose. apply map_values_ext. intros c col Hc. cbn. unfold inserted_cell. rewrite Ew.
    destruct (position_elem c (insert_columns names cols)) as [k ->]; [|done]. rewrite Hperm. apply elem_of_seq. apply lookup_lt_Some in Hc. lia. }
  all: rewrite app_nil_r; f_equal; f_equal; f_equal; apply map_values_ext; intros c col Hc; by rewrite app_nil_r.
Qed.

Lemma merge_rows_reached ss todo mask : Forall (λ col, length (values col) = length jv) cs → ss ++ todo = source_rows m → length mask = length jv →
  ∃ mask', merge_rows m jc todo (state_of ss mask) = Ok (state_of (source_rows m) mask').
Proof.
  intros Hwf. revert ss mask. induction todo as [|s todo IH]; intros ss mask Hss Hmask; [exists mask; by rewrite <- Hss, app_nil_r|].
  assert (∀ s, s ∈ ss → s ∈ source_rows m) as Hsub by (intros s' Hs'; rewrite <- Hss; apply elem_of_app; by left).
  assert (key s ∉ key <$> ss) as Hk.
  { intros Hin. pose proof (mg_keys Hm) as Hd. rewrite <- Hss, fmap_app, fmap_cons in Hd. apply NoDup_app in Hd as (_ & Hd & _). apply (Hd _ Hin). by left. }
  cbn [merge_rows]. rewrite (cons_middle s ss todo), app_assoc in Hss. destruct (hit s) as [row|] eqn:Hs.
  - rewrite (step_matched ss s row mask) by done. cbn [mbind result_bind]. apply IH; [done|]. by rewrite length_insert.
  - rewrite step_missed by done. cbn [mbind result_bind]. by apply IH.
Qed.

Lemma execute_merge_ok : Forall (λ col, length (values col) = length jv) cs →
  execute_merge (mkResult cs (length jv)) m =
  Ok (mkResult (map_values (merged_column m names jv (source_rows m)) cs) (length jv + length (new_rows m jv (source_rows m))),
      mkMR (length (new_rows m jv (source_rows m))) (update_count m jv (source_rows m)) 0).
Proof.
  intros Hwf. unfold execute_merge. rewrite col_position_names. cbn [ResultM.columns ResultM.row_count]. rewrite (mg_join Hm).
  assert (mkMerging (mkResult cs (length jv)) (replicate (length jv) false) (mkMR 0 0 0) = state_of [] (replicate (length jv) false)) as ->.
  { unfold state_of. assert (new_rows m jv [] = []) as E by (unfold new_rows; by destruct (when_not_matched_by_target m) as [[]|]).
    assert (update_count m jv [] = 0%nat) as -> by (unfold update_count; by destruct (when_matched m) as [[]|]). rewrite E, Nat.add_0_r.
    rewrite map_values_id; [done|]. intros c col _. unfold merged_column. rewrite E, app_nil_r. apply list_eq. intros r. rewrite list_lookup_imap. by destruct (values col !! r). }
  destruct (merge_rows_reached [] (source_rows m) (replicate (length jv) false) Hwf eq_refl) as (mask' & ->); [apply length_replicate|]. cbn [mbind result_bind].
  pose proof (mg_delete Hm). by destruct (when_not_matched_by_source m) as [[]|].
Qed.
End correct.

Definition table_columns (t : Table) : list ResultColumn := zip_with ResultM.plain (column_names t) (columns t).
Lemma name_columns_zip names cols : length names = length cols → name_columns names cols = Ok (zip_with ResultM.plain names cols).
Proof. revert cols. induction names as [|n names IH]; intros [|c cols] H; try done. cbn. rewrite IH by (cbn in H; lia). done. Qed.
Lemma zip_plain names cols : length names = length cols →
  ResultM.name <$> zip_with ResultM.plain names cols = names ∧ values <$> zip_with ResultM.plain names cols = cols.
Proof. revert cols. induction names as [|n names IH]; intros [|c cols] H; try done. cbn in *. destruct (IH cols) as [-> ->]; [lia|done]. Qed.

(** C13: MERGE upserts: when the table has equally long columns, the join column exists, the source keys are distinct, the join column is not
    assigned, the insert sets every column once and the join column to the key, and there is no WHEN NOT MATCHED BY SOURCE THEN DELETE, the statement
    updates in every column the first row that has the key of a source row (the last assignment to a column counts), appends the source rows whose key
    is not in the table in their order, leaves every other cell as it was, and reports the number of rows updated and inserted. A WHEN MATCHED clause
    with another action than UPDATE changes nothing. The new table has no strings, NULL flags and schema, whatever the old one had. *)
Theorem merge_correct (m : Merge) (e : QueryEngine) (t : Table) (jc : nat) (jv : list Z) :
  catalog e !! target m = Some t → length (column_names t) = length (columns t) → Forall (λ col, length col = row_count t) (columns t) →
  mergeable m (table_columns t) jc jv →
  let new := new_rows m jv (source_rows m) in
  execute_merge_stmt m e =
  (Ok (affected (length new + update_count m jv (source_rows m))),
   set_catalog (<[target m := mkTable (target m) (imap (merged_column m (column_names t) jv (source_rows m)) (columns t)) (column_names t)
     (row_count t + length new) [] [] None]> (catalog e)) e).
Proof.
  intros Ht Hn Hwf Hm new. unfold execute_merge_stmt. rewrite Ht. unfold table_to_query_result. rewrite name_columns_zip by done. fold (table_columns t). cbn [mbind result_bind].
  destruct (zip_plain (column_names t) (columns t) Hn) as [Hnames Hvals]. fold (table_columns t) in Hnames, Hvals.
  assert (Forall (λ col, length (values col) = row_count t) (table_columns t)) as Hlen.
  { rewrite <- Hvals in Hwf. by apply Forall_fmap in Hwf. }
  assert (length jv = row_count t) as Hjv by (destruct (mg_column _ _ _ _ Hm) as (col & Hc & <-); apply (Forall_lookup_1 _ _ _ _ Hlen Hc)).
  rewrite <- Hjv in Hlen |- *. rewrite (execute_merge_ok m (table_columns t) jc jv Hm Hlen). cbn [mbind result_bind inserted updated deleted]. rewrite Nat.add_0_r. f_equal. f_equal.
  unfold register, query_result_to_table. cbn [ResultM.columns ResultM.row_count CatalogM.name]. f_equal. f_equal.
  - rewrite Hnames. rewrite <- Hvals. unfold map_values. rewrite fmap_imap, imap_fmap. done.
  - by rewrite map_values_names.
Qed.
End merge.

(** ** The VALUES list reads back *)

(** A value as it is written: a word without blanks and punctuation, or a string literal without quotes inside. *)
Definition bare_char (c : Z) : Prop := c ≠ QUOTE ∧ c ≠ 40 ∧ c ≠ 41 ∧ c ≠ 44 ∧ RecoveryM.is_whitespace c = false.
Inductive value_text : text → Prop :=
| value_bare c s : Forall bare_char (c :: s) → value_text (c :: s)
| value_string s : Forall (λ c, c ≠ QUOTE) s → value_text (QUOTE :: s ++ [QUOTE]).

Definition sep : text := K ", ".
Fixpoint print_values (vs : list text) : text := match vs with [] => [] | [v] => v | v :: vs => v ++ sep ++ print_values vs end.
Definition print_tuple (vs : list text) : text := [40] ++ print_values vs ++ [41].
Fixpoint print_tuples (rows : list (list text)) : text := match rows with [] => [] | [r] => print_tuple r | r :: rows => print_tuple r ++ sep ++ print_tuples rows end.

Lemma drop_white_id s c : head s = Some c → RecoveryM.is_whitespace c = false → drop_white s = s.
Proof. destruct s as [|x s]; [done|]. intros [= ->] H. cbn. by rewrite H. Qed.
Lemma value_ends v : value_text v → ∃ a b, head v = Some a ∧ last v = Some b ∧ RecoveryM.is_whitespace a = false ∧ RecoveryM.is_whitespace b = false.
Proof.
  intros [c s Hc|s Hs].
  - destruct (last (c :: s)) as [b|] eqn:E; [|by apply last_None in E]. exists c, b. split; [done|]. split; [done|].
    rewrite list.Forall_forall in Hc. split; [by apply (Hc c); left|]. apply last_Some in E as (l & El). apply (Hc b). rewrite El. apply elem_of_app. right. by left.
  - exists QUOTE, QUOTE. by rewrite app_comm_cons, last_snoc.
Qed.
Lemma trim_value v : value_text v → trim v = v ∧ trim (32 :: v) = v.
Proof.
  intros (a & b & Ha & Hb & Wa & Wb)%value_ends. assert (trim v = v) as H.
  { unfold trim. rewrite (drop_white_id v a) by done. rewrite (drop_white_id (reverse v) b), reverse_involutive; [done| |done]. by rewrite head_reverse. }
  split; [done|]. exact H.
Qed.

(** A value passes through both loops as it is. *)
Lemma bare_passes c (s cur : text) d : bare_char c →
  split_commas d false cur (c :: s) = split_commas d false (cur ++ [c]) s ∧ (1 <= d → tuples d false cur (c :: s) = tuples d false (cur ++ [c]) s).
Proof.
  intros (H1 & H2 & H3 & H4 & _). cbn. rewrite !(proj2 (Z.eqb_neq _ _)) by done. cbn. split; [done|]. intros Hd. by rewrite (proj2 (Z.leb_le _ _)).
Qed.
Lemma string_passes s rest cur d : Forall (λ c, c ≠ QUOTE) s →
  split_commas d true cur (s ++ QUOTE :: rest) = split_commas d false (cur ++ s ++ [QUOTE]) rest ∧
  (1 <= d → tuples d true cur (s ++ QUOTE :: rest) = tuples d false (cur ++ s ++ [QUOTE]) rest).
Proof.
  intros Hs. revert cur. induction Hs as [|c s Hc Hs IH]; intros cur; [done|]. cbn [app split_commas tuples]. rewrite (proj2 (Z.eqb_neq c QUOTE)) by done. rewrite !andb_false_r.
  destruct (IH (cur ++ [c])) as [-> IH2]. rewrite <- app_assoc. split; [done|]. intros Hd. rewrite (proj2 (Z.leb_le _ _)), IH2 by done. by rewrite <- app_assoc.
Qed.
Lemma value_passes v rest cur d : value_text v →
  split_commas d false cur (v ++ rest) = split_commas d false (cur ++ v) rest ∧ (1 <= d → tuples d false cur (v ++ rest) = tuples d false (cur ++ v) rest).
Proof.
  intros [c s Hc|s Hs].
  - revert cur. generalize (c :: s) as v', Hc. clear. induction 1 as [|c v' Hc H IH]; intros cur; [by rewrite app_nil_r|]. cbn [app].
    destruct (bare_passes c (v' ++ rest) cur d Hc) as [-> H2]. destruct (IH (cur ++ [c])) as [-> H3]. rewrite <- app_assoc. split; [done|]. intros Hd. rewrite H2, H3 by done. by rewrite <- app_assoc.
  - rewrite <- app_comm_cons, <- app_assoc. cbn [app]. destruct (string_passes s rest (cur ++ [QUOTE]) d Hs) as [E1 E2]. cbn [split_commas tuples]. rewrite Z.eqb_refl. cbn [negb].
    rewrite E1, <- app_assoc. split; [done|]. intros Hd. rewrite E2 by done. by rewrite <- app_assoc.
Qed.

Lemma split_values vs pre : pre = [] ∨ pre = [32] → Forall value_text vs → vs ≠ [] → trim <$> split_commas 0 false pre (print_values vs) = vs.
Proof.
  intros Hpre Hvs. revert pre Hpre. induction Hvs as [|v vs Hv Hvs IH]; intros pre Hpre Hne; [done|].
  assert (trim (pre ++ v) = v) as Ht by (destruct (trim_value v Hv) as [H1 H2]; by destruct Hpre as [->| ->]).
  destruct vs as [|v' vs].
  - cbn [print_values]. rewrite <- (app_nil_r v) at 1. rewrite (proj1 (value_passes v [] pre 0 Hv)). cbn [split_commas]. rewrite Ht, bool_decide_eq_false_2 by (by destruct Hv). cbn. by rewrite Ht.
  - change (print_values (v :: v' :: vs)) with (v ++ 44 :: 32 :: print_values (v' :: vs)). rewrite (proj1 (value_passes v _ pre 0 Hv)).
    set (rest := print_values (v' :: vs)). change (split_commas 0 false (pre ++ v) (44 :: 32 :: rest)) with ((pre ++ v) :: split_commas 0 false [32] rest).
    rewrite fmap_cons, Ht. f_equal. unfold rest. apply IH; [by right|done].
Qed.
Lemma tuples_values vs rest cur : Forall value_text vs → vs ≠ [] →
  tuples 1 false cur (print_values vs ++ 41 :: rest) = (cur ++ print_values vs) :: tuples 0 false [] rest.
Proof.
  intros Hvs. revert cur. induction Hvs as [|v vs Hv Hvs IH]; intros cur Hne; [done|]. destruct vs as [|v' vs].
  - cbn [print_values]. by rewrite (proj2 (value_passes v _ cur 1 Hv)).
  - change (print_values (v :: v' :: vs)) with (v ++ 44 :: 32 :: print_values (v' :: vs)). set (more := print_values (v' :: vs)) in *. rewrite <- app_assoc.
    rewrite (proj2 (value_passes v _ cur 1 Hv)) by lia. cbn [app].
    change (tuples 1 false (cur ++ v) (44 :: 32 :: more ++ 41 :: rest)) with (tuples 1 false (((cur ++ v) ++ [44]) ++ [32]) (more ++ 41 :: rest)).
    rewrite IH by done. by rewrite <- !app_assoc.
Qed.

(** The rows of a VALUES list, written with commas and blanks between them, are read back; the first value of each is its key. *)
Lemma values_roundtrip rows : Forall (λ vs, vs ≠ [] ∧ Forall value_text vs) rows →
  parse_values_tuples (print_tuples rows) = (λ vs, (default [] (head vs), vs)) <$> rows.
Proof.
  intros Hr. unfold parse_values_tuples. induction Hr as [|vs rows [Hne Hvs] Hr IH]; [done|].
  assert (tuple_row (print_values vs) = Some (default [] (head vs), vs)) as Ht.
  { unfold tuple_row, split_top_level_commas. rewrite (split_values vs []) by (done || by left). by destruct vs. }
  assert (∀ rest, tuples 0 false [] (print_tuple vs ++ rest) = print_values vs :: tuples 0 false [] rest) as Hone.
  { intros rest. unfold print_tuple. rewrite <- !app_assoc. cbn [app]. change (tuples 0 false [] (40 :: ?x)) with (tuples 1 false [] x).
    rewrite tuples_values by done. done. }
  destruct rows as [|vs' rows].
  - cbn [print_tuples]. rewrite <- (app_nil_r (print_tuple vs)), Hone. cbn. by rewrite Ht.
  - change (print_tuples (vs :: vs' :: rows)) with (print_tuple vs ++ 44 :: 32 :: print_tuples (vs' :: rows)). rewrite Hone.
    set (more := print_tuples (vs' :: rows)) in *. change (tuples 0 false [] (44 :: 32 :: more)) with (tuples 0 false [] more). cbn [omap list_omap]. rewrite Ht. by rewrite fmap_cons, IH.
Qed.

(** ** Examples *)
Definition demo_target : Table := mkTable (K "t") [[1; 2; 2]; [10; 20; 30]] [K "id"; K "v"] 3 [] [] None.
Definition demo_engine : QueryEngine := mkEngine {[K "t" := demo_target]} IndexM.im_new ∅ SnapshotTxn.SnapshotTxn.manager_new [].
Definition demo_merge (rows : list (text * list text)) : Merge :=
  mkMerge (K "t") rows [K "id"; K "v"] (K "id") (K "id") (Some (MUpdate [(K "v", K "s.v")])) None (Some (MInsert [K "v"; K "id"] [K "s.v"; K "s.id"])).
Abbreviation run_merge := (execute_merge_stmt (λ _, false) (λ _, 0) (λ _, None)).

(** The first row with key 2 is updated, key 5 is inserted. *)
Lemma merge_correct_witness :
  run_merge (demo_merge [(K "2", [K "2"; K "7"]); (K "5", [K "5"; K "8"])]) demo_engine =
  (Ok (affected 2), set_catalog (<[K "t" := mkTable (K "t") [[1; 2; 2; 5]; [10; 7; 30; 8]] [K "id"; K "v"] 4 [] [] None]> (catalog demo_engine)) demo_engine).
Proof.
  apply (merge_correct (λ _, false) (λ _, 0) (λ _, None) (demo_merge [(K "2", [K "2"; K "7"]); (K "5", [K "5"; K "8"])]) demo_engine demo_target 0 [1; 2; 2]).
  - reflexivity.
  - reflexivity.
  - repeat constructor.
  - split.
    + reflexivity.
    + exists (ResultM.plain (K "id") [1; 2; 2]). done.
    + apply (bool_decide_unpack _). vm_compute. exact I.
    + intros assigns [= <-] a Ha. apply list_elem_of_singleton in Ha as ->. done.
    + intros cols vals [= <- <-]. split; [apply Permutation_swap|]. intros s Hs. apply elem_of_cons in Hs as [->|Hs%list_elem_of_singleton]; [done|by subst].
    + done.
Defined.

(** A source that repeats a key which is not in the table crashes MERGE: the second row matches the row inserted for the first, and the
    flags of matched rows have no place for it. *)
Theorem merge_repeated_key_panics :
  run_merge (demo_merge [(K "5", [K "5"; K "8"]); (K "5", [K "5"; K "9"])]) demo_engine = (Err Panic, demo_engine).
Proof. vm_compute. reflexivity. Qed.
End MergeM.
