(* ===== verification/Pivot.v ===== *)
(** * PIVOT, UNPIVOT and grouping sets (src/src/exec/pivot.rs)

    The input and the output are query results.  The order in which the hash map of
    [grouping_sets] yields its groups and xxh3 are parameters.  Counts of rows are natural
    numbers. *)

From Stdlib Require Import ZArith Lia Ascii String.
From stdpp Require Import prelude list numbers gmap.
From S2P Require Import Prelude Result Lexer Parser Vectorized Dispatch GroupBy.
Local Open Scope Z_scope.

Module PivotM.
Import LexerM ParserM VectorizedM DispatchM.
Import ResultM (ResultColumn, QueryResult, mkResult, values, plain).

(** The engine's [PivotSpec]. *)
Record PivotSpec := mkPivot { group_col : text; pivot_col : text; value_col : text; pivot_values : list text; p_agg : text }.

Definition find_col (r : QueryResult) (n : text) : option nat := VectorizedM.position (λ c, text_eqb (ResultM.name c) n) (ResultM.columns r).
(** [input.columns[idx].values.get(row).copied().unwrap_or(0)]. *)
Definition at_cell (r : QueryResult) (idx row : nat) : Z := default 0 (c ← ResultM.columns r !! idx; values c !! row).

(** ** Aggregates *)
Definition agg_step (agg : text) (st : Z * nat) (v : Z) : Z * nat :=
  let '(agg_val, count) := st in
  ((if text_eqb agg (K "SUM") || text_eqb agg (K "AVG") then wrapping_add agg_val v
    else if text_eqb agg (K "MAX") then Z.max agg_val v
    else if text_eqb agg (K "MIN") then (if Nat.eqb count 0 then v else Z.min agg_val v)
    else agg_val), S count).
Definition agg_final (agg : text) (st : Z * nat) : Z :=
  let '(agg_val, count) := st in
  if text_eqb agg (K "COUNT") then Z.of_nat count
  else if text_eqb agg (K "AVG") then (if Nat.ltb 0 count then agg_val / Z.of_nat count else 0)
  else agg_val.
Definition aggregate (agg : text) (vs : list Z) : Z := agg_final agg (fold_left (agg_step agg) vs (0, 0%nat)).

(** [result.push_column(col).unwrap()] for each column. *)
Fixpoint push_all (cs : list ResultColumn) (r : QueryResult) : run QueryResult :=
  match cs with
  | [] => Ok r
  | c :: cs => match ResultM.push_column c r with Ok r => push_all cs r | Err _ => Err Panic end
  end.

Section pivot.
Context (xxh3_64 : list Z → Z) (to_lowercase : text → text).

Definition string_to_cell (s : text) : Z :=
  match VectorizedM.parse_i64 s with
  | Some n => wrap_u 64 n
  | None => match VectorizedM.parse_u64 s with Some n => n | None => xxh3_64 (as_bytes s) end
  end.

(** ** PIVOT *)
Definition pivot_cell (input : QueryResult) (gi pi vi : nat) (agg : text) (g pv : Z) : Z :=
  let rows := filter (λ row, at_cell input gi row = g ∧ at_cell input pi row = pv) (seq 0 (ResultM.row_count input)) in
  aggregate agg (at_cell input vi <$> rows).
Definition pivot (input : QueryResult) (group_col pivot_col value_col : text) (pivot_values : list text) (agg : text) : run QueryResult :=
  match find_col input group_col, find_col input pivot_col, find_col input value_col with
  | Some gi, Some pi, Some vi =>
    let groups := first_seen ∅ (at_cell input gi <$> seq 0 (ResultM.row_count input)) in
    push_all (plain group_col groups ::
      map (λ pv, plain pv (map (λ g, pivot_cell input gi pi vi agg g (string_to_cell pv)) groups)) pivot_values)
      (mkResult [] (length groups))
  | _, _, _ => Ok ResultM.empty
  end.
Definition apply_pivot (r : QueryResult) (s : PivotSpec) : run QueryResult :=
  pivot r (group_col s) (pivot_col s) (value_col s) (pivot_values s) (p_agg s).

(** ** UNPIVOT *)
Definition id_column (input : QueryResult) (k : nat) (n : text) : ResultColumn :=
  plain n (match find_col input n with
           | Some idx => concat (map (λ row, replicate k (at_cell input idx row)) (seq 0 (ResultM.row_count input)))
           | None => replicate (ResultM.row_count input * k) 0
           end).
Definition unpivot (input : QueryResult) (id_cols : list text) (value_name label_name : text) (cols : list text) : run QueryResult :=
  let rows := seq 0 (ResultM.row_count input) in
  push_all (map (id_column input (length cols)) id_cols ++
    [plain label_name (concat (map (λ _, map string_to_cell cols) rows));
     plain value_name (concat (map (λ row, map (λ c, default 0 (idx ← find_col input c; Some (at_cell input idx row))) cols) rows))])
    (mkResult [] (ResultM.row_count input * length cols)).

(** ** GROUPING SETS *)
Section sets.
Context (map_order : gmap (list Z) (list nat) → list (list Z * list nat)).

Definition set_key (input : QueryResult) (set : list nat) (row : nat) : list Z := map (λ c, at_cell input c row) set.
Definition add_group (groups : gmap (list Z) (list nat)) (kr : list Z * nat) : gmap (list Z) (list nat) :=
  <[kr.1 := default [] (groups !! kr.1) ++ [kr.2]]> groups.
Definition groups_of (input : QueryResult) (set : list nat) : gmap (list Z) (list nat) :=
  fold_left add_group (map (λ row, (set_key input set row, row)) (seq 0 (ResultM.row_count input))) ∅.

(** The cell of grouping column [i] in the row of a group. *)
Definition group_cell (set : list nat) (key : list Z) (i : nat) : Z :=
  match VectorizedM.position (Nat.eqb i) set with Some k => default 0 (key !! k) | None => 0 end.
Definition agg_cell (input : QueryResult) (agg_idx : option nat) (agg : text) (rows : list nat) : Z :=
  aggregate agg ((λ row, default 0 (idx ← agg_idx; Some (at_cell input idx row))) <$> rows).

(** One output row per group: the cells of the grouping columns, then the aggregate. *)
Definition set_rows (input : QueryResult) (n : nat) (agg_idx : option nat) (agg : text) (set : list nat) : list (list Z) :=
  map (λ kr, map (group_cell set kr.1) (seq 0 n) ++ [agg_cell input agg_idx agg kr.2]) (map_order (groups_of input set)).
Definition grouping_sets (input : QueryResult) (group_cols : list text) (agg_col agg : text) (sets : list (list nat)) : run QueryResult :=
  let out := concat (map (set_rows input (length group_cols) (find_col input agg_col) agg) sets) in
  let names := group_cols ++ [to_lowercase agg ++ K "_" ++ agg_col] in
  push_all (imap (λ i n, plain n (map (λ r : list Z, default 0 (r !! i)) out)) names) (mkResult [] (length out)).

(** [1u32 << n] shifts by [n mod 32]. *)
Definition cube_masks (n : nat) : list Z := Z.of_nat <$> seq 1 (Nat.pred (2 ^ (n mod 32))).
Definition mask_set (n : nat) (mask : Z) : list nat := filter (λ i, Z.testbit mask (Z.of_nat (i mod 32)) = true) (seq 0 n).
Definition cube_sets (n : nat) : list (list nat) := map (mask_set n) (cube_masks n) ++ [[]].
Definition cube (input : QueryResult) (group_cols : list text) (agg_col agg : text) : run QueryResult :=
  grouping_sets input group_cols agg_col agg (cube_sets (length group_cols)).

Definition rollup_sets (n : nat) : list (list nat) := map (seq 0) (reverse (seq 1 n)) ++ [[]].
Definition rollup (input : QueryResult) (group_cols : list text) (agg_col agg : text) : run QueryResult :=
  grouping_sets input group_cols agg_col agg (rollup_sets (length group_cols)).
End sets.

(** ** Aggregates of a list of cells *)
Definition sum (vs : list Z) : Z := foldr Z.add 0 vs.
Definition is_value_agg (agg : text) : Prop := agg ∈ [K "SUM"; K "AVG"; K "MAX"; K "MIN"].
Lemma aggregate_one agg v : is_value_agg agg → in_u 64 v → aggregate agg [v] = v.
Proof.
  intros Ha Hv. unfold is_value_agg in Ha. rewrite !elem_of_cons in Ha. destruct Ha as [->|[->|[->|[->|H]]]]; [| | | |by apply elem_of_nil in H]; unfold aggregate; cbn [fold_left].
  - cbn. unfold wrapping_add. by rewrite Z.add_0_l, wrap_u_small.
  - cbn. unfold wrapping_add. rewrite Z.add_0_l, wrap_u_small by done. apply Z.div_1_r.
  - destruct Hv. destruct v; [done|done|lia].
  - done.
Qed.
Lemma fold_sum vs a c agg : text_eqb agg (K "SUM") || text_eqb agg (K "AVG") = true → in_u 64 a →
  fold_left (agg_step agg) vs (a, c) = ((a + sum vs) mod 2 ^ 64, (c + length vs)%nat).
Proof.
  intros Ha. revert a c. induction vs as [|v vs IH]; intros a c Hu; cbn [fold_left].
  - cbn. rewrite Z.add_0_r, Z.mod_small by done. f_equal. lia.
  - unfold agg_step at 2. rewrite Ha. rewrite IH by (by apply in_u_wrap). f_equal; [|cbn [length]; lia].
    unfold wrapping_add, wrap_u. rewrite Zplus_mod_idemp_l. f_equal. unfold sum. cbn [foldr]. lia.
Qed.
(** COUNT, SUM and AVG by their definitions. *)
Lemma aggregate_spec vs : aggregate (K "COUNT") vs = Z.of_nat (length vs) ∧ aggregate (K "SUM") vs = sum vs mod 2 ^ 64 ∧
  (vs ≠ [] → aggregate (K "AVG") vs = (sum vs mod 2 ^ 64) / Z.of_nat (length vs)).
Proof.
  assert (∀ a c, (fold_left (agg_step (K "COUNT")) vs (a, c)).2 = (c + length vs)%nat) as Hc.
  { induction vs as [|v vs IH]; intros a c; cbn [fold_left]; [cbn; lia|]. unfold agg_step at 2. rewrite IH. cbn. lia. }
  unfold aggregate. rewrite (fold_sum vs 0 0 (K "SUM")), (fold_sum vs 0 0 (K "AVG")) by done. rewrite (surjective_pairing (fold_left _ vs _)), Hc. split; [done|]. rewrite Z.add_0_l. split; [done|].
  intros Hne. destruct vs as [|v vs]; [done|]. done.
Qed.

(** ** Columns pushed one after the other *)
Lemma push_all_more cs k r : Forall (λ c, length (values c) = ResultM.row_count r) cs → ResultM.columns r ≠ [] → k = ResultM.row_count r →
  push_all cs r = Ok (mkResult (ResultM.columns r ++ cs) k).
Proof.
  intros Hcs. revert r Hcs. induction cs as [|c cs IH]; intros r Hcs Hne ->; [destruct r; cbn; by rewrite app_nil_r|].
  apply Forall_cons in Hcs as [Hc Hcs]. cbn [push_all]. unfold ResultM.push_column. rewrite bool_decide_eq_false_2, bool_decide_eq_true_2 by done.
  rewrite IH; cbn [ResultM.columns ResultM.row_count]; [by rewrite <- app_assoc|done| |done]. by destruct (ResultM.columns r).
Qed.
Lemma push_all_ok c cs k n : length (values c) = n → Forall (λ c, length (values c) = n) cs → push_all (c :: cs) (mkResult [] k) = Ok (mkResult (c :: cs) n).
Proof. intros Hc Hcs. cbn [push_all]. unfold ResultM.push_column. rewrite bool_decide_eq_true_2 by done. by apply push_all_more; [rewrite Hc| |]. Qed.

(** ** Blocks of equal length *)
Lemma blocks_lookup {A} k (f : nat → list A) n start i : (∀ r, length (f r) = k) → (i < n * k)%nat →
  concat (map f (seq start n)) !! i = f (start + i / k)%nat !! (i mod k)%nat.
Proof.
  intros Hf. revert start i. induction n as [|n IH]; intros start i Hi; [lia|]. cbn [seq map concat]. destruct (decide (i < k)%nat) as [Hlt|Hge].
  - rewrite lookup_app_l by (by rewrite Hf). by rewrite Nat.div_small, Nat.mod_small, Nat.add_0_r by done.
  - rewrite lookup_app_r by (rewrite Hf; lia). rewrite Hf, IH by (cbn in Hi; lia).
    replace i with ((i - k) + 1 * k)%nat at 3 4 by lia. rewrite Nat.div_add, Nat.Div0.mod_add by lia. f_equal. f_equal. lia.
Qed.
Lemma blocks_length {A} k (f : nat → list A) n start : (∀ r, length (f r) = k) → length (concat (map f (seq start n))) = (n * k)%nat.
Proof. intros Hf. revert start. induction n as [|n IH]; intros start; [done|]. cbn [seq map concat]. rewrite length_app, Hf, IH. lia. Qed.
Lemma filter_seq_one (P : nat → Prop) `{!∀ i, Decision (P i)} n i0 : (i0 < n)%nat → (∀ i, (i < n)%nat → P i ↔ i = i0) → filter P (seq 0 n) = [i0].
Proof.
  intros Hi HP. replace n with (i0 + S (n - i0 - 1))%nat by lia. rewrite seq_app, list.filter_app. cbn [seq Nat.add].
  rewrite filter_none by (intros i [_ Hlt]%elem_of_seq; rewrite HP by lia; lia). rewrite filter_cons_True by (by apply HP).
  by rewrite filter_none by (intros i [Hl Hr]%elem_of_seq; rewrite HP by lia; lia).
Qed.
Lemma first_seen_replicate x k seen l : first_seen seen (replicate (S k) x ++ l) = first_seen seen (x :: l).
Proof.
  assert (∀ j seen, x ∈ seen → first_seen seen (replicate j x ++ l) = first_seen seen l) as H.
  { intros j. induction j as [|j IH]; intros seen' Hx; [done|]. cbn [replicate app first_seen]. rewrite bool_decide_eq_true_2 by done. by apply IH. }
  cbn [replicate app first_seen]. case_bool_decide; [by apply H|]. f_equal. apply H. set_solver.
Qed.
Lemma first_seen_blocks (k : nat) xs seen : (0 < k)%nat → NoDup xs → (∀ x, x ∈ xs → x ∉ seen) → first_seen seen (concat (map (replicate k) xs)) = xs.
Proof.
  intros Hk Hd. revert seen. induction Hd as [|x xs Hx Hd IH]; intros seen Hs; [done|]. cbn [map concat]. destruct k as [|k]; [lia|]. rewrite first_seen_replicate. cbn [first_seen].
  rewrite bool_decide_eq_false_2 by (apply Hs; by left). f_equal. apply IH. intros y Hy [->%elem_of_singleton|Hin]%elem_of_union; [done|]. by apply (Hs y); [right|].
Qed.

(** ** UNPIVOT and back *)
Definition named_cell (input : QueryResult) (c : text) (row : nat) : Z := default 0 (idx ← find_col input c; Some (at_cell input idx row)).
Definition named_column (input : QueryResult) (c : text) : list Z := named_cell input c <$> seq 0 (ResultM.row_count input).

Lemma at_cell_all r idx c : ResultM.columns r !! idx = Some c → length (values c) = ResultM.row_count r → at_cell r idx <$> seq 0 (ResultM.row_count r) = values c.
Proof.
  intros Hc Hl. apply list_eq. intros i. rewrite list_lookup_fmap. destruct (decide (i < ResultM.row_count r)%nat) as [Hi|Hi].
  - rewrite lookup_seq_lt by done. cbn. unfold at_cell. rewrite Hc. cbn. by destruct (lookup_lt_is_Some_2 (values c) i) as [v ->]; [lia|].
  - rewrite lookup_seq_ge by lia. symmetry. apply lookup_ge_None. lia.
Qed.

Section roundtrip.
Context (input : QueryResult) (idn l v : text) (cols : list text) (ii : nat).
Abbreviation n := (ResultM.row_count input).
Abbreviation k := (length cols).
Abbreviation ids := (at_cell input ii <$> seq 0 n).
Context (Hid : find_col input idn = Some ii) (Hk : cols ≠ []) (Hids : NoDup ids) (Hcols : NoDup (string_to_cell <$> cols)).
Context (Hl : idn ≠ l) (Hv : idn ≠ v) (Hlv : l ≠ v).

Definition unpivoted : QueryResult :=
  mkResult [plain idn (concat (map (λ row, replicate k (at_cell input ii row)) (seq 0 n)));
            plain l (concat (map (λ _, map string_to_cell cols) (seq 0 n)));
            plain v (concat (map (λ row, map (λ c, named_cell input c row) cols) (seq 0 n)))] (n * k).

Lemma unpivot_ok : unpivot input [idn] v l cols = Ok unpivoted.
Proof.
  unfold unpivot, unpivoted. cbn [map app]. unfold id_column. rewrite Hid. apply push_all_ok; [apply blocks_length; intros; apply length_replicate|].
  repeat constructor; apply blocks_length; intros; apply length_map.
Qed.
Lemma unpivoted_find : find_col unpivoted idn = Some 0%nat ∧ find_col unpivoted l = Some 1%nat ∧ find_col unpivoted v = Some 2%nat.
Proof.
  unfold find_col, unpivoted. cbn. unfold text_eqb. repeat case_bool_decide; done.
Qed.
Lemma unpivoted_cells i : (i < n * k)%nat →
  at_cell unpivoted 0 i = at_cell input ii (i / k) ∧ Some (at_cell unpivoted 1 i) = string_to_cell <$> cols !! (i mod k)%nat ∧
  Some (at_cell unpivoted 2 i) = (λ c, named_cell input c (i / k)) <$> cols !! (i mod k)%nat.
Proof.
  intros Hi. assert (i mod k < k)%nat as Hm by (apply Nat.mod_upper_bound; lia). destruct (lookup_lt_is_Some_2 cols (i mod k)) as [c Hc]; [done|].
  unfold at_cell, unpivoted. cbn [ResultM.columns lookup list_lookup mbind option_bind values plain].
  rewrite !(blocks_lookup k) by (done || (intros; by rewrite ?length_replicate, ?length_map)).
  change (map ?f cols) with (f <$> cols). rewrite lookup_replicate_2 by done. rewrite !list_lookup_fmap, Hc. done.
Qed.

Lemma unpivoted_groups : first_seen ∅ (at_cell unpivoted 0 <$> seq 0 (n * k)) = ids.
Proof.
  change (n * k)%nat with (ResultM.row_count unpivoted). rewrite (at_cell_all unpivoted 0 (plain idn (concat (map (λ row, replicate k (at_cell input ii row)) (seq 0 n))))); [|done|apply blocks_length; intros; apply length_replicate].
  cbn [values plain]. change (map (λ row, replicate k (at_cell input ii row)) (seq 0 n)) with ((λ row, replicate k (at_cell input ii row)) <$> seq 0 n).
  rewrite (list_fmap_compose (at_cell input ii) (replicate k)). apply first_seen_blocks; [by destruct cols; [|cbn; lia]|done|set_solver].
Qed.

Lemma unpivoted_pivot_cell agg r c : is_value_agg agg → (r < n)%nat → c ∈ cols → in_u 64 (named_cell input c r) →
  pivot_cell unpivoted 0 1 2 agg (at_cell input ii r) (string_to_cell c) = named_cell input c r.
Proof.
  intros Ha Hr (j & Hj)%list_elem_of_lookup Hu. assert (j < k)%nat as Hjk by (by eapply lookup_lt_Some). unfold pivot_cell. change (ResultM.row_count unpivoted) with (n * k)%nat.
  assert ((r * k + j) / k = r ∧ (r * k + j) mod k = j)%nat as [Hdiv Hmod].
  { rewrite Nat.add_comm, Nat.div_add, Nat.Div0.mod_add, Nat.div_small, Nat.mod_small by lia. done. }
  assert (r * k + j < n * k)%nat as Hlt by nia.
  rewrite (filter_seq_one _ (n * k) (r * k + j)%nat); [|done|].
  - cbn [fmap list_fmap]. destruct (unpivoted_cells _ Hlt) as (_ & _ & H2). rewrite Hdiv, Hmod, Hj in H2. injection H2 as ->. by apply aggregate_one.
  - intros i Hi. destruct (unpivoted_cells i Hi) as (E0 & E1 & _). rewrite E0. split.
    + intros [G L]. rewrite L in E1. destruct (cols !! (i mod k)%nat) as [c'|] eqn:Ec; [|done]. injection E1 as E1.
      assert (i mod k = j)%nat as Ej by (apply (NoDup_lookup _ _ _ (string_to_cell c) Hcols); rewrite list_lookup_fmap, ?Ec, ?Hj; cbn; congruence).
      assert (i / k < n)%nat by (apply Nat.Div0.div_lt_upper_bound; lia).
      assert (i / k = r)%nat as Er by (apply (NoDup_lookup _ _ _ (at_cell input ii r) Hids); rewrite list_lookup_fmap, lookup_seq_lt by done; cbn; congruence).
      pose proof (Nat.div_mod_eq i k). lia.
    + intros ->. rewrite Hdiv. split; [done|]. destruct (unpivoted_cells _ Hlt) as (_ & E & _). rewrite Hmod, Hj in E. by injection E.
Qed.
End roundtrip.

(** UNPIVOT then PIVOT gives the table back: when the identifier column has distinct cells, the unpivoted columns have distinct labels and the
    three new names differ, pivoting the unpivoted table with SUM, AVG, MAX or MIN returns the identifier column and the chosen columns of the input. *)
Theorem unpivot_pivot_roundtrip (input : QueryResult) (idn l v agg : text) (cols : list text) (ii : nat) :
  find_col input idn = Some ii → cols ≠ [] → NoDup (at_cell input ii <$> seq 0 (ResultM.row_count input)) → NoDup (string_to_cell <$> cols) →
  idn ≠ l → idn ≠ v → l ≠ v → is_value_agg agg → (∀ c, c ∈ cols → Forall (in_u 64) (named_column input c)) →
  ∃ u, unpivot input [idn] v l cols = Ok u ∧
    pivot u idn l v cols agg =
    Ok (mkResult (plain idn (at_cell input ii <$> seq 0 (ResultM.row_count input)) :: ((λ c, plain c (named_column input c)) <$> cols)) (ResultM.row_count input)).
Proof.
  intros Hid Hk Hids Hcols Hl Hv Hlv Ha Hu. exists (unpivoted input idn l v cols ii). split; [by apply unpivot_ok|].
  unfold pivot. destruct (unpivoted_find input idn l v cols ii Hl Hv Hlv) as (-> & -> & ->).
  change (ResultM.row_count (unpivoted input idn l v cols ii)) with (ResultM.row_count input * length cols)%nat. rewrite unpivoted_groups by done.
  assert (map (λ pv, plain pv (map (λ g, pivot_cell (unpivoted input idn l v cols ii) 0 1 2 agg g (string_to_cell pv)) (at_cell input ii <$> seq 0 (ResultM.row_count input)))) cols
    = (λ c, plain c (named_column input c)) <$> cols) as ->.
  { apply list_fmap_ext. intros j c Hc. f_equal. unfold named_column. change (map ?f ?x) with (f <$> x). rewrite <- list_fmap_compose. apply list_fmap_ext.
    intros i r [-> Hr]%lookup_seq. cbn. assert (c ∈ cols) as Hin by (by eapply list_elem_of_lookup_2). apply unpivoted_pivot_cell; try done.
    specialize (Hu c Hin). unfold named_column in Hu. rewrite Forall_fmap in Hu. apply (Forall_lookup_1 _ _ i i Hu). apply lookup_seq. lia. }
  apply push_all_ok; [cbn [values plain]; by rewrite length_fmap, length_seq|]. apply Forall_fmap, list.Forall_forall. intros c _. cbn. unfold named_column. by rewrite length_fmap, length_seq.
Qed.

(** ** CUBE *)

(** The subsets of the first [n] columns. *)
Fixpoint subsets (n : nat) : list (list nat) := match n with O => [[]] | S n => subsets n ++ ((λ s, s ++ [n]) <$> subsets n) end.

Lemma mask_set_S n m : (n < 32)%nat →
  mask_set (S n) m = mask_set n m ++ (if Z.testbit m (Z.of_nat n) then [n] else []).
Proof.
  intros Hn. unfold mask_set. rewrite seq_S, list.filter_app. cbn [Nat.add]. f_equal. rewrite filter_cons, filter_nil, Nat.mod_small by done.
  by destruct (Z.testbit m (Z.of_nat n)).
Qed.
Lemma mask_set_high n m h : (n <= h)%nat → (h < 32)%nat → 0 <= m < 2 ^ Z.of_nat h → mask_set n (m + 2 ^ Z.of_nat h) = mask_set n m.
Proof.
  intros Hn Hh Hm. unfold mask_set. apply filter_ext_elem. intros i [_ Hi]%elem_of_seq. rewrite Nat.mod_small by lia.
  replace (m + 2 ^ Z.of_nat h) with (m + 1 * 2 ^ Z.of_nat h) by lia.
  rewrite <- (Z.mod_pow2_bits_low (m + 1 * 2 ^ Z.of_nat h) (Z.of_nat h)) by lia. by rewrite Z.mod_add, Z.mod_small by lia.
Qed.
Lemma mask_sets n : (n < 32)%nat → (λ m : nat, mask_set n (Z.of_nat m)) <$> seq 0 (2 ^ n) = subsets n.
Proof.
  induction n as [|n IH]; intros Hn; [done|]. cbn [subsets]. rewrite <- IH by lia. replace (2 ^ S n)%nat with (2 ^ n + 2 ^ n)%nat by (rewrite Nat.pow_succ_r'; lia).
  assert (Z.of_nat (2 ^ n) = 2 ^ Z.of_nat n) as Hp by (rewrite Nat2Z.inj_pow; done).
  rewrite seq_app, fmap_app. f_equal.
  - apply list_fmap_ext. intros i m [-> Hm]%lookup_seq. cbn [Nat.add]. rewrite mask_set_S by lia.
    rewrite (proj2 (Z.testbit_false (Z.of_nat i) (Z.of_nat n) ltac:(lia))), app_nil_r; [done|]. by rewrite Z.div_small by lia.
  - replace (seq (0 + 2 ^ n) (2 ^ n)) with (Nat.add (2 ^ n) <$> seq 0 (2 ^ n)) by (rewrite fmap_add_seq; f_equal; lia). rewrite <- !list_fmap_compose. apply list_fmap_ext. intros i m [-> Hm]%lookup_seq. cbn [compose Nat.add].
    rewrite mask_set_S by lia. rewrite Nat2Z.inj_add, Hp, Z.add_comm. f_equal.
    + apply mask_set_high; lia.
    + rewrite (proj2 (Z.testbit_true (Z.of_nat i + 2 ^ Z.of_nat n) (Z.of_nat n) ltac:(lia))); [done|].
      replace (Z.of_nat i + 2 ^ Z.of_nat n) with (Z.of_nat i + 1 * 2 ^ Z.of_nat n) by lia. rewrite Z.div_add, Z.div_small by lia. done.
Qed.
Lemma cube_sets_subsets n : (n < 32)%nat → cube_sets n ≡ₚ subsets n.
Proof.
  intros Hn. unfold cube_sets, cube_masks. rewrite (Nat.mod_small n) by done. rewrite <- mask_sets by done.
  assert (0 < 2 ^ n)%nat as Hp by (apply Nat.neq_0_lt_0, Nat.pow_nonzero; lia). destruct (2 ^ n)%nat as [|p]; [lia|]. cbn [Nat.pred seq]. rewrite fmap_cons.
  assert (mask_set n (Z.of_nat 0) = []) as -> by (unfold mask_set; apply filter_none; intros i _; by rewrite Z.testbit_0_l).
  change (map (mask_set n) ?l) with (mask_set n <$> l). rewrite <- list_fmap_compose. rewrite Permutation_app_comm. done.
Qed.

Section cube.
Context (input : QueryResult).
Abbreviation rows := (seq 0 (ResultM.row_count input)).
Definition rows_of_key (set : list nat) (key : list Z) : list nat := filter (λ row, set_key input set row = key) rows.

Lemma add_group_spec (krs : list (list Z * nat)) (g : gmap (list Z) (list nat)) (key : list Z) :
  fold_left add_group krs g !! key = match (filter (λ kr : list Z * nat, kr.1 = key) krs).*2 with [] => g !! key | rs => Some (default [] (g !! key) ++ rs) end.
Proof.
  revert g. induction krs as [|[k row] krs IH]; intros g; [done|]. cbn [fold_left]. rewrite IH, filter_cons. unfold add_group. cbn [fst snd]. case_decide as E.
  - subst k. rewrite lookup_insert_eq, fmap_cons. cbn [snd default from_option]. unfold id. destruct ((filter _ krs).*2); [done|]. by rewrite <- app_assoc.
  - by rewrite lookup_insert_ne by done.
Qed.
Lemma groups_of_spec set key : groups_of input set !! key = if decide (rows_of_key set key = []) then None else Some (rows_of_key set key).
Proof.
  unfold groups_of. rewrite add_group_spec, lookup_empty. change (map ?f rows) with (f <$> rows). rewrite filter_fmap_list.
  assert ((λ row, (set_key input set row, row)) <$> rows_of_key set key = (λ row, (set_key input set row, row)) <$> filter (λ row, (set_key input set row, row).1 = key) rows) as <- by done.
  rewrite <- list_fmap_compose. rewrite (list_fmap_ext _ id) by done. rewrite list_fmap_id. destruct (rows_of_key set key); [by rewrite decide_True|by rewrite decide_False].
Qed.
Lemma groups_listed set : map_to_list (groups_of input set) ≡ₚ (λ k, (k, rows_of_key set k)) <$> remove_dups (set_key input set <$> rows).
Proof.
  apply NoDup_Permutation; [apply NoDup_map_to_list|apply NoDup_fmap_2; [by intros ?? [= ->]|apply NoDup_remove_dups]|].
  intros [k rs]. rewrite elem_of_map_to_list, groups_of_spec, list_elem_of_fmap. split.
  - case_decide as E; [done|]. intros [= <-]. exists k. split; [done|]. rewrite elem_of_remove_dups. destruct (rows_of_key set k) as [|r l] eqn:Er; [done|].
    assert (r ∈ rows_of_key set k) as Hr by (rewrite Er; by left). apply list_elem_of_filter in Hr as [<- Hr]. by apply list_elem_of_fmap_2.
  - intros (k' & [= -> ->] & Hin). rewrite elem_of_remove_dups in Hin. apply list_elem_of_fmap in Hin as (r & -> & Hr). rewrite decide_False; [done|]. intros E.
    assert (r ∈ rows_of_key set (set_key input set r)) as H by (by apply list_elem_of_filter). rewrite E in H. by apply elem_of_nil in H.
Qed.

(** The row of a group: the cells of the columns in the set, zeros for the others, and the aggregate of its rows. *)
Definition group_row (n : nat) (agg_col agg : text) (set : list nat) (key : list Z) : list Z :=
  (group_cell set key <$> seq 0 n) ++ [aggregate agg (named_cell input agg_col <$> rows_of_key set key)].
End cube.

(** C14: CUBE with fewer than 32 columns, whatever the order of the hash map: the result has, in some order, one row for every subset of the first
    grouping positions and every distinct combination of cells of the input columns at these positions, with the aggregate over exactly the rows
    that have this combination. *)
Theorem cube_correct (map_order : gmap (list Z) (list nat) → list (list Z * list nat)) (input : QueryResult) (group_cols : list text) (agg_col agg : text) :
  (∀ g, map_order g ≡ₚ map_to_list g) → (length group_cols < 32)%nat →
  ∃ out, cube map_order input group_cols agg_col agg =
    Ok (mkResult (imap (λ i n, plain n ((λ r : list Z, default 0 (r !! i)) <$> out)) (group_cols ++ [to_lowercase agg ++ K "_" ++ agg_col])) (length out)) ∧
    out ≡ₚ concat ((λ set, group_row input (length group_cols) agg_col agg set <$> remove_dups (set_key input set <$> seq 0 (ResultM.row_count input))) <$> subsets (length group_cols)).
Proof.
  intros Ho Hn. set (n := length group_cols) in *. exists (concat (map (set_rows map_order input n (find_col input agg_col) agg) (cube_sets n))). split.
  - unfold cube, grouping_sets. fold n. set (out := concat _). set (names := group_cols ++ _).
    assert (Forall (λ c, length (values c) = length out) (imap (λ i n, plain n (map (λ r : list Z, default 0 (r !! i)) out)) names)) as Hall.
    { apply Forall_lookup. intros i c. rewrite list_lookup_imap. intros (x & _ & ->)%fmap_Some. apply length_map. }
    destruct (imap _ names) as [|c cs] eqn:E; [by apply (f_equal length) in E; rewrite length_imap in E; unfold names in E; rewrite length_app in E; cbn in E; lia|].
    apply Forall_cons in Hall as [Hc Hcs]. rewrite (push_all_ok c cs _ (length out) Hc Hcs), <- E. done.
  - rewrite (cube_sets_subsets n Hn). change (map ?f ?x) with (f <$> x) at 1. induction (subsets n) as [|set sets IH]; [done|]. rewrite !fmap_cons. cbn [concat]. rewrite IH.
    apply Permutation_app_tail. unfold set_rows. rewrite Ho, groups_listed. change (map ?f (?g <$> ?x)) with (f <$> (g <$> x)). rewrite <- list_fmap_compose. done.
Qed.

Lemma push_all_columns cs r r' : push_all cs r = Ok r' → ResultM.columns r' = ResultM.columns r ++ cs.
Proof.
  revert r. induction cs as [|c cs IH]; intros r; cbn [push_all]; [intros [= ->]; by rewrite app_nil_r|].
  unfold ResultM.push_column. case_bool_decide as E; [intros H; rewrite (IH _ H), E; done|]. case_bool_decide; [|done]. intros Hp. rewrite (IH _ Hp). cbn. by rewrite <- app_assoc.
Qed.
(** CUBE never looks at the names of its grouping columns: any two lists of names of the same length give the same cells, also when they name
    different columns of the input. *)
Theorem cube_ignores_names (map_order : gmap (list Z) (list nat) → list (list Z * list nat)) (input : QueryResult) (names names' : list text) (agg_col agg : text) (r r' : QueryResult) :
  length names = length names' → cube map_order input names agg_col agg = Ok r → cube map_order input names' agg_col agg = Ok r' →
  values <$> ResultM.columns r = values <$> ResultM.columns r'.
Proof.
  intros Hn. unfold cube, grouping_sets. rewrite Hn. intros ->%push_all_columns ->%push_all_columns. cbn [ResultM.columns app]. apply list_eq. intros i.
  rewrite !list_lookup_fmap, !list_lookup_imap. destruct (decide (i < length names + 1)%nat) as [Hi|Hi].
  - destruct (lookup_lt_is_Some_2 (names ++ [to_lowercase agg ++ K "_" ++ agg_col]) i) as [x ->]; [by rewrite length_app|].
    destruct (lookup_lt_is_Some_2 (names' ++ [to_lowercase agg ++ K "_" ++ agg_col]) i) as [y ->]; [rewrite length_app; cbn; lia|]. done.
  - rewrite !lookup_ge_None_2; [done| |]; rewrite length_app; cbn; lia.
Qed.
End pivot.

(** ** Examples *)
Definition quarters : QueryResult := mkResult [plain (K "dept") [7; 8]; plain (K "1") [10; 30]; plain (K "2") [20; 40]] 2.
Lemma unpivot_pivot_roundtrip_witness : ∃ u, unpivot (λ _, 0) quarters [K "dept"] (K "amt") (K "qtr") [K "1"; K "2"] = Ok u ∧
  pivot (λ _, 0) u (K "dept") (K "qtr") (K "amt") [K "1"; K "2"] (K "SUM") = Ok (mkResult [plain (K "dept") [7; 8]; plain (K "1") [10; 30]; plain (K "2") [20; 40]] 2).
Proof.
  apply (unpivot_pivot_roundtrip (λ _, 0) (λ s, s) quarters (K "dept") (K "qtr") (K "amt") (K "SUM") [K "1"; K "2"] 0); try done.
  - apply (bool_decide_unpack _). vm_compute. exact I.
  - apply (bool_decide_unpack _). vm_compute. exact I.
  - left.
  - intros c Hc. apply elem_of_cons in Hc as [->|Hc%list_elem_of_singleton]; [|subst c]; repeat constructor; done.
Defined.

Lemma cube_correct_witness : ∃ out, cube (λ s, s) map_to_list quarters [K "dept"] (K "1") (K "SUM") =
    Ok (mkResult [plain (K "dept") ((λ r : list Z, default 0 (r !! 0%nat)) <$> out); plain (K "SUM_1") ((λ r : list Z, default 0 (r !! 1%nat)) <$> out)] (length out)) ∧
    out ≡ₚ [[0; 40]; [7; 10]; [8; 30]].
Proof.
  destruct (cube_correct (λ s, s) map_to_list quarters [K "dept"] (K "1") (K "SUM")) as (out & H1 & H2); [done|cbn; lia|]. exists out. split; [exact H1|exact H2].
Defined.
End PivotM.
