(* ===== verification/Cte.v ===== *)
(** * Common table expressions and UNION ALL (src/src/engine/mod.rs; the clause of
    src/src/sql/cte.rs)

    [execute_with] runs each anchor, registers its result as a table, repeats the recursive
    part until it brings no new row, runs the outer query and drops the tables.  The
    queries inside are run by [execute_inner], which is a parameter here: it stands for
    the engine itself. *)

From Stdlib Require Import ZArith Lia Ascii String.
From stdpp Require Import prelude list numbers gmap.
From S2P Require Import Prelude Nulls Catalog Result Lexer StringColumn Parser Vectorized Dispatch IndexManager ExprEval Dml Temporal SnapshotTxn Statements.
Local Open Scope Z_scope.

Module CteM.
Import LexerM ParserM CatalogM DispatchM StatementsM.
Import ResultM (ResultColumn, mkCol, QueryResult, mkResult, values, plain).

Record CteDef := mkCte { cte_name : text; anchor : text; recursive : option text }.
Record WithClause := mkWith { ctes : list CteDef; outer_query : text; max_recursion : Z }.

Definition result_to_table (n : text) (r : QueryResult) : Table :=
  mkTable n (values <$> ResultM.columns r) (ResultM.name <$> ResultM.columns r) (ResultM.row_count r) (replicate (length (ResultM.columns r)) None) [] None.

(** ** Rows already there *)
Definition row_equal (t : Table) (r : QueryResult) (r_row t_row : nat) : bool :=
  forallb (λ p : nat * ResultColumn, Z.eqb (default 0 (values p.2 !! r_row)) (default 0 (col ← columns t !! p.1; col !! t_row))) (imap pair (ResultM.columns r)).
Definition is_new (t : Table) (r : QueryResult) (r_row : nat) : bool := negb (existsb (row_equal t r r_row) (seq 0 (row_count t))).
Definition compute_new_rows (t : Table) (r : QueryResult) : nat := length (filter (λ r_row, is_new t r r_row = true) (seq 0 (ResultM.row_count r))).

Definition append_result_rows (r : QueryResult) (t : Table) : Table :=
  mkTable (name t) (imap (λ c col, col ++ default [] (values <$> ResultM.columns r !! c)) (columns t)) (column_names t) (row_count t + ResultM.row_count r)
    (string_columns t) (null_bitmaps t) (schema t).

(** ** UNION ALL *)
Definition concat_strings (right_rows : nat) (right : ResultColumn) (left : list (list Z)) : list (list Z) :=
  left ++ match ResultM.string_values right with Some sv => sv | None => replicate right_rows [] end.
Definition concat_column (right : QueryResult) (i : nat) (c : ResultColumn) : ResultColumn :=
  match ResultM.columns right !! i with
  | Some rc => mkCol (ResultM.name c) (values c ++ values rc) (concat_strings (ResultM.row_count right) rc <$> ResultM.string_values c) (ResultM.type_oid c) (ResultM.null_mask c)
  | None => c
  end.
Definition concatenate_results (left right : QueryResult) : QueryResult :=
  mkResult (imap (concat_column right) (ResultM.columns left)) (ResultM.row_count left + ResultM.row_count right).

(** ** WITH *)
Section with_clause.
Context (execute_inner : text → exec QueryResult).

Definition empty_table (n : text) : Table := mkTable n [] [] 0 [] [] None.
Definition with_max (w : WithClause) : nat := Z.to_nat (if Z.eqb (max_recursion w) 0 then 100000 else max_recursion w).

Fixpoint iterate (max_iter : nat) (temp_name recursive_sql : text) : exec () :=
  match max_iter with
  | O => mret tt
  | S n =>
    rec_result ← execute_inner recursive_sql;
    e ← st_get;
    if Nat.eqb (compute_new_rows (default (empty_table temp_name) (catalog e !! temp_name)) rec_result) 0 then mret tt
    else
      _ ← with_table temp_name (st_modify (append_result_rows rec_result));
      iterate n temp_name recursive_sql
  end.

Definition run_cte (w : WithClause) (c : CteDef) : exec () :=
  anchor_result ← execute_inner (anchor c);
  _ ← st_modify (λ e, set_catalog (register (result_to_table (cte_name c) anchor_result) (catalog e)) e);
  match recursive c with Some sql => iterate (with_max w) (cte_name c) sql | None => mret tt end.

Definition drop_temp (names : list text) (e : QueryEngine) : QueryEngine := set_catalog (fold_left (λ c n, (drop_table n c).2) names (catalog e)) e.

Definition execute_with (w : WithClause) : exec QueryResult :=
  _ ← for_each (ctes w) (run_cte w);
  r ← execute_inner (outer_query w);
  _ ← st_modify (drop_temp (cte_name <$> ctes w));
  mret r.

(** A WITH clause destroys a table of the same name: after it has returned a result, the catalog has no table named like one of its
    expressions, although there was one before. *)
Theorem with_drops_names (w : WithClause) (e e' : QueryEngine) (r : QueryResult) (n : text) :
  execute_with w e = (Ok r, e') → n ∈ cte_name <$> ctes w → catalog e' !! n = None.
Proof.
  intros H Hn. unfold execute_with in H. apply stM_bind_inv in H as [(u & s1 & H1 & H)|(f & _ & [=])]. apply stM_bind_inv in H as [(r' & s2 & H2 & H)|(f & _ & [=])].
  unfold mbind, stM_bind, st_modify, mret, stM_ret in H. injection H as _ <-. unfold drop_temp. cbn [catalog set_catalog].
  assert (∀ (names : list text) (c : Catalog), c !! n = None → fold_left (λ c n, (drop_table n c).2) names c !! n = None) as Hkeep.
  { intros names. induction names as [|x names IH]; intros c Hc; [done|]. cbn. apply IH. apply lookup_delete_None. by right. }
  generalize (catalog s2) as c. clear -Hn Hkeep. induction (cte_name <$> ctes w) as [|x names IH]; intros c; [by apply elem_of_nil in Hn|].
  cbn [fold_left]. apply elem_of_cons in Hn as [->|Hn]; [|by apply IH]. apply Hkeep. apply lookup_delete_eq.
Qed.

(** ** Rows *)
Definition table_rows (t : Table) : list (list Z) := (λ i, (λ col : list Z, default 0 (col !! i)) <$> columns t) <$> seq 0 (row_count t).
Definition rows_result (ns : list text) (rows : list (list Z)) : QueryResult :=
  mkResult (imap (λ i n, plain n ((λ r : list Z, default 0 (r !! i)) <$> rows)) ns) (length rows).
Definition wide (ns : list text) (rows : list (list Z)) : Prop := Forall (λ r, length r = length ns) rows.
(** A table of [length ns] columns, all as long as it says. *)
Definition shaped (ns : list text) (t : Table) : Prop := length (columns t) = length ns ∧ Forall (λ col, length col = row_count t) (columns t).

Lemma rows_result_cells ns rows i r : rows !! i = Some r → length r = length ns → (λ col : list Z, default 0 (col !! i)) <$> (values <$> ResultM.columns (rows_result ns rows)) = r.
Proof.
  intros Hi Hl. apply list_eq. intros c. rewrite !list_lookup_fmap. cbn [ResultM.columns rows_result]. rewrite list_lookup_imap. destruct (decide (c < length ns)%nat) as [Hc|Hc].
  - destruct (lookup_lt_is_Some_2 ns c Hc) as [n ->]. destruct (lookup_lt_is_Some_2 r c) as [v Hv]; [lia|]. cbn. rewrite list_lookup_fmap, Hi. cbn. by rewrite Hv.
  - rewrite (lookup_ge_None_2 ns), (lookup_ge_None_2 r) by lia. done.
Qed.
Lemma result_rows ns rows n : wide ns rows → table_rows (result_to_table n (rows_result ns rows)) = rows ∧ shaped ns (result_to_table n (rows_result ns rows)).
Proof.
  intros Hw. split.
  - apply list_eq. intros i. unfold table_rows. rewrite list_lookup_fmap. cbn [row_count result_to_table ResultM.row_count rows_result columns]. destruct (rows !! i) as [r|] eqn:Hi.
    + rewrite lookup_seq_lt by (by eapply lookup_lt_Some). cbn. f_equal. apply (rows_result_cells ns rows i r Hi). apply (Forall_lookup_1 _ _ _ _ Hw Hi).
    + rewrite lookup_seq_ge; [done|]. by apply lookup_ge_None.
  - split; cbn [columns result_to_table row_count]; [by rewrite length_fmap; cbn; rewrite length_imap|]. apply Forall_fmap, Forall_lookup. intros c col.
    cbn [ResultM.columns rows_result ResultM.row_count]. rewrite list_lookup_imap. intros (x & _ & ->)%fmap_Some. apply length_fmap.
Qed.
Lemma append_rows ns rows t : wide ns rows → shaped ns t →
  table_rows (append_result_rows (rows_result ns rows) t) = table_rows t ++ rows ∧ shaped ns (append_result_rows (rows_result ns rows) t).
Proof.
  intros Hw [Hc Hl]. split.
  - unfold table_rows. cbn [row_count append_result_rows columns ResultM.row_count rows_result]. rewrite seq_app, fmap_app. f_equal.
    + apply list_fmap_ext. intros k i [-> Hi]%lookup_seq. cbn [Nat.add]. apply list_eq. intros c. rewrite !list_lookup_fmap, list_lookup_imap. destruct (columns t !! c) as [col|] eqn:E; [|done].
      cbn. f_equal. rewrite lookup_app_l; [done|]. by rewrite (Forall_lookup_1 _ _ _ _ Hl E).
    + apply list_eq. intros i. rewrite list_lookup_fmap. destruct (rows !! i) as [r|] eqn:Hi.
      * rewrite lookup_seq_lt by (by eapply lookup_lt_Some). cbn [fmap option_fmap option_map Nat.add]. f_equal. assert (length r = length ns) as Hlen by exact (Forall_lookup_1 _ _ _ _ Hw Hi).
        rewrite <- (rows_result_cells ns rows i r Hi Hlen). apply list_eq. intros c. rewrite !list_lookup_fmap, list_lookup_imap.
        destruct (decide (c < length ns)%nat) as [Hlt|Hge].
        -- destruct (lookup_lt_is_Some_2 (columns t) c) as [col E]; [lia|]. rewrite E. cbn [fmap option_fmap option_map]. cbn [ResultM.columns rows_result]. rewrite list_lookup_imap.
           destruct (lookup_lt_is_Some_2 ns c Hlt) as [x ->]. cbn. f_equal. rewrite lookup_app_r by (pose proof (Forall_lookup_1 _ _ _ _ Hl E) as Hx; cbn in Hx; rewrite Hx; lia).
           rewrite (Forall_lookup_1 _ _ _ _ Hl E). by replace (row_count t + i - row_count t)%nat with i by lia.
        -- rewrite (lookup_ge_None_2 (columns t)) by lia. cbn [ResultM.columns rows_result]. by rewrite list_lookup_imap, (lookup_ge_None_2 ns) by lia.
      * rewrite lookup_seq_ge; [done|]. by apply lookup_ge_None.
  - split; cbn [columns append_result_rows row_count]; [by rewrite length_imap|]. apply Forall_lookup. intros c col. rewrite list_lookup_imap. intros (x & Hx & ->)%fmap_Some.
    rewrite length_app, (Forall_lookup_1 _ _ _ _ Hl Hx). f_equal. cbn [ResultM.columns rows_result ResultM.row_count]. rewrite list_lookup_imap.
    destruct (lookup_lt_is_Some_2 ns c) as [n ->]; [apply lookup_lt_Some in Hx; lia|]. cbn. apply length_fmap.
Qed.

Lemma row_equal_spec ns rows t i j r : wide ns rows → shaped ns t → rows !! i = Some r →
  row_equal t (rows_result ns rows) i j = true ↔ (λ col : list Z, default 0 (col !! j)) <$> columns t = r.
Proof.
  intros Hw [Hc _] Hi. assert (length r = length ns) as Hlen by exact (Forall_lookup_1 _ _ _ _ Hw Hi). unfold row_equal. rewrite forallb_forall. cbn [ResultM.columns rows_result]. split.
  - intros H. apply list_eq. intros c. rewrite list_lookup_fmap. destruct (decide (c < length ns)%nat) as [Hlt|Hge].
    + destruct (lookup_lt_is_Some_2 (columns t) c) as [col E]; [lia|]. destruct (lookup_lt_is_Some_2 ns c Hlt) as [n Hn]. destruct (lookup_lt_is_Some_2 r c) as [v Hv]; [lia|].
      specialize (H (c, plain n ((λ r : list Z, default 0 (r !! c)) <$> rows))). rewrite E, Hv. cbn. f_equal. symmetry.
      assert (v = default 0 ((λ r : list Z, default 0 (r !! c)) <$> rows !! i)) as -> by (rewrite Hi; cbn; by rewrite Hv).
      rewrite <- list_lookup_fmap. apply Z.eqb_eq. cbn [values plain fst snd] in H. rewrite E in H. cbn in H. apply H.
      apply list_elem_of_In, list_elem_of_lookup. exists c. rewrite list_lookup_imap, list_lookup_imap, Hn. done.
    + rewrite (lookup_ge_None_2 (columns t)), (lookup_ge_None_2 r) by lia. done.
  - intros <- [c col] Hin%list_elem_of_In%list_elem_of_lookup. destruct Hin as [c' Hin]. rewrite !list_lookup_imap in Hin. destruct (ns !! c') as [n|] eqn:Hn; [|done]. cbn in Hin.
    injection Hin as <- <-. cbn [fst snd values plain]. apply Z.eqb_eq. rewrite list_lookup_fmap, Hi. cbn. rewrite list_lookup_fmap. by destruct (columns t !! c').
Qed.
Lemma new_rows_spec ns rows t : wide ns rows → shaped ns t → compute_new_rows t (rows_result ns rows) = 0%nat ↔ rows ⊆ table_rows t.
Proof.
  intros Hw Ht. unfold compute_new_rows. cbn [ResultM.row_count rows_result].
  assert (∀ i r, rows !! i = Some r → is_new t (rows_result ns rows) i = true ↔ r ∉ table_rows t) as Hnew.
  { intros i r Hi. unfold is_new. rewrite negb_true_iff, <- not_true_iff_false, existsb_exists. apply not_iff_compat. unfold table_rows. rewrite list_elem_of_fmap.
    split; intros (j & H1 & H2); exists j; [rewrite (row_equal_spec ns rows t i j r) in H2 by done|rewrite (row_equal_spec ns rows t i j r) by done];
      [split; [done|by apply list_elem_of_In]|split; [by apply list_elem_of_In|done]]. }
  split.
  - intros H r (i & Hi)%list_elem_of_lookup. destruct (decide (r ∈ table_rows t)) as [|Hn]; [done|]. apply nil_length_inv in H. apply (Hnew i r Hi) in Hn.
    assert (i ∈ filter (λ r_row, is_new t (rows_result ns rows) r_row = true) (seq 0 (length rows))) as Hin.
    { apply list_elem_of_filter. split; [done|]. apply elem_of_seq. apply lookup_lt_Some in Hi. lia. }
    rewrite H in Hin. by apply elem_of_nil in Hin.
  - intros H. rewrite filter_none; [done|]. intros i [_ Hi]%elem_of_seq. destruct (lookup_lt_is_Some_2 rows i) as [r Hr]; [lia|]. rewrite (Hnew i r Hr). intros Hn. apply Hn, H.
    by eapply list_elem_of_lookup_2.
Qed.

(** ** Recursion reaches the least fixed point *)
Section fixpoint.
Context (ns : list text) (A : list (list Z)) (F : list (list Z) → list (list Z)).

(** The rows a recursive expression means: the anchor's, and those the recursive part derives from rows it means. *)
Inductive derived : list Z → Prop :=
| derived_anchor r : r ∈ A → derived r
| derived_step l r : (∀ x, x ∈ l → derived x) → r ∈ F l → derived r.

Lemma derived_closed (T : list (list Z)) : (∀ l l', l ⊆ l' → F l ⊆ F l') → A ⊆ T → F T ⊆ T → ∀ r, derived r → r ∈ T.
Proof. intros Hmono HA HF r H. induction H as [r Hr|l r Hl IH Hr]; [by apply HA|]. apply HF, (Hmono l T); [|done]. intros x Hx. by apply IH. Qed.

Context (n sql : text) (e : QueryEngine) (U : list (list Z)).
Definition with_cte (T : Table) : QueryEngine := set_catalog (<[n := T]> (catalog e)) e.
Context (Hmono : ∀ l l', l ⊆ l' → F l ⊆ F l').
Context (Hrun : ∀ T, shaped ns T → execute_inner sql (with_cte T) = (Ok (rows_result ns (F (table_rows T))), with_cte T)).
Context (Hwide : ∀ l, wide ns (F l)) (HU : ∀ l, l ⊆ U → F l ⊆ U).

Lemma iterate_step k T : shaped ns T →
  iterate (S k) n sql (with_cte T) =
  if Nat.eqb (compute_new_rows T (rows_result ns (F (table_rows T)))) 0 then (Ok tt, with_cte T)
  else iterate k n sql (with_cte (append_result_rows (rows_result ns (F (table_rows T))) T)).
Proof.
  intros HT. cbn [iterate]. rewrite (stM_bind_ok _ _ _ _ _ (Hrun T HT)). unfold mbind at 1, stM_bind at 1, st_get.
  assert (catalog (with_cte T) !! n = Some T) as Hlook by (unfold with_cte; cbn; by rewrite lookup_insert_eq). rewrite Hlook. change (default (empty_table n) (Some T)) with T.
  destruct (Nat.eqb _ 0); [done|]. unfold mbind, stM_bind, with_table. rewrite Hlook. unfold st_modify. f_equal. unfold with_cte. cbn. by rewrite insert_insert_eq.
Qed.

(** Each round adds a row of [U] that was not there. *)
Lemma rows_grow (l new : list (list Z)) : ¬ new ⊆ l → new ⊆ U → (length (filter (λ r, r ∈ l) (remove_dups U)) < length (filter (λ r, r ∈ l ++ new) (remove_dups U)))%nat.
Proof.
  intros Hn Hs. assert (¬ Forall (λ r, r ∈ l) new) as H by (rewrite list.Forall_forall; done).
  apply not_Forall_Exists, list.Exists_exists in H as (r & Hr & Hno); [|apply _].
  assert (filter (λ r, r ∈ l) (remove_dups U) = filter (λ r, r ∈ l) (filter (λ r, r ∈ l ++ new) (remove_dups U))) as ->.
  { rewrite list_filter_filter. apply filter_ext_elem. intros x _. set_solver. }
  apply (length_filter_lt _ _ r); [|done]. apply list_elem_of_filter. rewrite elem_of_remove_dups. split; [apply elem_of_app; by right|by apply Hs].
Qed.

Lemma iterate_fixpoint k T : shaped ns T → A ⊆ table_rows T → table_rows T ⊆ U → (∀ r, r ∈ table_rows T → derived r) →
  (length (remove_dups U) <= k + length (filter (λ r, r ∈ table_rows T) (remove_dups U)))%nat →
  ∃ T', iterate k n sql (with_cte T) = (Ok tt, with_cte T') ∧ shaped ns T' ∧ ∀ r, r ∈ table_rows T' ↔ derived r.
Proof.
  revert T. induction k as [|k IH]; intros T HT HA HTU Hd Hk.
  - exists T. split; [done|]. split; [done|]. intros r. split; [by apply Hd|]. apply derived_closed; [done|done|].
    assert (U ⊆ table_rows T) as Hall; [|by etrans; [apply HU|]].
    intros x Hx. destruct (decide (x ∈ table_rows T)) as [|Hno]; [done|].
    pose proof (length_filter_lt (λ r, r ∈ table_rows T) (remove_dups U) x (proj2 (elem_of_remove_dups _ _) Hx) Hno). lia.
  - rewrite iterate_step by done. destruct (Nat.eqb_spec (compute_new_rows T (rows_result ns (F (table_rows T)))) 0) as [E|E].
    + exists T. split; [done|]. split; [done|]. intros r. split; [by apply Hd|]. apply (new_rows_spec ns) in E; [|done|done]. by apply derived_closed.
    + rewrite (new_rows_spec ns) in E by done. destruct (append_rows ns (F (table_rows T)) T (Hwide _) HT) as [Hrows Hsh].
      apply IH; [done|rewrite Hrows; set_solver| | |].
      * rewrite Hrows. intros x [Hx|Hx]%elem_of_app; [by apply HTU|by apply (HU _ HTU)].
      * rewrite Hrows. intros x [Hx|Hx]%elem_of_app; [by apply Hd|by apply (derived_step (table_rows T))].
      * rewrite Hrows. pose proof (rows_grow (table_rows T) (F (table_rows T)) E (HU _ HTU)). lia.
Qed.
End fixpoint.

(** C12: Recursive WITH computes the least fixed point.  When the anchor yields rows [A], the recursive part is a monotone function [F] of the rows of
    the expression (and changes nothing), and everything derivable lies among at most MAXRECURSION rows, the outer query runs on a table whose rows
    are exactly the derivable ones, and the table is dropped after it succeeded. *)
Theorem recursive_with_fixpoint (ns : list text) (A : list (list Z)) (F : list (list Z) → list (list Z)) (U : list (list Z)) (w : WithClause) (c : CteDef) (sql : text) (e : QueryEngine) :
  ctes w = [c] → recursive c = Some sql → (∀ l l', l ⊆ l' → F l ⊆ F l') → wide ns A → (∀ l, wide ns (F l)) → A ⊆ U → (∀ l, l ⊆ U → F l ⊆ U) →
  (length (remove_dups U) <= with_max w)%nat →
  execute_inner (anchor c) e = (Ok (rows_result ns A), e) →
  (∀ T, shaped ns T → execute_inner sql (with_cte (cte_name c) e T) = (Ok (rows_result ns (F (table_rows T))), with_cte (cte_name c) e T)) →
  ∃ T, (∀ r, r ∈ table_rows T ↔ derived A F r) ∧
    execute_with w e = match execute_inner (outer_query w) (with_cte (cte_name c) e T) with
                       | (Ok r, e') => (Ok r, set_catalog (delete (cte_name c) (catalog e')) e')
                       | (Err f, e') => (Err f, e')
                       end.
Proof.
  intros Hw Hc Hmono HA HF HAU HU Hmax Hanchor Hrun. destruct (result_rows ns A (cte_name c) HA) as [Hrows Hsh].
  destruct (iterate_fixpoint ns A F (cte_name c) sql e U Hmono Hrun HF HU (with_max w) (result_to_table (cte_name c) (rows_result ns A)) Hsh) as (T & Hit & _ & HT);
    [by rewrite Hrows|by rewrite Hrows|rewrite Hrows; intros r Hr; by apply derived_anchor|lia|].
  exists T. split; [done|]. unfold execute_with. rewrite Hw. cbn [for_each fmap list_fmap]. unfold run_cte. rewrite Hc.
  unfold mbind, stM_bind, mret, stM_ret, st_modify. rewrite Hanchor. change (set_catalog (register (result_to_table (cte_name c) (rows_result ns A)) (catalog e)) e)
    with (with_cte (cte_name c) e (result_to_table (cte_name c) (rows_result ns A))). rewrite Hit. by destruct (execute_inner (outer_query w) (with_cte (cte_name c) e T)) as [[r|f] e'].
Qed.
End with_clause.

(** UNION ALL of results with as many columns: the names of the left one, its cells and then those of the right one. *)
Lemma union_all_cells (left right : QueryResult) : length (ResultM.columns left) = length (ResultM.columns right) →
  ResultM.name <$> ResultM.columns (concatenate_results left right) = ResultM.name <$> ResultM.columns left ∧
  values <$> ResultM.columns (concatenate_results left right) = zip_with app (values <$> ResultM.columns left) (values <$> ResultM.columns right) ∧
  ResultM.row_count (concatenate_results left right) = (ResultM.row_count left + ResultM.row_count right)%nat.
Proof.
  intros Hlen. cbn [concatenate_results ResultM.columns ResultM.row_count]. split_and!; [| |done]; apply list_eq; intros i; rewrite ?lookup_zip_with, !list_lookup_fmap, list_lookup_imap.
  - destruct (ResultM.columns left !! i) as [c|]; [|done]. cbn. unfold concat_column. by destruct (ResultM.columns right !! i).
  - destruct (ResultM.columns left !! i) as [c|] eqn:E; [|done]. destruct (lookup_lt_is_Some_2 (ResultM.columns right) i) as [rc Hrc]; [rewrite <- Hlen; by eapply lookup_lt_Some|].
    cbn. unfold concat_column. by rewrite Hrc.
Qed.
(** The NULL flags of the right result are lost: the flags of a column are those of the left one, fewer than the rows. *)
Lemma union_all_loses_nulls (left right : QueryResult) i c m : ResultM.wf left → ResultM.columns left !! i = Some c → ResultM.null_mask c = Some m → (0 < ResultM.row_count right)%nat →
  ∃ c', ResultM.columns (concatenate_results left right) !! i = Some c' ∧ ResultM.null_mask c' = Some m ∧ (length m < ResultM.row_count (concatenate_results left right))%nat.
Proof.
  intros Hwf Hc Hm Hr. exists (concat_column right i c). cbn [concatenate_results ResultM.columns ResultM.row_count]. rewrite list_lookup_imap, Hc. split; [done|].
  destruct (Forall_lookup_1 _ _ _ _ Hwf Hc) as (_ & _ & Hlen). rewrite (Hlen m Hm). split; [unfold concat_column; by destruct (ResultM.columns right !! i)|lia].
Qed.

(** ** Example *)

(** Counting from 1 to 3: an engine that knows three queries. *)
Definition count_up (l : list (list Z)) : list (list Z) := omap (λ r, match r with [x] => if Z.ltb x 3 then Some [x + 1] else None | _ => None end) l.
Definition three_queries (sql : text) : exec QueryResult := λ e,
  if text_eqb sql (K "anchor") then (Ok (rows_result [K "n"] [[1]]), e)
  else if text_eqb sql (K "step") then (Ok (rows_result [K "n"] (count_up (default [] (table_rows <$> catalog e !! K "t")))), e)
  else (Ok (rows_result [K "n"] (default [] (table_rows <$> catalog e !! K "t"))), e).
Definition counting : WithClause := mkWith [mkCte (K "t") (K "anchor") (Some (K "step"))] (K "outer") 100.
Definition blank : QueryEngine := mkEngine ∅ IndexM.im_new ∅ SnapshotTxn.SnapshotTxn.manager_new [].

Lemma recursive_with_fixpoint_witness : ∃ T, (∀ r, r ∈ table_rows T ↔ derived [[1]] count_up r) ∧
  execute_with three_queries counting blank = (Ok (rows_result [K "n"] (table_rows T)), set_catalog (delete (K "t") (<[K "t" := T]> ∅)) blank).
Proof.
  apply (recursive_with_fixpoint three_queries [K "n"] [[1]] count_up [[1]; [2]; [3]] counting (mkCte (K "t") (K "anchor") (Some (K "step"))) (K "step") blank).
  - reflexivity.
  - reflexivity.
  - intros l l' Hl r Hr. unfold count_up in *. apply list_elem_of_omap in Hr as (x & Hx & E). apply list_elem_of_omap. exists x. split; [by apply Hl|done].
  - repeat constructor.
  - intros l. apply list.Forall_forall. intros r Hr. unfold count_up in Hr. apply list_elem_of_omap in Hr as ([|x [|]] & _ & E); try discriminate E. destruct (Z.ltb x 3); [|discriminate E]. by injection E as <-.
  - intros r Hr. apply list_elem_of_singleton in Hr as ->. left.
  - intros l Hl r Hr. unfold count_up in Hr. apply list_elem_of_omap in Hr as (x & Hx & E). apply Hl in Hx.
    repeat (apply elem_of_cons in Hx as [->|Hx]; [cbn in E; first [discriminate E|injection E as <-; repeat (first [left|right])]|]). by apply elem_of_nil in Hx.
  - apply Nat.leb_le. vm_compute. reflexivity.
  - reflexivity.
  - intros T _. unfold three_queries. change (text_eqb (K "step") (K "anchor")) with false. change (text_eqb (K "step") (K "step")) with true. cbv iota.
    unfold with_cte. cbn [catalog set_catalog]. rewrite lookup_insert_eq. reflexivity.
Defined.

(** Every round runs the recursive part over all rows so far and appends all it yields: counting from 1 to 3 returns the 2 twice. *)
Theorem recursive_with_repeats : (execute_with three_queries counting blank).1 = Ok (rows_result [K "n"] [[1]; [2]; [2]; [3]]).
Proof. vm_compute. reflexivity. Qed.

(** A table [t] that was there before the statement. *)
Definition with_t : QueryEngine := set_catalog {[K "t" := empty_table (K "t")]} blank.
Lemma with_drops_names_witness : catalog with_t !! K "t" = Some (empty_table (K "t")) ∧ catalog (execute_with three_queries counting with_t).2 !! K "t" = None.
Proof.
  split; [reflexivity|]. apply (with_drops_names three_queries counting with_t _ (rows_result [K "n"] [[1]; [2]; [2]; [3]]) (K "t")); [vm_compute; reflexivity|left].
Defined.
End CteM.
