(* ===== verification/Views.v ===== *)
(** * Views (src/src/catalog/views.rs; materialize_views_in_sql of src/src/engine/mod.rs)

    The registry of views, and what a SELECT does about them: every view named after a
    FROM is run and its result registered as a table, and running it does the same for
    the views it names.  The recursion is bounded by fuel; [run_query] stands for the part
    of [execute_inner] that parses and executes one SELECT over the catalog. *)

From Stdlib Require Import ZArith Lia Ascii String.
From stdpp Require Import prelude list numbers gmap.
From S2P Require Import Prelude Nulls Catalog Result Lexer StringColumn Parser Vectorized Dispatch IndexManager ExprEval Dml Temporal SnapshotTxn Statements Cte.
Local Open Scope Z_scope.

Module ViewsM.
Import LexerM ParserM CatalogM DispatchM StatementsM CteM.

Record ViewDef := mkView { view_name : text; select_sql : text; column_aliases : option (list text); schemabinding : bool; check_option : bool }.
Abbreviation ViewRegistry := (gmap text ViewDef).

Definition view_create (v : ViewDef) (r : ViewRegistry) : ViewRegistry := <[view_name v := v]> r.
Definition view_drop (n : text) (r : ViewRegistry) : bool * ViewRegistry := (bool_decide (is_Some (r !! n)), delete n r).
Definition view_get (n : text) (r : ViewRegistry) : option ViewDef := r !! n.
Definition view_contains (n : text) (r : ViewRegistry) : bool := bool_decide (is_Some (r !! n)).

Fixpoint contains (p s : text) : bool := starts_with p s || match s with [] => false | _ :: s => contains p s end.

Section views.
Context (to_lowercase : text → text) (view_order : ViewRegistry → list text) (run_query : text → exec ResultM.QueryResult).
Context (views : ViewRegistry).

(** [lower.contains("from <view>")]. *)
Definition mentions (sql v : text) : bool := contains (K "from " ++ to_lowercase v) (to_lowercase sql).
Definition view_specs (sql : text) : list (text * text) :=
  omap (λ n, (λ v, (n, select_sql v)) <$> views !! n) (filter (λ n, mentions sql n = true) (view_order views)).

(** A view whose query fails is skipped. *)
Fixpoint materialize (run : text → stP QueryEngine Fault ResultM.QueryResult) (specs : list (text * text)) : stP QueryEngine Fault () :=
  match specs with
  | [] => mret tt
  | (n, sql) :: specs => λ e,
    match run sql e with
    | None => None
    | Some (Ok r, e) => materialize run specs (set_catalog (register (result_to_table n r) (catalog e)) e)
    | Some (Err _, e) => materialize run specs e
    end
  end.
Fixpoint execute_text (fuel : nat) (sql : text) : stP QueryEngine Fault ResultM.QueryResult :=
  match fuel with
  | O => λ _, None
  | S fuel => λ e,
    match materialize (execute_text fuel) (view_specs sql) e with
    | None => None
    | Some (_, e) => Some (run_query sql e)
    end
  end.

(** ** Termination *)
Context (Horder : ∀ r : ViewRegistry, view_order r ≡ₚ (map_to_list r).*1).

Lemma view_specs_spec sql n q : (n, q) ∈ view_specs sql ↔ mentions sql n = true ∧ ∃ v, views !! n = Some v ∧ select_sql v = q.
Proof.
  unfold view_specs. rewrite list_elem_of_omap. split.
  - intros (n' & Hn & E). apply fmap_Some in E as (v & Hv & E). injection E as <- ->. apply list_elem_of_filter in Hn as [Hm _]. split; [done|]. by exists v.
  - intros [Hm (v & Hv & <-)]. exists n. split; [|by rewrite Hv]. apply list_elem_of_filter. split; [done|]. rewrite Horder. apply list_elem_of_fmap. exists (n, v). split; [done|].
    by apply elem_of_map_to_list.
Qed.
Lemma materialize_total run specs : (∀ n q, (n, q) ∈ specs → ∀ e, is_Some (run q e)) → ∀ e, ∃ e', materialize run specs e = Some (Ok tt, e').
Proof.
  induction specs as [|[n q] specs IH]; intros H e; [by exists e|]. cbn [materialize]. destruct (H n q (list_elem_of_here _ _) e) as [[[r|f] e'] ->]; apply IH; intros n' q' Hin; apply (H n' q'); by right.
Qed.
Lemma materialize_ext run run' specs e : (∀ n q, (n, q) ∈ specs → ∀ e, run q e = run' q e) → materialize run specs e = materialize run' specs e.
Proof.
  revert e. induction specs as [|[n q] specs IH]; intros e H; [done|]. cbn [materialize]. rewrite (H n q) by left.
  destruct (run' q e) as [[[r|f] e']|]; [| |done]; apply IH; intros n' q' Hin; apply (H n' q'); by right.
Qed.

(** Views that name only views of a lower rank. *)
Definition ranked (rank : text → nat) : Prop := ∀ v d v', views !! v = Some d → is_Some (views !! v') → mentions (select_sql d) v' = true → (rank v' < rank v)%nat.
Definition below (rank : text → nat) (sql : text) (k : nat) : Prop := ∀ v, is_Some (views !! v) → mentions sql v = true → (rank v < k)%nat.

Lemma execute_text_total rank k sql : ranked rank → below rank sql k → ∀ e, is_Some (execute_text (S k) sql e).
Proof.
  intros Hr. revert sql. induction k as [k IH] using (well_founded_induction lt_wf). intros sql Hb e. cbn [execute_text].
  destruct (materialize_total (execute_text k) (view_specs sql)) with (e := e) as [e' ->]; [|by eexists]. intros n q (Hm & v & Hv & <-)%view_specs_spec e1.
  assert (rank n < k)%nat as Hlt by (apply Hb; [by exists v|done]). destruct k as [|k]; [lia|]. apply IH; [lia|]. intros v' Hv' Hm'. pose proof (Hr n v v' Hv Hv' Hm'). lia.
Qed.
Lemma execute_text_stable rank k sql fuel : ranked rank → below rank sql k → (k < fuel)%nat → ∀ e, execute_text fuel sql e = execute_text (S k) sql e.
Proof.
  intros Hr. revert sql fuel. induction k as [k IH] using (well_founded_induction lt_wf). intros sql [|fuel] Hb Hf e; [lia|]. cbn [execute_text].
  rewrite (materialize_ext (execute_text fuel) (execute_text k)); [done|]. intros n q (Hm & v & Hv & <-)%view_specs_spec e1.
  assert (rank n < k)%nat as Hlt by (apply Hb; [by exists v|done]). assert (below rank (select_sql v) (Nat.pred k)) as Hb'.
  { intros v' Hv' Hm'. pose proof (Hr n v v' Hv Hv' Hm'). lia. }
  destruct k as [|k]; [lia|]. cbn [Nat.pred] in Hb'. rewrite (IH k) by (done || lia). done.
Qed.

(** Queries over views terminate when the views do not refer to themselves: with a rank under which every view names only views of lower rank,
    a query over views of rank below [k] has one result, reached with every fuel above [k]. *)
Theorem views_terminate (rank : text → nat) (k : nat) (sql : text) (e : QueryEngine) : ranked rank → below rank sql k → ∃ r, ∀ fuel, (k < fuel)%nat → execute_text fuel sql e = Some r.
Proof.
  intros Hr Hb. destruct (execute_text_total rank k sql Hr Hb e) as [r E]. exists r. intros fuel Hf. by rewrite (execute_text_stable rank k sql fuel Hr Hb Hf).
Qed.

(** A view that names itself never returns: a query that mentions it runs out of any amount of fuel. *)
Theorem self_view_diverges (v : text) (d : ViewDef) (sql : text) : views !! v = Some d → mentions (select_sql d) v = true → mentions sql v = true →
  ∀ fuel e, execute_text fuel sql e = None.
Proof.
  intros Hv Hself Hsql fuel. revert sql Hsql. induction fuel as [|fuel IH]; intros sql Hsql e; [done|]. cbn [execute_text].
  assert ((v, select_sql d) ∈ view_specs sql) as Hin by (apply view_specs_spec; split; [done|by exists d]).
  assert (∀ e, materialize (execute_text fuel) (view_specs sql) e = None) as ->; [|done].
  induction (view_specs sql) as [|[n q] specs IHs]; [by apply elem_of_nil in Hin|]. intros e1. cbn [materialize]. apply elem_of_cons in Hin as [[= <- <-]|Hin].
  - by rewrite (IH _ Hself).
  - destruct (execute_text fuel q e1) as [[[r|f] e2]|]; [by apply IHs|by apply IHs|done].
Qed.
End views.

(** ** Examples *)
Definition one_view (sql : text) : ViewRegistry := {[K "v" := mkView (K "v") sql None false false]}.
Abbreviation run_views sql := (execute_text (λ s, s) (λ r : ViewRegistry, (map_to_list r).*1) (λ _, mret ResultM.empty) (one_view sql)).
Lemma views_terminate_witness : ∃ r, ∀ fuel, (1 < fuel)%nat → run_views (K "select * from t") fuel (K "select * from v") blank = Some r.
Proof.
  apply (views_terminate (λ s, s) (λ r : ViewRegistry, (map_to_list r).*1) (λ _, mret ResultM.empty) (one_view (K "select * from t")) (λ _, reflexivity _) (λ _, 0%nat) 1).
  - intros v d v' Hv Hv' Hm. unfold one_view in Hv, Hv'. apply lookup_singleton_Some in Hv as [<- <-]. destruct Hv' as [d' Hv']. apply lookup_singleton_Some in Hv' as [<- _]. discriminate Hm.
  - intros v _ _. lia.
Defined.
Lemma self_view_diverges_witness : ∀ fuel e, run_views (K "select * from v") fuel (K "select * from v") e = None.
Proof.
  apply (self_view_diverges (λ s, s) (λ r : ViewRegistry, (map_to_list r).*1) (λ _, mret ResultM.empty) (one_view (K "select * from v")) (λ _, reflexivity _) (K "v")
    (mkView (K "v") (K "select * from v") None false false)); reflexivity.
Defined.
End ViewsM.
