(* ===== verification/Auth.v ===== *)
(** * Password authentication (src/src/server/auth.rs, and the SCRAM and user statement
    helpers of src/src/server/pgwire.rs)

    PBKDF2, HMAC, SHA-256 and base64 are crates: parameters here.  Strings are lists of
    code points; where the code works on bytes or pushes a byte as a character, so does
    the model. *)

From Stdlib Require Import ZArith Lia Ascii String.
From stdpp Require Import prelude list numbers gmap.
From S2P Require Import Prelude Result Lexer Recovery Parser Vectorized Dispatch Statements.
Local Open Scope Z_scope.

Module AuthM.
Import LexerM ParserM VectorizedM DispatchM StatementsM.

(** ** Text *)
(** [s.split(c)]. *)
Fixpoint split_on (c : Z) (s : text) : list text :=
  match s with
  | [] => [[]]
  | x :: s => if Z.eqb x c then [] :: split_on c s
              else match split_on c s with [] => [[x]] | p :: ps => (x :: p) :: ps end
  end.
Definition strip_prefix (p s : text) : option text := if starts_with p s then Some (drop (length p) s) else None.
(** The text before the last occurrence of [p] ([rfind]). *)
Fixpoint before_last (p s : text) : option text :=
  match s with
  | [] => if starts_with p [] then Some [] else None
  | x :: s' => match before_last p s' with
               | Some b => Some (x :: b)
               | None => if starts_with p s then Some [] else None
               end
  end.
(** [s.find(p)] over bytes. *)
Fixpoint find_sub (p s : list Z) : option nat :=
  if starts_with p s then Some 0%nat else match s with [] => None | _ :: s => S <$> find_sub p s end.
(** [&s[i..]]: a slice that begins inside a character or past the end panics. *)
Fixpoint drop_bytes (i : nat) (s : text) : option text :=
  match i with
  | O => Some s
  | _ => match s with
         | [] => None
         | c :: s => let n := length (utf8_char c) in if Nat.leb n i then drop_bytes (i - n) s else None
         end
  end.

Record StoredCredential := mkCred { salt : list Z; iterations : Z; stored_key : list Z; server_key : list Z }.
Definition PasswordManager := gmap text StoredCredential.
Inductive ScramOutcome := ScramOk (server_signature_b64 : text) | ScramInvalid.
Definition DEFAULT_ITERATIONS : Z := 4096.

Section auth.
Context (pbkdf2 : list Z → list Z → Z → list Z) (hmac : list Z → list Z → list Z) (sha256 : list Z → list Z).
Context (b64_encode : list Z → text) (b64_decode : text → option (list Z)).

(** ** Credentials *)
Definition client_key_of (salted : list Z) : list Z := hmac salted (as_bytes (K "Client Key")).
Definition from_password (password : text) (salt : list Z) (iterations : Z) : StoredCredential :=
  let salted := pbkdf2 (as_bytes password) salt iterations in
  mkCred salt iterations (sha256 (client_key_of salted)) (hmac salted (as_bytes (K "Server Key"))).

Definition create_user_with_salt (username password : text) (salt : list Z) (iterations : Z) (m : PasswordManager) : PasswordManager :=
  <[username := from_password password salt iterations]> m.
Definition create_user (random_salt : list Z) (username password : text) (m : PasswordManager) : PasswordManager :=
  create_user_with_salt username password random_salt DEFAULT_ITERATIONS m.
Definition drop_user (username : text) (m : PasswordManager) : bool * PasswordManager := (bool_decide (is_Some (m !! username)), delete username m).
Definition get_user (username : text) (m : PasswordManager) : option StoredCredential := m !! username.
Definition exists_user (username : text) (m : PasswordManager) : bool := bool_decide (is_Some (m !! username)).

(** ** SCRAM *)
Definition xor_bytes (a b : list Z) : list Z := zip_with Z.lxor a b.

(** The last [p=] part; parts that begin with [c=] or [r=] are read and forgotten. *)
Fixpoint proof_part (parts : list text) (found : option text) : option text :=
  match parts with
  | [] => found
  | part :: parts =>
    match strip_prefix (K "c=") part, strip_prefix (K "r=") part, strip_prefix (K "p=") part with
    | None, None, Some rest => proof_part parts (Some rest)
    | _, _, _ => proof_part parts found
    end
  end.

Definition verify_scram (cred : StoredCredential) (client_first_bare server_first client_final : text) : ScramOutcome :=
  match proof_part (split_on 44 client_final) None with
  | None => ScramInvalid
  | Some proof_b64 =>
    match b64_decode proof_b64 with
    | None => ScramInvalid
    | Some client_proof =>
      if negb (Nat.eqb (length client_proof) 32) then ScramInvalid
      else match before_last (K ",p=") client_final with
           | None => ScramInvalid
           | Some without_proof =>
             let auth_message := as_bytes (client_first_bare ++ K "," ++ server_first ++ K "," ++ without_proof) in
             let client_key := xor_bytes client_proof (hmac (stored_key cred) auth_message) in
             if bool_decide (sha256 client_key = stored_key cred) then ScramOk (b64_encode (hmac (server_key cred) auth_message))
             else ScramInvalid
           end
    end
  end.

(** The message after the second comma; the whole text without one. *)
Fixpoint after_commas (n : nat) (s : text) : option text :=
  match s with
  | [] => None
  | c :: s => if Z.eqb c 44 then match n with O => Some s | S n => after_commas n s end else after_commas n s
  end.
Definition strip_gs2_header (s : text) : text := default s (after_commas 1 s).

Fixpoint first_bare (parts : list text) (username nonce : option text) : option (text * text) :=
  match parts with
  | [] => match username, nonce with Some u, Some n => Some (u, n) | _, _ => None end
  | part :: parts =>
    match strip_prefix (K "n=") part with
    | Some rest => first_bare parts (Some rest) nonce
    | None => match strip_prefix (K "r=") part with
              | Some rest => first_bare parts username (Some rest)
              | None => first_bare parts username nonce
              end
    end
  end.
Definition parse_client_first_bare (bare : text) : option (text * text) := first_bare (split_on 44 bare) None None.

(** ** CREATE USER and DROP USER *)
Definition trim_start (s : text) : text := drop_white s.
Fixpoint until_char (p : Z → bool) (s : text) : text * text :=
  match s with c :: s' => if p c then ([], s) else let '(a, b) := until_char p s' in (c :: a, b) | [] => ([], []) end.
Definition split_username (s : text) : option (text * text) :=
  match trim_start s with
  | [] => None
  | c :: rest =>
    if Z.eqb c 34 then
      let '(n, rest) := until_char (λ c, Z.eqb c 34) rest in
      match rest with [] => None | _ :: rest => Some (n, rest) end
    else
      let '(n, rest) := until_char RecoveryM.is_whitespace (c :: rest) in
      match n with [] => None | _ => Some (n, rest) end
  end.

(** The string up to its closing quote, doubled quotes undone; every byte becomes a character. *)
Fixpoint literal_bytes (bs : list Z) : option text :=
  match bs with
  | [] => None
  | c :: bs =>
    if Z.eqb c QUOTE then
      match bs with
      | d :: bs' => if Z.eqb d QUOTE then (cons QUOTE) <$> literal_bytes bs' else Some []
      | [] => Some []
      end
    else (cons c) <$> literal_bytes bs
  end.
Definition string_literal (s : text) : option text :=
  match as_bytes (trim_start s) with
  | c :: bs => if Z.eqb c QUOTE then literal_bytes bs else None
  | [] => None
  end.

Inductive UserDdlOutcome := UserOk (tag : text) | UserErr (msg : text).
Context (to_lowercase : text → text).

(** [None] of the inner option: the slice panics. *)
Definition handle_create_user (random_salt : list Z) (sql : text) (m : PasswordManager) : option (UserDdlOutcome * PasswordManager) :=
  match split_username (trim_start (drop 11 sql)) with
  | None => Some (UserErr (K "expected username after CREATE USER"), m)
  | Some (username, rest) =>
    match find_sub (K "password") (as_bytes (to_lowercase rest)) with
    | None => Some (UserErr (K "expected PASSWORD '...' in CREATE USER"), m)
    | Some idx =>
      after ← drop_bytes (idx + 8) rest;
      match string_literal (trim_start after) with
      | None => Some (UserErr (K "expected 'password' string literal in CREATE USER"), m)
      | Some password => Some (UserOk (K "CREATE USER"), create_user random_salt username password m)
      end
    end
  end.
Definition handle_drop_user (sql : text) (m : PasswordManager) : UserDdlOutcome * PasswordManager :=
  let after := trim_start (drop 9 sql) in
  let if_exists := starts_with (K "if exists ") (to_lowercase after) in
  match split_username (if if_exists then trim_start (drop 10 after) else after) with
  | None => (UserErr (K "expected username after DROP USER"), m)
  | Some (username, _) =>
    let '(existed, m) := drop_user username m in
    if negb existed && negb if_exists then (UserErr (K "user " ++ [34] ++ username ++ [34] ++ K " does not exist"), m) else (UserOk (K "DROP USER"), m)
  end.
Definition try_handle_user_ddl (random_salt : list Z) (sql : text) (m : PasswordManager) : option (option (UserDdlOutcome * PasswordManager)) :=
  let trimmed := trim sql in
  let lower := to_lowercase trimmed in
  if starts_with (K "create user ") lower then Some (handle_create_user random_salt trimmed m)
  else if starts_with (K "drop user ") lower then Some (Some (handle_drop_user trimmed m))
  else None.

(** ** The handshake *)
Context (Hb64 : ∀ bs, b64_decode (b64_encode bs) = Some bs) (Hcomma : ∀ bs, 44 ∉ b64_encode bs).

Lemma split_on_app a b c : c ∉ b → ∃ ps, split_on c (a ++ c :: b) = ps ++ [b].
Proof.
  intros Hb. assert (split_on c b = [b]) as Eb.
  { induction b as [|x b IH]; [done|]. cbn. rewrite (proj2 (Z.eqb_neq _ _)) by set_solver. rewrite IH by set_solver. done. }
  induction a as [|x a [ps IH]]; cbn; [rewrite Z.eqb_refl, Eb; by exists [[]]|].
  destruct (Z.eqb x c); rewrite IH; [by exists ([] :: ps)|]. destruct ps as [|p ps]; [|by exists ((x :: p) :: ps)].
  (* the text before the comma is one part, so there are at least two *)
  exfalso. clear -IH. assert (∀ a b, (2 <= length (split_on c (a ++ c :: b)))%nat) as H.
  { intros a' b'. induction a' as [|y a' IHa]; cbn; [rewrite Z.eqb_refl; cbn; destruct b'; cbn; [lia|destruct (Z.eqb _ _); cbn; [lia|destruct (split_on c b'); cbn; lia]]|].
    destruct (Z.eqb y c); cbn; [lia|]. destruct (split_on c (a' ++ c :: b')); cbn in *; lia. }
  specialize (H a b). rewrite IH in H. cbn in H. lia.
Qed.
Lemma proof_part_last ps rest found : proof_part (ps ++ [K "p=" ++ rest]) found = Some rest.
Proof.
  revert found. induction ps as [|p ps IH]; intros found; [done|]. cbn [app proof_part].
  destruct (strip_prefix (K "c=") p), (strip_prefix (K "r=") p), (strip_prefix (K "p=") p); apply IH.
Qed.
Lemma before_last_app p a b : p ≠ [] → (∀ x, x ∈ b → head p ≠ Some x) → (∀ x, x ∈ tail p → head p ≠ Some x) → before_last p (a ++ p ++ b) = Some a.
Proof.
  intros Hp Hb Ht. destruct p as [|q p]; [done|]. cbn [head tail] in *.
  assert (∀ s, q ∉ s → before_last (q :: p) s = None) as Hnone.
  { intros s. induction s as [|x s IH]; intros Hs; [done|]. cbn [before_last]. rewrite IH by set_solver. unfold starts_with. cbn [length take]. rewrite bool_decide_eq_false_2; [done|].
    intros [= -> _]. set_solver. }
  induction a as [|x a IH].
  - cbn [app before_last]. rewrite Hnone; [|intros [Hin|Hin]%elem_of_app; [by apply (Ht q)|by apply (Hb q)]].
    unfold starts_with. rewrite bool_decide_eq_true_2; [done|]. rewrite app_comm_cons, take_app_le by done. apply take_ge. done.
  - change ((x :: a) ++ (q :: p) ++ b) with (x :: (a ++ (q :: p) ++ b)). cbn [before_last]. by rewrite IH.
Qed.

Lemma no_comma : 44 ∉ K "p=".
Proof. apply (bool_decide_unpack _). vm_compute. exact I. Qed.
(** What the server answers to a final message that ends with a proof. *)
Lemma verify_scram_final cred bare sfirst wp proof :
  verify_scram cred bare sfirst (wp ++ K ",p=" ++ b64_encode proof) =
  let auth := as_bytes (bare ++ K "," ++ sfirst ++ K "," ++ wp) in
  if Nat.eqb (length proof) 32 && bool_decide (sha256 (xor_bytes proof (hmac (stored_key cred) auth)) = stored_key cred)
  then ScramOk (b64_encode (hmac (server_key cred) auth)) else ScramInvalid.
Proof.
  unfold verify_scram. change (K ",p=" ++ b64_encode proof) with (44 :: K "p=" ++ b64_encode proof) at 1.
  destruct (split_on_app wp (K "p=" ++ b64_encode proof) 44) as [ps ->].
  { intros [H|H]%elem_of_app; [by apply no_comma|by apply (Hcomma proof)]. }
  rewrite proof_part_last, Hb64. destruct (Nat.eqb (length proof) 32); [|done]. cbn [negb andb].
  rewrite before_last_app; [done|done|intros x Hx [= <-]; by apply (Hcomma proof)|]. intros x Hx [= <-]. by apply no_comma.
Qed.

Lemma xor_bytes_cancel a b : length a = length b → xor_bytes (xor_bytes a b) b = a.
Proof.
  revert b. induction a as [|x a IH]; intros [|y b] H; try done. cbn. f_equal; [|apply IH; cbn in H; lia]. by rewrite Z.lxor_assoc, Z.lxor_nilpotent, Z.lxor_0_r.
Qed.

(** ** The form of an accepted message *)
Lemma split_on_sep c a b : split_on c (a ++ c :: b) = split_on c a ++ split_on c b.
Proof using Type.
  induction a as [|x a IH]; cbn; [by rewrite Z.eqb_refl|]. rewrite IH. destruct (Z.eqb x c); [done|].
  by destruct a as [|y a]; [|cbn; destruct (Z.eqb y c); [|destruct (split_on c a)]].
Qed.
Lemma split_on_head c s : ∃ p ps, split_on c s = p :: ps ∧ (c ∉ p) ∧ ((ps = [] ∧ s = p) ∨ ∃ s', s = p ++ c :: s' ∧ ps = split_on c s').
Proof using Type.
  induction s as [|x s (p & ps & E & Hp & H)]; [exists [], []; split_and!; [done|apply not_elem_of_nil|by left]|].
  cbn [split_on]. destruct (Z.eqb_spec x c) as [->|Hx].
  - exists [], (split_on c s). split_and!; [done|apply not_elem_of_nil|]. right. by exists s.
  - rewrite E. exists (x :: p), ps. split_and!; [done|apply not_elem_of_cons; split; [intros ->; by apply Hx|done]|]. destruct H as [[-> ->]|(s' & -> & ->)]; [by left|right; by exists s'].
Qed.
Lemma proof_part_app ps qs found : proof_part (ps ++ qs) found = proof_part qs (proof_part ps found).
Proof using Type.
  revert found. induction ps as [|p ps IH]; intros found; [done|]. cbn [app proof_part].
  destruct (strip_prefix (K "c=") p), (strip_prefix (K "r=") p), (strip_prefix (K "p=") p); apply IH.
Qed.
Lemma before_last_suffix p a s : before_last p (a ++ s) = None → before_last p s = None.
Proof using Type. induction a as [|x a IH]; [done|]. cbn [app before_last]. destruct (before_last p (a ++ s)); [done|]. intros _. by apply IH. Qed.
Lemma before_last_Some q p s a : before_last (q :: p) s = Some a → ∃ b, s = a ++ q :: p ++ b ∧ before_last (q :: p) (p ++ b) = None.
Proof using Type.
  revert a. induction s as [|x s IH]; intros a; cbn [before_last]; [destruct (starts_with (q :: p) []) eqn:E; [apply bool_decide_eq_true_1 in E; cbn in E; by inversion E|done]|].
  destruct (before_last (q :: p) s) as [b|] eqn:E; [intros [= <-]; destruct (IH b eq_refl) as (c & -> & Hc); by exists c|].
  unfold starts_with. case_bool_decide as Hs; [|done]. intros [= <-]. exists (drop (length p) s).
  cbn [length take] in Hs. injection Hs as -> Hs.
  assert (p ++ drop (length p) s = s) as E' by (rewrite <- Hs at 1; apply take_drop). cbn [app]. by rewrite E'.
Qed.
(** No part after the last [,p=] is a proof. *)
Lemma no_proof_part n s found : (length s < n)%nat → before_last (K ",p=") (44 :: s) = None → proof_part (split_on 44 s) found = found.
Proof using Type.
  revert s found. induction n as [|n IH]; intros s found Hn Hs; [lia|].
  destruct (split_on_head 44 s) as (p & ps & -> & _ & H). cbn [proof_part].
  assert (strip_prefix (K "p=") p = None) as ->.
  { unfold strip_prefix, starts_with. case_bool_decide as E; [|done]. exfalso. cbn [before_last] in Hs. destruct (before_last _ s); [done|].
    revert Hs. unfold starts_with. rewrite bool_decide_eq_true_2; [done|]. change (take (length (K ",p=")) (44 :: s)) with (44 :: take 2 s).
    change (K ",p=") with (44 :: K "p="). f_equal. assert (∃ s', s = p ++ s') as [s' ->] by (destruct H as [[_ ->]|(s' & -> & _)]; [exists []; by rewrite app_nil_r|by eexists]).
    rewrite take_app_le; [exact E|]. apply (f_equal length) in E. rewrite length_take in E. change (length (K "p=")) with 2%nat in E. lia. }
  assert (proof_part ps found = found) as Hps.
  { destruct H as [[-> _]|(s' & -> & ->)]; [done|]. apply IH; [rewrite length_app in Hn; cbn in Hn; lia|].
    change (44 :: p ++ 44 :: s') with ((44 :: p) ++ 44 :: s') in Hs. exact (before_last_suffix _ _ _ Hs). }
  by destruct (strip_prefix (K "c=") p), (strip_prefix (K "r=") p).
Qed.
(** The proof that is read stands after the last [,p=], up to the next comma. *)
Lemma proof_read m p64 wp : proof_part (split_on 44 m) None = Some p64 → before_last (K ",p=") m = Some wp →
  ∃ ext, m = wp ++ K ",p=" ++ p64 ++ ext ∧ (44 ∉ p64) ∧ (ext = [] ∨ head ext = Some 44) ∧ before_last (K ",p=") ext = None.
Proof using Type.
  intros Hp (b & -> & Hb)%(before_last_Some 44 (K "p=")). rewrite split_on_sep, proof_part_app in Hp.
  change (K "p=" ++ b) with (112 :: 61 :: b) in Hp. cbn [split_on Z.eqb Pos.eqb] in Hp.
  destruct (split_on_head 44 b) as (p & ps & E & Hc & H). rewrite E in Hp.
  change (112 :: 61 :: p) with (K "p=" ++ p) in Hp. apply before_last_suffix in Hb.
  assert (proof_part ((K "p=" ++ p) :: ps) (proof_part (split_on 44 wp) None) = proof_part ps (Some p)) as Ep by done.
  rewrite Ep in Hp. destruct H as [[-> ->]|(s' & -> & ->)].
  - injection Hp as <-. exists []. rewrite app_nil_r. split_and!; [done|done|by left|done].
  - apply before_last_suffix in Hb. rewrite (no_proof_part (S (length s'))) in Hp by (done || lia). injection Hp as <-.
    exists (44 :: s'). split_and!; [done|done|by right|done].
Qed.

(** C15: SCRAM admits the password and asks for the client key: a client that derives its key from the password of the user and xors it with the
    signature of the exchanged messages is accepted and gets the server's signature of them.  Conversely, every final message that is accepted has
    the form [wp,p=p64] (further attributes, none of them a proof, may follow after a comma), where the text [p64] of the message itself decodes to
    a proof of 32 bytes that, xored with the signature of the messages as the server saw them ([wp] being its part of them), hashes to the stored
    key; and the answer is the server's signature of the same messages.  Assumed of base64: encoding is inverted by decoding and has no comma; of
    HMAC: 32 bytes. *)
Theorem scram_correct (Hhmac : ∀ k m, length (hmac k m) = 32%nat) (password : text) (salt : list Z) (iterations : Z) (bare sfirst : text) :
  let cred := from_password password salt iterations in
  let auth wp := as_bytes (bare ++ K "," ++ sfirst ++ K "," ++ wp) in
  let key := client_key_of (pbkdf2 (as_bytes password) salt iterations) in
  (∀ wp, verify_scram cred bare sfirst (wp ++ K ",p=" ++ b64_encode (xor_bytes key (hmac (stored_key cred) (auth wp)))) =
         ScramOk (b64_encode (hmac (server_key cred) (auth wp)))) ∧
  (∀ client_final sig, verify_scram cred bare sfirst client_final = ScramOk sig →
     ∃ wp p64 ext proof, client_final = wp ++ K ",p=" ++ p64 ++ ext ∧ (44 ∉ p64) ∧ (ext = [] ∨ head ext = Some 44) ∧ before_last (K ",p=") ext = None ∧
       b64_decode p64 = Some proof ∧ length proof = 32%nat ∧
       sha256 (xor_bytes proof (hmac (stored_key cred) (auth wp))) = sha256 key ∧ sig = b64_encode (hmac (server_key cred) (auth wp))).
Proof.
  intros cred auth key. split.
  - intros wp. assert (length key = 32%nat) as Hk by apply Hhmac. rewrite verify_scram_final. fold (auth wp). cbn zeta. unfold xor_bytes at 1. rewrite length_zip_with, Hk, Hhmac. cbn [Nat.eqb Nat.min andb].
    rewrite xor_bytes_cancel by (by rewrite Hk, Hhmac). by rewrite bool_decide_eq_true_2.
  - intros client_final sig. unfold verify_scram. destruct (proof_part _ None) as [p64|] eqn:Ep; [|done]. destruct (b64_decode p64) as [proof|] eqn:Ed; [|done].
    destruct (Nat.eqb_spec (length proof) 32) as [El|]; [|done]. cbn [negb]. destruct (before_last _ client_final) as [wp|] eqn:Eb; [|done]. fold (auth wp).
    case_bool_decide as Hs; [|done]. intros [= <-]. destruct (proof_read _ _ _ Ep Eb) as (ext & ? & ? & ? & ?). by exists wp, p64, ext, proof.
Qed.
End auth.

(** A toy keyed hash of 32 bytes, and an encoding that steps over the comma. *)
Definition toy_hmac (k m : list Z) : list Z := take 32 (k ++ m ++ replicate 32 0).
Definition toy_encode (bs : list Z) : text := (λ b, if Z.ltb b 44 then b else b + 1) <$> bs.
Definition toy_decode (s : text) : option (list Z) := Some ((λ c, if Z.ltb c 44 then c else c - 1) <$> s).
Lemma scram_correct_witness :
  let cred := from_password (λ p s i, p ++ s) toy_hmac (λ x, x) (K "secret") [1; 2] 10 in
  let key := client_key_of toy_hmac (as_bytes (K "secret") ++ [1; 2]) in
  verify_scram toy_hmac (λ x, x) toy_encode toy_decode cred (K "n=u,r=x") (K "r=xy,s=q,i=10")
    (K "c=biws,r=xy" ++ K ",p=" ++ toy_encode (xor_bytes key (toy_hmac (stored_key cred) (as_bytes (K "n=u,r=x,r=xy,s=q,i=10,c=biws,r=xy"))))) =
  ScramOk (toy_encode (toy_hmac (server_key cred) (as_bytes (K "n=u,r=x,r=xy,s=q,i=10,c=biws,r=xy")))).
Proof.
  refine (proj1 (scram_correct (λ p s i, p ++ s) toy_hmac (λ x, x) toy_encode toy_decode (λ s, s) _ _ _ (K "secret") [1; 2] 10 (K "n=u,r=x") (K "r=xy,s=q,i=10")) (K "c=biws,r=xy")).
  - intros bs. unfold toy_decode, toy_encode. rewrite <- list_fmap_compose. f_equal. rewrite <- (list_fmap_id bs) at 2. apply list_fmap_ext. intros i x _. cbn.
    destruct (Z.ltb_spec x 44) as [H|H]; [by rewrite (proj2 (Z.ltb_lt _ _))|]. rewrite (proj2 (Z.ltb_ge _ _)) by lia. lia.
  - intros bs Hin. apply list_elem_of_fmap in Hin as (x & E & _). destruct (Z.ltb_spec x 44); lia.
  - intros k m. unfold toy_hmac. rewrite length_take, !length_app, length_replicate. lia.
Defined.
End AuthM.
