(* ===== verification/Pgwire.v ===== *)
(** * The PostgreSQL wire protocol (src/src/server/pgwire.rs, src/src/server/session.rs)

    One connection: the bytes the client has sent, the messages sent back, the session, the
    prepared statements and portals, and the engine and the password table it shares with
    the other connections.  The engine is an interface; writes to the socket succeed and a
    read past the bytes sent is an end of file.  Random nonces, salts and keys and the
    cryptography are parameters. *)

From Stdlib Require Import ZArith Lia Ascii String.
From stdpp Require Import prelude list numbers gmap.
From S2P Require Import Prelude Result Lexer Recovery Parser Vectorized Dispatch Statements Auth.
Local Open Scope Z_scope.

Module PgwireM.
Import LexerM ParserM VectorizedM DispatchM StatementsM AuthM.
Import ResultM (ResultColumn, mkCol, QueryResult, mkResult, values).

(** ** UTF-8 *)
Definition is_cont (b : Z) : bool := in_range 0x80 0xBF b.
Definition second_of_3 (b0 b1 : Z) : bool :=
  if Z.eqb b0 0xE0 then in_range 0xA0 0xBF b1 else if Z.eqb b0 0xED then in_range 0x80 0x9F b1 else is_cont b1.
Definition second_of_4 (b0 b1 : Z) : bool :=
  if Z.eqb b0 0xF0 then in_range 0x90 0xBF b1 else if Z.eqb b0 0xF4 then in_range 0x80 0x8F b1 else is_cont b1.
(** The first character, or [None] for a broken one, and the number of bytes it takes. *)
Definition utf8_next (b0 : Z) (r : list Z) : option Z * nat :=
  if Z.ltb b0 0x80 then (Some b0, 1%nat)
  else if in_range 0xC2 0xDF b0 then
    match r with b1 :: _ => if is_cont b1 then (Some ((b0 - 0xC0) * 64 + (b1 - 0x80)), 2%nat) else (None, 1%nat) | [] => (None, 1%nat) end
  else if in_range 0xE0 0xEF b0 then
    match r with
    | b1 :: r => if second_of_3 b0 b1 then
        match r with
        | b2 :: _ => if is_cont b2 then (Some ((b0 - 0xE0) * 4096 + (b1 - 0x80) * 64 + (b2 - 0x80)), 3%nat) else (None, 2%nat)
        | [] => (None, 2%nat)
        end else (None, 1%nat)
    | [] => (None, 1%nat)
    end
  else if in_range 0xF0 0xF4 b0 then
    match r with
    | b1 :: r => if second_of_4 b0 b1 then
        match r with
        | b2 :: r => if is_cont b2 then
            match r with
            | b3 :: _ => if is_cont b3 then (Some ((b0 - 0xF0) * 262144 + (b1 - 0x80) * 4096 + (b2 - 0x80) * 64 + (b3 - 0x80)), 4%nat) else (None, 3%nat)
            | [] => (None, 3%nat)
            end else (None, 2%nat)
        | [] => (None, 2%nat)
        end else (None, 1%nat)
    | [] => (None, 1%nat)
    end
  else (None, 1%nat).
Fixpoint utf8_chars (fuel : nat) (bs : list Z) : list (option Z) :=
  match fuel, bs with
  | S fuel, b :: r => let '(c, n) := utf8_next b r in c :: utf8_chars fuel (drop n (b :: r))
  | _, _ => []
  end.
Definition from_utf8 (bs : list Z) : option text := mapM id (utf8_chars (length bs) bs).
Definition from_utf8_lossy (bs : list Z) : text := default 0xFFFD <$> utf8_chars (length bs) bs.

(** ** State *)
Inductive TxnStatus := Idle | InTransaction | FailedTransaction.
Definition tag (s : TxnStatus) : Z := match s with Idle => 73 | InTransaction => 84 | FailedTransaction => 69 end.
Record Session := mkSession {
  s_txn : TxnStatus; session_context : gmap text text; application_name : option text; user : option text; database : option text
}.
Definition session_new : Session := mkSession Idle ∅ None None None.
Definition reset_txn (s : Session) : Session := mkSession Idle (session_context s) (application_name s) (user s) (database s).
(** The names of the context are kept in lower case. *)
Definition set_context (to_lowercase : text → text) (k v : text) (s : Session) : Session :=
  mkSession (s_txn s) (<[to_lowercase k := v]> (session_context s)) (application_name s) (user s) (database s).
Definition get_context (to_lowercase : text → text) (k : text) (s : Session) : option text := session_context s !! to_lowercase k.

Record PreparedStatement := mkPS { ps_sql : text; param_oids : list Z }.
Record Portal := mkPortal { stmt_name : text; params : list text; result_formats : list Z; cached_result : option (QueryResult * text); cached_offset : nat }.
Definition portal_new (stmt : text) (params : list text) (formats : list Z) : Portal := mkPortal stmt params formats None 0.

(** What the connection asks of the engine: a SELECT under the read lock, which cannot change it, and any statement under the write lock. *)
Class Engine (E : Type) := {
  try_readonly_select : text → E → option QueryResult;
  execute_sql : text → E → result text QueryResult * E
}.

(** What is written to the socket: a single byte or a message. *)
Inductive Out := Byte (b : Z) | Msg (t : Z) (body : list Z).
#[global] Instance Out_eq_dec : EqDecision Out.
Proof. solve_decision. Defined.
Inductive IoFault := Panicked | UnexpectedEof | InvalidData | PermissionDenied | OutOfFuel.

Record PgConn (E : Type) := mkConn {
  input : list Z; output : list Out; session : Session; statements : gmap text PreparedStatement; portals : gmap text Portal;
  passwords : PasswordManager; engine : E; drawn : nat
}.
#[global] Arguments mkConn {E} _ _ _ _ _ _ _ _.
#[global] Arguments input {E} _.
#[global] Arguments output {E} _.
#[global] Arguments session {E} _.
#[global] Arguments statements {E} _.
#[global] Arguments portals {E} _.
#[global] Arguments passwords {E} _.
#[global] Arguments engine {E} _.
#[global] Arguments drawn {E} _.

Definition SSL_REQUEST_MAGIC : Z := 80877103.
Definition GSSAPI_REQUEST_MAGIC : Z := 80877104.
Definition CANCEL_REQUEST_MAGIC : Z := 80877102.

(** Big-endian integers. *)
Definition be_bytes (n : nat) (z : Z) : list Z := reverse (le_bytes n z).
Definition be_decode (bs : list Z) : Z := le_decode (reverse bs).
Definition be_i32 (bs : list Z) : Z := as_signed 32 (be_decode bs).

(** ** Reading the fields of a message *)
Abbreviation rd A := (result IoFault A).
(** [read_cstring]: the text up to the next zero byte, and what follows it. *)
Fixpoint until_nul (bs : list Z) : option (list Z * list Z) :=
  match bs with
  | [] => None
  | b :: bs => if Z.eqb b 0 then Some ([], bs) else '(s, rest) ← until_nul bs; Some (b :: s, rest)
  end.
Definition read_cstring (buf : list Z) : rd (text * list Z) :=
  match until_nul buf with
  | None => Err InvalidData
  | Some (s, rest) => match from_utf8 s with Some t => Ok (t, rest) | None => Err InvalidData end
  end.
Definition take_exact (n : nat) (buf : list Z) : rd (list Z * list Z) :=
  if Nat.ltb (length buf) n then Err InvalidData else Ok (take n buf, drop n buf).
Definition read_u16 (buf : list Z) : rd (Z * list Z) := '(b, rest) ← take_exact 2 buf; Ok (be_decode b, rest).
Fixpoint read_many {A} (n : nat) (f : list Z → rd (A * list Z)) (buf : list Z) : rd (list A * list Z) :=
  match n with
  | O => Ok ([], buf)
  | S n => '(x, buf) ← f buf; '(xs, buf) ← read_many n f buf; Ok (x :: xs, buf)
  end.
Definition read_u32 (buf : list Z) : rd (Z * list Z) := '(b, rest) ← take_exact 4 buf; Ok (be_decode b, rest).
Definition read_i16 (buf : list Z) : rd (Z * list Z) := '(b, rest) ← take_exact 2 buf; Ok (as_signed 16 (be_decode b), rest).

Definition hex_digit (n : Z) : Z := if Z.ltb n 10 then 48 + n else 87 + n.
Definition hex_encode (bs : list Z) : text := concat ((λ b, [hex_digit (b / 16); hex_digit (b mod 16)]) <$> bs).

(** The format of parameter [i]. *)
Definition param_format (pfmts : list Z) (i : nat) : Z :=
  match pfmts with [f] => f | _ => default 0 (pfmts !! i) end.
Definition param_text (fmt : Z) (bs : list Z) : text := if Z.eqb fmt 0 then from_utf8_lossy bs else K "\x" ++ hex_encode bs.
Fixpoint read_params (pfmts : list Z) (i n : nat) (buf : list Z) : rd (list text * list Z) :=
  match n with
  | O => Ok ([], buf)
  | S n =>
    '(b, buf) ← take_exact 4 buf;
    let plen := be_i32 b in
    if Z.ltb plen 0 then '(ps, buf) ← read_params pfmts (S i) n buf; Ok (K "NULL" :: ps, buf)
    else
      '(bytes, buf) ← take_exact (Z.to_nat plen) buf;
      '(ps, buf) ← read_params pfmts (S i) n buf;
      Ok (param_text (param_format pfmts i) bytes :: ps, buf)
  end.
Definition read_parse (buf : list Z) : rd (text * PreparedStatement) :=
  '(n, buf) ← read_cstring buf;
  '(sql, buf) ← read_cstring buf;
  '(k, buf) ← read_u16 buf;
  '(oids, _) ← read_many (Z.to_nat k) read_u32 buf;
  Ok (n, mkPS sql oids).
Definition read_bind (buf : list Z) : rd (text * (text * list text * list Z)) :=
  '(portal, buf) ← read_cstring buf;
  '(stmt, buf) ← read_cstring buf;
  '(n_fmt, buf) ← read_u16 buf;
  '(pfmts, buf) ← read_many (Z.to_nat n_fmt) read_i16 buf;
  '(n_params, buf) ← read_u16 buf;
  '(ps, buf) ← read_params pfmts 0 (Z.to_nat n_params) buf;
  '(n_rfmt, buf) ← read_u16 buf;
  '(rfmts, _) ← read_many (Z.to_nat n_rfmt) read_i16 buf;
  Ok (portal, (stmt, ps, rfmts)).

(** ** Statements in a query message *)
(** Whether the bytes after [GO] end the line. *)
Fixpoint blanks (bs : list Z) : nat := match bs with b :: bs => if Z.eqb b 32 || Z.eqb b 9 then S (blanks bs) else 0%nat | [] => 0%nat end.
Definition ends_line (bs : list Z) : bool := match drop (blanks bs) bs with [] => true | b :: _ => Z.eqb b 10 || Z.eqb b 13 end.
Definition is_go (line_start : bool) (c : Z) (rest : list Z) : bool :=
  line_start && (Z.eqb c 71 || Z.eqb c 103) &&
  match rest with d :: r => (Z.eqb d 79 || Z.eqb d 111) && ends_line r | [] => false end.
Definition flush_stmt (cur : text) : list text := if bool_decide (trim cur = []) then [] else [cur].
(** Every byte becomes a character; a piece that is blank is dropped at a separator, its blanks stay. *)
Fixpoint split_batch (skip : nat) (line_start in_str : bool) (cur : text) (bs : list Z) : list text :=
  match bs with
  | [] => flush_stmt cur
  | c :: bs =>
    let after := Z.eqb c 10 || Z.eqb c 13 in
    match skip with
    | S skip => split_batch skip after in_str cur bs
    | O =>
      if in_str then
        if Z.eqb c QUOTE then
          match bs with
          | d :: _ => if Z.eqb d QUOTE then split_batch 1 false true (cur ++ [c; QUOTE]) bs else split_batch 0 false false (cur ++ [c]) bs
          | [] => split_batch 0 false false (cur ++ [c]) bs
          end
        else split_batch 0 after true (cur ++ [c]) bs
      else if Z.eqb c QUOTE then split_batch 0 false true (cur ++ [c]) bs
      else if is_go line_start c bs then
        flush_stmt cur ++ split_batch (S (blanks (drop 1 bs))) false false (if bool_decide (trim cur = []) then cur else []) bs
      else if Z.eqb c 59 then flush_stmt cur ++ split_batch 0 false false (if bool_decide (trim cur = []) then cur else []) bs
      else split_batch 0 after false (cur ++ [c]) bs
    end
  end.
Definition split_sql_batch (sql : text) : list text := split_batch 0 true false [] (as_bytes sql).

(** [$n] replaced by the text of the parameter; every other byte becomes a character. *)
Definition param_at (params : list text) (n : Z) : text :=
  if Z.leb 1 n && Z.leb n (Z.of_nat (length params)) then default [] (params !! Z.to_nat (n - 1)) else K "NULL".
Fixpoint subst (params : list text) (number : option Z) (bs : list Z) : text :=
  match bs with
  | [] => match number with Some n => param_at params n | None => [] end
  | c :: bs =>
    let start := if Z.eqb c 36 && match bs with d :: _ => is_digit d | [] => false end then subst params (Some 0) bs else c :: subst params None bs in
    match number with
    | Some n => if is_digit c then subst params (Some (wrap_u 64 (n * 10 + (c - 48)))) bs else param_at params n ++ start
    | None => start
    end
  end.
Definition substitute_params (sql : text) (params : list text) : text := subst params None (as_bytes sql).

(** ** The connection *)
Fixpoint for_io {S A} (l : list A) (f : A → stM S IoFault ()) : stM S IoFault () :=
  match l with [] => mret tt | x :: l => _ ← f x; for_io l f end.

Section conn.
Context {E : Type} `{!Engine E}.
Context (to_lowercase : text → text) (fmt_f64 : Z → text).
Context (pbkdf2 : list Z → list Z → Z → list Z) (hmac : list Z → list Z → list Z) (sha256 : list Z → list Z).
Context (b64_encode : list Z → text) (b64_decode : text → option (list Z)).
(** The random values of this connection. *)
Context (random_salt : nat → list Z) (server_nonce : text) (backend_pid backend_key : Z).
Abbreviation Conn := (PgConn E).
Abbreviation io := (stM Conn IoFault).

Definition set_input (bs : list Z) (c : Conn) : Conn := mkConn bs (output c) (session c) (statements c) (portals c) (passwords c) (engine c) (drawn c).
Definition put (o : Out) (c : Conn) : Conn := mkConn (input c) (output c ++ [o]) (session c) (statements c) (portals c) (passwords c) (engine c) (drawn c).
Definition set_session (x : Session) (c : Conn) : Conn := mkConn (input c) (output c) x (statements c) (portals c) (passwords c) (engine c) (drawn c).
Definition set_statements (x : gmap text PreparedStatement) (c : Conn) : Conn := mkConn (input c) (output c) (session c) x (portals c) (passwords c) (engine c) (drawn c).
Definition set_portals (x : gmap text Portal) (c : Conn) : Conn := mkConn (input c) (output c) (session c) (statements c) x (passwords c) (engine c) (drawn c).
Definition set_passwords (x : PasswordManager) (c : Conn) : Conn := mkConn (input c) (output c) (session c) (statements c) (portals c) x (engine c) (S (drawn c)).
Definition set_engine (x : E) (c : Conn) : Conn := mkConn (input c) (output c) (session c) (statements c) (portals c) (passwords c) x (drawn c).
Definition set_txn_status (x : TxnStatus) (c : Conn) : Conn :=
  let s := session c in set_session (mkSession x (session_context s) (application_name s) (user s) (database s)) c.

Definition lift_rd {A} (r : rd A) : io A := λ c, (r, c).

(** *** Reading and writing *)
Definition send_byte (t : Z) (body : list Z) : io () := st_modify (put (Msg t body)).
(** The length is a [u32] that counts itself. *)
Definition wire_of (o : Out) : list Z := match o with Byte b => [b] | Msg t body => t :: be_bytes 4 (wrap_u 32 (Z.of_nat (length body) + 4)) ++ body end.

Definition read_exact (n : nat) : io (list Z) := λ c,
  if Nat.ltb (length (input c)) n then (Err UnexpectedEof, set_input [] c) else (Ok (take n (input c)), set_input (drop n (input c)) c).
(** [vec![0u8; n]] of more than [isize::MAX] bytes panics. *)
Definition read_body (n : Z) : io (list Z) := if Z.leb (2 ^ 63) n then st_fail Panicked else read_exact (Z.to_nat n).
Definition read_byte : io Z := b ← read_exact 1; mret (default 0 (head b)).
Definition read_i32_be : io Z := b ← read_exact 4; mret (be_i32 b).
Fixpoint drop_nuls (rev : list Z) : list Z := match rev with b :: r => if Z.eqb b 0 then drop_nuls r else rev | [] => [] end.
Definition read_string (n : Z) : io text :=
  b ← read_body n;
  match from_utf8 (reverse (drop_nuls (reverse b))) with Some s => mret s | None => st_fail InvalidData end.

Definition cstring (s : text) : list Z := as_bytes s ++ [0].
Definition send_parameter_status (k v : text) : io () := send_byte 83 (cstring k ++ cstring v).
Definition send_command_complete (tag : text) : io () := send_byte 67 (cstring tag).
Definition send_ready_for_query : io () := λ c, send_byte 90 [tag (s_txn (session c))] c.
Definition error_body (code msg : text) : list Z :=
  [83] ++ cstring (K "ERROR") ++ [86] ++ cstring (K "ERROR") ++ [67] ++ cstring code ++ [77] ++ cstring msg ++ [0].
Definition send_error (code msg : text) : io () := send_byte 69 (error_body code msg).

(** *** Results *)
Definition type_of (c : ResultColumn) : Z * Z :=
  if negb (Z.eqb (ResultM.type_oid c) 0) then
    (ResultM.type_oid c, if Z.eqb (ResultM.type_oid c) 25 then -1 else if Z.eqb (ResultM.type_oid c) 16 then 1 else 8)
  else if bool_decide (is_Some (ResultM.string_values c)) then (25, -1) else (20, 8).
Definition describe_column (c : ResultColumn) : list Z :=
  let '(oid, size) := type_of c in
  cstring (ResultM.name c) ++ be_bytes 4 0 ++ be_bytes 2 0 ++ be_bytes 4 oid ++ be_bytes 2 (wrap_u 16 size) ++ be_bytes 4 (wrap_u 32 (-1)) ++ be_bytes 2 0.
Definition send_row_description (r : QueryResult) : io () :=
  match ResultM.columns r with
  | [] => send_byte 110 []
  | cs => send_byte 84 (be_bytes 2 (wrap_u 16 (Z.of_nat (length cs))) ++ concat (describe_column <$> cs))
  end.

(** [f.is_finite() && f.abs() < 1e15], on the bits of [f]. *)
Definition small_float (v : Z) : bool := Z.ltb (v mod 2 ^ 63) 0x430C6BF526340000.
Definition cell_text (c : ResultColumn) (row : nat) : list Z :=
  match ResultM.string_values c with
  | Some sv => default [] (sv !! row)
  | None =>
    let v := default 0 (values c !! row) in
    as_bytes (if Z.ltb (2 ^ 60) v && small_float v then fmt_f64 v else DispatchM.fmt_u64 v)
  end.
Definition cell_null (c : ResultColumn) (row : nat) : bool := default false (m ← ResultM.null_mask c; m !! row).
Definition data_cell (row : nat) (c : ResultColumn) : list Z :=
  if cell_null c row then be_bytes 4 (wrap_u 32 (-1))
  else let s := cell_text c row in be_bytes 4 (wrap_u 32 (Z.of_nat (length s))) ++ s.
Definition data_row (r : QueryResult) (row : nat) : list Z :=
  be_bytes 2 (wrap_u 16 (Z.of_nat (length (ResultM.columns r)))) ++ concat (data_cell row <$> ResultM.columns r).
Definition send_data_rows (r : QueryResult) : io () := for_io (seq 0 (ResultM.row_count r)) (λ row, send_byte 68 (data_row r row)).

Definition command_tag (r : QueryResult) (sql : text) : text :=
  let lower := to_lowercase (trim_start sql) in
  let n := DispatchM.fmt_u64 (Z.of_nat (ResultM.row_count r)) in
  if starts_with (K "select") lower || starts_with (K "with") lower then K "SELECT " ++ n
  else if starts_with (K "insert") lower then K "INSERT 0 " ++ n
  else if starts_with (K "update") lower then K "UPDATE " ++ n
  else if starts_with (K "delete") lower then K "DELETE " ++ n
  else if starts_with (K "create") lower then K "CREATE"
  else if starts_with (K "drop") lower then K "DROP"
  else if starts_with (K "begin") lower || starts_with (K "start transaction") lower then K "BEGIN"
  else if starts_with (K "commit") lower then K "COMMIT"
  else if starts_with (K "rollback") lower then K "ROLLBACK"
  else K "OK".

(** Rows [start, end); a column shorter than that panics. *)
Definition slice_list {A} (start end_ : nat) (l : list A) : option (list A) :=
  if Nat.leb start end_ && Nat.leb end_ (length l) then Some (take (end_ - start) (drop start l)) else None.
Definition slice_opt {A} (start end_ : nat) (o : option (list A)) : option (option (list A)) :=
  match o with None => Some None | Some l => Some <$> slice_list start end_ l end.
Definition slice_column (start end_ : nat) (c : ResultColumn) : option ResultColumn :=
  v ← slice_list start end_ (values c); sv ← slice_opt start end_ (ResultM.string_values c); m ← slice_opt start end_ (ResultM.null_mask c);
  Some (mkCol (ResultM.name c) v sv (ResultM.type_oid c) m).
Definition slice_result (r : QueryResult) (start end_ : nat) : option QueryResult :=
  let start := Nat.min start (ResultM.row_count r) in
  let end_ := Nat.min end_ (ResultM.row_count r) in
  cs ← mapM (slice_column start end_) (ResultM.columns r); Some (mkResult cs (end_ - start)).

(** *** Running SQL *)
(** The read lock first, the write lock if that fails. *)
Definition run_sql (sql : text) : io (result text QueryResult) := λ c,
  match try_readonly_select sql (engine c) with
  | Some r => (Ok (Ok r), c)
  | None => let '(r, e) := execute_sql sql (engine c) in (Ok r, set_engine e c)
  end.
(** CREATE USER and DROP USER change the password table. *)
Definition user_ddl (sql : text) : io (option UserDdlOutcome) := λ c,
  match try_handle_user_ddl pbkdf2 hmac sha256 to_lowercase (random_salt (drawn c)) sql (passwords c) with
  | None => (Ok None, c)
  | Some None => (Err Panicked, c)
  | Some (Some (o, m)) => (Ok (Some o), set_passwords m c)
  end.
Definition fail_txn (was_txn : bool) : io () := if was_txn then st_modify (set_txn_status FailedTransaction) else mret tt.

(** Whether the batch goes on after the statement. *)
Definition simple_statement (was_txn : bool) (stmt : text) : io bool :=
  let trimmed := trim stmt in
  let lower := to_lowercase trimmed in
  if bool_decide (trimmed = []) then mret true
  else if starts_with (K "begin") lower || starts_with (K "start transaction") lower then
    _ ← st_modify (set_txn_status InTransaction); _ ← send_command_complete (K "BEGIN"); mret true
  else if starts_with (K "commit") lower then
    _ ← st_modify (set_txn_status Idle); _ ← send_command_complete (K "COMMIT"); mret true
  else if starts_with (K "rollback") lower then
    _ ← st_modify (set_txn_status Idle); _ ← send_command_complete (K "ROLLBACK"); mret true
  else
    u ← user_ddl trimmed;
    match u with
    | Some (UserOk tag) => _ ← send_command_complete tag; mret true
    | Some (UserErr msg) => _ ← send_error (K "42000") msg; _ ← fail_txn was_txn; mret false
    | None =>
      r ← run_sql trimmed;
      match r with
      | Ok r => _ ← send_row_description r; _ ← send_data_rows r; _ ← send_command_complete (command_tag r trimmed); mret true
      | Err msg => _ ← send_error (K "42000") msg; _ ← fail_txn was_txn; mret false
      end
    end.
Fixpoint simple_batch (was_txn : bool) (stmts : list text) : io () :=
  match stmts with
  | [] => mret tt
  | s :: stmts => go_on ← simple_statement was_txn s; match go_on with true => simple_batch was_txn stmts | false => mret tt end
  end.
Definition handle_simple_query (sql : text) : io () := λ c,
  (_ ← simple_batch (match s_txn (session c) with Idle => false | _ => true end) (split_sql_batch sql); send_ready_for_query) c.

(** *** Prepared statements and portals *)
Definition or_panicked {A} (o : option A) : io A := match o with Some a => mret a | None => st_fail Panicked end.

Definition handle_parse (buf : list Z) : io () :=
  '(n, ps) ← lift_rd (read_parse buf);
  _ ← st_modify (λ c, set_statements (<[n := ps]> (statements c)) c);
  send_byte 49 [].
Definition handle_bind (buf : list Z) : io () :=
  '(portal, (stmt, ps, rfmts)) ← lift_rd (read_bind buf);
  c ← st_get;
  match statements c !! stmt with
  | None => send_error (K "26000") (K "prepared statement " ++ [34] ++ stmt ++ [34] ++ K " does not exist")
  | Some _ => _ ← st_modify (λ c, set_portals (<[portal := portal_new stmt ps rfmts]> (portals c)) c); send_byte 50 []
  end.
Definition not_found (what n : text) : text := what ++ K " " ++ [34] ++ n ++ [34] ++ K " not found".

(** Describe never runs the query. *)
Definition handle_describe (buf : list Z) : io () :=
  match buf with
  | [] => st_fail InvalidData
  | kind :: buf =>
    '(n, _) ← lift_rd (read_cstring buf);
    c ← st_get;
    if Z.eqb kind 83 then
      match statements c !! n with
      | None => send_error (K "26000") (not_found (K "statement") n)
      | Some st => _ ← send_byte 116 (be_bytes 2 (wrap_u 16 (Z.of_nat (length (param_oids st)))) ++ concat (be_bytes 4 <$> param_oids st)); send_byte 110 []
      end
    else if Z.eqb kind 80 then
      match portals c !! n with
      | None => send_error (K "34000") (not_found (K "portal") n)
      | Some p => match statements c !! stmt_name p with
                  | None => send_error (K "26000") (not_found (K "statement") (stmt_name p))
                  | Some _ => send_byte 110 []
                  end
      end
    else send_error (K "08P01") (K "unknown describe kind")
  end.

Definition set_cache (n : text) (cache : option (QueryResult * text)) (offset : nat) : io () := st_modify (λ c,
  match portals c !! n with
  | Some p => set_portals (<[n := mkPortal (stmt_name p) (params p) (result_formats p) cache offset]> (portals c)) c
  | None => c
  end).

(** The next batch of a result that is kept. *)
Definition drain (n : text) (max_rows : Z) (r : QueryResult) (tag : text) (offset : nat) : io () :=
  let limit := if Z.ltb 0 max_rows then Z.to_nat max_rows else ResultM.row_count r in
  let end_ := Nat.min (offset + limit) (ResultM.row_count r) in
  batch ← or_panicked (slice_result r offset end_);
  _ ← send_data_rows batch;
  if Nat.leb (ResultM.row_count r) end_ then _ ← send_command_complete tag; set_cache n None 0
  else _ ← send_byte 115 []; set_cache n (Some (r, tag)) end_.

Definition first_batch (n : text) (max_rows : Z) (r : QueryResult) (tag : text) : io () :=
  if Z.ltb 0 max_rows && Nat.ltb (Z.to_nat max_rows) (ResultM.row_count r) then
    let end_ := Nat.min (Z.to_nat max_rows) (ResultM.row_count r) in
    batch ← or_panicked (slice_result r 0 end_);
    _ ← send_data_rows batch;
    _ ← send_byte 115 [];
    set_cache n (Some (r, tag)) end_
  else _ ← send_data_rows r; send_command_complete tag.

Definition read_execute (buf : list Z) : rd (text * Z) :=
  '(portal, buf) ← read_cstring buf; '(b, _) ← take_exact 4 buf; Ok (portal, be_i32 b).

Definition run_portal (n : text) (max_rows : Z) (p : Portal) : io () :=
  c ← st_get;
  match statements c !! stmt_name p with
  | None => send_error (K "26000") (not_found (K "statement") (stmt_name p))
  | Some st =>
    let sql := substitute_params (ps_sql st) (params p) in
    u ← user_ddl sql;
    match u with
    | Some (UserOk tag) => send_command_complete tag
    | Some (UserErr msg) => send_error (K "42000") msg
    | None => r ← run_sql sql;
              match r with
              | Ok r => first_batch n max_rows r (command_tag r sql)
              | Err msg => send_error (K "42000") msg
              end
    end
  end.
Definition execute_portal (n : text) (max_rows : Z) : io () :=
  c ← st_get;
  match portals c !! n with
  | None => send_error (K "34000") (not_found (K "portal") n)
  | Some p => match cached_result p with
              | Some (r, tag) => drain n max_rows r tag (cached_offset p)
              | None => run_portal n max_rows p
              end
  end.
Definition handle_execute (buf : list Z) : io () := '(n, max_rows) ← lift_rd (read_execute buf); execute_portal n max_rows.

Definition handle_close (buf : list Z) : io () := st_modify (λ c,
  match buf with
  | [] => c
  | kind :: buf =>
    match read_cstring buf with
    | Ok (n, _) => if Z.eqb kind 83 then set_statements (delete n (statements c)) c
                   else if Z.eqb kind 80 then set_portals (delete n (portals c)) c else c
    | Err _ => c
    end
  end).

(** *** Startup *)
Definition starts_nul (buf : list Z) : bool := match buf with [] => true | b :: _ => Z.eqb b 0 end.
(** Each pair takes at least one byte. *)
Fixpoint cstring_pairs (fuel : nat) (buf : list Z) : list (text * text) :=
  match fuel with
  | O => []
  | S fuel =>
    if starts_nul buf then []
    else match read_cstring buf with
         | Err _ => []
         | Ok (k, buf) =>
           if starts_nul buf then [(k, [])]
           else match read_cstring buf with Err _ => [] | Ok (v, buf) => (k, v) :: cstring_pairs fuel buf end
         end
  end.
Definition parse_cstring_pairs (buf : list Z) : list (text * text) := cstring_pairs (length buf) buf.
Definition startup_param (s : Session) (kv : text * text) : Session :=
  let '(k, v) := kv in
  if bool_decide (k = K "user") then mkSession (s_txn s) (session_context s) (application_name s) (Some v) (database s)
  else if bool_decide (k = K "database") then mkSession (s_txn s) (session_context s) (application_name s) (user s) (Some v)
  else if bool_decide (k = K "application_name") then mkSession (s_txn s) (session_context s) (Some v) (user s) (database s)
  else s.
Definition parse_startup_v3_params (buf : list Z) (s : Session) : Session := fold_left startup_param (parse_cstring_pairs (drop 4 buf)) s.
Definition default_user (s : Session) : Session :=
  match user s with None => mkSession (s_txn s) (session_context s) (application_name s) (Some (K "turboGP")) (database s) | Some _ => s end.

Definition startup_statuses : list (text * text) :=
  [(K "server_version", K "15.0"); (K "server_encoding", K "UTF8"); (K "client_encoding", K "UTF8"); (K "DateStyle", K "ISO, MDY");
   (K "integer_datetimes", K "on"); (K "standard_conforming_strings", K "on"); (K "application_name", K "turboGP");
   (K "IntervalStyle", K "postgres"); (K "TimeZone", K "UTC")].
Definition send_parameter_statuses : io () :=
  _ ← for_io startup_statuses (λ kv, send_parameter_status kv.1 kv.2);
  _ ← send_byte 75 (be_bytes 4 (wrap_u 32 backend_pid) ++ be_bytes 4 (wrap_u 32 backend_key));
  send_ready_for_query.
Definition send_auth_ok_and_params : io () := _ ← send_byte 82 (be_bytes 4 0); send_parameter_statuses.

(** The length of the body that follows; the [i32] is cast to [usize]. *)
Definition body_length : io Z :=
  len ← read_i32_be;
  if Z.ltb (wrap_u 64 len) 4 then st_fail InvalidData else mret (wrap_u 64 len - 4).
Definition read_password_message : io (list Z) :=
  t ← read_byte;
  if negb (Z.eqb t 112) then st_fail InvalidData else n ← body_length; read_body n.
Definition sasl_initial (buf : list Z) : rd (option (text * list Z)) :=
  '(mech, rest) ← read_cstring buf;
  if Nat.ltb (length rest) 4 then Ok None
  else
    let ir_len := be_i32 (take 4 rest) in
    if Z.ltb ir_len 0 then Ok (Some (mech, []))
    else '(ir, _) ← take_exact (Z.to_nat ir_len) (drop 4 rest); Ok (Some (mech, ir)).
Definition read_sasl_initial_response : io (option (text * list Z)) := buf ← read_password_message; lift_rd (sasl_initial buf).
Definition read_sasl_response : io (list Z) := read_password_message.

Definition reject {A} (code msg : text) (e : IoFault) : io A := _ ← send_error code msg; st_fail e.
Definition server_first_message (cred : StoredCredential) (client_nonce : text) : text :=
  K "r=" ++ client_nonce ++ server_nonce ++ K ",s=" ++ b64_encode (salt cred) ++ K ",i=" ++ DispatchM.fmt_u64 (iterations cred).

Definition finish_scram (cred : StoredCredential) (client_first_bare server_first : text) : io () :=
  client_final ← read_sasl_response;
  match from_utf8 client_final with
  | None => reject (K "28000") (K "client_final not utf8") InvalidData
  | Some client_final =>
    match verify_scram hmac sha256 b64_encode b64_decode cred client_first_bare server_first client_final with
    | ScramOk signature => _ ← send_byte 82 (be_bytes 4 12 ++ as_bytes (K "v=" ++ signature)); send_auth_ok_and_params
    | ScramInvalid => reject (K "28P01") (K "password authentication failed") PermissionDenied
    end
  end.
Definition continue_scram (client_first : list Z) : io () :=
  let client_first_bare := strip_gs2_header (default [] (from_utf8 client_first)) in
  match parse_client_first_bare client_first_bare with
  | None => reject (K "28000") (K "malformed client-first message") InvalidData
  | Some (username, client_nonce) =>
    c ← st_get;
    match get_user username (passwords c) with
    | None => reject (K "28000") (K "user " ++ [34] ++ username ++ [34] ++ K " does not exist") PermissionDenied
    | Some cred =>
      let server_first := server_first_message cred client_nonce in
      _ ← send_byte 82 (be_bytes 4 11 ++ as_bytes server_first);
      finish_scram cred client_first_bare server_first
    end
  end.
Definition do_scram_auth : io () :=
  _ ← send_byte 82 (be_bytes 4 10 ++ cstring (K "SCRAM-SHA-256") ++ [0]);
  first ← read_sasl_initial_response;
  match first with
  | None => reject (K "28000") (K "expected SASLInitialResponse") InvalidData
  | Some (mech, client_first) =>
    if negb (bool_decide (mech = K "SCRAM-SHA-256")) then reject (K "28000") (K "unsupported SASL mechanism: " ++ mech) InvalidData
    else continue_scram client_first
  end.

Definition read_startup : io (list Z) :=
  len ← read_i32_be;
  if negb (in_range 4 1000000 len) then st_fail InvalidData
  else buf ← read_exact (Z.to_nat (len - 4));
       if Nat.ltb (length buf) 4 then st_fail InvalidData else mret buf.
(** Each round reads at least four bytes. *)
Fixpoint handle_startup (fuel : nat) (auth_required : bool) : io () :=
  match fuel with
  | O => st_fail OutOfFuel
  | S fuel =>
    buf ← read_startup;
    let magic := be_i32 (take 4 buf) in
    if Z.eqb magic SSL_REQUEST_MAGIC || Z.eqb magic GSSAPI_REQUEST_MAGIC then _ ← st_modify (put (Byte 78)); handle_startup fuel auth_required
    else if Z.eqb magic CANCEL_REQUEST_MAGIC then mret tt
    else if in_range 196608 196620 magic then
      _ ← st_modify (λ c, set_session (default_user (parse_startup_v3_params buf (session c))) c);
      if auth_required then do_scram_auth else send_auth_ok_and_params
    else reject (K "08P01") (K "unsupported protocol") InvalidData
  end.

(** *** The message loop *)
Definition hex_byte (b : Z) : text := K "0x" ++ (if Z.ltb b 16 then [hex_digit b] else [hex_digit (b / 16); hex_digit (b mod 16)]).
(** One message; [false] ends the connection. *)
Definition handle_message (msg_type n : Z) : io bool :=
  if Z.eqb msg_type 81 then sql ← read_string n; _ ← handle_simple_query sql; mret true
  else if Z.eqb msg_type 80 then buf ← read_body n; _ ← handle_parse buf; mret true
  else if Z.eqb msg_type 66 then buf ← read_body n; _ ← handle_bind buf; mret true
  else if Z.eqb msg_type 68 then buf ← read_body n; _ ← handle_describe buf; mret true
  else if Z.eqb msg_type 69 then buf ← read_body n; _ ← handle_execute buf; mret true
  else if Z.eqb msg_type 83 then _ ← send_ready_for_query; mret true
  else if Z.eqb msg_type 67 then buf ← read_body n; _ ← handle_close buf; _ ← send_byte 51 []; mret true
  else if Z.eqb msg_type 72 then mret true
  else if Z.eqb msg_type 88 then mret false
  else _ ← read_body n; _ ← send_error (K "0A000") (K "unsupported msg " ++ hex_byte msg_type); mret true.
(** The end of the input between messages is a normal end; each round reads at least one byte. *)
Fixpoint serve (fuel : nat) : io () :=
  match fuel with
  | O => st_fail OutOfFuel
  | S fuel => λ c,
    match input c with
    | [] => (Ok tt, c)
    | _ => (msg_type ← read_byte; n ← body_length; go_on ← handle_message msg_type n;
            match go_on with true => serve fuel | false => mret tt end) c
    end
  end.
Definition run_loop (auth_required : bool) : io () := λ c,
  (_ ← handle_startup (S (length (input c))) auth_required; serve (S (length (input c)))) c.
(** [PgConn::handle] on the bytes of a new connection. *)
Definition handle (bs : list Z) (pm : PasswordManager) (e : E) (auth_required : bool) : result IoFault () * Conn :=
  run_loop auth_required (mkConn bs [] session_new ∅ ∅ pm e 0).
End conn.

(** ** UTF-8 reads back what it writes *)
Definition scalar (c : Z) : Prop := 0 <= c < 0xD800 ∨ 0xE000 <= c < 0x110000.
#[global] Instance scalar_dec c : Decision (scalar c).
Proof. unfold scalar. apply _. Defined.

Lemma div_mod_64 c : c = 64 * (c / 64) + c mod 64 ∧ 0 <= c mod 64 < 64.
Proof. split; [apply Z.div_mod; lia|apply Z.mod_pos_bound; lia]. Qed.
Lemma div_4096 c : c / 4096 = c / 64 / 64.
Proof. by rewrite Z.div_div by lia. Qed.
Lemma div_262144 c : c / 262144 = c / 64 / 64 / 64.
Proof. by rewrite !Z.div_div by lia. Qed.
Ltac decide_bytes := repeat match goal with
  | |- context [Z.eqb ?a ?b] => destruct (Z.eqb_spec a b); try lia
  | |- context [Z.leb ?a ?b] => destruct (Z.leb_spec a b); try lia
  | |- context [Z.ltb ?a ?b] => destruct (Z.ltb_spec a b); try lia
  end.

Lemma utf8_char_cons c r : scalar c → ∃ b bs, utf8_char c = b :: bs ∧ utf8_next b (bs ++ r) = (Some c, length (b :: bs)).
Proof.
  intros Hc. unfold scalar in Hc. unfold utf8_char. rewrite div_262144, div_4096.
  pose proof (div_mod_64 c) as H1. pose proof (div_mod_64 (c / 64)) as H2. pose proof (div_mod_64 (c / 64 / 64)) as H3.
  destruct (Z.ltb_spec c 128); [|destruct (Z.ltb_spec c 2048); [|destruct (Z.ltb_spec c 65536)]];
    eexists _, _; split; try done; unfold utf8_next, second_of_3, second_of_4, is_cont, in_range; cbn [app length];
    decide_bytes; cbn [andb]; f_equal; f_equal; lia.
Qed.
Lemma utf8_chars_as_bytes s : Forall scalar s → ∀ fuel, (length (as_bytes s) <= fuel)%nat → utf8_chars fuel (as_bytes s) = Some <$> s.
Proof.
  induction 1 as [|c s Hc Hs IH]; intros fuel Hf; [by destruct fuel|].
  destruct (utf8_char_cons c (as_bytes s) Hc) as (b & bs & E1 & E2).
  assert (H : as_bytes (c :: s) = b :: bs ++ as_bytes s) by (unfold as_bytes; cbn; by rewrite E1).
  rewrite H in Hf |- *. destruct fuel as [|fuel]; [cbn in Hf; lia|].
  cbn [utf8_chars]. rewrite E2. cbn [fmap list_fmap]. f_equal. cbn [length drop].
  rewrite drop_app_length. apply IH. cbn [length] in Hf. rewrite length_app in Hf. lia.
Qed.
Lemma from_utf8_as_bytes s : Forall scalar s → from_utf8 (as_bytes s) = Some s.
Proof.
  intros H. unfold from_utf8. rewrite utf8_chars_as_bytes by done. clear H. induction s as [|c s IH]; [done|].
  cbn. change (mapM id (Some <$> s) = Some s) in IH. by rewrite IH.
Qed.
Lemma from_utf8_lossy_as_bytes s : Forall scalar s → from_utf8_lossy (as_bytes s) = s.
Proof. intros H. unfold from_utf8_lossy. rewrite utf8_chars_as_bytes by done. rewrite <- list_fmap_compose. apply list_fmap_id. Qed.

(** ** Messages read back what a client writes *)
Definition plain (c : Z) : Prop := scalar c ∧ c ≠ 0.
#[global] Instance plain_dec c : Decision (plain c).
Proof. unfold plain. apply _. Defined.

Lemma length_be_bytes n z : length (be_bytes n z) = n.
Proof. unfold be_bytes. by rewrite length_reverse, length_le_bytes. Qed.
#[local] Hint Rewrite length_be_bytes : len.
Lemma be_decode_bytes n z : 0 <= z < 256 ^ Z.of_nat n → be_decode (be_bytes n z) = z.
Proof. intros H. unfold be_decode, be_bytes. by rewrite reverse_involutive, le_decode_bytes. Qed.
Lemma be_i32_bytes z : - 2 ^ 31 <= z < 2 ^ 31 → be_i32 (be_bytes 4 (wrap_u 32 z)) = z.
Proof.
  intros H. unfold be_i32. rewrite be_decode_bytes; [apply as_signed_wrap; cbn; lia|].
  change (256 ^ Z.of_nat 4) with (2 ^ 32). apply Z.mod_pos_bound. lia.
Qed.

Lemma utf8_char_plain c : plain c → Forall (λ b, b ≠ 0) (utf8_char c).
Proof.
  intros [Hc H0]. unfold scalar in Hc. unfold utf8_char.
  pose proof (Z.mod_pos_bound c 64). pose proof (Z.mod_pos_bound (c / 64) 64). pose proof (Z.mod_pos_bound (c / 4096) 64).
  assert (0 <= c / 64 ∧ 0 <= c / 4096 ∧ 0 <= c / 262144) as (? & ? & ?) by (repeat split; apply Z.div_pos; lia).
  repeat case_match; repeat constructor; lia.
Qed.
Lemma until_nul_app bs r : Forall (λ b, b ≠ 0) bs → until_nul (bs ++ 0 :: r) = Some (bs, r).
Proof.
  induction 1 as [|b bs Hb _ IH]; [done|]. cbn [app until_nul]. rewrite (proj2 (Z.eqb_neq b 0)) by done. by rewrite IH.
Qed.
Lemma read_cstring_app s r : Forall plain s → read_cstring (cstring s ++ r) = Ok (s, r).
Proof.
  intros H. unfold read_cstring, cstring. rewrite <- app_assoc. cbn [app]. rewrite until_nul_app.
  - rewrite from_utf8_as_bytes; [done|]. eapply Forall_impl; [exact H|]. by intros c [? _].
  - unfold as_bytes. apply Forall_concat, Forall_fmap. eapply Forall_impl; [exact H|]. apply utf8_char_plain.
Qed.
Lemma take_exact_app n bs r : length bs = n → take_exact n (bs ++ r) = Ok (bs, r).
Proof.
  intros <-. unfold take_exact. rewrite length_app, (proj2 (Nat.ltb_ge _ _)) by lia. by rewrite take_app_length, drop_app_length.
Qed.
Lemma read_u16_app z r : 0 <= z < 65536 → read_u16 (be_bytes 2 z ++ r) = Ok (z, r).
Proof. intros H. unfold read_u16. rewrite take_exact_app by apply length_be_bytes. unfold mbind, result_bind. by rewrite be_decode_bytes. Qed.
Lemma read_u32_app z r : 0 <= z < 2 ^ 32 → read_u32 (be_bytes 4 z ++ r) = Ok (z, r).
Proof. intros H. unfold read_u32. rewrite take_exact_app by apply length_be_bytes. unfold mbind, result_bind. by rewrite be_decode_bytes. Qed.
Lemma read_i16_app z r : - 2 ^ 15 <= z < 2 ^ 15 → read_i16 (be_bytes 2 (wrap_u 16 z) ++ r) = Ok (z, r).
Proof.
  intros H. unfold read_i16. rewrite take_exact_app by apply length_be_bytes. unfold mbind, result_bind. rewrite be_decode_bytes.
  - by rewrite as_signed_wrap by (cbn; lia).
  - change (256 ^ Z.of_nat 2) with (2 ^ 16). apply Z.mod_pos_bound. lia.
Qed.
Lemma read_many_app {A} (enc : A → list Z) (f : list Z → rd (A * list Z)) (P : A → Prop) :
  (∀ x r, P x → f (enc x ++ r) = Ok (x, r)) →
  ∀ xs r n, n = length xs → Forall P xs → read_many n f (concat (enc <$> xs) ++ r) = Ok (xs, r).
Proof.
  intros Hf xs r n -> H. revert r. induction H as [|x xs Hx _ IH]; intros r; [done|].
  cbn [length fmap list_fmap concat read_many]. rewrite <- app_assoc, (Hf _ _ Hx). unfold mbind, result_bind in *. by rewrite IH.
Qed.

(** What a client sends: counts and lengths are those of what follows; a parameter is NULL or its bytes. *)
Definition count16 (n : nat) : list Z := be_bytes 2 (Z.of_nat n).
Definition i16_bytes (z : Z) : list Z := be_bytes 2 (wrap_u 16 z).
Definition encode_parse (n : text) (st : PreparedStatement) : list Z :=
  cstring n ++ cstring (ps_sql st) ++ count16 (length (param_oids st)) ++ concat (be_bytes 4 <$> param_oids st).
Definition encode_param (p : option (list Z)) : list Z :=
  match p with None => be_bytes 4 (wrap_u 32 (-1)) | Some bs => be_bytes 4 (wrap_u 32 (Z.of_nat (length bs))) ++ bs end.
Definition encode_bind (portal stmt : text) (pfmts : list Z) (ps : list (option (list Z))) (rfmts : list Z) : list Z :=
  cstring portal ++ cstring stmt ++ count16 (length pfmts) ++ concat (i16_bytes <$> pfmts) ++
  count16 (length ps) ++ concat (encode_param <$> ps) ++ count16 (length rfmts) ++ concat (i16_bytes <$> rfmts).
Definition param_value (pfmts : list Z) (i : nat) (p : option (list Z)) : text :=
  match p with None => K "NULL" | Some bs => param_text (param_format pfmts i) bs end.
Definition is_i16 (z : Z) : Prop := - 2 ^ 15 <= z < 2 ^ 15.
#[global] Instance is_i16_dec z : Decision (is_i16 z).
Proof. unfold is_i16. apply _. Defined.
Definition short_param (p : option (list Z)) : Prop := match p with None => True | Some bs => (Z.of_nat (length bs) < 2 ^ 31) end.

Lemma read_params_app pfmts ps r : Forall short_param ps → ∀ i, 
  read_params pfmts i (length ps) (concat (encode_param <$> ps) ++ r) = Ok (imap (λ j, param_value pfmts (i + j)%nat) ps, r).
Proof.
  induction 1 as [|p ps Hp _ IH]; intros i; [done|].
  assert (E : imap (λ j, param_value pfmts (i + j)%nat) (p :: ps) =
              param_value pfmts i p :: imap (λ j, param_value pfmts (S i + j)%nat) ps).
  { cbn. rewrite Nat.add_0_r. f_equal. apply imap_ext. intros j x _. cbn. f_equal. lia. }
  rewrite E. cbn [length fmap list_fmap concat read_params]. rewrite <- app_assoc. unfold mbind, result_bind in *. destruct p as [bs|]; cbn [encode_param].
  - rewrite <- app_assoc, take_exact_app by apply length_be_bytes. cbn [short_param] in Hp.
    rewrite be_i32_bytes by (pose proof Hp; lia). rewrite (proj2 (Z.ltb_ge _ _)) by lia.
    rewrite take_exact_app by lia. change (list_fmap _ _ encode_param ps) with (encode_param <$> ps). by rewrite (IH (S i)).
  - rewrite take_exact_app by apply length_be_bytes. rewrite be_i32_bytes by lia.
    change (list_fmap _ _ encode_param ps) with (encode_param <$> ps). rewrite (IH (S i)). done.
Qed.

(** What fits in a Parse and in a Bind message. *)
Definition parse_fits (n : text) (st : PreparedStatement) : Prop :=
  Forall plain n ∧ Forall plain (ps_sql st) ∧ Z.of_nat (length (param_oids st)) < 65536 ∧ Forall (λ o, 0 <= o < 2 ^ 32) (param_oids st).
Definition bind_fits (portal stmt : text) (pfmts : list Z) (ps : list (option (list Z))) (rfmts : list Z) : Prop :=
  Forall plain portal ∧ Forall plain stmt ∧ Z.of_nat (length pfmts) < 65536 ∧ Forall is_i16 pfmts ∧
  Z.of_nat (length ps) < 65536 ∧ Forall short_param ps ∧ Z.of_nat (length rfmts) < 65536 ∧ Forall is_i16 rfmts.

Lemma read_parse_encode n st : parse_fits n st → read_parse (encode_parse n st) = Ok (n, st).
Proof.
  intros (Hn & Hs & Hl & Ho). destruct st as [sql oids]. unfold read_parse, encode_parse, count16. cbn [ps_sql param_oids] in *.
  unfold mbind, result_bind. rewrite read_cstring_app, read_cstring_app, read_u16_app by (done || lia).
  rewrite <- (app_nil_r (concat _)). rewrite (read_many_app (be_bytes 4) read_u32 _ read_u32_app); [done|lia|done].
Qed.
Lemma read_bind_encode portal stmt pfmts ps rfmts : bind_fits portal stmt pfmts ps rfmts →
  read_bind (encode_bind portal stmt pfmts ps rfmts) = Ok (portal, (stmt, imap (param_value pfmts) ps, rfmts)).
Proof.
  intros (Hp & Hs & Hl & Hf & Hpl & Hps & Hrl & Hr). unfold read_bind, encode_bind, count16.
  unfold mbind, result_bind. rewrite read_cstring_app, read_cstring_app, read_u16_app by (done || lia).
  rewrite (read_many_app i16_bytes read_i16 _ read_i16_app), read_u16_app by (done || lia).
  rewrite Nat2Z.id, (read_params_app pfmts ps _ Hps 0), read_u16_app by lia.
  rewrite <- (app_nil_r (concat (i16_bytes <$> rfmts))). rewrite (read_many_app i16_bytes read_i16 _ read_i16_app); [done|lia|done].
Qed.

(** the extended-query messages round trip.  Preparing a statement under a name and
    binding parameters to it stores, in that order and with the two completion messages,
    exactly the statement, its parameter types, the parameters ([NULL], the text, or the
    hexadecimal of the bytes, by their format) and the result formats the client wrote; text
    parameters come back as the characters sent. *)
Theorem parse_bind_roundtrip {E} (c : PgConn E) n st portal pfmts ps rfmts :
  parse_fits n st → bind_fits portal n pfmts ps rfmts →
  ∃ c', (_ ← handle_parse (encode_parse n st); handle_bind (encode_bind portal n pfmts ps rfmts)) c = (Ok tt, c') ∧
    output c' = output c ++ [Msg 49 []; Msg 50 []] ∧
    statements c' = <[n := st]> (statements c) ∧
    portals c' = <[portal := portal_new n (imap (param_value pfmts) ps) rfmts]> (portals c) ∧
    (∀ ts, Forall scalar (concat ts) → pfmts = [] → ps = Some ∘ as_bytes <$> ts → imap (param_value pfmts) ps = ts).
Proof.
  intros Hparse Hbind. eexists. split_and!.
  - unfold handle_parse, handle_bind, lift_rd, send_byte, st_modify, st_get, mbind, stM_bind. rewrite read_parse_encode by done.
    cbn [set_statements put statements]. rewrite read_bind_encode by done.
    unfold put. cbn [statements set_statements]. rewrite lookup_insert_eq. reflexivity.
  - cbn. by rewrite <- app_assoc.
  - done.
  - done.
  - intros ts Hts -> ->. clear -Hts. rewrite imap_fmap.
    induction ts as [|t ts IH]; [done|]. cbn in Hts. apply Forall_app in Hts as [Ht Hts]. cbn. f_equal.
    + unfold param_value, param_text, param_format. cbn. by apply from_utf8_lossy_as_bytes.
    + rewrite <- (IH Hts) at 2. by apply imap_ext.
Qed.
Lemma parse_bind_roundtrip_witness :
  let st := mkPS (K "SELECT $1") [20] in
  parse_fits (K "s") st ∧ bind_fits (K "p") (K "s") [] [Some (as_bytes (K "42")); None] [1] ∧
  portals (snd ((_ ← handle_parse (encode_parse (K "s") st); handle_bind (encode_bind (K "p") (K "s") [] [Some (as_bytes (K "42")); None] [1]))
    (mkConn [] [] session_new ∅ ∅ ∅ tt 0))) !! K "p" = Some (portal_new (K "s") [K "42"; K "NULL"] [1]).
Proof.
  assert (H1 : parse_fits (K "s") (mkPS (K "SELECT $1") [20])).
  { unfold parse_fits. split_and!; apply (bool_decide_unpack _); vm_compute; exact I. }
  assert (H2 : bind_fits (K "p") (K "s") [] [Some (as_bytes (K "42")); None] [1]).
  { unfold bind_fits. split_and!; try (apply (bool_decide_unpack _); vm_compute; exact I). repeat constructor. }
  split; [exact H1|]. split; [exact H2|].
  destruct (parse_bind_roundtrip (mkConn [] [] session_new ∅ ∅ ∅ tt 0) _ _ _ _ _ _ H1 H2) as (c' & E & _ & _ & Hp & _).
  rewrite E. cbn [snd]. rewrite Hp. vm_compute. reflexivity.
Defined.

(** ** Paging through a portal *)
Section paging.
Context {E : Type} `{!Engine E}.
Context (to_lowercase : text → text) (fmt_f64 : Z → text).
Context (pbkdf2 : list Z → list Z → Z → list Z) (hmac : list Z → list Z → list Z) (sha256 : list Z → list Z) (random_salt : nat → list Z).
Abbreviation execute := (execute_portal to_lowercase fmt_f64 pbkdf2 hmac sha256 random_salt).
Abbreviation row_of := (data_row fmt_f64).

Definition data_messages (r : QueryResult) : list Out := (λ row, Msg 68 (row_of r row)) <$> seq 0 (ResultM.row_count r).
Definition complete (tag : text) : Out := Msg 67 (cstring tag).
Definition suspended : Out := Msg 115 [].
Definition is_row (o : Out) : bool := match o with Msg t _ => Z.eqb t 68 | Byte _ => false end.

(** Each Execute but the last asks for fewer rows than are left, the last for as many. *)
Fixpoint just_enough (ms : list Z) (rows : nat) : bool :=
  match ms with
  | [] => false
  | [m] => Z.leb 1 m && Nat.leb rows (Z.to_nat m)
  | m :: ms => Z.leb 1 m && Nat.ltb (Z.to_nat m) rows && just_enough ms (rows - Z.to_nat m)
  end.
(** The messages that answer them. *)
Fixpoint pages (ms : list Z) (rows : list Out) (tag : text) : list Out :=
  match ms with
  | [] => []
  | m :: ms => take (Z.to_nat m) rows ++
               (if Nat.leb (length rows) (Z.to_nat m) then [complete tag] else suspended :: pages ms (drop (Z.to_nat m) rows) tag)
  end.

Definition column_ok (n : nat) (c : ResultColumn) : Prop :=
  length (values c) = n ∧ (∀ sv, ResultM.string_values c = Some sv → length sv = n) ∧ (∀ m, ResultM.null_mask c = Some m → length m = n).
Definition result_ok (r : QueryResult) : Prop := Forall (column_ok (ResultM.row_count r)) (ResultM.columns r).

Definition sent (ms : list Out) (c : PgConn E) : PgConn E :=
  mkConn (input c) (output c ++ ms) (session c) (statements c) (portals c) (passwords c) (engine c) (drawn c).
Lemma sent_nil c : sent [] c = c.
Proof. destruct c. unfold sent. cbn. by rewrite app_nil_r. Qed.
Lemma sent_sent a b c : sent b (sent a c) = sent (a ++ b) c.
Proof. unfold sent. cbn. by rewrite app_assoc. Qed.

Lemma send_rows_ok {A} (g : A → list Z) (l : list A) c :
  for_io l (λ x, send_byte 68 (g x)) c = (Ok tt, sent ((λ x, Msg 68 (g x)) <$> l) c).
Proof.
  revert c. induction l as [|x l IH]; intros c; [by rewrite sent_nil|].
  cbn [for_io]. rewrite (stM_bind_ok _ _ _ tt (sent [Msg 68 (g x)] c)) by done. rewrite IH, sent_sent. done.
Qed.
Lemma send_data_rows_ok r c : send_data_rows fmt_f64 r c = (Ok tt, sent (data_messages r) c).
Proof. apply send_rows_ok. Qed.

Lemma slice_list_ok {A} s e (l : list A) : (s <= e <= length l)%nat → slice_list s e l = Some (take (e - s) (drop s l)).
Proof. intros [H1 H2]. unfold slice_list. by rewrite !(proj2 (Nat.leb_le _ _)). Qed.
Lemma lookup_slice {A} s e (l : list A) i : (i < e - s)%nat → take (e - s) (drop s l) !! i = l !! (s + i)%nat.
Proof. intros H. by rewrite lookup_take_lt, lookup_drop. Qed.

Lemma slice_column_ok n s e c : column_ok n c → (s <= e <= n)%nat →
  ∃ c', slice_column s e c = Some c' ∧ ∀ i, (i < e - s)%nat → data_cell fmt_f64 i c' = data_cell fmt_f64 (s + i) c.
Proof.
  intros (Hv & Hs & Hm) Hr. unfold slice_column. rewrite slice_list_ok by lia. cbn [mbind option_bind].
  unfold data_cell, cell_null, cell_text. destruct c as [nm vs sv oid nm0]. cbn [values ResultM.string_values ResultM.null_mask ResultM.name ResultM.type_oid] in *.
  assert (Hsv : slice_opt s e sv = Some ((λ l, take (e - s) (drop s l)) <$> sv)).
  { destruct sv as [l|]; [|done]. cbn. by rewrite slice_list_ok by (rewrite (Hs l eq_refl); lia). }
  assert (Hnm : slice_opt s e nm0 = Some ((λ l, take (e - s) (drop s l)) <$> nm0)).
  { destruct nm0 as [l|]; [|done]. cbn. by rewrite slice_list_ok by (rewrite (Hm l eq_refl); lia). }
  rewrite Hsv, Hnm. eexists. split; [reflexivity|]. intros i Hi. cbn [values ResultM.string_values ResultM.null_mask].
  destruct sv, nm0; cbn [fmap option_fmap option_map mbind option_bind]; by rewrite ?lookup_slice by lia.
Qed.
Lemma slice_columns_ok n s e cs : Forall (column_ok n) cs → (s <= e <= n)%nat →
  ∃ cs', mapM (slice_column s e) cs = Some cs' ∧ length cs' = length cs ∧
    ∀ i, (i < e - s)%nat → data_cell fmt_f64 i <$> cs' = data_cell fmt_f64 (s + i) <$> cs.
Proof.
  intros H Hr. induction H as [|c cs Hc _ (cs' & E1 & E2 & E3)]; [by exists []|].
  destruct (slice_column_ok n s e c Hc Hr) as (c' & F1 & F2). exists (c' :: cs'). split_and!.
  - apply mapM_Some in E1. apply mapM_Some. by constructor.
  - cbn. by rewrite E2.
  - intros i Hi. cbn [fmap list_fmap]. f_equal; [by apply F2|by apply E3].
Qed.
Lemma slice_result_ok r s e : result_ok r → (s <= e <= ResultM.row_count r)%nat →
  ∃ b, slice_result r s e = Some b ∧ data_messages b = take (e - s) (drop s (data_messages r)).
Proof.
  intros H Hr. unfold slice_result. rewrite !Nat.min_l by lia.
  destruct (slice_columns_ok _ s e _ H Hr) as (cs & E1 & E2 & E3). rewrite E1. eexists. split; [reflexivity|].
  unfold data_messages. cbn [ResultM.row_count ResultM.columns].
  rewrite <- fmap_drop, <- fmap_take, drop_seq, take_seq. rewrite Nat.min_l by lia. cbn [Nat.add].
  apply list_eq. intros i. rewrite !list_lookup_fmap. destruct (decide (i < e - s)%nat) as [Hi|Hi].
  - rewrite !lookup_seq_lt by done. cbn. unfold data_row. cbn [ResultM.columns]. rewrite E2. by rewrite E3.
  - by rewrite !lookup_seq_ge by lia.
Qed.

Definition cached (p : Portal) (cache : option (QueryResult * text)) (off : nat) : Portal := mkPortal (stmt_name p) (params p) (result_formats p) cache off.
Definition with_portal (n : text) (p : Portal) (c : PgConn E) : PgConn E := set_portals (<[n := p]> (portals c)) c.
Lemma set_cache_ok n cache off c p : portals c !! n = Some p → set_cache n cache off c = (Ok tt, with_portal n (cached p cache off) c).
Proof. intros H. unfold set_cache, st_modify. by rewrite H. Qed.

Lemma length_data_messages r : length (data_messages r) = ResultM.row_count r.
Proof. unfold data_messages. by rewrite length_fmap, length_seq. Qed.

(** One batch: the rows, then either the end or a suspension. *)
Lemma drain_ok n m r tag off c p : result_ok r → portals c !! n = Some p → 1 <= m → (off <= ResultM.row_count r)%nat →
  let left := drop off (data_messages r) in
  drain fmt_f64 n m r tag off c =
  (Ok tt, if Nat.leb (length left) (Z.to_nat m) then with_portal n (cached p None 0) (sent (take (Z.to_nat m) left ++ [complete tag]) c)
          else with_portal n (cached p (Some (r, tag)) (off + Z.to_nat m)) (sent (take (Z.to_nat m) left ++ [suspended]) c)).
Proof.
  intros Hr Hp Hm Hoff left. unfold drain. rewrite (proj2 (Z.ltb_lt 0 m)) by lia.
  set (e := Nat.min (off + Z.to_nat m) (ResultM.row_count r)).
  destruct (slice_result_ok r off e Hr) as (b & E1 & E2); [unfold e; lia|].
  assert (Hl : length left = (ResultM.row_count r - off)%nat) by (unfold left; by rewrite length_drop, length_data_messages).
  assert (Ht : take (e - off) left = take (Z.to_nat m) left).
  { unfold e. destruct (Nat.le_gt_cases (off + Z.to_nat m) (ResultM.row_count r)).
    - f_equal. lia.
    - rewrite !take_ge by lia. done. }
  rewrite (stM_bind_ok _ _ _ b c) by (rewrite E1; done).
  rewrite (stM_bind_ok _ _ _ tt _ (send_data_rows_ok b c)). rewrite E2. fold left. rewrite Ht, Hl.
  destruct (Nat.leb_spec (ResultM.row_count r) e) as [He|He]; destruct (Nat.leb_spec (ResultM.row_count r - off) (Z.to_nat m)) as [Hk|Hk]; try (unfold e in He; lia).
  - rewrite (stM_bind_ok _ _ _ tt (sent [complete tag] (sent (take (Z.to_nat m) left) c))) by done.
    rewrite sent_sent. by apply set_cache_ok.
  - rewrite (stM_bind_ok _ _ _ tt (sent [suspended] (sent (take (Z.to_nat m) left) c))) by done.
    rewrite sent_sent, (set_cache_ok n _ _ _ p) by done. replace e with (off + Z.to_nat m)%nat by (unfold e; lia). done.
Qed.

Lemma execute_cached n m c p r tag : portals c !! n = Some p → cached_result p = Some (r, tag) →
  execute n m c = drain fmt_f64 n m r tag (cached_offset p) c.
Proof. intros Hp Hc. unfold execute_portal. rewrite (stM_bind_ok _ _ _ c c) by done. by rewrite Hp, Hc. Qed.

Lemma just_enough_cons m ms rows : just_enough (m :: ms) rows = true →
  1 <= m ∧ ((ms = [] ∧ (rows <= Z.to_nat m)%nat) ∨ ((Z.to_nat m < rows)%nat ∧ just_enough ms (rows - Z.to_nat m) = true)).
Proof.
  cbn [just_enough]. destruct ms as [|m2 ms]; rewrite ?andb_true_iff, Z.leb_le.
  - intros [H1 H2%Nat.leb_le]. auto.
  - intros [[H1 H2%Nat.ltb_lt] H3]. auto.
Qed.

(** What a run of Executes on portal [n] leaves behind. *)
Definition paged (n : text) (e : E) (ms : list Out) (c c' : PgConn E) : Prop :=
  output c' = output c ++ ms ∧ engine c' = e ∧ passwords c' = passwords c ∧ statements c' = statements c ∧
  ∃ p', portals c' !! n = Some p' ∧ cached_result p' = None.

Lemma drain_pages n r tag : result_ok r → ∀ ms c p, portals c !! n = Some p → cached_result p = Some (r, tag) →
  (cached_offset p <= ResultM.row_count r)%nat → just_enough ms (ResultM.row_count r - cached_offset p) = true →
  ∃ c', for_io ms (execute n) c = (Ok tt, c') ∧ paged n (engine c) (pages ms (drop (cached_offset p) (data_messages r)) tag) c c'.
Proof.
  intros Hr. induction ms as [|m ms IH]; intros c p Hp Hc Hoff Hms; [done|].
  apply just_enough_cons in Hms as [Hm Hms]. cbn [for_io pages].
  assert (Hl : length (drop (cached_offset p) (data_messages r)) = (ResultM.row_count r - cached_offset p)%nat) by (by rewrite length_drop, length_data_messages).
  pose proof (execute_cached n m c p r tag Hp Hc) as He. rewrite (drain_ok n m r tag _ c p Hr Hp Hm Hoff), Hl in He. rewrite Hl.
  rewrite (stM_bind_ok _ _ _ _ _ He). destruct Hms as [[-> Hk]|[Hk Hms]].
  - rewrite (proj2 (Nat.leb_le _ _)) by lia. eexists. split; [done|]. unfold paged. cbn. split_and!; try done.
    eexists. rewrite lookup_insert_eq. done.
  - rewrite (proj2 (Nat.leb_gt _ _)) by lia. set (c1 := with_portal _ _ _).
    destruct (IH c1 (cached p (Some (r, tag)) (cached_offset p + Z.to_nat m))) as (c' & E1 & E2 & E3 & E4 & E5 & E6); cbn [cached cached_result cached_offset].
    + unfold c1. cbn. by rewrite lookup_insert_eq.
    + done.
    + lia.
    + rewrite <- Hms. f_equal. lia.
    + exists c'. split; [done|]. unfold paged. rewrite E2, E3, E4, E5. unfold c1. cbn [with_portal set_portals sent output engine passwords statements cached cached_offset].
      rewrite drop_drop, <- !app_assoc. done.
Qed.

Lemma pages_rows ms rows tag : just_enough ms (length rows) = true → Forall (λ o, is_row o = true) rows →
  filter (λ o, is_row o = true) (pages ms rows tag) = rows.
Proof.
  revert rows. induction ms as [|m ms IH]; intros rows Hms Hr; [done|].
  apply just_enough_cons in Hms as [_ Hms]. cbn [pages]. rewrite list.filter_app.
  assert (Hall : ∀ l, Forall (λ o, is_row o = true) l → filter (λ o, is_row o = true) l = l).
  { intros l Hl. induction Hl as [|o l Ho _ IHl]; [done|]. by rewrite filter_cons_True, IHl. }
  rewrite (Hall (take _ _)) by by apply Forall_take. destruct Hms as [[-> Hk]|[Hk Hms]].
  - rewrite (proj2 (Nat.leb_le _ _)) by lia. by rewrite filter_cons_False, app_nil_r, take_ge by done.
  - rewrite (proj2 (Nat.leb_gt _ _)) by lia. rewrite filter_cons_False by done.
    rewrite IH; [apply take_drop|by rewrite length_drop|by apply Forall_drop].
Qed.

Lemma run_sql_frame sql c x c1 : run_sql sql c = (x, c1) → c1 = set_engine (engine c1) c.
Proof.
  unfold run_sql. destruct (try_readonly_select sql (engine c)).
  - intros [= _ <-]. by destruct c.
  - destruct (execute_sql sql (engine c)) as [y e]. intros [= _ <-]. done.
Qed.
Lemma first_batch_ok n m r tag c p : result_ok r → portals c !! n = Some p → cached_result p = None → 1 <= m →
  first_batch fmt_f64 n m r tag c =
  (Ok tt, if Nat.leb (ResultM.row_count r) (Z.to_nat m) then sent (data_messages r ++ [complete tag]) c
          else with_portal n (cached p (Some (r, tag)) (Z.to_nat m)) (sent (take (Z.to_nat m) (data_messages r) ++ [suspended]) c)).
Proof.
  intros Hr Hp Hc Hm. unfold first_batch. rewrite (proj2 (Z.ltb_lt 0 m)) by lia. cbn [andb].
  destruct (Nat.ltb_spec (Z.to_nat m) (ResultM.row_count r)) as [H|H].
  - rewrite (proj2 (Nat.leb_gt _ _)), Nat.min_l by lia.
    destruct (slice_result_ok r 0 (Z.to_nat m) Hr) as (b & E1 & E2); [lia|]. rewrite drop_0, Nat.sub_0_r in E2.
    rewrite (stM_bind_ok _ _ _ b c) by (rewrite E1; done).
    rewrite (stM_bind_ok _ _ _ tt _ (send_data_rows_ok b c)), E2.
    rewrite (stM_bind_ok _ _ _ tt (sent [suspended] (sent (take (Z.to_nat m) (data_messages r)) c))) by done.
    rewrite sent_sent. by rewrite (set_cache_ok n _ _ _ p).
  - rewrite (proj2 (Nat.leb_le _ _)) by lia. rewrite (stM_bind_ok _ _ _ tt _ (send_data_rows_ok r c)).
    unfold send_command_complete, send_byte, st_modify. rewrite <- sent_sent. done.
Qed.

(** C11: paging through a portal. When a bound statement's query answers with [r], Executes with
    row limits that are just enough for it (each positive, all but the last below the rows that
    are left, the last not) run the statement once, whatever the number of Executes, and send its
    rows in order, each exactly once, cut where the limits say, with a suspension after every
    batch but the last and the completion tag after that; the kept result is then dropped. The
    portal has no kept result before, the statement is not CREATE USER or DROP USER, and every
    column of [r] has as many values, strings (if any) and NULL flags (if any) as [r] has rows. A
    UNION ALL whose left side has NULL flags answers with fewer flags than rows, and then cutting
    the first batch panics: see [short_mask_panics]. *)
Theorem portal_paging (c c1 : PgConn E) n p st r ms :
  let sql := substitute_params (ps_sql st) (params p) in
  result_ok r → portals c !! n = Some p → cached_result p = None → statements c !! stmt_name p = Some st →
  user_ddl to_lowercase pbkdf2 hmac sha256 random_salt sql c = (Ok None, c) → run_sql sql c = (Ok (Ok r), c1) →
  just_enough ms (ResultM.row_count r) = true →
  ∃ c', for_io ms (execute n) c = (Ok tt, c') ∧
    paged n (engine c1) (pages ms (data_messages r) (command_tag to_lowercase r sql)) c c' ∧
    filter (λ o, is_row o = true) (pages ms (data_messages r) (command_tag to_lowercase r sql)) = data_messages r.
Proof.
  intros sql Hr Hp Hc Hst Hu Hrun Hms.
  assert (Hrows : filter (λ o, is_row o = true) (pages ms (data_messages r) (command_tag to_lowercase r sql)) = data_messages r).
  { apply pages_rows; [by rewrite length_data_messages|]. unfold data_messages. by apply Forall_fmap, Forall_true. }
  assert (Hfirst : ∀ m, execute n m c = first_batch fmt_f64 n m r (command_tag to_lowercase r sql) c1).
  { intros m. unfold execute_portal. rewrite (stM_bind_ok _ _ _ c c) by done. rewrite Hp, Hc. unfold run_portal.
    rewrite (stM_bind_ok _ _ _ c c) by done. rewrite Hst. fold sql. rewrite (stM_bind_ok _ _ _ _ _ Hu).
    by rewrite (stM_bind_ok _ _ _ _ _ Hrun). }
  pose proof (run_sql_frame _ _ _ _ Hrun) as Hf. assert (Hp1 : portals c1 !! n = Some p) by by rewrite Hf.
  destruct ms as [|m ms]; [done|]. apply just_enough_cons in Hms as [Hm Hms]. cbn [for_io pages] in Hrows |- *.
  rewrite length_data_messages in Hrows |- *. pose proof (Hfirst m) as He. rewrite (first_batch_ok n m r _ c1 p) in He by done.
  rewrite (stM_bind_ok _ _ _ _ _ He). destruct Hms as [[-> Hk]|[Hk Hms]].
  - rewrite (proj2 (Nat.leb_le _ _)) in Hrows |- * by lia. rewrite take_ge in Hrows |- * by (rewrite length_data_messages; lia).
    eexists. split; [done|]. split; [|done]. unfold paged. rewrite Hf. cbn. split_and!; try done. by exists p.
  - rewrite (proj2 (Nat.leb_gt _ _)) in Hrows |- * by lia. set (c2 := with_portal _ _ _).
    destruct (drain_pages n r (command_tag to_lowercase r sql) Hr ms c2 (cached p (Some (r, command_tag to_lowercase r sql)) (Z.to_nat m)))
      as (c' & E1 & E2 & E3 & E4 & E5 & E6).
    + unfold c2. cbn. by rewrite lookup_insert_eq.
    + done.
    + cbn. lia.
    + done.
    + exists c'. split; [done|]. split; [|done]. unfold paged. rewrite E2, E3, E4, E5. unfold c2. rewrite Hf.
      cbn [with_portal set_portals set_engine sent output engine passwords statements cached cached_offset]. rewrite <- !app_assoc. done.
Qed.
End paging.

(** An engine that keeps the statements it was asked to run, and answers SELECTs with three rows. *)
#[global] Instance log_engine : Engine (list text) := {|
  try_readonly_select sql _ := if starts_with (K "SELECT") sql then Some (mkResult [mkCol (K "v") [7; 8; 9] None 20 None] 3) else None;
  execute_sql sql log := (Ok (mkResult [] 0), log ++ [sql])
|}.
Lemma portal_paging_witness :
  let c := mkConn [] [] session_new {[ K "s" := mkPS (K "SELECT $1") [] ]} {[ K "p" := portal_new (K "s") [K "v"] [] ]} ∅ ([] : list text) 0 in
  just_enough [2; 1] 3 = true ∧
  ∃ c', for_io [2; 1] (execute_portal id (λ _, []) (λ _ _ _, []) (λ _ _, []) id (λ _, []) (K "p")) c = (Ok tt, c') ∧
    (λ o, match o with Msg t _ => t | Byte b => b end) <$> output c' = [68; 68; 115; 68; 67].
Proof.
  intros c. split; [reflexivity|].
  destruct (portal_paging id (λ _, []) (λ _ _ _, []) (λ _ _, []) id (λ _, []) c c (K "p") (portal_new (K "s") [K "v"] []) (mkPS (K "SELECT $1") [])
              (mkResult [mkCol (K "v") [7; 8; 9] None 20 None] 3) [2; 1]) as (c' & E1 & (E2 & _) & _); [|reflexivity..|].
  - repeat constructor; intros ? [=].
  - exists c'. split; [exact E1|]. rewrite E2. vm_compute. reflexivity.
Defined.

(** A result with fewer NULL flags than rows, as a UNION ALL gives it whose left side has flags
    ([CteM.union_all_loses_nulls]): an Execute with a row limit panics when it cuts the first batch. *)
Theorem short_mask_panics (c : PgConn (list text)) n tag :
  let r := mkResult [mkCol (K "v") [7; 8; 9] None 20 (Some [true])] 3 in
  slice_result r 0 2 = None ∧ first_batch (λ _, []) n 2 r tag c = (Err Panicked, c).
Proof. split; [by vm_compute|reflexivity]. Qed.

(** ** Every connection ends *)
Section frame.
Context {E : Type} `{!Engine E}.
Context (to_lowercase : text → text) (fmt_f64 : Z → text).
Context (pbkdf2 : list Z → list Z → Z → list Z) (hmac : list Z → list Z → list Z) (sha256 : list Z → list Z).
Context (b64_encode : list Z → text) (b64_decode : text → option (list Z)).
Context (random_salt : nat → list Z) (server_nonce : text) (backend_pid backend_key : Z).
Abbreviation Conn := (PgConn E).
Abbreviation io := (stM Conn IoFault).

(** [m] keeps [P] and does not run out of fuel. *)
Definition keeps {A} (P : Conn → Prop) (m : io A) : Prop := ∀ c x c', P c → m c = (x, c') → P c' ∧ x ≠ Err OutOfFuel.
Lemma keeps_ret {A} (P : Conn → Prop) (a : A) : keeps P (mret a).
Proof. intros c x c' H [= <- <-]. done. Qed.
Lemma keeps_get (P : Conn → Prop) : keeps P st_get.
Proof. intros c x c' H [= <- <-]. done. Qed.
Lemma keeps_fail {A} (P : Conn → Prop) e : e ≠ OutOfFuel → keeps P (st_fail (A := A) e).
Proof. intros He c x c' H [= <- <-]. split; congruence. Qed.
Lemma keeps_modify (P : Conn → Prop) f : (∀ c, P c → P (f c)) → keeps P (st_modify f).
Proof. intros Hf c x c' H [= <- <-]. auto. Qed.
Lemma keeps_bind {A B} P (m : io A) (f : A → io B) : keeps P m → (∀ a, keeps P (f a)) → keeps P (m ≫= f).
Proof.
  intros Hm Hf c x c' H [(a & c1 & H1 & H2)|(e & H1 & ->)]%stM_bind_inv.
  - eapply Hf; [|exact H2]. by eapply Hm.
  - destruct (Hm _ _ _ H H1). split; [done|congruence].
Qed.
Lemma keeps_for {A} P (l : list A) (f : A → io ()) : (∀ x, keeps P (f x)) → keeps P (for_io l f).
Proof. intros Hf. induction l as [|x l IH]; [apply keeps_ret|]. apply keeps_bind; auto. Qed.
Lemma keeps_panicked {A} P (o : option A) : keeps P (or_panicked o).
Proof. destruct o; [apply keeps_ret|by apply keeps_fail]. Qed.

Ltac keeps := repeat match goal with
  | |- keeps _ (mbind _ _) => apply keeps_bind; [|intros]
  | |- keeps _ (match ?x with _ => _ end) => destruct x
  | |- keeps _ (mret _) => apply keeps_ret
  | |- keeps _ st_get => apply keeps_get
  | |- keeps _ (st_fail _) => apply keeps_fail; discriminate
  | |- keeps _ (or_panicked _) => apply keeps_panicked
  | |- keeps _ (for_io _ _) => apply keeps_for; intros
  end; auto.

(** At most [k] bytes are left to read. *)
Definition left_of (k : nat) (c : Conn) : Prop := (length (input c) <= k)%nat.
Lemma left_modify k f : (∀ c, input (f c) = input c) → keeps (left_of k) (st_modify f).
Proof. intros Hf. apply keeps_modify. intros c. unfold left_of. by rewrite Hf. Qed.
Lemma left_send k t b : keeps (left_of k) (send_byte t b).
Proof. by apply left_modify. Qed.
Lemma left_ready k : keeps (left_of k) send_ready_for_query.
Proof. intros c x c' H. apply (left_send k _ _ c x c' H). Qed.
Lemma left_complete k tag : keeps (left_of k) (send_command_complete tag).
Proof. apply left_send. Qed.
Lemma left_error k code msg : keeps (left_of k) (send_error code msg).
Proof. apply left_send. Qed.
Lemma left_status k a b : keeps (left_of k) (send_parameter_status a b).
Proof. apply left_send. Qed.
Lemma left_rows k r : keeps (left_of k) (send_data_rows fmt_f64 r).
Proof. apply keeps_for. intros. apply left_send. Qed.
Lemma left_description k r : keeps (left_of k) (send_row_description r).
Proof. unfold send_row_description. destruct (ResultM.columns r); apply left_send. Qed.
Lemma left_run_sql k sql : keeps (left_of k) (run_sql sql).
Proof.
  intros c x c' H. unfold run_sql. destruct (try_readonly_select sql (engine c)); [by intros [= <- <-]|].
  destruct (execute_sql sql (engine c)). by intros [= <- <-].
Qed.
Lemma left_user_ddl k sql : keeps (left_of k) (user_ddl to_lowercase pbkdf2 hmac sha256 random_salt sql).
Proof.
  intros c x c' H. unfold user_ddl. destruct (try_handle_user_ddl _ _ _ _ _ _ _) as [[[o m]|]|]; intros [= <- <-]; split; congruence || done.
Qed.
Lemma left_fail_txn k b : keeps (left_of k) (fail_txn b).
Proof. unfold fail_txn. destruct b; [by apply left_modify|apply keeps_ret]. Qed.
Lemma left_set_cache k n cache off : keeps (left_of k) (set_cache n cache off).
Proof. apply left_modify. intros c. by destruct (portals c !! n). Qed.
Lemma left_txn k t : keeps (left_of k) (st_modify (set_txn_status t)).
Proof. by apply left_modify. Qed.
Hint Resolve left_send left_ready left_complete left_error left_status left_rows left_description left_run_sql left_user_ddl left_fail_txn left_set_cache left_txn : core.

Lemma left_simple k sql : keeps (left_of k) (handle_simple_query to_lowercase fmt_f64 pbkdf2 hmac sha256 random_salt sql).
Proof.
  assert (Hb : ∀ w l, keeps (left_of k) (simple_batch to_lowercase fmt_f64 pbkdf2 hmac sha256 random_salt w l)).
  { intros w l. induction l as [|s l IH]; [apply keeps_ret|]. cbn [simple_batch]. unfold simple_statement. keeps. }
  intros c x c' H. unfold handle_simple_query.
  apply (keeps_bind (left_of k) (simple_batch _ _ _ _ _ _ _ _) (λ _, send_ready_for_query)); [apply Hb|auto|done].
Qed.

(** Readers of the fields of a message. *)
Definition clean {A} (r : rd A) : Prop := r ≠ Err OutOfFuel.
Lemma clean_bind {A B} (r : rd A) (f : A → rd B) : clean r → (∀ a, clean (f a)) → clean (r ≫= f).
Proof. unfold clean, mbind, result_bind. destruct r; [auto|]. congruence. Qed.
Lemma clean_cstring buf : clean (read_cstring buf).
Proof. unfold clean, read_cstring. repeat case_match; congruence. Qed.
Lemma clean_take n buf : clean (take_exact n buf).
Proof. unfold clean, take_exact. case_match; congruence. Qed.
Hint Resolve clean_cstring clean_take : core.
Ltac clean := repeat match goal with
  | |- clean (mbind _ _) => apply clean_bind; [|intros []]
  | |- clean (match ?x with _ => _ end) => destruct x
  | |- clean (Ok _) => discriminate
  end; auto.
Lemma clean_u16 buf : clean (read_u16 buf).
Proof. unfold read_u16. clean. Qed.
Lemma clean_u32 buf : clean (read_u32 buf).
Proof. unfold read_u32. clean. Qed.
Lemma clean_i16 buf : clean (read_i16 buf).
Proof. unfold read_i16. clean. Qed.
Lemma clean_many {A} n (f : list Z → rd (A * list Z)) buf : (∀ b, clean (f b)) → clean (read_many n f buf).
Proof. intros Hf. revert buf. induction n as [|n IH]; intros buf; cbn [read_many]; clean. Qed.
Lemma clean_params pfmts i n buf : clean (read_params pfmts i n buf).
Proof. revert i buf. induction n as [|n IH]; intros i buf; cbn [read_params]; clean. Qed.
Hint Resolve clean_u16 clean_u32 clean_i16 clean_params : core.
Lemma clean_parse buf : clean (read_parse buf).
Proof. unfold read_parse. clean. by apply clean_many. Qed.
Lemma clean_bind_message buf : clean (read_bind buf).
Proof. unfold read_bind. clean; try by apply clean_many. Qed.
Lemma clean_execute buf : clean (read_execute buf).
Proof. unfold read_execute. clean. Qed.
Lemma clean_sasl buf : clean (sasl_initial buf).
Proof. unfold sasl_initial. clean. Qed.
Hint Resolve clean_parse clean_bind_message clean_execute clean_sasl : core.
Lemma left_lift {A} P (r : rd A) : clean r → keeps P (lift_rd r).
Proof. intros Hr c x c' H [= <- <-]. done. Qed.
Hint Resolve left_lift : core.

Lemma left_parse k buf : keeps (left_of k) (handle_parse buf).
Proof. unfold handle_parse. keeps. by apply left_modify. Qed.
Lemma left_bind k buf : keeps (left_of k) (handle_bind buf).
Proof. unfold handle_bind. keeps. by apply left_modify. Qed.
Lemma left_describe k buf : keeps (left_of k) (handle_describe buf).
Proof. unfold handle_describe. keeps. Qed.
Lemma left_execute k buf : keeps (left_of k) (handle_execute to_lowercase fmt_f64 pbkdf2 hmac sha256 random_salt buf).
Proof. unfold handle_execute, execute_portal, drain, run_portal, first_batch. keeps. Qed.
Lemma left_close k buf : keeps (left_of k) (handle_close buf).
Proof. apply left_modify. intros c. by repeat case_match. Qed.

Lemma left_read_exact k n : keeps (left_of k) (read_exact n).
Proof.
  intros c x c' H. unfold read_exact. destruct (Nat.ltb _ _); intros [= <- <-]; (split; [|congruence]); unfold left_of in *; cbn; [lia|].
  rewrite length_drop. lia.
Qed.
Hint Resolve left_parse left_bind left_describe left_execute left_close left_read_exact : core.
Lemma left_read_body k n : keeps (left_of k) (read_body n).
Proof. unfold read_body. keeps. Qed.
Hint Resolve left_read_body left_simple : core.
Lemma left_body_length k : keeps (left_of k) body_length.
Proof. unfold body_length, read_i32_be. keeps. Qed.
Hint Resolve left_body_length : core.
Lemma left_message k t n : keeps (left_of k) (handle_message to_lowercase fmt_f64 pbkdf2 hmac sha256 random_salt t n).
Proof. unfold handle_message, read_string. keeps. Qed.

Abbreviation serve_all := (serve to_lowercase fmt_f64 pbkdf2 hmac sha256 random_salt).
Abbreviation startup := (handle_startup hmac sha256 b64_encode b64_decode server_nonce backend_pid backend_key).

Lemma read_byte_cons b r (c : Conn) : input c = b :: r → read_byte c = (Ok b, set_input r c).
Proof. intros H. unfold read_byte, read_exact, mbind, stM_bind. by rewrite H. Qed.
(** One round of the loop, on a message whose first byte is there. *)
Lemma serve_S fuel c b r : input c = b :: r →
  serve_all (S fuel) c = (n ← body_length; go_on ← handle_message to_lowercase fmt_f64 pbkdf2 hmac sha256 random_salt b n;
                          match go_on with true => serve_all fuel | false => mret tt end) (set_input r c).
Proof. intros H. cbn [serve]. rewrite H. by rewrite (stM_bind_ok _ _ _ _ _ (read_byte_cons b r c H)). Qed.

(** Two computations that end alike, on what is left of the input. *)
Definition ends_alike {A} (m m' : io A) (c : Conn) : Prop := fst (m c) ≠ Err OutOfFuel ∧ m' c = m c.
Lemma ends_alike_bind {A B} P (m : io A) (f g : A → io B) c :
  keeps P m → P c → (∀ a c1, P c1 → ends_alike (f a) (g a) c1) → ends_alike (m ≫= f) (m ≫= g) c.
Proof.
  intros Hm Hc Hf. unfold ends_alike, mbind, stM_bind. destruct (m c) as [x c1] eqn:E1.
  destruct (Hm _ _ _ Hc E1) as [H1 Hx]. destruct x as [a|e]; [by apply Hf|]. split; [cbn; congruence|done].
Qed.
Lemma serve_ends fuel : ∀ c fuel', (length (input c) < fuel)%nat → (length (input c) < fuel')%nat → ends_alike (serve_all fuel) (serve_all fuel') c.
Proof.
  induction fuel as [|fuel IH]; intros c [|fuel'] Hc Hc'; try lia. destruct (input c) as [|b r] eqn:Hin.
  { split; cbn [serve]; by rewrite Hin. }
  cbn [length] in Hc, Hc'. unfold ends_alike. rewrite !(serve_S _ c b r Hin).
  apply (ends_alike_bind (left_of (length r))); [auto|by unfold left_of|]. intros n c1 H1.
  apply (ends_alike_bind (left_of (length r))); [apply left_message|done|]. intros [] c2 H2; [|done].
  unfold left_of in H2. apply IH; lia.
Qed.

Lemma left_scram k : keeps (left_of k) (do_scram_auth hmac sha256 b64_encode b64_decode server_nonce backend_pid backend_key).
Proof.
  unfold do_scram_auth, read_sasl_initial_response, continue_scram, finish_scram, read_sasl_response, read_password_message, read_byte, reject,
    send_auth_ok_and_params, send_parameter_statuses. keeps.
Qed.
Hint Resolve left_scram : core.
(** A startup packet takes four bytes at least. *)
Lemma read_startup_left (c : Conn) buf c' : read_startup c = (Ok buf, c') → (length (input c') < length (input c))%nat.
Proof.
  unfold read_startup, read_i32_be. intros [(len & c1 & H1 & H2)|(e & _ & [=])]%stM_bind_inv.
  apply stM_bind_inv in H1 as [(bs & c2 & H1 & [= <- <-])|(e & _ & [=])].
  unfold read_exact in H1. destruct (Nat.ltb_spec (length (input c)) 4) as [H|H]; [done|]. apply pair_equal_spec in H1 as [_ <-].
  destruct (negb _) in H2; [done|].
  assert (Hk : left_of (length (input c) - 4) c').
  { set (m := mbind _ _) in H2. assert (Hm : keeps (left_of (length (input c) - 4)) m) by (unfold m; keeps).
    apply (Hm _ _ _) in H2 as [? _]; [done|]. unfold left_of. cbn. rewrite length_drop. lia. }
  unfold left_of in Hk. lia.
Qed.
Lemma left_read_startup k : keeps (left_of k) read_startup.
Proof. unfold read_startup, read_i32_be. keeps. Qed.
Lemma keeps_ends_alike {A} (m : io A) k c : keeps (left_of k) m → left_of k c → ends_alike m m c.
Proof. intros Hm Hc. split; [|done]. destruct (m c) as [x c'] eqn:E1. by destruct (Hm _ _ _ Hc E1). Qed.
Lemma startup_ends auth fuel : ∀ c fuel', (length (input c) < fuel)%nat → (length (input c) < fuel')%nat →
  ends_alike (startup fuel auth) (startup fuel' auth) c.
Proof.
  induction fuel as [|fuel IH]; intros c [|fuel'] Hc Hc'; try lia. cbn [handle_startup]. unfold ends_alike, mbind, stM_bind.
  destruct (read_startup c) as [[buf|e] c1] eqn:E1.
  2:{ destruct (left_read_startup (length (input c)) c _ _ (Nat.le_refl _) E1) as [_ ?]. split; [cbn; congruence|done]. }
  apply read_startup_left in E1. destruct (_ || _).
  { apply (IH (put (Byte 78) c1)); cbn; lia. }
  destruct (Z.eqb _ _); [done|]. destruct (in_range _ _ _).
  - apply (keeps_ends_alike _ (length (input c1))); [|unfold left_of; cbn; lia]. destruct auth; [auto|].
    unfold send_auth_ok_and_params, send_parameter_statuses. keeps.
  - done.
Qed.

Lemma startup_left auth fuel : ∀ (c : Conn) x c', startup fuel auth c = (x, c') → (length (input c') <= length (input c))%nat.
Proof.
  induction fuel as [|fuel IH]; intros c x c' H; [by injection H as <- <-|]. cbn [handle_startup] in H.
  apply stM_bind_inv in H as [(buf & c1 & H1 & H)|(e & H & _)].
  2:{ by destruct (left_read_startup (length (input c)) c _ _ (Nat.le_refl _) H) as [? _]. }
  apply read_startup_left in H1. destruct (_ || _) in H.
  { apply (IH (put (Byte 78) c1)) in H. cbn in H. lia. }
  enough (Hk : left_of (length (input c1)) c') by (unfold left_of in Hk; lia).
  set (m := if Z.eqb _ _ then _ else _) in H. assert (Hm : keeps (left_of (length (input c1))) m).
  { unfold m, reject, send_auth_ok_and_params, send_parameter_statuses. keeps; by apply left_modify. }
  by apply (Hm _ _ _ (Nat.le_refl _)) in H as [? _].
Qed.

Abbreviation handle_all := (handle to_lowercase fmt_f64 pbkdf2 hmac sha256 b64_encode b64_decode random_salt server_nonce backend_pid backend_key).

(** C16: a connection ends with the bytes the client sends.  Whatever they are, reading the
    startup packets and then messages until the client stops, terminates or breaks the
    protocol takes no more rounds than there are bytes: the loop returns a result, and any
    larger number of rounds gives the same one. *)
Theorem connection_ends auth (c : Conn) f1 f2 : (length (input c) < f1)%nat → (length (input c) < f2)%nat →
  let result := run_loop to_lowercase fmt_f64 pbkdf2 hmac sha256 b64_encode b64_decode random_salt server_nonce backend_pid backend_key auth c in
  fst result ≠ Err OutOfFuel ∧ (_ ← startup f1 auth; serve_all f2) c = result.
Proof.
  intros H1 H2 result. unfold result, run_loop, mbind, stM_bind.
  destruct (startup_ends auth (S (length (input c))) c f1 (Nat.lt_succ_diag_r _) H1) as [Hs ->].
  destruct (startup (S (length (input c))) auth c) as [[[]|e] c1] eqn:E1.
  - apply startup_left in E1. destruct (serve_ends (S (length (input c))) c1 f2) as [Ha Hb]; [lia..|]. done.
  - done.
Qed.

(** ** Who gets in *)
Definition auth_ok : Out := Msg 82 (be_bytes 4 0).

(** The bytes of a packet: its length, which counts itself, and its body. *)
Definition packet (w body : list Z) : Prop := ∃ len, length len = 4%nat ∧ w = len ++ body ∧ be_i32 len = 4 + Z.of_nat (length body).
(** The bytes of a message that carries a password or a step of SASL. *)
Definition password_message (w body : list Z) : Prop := ∃ v, w = 112 :: v ∧ packet v body.
(** The bytes a client opens with: requests for encryption, if any, then the packet of version 3. *)
Definition startup_packet (w buf : list Z) : Prop := packet w buf ∧ 4 <= Z.of_nat (length buf) <= 999996.
Inductive greeting : list Z → Prop :=
| greet_v3 w buf : startup_packet w buf → in_range 196608 196620 (be_i32 (take 4 buf)) = true → greeting w
| greet_encryption w buf ws : startup_packet w buf → be_i32 (take 4 buf) = SSL_REQUEST_MAGIC ∨ be_i32 (take 4 buf) = GSSAPI_REQUEST_MAGIC →
    greeting ws → greeting (w ++ ws).

(** The next message is the final one of the exchange, and the stored credential of the user that the
    client's first message names accepts it, for that message and the server's answer to it. *)
Definition final_accepted (pm : PasswordManager) (first bs : list Z) : Prop :=
  let bare := strip_gs2_header (default [] (from_utf8 first)) in
  ∃ username nonce cred w body rest client_final signature,
    parse_client_first_bare bare = Some (username, nonce) ∧ pm !! username = Some cred ∧
    bs = w ++ rest ∧ password_message w body ∧ from_utf8 body = Some client_final ∧
    verify_scram hmac sha256 b64_encode b64_decode cred bare (server_first_message b64_encode server_nonce cred nonce) client_final = ScramOk signature.
(** The first message of the exchange, and then the final one. *)
Definition proves_password (pm : PasswordManager) (bs : list Z) : Prop :=
  ∃ w body first rest, bs = w ++ rest ∧ password_message w body ∧ sasl_initial body = Ok (Some (K "SCRAM-SHA-256", first)) ∧ final_accepted pm first rest.
Definition authenticated (pm : PasswordManager) (bs : list Z) : Prop :=
  ∃ hello bs', bs = hello ++ bs' ∧ greeting hello ∧ proves_password pm bs'.

Lemma read_exact_app n bs rest (c : Conn) : input c = bs ++ rest → length bs = n → read_exact n c = (Ok bs, set_input rest c).
Proof.
  intros Hi Hl. unfold read_exact. rewrite Hi, length_app, (proj2 (Nat.ltb_ge _ _)) by lia. subst n. by rewrite take_app_length, drop_app_length.
Qed.
Lemma read_exact_inv n (c c' : Conn) bs : read_exact n c = (Ok bs, c') → ∃ rest, input c = bs ++ rest ∧ length bs = n ∧ c' = set_input rest c.
Proof.
  unfold read_exact. destruct (Nat.ltb_spec (length (input c)) n); [done|]. intros [= <- <-]. exists (drop n (input c)).
  rewrite take_drop, length_take. split_and!; [done|lia|done].
Qed.
Lemma be_i32_range bs : - 2 ^ 31 <= be_i32 bs < 2 ^ 31.
Proof.
  unfold be_i32, as_signed, wrap_u. pose proof (Z.mod_pos_bound (be_decode bs) (2 ^ 32) eq_refl). destruct (Z.ltb_spec (be_decode bs mod 2 ^ 32) (2 ^ (32 - 1))); cbn in *; lia.
Qed.

Lemma read_password_iff (c c' : Conn) body : read_password_message c = (Ok body, c') ↔
  ∃ w rest, input c = w ++ rest ∧ password_message w body ∧ c' = set_input rest c.
Proof.
  unfold read_password_message, read_byte, body_length, read_i32_be, read_body. split.
  - intros [(t & c1 & H1 & H)|(e & _ & [=])]%stM_bind_inv. apply stM_bind_inv in H1 as [(bs1 & c1' & H1 & [= <- <-])|(e & _ & [=])].
    apply read_exact_inv in H1 as (r1 & E1 & L1 & ->). destruct bs1 as [|t [|]]; try done. cbn [default from_option head id] in H.
    destruct (Z.eqb_spec t 112) as [->|]; [|done]. cbn [negb] in H.
    apply stM_bind_inv in H as [(n & c2 & H2 & H)|(e & _ & [=])]. apply stM_bind_inv in H2 as [(len & c2' & H2 & H3)|(e & _ & [=])].
    apply stM_bind_inv in H2 as [(bs2 & c2'' & H2 & [= <- <-])|(e & _ & [=])]. apply read_exact_inv in H2 as (r2 & E2 & L2 & ->).
    pose proof (be_i32_range bs2) as Hr. destruct (Z.ltb_spec (wrap_u 64 (be_i32 bs2)) 4); [done|]. injection H3 as <- <-.
    destruct (Z.leb_spec (2 ^ 63) (wrap_u 64 (be_i32 bs2) - 4)); [done|]. apply read_exact_inv in H as (r3 & E3 & L3 & ->).
    cbn [input set_input] in E2, E3. exists (112 :: bs2 ++ body), r3. split; [rewrite E1, E2, E3; cbn [app]; by rewrite <- app_assoc|]. split; [|done].
    exists (bs2 ++ body). split; [done|]. exists bs2. split_and!; [done|done|]. rewrite L3. unfold wrap_u in *.
    destruct (decide (0 <= be_i32 bs2)); [rewrite Z.mod_small in * by lia; lia|].
    rewrite <- (Z.mod_add (be_i32 bs2) 1), Z.mod_small in * by lia. lia.
  - intros (w & rest & Hi & (v & -> & len & Hl & -> & Hlen) & ->). pose proof (be_i32_range len) as Hr.
    rewrite (stM_bind_ok _ _ _ 112 (set_input (len ++ body ++ rest) c)).
    2:{ rewrite (stM_bind_ok _ _ _ [112] (set_input (len ++ body ++ rest) c)); [done|]. apply read_exact_app; [rewrite Hi; cbn [app]; by rewrite <- app_assoc|done]. }
    cbn [Z.eqb Pos.eqb negb]. rewrite (stM_bind_ok _ _ _ (Z.of_nat (length body)) (set_input (body ++ rest) c)).
    + rewrite (proj2 (Z.leb_gt _ _)) by lia. rewrite (read_exact_app _ body rest) by (done || lia). done.
    + rewrite (stM_bind_ok _ _ _ (be_i32 len) (set_input (body ++ rest) c)).
      * unfold wrap_u. rewrite Z.mod_small, (proj2 (Z.ltb_ge _ _)) by lia. do 2 f_equal. unfold mret, stM_ret. do 2 f_equal. lia.
      * rewrite (stM_bind_ok _ _ _ len (set_input (body ++ rest) c)); [done|].
        exact (read_exact_app 4 len (body ++ rest) (set_input (len ++ body ++ rest) c) eq_refl Hl).
Qed.

Lemma read_startup_iff (c c' : Conn) buf : read_startup c = (Ok buf, c') ↔
  ∃ w rest, input c = w ++ rest ∧ startup_packet w buf ∧ c' = set_input rest c.
Proof.
  unfold read_startup, read_i32_be. split.
  - intros [(len & c1 & H1 & H)|(e & _ & [=])]%stM_bind_inv. apply stM_bind_inv in H1 as [(bs1 & c1' & H1 & [= <- <-])|(e & _ & [=])].
    apply read_exact_inv in H1 as (r1 & E1 & L1 & ->). destruct (in_range 4 1000000 (be_i32 bs1)) eqn:Hr; [|done]. cbn [negb] in H.
    apply stM_bind_inv in H as [(bs2 & c2 & H2 & H)|(e & _ & [=])]. apply read_exact_inv in H2 as (r2 & E2 & L2 & ->). cbn [input set_input] in E2.
    destruct (Nat.ltb_spec (length bs2) 4); [done|]. injection H as <- <-. unfold in_range in Hr. apply andb_true_iff in Hr as [R1%Z.leb_le R2%Z.leb_le].
    exists (bs1 ++ bs2), r2. split; [rewrite E1, E2; by rewrite <- app_assoc|]. split; [|done]. split; [|lia]. exists bs1. split_and!; [done|done|lia].
  - intros (w & rest & Hi & [(len & Hl & -> & Hlen) Hb] & ->).
    rewrite (stM_bind_ok _ _ _ (be_i32 len) (set_input (buf ++ rest) c)).
    2:{ rewrite (stM_bind_ok _ _ _ len (set_input (buf ++ rest) c)); [done|]. apply read_exact_app; [rewrite Hi; cbn [app]; by rewrite <- app_assoc|done]. }
    assert (in_range 4 1000000 (be_i32 len) = true) as -> by (unfold in_range; apply andb_true_iff; split; apply Z.leb_le; lia). cbn [negb].
    rewrite (stM_bind_ok _ _ _ buf (set_input rest c)); [|by rewrite (read_exact_app _ buf rest) by (done || lia)].
    by rewrite (proj2 (Nat.ltb_ge _ _)) by lia.
Qed.

(** Nothing but the session and the socket changes, and [auth_ok] is sent only if [A] holds. *)
Definition guarded (c0 : Conn) (A : Prop) (c : Conn) : Prop :=
  engine c = engine c0 ∧ passwords c = passwords c0 ∧ statements c = statements c0 ∧ portals c = portals c0 ∧ (auth_ok ∈ output c → A).

Lemma guarded_send c0 A t b : Msg t b ≠ auth_ok ∨ A → keeps (guarded c0 A) (send_byte t b).
Proof.
  intros HA. apply keeps_modify. intros c (H1 & H2 & H3 & H4 & H5). split_and!; try done. cbn.
  rewrite elem_of_app, list_elem_of_singleton. intros [?|Hm]; [auto|]. destruct HA; congruence.
Qed.
Lemma guarded_error c0 A code msg : keeps (guarded c0 A) (send_error code msg).
Proof. apply guarded_send. by left. Qed.
Lemma guarded_read c0 A n : keeps (guarded c0 A) (read_exact n).
Proof. intros c x c' H. unfold read_exact. destruct (Nat.ltb _ _); intros [= <- <-]; (split; [exact H|congruence]). Qed.
Hint Resolve guarded_error guarded_read : core.
Lemma guarded_password c0 A : keeps (guarded c0 A) read_password_message.
Proof. unfold read_password_message, read_byte, body_length, read_i32_be, read_body. keeps. Qed.
Lemma other_tag t b : t ≠ 82 → Msg t b ≠ auth_ok.
Proof. intros Ht [= ]. done. Qed.
Lemma guarded_ready c0 A : keeps (guarded c0 A) send_ready_for_query.
Proof. intros c x c' H. unfold send_ready_for_query. by apply guarded_send; [left; apply other_tag|]. Qed.
Hint Resolve guarded_ready : core.
Lemma guarded_params c0 A : keeps (guarded c0 A) (send_parameter_statuses backend_pid backend_key).
Proof. unfold send_parameter_statuses, send_parameter_status. keeps; apply guarded_send; left; by apply other_tag. Qed.
Hint Resolve guarded_password guarded_params : core.

Lemma guarded_finish c0 (A : Prop) cred bare sfirst c x c' : guarded c0 A c →
  (∀ w body rest final signature, input c = w ++ rest → password_message w body → from_utf8 body = Some final →
    verify_scram hmac sha256 b64_encode b64_decode cred bare sfirst final = ScramOk signature → A) →
  finish_scram hmac sha256 b64_encode b64_decode backend_pid backend_key cred bare sfirst c = (x, c') → guarded c0 A c'.
Proof.
  intros Hc HA. unfold finish_scram, read_sasl_response, reject, send_auth_ok_and_params.
  intros [(bs & c1 & H1 & H)|(e & H & _)]%stM_bind_inv; [|by apply (guarded_password c0 A) in H as [? _]].
  destruct (guarded_password c0 A _ _ _ Hc H1) as [Hc1 _]. apply read_password_iff in H1 as (w & rest & Hi & Hw & _).
  revert H. set (m := match from_utf8 bs with Some _ => _ | None => _ end). assert (Hm : keeps (guarded c0 A) m); [|intros H; by destruct (Hm _ _ _ Hc1 H)].
  unfold m. destruct (from_utf8 bs) as [final|] eqn:Hf; [|keeps].
  destruct (verify_scram _ _ _ _ _ _ _ _) as [signature|] eqn:Hv; keeps; apply guarded_send.
  - left. unfold auth_ok. intros [= E1].
  - right. by apply (HA w bs rest final signature).
Qed.
Lemma guarded_reject {B} c0 A code msg e : e ≠ OutOfFuel → keeps (guarded c0 A) (reject (A := B) code msg e).
Proof. intros He. apply keeps_bind; [auto|]. intros _. by apply keeps_fail. Qed.
Lemma guarded_continue c0 (A : Prop) first c x c' : guarded c0 A c → (final_accepted (passwords c0) first (input c) → A) →
  continue_scram hmac sha256 b64_encode b64_decode server_nonce backend_pid backend_key first c = (x, c') → guarded c0 A c'.
Proof.
  intros Hc HA H. unfold continue_scram in H. set (bare := strip_gs2_header _) in H.
  destruct (parse_client_first_bare bare) as [[username nonce]|] eqn:Hb; [|by destruct (guarded_reject c0 A _ _ InvalidData ltac:(done) _ _ _ Hc H)].
  rewrite (stM_bind_ok _ _ c c c) in H by done. pose proof Hc as (_ & Hp & _).
  destruct (get_user username (passwords c)) as [cred|] eqn:Hg; [|by destruct (guarded_reject c0 A _ _ PermissionDenied ltac:(done) _ _ _ Hc H)].
  unfold send_byte in H. set (m := Msg 82 (be_bytes 4 11 ++ _)) in H. rewrite (stM_bind_ok _ _ c tt (put m c)) in H by done.
  apply (guarded_finish c0 A) in H; [done| |].
  - assert (Hk : keeps (guarded c0 A) (st_modify (put m))) by (apply guarded_send; left; unfold auth_ok; intros [= E1]). by destruct (Hk _ _ _ Hc eq_refl).
  - intros w body rest final signature Hi Hw Hf Hv. apply HA. exists username, nonce, cred, w, body, rest, final, signature.
    unfold get_user in Hg. rewrite Hp in Hg. done.
Qed.
Abbreviation scram_auth := (do_scram_auth hmac sha256 b64_encode b64_decode server_nonce backend_pid backend_key).
Lemma guarded_scram c0 (A : Prop) c x c' : guarded c0 A c → (proves_password (passwords c0) (input c) → A) → scram_auth c = (x, c') → guarded c0 A c'.
Proof.
  intros Hc HA H. unfold do_scram_auth in H. unfold send_byte in H. set (m := Msg 82 (be_bytes 4 10 ++ _)) in H.
  rewrite (stM_bind_ok _ _ c tt (put m c)) in H by done.
  assert (Hk : keeps (guarded c0 A) (st_modify (put m))) by (apply guarded_send; left; unfold auth_ok; intros [= E1]).
  destruct (Hk _ _ _ Hc eq_refl) as [Hc1 _].
  assert (Hr : keeps (guarded c0 A) read_sasl_initial_response) by (unfold read_sasl_initial_response; keeps).
  apply stM_bind_inv in H as [(first & c1 & H1 & H)|(e & H & _)]; [|by destruct (Hr _ _ _ Hc1 H)].
  destruct (Hr _ _ _ Hc1 H1) as [Hc2 _]. destruct first as [[mech first]|]; [|by destruct (guarded_reject c0 A _ _ InvalidData ltac:(done) _ _ _ Hc2 H)].
  case_bool_decide as Hm; cbn [negb] in H; [|by destruct (guarded_reject c0 A _ _ InvalidData ltac:(done) _ _ _ Hc2 H)]. subst mech.
  apply stM_bind_inv in H1 as [(body & c2 & H1 & H2)|(e & _ & [=])]. injection H2 as H2 <-.
  apply read_password_iff in H1 as (w & rest & Hi & Hw & ->). apply (guarded_continue c0 A) in H; [done|done|].
  intros Hf. apply HA. by exists w, body, first, rest.
Qed.

(** A computation that can only succeed by sending [auth_ok]. *)
Definition announces (m : io ()) : Prop := ∀ c c', m c = (Ok tt, c') → auth_ok ∈ output c'.
Lemma announces_bind {A} (m : io A) f : (∀ a, announces (f a)) → announces (m ≫= f).
Proof. intros Hf c c' [(a & c1 & _ & H)|(e & _ & [=])]%stM_bind_inv. by eapply Hf. Qed.
Lemma announces_reject code msg e : announces (reject code msg e).
Proof. apply announces_bind. intros _ c c' [=]. Qed.
Definition has_ok (c : Conn) : Prop := auth_ok ∈ output c.
Lemma has_ok_send t b : keeps has_ok (send_byte t b).
Proof. apply keeps_modify. intros c H. unfold has_ok. cbn. apply elem_of_app. by left. Qed.
Hint Resolve has_ok_send : core.
Lemma sends_ok (c : Conn) x c' : send_auth_ok_and_params backend_pid backend_key c = (x, c') → has_ok c'.
Proof.
  intros H. unfold send_auth_ok_and_params in H. rewrite (stM_bind_ok _ _ c tt (put auth_ok c)) in H by done.
  assert (Hk : keeps has_ok (send_parameter_statuses backend_pid backend_key)).
  { unfold send_parameter_statuses, send_parameter_status. keeps. intros c1 x1 c1' H1. unfold send_ready_for_query. by apply has_ok_send. }
  apply (Hk _ _ _) in H as [? _]; [done|]. unfold has_ok. cbn. apply elem_of_app. right. by apply list_elem_of_singleton.
Qed.
Lemma announces_ok : announces (send_auth_ok_and_params backend_pid backend_key).
Proof. intros c c' H. by apply sends_ok in H. Qed.
Lemma announces_scram : announces (do_scram_auth hmac sha256 b64_encode b64_decode server_nonce backend_pid backend_key).
Proof.
  unfold do_scram_auth, continue_scram, finish_scram.
  repeat (first [apply announces_ok | apply announces_reject | apply announces_bind; intros | case_match]).
Qed.

Lemma guarded_startup (c0 : Conn) (A : Prop) fuel : ∀ c x c', guarded c0 A c → (authenticated (passwords c0) (input c) → A) →
  startup fuel true c = (x, c') → guarded c0 A c'.
Proof.
  induction fuel as [|fuel IH]; intros c x c' Hc HA H; [by injection H as _ <-|]. cbn [handle_startup] in H.
  assert (Hr : keeps (guarded c0 A) read_startup) by (unfold read_startup, read_i32_be; keeps).
  apply stM_bind_inv in H as [(buf & c1 & H1 & H)|(e & H & _)]; [|by destruct (Hr _ _ _ Hc H)].
  destruct (Hr _ _ _ Hc H1) as [Hc1 _]. apply read_startup_iff in H1 as (w & rest & Hi & Hw & ->).
  destruct (_ || _) eqn:Hmagic in H.
  { apply (IH (put (Byte 78) (set_input rest c))) in H; [done| |].
    - destruct Hc1 as (? & ? & ? & ? & Hok). split_and!; try done. cbn. rewrite elem_of_app, list_elem_of_singleton. intros [?|[=]]. auto.
    - cbn [input put set_input]. intros (hello & bs' & -> & Hg & Hp). apply HA. exists (w ++ hello), bs'. rewrite Hi, <- app_assoc. split; [done|].
      split; [|done]. apply (greet_encryption w buf); [done| |done]. by apply orb_true_iff in Hmagic as [?%Z.eqb_eq|?%Z.eqb_eq]; [left|right]. }
  destruct (Z.eqb _ _) in H; [by injection H as _ <-|].
  destruct (in_range _ _ _) eqn:Hv in H; [|by destruct (guarded_reject c0 A _ _ InvalidData ltac:(done) _ _ _ Hc1 H)].
  apply stM_bind_inv in H as [([] & c1 & [= <-] & H)|(e & [=] & _)]. apply (guarded_scram c0 A) in H; [done|by destruct Hc1 as (? & ? & ? & ? & ?)|].
  cbn. intros Hp. apply HA. exists w, rest. split; [done|]. split; [by apply (greet_v3 w buf)|done].
Qed.

(** *** A client that proves its password gets in *)
Lemma continue_accepts first (c : Conn) x c' : final_accepted (passwords c) first (input c) →
  continue_scram hmac sha256 b64_encode b64_decode server_nonce backend_pid backend_key first c = (x, c') → has_ok c'.
Proof.
  intros (username & nonce & cred & w & body & rest & final & signature & Hb & Hp & Hi & Hw & Hf & Hv) H. unfold continue_scram in H.
  rewrite Hb, (stM_bind_ok _ _ c c c) in H by done. unfold get_user in H. rewrite Hp in H. unfold send_byte in H. set (m := Msg 82 (be_bytes 4 11 ++ _)) in H.
  rewrite (stM_bind_ok _ _ c tt (put m c)) in H by done. unfold finish_scram, read_sasl_response in H.
  rewrite (stM_bind_ok _ _ _ body (set_input rest (put m c))) in H by (apply read_password_iff; by exists w, rest).
  rewrite Hf, Hv in H. apply stM_bind_inv in H as [(a & c1 & _ & H)|(e & [=] & _)]. by apply sends_ok in H.
Qed.
Lemma startup_accepts hello : greeting hello → ∀ fuel bs (c : Conn) x c', input c = hello ++ bs → (length hello < fuel)%nat →
  proves_password (passwords c) bs → startup fuel true c = (x, c') → has_ok c'.
Proof.
  induction 1 as [w buf Hw Hv|w buf ws Hw Hm Hg IH]; intros [|fuel] bs c x c' Hi Hn Hp H; try lia; cbn [handle_startup] in H.
  - rewrite (stM_bind_ok _ _ _ buf (set_input bs c)) in H by (apply read_startup_iff; by exists w, bs).
    pose proof Hv as Hv'. unfold in_range in Hv'. apply andb_true_iff in Hv' as [V1%Z.leb_le V2%Z.leb_le].
    rewrite !(proj2 (Z.eqb_neq _ _)) in H by (intros Em; rewrite Em in V2; vm_compute in V2; by apply V2). cbn [orb] in H. rewrite Hv in H.
    apply stM_bind_inv in H as [([] & c1 & [= <-] & H)|(e & [=] & _)]. destruct Hp as (w1 & body & first & rest & -> & Hw1 & Hs & Hf).
    unfold do_scram_auth in H. apply stM_bind_inv in H as [([] & c1 & [= <-] & H)|(e & [=] & _)]. set (c1 := put _ _) in H.
    rewrite (stM_bind_ok _ _ _ (Some (K "SCRAM-SHA-256", first)) (set_input rest c1)) in H.
    2:{ unfold read_sasl_initial_response. rewrite (stM_bind_ok _ _ _ body (set_input rest c1)) by (apply read_password_iff; by exists w1, rest).
        unfold lift_rd. by rewrite Hs. }
    rewrite bool_decide_true in H by done. cbn [negb] in H. by apply continue_accepts in H.
  - rewrite <- app_assoc in Hi. rewrite (stM_bind_ok _ _ _ buf (set_input (ws ++ bs) c)) in H by (apply read_startup_iff; by exists w, (ws ++ bs)).
    assert (Hor : Z.eqb (be_i32 (take 4 buf)) SSL_REQUEST_MAGIC || Z.eqb (be_i32 (take 4 buf)) GSSAPI_REQUEST_MAGIC = true)
      by (apply orb_true_iff; destruct Hm; [left|right]; by apply Z.eqb_eq).
    rewrite Hor in H. apply stM_bind_inv in H as [([] & c1 & [= <-] & H)|(e & [=] & _)]. apply (IH fuel bs) in H; [done|done| |done].
    destruct Hw as [(len & Hl & -> & _) _]. rewrite !length_app in Hn. lia.
Qed.
Lemma startup_success fuel : ∀ (c c' : Conn), startup fuel true c = (Ok tt, c') →
  auth_ok ∈ output c' ∨ (session c' = session c ∧ ∃ n, output c' = output c ++ replicate n (Byte 78)).
Proof.
  induction fuel as [|fuel IH]; intros c c' H; [done|]. cbn [handle_startup] in H.
  apply stM_bind_inv in H as [(buf & c1 & H1 & H)|(e & _ & [=])].
  assert (Hf : session c1 = session c ∧ output c1 = output c).
  { set (P := λ c1 : Conn, session c1 = session c ∧ output c1 = output c).
    assert (Hr : ∀ n, keeps P (read_exact n)).
    { intros n c2 x c2' Hc. unfold read_exact. destruct (Nat.ltb _ _); intros [= <- <-]; (split; [exact Hc|congruence]). }
    assert (Hk : keeps P read_startup) by (unfold read_startup, read_i32_be; keeps). by apply (Hk c _ c1) in H1 as [? _]. }
  destruct Hf as [Hs Ho]. destruct (_ || _) in H.
  { apply (IH (put (Byte 78) c1)) in H as [?|[H2 [n H3]]]; [by left|]. right. cbn in H2, H3. split; [congruence|].
    exists (S n). rewrite H3, Ho, <- app_assoc. done. }
  destruct (Z.eqb _ _) in H; [injection H as <-; right; split; [done|]; exists O; by rewrite Ho, app_nil_r|].
  destruct (in_range _ _ _) in H; [|by apply announces_reject in H; left].
  left. apply stM_bind_inv in H as [(_ & c2 & _ & H)|(e & _ & [=])]. by apply announces_scram in H.
Qed.

(** C10: Authentication, when required. The startup of a new connection leaves the engine and the
    passwords as they are, and tells the client it is authenticated exactly when the bytes the
    client sent are, in this order: its greeting (requests for encryption, which are declined, and
    the startup packet of version 3); a message with the first step of SCRAM-SHA-256, naming a
    user of the password table and a nonce; and a message with the final step that this user's
    stored credential accepts ([verify_scram], see [scram_correct]) over the first step as sent
    and the server's answer with its own nonce. The user is the one of the SCRAM message; the
    startup packet's is not compared with it. If the startup succeeds it has said so, or it has
    only declined encryption (a cancel request). That every such client is told needs one round
    per packet: fewer than its bytes. *)
Theorem startup_authenticates fuel bs pm (e : E) x c' :
  startup fuel true (mkConn bs [] session_new ∅ ∅ pm e 0) = (x, c') →
  (engine c' = e ∧ passwords c' = pm ∧ statements c' = ∅ ∧ portals c' = ∅) ∧
  (auth_ok ∈ output c' → authenticated pm bs) ∧ ((length bs < fuel)%nat → authenticated pm bs → auth_ok ∈ output c') ∧
  (x = Ok tt → auth_ok ∉ output c' → session c' = session_new ∧ ∃ n, output c' = replicate n (Byte 78)).
Proof.
  intros H. destruct (guarded_startup (mkConn bs [] session_new ∅ ∅ pm e 0) (authenticated pm bs) fuel _ _ _ ltac:(by split_and!; try inv 1) id H)
    as (H1 & H2 & H3 & H4 & H5).
  split; [done|]. split; [done|]. split.
  - intros Hn (hello & bs' & -> & Hg & Hp). apply (startup_accepts hello Hg fuel bs') in H; [done|done| |done]. rewrite length_app in Hn. lia.
  - intros -> Hno. by apply startup_success in H as [?|?].
Qed.

(** The packet that asks to cancel another connection's query. *)
Definition cancel_request (pid key : Z) : list Z := be_bytes 4 16 ++ be_bytes 4 CANCEL_REQUEST_MAGIC ++ be_bytes 4 pid ++ be_bytes 4 key.

(** C40: a cancel request gets past authentication.  A client that sends one, with any process
    id and key, and then goes on with ordinary messages has these served like those of an
    authenticated client, whatever the passwords are, and no password is ever asked for. *)
Theorem cancel_bypasses_auth pid key rest pm (e : E) :
  handle_all (cancel_request pid key ++ rest) pm e true = serve_all (S (length rest)) (mkConn rest [] session_new ∅ ∅ pm e 0).
Proof.
  unfold handle, run_loop. cbn [input]. set (n := length _).
  assert (Hn : (length rest < n)%nat) by (unfold n, cancel_request; rewrite !length_app, !length_be_bytes; lia).
  assert (Hs : startup (S n) true (mkConn (cancel_request pid key ++ rest) [] session_new ∅ ∅ pm e 0) = (Ok tt, mkConn rest [] session_new ∅ ∅ pm e 0)).
  { cbn [handle_startup].
    rewrite (stM_bind_ok _ _ _ (be_bytes 4 CANCEL_REQUEST_MAGIC ++ be_bytes 4 pid ++ be_bytes 4 key) (mkConn rest [] session_new ∅ ∅ pm e 0)); [by vm_compute|].
    reflexivity. }
  rewrite (stM_bind_ok _ _ _ _ _ Hs). apply (serve_ends (S (length rest))); cbn [input]; lia.
Qed.

(** A negative length reads as a body of more bytes than a vector can hold. *)
Lemma body_length_negative len rest (c : Conn) : - 2 ^ 31 <= len < 0 → input c = be_bytes 4 (wrap_u 32 len) ++ rest →
  body_length c = (Ok (2 ^ 64 + len - 4), set_input rest c).
Proof.
  intros Hl Hi. unfold body_length, read_i32_be, mbind, stM_bind. rewrite (read_exact_app 4 _ rest c Hi) by apply length_be_bytes.
  cbn [mret stM_ret]. rewrite be_i32_bytes by lia.
  assert (E1 : wrap_u 64 len = 2 ^ 64 + len) by (unfold wrap_u; rewrite <- (Z.mod_add len 1) by lia; rewrite Z.mod_small; lia).
  rewrite E1, (proj2 (Z.ltb_ge _ _)) by lia. done.
Qed.
Lemma read_body_huge n (c : Conn) : 2 ^ 63 <= n → read_body n c = (Err Panicked, c).
Proof. intros H. unfold read_body. by rewrite (proj2 (Z.leb_le _ _)) by lia. Qed.

(** a negative message length panics, before a client is authenticated as well: the
    length is cast to an unsigned integer and a buffer of that size is asked for, both when
    the server waits for the first message of the authentication and on every message of the
    loop that has a body. *)
Theorem negative_length_panics t len rest (c : Conn) : - 2 ^ 31 <= len < 0 →
  (input c = 112 :: be_bytes 4 (wrap_u 32 len) ++ rest →
   fst (do_scram_auth hmac sha256 b64_encode b64_decode server_nonce backend_pid backend_key c) = Err Panicked) ∧
  (t ∈ [81; 80; 66; 68; 69; 67] → input c = t :: be_bytes 4 (wrap_u 32 len) ++ rest → ∀ fuel, fst (serve_all (S fuel) c) = Err Panicked).
Proof.
  intros Hl. split.
  - intros Hi. unfold do_scram_auth. rewrite (stM_bind_ok _ _ c tt (put (Msg 82 (be_bytes 4 10 ++ cstring (K "SCRAM-SHA-256") ++ [0])) c)) by done.
    set (c1 := put _ _). assert (Hi1 : input c1 = 112 :: be_bytes 4 (wrap_u 32 len) ++ rest) by done. clearbody c1.
    unfold read_sasl_initial_response, read_password_message, mbind, stM_bind. rewrite (read_byte_cons _ _ c1 Hi1). cbn [negb Z.eqb Pos.eqb].
    rewrite (body_length_negative len rest) by done. by rewrite read_body_huge by lia.
  - intros Ht Hi fuel. rewrite (serve_S fuel c t _ Hi). unfold mbind, stM_bind. rewrite (body_length_negative len rest) by done.
    assert (Hb : 2 ^ 63 <= 2 ^ 64 + len - 4) by lia. set (n := 2 ^ 64 + len - 4) in *. clearbody n.
    repeat (apply elem_of_cons in Ht as [->|Ht]; [unfold handle_message, read_string, mbind, stM_bind; cbn [Z.eqb Pos.eqb]; by rewrite read_body_huge|]).
    by apply elem_of_nil in Ht.
Qed.

(** Transaction control in a query message is answered by the connection alone. *)
Definition begins (p : string) (s : text) : bool := starts_with (K p) (to_lowercase (trim s)).
Definition is_txn_control (s : text) : bool := begins "begin" s || begins "start transaction" s || begins "commit" s || begins "rollback" s.
Abbreviation statement := (simple_statement to_lowercase fmt_f64 pbkdf2 hmac sha256 random_salt).

(** ROLLBACK in a query message undoes nothing.  BEGIN, COMMIT and ROLLBACK statements
    change only the status the connection reports: the engine never sees them, so the engine
    after such a batch is the one its other statements leave. *)
Theorem rollback_never_reaches_engine w s (c c' : Conn) x :
  is_txn_control s = true → statement w s c = (x, c') → engine c' = engine c ∧ passwords c' = passwords c ∧ x = Ok true.
Proof.
  unfold is_txn_control, begins, simple_statement. rewrite !orb_true_iff. intros H. case_bool_decide as Ht.
  { by intros [= <- <-]. }
  unfold send_command_complete, send_byte, st_modify, mbind, stM_bind.
  destruct H as [[[H|H]|H]|H]; rewrite ?H, ?orb_true_r; repeat case_match; by intros [= <- <-].
Qed.
End frame.
Lemma connection_ends_witness :
  let c := mkConn [0; 0; 0; 8; 0; 3; 0; 0; 88; 0; 0; 0; 4] [] session_new ∅ ∅ ∅ ([] : list text) 0 in
  (length (input c) < 20)%nat ∧
  fst ((_ ← handle_startup (λ _ _, []) id id (λ _, None) [] 0 0 20 false; serve id (λ _, []) (λ _ _ _, []) (λ _ _, []) id (λ _, []) 20) c) = Ok tt.
Proof.
  intros c. split; [cbn; lia|].
  destruct (connection_ends id (λ _, []) (λ _ _ _, []) (λ _ _, []) id id (λ _, None) (λ _, []) [] 0 0 false c 20 20) as [_ ->]; [cbn; lia..|].
  vm_compute. reflexivity.
Defined.
Lemma negative_length_panics_witness :
  let c := mkConn (112 :: be_bytes 4 (wrap_u 32 (-1))) [] session_new ∅ ∅ ∅ ([] : list text) 0 in
  fst (do_scram_auth (λ _ _, []) id id (λ _, None) [] 0 0 c) = Err Panicked.
Proof.
  intros c. apply (proj1 (negative_length_panics id (λ _, []) (λ _ _ _, []) (λ _ _, []) id id (λ _, None) (λ _, []) [] 0 0 81 (-1) [] c ltac:(lia))).
  reflexivity.
Defined.
Lemma rollback_never_reaches_engine_witness :
  let c := mkConn [] [] session_new ∅ ∅ ∅ [K "DELETE FROM t"] 0 in
  engine (snd (simple_statement id (λ _, []) (λ _ _ _, []) (λ _ _, []) id (λ _, []) true (K "rollback") c)) = [K "DELETE FROM t"].
Proof.
  intros c. destruct (simple_statement _ _ _ _ _ _ _ _ c) as [x c'] eqn:Er. cbn [snd].
  by destruct (rollback_never_reaches_engine id (λ _, []) (λ _ _ _, []) (λ _ _, []) id (λ _, []) true (K "rollback") c c' x ltac:(vm_compute; reflexivity) Er) as [-> _].
Defined.

(** A client that knows no password has a table dropped. *)
Example cancel_then_drop :
  engine (snd (handle id (λ _, []) (λ _ _ _, []) (λ _ _, []) id id (λ _, None) (λ _, []) [] 0 0
    (cancel_request 1 2 ++ 81 :: be_bytes 4 17 ++ as_bytes (K "DROP TABLE t") ++ [0]) ∅ ([] : list text) true)) = [K "DROP TABLE t"].
Proof. vm_compute. reflexivity. Qed.

(** A toy cryptography under which the client below proves its password. *)
Lemma startup_authenticates_witness :
  let zeros := replicate 32 0 in
  let pm : PasswordManager := {[ K "u" := mkCred [] 4096 zeros zeros ]} in
  let first := as_bytes (K "n,,n=u,r=x") in
  let bs := be_bytes 4 8 ++ be_bytes 4 196608 ++
            112 :: be_bytes 4 32 ++ cstring (K "SCRAM-SHA-256") ++ be_bytes 4 10 ++ first ++
            112 :: be_bytes 4 18 ++ as_bytes (K "c=biws,r=x,p=A") in
  let run := handle_startup (λ _ _, zeros) id (λ _, []) (λ _, Some zeros) [] 0 0 5 true (mkConn bs [] session_new ∅ ∅ pm ([] : list text) 0) in
  auth_ok ∈ output (snd run) ∧ authenticated (λ _ _, zeros) id (λ _, []) (λ _, Some zeros) [] pm bs.
Proof.
  intros zeros pm first bs run. assert (H : auth_ok ∈ output (snd run)).
  { apply (bool_decide_unpack _). vm_compute. exact I. }
  split; [exact H|]. destruct run as [x c'] eqn:Er.
  apply (startup_authenticates (λ _ _, zeros) id (λ _, []) (λ _, Some zeros) [] 0 0 5 bs pm [] x c' Er), H.
Defined.
End PgwireM.
