(* ===== verification/Tpch.v ===== *)
(** * The parser of the TPC-H interpreter (src/src/engine/tpch.rs)

    A second recursive descent over the tokens of [Lexer], for the queries the first parser
    refuses: subqueries, EXISTS, derived tables, arithmetic everywhere.  The state is that
    of [Parser].  Expressions and queries are mutually recursive: [rec] and [rec_select] are
    [parse_expr] and [parse_select] one level of nesting down, and [fuel] bounds the nesting
    and each loop.  [to_lowercase] and [Date::from_str] are parameters. *)

From Stdlib Require Import ZArith Lia Ascii String.
From stdpp Require Import prelude list numbers.
From S2P Require Import Prelude Lexer Parser.
Local Open Scope Z_scope.

Module TpchM.
Import LexerM.
Import ParserM (K, parser, parser_ret, parser_bind, fail, peek, next, bump, text_eqb, match_keyword, expect_keyword, match_op, match_ident, parse_usize, skip_to_rparen, ParseError (..)).

(** ** Syntax *)
Inductive BinOp2 := Add | Sub | Mul | Div | Eq | Ne | Lt | Gt | Le | Ge | And | Or.
#[global] Instance BinOp2_eq_dec : EqDecision BinOp2.
Proof. solve_decision. Defined.
Inductive AggFunc := Sum | Avg | Count | Min | Max | CountDistinct.
Inductive JoinType2 := Inner | Left.

Inductive Expr2 :=
| Col (s : text)
| EInt (i : Z)
| EFloat (s : text)
| EStr (s : text)
| EDate (d : Z)
| BinOp (op : BinOp2) (left right : Expr2)
| Like (e pattern : Expr2) (negated : bool)
| Between (e low high : Expr2) (negated : bool)
| InList (e : Expr2) (l : list Expr2) (negated : bool)
| InSubquery (e : Expr2) (q : SelectQuery2) (negated : bool)
| Exists2 (q : SelectQuery2) (negated : bool)
| Case2 (whens : list (Expr2 * Expr2)) (else_ : option Expr2)
| Extract2 (field : text) (e : Expr2)
| Cast2 (e : Expr2) (target_type : text)
| Substr (e start len : Expr2)
| Agg (func : AggFunc) (arg : Expr2) (distinct : bool)
| CountStar
| Subquery (q : SelectQuery2)
| Not (e : Expr2)
| Neg (e : Expr2)
with FromItem :=
| FTable (name : text) (alias : option text)
| Derived (q : SelectQuery2) (alias : option text)
with SelectQuery2 :=
| mkQuery2 (select : list (Expr2 * option text)) (from : list FromItem) (joins : list (JoinType2 * FromItem * Expr2)) (where_clause : option Expr2)
    (group_by : list Expr2) (having : option Expr2) (order_by : list (Expr2 * bool)) (limit : option Z).

Definition swap_op (op : BinOp2) : BinOp2 :=
  match op with Lt => Gt | Le => Ge | Gt => Lt | Ge => Le | other => other end.

(** ** Steps of the parser *)
Definition match_lp : parser bool := t ← peek; match t with LParen => _ ← bump; mret true | _ => mret false end.
Definition expect_lp : parser () := b ← match_lp; if b : bool then mret tt else t ← peek; fail (ELParen t).
Definition expect_rp : parser () := t ← peek; match t with RParen => _ ← bump; mret tt | _ => fail (ERParen t) end.
Definition match_comma : parser bool := t ← peek; match t with Comma => _ ← bump; mret true | _ => mret false end.

Section parser.
Context (uni_upper : Z → list Z) (to_lowercase : text → text) (date_from_str : text → option Z).
Definition upper (s : text) : text := to_uppercase uni_upper s.

Definition parse_ident_name : parser text :=
  t ← peek;
  match t with Ident s => _ ← next; mret s | Keyword k => _ ← next; mret (to_lowercase k) | other => fail (EIdent other) end.

(** An alias after [AS], or an identifier on its own: [is_clause_boundary] never holds of one. *)
Definition parse_alias : parser (option text) :=
  b ← match_keyword (K "AS");
  if b : bool then a ← parse_ident_name; mret (Some a)
  else t ← peek; match t with Ident _ => a ← parse_ident_name; mret (Some a) | _ => mret None end.

Section level.
Context (fuel : nat) (rec : parser Expr2) (rec_select : parser SelectQuery2).

(** [p], then a comma and so on. *)
Fixpoint comma_list {A} (p : parser A) (n : nat) : parser (list A) :=
  match n with
  | O => fail EFuel
  | S n => x ← p; b ← match_comma; if b : bool then xs ← comma_list p n; mret (x :: xs) else mret [x]
  end.

(** A query in parentheses, of which the first is read. *)
Definition sub_select : parser SelectQuery2 := q ← rec_select; _ ← expect_rp; mret q.
Definition starts_select (t : Token) : bool := match t with Keyword k => text_eqb k (K "SELECT") | _ => false end.

(** *** Primary expressions *)
Definition agg_of (func_upper : text) (distinct : bool) : option AggFunc :=
  if text_eqb func_upper (K "SUM") then Some Sum
  else if text_eqb func_upper (K "AVG") then Some Avg
  else if text_eqb func_upper (K "COUNT") then Some (if distinct then CountDistinct else Count)
  else if text_eqb func_upper (K "MIN") then Some Min
  else if text_eqb func_upper (K "MAX") then Some Max
  else None.
Definition parse_agg_call (func_upper : text) : parser Expr2 :=
  _ ← expect_lp;
  distinct ← match_keyword (K "DISTINCT");
  star ← match_op [42];
  arg ← (if star : bool then mret CountStar else rec);
  _ ← expect_rp;
  match agg_of func_upper distinct with Some f => mret (Agg f arg distinct) | None => fail (EAggregate func_upper) end.

Fixpoint when_loop (n : nat) : parser (list (Expr2 * Expr2)) :=
  match n with
  | O => fail EFuel
  | S n =>
    b ← match_keyword (K "WHEN");
    if b : bool then cond ← rec; _ ← expect_keyword (K "THEN"); result ← rec; ws ← when_loop n; mret ((cond, result) :: ws)
    else mret []
  end.
Definition parse_case : parser Expr2 :=
  _ ← expect_keyword (K "CASE");
  whens ← when_loop fuel;
  b ← match_keyword (K "ELSE");
  else_ ← (if b : bool then e ← rec; mret (Some e) else mret None);
  _ ← expect_keyword (K "END");
  mret (Case2 whens else_).
Definition parse_extract : parser Expr2 :=
  _ ← expect_lp; field ← parse_ident_name; _ ← expect_keyword (K "FROM"); e ← rec; _ ← expect_rp; mret (Extract2 field e).
Definition parse_cast : parser Expr2 :=
  _ ← expect_lp; e ← rec; _ ← expect_keyword (K "AS"); ty ← parse_ident_name;
  t ← peek;
  _ ← match t with LParen => _ ← next; skip_to_rparen | _ => mret tt end;
  _ ← expect_rp;
  mret (Cast2 e (upper ty)).
Definition parse_substr : parser Expr2 :=
  _ ← expect_lp;
  e ← rec; b ← match_comma;
  if b : bool then
    start ← rec; b ← match_comma;
    if b : bool then len ← rec; _ ← expect_rp; mret (Substr e start len) else fail ESubstr
  else fail ESubstr.

(** [self.peek_at(1)]. *)
Definition peek_next : parser Token := λ ts, Ok (default EOF (ts !! 1%nat), ts).
Definition AGGS : list text := [K "COUNT"; K "SUM"; K "AVG"; K "MIN"; K "MAX"].
Definition keyword_primary (kw : text) : parser Expr2 :=
  let ku := upper kw in
  if text_eqb ku (K "DATE") then
    _ ← next; t ← peek;
    match t with
    | Str s => _ ← next; mret (match date_from_str s with Some d => EDate d | None => EStr s end)
    | _ => fail EDateString
    end
  else if text_eqb ku (K "CASE") then parse_case
  else if text_eqb ku (K "EXTRACT") then _ ← next; parse_extract
  else if text_eqb ku (K "CAST") then _ ← next; parse_cast
  else if bool_decide (ku ∈ AGGS) then _ ← next; parse_agg_call ku
  else
    t ← peek_next;
    match t with LParen => _ ← next; parse_agg_call ku | _ => _ ← next; mret (Col (to_lowercase kw)) end.
Definition call_primary (lower : text) : parser Expr2 :=
  if text_eqb lower (K "substr") || text_eqb lower (K "substring") then parse_substr
  else if text_eqb lower (K "extract") then parse_extract
  else if text_eqb lower (K "cast") then parse_cast
  else if text_eqb lower (K "exists") then _ ← expect_lp; q ← sub_select; mret (Exists2 q false)
  else parse_agg_call (upper lower).
Definition ident_primary (name : text) : parser Expr2 :=
  _ ← next;
  t ← peek;
  match t with
  | LParen => call_primary (to_lowercase name)
  | _ => dot ← match_op [DOT]; if dot : bool then col ← parse_ident_name; mret (Col (name ++ DOT :: col)) else mret (Col name)
  end.
Definition parse_primary : parser Expr2 :=
  t ← peek;
  match t with
  | Int i => _ ← next; mret (EInt i)
  | Float f => _ ← next; mret (EFloat f)
  | Str s => _ ← next; mret (EStr s)
  | Keyword kw => keyword_primary kw
  | Ident name => ident_primary name
  | LParen =>
    _ ← next; t ← peek;
    if starts_select t then q ← sub_select; mret (Subquery q) else e ← rec; _ ← expect_rp; mret e
  | other => fail (ParserM.EExpr other)
  end.

(** *** Operators *)
Fixpoint parse_unary (n : nat) : parser Expr2 :=
  match n with
  | O => fail EFuel
  | S n =>
    minus ← match_op [45];
    if minus : bool then e ← parse_unary n; mret (Neg e)
    else plus ← match_op [43]; if plus : bool then parse_unary n else parse_primary
  end.
Fixpoint binary_loop (accept : Token → option BinOp2) (sub : parser Expr2) (n : nat) (left : Expr2) : parser Expr2 :=
  match n with
  | O => fail EFuel
  | S n =>
    t ← peek;
    match accept t with Some op => _ ← next; right ← sub; binary_loop accept sub n (BinOp op left right) | None => mret left end
  end.
Definition mul_op (t : Token) : option BinOp2 :=
  match t with Op o => if text_eqb o [42] then Some Mul else if text_eqb o [47] then Some Div else None | _ => None end.
Definition add_op (t : Token) : option BinOp2 :=
  match t with Op o => if text_eqb o [43] then Some Add else if text_eqb o [45] then Some Sub else None | _ => None end.
Definition cmp_op (t : Token) : option BinOp2 :=
  match t with
  | Op o => if text_eqb o [61] then Some Eq else if text_eqb o [33; 61] || text_eqb o [60; 62] then Some Ne
            else if text_eqb o [60] then Some Lt else if text_eqb o [62] then Some Gt
            else if text_eqb o [60; 61] then Some Le else if text_eqb o [62; 61] then Some Ge else None
  | _ => None
  end.
Definition kw_op (kw : text) (op : BinOp2) (t : Token) : option BinOp2 := match t with Keyword k => if text_eqb k kw then Some op else None | _ => None end.
Definition and_op : Token → option BinOp2 := kw_op (K "AND") And.
Definition or_op : Token → option BinOp2 := kw_op (K "OR") Or.

Definition parse_multiplicative : parser Expr2 := left ← parse_unary (S fuel); binary_loop mul_op (parse_unary (S fuel)) fuel left.
Definition parse_additive : parser Expr2 := left ← parse_multiplicative; binary_loop add_op parse_multiplicative fuel left.

(** *** Predicates *)
Definition parse_in_rest (left : Expr2) (negated : bool) : parser Expr2 :=
  _ ← expect_lp;
  t ← peek;
  if starts_select t then q ← sub_select; mret (InSubquery left q negated)
  else l ← comma_list rec fuel; _ ← expect_rp; mret (InList left l negated).
Definition parse_between_rest (left : Expr2) (negated : bool) : parser Expr2 :=
  low ← parse_additive; _ ← expect_keyword (K "AND"); high ← parse_additive; mret (Between left low high negated).
Definition parse_like (left : Expr2) (negated : bool) : parser Expr2 := pattern ← parse_additive; mret (Like left pattern negated).
(** [LIKE], [IN] and [BETWEEN], or [otherwise]. *)
Definition predicate (left : Expr2) (negated : bool) (otherwise : parser Expr2) : parser Expr2 :=
  b ← match_ident (K "LIKE");
  if b : bool then parse_like left negated
  else b ← match_ident (K "IN");
       if b : bool then parse_in_rest left negated
       else b ← match_ident (K "BETWEEN"); if b : bool then parse_between_rest left negated else otherwise.
(** A [NOT] that none of these follows is put back. *)
Definition after_not (left : Expr2) : parser Expr2 := λ ts,
  match match_keyword (K "NOT") ts with
  | Err e => Err e
  | Ok (true, ts') => predicate left true (λ _, Ok (left, ts)) ts'
  | Ok (false, ts') => predicate left false (mret left) ts'
  end.
Definition parse_comparison : parser Expr2 :=
  left ← parse_additive;
  t ← peek;
  match cmp_op t with
  | Some op => _ ← next; right ← parse_additive; mret (BinOp op left right)
  | None => after_not left
  end.

Definition parse_exists (negated : bool) : parser Expr2 := _ ← expect_lp; q ← sub_select; mret (Exists2 q negated).
Fixpoint parse_not (n : nat) : parser Expr2 :=
  match n with
  | O => fail EFuel
  | S n =>
    b ← match_keyword (K "NOT");
    if b : bool then
      x ← match_ident (K "EXISTS");
      if x : bool then parse_exists true else e ← parse_not n; mret (Not e)
    else x ← match_ident (K "EXISTS"); if x : bool then parse_exists false else parse_comparison
  end.
Definition parse_and : parser Expr2 := left ← parse_not (S fuel); binary_loop and_op (parse_not (S fuel)) fuel left.
Definition parse_or : parser Expr2 := left ← parse_and; binary_loop or_op parse_and fuel left.

(** *** Queries *)
Definition parse_select_item : parser (Expr2 * option text) :=
  star ← match_op [42];
  if star : bool then mret (EInt 1, None) else e ← rec; alias ← parse_alias; mret (e, alias).
Definition from_table : parser FromItem := name ← parse_ident_name; alias ← parse_alias; mret (FTable name alias).
(** A parenthesis that no query follows is put back. *)
Definition parse_from_item : parser FromItem := λ ts,
  match ts with
  | LParen :: t :: _ =>
    if starts_select t then (_ ← next; q ← sub_select; alias ← parse_alias; mret (Derived q alias)) ts else from_table ts
  | _ => from_table ts
  end.
Definition join_on (ty : JoinType2) : parser (JoinType2 * FromItem * Expr2) :=
  table ← parse_from_item; _ ← expect_keyword (K "ON"); on ← rec; mret (ty, table, on).
Definition parse_join : parser (option (JoinType2 * FromItem * Expr2)) :=
  b ← match_ident (K "LEFT");
  if b : bool then _ ← match_ident (K "OUTER"); _ ← expect_keyword (K "JOIN"); j ← join_on Left; mret (Some j) else
  b ← match_ident (K "INNER");
  if b : bool then _ ← expect_keyword (K "JOIN"); j ← join_on Inner; mret (Some j) else
  b ← match_keyword (K "JOIN");
  if b : bool then j ← join_on Inner; mret (Some j) else mret None.
Fixpoint parse_joins (n : nat) : parser (list (JoinType2 * FromItem * Expr2)) :=
  match n with
  | O => fail EFuel
  | S n => j ← parse_join; match j with Some j => js ← parse_joins n; mret (j :: js) | None => mret [] end
  end.
(** GROUP BY: an integer is skipped. *)
Definition group_item : parser (list Expr2) := t ← peek; match t with Int _ => _ ← next; mret [] | _ => e ← rec; mret [e] end.
Definition order_item : parser (Expr2 * bool) :=
  e ← rec; desc ← match_ident (K "DESC"); if desc : bool then mret (e, false) else _ ← match_ident (K "ASC"); mret (e, true).
Definition clause {A} (kw : text) (default : A) (p : parser A) : parser A := b ← match_keyword kw; if b : bool then p else mret default.
(** [DISTINCT] is read and forgotten. *)
Definition select_body : parser SelectQuery2 :=
  let expr := e ← rec; mret (Some e) in
  _ ← expect_keyword (K "SELECT");
  _ ← match_keyword (K "DISTINCT");
  select ← comma_list parse_select_item fuel;
  _ ← expect_keyword (K "FROM");
  from ← comma_list parse_from_item fuel;
  joins ← parse_joins fuel;
  where_clause ← clause (K "WHERE") None expr;
  group_by ← clause (K "GROUP") [] (_ ← expect_keyword (K "BY"); gs ← comma_list group_item fuel; mret (concat gs));
  having ← clause (K "HAVING") None expr;
  order_by ← clause (K "ORDER") [] (_ ← expect_keyword (K "BY"); comma_list order_item fuel);
  b ← match_ident (K "LIMIT");
  limit ← (if b : bool then n ← parse_usize; mret (Some n) else mret None);
  mret (mkQuery2 select from joins where_clause group_by having order_by limit).
End level.

Fixpoint parse_expr (fuel : nat) : parser Expr2 :=
  match fuel with O => fail EFuel | S fuel => parse_or fuel (parse_expr fuel) (parse_select fuel) end
with parse_select (fuel : nat) : parser SelectQuery2 :=
  match fuel with O => fail EFuel | S fuel => select_body fuel (parse_expr fuel) (parse_select fuel) end.

Definition parse_tokens (tokens : list Token) : result ParseError SelectQuery2 :=
  match parse_select (length tokens) tokens with
  | Err e => Err e
  | Ok (q, ts) =>
    match peek ts with
    | Ok (Semicolon, _) | Ok (EOF, _) => Ok q
    | Ok (other, _) => Err (ParserM.ETrailing other)
    | Err e => Err e
    end
  end.
Definition parse_tpch (uni_alnum : Z → bool) (sql : text) : option (result (LexError + ParseError) SelectQuery2) :=
  match tokenize uni_alnum uni_upper sql with
  | None => None
  | Some (Err e) => Some (Err (inl e))
  | Some (Ok tokens) => Some (match parse_tokens tokens with Ok q => Ok q | Err e => Err (inr e) end)
  end.
End parser.

(** ** Every input is parsed or rejected *)
Import ParserM (proper, eofs, wp, consumed, sane, sane_at, sane_ret, sane_fail, sane_fail_bind, sane_bind, sane_bind_strict, sane_peek, sane_at_of, sane_at_next, sane_assoc, sane_at_assoc, sane_test, sane_sub, sane_zero, test, test_keyword, test_op, test_ident, wp_mono, eofs_nil, eofs_cons).

Lemma test_comma : test match_comma.
Proof. intros t ts. unfold match_comma, mbind, parser_bind. simpl. destruct t; try (by left). by right. Qed.
Lemma test_lp : test match_lp.
Proof. intros t ts. unfold match_lp, mbind, parser_bind. simpl. destruct t; try (by left). by right. Qed.
#[local] Hint Resolve test_keyword test_op test_ident : sane.
Ltac tpch_step :=
  match goal with
  | |- sane _ (match_comma ≫= _) _ => apply sane_test; [exact test_comma|..]
  | |- sane _ (match_lp ≫= _) _ => apply sane_test; [exact test_lp|..]
  | |- sane_at _ _ (fail _) _ => apply sane_at_of
  | |- sane _ _ _ => ParserM.sane_step
  | |- sane_at _ _ _ _ => ParserM.sane_step
  end.
Ltac tpch_sane := repeat first [progress cbn beta iota | tpch_step].

Section total.
Context (uni_upper : Z → list Z) (to_lowercase : text → text) (date_from_str : text → option Z).

Lemma sane_expect_kw kw n : sane true (expect_keyword kw) n.
Proof. apply ParserM.sane_expect_keyword. Qed.
Lemma sane_expect_lp n : sane true expect_lp n.
Proof. unfold expect_lp. tpch_sane. Qed.
Lemma sane_expect_rp n : sane true expect_rp n.
Proof.
  intros [|t ts] He Hl; [by apply eofs_nil in He|]. destruct (decide (t = RParen)) as [->|Ht].
  - split; [by eapply eofs_cons|cbn; lia].
  - destruct t; try (split; discriminate). done.
Qed.
Lemma sane_ident_name n : sane true (parse_ident_name to_lowercase) n.
Proof. unfold parse_ident_name. tpch_sane. Qed.
#[local] Hint Resolve sane_expect_kw sane_expect_lp sane_expect_rp sane_ident_name ParserM.sane_usize ParserM.sane_skip : sane.
Lemma sane_parse_alias n : sane false (parse_alias to_lowercase) n.
Proof. unfold parse_alias. tpch_sane. Qed.
#[local] Hint Resolve sane_parse_alias : sane.

Lemma sane_comma_list {A} (p : parser A) n k : sane true p n → (k <= n)%nat → sane true (comma_list p k) k.
Proof. intros Hp. induction k as [|k IH]; intros Hk; [apply sane_zero|]. specialize (IH ltac:(lia)). cbn [comma_list]. tpch_sane. Qed.

Section level.
Context (n : nat) (rec : parser Expr2) (rec_select : parser SelectQuery2).
Context (Hrec : sane true rec n) (Hsel : sane true rec_select n).

Lemma sane_sub_select m : (m <= n)%nat → sane true (sub_select rec_select) m.
Proof. intros Hm. unfold sub_select. tpch_sane. Qed.
#[local] Hint Extern 1 (sane _ (sub_select _) _) => apply sane_sub_select; lia : sane.

Lemma sane_agg_call f : sane true (parse_agg_call rec f) (S n).
Proof. unfold parse_agg_call. tpch_sane; destruct (agg_of _ _); tpch_sane. Qed.
Lemma sane_whens k : (k <= n)%nat → sane false (when_loop rec k) k.
Proof. induction k as [|k IH]; intros Hk; [apply sane_zero|]. specialize (IH ltac:(lia)). cbn [when_loop]. tpch_sane. Qed.
Lemma sane_parse_case : sane true (parse_case n rec) (S n).
Proof. pose proof (sane_whens n (le_n n)). unfold parse_case. tpch_sane. Qed.
Lemma sane_parse_extract : sane true (parse_extract to_lowercase rec) (S n).
Proof. unfold parse_extract. tpch_sane. Qed.
Lemma sane_parse_cast : sane true (parse_cast uni_upper to_lowercase rec) (S n).
Proof. unfold parse_cast. tpch_sane. Qed.
Lemma sane_parse_substr : sane true (parse_substr rec) (S n).
Proof. unfold parse_substr. tpch_sane. Qed.
#[local] Hint Resolve sane_agg_call sane_parse_case sane_parse_extract sane_parse_cast sane_parse_substr : sane.

Lemma sane_peek_next {B} s t (f : Token → parser B) m : (∀ u, sane_at t s (f u) m) → sane_at t s (peek_next ≫= f) m.
Proof. intros Hf ts He Hl. apply (Hf _ ts He Hl). Qed.
Lemma sane_keyword kw : sane_at (Keyword kw) true (keyword_primary uni_upper to_lowercase date_from_str n rec kw) (S n).
Proof.
  unfold keyword_primary. cbn zeta. repeat (destruct (text_eqb _ _); [tpch_sane|]). destruct (bool_decide _); [tpch_sane|].
  apply sane_peek_next. intros []; tpch_sane.
Qed.
Lemma sane_call lower : sane true (call_primary uni_upper to_lowercase rec rec_select lower) (S n).
Proof. unfold call_primary. tpch_sane. Qed.
Lemma sane_ident name : sane_at (Ident name) true (ident_primary uni_upper to_lowercase rec rec_select name) (S n).
Proof.
  assert (∀ lower, sane true (call_primary uni_upper to_lowercase rec rec_select lower) n) as Hc
    by (intros; eapply sane_sub; [apply sane_call|lia|done]).
  unfold ident_primary. apply sane_at_next; [done|]. intros _. rewrite Nat.sub_1_r. cbn [Nat.pred].
  apply sane_peek. intros []; tpch_sane.
Qed.
Lemma sane_parse_primary : sane true (parse_primary uni_upper to_lowercase date_from_str n rec rec_select) (S n).
Proof.
  unfold parse_primary. apply sane_peek. intros t. destruct t; try apply sane_keyword; try apply sane_ident; tpch_sane.
Qed.
Lemma sane_parse_unary k : (k <= S n)%nat → sane true (parse_unary uni_upper to_lowercase date_from_str n rec rec_select k) k.
Proof.
  pose proof sane_parse_primary. induction k as [|k IH]; intros Hk; [apply sane_zero|]. specialize (IH ltac:(lia)).
  cbn [parse_unary]. tpch_sane.
Qed.
Lemma sane_loop accept sub k left :
  accept EOF = None → sane true sub n → (k <= n)%nat → sane false (binary_loop accept sub k left) k.
Proof.
  intros Ha Hsub. revert left. induction k as [|k IH]; intros left Hk; [apply sane_zero|]. cbn [binary_loop].
  assert (∀ left, sane false (binary_loop accept sub k left) k) as IH' by (intros; apply IH; lia).
  apply sane_peek. intros t. destruct (accept t) eqn:E; [|tpch_sane].
  apply sane_at_next; [by intros ->; rewrite Ha in E|]. intros _. tpch_sane.
Qed.
Lemma sane_level accept sub : accept EOF = None → sane true sub (S n) → sane true (left ← sub; binary_loop accept sub n left) (S n).
Proof.
  intros Ha Hsub. apply sane_bind_strict; [done|]. intros left. rewrite Nat.sub_1_r.
  apply sane_loop; [done| |done]. eapply sane_sub; [done|lia|done].
Qed.
Lemma sane_parse_additive : sane true (parse_additive uni_upper to_lowercase date_from_str n rec rec_select) (S n).
Proof. apply sane_level; [done|]. apply sane_level; [done|]. by apply sane_parse_unary. Qed.

Lemma sane_predicate s left negated otherwise m : (m <= n)%nat → sane s otherwise m →
  sane s (predicate uni_upper to_lowercase date_from_str n rec rec_select left negated otherwise) m.
Proof.
  intros Hm Ho. pose proof sane_parse_additive. pose proof (sane_comma_list rec n n Hrec (le_n n)).
  unfold predicate, parse_like, parse_in_rest, parse_between_rest. tpch_sane.
Qed.
Lemma sane_tpch_not left m : (m <= n)%nat → sane false (after_not uni_upper to_lowercase date_from_str n rec rec_select left) m.
Proof.
  intros Hm ts He Hl. unfold after_not. destruct ts as [|t ts]; [by apply eofs_nil in He|].
  destruct (test_keyword (K "NOT") t ts) as [->|[Ht ->]].
  - apply (sane_predicate false left false (mret left) m Hm (sane_ret _ _)); done.
  - assert (Hts : eofs ts) by by eapply eofs_cons. cbn [length] in Hl.
    assert (Hp : wp (predicate uni_upper to_lowercase date_from_str n rec rec_select left true (λ _, Ok (left, t :: ts)) ts) (consumed false (t :: ts))).
    { unfold predicate, mbind, parser_bind.
      destruct ts as [|u us]; [by apply eofs_nil in Hts|]. pose proof sane_parse_additive as Ha. pose proof (sane_comma_list rec n n Hrec (le_n n)) as Hc.
      assert (Hmono : ∀ p : parser Expr2, sane false p n → u ≠ EOF → wp (p us) (consumed false (t :: u :: us))).
      { intros p Hp Hu. eapply wp_mono; [apply (Hp us); [by eapply eofs_cons|cbn in Hl; lia]|]. intros ts' [H1 H2]. split; [done|cbn in *; lia]. }
      destruct (test_ident (K "LIKE") u us) as [->|[Hu ->]]; [|apply Hmono; [unfold parse_like; tpch_sane|done]].
      destruct (test_ident (K "IN") u us) as [->|[Hu ->]]; [|apply Hmono; [unfold parse_in_rest; tpch_sane|done]].
      destruct (test_ident (K "BETWEEN") u us) as [->|[Hu ->]]; [|apply Hmono; [unfold parse_between_rest; tpch_sane|done]].
      split; [done|cbn; lia]. }
    done.
Qed.
Lemma sane_parse_comparison : sane true (parse_comparison uni_upper to_lowercase date_from_str n rec rec_select) (S n).
Proof.
  pose proof sane_parse_additive. unfold parse_comparison. apply sane_bind_strict; [done|]. intros left. rewrite Nat.sub_1_r. cbn [Nat.pred].
  apply sane_peek. intros t. destruct (cmp_op t) eqn:E.
  - apply sane_at_next; [by intros ->|]. intros _. tpch_sane.
  - apply sane_at_of. by apply sane_tpch_not.
Qed.
Lemma sane_exists negated m : (m <= S n)%nat → sane true (parse_exists rec_select negated) m.
Proof. intros Hm. unfold parse_exists. tpch_sane. Qed.
Lemma sane_parse_not k : (k <= S n)%nat → sane true (parse_not uni_upper to_lowercase date_from_str n rec rec_select k) k.
Proof.
  pose proof sane_parse_comparison. induction k as [|k IH]; intros Hk; [apply sane_zero|]. specialize (IH ltac:(lia)).
  assert (∀ b m, (m <= S n)%nat → sane true (parse_exists rec_select b) m) as He by (intros; by apply sane_exists).
  cbn [parse_not]. apply sane_test; [apply test_keyword| |].
  - apply sane_test; [apply test_ident| |]; [eapply sane_sub; [apply (He true k); lia|lia|done]|tpch_sane].
  - apply sane_test; [apply test_ident| |]; [eapply sane_sub; [apply (He false k); lia|lia|done]|tpch_sane].
Qed.
Lemma sane_parse_or : sane true (parse_or uni_upper to_lowercase date_from_str n rec rec_select) (S n).
Proof. apply sane_level; [done|]. apply sane_level; [done|]. by apply sane_parse_not. Qed.

Lemma sane_parse_select_item : sane true (parse_select_item to_lowercase rec) n.
Proof. unfold parse_select_item. tpch_sane. Qed.
Lemma sane_from_item : sane true (parse_from_item to_lowercase rec_select) n.
Proof.
  assert (Ht : sane true (from_table to_lowercase) n) by (unfold from_table; tpch_sane).
  intros ts He Hl. unfold parse_from_item. destruct ts as [|[] [|u us]]; try by apply Ht. destruct (starts_select u); [|by apply Ht].
  assert (Hs : sane_at LParen true (_ ← next; q ← sub_select rec_select; alias ← parse_alias to_lowercase; mret (Derived q alias)) n).
  { apply sane_at_next; [done|]. intros _. tpch_sane. }
  by apply Hs.
Qed.
Lemma sane_join_on ty : sane true (join_on to_lowercase rec rec_select ty) n.
Proof. pose proof sane_from_item. unfold join_on. tpch_sane. Qed.
Lemma sane_parse_join {B} m (f : option (JoinType2 * FromItem * Expr2) → parser B) :
  (m <= n)%nat → (∀ j, sane false (f (Some j)) (m - 1)) → sane false (f None) m →
  sane false (parse_join to_lowercase rec rec_select ≫= f) m.
Proof.
  intros Hm H1 H2. pose proof (sane_join_on Left). pose proof (sane_join_on Inner). unfold parse_join. tpch_sane.
Qed.
Lemma sane_parse_joins k : (k <= n)%nat → sane false (parse_joins to_lowercase rec rec_select k) k.
Proof.
  induction k as [|k IH]; intros Hk; [apply sane_zero|]. specialize (IH ltac:(lia)). cbn [parse_joins].
  apply sane_parse_join; [lia| |tpch_sane]. intros j. tpch_sane.
Qed.
Lemma sane_group_item : sane true (group_item rec) n.
Proof. unfold group_item. tpch_sane. Qed.
Lemma sane_order_item : sane true (order_item rec) n.
Proof. unfold order_item. tpch_sane. Qed.
Lemma sane_parse_clause {A} kw (d : A) (p : parser A) m : sane false p (m - 1) → sane false (clause kw d p) m.
Proof. intros Hp. unfold clause. tpch_sane. Qed.
Lemma sane_select_body : sane true (select_body to_lowercase n rec rec_select) (S n).
Proof.
  pose proof (sane_comma_list _ n n sane_parse_select_item (le_n n)). pose proof (sane_comma_list _ n n sane_from_item (le_n n)).
  pose proof (sane_comma_list _ n n sane_group_item (le_n n)). pose proof (sane_comma_list _ n n sane_order_item (le_n n)).
  pose proof (sane_parse_joins n (le_n n)). unfold select_body. cbn zeta.
  repeat first [ progress cbn beta iota
               | match goal with |- sane _ (clause _ _ _ ≫= _) _ => apply sane_bind; [apply sane_parse_clause|intros ?] end
               | tpch_step ].
Qed.
End level.

Lemma sane_parse n : sane true (parse_expr uni_upper to_lowercase date_from_str n) n ∧ sane true (parse_select uni_upper to_lowercase date_from_str n) n.
Proof.
  induction n as [|n [IH1 IH2]]; [split; apply sane_zero|]. split; [by apply sane_parse_or|by apply sane_select_body].
Qed.
End total.

(** parsing a query for the TPC-H interpreter is total.  Whatever the text, the result is a
    query, an error of the tokenizer or one of the documented errors of the parser: the cursor
    never leaves the tokens, every loop ends, and as many levels of nesting, of subqueries
    too, as there are tokens are enough. *)
Theorem parse_tpch_total uni_upper to_lowercase date_from_str uni_alnum (sql : text) :
  ∃ r, parse_tpch uni_upper to_lowercase date_from_str uni_alnum sql = Some r ∧
    match r with Err (inr e) => e ≠ EFuel ∧ e ≠ EIndex | _ => True end.
Proof.
  unfold parse_tpch, tokenize. destruct (lex_loop_total uni_alnum uni_upper (S (length sql)) sql) as [[ts|e] H]; [lia| |]; rewrite H; [|by eexists].
  destruct (lex_loop_eof _ _ _ _ _ H) as (ts' & -> & _). eexists. split; [reflexivity|]. unfold parse_tokens.
  destruct (sane_parse uni_upper to_lowercase date_from_str (length (ts' ++ [EOF]))) as [_ Hs].
  specialize (Hs (ts' ++ [EOF]) (ex_intro _ ts' eq_refl) (le_n _)).
  destruct (parse_select _ _ _ _ _) as [[q ts]|e]; [|done]. destruct Hs as [H1 _].
  destruct ts as [|t ts]; [by apply eofs_nil in H1|]. simpl. destruct t; done.
Qed.

(** [LIMIT] is no keyword of the tokenizer: after a table without an alias it is read as the alias, and the query is refused. *)
Lemma limit_read_as_alias :
  parse_tpch (λ c, [c]) id (λ _, None) (λ _, true) (chars_of "SELECT a FROM t LIMIT 5") = Some (Err (inr (ParserM.ETrailing (Int 5)))) ∧
  parse_tpch (λ c, [c]) id (λ _, None) (λ _, true) (chars_of "SELECT a FROM t x LIMIT 5") =
    Some (Ok (mkQuery2 [(Col (K "a"), None)] [FTable (K "t") (Some (K "x"))] [] None [] None [] (Some 5))).
Proof. split; vm_compute; reflexivity. Qed.

End TpchM.
