(* ===== verification/TpchPrint.v ===== *)
(** * Printing TPC-H queries, and reading them back (src/src/engine/tpch.rs)

    A printer of the queries of [Tpch] with the fewest parentheses the precedences of the
    parser allow, and the round trip: subqueries, EXISTS, IN, derived tables and all. *)

From Stdlib Require Import ZArith Lia Ascii String.
From stdpp Require Import prelude list numbers.
From S2P Require Import Prelude Lexer Parser Printer Tpch.
Local Open Scope Z_scope.

Module TpchPrintM.
Import LexerM TpchM.
Import ParserM (K, parser, parser_ret, parser_bind, fail, peek, next, bump, text_eqb, match_keyword, expect_keyword, match_op, match_ident, parse_usize, eq_ignore_ascii_case, ParseError (..)).
Import PrinterM (bind_ok, bind_peek, bind_next, text_eqb_refl, match_keyword_yes, expect_keyword_yes, sep_by, sep_by_cons, split_dot, print_name).

(** ** The printer *)
Definition op_level (op : BinOp2) : nat :=
  match op with Or => 0 | And => 1 | Eq | Ne | Lt | Gt | Le | Ge => 3 | Add | Sub => 4 | Mul | Div => 5 end.
Definition level (e : Expr2) : nat :=
  match e with
  | BinOp op _ _ => op_level op
  | Exists2 _ _ | Not _ => 2
  | Like _ _ _ | Between _ _ _ _ | InList _ _ _ | InSubquery _ _ _ => 3
  | Neg _ => 6
  | _ => 7
  end.
Definition op_token (op : BinOp2) : Token :=
  match op with
  | Or => Keyword (K "OR") | And => Keyword (K "AND") | Eq => Op [61] | Ne => Op [33; 61] | Lt => Op [60] | Gt => Op [62]
  | Le => Op [60; 61] | Ge => Op [62; 61] | Add => Op [43] | Sub => Op [45] | Mul => Op [42] | Div => Op [47]
  end.
(** The levels of the operands of a level. *)
Definition left_level (k : nat) : nat := match k with 3%nat => 4%nat | _ => k end.
Definition is_exists (e : Expr2) : bool := match e with Exists2 _ _ => true | _ => false end.
Definition agg_name (f : AggFunc) : text :=
  match f with Sum => K "sum" | Avg => K "avg" | Count | CountDistinct => K "count" | Min => K "min" | Max => K "max" end.
Definition not_kw (neg : bool) : list Token := if neg then [Keyword (K "NOT")] else [].
Definition print_alias (a : option text) : list Token := match a with Some a => [Keyword (K "AS"); Ident a] | None => [] end.
Definition by_list (kw : string) (ls : list (list Token)) : list Token :=
  match ls with [] => [] | _ => Keyword (K kw) :: Keyword (K "BY") :: sep_by ls end.
Definition print_limit (l : option Z) : list Token := match l with Some n => [Ident (K "LIMIT"); Int n] | None => [] end.
Definition join_kw (ty : JoinType2) : Token := match ty with Left => Keyword (K "LEFT") | Inner => Keyword (K "INNER") end.
(** A clause that may be absent. *)
Definition print_opt {A} (kw : string) (p : A → list Token) (x : option A) : list Token :=
  match x with Some x => Keyword (K kw) :: p x | None => [] end.

Section printer.
Context (show_date : Z → text).

Fixpoint print_expr (k : nat) (e : Expr2) : list Token :=
  let paren l := if Nat.ltb (level e) k then LParen :: l ++ [RParen] else l in
  paren match e with
  | Col s => print_name s
  | EInt i => [Int i]
  | EFloat s => [Float s]
  | EStr s => [Str s]
  | EDate d => [Keyword (K "DATE"); Str (show_date d)]
  | BinOp op l r => print_expr (left_level (op_level op)) l ++ op_token op :: print_expr (S (op_level op)) r
  | Like x p neg => print_expr 4 x ++ not_kw neg ++ Keyword (K "LIKE") :: print_expr 4 p
  | Between x lo hi neg =>
    print_expr 4 x ++ not_kw neg ++ Keyword (K "BETWEEN") :: print_expr 4 lo ++ Keyword (K "AND") :: print_expr 4 hi
  | InList x l neg => print_expr 4 x ++ not_kw neg ++ Keyword (K "IN") :: LParen :: sep_by (print_expr 0 <$> l) ++ [RParen]
  | InSubquery x q neg => print_expr 4 x ++ not_kw neg ++ Keyword (K "IN") :: LParen :: print_query q ++ [RParen]
  | Exists2 q neg => not_kw neg ++ Keyword (K "EXISTS") :: LParen :: print_query q ++ [RParen]
  | Case2 ws els =>
    Keyword (K "CASE") ::
      concat ((λ '(c, r), Keyword (K "WHEN") :: print_expr 0 c ++ Keyword (K "THEN") :: print_expr 0 r) <$> ws) ++
      print_opt "ELSE" (print_expr 0) els ++ [Keyword (K "END")]
  | Extract2 field x => Keyword (K "EXTRACT") :: LParen :: Ident field :: Keyword (K "FROM") :: print_expr 0 x ++ [RParen]
  | Cast2 x ty => Keyword (K "CAST") :: LParen :: print_expr 0 x ++ [Keyword (K "AS"); Ident ty; RParen]
  | Substr x start len =>
    Ident (K "substr") :: LParen :: print_expr 0 x ++ Comma :: print_expr 0 start ++ Comma :: print_expr 0 len ++ [RParen]
  | Agg f arg distinct =>
    Ident (agg_name f) :: LParen :: (if distinct then [Keyword (K "DISTINCT")] else []) ++
      match arg with CountStar => [Op [42]] | _ => print_expr 0 arg end ++ [RParen]
  | CountStar => []
  | Subquery q => LParen :: print_query q ++ [RParen]
  | Not x => Keyword (K "NOT") :: print_expr (if is_exists x then 3 else 2) x
  | Neg x => Op [45] :: print_expr 6 x
  end
with print_from (f : FromItem) : list Token :=
  match f with
  | FTable name alias => Ident name :: print_alias alias
  | Derived q alias => LParen :: print_query q ++ RParen :: print_alias alias
  end
with print_query (q : SelectQuery2) : list Token :=
  match q with
  | mkQuery2 select from joins where_clause group_by having order_by limit =>
    Keyword (K "SELECT") :: sep_by ((λ '(e, a), print_expr 0 e ++ print_alias a) <$> select) ++
    Keyword (K "FROM") :: sep_by (print_from <$> from) ++
    concat ((λ '(ty, f, on), join_kw ty :: Keyword (K "JOIN") :: print_from f ++ Keyword (K "ON") :: print_expr 0 on) <$> joins) ++
    print_opt "WHERE" (print_expr 0) where_clause ++
    by_list "GROUP" (print_expr 0 <$> group_by) ++
    print_opt "HAVING" (print_expr 0) having ++
    by_list "ORDER" ((λ '(e, asc), print_expr 0 e ++ (if asc : bool then [] else [Ident (K "DESC")])) <$> order_by) ++
    print_limit limit
  end.
End printer.

(** ** Queries that can be printed *)
(** What the parser never returns is excluded: an empty list, [*] outside an aggregate, a name that reads as [EXISTS]. *)
Definition no_ident (w : string) (t : Token) : bool :=
  match t with Ident s | Keyword s => negb (eq_ignore_ascii_case s (K w)) | _ => true end.
Definition not_int (ts : list Token) : Prop := match ts with Int _ :: _ => False | _ => True end.
Definition has_alias (f : option FromItem) : Prop := match f with Some (FTable _ (Some _)) | Some (Derived _ (Some _)) => True | _ => False end.

Section wf.
Context (uni_upper : Z → list Z) (date_from_str : text → option Z) (show_date : Z → text).

Fixpoint wf_expr (e : Expr2) : Prop :=
  match e with
  | Col s => no_ident "EXISTS" (Ident (split_dot s).1) = true
  | EInt _ | EFloat _ | EStr _ => True
  | EDate d => date_from_str (show_date d) = Some d
  | BinOp _ l r => wf_expr l ∧ wf_expr r
  | Like x p _ => wf_expr x ∧ wf_expr p
  | Between x lo hi _ => wf_expr x ∧ wf_expr lo ∧ wf_expr hi
  | InList x l _ => wf_expr x ∧ l ≠ [] ∧ foldr (λ y P, wf_expr y ∧ P) True l
  | InSubquery x q _ => wf_expr x ∧ wf_query q
  | Exists2 q _ | Subquery q => wf_query q
  | Case2 ws els => foldr (λ '(c, r) P, (wf_expr c ∧ wf_expr r) ∧ P) True ws ∧ match els with Some x => wf_expr x | None => True end
  | Extract2 _ x | Not x | Neg x => wf_expr x
  | Cast2 x ty => wf_expr x ∧ upper uni_upper ty = ty
  | Substr x start len => wf_expr x ∧ wf_expr start ∧ wf_expr len
  | Agg f arg distinct =>
    match f with Count => distinct = false | CountDistinct => distinct = true | _ => True end ∧
    match arg with CountStar => True | _ => wf_expr arg end
  | CountStar => False
  end
with wf_from (f : FromItem) : Prop := match f with FTable _ _ => True | Derived q _ => wf_query q end
with wf_query (q : SelectQuery2) : Prop :=
  match q with
  | mkQuery2 select from joins where_clause group_by having order_by limit =>
    (select ≠ [] ∧ foldr (λ '(e, _) P, wf_expr e ∧ P) True select) ∧
    (from ≠ [] ∧ foldr (λ f P, wf_from f ∧ P) True from) ∧
    foldr (λ '(_, f, on) P, (wf_from f ∧ wf_expr on) ∧ P) True joins ∧
    match where_clause with Some e => wf_expr e | None => True end ∧
    foldr (λ e P, (wf_expr e ∧ not_int (print_expr show_date 0 e)) ∧ P) True group_by ∧
    match having with Some e => wf_expr e | None => True end ∧
    foldr (λ '(e, _) P, wf_expr e ∧ P) True order_by ∧
    match limit with
    | Some n => 0 <= n < 2 ^ 64 ∧ (joins ≠ [] ∨ where_clause ≠ None ∨ group_by ≠ [] ∨ having ≠ None ∨ order_by ≠ [] ∨ has_alias (list.last from))
    | None => True
    end
  end.
End wf.

(** ** How printed expressions begin *)
Definition none {A} (o : option A) : bool := match o with None => true | Some _ => false end.
Definition head_ok (k : nat) (t : Token) : bool :=
  negb (starts_select t) && negb (bool_decide (t = Op [42])) && none (kw_op (K "DISTINCT") Or t) &&
  (Nat.ltb k 3 || (negb (bool_decide (t = Keyword (K "NOT"))) && no_ident "EXISTS" t)) &&
  (Nat.ltb k 7 || (negb (bool_decide (t = Op [45])) && negb (bool_decide (t = Op [43])))).
Definition heads (k : nat) (ts : list Token) : Prop := match ts with t :: _ => head_ok k t = true | [] => False end.

Lemma head_ok_mono k k' t : head_ok k' t = true → (k <= k')%nat → head_ok k t = true.
Proof. unfold head_ok. rewrite !andb_true_iff, !orb_true_iff, !Nat.ltb_lt. intuition lia. Qed.
Lemma heads_app k ts rest : heads k ts → heads k (ts ++ rest).
Proof. by destruct ts. Qed.
Lemma heads_mono k k' ts : heads k' ts → (k <= k')%nat → heads k ts.
Proof. destruct ts as [|t ts]; [done|]. apply head_ok_mono. Qed.

Section printing.
Context (uni_upper : Z → list Z) (date_from_str : text → option Z) (show_date : Z → text).
Abbreviation print := (print_expr show_date).
Abbreviation wf := (wf_expr uni_upper date_from_str show_date).

Lemma print_in_parens k e : (level e < k)%nat → print k e = LParen :: print 0 e ++ [RParen].
Proof. intros H. apply Nat.ltb_lt in H. destruct e; cbn [print_expr]; by rewrite H. Qed.
Lemma print_at k e : (k <= level e)%nat → print k e = print 0 e.
Proof. intros H. apply Nat.ltb_ge in H. destruct e; cbn [print_expr]; by rewrite H. Qed.
Lemma print_next k e : level e ≠ k → print k e = print (S k) e.
Proof.
  intros H. destruct (decide (level e < k)%nat); [by rewrite (print_in_parens k), (print_in_parens (S k)) by lia|].
  by rewrite (print_at k), (print_at (S k)) by lia.
Qed.
Lemma print_shortest k e : (length (print 0 e) <= length (print k e))%nat.
Proof.
  destruct (decide (level e < k)%nat); [rewrite (print_in_parens k) by done|by rewrite (print_at k) by lia].
  simpl. rewrite length_app. simpl. lia.
Qed.

Lemma op_level_le op : (op_level op <= left_level (op_level op))%nat.
Proof. destruct op; simpl; lia. Qed.
Lemma print_heads k e : wf e → heads k (print k e).
Proof.
  revert k. induction e; intros k Hw; match goal with |- heads _ (print _ ?e) => destruct (decide (level e < k)%nat) as [Hl|Hl];
    [rewrite (print_in_parens k e) by done; unfold heads, head_ok; cbn; by rewrite !orb_true_r|rewrite (print_at k e) by lia] end;
    cbn [level] in Hl; cbn [print_expr Nat.ltb Nat.leb]; cbn [wf_expr] in Hw; try done;
    try (by unfold heads, head_ok; cbn; rewrite ?orb_true_r);
    try (apply heads_app; eapply heads_mono; [apply IHe1; by destruct Hw|lia]);
    try (apply heads_app; eapply heads_mono; [apply IHe; by destruct Hw|lia]).
  - unfold print_name. pose proof Hw as Hn. destruct (split_dot s) as [x [y|]]; cbn [fst] in Hn; unfold heads, head_ok; rewrite Hn; cbn; by rewrite !orb_true_r.
  - apply heads_app. eapply heads_mono; [apply IHe1; by destruct Hw|]. pose proof (op_level_le op). lia.
  - unfold heads, head_ok. rewrite (proj2 (Nat.ltb_lt k 3)), (proj2 (Nat.ltb_lt k 7)) by lia. by destruct negated.
  - destruct func; unfold heads, head_ok; cbn; by rewrite !orb_true_r.
  - unfold heads, head_ok. by rewrite (proj2 (Nat.ltb_lt k 3)), (proj2 (Nat.ltb_lt k 7)) by lia.
  - unfold heads, head_ok. rewrite (proj2 (Nat.ltb_lt k 7)) by lia. cbn. by rewrite !orb_true_r.
Qed.
Lemma print_nonempty k e : wf e → (1 <= length (print k e))%nat.
Proof. intros H. pose proof (print_heads k e H) as Hh. destruct (print k e); [done|cbn; lia]. Qed.
End printing.

(** ** What may follow a printed expression *)
Definition no_predicate (t : Token) : bool :=
  none (cmp_op t) && none (kw_op (K "NOT") Or t) && no_ident "LIKE" t && no_ident "IN" t && no_ident "BETWEEN" t.
Definition stop (k : nat) (t : Token) : bool :=
  match t with LParen => false | Op o => negb (text_eqb o [DOT]) | _ => true end &&
  (Nat.ltb 5 k || none (mul_op t)) && (Nat.ltb 4 k || none (add_op t)) && (Nat.ltb 3 k || no_predicate t) &&
  (Nat.ltb 1 k || none (and_op t)) && (Nat.ltb 0 k || none (or_op t)).
Definition stops (k : nat) (ts : list Token) : Prop := match ts with t :: _ => stop k t = true | [] => False end.
Lemma stops_up k k' ts : stops k ts → (k <= k')%nat → stops k' ts.
Proof.
  destruct ts as [|t ts]; [done|]. unfold stops, stop. rewrite !andb_true_iff, !orb_true_iff, !Nat.ltb_lt. intuition lia.
Qed.

(** ** Steps of the parser on what is printed *)
Lemma keyword_no kw t ts : none (kw_op kw Or t) = true → match_keyword kw (t :: ts) = Ok (false, t :: ts).
Proof. intros H. unfold match_keyword. rewrite bind_peek. destruct t; try done. cbn in H. by destruct (text_eqb s kw). Qed.
Lemma ident_no w t ts : no_ident w t = true → match_ident (K w) (t :: ts) = Ok (false, t :: ts).
Proof. intros H. unfold match_ident. rewrite bind_peek. destruct t; try done; cbn in H; apply negb_true_iff in H; by rewrite H. Qed.
Lemma ident_yes w ts : match_ident (K w) (Keyword (K w) :: ts) = Ok (true, ts).
Proof. unfold match_ident. rewrite bind_peek. unfold eq_ignore_ascii_case. by rewrite text_eqb_refl. Qed.
Lemma op_no o t ts : t ≠ Op o → match_op o (t :: ts) = Ok (false, t :: ts).
Proof.
  intros H. unfold match_op. rewrite bind_peek. destruct t; try done. destruct (text_eqb s o) eqn:E; [|done].
  unfold text_eqb in E. apply bool_decide_eq_true in E. congruence.
Qed.
Lemma op_yes o ts : match_op o (Op o :: ts) = Ok (true, ts).
Proof. unfold match_op. rewrite bind_peek, text_eqb_refl. done. Qed.
Lemma lp_yes ts : expect_lp (LParen :: ts) = Ok (tt, ts).
Proof. done. Qed.
Lemma rp_yes ts : expect_rp (RParen :: ts) = Ok (tt, ts).
Proof. done. Qed.

(** The list of SELECT DISTINCT keeps its duplicates: the word leaves no trace in the query. *)
Lemma distinct_forgotten uni_upper to_lowercase date_from_str fuel (t : Token) ts : none (kw_op (K "DISTINCT") Or t) = true →
  parse_select uni_upper to_lowercase date_from_str fuel (Keyword (K "SELECT") :: Keyword (K "DISTINCT") :: t :: ts) =
  parse_select uni_upper to_lowercase date_from_str fuel (Keyword (K "SELECT") :: t :: ts).
Proof.
  intros Ht. destruct fuel as [|fuel]; [done|]. cbn [parse_select]. unfold select_body. cbn zeta.
  rewrite !(bind_ok _ _ _ _ _ (expect_keyword_yes _ _)). by rewrite (bind_ok _ _ _ _ _ (match_keyword_yes _ _)), (bind_ok _ _ _ _ _ (keyword_no _ _ _ Ht)).
Qed.

(** A list separated by commas. *)
Definition not_comma (ts : list Token) : Prop := match ts with Comma :: _ => False | [] => False | _ => True end.
Lemma comma_list_last {A B} (p : parser B) (pr : A → list Token) (f : A → B) xs rest n :
  xs ≠ [] → (length xs <= n)%nat → not_comma rest →
  (∀ x ts, x ∈ xs → p (pr x ++ Comma :: ts) = Ok (f x, Comma :: ts)) →
  (∀ x, list.last xs = Some x → p (pr x ++ rest) = Ok (f x, rest)) →
  comma_list p n (sep_by (pr <$> xs) ++ rest) = Ok (f <$> xs, rest).
Proof.
  intros Hne Hn Hc. revert n Hne Hn. induction xs as [|x xs IH]; intros n Hne Hn Hp Hl; [done|].
  destruct n as [|n]; [cbn in Hn; lia|]. cbn [comma_list]. destruct xs as [|y xs].
  - cbn [fmap list_fmap sep_by]. rewrite (bind_ok _ _ _ (f x) rest) by by apply Hl.
    destruct rest as [|t rest]; [done|]. by destruct t.
  - rewrite fmap_cons, sep_by_cons by done. erewrite bind_ok by (apply Hp; by left).
    change (match_comma (Comma :: ?ts)) with (Ok (E := ParseError) (true, ts)). erewrite bind_ok by reflexivity. cbn iota.
    erewrite bind_ok; [done|]. apply IH; [done|cbn in Hn |- *; lia| |done]. intros z ts Hz. apply Hp. by right.
Qed.
Lemma comma_list_print {A} (p : parser A) (pr : A → list Token) (R : list Token → Prop) xs rest n :
  xs ≠ [] → (length xs <= n)%nat → not_comma rest → R rest → (∀ ts, R (Comma :: ts)) →
  (∀ x ts, x ∈ xs → R ts → p (pr x ++ ts) = Ok (x, ts)) →
  comma_list p n (sep_by (pr <$> xs) ++ rest) = Ok (xs, rest).
Proof.
  intros Hne Hn Hc HR HRc Hp. rewrite <- (list_fmap_id xs) at 2. apply comma_list_last; [done..| |].
  - intros x ts Hx. by apply Hp.
  - intros x Hx. apply Hp; [by apply list.last_Some_elem_of|done].
Qed.
Lemma length_sep_by {A} (pr : A → list Token) xs : (∀ x, x ∈ xs → 1 <= length (pr x))%nat → (length xs <= length (sep_by (pr <$> xs)))%nat.
Proof.
  induction xs as [|x xs IH]; intros H; [cbn; lia|]. pose proof (H x ltac:(by left)). assert (IH' : (length xs <= length (sep_by (pr <$> xs)))%nat) by (apply IH; intros y Hy; apply H; by right).
  destruct xs as [|y xs]; [cbn; rewrite ?app_nil_r; cbn in *; lia|].
  change (sep_by (pr <$> x :: y :: xs)) with (pr x ++ Comma :: sep_by (pr <$> y :: xs)). rewrite length_app. cbn [length] in *. lia.
Qed.
Lemma sep_by_length {A} (pr : A → list Token) xs x : x ∈ xs → (length (pr x) <= length (sep_by (pr <$> xs)))%nat.
Proof.
  induction xs as [|y xs IH]; intros H; [by apply elem_of_nil in H|]. destruct xs as [|z xs].
  - apply list_elem_of_singleton in H as ->. cbn. lia.
  - change (sep_by (pr <$> y :: z :: xs)) with (pr y ++ Comma :: sep_by (pr <$> z :: xs)). rewrite length_app. cbn [length].
    apply elem_of_cons in H as [->|H]; [lia|]. specialize (IH H). lia.
Qed.
Lemma all_elem {A} (Q : A → Prop) (xs : list A) : foldr (λ x P, Q x ∧ P) True xs → ∀ x, x ∈ xs → Q x.
Proof. induction xs as [|y xs IH]; [by intros _ x Hx%elem_of_nil|]. intros [H1 H2] x Hx. apply elem_of_cons in Hx as [->|Hx]; auto. Qed.
Lemma all_pairs {A B} (Q : A → Prop) (xs : list (A * B)) : foldr (λ '(x, _) P, Q x ∧ P) True xs → ∀ x, x ∈ xs → Q x.1.
Proof. intros H. apply (all_elem (λ x, Q x.1)). induction xs as [|[x y] xs IH]; [done|]. destruct H. by split; [|apply IH]. Qed.

Definition ends (ts : list Token) : Prop := match ts with RParen :: _ | EOF :: _ | Semicolon :: _ => True | _ => False end.
Definition LOWER : list text := [K "substr"; K "sum"; K "avg"; K "count"; K "min"; K "max"].

Section roundtrip.
Context (uni_upper : Z → list Z) (to_lowercase : text → text) (date_from_str : text → option Z) (show_date : Z → text).
Context (Hlow : ∀ w, w ∈ LOWER → to_lowercase w = w).
Context (n : nat) (rec : parser Expr2) (rec_select : parser SelectQuery2).
Abbreviation print := (print_expr show_date).
Abbreviation wf := (wf_expr uni_upper date_from_str show_date).
Abbreviation wfq := (wf_query uni_upper date_from_str show_date).
Context (Hrec : ∀ e rest, wf e → (length (print 0 e) < n)%nat → stops 0 rest → rec (print 0 e ++ rest) = Ok (e, rest)).
Context (Hsel : ∀ q rest, wfq q → (length (print_query show_date q) < n)%nat → ends rest → rec_select (print_query show_date q ++ rest) = Ok (q, rest)).

Lemma query_head q : ∃ ts, print_query show_date q = Keyword (K "SELECT") :: ts.
Proof. destruct q. by eexists. Qed.
Lemma sub_select_print q rest : wfq q → (length (print_query show_date q) < n)%nat →
  sub_select rec_select (print_query show_date q ++ RParen :: rest) = Ok (q, rest).
Proof. intros Hw Hn. unfold sub_select. by rewrite (bind_ok _ _ _ q (RParen :: rest)) by by apply Hsel. Qed.

(** *** Primary expressions *)
Abbreviation primary := (parse_primary uni_upper to_lowercase date_from_str n rec rec_select).
Definition reads (p : parser Expr2) (k : nat) (e : Expr2) : Prop := ∀ rest, stops k rest → p (print k e ++ rest) = Ok (e, rest).

Lemma primary_col s : reads primary 7 (Col s).
Proof.
  intros rest Hs. destruct rest as [|t rest]; [done|]. cbn [print_expr level Nat.ltb Nat.leb]. unfold print_name. pose proof (PrinterM.split_dot_spec s) as Hd.
  assert (Ht : stop 7 t = true) by done. unfold stop in Ht. rewrite !andb_true_iff in Ht. destruct Ht as (((((Ht & _) & _) & _) & _) & _).
  destruct (split_dot s) as [a [b|]]; subst s; cbn [app]; unfold primary, parse_primary; rewrite bind_peek; unfold ident_primary; rewrite bind_next, bind_peek by done.
  - by rewrite (bind_ok _ _ _ _ _ (op_yes _ _)).
  - assert (Hm : match_op [DOT] (t :: rest) = Ok (false, t :: rest)).
    { apply op_no. intros ->. by rewrite text_eqb_refl in Ht. }
    destruct t; try done; by rewrite (bind_ok _ _ _ _ _ Hm).
Qed.
Lemma paren_primary e rest : wf e → (length (print 0 e) < n)%nat → primary (LParen :: print 0 e ++ RParen :: rest) = Ok (e, rest).
Proof.
  intros Hw Hn. pose proof (Hrec e (RParen :: rest) Hw Hn eq_refl) as Hr. unfold parse_primary. rewrite bind_peek, bind_next by done.
  pose proof (print_heads uni_upper date_from_str show_date 0 e Hw) as Hh. destruct (print 0 e) as [|t ts] eqn:E; [done|].
  cbn [app]. rewrite bind_peek. cbn [heads] in Hh. unfold head_ok in Hh. rewrite !andb_true_iff in Hh. destruct Hh as ((((Hh & _) & _) & _) & _).
  apply negb_true_iff in Hh. rewrite Hh. change (t :: ts ++ RParen :: rest) with ((t :: ts) ++ RParen :: rest).
  by rewrite (bind_ok _ _ _ _ _ Hr).
Qed.
Lemma primary_subquery q : wfq q → (length (print_query show_date q) < n)%nat → reads primary 7 (Subquery q).
Proof.
  intros Hw Hn rest Hs. cbn [print_expr level Nat.ltb Nat.leb app]. rewrite <- app_assoc. cbn [app].
  unfold parse_primary. rewrite bind_peek, bind_next by done. destruct (query_head q) as [ts Hq]. rewrite Hq. cbn [app]. rewrite bind_peek.
  cbn [starts_select]. rewrite text_eqb_refl. change (Keyword (K "SELECT") :: ts ++ RParen :: rest) with ((Keyword (K "SELECT") :: ts) ++ RParen :: rest).
  rewrite <- Hq. by rewrite (bind_ok _ _ _ _ _ (sub_select_print q rest Hw Hn)).
Qed.

Lemma whens_print ws rest k :
  foldr (λ '(c, r) P, (wf c ∧ wf r) ∧ P) True ws →
  let out := concat ((λ '(c, r), Keyword (K "WHEN") :: print 0 c ++ Keyword (K "THEN") :: print 0 r) <$> ws) in
  (length out < n)%nat → (length ws < k)%nat →
  match rest with Keyword kw :: _ => kw = K "ELSE" ∨ kw = K "END" | _ => False end →
  when_loop rec k (out ++ rest) = Ok (ws, rest).
Proof.
  revert k. induction ws as [|[c r] ws IH]; intros k Hw out Hn Hk Hr; (destruct k as [|k]; [simpl in Hk; lia|]); cbn [when_loop].
  - rewrite (bind_ok _ _ _ false rest); [done|]. destruct rest as [|[] rest]; try done.
    simpl. by destruct Hr as [-> | ->].
  - destruct Hw as [[Hc Hr'] Hw]. subst out. rewrite fmap_cons, concat_cons in *.
    cbn [length app] in *. rewrite !length_app in Hn. cbn [length] in Hn.
    rewrite (bind_ok _ _ _ _ _ (match_keyword_yes _ _)), <- !app_assoc.
    erewrite bind_ok; [|apply Hrec; [done|lia|done]]. cbn [app].
    rewrite (bind_ok _ _ _ _ _ (expect_keyword_yes _ _)).
    rewrite (bind_ok _ _ _ r (concat ((λ '(c, r), Keyword (K "WHEN") :: print 0 c ++ Keyword (K "THEN") :: print 0 r) <$> ws) ++ rest)).
    + rewrite (bind_ok _ _ _ ws rest); [done|]. apply IH; [done|lia|lia|done].
    + apply Hrec; [done|lia|]. destruct ws as [|[c' r'] ws]; [|done]. simpl. destruct rest as [|[] rest]; try done.
      by destruct Hr as [-> | ->].
Qed.

Lemma case_primary ws els : wf (Case2 ws els) → (length (print 7 (Case2 ws els)) <= n)%nat → reads primary 7 (Case2 ws els).
Proof.
  intros (Hws & Hels) Hn rest _. cbn [print_expr level Nat.ltb Nat.leb] in Hn |- *.
  set (out := concat _) in *. rewrite <- app_comm_cons, <- !app_assoc.
  cbn [length] in Hn. rewrite !length_app in Hn. cbn [length] in Hn.
  assert (length ws <= length out)%nat as Hlen.
  { clear. subst out. induction ws as [|[c r] ws IH]; [done|]. rewrite fmap_cons, concat_cons. cbn [length]. rewrite length_app.
    cbn [length]. lia. }
  unfold parse_primary. rewrite bind_peek. cbn [app].
  assert (Hk : upper uni_upper (K "CASE") = K "CASE") by reflexivity. unfold keyword_primary. cbn zeta. rewrite Hk. cbn [text_eqb]. 
  change (text_eqb (K "CASE") (K "DATE")) with false. change (text_eqb (K "CASE") (K "CASE")) with true. cbn iota.
  unfold parse_case. rewrite (bind_ok _ _ _ _ _ (expect_keyword_yes _ _)).
  erewrite bind_ok; [|apply (whens_print ws); [done|fold out; lia|lia|]].
  2:{ destruct els; simpl; auto. }
  destruct els as [e|]; cbn [print_opt app].
  - rewrite (bind_ok _ _ _ _ _ (match_keyword_yes _ _)). cbn [print_opt length] in Hn.
    erewrite bind_ok; [|erewrite bind_ok; [reflexivity|apply Hrec; [done|lia|done]]].
    by rewrite (bind_ok _ _ _ _ _ (expect_keyword_yes _ _)).
  - done.
Qed.
Lemma extract_primary field x : wf x → (length (print 0 x) + 4 < n)%nat → reads primary 7 (Extract2 field x).
Proof.
  intros Hw Hn rest _. cbn [print_expr level Nat.ltb Nat.leb app]. rewrite <- app_assoc. cbn [app].
  unfold parse_primary. rewrite bind_peek.
  change (keyword_primary uni_upper to_lowercase date_from_str n rec (K "EXTRACT")) with (_ ← next; parse_extract to_lowercase rec).
  rewrite bind_next by done. unfold parse_extract. rewrite (bind_ok _ _ _ _ _ (lp_yes _)).
  rewrite (bind_ok _ _ _ field (Keyword (K "FROM") :: print 0 x ++ RParen :: rest)) by done.
  rewrite (bind_ok _ _ _ _ _ (expect_keyword_yes _ _)). erewrite bind_ok; [|apply Hrec; [done|lia|done]]. done.
Qed.
Lemma cast_primary x ty : wf x → upper uni_upper ty = ty → (length (print 0 x) + 4 < n)%nat → reads primary 7 (Cast2 x ty).
Proof.
  intros Hw Ht Hn rest _. cbn [print_expr level Nat.ltb Nat.leb app]. rewrite <- app_assoc. cbn [app].
  unfold parse_primary. rewrite bind_peek.
  change (keyword_primary uni_upper to_lowercase date_from_str n rec (K "CAST")) with (_ ← next; parse_cast uni_upper to_lowercase rec).
  rewrite bind_next by done. unfold parse_cast. rewrite (bind_ok _ _ _ _ _ (lp_yes _)).
  erewrite bind_ok; [|apply Hrec; [done|lia|done]]. rewrite (bind_ok _ _ _ _ _ (expect_keyword_yes _ _)).
  rewrite (bind_ok _ _ _ ty (RParen :: rest)) by done. rewrite bind_peek. cbn iota.
  unfold mbind, parser_bind, mret, parser_ret. cbn. by rewrite Ht.
Qed.
(** A call of a function with a lower-case name. *)
Lemma call_print w ts : w ∈ LOWER → primary (Ident w :: LParen :: ts) = call_primary uni_upper to_lowercase rec rec_select w (LParen :: ts).
Proof. intros Hw. unfold parse_primary. rewrite bind_peek. unfold ident_primary. rewrite bind_next, bind_peek by done. by rewrite Hlow. Qed.
Lemma substr_primary x start len : wf x → wf start → wf len → (length (print 0 x) + length (print 0 start) + length (print 0 len) + 4 < n)%nat →
  reads primary 7 (Substr x start len).
Proof.
  intros H1 H2 H3 Hn rest _. cbn [print_expr level Nat.ltb Nat.leb app]. rewrite call_print by (repeat (first [left|right])).
  change (call_primary uni_upper to_lowercase rec rec_select (K "substr")) with (parse_substr rec). unfold parse_substr.
  rewrite (bind_ok _ _ _ _ _ (lp_yes _)). repeat (rewrite <- app_assoc; cbn [app]).
  erewrite bind_ok; [|apply Hrec; [done|lia|done]]. erewrite bind_ok by reflexivity. cbn iota.
  erewrite bind_ok; [|apply Hrec; [done|lia|done]]. erewrite bind_ok by reflexivity. cbn iota.
  erewrite bind_ok; [|apply Hrec; [done|lia|done]]. done.
Qed.
Lemma agg_call_name f : agg_name f ∈ LOWER ∧
  call_primary uni_upper to_lowercase rec rec_select (agg_name f) = parse_agg_call rec (upper uni_upper (agg_name f)).
Proof. split; [destruct f; repeat (first [left|right])|]. by destruct f. Qed.
Lemma agg_of_name f (distinct : bool) : match f with Count => distinct = false | CountDistinct => distinct = true | _ => True end →
  agg_of (upper uni_upper (agg_name f)) distinct = Some f.
Proof. destruct f; intros H; subst; done. Qed.
Lemma agg_primary f arg distinct : wf (Agg f arg distinct) → (length (print 7 (Agg f arg distinct)) <= n)%nat → reads primary 7 (Agg f arg distinct).
Proof.
  intros (Hf & Ha) Hn rest _. cbn [print_expr level Nat.ltb Nat.leb] in Hn |- *. set (a := match arg with CountStar => [Op [42]] | _ => print 0 arg end) in *.
  cbn [length] in Hn. rewrite !length_app in Hn. cbn [length] in Hn. cbn [app]. destruct (agg_call_name f) as [H1 H2].
  rewrite call_print, H2 by done. unfold parse_agg_call. rewrite (bind_ok _ _ _ _ _ (lp_yes _)), <- !app_assoc.
  assert (Hcase : arg = CountStar ∨ wf arg ∧ a = print 0 arg) by (unfold a; destruct arg; auto).
  assert (Harg : (star ← match_op [42]; arg ← (if star : bool then mret CountStar else rec); _ ← expect_rp;
      match agg_of (upper uni_upper (agg_name f)) distinct with Some f => mret (Agg f arg distinct) | None => fail (EAggregate (upper uni_upper (agg_name f))) end)
      (a ++ [RParen] ++ rest) = Ok (Agg f arg distinct, rest)).
  { rewrite (agg_of_name f distinct Hf). destruct Hcase as [->|[Hwa Ea]]; [reflexivity|]. rewrite Ea in Hn |- *. clear a Ea.
    pose proof (print_heads _ _ show_date 0 arg Hwa) as Hh. pose proof (Hrec arg ([RParen] ++ rest) Hwa ltac:(lia) eq_refl) as Hr.
    destruct (print 0 arg) as [|t ts]; [done|]. cbn [app] in Hr |- *. cbn [heads] in Hh. unfold head_ok in Hh. rewrite !andb_true_iff in Hh.
    destruct Hh as ((((_ & Hh) & _) & _) & _). rewrite negb_true_iff, bool_decide_eq_false in Hh.
    rewrite (bind_ok _ _ _ _ _ (op_no [42] t _ Hh)). by rewrite (bind_ok _ _ _ _ _ Hr). }
  destruct distinct; cbn [app].
  - by rewrite (bind_ok _ _ _ _ _ (match_keyword_yes _ _)).
  - assert (Hd : ∃ t ts, a ++ [RParen] ++ rest = t :: ts ∧ none (kw_op (K "DISTINCT") Or t) = true).
    { destruct Hcase as [->|[Hwa ->]]; [by eexists _, _|].
      pose proof (print_heads _ _ show_date 0 arg Hwa) as Hh. destruct (print 0 arg) as [|t ts]; [done|]. exists t. eexists. split; [done|].
      cbn [heads] in Hh. unfold head_ok in Hh. rewrite !andb_true_iff in Hh. by destruct Hh as (((_ & ?) & _) & _). }
    destruct Hd as (t & ts & E1 & E2). cbn [app] in Harg, E1. rewrite E1 in Harg |- *. by rewrite (bind_ok _ _ _ _ _ (keyword_no _ t ts E2)).
Qed.

(** Every expression at the level of primaries. *)
Lemma primary_reads e : wf e → (length (print 7 e) <= n)%nat → reads primary 7 e.
Proof.
  intros Hw Hn. destruct (decide (level e < 7)%nat) as [Hl|Hl].
  - intros rest _. rewrite (print_in_parens show_date 7 e Hl) in *. cbn [length] in Hn. rewrite length_app in Hn. cbn [length app] in *.
    rewrite <- app_assoc. apply paren_primary; [done|lia].
  - destruct e; cbn [level] in Hl; try lia; try (destruct op; cbn in Hl; lia); cbn [wf_expr] in Hw.
    + apply primary_col.
    + intros rest _. done.
    + intros rest _. done.
    + intros rest _. done.
    + intros rest _. transitivity (Ok (E := ParseError) (match date_from_str (show_date d) with Some d => EDate d | None => EStr (show_date d) end, rest)); [reflexivity|by rewrite Hw].
    + by apply case_primary.
    + cbn [print_expr level Nat.ltb Nat.leb length] in Hn. rewrite length_app in Hn. cbn [length] in Hn. apply extract_primary; [done|lia].
    + cbn [print_expr level Nat.ltb Nat.leb length] in Hn. rewrite length_app in Hn. cbn [length] in Hn. destruct Hw. apply cast_primary; [done|done|lia].
    + cbn [print_expr level Nat.ltb Nat.leb length] in Hn. rewrite !length_app in Hn. cbn [length] in Hn. rewrite !length_app in Hn. cbn [length] in Hn. rewrite !length_app in Hn.
      cbn [length] in Hn. destruct Hw as (? & ? & ?). apply substr_primary; [done..|lia].
    + by apply agg_primary.
    + done.
    + cbn [print_expr level Nat.ltb Nat.leb length] in Hn. rewrite length_app in Hn. cbn [length] in Hn. apply primary_subquery; [done|lia].
Qed.

(** *** Unary operators *)
Abbreviation unary := (parse_unary uni_upper to_lowercase date_from_str n rec rec_select).
Lemma unary_primary e m : wf e → reads primary 7 e → level e ≠ 6%nat → (0 < m)%nat → ∀ rest, stops 6 rest → unary m (print 6 e ++ rest) = Ok (e, rest).
Proof.
  intros Hw Hp Hl Hm rest Hs. rewrite (print_next _ 6 e Hl). pose proof (print_heads _ _ show_date 7 e Hw) as Hh.
  pose proof (Hp rest ltac:(eapply stops_up; [exact Hs|lia])) as Hr. destruct m as [|m]; [lia|]. cbn [parse_unary].
  destruct (print 7 e) as [|t ts]; [done|]. cbn [app heads] in *. unfold head_ok in Hh. rewrite !andb_true_iff in Hh. destruct Hh as (_ & Hh).
  cbn in Hh. rewrite andb_true_iff, !negb_true_iff, !bool_decide_eq_false in Hh. destruct Hh as [H1 H2].
  rewrite (bind_ok _ _ _ _ _ (op_no [45] t _ H1)). cbn iota. by rewrite (bind_ok _ _ _ _ _ (op_no [43] t _ H2)).
Qed.
Lemma unary_neg e m rest : unary m (print 6 e ++ rest) = Ok (e, rest) → unary (S m) (print 6 (Neg e) ++ rest) = Ok (Neg e, rest).
Proof.
  intros H. cbn [print_expr level Nat.ltb Nat.leb app parse_unary]. rewrite (bind_ok _ _ _ _ _ (op_yes [45] _)). cbn iota.
  by rewrite (bind_ok _ _ _ _ _ H).
Qed.
(** Minus signs are read one by one. *)
Lemma unary_reads e : wf e → (∀ e', wf e' → (length (print 7 e') <= length (print 6 e))%nat → reads primary 7 e') →
  ∀ m rest, (length (print 6 e) <= m)%nat → stops 6 rest → unary m (print 6 e ++ rest) = Ok (e, rest).
Proof.
  induction e; intros Hw Hp m rest Hm Hs;
    try (apply unary_primary; [done|apply Hp; [done|rewrite <- (print_next _ 6) by (cbn; try (destruct op; cbn); lia); lia]|cbn; try (destruct op; cbn); lia|
         pose proof (print_nonempty _ _ show_date 6 _ Hw); lia|done]).
  cbn [print_expr level Nat.ltb Nat.leb length] in Hm, Hp. destruct m as [|m]; [lia|]. apply unary_neg. apply IHe; [done| |lia|done].
  intros e' He' Hl. apply Hp; [done|lia].
Qed.

(** *** The levels of precedence *)
Definition P (k : nat) : parser Expr2 :=
  match k with
  | 0%nat => parse_or uni_upper to_lowercase date_from_str n rec rec_select
  | 1%nat => parse_and uni_upper to_lowercase date_from_str n rec rec_select
  | 2%nat => parse_not uni_upper to_lowercase date_from_str n rec rec_select (S n)
  | 3%nat => parse_comparison uni_upper to_lowercase date_from_str n rec rec_select
  | 4%nat => parse_additive uni_upper to_lowercase date_from_str n rec rec_select
  | 5%nat => parse_multiplicative uni_upper to_lowercase date_from_str n rec rec_select
  | 6%nat => unary (S n)
  | _ => primary
  end.
Definition acc (k : nat) : Token → option BinOp2 := match k with 0%nat => or_op | 1%nat => and_op | 4%nat => add_op | _ => mul_op end.
Definition looping (k : nat) : bool := match k with 0%nat | 1%nat | 4%nat | 5%nat => true | _ => false end.
(** Every printable expression is read back at level [k]. *)
Definition level_reads (k : nat) : Prop := ∀ e, wf e → (length (print k e) <= n)%nat → reads (P k) k e.

Lemma level_loop_eq k : looping k = true → P k = (left ← P (S k); binary_loop (acc k) (P (S k)) n left).
Proof. by destruct k as [|[|[|[|[|[|k]]]]]]. Qed.
Lemma tpch_stop_acc k t : looping k = true → stop k t = true → acc k t = None.
Proof.
  unfold stop. rewrite !andb_true_iff, !orb_true_iff, !Nat.ltb_lt. intros Hk Hs.
  assert (none (acc k t) = true) as Ha by (destruct k as [|[|[|[|[|[|k]]]]]]; try done; cbn [acc]; intuition lia).
  by destruct (acc k t).
Qed.
Lemma loop_token op : looping (op_level op) = true → acc (op_level op) (op_token op) = Some op ∧ stop (S (op_level op)) (op_token op) = true.
Proof. by destruct op. Qed.

(** The loop of level [k] has been given [e], and used up [j] of its turns. *)
Definition loops (k : nat) (e : Expr2) : Prop :=
  ∃ j, (2 * j + 1 <= length (print k e))%nat ∧
    ∀ rest, stops (S k) rest → P k (print k e ++ rest) = binary_loop (acc k) (P (S k)) (n - j) e rest.
Lemma loops_reads k e : looping k = true → (length (print k e) <= n)%nat → loops k e → reads (P k) k e.
Proof.
  intros Hk Hn (j & Hj & HL) rest Hs. rewrite HL by (eapply stops_up; [exact Hs|lia]).
  destruct rest as [|t rest]; [done|]. destruct (n - j)%nat eqn:E; [lia|]. cbn [binary_loop]. by rewrite bind_peek, (tpch_stop_acc k t).
Qed.
Lemma loops_operand k e : looping k = true → wf e → level e ≠ k → reads (P (S k)) (S k) e → loops k e.
Proof.
  intros Hk Hw He HF. exists 0%nat. split; [by eapply print_nonempty|]. intros rest Hs. rewrite (level_loop_eq k Hk), print_next by done.
  rewrite (bind_ok _ _ _ _ _ (HF rest Hs)). by rewrite Nat.sub_0_r.
Qed.
Lemma print_binop op l r : print (op_level op) (BinOp op l r) = print (left_level (op_level op)) l ++ op_token op :: print (S (op_level op)) r.
Proof. rewrite print_at by done. done. Qed.
Lemma loops_binop op l r :
  looping (op_level op) = true → wf r → (length (print (op_level op) (BinOp op l r)) <= n)%nat →
  loops (op_level op) l → reads (P (S (op_level op))) (S (op_level op)) r → loops (op_level op) (BinOp op l r).
Proof.
  intros Hk Hw Hn (j & Hj & HL) HF. destruct (loop_token op Hk) as [Ha Hs]. pose proof (print_binop op l r) as E.
  replace (left_level (op_level op)) with (op_level op) in E by by destruct op.
  exists (S j). rewrite E in *. rewrite length_app in *. cbn [length] in *.
  pose proof (print_nonempty _ _ show_date (S (op_level op)) r Hw). split; [lia|]. intros rest Hr.
  rewrite <- app_assoc. cbn [app]. rewrite HL by done. destruct (n - j)%nat as [|n'] eqn:Ej; [lia|]. cbn [binary_loop].
  rewrite bind_peek, Ha, bind_next by by destruct op. rewrite (bind_ok _ _ _ _ _ (HF rest Hr)). by replace (n - S j)%nat with n' by lia.
Qed.
Lemma loop_level k : looping k = true → level_reads (S k) → level_reads k.
Proof.
  intros Hk Hup e Hw Hn. apply loops_reads; [done..|].
  assert (∀ e, wf e → (length (print k e) <= n)%nat → level e ≠ k → loops k e) as Hother.
  { intros e' Hw' Hn' Hl. apply loops_operand; [done..|]. apply Hup; [done|]. by rewrite <- print_next. }
  induction e; try (apply Hother; [done..|]; destruct k as [|[|[|[|[|[|k]]]]]]; done).
  destruct (decide (op_level op = k)) as [<-|Hl]; [|by apply Hother]. destruct Hw as [Hw1 Hw2].
  pose proof Hn as Hn'. rewrite print_binop, length_app in Hn'. cbn [length] in Hn'.
  replace (left_level (op_level op)) with (op_level op) in Hn' by by destruct op.
  apply loops_binop; [done..| |]; [apply IHe1; [done|lia]|apply Hup; [done|lia]].
Qed.

Lemma level_7 : level_reads 7.
Proof. intros e Hw Hn. by apply primary_reads. Qed.
Lemma level_6 : level_reads 6.
Proof.
  intros e Hw Hn rest Hs. apply unary_reads; [done| |lia|done]. intros e' Hw' Hl. apply primary_reads; [done|lia].
Qed.
Lemma level_4 : level_reads 4.
Proof. apply loop_level; [done|]. apply loop_level; [done|]. apply level_6. Qed.

(** *** Predicates *)
Abbreviation additive := (parse_additive uni_upper to_lowercase date_from_str n rec rec_select).
Abbreviation comparison := (parse_comparison uni_upper to_lowercase date_from_str n rec rec_select).
Abbreviation pred := (predicate uni_upper to_lowercase date_from_str n rec rec_select).
Lemma additive_reads e rest : wf e → (length (print 4 e) <= n)%nat → stops 4 rest → additive (print 4 e ++ rest) = Ok (e, rest).
Proof. intros Hw Hn. apply (level_4 e Hw Hn rest). Qed.
Lemma stop_predicate t : stop 3 t = true → no_predicate t = true.
Proof. unfold stop. rewrite !andb_true_iff. cbn. tauto. Qed.

Lemma comparison_plain e : wf e → (length (print 4 e) <= n)%nat → level e ≠ 3%nat → reads comparison 3 e.
Proof.
  intros Hw Hn Hl rest Hs. rewrite (print_next _ 3 e Hl). unfold parse_comparison.
  rewrite (bind_ok _ _ _ e rest) by (apply additive_reads; [done|done|eapply stops_up; [exact Hs|lia]]).
  destruct rest as [|t rest]; [done|]. apply stop_predicate in Hs. unfold no_predicate in Hs. rewrite !andb_true_iff in Hs.
  destruct Hs as ((((H1 & H2) & H3) & H4) & H5). rewrite bind_peek. destruct (cmp_op t); [done|]. unfold after_not. rewrite (keyword_no _ _ _ H2). unfold predicate.
  by rewrite (bind_ok _ _ _ _ _ (ident_no _ _ _ H3)), (bind_ok _ _ _ _ _ (ident_no _ _ _ H4)), (bind_ok _ _ _ _ _ (ident_no _ _ _ H5)).
Qed.
Lemma tpch_comparison_op op l r : op_level op = 3%nat → wf l → wf r → (length (print 4 l) + length (print 4 r) < n)%nat → reads comparison 3 (BinOp op l r).
Proof.
  intros Hop Hl Hr Hn rest Hs. pose proof (print_binop op l r) as E. rewrite Hop in E. rewrite E. cbn [left_level]. rewrite <- app_assoc. cbn [app].
  unfold parse_comparison. rewrite (bind_ok _ _ _ l (op_token op :: print 4 r ++ rest)) by (apply additive_reads; [done|lia|by destruct op]).
  rewrite bind_peek. replace (cmp_op (op_token op)) with (Some op) by by destruct op. rewrite bind_next by by destruct op.
  by rewrite (bind_ok _ _ _ r rest) by (apply additive_reads; [done|lia|eapply stops_up; [exact Hs|lia]]).
Qed.
(** A predicate with or without [NOT]. *)
Lemma comparison_predicate x neg w ts r : wf x → (length (print 4 x) <= n)%nat → w ∈ ["LIKE"; "IN"; "BETWEEN"]%string →
  (∀ otherwise, pred x neg otherwise (Keyword (K w) :: ts) = r) → comparison (print 4 x ++ not_kw neg ++ Keyword (K w) :: ts) = r.
Proof.
  intros Hw Hn Hin Hr. unfold parse_comparison.
  assert (Hs : stops 4 (not_kw neg ++ Keyword (K w) :: ts)).
  { destruct neg; [done|]. cbn [not_kw app]. repeat (apply elem_of_cons in Hin as [->|Hin]; [done|]). by apply elem_of_nil in Hin. }
  rewrite (bind_ok _ _ _ _ _ (additive_reads x _ Hw Hn Hs)). destruct neg; cbn [not_kw app]; rewrite bind_peek; cbn [cmp_op]; unfold after_not.
  - rewrite match_keyword_yes. apply Hr.
  - rewrite keyword_no; [apply Hr|]. repeat (apply elem_of_cons in Hin as [->|Hin]; [done|]). by apply elem_of_nil in Hin.
Qed.
Lemma predicate_like x neg ts o : pred x neg o (Keyword (K "LIKE") :: ts) = parse_like uni_upper to_lowercase date_from_str n rec rec_select x neg ts.
Proof. unfold predicate. by rewrite (bind_ok _ _ _ _ _ (ident_yes _ _)). Qed.
Lemma predicate_in x neg ts o : pred x neg o (Keyword (K "IN") :: ts) = parse_in_rest n rec rec_select x neg ts.
Proof. unfold predicate. rewrite (bind_ok _ _ _ false (Keyword (K "IN") :: ts)) by by apply ident_no. cbn iota. by rewrite (bind_ok _ _ _ _ _ (ident_yes _ _)). Qed.
Lemma predicate_between x neg ts o :
  pred x neg o (Keyword (K "BETWEEN") :: ts) = parse_between_rest uni_upper to_lowercase date_from_str n rec rec_select x neg ts.
Proof.
  unfold predicate. rewrite (bind_ok _ _ _ false (Keyword (K "BETWEEN") :: ts)) by by apply ident_no. cbn iota.
  rewrite (bind_ok _ _ _ false (Keyword (K "BETWEEN") :: ts)) by by apply ident_no. cbn iota. by rewrite (bind_ok _ _ _ _ _ (ident_yes _ _)).
Qed.

Lemma in_list_reads x l neg rest : l ≠ [] → foldr (λ y P, wf y ∧ P) True l → (length (sep_by (print 0 <$> l)) < n)%nat →
  parse_in_rest n rec rec_select x neg (LParen :: sep_by (print 0 <$> l) ++ RParen :: rest) = Ok (InList x l neg, rest).
Proof.
  intros Hne Hw Hn. pose proof (all_elem _ _ Hw) as Hw'.
  assert (Hlist : comma_list rec n (sep_by (print 0 <$> l) ++ RParen :: rest) = Ok (l, RParen :: rest)).
  { apply (comma_list_print _ _ (stops 0)); [done| |done..|].
    - etransitivity; [apply (length_sep_by (print 0))|lia]. intros y Hy. by eapply print_nonempty, Hw'.
    - intros y ts Hy. apply Hrec; [by apply Hw'|]. pose proof (sep_by_length (print 0) l y Hy). lia. }
  unfold parse_in_rest. rewrite (bind_ok _ _ _ _ _ (lp_yes _)).
  assert (Hh : heads 0 (sep_by (print 0 <$> l))).
  { destruct l as [|y l]; [done|]. pose proof (print_heads _ _ show_date 0 y (Hw' y ltac:(by left))) as Hh.
    destruct l as [|z l]; [done|]. change (sep_by (print 0 <$> y :: z :: l)) with (print 0 y ++ Comma :: sep_by (print 0 <$> z :: l)). by apply heads_app. }
  destruct (sep_by (print 0 <$> l)) as [|t ts] eqn:E; [done|]. cbn [app]. rewrite bind_peek. cbn [heads] in Hh.
  unfold head_ok in Hh. rewrite !andb_true_iff in Hh. destruct Hh as ((((Hh & _) & _) & _) & _). apply negb_true_iff in Hh. rewrite Hh.
  cbn [app] in Hlist. by rewrite (bind_ok _ _ _ _ _ Hlist).
Qed.
Lemma in_subquery_reads x q neg rest : wfq q → (length (print_query show_date q) < n)%nat →
  parse_in_rest n rec rec_select x neg (LParen :: print_query show_date q ++ RParen :: rest) = Ok (InSubquery x q neg, rest).
Proof.
  intros Hw Hn. pose proof (sub_select_print q rest Hw Hn) as Hq. destruct (query_head q) as [ts E]. rewrite E in *.
  unfold parse_in_rest. rewrite (bind_ok _ _ _ _ _ (lp_yes _)). cbn [app] in *. rewrite bind_peek. cbn [starts_select]. rewrite text_eqb_refl.
  by rewrite (bind_ok _ _ _ _ _ Hq).
Qed.
Lemma level_3 : level_reads 3.
Proof.
  intros e Hw Hn. destruct (decide (level e = 3%nat)) as [Hl|Hl]; [|apply comparison_plain; [done|by rewrite <- print_next|done]].
  destruct e; cbn [level] in Hl; try done; cbn [wf_expr] in Hw; cbn [P].
  - pose proof (print_binop op e1 e2) as E. rewrite Hl in E. rewrite E, length_app in Hn. cbn [length left_level] in Hn. destruct Hw.
    apply tpch_comparison_op; [done..|lia].
  - destruct Hw as [H1 H2]. intros rest Hs. cbn [print_expr level Nat.ltb Nat.leb] in Hn |- *. rewrite !length_app in Hn. cbn [length] in Hn.
    rewrite <- !app_assoc. cbn [app]. apply comparison_predicate; [done|lia|by left|]. intros o. rewrite predicate_like. unfold parse_like.
    by rewrite (bind_ok _ _ _ e2 rest) by (apply additive_reads; [done|lia|eapply stops_up; [exact Hs|lia]]).
  - destruct Hw as (H1 & H2 & H3). intros rest Hs. cbn [print_expr level Nat.ltb Nat.leb] in Hn |- *. rewrite !length_app in Hn. cbn [length] in Hn.
    rewrite !length_app in Hn. cbn [length] in Hn. rewrite <- !app_assoc. cbn [app]. rewrite <- app_assoc. cbn [app].
    apply comparison_predicate; [done|lia|by right; right; left|].
    intros o. rewrite predicate_between. unfold parse_between_rest.
    rewrite (bind_ok _ _ _ e2 (Keyword (K "AND") :: print 4 e3 ++ rest)) by (apply additive_reads; [done|lia|done]).
    rewrite (bind_ok _ _ _ _ _ (expect_keyword_yes _ _)).
    by rewrite (bind_ok _ _ _ e3 rest) by (apply additive_reads; [done|lia|eapply stops_up; [exact Hs|lia]]).
  - destruct Hw as (H1 & H2 & H3). intros rest Hs. cbn [print_expr level Nat.ltb Nat.leb] in Hn |- *. rewrite !length_app in Hn. cbn [length] in Hn.
    rewrite length_app in Hn. rewrite <- !app_assoc. cbn [app]. rewrite <- app_assoc. apply comparison_predicate; [done|lia|by right; left|].
    intros o. rewrite predicate_in. apply in_list_reads; [done..|lia].
  - destruct Hw as [H1 H2]. intros rest Hs. cbn [print_expr level Nat.ltb Nat.leb] in Hn |- *. rewrite !length_app in Hn. cbn [length] in Hn.
    rewrite length_app in Hn. rewrite <- !app_assoc. cbn [app]. rewrite <- app_assoc. apply comparison_predicate; [done|lia|by right; left|].
    intros o. rewrite predicate_in. apply in_subquery_reads; [done..|lia].
Qed.

(** *** [NOT] and [EXISTS] *)
Abbreviation pnot := (parse_not uni_upper to_lowercase date_from_str n rec rec_select).
Lemma exists_reads q neg rest : wfq q → (length (print_query show_date q) < n)%nat →
  parse_exists rec_select neg (LParen :: print_query show_date q ++ RParen :: rest) = Ok (Exists2 q neg, rest).
Proof.
  intros Hw Hn. unfold parse_exists. rewrite (bind_ok _ _ _ _ _ (lp_yes _)).
  by rewrite (bind_ok _ _ _ _ _ (sub_select_print q rest Hw Hn)).
Qed.
Lemma not_plain e m : wf e → (length (print 3 e) <= n)%nat → ∀ rest, stops 2 rest → pnot (S m) (print 3 e ++ rest) = Ok (e, rest).
Proof.
  intros Hw Hn rest Hs. pose proof (level_3 e Hw Hn rest ltac:(eapply stops_up; [exact Hs|lia])) as Hr.
  cbn [P] in Hr. pose proof (print_heads _ _ show_date 3 e Hw) as Hh. destruct (print 3 e) as [|t ts]; [done|]. cbn [app heads] in *.
  unfold head_ok in Hh. rewrite !andb_true_iff in Hh. destruct Hh as ((_ & Hh) & _). change (Nat.ltb 3 3) with false in Hh. cbn [orb] in Hh.
  rewrite andb_true_iff, negb_true_iff, bool_decide_eq_false in Hh. destruct Hh as [H1 H2]. cbn [parse_not].
  rewrite (bind_ok _ _ _ false (t :: ts ++ rest)).
  - cbn iota. by rewrite (bind_ok _ _ _ _ _ (ident_no _ _ _ H2)).
  - apply keyword_no. destruct t; try done. cbn [kw_op]. destruct (text_eqb s (K "NOT")) eqn:E; [|done].
    unfold text_eqb in E. apply bool_decide_eq_true in E. congruence.
Qed.
(** The operand of [NOT] does not begin with [EXISTS]. *)
Lemma not_operand e : wf e → ∃ t ts, print (if is_exists e then 3 else 2) e = t :: ts ∧ no_ident "EXISTS" t = true.
Proof.
  intros Hw. assert (Hc : (∃ x, e = Not x) ∨ is_exists e = true ∧ level e = 2%nat ∨ is_exists e = false ∧ level e ≠ 2%nat).
  { destruct e; cbn; eauto. right; right. split; [done|]. by destruct op. }
  destruct Hc as [[x ->]|[[-> Hl]|[-> Hl]]]; [by eexists _, _|rewrite print_in_parens by lia; by eexists _, _|].
  rewrite print_next by done. pose proof (print_heads _ _ show_date 3 e Hw) as Hh. destruct (print 3 e) as [|t ts]; [done|]. exists t, ts. split; [done|].
  cbn [heads] in Hh. unfold head_ok in Hh. rewrite !andb_true_iff in Hh. destruct Hh as ((_ & Hh) & _). cbn in Hh. by apply andb_true_iff in Hh as [_ ?].
Qed.
Lemma not_reads e : wf e → ∀ m rest, (length (print 2 e) <= n)%nat → (length (print 2 e) <= m)%nat → stops 2 rest → pnot m (print 2 e ++ rest) = Ok (e, rest).
Proof.
  induction e; intros Hw m rest Hn Hm Hs; pose proof (print_nonempty _ _ show_date 2 _ Hw); (destruct m as [|m]; [lia|]);
    try (rewrite print_next in * by (cbn; try (destruct op; cbn); lia); by apply not_plain).
  - cbn [wf_expr] in Hw. cbn [print_expr level Nat.ltb Nat.leb] in Hn |- *. rewrite !length_app in Hn. cbn [length] in Hn. rewrite length_app in Hn.
    rewrite <- app_assoc. cbn [app]. rewrite <- app_assoc. cbn [app parse_not].
    pose proof (exists_reads q negated rest Hw ltac:(lia)) as He. destruct negated; cbn [not_kw app].
    + rewrite (bind_ok _ _ _ _ _ (match_keyword_yes _ _)). by rewrite (bind_ok _ _ _ _ _ (ident_yes _ _)).
    + rewrite (bind_ok _ _ _ false (Keyword (K "EXISTS") :: LParen :: print_query show_date q ++ RParen :: rest)) by by apply keyword_no.
      by rewrite (bind_ok _ _ _ _ _ (ident_yes _ _)).
  - cbn [wf_expr] in Hw. cbn [print_expr level Nat.ltb Nat.leb length] in Hn, Hm |- *. cbn [app parse_not].
    rewrite (bind_ok _ _ _ _ _ (match_keyword_yes _ _)).
    assert (Hr : pnot m (print (if is_exists e then 3 else 2) e ++ rest) = Ok (e, rest)).
    { assert (Hc : is_exists e = true ∧ level e = 2%nat ∨ is_exists e = false) by (destruct e; cbn; auto).
      destruct Hc as [[E Hl]|E]; rewrite E in Hn, Hm |- *; [|apply IHe; [done|lia|lia|done]].
      destruct m as [|m']; [rewrite print_in_parens in Hm by lia; cbn in Hm; lia|]. apply not_plain; [done|lia|done]. }
    destruct (not_operand e Hw) as (t & ts & E1 & E2). rewrite E1 in Hr |- *. cbn [app] in Hr |- *.
    rewrite (bind_ok _ _ _ _ _ (ident_no _ _ _ E2)). cbn iota. by rewrite (bind_ok _ _ _ _ _ Hr).
Qed.
Lemma level_0 : level_reads 0.
Proof.
  apply loop_level; [done|]. apply loop_level; [done|]. intros e Hw Hn rest Hs. apply not_reads; [done|done|lia|done].
Qed.

(** *** Clauses *)
(** What may follow a clause: the end of the query, [LIMIT] or one of the keywords. *)
Definition follow (kws : list string) (ts : list Token) : Prop :=
  ends ts ∨ (∃ ts', ts = Ident (K "LIMIT") :: ts') ∨ (∃ kw ts', kw ∈ kws ∧ ts = Keyword (K kw) :: ts').
Definition FOLLOW : list string := ["FROM"; "LEFT"; "INNER"; "WHERE"; "GROUP"; "HAVING"; "ORDER"]%string.
Lemma follow_ind kws ts (Q : list Token → Prop) : follow kws ts →
  (∀ ts', Q (RParen :: ts')) → (∀ ts', Q (EOF :: ts')) → (∀ ts', Q (Semicolon :: ts')) → (∀ ts', Q (Ident (K "LIMIT") :: ts')) →
  Forall (λ kw, ∀ ts', Q (Keyword (K kw) :: ts')) kws → Q ts.
Proof.
  intros [He|[(ts' & ->)|(kw & ts' & Hk & ->)]] H1 H2 H3 H4 H5; [|done|by eapply list.Forall_forall in H5].
  destruct ts as [|[] ts]; done.
Qed.
Lemma follow_mono kws kws' ts : kws ⊆ kws' → follow kws ts → follow kws' ts.
Proof. intros Hs [?|[?|(kw & ts' & Hk & ->)]]; [by left|by right; left|]. right; right. eexists _, _. split; [by apply Hs|done]. Qed.
Lemma follow_stops ts : follow FOLLOW ts → stops 0 ts.
Proof. intros H. eapply follow_ind; [exact H|done..|]. repeat constructor. Qed.
Lemma follow_comma ts : follow FOLLOW ts → not_comma ts.
Proof. intros H. eapply follow_ind; [exact H|done..|]. repeat constructor. Qed.

(** A clause is read when it is there and skipped when what follows begins with another word. *)
Lemma clause_skip {A} (kw : string) (d : A) p kws ts : follow kws ts → Forall (λ k, text_eqb (K k) (K kw) = false) kws → clause (K kw) d p ts = Ok (d, ts).
Proof.
  intros Hf Hk. unfold clause. rewrite (bind_ok _ _ _ false ts); [done|]. eapply (follow_ind kws ts); [done..|].
  eapply List.Forall_impl; [|exact Hk]. intros k Hne ts'. apply keyword_no. cbn [kw_op]. by rewrite Hne.
Qed.
Lemma tpch_clause_yes {A} (kw : string) (d : A) p ts : clause (K kw) d p (Keyword (K kw) :: ts) = p ts.
Proof. unfold clause. by rewrite (bind_ok _ _ _ _ _ (match_keyword_yes _ _)). Qed.
Lemma expr_clause (kw : string) (x : option Expr2) kws rest :
  match x with Some e => wf e ∧ (length (print 0 e) < n)%nat | None => True end →
  follow kws rest → kws ⊆ FOLLOW → Forall (λ k, text_eqb (K k) (K kw) = false) kws →
  clause (K kw) None (e ← rec; mret (Some e)) (print_opt kw (print 0) x ++ rest) = Ok (x, rest).
Proof.
  intros Hx Hf Hs Hk. destruct x as [e|]; cbn [print_opt app]; [|by eapply clause_skip]. rewrite tpch_clause_yes.
  destruct Hx. by rewrite (bind_ok _ _ _ e rest) by (apply Hrec; [done..|]; by eapply follow_stops, follow_mono).
Qed.
Lemma opt_follow {A} (kw : string) (pr : A → list Token) x kws rest : follow kws rest → follow (kw :: kws) (print_opt kw pr x ++ rest).
Proof.
  intros Hf. destruct x; cbn [print_opt app]; [|eapply follow_mono; [|done]; set_solver]. right; right. eexists _, _. split; [by left|done].
Qed.
Lemma by_follow (kw : string) ls kws rest : follow kws rest → follow (kw :: kws) (by_list kw ls ++ rest).
Proof.
  intros Hf. destruct ls; cbn [by_list app]; [eapply follow_mono; [|done]; set_solver|]. right; right. eexists _, _. split; [by left|done].
Qed.
Lemma by_clause {A B C} (kw : string) (p : parser B) (q : parser C) (d c : C) (pr : A → list Token) (f : A → B) xs kws rest :
  (∀ x, x ∈ xs → 1 <= length (pr x))%nat → (length (sep_by (pr <$> xs)) <= n)%nat →
  follow kws rest → kws ⊆ FOLLOW → Forall (λ k, text_eqb (K k) (K kw) = false) kws →
  (∀ x ts, x ∈ xs → (∃ ts', ts = Comma :: ts') ∨ ts = rest → p (pr x ++ ts) = Ok (f x, ts)) →
  (xs = [] → d = c) → (∀ ts, comma_list p n ts = Ok (f <$> xs, rest) → q (Keyword (K "BY") :: ts) = Ok (c, rest)) →
  clause (K kw) d q (by_list kw (pr <$> xs) ++ rest) = Ok (c, rest).
Proof.
  intros Hpos Hn Hf Hs Hk Hp Hd Hq. destruct xs as [|x xs]; [rewrite Hd by done; by eapply clause_skip|].
  change (by_list kw (pr <$> x :: xs)) with (Keyword (K kw) :: Keyword (K "BY") :: sep_by (pr <$> x :: xs)). cbn [app].
  rewrite tpch_clause_yes. apply Hq. apply comma_list_last; [done| | | |].
  - etransitivity; [by apply (length_sep_by pr)|done].
  - by eapply follow_comma, follow_mono.
  - intros y ts Hy. apply Hp; [done|]. eauto.
  - intros y Hy. apply Hp; [by apply list.last_Some_elem_of|]. by right.
Qed.

(** *** The lists of a query *)
Definition no_alias (ts : list Token) : Prop := match ts with Ident _ :: _ | [] => False | Keyword k :: _ => text_eqb k (K "AS") = false | _ => True end.
Lemma alias_reads a ts : a ≠ None ∨ no_alias ts → parse_alias to_lowercase (print_alias a ++ ts) = Ok (a, ts).
Proof.
  intros H. destruct a as [a|]; [done|]. destruct H as [H|H]; [done|]. cbn [print_alias app]. destruct ts as [|t ts]; [done|]. unfold parse_alias.
  rewrite (bind_ok _ _ _ false (t :: ts)); [cbn iota; rewrite bind_peek; by destruct t|]. apply keyword_no. destruct t; try done. cbn in H |- *. by rewrite H.
Qed.
Lemma alias_stops a ts : stops 0 ts → stops 0 (print_alias a ++ ts).
Proof. by destruct a. Qed.
Lemma select_item_reads e a ts : wf e → (length (print 0 e) < n)%nat → stops 0 ts → no_alias ts →
  parse_select_item to_lowercase rec ((print 0 e ++ print_alias a) ++ ts) = Ok ((e, a), ts).
Proof.
  intros Hw Hn Hs Ha. pose proof (print_heads _ _ show_date 0 e Hw) as Hh. pose proof (Hrec e _ Hw Hn (alias_stops a ts Hs)) as Hr. rewrite <- app_assoc.
  unfold parse_select_item. destruct (print 0 e) as [|t ts']; [done|]. cbn [app heads] in *. unfold head_ok in Hh. rewrite !andb_true_iff in Hh.
  destruct Hh as ((((_ & Hh) & _) & _) & _). rewrite negb_true_iff, bool_decide_eq_false in Hh.
  rewrite (bind_ok _ _ _ _ _ (op_no _ _ _ Hh)). cbn iota. rewrite (bind_ok _ _ _ _ _ Hr). by rewrite (bind_ok _ _ _ a ts) by (apply alias_reads; by right).
Qed.
Abbreviation from_item := (parse_from_item to_lowercase rec_select).
Lemma from_item_reads f ts : wf_from uni_upper date_from_str show_date f → (length (print_from show_date f) <= n)%nat → has_alias (Some f) ∨ no_alias ts →
  from_item (print_from show_date f ++ ts) = Ok (f, ts).
Proof.
  intros Hw Hn Ha. assert (Ha' : match f with FTable _ a | Derived _ a => a ≠ None end ∨ no_alias ts) by (destruct f as [? []|? []]; naive_solver).
  destruct f as [name a|q a]; cbn [print_from] in *.
  - cbn [app]. change (from_item (Ident name :: print_alias a ++ ts)) with (from_table to_lowercase (Ident name :: print_alias a ++ ts)). unfold from_table.
    rewrite (bind_ok _ _ _ name (print_alias a ++ ts)) by done. by rewrite (bind_ok _ _ _ _ _ (alias_reads a ts Ha')).
  - cbn [length app] in *. rewrite length_app in Hn. rewrite <- app_assoc. cbn [app]. pose proof (sub_select_print q (print_alias a ++ ts) Hw ltac:(lia)) as Hq.
    destruct (query_head q) as [qs E]. rewrite E in *. cbn [app] in *. unfold parse_from_item. cbn [starts_select]. rewrite text_eqb_refl.
    rewrite bind_next by done. rewrite (bind_ok _ _ _ _ _ Hq). by rewrite (bind_ok _ _ _ _ _ (alias_reads a ts Ha')).
Qed.
Abbreviation print_join := (λ '(ty, f, on), join_kw ty :: Keyword (K "JOIN") :: print_from show_date f ++ Keyword (K "ON") :: print 0 on).
Lemma join_reads ty f on ts : wf_from uni_upper date_from_str show_date f → wf on → (length (print_join (ty, f, on)) <= n)%nat → stops 0 ts →
  parse_join to_lowercase rec rec_select (print_join (ty, f, on) ++ ts) = Ok (Some (ty, f, on), ts).
Proof.
  intros Hf Ho Hn Hs. cbn [length] in Hn. rewrite length_app in Hn. cbn [length app] in *. rewrite <- app_assoc. cbn [app].
  assert (Hj : join_on to_lowercase rec rec_select ty (print_from show_date f ++ Keyword (K "ON") :: print 0 on ++ ts) = Ok ((ty, f, on), ts)).
  { unfold join_on. erewrite bind_ok by (apply from_item_reads; [done|lia|by right]).
    rewrite (bind_ok _ _ _ _ _ (expect_keyword_yes _ _)). by erewrite bind_ok by (apply Hrec; [done|lia|done]). }
  unfold parse_join. set (js := print_from show_date f ++ _) in *. destruct ty; cbn [join_kw].
  - rewrite (bind_ok _ _ _ false (Keyword (K "INNER") :: Keyword (K "JOIN") :: js)) by by apply ident_no. cbn iota.
    rewrite (bind_ok _ _ _ _ _ (ident_yes _ _)). cbn iota. rewrite (bind_ok _ _ _ _ _ (expect_keyword_yes _ _)). by rewrite (bind_ok _ _ _ _ _ Hj).
  - rewrite (bind_ok _ _ _ _ _ (ident_yes _ _)). cbn iota. rewrite (bind_ok _ _ _ false (Keyword (K "JOIN") :: js)) by by apply ident_no.
    rewrite (bind_ok _ _ _ _ _ (expect_keyword_yes _ _)). by rewrite (bind_ok _ _ _ _ _ Hj).
Qed.
Lemma tpch_join_none ts : follow ["WHERE"; "GROUP"; "HAVING"; "ORDER"]%string ts → parse_join to_lowercase rec rec_select ts = Ok (None, ts).
Proof. intros H. eapply (follow_ind _ ts); [exact H|done..|]. repeat constructor. Qed.
Lemma joins_follow js rest kws : kws ⊆ FOLLOW → ["LEFT"; "INNER"]%string ⊆ kws → follow kws rest → follow kws (concat (print_join <$> js) ++ rest).
Proof.
  intros Hk Hj Hf. destruct js as [|[[ty f] on] js]; [done|]. right; right. rewrite fmap_cons, concat_cons.
  exists (match ty with Left => "LEFT" | Inner => "INNER" end)%string. eexists. split; [apply Hj; destruct ty; set_solver|by destruct ty].
Qed.
Lemma joins_reads js rest k : foldr (λ '(_, f, on) P, (wf_from uni_upper date_from_str show_date f ∧ wf on) ∧ P) True js →
  (length (concat (print_join <$> js)) <= n)%nat → (length js < k)%nat → follow ["WHERE"; "GROUP"; "HAVING"; "ORDER"]%string rest →
  parse_joins to_lowercase rec rec_select k (concat (print_join <$> js) ++ rest) = Ok (js, rest).
Proof.
  revert k. induction js as [|[[ty f] on] js IH]; intros k Hw Hn Hk Hf; (destruct k as [|k]; [cbn in Hk; lia|]); cbn [parse_joins].
  - cbn [fmap list_fmap concat app]. by rewrite (bind_ok _ _ _ _ _ (tpch_join_none rest Hf)).
  - destruct Hw as [[H1 H2] Hw]. rewrite fmap_cons, concat_cons in *. rewrite length_app in Hn. rewrite <- app_assoc.
    erewrite bind_ok; [|apply join_reads; [done|done|lia|]].
    + cbn iota. by rewrite (bind_ok _ _ _ _ _ (IH k Hw ltac:(lia) ltac:(cbn in Hk; lia) Hf)).
    + apply follow_stops, joins_follow; [done|set_solver|]. eapply follow_mono; [|exact Hf]. set_solver.
Qed.
Lemma group_item_reads e ts : wf e → not_int (print 0 e) → (length (print 0 e) < n)%nat → stops 0 ts → group_item rec (print 0 e ++ ts) = Ok ([e], ts).
Proof.
  intros Hw Hi Hn Hs. pose proof (Hrec e ts Hw Hn Hs) as Hr. pose proof (print_nonempty _ _ show_date 0 e Hw). destruct (print 0 e) as [|t ts'] eqn:E; [cbn in *; lia|].
  cbn [app] in *. unfold group_item. rewrite bind_peek. destruct t; try done; by rewrite (bind_ok _ _ _ _ _ Hr).
Qed.
Abbreviation print_order := (λ '(e, asc), print 0 e ++ (if asc : bool then [] else [Ident (K "DESC")])).
Definition no_direction (ts : list Token) : Prop := match ts with t :: _ => no_ident "DESC" t && no_ident "ASC" t = true | [] => False end.
Lemma order_item_reads x ts : wf x.1 → (length (print_order x) < n)%nat → stops 0 ts → no_direction ts → order_item rec (print_order x ++ ts) = Ok (x, ts).
Proof.
  destruct x as [e asc]. cbn [fst]. intros Hw Hn Hs Hd. rewrite length_app in Hn. unfold order_item. rewrite <- app_assoc.
  rewrite (bind_ok _ _ _ e ((if asc : bool then [] else [Ident (K "DESC")]) ++ ts)) by (apply Hrec; [done|lia|by destruct asc]).
  destruct asc; cbn [app]; [|by erewrite bind_ok by reflexivity]. destruct ts as [|t ts]; [done|]. unfold no_direction in Hd. apply andb_true_iff in Hd as [H1 H2].
  rewrite (bind_ok _ _ _ _ _ (ident_no _ _ _ H1)). cbn iota. by rewrite (bind_ok _ _ _ _ _ (ident_no _ _ _ H2)).
Qed.
Lemma follow_direction ts : follow [] ts → no_direction ts.
Proof. intros H. eapply follow_ind; [exact H|done..|]. constructor. Qed.
Lemma limit_follow l rest : ends rest → follow [] (print_limit l ++ rest).
Proof. intros H. destruct l; [right; left; by eexists|by left]. Qed.
Lemma limit_reads {A} l rest (k : option Z → parser A) : ends rest → match l with Some m => 0 <= m < 2 ^ 64 | None => True end →
  (b ← match_ident (K "LIMIT"); limit ← (if b : bool then n ← parse_usize; mret (Some n) else mret None); k limit) (print_limit l ++ rest) = k l rest.
Proof.
  intros He Hl. destruct l as [m|]; cbn [print_limit app].
  - assert (Hu : parse_usize (Int m :: rest) = Ok (m, rest)).
    { unfold parse_usize. rewrite bind_peek, (proj2 (Z.ltb_ge m 0)), bind_next by (done || lia). unfold mret, parser_ret. by rewrite wrap_u_small. }
    rewrite (bind_ok _ _ _ true (Int m :: rest)) by done. cbn iota. rewrite (bind_ok _ _ _ (Some m) rest); [done|]. by rewrite (bind_ok _ _ _ _ _ Hu).
  - rewrite (bind_ok _ _ _ false rest); [done|]. destruct rest as [|[] rest]; done.
Qed.

(** *** A query *)
Lemma select_heads q : wfq q → ∃ t ts, print_query show_date q = Keyword (K "SELECT") :: t :: ts ∧ none (kw_op (K "DISTINCT") Or t) = true.
Proof.
  destruct q as [sel from js wh gr ha ord lim]. intros ((Hne & Hw) & _). destruct sel as [|[e a] sel]; [done|]. destruct Hw as [Hw _].
  pose proof (print_heads _ _ show_date 0 e Hw) as Hh. cbn [print_query]. rewrite fmap_cons.
  assert (Hs : ∃ ts, sep_by ((print 0 e ++ print_alias a) :: ((λ '(e, a), print 0 e ++ print_alias a) <$> sel)) = print 0 e ++ ts).
  { destruct sel; cbn [fmap list_fmap sep_by]; rewrite <- ?app_assoc; by eexists. }
  destruct Hs as [ts ->]. destruct (print 0 e) as [|t ts']; [done|]. eexists t, _. split; [reflexivity|].
  cbn [heads] in Hh. unfold head_ok in Hh. rewrite !andb_true_iff in Hh. by destruct Hh as (((_ & ?) & _) & _).
Qed.
Abbreviation print_item := (λ '(e, a), print 0 e ++ print_alias a).
Lemma select_list_reads sel rest : sel ≠ [] → foldr (λ '(e, _) P, wf e ∧ P) True sel → (length (sep_by (print_item <$> sel)) < n)%nat →
  comma_list (parse_select_item to_lowercase rec) n (sep_by (print_item <$> sel) ++ Keyword (K "FROM") :: rest) = Ok (sel, Keyword (K "FROM") :: rest).
Proof.
  intros Hne Hw Hn. pose proof (all_pairs _ _ Hw) as Hw'. apply (comma_list_print _ _ (λ ts, stops 0 ts ∧ no_alias ts)); [done| |done..|].
  - etransitivity; [apply (length_sep_by print_item)|lia]. intros [e a] Hx. rewrite length_app. pose proof (print_nonempty _ _ show_date 0 e (Hw' _ Hx)). lia.
  - intros [e a] ts Hx [H1 H2]. pose proof (sep_by_length print_item sel (e, a) Hx) as Hl. cbn beta iota in Hl. rewrite length_app in Hl.
    apply select_item_reads; [apply (Hw' _ Hx)|lia|done|done].
Qed.
Lemma from_list_reads from rest : from ≠ [] → foldr (λ f P, wf_from uni_upper date_from_str show_date f ∧ P) True from →
  (length (sep_by (print_from show_date <$> from)) <= n)%nat → has_alias (list.last from) ∨ no_alias rest → not_comma rest →
  comma_list from_item n (sep_by (print_from show_date <$> from) ++ rest) = Ok (from, rest).
Proof.
  intros Hne Hw Hn Ha Hc. pose proof (all_elem _ _ Hw) as Hw'. rewrite <- (list_fmap_id from) at 2.
  assert (Hl : ∀ f, f ∈ from → (length (print_from show_date f) <= n)%nat).
  { intros f Hf. pose proof (sep_by_length (print_from show_date) from f Hf). lia. }
  apply comma_list_last; [done| |done| |].
  - etransitivity; [apply (length_sep_by (print_from show_date))|done]. intros [] _; cbn; lia.
  - intros f ts Hf. apply from_item_reads; [auto..|by right].
  - intros f Hf. rewrite Hf in Ha. apply list.last_Some_elem_of in Hf. apply from_item_reads; auto.
Qed.
Lemma group_clause gr kws rest : foldr (λ e P, (wf e ∧ not_int (print 0 e)) ∧ P) True gr → (length (sep_by (print 0 <$> gr)) < n)%nat →
  follow kws rest → kws ⊆ FOLLOW → Forall (λ k, text_eqb (K k) (K "GROUP") = false) kws →
  clause (K "GROUP") [] (_ ← expect_keyword (K "BY"); gs ← comma_list (group_item rec) n; mret (concat gs)) (by_list "GROUP" (print 0 <$> gr) ++ rest) = Ok (gr, rest).
Proof.
  intros Hw Hn Hf Hs Hk. pose proof (all_elem (λ e, wf e ∧ not_int (print 0 e)) _ Hw) as Hw'.
  apply (by_clause "GROUP" (group_item rec) _ [] gr (print 0) (λ e, [e]) gr kws); [| |done..| | |].
  - intros e He. by eapply print_nonempty, Hw'.
  - lia.
  - intros e ts He Hts. destruct (Hw' e He) as [H1 H2]. apply group_item_reads; [done..| |].
    + pose proof (sep_by_length (print 0) gr e He). lia.
    + destruct Hts as [[ts' ->]| ->]; [done|]. by eapply follow_stops, follow_mono.
  - by intros ->.
  - intros ts Hts. rewrite (bind_ok _ _ _ _ _ (expect_keyword_yes _ _)), (bind_ok _ _ _ _ _ Hts). unfold mret, parser_ret. do 2 f_equal.
    clear. induction gr as [|e gr IH]; [done|]. rewrite fmap_cons, concat_cons. by rewrite IH.
Qed.
Lemma order_clause ord rest : foldr (λ '(e, _) P, wf e ∧ P) True ord → (length (sep_by (print_order <$> ord)) < n)%nat → follow [] rest →
  clause (K "ORDER") [] (_ ← expect_keyword (K "BY"); comma_list (order_item rec) n) (by_list "ORDER" (print_order <$> ord) ++ rest) = Ok (ord, rest).
Proof.
  intros Hw Hn Hf. pose proof (all_pairs _ _ Hw) as Hw'.
  apply (by_clause "ORDER" (order_item rec) _ [] ord print_order id ord []); [| |done|set_solver|by constructor| | |].
  - intros [e a] Hx. rewrite length_app. pose proof (print_nonempty _ _ show_date 0 e (Hw' _ Hx)). lia.
  - lia.
  - intros x ts Hx Hts. pose proof (sep_by_length print_order ord x Hx) as Hl. apply order_item_reads; [by apply Hw'|by eapply Nat.le_lt_trans|..];
      destruct Hts as [[ts' ->]| ->]; try done; [eapply follow_stops, follow_mono; [|done]; set_solver|by apply follow_direction].
  - by intros ->.
  - intros ts Hts. rewrite list_fmap_id in Hts. by rewrite (bind_ok _ _ _ _ _ (expect_keyword_yes _ _)).
Qed.

Lemma no_alias_rest from js (wh : option Expr2) gr (ha : option Expr2) (ord : list (Expr2 * bool)) lim rest : ends rest →
  match lim with
  | Some m => 0 <= m < 2 ^ 64 ∧ (js ≠ [] ∨ wh ≠ None ∨ gr ≠ [] ∨ ha ≠ None ∨ ord ≠ [] ∨ has_alias (list.last from))
  | None => True
  end →
  has_alias (list.last from) ∨
  no_alias (concat (print_join <$> js) ++ print_opt "WHERE" (print 0) wh ++ by_list "GROUP" (print 0 <$> gr) ++
    print_opt "HAVING" (print 0) ha ++ by_list "ORDER" (print_order <$> ord) ++ print_limit lim ++ rest).
Proof.
  intros He Hl. destruct js as [|[[[] f] on] js]; [|by right..]. destruct wh; [by right|]. destruct gr; [|by right]. destruct ha; [by right|].
  destruct ord as [|[]]; [|by right]. destruct lim; [destruct Hl; naive_solver|]. right. by destruct rest as [|[] rest].
Qed.
(** The text of the clauses after FROM. *)
Abbreviation tail js wh gr ha ord lim rest :=
  (concat (print_join <$> js) ++ print_opt "WHERE" (print 0) wh ++ by_list "GROUP" (print 0 <$> gr) ++
    print_opt "HAVING" (print 0) ha ++ by_list "ORDER" (print_order <$> ord) ++ print_limit lim ++ rest).
Lemma by_length (kw : string) ls : (length (sep_by ls) <= length (by_list kw ls))%nat.
Proof. destruct ls; cbn; lia. Qed.
Lemma joins_length js : (length js <= length (concat (print_join <$> js)))%nat.
Proof. induction js as [|[[ty f] on] js IH]; [done|]. rewrite fmap_cons, concat_cons, length_app. cbn [length]. lia. Qed.
Lemma tail_follow js wh gr ha ord lim rest : ends rest → follow FOLLOW (tail js wh gr ha ord lim rest).
Proof.
  intros He. apply joins_follow; [done|set_solver|]. eapply follow_mono; [|by apply opt_follow, by_follow, opt_follow, by_follow, limit_follow]. set_solver.
Qed.
Lemma tail_reads {A} js wh gr ha ord lim rest (k : _ → _ → _ → _ → _ → _ → parser A) : ends rest →
  (length (tail js wh gr ha ord lim []) < n)%nat →
  foldr (λ '(_, f, on) P, (wf_from uni_upper date_from_str show_date f ∧ wf on) ∧ P) True js →
  match wh with Some e => wf e | None => True end → foldr (λ e P, (wf e ∧ not_int (print 0 e)) ∧ P) True gr →
  match ha with Some e => wf e | None => True end → foldr (λ '(e, _) P, wf e ∧ P) True ord →
  match lim with Some m => 0 <= m < 2 ^ 64 | None => True end →
  (joins ← parse_joins to_lowercase rec rec_select n;
   where_clause ← clause (K "WHERE") None (e ← rec; mret (Some e));
   group_by ← clause (K "GROUP") [] (_ ← expect_keyword (K "BY"); gs ← comma_list (group_item rec) n; mret (concat gs));
   having ← clause (K "HAVING") None (e ← rec; mret (Some e));
   order_by ← clause (K "ORDER") [] (_ ← expect_keyword (K "BY"); comma_list (order_item rec) n);
   b ← match_ident (K "LIMIT");
   limit ← (if b : bool then n ← parse_usize; mret (Some n) else mret None);
   k joins where_clause group_by having order_by limit) (tail js wh gr ha ord lim rest) = k js wh gr ha ord lim rest.
Proof.
  intros He Hn H3 H4 H5 H6 H7 H8. rewrite !length_app in Hn.
  pose proof (limit_follow lim rest He) as F0. pose proof (by_follow "ORDER" (print_order <$> ord) _ _ F0) as F1. pose proof (opt_follow "HAVING" (print 0) ha _ _ F1) as F2.
  pose proof (by_follow "GROUP" (print 0 <$> gr) _ _ F2) as F3. pose proof (opt_follow "WHERE" (print 0) wh _ _ F3) as F4.
  pose proof (joins_length js). pose proof (by_length "GROUP" (print 0 <$> gr)). pose proof (by_length "ORDER" (print_order <$> ord)).
  rewrite (bind_ok _ _ _ _ _ (joins_reads js _ n H3 ltac:(lia) ltac:(lia) F4)).
  erewrite bind_ok; [|eapply expr_clause; [|exact F3|set_solver|repeat constructor]; destruct wh; [cbn in Hn; split; [done|lia]|done]].
  erewrite bind_ok; [|eapply group_clause; [exact H5|lia|exact F2|set_solver|repeat constructor]].
  erewrite bind_ok; [|eapply expr_clause; [|exact F1|set_solver|repeat constructor]; destruct ha; [cbn in Hn; split; [done|lia]|done]].
  erewrite bind_ok; [|apply order_clause; [exact H7|lia|exact F0]]. by apply limit_reads.
Qed.
Lemma body_reads q rest : wfq q → (length (print_query show_date q) <= n)%nat → ends rest →
  select_body to_lowercase n rec rec_select (print_query show_date q ++ rest) = Ok (q, rest).
Proof.
  intros Hw Hn He. destruct (select_heads q Hw) as (t & ts & E & Hd). destruct q as [sel from js wh gr ha ord lim].
  destruct Hw as ((H1 & H1') & (H2 & H2') & H3 & H4 & H5 & H6 & H7 & H8).
  pose proof (no_alias_rest from js wh gr ha ord lim rest He H8) as Ha.
  assert (Hlim : match lim with Some m => 0 <= m < 2 ^ 64 | None => True end) by (destruct lim; [by destruct H8|done]).
  pose proof (tail_follow js wh gr ha ord lim rest He) as Hf. cbn [print_query] in Hn, E |- *. apply (f_equal List.tl) in E. cbn [List.tl] in E. cbn [length] in Hn.
  rewrite length_app in Hn. cbn [length] in Hn. rewrite length_app in Hn.
  unfold select_body. cbn zeta. cbn [app]. rewrite (bind_ok _ _ _ _ _ (expect_keyword_yes _ _)), E.
  cbn [app]. rewrite (bind_ok _ _ _ _ _ (keyword_no _ _ _ Hd)). rewrite app_comm_cons, <- E, <- app_assoc. cbn [app].
  erewrite bind_ok; [|apply select_list_reads; [done|done|lia]]. rewrite (bind_ok _ _ _ _ _ (expect_keyword_yes _ _)), <- !app_assoc.
  erewrite bind_ok; [|apply from_list_reads; [done|done|lia|exact Ha|by apply follow_comma]].
  apply (tail_reads js wh gr ha ord lim rest); try done. rewrite app_nil_r. lia.
Qed.
End roundtrip.

Section theorem.
Context (uni_upper : Z → list Z) (to_lowercase : text → text) (date_from_str : text → option Z) (show_date : Z → text).
Context (Hlow : ∀ w, w ∈ LOWER → to_lowercase w = w).

(** As much fuel as there are tokens, and one more, is enough at every level of nesting. *)
Lemma fuel_reads n :
  (∀ e rest, wf_expr uni_upper date_from_str show_date e → (length (print_expr show_date 0 e) < n)%nat → stops 0 rest →
     parse_expr uni_upper to_lowercase date_from_str n (print_expr show_date 0 e ++ rest) = Ok (e, rest)) ∧
  (∀ q rest, wf_query uni_upper date_from_str show_date q → (length (print_query show_date q) < n)%nat → ends rest →
     parse_select uni_upper to_lowercase date_from_str n (print_query show_date q ++ rest) = Ok (q, rest)).
Proof.
  induction n as [|n [IH1 IH2]]; [split; intros; lia|]. split.
  - intros e rest Hw Hn Hs. cbn [parse_expr]. by apply (level_0 uni_upper to_lowercase date_from_str show_date Hlow n _ _ IH1 IH2); [|lia|].
  - intros q rest Hw Hn Hs. cbn [parse_select]. by eapply body_reads; [..|lia|]; try done.
Qed.
End theorem.

(** Orders with an item that was late, and the part of the priority they make up (after TPC-H query 4). *)
Definition late_orders : SelectQuery2 :=
  mkQuery2 [(Col (K "o_orderpriority"), None); (Agg Count CountStar false, Some (K "order_count"));
            (BinOp Div (BinOp Mul (EInt 100) (Agg Sum (Col (K "o.total")) false)) (Neg (Subquery (mkQuery2 [(Agg Max (Col (K "total")) true, None)] [FTable (K "orders") None] [] None [] None [] None))), None)]
    [FTable (K "orders") (Some (K "o")); Derived (mkQuery2 [(Col (K "c"), None)] [FTable (K "customer") None] [] None [] None [] None) (Some (K "c"))]
    [(Left, FTable (K "nation") (Some (K "n")), BinOp Eq (Col (K "n.nationkey")) (Col (K "c.nation")))]
    (Some (BinOp And (Between (Col (K "o_orderdate")) (EDate 1) (EDate 2) false)
       (BinOp And (Not (Exists2 (mkQuery2 [(EInt 1, None)] [FTable (K "lineitem") None] [] (Some (BinOp Lt (Col (K "a")) (Col (K "b")))) [] None [] None) true))
                  (BinOp Or (Like (Col (K "s")) (EStr (K "x")) true) (InList (Col (K "k")) [EInt 1; EInt 2] true)))))
    [Col (K "o_orderpriority")] (Some (Case2 [(BinOp Gt (EInt 1) (EInt 0), EStr (K "y"))] (Some (EStr (K "z")))))
    [(Col (K "o_orderpriority"), false)] (Some 10).
End TpchPrintM.
