(* ===== verification/TpchEval.v ===== *)
(** * Evaluating WHERE in the TPC-H interpreter (src/src/engine/tpch.rs)

    Values, the row-by-row evaluator of expressions, and the evaluator of conditions over
    whole columns: bitmaps from [Bitmap] folded into one flag per row.  [outer] is the row of
    the enclosing query; how a subquery is run (its caches included) is [sub], the condition
    of IN with a subquery [sub_in].  Strings are their UTF-8 bytes; [xxh3_64], reading and
    displaying floats and the calendar are parameters. *)

From Stdlib Require Import ZArith Lia Ascii String Floats.SpecFloat.
From stdpp Require Import prelude list numbers gmap.
From S2P Require Import Prelude Bits Bitmap Catalog DateTime StringColumn Lexer Parser Vectorized Dispatch Tpch.
Local Open Scope Z_scope.

Module TpchEvalM.
Import LexerM (text, DOT).
Import ParserM (K, text_eqb, fmt_i64).
Import VectorizedM (as_bytes, f64_to_bits, parse_i64).
Import DispatchM (Fault (..), run, or_panic, or_fail, get_str, str_cmp, ends_with).
Import TpchM.

(** ** Values *)
Inductive ColType := TInt | TFloat | TDate | TString.
#[global] Instance ColType_eq_dec : EqDecision ColType.
Proof. solve_decision. Defined.

Record ExecTable := mkExec {
  columns : list (list Z); column_names : list text; col_types : list ColType;
  string_columns : list (option StringColumnM.StringSearchColumn); row_count : nat; col_map : gmap text nat
}.

Inductive Value2 := VInt (i : Z) | VFloat (f : spec_float) | VStr (s : list Z) | VDate (d : Z) | VNull.

(** [as] between integers and floats: to nearest, and truncation that saturates. *)
Definition as_f64 (z : Z) : spec_float := binary_normalize 53 1024 z 0 false.
Definition trunc (f : spec_float) : Z :=
  match f with
  | S754_finite s m e => let a := if Z.leb 0 e then Zpos m * 2 ^ e else Zpos m / 2 ^ (- e) in if s then - a else a
  | _ => 0
  end.
Definition clamp (lo hi : Z) (f : spec_float) : Z :=
  match f with
  | S754_infinity s => if s : bool then lo else hi
  | S754_nan => 0
  | _ => Z.max lo (Z.min hi (trunc f))
  end.
Definition f64_as_i64 : spec_float → Z := clamp (- 2 ^ 63) (2 ^ 63 - 1).
Definition f64_as_i32 : spec_float → Z := clamp (- 2 ^ 31) (2 ^ 31 - 1).
Definition f64_as_u64 : spec_float → Z := clamp 0 (2 ^ 64 - 1).
Definition is_zero (f : spec_float) : bool := SFeqb f (S754_zero false).

(** The part of a name after its last dot. *)
Fixpoint after_last_dot (s : text) : option text :=
  match s with
  | [] => None
  | c :: s' => match after_last_dot s' with Some r => Some r | None => if Z.eqb c DOT then Some s' else None end
  end.

(** The first byte of a character. *)
Definition starts_char (b : Z) : bool := negb (Z.leb 128 b && Z.ltb b 192).
(** [s[a..b]] at positions of a string of [length s] bytes. *)
Definition is_boundary (s : list Z) (i : nat) : bool := match s !! i with Some b => starts_char b | None => Nat.eqb i (length s) end.
Definition slice_str (s : list Z) (a b : nat) : run (list Z) :=
  if Nat.leb a b && is_boundary s a && is_boundary s b then Ok (take (b - a) (drop a s)) else Err Panic.

(** ** LIKE *)
Fixpoint all_percent (p : list Z) : bool := match p with [] => true | c :: p => Z.eqb c 37 && all_percent p end.
(** The loop over [si] and [pi]; [star] holds [star_p] and [star_s] once they are set. *)
Fixpoint like_loop (fuel : nat) (sb pb : list Z) (si pi : nat) (star : option (nat * nat)) : option bool :=
  match fuel with
  | O => None
  | S fuel =>
    match sb !! si with
    | None => Some (all_percent (drop pi pb))
    | Some b =>
      let retry := match star with
                   | Some (star_p, star_s) => like_loop fuel sb pb (S star_s) (S star_p) (Some (star_p, S star_s))
                   | None => Some false
                   end in
      match pb !! pi with
      | Some c =>
        if Z.eqb c 95 || Z.eqb c b then like_loop fuel sb pb (S si) (S pi) star
        else if Z.eqb c 37 then like_loop fuel sb pb si (S pi) (Some (pi, si))
        else retry
      | None => retry
      end
    end
  end.
(** Between two retries the pattern is read at most once, and each retry starts further right. *)
Definition like_fuel (sb pb : list Z) : nat := (length sb + 2) * (length pb + 2).
Definition like (sb pb : list Z) : bool := default false (like_loop (like_fuel sb pb) sb pb 0 0 None).

(** ** What the evaluator takes from outside *)
(** The standard library, crates and the processor. *)
Class Std := {
  to_lowercase : text → text; uni_upper : Z → list Z; xxh3_64 : list Z → Z; float_bits : text → Z;
  parse_f64 : list Z → option spec_float; show_f64 : spec_float → list Z; show_date : Z → list Z; to_ymd : Z → Z * Z * Z;
  avx : bool
}.
(** The query around the expression: the row it is nested in, and how its subqueries are run. *)
Class Enclosing := {
  outer : option (ExecTable * nat);
  sub : Expr2 → ExecTable → nat → run Value2;
  sub_in : Value2 → SelectQuery2 → bool → ExecTable → nat → run Value2
}.

Section eval.
Context {S0 : Std} {Q0 : Enclosing}.

Definition lookup_col (t : ExecTable) (name : text) : option nat :=
  match col_map t !! name with Some idx => Some idx | None => col_map t !! to_lowercase name end.

Definition val_f64 (v : Value2) : option spec_float :=
  match v with
  | VInt i => Some (as_f64 i) | VFloat f => Some f | VDate d => Some (as_f64 d) | VNull => None | VStr s => parse_f64 s
  end.
Definition val_i64 (v : Value2) : option Z :=
  match v with VInt i => Some i | VFloat f => Some (f64_as_i64 f) | VDate d => Some d | VNull => None | VStr s => parse_i64 s end.
Definition val_u64 (v : Value2) : option Z :=
  match v with VInt i => Some (wrap_u 64 i) | VFloat f => Some (f64_as_u64 f) | VDate d => Some (wrap_u 64 d) | _ => None end.
Definition to_u64 (v : Value2) : Z :=
  match v with
  | VInt i => wrap_u 64 i | VFloat f => f64_to_bits f | VDate d => wrap_u 32 d | VNull => 0 | VStr s => xxh3_64 s
  end.

Definition truthy (v : Value2) : bool := match v with VInt i => negb (Z.eqb i 0) | VFloat f => negb (is_zero f) | _ => false end.
Definition bool_val (b : bool) : Value2 := VInt (if b then 1 else 0).

Definition cmp_f64 (p : spec_float → spec_float → bool) (a b : Value2) : bool :=
  match val_f64 a, val_f64 b with Some x, Some y => p x y | _, _ => false end.
Definition cmp_eq (a b : Value2) : bool :=
  match a, b with
  | VNull, _ | _, VNull => false
  | VStr x, VStr y => bool_decide (x = y)
  | VInt i, VStr s | VStr s, VInt i => Z.eqb (wrap_u 64 i) (xxh3_64 s)
  | _, _ => cmp_f64 SFeqb a b
  end.
Definition cmp_lt (a b : Value2) : bool :=
  match a, b with
  | VNull, _ | _, VNull => false
  | VStr x, VStr y => match str_cmp x y with Datatypes.Lt => true | _ => false end
  | _, _ => cmp_f64 SFltb a b
  end.
Definition cmp_le (a b : Value2) : bool := cmp_lt a b || cmp_eq a b.

Definition arith (op : BinOp2) (l r : spec_float) : option spec_float :=
  match op with
  | Add => Some (SFadd 53 1024 l r)
  | Sub => Some (SFsub 53 1024 l r)
  | Mul => Some (SFmul 53 1024 l r)
  | _ => if is_zero r then None else Some (SFdiv 53 1024 l r)
  end.
Definition int_arith (op : BinOp2) (l r : Z) : Z :=
  as_signed 64 match op with Add => l + r | Sub => l - r | _ => l * r end.
Definition binop (op : BinOp2) (lv rv : Value2) : Value2 :=
  match op with
  | Add | Sub | Mul | Div =>
    match val_f64 lv, val_f64 rv with
    | Some l, Some r =>
      match arith op l r with
      | None => VNull
      | Some res => match lv, rv, op with VInt li, VInt ri, (Add | Sub | Mul) => VInt (int_arith op li ri) | _, _, _ => VFloat res end
      end
    | _, _ => VNull
    end
  | Eq => bool_val (cmp_eq lv rv)
  | Ne => bool_val (negb (cmp_eq lv rv))
  | Lt => bool_val (cmp_lt lv rv)
  | Gt => bool_val (cmp_lt rv lv)
  | Le => bool_val (cmp_le lv rv)
  | Ge => bool_val (cmp_le rv lv)
  | And => bool_val (truthy lv && truthy rv)
  | Or => bool_val (truthy lv || truthy rv)
  end.
Definition negate (v : Value2) : Value2 :=
  match v with VInt i => VInt (as_signed 64 (- i)) | VFloat f => VFloat (SFopp f) | _ => VNull end.

Definition extract (field : text) (v : Value2) : Value2 :=
  match match v with VDate d => Some d | VInt i => Some (as_signed 32 i) | VFloat f => Some (f64_as_i32 f) | _ => None end with
  | None => VNull
  | Some days =>
    let lower := to_lowercase field in
    if text_eqb lower (K "year") then VInt (DateTimeM.days_since_epoch_to_year days)
    else let '(y, m, d) := to_ymd days in
         VInt (if text_eqb lower (K "month") then m else if text_eqb lower (K "day") then d else y)
  end.
Definition cast_value (v : Value2) (target_type : text) : Value2 :=
  let upper := upper uni_upper target_type in
  if bool_decide (upper ∈ [K "FLOAT"; K "DOUBLE"; K "REAL"; K "DECIMAL"; K "NUMERIC"]) then
    match v with
    | VInt i => VFloat (BitmapM.f64_from_bits (wrap_u 64 i))
    | VFloat f => VFloat f
    | VDate d => VFloat (BitmapM.f64_from_bits (wrap_u 64 d))
    | VStr s => VFloat (default (S754_zero false) (parse_f64 s))
    | VNull => VNull
    end
  else if bool_decide (upper ∈ [K "INT"; K "INTEGER"; K "BIGINT"; K "SMALLINT"; K "TINYINT"]) then
    match v with
    | VInt i => VInt i
    | VFloat f => VInt (f64_as_i64 f)
    | VDate d => VInt d
    | VStr s => VInt (default 0 (parse_i64 s))
    | VNull => VNull
    end
  else if bool_decide (upper ∈ [K "VARCHAR"; K "NVARCHAR"; K "TEXT"; K "CHAR"]) then
    match v with
    | VInt i => VStr (fmt_i64 i) | VFloat f => VStr (show_f64 f) | VDate d => VStr (show_date d) | VStr s => VStr s | VNull => VNull
    end
  else v.
(** A length below zero becomes a large number, which the addition wraps. *)
Definition substr (s start len : Value2) : run Value2 :=
  match s with
  | VStr s =>
    let st := Z.max 1 (default 1 (val_i64 start)) in
    let ln := wrap_u 64 (default 0 (val_i64 len)) in
    let si := st - 1 in
    if Z.leb (Z.of_nat (length s)) si then Ok (VStr [])
    else let ei := Z.min (wrap_u 64 (si + ln)) (Z.of_nat (length s)) in r ← slice_str s (Z.to_nat si) (Z.to_nat ei); Ok (VStr r)
  | _ => Ok VNull
  end.

(** ** One row *)
(** A cell at the type of its column; a row beyond the column reads 0. *)
Definition cell_value (t : ExecTable) (idx row : nat) : run Value2 :=
  col ← or_panic (columns t !! idx);
  ty ← or_panic (col_types t !! idx);
  let cell := default 0 (col !! row) in
  match ty with
  | TInt => Ok (VInt (as_signed 64 cell))
  | TFloat => Ok (VFloat (BitmapM.f64_from_bits cell))
  | TDate => Ok (VDate (as_signed 32 cell))
  | TString =>
    sc ← or_panic (string_columns t !! idx);
    match sc with
    | Some sc => if Nat.ltb row (StringColumnM.len sc) then s ← get_str sc row; Ok (VStr s) else Ok (VInt (as_signed 64 cell))
    | None => Ok (VInt (as_signed 64 cell))
    end
  end.
(** The column a name stands for, with or without its qualifier. *)
Definition find_column (t : ExecTable) (name : text) : option nat :=
  match lookup_col t name with Some idx => Some idx | None => short ← after_last_dot name; lookup_col t short end.
Definition eval_col (t : ExecTable) (row : nat) (name : text) : run Value2 :=
  match find_column t name with
  | Some idx => cell_value t idx row
  | None =>
    match outer with
    | Some (outer_t, outer_row) =>
      match find_column outer_t name with Some idx => cell_value outer_t idx outer_row | None => Err (Fail ENotFound) end
    | None => Err (Fail ENotFound)
    end
  end.

Definition like_value (v pattern : Value2) : bool :=
  match v, pattern with
  | VStr s, VStr p => like s p
  | VInt h, VStr p => if existsb (λ c, Z.eqb c 37 || Z.eqb c 95) p then false else Z.eqb (wrap_u 64 h) (xxh3_64 p)
  | _, _ => false
  end.
Definition between (v lo hi : Value2) : bool := cmp_le lo v && cmp_le v hi.

(** The items of IN up to the first that is equal; the branches of CASE up to the first that holds. *)
Definition any_eq (ev : Expr2 → run Value2) (v : Value2) : list Expr2 → run bool :=
  fix any l := match l with [] => Ok false | item :: l => iv ← ev item; if cmp_eq v iv then Ok true else any l end.
Definition case_loop (ev : Expr2 → run Value2) (otherwise : run Value2) : list (Expr2 * Expr2) → run Value2 :=
  fix go ws := match ws with [] => otherwise | (cond, result) :: ws => cv ← ev cond; if truthy cv then ev result else go ws end.

Fixpoint eval (e : Expr2) (t : ExecTable) (row : nat) : run Value2 :=
  match e with
  | Col name => eval_col t row name
  | EInt i => Ok (VInt i)
  | EFloat f => Ok (VFloat (BitmapM.f64_from_bits (float_bits f)))
  | EStr s => Ok (VStr (as_bytes s))
  | EDate d => Ok (VDate d)
  | Neg e => v ← eval e t row; Ok (negate v)
  | Not e => v ← eval e t row; Ok (bool_val (negb (truthy v)))
  | BinOp op l r => lv ← eval l t row; rv ← eval r t row; Ok (binop op lv rv)
  | Like e pattern negated => v ← eval e t row; p ← eval pattern t row; Ok (bool_val (xorb negated (like_value v p)))
  | Between e low high negated =>
    v ← eval e t row; lo ← eval low t row; hi ← eval high t row; Ok (bool_val (xorb negated (between v lo hi)))
  | InList e l negated =>
    v ← eval e t row;
    found ← any_eq (λ item, eval item t row) v l;
    Ok (bool_val (xorb negated found))
  | Case2 whens else_ =>
    case_loop (λ e, eval e t row) (match else_ with Some e => eval e t row | None => Ok VNull end) whens
  | Extract2 field e => v ← eval e t row; Ok (extract field v)
  | Cast2 e ty => v ← eval e t row; Ok (cast_value v ty)
  | Substr e start len => sv ← eval e t row; st ← eval start t row; ln ← eval len t row; substr sv st ln
  | Subquery _ | Exists2 _ _ => sub e t row
  | InSubquery e q negated => v ← eval e t row; sub_in v q negated t row
  | Agg _ _ _ | CountStar => Err (Fail EOther)
  end.

(** ** Whole columns *)
(** [for i in 0..n { if !mask[i] { continue; } mask[i] = f(i)?; }]. *)
Fixpoint rows_loop (f : nat → run bool) (i : nat) (mask : list bool) : run (list bool) :=
  match mask with
  | [] => Ok []
  | b :: mask => b' ← (if b : bool then f i else Ok false); mask' ← rows_loop f (S i) mask; Ok (b' :: mask')
  end.
Definition for_rows (n : nat) (f : nat → run bool) (mask : list bool) : run (list bool) :=
  if Nat.ltb (length mask) n then Err Panic else m ← rows_loop f 0 (take n mask); Ok (m ++ drop n mask).

(** [bitmap::and_into_bool(&bm, &mut mask[..n])]. *)
Definition and_rows (n : nat) (bm : option BitmapM.Bitmap) (mask : list bool) : run (list bool) :=
  bm ← or_panic bm;
  if Nat.ltb (length mask) n then Err Panic else Ok (BitmapM.and_into_bool avx bm (take n mask) ++ drop n mask).

Definition col_in (e : Expr2) (t : ExecTable) : option nat := match e with Col name => lookup_col t name | _ => None end.

Fixpoint expr_has_col (e : Expr2) : bool :=
  match e with
  | Col _ => true
  | BinOp _ l r => expr_has_col l || expr_has_col r
  | Case2 whens else_ =>
    (fix any (ws : list (Expr2 * Expr2)) := match ws with [] => false | (c, r) :: ws => (expr_has_col c || expr_has_col r) || any ws end) whens ||
    match else_ with Some e => expr_has_col e | None => false end
  | Neg e | Not e | Extract2 _ e => expr_has_col e
  | Like e pattern _ => expr_has_col e || expr_has_col pattern
  | Between e low high _ => expr_has_col e || expr_has_col low || expr_has_col high
  | InList e l _ => expr_has_col e || (fix any (l : list Expr2) := match l with [] => false | x :: l => expr_has_col x || any l end) l
  | Substr e start len => expr_has_col e || expr_has_col start || expr_has_col len
  | Subquery _ | Exists2 _ _ | InSubquery _ _ _ => true
  | _ => false
  end.

(** A constant is evaluated at row 0. *)
Fixpoint eval_const (e : Expr2) (t : ExecTable) : run Value2 :=
  match e with
  | EInt i => Ok (VInt i)
  | EFloat f => Ok (VFloat (BitmapM.f64_from_bits (float_bits f)))
  | EStr s => Ok (VStr (as_bytes s))
  | EDate d => Ok (VDate d)
  | Neg e => v ← eval_const e t; Ok (negate v)
  | _ => eval e t 0
  end.

(** *** A column and a constant *)
Definition int_filter (op : BinOp2) (col : list Z) (i : Z) : option (option BitmapM.Bitmap) :=
  match op with
  | Eq => Some (BitmapM.filter_eq_u64 avx col (wrap_u 64 i))
  | Ne => Some (BitmapM.filter_ne_u64 avx col (wrap_u 64 i))
  | Lt => Some (BitmapM.filter_lt_i64 avx col i)
  | Le => Some (BitmapM.filter_le_i64 avx col i)
  | Gt => Some (BitmapM.filter_gt_i64 avx col i)
  | Ge => Some (BitmapM.filter_ge_i64 avx col i)
  | _ => None
  end.
Definition date_filter (op : BinOp2) (col : list Z) (target : Z) : option (option BitmapM.Bitmap) :=
  match op with
  | Eq => Some (BitmapM.filter_eq_u64 avx col target)
  | Ne => Some (BitmapM.filter_ne_u64 avx col target)
  | Lt => Some (BitmapM.filter_lt_u64 avx col target)
  | Le => Some (BitmapM.filter_le_u64 avx col target)
  | Gt => Some (BitmapM.filter_gt_u64 avx col target)
  | Ge => Some (BitmapM.filter_ge_u64 avx col target)
  | _ => None
  end.
(** [eq] is the filter for equality: by a tolerance for a float, exact for an integer. *)
Definition float_filter (eq : option BitmapM.Bitmap) (op : BinOp2) (col : list Z) (bits : Z) : option (option BitmapM.Bitmap) :=
  match op with
  | Eq => Some eq
  | Ne => Some (BitmapM.filter_ne_f64 col bits)
  | Lt => Some (BitmapM.filter_lt_f64 avx col bits)
  | Le => Some (BitmapM.filter_le_f64 avx col bits)
  | Gt => Some (BitmapM.filter_gt_f64 avx col bits)
  | Ge => Some (BitmapM.filter_ge_f64 avx col bits)
  | _ => None
  end.
Definition string_filter (op : BinOp2) (col : list Z) (hash : Z) : option (option BitmapM.Bitmap) :=
  match op with Eq => Some (BitmapM.filter_eq_u64 avx col hash) | Ne => Some (BitmapM.filter_ne_u64 avx col hash) | _ => None end.
(** The comparison of the fallback, on the value of one cell; a string cell has no value. *)
Definition plain_value (ty : ColType) (cell : Z) : Value2 :=
  match ty with
  | TInt => VInt (as_signed 64 cell) | TFloat => VFloat (BitmapM.f64_from_bits cell) | TDate => VDate (as_signed 32 cell) | TString => VStr []
  end.
Definition matches (op : BinOp2) (v val : Value2) : bool :=
  match op with
  | Eq => cmp_eq v val | Ne => negb (cmp_eq v val) | Lt => cmp_lt v val | Le => cmp_le v val
  | Gt => negb (cmp_le v val) | Ge => negb (cmp_lt v val) | _ => false
  end.
Definition apply_filter (t : ExecTable) (f : option (option BitmapM.Bitmap)) (mask : list bool) : run (list bool) :=
  match f with Some bm => and_rows (row_count t) bm mask | None => Ok mask end.
Definition apply_comparison (op : BinOp2) (col_idx : nat) (val : Value2) (t : ExecTable) (mask : list bool) : run (list bool) :=
  col ← or_panic (columns t !! col_idx);
  ty ← or_panic (col_types t !! col_idx);
  if Nat.ltb (length mask) (row_count t) then Err Panic else
  match ty, val with
  | TInt, VInt i => apply_filter t (int_filter op col i) mask
  | TDate, VDate d => apply_filter t (date_filter op col (wrap_u 64 d)) mask
  | TFloat, VFloat f => let b := f64_to_bits f in apply_filter t (float_filter (BitmapM.filter_eq_f64_epsilon col b) op col b) mask
  | TFloat, VInt i => let b := f64_to_bits (as_f64 i) in apply_filter t (float_filter (BitmapM.filter_eq_f64 avx col b) op col b) mask
  | TString, VStr s => apply_filter t (string_filter op col (xxh3_64 s)) mask
  | _, _ => for_rows (row_count t) (λ i, c ← or_panic (col !! i); Ok (matches op (plain_value ty c) val)) mask
  end.

(** The value of a column of the enclosing row; a string is its hash. *)
Definition outer_value (e : Expr2) (t : ExecTable) : option (run Value2) :=
  match outer, e with
  | Some (outer_t, outer_row), Col name =>
    match lookup_col t name with
    | Some _ => None
    | None =>
      idx ← find_column outer_t name;
      Some (col ← or_panic (columns outer_t !! idx);
            ty ← or_panic (col_types outer_t !! idx);
            let cell := default 0 (col !! outer_row) in
            Ok (match ty with TString => VInt (as_signed 64 cell) | ty => plain_value ty cell end))
    end
  | _, _ => None
  end.
(** Two columns of the same type, other than floats, are compared by their cells. *)
Definition column_pair (op : BinOp2) (left right : Expr2) (t : ExecTable) : run (option (nat * nat)) :=
  match col_in left t, col_in right t with
  | Some l, Some r =>
    lt ← or_panic (col_types t !! l); rt ← or_panic (col_types t !! r);
    Ok (if bool_decide (lt = rt ∧ lt ≠ TFloat ∧ (op = Eq ∨ op = Ne)) then Some (l, r) else None)
  | _, _ => Ok None
  end.
Definition compare_columns (op : BinOp2) (l r : nat) (t : ExecTable) (mask : list bool) : run (list bool) :=
  lcol ← or_panic (columns t !! l); rcol ← or_panic (columns t !! r);
  for_rows (row_count t) (λ i, x ← or_panic (lcol !! i); y ← or_panic (rcol !! i); Ok (match op with Eq => Z.eqb x y | _ => negb (Z.eqb x y) end)) mask.
Definition eval_comparison_vec (op : BinOp2) (left right : Expr2) (t : ExecTable) (mask : list bool) : run (list bool) :=
  match col_in left t, expr_has_col right, col_in right t, expr_has_col left with
  | Some idx, false, _, _ => rval ← eval_const right t; apply_comparison op idx rval t mask
  | _, _, Some idx, false => lval ← eval_const left t; apply_comparison (swap_op op) idx lval t mask
  | l, _, r, _ =>
    match l, outer_value right t, r, outer_value left t with
    | Some idx, Some rval, _, _ => rval ← rval; apply_comparison op idx rval t mask
    | _, _, Some idx, Some lval => lval ← lval; apply_comparison (swap_op op) idx lval t mask
    | _, _, _, _ =>
      pair ← column_pair op left right t;
      match pair with
      | Some (l, r) => compare_columns op l r t mask
      | None => for_rows (row_count t) (λ i, lv ← eval left t i; rv ← eval right t i; Ok (truthy (binop op lv rv))) mask
      end
    end
  end.

(** *** The pattern of query 7: alternatives of equalities on the same two string columns *)
Fixpoint flatten_disjuncts (e : Expr2) : list Expr2 := match e with BinOp Or l r => flatten_disjuncts l ++ flatten_disjuncts r | _ => [e] end.
Fixpoint flatten_conjuncts (e : Expr2) : list Expr2 := match e with BinOp And l r => flatten_conjuncts l ++ flatten_conjuncts r | _ => [e] end.
Definition extract_col_str_eq (e : Expr2) : option (text * text) :=
  match e with BinOp Eq (Col c) (EStr s) | BinOp Eq (EStr s) (Col c) => Some (c, s) | _ => None end.
(** The two columns seen so far, and the hashes of the current alternative; [None] is a return of false. *)
Record Lut := mkLut { col_a : option nat; col_b : option nat; hash_a : option Z; hash_b : option Z }.
Definition lut_conjunct (t : ExecTable) (conj : Expr2) (st : Lut) : option Lut :=
  '(col_name, str_val) ← extract_col_str_eq conj;
  cidx ← lookup_col t col_name;
  if bool_decide (col_types t !! cidx = Some TString) then
    let h := Some (xxh3_64 (as_bytes str_val)) in
    match col_a st, col_b st with
    | None, _ => Some (mkLut (Some cidx) None h (hash_b st))
    | Some a, None => if Nat.eqb cidx a then None else Some (mkLut (Some a) (Some cidx) (hash_a st) h)
    | Some a, Some b =>
      if Nat.eqb cidx a then Some (mkLut (Some a) (Some b) h (hash_b st))
      else if Nat.eqb cidx b then Some (mkLut (Some a) (Some b) (hash_a st) h) else None
    end
  else None.
Fixpoint lut_conjuncts (t : ExecTable) (cs : list Expr2) (st : Lut) : option Lut :=
  match cs with [] => Some st | c :: cs => st ← lut_conjunct t c st; lut_conjuncts t cs st end.
Fixpoint lut_disjuncts (t : ExecTable) (ds : list Expr2) (a b : option nat) : option (option nat * option nat * list (Z * Z)) :=
  match ds with
  | [] => Some (a, b, [])
  | d :: ds =>
    st ← lut_conjuncts t (flatten_conjuncts d) (mkLut a b None None);
    ha ← hash_a st; hb ← hash_b st;
    '(a, b, pairs) ← lut_disjuncts t ds (col_a st) (col_b st);
    Some (a, b, (ha, hb) :: pairs)
  end.
Definition pair_bitmap (ca cb : list Z) (p : Z * Z) : option BitmapM.Bitmap :=
  a ← BitmapM.filter_eq_u64 avx ca p.1; b ← BitmapM.filter_eq_u64 avx cb p.2; Some (BitmapM.and a b).
Fixpoint or_pairs (ca cb : list Z) (acc : BitmapM.Bitmap) (ps : list (Z * Z)) : option BitmapM.Bitmap :=
  match ps with [] => Some acc | p :: ps => b ← pair_bitmap ca cb p; or_pairs ca cb (BitmapM.or acc b) ps end.
Definition apply_pairs (t : ExecTable) (a b : nat) (pairs : list (Z * Z)) (mask : list bool) : run (option (list bool)) :=
  ca ← or_panic (columns t !! a); cb ← or_panic (columns t !! b);
  match pairs with
  | [] => Ok None
  | p :: ps =>
    m ← (if Nat.leb (length pairs) 8 then and_rows (row_count t) (acc ← pair_bitmap ca cb p; or_pairs ca cb acc ps) mask
         else for_rows (row_count t) (λ i, x ← or_panic (ca !! i); y ← or_panic (cb !! i); Ok (bool_decide ((x, y) ∈ pairs))) mask);
    Ok (Some m)
  end.
Definition try_nation_pair_or_lut (or_expr : Expr2) (t : ExecTable) (mask : list bool) : run (option (list bool)) :=
  match lut_disjuncts t (flatten_disjuncts or_expr) None None with
  | Some (Some a, Some b, pairs) => apply_pairs t a b pairs mask
  | _ => Ok None
  end.

(** *** BETWEEN, IN and LIKE *)
Definition bm2 (f : BitmapM.Bitmap → BitmapM.Bitmap → BitmapM.Bitmap) (a b : option BitmapM.Bitmap) : option BitmapM.Bitmap :=
  x ← a; y ← b; Some (f x y).
Fixpoint clear_rows (negated : bool) (lo hi : Z) (col : list Z) (n i : nat) (bm : BitmapM.Bitmap) : option BitmapM.Bitmap :=
  match n with
  | O => Some bm
  | S n =>
    v ← col !! i;
    bm ← (if Bool.eqb negated (Z.leb lo v && Z.leb v hi) then BitmapM.clear i bm else Some bm);
    clear_rows negated lo hi col n (S i) bm
  end.
Definition between_filter (ty : ColType) (n : nat) (col : list Z) (lo_val hi_val : Value2) (negated : bool) : option BitmapM.Bitmap :=
  match ty with
  | TInt =>
    let lo := default (- 2 ^ 63) (val_i64 lo_val) in let hi := default (2 ^ 63 - 1) (val_i64 hi_val) in
    if negated then bm2 BitmapM.or (BitmapM.filter_lt_i64 avx col lo) (BitmapM.filter_gt_i64 avx col hi)
    else bm2 BitmapM.and (BitmapM.filter_ge_i64 avx col lo) (BitmapM.filter_le_i64 avx col hi)
  | TDate =>
    let lo := default 0 (val_u64 lo_val) in let hi := default (2 ^ 64 - 1) (val_u64 hi_val) in
    if negated then bm2 BitmapM.or (BitmapM.filter_lt_u64 avx col lo) (BitmapM.filter_gt_u64 avx col hi)
    else bm2 BitmapM.and (BitmapM.filter_ge_u64 avx col lo) (BitmapM.filter_le_u64 avx col hi)
  | TFloat =>
    let lo := f64_to_bits (default (S754_infinity true) (val_f64 lo_val)) in let hi := f64_to_bits (default (S754_infinity false) (val_f64 hi_val)) in
    if negated then bm2 BitmapM.or (BitmapM.filter_lt_f64 avx col lo) (BitmapM.filter_gt_f64 avx col hi)
    else bm2 BitmapM.and (BitmapM.filter_ge_f64 avx col lo) (BitmapM.filter_le_f64 avx col hi)
  | TString => clear_rows negated (default 0 (val_u64 lo_val)) (default (2 ^ 64 - 1) (val_u64 hi_val)) col n 0 (BitmapM.all_ones n)
  end.
Definition between_vec (e low high : Expr2) (negated : bool) (t : ExecTable) (mask : list bool) : run (list bool) :=
  match col_in e t with
  | Some col_idx =>
    lo ← eval_const low t; hi ← eval_const high t;
    col ← or_panic (columns t !! col_idx); ty ← or_panic (col_types t !! col_idx);
    and_rows (row_count t) (between_filter ty (row_count t) col lo hi negated) mask
  | None =>
    for_rows (row_count t) (λ i, v ← eval e t i; lo ← eval low t i; hi ← eval high t i; Ok (xorb negated (between v lo hi))) mask
  end.

(** The cells of the items; an item that is a column stands for its first cell, one that fails for nothing. *)
Fixpoint in_cells (t : ExecTable) (l : list Expr2) : run (list Z) :=
  match l with
  | [] => Ok []
  | e :: l =>
    v ← match col_in e t with
        | Some ci => col ← or_panic (columns t !! ci); c ← or_panic (col !! 0%nat); Ok (Some c)
        | None => match eval_const e t with Ok v => Ok (Some (to_u64 v)) | Err Panic => Err Panic | Err (Fail _) => Ok None end
        end;
    vs ← in_cells t l;
    Ok (option_list v ++ vs)
  end.
Definition in_list_vec (e : Expr2) (l : list Expr2) (negated : bool) (t : ExecTable) (mask : list bool) : run (list bool) :=
  match col_in e t with
  | Some col_idx =>
    vals ← in_cells t l; col ← or_panic (columns t !! col_idx);
    for_rows (row_count t) (λ i, v ← or_panic (col !! i); Ok (xorb negated (bool_decide (v ∈ vals)))) mask
  | None => for_rows (row_count t) (λ i, v ← eval e t i; found ← any_eq (λ item, eval item t i) v l; Ok (xorb negated found)) mask
  end.

Definition like_mask (sc : StringColumnM.StringSearchColumn) (pattern : list Z) : run (list bool) :=
  let n := StringColumnM.len sc in
  let rows f := DispatchM.mapM_run (λ i, s ← get_str sc i; Ok (f s)) (seq 0 n) in
  match pattern with
  | [] => Ok (replicate n true)
  | c :: rest =>
    if Z.eqb c 37 && negb (bool_decide (37 ∈ rest)) && negb (bool_decide (95 ∈ pattern)) then rows (λ s, ends_with s rest)
    else if negb (bool_decide (37 ∈ pattern)) && negb (bool_decide (95 ∈ pattern)) then rows (λ s, bool_decide (s = pattern))
    else rows (λ s, like s pattern)
  end.
Definition pattern_text (pattern : Expr2) (t : ExecTable) : run (list Z) :=
  match pattern with
  | EStr s => Ok (as_bytes s)
  | _ => match eval pattern t 0 with Ok (VStr s) => Ok s | Err Panic => Err Panic | _ => Ok [] end
  end.
(** The strings of a column, when there are enough of them. *)
Definition search_column (e : Expr2) (t : ExecTable) : option StringColumnM.StringSearchColumn := col_idx ← col_in e t; mjoin (string_columns t !! col_idx).
Definition like_rows (e pattern : Expr2) (negated : bool) (t : ExecTable) (mask : list bool) : run (list bool) :=
  for_rows (row_count t) (λ i, v ← eval e t i; p ← eval pattern t i;
    Ok (xorb negated match v, p with VStr s, VStr p => like s p | _, _ => false end)) mask.
Definition like_vec (e pattern : Expr2) (negated : bool) (t : ExecTable) (mask : list bool) : run (list bool) :=
  match search_column e t with
  | Some sc =>
    pat ← pattern_text pattern t;
    if negb (bool_decide (pat = [])) && Nat.leb (row_count t) (StringColumnM.len sc) then
      lm ← like_mask sc pat;
      if Nat.ltb (length mask) (row_count t) then Err Panic
      else Ok (zip_with (λ m b, m && xorb negated b) (take (row_count t) mask) lm ++ drop (row_count t) mask)
    else like_rows e pattern negated t mask
  | None => like_rows e pattern negated t mask
  end.

(** *** Conditions *)
Definition or_masks (n : nat) (mask lmask rmask : list bool) : run (list bool) :=
  if Nat.ltb (length mask) n then Err Panic else Ok (zip_with (λ m b, m && b) (take n mask) (zip_with orb lmask rmask) ++ drop n mask).
Fixpoint eval_bool_mask_vec (e : Expr2) (t : ExecTable) (mask : list bool) : run (list bool) :=
  match e with
  | BinOp And l r => mask ← eval_bool_mask_vec l t mask; eval_bool_mask_vec r t mask
  | BinOp Or l r =>
    fast ← try_nation_pair_or_lut e t mask;
    match fast with
    | Some mask => Ok mask
    | None =>
      let all := replicate (row_count t) true in
      lmask ← eval_bool_mask_vec l t all; rmask ← eval_bool_mask_vec r t all;
      or_masks (row_count t) mask lmask rmask
    end
  | BinOp op l r => eval_comparison_vec op l r t mask
  | Between e low high negated => between_vec e low high negated t mask
  | InList e l negated => in_list_vec e l negated t mask
  | Like e pattern negated => like_vec e pattern negated t mask
  | _ => for_rows (row_count t) (λ i, v ← eval e t i; Ok (truthy v)) mask
  end.
Definition build_mask (e : Expr2) (t : ExecTable) : run (list bool) := eval_bool_mask_vec e t (replicate (row_count t) true).
End eval.
End TpchEvalM.
