(* ===== verification/TpchWhere.v ===== *)
(** * Correctness of WHERE in the TPC-H interpreter (src/src/engine/tpch.rs)

    The evaluator of whole columns against the evaluator of single rows, and LIKE against
    its meaning. *)

From Stdlib Require Import ZArith Lia Ascii String Floats.SpecFloat.
From stdpp Require Import prelude list numbers gmap.
From S2P Require Import Prelude Bits Bitmap StringColumn Lexer Parser Vectorized Dispatch Where Tpch TpchEval.
Local Open Scope Z_scope.

Module TpchWhereM.
Import LexerM (text).
Import ParserM (K).
Import VectorizedM (as_bytes, f64_to_bits, utf8_char, utf8_bytes, utf8_ascii).
Import DispatchM (Fault (..), run, or_panic, get_str).
Import TpchM TpchEvalM.

(** ** Integers as floats *)
(** The integers a double holds without rounding. *)
Definition exact (z : Z) : Prop := - 2 ^ 53 < z < 2 ^ 53.

Lemma size_bounds p : 2 ^ (Zpos (Pos.size p) - 1) <= Zpos p < 2 ^ Zpos (Pos.size p).
Proof.
  pose proof (Pos.size_gt p) as H1. pose proof (Pos.size_le p) as H2.
  assert (Zpos p < 2 ^ Zpos (Pos.size p)) by (rewrite <- Pos2Z.inj_pow; lia).
  assert (2 ^ Zpos (Pos.size p) <= 2 * Zpos p) by (rewrite <- Pos2Z.inj_pow; lia).
  assert (2 ^ Zpos (Pos.size p) = 2 * 2 ^ (Zpos (Pos.size p) - 1)) by (rewrite <- Z.pow_succ_r by lia; f_equal; lia). lia.
Qed.
Lemma iter_double p q : Zpos (Pos.iter xO p q) = Zpos p * 2 ^ Zpos q.
Proof.
  induction q as [|q IH] using Pos.peano_ind; [change (2 ^ 1) with 2; cbn; lia|].
  rewrite Pos.iter_succ, Pos2Z.inj_succ, Z.pow_succ_r by lia. change (Zpos (Pos.iter xO p q)~0) with (2 * Zpos (Pos.iter xO p q)). lia.
Qed.
Lemma digits_size p : digits2_pos p = Pos.size p.
Proof. induction p; simpl; by rewrite ?IHp. Qed.
Lemma size_unique p k : 0 < k → 2 ^ (k - 1) <= Zpos p < 2 ^ k → Zpos (Pos.size p) = k.
Proof.
  intros Hk [H1 H2]. pose proof (size_bounds p) as [H3 H4].
  assert (Zpos (Pos.size p) - 1 < k) by (apply (Z.pow_lt_mono_r_iff 2); lia).
  assert (k - 1 < Zpos (Pos.size p)) by (apply (Z.pow_lt_mono_r_iff 2); lia). lia.
Qed.

(** The significand of 53 bits, and its exponent. *)
Definition scaled (p : positive) : positive := Z.to_pos (Zpos p * 2 ^ (53 - Zpos (Pos.size p))).
Lemma scaled_spec p : Zpos p < 2 ^ 53 → Zpos (scaled p) = Zpos p * 2 ^ (53 - Zpos (Pos.size p)) ∧ Zpos (Pos.size (scaled p)) = 53.
Proof.
  intros Hp. pose proof (size_bounds p) as [H1 H2].
  assert (Hs : Zpos (Pos.size p) <= 53).
  { assert (Zpos (Pos.size p) - 1 < 53); [|lia]. apply (Z.pow_lt_mono_r_iff 2); lia. }
  assert (Hpos : 0 < 2 ^ (53 - Zpos (Pos.size p))) by (apply Z.pow_pos_nonneg; lia).
  assert (E : Zpos (scaled p) = Zpos p * 2 ^ (53 - Zpos (Pos.size p))) by (unfold scaled; rewrite Z2Pos.id; lia). split; [done|].
  apply size_unique; [lia|]. rewrite E.
  assert (2 ^ (53 - 1) = 2 ^ (Zpos (Pos.size p) - 1) * 2 ^ (53 - Zpos (Pos.size p))) as -> by (rewrite <- Z.pow_add_r by lia; f_equal; lia).
  assert (2 ^ 53 = 2 ^ Zpos (Pos.size p) * 2 ^ (53 - Zpos (Pos.size p))) as -> by (rewrite <- Z.pow_add_r by lia; f_equal; lia). nia.
Qed.
Lemma round_exact s p : Zpos p < 2 ^ 53 → binary_round 53 1024 s p 0 = S754_finite s (scaled p) (Zpos (Pos.size p) - 53).
Proof.
  intros Hp. destruct (scaled_spec p Hp) as [E1 E2]. pose proof (size_bounds p) as [H1 _].
  assert (Hs : Zpos (Pos.size p) <= 53) by (assert (Zpos (Pos.size p) - 1 < 53); [apply (Z.pow_lt_mono_r_iff 2); lia|lia]).
  assert (Hf : ∀ m, Zpos (Pos.size m) = 53 → ∀ e, -1074 <= e <= 0 → shr_fexp 53 1024 (Zpos m) e loc_Exact = (Build_shr_record (Zpos m) false false, e)).
  { intros m Hm e He. unfold shr_fexp. replace (Zdigits2 (Zpos m)) with 53 by (cbn [Zdigits2]; rewrite digits_size; lia).
    replace (fexp 53 1024 (53 + e) - e) with 0 by (unfold fexp, emin; lia). done. }
  assert (Ha : shl_align p 0 (fexp 53 1024 (Zpos (digits2_pos p) + 0)) = (scaled p, Zpos (Pos.size p) - 53)).
  { rewrite digits_size. replace (fexp 53 1024 (Zpos (Pos.size p) + 0)) with (Zpos (Pos.size p) - 53) by (unfold fexp, emin; lia). unfold shl_align.
    rewrite Z.sub_0_r. destruct (Zpos (Pos.size p) - 53) as [|q|q] eqn:E; [|lia|]; (f_equal; apply Pos2Z.inj; rewrite E1).
    - replace (53 - Zpos (Pos.size p)) with 0 by lia. lia.
    - rewrite iter_double. do 2 f_equal. lia. }
  unfold binary_round. rewrite Ha. unfold binary_round_aux. rewrite Hf by (done || lia). cbn [round_nearest_even shr_m loc_of_shr_record].
  rewrite Hf by (done || lia). cbn [shr_m]. replace (Z.leb _ _) with true; [done|]. symmetry. apply Z.leb_le. lia.
Qed.
Definition sf_of (z : Z) : spec_float :=
  match z with
  | Z0 => S754_zero false
  | Zpos p => S754_finite false (scaled p) (Zpos (Pos.size p) - 53)
  | Zneg p => S754_finite true (scaled p) (Zpos (Pos.size p) - 53)
  end.
Lemma as_f64_exact z : exact z → as_f64 z = sf_of z.
Proof. unfold exact, as_f64, binary_normalize. intros H. destruct z; [done|apply round_exact; lia..]. Qed.
Lemma scaled_compare p q : Zpos p < 2 ^ 53 → Zpos q < 2 ^ 53 →
  match Z.compare (Zpos (Pos.size p) - 53) (Zpos (Pos.size q) - 53) with
  | Datatypes.Eq => Pos.compare_cont Datatypes.Eq (scaled p) (scaled q) | c => c
  end = Z.compare (Zpos p) (Zpos q).
Proof.
  intros Hp Hq. destruct (scaled_spec p Hp) as [E1 _], (scaled_spec q Hq) as [E2 _].
  pose proof (size_bounds p) as [P1 P2]. pose proof (size_bounds q) as [Q1 Q2].
  assert (Hlt : ∀ a b : Z, 0 <= a → a < b → 2 ^ a <= 2 ^ (b - 1)) by (intros; apply Z.pow_le_mono_r; lia).
  destruct (Z.compare_spec (Zpos (Pos.size p) - 53) (Zpos (Pos.size q) - 53)) as [E|E|E]; symmetry.
  - change (Pos.compare_cont Datatypes.Eq (scaled p) (scaled q)) with (Z.compare (Zpos (scaled p)) (Zpos (scaled q))). rewrite E1, E2.
    replace (Zpos (Pos.size q)) with (Zpos (Pos.size p)) by lia. apply Zmult_compare_compat_r.
    assert (Zpos (Pos.size p) - 1 < 53) by (apply (Z.pow_lt_mono_r_iff 2); lia). apply Z.lt_gt, Z.pow_pos_nonneg; lia.
  - apply Z.compare_lt_iff. specialize (Hlt (Zpos (Pos.size p)) (Zpos (Pos.size q))). lia.
  - apply Z.compare_gt_iff. specialize (Hlt (Zpos (Pos.size q)) (Zpos (Pos.size p))). lia.
Qed.
(** Exact integers are ordered as their doubles are. *)
Lemma compare_exact a b : exact a → exact b → SFcompare (as_f64 a) (as_f64 b) = Some (Z.compare a b).
Proof.
  intros Ha Hb. rewrite !as_f64_exact by done. unfold exact in *. destruct a as [|a|a], b as [|b|b]; try done; cbn [sf_of SFcompare]; f_equal.
  - rewrite <- scaled_compare by lia. by destruct (Z.compare _ _).
  - change (Z.compare (Zneg a) (Zneg b)) with (CompOpp (Z.compare (Zpos a) (Zpos b))). rewrite <- (scaled_compare a b) by lia. by destruct (Z.compare _ _).
Qed.
(** ** LIKE *)
(** A pattern of bytes: [%] (37) is any run of bytes, [_] (95) one byte. *)
Inductive byte_like : list Z → list Z → Prop :=
| bl_nil : byte_like [] []
| bl_skip p s : byte_like p s → byte_like (37 :: p) s
| bl_any p b s : byte_like (37 :: p) s → byte_like (37 :: p) (b :: s)
| bl_one p b s : byte_like p s → byte_like (95 :: p) (b :: s)
| bl_char c p s : c ≠ 37 → c ≠ 95 → byte_like p s → byte_like (c :: p) (c :: s).

Lemma bl_percent p s : byte_like (37 :: p) s ↔ ∃ k, (k <= length s)%nat ∧ byte_like p (drop k s).
Proof.
  split.
  - intros H. remember (37 :: p) as q eqn:E. revert p E. induction H; intros q E; simplify_eq.
    + exists 0%nat. rewrite drop_0. split; [lia|done].
    + destruct (IHbyte_like q eq_refl) as (k & Hk & H'). exists (S k). split; [cbn; lia|done].
  - intros (k & Hk & H). revert k Hk H. induction s as [|b s IH]; intros k Hk H; [rewrite drop_nil in H; by apply bl_skip|].
    destruct k as [|k]; [by apply bl_skip|]. apply bl_any. apply (IH k); [cbn in Hk; lia|done].
Qed.
Lemma bl_later p s k : (k <= length s)%nat → byte_like (37 :: p) (drop k s) → byte_like (37 :: p) s.
Proof.
  intros Hk (j & Hj & H)%bl_percent. apply bl_percent. exists (k + j)%nat. rewrite drop_drop in H. rewrite length_drop in Hj. split; [lia|done].
Qed.
(** A byte of the pattern that is no [%] takes one byte of the string. *)
Lemma bl_step c p b s : c ≠ 37 → byte_like (c :: p) (b :: s) ↔ (c = 95 ∨ c = b) ∧ byte_like p s.
Proof.
  intros Hc. split; [intros H; inversion H; subst; naive_solver|]. intros [[->| ->] H]; [by constructor|].
  destruct (decide (b = 95)) as [->|]; by constructor.
Qed.
Lemma bl_end s b : ¬ byte_like [] (b :: s).
Proof. intros H. inversion H. Qed.
Lemma bl_short c p : c ≠ 37 → ¬ byte_like (c :: p) [].
Proof. intros Hc H. inversion H; congruence. Qed.
Lemma bl_segment m p u : 37 ∉ m → byte_like (m ++ p) u → (length m <= length u)%nat ∧ byte_like p (drop (length m) u).
Proof.
  revert u. induction m as [|c m IH]; intros u Hm H; [cbn; split; [lia|by rewrite drop_0]|]. apply not_elem_of_cons in Hm as [Hc Hm].
  destruct u as [|b u]; [by apply bl_short in H|]. apply bl_step in H as [_ H]; [|done]. destruct (IH u Hm H). cbn. split; [lia|done].
Qed.
Lemma bl_nil_percent p : all_percent p = true ↔ byte_like p [].
Proof.
  induction p as [|c p IH]; [split; [constructor|done]|]. cbn [all_percent]. rewrite andb_true_iff, Z.eqb_eq, IH. split.
  - intros [-> H]. by constructor.
  - intros H. by inversion H; subst.
Qed.

Section matcher.
Context (s p : list Z) (Hs : 37 ∉ s).
(** What is left to try: the rest of the string from here, or the rest of the pattern after the last [%] further right. *)
Definition still (si pi : nat) (star : option (nat * nat)) : Prop :=
  byte_like (drop pi p) (drop si s) ∨
  match star with Some (sp, ss) => ∃ k, (ss < k <= length s)%nat ∧ byte_like (drop (S sp) p) (drop k s) | None => False end.
(** Between the last [%] and here the pattern has no [%], and as many bytes as were read. *)
Definition star_ok (si pi : nat) (star : option (nat * nat)) : Prop :=
  (pi <= length p)%nat ∧
  match star with
  | Some (sp, ss) => ∃ m, (37 ∉ m) ∧ drop (S sp) p = m ++ drop pi p ∧ (pi = S (sp + length m))%nat ∧ (si = ss + length m)%nat
  | None => True
  end.
Definition potential (pi : nat) (star : option (nat * nat)) : nat :=
  (length s + 1 - (match star with Some (_, ss) => ss | None => 0 end)) * (length p + 2) + (length p + 1 - pi).

Lemma star_shift si pi sp ss : star_ok si pi (Some (sp, ss)) → (∃ k, (ss < k <= length s)%nat ∧ byte_like (drop (S sp) p) (drop k s)) →
  ∃ k, (si < k <= length s)%nat ∧ byte_like (drop pi p) (drop k s).
Proof.
  intros [_ (m & Hm & E & Hpi & Hsi)] (k & Hk & H). rewrite E in H. apply bl_segment in H as [Hl H]; [|done].
  rewrite drop_drop in H. rewrite length_drop in Hl. exists (k + length m)%nat. split; [lia|done].
Qed.
Lemma like_loop_ok fuel si pi star : (potential pi star < fuel)%nat → (si <= length s)%nat → star_ok si pi star →
  ∃ b, like_loop fuel s p si pi star = Some b ∧ (b = true ↔ still si pi star).
Proof.
  revert si pi star. induction fuel as [|fuel IH]; intros si pi star Hf Hsi Hok; [lia|]. cbn [like_loop].
  destruct (s !! si) as [b|] eqn:Eb.
  2:{ apply lookup_ge_None_1 in Eb. eexists. split; [done|]. rewrite bl_nil_percent. unfold still. rewrite (drop_ge s) by lia. split; [by left|].
      intros [H|H]; [done|]. destruct star as [[sp ss]|]; [|done]. destruct (star_shift si pi sp ss Hok H) as (k & Hk & _). lia. }
  pose proof (lookup_lt_Some _ _ _ Eb) as Hlt. pose proof (drop_S _ _ _ Eb) as Ds. destruct Hok as [Hp Hst].
  assert (Hb : b ≠ 37) by (intros ->; apply Hs; by eapply list_elem_of_lookup_2).
  assert (Hretry : ¬ byte_like (drop pi p) (drop si s) → ∃ r,
    match star with Some (sp, ss) => like_loop fuel s p (S ss) (S sp) (Some (sp, S ss)) | None => Some false end = Some r ∧ (r = true ↔ still si pi star)).
  { intros Hno. destruct star as [[sp ss]|]; [|exists false; split; [done|]; split; [done|]; by intros []].
    destruct Hst as (m & Hm & E & Hpi & Hsi'). destruct (IH (S ss) (S sp) (Some (sp, S ss))) as (r & Hr & Hiff).
    - unfold potential in *. nia.
    - lia.
    - split; [lia|]. exists []. split_and!; [set_solver|done|cbn; lia|cbn; lia].
    - exists r. split; [done|]. rewrite Hiff. unfold still. split.
      + intros [H|(k & Hk & H)]; right; [exists (S ss)|exists k]; (split; [lia|done]).
      + intros [H|(k & Hk & H)]; [done|]. destruct (decide (k = S ss)) as [->|]; [by left|]. right. exists k. split; [lia|done]. }
  destruct (p !! pi) as [c|] eqn:Ec.
  2:{ apply Hretry. rewrite (drop_ge p) by by apply lookup_ge_None_1. rewrite Ds. apply bl_end. }
  pose proof (lookup_lt_Some _ _ _ Ec) as Hpl. pose proof (drop_S _ _ _ Ec) as Dp.
  destruct (Z.eqb c 95 || Z.eqb c b) eqn:Em.
  - rewrite orb_true_iff, !Z.eqb_eq in Em. assert (Hc : c ≠ 37) by (destruct Em; congruence || lia).
    destruct (IH (S si) (S pi) star) as (r & Hr & Hiff); [unfold potential in *; lia|lia| |].
    + split; [lia|]. destruct star as [[sp ss]|]; [|done]. destruct Hst as (m & Hm & E & H1 & H2). exists (m ++ [c]).
      rewrite length_app, <- app_assoc. cbn [app length]. rewrite <- Dp. split_and!; [set_solver|done|lia|lia].
    + exists r. split; [done|]. rewrite Hiff. unfold still. rewrite Dp, Ds, bl_step by done. tauto.
  - rewrite orb_false_iff, !Z.eqb_neq in Em. destruct (Z.eqb_spec c 37) as [->|Hc].
    + destruct (IH si (S pi) (Some (pi, si))) as (r & Hr & Hiff).
      * unfold potential in *. destruct star as [[sp ss]|]; [destruct Hst as (m & _ & _ & _ & ?)|]; nia.
      * lia.
      * split; [lia|]. exists []. split_and!; [set_solver|done|cbn; lia|cbn; lia].
      * exists r. split; [done|]. rewrite Hiff. unfold still. rewrite Dp. split.
        -- intros H. left. apply bl_percent. destruct H as [H|(k & Hk & H)]; [exists 0%nat; split; [lia|by rewrite drop_0]|].
           exists (k - si)%nat. rewrite length_drop, drop_drop. split; [lia|]. by replace (si + (k - si))%nat with k by lia.
        -- intros [H|H].
           ++ apply bl_percent in H as (k & Hk & H). rewrite drop_drop in H. rewrite length_drop in Hk. destruct k as [|k]; [left; by rewrite Nat.add_0_r in H|].
              right. exists (si + S k)%nat. split; [lia|done].
           ++ destruct star as [[sp ss]|]; [|done]. destruct (star_shift si pi sp ss (conj Hp Hst) H) as (k & Hk & H'). rewrite Dp in H'.
              apply bl_percent in H' as (j & Hj & H'). rewrite drop_drop in H'. rewrite length_drop in Hj. right. exists (k + j)%nat. split; [lia|done].
    + apply Hretry. rewrite Dp, Ds, bl_step by done. intros [[?|?] _]; tauto.
Qed.
Lemma like_spec : like s p = true ↔ byte_like p s.
Proof.
  destruct (like_loop_ok (like_fuel s p) 0 0 None) as (b & H & Hiff); [unfold potential, like_fuel; lia|lia|split; [lia|done]|].
  unfold like. rewrite H. cbn [default]. rewrite Hiff. unfold still. rewrite !drop_0. tauto.
Qed.
End matcher.

(** *** Patterns without wildcards *)
Lemma bl_text m q s : 37 ∉ m → 95 ∉ m → byte_like (m ++ q) s ↔ ∃ s', s = m ++ s' ∧ byte_like q s'.
Proof.
  revert s. induction m as [|c m IH]; intros s H1 H2; [split; [by exists s|by intros (? & -> & ?)]|].
  apply not_elem_of_cons in H1 as [Hc H1]. apply not_elem_of_cons in H2 as [Hc' H2]. split.
  - intros H. destruct s as [|b s]; [by apply bl_short in H|]. apply bl_step in H as [Hb H]; [|done]. destruct Hb as [->| <-]; [done|].
    apply IH in H as (s' & -> & H'); [|done..]. by exists s'.
  - intros (s' & -> & H). cbn [app]. apply bl_step; [done|]. split; [by right|]. apply IH; [done..|]. by exists s'.
Qed.
Lemma bl_exact m s : 37 ∉ m → 95 ∉ m → byte_like m s ↔ s = m.
Proof.
  intros H1 H2. rewrite <- (app_nil_r m) at 1. rewrite bl_text by done. split; [|intros ->; exists []; split; [by rewrite app_nil_r|constructor]].
  intros (s' & -> & H). inversion H; subst. by rewrite app_nil_r.
Qed.
Lemma bl_suffix m s : 37 ∉ m → 95 ∉ m → byte_like (37 :: m) s ↔ ∃ x, s = x ++ m.
Proof.
  intros H1 H2. rewrite bl_percent. split.
  - intros (k & _ & H). apply bl_exact in H; [|done..]. exists (take k s). by rewrite <- H, take_drop.
  - intros (x & ->). exists (length x). rewrite length_app, drop_app_length. split; [lia|]. by apply bl_exact.
Qed.

(** *** The meaning of LIKE in text *)
Lemma like_one_inv p s : WhereM.like (95 :: p) s ↔ ∃ c s', s = utf8_char c ++ s' ∧ WhereM.like p s'.
Proof. split; [|intros (c & s' & -> & H); by constructor]. intros H. inversion H as [| | |p' c s' Hl|]; subst; [|done]. by exists c, s'. Qed.
Lemma utf8_cons c : ∃ b bs, utf8_char c = b :: bs.
Proof. unfold utf8_char. repeat case_match; by eexists _, _. Qed.
Lemma like_bytes p s : Forall (λ c, 0 <= c) p → 95 ∉ p ∨ Forall (λ b, b < 128) s → byte_like (as_bytes p) s ↔ WhereM.like p s.
Proof.
  intros Hp. revert s. induction Hp as [|c p Hc Hp IH]; intros s Ha.
  { change (as_bytes []) with (@nil Z). split; intros H; inversion H; constructor. }
  assert (Hrest : ∀ x s', s = x ++ s' → 95 ∉ p ∨ Forall (λ b, b < 128) s').
  { intros x s' ->. destruct Ha as [Ha|Ha]; [left; set_solver|]. right. by apply Forall_app in Ha as [_ ?]. }
  unfold as_bytes in *. cbn [fmap list_fmap concat]. destruct (decide (c = 37)) as [->|H1].
  { rewrite utf8_ascii by lia. cbn [app]. rewrite bl_percent, WhereM.like_percent. split.
    - intros (k & Hk & H). exists (take k s), (drop k s). rewrite take_drop. split; [done|]. apply IH; [|done]. apply (Hrest (take k s)). by rewrite take_drop.
    - intros (x & y & -> & H). exists (length x). rewrite length_app, drop_app_length. split; [lia|]. apply IH; [by apply (Hrest x)|done]. }
  destruct (decide (c = 95)) as [->|H2].
  { rewrite utf8_ascii by lia. cbn [app]. rewrite like_one_inv. destruct Ha as [Ha|Ha]; [set_solver|]. split.
    - intros H. destruct s as [|b s]; [by apply bl_short in H|]. apply bl_step in H as [_ H]; [|done]. apply Forall_cons_1 in Ha as [Hb Ha].
      exists b, s. rewrite utf8_ascii by done. split; [done|]. apply IH; [by right|done].
    - intros (c & s' & -> & H). assert (Hc' : c < 128).
      { destruct (utf8_cons c) as (b & bs & E). destruct (decide (c < 128)); [done|]. rewrite E in Ha. apply Forall_cons_1 in Ha as [Hb _].
        assert (128 <= b) by (apply (utf8_bytes c); [lia|rewrite E; by left]). lia. }
      rewrite utf8_ascii by done. cbn [app]. apply bl_one. apply IH; [|done]. by apply (Hrest (utf8_char c)). }
  assert (Hw : ∀ b, b ∈ utf8_char c → b ≠ 37 ∧ b ≠ 95).
  { intros b Hb. destruct (decide (c < 128)); [rewrite utf8_ascii in Hb by done; apply list_elem_of_singleton in Hb as ->; done|]. pose proof (utf8_bytes c b ltac:(lia) Hb). lia. }
  rewrite bl_text by (intros Hb; apply Hw in Hb; by destruct Hb). change (c :: p) with ([c] ++ p). rewrite WhereM.like_text by by repeat constructor.
  unfold as_bytes. cbn [fmap list_fmap concat]. rewrite app_nil_r. split; intros (s' & -> & H); (exists s'; split; [done|]; apply IH; [by apply (Hrest (utf8_char c))|done]).
Qed.

(** ** Masks *)
Lemma rows_loop_ok f g i mask : (∀ k, (i <= k < i + length mask)%nat → f k = Ok (g k)) →
  rows_loop f i mask = Ok (zip_with andb mask (g <$> seq i (length mask))).
Proof.
  revert i. induction mask as [|b mask IH]; intros i H; [done|]. cbn [rows_loop length seq fmap list_fmap zip_with].
  rewrite IH by (intros k Hk; apply H; cbn; lia). destruct b; [rewrite H by (cbn; lia)|]; done.
Qed.
Lemma for_rows_ok n f g mask : length mask = n → (∀ k, (k < n)%nat → f k = Ok (g k)) → for_rows n f mask = Ok (zip_with andb mask (g <$> seq 0 n)).
Proof.
  intros Hl H. unfold for_rows. rewrite Hl, (proj2 (Nat.ltb_ge n n)) by lia. rewrite take_ge, drop_ge by lia.
  rewrite (rows_loop_ok f g) by (intros; apply H; lia). cbn. by rewrite app_nil_r, Hl.
Qed.
Lemma rows_fmap {B} (col : list Z) n (p : Z → B) (g : nat → B) : length col = n → (∀ i c, col !! i = Some c → p c = g i) → p <$> col = g <$> seq 0 n.
Proof.
  intros Hl H. apply list_eq. intros i. rewrite !list_lookup_fmap. destruct (col !! i) as [c|] eqn:E.
  - rewrite lookup_seq_lt by (rewrite <- Hl; by eapply lookup_lt_Some). simpl. by rewrite (H i c E).
  - rewrite lookup_seq_ge by (rewrite <- Hl; by apply lookup_ge_None_1). done.
Qed.

Section where_.
Context {S0 : Std} {Q0 : Enclosing}.

(** A bitmap with a bit per row. *)
Definition decides (bm : option BitmapM.Bitmap) (n : nat) (g : nat → bool) : Prop := ∃ b, bm = Some b ∧ BitmapM.bm_wf b ∧ BitmapM.rows b = g <$> seq 0 n.
Lemma selects_decides bm p col n g : BitmapM.selects bm p col → length col = n → (∀ i c, col !! i = Some c → p c = g i) → decides bm n g.
Proof.
  intros (b & -> & Hb & Hv & _) Hl Hg. exists b. split_and!; [done..|]. rewrite BitmapM.to_bool_vec_rows in Hv by done. injection Hv as ->. by apply rows_fmap.
Qed.
Lemma decides_bm2 (h : bool → bool → bool) f a b n g1 g2 : (∀ x y, BitmapM.bm_wf x → BitmapM.bm_wf y → BitmapM.len x = BitmapM.len y →
    BitmapM.bm_wf (f x y) ∧ BitmapM.rows (f x y) = zip_with h (BitmapM.rows x) (BitmapM.rows y)) →
  decides (Some a) n g1 → decides (Some b) n g2 → decides (Some (f a b)) n (λ i, h (g1 i) (g2 i)).
Proof.
  intros Hf (x & [= ->] & Wx & Rx) (y & [= ->] & Wy & Ry). eexists. split; [done|]. destruct (Hf x y Wx Wy) as [W R].
  - rewrite <- !BitmapM.length_rows, Rx, Ry, !length_fmap by done. done.
  - split; [done|]. rewrite R, Rx, Ry. generalize (seq 0 n). induction l as [|c l IH]; [done|]. cbn. by rewrite IH.
Qed.
Lemma and_rows_decides n bm g mask : decides bm n g → length mask = n → and_rows n bm mask = Ok (zip_with andb mask (g <$> seq 0 n)).
Proof.
  intros (b & -> & Hb & Hr) Hm. unfold and_rows. cbn [or_panic mbind result_bind]. rewrite Hm, (proj2 (Nat.ltb_ge n n)) by lia. rewrite take_ge, drop_ge, app_nil_r by lia.
  assert (Hlen : BitmapM.len b = n) by (rewrite <- BitmapM.length_rows, Hr, length_fmap, length_seq by done; done).
  destruct (BitmapM.combinators_avx_scalar avx b b mask) as (-> & _).
  - eapply Forall_impl; [apply (BitmapM.bw_byte _ Hb)|]. unfold in_u, byte_ok. intros z Hz. exact Hz.
  - pose proof (BitmapM.bm_wf_le b Hb). lia.
  - f_equal. rewrite BitmapM.flat_rows, Hr by done. apply list_eq. intros i. rewrite !lookup_zip_with.
    destruct (decide (i < n)%nat) as [Hi|Hi]; [|by rewrite (lookup_ge_None_2 mask) by lia].
    by rewrite lookup_app_l by (by rewrite length_fmap, length_seq).
Qed.
Lemma and_rows_ok n bm p col g mask : BitmapM.selects bm p col → length col = n → length mask = n → (∀ i c, col !! i = Some c → p c = g i) →
  and_rows n bm mask = Ok (zip_with andb mask (g <$> seq 0 n)).
Proof. intros Hs Hc Hm Hg. apply and_rows_decides; [by eapply selects_decides|done]. Qed.

(** *** Tables *)
Record exec_ok (t : ExecTable) : Prop := {
  ok_cells : Forall (λ c, length c = row_count t ∧ Forall (in_u 64) c) (columns t);
  ok_types : length (col_types t) = length (columns t);
  ok_strs : length (string_columns t) = length (columns t);
  ok_map : ∀ name i, col_map t !! name = Some i → (i < length (columns t))%nat;
  ok_strings : ∀ i sc, string_columns t !! i = Some (Some sc) → ∃ ss, sc = StringColumnM.new ss ∧ length ss = row_count t
}.
Definition value_of (r : run Value2) : Value2 := match r with Ok v => v | Err _ => VNull end.
(** What a condition is worth at a row. *)
Definition holds (e : Expr2) (t : ExecTable) (i : nat) : bool := truthy (value_of (eval e t i)).
Abbreviation cell t idx i := (value_of (cell_value t idx i)).

Lemma lookup_ok t name idx : exec_ok t → lookup_col t name = Some idx →
  ∃ col ty, columns t !! idx = Some col ∧ col_types t !! idx = Some ty ∧ length col = row_count t ∧ Forall (in_u 64) col.
Proof.
  intros Ht H. assert (Hi : (idx < length (columns t))%nat) by (unfold lookup_col in H; destruct (col_map t !! name) eqn:E; [simplify_eq|]; by eapply ok_map).
  destruct (lookup_lt_is_Some_2 _ _ Hi) as [col Hc]. rewrite <- (ok_types _ Ht) in Hi. destruct (lookup_lt_is_Some_2 _ _ Hi) as [ty Hty].
  destruct (Forall_lookup_1 _ _ _ _ (ok_cells _ Ht) Hc). by exists col, ty.
Qed.
(** A cell of a column that holds no strings. *)
Lemma cell_plain t idx i col ty c : columns t !! idx = Some col → col_types t !! idx = Some ty → col !! i = Some c → ty ≠ TString →
  cell_value t idx i = Ok (plain_value ty c).
Proof. intros H1 H2 H3 Hty. unfold cell_value. rewrite H1, H2. cbn. rewrite H3. by destruct ty. Qed.
(** The strings of a column and their hashes in its cells. *)
Definition has_strings (t : ExecTable) (idx : nat) (ss : list (list Z)) : Prop :=
  string_columns t !! idx = Some (Some (StringColumnM.new ss)) ∧ columns t !! idx = Some (xxh3_64 <$> ss).
Lemma cell_string t idx ss i s : has_strings t idx ss → col_types t !! idx = Some TString → ss !! i = Some s → cell_value t idx i = Ok (VStr s).
Proof.
  intros [H1 H2] H3 H4. unfold cell_value. rewrite H1, H2, H3. cbn [or_panic mbind result_bind]. rewrite (StringColumnM.len_holds _ _ (StringColumnM.column_holds_new ss)).
  rewrite (proj2 (Nat.ltb_lt i (length ss))) by by eapply lookup_lt_Some. by rewrite (WhereM.get_new _ _ _ H4).
Qed.

(** *** A column and a constant *)
Definition is_cmp (op : BinOp2) : bool := match op with Eq | Ne | Lt | Gt | Le | Ge => true | _ => false end.
Definition is_order (op : BinOp2) : bool := match op with Lt | Gt | Le | Ge => true | _ => false end.
Definition z_holds (op : BinOp2) (a b : Z) : bool :=
  match op with
  | Eq => Z.eqb a b | Ne => negb (Z.eqb a b) | Lt => Z.ltb a b | Gt => Z.gtb a b | Le => Z.leb a b | Ge => Z.geb a b | _ => false
  end.
Definition f_holds (op : BinOp2) (a b : spec_float) : bool :=
  match op with Lt => SFltb a b | Gt => SFltb b a | Le => SFleb a b | Ge => SFleb b a | _ => false end.

Lemma truthy_bool b : truthy (bool_val b) = b.
Proof. by destruct b. Qed.
Lemma SFleb_or a b : SFltb a b || SFeqb a b = SFleb a b.
Proof. unfold SFltb, SFeqb, SFleb. by destruct (SFcompare a b) as [[]|]. Qed.
Lemma SFcompare_antisym a b : SFcompare b a = CompOpp <$> SFcompare a b.
Proof.
  destruct a as [[]|[]| |[] ma ea], b as [[]|[]| |[] mb eb]; try done; cbn [SFcompare];
    rewrite (Z.compare_antisym ea eb); destruct (Z.compare ea eb); try done;
    change (Pos.compare_cont Datatypes.Eq ?x ?y) with (Pos.compare x y); rewrite (Pos.compare_antisym ma mb); by destruct (Pos.compare ma mb).
Qed.
Lemma SFeqb_sym a b : SFeqb a b = SFeqb b a.
Proof. unfold SFeqb. rewrite (SFcompare_antisym b a). by destruct (SFcompare b a) as [[]|]. Qed.
(** Numbers that are not NaN are ordered. *)
Lemma SF_total a b : a ≠ S754_nan → b ≠ S754_nan → SFltb a b = negb (SFleb b a).
Proof.
  intros Ha Hb. unfold SFltb, SFleb. rewrite (SFcompare_antisym a b). destruct (SFcompare a b) as [[]|] eqn:E; try done.
  by destruct a as [[]|[]| |[] ? ?], b as [[]|[]| |[] ? ?].
Qed.
Lemma cmp_eq_sym v w : cmp_eq v w = cmp_eq w v.
Proof.
  assert (∀ v w, cmp_f64 SFeqb v w = cmp_f64 SFeqb w v) as H.
  { clear. intros v w. unfold cmp_f64. destruct (val_f64 v), (val_f64 w); try done. apply SFeqb_sym. }
  destruct v, w; try done; try apply H. cbn. apply bool_decide_ext. naive_solver.
Qed.

(** Integers and dates as numbers. *)
Definition num (v : Value2) : option Z := match v with VInt i => Some i | VDate d => Some d | _ => None end.
Lemma cmp_exact v w a b : num v = Some a → num w = Some b → exact a → exact b →
  cmp_eq v w = Z.eqb a b ∧ cmp_lt v w = Z.ltb a b ∧ cmp_le v w = Z.leb a b.
Proof.
  intros Hv Hw Ha Hb. assert (H : cmp_eq v w = Z.eqb a b ∧ cmp_lt v w = Z.ltb a b).
  { destruct v, w; try done; cbn in *; simplify_eq; unfold cmp_f64, SFeqb, SFltb; cbn; rewrite compare_exact by done; unfold Z.ltb; rewrite Z.eqb_compare;
      split; destruct (Z.compare a b); done. }
  destruct H as [H1 H2]. split_and!; [done..|]. unfold cmp_le. rewrite H1, H2. destruct (Z.ltb_spec a b), (Z.eqb_spec a b), (Z.leb_spec a b); lia || done.
Qed.
Lemma binop_exact op v w a b : is_cmp op = true → num v = Some a → num w = Some b → exact a → exact b → truthy (binop op v w) = z_holds op a b.
Proof.
  intros Hop Hv Hw Ha Hb. destruct (cmp_exact v w a b Hv Hw Ha Hb) as (H1 & H2 & H3). destruct (cmp_exact w v b a Hw Hv Hb Ha) as (_ & H5 & H6).
  destruct op; try done; cbn [binop z_holds]; rewrite truthy_bool, ?H1, ?H2, ?H3, ?H5, ?H6, ?Z.gtb_ltb, ?Z.geb_leb; done.
Qed.
Lemma binop_float op v w a b : is_order op = true → val_f64 v = Some a → val_f64 w = Some b → (∀ s, v ≠ VStr s) → (∀ s, w ≠ VStr s) →
  truthy (binop op v w) = f_holds op a b.
Proof.
  intros Hop Hv Hw Hnv Hnw.
  assert (H : ∀ v w a b, val_f64 v = Some a → val_f64 w = Some b → (∀ s, v ≠ VStr s) → (∀ s, w ≠ VStr s) → cmp_lt v w = SFltb a b ∧ cmp_le v w = SFleb a b).
  { clear. intros v w a b Hv Hw Hnv Hnw. rewrite <- SFleb_or. unfold cmp_le.
    destruct v, w; try done; try (by destruct (Hnv s)); try (by destruct (Hnw s)); cbn in *; unfold cmp_f64; cbn; by simplify_eq. }
  destruct (H v w a b) as [H1 H2], (H w v b a) as [H3 H4]; [done..|].
  destruct op; try done; cbn [binop f_holds]; rewrite truthy_bool, ?H1, ?H2, ?H3, ?H4; done.
Qed.

Lemma int_filter_ok op col k : is_cmp op = true → - 2 ^ 63 <= k < 2 ^ 63 →
  ∃ bm p, int_filter op col k = Some bm ∧ BitmapM.selects bm p col ∧ ∀ c, in_u 64 c → p c = z_holds op (as_signed 64 c) k.
Proof.
  intros Hop Hk. pose proof (BitmapM.filters_select avx col (wrap_u 64 k) k Hk) as (F1 & F2 & _ & _ & _ & _ & F3 & F4 & F5 & F6 & _).
  assert (He : ∀ c, in_u 64 c → Z.eqb c (wrap_u 64 k) = Z.eqb (as_signed 64 c) k).
  { intros c Hc. apply Bool.eq_iff_eq_true. rewrite !Z.eqb_eq. split; [intros ->; by apply as_signed_wrap|]. intros <-. symmetry. unfold wrap_u, as_signed, in_u in *.
    rewrite (Z.mod_small c) by done. destruct (Z.ltb c _); [by apply Z.mod_small|]. rewrite <- (Z.mod_small c (2 ^ 64)) at 2 by done.
    replace (c - 2 ^ 64) with (c + (-1) * 2 ^ 64) by lia. by rewrite Z.mod_add. }
  destruct op; try done; (eexists _, _; split; [reflexivity|]; split; [eassumption|]); intros c Hc; cbn [z_holds]; by rewrite ?He.
Qed.
Lemma date_filter_ok op col u : is_cmp op = true →
  ∃ bm p, date_filter op col u = Some bm ∧ BitmapM.selects bm p col ∧ ∀ c, p c = z_holds op c u.
Proof.
  intros Hop. pose proof (BitmapM.filters_select avx col u 0 ltac:(lia)) as (F1 & F2 & F3 & F4 & F5 & F6 & _).
  destruct op; try done; (eexists _, _; split; [reflexivity|]; split; [eassumption|]); done.
Qed.
Lemma float_filter_ok eq op col u : is_order op = true →
  ∃ bm p, float_filter eq op col u = Some bm ∧ BitmapM.selects bm p col ∧ ∀ c, p c = f_holds op (BitmapM.f64_from_bits c) (BitmapM.f64_from_bits u).
Proof.
  intros Hop. pose proof (BitmapM.filters_select avx col u 0 ltac:(lia)) as (_ & _ & _ & _ & _ & _ & _ & _ & _ & _ & F1 & F2 & F3 & F4).
  destruct op; try done; (eexists _, _; split; [reflexivity|]; split; [eassumption|]); done.
Qed.

(** The constants a column is compared with as its rows are: numbers without rounding, dates from 1970,
    strings whose hashes do not collide; floats by their order only. *)
Definition col_forall (P : Z → Prop) (t : ExecTable) (idx : nat) : Prop := ∀ col c, columns t !! idx = Some col → c ∈ col → P c.
Definition same_hash (ss : list (list Z)) (s : list Z) : Prop := ∀ x, x ∈ ss → xxh3_64 x = xxh3_64 s → x = s.
Definition same_bits (f : spec_float) : Prop := BitmapM.f64_from_bits (f64_to_bits f) = f.
Definition comparable (t : ExecTable) (op : BinOp2) (idx : nat) (v : Value2) : Prop :=
  match col_types t !! idx, v with
  | Some TInt, VInt k => is_cmp op = true ∧ exact k ∧ col_forall (λ c, exact (as_signed 64 c)) t idx
  | Some TDate, VDate d => is_cmp op = true ∧ 0 <= d < 2 ^ 31 ∧ col_forall (λ c, c < 2 ^ 31) t idx
  | Some TFloat, VFloat f => is_order op = true ∧ same_bits f
  | Some TFloat, VInt k => is_order op = true ∧ same_bits (as_f64 k)
  | Some TString, VStr s => (op = Eq ∨ op = Ne) ∧ ∃ ss, has_strings t idx ss ∧ same_hash ss s
  | _, _ => False
  end.

Lemma exact_i64 k : exact k → - 2 ^ 63 <= k < 2 ^ 63.
Proof. unfold exact. lia. Qed.
Lemma small_date c : 0 <= c < 2 ^ 31 → as_signed 32 c = c ∧ exact c.
Proof. intros H. split; [|unfold exact; lia]. unfold as_signed. rewrite Z.mod_small by lia. change (2 ^ (32 - 1)) with (2 ^ 31). destruct (Z.ltb_spec c (2 ^ 31)); lia. Qed.
Lemma hash_eqb ss s x : same_hash ss s → x ∈ ss → Z.eqb (xxh3_64 x) (xxh3_64 s) = bool_decide (x = s).
Proof. intros H Hx. apply Bool.eq_iff_eq_true. rewrite Z.eqb_eq, bool_decide_eq_true. split; [by apply H|by intros ->]. Qed.

Lemma apply_ok t col (f : option (option BitmapM.Bitmap)) bm p g mask :
  f = Some bm → BitmapM.selects bm p col → length col = row_count t → length mask = row_count t →
  (∀ i c, col !! i = Some c → p c = g i) → apply_filter t f mask = Ok (zip_with andb mask (g <$> seq 0 (row_count t))).
Proof. intros -> Hs Hc Hm Hg. cbn [apply_filter]. by eapply and_rows_ok. Qed.

Lemma apply_comparison_ok t op idx v mask : exec_ok t → (idx < length (columns t))%nat → comparable t op idx v → length mask = row_count t →
  apply_comparison op idx v t mask = Ok (zip_with andb mask ((λ i, truthy (binop op (cell t idx i) v)) <$> seq 0 (row_count t))).
Proof.
  intros Ht Hi Hc Hm. destruct (lookup_lt_is_Some_2 _ _ Hi) as [col Hcol]. destruct (Forall_lookup_1 _ _ _ _ (ok_cells _ Ht) Hcol) as [Hl Hu].
  pose proof Hi as Hi'. rewrite <- (ok_types _ Ht) in Hi'. destruct (lookup_lt_is_Some_2 _ _ Hi') as [ty Hty].
  assert (Hin : ∀ i c, col !! i = Some c → c ∈ col ∧ in_u 64 c).
  { intros i c H. split; [by eapply list_elem_of_lookup_2|]. by apply (Forall_lookup_1 _ _ _ _ Hu H). }
  unfold comparable in Hc. unfold apply_comparison. rewrite Hcol, Hty. cbn [or_panic mbind result_bind]. rewrite Hm, (proj2 (Nat.ltb_ge _ _)) by lia. rewrite Hty in Hc.
  destruct ty, v as [k|f|s|d|]; try done.
  - destruct Hc as (Hop & Hk & Hcs). destruct (int_filter_ok op col k Hop (exact_i64 k Hk)) as (bm & p & E & Hs & Hp).
    eapply (apply_ok t col); [done..|]. intros i c H. destruct (Hin i c H). rewrite (cell_plain t idx i col TInt c) by done. cbn [value_of plain_value].
    rewrite Hp by done. symmetry. apply binop_exact; try done. by eapply Hcs.
  - destruct Hc as (Hop & Hf). destruct (float_filter_ok (BitmapM.filter_eq_f64 avx col (f64_to_bits (as_f64 k))) op col (f64_to_bits (as_f64 k)) Hop) as (bm & p & E & Hs & Hp).
    eapply (apply_ok t col); [done..|]. intros i c H. rewrite (cell_plain t idx i col TFloat c) by done. cbn [value_of plain_value]. rewrite Hp, Hf. symmetry. by apply binop_float.
  - destruct Hc as (Hop & Hf). destruct (float_filter_ok (BitmapM.filter_eq_f64_epsilon col (f64_to_bits f)) op col (f64_to_bits f) Hop) as (bm & p & E & Hs & Hp).
    eapply (apply_ok t col); [done..|]. intros i c H. rewrite (cell_plain t idx i col TFloat c) by done. cbn [value_of plain_value]. rewrite Hp, Hf. symmetry. by apply binop_float.
  - destruct Hc as (Hop & Hd & Hcs). destruct (date_filter_ok op col (wrap_u 64 d) Hop) as (bm & p & E & Hs & Hp).
    eapply (apply_ok t col); [done..|]. intros i c H. destruct (Hin i c H) as [H1 H2]. rewrite (cell_plain t idx i col TDate c) by done. cbn [value_of plain_value].
    specialize (Hcs col c Hcol H1). cbn beta in Hcs. destruct (small_date c) as [E1 E2]; [unfold in_u in H2; lia|]. destruct (small_date d Hd) as [_ E3].
    rewrite Hp, wrap_u_small by (unfold in_u; lia). symmetry. apply binop_exact; cbn [num]; by rewrite ?E1.
  - destruct Hc as (Hop & ss & Hss & Hh). pose proof Hss as [_ Hcol']. rewrite Hcol in Hcol'. injection Hcol' as ->.
    pose proof (BitmapM.filters_select avx (xxh3_64 <$> ss) (xxh3_64 s) 0 ltac:(lia)) as (F1 & F2 & _).
    assert (Hg : ∀ i c, (xxh3_64 <$> ss) !! i = Some c → ∃ x, x ∈ ss ∧ c = xxh3_64 x ∧ cell t idx i = VStr x).
    { intros i c H. rewrite list_lookup_fmap in H. destruct (ss !! i) as [x|] eqn:Ex; [|done]. simplify_eq/=. exists x.
      split_and!; [by eapply list_elem_of_lookup_2|done|]. by rewrite (cell_string t idx ss i x). }
    destruct Hop as [->| ->]; (eapply (apply_ok t); [reflexivity|eassumption|done..|]); intros i c H; destruct (Hg i c H) as (x & Hx & -> & ->);
      cbn [binop cmp_eq]; rewrite truthy_bool, (hash_eqb ss s x Hh Hx); done.
Qed.
(** The constant on the left. *)
Lemma binop_swap op v w : is_cmp op = true → truthy (binop op v w) = truthy (binop (swap_op op) w v).
Proof. intros H. destruct op; try done; cbn [swap_op binop]; by rewrite cmp_eq_sym. Qed.

Lemma cell_ok t idx i : exec_ok t → (idx < length (columns t))%nat → (i < row_count t)%nat → cell_value t idx i = Ok (cell t idx i).
Proof.
  intros Ht Hidx Hi. destruct (lookup_lt_is_Some_2 _ _ Hidx) as [col C]. pose proof Hidx as H1. pose proof Hidx as H2. rewrite <- (ok_strs _ Ht) in H1. rewrite <- (ok_types _ Ht) in H2.
  destruct (lookup_lt_is_Some_2 _ _ H1) as [sc E]. destruct (lookup_lt_is_Some_2 _ _ H2) as [ty T]. unfold cell_value. rewrite C, T. cbn [or_panic mbind result_bind].
  destruct ty; try done. rewrite E. cbn [or_panic mbind result_bind]. destruct sc as [sc|]; [|done]. destruct (ok_strings _ Ht idx sc E) as (ss & -> & Hss).
  destruct (Nat.ltb _ _); [|done]. destruct (lookup_lt_is_Some_2 ss i) as [x Hx]; [lia|]. by rewrite (WhereM.get_new _ _ _ Hx).
Qed.

(** *** Comparisons *)
Fixpoint constant (e : Expr2) : bool := match e with EInt _ | EFloat _ | EStr _ | EDate _ => true | Neg e => constant e | _ => false end.
Lemma constant_eval e t : constant e = true → ∃ v, eval_const e t = Ok v ∧ (∀ i, eval e t i = Ok v) ∧ expr_has_col e = false ∧ col_in e t = None.
Proof.
  induction e; try done; intros H; try (eexists; split_and!; done).
  destruct (IHe H) as (v & H1 & H2 & H3 & _). exists (negate v). cbn. rewrite H1. split_and!; [done| |done|done]. intros i. by rewrite H2.
Qed.
Lemma eval_bin op l r t i : is_Some (ok (eval (BinOp op l r) t i)) →
  eval l t i = Ok (value_of (eval l t i)) ∧ eval r t i = Ok (value_of (eval r t i)) ∧
  holds (BinOp op l r) t i = truthy (binop op (value_of (eval l t i)) (value_of (eval r t i))).
Proof.
  unfold holds. cbn [eval]. destruct (eval l t i) as [x|]; [|by intros []]. cbn [mbind result_bind]. destruct (eval r t i) as [y|]; [|by intros []]. done.
Qed.
Lemma eval_bin_ok op l r t i x y : eval l t i = Ok x → eval r t i = Ok y → eval (BinOp op l r) t i = Ok (binop op x y).
Proof. intros H1 H2. cbn [eval]. by rewrite H1, H2. Qed.
Lemma eval_column name t idx i : lookup_col t name = Some idx → eval (Col name) t i = cell_value t idx i.
Proof. intros H. cbn [eval]. unfold eval_col, find_column. by rewrite H. Qed.
Lemma col_in_spec e t idx : col_in e t = Some idx → ∃ name, e = Col name ∧ lookup_col t name = Some idx.
Proof. destruct e; try done. intros H. by eexists. Qed.
Lemma col_in_lt e t idx : exec_ok t → col_in e t = Some idx → (idx < length (columns t))%nat.
Proof. intros Ht H. destruct (col_in_spec e t idx H) as (name & _ & Hn). destruct (lookup_ok t name idx Ht Hn) as (col & _ & Hc & _). by eapply lookup_lt_Some. Qed.

(** The columns whose cells are equal when their values are. *)
Definition pair_agrees (l r : nat) (t : ExecTable) : Prop :=
  match col_types t !! l with
  | Some TInt => col_forall (λ c, exact (as_signed 64 c)) t l ∧ col_forall (λ c, exact (as_signed 64 c)) t r
  | Some TDate => col_forall (λ c, c < 2 ^ 32) t l ∧ col_forall (λ c, c < 2 ^ 32) t r
  | Some TString => ∃ ss1 ss2, has_strings t l ss1 ∧ has_strings t r ss2 ∧ ∀ s, s ∈ ss2 → same_hash ss1 s
  | _ => True
  end.
Lemma as_signed_inj w a b : 0 < w → in_u w a → in_u w b → Z.eqb (as_signed w a) (as_signed w b) = Z.eqb a b.
Proof.
  intros Hw Ha Hb. apply Bool.eq_iff_eq_true. rewrite !Z.eqb_eq. unfold as_signed, in_u in *. rewrite !Z.mod_small by done.
  assert (2 ^ (w - 1) < 2 ^ w) by (apply Z.pow_lt_mono_r; lia). destruct (Z.ltb_spec a (2 ^ (w - 1))), (Z.ltb_spec b (2 ^ (w - 1))); lia.
Qed.
Lemma pair_cells l r t x y i lcol rcol ty : exec_ok t → pair_agrees l r t → col_types t !! l = Some ty → col_types t !! r = Some ty → ty ≠ TFloat →
  columns t !! l = Some lcol → columns t !! r = Some rcol → lcol !! i = Some x → rcol !! i = Some y → cmp_eq (cell t l i) (cell t r i) = Z.eqb x y.
Proof.
  intros Ht Hp T1 T2 Hty C1 C2 X Y. unfold pair_agrees in Hp. rewrite T1 in Hp.
  destruct (Forall_lookup_1 _ _ _ _ (ok_cells _ Ht) C1) as [_ U1], (Forall_lookup_1 _ _ _ _ (ok_cells _ Ht) C2) as [_ U2].
  pose proof (Forall_lookup_1 _ _ _ _ U1 X) as Hx. pose proof (Forall_lookup_1 _ _ _ _ U2 Y) as Hy. cbn beta in Hx, Hy.
  pose proof (list_elem_of_lookup_2 _ _ _ X) as Ex. pose proof (list_elem_of_lookup_2 _ _ _ Y) as Ey. destruct ty; [|done|..].
  - rewrite (cell_plain t l i lcol TInt x), (cell_plain t r i rcol TInt y) by done. destruct Hp as [P1 P2]. cbn [value_of plain_value].
    destruct (cmp_exact (VInt (as_signed 64 x)) (VInt (as_signed 64 y)) _ _ eq_refl eq_refl (P1 _ _ C1 Ex) (P2 _ _ C2 Ey)) as (-> & _). by apply as_signed_inj.
  - rewrite (cell_plain t l i lcol TDate x), (cell_plain t r i rcol TDate y) by done. destruct Hp as [P1 P2]. cbn [value_of plain_value].
    specialize (P1 _ _ C1 Ex). specialize (P2 _ _ C2 Ey). cbn beta in P1, P2. unfold in_u in Hx, Hy.
    assert (∀ z, 0 <= z < 2 ^ 32 → exact (as_signed 32 z)) as He.
    { intros z Hz. unfold as_signed, exact. rewrite Z.mod_small by lia. change (2 ^ (32 - 1)) with (2 ^ 31). destruct (Z.ltb_spec z (2 ^ 31)); lia. }
    destruct (cmp_exact (VDate (as_signed 32 x)) (VDate (as_signed 32 y)) _ _ eq_refl eq_refl (He x ltac:(lia)) (He y ltac:(lia))) as (-> & _).
    by apply as_signed_inj; unfold in_u; [|lia|lia].
  - destruct Hp as (ss1 & ss2 & S1 & S2 & Hh). pose proof S1 as [_ E1]. pose proof S2 as [_ E2]. rewrite C1 in E1. rewrite C2 in E2. injection E1 as ->. injection E2 as ->.
    rewrite list_lookup_fmap in X, Y. destruct (ss1 !! i) as [a|] eqn:A; [|done]. destruct (ss2 !! i) as [b|] eqn:B; [|done]. cbn in X, Y. injection X as <-. injection Y as <-.
    rewrite (cell_string t l ss1 i a), (cell_string t r ss2 i b) by done. cbn [value_of cmp_eq]. symmetry. apply (hash_eqb ss1); [apply Hh; by eapply list_elem_of_lookup_2|by eapply list_elem_of_lookup_2].
Qed.

(** A mask is [mask] cut down to the rows where [e] holds. *)
Definition cut (e : Expr2) (t : ExecTable) (mask : list bool) : run (list bool) := Ok (zip_with andb mask (holds e t <$> seq 0 (row_count t))).
Definition defined (e : Expr2) (t : ExecTable) : Prop := ∀ i, (i < row_count t)%nat → is_Some (ok (eval e t i)).
Lemma cut_ext e t mask (g : nat → bool) : (∀ i, (i < row_count t)%nat → g i = holds e t i) →
  Ok (zip_with andb mask (g <$> seq 0 (row_count t))) = cut e t mask.
Proof. intros H. unfold cut. f_equal. f_equal. apply list_fmap_ext. intros k i Hi. apply lookup_seq in Hi as [-> Hi]. by apply H. Qed.

Lemma compare_columns_ok op l r t mask nl nr ty : exec_ok t → pair_agrees l r t → col_types t !! l = Some ty → col_types t !! r = Some ty → ty ≠ TFloat → op = Eq ∨ op = Ne →
  lookup_col t nl = Some l → lookup_col t nr = Some r → length mask = row_count t → compare_columns op l r t mask = cut (BinOp op (Col nl) (Col nr)) t mask.
Proof.
  intros Ht Hp T1 T2 Hty Hop Hl Hr Hm. destruct (lookup_ok t nl l Ht Hl) as (lcol & _ & C1 & _ & L1 & _). destruct (lookup_ok t nr r Ht Hr) as (rcol & _ & C2 & _ & L2 & _).
  assert (∀ idx col i, columns t !! idx = Some col → col_types t !! idx = Some ty → (i < length col)%nat → ∃ c, col !! i = Some c) as Hc
    by (intros idx col i _ _ Hi; by apply lookup_lt_is_Some_2).
  unfold compare_columns. rewrite C1, C2. cbn [or_panic mbind result_bind].
  rewrite (for_rows_ok (row_count t) _ (λ i, truthy (binop op (cell t l i) (cell t r i)))).
  - apply cut_ext. intros i Hi. unfold holds.
    rewrite (eval_bin_ok op (Col nl) (Col nr) t i (cell t l i) (cell t r i)); [done| |]; [rewrite (eval_column nl t l i Hl)|rewrite (eval_column nr t r i Hr)]; (apply cell_ok; [done| |done]; by eapply lookup_lt_Some).
  - done.
  - intros i Hi. destruct (Hc l lcol i) as [x X]; [done|done|lia|]. destruct (Hc r rcol i) as [y Y]; [done|done|lia|]. rewrite X, Y. cbn [or_panic mbind result_bind].
    f_equal. pose proof (pair_cells l r t x y i lcol rcol ty Ht Hp T1 T2 Hty C1 C2 X Y) as E.
    destruct Hop as [->| ->]; cbn [binop]; by rewrite truthy_bool, E.
Qed.

Definition cmp_agrees (op : BinOp2) (l r : Expr2) (t : ExecTable) : Prop :=
  match col_in l t, expr_has_col r, col_in r t, expr_has_col l with
  | Some idx, false, _, _ => constant r = true ∧ comparable t op idx (value_of (eval r t 0))
  | _, _, Some idx, false => constant l = true ∧ comparable t (swap_op op) idx (value_of (eval l t 0))
  | Some l, _, Some r, _ => op = Eq ∨ op = Ne → pair_agrees l r t
  | _, _, _, _ => True
  end.
Lemma comparable_cmp t op idx v : comparable t op idx v → is_cmp op = true.
Proof. unfold comparable. destruct (col_types t !! idx) as [[]|], v; try done; destruct op; naive_solver. Qed.

(** *** BETWEEN *)
Lemma selects_bm2 g f a b p q col : (∀ x y, BitmapM.bm_wf x → BitmapM.bm_wf y → BitmapM.len x = BitmapM.len y →
    BitmapM.bm_wf (f x y) ∧ BitmapM.rows (f x y) = zip_with g (BitmapM.rows x) (BitmapM.rows y)) →
  BitmapM.selects a p col → BitmapM.selects b q col → BitmapM.selects (bm2 f a b) (λ c, g (p c) (q c)) col.
Proof.
  intros Hf (x & -> & Wx & Vx & _) (y & -> & Wy & Vy & _). rewrite BitmapM.to_bool_vec_rows in Vx, Vy by done. injection Vx as Rx. injection Vy as Ry.
  cbn. destruct (Hf x y Wx Wy) as [W R].
  - rewrite <- !BitmapM.length_rows, Rx, Ry, !length_fmap by done. done.
  - apply BitmapM.rows_selects; [done|]. rewrite R, Rx, Ry. clear. induction col as [|c col IH]; [done|]. cbn. by rewrite IH.
Qed.
Lemma selects_and a b p q col : BitmapM.selects a p col → BitmapM.selects b q col → BitmapM.selects (bm2 BitmapM.and a b) (λ c, p c && q c) col.
Proof. apply selects_bm2. intros x y Wx Wy Hl. by destruct (BitmapM.and_or_rows x y Wx Wy Hl) as (? & ? & _). Qed.
Lemma selects_or a b p q col : BitmapM.selects a p col → BitmapM.selects b q col → BitmapM.selects (bm2 BitmapM.or a b) (λ c, p c || q c) col.
Proof. apply selects_bm2. intros x y Wx Wy Hl. by destruct (BitmapM.and_or_rows x y Wx Wy Hl) as (_ & _ & ? & ?). Qed.

Definition bounds_agree (t : ExecTable) (idx : nat) (lo hi : Value2) (negated : bool) : Prop :=
  match col_types t !! idx, lo, hi with
  | Some TInt, VInt a, VInt b => exact a ∧ exact b ∧ col_forall (λ c, exact (as_signed 64 c)) t idx
  | Some TDate, VDate a, VDate b => 0 <= a < 2 ^ 31 ∧ 0 <= b < 2 ^ 31 ∧ col_forall (λ c, c < 2 ^ 31) t idx
  | Some TFloat, VFloat a, VFloat b =>
    same_bits a ∧ same_bits b ∧
    (negated = true → a ≠ S754_nan ∧ b ≠ S754_nan ∧ col_forall (λ c, BitmapM.f64_from_bits c ≠ S754_nan) t idx)
  | _, _, _ => False
  end.
Lemma range_out a b c : Z.ltb c a || Z.gtb c b = negb (Z.leb a c && Z.leb c b).
Proof. rewrite Z.gtb_ltb, negb_andb, !Z.leb_antisym, !negb_involutive. done. Qed.
Lemma range_in a b c : Z.geb c a && Z.leb c b = Z.leb a c && Z.leb c b.
Proof. by rewrite Z.geb_leb. Qed.
Lemma between_filter_ok t idx col ty n lo hi negated : columns t !! idx = Some col → col_types t !! idx = Some ty → Forall (in_u 64) col → bounds_agree t idx lo hi negated →
  ∃ p, BitmapM.selects (between_filter ty n col lo hi negated) p col ∧ ∀ c, c ∈ col → p c = xorb negated (between (plain_value ty c) lo hi).
Proof.
  intros Hc Hty Hu Hb. unfold bounds_agree in Hb. rewrite Hty in Hb. destruct ty; [| |  |by destruct lo].
  - destruct lo as [a| | | |]; try done. destruct hi as [b| | | |]; try done. destruct Hb as (Ha & Hb & Hcs).
    pose proof (BitmapM.filters_select avx col 0 a (exact_i64 a Ha)) as (_ & _ & _ & _ & _ & _ & A1 & A2 & A3 & A4 & _).
    pose proof (BitmapM.filters_select avx col 0 b (exact_i64 b Hb)) as (_ & _ & _ & _ & _ & _ & B1 & B2 & B3 & B4 & _).
    assert (Hv : ∀ c, c ∈ col → between (VInt (as_signed 64 c)) (VInt a) (VInt b) = Z.leb a (as_signed 64 c) && Z.leb (as_signed 64 c) b).
    { intros c Hin. unfold between. by destruct (cmp_exact (VInt a) (VInt (as_signed 64 c)) _ _ eq_refl eq_refl Ha (Hcs _ _ Hc Hin)) as (_ & _ & ->),
        (cmp_exact (VInt (as_signed 64 c)) (VInt b) _ _ eq_refl eq_refl (Hcs _ _ Hc Hin) Hb) as (_ & _ & ->). }
    destruct negated; (eexists; split; [first [by apply selects_or|by apply selects_and]|]); intros c Hin; cbn [plain_value xorb]; rewrite Hv by done;
      [apply range_out|rewrite range_in; by destruct (_ && _)].
  - destruct lo as [|a| | |]; try done. destruct hi as [|b| | |]; try done. destruct Hb as (Ha & Hb & Hnan).
    pose proof (BitmapM.filters_select avx col (f64_to_bits a) 0 ltac:(lia)) as (_ & _ & _ & _ & _ & _ & _ & _ & _ & _ & A1 & A2 & A3 & A4).
    pose proof (BitmapM.filters_select avx col (f64_to_bits b) 0 ltac:(lia)) as (_ & _ & _ & _ & _ & _ & _ & _ & _ & _ & B1 & B2 & B3 & B4).
    assert (Hv : ∀ c, between (VFloat (BitmapM.f64_from_bits c)) (VFloat a) (VFloat b) = SFleb a (BitmapM.f64_from_bits c) && SFleb (BitmapM.f64_from_bits c) b).
    { intros c. unfold between, cmp_le. cbn. unfold cmp_f64. cbn. by rewrite !SFleb_or. }
    destruct negated; (eexists; split; [first [by apply selects_or|by apply selects_and]|]); intros c Hin; cbn [plain_value xorb]; rewrite Hv;
      unfold BitmapM.f64_lt, BitmapM.f64_gt, BitmapM.f64_ge, BitmapM.f64_le, BitmapM.f64_lt; rewrite Ha, Hb; [|by destruct (_ && _)].
    destruct (Hnan eq_refl) as (Na & Nb & Nc). specialize (Nc _ _ Hc Hin). cbn beta in Nc. by rewrite !SF_total, <- negb_andb by done.
  - destruct lo as [| | |a|]; try done. destruct hi as [| | |b|]; try done. destruct Hb as (Ha & Hb & Hcs).
    assert (Wa : wrap_u 64 a = a) by (apply wrap_u_small; unfold in_u; lia). assert (Wb : wrap_u 64 b = b) by (apply wrap_u_small; unfold in_u; lia).
    pose proof (BitmapM.filters_select avx col a 0 ltac:(lia)) as (_ & _ & A1 & A2 & A3 & A4 & _). pose proof (BitmapM.filters_select avx col b 0 ltac:(lia)) as (_ & _ & B1 & B2 & B3 & B4 & _).
    assert (Hv : ∀ c, c ∈ col → between (VDate (as_signed 32 c)) (VDate a) (VDate b) = Z.leb a c && Z.leb c b).
    { intros c Hin. specialize (Hcs _ _ Hc Hin). cbn beta in Hcs. rewrite list.Forall_forall in Hu. specialize (Hu c Hin). unfold in_u in Hu.
      destruct (small_date c) as [-> Ec]; [lia|]. destruct (small_date a Ha) as [_ Ea], (small_date b Hb) as [_ Eb]. unfold between.
      by destruct (cmp_exact (VDate a) (VDate c) _ _ eq_refl eq_refl Ea Ec) as (_ & _ & ->), (cmp_exact (VDate c) (VDate b) _ _ eq_refl eq_refl Ec Eb) as (_ & _ & ->). }
    cbn [between_filter val_u64 default]. rewrite Wa, Wb.
    destruct negated; (eexists; split; [first [by apply selects_or|by apply selects_and]|]); intros c Hin; cbn [plain_value xorb]; rewrite Hv by done;
      [apply range_out|rewrite range_in; by destruct (_ && _)].
Qed.

Definition between_agrees (e low high : Expr2) (negated : bool) (t : ExecTable) : Prop :=
  match col_in e t with
  | Some idx => constant low = true ∧ constant high = true ∧ bounds_agree t idx (value_of (eval low t 0)) (value_of (eval high t 0)) negated
  | None => True
  end.
Lemma between_vec_ok e low high negated t mask : exec_ok t → between_agrees e low high negated t → defined (Between e low high negated) t → length mask = row_count t →
  between_vec e low high negated t mask = cut (Between e low high negated) t mask.
Proof.
  intros Ht Ha Hd Hm. unfold between_vec, between_agrees in *. destruct (col_in e t) as [idx|] eqn:E.
  - destruct Ha as (Hlo & Hhi & Hb). destruct (constant_eval low t Hlo) as (lo & L1 & L2 & _), (constant_eval high t Hhi) as (hi & H1 & H2 & _).
    rewrite L2, H2 in Hb. cbn [value_of] in Hb. rewrite L1, H1. cbn [mbind result_bind]. destruct (col_in_spec e t idx E) as (name & -> & Hn).
    destruct (lookup_ok t name idx Ht Hn) as (col & ty & Hc & Hty & Hl & Hu). rewrite Hc, Hty. cbn [or_panic mbind result_bind].
    destruct (between_filter_ok t idx col ty (row_count t) lo hi negated Hc Hty Hu Hb) as (p & Hs & Hp).
    assert (Hne : ty ≠ TString) by (intros ->; unfold bounds_agree in Hb; rewrite Hty in Hb; by destruct lo).
    rewrite (and_rows_ok _ _ p col (λ i, xorb negated (between (cell t idx i) lo hi))); [|done..|].
    + apply cut_ext. intros i Hi. unfold holds. cbn [eval]. change (eval_col t i name) with (eval (Col name) t i). rewrite (eval_column name t idx i Hn).
      rewrite (cell_ok t idx i Ht) by (done || by eapply lookup_lt_Some). cbn [mbind result_bind]. rewrite L2. cbn [mbind result_bind]. rewrite H2. cbn [mbind result_bind value_of].
      by rewrite truthy_bool.
    + intros i c Hi. rewrite (cell_plain t idx i col ty c) by done. cbn [value_of]. apply Hp. by eapply list_elem_of_lookup_2.
  - apply for_rows_ok; [done|]. intros i Hi. specialize (Hd i Hi). unfold holds. cbn [eval] in *.
    destruct (eval e t i) as [v|]; [|by destruct Hd]. cbn [mbind result_bind] in *. destruct (eval low t i) as [lo|]; [|by destruct Hd]. cbn [mbind result_bind] in *.
    destruct (eval high t i) as [hi|]; [|by destruct Hd]. cbn [mbind result_bind value_of]. by rewrite truthy_bool.
Qed.

(** *** IN *)
Definition item_agrees (t : ExecTable) (idx : nat) (v : Value2) : Prop :=
  match col_types t !! idx, v with
  | Some TInt, VInt k => exact k ∧ col_forall (λ c, exact (as_signed 64 c)) t idx
  | Some TDate, VDate d => - 2 ^ 31 <= d < 2 ^ 31 ∧ col_forall (λ c, c < 2 ^ 32) t idx
  | Some TString, VStr s => ∃ ss, has_strings t idx ss ∧ same_hash ss s
  | _, _ => False
  end.
Lemma item_eqb t idx v col i c : exec_ok t → item_agrees t idx v → columns t !! idx = Some col → col !! i = Some c →
  cmp_eq (cell t idx i) v = Z.eqb c (to_u64 v).
Proof.
  intros Ht Ha Hc Hi. unfold item_agrees in Ha. destruct (Forall_lookup_1 _ _ _ _ (ok_cells _ Ht) Hc) as [_ Hu].
  pose proof (Forall_lookup_1 _ _ _ _ Hu Hi) as Hr. pose proof (list_elem_of_lookup_2 _ _ _ Hi) as Hin. cbn beta in Hr.
  destruct (col_types t !! idx) as [[]|] eqn:Hty; try done; destruct v as [k|f|s|d|]; try done; cbn [to_u64].
  - destruct Ha as [Hk Hcs]. rewrite (cell_plain t idx i col TInt c) by done. cbn [value_of plain_value].
    destruct (cmp_exact (VInt (as_signed 64 c)) (VInt k) _ _ eq_refl eq_refl (Hcs _ _ Hc Hin) Hk) as (-> & _).
    rewrite <- (as_signed_wrap 64 k) at 1 by (unfold exact in Hk; lia). apply as_signed_inj; [lia|done|]. by apply in_u_wrap.
  - destruct Ha as [Hk Hcs]. specialize (Hcs _ _ Hc Hin). cbn beta in Hcs. unfold in_u in Hr. rewrite (cell_plain t idx i col TDate c) by done. cbn [value_of plain_value].
    assert (He : exact (as_signed 32 c)).
    { unfold as_signed, exact. rewrite Z.mod_small by lia. change (2 ^ (32 - 1)) with (2 ^ 31). destruct (Z.ltb_spec c (2 ^ 31)); lia. }
    destruct (cmp_exact (VDate (as_signed 32 c)) (VDate d) _ _ eq_refl eq_refl He ltac:(unfold exact; lia)) as (-> & _).
    rewrite <- (as_signed_wrap 32 d) at 1 by (cbn in *; lia). apply as_signed_inj; [lia|unfold in_u; lia|]. by apply in_u_wrap.
  - destruct Ha as (ss & Hss & Hh). pose proof Hss as [_ E]. rewrite Hc in E. injection E as ->. rewrite list_lookup_fmap in Hi. destruct (ss !! i) as [x|] eqn:Ex; [|done].
    cbn in Hi. injection Hi as <-. rewrite (cell_string t idx ss i x) by done. cbn [value_of cmp_eq]. symmetry. apply (hash_eqb ss); [done|by eapply list_elem_of_lookup_2].
Qed.

Definition in_agrees (e : Expr2) (l : list Expr2) (t : ExecTable) : Prop :=
  match col_in e t with
  | Some idx => Forall (λ x, constant x = true ∧ item_agrees t idx (value_of (eval x t 0))) l
  | None => True
  end.
Lemma in_cells_ok t l : Forall (λ x, constant x = true) l → in_cells t l = Ok ((λ x, to_u64 (value_of (eval x t 0))) <$> l).
Proof.
  induction 1 as [|x l Hx _ IH]; [done|]. cbn [in_cells]. destruct (constant_eval x t Hx) as (v & E1 & E2 & _ & E3). rewrite E3, E1, IH. cbn. by rewrite E2.
Qed.
Lemma any_eq_ok ev v l (g : Expr2 → Value2) : (∀ x, x ∈ l → ev x = Ok (g x)) → any_eq ev v l = Ok (existsb (λ x, cmp_eq v (g x)) l).
Proof.
  induction l as [|x l IH]; intros H; [done|]. cbn. rewrite (H x) by by left. cbn. destruct (cmp_eq v (g x)); [done|]. apply IH. intros y Hy. apply H. by right.
Qed.
Lemma in_list_vec_ok e l negated t mask : exec_ok t → in_agrees e l t → defined (InList e l negated) t → length mask = row_count t →
  in_list_vec e l negated t mask = cut (InList e l negated) t mask.
Proof.
  intros Ht Ha Hd Hm. unfold in_list_vec, in_agrees in *. destruct (col_in e t) as [idx|] eqn:E.
  - assert (Hcs : Forall (λ x, constant x = true) l) by (eapply Forall_impl; [exact Ha|]; by intros ? []).
    rewrite in_cells_ok by done. cbn [mbind result_bind]. destruct (col_in_spec e t idx E) as (name & -> & Hn).
    destruct (lookup_ok t name idx Ht Hn) as (col & ty & Hc & Hty & Hl & Hu). rewrite Hc. cbn [or_panic mbind result_bind].
    rewrite (for_rows_ok _ _ (λ i, xorb negated (existsb (λ x, cmp_eq (cell t idx i) (value_of (eval x t 0))) l))); [|done|].
    + apply cut_ext. intros i Hi. unfold holds. cbn [eval]. change (eval_col t i name) with (eval (Col name) t i). rewrite (eval_column name t idx i Hn).
      rewrite (cell_ok t idx i Ht) by (done || by eapply lookup_lt_Some). cbn [mbind result_bind].
      rewrite (any_eq_ok _ _ l (λ x, value_of (eval x t 0))); [cbn [mbind result_bind value_of]; by rewrite truthy_bool|]. intros x Hx. rewrite list.Forall_forall in Hcs.
      destruct (constant_eval x t (Hcs x Hx)) as (v & _ & E2 & _). by rewrite !E2.
    + intros i Hi. destruct (lookup_lt_is_Some_2 col i) as [c Ec]; [lia|]. rewrite Ec. cbn [or_panic mbind result_bind]. do 2 f_equal.
      apply Bool.eq_iff_eq_true. rewrite bool_decide_eq_true, existsb_exists, list_elem_of_fmap. rewrite list.Forall_forall in Ha.
      split; intros (x & H1 & H2); exists x.
      * apply list_elem_of_In in H2 as H2'. split; [done|]. destruct (Ha x H2) as [_ Hx]. rewrite (item_eqb t idx _ col i c) by done. by apply Z.eqb_eq.
      * apply list_elem_of_In in H1. split; [|done]. destruct (Ha x H1) as [_ Hx]. rewrite (item_eqb t idx _ col i c) in H2 by done. by apply Z.eqb_eq.
  - apply for_rows_ok; [done|]. intros i Hi. specialize (Hd i Hi). unfold holds. cbn [eval] in *.
    destruct (eval e t i) as [v|]; [|by destruct Hd]. cbn [mbind result_bind] in *. destruct (any_eq _ v l) as [b|]; [|by destruct Hd]. cbn [mbind result_bind value_of]. by rewrite truthy_bool.
Qed.

(** *** LIKE *)
(** The pattern is a string and the strings have no [%]; without strings the values are no hashes. *)
Definition like_agrees (e pattern : Expr2) (t : ExecTable) : Prop :=
  match search_column e t with
  | Some sc => ∃ idx ss p, col_in e t = Some idx ∧ col_types t !! idx = Some TString ∧ sc = StringColumnM.new ss ∧ pattern = EStr p ∧ as_bytes p ≠ [] ∧ Forall (λ s, 37 ∉ s) ss
  | None => ∀ i, (i < row_count t)%nat → ∀ h, eval e t i ≠ Ok (VInt h)
  end.
Lemma like_bool s p q : 37 ∉ s → (byte_like p s ↔ q = true) → like s p = q.
Proof. intros Hs Hq. apply Bool.eq_iff_eq_true. by rewrite like_spec. Qed.
Lemma like_mask_ok ss pat : pat ≠ [] → Forall (λ s, 37 ∉ s) ss → like_mask (StringColumnM.new ss) pat = Ok ((λ s, like s pat) <$> ss).
Proof.
  intros Hne Hss. unfold like_mask. rewrite (StringColumnM.len_holds _ _ (StringColumnM.column_holds_new ss)). destruct pat as [|c rest]; [done|].
  rewrite list.Forall_forall in Hss.
  destruct (Z.eqb c 37 && negb (bool_decide (37 ∈ rest)) && negb (bool_decide (95 ∈ c :: rest))) eqn:E1; [|destruct (negb (bool_decide (37 ∈ c :: rest)) && negb (bool_decide (95 ∈ c :: rest))) eqn:E2];
    rewrite WhereM.rows_of_strings; try done; f_equal; apply list_fmap_ext; intros k s Hs%list_elem_of_lookup_2; symmetry; (apply like_bool; [by apply Hss|]).
  - rewrite !andb_true_iff, !negb_true_iff, !bool_decide_eq_false, Z.eqb_eq in E1. destruct E1 as [[-> H1] H2]. rewrite bl_suffix by set_solver. by rewrite WhereM.ends_with_spec.
  - rewrite !andb_true_iff, !negb_true_iff, !bool_decide_eq_false in E2. destruct E2 as [H1 H2]. rewrite bl_exact by done. by rewrite bool_decide_eq_true.
Qed.
Lemma like_rows_ok e pattern negated t mask : (∀ i, (i < row_count t)%nat → ∀ h, eval e t i ≠ Ok (VInt h)) → defined (Like e pattern negated) t → length mask = row_count t →
  like_rows e pattern negated t mask = cut (Like e pattern negated) t mask.
Proof.
  intros Hv Hd Hm. apply for_rows_ok; [done|]. intros i Hi. specialize (Hd i Hi). specialize (Hv i Hi). unfold holds. cbn [eval] in *.
  destruct (eval e t i) as [v|]; [|by destruct Hd]. cbn [mbind result_bind] in *. destruct (eval pattern t i) as [w|]; [|by destruct Hd]. cbn [mbind result_bind value_of].
  rewrite truthy_bool. destruct v; try done. by destruct (Hv i0).
Qed.
Lemma like_vec_ok e pattern negated t mask : exec_ok t → like_agrees e pattern t → defined (Like e pattern negated) t → length mask = row_count t →
  like_vec e pattern negated t mask = cut (Like e pattern negated) t mask.
Proof.
  intros Ht Ha Hd Hm. unfold like_vec, like_agrees in *. destruct (search_column e t) as [sc|] eqn:Esc; [|by apply like_rows_ok].
  destruct Ha as (idx & ss & p & E & Hty & -> & -> & Hne & Hss). unfold search_column in Esc. rewrite E in Esc. cbn in Esc. destruct (string_columns t !! idx) as [o|] eqn:Eo; [|done]. cbn in Esc. subst o. rename Eo into Esc. destruct (col_in_spec e t idx E) as (name & -> & Hn).
  destruct (ok_strings _ Ht idx _ Esc) as (ss' & Heq & Hlen). assert (Hlss : length ss = row_count t).
  { rewrite <- Hlen. pose proof (f_equal StringColumnM.strings Heq) as Hq. cbn in Hq. by rewrite Hq. }
  cbn [pattern_text mbind result_bind]. rewrite bool_decide_false, (StringColumnM.len_holds _ _ (StringColumnM.column_holds_new ss)), Hlss by done. cbn [negb andb].
  rewrite (proj2 (Nat.leb_le _ _)) by lia. rewrite like_mask_ok by done. cbn [mbind result_bind]. rewrite Hm, (proj2 (Nat.ltb_ge _ _)) by lia. rewrite take_ge, drop_ge, app_nil_r by lia.
  unfold cut. f_equal. apply list_eq. intros i. rewrite !lookup_zip_with, !list_lookup_fmap. destruct (mask !! i) as [b|] eqn:Eb; [|done]. cbn.
  pose proof (lookup_lt_Some _ _ _ Eb) as Hi. rewrite Hm in Hi. rewrite lookup_seq_lt by done. destruct (lookup_lt_is_Some_2 ss i) as [s Hs]; [lia|]. rewrite Hs. cbn. do 2 f_equal.
  unfold holds. cbn [eval]. change (eval_col t i name) with (eval (Col name) t i). rewrite (eval_column name t idx i Hn). 
  assert (Hcell : cell_value t idx i = Ok (VStr s)).
  { destruct (lookup_ok t name idx Ht Hn) as (col & ty & Hc & _). unfold cell_value. rewrite Hc, Hty, Esc. cbn [or_panic mbind result_bind].
    rewrite (StringColumnM.len_holds _ _ (StringColumnM.column_holds_new ss)), (proj2 (Nat.ltb_lt _ _)) by lia. by rewrite (WhereM.get_new _ _ _ Hs). }
  rewrite Hcell. cbn [mbind result_bind value_of like_value]. by rewrite truthy_bool.
Qed.

(** *** Alternatives of pairs of equalities *)
Definition cells_eq (col : list Z) (h : Z) (i : nat) : bool := match col !! i with Some c => Z.eqb c h | None => false end.
Definition pair_holds (ca cb : list Z) (i : nat) (p : Z * Z) : bool := cells_eq ca p.1 i && cells_eq cb p.2 i.
Lemma pair_bitmap_ok ca cb p n : length ca = n → length cb = n → decides (pair_bitmap ca cb p) n (λ i, pair_holds ca cb i p).
Proof.
  intros Ha Hb. assert (H : ∀ col h, length col = n → decides (BitmapM.filter_eq_u64 avx col h) n (cells_eq col h)).
  { intros col h Hl. pose proof (BitmapM.filters_select avx col h 0 ltac:(lia)) as (F & _). eapply selects_decides; [exact F|done|].
    intros i c Hc. unfold cells_eq. by rewrite Hc. }
  unfold pair_bitmap. destruct (H ca p.1 Ha) as (x & Ex & X), (H cb p.2 Hb) as (y & Ey & Y). rewrite Ex, Ey. cbn [mbind option_bind].
  apply (decides_bm2 andb); [|by exists x|by exists y]. intros u v Wu Wv Hl. by destruct (BitmapM.and_or_rows u v Wu Wv Hl) as (? & ? & _).
Qed.
Lemma or_pairs_ok ca cb ps acc n g : length ca = n → length cb = n → decides (Some acc) n g →
  decides (or_pairs ca cb acc ps) n (λ i, g i || existsb (pair_holds ca cb i) ps).
Proof.
  intros Ha Hb. revert acc g. induction ps as [|p ps IH]; intros acc g Hacc.
  - destruct Hacc as (b & E & W & R). exists b. split_and!; [done..|]. rewrite R. apply list_fmap_ext. intros k i _. by rewrite orb_false_r.
  - cbn [or_pairs]. destruct (pair_bitmap_ok ca cb p n Ha Hb) as (y & Ey & Y). rewrite Ey. cbn [mbind option_bind].
    destruct (IH (BitmapM.or acc y) (λ i, g i || pair_holds ca cb i p)) as (b & E & W & R).
    + apply (decides_bm2 orb); [|done|by exists y]. intros u v Wu Wv Hl. by destruct (BitmapM.and_or_rows u v Wu Wv Hl) as (_ & _ & ? & ?).
    + exists b. split_and!; [done..|]. rewrite R. apply list_fmap_ext. intros k i _. cbn [existsb]. by rewrite orb_assoc.
Qed.
Lemma apply_pairs_ok t a b pairs ca cb mask : columns t !! a = Some ca → columns t !! b = Some cb → length ca = row_count t → length cb = row_count t →
  pairs ≠ [] → length mask = row_count t →
  apply_pairs t a b pairs mask = Ok (Some (zip_with andb mask ((λ i, existsb (pair_holds ca cb i) pairs) <$> seq 0 (row_count t)))).
Proof.
  intros Ha Hb La Lb Hne Hm. unfold apply_pairs. rewrite Ha, Hb. cbn [or_panic mbind result_bind]. destruct pairs as [|p ps]; [done|]. destruct (Nat.leb _ 8).
  - destruct (pair_bitmap_ok ca cb p _ La Lb) as (acc & E & Hacc). rewrite E. cbn [mbind option_bind].
    rewrite (and_rows_decides _ _ _ mask (or_pairs_ok ca cb ps acc _ _ La Lb ltac:(by exists acc)) Hm). done.
  - rewrite (for_rows_ok _ _ (λ i, existsb (pair_holds ca cb i) (p :: ps))); [done|done|]. intros i Hi.
    destruct (lookup_lt_is_Some_2 ca i) as [x X]; [lia|]. destruct (lookup_lt_is_Some_2 cb i) as [y Y]; [lia|]. rewrite X, Y. cbn [or_panic mbind result_bind]. f_equal.
    apply Bool.eq_iff_eq_true. rewrite bool_decide_eq_true, existsb_exists. unfold pair_holds, cells_eq. rewrite X, Y. setoid_rewrite andb_true_iff. setoid_rewrite Z.eqb_eq.
    split; [intros H; exists (x, y); by split; [apply list_elem_of_In|]|]. intros ([h1 h2] & H & H1 & H2). cbn in *. subst. by apply list_elem_of_In.
Qed.

(** A conjunct that compares the strings of column [idx] with one whose hash is [h]. *)
Definition tests (t : ExecTable) (idx : nat) (h : Z) (c : Expr2) : Prop :=
  ∃ name s, extract_col_str_eq c = Some (name, s) ∧ lookup_col t name = Some idx ∧ col_types t !! idx = Some TString ∧ h = xxh3_64 (as_bytes s).
Lemma lut_conjunct_inv t c st st' : lut_conjunct t c st = Some st' →
  ∃ idx h, tests t idx h c ∧
    match col_a st, col_b st with
    | None, _ => st' = mkLut (Some idx) None (Some h) (hash_b st)
    | Some a, None => idx ≠ a ∧ st' = mkLut (Some a) (Some idx) (hash_a st) (Some h)
    | Some a, Some b => idx = a ∧ st' = mkLut (Some a) (Some b) (Some h) (hash_b st) ∨ idx = b ∧ st' = mkLut (Some a) (Some b) (hash_a st) (Some h)
    end.
Proof.
  unfold lut_conjunct. destruct (extract_col_str_eq c) as [[name s]|] eqn:E; [|done]. cbn [mbind option_bind]. destruct (lookup_col t name) as [idx|] eqn:El; [|done]. cbn [mbind option_bind].
  case_bool_decide as Hty; [|done]. intros H. exists idx, (xxh3_64 (as_bytes s)). split; [by exists name, s|].
  destruct (col_a st) as [a|]; [|by simplify_eq]. destruct (col_b st) as [b|].
  - destruct (Nat.eqb_spec idx a); [left; by simplify_eq|]. destruct (Nat.eqb_spec idx b); [right; by simplify_eq|done].
  - destruct (Nat.eqb_spec idx a); [done|]. split; [done|]. by simplify_eq.
Qed.
Lemma lut_two t c1 c2 a0 b0 st ha hb : (a0 = None → b0 = None) → lut_conjuncts t [c1; c2] (mkLut a0 b0 None None) = Some st → hash_a st = Some ha → hash_b st = Some hb →
  ∃ a b, col_a st = Some a ∧ col_b st = Some b ∧ (a0 = None ∨ a0 = Some a) ∧ (b0 = None ∨ b0 = Some b) ∧
    (tests t a ha c1 ∧ tests t b hb c2 ∨ tests t b hb c1 ∧ tests t a ha c2).
Proof.
  intros H0 H Ha Hb. cbn [lut_conjuncts] in H. destruct (lut_conjunct t c1 _) as [st1|] eqn:E1; [|done]. cbn [mbind option_bind] in H.
  destruct (lut_conjunct t c2 st1) as [st2|] eqn:E2; [|done]. cbn [mbind option_bind] in H. injection H as ->.
  apply lut_conjunct_inv in E1 as (i1 & h1 & T1 & E1). apply lut_conjunct_inv in E2 as (i2 & h2 & T2 & E2). cbn [col_a col_b hash_a hash_b] in E1.
  destruct a0 as [a|]; [destruct b0 as [b|]|].
  - destruct E1 as [[-> ->]|[-> ->]]; cbn [col_a col_b hash_a hash_b] in E2; destruct E2 as [[-> ->]|[-> ->]]; cbn in *; simplify_eq; exists a, b; naive_solver.
  - destruct E1 as [Hn ->]. cbn [col_a col_b hash_a hash_b] in E2. destruct E2 as [[-> ->]|[-> ->]]; cbn in *; simplify_eq. exists a, i1. naive_solver.
  - subst st1. cbn [col_a col_b hash_a hash_b] in E2. destruct E2 as [Hn ->]. cbn in *. simplify_eq. exists i1, i2. rewrite H0 by done. naive_solver.
Qed.
(** Both columns and the hashes of each alternative. *)
Definition disjunct_tests (t : ExecTable) (a b : nat) (d : Expr2) (p : Z * Z) : Prop :=
  ∃ c1 c2, flatten_conjuncts d = [c1; c2] ∧ (tests t a p.1 c1 ∧ tests t b p.2 c2 ∨ tests t b p.2 c1 ∧ tests t a p.1 c2).
Lemma lut_disjuncts_ok t ds a0 b0 a b pairs : (a0 = None → b0 = None) → Forall (λ d, length (flatten_conjuncts d) = 2%nat) ds →
  lut_disjuncts t ds a0 b0 = Some (Some a, Some b, pairs) → (a0 = None ∨ a0 = Some a) ∧ (b0 = None ∨ b0 = Some b) ∧ Forall2 (disjunct_tests t a b) ds pairs.
Proof.
  intros H0 Hds. revert a0 b0 pairs H0. induction Hds as [|d ds Hd _ IH]; intros a0 b0 pairs H0 H; cbn [lut_disjuncts] in H.
  { simplify_eq. split_and!; [by right|by right|constructor]. }
  destruct (lut_conjuncts t (flatten_conjuncts d) _) as [st|] eqn:E; [|done]. cbn [mbind option_bind] in H.
  destruct (hash_a st) as [ha|] eqn:Ea; [|done]. cbn [mbind option_bind] in H. destruct (hash_b st) as [hb|] eqn:Eb; [|done]. cbn [mbind option_bind] in H.
  destruct (lut_disjuncts t ds (col_a st) (col_b st)) as [[[a' b'] ps]|] eqn:Er; [|done]. cbn [mbind option_bind] in H. simplify_eq.
  destruct (flatten_conjuncts d) as [|c1 [|c2 [|]]] eqn:Ec; try done.
  destruct (lut_two t c1 c2 a0 b0 st ha hb H0 E Ea Eb) as (a1 & b1 & Ca & Cb & Ka & Kb & Ht). rewrite Ca, Cb in Er.
  destruct (IH (Some a1) (Some b1) ps) as (I1 & I2 & I3); [done|done|]. destruct I1 as [?|[= ->]]; [done|]. destruct I2 as [?|[= ->]]; [done|].
  split_and!; [done..|]. constructor; [|done]. by exists c1, c2.
Qed.
Lemma flatten_two d c1 c2 : flatten_conjuncts d = [c1; c2] → d = BinOp And c1 c2.
Proof.
  assert (Hpos : ∀ e, flatten_conjuncts e ≠ []).
  { induction e; try done. destruct op; try done. cbn. intros [? _]%app_eq_nil. done. }
  assert (Hone : ∀ e c, flatten_conjuncts e = [c] → e = c).
  { intros e c. destruct e; try by (intros [= ->]). destruct op; try by (intros [= ->]). cbn. intros H. exfalso.
    destruct (flatten_conjuncts e1) as [|x [|]] eqn:E1; [by apply Hpos in E1| |by destruct (flatten_conjuncts e2)]. cbn in H. injection H as _ H. by apply Hpos in H. }
  destruct d; try done. destruct op; try done. cbn. intros H. destruct (flatten_conjuncts d1) as [|x [|y l]] eqn:E1; [by apply Hpos in E1| |].
  - cbn in H. injection H as -> H. by rewrite (Hone _ _ E1), (Hone _ _ H).
  - cbn in H. injection H as -> -> H. apply app_eq_nil in H as [_ H]. by apply Hpos in H.
Qed.

Section top.
Context (Htop : outer = None).

Lemma comparison_vec_ok op l r t mask : exec_ok t → cmp_agrees op l r t → defined (BinOp op l r) t → length mask = row_count t →
  eval_comparison_vec op l r t mask = cut (BinOp op l r) t mask.
Proof.
  intros Ht Hc Hd Hm. unfold eval_comparison_vec, cmp_agrees in *.
  assert (Hout : ∀ e, outer_value e t = None) by (intros e; unfold outer_value; rewrite Htop; done).
  assert (Hleft : ∀ idx, col_in l t = Some idx → constant r = true → comparable t op idx (value_of (eval r t 0)) →
    (rval ← eval_const r t; apply_comparison op idx rval t mask) = cut (BinOp op l r) t mask).
  { intros idx Hl Hr Hcmp. destruct (constant_eval r t Hr) as (v & E1 & E2 & _). rewrite E2 in Hcmp. rewrite E1. cbn [mbind result_bind value_of] in *.
    rewrite apply_comparison_ok by (done || by eapply col_in_lt). apply cut_ext. intros i Hi. destruct (col_in_spec l t idx Hl) as (name & -> & Hn).
    unfold holds. rewrite (eval_bin_ok op (Col name) r t i (cell t idx i) v); [done| |done]. rewrite (eval_column name t idx i Hn). apply cell_ok; [done|by eapply col_in_lt|done]. }
  assert (Hright : ∀ idx, col_in r t = Some idx → constant l = true → comparable t (swap_op op) idx (value_of (eval l t 0)) →
    (lval ← eval_const l t; apply_comparison (swap_op op) idx lval t mask) = cut (BinOp op l r) t mask).
  { intros idx Hl Hr Hcmp. destruct (constant_eval l t Hr) as (v & E1 & E2 & _). rewrite E2 in Hcmp. rewrite E1. cbn [mbind result_bind value_of] in *.
    rewrite apply_comparison_ok by (done || by eapply col_in_lt). apply cut_ext. intros i Hi. destruct (col_in_spec r t idx Hl) as (name & -> & Hn).
    unfold holds. rewrite (eval_bin_ok op l (Col name) t i v (cell t idx i)); [|done|rewrite (eval_column name t idx i Hn); apply cell_ok; [done|by eapply col_in_lt|done]].
    cbn [value_of]. symmetry. apply binop_swap. pose proof (comparable_cmp _ _ _ _ Hcmp). by destruct op. }
  assert (Hrows : for_rows (row_count t) (λ i, lv ← eval l t i; rv ← eval r t i; Ok (truthy (binop op lv rv))) mask = cut (BinOp op l r) t mask).
  { apply for_rows_ok; [done|]. intros i Hi. destruct (eval_bin op l r t i (Hd i Hi)) as (E1 & E2 & ->). rewrite E1. cbn [mbind result_bind]. by rewrite E2. }
  destruct (col_in l t) as [li|] eqn:El, (expr_has_col r) eqn:Er, (col_in r t) as [ri|] eqn:Erc, (expr_has_col l) eqn:Elc;
    rewrite ?Hout; cbn beta iota; try (by destruct Hc; apply Hleft); try (by destruct Hc; apply Hright);
    unfold column_pair; rewrite ?El, ?Erc; cbn [mbind result_bind]; try done.
  - destruct (col_in_spec l t li El) as (nl & -> & Hnl). destruct (col_in_spec r t ri Erc) as (nr & -> & Hnr).
    destruct (lookup_ok t nl li Ht Hnl) as (lcol & lt & C1 & T1 & _), (lookup_ok t nr ri Ht Hnr) as (rcol & rt & C2 & T2 & _).
    rewrite T1, T2. cbn [or_panic mbind result_bind]. case_bool_decide as Hb; [|done]. destruct Hb as (<- & Hf & Hop).
    eapply compare_columns_ok; eauto.
Qed.

(** *** Conditions *)
Definition pairs_agree (e : Expr2) (t : ExecTable) : Prop :=
  (∃ a b ps, lut_disjuncts t (flatten_disjuncts e) None None = Some (Some a, Some b, ps)) → Forall (λ d, length (flatten_conjuncts d) = 2%nat) (flatten_disjuncts e).
Fixpoint agrees (t : ExecTable) (e : Expr2) : Prop :=
  match e with
  | BinOp And l r => agrees t l ∧ agrees t r
  | BinOp Or l r => agrees t l ∧ agrees t r ∧ pairs_agree e t
  | BinOp op l r => cmp_agrees op l r t
  | Between e low high negated => between_agrees e low high negated t
  | InList e l _ => in_agrees e l t
  | Like e pattern _ => like_agrees e pattern t
  | _ => True
  end.

Lemma defined_bin op l r t : defined (BinOp op l r) t → defined l t ∧ defined r t.
Proof. intros H. split; intros i Hi; destruct (eval_bin op l r t i (H i Hi)) as (E1 & E2 & _); [rewrite E1|rewrite E2]; by eexists. Qed.
Lemma disjuncts_hold e t i : defined e t → (i < row_count t)%nat → holds e t i = existsb (λ d, holds d t i) (flatten_disjuncts e).
Proof.
  intros Hd Hi. induction e as [| | | | |op e1 IHe1 e2 IHe2| | | | | | | | | | | | | |]; try (symmetry; apply orb_false_r). destruct op; try (symmetry; apply orb_false_r).
  destruct (defined_bin _ _ _ _ Hd) as [H1 H2]. cbn [flatten_disjuncts]. rewrite existsb_app, <- IHe1, <- IHe2 by done.
  destruct (eval_bin _ _ _ _ _ (Hd i Hi)) as (_ & _ & ->). cbn [binop]. by rewrite truthy_bool.
Qed.
Lemma disjuncts_inv (P : Expr2 → Prop) e : (∀ l r, P (BinOp Or l r) → P l ∧ P r) → P e → Forall P (flatten_disjuncts e).
Proof.
  intros HP. induction e as [| | | | |op e1 IHe1 e2 IHe2| | | | | | | | | | | | | |]; try (intros H; by repeat constructor). destruct op; try (intros H; by repeat constructor).
  intros [H1 H2]%HP. cbn. apply Forall_app. auto.
Qed.
Lemma tests_hold t idx h c col i : exec_ok t → tests t idx h c → agrees t c → columns t !! idx = Some col → (i < row_count t)%nat → holds c t i = cells_eq col h i.
Proof.
  intros Ht (name & s & Hx & Hl & Hty & ->) Ha Hc Hi.
  assert (Hcol : col_in (Col name) t = Some idx) by done.
  assert (Hex : ∃ l r, c = BinOp Eq l r ∧ (l = Col name ∧ r = EStr s ∨ l = EStr s ∧ r = Col name)).
  { destruct c as [| | | | |op l r| | | | | | | | | | | | | |]; try done. destruct op; try done. destruct l; try done; destruct r; try done; cbn in Hx; simplify_eq; eexists _, _; eauto. }
  destruct Hex as (l & r & -> & Hlr).
  assert (Hcmp : comparable t Eq idx (VStr (as_bytes s))).
  { cbn [agrees] in Ha. unfold cmp_agrees in Ha. destruct Hlr as [[-> ->]|[-> ->]]; cbn [expr_has_col] in Ha; rewrite ?Hcol in Ha; by destruct Ha. }
  assert (Hitem : item_agrees t idx (VStr (as_bytes s))) by (unfold comparable, item_agrees in *; rewrite Hty in *; by destruct Hcmp).
  destruct (lookup_ok t name idx Ht Hl) as (col' & _ & Hc' & _ & Hlen & _). assert (col' = col) as -> by congruence.
  destruct (lookup_lt_is_Some_2 col i) as [x X]; [lia|]. unfold cells_eq. rewrite X.
  assert (Hcell : eval (Col name) t i = Ok (cell t idx i)) by (rewrite (eval_column name t idx i Hl); apply cell_ok; [done|by eapply lookup_lt_Some|done]).
  rewrite <- (item_eqb t idx (VStr (as_bytes s)) col i x Ht Hitem Hc X : _ = Z.eqb x (xxh3_64 (as_bytes s))). unfold holds.
  destruct Hlr as [[-> ->]|[-> ->]]; [rewrite (eval_bin_ok _ _ _ _ _ (cell t idx i) (VStr (as_bytes s))) by done|rewrite (eval_bin_ok _ _ _ _ _ (VStr (as_bytes s)) (cell t idx i)) by done];
    cbn [value_of binop]; rewrite truthy_bool; [done|apply cmp_eq_sym].
Qed.
Lemma disjunct_holds t a b d p ca cb i : exec_ok t → disjunct_tests t a b d p → agrees t d → defined d t → columns t !! a = Some ca → columns t !! b = Some cb → (i < row_count t)%nat →
  holds d t i = pair_holds ca cb i p.
Proof.
  intros Ht (c1 & c2 & E & Hc) Ha Hd Ca Cb Hi. apply flatten_two in E as ->. destruct Ha as [A1 A2].
  destruct (eval_bin _ _ _ _ _ (Hd i Hi)) as (_ & _ & ->). cbn [binop]. rewrite truthy_bool. fold (holds c1 t i) (holds c2 t i). unfold pair_holds.
  destruct Hc as [[T1 T2]|[T1 T2]].
  - by rewrite (tests_hold t a p.1 c1 ca i), (tests_hold t b p.2 c2 cb i).
  - rewrite (tests_hold t b p.2 c1 cb i), (tests_hold t a p.1 c2 ca i) by done. apply andb_comm.
Qed.
Lemma flatten_nonempty e : flatten_disjuncts e ≠ [].
Proof. induction e as [| | | | |op l IHl r _| | | | | | | | | | | | | |]; try done. destruct op; try done. cbn. by intros [? _]%app_eq_nil. Qed.
Lemma pairs_hold t a b ds pairs ca cb i : exec_ok t → Forall2 (disjunct_tests t a b) ds pairs → Forall (agrees t) ds → Forall (λ d, defined d t) ds →
  columns t !! a = Some ca → columns t !! b = Some cb → (i < row_count t)%nat → existsb (pair_holds ca cb i) pairs = existsb (λ d, holds d t i) ds.
Proof.
  intros Ht Hp Ha Hd Ca Cb Hi. induction Hp as [|d p ds pairs Hdp _ IH]; [done|]. inversion Ha; inversion Hd; simplify_eq. cbn [existsb].
  by rewrite IH, (disjunct_holds t a b d p ca cb i).
Qed.
Lemma pairs_vec_ok l r t mask : exec_ok t → agrees t (BinOp Or l r) → defined (BinOp Or l r) t → length mask = row_count t →
  ∃ fast, try_nation_pair_or_lut (BinOp Or l r) t mask = Ok fast ∧ from_option (λ m, Ok m = cut (BinOp Or l r) t mask) True fast.
Proof.
  intros Ht Ha Hd Hm. unfold try_nation_pair_or_lut. destruct (lut_disjuncts _ _ _ _) as [[[[a|] [b|]] pairs]|] eqn:E; try by (exists None).
  assert (Hshape := proj2 (proj2 Ha) (ex_intro _ a (ex_intro _ b (ex_intro _ pairs E)))).
  destruct (lut_disjuncts_ok _ _ _ _ _ _ _ (λ H, H) Hshape E) as (_ & _ & Hp).
  assert (Hag : Forall (agrees t) (flatten_disjuncts (BinOp Or l r))) by (apply disjuncts_inv; [intros ?? H; split; apply H|done]).
  assert (Hdd : Forall (λ d, defined d t) (flatten_disjuncts (BinOp Or l r))) by (apply (disjuncts_inv (λ d, defined d t)); [intros ??; apply defined_bin|done]).
  remember (flatten_disjuncts (BinOp Or l r)) as ds eqn:Eds. destruct Hp as [|d p ds pairs Hdp Hrest]; [by apply symmetry, flatten_nonempty in Eds|].
  assert (Hcols : ∀ idx h c, tests t idx h c → ∃ col, columns t !! idx = Some col ∧ length col = row_count t).
  { intros idx h c (name & x & _ & Hl & _). destruct (lookup_ok t name idx Ht Hl) as (col & _ & Hc & _ & Hlen & _). eauto. }
  assert (∃ ca cb, (columns t !! a = Some ca ∧ length ca = row_count t) ∧ columns t !! b = Some cb ∧ length cb = row_count t) as (ca & cb & [Ca La] & Cb & Lb).
  { destruct Hdp as (c1 & c2 & _ & [[T1 T2]|[T1 T2]]); destruct (Hcols _ _ _ T1) as (x & ?), (Hcols _ _ _ T2) as (y & ?); eauto 6. }
  rewrite (apply_pairs_ok t a b _ ca cb) by done. eexists. split; [done|]. cbn [from_option]. apply cut_ext. intros i Hi.
  rewrite disjuncts_hold by done. rewrite <- Eds. eapply pairs_hold; eauto.
Qed.
Lemma cut_and l r t mask : defined (BinOp And l r) t → (m ← cut l t mask; cut r t m) = cut (BinOp And l r) t mask.
Proof.
  intros Hd. unfold cut. cbn [mbind result_bind]. f_equal. apply list_eq. intros i. rewrite !lookup_zip_with, !list_lookup_fmap.
  destruct (mask !! i) as [b|]; [|done]. cbn. destruct (seq 0 (row_count t) !! i) as [j|] eqn:Ej; [|done]. apply lookup_seq in Ej as [-> Hj]. cbn. f_equal.
  rewrite <- andb_assoc. f_equal. destruct (eval_bin _ _ _ _ _ (Hd i Hj)) as (_ & _ & ->). cbn [binop]. by rewrite truthy_bool.
Qed.
Lemma cut_or l r t mask : defined (BinOp Or l r) t → length mask = row_count t →
  (x ← cut l t (replicate (row_count t) true); y ← cut r t (replicate (row_count t) true); or_masks (row_count t) mask x y) = cut (BinOp Or l r) t mask.
Proof.
  intros Hd Hm. unfold cut, or_masks. cbn [mbind result_bind]. rewrite Hm, (proj2 (Nat.ltb_ge _ _)), take_ge, drop_ge, app_nil_r by lia. f_equal.
  apply list_eq. intros i. rewrite !lookup_zip_with, !list_lookup_fmap. destruct (mask !! i) as [b|] eqn:Eb; [|done]. cbn. apply lookup_lt_Some in Eb.
  rewrite lookup_replicate_2, lookup_seq_lt by lia. cbn. do 2 f_equal. destruct (eval_bin _ _ _ _ _ (Hd i ltac:(lia))) as (_ & _ & ->). cbn [binop]. by rewrite truthy_bool.
Qed.
Lemma cut_length e t mask m : length mask = row_count t → cut e t mask = Ok m → length m = row_count t.
Proof. intros Hm [= <-]. rewrite length_zip_with, length_fmap, length_seq. lia. Qed.

Lemma row_vec_ok e t mask : defined e t → length mask = row_count t → for_rows (row_count t) (λ i, v ← eval e t i; Ok (truthy v)) mask = cut e t mask.
Proof. intros Hd Hm. apply for_rows_ok; [done|]. intros i Hi. unfold holds. destruct (Hd i Hi) as [v Hv]. by destruct (eval e t i). Qed.
Lemma mask_vec_ok e t mask : exec_ok t → agrees t e → defined e t → length mask = row_count t → eval_bool_mask_vec e t mask = cut e t mask.
Proof.
  intros Ht. revert mask. induction e as [| | | | |op l IHl r IHr| | | | | | | | | | | | | |]; intros mask Ha Hd Hm; cbn [eval_bool_mask_vec];
    try by apply row_vec_ok.
  - destruct op; try by apply comparison_vec_ok.
    + destruct Ha as [A1 A2], (defined_bin _ _ _ _ Hd) as [D1 D2]. rewrite IHl, <- cut_and by done. destruct (cut l t mask) as [m|] eqn:Em; [|done]. cbn [mbind result_bind].
      apply IHr; [done..|]. by eapply cut_length.
    + destruct (defined_bin _ _ _ _ Hd) as [D1 D2]. destruct (pairs_vec_ok l r t mask Ht Ha Hd Hm) as ([m|] & E & H); rewrite E; cbn [mbind result_bind]; [done|].
      destruct Ha as (A1 & A2 & _); rewrite IHl, IHr by (done || apply length_replicate); by apply cut_or.
  - by apply like_vec_ok.
  - by apply between_vec_ok.
  - by apply in_list_vec_ok.
Qed.
End top.

(** Fractional bounds on a column of integers lose their fraction: 5 is between 5.5 and 9.
    The row at hand is never between them. *)
Lemma between_truncates t idx col : exec_ok t → columns t !! idx = Some col → col_types t !! idx = Some TInt → row_count t = 1%nat → col = [5] →
  ∃ bm, between_filter TInt 1 col (VFloat (S754_finite false 6192449487634432 (-50))) (VInt 9) false = Some bm ∧ BitmapM.rows bm = [true] ∧
    between (cell t idx 0) (VFloat (S754_finite false 6192449487634432 (-50))) (VInt 9) = false.
Proof.
  intros Ht Hc Hty Hn ->. assert (Hcell : cell_value t idx 0 = Ok (VInt 5)) by (rewrite (cell_plain t idx 0 [5] TInt 5) by done; by vm_compute).
  rewrite Hcell. eexists. split_and!; [unfold between_filter; by destruct avx|by vm_compute..].
Qed.
End where_.

(** C18: On a well-formed table, filtering whole columns leaves exactly the rows on which the
    evaluator of single rows finds the condition true, at the top of a query, where it has a value
    on every row, and under [agrees]. For parts filtered by columns: constants are literals (no
    CAST). Column against constant, same type: integers below 2^53 (column too); dates from 1970
    on; a float column with a bit-exact number, by order only (not [=], [<>]); strings by [=],
    [<>] only, no hash collisions. [=], [<>] of two columns of one type: integers below 2^53,
    dates of 32 bits, no hash collisions. BETWEEN: both bounds of the column's type, not strings;
    same limits; no NaN if negated. IN: such constants (no columns, no float column). LIKE of a
    string column: non-empty literal pattern, strings without a percent sign; of anything else: no
    integer values. An OR read as a list of pairs of names: two conjuncts in each alternative.
    Elsewhere they may differ (see [between_truncates]). *)
Theorem where_vectorised (S0 : Std) (Q0 : Enclosing) e t : outer = None → exec_ok t → agrees t e → defined e t →
  build_mask e t = Ok (holds e t <$> seq 0 (row_count t)).
Proof.
  intros Htop Ht Ha Hd. unfold build_mask. rewrite (mask_vec_ok Htop e t) by (done || apply length_replicate). unfold cut. f_equal.
  apply list_eq. intros i. rewrite lookup_zip_with, list_lookup_fmap. destruct (decide (i < row_count t)%nat) as [Hi|Hi].
  - by rewrite lookup_replicate_2, lookup_seq_lt.
  - rewrite (lookup_ge_None_2 (replicate _ _)) by (rewrite length_replicate; lia). by rewrite lookup_seq_ge by lia.
Qed.
(** Shipments between two nations (after TPC-H query 7). *)
#[local] Instance sample_std : Std :=
  { to_lowercase := id; uni_upper c := [c]; xxh3_64 s := default 0 (head s); float_bits _ := 0; parse_f64 _ := None; show_f64 _ := []; show_date d := [d]; to_ymd d := (d, 1, 1); avx := true }.
#[local] Instance sample_query : Enclosing := { outer := None; sub _ _ _ := Err Panic; sub_in _ _ _ _ _ := Err Panic }.
Definition shipments : ExecTable :=
  let supp := [K "FRANCE"; K "GERMANY"; K "FRANCE"] in let cust := [K "GERMANY"; K "FRANCE"; K "PERU"] in
  mkExec [[3; 5; 9]; [9131; 9132; 9131]; xxh3_64 <$> supp; xxh3_64 <$> cust] [K "qty"; K "day"; K "supp"; K "cust"] [TInt; TDate; TString; TString]
    [None; None; Some (StringColumnM.new supp); Some (StringColumnM.new cust)] 3
    (list_to_map [(K "qty", 0%nat); (K "day", 1%nat); (K "supp", 2%nat); (K "cust", 3%nat)]).
Definition is_from (column name : text) : Expr2 := BinOp Eq (Col column) (EStr name).
Definition between_nations : Expr2 :=
  BinOp And (BinOp Or (BinOp And (is_from (K "supp") (K "FRANCE")) (is_from (K "cust") (K "GERMANY")))
                      (BinOp And (is_from (K "supp") (K "GERMANY")) (is_from (K "cust") (K "FRANCE"))))
    (BinOp And (Between (Col (K "day")) (EDate 9131) (EDate 9131) false)
       (BinOp And (BinOp Ge (EInt 8) (Col (K "qty"))) (Like (Col (K "cust")) (EStr (K "%MAN_")) false))).
Lemma from_agrees column name idx ss : lookup_col shipments column = Some idx → col_types shipments !! idx = Some TString → has_strings shipments idx ss →
  (bool_decide (Forall (λ s, xxh3_64 s = xxh3_64 name → s = name) ss)) = true → as_bytes name = name → agrees shipments (is_from column name).
Proof.
  intros Hl Hty Hss Hh Hn. change (cmp_agrees Eq (Col column) (EStr name) shipments). unfold cmp_agrees, col_in, comparable. cbn [expr_has_col eval mbind result_bind value_of]. rewrite Hl. split; [done|]. rewrite Hty, Hn.
  split; [by left|]. exists ss. split; [done|]. apply bool_decide_eq_true in Hh. rewrite list.Forall_forall in Hh. exact Hh.
Qed.
Lemma shipments_agree : agrees shipments between_nations.
Proof.
  assert (Hs : has_strings shipments 2 [K "FRANCE"; K "GERMANY"; K "FRANCE"]) by done. assert (Hc : has_strings shipments 3 [K "GERMANY"; K "FRANCE"; K "PERU"]) by done.
  assert (Hcol : ∀ (P : Z → Prop) idx cells, columns shipments !! idx = Some cells → Forall P cells → col_forall P shipments idx).
  { intros P idx cells E H col c Hcol Hin. rewrite E in Hcol. injection Hcol as <-. rewrite list.Forall_forall in H. by apply H. }
  split; [split; [|split]|split; [|split]].
  - split; [eapply from_agrees; [| |exact Hs|..]|eapply from_agrees; [| |exact Hc|..]]; by vm_compute.
  - split; [eapply from_agrees; [| |exact Hs|..]|eapply from_agrees; [| |exact Hc|..]]; by vm_compute.
  - intros _. by repeat constructor.
  - refine (conj eq_refl (conj eq_refl (conj _ (conj _ (Hcol _ 1%nat [9131; 9132; 9131] eq_refl _))))); by repeat constructor.
  - refine (conj eq_refl (conj eq_refl (conj _ (Hcol _ 0%nat [3; 5; 9] eq_refl _)))); by repeat constructor.
  - exists 3%nat, [K "GERMANY"; K "FRANCE"; K "PERU"], (K "%MAN_"). split_and!; try done. apply (bool_decide_unpack _). by vm_compute.
Qed.
Lemma where_vectorised_witness : build_mask between_nations shipments = Ok [true; false; false].
Proof.
  rewrite (where_vectorised sample_std sample_query between_nations shipments); [by vm_compute|done|..].
  - split; try done.
    + apply (bool_decide_unpack _). by vm_compute.
    + intros name i. revert name i. change (map_Forall (λ _ i, (i < 4)%nat) (col_map shipments)). apply (bool_decide_unpack _). by vm_compute.
    + intros [|[|[|[|i]]]] sc; try done; intros [= <-]; by eexists.
  - apply shipments_agree.
  - intros [|[|[|i]]] Hi; [..|cbn in Hi; lia]; by vm_compute; eexists.
Defined.

(** C19: LIKE.  The matcher with its one point to return to accepts a string without [%] exactly when
    the string matches the pattern: [%] stands for any run of bytes, [_] for one
    character, when the pattern has no [_] or the string is ASCII. *)
Theorem tpch_like_correct s p : 37 ∉ s → Forall (λ c, 0 <= c) p → 95 ∉ p ∨ Forall (λ b, b < 128) s →
  like s (as_bytes p) = true ↔ WhereM.like p s.
Proof. intros Hs Hp Hc. rewrite like_spec by done. by apply like_bytes. Qed.
Lemma tpch_like_correct_witness : WhereM.like (K "%spec_al%req%") (K "the special requests").
Proof.
  apply tpch_like_correct; [apply (bool_decide_unpack _); by vm_compute..|right; apply (bool_decide_unpack _); by vm_compute|by vm_compute].
Defined.
(** A string with a percent sign need not match [%]: the sign is compared before the
    pattern is searched for a point to return to. *)
Lemma like_percent_in_string : like (K "%a") (K "%") = false ∧ WhereM.like (K "%") (K "%a").
Proof. split; [by vm_compute|]. apply WhereM.like_any, WhereM.like_any, WhereM.like_skip, WhereM.like_nil. Qed.
End TpchWhereM.
