(* ===== verification/Csv.v ===== *)
(** * CSV files (src/src/datasource/csv.rs, LoadedTable of src/src/datasource/parquet.rs)

    The reader of comma-separated files, which types each column by its values, and the
    reader of the pipe-separated TPC-H files, typed by the schema of the table.  A file is
    its bytes, or nothing when it cannot be read; reading floats and [xxh3_64] are
    parameters.  The capacities reserved from the size of the file are left out. *)

From Stdlib Require Import ZArith Lia Ascii String.
From stdpp Require Import prelude list numbers.
From S2P Require Import Prelude Nulls Catalog DateTime StringColumn Lexer Parser Vectorized Recovery Auth Pgwire.
Local Open Scope Z_scope.

Module CsvM.
Import LexerM (text, is_digit, dec, digits_value, dec_digits, digit_range).
Import ParserM (K, text_eqb, fmt_i64).
Import VectorizedM (as_bytes, utf8_char, utf8_bytes, utf8_ascii, parse_digits, parse_i64).
Import CatalogM (mkLC, mkLT).
Import RecoveryM (lines).
Import AuthM (split_on).
Import PgwireM (from_utf8, from_utf8_lossy).

Abbreviation LoadedTable := (@CatalogM.LoadedTable StringColumnM.StringSearchColumn).
Abbreviation LoadedColumn := (@CatalogM.LoadedColumn StringColumnM.StringSearchColumn).

Inductive CsvError :=
| EIo | EUtf8 | EZeroColumns | EFieldCount (row found expected : nat) | EUnknownTable | EEmptyFile | EParseInt | EParseFloat | EIndex.

Definition ok_or {A} (e : CsvError) (o : option A) : result CsvError A := match o with Some a => Ok a | None => Err e end.

(** ** Names *)
(** [rsplit_once(c)]: the text before the last [c]. *)
Fixpoint before_last (c : Z) (s : text) : option text :=
  match s with
  | [] => None
  | x :: s => match before_last c s with Some r => Some (x :: r) | None => if Z.eqb x c then Some [] else None end
  end.
Definition name_from_path (path : text) : text :=
  let stem := default path (list.last (split_on 47 path)) in default stem (before_last 46 stem).

(** ** Comma-separated files *)
Fixpoint drop_while (c : Z) (s : text) : text := match s with x :: s' => if Z.eqb x c then drop_while c s' else s | [] => [] end.
Definition trim_end (c : Z) (s : text) : text := reverse (drop_while c (reverse s)).
Definition data_lines (contents : text) : list text := filter (λ l, l ≠ []) (trim_end 13 <$> lines contents).
Fixpoint split_rows (ncols row_idx : nat) (ls : list text) : result CsvError (list (list text)) :=
  match ls with
  | [] => Ok []
  | line :: ls =>
    let row := split_on 44 line in
    if Nat.eqb (length row) ncols then rows ← split_rows ncols (S row_idx) ls; Ok (row :: rows)
    else Err (EFieldCount row_idx (length row) ncols)
  end.
Definition column_values {A} (col_idx : nat) (rows : list (list A)) : result CsvError (list A) := mapM (λ row, ok_or EIndex (row !! col_idx)) rows.

(** ** The TPC-H tables *)
Inductive TpchType := Int64 | Float64 | Date | Str.
#[global] Instance TpchType_eq_dec : EqDecision TpchType.
Proof. solve_decision. Defined.

Definition tpch_schema (table : text) : option (list (text * TpchType)) :=
  if text_eqb table (K "customer") then Some
    [(K "c_custkey", Int64); (K "c_name", Str); (K "c_address", Str); (K "c_nationkey", Int64);
     (K "c_phone", Str); (K "c_acctbal", Float64); (K "c_mktsegment", Str); (K "c_comment", Str)]
  else if text_eqb table (K "lineitem") then Some
    [(K "l_orderkey", Int64); (K "l_partkey", Int64); (K "l_suppkey", Int64); (K "l_linenumber", Int64);
     (K "l_quantity", Float64); (K "l_extendedprice", Float64); (K "l_discount", Float64);
     (K "l_tax", Float64); (K "l_returnflag", Str); (K "l_linestatus", Str); (K "l_shipdate", Date);
     (K "l_commitdate", Date); (K "l_receiptdate", Date); (K "l_shipinstruct", Str); (K "l_shipmode", Str);
     (K "l_comment", Str)]
  else if text_eqb table (K "nation") then Some
    [(K "n_nationkey", Int64); (K "n_name", Str); (K "n_regionkey", Int64); (K "n_comment", Str)]
  else if text_eqb table (K "orders") then Some
    [(K "o_orderkey", Int64); (K "o_custkey", Int64); (K "o_orderstatus", Str); (K "o_totalprice", Float64);
     (K "o_orderdate", Date); (K "o_orderpriority", Str); (K "o_clerk", Str); (K "o_shippriority", Int64);
     (K "o_comment", Str)]
  else if text_eqb table (K "part") then Some
    [(K "p_partkey", Int64); (K "p_name", Str); (K "p_mfgr", Str); (K "p_brand", Str); (K "p_type", Str);
     (K "p_size", Int64); (K "p_container", Str); (K "p_retailprice", Float64); (K "p_comment", Str)]
  else if text_eqb table (K "partsupp") then Some
    [(K "ps_partkey", Int64); (K "ps_suppkey", Int64); (K "ps_availqty", Int64); (K "ps_supplycost", Float64);
     (K "ps_comment", Str)]
  else if text_eqb table (K "region") then Some
    [(K "r_regionkey", Int64); (K "r_name", Str); (K "r_comment", Str)]
  else if text_eqb table (K "supplier") then Some
    [(K "s_suppkey", Int64); (K "s_name", Str); (K "s_address", Str); (K "s_nationkey", Int64);
     (K "s_phone", Str); (K "s_acctbal", Float64); (K "s_comment", Str)]
  else None.

(** [era], of 400 years, rounds towards the past; the arithmetic on [m] and [d] is unsigned. *)
Definition days_from_civil (y m d : Z) : Z :=
  let y := if Z.leb m 2 then as_signed 32 (y - 1) else y in
  let era := Z.quot (if Z.geb y 0 then y else as_signed 32 (y - 399)) 400 in
  let yoe := wrap_u 32 (y - era * 400) in
  let doy := wrap_u 32 (wrap_u 32 (153 * (if Z.ltb 2 m then m - 3 else m + 9) + 2) / 5 + d - 1) in
  let doe := wrap_u 32 (yoe * 365 + yoe / 4 - yoe / 100 + doy) in
  as_signed 32 (era * 146097 + as_signed 32 doe - 719468).
(** The first ten bytes; anything else is the first day. *)
Definition parse_date_to_days (s : list Z) : Z :=
  match s with
  | b0 :: b1 :: b2 :: b3 :: _ :: b5 :: b6 :: _ :: b8 :: b9 :: _ =>
    if forallb is_digit [b0; b1; b2; b3; b5; b6; b8; b9] then
      let y := (b0 - 48) * 1000 + (b1 - 48) * 100 + (b2 - 48) * 10 + (b3 - 48) in
      let m := (b5 - 48) * 10 + (b6 - 48) in
      let d := (b8 - 48) * 10 + (b9 - 48) in
      wrap_u 64 (days_from_civil y m d)
    else 0
  | _ => 0
  end.
Definition strip_quotes (field : list Z) : list Z :=
  if Nat.leb 2 (length field) && bool_decide (head field = Some 34) && bool_decide (list.last field = Some 34)
  then take (length field - 2) (drop 1 field) else field.

(** [read_until(b'\n')]: the bytes up to and with the newline, and the rest. *)
Fixpoint read_until (s : list Z) : list Z * list Z :=
  match s with
  | [] => ([], [])
  | b :: s => if Z.eqb b 10 then ([b], s) else let '(l, r) := read_until s in (b :: l, r)
  end.
Definition drop_end (c : Z) (l : list Z) : list Z := if bool_decide (list.last l = Some c) then take (length l - 1) l else l.
(** The fields of a line, in [n] places; a field without a place is dropped. *)
Fixpoint fields (n : nat) (cur : list Z) (line : list Z) : list (list Z) :=
  match line with
  | [] => match n with O => [] | S _ => [cur] end
  | b :: line =>
    if Z.eqb b 124 then match n with O => fields O [] line | S n => cur :: fields n [] line end
    else fields n (cur ++ [b]) line
  end.

Section csv.
Context (xxh3_64 : list Z → Z) (parse_f64 : text → option Z).

(** A column is numeric when all its values are. *)
Definition csv_column (name : text) (col_idx : nat) (rows : list (list text)) : result CsvError LoadedColumn :=
  vs ← column_values col_idx rows;
  Ok (match mapM parse_i64 vs with
      | Some ints => mkLC name (wrap_u 64 <$> ints) None None
      | None => mkLC name ((λ v, xxh3_64 (as_bytes v)) <$> vs) (Some (StringColumnM.new (as_bytes <$> vs))) None
      end).
Fixpoint csv_columns (names : list text) (col_idx : nat) (rows : list (list text)) : result CsvError (list LoadedColumn) :=
  match names with
  | [] => Ok []
  | n :: names => c ← csv_column n col_idx rows; cs ← csv_columns names (S col_idx) rows; Ok (c :: cs)
  end.
Definition read_csv (path : text) (file : option (list Z)) (has_header : bool) : result CsvError LoadedTable :=
  bytes ← ok_or EIo file;
  contents ← ok_or EUtf8 (from_utf8 bytes);
  match data_lines contents with
  | [] => Ok (mkLT (name_from_path path) [] 0)
  | first :: rest =>
    let row := split_on 44 first in
    let '(names, data) := if has_header then (row, rest) else ((λ i, K "col_" ++ fmt_i64 (Z.of_nat i)) <$> seq 0 (length row), first :: rest) in
    if bool_decide (names = []) then Err EZeroColumns else
    rows ← split_rows (length names) (if has_header then 1 else 0) data;
    columns ← csv_columns names 0 rows;
    Ok (mkLT (name_from_path path) columns (length rows))
  end.

(** One field: its cell, and its text in a column of strings. *)
Definition parse_field (t : TpchType) (field : list Z) : result CsvError (Z * option (list Z)) :=
  match t with
  | Int64 => s ← ok_or EUtf8 (from_utf8 field); v ← ok_or EParseInt (parse_i64 s); Ok (wrap_u 64 v, None)
  | Float64 => s ← ok_or EUtf8 (from_utf8 field); v ← ok_or EParseFloat (parse_f64 s); Ok (v, None)
  | Date => Ok (parse_date_to_days field, None)
  | Str => let s := as_bytes (default (from_utf8_lossy field) (from_utf8 field)) in Ok (xxh3_64 s, Some s)
  end.
Fixpoint parse_fields (schema : list (text * TpchType)) (fs : list (list Z)) : result CsvError (list (Z * option (list Z))) :=
  match schema, fs with
  | (_, t) :: schema, f :: fs => c ← parse_field t (strip_quotes f); cs ← parse_fields schema fs; Ok (c :: cs)
  | _, _ => Ok []
  end.
(** The cells and the strings read so far, by column. *)
Definition push_field (col : list Z * list (list Z)) (c : Z * option (list Z)) : list Z * list (list Z) := (col.1 ++ [c.1], col.2 ++ option_list c.2).
Fixpoint tpch_rows (fuel : nat) (schema : list (text * TpchType)) (bytes : list Z) (row_count : nat) (cols : list (list Z * list (list Z))) :
  result CsvError (nat * list (list Z * list (list Z))) :=
  match fuel, bytes with
  | _, [] | O, _ => Ok (row_count, cols)
  | S fuel, _ =>
    let '(line_buf, rest) := read_until bytes in
    let line := drop_end 13 (drop_end 10 line_buf) in
    if bool_decide (line = []) then tpch_rows fuel schema rest row_count cols else
    let fs := fields 16 [] line in
    if negb (Nat.eqb (length fs) (length schema)) then Err (EFieldCount (S row_count) (length fs) (length schema)) else
    cs ← parse_fields schema fs;
    tpch_rows fuel schema rest (S row_count) (zip_with push_field cols cs)
  end.
Definition tpch_column (field : text * TpchType) (col : list Z * list (list Z)) : LoadedColumn :=
  mkLC field.1 col.1 (match col.2 with [] => None | ss => Some (StringColumnM.new ss) end) None.
Definition read_tpch_csv (file : option (list Z)) (table_name : text) : result CsvError LoadedTable :=
  schema ← ok_or EUnknownTable (tpch_schema table_name);
  bytes ← ok_or EIo file;
  if bool_decide (bytes = []) then Err EEmptyFile else
  let '(_, rest) := read_until bytes in
  '(row_count, cols) ← tpch_rows (length rest) schema rest 0 (replicate (length schema) ([], []));
  Ok (mkLT table_name (zip_with tpch_column schema cols) row_count).
End csv.

(** ** Dates *)
(** Days from 1970 to a date of the calendar: whole years, whole months, days. *)
Definition civil_days (y m d : Z) : Z := DateTimeM.days_before_year y + default 0 (DateTimeM.day_of_year y (Z.to_nat m) d) - 1.
Definition valid_date (y m d : Z) : Prop := 0 <= y <= 9999 ∧ 1 <= m <= 12 ∧ 1 <= d <= default 0 (DateTimeM.days_in_months (DateTimeM.is_leap_year y) !! Z.to_nat (m - 1)).
Lemma month_length leap i : default 0 (DateTimeM.days_in_months leap !! i) <= 31.
Proof. destruct leap; do 12 (destruct i as [|i]; [by cbn|]); by destruct i. Qed.
Lemma valid_day y m d : valid_date y m d → 1 <= d <= 31.
Proof. intros (_ & _ & H1 & H2). pose proof (month_length (DateTimeM.is_leap_year y) (Z.to_nat (m - 1))). lia. Qed.
Lemma floor_era y : -1 <= y <= 9999 → Z.quot (if Z.geb y 0 then y else as_signed 32 (y - 399)) 400 = y / 400.
Proof.
  intros Hy. rewrite Z.geb_leb. destruct (Z.leb_spec 0 y); [by rewrite Z.quot_div_nonneg by lia|]. assert (y = -1) as -> by lia. reflexivity.
Qed.
(** The days before a year that starts in March, by its era. *)
Lemma march_days y doy : -1 <= y <= 9999 → 0 <= doy <= 400 →
  as_signed 32 (y / 400 * 146097 + as_signed 32 (wrap_u 32 (wrap_u 32 (y - y / 400 * 400) * 365 + wrap_u 32 (y - y / 400 * 400) / 4 - wrap_u 32 (y - y / 400 * 400) / 100 + doy)) - 719468)
  = 365 * y + y / 4 - y / 100 + y / 400 + doy - 719468.
Proof.
  intros Hy Hd. assert (Hm : y - y / 400 * 400 = y mod 400) by (pose proof (Z.div_mod y 400); lia). rewrite Hm.
  pose proof (Z.mod_pos_bound y 400 ltac:(lia)) as Hb. rewrite (wrap_u_small 32 (y mod 400)) by (unfold in_u; lia).
  assert (0 <= y mod 400 * 365 + y mod 400 / 4 - y mod 400 / 100 + doy < 200000) as Hs by (Z.to_euclidean_division_equations; lia).
  assert (Hid : ∀ z, -1000000 <= z < 10000000 → as_signed 32 z = z) by (intros z Hz; apply DateTimeM.as_signed_id; [lia|unfold DateTimeM.in_i; change (2 ^ (32 - 1)) with 2147483648; lia]).
  rewrite (wrap_u_small 32) by (unfold in_u; lia). rewrite (Hid (_ + doy)) by lia. rewrite Hid by (Z.to_euclidean_division_equations; lia).
  Z.to_euclidean_division_equations; lia.
Qed.
Lemma leap_days y : (y / 4 - y / 100 + y / 400) - ((y - 1) / 4 - (y - 1) / 100 + (y - 1) / 400) = (if DateTimeM.is_leap_year y then 29 else 28) - 28.
Proof.
  unfold DateTimeM.is_leap_year. rewrite !DateTimeM.rem_zero_mod by lia.
  destruct (Z.eqb_spec (y mod 4) 0), (Z.eqb_spec (y mod 100) 0), (Z.eqb_spec (y mod 400) 0); simpl; Z.to_euclidean_division_equations; lia.
Qed.
Lemma days_from_civil_ok y m d : valid_date y m d → days_from_civil y m d = civil_days y m d.
Proof.
  intros Hv. pose proof (valid_day _ _ _ Hv) as Hd. destruct Hv as (Hy & Hm & _). unfold days_from_civil, civil_days.
  assert (Hy1 : as_signed 32 (y - 1) = y - 1) by (apply DateTimeM.as_signed_id; [lia|unfold DateTimeM.in_i; cbn; lia]).
  assert (Hdoy : ∀ k, 0 <= k <= 11 → wrap_u 32 (wrap_u 32 (153 * k + 2) / 5 + d - 1) = (153 * k + 2) / 5 + d - 1 ∧ 0 <= (153 * k + 2) / 5 + d - 1 <= 400).
  { intros k Hk. rewrite (wrap_u_small 32 (153 * k + 2)) by (unfold in_u; lia). assert (0 <= (153 * k + 2) / 5 <= 340) by (Z.to_euclidean_division_equations; lia).
    rewrite wrap_u_small by (unfold in_u; lia). lia. }
  set (k := if Z.ltb 2 m then m - 3 else m + 9). assert (Hk : 0 <= k <= 11) by (unfold k; destruct (Z.ltb_spec 2 m); lia). destruct (Hdoy k Hk) as [-> Hb]. rewrite Hy1. cbv zeta.
  rewrite floor_era by (destruct (Z.leb_spec m 2); lia). rewrite march_days by (destruct (Z.leb_spec m 2); lia).
  assert (m = 1 ∨ m = 2 ∨ m = 3 ∨ m = 4 ∨ m = 5 ∨ m = 6 ∨ m = 7 ∨ m = 8 ∨ m = 9 ∨ m = 10 ∨ m = 11 ∨ m = 12) as Hc by lia.
  unfold DateTimeM.days_before_year, DateTimeM.day_of_year, DateTimeM.days_in_months. pose proof (leap_days y) as Hl. unfold k. clear k Hk Hb Hdoy Hy1.
  set (feb := if DateTimeM.is_leap_year y then 29 else 28) in *. clearbody feb.
  destruct_or! Hc; subst m; match goal with |- context [Z.to_nat ?n] => let j := eval vm_compute in (Z.to_nat n) in change (Z.to_nat n) with j end;
    rewrite bool_decide_true by lia; cbn [take fold_left Nat.sub default from_option Z.leb Z.ltb Z.compare Pos.compare Pos.compare_cont id];
    Z.to_euclidean_division_equations; lia.
Qed.
Definition print_date (y m d : Z) : list Z :=
  [48 + y / 1000; 48 + y / 100 mod 10; 48 + y / 10 mod 10; 48 + y mod 10; 45; 48 + m / 10; 48 + m mod 10; 45; 48 + d / 10; 48 + d mod 10].
Lemma print_date_bytes y m d : valid_date y m d → Forall (λ b, 45 <= b <= 57) (print_date y m d).
Proof.
  intros Hv. pose proof (valid_day _ _ _ Hv) as Hd. destruct Hv as (Hy & Hm & _). unfold print_date. repeat constructor; Z.to_euclidean_division_equations; lia.
Qed.
Lemma parse_date_ok y m d : valid_date y m d → parse_date_to_days (print_date y m d) = wrap_u 64 (civil_days y m d).
Proof.
  intros Hv. rewrite <- days_from_civil_ok by done. pose proof (valid_day _ _ _ Hv) as Hd. destruct Hv as (Hy & Hm & _). unfold parse_date_to_days, print_date.
  assert (forallb is_digit [48 + y / 1000; 48 + y / 100 mod 10; 48 + y / 10 mod 10; 48 + y mod 10; 48 + m / 10; 48 + m mod 10; 48 + d / 10; 48 + d mod 10] = true) as ->.
  { cbn [forallb]. rewrite !andb_true_iff, !digit_range. Z.to_euclidean_division_equations; lia. }
  f_equal. f_equal; Z.to_euclidean_division_equations; lia.
Qed.

(** ** Fields *)
Inductive field := FInt (i : Z) | FFloat (s : text) | FDate (y m d : Z) | FStr (quoted : bool) (s : text).
Definition print_field (f : field) : list Z :=
  match f with
  | FInt i => fmt_i64 i
  | FFloat s => as_bytes s
  | FDate y m d => print_date y m d
  | FStr quoted s => if quoted then 34 :: as_bytes s ++ [34] else as_bytes s
  end.
Definition type_of (f : field) : TpchType := match f with FInt _ => Int64 | FFloat _ => Float64 | FDate _ _ _ => Date | FStr _ _ => Str end.
(** Bytes that neither end a field or a line nor are taken for quotes. *)
Definition unquoted (bs : list Z) : Prop := strip_quotes bs = bs ∧ list.last bs ≠ Some 13.

(** Digits, quotes and separators. *)
Lemma ascii_bytes s : Forall (λ c, 0 <= c < 128) s → as_bytes s = s ∧ Forall PgwireM.scalar s.
Proof.
  induction 1 as [|c s Hc _ [IH1 IH2]]; [done|]. split; [|constructor; [unfold PgwireM.scalar; lia|done]].
  unfold as_bytes in *. cbn. rewrite IH1. by rewrite utf8_ascii by lia.
Qed.
Lemma fmt_i64_bytes i : - 2 ^ 63 <= i < 2 ^ 63 → Forall (λ c, 45 <= c <= 57) (fmt_i64 i) ∧ parse_i64 (fmt_i64 i) = Some i ∧ fmt_i64 i ≠ [].
Proof.
  intros Hi. assert (Hdec : ∀ n, 0 <= n <= 2 ^ 63 → Forall (λ c, 48 <= c <= 57) (dec 19 n) ∧ parse_digits (dec 19 n) = Some n ∧ dec 19 n ≠ []).
  { intros n Hn. destruct (dec_digits 19 n) as (H1 & H2 & H3); [split; [lia|]; change (10 ^ Z.of_nat 19) with 10000000000000000000; lia|lia|].
    split_and!; [|unfold parse_digits; rewrite bool_decide_false by done|done].
    - eapply List.Forall_impl; [|exact H1]. intros c. apply digit_range.
    - cbn [orb]. assert (existsb (λ c, negb (is_digit c)) (dec 19 n) = false) as ->; [|by rewrite H2].
      apply not_true_iff_false. rewrite existsb_exists. intros (c & Hc & Hn'). rewrite list.Forall_forall in H1. rewrite H1 in Hn' by by apply list_elem_of_In. done. }
  unfold fmt_i64. destruct (Z.ltb_spec i 0).
  - destruct (Hdec (- i)) as (H1 & H2 & H3); [lia|]. split_and!; [constructor; [lia|]; eapply List.Forall_impl; [|exact H1]; intros ? ?; cbn in *; lia| |done].
    transitivity (v ← parse_digits (dec 19 (- i)); if Z.leb v (2 ^ 63) then Some (- v) else None); [reflexivity|].
    rewrite H2. cbn [mbind option_bind]. rewrite (proj2 (Z.leb_le _ _)) by lia. f_equal. lia.
  - destruct (Hdec i) as (H1 & H2 & H3); [lia|]. split_and!; [eapply List.Forall_impl; [|exact H1]; intros ? ?; cbn in *; lia| |done].
    unfold parse_i64. destruct (dec 19 i) as [|c l] eqn:E; [done|]. inversion H1; subst. rewrite !(proj2 (Z.eqb_neq _ _)) by lia. rewrite H2. cbn [mbind option_bind]. by rewrite (proj2 (Z.ltb_lt _ _)) by lia.
Qed.
Lemma strip_digits bs : Forall (λ c, 45 <= c <= 57) bs → unquoted bs.
Proof.
  intros H. rewrite list.Forall_forall in H. split.
  - unfold strip_quotes. assert (bool_decide (head bs = Some 34) = false) as ->; [|by rewrite andb_false_r].
    apply bool_decide_eq_false. intros Hh. destruct bs as [|b bs]; [done|]. injection Hh as ->. specialize (H 34 ltac:(set_solver)). lia.
  - intros Hl. apply list.last_Some_elem_of in Hl. apply H in Hl. lia.
Qed.
Lemma strip_quoted bs : strip_quotes (34 :: bs ++ [34]) = bs ∧ list.last (34 :: bs ++ [34]) ≠ Some 13.
Proof.
  assert (Hl : list.last (34 :: bs ++ [34]) = Some 34) by (change (34 :: bs ++ [34]) with ((34 :: bs) ++ [34]); apply last_snoc). rewrite Hl. split; [|done].
  unfold strip_quotes. rewrite Hl. cbn [length head drop]. rewrite length_app. cbn [length]. rewrite !bool_decide_true by done.
  rewrite (proj2 (Nat.leb_le _ _)) by lia. cbn [andb]. replace (S (length bs + 1) - 2)%nat with (length bs) by lia. apply take_app_length.
Qed.
Lemma no_byte c s : 0 <= c < 128 → Forall PgwireM.scalar s → c ∉ s → c ∉ as_bytes s.
Proof.
  intros Hc Hs Hn Hin. unfold as_bytes in Hin. apply list_elem_of_In, in_concat in Hin as (l & Hl & Hb). apply in_map_iff in Hl as (x & <- & Hx).
  apply list_elem_of_In in Hb, Hx. rewrite list.Forall_forall in Hs. specialize (Hs x Hx).
  destruct (decide (x < 128)); [rewrite utf8_ascii in Hb by done; apply list_elem_of_singleton in Hb; congruence|]. pose proof (utf8_bytes x c ltac:(lia) Hb). lia.
Qed.

(** Lines and their fields. *)
Fixpoint join (sep : Z) (parts : list (list Z)) : list Z := match parts with [] => [] | [p] => p | p :: ps => p ++ sep :: join sep ps end.
Lemma fields_text n cur p rest : 124 ∉ p → fields n cur (p ++ rest) = fields n (cur ++ p) rest.
Proof.
  revert cur. induction p as [|b p IH]; intros cur Hp; [by rewrite app_nil_r|]. cbn. rewrite (proj2 (Z.eqb_neq _ _)) by set_solver.
  rewrite IH by set_solver. by rewrite <- app_assoc.
Qed.
Lemma fields_join n p ps : Forall (λ q, 124 ∉ q) (p :: ps) → (length ps < n)%nat → fields n [] (join 124 (p :: ps)) = p :: ps.
Proof.
  revert n p. induction ps as [|q ps IH]; intros n p Hp Hn; inversion Hp as [|?? H1 H2]; subst.
  - cbn [join]. rewrite <- (app_nil_r p) at 1. rewrite fields_text by done. cbn. by destruct n; [lia|].
  - change (join 124 (p :: q :: ps)) with (p ++ 124 :: join 124 (q :: ps)). rewrite fields_text by done. cbn [fields app Z.eqb Pos.eqb].
    destruct n as [|n]; [lia|]. rewrite IH; [done|done|cbn in Hn; lia].
Qed.
Lemma read_until_line l rest : 10 ∉ l → read_until (l ++ 10 :: rest) = (l ++ [10], rest).
Proof. induction l as [|b l IH]; intros H; [done|]. cbn. rewrite (proj2 (Z.eqb_neq _ _)) by set_solver. by rewrite IH by set_solver. Qed.
Lemma drop_end_line l : list.last l ≠ Some 13 → drop_end 13 (drop_end 10 (l ++ [10])) = l.
Proof.
  intros H. unfold drop_end at 2. rewrite last_snoc, bool_decide_true, length_app by done. cbn [length]. replace (length l + 1 - 1)%nat with (length l) by lia.
  rewrite take_app_length. unfold drop_end. by rewrite bool_decide_false.
Qed.
Lemma join_bytes sep b p ps : b ≠ sep → Forall (λ q, b ∉ q) (p :: ps) → b ∉ join sep (p :: ps).
Proof.
  intros Hb. revert p. induction ps as [|q ps IH]; intros p H; inversion H as [|?? H1 H2]; subst; [done|].
  change (join sep (p :: q :: ps)) with (p ++ sep :: join sep (q :: ps)). specialize (IH q H2). set_solver.
Qed.
Lemma join_last sep p ps : sep ≠ 13 → Forall (λ q, list.last q ≠ Some 13) (p :: ps) → list.last (join sep (p :: ps)) ≠ Some 13.
Proof.
  intros Hs. revert p. induction ps as [|q ps IH]; intros p H; inversion H as [|?? H1 H2]; subst; [done|].
  change (join sep (p :: q :: ps)) with (p ++ sep :: join sep (q :: ps)). rewrite last_app, last_cons. specialize (IH q H2).
  destruct (list.last (join sep (q :: ps))); [done|]. congruence.
Qed.
Lemma schema_size table schema : tpch_schema table = Some schema → (2 <= length schema <= 16)%nat.
Proof. unfold tpch_schema. repeat (destruct (text_eqb table _); [intros [= <-]; cbn; lia|]). done. Qed.

Section fields.
Context (xxh3_64 : list Z → Z) (parse_f64 : text → option Z).
Definition field_ok (f : field) : Prop :=
  match f with
  | FInt i => - 2 ^ 63 <= i < 2 ^ 63
  | FFloat s => is_Some (parse_f64 s) ∧ Forall PgwireM.scalar s ∧ (10 ∉ s) ∧ (124 ∉ s) ∧ unquoted (as_bytes s)
  | FDate y m d => valid_date y m d
  | FStr quoted s => Forall PgwireM.scalar s ∧ (10 ∉ s) ∧ (124 ∉ s) ∧ (quoted = false → unquoted (as_bytes s))
  end.
Definition cell_of (f : field) : Z :=
  match f with
  | FInt i => wrap_u 64 i
  | FFloat s => default 0 (parse_f64 s)
  | FDate y m d => wrap_u 64 (civil_days y m d)
  | FStr _ s => xxh3_64 (as_bytes s)
  end.
Definition string_of (f : field) : option (list Z) := match f with FStr _ s => Some (as_bytes s) | _ => None end.

(** Printed, a field has no separator, and does not end with a carriage return. *)
Lemma print_field_ok f : field_ok f → (10 ∉ print_field f) ∧ (124 ∉ print_field f) ∧ list.last (print_field f) ≠ Some 13 ∧
  parse_field xxh3_64 parse_f64 (type_of f) (strip_quotes (print_field f)) = Ok (cell_of f, string_of f).
Proof.
  assert (Hout : ∀ bs, Forall (λ c, 45 <= c <= 57) bs → (10 ∉ bs) ∧ (124 ∉ bs) ∧ as_bytes bs = bs ∧ from_utf8 bs = Some bs).
  { intros bs H. pose proof H as H'. rewrite list.Forall_forall in H'. destruct (ascii_bytes bs) as [E Hs]; [eapply List.Forall_impl; [|exact H]; intros ? ?; cbn in *; lia|].
    split_and!; [intros Hx; apply H' in Hx; lia|intros Hx; apply H' in Hx; lia|done|]. rewrite <- E at 1. by apply PgwireM.from_utf8_as_bytes. }
  destruct f as [i|s|y m d|quoted s]; intros Hf; cbn [field_ok print_field type_of cell_of string_of] in *.
  - destruct (fmt_i64_bytes i Hf) as (H1 & H2 & _), (Hout _ H1) as (? & ? & _ & E), (strip_digits _ H1) as [Hq Hl]. split_and!; [done..|].
    cbn [parse_field]. rewrite Hq, E. cbn [ok_or mbind result_bind]. by rewrite H2.
  - destruct Hf as ([v Hv] & Hs & H10 & H124 & Hq & Hl). split_and!; [apply no_byte; [lia|done..]|apply no_byte; [lia|done..]|done|].
    cbn [parse_field]. rewrite Hq, PgwireM.from_utf8_as_bytes by done. cbn [ok_or mbind result_bind]. by rewrite Hv.
  - pose proof (print_date_bytes _ _ _ Hf) as H1. destruct (Hout _ H1) as (? & ? & _), (strip_digits _ H1) as [Hq Hl]. split_and!; [done..|].
    cbn [parse_field]. by rewrite Hq, parse_date_ok.
  - destruct Hf as (Hs & H10 & H124 & Hq). apply (no_byte 10) in H10; [|lia|done]. apply (no_byte 124) in H124; [|lia|done].
    assert (Hp : ∀ bs, bs = as_bytes s → parse_field xxh3_64 parse_f64 Str bs = Ok (xxh3_64 (as_bytes s), Some (as_bytes s))).
    { intros bs ->. cbn [parse_field]. by rewrite PgwireM.from_utf8_as_bytes. }
    destruct quoted; [destruct (strip_quoted (as_bytes s)) as [E Hl]|destruct (Hq eq_refl) as [E Hl]]; split_and!; try done; try (apply Hp; exact E); set_solver.
Qed.

(** ** Files *)
Definition print_row (r : list field) : list Z := join 124 (print_field <$> r).
Definition print_rows (rows : list (list field)) : list Z := concat ((λ r, print_row r ++ [10]) <$> rows).
Definition row_ok (schema : list (text * TpchType)) (r : list field) : Prop := Forall2 (λ c f, type_of f = c.2 ∧ field_ok f) schema r.

Lemma row_line schema r : row_ok schema r → (2 <= length schema <= 16)%nat →
  (10 ∉ print_row r) ∧ list.last (print_row r) ≠ Some 13 ∧ print_row r ≠ [] ∧ fields 16 [] (print_row r) = print_field <$> r ∧
  parse_fields xxh3_64 parse_f64 schema (print_field <$> r) = Ok ((λ f, (cell_of f, string_of f)) <$> r).
Proof.
  intros Hr Hn. assert (Hp : Forall (λ f, field_ok f) r) by (clear Hn; induction Hr as [|c f cs fs [_ Hf] _ IH]; by constructor).
  assert (Hq : ∀ P, (∀ f, field_ok f → P (print_field f)) → Forall P (print_field <$> r)) by (intros P HP; apply Forall_fmap; eapply List.Forall_impl; [|exact Hp]; exact HP).
  assert (Hlen : length r = length schema) by (symmetry; by eapply Forall2_length). unfold print_row.
  assert (H10 := Hq (λ q, 10 ∉ q) ltac:(apply print_field_ok)). assert (H124 := Hq (λ q, 124 ∉ q) ltac:(apply print_field_ok)). assert (H13 := Hq (λ q, list.last q ≠ Some 13) ltac:(apply print_field_ok)).
  assert (Hps : parse_fields xxh3_64 parse_f64 schema (print_field <$> r) = Ok ((λ f, (cell_of f, string_of f)) <$> r)).
  { clear -Hr. induction Hr as [|[n t] f cs fs [Ht Hf] _ IH]; [done|]. cbn in Ht. subst t. cbn [fmap list_fmap parse_fields].
    destruct (print_field_ok f Hf) as (_ & _ & _ & ->). cbn [mbind result_bind]. by rewrite IH. }
  destruct r as [|f [|g r]]; [cbn in Hlen; lia..|]. cbn [fmap list_fmap] in *. split_and!; [by apply join_bytes|by apply join_last| |apply fields_join; [done|cbn in *; rewrite length_fmap; lia]|done].
  change (print_field f ++ 124 :: join 124 (print_field g :: (print_field <$> r)) ≠ []). by destruct (print_field f).
Qed.
Lemma print_rows_cons r rows : print_rows (r :: rows) = print_row r ++ 10 :: print_rows rows.
Proof. unfold print_rows. cbn. by rewrite <- app_assoc. Qed.
Definition push_row (cols : list (list Z * list (list Z))) (r : list field) := zip_with push_field cols ((λ f, (cell_of f, string_of f)) <$> r).
Lemma tpch_rows_ok schema rows fuel n cols : (2 <= length schema <= 16)%nat → Forall (row_ok schema) rows → (length (print_rows rows) <= fuel)%nat →
  tpch_rows xxh3_64 parse_f64 fuel schema (print_rows rows) n cols = Ok (n + length rows, foldl push_row cols rows)%nat.
Proof.
  intros Hs Hr. revert fuel n cols. induction Hr as [|r rows Hr _ IH]; intros fuel n cols Hf.
  - cbn. rewrite Nat.add_0_r. by destruct fuel.
  - destruct (row_line schema r Hr Hs) as (H10 & H13 & Hne & Hfs & Hps). rewrite print_rows_cons in Hf |- *.
    rewrite length_app in Hf. cbn [length] in Hf. destruct fuel as [|fuel]; [lia|]. cbn [tpch_rows].
    destruct (print_row r ++ 10 :: print_rows rows) as [|b bs] eqn:E; [by destruct (print_row r)|]. rewrite <- E, read_until_line by done.
    cbv zeta. rewrite drop_end_line, bool_decide_false by done. rewrite Hfs, length_fmap, <- (Forall2_length Hr), Nat.eqb_refl. cbn [negb]. rewrite Hps. cbn [mbind result_bind].
    rewrite IH by lia. cbn [foldl length]. f_equal. f_equal. lia.
Qed.
(** The fields of a column, and the column they become. *)
Definition column_of (i : nat) (rows : list (list field)) : list field := omap (λ r, r !! i) rows.
Definition loaded_column (rows : list (list field)) (i : nat) (c : text * TpchType) : LoadedColumn :=
  tpch_column c (cell_of <$> column_of i rows, omap string_of (column_of i rows)).
Lemma push_rows_lookup rows cols i cs ss : Forall (λ r, length r = length cols) rows → cols !! i = Some (cs, ss) →
  foldl push_row cols rows !! i = Some (cs ++ (cell_of <$> column_of i rows), ss ++ omap string_of (column_of i rows)).
Proof.
  revert cols cs ss. induction rows as [|r rows IH]; intros cols cs ss Hl Hi; [cbn; by rewrite !app_nil_r|]. inversion Hl as [|?? H1 H2]; subst.
  destruct (lookup_lt_is_Some_2 r i) as [f Hf]; [rewrite H1; by eapply lookup_lt_Some|]. cbn [foldl].
  rewrite (IH (push_row cols r) (cs ++ [cell_of f]) (ss ++ option_list (string_of f))).
  - unfold column_of. cbn. rewrite Hf. cbn. rewrite <- !app_assoc. do 3 f_equal. by destruct (string_of f).
  - eapply List.Forall_impl; [|exact H2]. intros r' Hr'. unfold push_row. rewrite length_zip_with, length_fmap, H1. cbn in Hr'. lia.
  - unfold push_row. by rewrite lookup_zip_with, Hi, list_lookup_fmap, Hf.
Qed.

(** reading back TPC-H files.  Any table of rows that fit the schema (64-bit integers, floats, dates
    of the Gregorian calendar, strings with or without quotes), written with a header line and one
    line per row, is read back completely: every cell is the integer, the bits of the
    float, the number of days since 1970 or the hash of the string, in order, and the strings are kept. *)
Lemma read_tpch_ok table schema header rows : tpch_schema table = Some schema → 10 ∉ header → Forall (row_ok schema) rows →
  read_tpch_csv xxh3_64 parse_f64 (Some (header ++ 10 :: print_rows rows)) table = Ok (mkLT table (imap (loaded_column rows) schema) (length rows)).
Proof.
  intros Hs Hh Hr. unfold read_tpch_csv. rewrite Hs. cbn [ok_or mbind result_bind]. rewrite bool_decide_false by (by destruct header). rewrite read_until_line by done.
  rewrite tpch_rows_ok by (done || by eapply schema_size). cbn [mbind result_bind Nat.add]. do 2 f_equal. apply list_eq. intros i.
  rewrite lookup_zip_with, list_lookup_imap. destruct (schema !! i) as [c|] eqn:Ec; [|done]. cbn. pose proof (lookup_lt_Some _ _ _ Ec) as Hi.
  rewrite (push_rows_lookup rows (replicate (length schema) ([], [])) i [] []); [done| |by apply lookup_replicate_2].
  eapply List.Forall_impl; [|exact Hr]. intros r Hrow. rewrite length_replicate. symmetry. by eapply Forall2_length.
Qed.
End fields.

(** A row of lineitem, which fills the sixteen places, may have more fields: they are not looked at. *)
Lemma fields_full cur line : fields 0 cur line = [].
Proof. revert cur. induction line as [|b line IH]; intros cur; [done|]. cbn. by destruct (Z.eqb b 124). Qed.
Lemma extra_fields_dropped n p ps line : Forall (λ q, 124 ∉ q) (p :: ps) → n = length (p :: ps) → fields n [] (join 124 (p :: ps) ++ 124 :: line) = p :: ps.
Proof.
  revert n p. induction ps as [|q ps IH]; intros n p Hp ->; inversion Hp as [|?? H1 H2]; subst.
  - cbn [join]. rewrite fields_text by done. cbn [fields app Z.eqb Pos.eqb length]. by rewrite fields_full.
  - change (join 124 (p :: q :: ps)) with (p ++ 124 :: join 124 (q :: ps)). rewrite <- app_assoc, fields_text by done. cbn [fields app Z.eqb Pos.eqb length].
    f_equal. by apply IH.
Qed.

(** ** Comma-separated files *)
Section plain_csv.
Context (xxh3_64 : list Z → Z).
Definition value_ok (s : text) : Prop := Forall PgwireM.scalar s ∧ (44 ∉ s) ∧ (10 ∉ s) ∧ (13 ∉ s).
Definition csv_text (rows : list (list text)) : text := concat ((λ r, join 44 r ++ [10]) <$> rows).
(** A column of values, all of them integers or all of them hashed. *)
Definition csv_loaded (rows : list (list text)) (i : nat) (name : text) : LoadedColumn :=
  let vs := omap (λ r, r !! i) rows in
  match mapM parse_i64 vs with
  | Some ints => mkLC name (wrap_u 64 <$> ints) None None
  | None => mkLC name ((λ v, xxh3_64 (as_bytes v)) <$> vs) (Some (StringColumnM.new (as_bytes <$> vs))) None
  end.

Lemma split_on_join p ps : Forall (λ q, 44 ∉ q) (p :: ps) → split_on 44 (join 44 (p :: ps)) = p :: ps.
Proof.
  assert (Hone : ∀ q, 44 ∉ q → split_on 44 q = [q]).
  { induction q as [|x q IH]; intros H; [done|]. cbn. rewrite (proj2 (Z.eqb_neq _ _)) by set_solver. by rewrite IH by set_solver. }
  assert (Happ : ∀ q r, 44 ∉ q → split_on 44 (q ++ 44 :: r) = q :: split_on 44 r).
  { induction q as [|x q IH]; intros r H; [done|]. cbn. rewrite (proj2 (Z.eqb_neq _ _)) by set_solver. by rewrite IH by set_solver. }
  revert p. induction ps as [|q ps IH]; intros p H; inversion H as [|?? H1 H2]; subst; [by apply Hone|].
  change (join 44 (p :: q :: ps)) with (p ++ 44 :: join 44 (q :: ps)). by rewrite Happ, IH.
Qed.
Lemma trim_end_same s : list.last s ≠ Some 13 → trim_end 13 s = s.
Proof.
  intros H. unfold trim_end. destruct s as [|c s] using rev_ind; [done|]. rewrite last_snoc in H. rewrite reverse_snoc. cbn [drop_while].
  rewrite (proj2 (Z.eqb_neq _ _)) by congruence. by rewrite <- reverse_snoc, reverse_involutive.
Qed.
Lemma not_ends_cr s : list.last s ≠ Some 13 → RecoveryM.ends_cr s = false.
Proof.
  intros H. unfold RecoveryM.ends_cr. destruct s as [|c s] using rev_ind; [done|]. rewrite last_snoc in H. rewrite reverse_snoc. apply Z.eqb_neq. unfold RecoveryM.CR. congruence.
Qed.
Lemma data_lines_text ls : Forall (λ l, (10 ∉ l) ∧ list.last l ≠ Some 13 ∧ l ≠ []) ls → data_lines (concat ((λ l, l ++ [10]) <$> ls)) = ls.
Proof.
  intros H. unfold data_lines. assert (lines (concat ((λ l, l ++ [10]) <$> ls)) = ls) as ->.
  { induction H as [|l ls (H10 & H13 & _) _ IH]; [done|]. cbn. rewrite <- app_assoc. cbn [app]. etransitivity; [apply (RecoveryM.lines_cons id Some (λ _, None) l); [done|by apply not_ends_cr]|by rewrite IH]. }
  induction H as [|l ls (_ & H13 & Hne) _ IH]; [done|]. cbn [fmap list_fmap]. rewrite trim_end_same, filter_cons_True by done. f_equal. exact IH.
Qed.
Lemma split_rows_ok ncols k rows : (0 < ncols)%nat → Forall (λ r, length r = ncols ∧ Forall (λ q, 44 ∉ q) r) rows → split_rows ncols k (join 44 <$> rows) = Ok rows.
Proof.
  intros Hn H. revert k. induction H as [|r rows [Hl Hr] _ IH]; intros k; [done|]. cbn [fmap list_fmap split_rows]. destruct r as [|p ps]; [cbn in Hl; lia|].
  rewrite split_on_join, Hl, Nat.eqb_refl, IH by done. done.
Qed.
Lemma column_values_ok i rows : Forall (λ r : list text, (i < length r)%nat) rows → column_values i rows = Ok (omap (λ r, r !! i) rows).
Proof.
  unfold column_values. induction 1 as [|r rows Hi _ IH]; [done|]. destruct (lookup_lt_is_Some_2 r i Hi) as [v Hv]. cbn. rewrite Hv. cbn. by rewrite IH.
Qed.
Lemma csv_columns_ok names k rows : Forall (λ r, length r = (k + length names)%nat) rows → csv_columns xxh3_64 names k rows = Ok (imap (λ i, csv_loaded rows (k + i)) names).
Proof.
  revert k. induction names as [|n names IH]; intros k H; [done|]. cbn [csv_columns]. unfold csv_column.
  rewrite column_values_ok by (eapply List.Forall_impl; [|exact H]; intros r ->; cbn; lia). cbn [mbind result_bind].
  rewrite IH by (eapply List.Forall_impl; [|exact H]; intros r ->; cbn; lia). cbn. rewrite Nat.add_0_r. do 2 f_equal. apply imap_ext. intros i x _. cbn. f_equal. lia.
Qed.

Lemma rows_text rows : Forall (λ r, join 44 r ≠ [] ∧ Forall value_ok r) rows →
  Forall (λ l, (10 ∉ l) ∧ list.last l ≠ Some 13 ∧ l ≠ []) (join 44 <$> rows) ∧ Forall PgwireM.scalar (csv_text rows).
Proof.
  assert (Hsc : ∀ r, Forall value_ok r → Forall PgwireM.scalar (join 44 r)).
  { induction r as [|p [|q r] IH]; intros H; [done|by inversion H as [|?? [? _] _]|]. inversion H as [|?? [Hp _] Hr]; subst.
    change (join 44 (p :: q :: r)) with (p ++ 44 :: join 44 (q :: r)). apply Forall_app. split; [done|]. constructor; [unfold PgwireM.scalar; lia|auto]. }
  induction 1 as [|r rows [Hne Hr] _ [IH1 IH2]]; [done|]. split.
  - constructor; [|done]. destruct r as [|p ps]; [done|]. split_and!; [apply join_bytes; [done|]|apply join_last; [done|]|done];
      (eapply List.Forall_impl; [|exact Hr]); intros v (_ & _ & H10 & H13); [done|]. intros Hlast%list.last_Some_elem_of. done.
  - unfold csv_text. cbn. apply Forall_app. split; [|done]. apply Forall_app. split; [by apply Hsc|]. repeat constructor. unfold PgwireM.scalar. lia.
Qed.

(** reading back comma-separated files.  A header and rows of as many values, without commas and
    line ends, are read back completely, in order; a column whose values are all integers holds them, any
    other column the hashes of its values and their texts. *)
Theorem csv_roundtrip path names rows : names ≠ [] → Forall (λ r, length r = length names) rows → Forall (λ r, join 44 r ≠ [] ∧ Forall value_ok r) (names :: rows) →
  read_csv xxh3_64 path (Some (as_bytes (csv_text (names :: rows)))) true = Ok (mkLT (name_from_path path) (imap (csv_loaded rows) names) (length rows)).
Proof.
  intros Hn Hl Hv. unfold read_csv. cbn [ok_or mbind result_bind].
  assert (Hlines : Forall (λ l, (10 ∉ l) ∧ list.last l ≠ Some 13 ∧ l ≠ []) (join 44 <$> names :: rows) ∧ Forall PgwireM.scalar (csv_text (names :: rows))) by (by apply rows_text).
  rewrite PgwireM.from_utf8_as_bytes by apply Hlines. cbn [ok_or mbind result_bind]. unfold csv_text.
  rewrite (list_fmap_compose (join 44) (λ l, l ++ [10])), data_lines_text by apply Hlines. cbn [fmap list_fmap].
  destruct names as [|n names]; [done|]. inversion Hv as [|?? [_ Hv1] Hv2]; subst.
  rewrite split_on_join by (eapply List.Forall_impl; [|exact Hv1]; by intros ? (_ & ? & _)). rewrite bool_decide_false by done.
  rewrite split_rows_ok; [|cbn; lia|]. 2: { apply Forall_forall. intros r Hr. rewrite list.Forall_forall in Hl, Hv2. apply list_elem_of_In in Hr. split; [by apply Hl|]. destruct (Hv2 r Hr) as [_ Hr'].
    eapply List.Forall_impl; [|exact Hr']. by intros ? (_ & ? & _). }
  cbn [mbind result_bind]. by rewrite csv_columns_ok.
Qed.
(** One empty value, which is no integer, turns the whole column into hashes. *)
Lemma empty_value_hashed rows i name : [] ∈ omap (λ r : list text, r !! i) rows → CatalogM.string_search (csv_loaded rows i name) = Some (StringColumnM.new (as_bytes <$> omap (λ r, r !! i) rows)).
Proof.
  intros H. unfold csv_loaded. destruct (mapM parse_i64 _) as [ints|] eqn:E; [|done]. exfalso. apply mapM_Some in E.
  apply list_elem_of_lookup in H as [k Hk]. eapply Forall2_lookup_l in E as (n & _ & Hn); [|exact Hk]. done.
Qed.
End plain_csv.
(** A column of integers and a column of names. *)
Lemma csv_roundtrip_witness :
  read_csv (λ s, Z.of_nat (length s)) (K "/data/t.v1.csv") (Some (as_bytes (csv_text [[K "id"; K "name"]; [K "-2"; K "x"]; [K "7"; []]]))) true =
    Ok (mkLT (K "t.v1") [mkLC (K "id") [2 ^ 64 - 2; 7] None None; mkLC (K "name") [1; 0] (Some (StringColumnM.new [K "x"; []])) None] 2).
Proof.
  rewrite (csv_roundtrip _ (K "/data/t.v1.csv") [K "id"; K "name"] [[K "-2"; K "x"]; [K "7"; []]]); [by vm_compute|done|by repeat constructor|].
  repeat constructor; try done; apply (bool_decide_unpack _); by vm_compute.
Defined.
End CsvM.
