(* ===== verification/TpchTable.v ===== *)
(** * Tables of the TPC-H interpreter (ExecTable of src/src/engine/tpch.rs)

    How a table of the catalog becomes one the interpreter evaluates conditions on, and the
    way from a file to the values of its rows. *)

From Stdlib Require Import ZArith Lia Ascii String Floats.SpecFloat.
From stdpp Require Import prelude list numbers gmap.
From S2P Require Import Prelude Bits Bitmap Nulls Catalog DateTime StringColumn Lexer Parser Vectorized Dispatch ExprEval Pgwire Tpch TpchEval TpchWhere Csv.
Local Open Scope Z_scope.

Module TpchTableM.
Import LexerM (text).
Import ParserM (K, text_eqb).
Import VectorizedM (as_bytes).
Import TpchM TpchEvalM TpchWhereM CsvM.

Abbreviation Table := (CatalogM.Table StringColumnM.StringSearchColumn ExprEvalM.TableSchema).

Definition col_type_of (t : TpchType) : ColType := match t with Int64 => TInt | Float64 => TFloat | Date => TDate | Str => TString end.
Definition tpch_col_types (table_name : text) : list ColType := (λ c, col_type_of c.2) <$> default [] (tpch_schema table_name).
(** The type of a column of any other table, by its declaration. *)
Definition schema_col_type (schema : option ExprEvalM.TableSchema) (i : nat) : ColType :=
  match schema with
  | Some s =>
    if ExprEvalM.is_float s i then TFloat else if ExprEvalM.is_string s i then TString
    else match ExprEvalM.col_type_at s i with Some (ExprEvalM.TDate | ExprEvalM.TTimestamp) => TDate | _ => TInt end
  | None => TInt
  end.

Section tables.
Context {S0 : Std}.
(** [entry(k).or_insert(i)]. *)
Definition or_insert (k : text) (i : nat) (m : gmap text nat) : gmap text nat := match m !! k with Some _ => m | None => <[k := i]> m end.
Definition add_column (alias name : text) (m : gmap text nat) (i : nat) (column : text) : gmap text nat :=
  let lower := to_lowercase column in
  let m := or_insert lower i m in
  let m := or_insert (to_lowercase alias ++ 46 :: lower) i m in
  if bool_decide (alias = name) then m else or_insert (to_lowercase name ++ 46 :: lower) i m.
Fixpoint add_columns (alias name : text) (m : gmap text nat) (i : nat) (names : list text) : gmap text nat :=
  match names with [] => m | c :: names => add_columns alias name (add_column alias name m i c) (S i) names end.
Definition from_catalog (t : Table) (alias : text) : ExecTable :=
  let types := tpch_col_types (CatalogM.name t) in
  mkExec (CatalogM.columns t) (CatalogM.column_names t)
    (if bool_decide (types = []) then schema_col_type (CatalogM.schema t) <$> seq 0 (length (CatalogM.column_names t)) else types)
    (CatalogM.string_columns t) (CatalogM.row_count t) (add_columns alias (CatalogM.name t) ∅ 0 (CatalogM.column_names t)).

(** ** Names *)
Lemma or_insert_lookup k i m k' : or_insert k i m !! k' = match m !! k' with Some j => Some j | None => if bool_decide (k = k') then Some i else None end.
Proof.
  unfold or_insert. destruct (m !! k) as [j|] eqn:E; case_bool_decide as Hk; subst.
  - by rewrite E.
  - by destruct (m !! k').
  - by rewrite E, lookup_insert_eq.
  - rewrite lookup_insert_ne by done. by destruct (m !! k').
Qed.
Lemma dotted_ne (a b k : text) : 46 ∉ k → bool_decide (a ++ 46 :: b = k) = false.
Proof. intros H. apply bool_decide_eq_false. intros <-. set_solver. Qed.
Lemma add_column_plain alias name m i c k : 46 ∉ k →
  add_column alias name m i c !! k = match m !! k with Some j => Some j | None => if bool_decide (to_lowercase c = k) then Some i else None end.
Proof.
  intros Hk. unfold add_column. case_bool_decide; rewrite !or_insert_lookup, ?dotted_ne by done; destruct (m !! k); try done; by case_bool_decide.
Qed.
(** The first column of a name, unless the name is taken. *)
Lemma add_columns_plain alias name names m i k : 46 ∉ k → m !! k = None →
  add_columns alias name m i names !! k = (λ j, (i + j)%nat) <$> CatalogM.position (λ c, bool_decide (to_lowercase c = k)) names.
Proof.
  intros Hk. revert m i. induction names as [|c names IH]; intros m i Hm; [done|]. cbn [add_columns CatalogM.position].
  pose proof (add_column_plain alias name m i c k Hk) as Hc. rewrite Hm in Hc. case_bool_decide.
  - cbn. rewrite Nat.add_0_r. generalize (S i). revert Hc. generalize (add_column alias name m i c). clear IH Hm. induction names as [|c' names IH]; intros m' Hm' j; [done|].
    cbn [add_columns]. apply IH. rewrite add_column_plain by done. by rewrite Hm'.
  - rewrite IH by done. by destruct (CatalogM.position _ names); cbn; [f_equal; lia|].
Qed.
Lemma add_columns_bound alias name names m i n : (∀ k j, m !! k = Some j → (j < n)%nat) → (i + length names <= n)%nat →
  ∀ k j, add_columns alias name m i names !! k = Some j → (j < n)%nat.
Proof.
  revert m i. induction names as [|c names IH]; intros m i Hm Hi k j; [apply Hm|]. cbn [add_columns length] in *. apply IH; [|lia]. clear IH. intros k' j'.
  assert (Hor : ∀ key m', (∀ k j, m' !! k = Some j → (j < n)%nat) → ∀ k j, or_insert key i m' !! k = Some j → (j < n)%nat).
  { intros key m' Hm' k0 j0. rewrite or_insert_lookup. destruct (m' !! k0) eqn:E; [intros [= ->]; by eapply Hm'|]. case_bool_decide; [|done]. intros [= <-]. lia. }
  unfold add_column. case_bool_decide; revert k' j'; repeat apply Hor; exact Hm.
Qed.
End tables.
Lemma position_nodup (f : text → text) (l : list text) k x : NoDup l → (∀ c, c ∈ l → f c = c) → l !! k = Some x → CatalogM.position (λ c, bool_decide (f c = x)) l = Some k.
Proof.
  intros Hd. revert k. induction Hd as [|c l Hc _ IH]; intros k Hf Hk; [done|]. cbn [CatalogM.position]. rewrite (Hf c) by set_solver. destruct k as [|k]; cbn in Hk.
  - injection Hk as ->. by rewrite bool_decide_true.
  - rewrite bool_decide_false by (intros ->; by apply Hc, list_elem_of_lookup_2 with k). rewrite (IH k); [done| |done]. intros c' Hc'. apply Hf. set_solver.
Qed.

(** ** From a file to rows *)
Section files.
Context {S0 : Std} {Q0 : Enclosing} (read_f64 : text → option Z).
Context (Hhash : ∀ s, in_u 64 (xxh3_64 s)) (Hfloat : ∀ s b, read_f64 s = Some b → in_u 64 b).

(** The value a field was written for. *)
Definition field_value (f : field) : Value2 :=
  match f with
  | FInt i => VInt i
  | FFloat s => VFloat (BitmapM.f64_from_bits (default 0 (read_f64 s)))
  | FDate y m d => VDate (civil_days y m d)
  | FStr _ s => VStr (as_bytes s)
  end.
Definition file_table (table : text) (schema : list (text * TpchType)) (rows : list (list field)) : LoadedTable :=
  CatalogM.mkLT table (imap (loaded_column xxh3_64 read_f64 rows) schema) (length rows).

Lemma column_fields schema rows k c : Forall (row_ok read_f64 schema) rows → schema !! k = Some c →
  Forall (λ f, type_of f = c.2 ∧ field_ok read_f64 f) (column_of k rows) ∧ length (column_of k rows) = length rows ∧ ∀ i r, rows !! i = Some r → column_of k rows !! i = r !! k.
Proof using.
  intros Hr Hk. induction Hr as [|r rows Hr _ (IH1 & IH2 & IH3)]; [done|]. unfold column_of in *. cbn.
  destruct (Forall2_lookup_l _ _ _ _ _ Hr Hk) as (f & Hf & Ht). rewrite Hf. cbn. split_and!; [by constructor|lia|].
  intros [|i] r'; cbn; [intros [= <-]; done|apply IH3].
Qed.
Lemma string_fields fs : Forall (λ f, type_of f = Str) fs → cell_of xxh3_64 read_f64 <$> fs = xxh3_64 <$> omap string_of fs ∧ length (omap string_of fs) = length fs ∧
  ∀ i f, fs !! i = Some f → omap string_of fs !! i = string_of f.
Proof using.
  induction 1 as [|f fs Hf _ (IH1 & IH2 & IH3)]; [done|]. destruct f; try done. cbn. rewrite IH1. split_and!; [done|lia|].
  intros [|i] f; cbn; [by intros [= <-]|apply IH3].
Qed.
Lemma other_fields fs t : t ≠ Str → Forall (λ f, type_of f = t) fs → omap string_of fs = [].
Proof using. intros Ht. induction 1 as [|f fs Hf _ IH]; [done|]. destruct f; cbn in *; congruence. Qed.
Lemma min_len_same n cs : cs ≠ [] → Forall (λ c, length c = n) cs → CatalogM.min_len cs = n.
Proof using.
  intros Hne H. destruct cs as [|c cs]; [done|]. inversion H as [|?? H1 H2]; subst. unfold CatalogM.min_len. clear H Hne. induction H2 as [|c' cs Hc _ IH]; [done|].
  cbn [fold_left]. by rewrite Hc, Nat.min_id.
Qed.
Lemma civil_small y m d : valid_date y m d → - 2 ^ 31 <= civil_days y m d < 2 ^ 31.
Proof using.
  intros H. rewrite <- days_from_civil_ok by done. unfold days_from_civil. cbv zeta.
  match goal with |- _ <= as_signed 32 ?z < _ => generalize z end. intros z. unfold as_signed. change (2 ^ (32 - 1)) with (2 ^ 31). pose proof (Z.mod_pos_bound z (2 ^ 32)).
  destruct (Z.ltb_spec (z mod 2 ^ 32) (2 ^ 31)); lia.
Qed.
Lemma date_cell d : - 2 ^ 31 <= d < 2 ^ 31 → as_signed 32 (wrap_u 64 d) = d.
Proof using.
  intros Hd. rewrite <- (as_signed_wrap 32 d) at 2 by lia. unfold as_signed, wrap_u. rewrite Z.mod_mod by lia.
  assert ((d mod 2 ^ 64) mod 2 ^ 32 = d mod 2 ^ 32) as -> by (apply Z.mod_mod_divide; by exists (2 ^ 32)). done.
Qed.

Section table.
Context (table alias : text) (schema : list (text * TpchType)) (rows : list (list field)).
Context (Hschema : tpch_schema table = Some schema) (Hrows : Forall (row_ok read_f64 schema) rows).
Abbreviation t := (from_catalog (CatalogM.from_loaded (file_table table schema rows)) alias).

Lemma table_columns k c : schema !! k = Some c → columns t !! k = Some (cell_of xxh3_64 read_f64 <$> column_of k rows) ∧ col_types t !! k = Some (col_type_of c.2) ∧
  string_columns t !! k = Some (match omap string_of (column_of k rows) with [] => None | ss => Some (StringColumnM.new ss) end).
Proof using Hschema.
  clear Hrows. intros Hk. cbn. unfold tpch_col_types. rewrite Hschema. cbn. rewrite bool_decide_false by (by destruct schema).
  rewrite !list_lookup_fmap, !list_lookup_imap, Hk. done.
Qed.
Lemma table_sizes : row_count t = length rows ∧ length (columns t) = length schema ∧ length (col_types t) = length schema ∧ length (string_columns t) = length schema.
Proof using Hschema Hrows.
  pose proof (schema_size _ _ Hschema) as Hs. cbn. rewrite !length_fmap, !length_imap. split_and!; [|done| |done].
  - rewrite (min_len_same (length rows)); [lia| |].
    + destruct schema; [cbn in Hs; lia|done].
    + apply Forall_forall. intros c Hc. apply list_elem_of_lookup in Hc as [k Hk]. rewrite list_lookup_fmap, list_lookup_imap in Hk.
      destruct (schema !! k) as [x|] eqn:Ex; [|done]. cbn in Hk. injection Hk as <-. rewrite length_fmap. by apply (column_fields schema rows k x).
  - unfold tpch_col_types. rewrite Hschema. cbn. rewrite bool_decide_false by (destruct schema; [cbn in Hs; lia|done]). by rewrite length_fmap.
Qed.
Lemma exec_table_ok : exec_ok t.
Proof using All.
  destruct table_sizes as (Hn & Hc & Hty & Hst).
  assert (Hlook : ∀ k, (k < length schema)%nat → ∃ c, schema !! k = Some c) by (intros k Hk; by apply lookup_lt_is_Some_2). split; rewrite ?Hn, ?Hc; [| |done|..]; try done.
  - apply Forall_forall. intros col Hcol. apply list_elem_of_lookup in Hcol as [k Hk].
    destruct (Hlook k) as [c Ec]; [rewrite <- Hc; by eapply lookup_lt_Some|]. destruct (table_columns k c Ec) as (E1 & _). rewrite E1 in Hk. injection Hk as <-.
    destruct (column_fields schema rows k c Hrows Ec) as (Hf & Hl & _). rewrite length_fmap. split; [done|]. apply Forall_fmap. eapply List.Forall_impl; [|exact Hf].
    intros f [_ Hok]. destruct f; cbn in *; [apply in_u_wrap; lia| |apply in_u_wrap; lia|apply Hhash]. destruct Hok as [[b Hb] _]. rewrite Hb. by eapply Hfloat.
  - intros name i. apply add_columns_bound; [done|]. cbn. by rewrite length_fmap, length_imap.
  - intros k sc Hk. destruct (Hlook k) as [c Ec]; [rewrite <- Hst; by eapply lookup_lt_Some|]. destruct (table_columns k c Ec) as (_ & _ & E). rewrite E in Hk.
    destruct (column_fields schema rows k c Hrows Ec) as (Hf & Hl & _). destruct (decide (c.2 = Str)) as [Hs|Hs].
    + destruct (string_fields (column_of k rows)) as (_ & Hlen & _); [eapply List.Forall_impl; [|exact Hf]; intros f [? _]; congruence|].
      destruct (omap string_of (column_of k rows)) eqn:Eo; [done|]. injection Hk as <-. eexists. split; [done|]. rewrite Hlen. done.
    + rewrite (other_fields _ c.2 Hs) in Hk; [done|]. eapply List.Forall_impl; [|exact Hf]. by intros f [? _].
Qed.
Lemma file_cell k c i r f : schema !! k = Some c → rows !! i = Some r → r !! k = Some f → cell_value t k i = Ok (field_value f).
Proof using Hschema Hrows.
  intros Hk Hi Hf. destruct (table_columns k c Hk) as (E1 & E2 & E3). destruct (column_fields schema rows k c Hrows Hk) as (Hfs & Hl & Hrow).
  pose proof (Hrow i r Hi) as Hcell. rewrite Hf in Hcell. pose proof (proj1 (list.Forall_forall _ _) Hfs f (list_elem_of_lookup_2 _ _ _ Hcell)) as [Hty Hok].
  destruct (decide (c.2 = Str)) as [Hs|Hs].
  - destruct (string_fields (column_of k rows)) as (Hx & Hlen & Hstr); [eapply List.Forall_impl; [|exact Hfs]; intros g [? _]; congruence|].
    pose proof (Hstr i f Hcell) as Hs'. destruct f as [| | |q s]; try (cbn in Hty; congruence). apply (cell_string t k (omap string_of (column_of k rows)) i); [|by rewrite E2, Hs|done].
    split; [|by rewrite E1, Hx]. rewrite E3. by destruct (omap string_of (column_of k rows)).
  - rewrite (cell_plain t k i _ (col_type_of c.2) (cell_of xxh3_64 read_f64 f) E1 E2); [|by rewrite list_lookup_fmap, Hcell|by destruct c as [? []]].
    destruct f as [z|s|y m d|q s]; cbn in Hty; rewrite <- Hty; cbn [col_type_of cell_of field_value plain_value field_ok] in *.
    + by rewrite as_signed_wrap by lia.
    + done.
    + rewrite date_cell by (by apply civil_small). done.
    + congruence.
Qed.
Lemma schema_names : NoDup schema.*1 ∧ Forall (λ n, 46 ∉ n) schema.*1.
Proof using Hschema.
  clear Hrows. revert Hschema. unfold tpch_schema. repeat (destruct (text_eqb table _); [intros [= <-]; split; apply (bool_decide_unpack _); by vm_compute|]). done.
Qed.
Lemma file_column k n ty : (∀ c, c ∈ schema.*1 → to_lowercase c = c) → schema !! k = Some (n, ty) → lookup_col t n = Some k.
Proof using Hschema.
  intros Hlow Hk. destruct schema_names as [Hd Hdot]. assert (Hn : schema.*1 !! k = Some n) by (by rewrite list_lookup_fmap, Hk).
  assert (Hnames : CatalogM.lc_name <$> imap (loaded_column xxh3_64 read_f64 rows) schema = schema.*1).
  { apply list_eq. intros j. rewrite !list_lookup_fmap, list_lookup_imap. by destruct (schema !! j). }
  rewrite list.Forall_forall in Hdot. unfold lookup_col. cbn. rewrite Hnames, add_columns_plain; [|apply Hdot; by eapply list_elem_of_lookup_2|done].
  by rewrite (position_nodup _ _ k n Hd Hlow Hn).
Qed.
End table.
End files.

(** C30: from a file to a condition.  A TPC-H file written from rows that fit the schema loads without an
    error; the table the interpreter makes of it, under any alias, is well formed, and the name of a column
    evaluates on every row to the value written in the file: the integer, the float, the days to the date, the string. *)
Theorem file_to_rows (S0 : Std) (Q0 : Enclosing) read_f64 table alias schema header rows :
  (∀ s, in_u 64 (xxh3_64 s)) → (∀ s b, read_f64 s = Some b → in_u 64 b) → (∀ c, c ∈ schema.*1 → to_lowercase c = c) →
  tpch_schema table = Some schema → 10 ∉ header → Forall (row_ok read_f64 schema) rows →
  ∃ lt, read_tpch_csv xxh3_64 read_f64 (Some (header ++ 10 :: print_rows rows)) table = Ok lt ∧
    let t := from_catalog (CatalogM.from_loaded lt) alias in
    exec_ok t ∧ row_count t = length rows ∧
    ∀ k n ty i r f, schema !! k = Some (n, ty) → rows !! i = Some r → r !! k = Some f → eval (Col n) t i = Ok (field_value read_f64 f).
Proof.
  intros Hhash Hfloat Hlow Hs Hh Hr. exists (file_table read_f64 table schema rows). split; [by apply read_tpch_ok|]. cbv zeta.
  split_and!; [by apply exec_table_ok|by apply table_sizes|]. intros k n ty i r f Hk Hi Hf.
  rewrite (eval_column n _ k i) by (by eapply file_column). by eapply file_cell.
Qed.
(** One order, and its date. *)
#[local] Instance order_std : Std :=
  { to_lowercase := id; uni_upper c := [c]; xxh3_64 s := wrap_u 64 (Z.of_nat (length s)); float_bits _ := 0; parse_f64 _ := None; show_f64 _ := []; show_date d := [d]; to_ymd d := (d, 1, 1); avx := true }.
#[local] Instance order_query : Enclosing := { outer := None; sub _ _ _ := Err DispatchM.Panic; sub_in _ _ _ _ _ := Err DispatchM.Panic }.
Definition order_row : list field :=
  [FInt 1; FInt (-1); FStr true (K "O"); FFloat (K "1.5"); FDate 1996 1 2; FStr true (K "5-LOW"); FStr false (K "Clerk"); FInt 0; FStr false []].
Definition read_one (s : text) : option Z := if text_eqb s (K "1.5") then Some 0x3FF8000000000000 else None.
Lemma file_to_rows_witness : ∃ lt, read_tpch_csv xxh3_64 read_one (Some (K "header" ++ 10 :: print_rows [order_row])) (K "orders") = Ok lt ∧
  eval (Col (K "o_orderdate")) (from_catalog (CatalogM.from_loaded lt) (K "o")) 0 = Ok (VDate 9497).
Proof.
  destruct (file_to_rows order_std order_query read_one (K "orders") (K "o") (default [] (tpch_schema (K "orders"))) (K "header") [order_row]) as (lt & E & _ & _ & H).
  - intros s. apply in_u_wrap. lia.
  - intros s b. unfold read_one. destruct (text_eqb _ _); [|done]. intros [= <-]. by apply (bool_decide_unpack _).
  - done.
  - reflexivity.
  - apply (bool_decide_unpack _); by vm_compute.
  - repeat constructor; cbn; try done; try (apply (bool_decide_unpack _); by vm_compute).
  - exists lt. split; [exact E|]. exact (H 4%nat (K "o_orderdate") Date 0%nat order_row (FDate 1996 1 2) eq_refl eq_refl eq_refl).
Defined.
End TpchTableM.
