(* ===== verification/TpchJoin.v ===== *)
(** * Joins of the TPC-H interpreter (src/src/engine/tpch.rs)

    The join of an ON clause over a hash map, the join of the tables of FROM over the join
    hash table ([JoinHash]) behind a Bloom filter ([Bloom]), the cartesian product and the
    filters applied before a join.  Output rows are collected and turned into columns at
    the end; chunks of the probe side are joined in their order. *)

From Stdlib Require Import ZArith Lia Ascii String Floats.SpecFloat.
From stdpp Require Import prelude list numbers gmap.
From S2P Require Import Prelude Bits Bitmap StringColumn Bloom JoinHash Lexer Parser Vectorized Dispatch Where Tpch TpchEval TpchWhere Csv TpchTable.
Local Open Scope Z_scope.

Module TpchJoinM.
Import LexerM (text).
Import ParserM (K).
Import VectorizedM (as_bytes).
Import DispatchM (Fault (..), run, or_panic, mapM_run, get_str).
Import TpchM TpchEvalM TpchWhereM TpchTableM.

Record JoinKey2 := mkKey { key_left : nat; key_right : nat }.
#[global] Instance JoinKey2_eq_dec : EqDecision JoinKey2.
Proof. solve_decision. Defined.

Section joins.
Context {S0 : Std} {Q0 : Enclosing} (x86_64 : bool).

(** ** Keys *)
Definition equi_key (l r : Expr2) (left right : ExecTable) : list JoinKey2 :=
  match col_in l left, col_in r right with
  | Some lk, Some rk => [mkKey lk rk]
  | _, _ => match col_in l right, col_in r left with Some rk, Some lk => [mkKey lk rk] | _, _ => [] end
  end.
Fixpoint collect_keys (on : Expr2) (left right : ExecTable) : list JoinKey2 :=
  match on with
  | BinOp And l r => collect_keys l left right ++ collect_keys r left right
  | BinOp Eq l r => equi_key l r left right
  | _ => []
  end.
Definition extract_join_keys (on : Expr2) (left right : ExecTable) : list JoinKey2 := collect_keys on left right.
Fixpoint collect_conjuncts (e : Expr2) : list Expr2 := match e with BinOp And l r => collect_conjuncts l ++ collect_conjuncts r | _ => [e] end.
Definition split_conjuncts (where_clause : option Expr2) : list Expr2 := match where_clause with None => [] | Some e => collect_conjuncts e end.
Definition find_join_keys_direct (left right : ExecTable) (conjuncts : list Expr2) : list JoinKey2 :=
  concat ((λ c, match c with BinOp Eq l r => equi_key l r left right | _ => [] end) <$> conjuncts).
Fixpoint collect_or_branches (e : Expr2) : list Expr2 := match e with BinOp Or l r => collect_or_branches l ++ collect_or_branches r | _ => [e] end.
(** The keys of the first branch that all branches have. *)
Definition find_or_common_keys (or_expr : Expr2) (left right : ExecTable) : list JoinKey2 :=
  let branch_keys := (λ b, find_join_keys_direct left right (collect_conjuncts b)) <$> collect_or_branches or_expr in
  filter (λ k, Forall (λ bk, k ∈ bk) branch_keys) (default [] (head branch_keys)).
Definition find_join_keys (left right : ExecTable) (conjuncts : list Expr2) : list JoinKey2 :=
  concat ((λ c, match c with BinOp Eq l r => equi_key l r left right | BinOp Or _ _ => find_or_common_keys c left right | _ => [] end) <$> conjuncts).

(** ** Rows and columns *)
Definition row_at (t : ExecTable) (i : nat) : run (list Z) := mapM_run (λ c : list Z, or_panic (c !! i)) (columns t).
Definition cells_at (t : ExecTable) (cols : list nat) (i : nat) : run (list Z) :=
  mapM_run (λ k, c ← or_panic (columns t !! k); or_panic (c !! i)) cols.
Definition of_rows (ncol : nat) (rows : list (list Z)) : list (list Z) := (λ c, omap (λ r : list Z, r !! c) rows) <$> seq 0 ncol.
Fixpoint name_map (m : gmap text nat) (i : nat) (names : list text) : gmap text nat :=
  match names with [] => m | n :: names => name_map (or_insert (to_lowercase n) i m) (S i) names end.
(** The names of both sides; those of the right side are inserted last. *)
Definition join_map (left right : ExecTable) : gmap text nat :=
  ((λ v, (v + length (columns left))%nat) <$> col_map right) ∪ (col_map left ∪ name_map ∅ 0 (column_names left ++ column_names right)).
Definition join_table (left right : ExecTable) (rows : list (list Z)) : ExecTable :=
  let ncol := (length (columns left) + length (columns right))%nat in
  mkExec (of_rows ncol rows) (column_names left ++ column_names right) (col_types left ++ col_types right) (replicate ncol None) (length rows) (join_map left right).

(** The row count is that of the first column, none without columns. *)
Definition count_first (t : ExecTable) : ExecTable :=
  mkExec (columns t) (column_names t) (col_types t) (string_columns t) (match columns t with c :: _ => length c | [] => O end) (col_map t).

Definition cross_join (left right : ExecTable) : run ExecTable :=
  if Nat.eqb (row_count left) 0 || Nat.eqb (row_count right) 0 then
    Ok (mkExec (replicate (length (columns left) + length (columns right)) []) (column_names left ++ column_names right) (col_types left ++ col_types right)
         (string_columns left ++ string_columns right) 0 ∅)
  else
    rows ← mapM_run (λ p, lrow ← row_at left p.1; rrow ← row_at right p.2; Ok (lrow ++ rrow)) (list_prod (seq 0 (row_count left)) (seq 0 (row_count right)));
    Ok (join_table left right rows).

Definition filter_table (t : ExecTable) (indices : list nat) : run ExecTable :=
  cols ← mapM_run (λ c : list Z, mapM_run (λ i, or_panic (c !! i)) indices) (columns t);
  strings ← mapM_run (λ sc, match sc with
                            | Some sc => ss ← mapM_run (get_str sc) indices; Ok (Some (StringColumnM.new ss))
                            | None => Ok None
                            end) (string_columns t);
  Ok (mkExec cols (column_names t) (col_types t) strings (length indices) (col_map t)).

(** ** The join of an ON clause *)
Fixpoint expr_refs_table (e : Expr2) (t : ExecTable) : bool :=
  match e with
  | Col name => bool_decide (is_Some (lookup_col t name)) || bool_decide (is_Some (lookup_col t (default name (after_last_dot name))))
  | BinOp _ l r => expr_refs_table l t || expr_refs_table r t
  | Case2 whens else_ =>
    (fix any (ws : list (Expr2 * Expr2)) := match ws with [] => false | (c, r) :: ws => (expr_refs_table c t || expr_refs_table r t) || any ws end) whens ||
    match else_ with Some e => expr_refs_table e t | None => false end
  | Like e pattern _ => expr_refs_table e t || expr_refs_table pattern t
  | Between e low high _ => expr_refs_table e t || expr_refs_table low t || expr_refs_table high t
  | InList e l _ => expr_refs_table e t || (fix any (l : list Expr2) := match l with [] => false | x :: l => expr_refs_table x t || any l end) l
  | Neg e | Not e | Extract2 _ e => expr_refs_table e t
  | Substr e start len => expr_refs_table e t || expr_refs_table start t || expr_refs_table len t
  | _ => false
  end.
(** One row of both sides, with the strings of the right side. *)
Definition combined (left right : ExecTable) (l r : nat) : run ExecTable :=
  lrow ← row_at left l; rrow ← row_at right r;
  strings ← mapM_run (λ sc, match sc with
                            | Some sc => if Nat.ltb r (StringColumnM.len sc) then s ← get_str sc r; Ok (Some (StringColumnM.new [s])) else Ok None
                            | None => Ok None
                            end) (string_columns right);
  Ok (mkExec ((λ v, [v]) <$> lrow ++ rrow) (column_names left ++ column_names right) (col_types left ++ col_types right)
       (replicate (length (columns left)) None ++ strings) 1 (join_map left right)).
(** A conjunct of one table is evaluated there, any other on the combined row. *)
Definition eval_conjunct (c : Expr2) (left right : ExecTable) (l r : nat) : run Value2 :=
  if expr_refs_table c right && negb (expr_refs_table c left) then eval c right r
  else if expr_refs_table c left && negb (expr_refs_table c right) then eval c left l
  else t ← combined left right l r; eval c t 0.
Fixpoint eval_non_equi_match (non_equi : list Expr2) (left right : ExecTable) (l r : nat) : run bool :=
  match non_equi with
  | [] => Ok true
  | c :: non_equi =>
    v ← eval_conjunct c left right l r;
    if truthy v then eval_non_equi_match non_equi left right l r else Ok false
  end.
Definition is_col_eq (e : Expr2) : bool := match e with BinOp Eq (Col _) (Col _) => true | _ => false end.
Definition non_equi_of (on : Expr2) : list Expr2 := filter (λ c, is_col_eq c = false) (split_conjuncts (Some on)).

Definition add_row (m : gmap (list Z) (list nat)) (k : list Z) (row : nat) : gmap (list Z) (list nat) := <[k := default [] (m !! k) ++ [row]]> m.
Fixpoint build_rows (t : ExecTable) (cols : list nat) (rows : list nat) (m : gmap (list Z) (list nat)) : run (gmap (list Z) (list nat)) :=
  match rows with [] => Ok m | row :: rows => k ← cells_at t cols row; build_rows t cols rows (add_row m k row) end.
(** The rows a left row is joined with, those that fail the rest of the condition left out. *)
Fixpoint passing (non_equi : list Expr2) (left right : ExecTable) (l : nat) (lrow : run (list Z)) (matches : list nat) : run (list (list Z)) :=
  match matches with
  | [] => Ok []
  | r :: matches =>
    pass ← (if bool_decide (non_equi = []) then Ok true else eval_non_equi_match non_equi left right l r);
    if pass : bool then lv ← lrow; rv ← row_at right r; rows ← passing non_equi left right l lrow matches; Ok ((lv ++ rv) :: rows)
    else passing non_equi left right l lrow matches
  end.
Definition unmatched (jt : JoinType2) (left right : ExecTable) (l : nat) : run (list (list Z)) :=
  match jt with Left => lv ← row_at left l; Ok [lv ++ replicate (length (columns right)) 0] | Inner => Ok [] end.
Definition join_row (jt : JoinType2) (non_equi : list Expr2) (keys : list JoinKey2) (left right : ExecTable) (build : gmap (list Z) (list nat)) (l : nat) : run (list (list Z)) :=
  key ← cells_at left (key_left <$> keys) l;
  match default [] (build !! key) with
  | [] => unmatched jt left right l
  | matches => rows ← passing non_equi left right l (row_at left l) matches; if bool_decide (rows = []) then unmatched jt left right l else Ok rows
  end.
Definition hash_join (left right : ExecTable) (on : Expr2) (jt : JoinType2) : run ExecTable :=
  let keys := extract_join_keys on left right in
  if bool_decide (keys = []) then cross_join left right else
  build ← build_rows right (key_right <$> keys) (seq 0 (row_count right)) ∅;
  rows ← mapM_run (join_row jt (non_equi_of on) keys left right build) (seq 0 (row_count left));
  Ok (join_table left right (concat rows)).

(** ** The join of the tables of FROM *)
(** One column is its own key; several are hashed, the first eight of them. *)
Definition hash_key (cells : list Z) : Z := match cells with [v] => v | _ => xxh3_64 (concat (le_bytes 8 <$> take 8 cells)) end.
Fixpoint build_side (t : ExecTable) (cols : list nat) (rows : list nat) (h : JoinHashM.JoinHashTable) (b : BloomM.BloomFilter) : run (JoinHashM.JoinHashTable * BloomM.BloomFilter) :=
  match rows with
  | [] => Ok (h, b)
  | r :: rows =>
    cells ← cells_at t cols r;
    h ← or_panic (JoinHashM.insert x86_64 (hash_key cells) (wrap_u 32 (Z.of_nat r)) h);
    b ← or_panic (BloomM.insert x86_64 (hash_key cells) b);
    build_side t cols rows h b
  end.
Definition probe_row (jt : JoinType2) (swapped : bool) (cols : list nat) (left right : ExecTable) (h : JoinHashM.JoinHashTable) (b : BloomM.BloomFilter) (p : nat) : run (list (list Z)) :=
  let none := if swapped then Ok [] else unmatched jt left right p in
  cells ← cells_at (if swapped then right else left) cols p;
  maybe ← or_panic (BloomM.might_contain x86_64 b (hash_key cells));
  if negb maybe then none else
  matched ← or_panic (JoinHashM.probe_all x86_64 h (hash_key cells));
  match matched with
  | [] => none
  | _ =>
    pv ← row_at (if swapped then right else left) p;
    mapM_run (λ m, bv ← row_at (if swapped then left else right) (Z.to_nat m); Ok (if swapped then bv ++ pv else pv ++ bv)) matched
  end.
Definition CHUNK_SIZE : nat := Z.to_nat 65536.
Definition chunk_rows (n chunk : nat) : list nat := seq (chunk * CHUNK_SIZE) (Nat.min (chunk * CHUNK_SIZE + CHUNK_SIZE) n - chunk * CHUNK_SIZE).
Definition hash_join_with_keys (left right : ExecTable) (keys : list JoinKey2) (jt : JoinType2) : run ExecTable :=
  let swapped := match jt with Inner => Nat.ltb (row_count left) (row_count right) | Left => false end in
  let '(build, probe) := if swapped then (left, right) else (right, left) in
  let '(bk, pk) := if swapped then (key_left <$> keys, key_right <$> keys) else (key_right <$> keys, key_left <$> keys) in
  '(h, b) ← build_side build bk (seq 0 (row_count build)) (JoinHashM.new (row_count build)) (BloomM.new (row_count build));
  let num_chunks := ((row_count probe + CHUNK_SIZE - 1) / CHUNK_SIZE)%nat in
  parts ← mapM_run (λ chunk, rows ← mapM_run (probe_row jt swapped pk left right h b) (chunk_rows (row_count probe) chunk); Ok (concat rows)) (seq 0 num_chunks);
  Ok (count_first (join_table left right (concat parts))).
End joins.

(** ** Rows *)
Definition row_of (t : ExecTable) (i : nat) : list Z := omap (λ c : list Z, c !! i) (columns t).
Definition rows_of (t : ExecTable) : list (list Z) := row_of t <$> seq 0 (row_count t).
Definition key_of (t : ExecTable) (cols : list nat) (i : nat) : list Z := omap (λ k, c ← columns t !! k; c !! i) cols.
(** A table whose columns are named. *)
Definition table_ok (t : ExecTable) : Prop := exec_ok t ∧ length (column_names t) = length (columns t).
(** The reference: every left row with the right rows it goes with, in order; a left join
    keeps a row that goes with none, with zeros. *)
Definition joined (jt : JoinType2) (left right : ExecTable) (P : nat → nat → bool) (l : nat) : list (list Z) :=
  match filter (λ r, P l r = true) (seq 0 (row_count right)) with
  | [] => match jt with Left => [row_of left l ++ replicate (length (columns right)) 0] | Inner => [] end
  | ms => (λ r, row_of left l ++ row_of right r) <$> ms
  end.
Definition nested_join (jt : JoinType2) (left right : ExecTable) (P : nat → nat → bool) : list (list Z) :=
  concat (joined jt left right P <$> seq 0 (row_count left)).

Lemma omap_total {A B} (f : A → option B) (g : A → B) (l : list A) : (∀ x, x ∈ l → f x = Some (g x)) → omap f l = g <$> l.
Proof. induction l as [|x l IH]; intros H; [done|]. cbn. rewrite (H x) by set_solver. f_equal. apply IH. set_solver. Qed.
Lemma omap_seq (l : list Z) n : length l = n → omap (λ c, l !! c) (seq 0 n) = l.
Proof.
  intros Hn. rewrite (omap_total _ (λ c, default 0 (l !! c))).
  - apply list_eq. intros i. rewrite list_lookup_fmap. destruct (decide (i < n)%nat).
    + rewrite lookup_seq_lt by done. cbn. destruct (lookup_lt_is_Some_2 l i) as [x E]; [lia|]. by rewrite E.
    + rewrite lookup_seq_ge by lia. symmetry. apply lookup_ge_None_2. lia.
  - intros c [_ Hc]%elem_of_seq. destruct (lookup_lt_is_Some_2 l c) as [x E]; [lia|]. by rewrite E.
Qed.
(** Reading a row, and the cells of a key. *)
Lemma row_at_ok t i : exec_ok t → (i < row_count t)%nat → row_at t i = Ok (row_of t i) ∧ length (row_of t i) = length (columns t) ∧ Forall (in_u 64) (row_of t i).
Proof.
  intros Ht Hi. pose proof (ok_cells _ Ht) as Hc. rewrite list.Forall_forall in Hc.
  assert (Hx : ∀ c, c ∈ columns t → ∃ x, c !! i = Some x ∧ in_u 64 x).
  { intros c Hin. destruct (Hc c Hin) as [Hl Hf]. destruct (lookup_lt_is_Some_2 c i) as [x E]; [lia|]. exists x. split; [done|]. rewrite list.Forall_forall in Hf. apply Hf. by eapply list_elem_of_lookup_2. }
  assert (E : row_of t i = (λ c : list Z, default 0 (c !! i)) <$> columns t) by (apply omap_total; intros c Hin; by destruct (Hx c Hin) as (x & -> & _)).
  unfold row_at. rewrite (WhereM.mapM_run_ok _ (λ c : list Z, default 0 (c !! i))) by (intros c Hin; by destruct (Hx c Hin) as (x & -> & _)). rewrite E, length_fmap. split_and!; [done..|].
  apply Forall_fmap, Forall_forall. intros c Hin. destruct (Hx c) as (x & Ex & Hu); [done|]. cbn. by rewrite Ex.
Qed.
Lemma cells_at_ok t cols i : exec_ok t → (i < row_count t)%nat → Forall (λ k, (k < length (columns t))%nat) cols → cells_at t cols i = Ok (key_of t cols i).
Proof.
  intros Ht Hi Hk. rewrite list.Forall_forall in Hk. pose proof (ok_cells _ Ht) as Hc. rewrite list.Forall_forall in Hc.
  assert (Hx : ∀ k, k ∈ cols → ∃ c x, columns t !! k = Some c ∧ c !! i = Some x).
  { intros k Hin. destruct (lookup_lt_is_Some_2 (columns t) k) as [c E]; [by apply Hk|]. destruct (Hc c) as [Hl _]; [by eapply list_elem_of_lookup_2|].
    destruct (lookup_lt_is_Some_2 c i) as [x Ex]; [lia|]. eauto. }
  unfold cells_at, key_of. rewrite (WhereM.mapM_run_ok _ (λ k, default 0 (c ← columns t !! k; c !! i))), (omap_total _ (λ k, default 0 (c ← columns t !! k; c !! i))); [done| |];
    intros k Hin; destruct (Hx k Hin) as (c & x & E1 & E2); rewrite E1; cbn; by rewrite E2.
Qed.
(** Columns made of rows give the rows back. *)
Lemma of_rows_row ncol rows i r : Forall (λ r, length r = ncol) rows → rows !! i = Some r → omap (λ c : list Z, c !! i) (of_rows ncol rows) = r.
Proof.
  intros Hr Hi. pose proof (proj1 (list.Forall_forall _ _) Hr) as Hr'. unfold of_rows.
  assert (Hcol : ∀ c, (c < ncol)%nat → ∀ k q, rows !! k = Some q → omap (λ r : list Z, r !! c) rows !! k = q !! c).
  { intros c Hc k q Hk. rewrite (omap_total _ (λ r : list Z, default 0 (r !! c))).
    - rewrite list_lookup_fmap, Hk. cbn. destruct (lookup_lt_is_Some_2 q c) as [x E]; [rewrite Hr' by (by eapply list_elem_of_lookup_2); done|]. by rewrite E.
    - intros q' Hq'. destruct (lookup_lt_is_Some_2 q' c) as [x E]; [by rewrite Hr'|]. by rewrite E. }
  transitivity (omap (λ c, r !! c) (seq 0 ncol)); [|apply omap_seq, Hr'; by eapply list_elem_of_lookup_2].
  assert (Hall : ∀ l : list nat, (∀ c, c ∈ l → (c < ncol)%nat) → omap (λ c : list Z, c !! i) ((λ c, omap (λ r : list Z, r !! c) rows) <$> l) = omap (λ c, r !! c) l).
  { induction l as [|c l IH]; intros Hl; [done|]. cbn. rewrite (Hcol c ltac:(set_solver) i r Hi). rewrite IH by set_solver. done. }
  apply Hall. intros c Hc%elem_of_seq. lia.
Qed.
Lemma of_rows_columns ncol rows : Forall (λ r, length r = ncol ∧ Forall (in_u 64) r) rows →
  length (of_rows ncol rows) = ncol ∧ Forall (λ c, length c = length rows ∧ Forall (in_u 64) c) (of_rows ncol rows).
Proof.
  intros Hr. unfold of_rows. split; [by rewrite length_fmap, length_seq|]. apply Forall_fmap, Forall_forall. intros c [_ Hc]%elem_of_seq. cbn.
  induction Hr as [|r rows [Hl Hf] _ (IH1 & IH2)]; [done|]. cbn. destruct (lookup_lt_is_Some_2 r c) as [x E]; [lia|]. rewrite E. cbn. split; [lia|]. constructor; [|done].
  rewrite list.Forall_forall in Hf. apply Hf. by eapply list_elem_of_lookup_2.
Qed.

Section spec.
Context {S0 : Std} {Q0 : Enclosing} (x86_64 : bool).
Lemma name_map_bound names m i n : (∀ k j, m !! k = Some j → (j < n)%nat) → (i + length names <= n)%nat → ∀ k j, name_map m i names !! k = Some j → (j < n)%nat.
Proof.
  revert m i. induction names as [|x names IH]; intros m i Hm Hi k j; [apply Hm|]. cbn [name_map length] in *. apply IH; [|lia]. intros k' j'. rewrite or_insert_lookup.
  destruct (m !! k') eqn:E; [intros [= ->]; by eapply Hm|]. case_bool_decide; [|done]. intros [= <-]. lia.
Qed.
Lemma join_table_ok left right rows : table_ok left → table_ok right → Forall (λ r, length r = (length (columns left) + length (columns right))%nat ∧ Forall (in_u 64) r) rows →
  table_ok (join_table left right rows) ∧ rows_of (join_table left right rows) = rows.
Proof.
  intros [Hl Nl] [Hr Nr] Hrows. destruct (of_rows_columns _ _ Hrows) as [Hlen Hcols]. split; [split|].
  - split; cbn; rewrite ?Hlen, ?length_app, ?length_replicate, ?(ok_types _ Hl), ?(ok_types _ Hr); try done.
    + intros name i. unfold join_map. rewrite !lookup_union_Some_raw, lookup_fmap. intros [H|[_ [H|[_ H]]]].
      * destruct (col_map right !! name) as [j|] eqn:E; [|done]. cbn in H. injection H as <-. apply (ok_map _ Hr) in E. lia.
      * apply (ok_map _ Hl) in H. lia.
      * eapply name_map_bound in H; [exact H|done|]. rewrite length_app, Nl, Nr. lia.
    + intros i sc H. apply lookup_replicate in H as [H _]. done.
  - cbn. rewrite length_app, Hlen. lia.
  - unfold rows_of. cbn [row_count join_table]. apply list_eq. intros i. rewrite list_lookup_fmap. destruct (decide (i < length rows)%nat) as [Hi|Hi].
    + rewrite lookup_seq_lt by done. destruct (lookup_lt_is_Some_2 rows i Hi) as [r E]. rewrite E. cbn. f_equal. unfold row_of. cbn [columns join_table].
      apply (of_rows_row _ rows i r); [|done]. eapply List.Forall_impl; [|exact Hrows]. by intros ? [? _].
    + rewrite lookup_seq_ge, lookup_ge_None_2 by lia. done.
Qed.
Lemma pair_row left right l r : exec_ok left → exec_ok right → (l < row_count left)%nat → (r < row_count right)%nat →
  length (row_of left l ++ row_of right r) = (length (columns left) + length (columns right))%nat ∧ Forall (in_u 64) (row_of left l ++ row_of right r).
Proof.
  intros Hl Hr Il Ir. destruct (row_at_ok left l Hl Il) as (_ & E1 & F1), (row_at_ok right r Hr Ir) as (_ & E2 & F2). rewrite length_app, E1, E2. split; [done|]. by apply Forall_app.
Qed.
Lemma lone_row left right l : exec_ok left → (l < row_count left)%nat →
  length (row_of left l ++ replicate (length (columns right)) 0) = (length (columns left) + length (columns right))%nat ∧ Forall (in_u 64) (row_of left l ++ replicate (length (columns right)) 0).
Proof.
  intros Hl Il. destruct (row_at_ok left l Hl Il) as (_ & E1 & F1). rewrite length_app, E1, length_replicate. split; [done|]. apply Forall_app. split; [done|].
  apply Forall_replicate. unfold in_u. lia.
Qed.
Lemma nested_rows jt left right P : exec_ok left → exec_ok right → Forall (λ r, length r = (length (columns left) + length (columns right))%nat ∧ Forall (in_u 64) r) (nested_join jt left right P).
Proof.
  intros Hl Hr. unfold nested_join. apply Forall_concat, Forall_fmap, Forall_forall. intros l Il%elem_of_seq. cbn. unfold joined.
  destruct (filter _ _) as [|m ms] eqn:E.
  - destruct jt; [done|]. constructor; [|done]. apply lone_row; [done|lia].
  - rewrite <- E. apply Forall_fmap, Forall_forall. intros r [_ Ir%elem_of_seq]%list_elem_of_filter. apply pair_row; [done|done|lia|lia].
Qed.

(** ** The join of an ON clause is the nested loop *)
Lemma build_rows_ok t cols rows m : exec_ok t → Forall (λ k, (k < length (columns t))%nat) cols → Forall (λ r, (r < row_count t)%nat) rows →
  ∃ m', build_rows t cols rows m = Ok m' ∧ ∀ k, default [] (m' !! k) = default [] (m !! k) ++ filter (λ r, key_of t cols r = k) rows.
Proof.
  intros Ht Hk Hr. revert m. induction Hr as [|r rows Ir Hr IH]; intros m; cbn [build_rows].
  - exists m. split; [done|]. intros k. by rewrite app_nil_r.
  - rewrite (cells_at_ok t cols r Ht Ir Hk). cbn [mbind result_bind]. destruct (IH (add_row m (key_of t cols r) r)) as (m' & -> & Hm). exists m'. split; [done|]. intros k. rewrite Hm. unfold add_row.
    rewrite filter_cons. destruct (decide (key_of t cols r = k)) as [<-|Hne]; [rewrite lookup_insert_eq; cbn; by rewrite <- app_assoc|by rewrite lookup_insert_ne].
Qed.
Lemma passing_ok non_equi left right pass l matches : exec_ok left → exec_ok right → (l < row_count left)%nat → Forall (λ r, (r < row_count right)%nat) matches →
  (∀ r, r ∈ matches → eval_non_equi_match non_equi left right l r = Ok (pass r)) →
  passing non_equi left right l (row_at left l) matches = Ok ((λ r, row_of left l ++ row_of right r) <$> filter (λ r, pass r = true) matches).
Proof.
  intros Hl Hr Il Hm He. destruct (row_at_ok left l Hl Il) as [El _]. induction Hm as [|r ms Ir Hm IH]; [done|]. cbn [passing]. rewrite filter_cons.
  assert (Ep : (if bool_decide (non_equi = []) then Ok true else eval_non_equi_match non_equi left right l r) = Ok (pass r)).
  { pose proof (He r ltac:(set_solver)) as E. case_bool_decide as Hn; [|done]. subst. exact E. }
  rewrite Ep. cbn [mbind result_bind]. rewrite IH by set_solver. destruct (pass r); [|done]. destruct (row_at_ok right r Hr Ir) as [Er _]. cbn [mbind result_bind]. by rewrite El, Er.
Qed.
Lemma unmatched_ok jt left right l : exec_ok left → (l < row_count left)%nat →
  unmatched jt left right l = Ok match jt with Left => [row_of left l ++ replicate (length (columns right)) 0] | Inner => [] end.
Proof. intros Hl Il. destruct (row_at_ok left l Hl Il) as [El _], jt; [done|]. cbn. by rewrite El. Qed.
Lemma filter_both (P Q : nat → bool) (l : list nat) : filter (λ r, P r && Q r = true) l = filter (λ r, Q r = true) (filter (λ r, P r = true) l).
Proof.
  induction l as [|x l IH]; [done|]. rewrite !filter_cons, IH. destruct (decide (P x = true)) as [->|Hx]; [by rewrite filter_cons|].
  apply not_true_is_false in Hx. by rewrite Hx.
Qed.
Lemma join_row_ok jt non_equi keys left right build pass l : exec_ok left → exec_ok right → (l < row_count left)%nat →
  Forall (λ k, (k < length (columns left))%nat) (key_left <$> keys) →
  (∀ k, default [] (build !! k) = filter (λ r, key_of right (key_right <$> keys) r = k) (seq 0 (row_count right))) →
  (∀ r, (r < row_count right)%nat → key_of right (key_right <$> keys) r = key_of left (key_left <$> keys) l → eval_non_equi_match non_equi left right l r = Ok (pass l r)) →
  join_row jt non_equi keys left right build l =
  Ok (joined jt left right (λ l r, bool_decide (key_of right (key_right <$> keys) r = key_of left (key_left <$> keys) l) && pass l r) l).
Proof.
  intros Hl Hr Il Hk Hb He. unfold join_row, joined. rewrite (cells_at_ok left _ l Hl Il Hk). cbn [mbind result_bind]. rewrite Hb, filter_both.
  set (key := key_of left _ l). assert (E : filter (λ r, bool_decide (key_of right (key_right <$> keys) r = key) = true) (seq 0 (row_count right)) = filter (λ r, key_of right (key_right <$> keys) r = key) (seq 0 (row_count right))).
  { apply list_filter_iff. intros r. apply bool_decide_eq_true. }
  rewrite E. clear E. destruct (filter (λ r, key_of right _ r = key) _) as [|m ms] eqn:E; [by apply unmatched_ok|]. rewrite <- E. clear E m ms.
  rewrite (passing_ok non_equi left right (pass l)); [|done|done|done| |].
  - cbn [mbind result_bind]. case_bool_decide as En; [apply fmap_nil_inv in En; rewrite En; by apply unmatched_ok|]. by destruct (filter _ (filter _ _)).
  - apply Forall_forall. intros r [_ Hin%elem_of_seq]%list_elem_of_filter. lia.
  - intros r [Hkey Hin%elem_of_seq]%list_elem_of_filter. apply He; [lia|done].
Qed.
(** The keys found in a condition are columns of the two tables. *)
Lemma equi_key_ok l r left right k : exec_ok left → exec_ok right → k ∈ equi_key l r left right → (key_left k < length (columns left))%nat ∧ (key_right k < length (columns right))%nat.
Proof.
  intros Hl Hr. assert (Hc : ∀ e t i, exec_ok t → col_in e t = Some i → (i < length (columns t))%nat).
  { intros e t i Ht. unfold col_in, lookup_col. destruct e; try done. destruct (col_map t !! _) eqn:E; [intros [= <-]|intros E']; by eapply (ok_map _ Ht). }
  unfold equi_key. destruct (col_in l left) eqn:E1, (col_in r right) eqn:E2, (col_in l right) eqn:E3, (col_in r left) eqn:E4; intros Hin; try (by apply not_elem_of_nil in Hin);
    apply list_elem_of_singleton in Hin as ->; cbn; eauto.
Qed.
Lemma extract_keys_ok on left right : exec_ok left → exec_ok right →
  Forall (λ k, (k < length (columns left))%nat) (key_left <$> extract_join_keys on left right) ∧ Forall (λ k, (k < length (columns right))%nat) (key_right <$> extract_join_keys on left right).
Proof.
  intros Hl Hr. assert (H : ∀ k, k ∈ collect_keys on left right → (key_left k < length (columns left))%nat ∧ (key_right k < length (columns right))%nat).
  { intros k. induction on; cbn [collect_keys]; try (by intros ?%not_elem_of_nil). destruct op; try (by intros ?%not_elem_of_nil); [by apply equi_key_ok|].
    intros [Hin|Hin]%elem_of_app; auto. }
  split; apply Forall_fmap, Forall_forall; intros k Hin; by apply H.
Qed.

(** ** The join of the tables of FROM *)
(** The rows of a table under a hashed key, the last first, as the join table lists them. *)
Definition hkey (t : ExecTable) (cols : list nat) (r : nat) : Z := hash_key (key_of t cols r).
Definition hits (t : ExecTable) (cols : list nat) (k : Z) : list nat := reverse (filter (λ r, hkey t cols r = k) (seq 0 (row_count t))).
Lemma build_side_ok t cols rows j h b old : exec_ok t → Forall (λ k, (k < length (columns t))%nat) cols → Forall (λ r, (r < row_count t)%nat) rows →
  (4 <= j < 64)%nat → JoinHashM.holds x86_64 j h old → BloomM.wf b → Z.of_nat (row_count t) < 2 ^ 32 → Z.of_nat (length old + length rows) < 2 ^ 32 →
  ∃ h' b', build_side x86_64 t cols rows h b = Ok (h', b') ∧ JoinHashM.holds x86_64 j h' (reverse ((λ r, (hkey t cols r, Z.of_nat r)) <$> rows) ++ old) ∧
    BloomM.grows b b' ∧ ∀ r, r ∈ rows → BloomM.has x86_64 b' (hkey t cols r) = true.
Proof.
  intros Ht Hk Hr Hj Hh Hb Hn. revert h b old Hh Hb. induction Hr as [|r rows Ir Hr IH]; intros h b old Hh Hb Ho.
  - exists h, b. split; [done|]. split; [done|]. split; [by apply BloomM.grows_refl|]. by intros r ?%not_elem_of_nil.
  - cbn [build_side length] in *. rewrite (cells_at_ok t cols r Ht Ir Hk). cbn [mbind result_bind]. fold (hkey t cols r). rewrite wrap_u_small by (unfold in_u; lia).
    destruct (JoinHashM.insert_holds x86_64 j h old (hkey t cols r) (Z.of_nat r) Hj Hh) as (h1 & -> & Hh1); [lia|]. destruct (BloomM.insert_spec x86_64 b (hkey t cols r) Hb) as (b1 & -> & G1 & B1).
    cbn [or_panic mbind result_bind]. destruct (IH h1 b1 _ Hh1 (proj1 G1)) as (h' & b' & -> & Hh' & G' & B'); [cbn; lia|]. exists h', b'. split; [done|].
    rewrite fmap_cons, reverse_cons, <- app_assoc. split; [done|]. split; [by etrans|]. intros q [->|Hq]%elem_of_cons; [by eapply BloomM.has_grows|auto].
Qed.
Lemma matches_rows t cols k rows : JoinHashM.matches k (reverse ((λ r, (hkey t cols r, Z.of_nat r)) <$> rows)) = Z.of_nat <$> reverse (filter (λ r, hkey t cols r = k) rows).
Proof.
  unfold JoinHashM.matches. rewrite <- fmap_reverse, <- filter_reverse. induction (reverse rows) as [|r l IH]; [done|]. rewrite fmap_cons, !filter_cons. cbn [fst].
  case_decide; [|done]. rewrite !fmap_cons. by f_equal.
Qed.
(** The table and the filter of a build side: every key finds its rows, and the filter
    lets every key of the side through. *)
Lemma build_all t cols : exec_ok t → Forall (λ k, (k < length (columns t))%nat) cols → Z.of_nat (row_count t) < 2 ^ 32 →
  ∃ h b, build_side x86_64 t cols (seq 0 (row_count t)) (JoinHashM.new (row_count t)) (BloomM.new (row_count t)) = Ok (h, b) ∧
    (∀ k, JoinHashM.probe_all x86_64 h k = Some (Z.of_nat <$> hits t cols k)) ∧
    ∀ k, ∃ m, BloomM.might_contain x86_64 b k = Some m ∧ (m = false → hits t cols k = []).
Proof.
  intros Ht Hk Hn. destruct (JoinHashM.holds_new x86_64 (row_count t)) as (j & Hj & H0); [lia|].
  destruct (build_side_ok t cols (seq 0 (row_count t)) j (JoinHashM.new (row_count t)) (BloomM.new (row_count t)) [] Ht Hk) as (h & b & E & Hh & G & B); try done.
  - apply Forall_forall. intros r Hr%elem_of_seq. lia.
  - exact (BloomM.wf_with_hashes (row_count t) 0).
  - rewrite length_seq. cbn. lia.
  - rewrite app_nil_r in Hh. exists h, b. split; [done|]. split.
    + intros k. destruct (JoinHashM.probe_holds x86_64 j h _ k Hj Hh) as [-> _]; [by rewrite length_reverse, length_fmap, length_seq|]. by rewrite matches_rows.
    + intros k. exists (BloomM.has x86_64 b k). split; [apply BloomM.might_contain_spec; by destruct G|]. intros Hf. destruct (hits t cols k) as [|r l] eqn:Eh; [done|]. exfalso.
      assert (Hin : r ∈ hits t cols k) by (rewrite Eh; set_solver). unfold hits in Hin. rewrite elem_of_reverse, list_elem_of_filter in Hin. destruct Hin as [<- Hin]. by rewrite (B r Hin) in Hf.
Qed.

(** What a row of the probe side gives: the pairs with the rows it finds. *)
Definition probed (jt : JoinType2) (swapped : bool) (bk pk : list nat) (left right : ExecTable) (p : nat) : list (list Z) :=
  let '(build, probe) := if swapped then (left, right) else (right, left) in
  match hits build bk (hkey probe pk p) with
  | [] => if swapped then [] else match jt with Left => [row_of left p ++ replicate (length (columns right)) 0] | Inner => [] end
  | ms => (λ m, if swapped then row_of left m ++ row_of right p else row_of left p ++ row_of right m) <$> ms
  end.
Lemma hits_bound t cols k r : r ∈ hits t cols k → (r < row_count t)%nat.
Proof. unfold hits. rewrite elem_of_reverse, list_elem_of_filter, elem_of_seq. lia. Qed.
Lemma probe_row_ok jt (swapped : bool) bk pk left right h b p : exec_ok left → exec_ok right →
  Forall (λ k, (k < length (columns (if swapped then right else left)))%nat) pk → (p < row_count (if swapped then right else left))%nat →
  (∀ k, JoinHashM.probe_all x86_64 h k = Some (Z.of_nat <$> hits (if swapped then left else right) bk k)) →
  (∀ k, ∃ m, BloomM.might_contain x86_64 b k = Some m ∧ (m = false → hits (if swapped then left else right) bk k = [])) →
  probe_row x86_64 jt swapped pk left right h b p = Ok (probed jt swapped bk pk left right p).
Proof.
  intros Hl Hr Hk Hp Hh Hb. unfold probe_row. assert (Ht : exec_ok (if swapped then right else left)) by (by destruct swapped). assert (Ht' : exec_ok (if swapped then left else right)) by (by destruct swapped).
  rewrite (cells_at_ok _ pk p Ht Hp Hk). cbn [mbind result_bind]. fold (hkey (if swapped then right else left) pk p).
  set (none := if swapped then Ok [] else unmatched jt left right p).
  assert (En : hits (if swapped then left else right) bk (hkey (if swapped then right else left) pk p) = [] → none = Ok (probed jt swapped bk pk left right p)).
  { unfold none, probed. destruct swapped; intros E; rewrite E; [done|]. by apply unmatched_ok. }
  destruct (Hb (hkey (if swapped then right else left) pk p)) as (m & -> & Hm). cbn [or_panic mbind result_bind]. destruct m; cbn [negb]; [|by apply En, Hm].
  rewrite Hh. cbn [or_panic mbind result_bind]. destruct (hits _ bk (hkey _ pk p)) as [|m ms] eqn:E; [by apply En|].
  destruct (row_at_ok _ p Ht Hp) as [Ep _]. rewrite Ep. rewrite fmap_cons. cbn [mbind result_bind]. rewrite <- fmap_cons, <- E.
  rewrite (WhereM.mapM_run_ok _ (λ m, if swapped then row_of left (Z.to_nat m) ++ row_of right p else row_of left p ++ row_of right (Z.to_nat m))).
  - f_equal. rewrite <- list_fmap_compose. unfold probed. destruct swapped; rewrite E; apply list_fmap_ext; intros i x _; cbn; by rewrite Nat2Z.id.
  - intros x (y & -> & Hy)%list_elem_of_fmap. rewrite Nat2Z.id. destruct (row_at_ok _ y Ht' (hits_bound _ _ _ _ Hy)) as [-> _]. by destruct swapped.
Qed.
(** The chunks of the probe side are its rows, in order. *)
Lemma chunks_seq n k : concat (chunk_rows n <$> seq 0 k) = seq 0 (Nat.min (k * CHUNK_SIZE) n).
Proof.
  induction k as [|k IH]; [done|]. rewrite seq_S, fmap_app, concat_app, IH. cbn [fmap list_fmap concat Nat.add]. rewrite app_nil_r. unfold chunk_rows. generalize CHUNK_SIZE. intros c.
  replace (S k * c)%nat with (k * c + c)%nat by lia. destruct (decide (k * c <= n)%nat) as [Hc|Hc].
  - rewrite (Nat.min_l (k * c) n) by lia. rewrite <- seq_app. f_equal. lia.
  - rewrite !Nat.min_r by lia. replace (n - k * c)%nat with 0%nat by lia. by rewrite app_nil_r.
Qed.
Lemma num_chunks_enough n : (n <= (n + CHUNK_SIZE - 1) / CHUNK_SIZE * CHUNK_SIZE)%nat.
Proof.
  assert (Hc : (0 < CHUNK_SIZE)%nat) by (unfold CHUNK_SIZE; lia). revert Hc. generalize CHUNK_SIZE. intros c Hc.
  pose proof (Nat.div_mod_eq (n + c - 1) c). pose proof (Nat.mod_upper_bound (n + c - 1) c). nia.
Qed.
Lemma concat_zip_perm {A B} (f g : A → list B) (l : list A) : concat ((λ x, f x ++ g x) <$> l) ≡ₚ concat (f <$> l) ++ concat (g <$> l).
Proof. induction l as [|x l IH]; [done|]. cbn. rewrite IH, <- !app_assoc. apply Permutation_app_head. rewrite !app_assoc. apply Permutation_app_tail, Permutation_app_comm. Qed.
Lemma concat_perm {A B} (f g : A → list B) (l : list A) : (∀ x, x ∈ l → f x ≡ₚ g x) → concat (f <$> l) ≡ₚ concat (g <$> l).
Proof. induction l as [|x l IH]; intros H; [done|]. cbn. rewrite (H x) by set_solver. rewrite IH by set_solver. done. Qed.
(** The pairs of two nested loops, either loop outside. *)
Lemma loops_swap {C} (f : nat → nat → C) (P : nat → nat → bool) (la lb : list nat) :
  concat ((λ b, (λ a, f a b) <$> filter (λ a, P a b = true) la) <$> lb) ≡ₚ concat ((λ a, f a <$> filter (λ b, P a b = true) lb) <$> la).
Proof.
  induction la as [|a la IH]; [by induction lb|]. cbn [fmap list_fmap concat]. fold (fmap (M := list) (λ a, f a <$> filter (λ b, P a b = true) lb) la). rewrite <- IH.
  transitivity (concat ((λ b, (if decide (P a b = true) then [f a b] else []) ++ ((λ a, f a b) <$> filter (λ a, P a b = true) la)) <$> lb)).
  - apply concat_perm. intros b _. rewrite filter_cons. by case_decide.
  - rewrite concat_zip_perm. apply Permutation_app_tail. clear IH. induction lb as [|b lb IH]; [done|]. cbn [fmap list_fmap concat]. rewrite filter_cons. case_decide; cbn; [by f_equiv|done].
Qed.
(** Rows that go together: those whose hashed keys are equal. *)
Definition same_hash (keys : list JoinKey2) (left right : ExecTable) (l r : nat) : bool :=
  bool_decide (hkey left (key_left <$> keys) l = hkey right (key_right <$> keys) r).
Lemma probed_perm jt keys left right l : probed jt false (key_right <$> keys) (key_left <$> keys) left right l ≡ₚ joined jt left right (same_hash keys left right) l.
Proof.
  unfold probed, joined, hits. rewrite (list_filter_iff (λ r, same_hash keys left right l r = true) (λ r, hkey right (key_right <$> keys) r = hkey left (key_left <$> keys) l)).
  2:{ intros r. unfold same_hash. rewrite bool_decide_eq_true. split; congruence. }
  set (ms := filter _ _). destruct (reverse ms) as [|m l'] eqn:E.
  - by destruct ms; [|rewrite reverse_cons in E; by destruct (reverse ms)].
  - rewrite <- E. destruct ms as [|m' ms]; [done|]. by rewrite reverse_Permutation.
Qed.
Lemma probed_swapped keys left right : concat (probed Inner true (key_left <$> keys) (key_right <$> keys) left right <$> seq 0 (row_count right)) ≡ₚ nested_join Inner left right (same_hash keys left right).
Proof.
  unfold nested_join. rewrite (concat_perm (joined _ _ _ _) (λ l, (λ r, row_of left l ++ row_of right r) <$> filter (λ r, same_hash keys left right l r = true) (seq 0 (row_count right)))).
  2:{ intros l _. unfold joined. by destruct (filter _ _). }
  rewrite <- (loops_swap (λ l r, row_of left l ++ row_of right r)). apply concat_perm. intros p _. unfold probed, hits.
  rewrite (list_filter_iff (λ l, same_hash keys left right l p = true) (λ l, hkey left (key_left <$> keys) l = hkey right (key_right <$> keys) p)) by (intros l; apply bool_decide_eq_true).
  set (ms := filter _ _). etrans; [|apply Permutation_map, reverse_Permutation]. by destruct (reverse ms).
Qed.
Lemma chunked_ok (f : nat → run (list (list Z))) (g : nat → list (list Z)) n : (∀ p, (p < n)%nat → f p = Ok (g p)) →
  ∃ parts, mapM_run (λ chunk, rows ← mapM_run f (chunk_rows n chunk); Ok (concat rows)) (seq 0 ((n + CHUNK_SIZE - 1) / CHUNK_SIZE)) = Ok parts ∧ concat parts = concat (g <$> seq 0 n).
Proof.
  intros Hf. exists ((λ chunk, concat (g <$> chunk_rows n chunk)) <$> seq 0 ((n + CHUNK_SIZE - 1) / CHUNK_SIZE)). split.
  - apply WhereM.mapM_run_ok. intros c _. rewrite (WhereM.mapM_run_ok f g); [done|]. intros p. unfold chunk_rows. rewrite elem_of_seq. intros Hp. apply Hf. lia.
  - pose proof (num_chunks_enough n) as Hn. pose proof (chunks_seq n ((n + CHUNK_SIZE - 1) / CHUNK_SIZE)) as Hs. rewrite Nat.min_r in Hs by done. rewrite <- Hs. clear Hs.
    induction (seq 0 _) as [|c l IH]; [done|]. cbn [fmap list_fmap concat]. rewrite fmap_app, concat_app. f_equal. exact IH.
Qed.
Lemma count_first_ok left right rows : (0 < length (columns left))%nat → Forall (λ r, length r = (length (columns left) + length (columns right))%nat ∧ Forall (in_u 64) r) rows →
  count_first (join_table left right rows) = join_table left right rows.
Proof.
  intros Hc Hrows. destruct (of_rows_columns _ _ Hrows) as [Hlen Hcols]. unfold count_first, join_table. cbn. f_equal. destruct (of_rows _ rows) as [|c cs]; [cbn in Hlen; lia|].
  by apply Forall_cons in Hcols as [[-> _] _].
Qed.
Lemma keyed_columns t (cols : list nat) : cols ≠ [] → Forall (λ k, (k < length (columns t))%nat) cols → (0 < length (columns t))%nat.
Proof. intros Hn H. destruct H; [done|lia]. Qed.
Lemma join_by_hash left right keys jt : table_ok left → table_ok right → keys ≠ [] →
  Forall (λ k, (k < length (columns left))%nat) (key_left <$> keys) → Forall (λ k, (k < length (columns right))%nat) (key_right <$> keys) →
  Z.of_nat (row_count left) < 2 ^ 32 → Z.of_nat (row_count right) < 2 ^ 32 →
  ∃ t, hash_join_with_keys x86_64 left right keys jt = Ok t ∧ table_ok t ∧ rows_of t ≡ₚ nested_join jt left right (same_hash keys left right).
Proof.
  intros Hl Hr Hn Kl Kr Nl Nr. pose proof Hl as [El _]. pose proof Hr as [Er _]. assert (Hc : (0 < length (columns left))%nat) by (eapply keyed_columns; [|exact Kl]; by destruct keys).
  assert (Hfin : ∀ rows, rows ≡ₚ nested_join jt left right (same_hash keys left right) → ∃ t, Ok (E := Fault) (count_first (join_table left right rows)) = Ok t ∧ table_ok t ∧ rows_of t ≡ₚ nested_join jt left right (same_hash keys left right)).
  { intros rows Hp. assert (Hf : Forall (λ r, length r = (length (columns left) + length (columns right))%nat ∧ Forall (in_u 64) r) rows) by (rewrite Hp; by apply nested_rows).
    rewrite (count_first_ok _ _ _ Hc Hf). destruct (join_table_ok left right rows Hl Hr Hf) as [Ht Hrows]. eexists. split; [done|]. by rewrite Hrows. }
  unfold hash_join_with_keys. destruct (match jt with Inner => _ | Left => false end) eqn:Es.
  - destruct jt; [|done]. destruct (build_all left _ El Kl Nl) as (h & b & -> & Hh & Hb). cbn [mbind result_bind].
    destruct (chunked_ok (probe_row x86_64 Inner true (key_right <$> keys) left right h b) (probed Inner true (key_left <$> keys) (key_right <$> keys) left right) (row_count right)) as (parts & -> & Ep).
    + intros p Hp. by apply probe_row_ok.
    + cbn [mbind result_bind]. apply Hfin. rewrite Ep. apply probed_swapped.
  - destruct (build_all right _ Er Kr Nr) as (h & b & -> & Hh & Hb). cbn [mbind result_bind].
    destruct (chunked_ok (probe_row x86_64 jt false (key_left <$> keys) left right h b) (probed jt false (key_right <$> keys) (key_left <$> keys) left right) (row_count left)) as (parts & -> & Ep).
    + intros p Hp. by apply probe_row_ok.
    + cbn [mbind result_bind]. apply Hfin. rewrite Ep. apply concat_perm. intros l _. apply probed_perm.
Qed.
Lemma nested_ext jt left right P Q : (∀ l r, (l < row_count left)%nat → (r < row_count right)%nat → P l r = Q l r) → nested_join jt left right P = nested_join jt left right Q.
Proof.
  intros H. unfold nested_join. f_equal. apply list_fmap_ext. intros i l Hl. apply lookup_seq in Hl as [-> Hi]. unfold joined.
  assert (E : filter (λ r, P i r = true) (seq 0 (row_count right)) = filter (λ r, Q i r = true) (seq 0 (row_count right))); [|cbn; by rewrite E].
  generalize (λ r Hr, H i r Hi Hr). clear. assert (Hs : ∀ s : list nat, (∀ r, r ∈ s → P i r = Q i r) → filter (λ r, P i r = true) s = filter (λ r, Q i r = true) s).
  { induction s as [|r s IH]; intros Hs; [done|]. rewrite !filter_cons, (Hs r), IH by set_solver. done. }
  intros H. apply Hs. intros r Hr%elem_of_seq. apply H. lia.
Qed.
(** The keys found in the conjuncts of WHERE are columns of the two tables as well. *)
Lemma find_keys_ok left right conjuncts : exec_ok left → exec_ok right →
  Forall (λ k, (key_left k < length (columns left))%nat ∧ (key_right k < length (columns right))%nat) (find_join_keys left right conjuncts).
Proof.
  intros Hl Hr. assert (Hd : ∀ cs k, k ∈ find_join_keys_direct left right cs → (key_left k < length (columns left))%nat ∧ (key_right k < length (columns right))%nat).
  { intros cs k. unfold find_join_keys_direct. rewrite list_elem_of_In, in_concat. intros (ks & (c & -> & Hc)%list_elem_of_In%list_elem_of_fmap & Hin%list_elem_of_In).
    destruct c; try (by apply not_elem_of_nil in Hin). destruct op; try (by apply not_elem_of_nil in Hin). by eapply equi_key_ok. }
  apply Forall_concat, Forall_fmap, Forall_forall. intros c _. apply Forall_forall. intros k Hin. destruct c; try (by apply not_elem_of_nil in Hin). destruct op; try (by apply not_elem_of_nil in Hin); [by eapply equi_key_ok|].
  unfold find_or_common_keys in Hin. apply list_elem_of_filter in Hin as [_ Hin]. destruct (head _) as [ks|] eqn:Eh; [|by apply not_elem_of_nil in Hin].
  apply head_Some_elem_of, list_elem_of_fmap in Eh as (b & -> & _). by eapply Hd.
Qed.
(** A filtered table has the rows it was asked for. *)
Lemma filter_table_rows t (indices : list nat) : exec_ok t → Forall (λ i, (i < row_count t)%nat) indices → ∃ t', filter_table t indices = Ok t' ∧ rows_of t' = row_of t <$> indices.
Proof.
  intros Ht Hi. rewrite list.Forall_forall in Hi. pose proof (ok_cells _ Ht) as Hc. rewrite list.Forall_forall in Hc. unfold filter_table.
  rewrite (WhereM.mapM_run_ok _ (λ c : list Z, (λ i, default 0 (c !! i)) <$> indices)).
  2:{ intros c Hin. destruct (Hc c Hin) as [Hlen _]. apply WhereM.mapM_run_ok. intros i Hii. destruct (lookup_lt_is_Some_2 c i) as [x ->]; [rewrite Hlen; auto|]. done. }
  cbn [mbind result_bind]. assert (Hs : ∃ ss, mapM_run (λ sc, match sc with Some sc => ss ← mapM_run (get_str sc) indices; Ok (Some (StringColumnM.new ss)) | None => Ok None end) (string_columns t) = Ok ss).
  { eexists. apply (WhereM.mapM_run_ok _ (λ sc, match sc with Some sc => Some (StringColumnM.new ((λ i, match get_str sc i with Ok s => s | Err _ => [] end) <$> indices)) | None => None end)).
    intros [sc|] Hin; [|done]. apply list_elem_of_lookup in Hin as [k Hk]. destruct (ok_strings _ Ht k sc Hk) as (ss & -> & Hlen).
    rewrite (WhereM.mapM_run_ok _ (λ i, match get_str (StringColumnM.new ss) i with Ok s => s | Err _ => [] end)); [done|]. intros i Hii. apply Hi in Hii. rewrite <- Hlen in Hii. destruct (lookup_lt_is_Some_2 ss i Hii) as [s Es]. by rewrite (WhereM.get_new _ _ _ Es). }
  destruct Hs as [ss ->]. cbn [mbind result_bind]. eexists. split; [done|]. unfold rows_of. cbn [row_count]. apply list_eq. intros p. rewrite !list_lookup_fmap.
  destruct (indices !! p) as [i|] eqn:E.
  - rewrite lookup_seq_lt by (by eapply lookup_lt_Some). cbn. f_equal. unfold row_of. cbn [columns]. assert (Hii : (i < row_count t)%nat) by (by eapply Hi, list_elem_of_lookup_2).
    revert Hc. generalize (columns t). induction l as [|c l IH]; intros Hc; [done|]. cbn. rewrite list_lookup_fmap, E. cbn. destruct (Hc c) as [Hlen _]; [set_solver|].
    destruct (lookup_lt_is_Some_2 c i) as [x ->]; [lia|]. cbn. f_equal. apply IH. set_solver.
  - rewrite lookup_seq_ge; [done|]. by apply lookup_ge_None.
Qed.
(** One key column is compared itself. *)
Lemma single_key left right keys l r : exec_ok left → exec_ok right → length keys = 1%nat →
  Forall (λ k, (k < length (columns left))%nat) (key_left <$> keys) → Forall (λ k, (k < length (columns right))%nat) (key_right <$> keys) → (l < row_count left)%nat → (r < row_count right)%nat →
  hash_key (key_of left (key_left <$> keys) l) = hash_key (key_of right (key_right <$> keys) r) → key_of left (key_left <$> keys) l = key_of right (key_right <$> keys) r.
Proof.
  intros Hl Hr Hn Kl Kr Il Ir. assert (H : ∀ t k i, exec_ok t → (k < length (columns t))%nat → (i < row_count t)%nat → ∃ v, key_of t [k] i = [v]).
  { intros t k i Ht Hk Hi. unfold key_of. cbn. destruct (lookup_lt_is_Some_2 (columns t) k Hk) as [c E]. rewrite E. cbn. pose proof (ok_cells _ Ht) as Hc. rewrite list.Forall_forall in Hc.
    destruct (Hc c) as [Hlen _]; [by eapply list_elem_of_lookup_2|]. destruct (lookup_lt_is_Some_2 c i) as [v ->]; [lia|]. by exists v. }
  destruct keys as [|k [|]]; try done. cbn [fmap list_fmap] in *. apply Forall_cons in Kl as [Kl _], Kr as [Kr _].
  destruct (H left _ l Hl Kl Il) as [v ->], (H right _ r Hr Kr Ir) as [w ->]. by intros [= ->].
Qed.
(** The product has the pairs of rows in order. *)
Lemma cross_join_ok left right : table_ok left → table_ok right → ∃ t, cross_join left right = Ok t ∧ rows_of t = nested_join Inner left right (λ _ _, true).
Proof.
  intros Hl Hr. pose proof Hl as [El _]. pose proof Hr as [Er _]. assert (Et : ∀ n, filter (λ _ : nat, true = true) (seq 0 n) = seq 0 n) by (intros n; induction (seq 0 n) as [|x l IH]; [done|]; by rewrite filter_cons, IH).
  assert (En : nested_join Inner left right (λ _ _, true) = (λ p, row_of left p.1 ++ row_of right p.2) <$> list_prod (seq 0 (row_count left)) (seq 0 (row_count right))).
  { unfold nested_join. induction (seq 0 (row_count left)) as [|l ls IH]; [done|]. cbn [fmap list_fmap concat list_prod]. rewrite fmap_app, <- IH. f_equal. unfold joined. rewrite Et.
    rewrite <- (list_fmap_compose (λ r, (l, r))). by destruct (seq 0 (row_count right)). }
  unfold cross_join. destruct (Nat.eqb (row_count left) 0 || Nat.eqb (row_count right) 0) eqn:E0.
  - eexists. split; [done|]. rewrite En. apply orb_true_iff in E0 as [->%Nat.eqb_eq| ->%Nat.eqb_eq]; [done|]. cbn [seq]. clear. by induction (seq 0 (row_count left)) as [|l ls IH].
  - rewrite (WhereM.mapM_run_ok _ (λ p, row_of left p.1 ++ row_of right p.2)).
    + cbn [mbind result_bind]. rewrite <- En. eexists. split; [done|]. apply (join_table_ok left right); [done|done|by apply nested_rows].
    + intros [l r] [Hil Hir]%list_elem_of_In%in_prod_iff. rewrite <- !list_elem_of_In, !elem_of_seq in *. cbn [fst snd].
      destruct (row_at_ok left l El) as [-> _]; [lia|]. destruct (row_at_ok right r Er) as [-> _]; [lia|]. done.
Qed.
(** *** What a condition says of two rows *)
Definition cell_at (t : ExecTable) (k i : nat) : option Z := columns t !! k ≫= λ c : list Z, c !! i.
(** An equality of a column of each table compares their cells; any other conjunct is evaluated. *)
Definition on_holds (left right : ExecTable) (l r : nat) (c : Expr2) : bool :=
  if is_col_eq c then
    match collect_keys c left right with [k] => bool_decide (cell_at left (key_left k) l = cell_at right (key_right k) r) | _ => false end
  else match eval_conjunct c left right l r with Ok v => truthy v | Err _ => false end.

Lemma equi_key_cases x y left right : equi_key x y left right = [] ∨ ∃ k, equi_key x y left right = [k].
Proof. unfold equi_key. repeat case_match; eauto. Qed.
Lemma col_eq_keys c left right : is_col_eq c = false → (∀ x y, c ≠ BinOp And x y) → collect_keys c left right = [].
Proof.
  intros Hc Hand. destruct c; try done. destruct op; try done; [|by destruct (Hand c1 c2)]. cbn [collect_keys]. unfold equi_key, col_in.
  destruct c1, c2; try done; by repeat case_match.
Qed.
Lemma conjunct_shape on c : c ∈ collect_conjuncts on → ∀ x y, c ≠ BinOp And x y.
Proof.
  induction on; cbn [collect_conjuncts]; try (by intros ->%list_elem_of_singleton).
  destruct op; try (by intros ->%list_elem_of_singleton). intros [?|?]%elem_of_app; auto.
Qed.
Lemma collect_keys_conjuncts on left right : collect_keys on left right = concat ((λ c, collect_keys c left right) <$> collect_conjuncts on).
Proof.
  induction on; cbn [collect_conjuncts]; try (cbn [fmap list_fmap concat]; by rewrite app_nil_r).
  destruct op; try (cbn [fmap list_fmap concat]; by rewrite app_nil_r). rewrite fmap_app, concat_app, <- IHon1, <- IHon2. done.
Qed.
Lemma key_of_same left right keys l r : exec_ok left → exec_ok right → (l < row_count left)%nat → (r < row_count right)%nat →
  Forall (λ k, (key_left k < length (columns left))%nat ∧ (key_right k < length (columns right))%nat) keys →
  key_of right (key_right <$> keys) r = key_of left (key_left <$> keys) l ↔ Forall (λ k, cell_at left (key_left k) l = cell_at right (key_right k) r) keys.
Proof.
  intros Hl Hr Il Ir Hk. assert (Hcell : ∀ t k i, exec_ok t → (k < length (columns t))%nat → (i < row_count t)%nat → ∃ v, cell_at t k i = Some v).
  { intros t k i Ht Hk' Hi. destruct (lookup_lt_is_Some_2 _ _ Hk') as [c E]. pose proof (Forall_lookup_1 _ _ _ _ (ok_cells _ Ht) E) as [Hlen _].
    destruct (lookup_lt_is_Some_2 c i) as [v Ev]; [lia|]. exists v. unfold cell_at. by rewrite E. }
  induction Hk as [|k keys [H1 H2] _ IH]; [by split|]. rewrite Forall_cons, <- IH. unfold key_of. cbn [fmap list_fmap omap list_omap].
  fold (cell_at right (key_right k) r) (cell_at left (key_left k) l).
  destruct (Hcell left _ l Hl H1 Il) as [v ->], (Hcell right _ r Hr H2 Ir) as [w ->]. split; [by intros [= -> ->]|by intros [[= ->] ->]].
Qed.
Lemma passes_all cs left right l r b : eval_non_equi_match cs left right l r = Ok b →
  b = forallb (λ c, match eval_conjunct c left right l r with Ok v => truthy v | Err _ => false end) cs.
Proof.
  induction cs as [|c cs IH]; cbn [eval_non_equi_match forallb]; [by intros [= <-]|].
  destruct (eval_conjunct c left right l r) as [v|]; [|done]. cbn [mbind result_bind]. destruct (truthy v); [apply IH|by intros [= <-]].
Qed.
(** The keys and the rest of a condition together are all of its conjuncts. *)
Lemma on_holds_all on left right l r b : exec_ok left → exec_ok right → (l < row_count left)%nat → (r < row_count right)%nat →
  Forall (λ c, is_col_eq c = true → collect_keys c left right ≠ []) (collect_conjuncts on) →
  let keys := extract_join_keys on left right in
  let same := bool_decide (key_of right (key_right <$> keys) r = key_of left (key_left <$> keys) l) in
  (same = true → eval_non_equi_match (non_equi_of on) left right l r = Ok b) →
  same && b = forallb (on_holds left right l r) (collect_conjuncts on).
Proof.
  intros Hl Hr Il Ir Hon keys same Hb. destruct (extract_keys_ok on left right Hl Hr) as [Kl Kr]. fold keys in Kl, Kr. rewrite Forall_fmap in Kl, Kr.
  assert (Kk : Forall (λ k, (key_left k < length (columns left))%nat ∧ (key_right k < length (columns right))%nat) keys) by (apply Forall_and; by split).
  assert (Hsame : same = true ↔ Forall (λ c, is_col_eq c = true → on_holds left right l r c = true) (collect_conjuncts on)).
  { unfold same. rewrite bool_decide_eq_true, key_of_same by done.
    unfold keys, extract_join_keys. rewrite collect_keys_conjuncts, Forall_concat, Forall_fmap, !list.Forall_forall.
    rewrite list.Forall_forall in Hon. split; intros H c Hc; specialize (H c Hc); specialize (Hon c Hc); cbn in *.
    - intros Hcol. specialize (Hon Hcol). unfold on_holds. rewrite Hcol. destruct c; try done. destruct op; try done. cbn [collect_keys] in *.
      destruct (equi_key_cases c1 c2 left right) as [?|[k E]]; [done|]. rewrite E in *. apply bool_decide_eq_true. by inversion H.
    - destruct (is_col_eq c) eqn:Hcol; [|rewrite (col_eq_keys c) by (done || by eapply conjunct_shape); constructor].
      specialize (H eq_refl). specialize (Hon eq_refl). unfold on_holds in H. rewrite Hcol in H. destruct c; try done. destruct op; try done. cbn [collect_keys] in *.
      destruct (equi_key_cases c1 c2 left right) as [?|[k E]]; [done|]. rewrite E in *. constructor; [by apply bool_decide_eq_true in H|constructor]. }
  apply Bool.eq_iff_eq_true. rewrite andb_true_iff, forallb_forall. split.
  - intros [Hs ->] c Hc%list_elem_of_In. specialize (Hb Hs). apply passes_all in Hb. symmetry in Hb. rewrite forallb_forall in Hb.
    rewrite list.Forall_forall in Hsame. destruct (is_col_eq c) eqn:Hcol; [by apply Hsame|]. unfold on_holds. rewrite Hcol. apply Hb, list_elem_of_In.
    by apply list_elem_of_filter.
  - intros H. assert (Hs : same = true) by (apply Hsame, list.Forall_forall; intros c Hc _; by apply H, list_elem_of_In). split; [done|].
    rewrite (passes_all _ _ _ _ _ _ (Hb Hs)), forallb_forall. intros c [Hcol Hc]%list_elem_of_In%list_elem_of_filter.
    specialize (H c (proj1 (list_elem_of_In _ _) Hc)). unfold on_holds in H. by rewrite Hcol in H.
Qed.
End spec.

(** C22: the join of an ON clause.  For well-formed tables and a condition with at least one
    equality between a column of each, the join succeeds, its table is well-formed, and its rows
    are exactly those of the nested loop over both tables, in the same order: each left row with
    the right rows with which it satisfies every conjunct of the condition and, in a left join,
    alone with zeros when there is none.  A conjunct that equates two columns holds when their
    cells are equal (for strings, their hashes), any other when it evaluates to true.  The
    conjuncts that are no such equality must evaluate without a fault on every pair of rows whose
    keys are equal, up to the first that is false.  Every equality of two columns must be between
    a column of the left and one of the right table: one within a table is neither a key nor
    checked (see [same_table_equality_dropped]). *)
Theorem tpch_hash_join_correct (S0 : Std) (Q0 : Enclosing) left right on jt :
  let keys := extract_join_keys on left right in
  table_ok left → table_ok right → keys ≠ [] →
  Forall (λ c, is_col_eq c = true → collect_keys c left right ≠ []) (split_conjuncts (Some on)) →
  (∀ l r, (l < row_count left)%nat → (r < row_count right)%nat → key_of right (key_right <$> keys) r = key_of left (key_left <$> keys) l →
    ∃ b, eval_non_equi_match (non_equi_of on) left right l r = Ok b) →
  ∃ t, hash_join left right on jt = Ok t ∧ table_ok t ∧
    rows_of t = nested_join jt left right (λ l r, forallb (on_holds left right l r) (split_conjuncts (Some on))).
Proof.
  intros keys Hl Hr Hn Hon He. pose proof Hl as [El _]. pose proof Hr as [Er _]. destruct (extract_keys_ok on left right El Er) as [Kl Kr]. unfold hash_join. fold keys. rewrite bool_decide_eq_false_2 by done.
  set (same l r := bool_decide (key_of right (key_right <$> keys) r = key_of left (key_left <$> keys) l)).
  set (pass l r := match eval_non_equi_match (non_equi_of on) left right l r with Ok b => b | Err _ => false end).
  assert (Hp : ∀ l r, (l < row_count left)%nat → (r < row_count right)%nat → same l r = true → eval_non_equi_match (non_equi_of on) left right l r = Ok (pass l r)).
  { intros l r Il Ir Hs%bool_decide_eq_true. unfold pass. by destruct (He l r Il Ir Hs) as [b ->]. }
  rewrite (nested_ext jt left right _ (λ l r, same l r && pass l r)).
  2:{ intros l r Il Ir. symmetry. by apply on_holds_all; try done; apply Hp. }
  destruct (build_rows_ok right (key_right <$> keys) (seq 0 (row_count right)) ∅ Er Kr) as (m & -> & Hm); [apply Forall_forall; intros r Hr'%elem_of_seq; lia|]. cbn [mbind result_bind].
  rewrite (WhereM.mapM_run_ok _ (joined jt left right (λ l r, same l r && pass l r))).
  - cbn [mbind result_bind]. eexists. split; [done|]. apply join_table_ok; [done|done|]. by apply (nested_rows jt left right).
  - intros l Hil%elem_of_seq. apply join_row_ok; try done; [lia|]. intros r Hir Hs. apply Hp; [lia|done|by apply bool_decide_eq_true].
Qed.

(** C21: the join of the tables of FROM.  For well-formed tables of fewer than 2^32 rows, valid keys,
    either hash function and one key column, or several whose hashes never collide, the
    join over the join hash table behind the Bloom filter succeeds whichever side it
    builds on, its table is well-formed, and its rows are those of the nested loop: no
    pair is lost to the filter, to the tags or to a chunk, and none is made up. *)
Theorem tpch_keyed_join_correct (S0 : Std) (x86_64 : bool) left right keys jt :
  let same l r := bool_decide (key_of left (key_left <$> keys) l = key_of right (key_right <$> keys) r) in
  table_ok left → table_ok right → keys ≠ [] →
  Forall (λ k, (key_left k < length (columns left))%nat ∧ (key_right k < length (columns right))%nat) keys →
  Z.of_nat (row_count left) < 2 ^ 32 → Z.of_nat (row_count right) < 2 ^ 32 →
  (length keys = 1%nat ∨ ∀ l r, (l < row_count left)%nat → (r < row_count right)%nat → hash_key (key_of left (key_left <$> keys) l) = hash_key (key_of right (key_right <$> keys) r) → same l r = true) →
  ∃ t, hash_join_with_keys x86_64 left right keys jt = Ok t ∧ table_ok t ∧ rows_of t ≡ₚ nested_join jt left right same.
Proof.
  intros same Hl Hr Hn Hk Nl Nr Hh. assert (Kl : Forall (λ k, (k < length (columns left))%nat) (key_left <$> keys)) by (apply Forall_fmap; eapply List.Forall_impl; [|exact Hk]; by intros k [? _]).
  assert (Kr : Forall (λ k, (k < length (columns right))%nat) (key_right <$> keys)) by (apply Forall_fmap; eapply List.Forall_impl; [|exact Hk]; by intros k [_ ?]).
  destruct (join_by_hash x86_64 left right keys jt Hl Hr Hn Kl Kr Nl Nr) as (t & E & Ht & Hrows). exists t. split; [done|]. split; [done|]. rewrite Hrows.
  erewrite nested_ext; [done|]. intros l r Il Ir. unfold same_hash, same, hkey. apply bool_decide_ext. split; [|by intros ->]. intros Hs. destruct Hh as [H1|Hh]; [|by apply (Hh l r Il Ir), bool_decide_eq_true in Hs].
  apply (single_key left right keys l r (proj1 Hl) (proj1 Hr) H1 Kl Kr Il Ir Hs).
Qed.

(** ** Examples *)
Definition sales : ExecTable := mkExec [[1; 2; 3]; [7; 8; 7]] [K "sale"; K "buyer"] [TInt; TInt] [None; None] 3 (list_to_map [(K "sale", 0%nat); (K "buyer", 1%nat)]).
Definition buyers : ExecTable := mkExec [[7; 8; 7; 9]; [10; 3; 20; 4]] [K "id"; K "limit"] [TInt; TInt] [None; None] 4 (list_to_map [(K "id", 0%nat); (K "limit", 1%nat)]).
Definition on_buyer : Expr2 := BinOp And (BinOp Eq (Col (K "buyer")) (Col (K "id"))) (BinOp Gt (Col (K "limit")) (EInt 5)).
Lemma two_columns t n : length (columns t) = 2%nat → row_count t = n → bool_decide (Forall (λ c, length c = n ∧ Forall (λ v, 0 <= v < 2 ^ 64) c) (columns t)) = true →
  length (col_types t) = 2%nat → string_columns t = [None; None] → bool_decide (map_Forall (λ _ i, (i < 2)%nat) (col_map t)) = true → length (column_names t) = 2%nat → table_ok t.
Proof.
  intros Hlen Hn Hc Hty Hs Hm Hnames. apply bool_decide_eq_true in Hc, Hm. split; [|by rewrite Hlen]. split; rewrite ?Hlen, ?Hn, ?Hs; try done.
  intros [|[|i]] sc; done.
Qed.
Lemma sales_ok : table_ok sales.
Proof. by apply (two_columns _ 3); vm_compute. Qed.
Lemma buyers_ok : table_ok buyers.
Proof. by apply (two_columns _ 4); vm_compute. Qed.
(** The buyer 8 has no limit above five: the sale stays, with zeros. *)
Lemma tpch_hash_join_correct_witness : ∃ t, hash_join (S0 := sample_std) (Q0 := sample_query) sales buyers on_buyer Left = Ok t ∧
  rows_of t = [[1; 7; 7; 10]; [1; 7; 7; 20]; [2; 8; 0; 0]; [3; 7; 7; 10]; [3; 7; 7; 20]].
Proof.
  destruct (tpch_hash_join_correct sample_std sample_query sales buyers on_buyer Left) as (t & E & _ & Hrows).
  - apply sales_ok.
  - apply buyers_ok.
  - by vm_compute.
  - repeat (apply Forall_cons; split; [by vm_compute|]). by apply Forall_nil.
  - intros [|[|[|l]]] [|[|[|[|r]]]] Hl Hr _; cbn in Hl, Hr; try lia; eexists; by vm_compute.
  - exists t. split; [exact E|]. rewrite Hrows. by vm_compute.
Defined.
Lemma tpch_keyed_join_correct_witness : ∃ t, hash_join_with_keys (S0 := sample_std) true sales buyers [mkKey 1 0] Inner = Ok t ∧
  rows_of t ≡ₚ [[1; 7; 7; 10]; [1; 7; 7; 20]; [2; 8; 8; 3]; [3; 7; 7; 10]; [3; 7; 7; 20]].
Proof.
  destruct (tpch_keyed_join_correct sample_std true sales buyers [mkKey 1 0] Inner) as (t & E & _ & Hrows).
  - apply sales_ok.
  - apply buyers_ok.
  - done.
  - apply Forall_cons. split; [|apply Forall_nil_2]. cbn. lia.
  - cbn. lia.
  - cbn. lia.
  - by left.
  - exists t. split; [exact E|]. rewrite Hrows. by vm_compute.
Defined.
(** Without an equality of two columns the condition, and LEFT, are ignored. *)
Lemma left_join_ignored : ∃ t, hash_join (S0 := sample_std) (Q0 := sample_query) sales buyers (BinOp Gt (Col (K "limit")) (EInt 50)) Left = Ok t ∧ length (rows_of t) = 12%nat.
Proof. eexists. split; by vm_compute. Qed.
(** An equality of two columns of one table is neither a key nor checked. *)
Lemma same_table_equality_dropped : ∃ t, hash_join (S0 := sample_std) (Q0 := sample_query) sales buyers (BinOp And (BinOp Eq (Col (K "buyer")) (Col (K "id"))) (BinOp Eq (Col (K "id")) (Col (K "limit")))) Inner = Ok t ∧
  rows_of t = [[1; 7; 7; 10]; [1; 7; 7; 20]; [2; 8; 8; 3]; [3; 7; 7; 10]; [3; 7; 7; 20]].
Proof. eexists. split; by vm_compute. Qed.
(** Two key columns are joined by their hash alone: under a hash that collides, rows with
    different keys are joined. *)
Lemma keyed_join_collides : ∃ t, hash_join_with_keys (S0 := sample_std) true (mkExec [[1]; [2]] [K "a"; K "b"] [TInt; TInt] [None; None] 1 ∅) (mkExec [[1]; [3]] [K "c"; K "d"] [TInt; TInt] [None; None] 1 ∅) [mkKey 0 0; mkKey 1 1] Inner = Ok t ∧
  rows_of t = [[1; 2; 1; 3]].
Proof. eexists. split; by vm_compute. Qed.
End TpchJoinM.
