(* ===== verification/Json.v ===== *)
(** * JSON functions (src/src/exec/json.rs; JSON_VALUE and JSON_QUERY in src/src/engine/mod.rs)

    Paths, reading and changing documents, OPENJSON and FOR JSON PATH, and what the engine
    does with the result of a query that calls JSON_VALUE.  Texts of documents, keys and
    strings are their UTF-8 bytes, paths are characters.  serde_json is the class [Serde]:
    reading and printing a document, and numbers.  An object is the list of its members;
    [map_insert] keeps the order of the keys, as serde_json's map does. *)

From Stdlib Require Import ZArith Lia Ascii String.
From stdpp Require Import prelude list numbers.
From S2P Require Import Prelude Result Lexer Recovery Parser Vectorized Dispatch Statements Auth Pgwire.
Local Open Scope Z_scope.

Module JsonM.
Import LexerM (text, dec).
Import ParserM (K, text_eqb, eq_ignore_ascii_case).
Import VectorizedM (as_bytes, utf8_char, parse_u64, parse_i64).
Import DispatchM (Fault (..), run, str_cmp, starts_with).
Import StatementsM (exec, trim).
Import AuthM (split_on).
Import ResultM (ResultColumn, mkCol, QueryResult, mkResult, string_values).

Inductive Value (N : Type) :=
| Null | Bool (b : bool) | Number (n : N) | Str (s : list Z) | Array (l : list (Value N)) | Object (m : list (list Z * Value N)).
Arguments Null {N}.
Arguments Bool {N} b.
Arguments Number {N} n.
Arguments Str {N} s.
Arguments Array {N} l.
Arguments Object {N} m.

Class Serde (N : Type) := {
  from_str : list Z → option (Value N); to_string : Value N → list Z;
  number_to_string : N → list Z; is_i64 : N → bool; is_u64 : N → bool; of_i64 : Z → N; of_f64 : Z → Value N
}.

Section json.
Context {N : Type} {J : Serde N} (to_lowercase : text → text) (parse_f64 : text → option Z).

(** ** Members *)
Fixpoint map_get (k : list Z) (m : list (list Z * Value N)) : option (Value N) :=
  match m with [] => None | (k', v) :: m => if bool_decide (k' = k) then Some v else map_get k m end.
Fixpoint map_insert (k : list Z) (v : Value N) (m : list (list Z * Value N)) : list (list Z * Value N) :=
  match m with
  | [] => [(k, v)]
  | (k', v') :: m' => match str_cmp k k' with Lt => (k, v) :: m | Eq => (k, v) :: m' | Gt => (k', v') :: map_insert k v m' end
  end.
Definition map_remove (k : list Z) (m : list (list Z * Value N)) : list (list Z * Value N) := filter (λ kv, kv.1 ≠ k) m.
(** A change through [get_mut]. *)
Fixpoint map_update (k : list Z) (f : Value N → Value N) (m : list (list Z * Value N)) : list (list Z * Value N) :=
  match m with [] => [] | (k', v) :: m => if bool_decide (k' = k) then (k', f v) :: m else (k', v) :: map_update k f m end.
Definition get_name (v : Value N) (name : text) : option (Value N) := match v with Object m => map_get (as_bytes name) m | _ => None end.
Definition get_index (v : Value N) (i : Z) : option (Value N) := match v with Array l => l !! Z.to_nat i | _ => None end.

(** ** Paths *)
Fixpoint read_name (cs : text) : text * text :=
  match cs with
  | c :: cs' => if Z.eqb c 46 || Z.eqb c 91 then ([], cs) else let '(n, rest) := read_name cs' in (c :: n, rest)
  | [] => ([], [])
  end.
(** The text up to the closing bracket, which is consumed. *)
Fixpoint read_index (cs : text) : text * text :=
  match cs with
  | c :: cs' => if Z.eqb c 93 then ([], cs') else let '(n, rest) := read_index cs' in (c :: n, rest)
  | [] => ([], [])
  end.
(** The outer option is the fuel, the inner one the result. *)
Fixpoint navigate (fuel : nat) (cs : text) (current : Value N) : option (option (Value N)) :=
  match fuel with
  | O => None
  | S fuel =>
    match cs with
    | [] => Some (Some current)
    | c :: cs =>
      if Z.eqb c 46 then
        let '(name, cs) := read_name cs in
        match get_name current name with Some v => navigate fuel cs v | None => Some None end
      else if Z.eqb c 91 then
        let '(idx_str, cs) := read_index cs in
        match idx ← parse_u64 idx_str; get_index current idx with Some v => navigate fuel cs v | None => Some None end
      else navigate fuel cs current
    end
  end.
Definition navigate_path (v : Value N) (path : text) : option (Value N) :=
  match trim path with
  | c :: path => if Z.eqb c 36 then default None (navigate (S (length path)) path v) else None
  | [] => None
  end.
(** The fields [navigate_path_mut] descends through. *)
Definition mut_fields (path : text) : option (list text) :=
  match trim path with
  | c :: path => if Z.eqb c 36 then Some (filter (λ seg, seg ≠ []) (split_on 46 path)) else None
  | [] => None
  end.
(** A change of what they lead to; nothing when a field is missing. *)
Fixpoint at_fields (fields : list text) (f : Value N → Value N) (v : Value N) : Value N :=
  match fields with
  | [] => f v
  | seg :: fields => match v with Object m => Object (map_update (as_bytes seg) (at_fields fields f) m) | _ => v end
  end.
Definition navigate_path_mut (v : Value N) (path : text) (f : Value N → Value N) : Value N :=
  match mut_fields path with Some fields => at_fields fields f v | None => v end.

(** The text before and after the last dot. *)
Fixpoint rsplit_dot (s : text) : option (text * text) :=
  match s with
  | [] => None
  | c :: s => match rsplit_dot s with Some (a, b) => Some (c :: a, b) | None => if Z.eqb c 46 then Some ([], s) else None end
  end.
Definition on_object (f : list (list Z * Value N) → list (list Z * Value N)) (v : Value N) : Value N := match v with Object m => Object (f m) | _ => v end.
Definition set_path (v : Value N) (path : text) (new_val : Value N) : Value N :=
  match rsplit_dot path with Some (parent, field) => navigate_path_mut v parent (on_object (map_insert (as_bytes field) new_val)) | None => v end.
Definition delete_path (v : Value N) (path : text) : Value N :=
  match rsplit_dot path with Some (parent, field) => navigate_path_mut v parent (on_object (map_remove (as_bytes field))) | None => v end.
Definition append_to_path (v : Value N) (path : text) (new_val : Value N) : Value N :=
  navigate_path_mut v path (λ t, match t with Array l => Array (l ++ [new_val]) | _ => t end).

(** ** Functions *)
Definition scalar_text (val : Value N) : option (list Z) :=
  match val with
  | Null => None
  | Bool b => Some (if b then K "true" else K "false")
  | Number n => Some (number_to_string n)
  | Str s => Some s
  | Object _ | Array _ => None
  end.
Definition json_value (json_str : list Z) (path : text) : option (list Z) :=
  v ← from_str json_str; val ← navigate_path v path; scalar_text val.
Definition json_query (json_str : list Z) (path : text) : option (list Z) :=
  v ← from_str json_str; val ← navigate_path v path;
  match val with Object _ | Array _ => Some (to_string val) | _ => None end.
Definition is_json (s : list Z) : bool := bool_decide (is_Some (from_str s)).
Definition json_path_exists (json_str : list Z) (path : text) : bool :=
  match from_str json_str with Some v => bool_decide (is_Some (navigate_path v path)) | None => false end.

(** [&s[n..]]: a panic inside a character. *)
Fixpoint slice_from (n : nat) (s : text) : run text :=
  match n with
  | O => Ok s
  | _ => match s with
         | [] => Err Panic
         | c :: s => let w := length (utf8_char c) in if Nat.ltb n w then Err Panic else slice_from (n - w) s
         end
  end.
Definition bounded (q : Z) (s : text) : bool := bool_decide (head s = Some q) && bool_decide (list.last s = Some q).
Definition modify_value (value : text) : run (Value N) :=
  if eq_ignore_ascii_case value (K "null") then Ok Null
  else if bounded 39 value then if Nat.leb 2 (length value) then Ok (Str (as_bytes (take (length value - 2) (drop 1 value)))) else Err Panic
  else if bounded 34 value then Ok (default (Str (as_bytes value)) (from_str (as_bytes value)))
  else if text_eqb value (K "true") then Ok (Bool true)
  else if text_eqb value (K "false") then Ok (Bool false)
  else match parse_i64 value with
       | Some n => Ok (Number (of_i64 n))
       | None => match parse_f64 value with Some f => Ok (of_f64 f) | None => Ok (Str (as_bytes value)) end
       end.
Definition json_modify (json_str : list Z) (path value : text) : run (list Z) :=
  let v := default (Object []) (from_str json_str) in
  let is_append := starts_with (K "append ") (to_lowercase path) in
  clean_path ← (if is_append then slice_from 7 path else Ok path);
  new_val ← modify_value value;
  Ok (to_string (if is_append then append_to_path v clean_path new_val
                 else match new_val with Null => delete_path v clean_path | _ => set_path v clean_path new_val end)).

Definition type_str (v : Value N) : list Z :=
  match v with
  | Null => K "null" | Bool _ => K "boolean" | Number n => if is_i64 n then K "int" else if is_u64 n then K "uint" else K "float"
  | Str _ => K "string" | Array _ => K "array" | Object _ => K "object"
  end.
Definition openjson_default (json_str : list Z) : list (list Z * list Z * list Z) :=
  match from_str json_str with
  | Some (Array l) => imap (λ i v, (dec 20 (Z.of_nat i), to_string v, type_str v)) l
  | Some (Object m) => (λ kv, (kv.1, to_string kv.2, type_str kv.2)) <$> m
  | _ => []
  end.
Definition openjson_with_schema (json_str : list Z) (schema : list (text * text)) : list (list (list Z)) :=
  match from_str json_str with
  | Some (Array l) =>
    (λ elem, (λ cp, match navigate_path elem cp.2 with Some Null | None => K "NULL" | Some (Str s) => s | Some v => to_string v end) <$> schema) <$> l
  | _ => []
  end.
Definition row_object (row : list (list Z * list Z)) : Value N :=
  Object (foldl (λ m cv, map_insert cv.1 (default (Str cv.2) (from_str cv.2)) m) [] row).
Definition for_json_path (rows : list (list (list Z * list Z))) : list Z := to_string (Array (row_object <$> rows)).

(** ** JSON_VALUE and JSON_QUERY in a query *)
Record JsonValueCall := mkCall { start : nat; end_ : nat; col_name : text; path : text; is_query : bool; alias : option text; select_position : nat }.
(** The query with every call replaced by its column; the places of calls count characters. *)
Fixpoint rewrite_calls (sql : text) (last_end : nat) (calls : list JsonValueCall) : text :=
  match calls with
  | [] => drop last_end sql
  | c :: calls => take (start c - last_end) (drop last_end sql) ++ col_name c ++ rewrite_calls sql (end_ c) calls
  end.
Definition extract (c : JsonValueCall) (s : list Z) : list Z := default [] (if is_query c then json_query s (path c) else json_value s (path c)).
Definition apply_call (xxh3_64 : list Z → Z) (c : JsonValueCall) (r : QueryResult) : QueryResult :=
  match ResultM.columns r !! select_position c with
  | None => r
  | Some col =>
    match default [] (string_values col) with
    | [] => r
    | strings =>
      let extracted := extract c <$> strings in
      let final_name := default (if is_query c then K "json_query" else K "json_value") (alias c) in
      mkResult (<[select_position c := mkCol (as_bytes final_name) (xxh3_64 <$> extracted) (Some extracted) 25 None]> (ResultM.columns r)) (ResultM.row_count r)
    end
  end.
Definition execute_with_json_value (xxh3_64 : list Z → Z) (execute_inner : text → exec QueryResult) (sql : text) (calls : list JsonValueCall) : exec QueryResult :=
  if bool_decide (calls = []) then execute_inner sql else
  r ← execute_inner (rewrite_calls sql 0 calls);
  mret (foldl (λ r c, apply_call xxh3_64 c r) r calls).
End json.

(** ** What a path means *)
Inductive step := Field (n : text) | Index (i : Z).
#[global] Instance step_eq_dec : EqDecision step.
Proof. solve_decision. Defined.
Definition print_step (s : step) : text := match s with Field n => 46 :: n | Index i => 91 :: dec 20 i ++ [93] end.
Definition print_path (p : list step) : text := 36 :: concat (print_step <$> p).
Definition step_ok (s : step) : Prop := match s with Field n => Forall (λ c, c ≠ 46 ∧ c ≠ 91 ∧ PgwireM.scalar c) n | Index i => in_u 64 i end.
(** A path that is not trimmed. *)
Definition path_ok (p : list step) : Prop := Forall step_ok p ∧ ∀ c, list.last (print_path p) = Some c → RecoveryM.is_whitespace c = false.

Section meaning.
Context {N : Type}.
Implicit Types v : Value N.
Definition step_get v (s : step) : option (Value N) := match s with Field n => get_name v n | Index i => get_index v i end.
Fixpoint steps_get v (p : list step) : option (Value N) := match p with [] => Some v | s :: p => v ← step_get v s; steps_get v p end.

Lemma trim_id s : (∀ c, head s = Some c → RecoveryM.is_whitespace c = false) → (∀ c, list.last s = Some c → RecoveryM.is_whitespace c = false) → trim s = s.
Proof.
  intros Hh Hl. assert (Hd : ∀ s, (∀ c, head s = Some c → RecoveryM.is_whitespace c = false) → StatementsM.drop_white s = s).
  { intros [|c s'] H; [done|]. cbn. by rewrite (H c). }
  unfold trim. rewrite (Hd s Hh), Hd, reverse_involutive; [done|]. intros c. rewrite head_reverse. apply Hl.
Qed.
Lemma read_name_app n rest : Forall (λ c, c ≠ 46 ∧ c ≠ 91 ∧ PgwireM.scalar c) n → (∀ c, head rest = Some c → c = 46 ∨ c = 91) → read_name (n ++ rest) = (n, rest).
Proof.
  intros Hn Hr. induction Hn as [|c n (H1 & H2 & _) _ IH]; cbn.
  - destruct rest as [|c rest]; [done|]. cbn. by destruct (Hr c eq_refl) as [-> | ->].
  - rewrite (proj2 (Z.eqb_neq _ _) H1), (proj2 (Z.eqb_neq _ _) H2). cbn. by rewrite IH.
Qed.
Lemma read_index_app n rest : Forall (λ c, LexerM.is_digit c = true) n → read_index (n ++ 93 :: rest) = (n, rest).
Proof.
  induction 1 as [|c n H _ IH]; [done|]. cbn. assert (c ≠ 93) as Hc by (apply LexerM.digit_range in H; lia). by rewrite (proj2 (Z.eqb_neq _ _) Hc), IH.
Qed.
Lemma prints_head p c : head (concat (print_step <$> p)) = Some c → c = 46 ∨ c = 91.
Proof. destruct p as [|[n|i] p]; cbn; intros; simplify_eq; auto. Qed.
Lemma index_text i : in_u 64 i → Forall (λ c, LexerM.is_digit c = true) (dec 20 i) ∧ parse_u64 (dec 20 i) = Some i.
Proof.
  intros Hi. destruct (LexerM.dec_digits 20 i) as (H1 & H2 & H3); [|lia|].
  { unfold in_u in Hi. split; [lia|]. change (10 ^ Z.of_nat 20) with 100000000000000000000. lia. }
  split; [done|]. assert (Ed : VectorizedM.parse_digits (dec 20 i) = Some i).
  { unfold VectorizedM.parse_digits. rewrite bool_decide_eq_false_2 by done. replace (existsb _ _) with false; [by rewrite H2|]. symmetry. apply not_true_is_false. rewrite existsb_exists.
    intros (c & Hc & Hd). apply list_elem_of_In in Hc. rewrite list.Forall_forall in H1. by rewrite (H1 c Hc) in Hd. }
  unfold parse_u64. destruct (dec 20 i) as [|c l] eqn:E; [done|]. pose proof (Forall_inv H1) as Hc. assert (c ≠ 43) as Hne by (apply LexerM.digit_range in Hc; lia).
  rewrite (proj2 (Z.eqb_neq _ _) Hne). rewrite Ed. cbn. unfold in_u in Hi. by rewrite (proj2 (Z.ltb_lt _ _)) by lia.
Qed.
(** A printed path is followed step by step, within the fuel. *)
Lemma navigate_steps p v fuel : Forall step_ok p → (length (concat (print_step <$> p)) < fuel)%nat → navigate fuel (concat (print_step <$> p)) v = Some (steps_get v p).
Proof.
  intros Hp. revert v fuel. induction Hp as [|s p Hs Hp IH]; intros v fuel Hf; (destruct fuel as [|fuel]; [lia|]); [done|]. destruct s as [n|i]; cbn [fmap list_fmap concat print_step] in *.
  - cbn [app navigate Z.eqb Pos.eqb]. rewrite read_name_app by (done || apply prints_head). cbn [steps_get step_get]. destruct (get_name v n); cbn; [|done]. apply IH. cbn in Hf. rewrite length_app in Hf. lia.
  - destruct (index_text i Hs) as [Hd Hi]. change ((91 :: dec 20 i ++ [93]) ++ concat (print_step <$> p)) with (91 :: (dec 20 i ++ [93]) ++ concat (print_step <$> p)) in *. rewrite <- app_assoc in *. cbn [app navigate Z.eqb Pos.eqb] in *.
    rewrite read_index_app by done. rewrite Hi. cbn [steps_get step_get mbind option_bind]. destruct (get_index v i); cbn; [|done]. apply IH. cbn in Hf. rewrite length_app in Hf. cbn in Hf. lia.
Qed.
(** Any path is followed to its end within the fuel. *)
Lemma navigate_total fuel cs v : (length cs < fuel)%nat → ∃ r, navigate fuel cs v = Some r.
Proof.
  revert cs v. induction fuel as [|fuel IH]; intros cs v Hf; [lia|]. cbn. destruct cs as [|c cs]; [by eexists|]. cbn in Hf.
  assert (Hn : (length (read_name cs).2 <= length cs)%nat) by (clear; induction cs as [|c cs IH]; cbn; [lia|]; destruct (_ || _); cbn; [lia|]; destruct (read_name cs); cbn in *; lia).
  assert (Hi : (length (read_index cs).2 <= length cs)%nat) by (clear; induction cs as [|c cs IH]; cbn; [lia|]; destruct (Z.eqb _ _); cbn; [lia|]; destruct (read_index cs); cbn in *; lia).
  destruct (Z.eqb c 46); [|destruct (Z.eqb c 91)].
  - destruct (read_name cs) as [n rest]. cbn in Hn. destruct (get_name v n); [|by eexists]. apply IH. lia.
  - destruct (read_index cs) as [n rest]. cbn in Hi. destruct (_ ≫= _); [|by eexists]. apply IH. lia.
  - apply IH. lia.
Qed.
Lemma navigate_path_steps v p : path_ok p → navigate_path v (print_path p) = steps_get v p.
Proof.
  intros [Hp Hl]. unfold navigate_path. rewrite trim_id; [|by intros c [= <-]|exact Hl]. cbn [print_path]. rewrite Z.eqb_refl, navigate_steps by (done || lia). done.
Qed.

(** ** Changes *)
Definition diverges (p q : list step) : Prop := ∃ a s t p' q', p = a ++ s :: p' ∧ q = a ++ t :: q' ∧ s ≠ t.
Definition name_ok (n : text) : Prop := n ≠ [] ∧ step_ok (Field n) ∧ ∀ c, list.last n = Some c → RecoveryM.is_whitespace c = false.
Lemma str_cmp_eq a b : str_cmp a b = Eq → a = b.
Proof. revert b. induction a as [|x a IH]; intros [|y b]; cbn; try done. destruct (Z.compare_spec x y); try done. intros E. subst. f_equal. by apply IH. Qed.
Lemma get_insert k k' (v : Value N) m : map_get k' (map_insert k v m) = if bool_decide (k = k') then Some v else map_get k' m.
Proof.
  induction m as [|[j w] m IH]; cbn [map_insert map_get]; [done|]. destruct (str_cmp k j) eqn:E; cbn [map_get].
  - apply str_cmp_eq in E as ->. by case_bool_decide.
  - by case_bool_decide.
  - rewrite IH. case_bool_decide as E1; [|done]. subst. case_bool_decide; [|done]. subst. exfalso. clear -E. induction k' as [|x k IH]; [done|]. cbn in E. rewrite Z.compare_refl in E. auto.
Qed.
Lemma get_remove k k' (m : list (list Z * Value N)) : map_get k' (map_remove k m) = if bool_decide (k = k') then None else map_get k' m.
Proof.
  induction m as [|[j w] m IH]; [by case_bool_decide|]. destruct (decide (j = k)) as [->|Hj].
  - assert (E : map_remove k ((k, w) :: m) = map_remove k m) by (apply filter_cons_False; cbn; tauto). rewrite E, IH. cbn [map_get]. by case_bool_decide.
  - assert (E : map_remove k ((j, w) :: m) = (j, w) :: map_remove k m) by (by apply filter_cons_True). rewrite E. cbn [map_get]. rewrite IH. repeat case_bool_decide; congruence.
Qed.
Lemma get_update k k' f (m : list (list Z * Value N)) : map_get k' (map_update k f m) = if bool_decide (k = k') then f <$> map_get k' m else map_get k' m.
Proof.
  induction m as [|[j w] m IH]; cbn [map_update map_get]; [by case_bool_decide|]. destruct (decide (j = k)) as [->|Hj].
  - rewrite (bool_decide_eq_true_2 (k = k)) by done. cbn [map_get]. destruct (decide (k = k')) as [<-|Hk]; [by rewrite !bool_decide_eq_true_2|by rewrite !bool_decide_eq_false_2].
  - rewrite (bool_decide_eq_false_2 (j = k)) by done. cbn [map_get]. rewrite IH. destruct (decide (j = k')) as [<-|Hk]; [|by rewrite !(bool_decide_eq_false_2 (j = k'))].
    by rewrite !(bool_decide_eq_true_2 (j = j)), !(bool_decide_eq_false_2 (k = j)) by congruence.
Qed.
Lemma bytes_inj a b : step_ok (Field a) → step_ok (Field b) → as_bytes a = as_bytes b → a = b.
Proof.
  intros Ha Hb E. assert (Hs : ∀ n, step_ok (Field n) → PgwireM.from_utf8 (as_bytes n) = Some n) by (intros n Hn; apply PgwireM.from_utf8_as_bytes; eapply List.Forall_impl; [|exact Hn]; by intros c (_ & _ & ?)).
  pose proof (Hs a Ha) as H. rewrite E, (Hs b Hb) in H. congruence.
Qed.
(** What is below the fields is changed, what is beside them is not. *)
Lemma at_fields_ok fs g v m : Forall (λ n, step_ok (Field n)) fs → steps_get v (Field <$> fs) = Some (Object m) →
  (∀ q, steps_get (at_fields fs (on_object g) v) ((Field <$> fs) ++ q) = steps_get (Object (g m)) q) ∧
  (∀ p, Forall step_ok p → diverges p (Field <$> fs) → steps_get (at_fields fs (on_object g) v) p = steps_get v p).
Proof.
  intros Hf. revert v. induction Hf as [|n fs Hn Hf IH]; intros v Hv; cbn [fmap list_fmap steps_get] in Hv.
  - injection Hv as ->. split; [done|]. intros p _ ([|s0 a0] & s & t & p' & q' & _ & Hq & _); done.
  - destruct v as [| | | | |m0]; try done. cbn [step_get get_name mbind option_bind] in Hv. destruct (map_get (as_bytes n) m0) as [v1|] eqn:E; [|done]. destruct (IH v1 Hv) as [IH1 IH2]. cbn [at_fields]. split.
    + intros q. cbn [fmap list_fmap app steps_get step_get get_name]. rewrite get_update, bool_decide_eq_true_2, E by done. cbn. apply IH1.
    + intros p Hp (a & s & t & p' & q' & -> & Hq & Hst). destruct a as [|s0 a]; cbn [app steps_get] in *; injection Hq as <- Hq.
      * destruct s as [n'|i]; [|done]. cbn [step_get get_name]. rewrite get_update, bool_decide_eq_false_2; [done|]. intros Eb. apply Hst. f_equal. symmetry. apply bytes_inj; [done|by apply (Forall_inv Hp)|done].
      * cbn [step_get get_name]. rewrite get_update, bool_decide_eq_true_2, E by done. cbn. apply IH2; [by apply (Forall_inv_tail Hp)|]. by exists a, s, t, p', q'.
Qed.
Lemma rsplit_app a f : Forall (λ c, c ≠ 46 ∧ c ≠ 91 ∧ PgwireM.scalar c) f → rsplit_dot (a ++ 46 :: f) = Some (a, f).
Proof.
  intros Hf. assert (H0 : rsplit_dot f = None) by (induction Hf as [|c f (Hc & _) _ IH]; [done|]; cbn; rewrite IH; by rewrite (proj2 (Z.eqb_neq _ _) Hc)).
  induction a as [|c a IH]; cbn; [by rewrite H0|]. by rewrite IH.
Qed.
Lemma split_name n rest : Forall (λ c, c ≠ 46 ∧ c ≠ 91 ∧ PgwireM.scalar c) n → split_on 46 (n ++ 46 :: rest) = n :: split_on 46 rest ∧ split_on 46 n = [n].
Proof. induction 1 as [|c n (Hc & _) _ [IH1 IH2]]; [done|]. cbn. rewrite (proj2 (Z.eqb_neq _ _) Hc). by rewrite IH1, IH2. Qed.
Lemma split_fields fs : Forall name_ok fs → filter (λ seg : text, seg ≠ []) (split_on 46 (concat (print_step <$> (Field <$> fs)))) = fs.
Proof.
  assert (H : ∀ n, name_ok n → ∀ fs, Forall name_ok fs → filter (λ seg : text, seg ≠ []) (split_on 46 (n ++ concat (print_step <$> (Field <$> fs)))) = n :: fs).
  { intros n Hn fs' Hfs. revert n Hn. induction Hfs as [|n' fs' Hn' Hfs IH]; intros n (Hne & Hok & Hl).
    - cbn. rewrite app_nil_r, (proj2 (split_name n [] Hok)). rewrite filter_cons, decide_True by done. done.
    - cbn [fmap list_fmap concat print_step app]. rewrite (proj1 (split_name n _ Hok)), filter_cons, decide_True by done. f_equal. by apply IH. }
  intros [|n fs' Hn Hfs]; [done|]. cbn [fmap list_fmap concat print_step app split_on]. rewrite Z.eqb_refl, filter_cons, decide_False by (intros Hc; by apply Hc). by apply H.
Qed.
Lemma fields_path_ok fs : Forall name_ok fs → path_ok (Field <$> fs).
Proof.
  intros Hf. split; [apply Forall_fmap; eapply List.Forall_impl; [|exact Hf]; by intros n (_ & ? & _)|]. intros c. destruct fs as [|n fs _] using rev_ind; [by intros [= <-]|].
  apply Forall_app in Hf as [_ Hn]. destruct (Forall_inv Hn) as (Hne & _ & Hl). unfold print_path. rewrite !fmap_app, concat_app. cbn [fmap list_fmap concat print_step]. rewrite app_nil_r.
  change (36 :: concat (print_step <$> (Field <$> fs)) ++ 46 :: n) with ((36 :: concat (print_step <$> (Field <$> fs))) ++ [46] ++ n). rewrite app_assoc, list.last_app. destruct (list.last n) as [x|] eqn:E; [intros [= <-]; by apply Hl|].
  by apply list.last_None in E.
Qed.
Lemma print_snoc fs f : print_path (Field <$> fs ++ [f]) = print_path (Field <$> fs) ++ 46 :: f.
Proof. unfold print_path. rewrite !fmap_app, concat_app. cbn [fmap list_fmap concat print_step]. by rewrite app_nil_r. Qed.
Lemma mut_parent fs : Forall name_ok fs → mut_fields (print_path (Field <$> fs)) = Some fs.
Proof.
  intros Hf. destruct (fields_path_ok fs Hf) as [_ Hl]. unfold mut_fields. rewrite trim_id; [|by intros c [= <-]|exact Hl]. cbn [print_path]. by rewrite Z.eqb_refl, split_fields.
Qed.
Lemma steps_get_app v p q : steps_get v (p ++ q) = steps_get v p ≫= λ w, steps_get w q.
Proof. revert v. induction p as [|s p IH]; intros v; [done|]. cbn. destruct (step_get v s); [apply IH|done]. Qed.
Lemma diverges_snoc p q t : diverges p (q ++ [t]) → diverges p q ∨ ∃ s p', p = q ++ s :: p' ∧ s ≠ t.
Proof.
  intros (a & s & t0 & p' & q' & -> & Hq & Hne). destruct q' as [|x q' _] using rev_ind; [apply app_inj_tail in Hq as [-> ->]; right; eauto|].
  rewrite app_comm_cons, app_assoc in Hq. apply app_inj_tail in Hq as [-> _]. left. by exists a, s, t0, p', q'.
Qed.
(** A change of one member of the object the fields lead to. *)
Lemma change_member fs f g w v m : Forall name_ok (fs ++ [f]) → steps_get v (Field <$> fs) = Some (Object m) →
  (∀ k, map_get k (g m) = if bool_decide (as_bytes f = k) then w else map_get k m) →
  let v' := navigate_path_mut v (print_path (Field <$> fs)) (on_object g) in
  navigate_path v' (print_path (Field <$> fs ++ [f])) = w ∧
  ∀ p, path_ok p → diverges p (Field <$> fs ++ [f]) → navigate_path v' (print_path p) = navigate_path v (print_path p).
Proof.
  intros Hall Hv Hg. pose proof Hall as [Hf Hn]%Forall_app. assert (Hs : Forall (λ n, step_ok (Field n)) fs) by (eapply List.Forall_impl; [|exact Hf]; by intros n (_ & ? & _)).
  unfold navigate_path_mut. rewrite mut_parent by done. destruct (at_fields_ok fs g v m Hs Hv) as [H1 H2]. split.
  - rewrite navigate_path_steps by (by apply fields_path_ok). rewrite fmap_app, H1. cbn. rewrite Hg, bool_decide_eq_true_2 by done. by destruct w.
  - intros p Hp Hd. rewrite !navigate_path_steps by done. rewrite fmap_app in Hd. apply diverges_snoc in Hd as [Hd|(s & p' & -> & Hne)]; [by apply H2, Hd; apply Hp|].
    rewrite H1, steps_get_app, Hv. destruct Hp as [Hp _]. apply Forall_app in Hp as [_ Hp]. destruct s as [n|i]; [|done]. cbn [steps_get step_get get_name mbind option_bind].
    rewrite Hg, bool_decide_eq_false_2; [done|]. intros E. apply Hne. f_equal. symmetry. apply bytes_inj; [by apply (Forall_inv Hn)|by apply (Forall_inv Hp)|done].
Qed.
End meaning.

(** JSON_MODIFY.  In a document where the fields lead to an object, setting or deleting one of
    its members succeeds; following the path in the new document gives the new value, or
    nothing after a deletion, and every path that leaves it at some point gives what it
    gave before.  When serde_json reads the new document back, JSON_VALUE returns the text
    of the new value. *)
Theorem json_modify_correct (N : Type) (J : Serde N) to_lowercase parse_f64 doc v fs f m value nv :
  let path := print_path (Field <$> fs ++ [f]) in
  from_str doc = Some v → Forall name_ok (fs ++ [f]) → steps_get v (Field <$> fs) = Some (Object m) →
  starts_with (K "append ") (to_lowercase path) = false → modify_value parse_f64 value = Ok nv →
  ∃ v', json_modify to_lowercase parse_f64 doc path value = Ok (to_string v') ∧
    navigate_path v' path = match nv with Null => None | _ => Some nv end ∧
    (∀ p, path_ok p → diverges p (Field <$> fs ++ [f]) → navigate_path v' (print_path p) = navigate_path v (print_path p)) ∧
    (from_str (to_string v') = Some v' → json_value (to_string v') path = match nv with Null => None | _ => scalar_text nv end).
Proof.
  intros path Hdoc Hall Hv Ha Hnv. set (g := match nv with Null => map_remove (as_bytes f) | _ => map_insert (as_bytes f) nv end).
  destruct (change_member fs f g match nv with Null => None | _ => Some nv end v m Hall Hv) as [H1 H2].
  { intros k. unfold g. destruct nv; [apply get_remove|apply get_insert..]. }
  exists (navigate_path_mut v (print_path (Field <$> fs)) (on_object g)). split; [|split; [done|split; [done|]]].
  - unfold json_modify. rewrite Ha, Hdoc, Hnv. cbn [mbind result_bind default]. f_equal. f_equal. unfold set_path, delete_path, path, g. rewrite print_snoc, rsplit_app; [by destruct nv|].
    apply Forall_app in Hall as [_ Hn]. by apply (Forall_inv Hn).
  - intros Hr. unfold json_value. rewrite Hr. cbn [mbind option_bind]. unfold path. rewrite H1. by destruct nv.
Qed.

(** ** Columns of a query *)
Section columns.
Context {N : Type} {J : Serde N} (xxh3_64 : list Z → Z).
(** A column the call has been applied to. *)
Definition converted (c : JsonValueCall) (col : ResultColumn) : ResultColumn :=
  match default [] (string_values col) with
  | [] => col
  | ss => mkCol (as_bytes (default (if is_query c then K "json_query" else K "json_value") (alias c))) (xxh3_64 <$> (extract c <$> ss)) (Some (extract c <$> ss)) 25 None
  end.
Lemma apply_call_lookup c r i : ResultM.row_count (apply_call xxh3_64 c r) = ResultM.row_count r ∧
  ResultM.columns (apply_call xxh3_64 c r) !! i = (if decide (select_position c = i) then converted c <$> ResultM.columns r !! i else ResultM.columns r !! i).
Proof.
  unfold apply_call, converted. destruct (ResultM.columns r !! select_position c) as [col|] eqn:E; [|by case_decide; subst; rewrite ?E].
  destruct (default [] (string_values col)) as [|s ss] eqn:Es; (split; [done|]); case_decide as Hi; subst; cbn [ResultM.columns]; rewrite ?E; cbn; rewrite ?Es; try done.
  - rewrite list_lookup_insert_eq by (by eapply lookup_lt_Some). done.
  - by rewrite list_lookup_insert_ne.
Qed.
Lemma apply_calls_lookup calls r i : NoDup (select_position <$> calls) → let r' := foldl (λ r c, apply_call xxh3_64 c r) r calls in
  ResultM.row_count r' = ResultM.row_count r ∧
  (∀ c, c ∈ calls → select_position c = i → ResultM.columns r' !! i = converted c <$> ResultM.columns r !! i) ∧
  (i ∉ select_position <$> calls → ResultM.columns r' !! i = ResultM.columns r !! i).
Proof.
  revert r. induction calls as [|c calls IH]; intros r Hd; cbn [foldl fmap list_fmap] in *; [split_and!; [done| |done]; by intros c ?%not_elem_of_nil|].
  apply list.NoDup_cons in Hd as [Hc Hd]. destruct (IH (apply_call xxh3_64 c r) Hd) as (H1 & H2 & H3), (apply_call_lookup c r i) as [E1 E2]. split; [by rewrite H1|]. split.
  - intros c' [->|Hin]%elem_of_cons Hi; [rewrite H3 by (by rewrite <- Hi); by rewrite E2, decide_True|]. rewrite (H2 c' Hin Hi), E2, decide_False; [done|]. intros Hp. apply Hc. rewrite Hp, <- Hi. by apply list_elem_of_fmap_2.
  - intros [Hne Hni]%not_elem_of_cons. rewrite H3, E2, decide_False by done. done.
Qed.
(** What a call reads from a document that follows its path. *)
Lemma extract_path c s v p : from_str s = Some v → path c = print_path p → path_ok p →
  extract c s = default [] (w ← steps_get v p; if is_query c then match w with Object _ | Array _ => Some (to_string w) | _ => None end else scalar_text w).
Proof.
  intros Hs Hp Ho. unfold extract, json_query, json_value. rewrite Hs, Hp. cbn [mbind option_bind]. rewrite navigate_path_steps by done. by destruct (is_query c).
Qed.
End columns.

(** JSON_VALUE and JSON_QUERY in a select list.  When the query without the calls
    succeeds and no two calls have the same place in the list, the query succeeds with the
    same engine and the same number of rows; the column of a call has, for each document
    of the column it names, the text at the path, and the other columns are unchanged. *)
Theorem json_columns_correct (N : Type) (J : Serde N) xxh3_64 execute_inner sql calls e r e' :
  calls ≠ [] → NoDup (select_position <$> calls) → execute_inner (rewrite_calls sql 0 calls) e = (Ok r, e') →
  ∃ r', execute_with_json_value xxh3_64 execute_inner sql calls e = (Ok r', e') ∧ ResultM.row_count r' = ResultM.row_count r ∧
    (∀ c col s ss, c ∈ calls → ResultM.columns r !! select_position c = Some col → string_values col = Some (s :: ss) →
       ∃ col', ResultM.columns r' !! select_position c = Some col' ∧ string_values col' = Some (extract c <$> s :: ss) ∧ ResultM.values col' = xxh3_64 <$> (extract c <$> s :: ss)) ∧
    (∀ i, i ∉ select_position <$> calls → ResultM.columns r' !! i = ResultM.columns r !! i).
Proof.
  intros Hn Hd He. exists (foldl (λ r c, apply_call xxh3_64 c r) r calls). unfold execute_with_json_value. rewrite bool_decide_eq_false_2 by done. cbn [mbind stM_bind]. unfold mbind, stM_bind. rewrite He. split; [done|].
  split; [by apply (apply_calls_lookup xxh3_64 calls r 0)|]. split.
  - intros c col s ss Hin Hcol Hs. destruct (apply_calls_lookup xxh3_64 calls r (select_position c) Hd) as (_ & H & _). rewrite (H c Hin eq_refl), Hcol. eexists. split; [done|]. unfold converted. by rewrite Hs.
  - intros i Hi. by apply (apply_calls_lookup xxh3_64 calls r i Hd).
Qed.

(** ** Examples *)
(** Numbers as integers, documents without escapes. *)
Fixpoint show (v : Value Z) : list Z :=
  match v with
  | Null => K "null" | Bool b => if b then K "true" else K "false" | Number n => dec 20 n | Str s => 34 :: s ++ [34]
  | Array l => 91 :: concat ((λ v, show v ++ [44]) <$> l) ++ [93]
  | Object m => 123 :: concat ((λ kv, 34 :: kv.1 ++ [34; 58] ++ show kv.2 ++ [44]) <$> m) ++ [125]
  end.
Definition user : Value Z := Object [(K "tags", Array [Str (K "a"); Str (K "b")]); (K "user", Object [(K "age", Number 30); (K "name", Str (K "Bob"))])].
Definition user' : Value Z := Object [(K "tags", Array [Str (K "a"); Str (K "b")]); (K "user", Object [(K "age", Number 31); (K "name", Str (K "Bob"))])].
Definition sample_serde : Serde Z :=
  {| from_str s := if bool_decide (s = show user) then Some user else if bool_decide (s = show user') then Some user' else None;
     to_string := show; number_to_string := dec 20; is_i64 _ := true; is_u64 _ := true; of_i64 := id; of_f64 _ := Null |}.
Lemma json_modify_correct_witness : ∃ v', json_modify (J := sample_serde) id (λ _, None) (show user) (K "$.user.age") (K "31") = Ok (show v') ∧
  navigate_path v' (K "$.user.age") = Some (Number 31).
Proof.
  assert (Hc : ∀ n, forallb (λ c, negb (Z.eqb c 46) && negb (Z.eqb c 91) && Z.leb 0 c && Z.ltb c 0xD800) n = true → step_ok (Field n)).
  { intros n Hb. cbn. apply List.Forall_forall. intros c Hin. rewrite forallb_forall in Hb. specialize (Hb c Hin). unfold PgwireM.scalar. lia. }
  assert (Hn : Forall name_ok [K "user"; K "age"]).
  { repeat apply Forall_cons_2; [..|apply Forall_nil_2]; (split; [done|split; [apply Hc; by vm_compute|by intros c [= <-]]]). }
  destruct (json_modify_correct Z sample_serde id (λ _, None) (show user) user [K "user"] (K "age") [(K "age", Number 30); (K "name", Str (K "Bob"))] (K "31") (Number 31)) as (v' & E & H & _ & _).
  - by vm_compute.
  - exact Hn.
  - by vm_compute.
  - by vm_compute.
  - by vm_compute.
  - exists v'. split; [exact E|exact H].
Defined.
(** A path through an array can be read and not changed: nothing happens when it goes on
    after the index; when it ends there, a member is added whose name has the index. *)
Lemma modify_index_ignored : json_value (J := sample_serde) (show user) (K "$.tags[1]") = Some (K "b") ∧
  json_modify (J := sample_serde) id (λ _, None) (show user) (K "$.tags[1].x") (K "31") = Ok (show user) ∧
  json_modify (J := sample_serde) id (λ _, None) (show user) (K "$.tags[1]") (K "31") ≠ Ok (show user).
Proof. split_and!; by vm_compute. Qed.
(** Text that belongs to no step is skipped, and a lone quote panics. *)
Lemma stray_text_skipped : json_path_exists (J := sample_serde) (show user) (K "$junk") = true ∧
  json_modify (J := sample_serde) id (λ _, None) (show user) (K "$.user") [39] = Err Panic.
Proof. split; by vm_compute. Qed.
End JsonM.
